(* ===== verification/_CoqProject ===== *)
-Q . S2P
Prelude.v
NetworkOrder.v
MessageId.v
LinkedList.v
LifoInbox.v
DefaultMailbox.v
AbstractMailbox.v
AbstractActor.v
LocalActor.v
Effects.v
ActorState.v
ScheduledActor.v
EventLoop.v
ActorShutdown.v
Scheduler.v
BinarySerializer.v
BinaryDeserializer.v
BaspHeader.v
BaspQueue.v
RoutingTable.v
BaspInstance.v
Base64.v
Rfc3629.v
Rfc6455.v
WebSocketFraming.v
LpFraming.v
Transport.v
TransportStream.v
LpTransport.v
SpscBuffer.v
RingBuffer.v
FlowSteps.v
FlowUniform.v
FlowGenerator.v
FlowFromSteps.v
Fsm.v
ReadInteger.v
Printer.v
Ipv4Address.v
Ipv6Address.v
IpSubnet.v
ReadNumber.v
Json.v
JsonRoundtrip.v
Inspector.v
JsonWriter.v
JsonReader.v
FlowMerge.v
FsmExit.v
Uri.v
UriRoundtrip.v
Http.v
StreamLayer.v
HttpServer.v
HttpClient.v
Multipart.v
Uuid.v
WorkerHub.v
FlowConcat.v
Sha1.v
Dictionary.v
WsHandshake.v
Ieee754.v
FlowUcast.v
