(* ===== verification/Prelude.v ===== *)
(** * A verification of the core of CAF, the C++ Actor Framework

    This library models the parts of CAF that carry its own logic and proves
    that they are correct.  Paths are relative to the root of the repository.

    ** The program

    Actors exchange messages through mailboxes.  A message carries an ID
    (libcaf_core/caf/message_id.hpp) that says whether it is asynchronous, a
    request or a response, and which priority it has.  A mailbox
    (libcaf_core/caf/detail/default_mailbox.cpp) combines a lock-free stack that
    any thread may push to (caf/intrusive/lifo_inbox.hpp) with two intrusive
    lists, one per priority (caf/intrusive/linked_list.hpp).  A scheduled actor
    (caf/scheduled_actor.cpp) runs when a scheduler (caf/scheduler.cpp) resumes
    it: it takes messages from its mailbox, matches them against response
    handlers and behaviors, stashes what it skips, and gives up its thread when
    the mailbox is empty.  When it terminates, it answers what is pending and
    tells its links and monitors (caf/abstract_actor.cpp).  Flows that cross
    threads use a bounded buffer with back-pressure (caf/async/spsc_buffer.hpp).

    Between processes, libcaf_io speaks BASP: a header of 32 bytes and a payload
    in CAF's binary format (libcaf_core/caf/binary_serializer.cpp,
    binary_deserializer.cpp).  An instance (libcaf_io/caf/io/basp/instance.cpp)
    handles handshakes, routes messages with a routing table, and lets workers
    deserialize messages in parallel while a queue restores their order.
    libcaf_net stacks protocols on sockets: an octet stream transport
    (libcaf_net/caf/net/octet_stream/transport.cpp) moves bytes between a
    socket and the protocol above: length-prefixed messages, WebSocket, or HTTP.

    ** Files

    - Prelude: machine integers, byte lists, bit lemmas, tactics.
    - NetworkOrder: caf/detail/network_order.hpp on little-endian hosts.
    - MessageId: message_id.hpp, the 64-bit layout of message IDs.
    - LinkedList: intrusive/stack.hpp and linked_list.hpp over an explicit heap
      of [next] pointers.  [represents] relates a list object to a sequence.
    - LifoInbox: intrusive/lifo_inbox.hpp.  The atomic operations of all threads
      interleave in [step]; ghost state records what was pushed and which
      pointers the reader got.
    - DefaultMailbox: detail/default_mailbox.cpp and sync_request_bouncer.cpp on
      top of the two; sequences of operations with the accepted and delivered
      messages.
    - AbstractMailbox: abstract_mailbox.hpp as a class of operations with laws,
      and the default mailbox as its instance; the actors are modelled and
      verified against the class.
    - AbstractActor: abstract_actor.cpp, default_attachable.cpp: monitors,
      links, registration and cleanup of any number of actors.
    - LocalActor: response_promise.cpp, mail_cache.cpp and the IDs of
      local_actor.cpp.
    - Effects: a monad of state, exceptions and undefined behaviour, and the
      framework [keeps] for relations that every computation preserves.
    - ActorState, ScheduledActor: the fields of a scheduled actor, and its
      operations from scheduled_actor.{hpp,cpp}, event_based_actor.cpp,
      behavior_stack.cpp and their helpers.  User code (behaviors, handlers,
      actions, factories) is a function that answers with the operations it
      performs on the actor and a result.
    - EventLoop: [resume] as steps that interleave with [enqueue] of other
      threads; selective receive, exclusive execution and termination.
    - ActorShutdown: [quit], [cleanup] and the closing of the mailbox.
    - Scheduler: caf/scheduler.cpp and detail/double_ended_queue.hpp; workers,
      thieves, other threads and [stop] interleave in [step].
    - BinarySerializer, BinaryDeserializer: the two classes with the encoding as
      a reference; reading returns a value, a failure, or [Undefined] where the
      code has undefined behaviour.
    - BaspHeader: basp/header.{hpp,cpp}, message_type.hpp, connection_state.hpp,
      [instance::write] and the read loop of basp_broker.cpp.
    - BaspQueue: basp/message_queue.cpp.
    - RoutingTable: basp/routing_table.cpp.
    - BaspInstance: the handlers and writers of basp/instance.cpp, and
      basp/remote_message_handler.hpp.
    - Base64, Rfc3629, Rfc6455: detail/base64.cpp (the Base64 codec),
      detail/rfc3629.cpp (UTF-8 validation), libcaf_net/caf/detail/rfc6455.cpp
      (WebSocket frames).
    - WebSocketFraming: libcaf_net/caf/net/web_socket/framing.cpp.
    - LpFraming: libcaf_net/caf/net/lp/framing.cpp.
    - Transport: octet_stream/transport.cpp with the socket manager
      (net/socket_manager.cpp) it drives; TransportStream: its invariants;
      LpTransport: the length-prefix framing on top of it.
    - SpscBuffer: caf/async/spsc_buffer.hpp.  Each critical section is one step;
      [pull] gives up the lock between its steps.
    - RingBuffer: caf/detail/ring_buffer.hpp.
    - FlowSteps: the transformation steps of flows (caf/flow/step), each with the
      function on streams it computes, and pipelines of them; FlowUniform: what
      a pipeline emits does not depend on the object at its end.
    - FlowGenerator: caf/flow/gen and op/from_generator.hpp; FlowFromSteps:
      op/from_steps.hpp; FlowMerge: op/merge.hpp with pullable.cpp; FlowConcat:
      op/concat.hpp; FlowUcast: op/ucast.hpp.  The observer is a function that reacts within
      [on_next]; all events interleave.
    - Fsm: the parser state (caf/parser_state.hpp), parser error codes, and the
      macros of caf/detail/parser/fsm.hpp as an interpreter of state machines,
      with the classes [FsmOk], [FsmOkAt] and [FsmRuns] for machines that always stop.
    - ReadInteger, ReadNumber: read_unsigned_integer.hpp, read_signed_integer.hpp,
      read_number.hpp and read_floating_point.hpp of caf/detail/parser.
    - Printer: caf/detail/print.hpp and detail/parser/read_string.hpp.
    - Ipv4Address, Ipv6Address, IpSubnet: the classes of the same names with their
      parsers, byte_address.hpp and detail/mask_bits.hpp.
    - Json: caf/detail/json.{hpp,cpp}, the values, the parser and the printer;
      JsonRoundtrip: printed values are read back.
    - Inspector: the inspection DSL (inspector_access.hpp, save_inspector_base.hpp,
      load_inspector_base.hpp) against the classes [SaveInspector] and
      [LoadInspector]; JsonWriter, JsonReader: json_writer.cpp and
      json_reader.cpp as their instances.
    - FsmExit: exit statements of terminal states, on top of Fsm.  Uri: uri.cpp,
      uri_builder.cpp, detail/parser/read_uri.hpp and the parser of detail/parse.cpp;
      UriRoundtrip: printed URIs are read back.
    - Http: libcaf_net/caf/net/http: v1.cpp, header.{hpp,cpp}, request_header.cpp,
      response_header.cpp, method.cpp, status.cpp, with what they use of
      caf/string_algorithms.cpp and config_value.cpp.
    - StreamLayer: the loop of the transport that calls a protocol, and the class
      [Expects] of protocols that read a text for every way to cut it;
      HttpServer, HttpClient: net/http/server.cpp and client.cpp as its instances.
      Multipart: multipart_reader.cpp and multipart_writer.cpp.
    - Uuid: caf/uuid.{hpp,cpp}.
    - WorkerHub: detail/abstract_worker_hub.cpp, the lock-free pool from which the
      BASP instance takes its workers; all threads interleave in [step].
    - Sha1: caf/hash/sha1.{hpp,cpp}, against RFC 3174.  Dictionary: caf/dictionary.hpp,
      against finite maps.  WsHandshake: net/web_socket/handshake.cpp, server.cpp and
      client.cpp, the way to the framing of WebSocketFraming, on top of Base64, Sha1,
      Dictionary and Http.
    - Ieee754: caf/detail/ieee_754.hpp on top of [spec_float] of the standard library,
      and the floating point values of the binary format; [Lawful] is what the
      algorithm needs of a type.
    Each file has a module of its own name.  Definitions keep the names of the
    source; overloads get a suffix ([value_bool], [value_span]).

    ** What the theorems show

    - Mailbox: in every run, messages of the same priority are delivered in the
      order in which they were accepted, none lost or duplicated, and [pop_front]
      returns null only if nothing is left; closing answers every pending request
      once, also if its answers make other messages arrive meanwhile.
    - Inbox: for every interleaving of writers and the reader, the stack is
      linearizable, a blocked reader is woken up by exactly one writer, and closing
      is final.
    - Lists: pointer operations implement the operations on sequences and touch
      nothing else.
    - Actors: however workers and senders interleave, at most one worker runs an
      actor and an actor with messages is never forgotten; skipped messages
      come back in their order before newer ones; a request is answered once
      whatever its promise and the copies of it go through; [resume] returns if
      user code does nothing else for messages that it skips; once an actor quits
      it does not run user code again for messages, bounces what is pending,
      and notifies each observer once; links are symmetric.
    - Scheduler: no job is lost or duplicated by stealing; [stop] always finds a
      worker that runs its helper, and returns only when all workers have
      stopped and all jobs are released, except for those that are scheduled
      while it empties the queues.
    - Serialization: writing gives the reference encoding at any position of
      the buffer and keeps the rest; reading it back gives the same values; on
      arbitrary input the deserializer reads nothing behind the end and fails
      cleanly, except for one case, which is stated.
    - BASP: framing round trip; delivery in the order of arrival whatever the
      workers do; lookups return live routes if there are any; the handlers keep
      the table consistent unless they crash, in stated cases, or a peer shakes
      hands twice, relay routed messages unchanged and settle each
      message ID once; dispatch writes the frame that the receiver expects.
    - Transport: protocols see the byte stream of the socket and the socket gets
      theirs, whatever the sizes of reads and writes; messages with a length
      prefix, unless empty or too large, arrive over it for every way to cut the
      stream.
    - Framings: UTF-8 validation accepts exactly the well-formed texts and may
      be resumed; WebSocket messages within the limits are received intact for every
      fragmentation, masking and chunking; illegal headers are refused.
    - SPSC buffer: items are observed in order; demand is conserved, so that a
      connected producer never stalls and never overflows the buffer; no wakeup is
      lost.
    - Flows: a pipeline of steps other than [skip_last(0)] computes the composition
      of functions on lists; observables from containers and transformed observables deliver exactly
      that, in order and never more than requested, for any interleaving of
      requests, cancellation and signals of the source, where requests add up to less
      than 2^64; merging keeps the order of
      each input, loses nothing, and ends with the last input, for observers that do
      not make inputs emit from within [on_next]; concatenating
      delivers one input after the other; a unicast operator delivers what was pushed
      and requested.
    - Parsers: every machine stops on every input; the integer parsers and the
      parser of IPv4 addresses do exactly what a direct definition does, limits
      of the type included; what is printed is read back: integers, strings
      with the exact exception, IP addresses.
    - Subnets: an address belongs to a subnet exactly when its leading bits agree.
    - JSON: on every text the parser returns, stays within its buffers, and
      delivers well-formed values, unless an exponent overflows; printed values of at
      most 128 levels are read back, except for floating point numbers, which are
      printed with six decimal places.
    - Inspectors: the JSON writer prints the JSON form of a value for every
      nesting of objects, optional and variant fields, lists, tuples and maps, and
      the JSON reader loads the same value from the text, except for maps in lists.
    - URIs: on every ASCII text the parser returns without an exception, and a success
      gives a URI with a host or a path, with one exception, which is stated;
      [can_parse] agrees with [make_uri]; printed URIs are read back, for parts whose
      encoding the parser undoes.
    - HTTP: requests and responses, with or without payload, with a length or in
      chunks, reach the application once and in order however the byte stream is
      cut, if the application takes them; on every input the server returns, and gives up for stated reasons only.
      Multipart messages are read back.
    - UUIDs: the parser accepts exactly the texts of the grammar, and printed UUIDs
      are read back.
    - Worker hub: no worker is lost or handed out twice, and waiting for the workers
      ends only when all are back.
    - WebSocket handshake: the request of a client is accepted by a server and its
      response by the client, and both consume exactly these; digests are
      those of RFC 3174 for every message and every way to append it; the
      dictionary behaves as a finite map whatever hints it gets.
    - Floating point numbers: what is not subnormal survives the binary format bit by
      bit; what happens to smaller numbers is stated.
    - Some theorems state where the code falls short of its purpose, e.g.
      handshakes without payload, a write event without data, or a receive
      timeout that is reset when another worker may already run the actor.

    ** Conventions

    An unsigned integer of [w] bits is a [Z] in [0 <= x < 2 ^ w]; wrap-around is
    written with [uwrap] and [swrap]; [size_t] has 64 bits and hosts are
    little-endian.  Pointers are integers and the heap is a finite map;
    [None] (or [Stuck], in the monad) is what an operation returns where the
    code would follow a dangling pointer, where an assertion fails, or where a
    standard function is called outside of its domain ([isprint] in Uri).  Signed
    overflow is a value of its own where the code lets it happen ([Overflowed] in
    ReadNumber) and [None] where guards exclude it (ReadInteger).  The exception is
    [range_check] of BinaryDeserializer, which compares addresses as numbers.  Loops
    whose recursion is not structural take fuel; the wrapper supplies enough of
    it (the number of nodes of the heap for pointer loops, the length of the
    input for readers, the queue and twice the limit of inline actions for
    [run_actions]), and the theorems state that the result is there.  For
    actors, [rounds] bounds the loop that disposes watched flows and [nesting]
    how deep handlers call handlers; both are arbitrary, and a computation that
    exceeds them is [Stuck].  The steps of [resume] need no fuel: they
    are a relation, and [resume_terminates] shows when it is well-founded.  The loop of
    the transport gets fuel from the caller, two rounds per byte in
    [lp_messages_arrive]; its handlers call each other at most twice, since each
    call clears a flag.  A parser gets eight rounds per character, and each
    machine has a rank below eight that its transitions without input decrease.
    The HTTP server gets two rounds of its loop per byte.  The compare-and-swap loops of the inbox are steps of a
    relation, so that other threads may run between two iterations.

    Code outside the repository is a parameter: node IDs and messages have
    abstract readers and writers, [from_integer] is generated by the build, the
    random numbers of the WebSocket client and of thieves, sockets, user code,
    the actor registry.  Atomics are sequentially consistent.

    ** Not modelled

    Launching of actors, detached and blocking actors, [run_scheduled], the
    actor system and its configuration, logging and telemetry, sockets and the
    multiplexers, OpenSSL, the other flow operators, HTTP routes and
    switching protocols, printing of floating point values, ranges in
    [read_number], published actors and
    heartbeats of the BASP instance, sleeping workers of the scheduler, the test
    framework, tools and examples.

    ** Plan

    Next are the multiplexer of libcaf_net and its pollset updates, the other
    flow operators, the remaining operations of the BASP instance, and the layer
    of routes above the HTTP server. *)

(** ** Prelude: machine integers, byte lists and shared automation *)

From Stdlib Require Export ZArith Lia.
From stdpp Require Export base tactics option numbers list.

Declare Scope caf_scope.
Delimit Scope caf_scope with caf.

Open Scope Z_scope.
Open Scope bool_scope.

(** ** Machine-width integers

    An unsigned [w]-bit integer is a [Z] in [0 <= x < 2^w]; casts and
    overflowing arithmetic are written with [uwrap] and [swrap]. *)

Definition uwrap (w x : Z) : Z := x mod 2 ^ w.

Definition swrap (w x : Z) : Z :=
  (x + 2 ^ (w - 1)) mod 2 ^ w - 2 ^ (w - 1).

Definition is_uint (w x : Z) : Prop := 0 <= x < 2 ^ w.

Definition is_sint (w x : Z) : Prop := - 2 ^ (w - 1) <= x < 2 ^ (w - 1).

(** A [std::byte] (or [uint8_t], or the [unsigned char] value of a [char]). *)
Abbreviation byte := Z (only parsing).

Definition is_byte (x : byte) : Prop := 0 <= x < 256.

Definition is_byteb (x : byte) : bool := (0 <=? x) && (x <? 256).

Abbreviation bytes := (list Z) (only parsing).

Definition all_bytes (l : bytes) : Prop := Forall is_byte l.

(** [size_t] is 64 bits wide on the platforms we model. *)
Definition size_max : Z := 2 ^ 64 - 1.

Definition zlen {A} (l : list A) : Z := Z.of_nat (length l).

(** [memcpy] into a buffer at an offset: overwrites in place, never grows. *)
Definition memcpy_at {A} (pos : nat) (src buf : list A) : list A :=
  take pos buf ++ src ++ drop (pos + length src) buf.

(** Bit tests written the way the code writes them: [(x & mask) != 0]. *)
Definition has_bits (x mask : Z) : bool := negb (Z.land x mask =? 0).

Notation "x '.&' y" := (Z.land x y) (at level 40, left associativity) : caf_scope.
Notation "x '.|' y" := (Z.lor x y) (at level 50, left associativity) : caf_scope.
Notation "x '.^' y" := (Z.lxor x y) (at level 45, left associativity) : caf_scope.
Notation "x '.<<' y" := (Z.shiftl x y) (at level 36, left associativity) : caf_scope.
Notation "x '.>>' y" := (Z.shiftr x y) (at level 36, left associativity) : caf_scope.

(** ** Automation *)

Create HintDb caf.
Create Rewrite HintDb caf.

(** Turns boolean comparisons in hypotheses and goal into propositions. *)
Ltac reflect_bools :=
  repeat match goal with
  | H : _ && _ = true |- _ => apply andb_true_iff in H as [? ?]
  | H : _ || _ = false |- _ => apply orb_false_iff in H as [? ?]
  | H : negb _ = true |- _ => apply negb_true_iff in H
  | H : negb _ = false |- _ => apply negb_false_iff in H
  | H : (_ =? _) = true |- _ => apply Z.eqb_eq in H
  | H : (_ =? _) = false |- _ => apply Z.eqb_neq in H
  | H : (_ <=? _) = true |- _ => apply Z.leb_le in H
  | H : (_ <=? _) = false |- _ => apply Z.leb_gt in H
  | H : (_ <? _) = true |- _ => apply Z.ltb_lt in H
  | H : (_ <? _) = false |- _ => apply Z.ltb_ge in H
  | H : (_ =? _)%nat = true |- _ => apply Nat.eqb_eq in H
  | H : (_ =? _)%nat = false |- _ => apply Nat.eqb_neq in H
  | H : (_ <=? _)%nat = true |- _ => apply Nat.leb_le in H
  | H : (_ <=? _)%nat = false |- _ => apply Nat.leb_gt in H
  | H : (_ <? _)%nat = true |- _ => apply Nat.ltb_lt in H
  | H : (_ <? _)%nat = false |- _ => apply Nat.ltb_ge in H
  end.

(** Case analysis on the scrutinee of an [if] in the goal or in a hypothesis. *)
Ltac case_if :=
  match goal with
  | |- context [if ?b then _ else _] => let E := fresh "Hif" in destruct b eqn:E
  | H : context [if ?b then _ else _] |- _ => let E := fresh "Hif" in destruct b eqn:E
  end; reflect_bools.

Ltac bool_lia := reflect_bools; lia.

(** Decides a statement about all bytes by evaluating it 256 times. *)
Definition forall_byteb (P : Z -> bool) : bool :=
  forallb P (map Z.of_nat (List.seq 0 256)).

(** ** Lemmas on machine integers *)

Lemma forall_byteb_spec P x : forall_byteb P = true -> is_byte x -> P x = true.
Proof.
  unfold forall_byteb, is_byte. intros H Hx. rewrite forallb_forall in H.
  apply H, in_map_iff. exists (Z.to_nat x). rewrite in_seq. lia.
Qed.

Lemma is_byteb_spec x : is_byteb x = true <-> is_byte x.
Proof. unfold is_byteb, is_byte. lia. Qed.

#[export] Instance is_byte_dec x : Decision (is_byte x).
Proof. unfold is_byte. apply _. Defined.

#[export] Instance all_bytes_dec l : Decision (all_bytes l).
Proof. unfold all_bytes. apply _. Defined.

Lemma pow2_pos w : 0 <= w -> 0 < 2 ^ w.
Proof. intros. apply Z.pow_pos_nonneg; lia. Qed.

Lemma uwrap_range w x : 0 <= w -> is_uint w (uwrap w x).
Proof. intros. apply Z.mod_pos_bound, pow2_pos; lia. Qed.

Lemma uwrap_id w x : is_uint w x -> uwrap w x = x.
Proof. apply Z.mod_small. Qed.

Lemma swrap_id w x : 0 < w -> is_sint w x -> swrap w x = x.
Proof.
  unfold swrap, is_sint. intros Hw Hx.
  assert (2 ^ w = 2 * 2 ^ (w - 1)) as E.
  { replace w with (Z.succ (w - 1)) at 1 by lia. rewrite Z.pow_succ_r; lia. }
  rewrite Z.mod_small; lia.
Qed.

Lemma swrap_range w x : 0 < w -> is_sint w (swrap w x).
Proof.
  unfold swrap, is_sint. intros Hw.
  assert (2 ^ w = 2 * 2 ^ (w - 1)) as E.
  { replace w with (Z.succ (w - 1)) at 1 by lia. rewrite Z.pow_succ_r; lia. }
  pose proof (Z.mod_pos_bound (x + 2 ^ (w - 1)) (2 ^ w)). 
  pose proof (pow2_pos (w - 1)). lia.
Qed.

(** Casting to unsigned and back to signed is the identity on signed values. *)
Lemma swrap_uwrap w x : 0 < w -> is_sint w x -> swrap w (uwrap w x) = x.
Proof.
  intros Hw Hx. rewrite <- (swrap_id w x) at 2 by done.
  unfold swrap, uwrap. rewrite Zplus_mod_idemp_l. done.
Qed.

(** ** Lemmas on lists *)

Lemma zlen_nonneg {A} (l : list A) : 0 <= zlen l.
Proof. unfold zlen. lia. Qed.

Lemma zlen_app {A} (l k : list A) : zlen (l ++ k) = zlen l + zlen k.
Proof. unfold zlen. rewrite length_app. lia. Qed.

Lemma zlen_nil {A} : zlen (@nil A) = 0.
Proof. done. Qed.

Lemma zlen_cons {A} (x : A) l : zlen (x :: l) = 1 + zlen l.
Proof. unfold zlen. simpl length. lia. Qed.

#[export] Hint Rewrite @zlen_app @zlen_nil @zlen_cons : caf.
#[export] Hint Resolve zlen_nonneg : caf.

Lemma memcpy_at_app {A} (pre mid post src : list A) :
  length mid = length src ->
  memcpy_at (length pre) src (pre ++ mid ++ post) = pre ++ src ++ post.
Proof.
  intros H. unfold memcpy_at. rewrite take_app_length. do 2 f_equal.
  rewrite <- H, (app_assoc pre), <- length_app, drop_app_length. done.
Qed.

Lemma memcpy_at_length {A} pos (src buf : list A) :
  (pos + length src <= length buf)%nat -> length (memcpy_at pos src buf) = length buf.
Proof.
  intros H. unfold memcpy_at. rewrite !length_app, length_take, length_drop. lia.
Qed.

(** ** Lemmas on bits *)

Lemma uint_testbit_high w x n : is_uint w x -> 0 <= w <= n -> Z.testbit x n = false.
Proof.
  intros [H0 H1] Hn. destruct (decide (x = 0)) as [->|]; [apply Z.bits_0|].
  apply Z.bits_above_log2; [done|].
  apply Z.log2_lt_pow2; [lia|]. eapply Z.lt_le_trans; [exact H1|].
  apply Z.pow_le_mono_r; lia.
Qed.

Lemma uint_of_bits w x :
  0 <= w -> (forall n, w <= n -> Z.testbit x n = false) -> is_uint w x.
Proof.
  intros Hw H.
  assert (x = uwrap w x) as ->; [|by apply uwrap_range].
  apply Z.bits_inj'. intros n Hn. unfold uwrap.
  destruct (decide (n < w)).
  - by rewrite Z.mod_pow2_bits_low.
  - rewrite Z.mod_pow2_bits_high by lia. apply H. lia.
Qed.

Lemma uint_lor w x y : 0 <= w -> is_uint w x -> is_uint w y -> is_uint w (Z.lor x y).
Proof.
  intros Hw Hx Hy. apply uint_of_bits; [done|]. intros n Hn.
  by rewrite Z.lor_spec, (uint_testbit_high w x), (uint_testbit_high w y) by done.
Qed.

Lemma uint_lxor w x y : 0 <= w -> is_uint w x -> is_uint w y -> is_uint w (Z.lxor x y).
Proof.
  intros Hw Hx Hy. apply uint_of_bits; [done|]. intros n Hn.
  by rewrite Z.lxor_spec, (uint_testbit_high w x), (uint_testbit_high w y) by done.
Qed.

Lemma uint_land w x y : 0 <= w -> is_uint w x -> is_uint w (Z.land x y).
Proof.
  intros Hw Hx. apply uint_of_bits; [done|]. intros n Hn.
  by rewrite Z.land_spec, (uint_testbit_high w x) by done.
Qed.

Lemma uint_ldiff w x y : 0 <= w -> is_uint w x -> is_uint w (Z.ldiff x y).
Proof.
  intros Hw Hx. apply uint_of_bits; [done|]. intros n Hn.
  by rewrite Z.ldiff_spec, (uint_testbit_high w x) by done.
Qed.

#[export] Hint Resolve uint_lor uint_lxor uint_land uint_ldiff uwrap_range : caf.

(** Masking with a shifted mask reads a bit field. *)
Lemma land_shifted v m k :
  0 <= k -> Z.land v (Z.shiftl m k) = Z.shiftl (Z.land (Z.shiftr v k) m) k.
Proof.
  intros Hk. apply Z.bits_inj'. intros n Hn.
  rewrite Z.land_spec, !Z.shiftl_spec, Z.land_spec by lia.
  destruct (decide (k <= n)).
  - rewrite Z.shiftr_spec by lia. do 2 f_equal. lia.
  - rewrite !(Z.testbit_neg_r _ (n - k)) by lia. by rewrite andb_false_r.
Qed.

(** Testing one bit with a mask. *)
Lemma has_bits_testbit v k : 0 <= k -> has_bits v (Z.shiftl 1 k) = Z.testbit v k.
Proof.
  intros Hk. unfold has_bits. rewrite land_shifted by done.
  replace (Z.land (Z.shiftr v k) 1) with (Z.b2z (Z.testbit v k)).
  - destruct (Z.testbit v k); [|by rewrite Z.shiftl_0_l].
    simpl Z.b2z. rewrite Z.shiftl_1_l. pose proof (pow2_pos k Hk).
    destruct (Z.eqb_spec (2 ^ k) 0); [lia|done].
  - change 1 with (Z.ones 1). rewrite Z.land_ones, Z.shiftr_div_pow2 by lia.
    change (2 ^ 1) with 2. by rewrite Z.testbit_spec'.
Qed.

Lemma ones_testbit k n : 0 <= k -> 0 <= n -> Z.testbit (Z.ones k) n = (n <? k).
Proof.
  intros Hk Hn. destruct (Z.ltb_spec n k).
  - by apply Z.ones_spec_low.
  - by apply Z.ones_spec_high.
Qed.

(** Or-ing in a value below a shifted one is addition. *)
Lemma lor_shiftl_add x y k : 0 <= k -> 0 <= y < 2 ^ k -> Z.lor (Z.shiftl x k) y = x * 2 ^ k + y.
Proof.
  intros Hk Hy. rewrite <- Z.add_lor_land, Z.shiftl_mul_pow2 by done.
  enough (Z.land (x * 2 ^ k) y = 0) by lia.
  apply Z.bits_inj'. intros n Hn. rewrite Z.bits_0, Z.land_spec.
  destruct (Z.ltb_spec n k).
  - rewrite Z.mul_pow2_bits_low by done. done.
  - rewrite (uint_testbit_high k y) by (unfold is_uint; lia). apply andb_false_r.
Qed.
