(* ===== verification/NetworkOrder.v ===== *)
(** * Network byte order (libcaf_core/caf/detail/network_order.hpp) *)

From S2P Require Import Prelude.

(** The object representation of an [n]-byte unsigned integer on the
    little-endian hosts we model: what [memcpy] out of it reads. *)
Fixpoint le_bytes (n : nat) (x : Z) : bytes :=
  match n with
  | O => []
  | S n' => x mod 256 :: le_bytes n' (x / 256)
  end.

(** The integer whose object representation is the given bytes. *)
Fixpoint le_val (l : bytes) : Z :=
  match l with
  | [] => 0
  | b :: l' => b + 256 * le_val l'
  end.

(** [__builtin_bswap16/32/64], with [n] the number of bytes. *)
Definition bswap (n : nat) (x : Z) : Z := le_val (reverse (le_bytes n x)).

Definition to_network_order (n : nat) (x : Z) : Z := bswap n x.

Definition from_network_order (n : nat) (x : Z) : Z := to_network_order n x.

(** Big-endian encoding and decoding: the reference the wire format is
    specified with. *)
Definition be_bytes (n : nat) (x : Z) : bytes := reverse (le_bytes n x).

Definition be_val (l : bytes) : Z := le_val (reverse l).

(** ** Lemmas *)

Lemma le_bytes_length n x : length (le_bytes n x) = n.
Proof. revert x. induction n as [|n IH]; intros x; simpl; [done|]. by rewrite IH. Qed.

Lemma le_bytes_all n x : all_bytes (le_bytes n x).
Proof.
  revert x. induction n as [|n IH]; intros x; simpl; constructor; [|apply IH].
  apply Z.mod_pos_bound. lia.
Qed.

Lemma le_val_range l : all_bytes l -> 0 <= le_val l < 256 ^ zlen l.
Proof.
  induction 1 as [|b l Hb Hl IH]; [done|].
  unfold is_byte in *. simpl. rewrite zlen_cons, Z.pow_add_r by (auto with caf; lia).
  lia.
Qed.

Lemma le_val_bytes n x : le_val (le_bytes n x) = x mod 256 ^ Z.of_nat n.
Proof.
  revert x. induction n as [|n IH]; intros x; simpl le_bytes; simpl le_val.
  { by rewrite Z.mod_1_r. }
  rewrite IH, Nat2Z.inj_succ, Z.pow_succ_r by lia.
  rewrite Z.rem_mul_r by (try apply Z.pow_pos_nonneg; lia). done.
Qed.

Lemma le_bytes_val l : all_bytes l -> le_bytes (length l) (le_val l) = l.
Proof.
  induction 1 as [|b l Hb Hl IH]; [done|]. unfold is_byte in Hb. simpl. f_equal.
  - rewrite Z.mul_comm, Z_mod_plus_full. by apply Z.mod_small.
  - rewrite Z.mul_comm, Z.div_add, Z.div_small, Z.add_0_l by lia. done.
Qed.

Lemma le_val_app l k : le_val (l ++ k) = le_val l + 256 ^ zlen l * le_val k.
Proof.
  induction l as [|b l IH]; [unfold zlen; simpl; lia|]. simpl.
  rewrite IH, zlen_cons, Z.pow_add_r by (auto with caf; lia). ring.
Qed.

Lemma reverse_all_bytes l : all_bytes l -> all_bytes (reverse l).
Proof. apply Forall_reverse. Qed.

Lemma be_bytes_length n x : length (be_bytes n x) = n.
Proof. unfold be_bytes. by rewrite length_reverse, le_bytes_length. Qed.

Lemma be_bytes_all n x : all_bytes (be_bytes n x).
Proof. apply reverse_all_bytes, le_bytes_all. Qed.

Lemma be_val_bytes n x : be_val (be_bytes n x) = x mod 256 ^ Z.of_nat n.
Proof. unfold be_val, be_bytes. rewrite reverse_involutive. apply le_val_bytes. Qed.

Lemma be_bytes_val l : all_bytes l -> be_bytes (length l) (be_val l) = l.
Proof.
  intros H. unfold be_bytes, be_val.
  rewrite <- (length_reverse l), le_bytes_val, reverse_involutive; [done|].
  by apply reverse_all_bytes.
Qed.

Lemma be_val_range l : all_bytes l -> 0 <= be_val l < 256 ^ zlen l.
Proof.
  intros H. unfold be_val. unfold zlen. rewrite <- length_reverse.
  by apply le_val_range, reverse_all_bytes.
Qed.

#[export] Hint Resolve le_bytes_all be_bytes_all : caf.
#[export] Hint Rewrite le_bytes_length be_bytes_length : caf.

(** Copying the byte-swapped integer out of memory yields its big-endian
    encoding. *)
Lemma network_order_bytes n x : le_bytes n (to_network_order n x) = be_bytes n x.
Proof.
  unfold to_network_order, bswap, be_bytes.
  rewrite <- (le_bytes_length n x) at 1. rewrite <- length_reverse.
  apply le_bytes_val, reverse_all_bytes, le_bytes_all.
Qed.

(** Reading [n] bytes into an integer and swapping it decodes big-endian. *)
Lemma network_order_val l :
  all_bytes l -> from_network_order (length l) (le_val l) = be_val l.
Proof.
  intros H. unfold from_network_order, to_network_order, bswap, be_val.
  by rewrite le_bytes_val.
Qed.

Lemma from_to_network_order n x :
  0 <= x < 256 ^ Z.of_nat n -> from_network_order n (to_network_order n x) = x.
Proof.
  intros H. unfold from_network_order.
  unfold to_network_order at 1. unfold bswap. rewrite network_order_bytes.
  unfold be_bytes. rewrite reverse_involutive, le_val_bytes. by apply Z.mod_small.
Qed.
