(* ===== verification/MessageId.v ===== *)
(** * Message IDs (libcaf_core/caf/message_id.hpp)

    A [message_id] packs a response flag, an answered flag, a two-bit message
    category and a 60-bit request number into one [uint64_t].  This file models
    every constant, query and modifier of the class and proves the bit layout
    sound: each operation changes exactly the field it names. *)

From S2P Require Import Prelude.

Open Scope caf_scope.

Module MessageId.

(** ** Constants *)

Definition response_flag_mask : Z := 0x8000000000000000.
Definition answered_flag_mask : Z := 0x4000000000000000.
Definition category_flag_mask : Z := 0x3000000000000000.
Definition request_id_mask : Z := 0x0FFFFFFFFFFFFFFF.
Definition urgent_message_category : Z := 0.
Definition normal_message_category : Z := 1.
Definition category_offset : Z := 60.
Definition default_async_value : Z := 0x1000000000000000.

Inductive message_priority := high | normal.

Definition priority_value (p : message_priority) : Z :=
  match p with high => 0 | normal => 1 end.

Record message_id := mk_message_id { value_ : Z }.

#[export] Instance message_id_eq_dec : EqDecision message_id.
Proof. solve_decision. Defined.

(** Complement of a [uint64_t]. *)
Definition not64 (x : Z) : Z := uwrap 64 (Z.lnot x).

(** ** Constructors *)

Definition default : message_id := mk_message_id default_async_value.

Definition make_normal (value : Z) : message_id :=
  mk_message_id (value .| default_async_value).

Definition make_high (value : Z) : message_id := mk_message_id value.

Definition make_message_id (p : message_priority) (value : Z) : message_id :=
  match p with normal => make_normal value | high => make_high value end.

Definition make_from_priority (p : message_priority) : message_id :=
  mk_message_id (uwrap 64 (priority_value p .<< category_offset)).

(** ** Properties *)

Definition category (m : message_id) : Z :=
  (value_ m .& category_flag_mask) .>> category_offset.

Definition with_category (m : message_id) (x : Z) : message_id :=
  mk_message_id ((value_ m .& not64 category_flag_mask)
                 .| uwrap 64 (x .<< category_offset)).

Definition is_async (m : message_id) : bool :=
  (value_ m =? 0) || (value_ m =? default_async_value).

Definition is_response (m : message_id) : bool :=
  negb (value_ m .& response_flag_mask =? 0).

Definition is_request (m : message_id) : bool :=
  negb (value_ m .& request_id_mask =? 0) && negb (is_response m).

Definition is_answered (m : message_id) : bool :=
  negb (value_ m .& answered_flag_mask =? 0).

Definition is_urgent_message (m : message_id) : bool :=
  category m =? urgent_message_category.

Definition is_normal_message (m : message_id) : bool :=
  category m =? normal_message_category.

Definition priority (m : message_id) : message_priority :=
  if is_urgent_message m then high else normal.

Definition response_id (m : message_id) : message_id :=
  if is_request m then mk_message_id (value_ m .| response_flag_mask)
  else mk_message_id (if is_urgent_message m then 0 else default_async_value).

Definition request_id (m : message_id) : message_id :=
  mk_message_id (value_ m .& request_id_mask).

Definition with_high_priority (m : message_id) : message_id :=
  mk_message_id (value_ m .& not64 category_flag_mask).

Definition with_normal_priority (m : message_id) : message_id :=
  mk_message_id (value_ m .| default_async_value).

Definition integer_value (m : message_id) : Z := value_ m.

(** [compare] subtracts two [int64_t] values; a signed overflow is undefined
    behaviour, modelled by [None]. *)
Definition compare (m other : message_id) : option Z :=
  let d := swrap 64 (value_ m) - swrap 64 (value_ other) in
  if (- 2 ^ 63 <=? d) && (d <? 2 ^ 63) then Some d else None.

(** What two's complement hardware computes for the same expression; this is
    what [comparable] derives [==] and [<] from. *)
Definition compare_hw (m other : message_id) : Z :=
  swrap 64 (swrap 64 (value_ m) - swrap 64 (value_ other)).

Definition eqb (m other : message_id) : bool := compare_hw m other =? 0.

Definition ltb (m other : message_id) : bool := compare_hw m other <? 0.

(** ** Modifiers *)

Definition mark_as_answered (m : message_id) : message_id :=
  mk_message_id (value_ m .| answered_flag_mask).

Definition incr (m : message_id) : message_id :=
  mk_message_id (uwrap 64 (value_ m + 1)).

(** ** Well-formedness and the bit layout *)

Definition wf (m : message_id) : Prop := is_uint 64 (value_ m).

(** The four fields, read off the layout independently of the code's masks. *)
Definition response_bit (m : message_id) : bool := Z.testbit (value_ m) 63.
Definition answered_bit (m : message_id) : bool := Z.testbit (value_ m) 62.
Definition category_field (m : message_id) : Z := (value_ m / 2 ^ 60) mod 4.
Definition request_field (m : message_id) : Z := value_ m mod 2 ^ 60.

(** Rebuilds a value from its fields. *)
Definition layout (r a : bool) (c n : Z) : Z :=
  Z.b2z r * 2 ^ 63 + Z.b2z a * 2 ^ 62 + c * 2 ^ 60 + n.

(** ** Lemmas on the masks *)

Lemma response_mask_eq : response_flag_mask = 1 .<< 63. Proof. done. Qed.
Lemma answered_mask_eq : answered_flag_mask = 1 .<< 62. Proof. done. Qed.
Lemma category_mask_eq : category_flag_mask = 3 .<< 60. Proof. done. Qed.
Lemma request_mask_eq : request_id_mask = Z.ones 60. Proof. done. Qed.
Lemma async_mask_eq : default_async_value = 1 .<< 60. Proof. done. Qed.

Lemma land_not64 v m : is_uint 64 v -> v .& not64 m = Z.ldiff v m.
Proof.
  intros Hv. apply Z.bits_inj'. intros n Hn.
  rewrite Z.land_spec, Z.ldiff_spec. unfold not64, uwrap.
  destruct (decide (n < 64)).
  - by rewrite Z.mod_pow2_bits_low, Z.lnot_spec by lia.
  - by rewrite (uint_testbit_high 64 v n) by (done || lia).
Qed.

Lemma is_response_bit m : is_response m = response_bit m.
Proof. apply (has_bits_testbit (value_ m) 63). lia. Qed.

Lemma is_answered_bit m : is_answered m = answered_bit m.
Proof. apply (has_bits_testbit (value_ m) 62). lia. Qed.

Lemma category_field_eq m : category m = category_field m.
Proof.
  unfold category, category_field. rewrite category_mask_eq, land_shifted by lia.
  unfold category_offset. rewrite Z.shiftr_shiftl_l, Z.shiftl_0_r by lia.
  change 3 with (Z.ones 2). by rewrite Z.land_ones, Z.shiftr_div_pow2 by lia.
Qed.

Lemma request_field_eq m : value_ m .& request_id_mask = request_field m.
Proof. rewrite request_mask_eq, Z.land_ones by lia. done. Qed.

(** Two IDs with the same fields have the same value. *)
Lemma layout_fields m :
  wf m ->
  value_ m = layout (response_bit m) (answered_bit m) (category_field m) (request_field m).
Proof.
  unfold wf, is_uint, layout, response_bit, answered_bit, category_field, request_field.
  intros H. rewrite !Z.testbit_spec' by lia.
  change (2 ^ 63) with 9223372036854775808. change (2 ^ 62) with 4611686018427387904.
  change (2 ^ 60) with 1152921504606846976. change (2 ^ 64) with 18446744073709551616 in H.
  Z.div_mod_to_equations. lia.
Qed.

(** Reading the fields off an explicit layout. *)
Lemma fields_of_layout r a c n m :
  0 <= c < 4 -> 0 <= n < 2 ^ 60 -> value_ m = layout r a c n ->
  wf m /\ response_bit m = r /\ answered_bit m = a /\ category_field m = c /\ request_field m = n.
Proof.
  unfold wf, is_uint, layout, response_bit, answered_bit, category_field, request_field.
  intros Hc Hn ->.
  assert (0 <= Z.b2z r <= 1) by (destruct r; simpl; lia).
  assert (0 <= Z.b2z a <= 1) by (destruct a; simpl; lia).
  change (2 ^ 63) with 9223372036854775808. change (2 ^ 62) with 4611686018427387904.
  change (2 ^ 60) with 1152921504606846976 in *. change (2 ^ 64) with 18446744073709551616.
  split; [lia|]. repeat split.
  - apply Z.b2z_inj. rewrite Z.testbit_spec' by lia.
    change (2 ^ 63) with 9223372036854775808. Z.div_mod_to_equations. lia.
  - apply Z.b2z_inj. rewrite Z.testbit_spec' by lia.
    change (2 ^ 62) with 4611686018427387904. Z.div_mod_to_equations. lia.
  - Z.div_mod_to_equations. lia.
  - Z.div_mod_to_equations. lia.
Qed.

(** ** The fields commute with the bit operations *)

Lemma category_field_land m : category_field m = Z.land (Z.shiftr (value_ m) 60) (Z.ones 2).
Proof. unfold category_field. by rewrite Z.land_ones, Z.shiftr_div_pow2 by lia. Qed.

Lemma request_field_land m : request_field m = Z.land (value_ m) (Z.ones 60).
Proof. unfold request_field. by rewrite Z.land_ones by lia. Qed.

Lemma fields_lor x y :
  response_bit (mk_message_id (x .| y)) = Z.testbit x 63 || Z.testbit y 63 /\
  answered_bit (mk_message_id (x .| y)) = Z.testbit x 62 || Z.testbit y 62 /\
  category_field (mk_message_id (x .| y))
    = category_field (mk_message_id x) .| category_field (mk_message_id y) /\
  request_field (mk_message_id (x .| y))
    = request_field (mk_message_id x) .| request_field (mk_message_id y).
Proof.
  unfold response_bit, answered_bit. rewrite !category_field_land, !request_field_land.
  cbn [value_]. rewrite !Z.lor_spec, Z.shiftr_lor, !Z.land_lor_distr_l. done.
Qed.

Lemma fields_ldiff x y :
  response_bit (mk_message_id (Z.ldiff x y)) = Z.testbit x 63 && negb (Z.testbit y 63) /\
  answered_bit (mk_message_id (Z.ldiff x y)) = Z.testbit x 62 && negb (Z.testbit y 62) /\
  category_field (mk_message_id (Z.ldiff x y))
    = Z.ldiff (category_field (mk_message_id x)) (Z.shiftr y 60) /\
  request_field (mk_message_id (Z.ldiff x y))
    = Z.ldiff (request_field (mk_message_id x)) y.
Proof.
  unfold response_bit, answered_bit. rewrite !category_field_land, !request_field_land.
  cbn [value_]. rewrite !Z.ldiff_spec, Z.shiftr_ldiff. repeat split.
  - apply Z.bits_inj'. intros n Hn. rewrite !Z.land_spec, !Z.ldiff_spec, Z.land_spec.
    by destruct (Z.testbit _ n), (Z.testbit (Z.ones 2) n), (Z.testbit _ n).
  - apply Z.bits_inj'. intros n Hn. rewrite !Z.land_spec, !Z.ldiff_spec, Z.land_spec.
    by destruct (Z.testbit x n), (Z.testbit (Z.ones 60) n), (Z.testbit y n).
Qed.

Lemma category_field_range m : 0 <= category_field m < 4.
Proof. apply Z.mod_pos_bound. lia. Qed.

Lemma request_field_range m : 0 <= request_field m < 2 ^ 60.
Proof. apply Z.mod_pos_bound. lia. Qed.

Lemma is_request_fields m :
  is_request m = negb (request_field m =? 0) && negb (response_bit m).
Proof. unfold is_request. by rewrite request_field_eq, is_response_bit. Qed.

Lemma response_id_of_request m :
  is_request m = true -> response_id m = mk_message_id (value_ m .| response_flag_mask).
Proof. intros H. unfold response_id. by rewrite H. Qed.

Lemma fields_response m :
  let r := mk_message_id (value_ m .| response_flag_mask) in
  response_bit r = true /\ answered_bit r = answered_bit m /\
  category_field r = category_field m /\ request_field r = request_field m.
Proof.
  destruct m as [v]. cbn [value_].
  destruct (fields_lor v response_flag_mask) as (Hr & Ha & Hc & Hq).
  rewrite Hr, Ha, Hc, Hq.
  change (category_field (mk_message_id response_flag_mask)) with 0.
  change (request_field (mk_message_id response_flag_mask)) with 0.
  change (Z.testbit response_flag_mask 63) with true.
  change (Z.testbit response_flag_mask 62) with false.
  rewrite !Z.lor_0_r, orb_true_r, orb_false_r. done.
Qed.

Lemma fields_with_category m c :
  wf m -> 0 <= c < 4 ->
  let r := with_category m c in
  wf r /\ response_bit r = response_bit m /\ answered_bit r = answered_bit m /\
  category_field r = c /\ request_field r = request_field m.
Proof.
  intros Hwf Hc. destruct m as [v]. unfold with_category. cbn [value_]. unfold wf in *.
  cbn [value_] in *. rewrite land_not64 by done.
  assert (uwrap 64 (c .<< 60) = c .<< 60) as E.
  { apply uwrap_id. unfold is_uint. rewrite Z.shiftl_mul_pow2; lia. }
  unfold category_offset. rewrite E.
  assert (is_uint 64 (c .<< 60)) by (rewrite <- E; by apply uwrap_range).
  split; [apply uint_lor; [lia|by apply uint_ldiff|done]|].
  destruct (fields_lor (Z.ldiff v category_flag_mask) (c .<< 60)) as (-> & -> & -> & ->).
  destruct (fields_ldiff v category_flag_mask) as (Hr & Ha & -> & ->).
  unfold response_bit, answered_bit in Hr, Ha. cbn [value_] in Hr, Ha. rewrite Hr, Ha.
  rewrite !Z.shiftl_spec by lia. rewrite !category_field_land, !request_field_land.
  cbn [value_]. rewrite Z.shiftr_shiftl_l, Z.shiftl_0_r by lia.
  assert (c = 0 \/ c = 1 \/ c = 2 \/ c = 3) as Hin by lia.
  assert (Z.ldiff (Z.land v (Z.ones 60)) category_flag_mask
    = Z.land v (Z.ones 60) /\ Z.land (c .<< 60) (Z.ones 60) = 0) as [-> ->].
  { split.
    - apply Z.bits_inj'. intros n Hn. rewrite Z.ldiff_spec, Z.land_spec, ones_testbit by lia.
      rewrite category_mask_eq, Z.shiftl_spec by lia.
      destruct (Z.ltb_spec n 60); [|by rewrite andb_false_r].
      rewrite (Z.testbit_neg_r 3) by lia. by destruct (Z.testbit v n).
    - rewrite Z.land_ones, Z.shiftl_mul_pow2, Z.mod_mul by lia. done. }
  rewrite Z.lor_0_r.
  assert (Z.ldiff (Z.land (v .>> 60) (Z.ones 2)) (category_flag_mask .>> 60) = 0) as ->.
  { change (category_flag_mask .>> 60) with (Z.ones 2). apply Z.bits_inj'. intros n Hn.
    rewrite Z.ldiff_spec, Z.land_spec, Z.bits_0.
    by destruct (Z.testbit (v .>> 60) n), (Z.testbit (Z.ones 2) n). }
  destruct Hin as [->|[->|[->| ->]]];
    change (Z.testbit category_flag_mask 63) with false;
    change (Z.testbit category_flag_mask 62) with false;
    simpl; rewrite ?andb_true_r, ?orb_false_r; done.
Qed.

Lemma fields_inj m1 m2 :
  wf m1 -> wf m2 -> response_bit m1 = response_bit m2 -> answered_bit m1 = answered_bit m2 ->
  category_field m1 = category_field m2 -> request_field m1 = request_field m2 -> m1 = m2.
Proof.
  intros H1 H2 Hr Ha Hc Hq. destruct m1 as [v1], m2 as [v2]. f_equal.
  apply layout_fields in H1, H2. cbn [value_] in *. congruence.
Qed.

Lemma with_high_priority_category m : wf m -> with_high_priority m = with_category m 0.
Proof.
  intros H. unfold with_high_priority, with_category. rewrite land_not64 by done.
  by rewrite Z.shiftl_0_l, (uwrap_id 64 0), Z.lor_0_r by (unfold is_uint; lia).
Qed.

Lemma fields_normal m :
  wf m ->
  let r := with_normal_priority m in
  wf r /\ response_bit r = response_bit m /\ answered_bit r = answered_bit m /\
  category_field r = category_field m .| 1 /\ request_field r = request_field m.
Proof.
  intros Hwf. destruct m as [v]. unfold with_normal_priority, wf in *. cbn [value_] in *.
  split; [apply uint_lor; [lia|done|vm_compute; intuition congruence]|].
  destruct (fields_lor v default_async_value) as (-> & -> & -> & ->).
  change (category_field (mk_message_id default_async_value)) with 1.
  change (request_field (mk_message_id default_async_value)) with 0.
  change (Z.testbit default_async_value 63) with false.
  change (Z.testbit default_async_value 62) with false.
  by rewrite Z.lor_0_r, !orb_false_r.
Qed.

Lemma swrap64_cases v :
  is_uint 64 v -> swrap 64 v = if Z.testbit v 63 then v - 2 ^ 64 else v.
Proof.
  unfold is_uint, swrap. intros H.
  pose proof (Z.testbit_spec' v 63) as Hb.
  change (2 ^ (64 - 1)) with 9223372036854775808.
  change (2 ^ 63) with 9223372036854775808 in Hb. change (2 ^ 64) with 18446744073709551616 in *.
  destruct (Z.testbit v 63); simpl Z.b2z in Hb; Z.div_mod_to_equations; lia.
Qed.

Lemma testbit63_range v : is_uint 64 v -> Z.testbit v 63 = (2 ^ 63 <=? v).
Proof.
  unfold is_uint. intros H. pose proof (Z.testbit_spec' v 63) as E.
  change (2 ^ 63) with 9223372036854775808 in *. change (2 ^ 64) with 18446744073709551616 in *.
  destruct (Z.leb_spec 9223372036854775808 v), (Z.testbit v 63); try done;
    simpl Z.b2z in E; Z.div_mod_to_equations; lia.
Qed.

Lemma swrap64_diff_zero x y :
  is_uint 64 x -> is_uint 64 y -> swrap 64 (swrap 64 x - swrap 64 y) = 0 <-> x = y.
Proof.
  unfold is_uint, swrap. intros Hx Hy.
  change (2 ^ (64 - 1)) with 9223372036854775808. change (2 ^ 64) with 18446744073709551616 in *.
  split; Z.div_mod_to_equations; lia.
Qed.

Lemma same_flag_diff m1 m2 :
  wf m1 -> wf m2 -> response_bit m1 = response_bit m2 ->
  swrap 64 (value_ m1) - swrap 64 (value_ m2) = value_ m1 - value_ m2 /\
  - 2 ^ 63 <= value_ m1 - value_ m2 < 2 ^ 63.
Proof.
  unfold wf, response_bit. intros H1 H2. rewrite !swrap64_cases, !testbit63_range by done.
  unfold is_uint in *.
  destruct (Z.leb_spec (2 ^ 63) (value_ m1)), (Z.leb_spec (2 ^ 63) (value_ m2)); done || lia.
Qed.

(** ** Correctness *)

(** The response ID of a well-formed request is a response and no request
    any more; it carries the same request number, the same message priority
    and the same answered flag as the request, and stays within 64 bits. *)
Theorem response_id_correct m :
  wf m -> is_request m = true ->
  let r := response_id m in
  wf r /\ is_response r = true /\ is_request r = false /\
  request_id r = request_id m /\ priority r = priority m /\ is_answered r = is_answered m.
Proof.
  intros Hwf Hreq. cbn zeta. rewrite response_id_of_request by done.
  destruct (fields_response m) as (Hr & Ha & Hc & Hq). unfold wf, request_id, priority,
    is_urgent_message.
  rewrite is_response_bit, is_request_fields, !is_answered_bit, !category_field_eq,
    !request_field_eq, Hr, Ha, Hc, Hq.
  rewrite andb_false_r. split; [|done]. apply uint_lor; [lia|done|].
  vm_compute; intuition congruence.
Qed.

Lemma response_id_correct_witness :
  is_response (response_id (make_normal 42)) = true /\
  request_id (response_id (make_normal 42)) = mk_message_id 42.
Proof.
  destruct (response_id_correct (make_normal 42)) as (_ & H1 & _ & H2 & _);
    [vm_compute; intuition congruence|reflexivity|].
  split; [exact H1|]. rewrite H2. reflexivity.
Defined.

(** Changing the category writes exactly the category field: the new
    category is read back and the response flag, the answered flag and the
    request number survive; lowering a normal-priority ID to high priority and
    raising it again is the identity. *)
Theorem category_roundtrip m c :
  wf m -> 0 <= c < 4 ->
  wf (with_category m c) /\ category (with_category m c) = c /\
  is_response (with_category m c) = is_response m /\
  is_answered (with_category m c) = is_answered m /\
  request_id (with_category m c) = request_id m /\
  (category m = normal_message_category ->
   is_urgent_message (with_high_priority m) = true /\
   with_normal_priority (with_high_priority m) = m).
Proof.
  intros Hwf Hc. pose proof (fields_with_category m c Hwf Hc) as (Hw & Hr & Ha & Hcc & Hq).
  rewrite !is_response_bit, !is_answered_bit. unfold is_urgent_message, request_id.
  rewrite !category_field_eq, !request_field_eq, Hq. do 5 (split; [done|]).
  intros Hn. rewrite with_high_priority_category by done.
  pose proof (fields_with_category m 0 Hwf ltac:(lia)) as (Hw' & Hr' & Ha' & Hc' & Hq').
  rewrite Hc'. split; [done|].
  pose proof (fields_normal _ Hw') as (Hw2 & Hr2 & Ha2 & Hc2 & Hq2).
  apply fields_inj; [done|done|congruence|congruence|by rewrite Hc2, Hc', Hn|congruence].
Qed.

Lemma category_roundtrip_witness :
  category (with_category (make_normal 7) 0) = 0 /\
  with_normal_priority (with_high_priority (make_normal 7)) = make_normal 7.
Proof.
  destruct (category_roundtrip (make_normal 7) 0) as (_ & H1 & _ & _ & _ & H2);
    [vm_compute; intuition congruence|lia|].
  split; [exact H1|]. apply H2. reflexivity.
Defined.

(** [compare] decides equality of IDs; between two IDs with the same
    response flag it never overflows and orders them by value.  Across the
    response flag the subtraction of two [int64_t] can overflow, for instance
    when a response is compared with an asynchronous message. *)
Theorem compare_correct m1 m2 :
  wf m1 -> wf m2 ->
  (eqb m1 m2 = true <-> m1 = m2) /\
  (is_response m1 = is_response m2 ->
   compare m1 m2 = Some (value_ m1 - value_ m2) /\ ltb m1 m2 = (value_ m1 <? value_ m2)) /\
  compare (response_id (make_high 1)) default = None.
Proof.
  intros H1 H2. rewrite !is_response_bit. split; [|split; [|reflexivity]].
  - unfold eqb, compare_hw. rewrite Z.eqb_eq, swrap64_diff_zero by done.
    destruct m1, m2; simpl; split; congruence.
  - intros Heq. destruct (same_flag_diff m1 m2 H1 H2 Heq) as [E Hr].
    unfold compare, ltb, compare_hw. rewrite E. rewrite swrap_id by (unfold is_sint; lia).
    split; [|destruct (Z.ltb_spec (value_ m1 - value_ m2) 0),
               (Z.ltb_spec (value_ m1) (value_ m2)); done || lia].
    by rewrite (proj2 (Z.leb_le _ _)), (proj2 (Z.ltb_lt _ _)) by lia.
Qed.

Lemma compare_correct_witness :
  compare (make_normal 1) (make_normal 2) = Some (-1) /\ eqb (make_normal 1) (make_normal 1) = true.
Proof.
  destruct (compare_correct (make_normal 1) (make_normal 2)) as (_ & H & _);
    [vm_compute; intuition congruence|vm_compute; intuition congruence|].
  destruct (H eq_refl) as [H1 _]. rewrite H1. split; reflexivity.
Defined.

End MessageId.
