(* ===== verification/LinkedList.v ===== *)
(** * Intrusive singly-linked list (libcaf_core/caf/intrusive/linked_list.hpp,
      libcaf_core/caf/intrusive/stack.hpp)

    The list is modelled at the level of pointers.  A heap maps the address of
    every node to its [next] field; a list owns two dummy nodes, [head_] and
    [tail_], whose [next] fields live in the same heap.  Operations run in the
    option monad: [None] is the dereference of an address that holds no node.
    [represents h l xs] ties a list object to the sequence of elements it
    stores, and every operation is proved to implement its counterpart on
    sequences without ever dereferencing a bad address. *)

From stdpp Require Import gmap.
From S2P Require Import Prelude.

Abbreviation ptr := Z (only parsing).
Abbreviation heap := (gmap Z Z) (only parsing).

Definition nullptr : ptr := 0.

(** ** stack.hpp *)

Module Stack.

(** [stack] stores only the head pointer. *)
Record stack := mk_stack { head_ : ptr }.

Definition empty_stack : stack := mk_stack nullptr.

Definition push (p : ptr) (s : stack) (h : heap) : stack * heap :=
  (mk_stack p, <[p := head_ s]> h).

Definition pop (s : stack) (h : heap) : option (ptr * stack) :=
  let result := head_ s in
  if result =? nullptr then Some (result, s)
  else n ← h !! result; Some (result, mk_stack n).

Definition stack_empty (s : stack) : bool := head_ s =? nullptr.

End Stack.

(** ** linked_list.hpp *)

Module LinkedList.

Record linked_list := mk_list {
  head_ : ptr;   (* address of the dummy before the first element *)
  tail_ : ptr;   (* address of the dummy past the last element *)
  size_ : Z;
}.

Definition set_size (l : linked_list) (n : Z) : linked_list :=
  mk_list (head_ l) (tail_ l) n.

(** *** Observers *)

Definition size (l : linked_list) : Z := size_ l.

Definition empty (l : linked_list) : bool := size l =? 0.

(** *** Construction *)

(** Restores a consistent, empty state. *)
Definition init (l : linked_list) (h : heap) : linked_list * heap :=
  (set_size l 0, <[tail_ l := head_ l]> (<[head_ l := tail_ l]> h)).

(** The default constructor: [head_{&tail_}], [tail_{&head_}], [size_ = 0]. *)
Definition make (hd tl : ptr) (h : heap) : linked_list * heap :=
  (mk_list hd tl 0, <[tl := hd]> (<[hd := tl]> h)).

(** Takes over the elements of [other]; [l] must be freshly constructed. *)
Definition move_from (l other : linked_list) (h : heap)
  : option (linked_list * linked_list * heap) :=
  if empty other then Some (l, other, h) else
  first ← h !! head_ other;
  let h1 := <[head_ l := first]> h in
  last ← h1 !! tail_ other;
  let h2 := <[tail_ l := last]> h1 in
  let h3 := <[last := tail_ l]> h2 in
  let (other', h4) := init other h3 in
  Some (set_size l (size_ other), other', h4).

(** *** Element access *)

Definition front (l : linked_list) (h : heap) : option ptr := h !! head_ l.

Definition back (l : linked_list) (h : heap) : option ptr := h !! tail_ l.

Definition peek (l : linked_list) (h : heap) : option ptr :=
  if 0 <? size_ l then front l h else Some nullptr.

Definition before_begin (l : linked_list) : ptr := head_ l.

Definition before_end (l : linked_list) (h : heap) : option ptr := h !! tail_ l.

(** *** Insertion *)

Definition push_back (l : linked_list) (p : ptr) (h : heap) : option (linked_list * heap) :=
  last ← h !! tail_ l;
  let h1 := <[last := p]> h in
  let h2 := <[tail_ l := p]> h1 in
  let h3 := <[p := tail_ l]> h2 in
  Some (set_size l (size_ l + 1), h3).

Definition push_front (l : linked_list) (p : ptr) (h : heap) : option (linked_list * heap) :=
  if empty l then push_back l p h else
  first ← h !! head_ l;
  let h1 := <[p := first]> h in
  let h2 := <[head_ l := p]> h1 in
  Some (set_size l (size_ l + 1), h2).

Definition insert_after (l : linked_list) (pos p : ptr) (h : heap)
  : option (linked_list * heap) :=
  next ← h !! pos;
  let h1 := <[p := next]> h in
  let h2 := <[pos := p]> h1 in
  let h3 := if next =? tail_ l then <[tail_ l := p]> h2 else h2 in
  Some (set_size l (size_ l + 1), h3).

(** *** Removal *)

Definition pop_front (l : linked_list) (h : heap) : option (ptr * linked_list * heap) :=
  if empty l then Some (nullptr, l, h) else
  p ← h !! head_ l;
  n ← h !! p;
  let h1 := <[head_ l := n]> h in
  let l' := set_size l (size_ l - 1) in
  let h2 := if size_ l' =? 0 then <[tail_ l := head_ l]> h1 else h1 in
  Some (p, l', h2).

Definition splice (l other : linked_list) (h : heap)
  : option (linked_list * linked_list * heap) :=
  if empty other then Some (l, other, h) else
  last ← h !! tail_ l;
  ofirst ← h !! head_ other;
  let h1 := <[last := ofirst]> h in
  olast ← h1 !! tail_ other;
  let h2 := <[olast := tail_ l]> h1 in
  olast' ← h2 !! tail_ other;
  let h3 := <[tail_ l := olast']> h2 in
  let (other', h4) := init other h3 in
  Some (set_size l (size_ l + size_ other), other', h4).

(** *** Algorithms

    The loops follow [next] pointers; the fuel is one more than the number of
    nodes in the heap, which a list without cycles never exhausts. *)

Fixpoint find_loop (fuel : nat) (pred : ptr -> bool) (i last : ptr) (h : heap) : option ptr :=
  match fuel with
  | O => None
  | S fuel' =>
      if i =? last then Some nullptr
      else if pred i then Some i
      else n ← h !! i; find_loop fuel' pred n last h
  end.

Definition find_if (l : linked_list) (pred : ptr -> bool) (h : heap) : option ptr :=
  first ← h !! head_ l;
  find_loop (S (base.size h)) pred first (tail_ l) h.

(** [drain] hands every element to [fn], which may free it: [fn p h] is the
    heap after the call.  The model also returns the order of the calls. *)
Fixpoint drain_loop (fuel : nat) (fn : ptr -> heap -> heap) (i last : ptr) (h : heap)
  : option (list ptr * heap) :=
  match fuel with
  | O => None
  | S fuel' =>
      if i =? last then Some ([], h)
      else n ← h !! i;
           '(ps, h') ← drain_loop fuel' fn n last (fn i h);
           Some (i :: ps, h')
  end.

Definition drain (l : linked_list) (fn : ptr -> heap -> heap) (h : heap)
  : option (list ptr * linked_list * heap) :=
  first ← h !! head_ l;
  '(ps, h1) ← drain_loop (S (base.size h)) fn first (tail_ l) h;
  let (l', h2) := init l h1 in
  Some (ps, l', h2).

(** [clear] drains into the deleter. *)
Definition clear (l : linked_list) (h : heap) : option (linked_list * heap) :=
  '(_, l', h') ← drain l (fun p h => delete p h) h;
  Some (l', h').

(** ** Representation *)

(** [lseg h p xs q]: following [next] from [p] visits [xs] and reaches [q]. *)
Fixpoint lseg (h : heap) (p : ptr) (xs : list ptr) (q : ptr) : Prop :=
  match xs with
  | [] => h !! p = Some q
  | x :: xs' => h !! p = Some x /\ lseg h x xs' q
  end.

(** The last address visited when following [xs] from [p]. *)
Fixpoint last_from (p : ptr) (xs : list ptr) : ptr :=
  match xs with
  | [] => p
  | x :: xs' => last_from x xs'
  end.

(** The addresses a list owns. *)
Definition footprint (l : linked_list) (xs : list ptr) : list ptr :=
  head_ l :: tail_ l :: xs.

Record represents (h : heap) (l : linked_list) (xs : list ptr) : Prop := {
  rep_nodup : NoDup (footprint l xs);
  rep_nonnull : nullptr ∉ footprint l xs;
  rep_chain : lseg h (head_ l) xs (tail_ l);
  rep_tail : h !! tail_ l = Some (last_from (head_ l) xs);
  rep_size : size_ l = zlen xs;
}.

(** Two heaps agree outside the given addresses. *)
Definition only_changes (h h' : heap) (ps : list ptr) : Prop :=
  forall q, q ∉ ps -> h' !! q = h !! q.

(** ** Lemmas on chains *)

Lemma lseg_frame h h' p xs q :
  lseg h p xs q -> (forall r, r ∈ p :: xs -> h' !! r = h !! r) -> lseg h' p xs q.
Proof.
  revert p. induction xs as [|x xs IH]; simpl; intros p H Hf.
  - rewrite Hf by set_solver. done.
  - destruct H as [Hp Hx]. rewrite Hf by set_solver. split; [done|].
    apply IH; [done|]. intros r Hr. apply Hf. set_solver.
Qed.

Lemma lseg_insert_other h p xs q r v :
  r ∉ p :: xs -> lseg h p xs q -> lseg (<[r := v]> h) p xs q.
Proof.
  intros Hr H. eapply lseg_frame; [exact H|]. intros s Hs.
  rewrite lookup_insert_ne; [done|]. intros ->. done.
Qed.

Lemma lseg_app h p xs m ys q :
  lseg h p (xs ++ m :: ys) q <-> lseg h p xs m /\ lseg h m ys q.
Proof. revert p. induction xs as [|x xs IH]; simpl; intros p; [done|]. rewrite IH. tauto. Qed.

Lemma last_from_app p xs y ys : last_from p (xs ++ y :: ys) = last_from y ys.
Proof. revert p. induction xs as [|x xs IH]; simpl; intros p; [done|]. apply IH. Qed.

Lemma last_from_elem p xs : last_from p xs ∈ p :: xs.
Proof.
  revert p. induction xs as [|x xs IH]; simpl; intros p; [set_solver|].
  specialize (IH x). set_solver.
Qed.

Lemma lseg_last h p xs q : lseg h p xs q -> h !! last_from p xs = Some q.
Proof.
  revert p. induction xs as [|x xs IH]; simpl; intros p H; [done|]. apply IH, H.
Qed.

(** Redirecting the last link of a chain. *)
Lemma lseg_set_last h p xs q q' :
  NoDup (p :: xs) -> lseg h p xs q ->
  lseg (<[last_from p xs := q']> h) p xs q'.
Proof.
  revert p. induction xs as [|x xs IH]; intros p Hnd H; simpl.
  - apply lookup_insert_eq.
  - destruct H as [Hp Hx]. apply NoDup_cons in Hnd as [Hp' Hnd].
    split; [|by apply IH]. rewrite lookup_insert_ne; [done|]. intros Heq.
    apply Hp'. rewrite <- Heq. apply last_from_elem.
Qed.

Lemma lseg_head h p xs q :
  lseg h p xs q -> h !! p = Some (default q (head xs)).
Proof. destruct xs; simpl; tauto. Qed.

(** A chain without repetitions fits into the heap it is stored in. *)
Lemma lseg_dom h p xs q : lseg h p xs q -> list_to_set (p :: xs) ⊆ dom h.
Proof.
  revert p. induction xs as [|x xs IH]; intros p H.
  - simpl in H. apply elem_of_dom_2 in H. set_solver.
  - destruct H as [Hp Hx]. apply IH in Hx. apply elem_of_dom_2 in Hp. set_solver.
Qed.

Lemma lseg_fuel h p xs q : NoDup xs -> lseg h p xs q -> (length xs <= base.size h)%nat.
Proof.
  intros Hnd H. apply lseg_dom in H.
  rewrite <- size_dom, <- (size_list_to_set (C := gset Z) xs) by done.
  apply subseteq_size. set_solver.
Qed.

(** What an operation on one list promises: it succeeds, keeps its dummy
    nodes, represents the new sequence and touches nothing outside the old
    footprint and the new element. *)
Definition implements (h : heap) (l : linked_list) (xs ps : list ptr)
    (r : option (linked_list * heap)) (ys : list ptr) : Prop :=
  exists l' h', r = Some (l', h') /\ represents h' l' ys /\
    head_ l' = head_ l /\ tail_ l' = tail_ l /\
    only_changes h h' (ps ++ footprint l xs).

(** Splitting a chain: a prefix that ends where the suffix begins, and a suffix
    that can be reattached below any node pointing at it. *)
Lemma lseg_split h p xs1 xs2 q :
  lseg h p (xs1 ++ xs2) q -> lseg h p xs1 (default q (head xs2)).
Proof. destruct xs2; simpl; [by rewrite app_nil_r|]. rewrite lseg_app. tauto. Qed.

Lemma lseg_reattach h h' p p' xs1 xs2 q :
  lseg h p (xs1 ++ xs2) q -> h' !! p' = Some (default q (head xs2)) ->
  (forall r, r ∈ xs2 -> h' !! r = h !! r) -> lseg h' p' xs2 q.
Proof.
  destruct xs2 as [|y ys]; simpl; [done|]. rewrite lseg_app. intros [_ H] Hp Hf.
  split; [done|]. eapply lseg_frame; [exact H|]. exact Hf.
Qed.

Lemma only_changes_insert h h' q v ps :
  q ∈ ps -> only_changes h h' ps -> only_changes h (<[q := v]> h') ps.
Proof.
  intros Hq H r Hr. rewrite lookup_insert_ne; [by apply H|]. intros ->. done.
Qed.

Lemma only_changes_refl h ps : only_changes h h ps.
Proof. done. Qed.

#[local] Hint Resolve only_changes_refl : caf.

Lemma only_changes_if (b : bool) h h1 h2 ps :
  only_changes h h1 ps -> only_changes h h2 ps -> only_changes h (if b then h1 else h2) ps.
Proof. by destruct b. Qed.

Lemma represents_nodup_app h l xs1 xs2 :
  represents h l (xs1 ++ xs2) ->
  NoDup (head_ l :: xs1) /\ tail_ l ∉ head_ l :: xs1 ++ xs2 /\
  (forall r, r ∈ head_ l :: xs1 -> r ∉ xs2).
Proof.
  intros [Hnd _ _ _ _]. unfold footprint in Hnd.
  rewrite !NoDup_cons, NoDup_app in Hnd. rewrite NoDup_cons. set_solver.
Qed.

Lemma insert_after_implements h l xs1 xs2 p :
  represents h l (xs1 ++ xs2) -> p ∉ footprint l (xs1 ++ xs2) -> p <> nullptr ->
  implements h l (xs1 ++ xs2) [p] (insert_after l (last_from (head_ l) xs1) p h)
    (xs1 ++ p :: xs2).
Proof.
  intros Hrep Hp Hnull. pose proof (represents_nodup_app _ _ _ _ Hrep) as (Hnd1 & Ht & Hdisj).
  destruct Hrep as [Hnd Hnn Hch Htl Hsz]. pose proof (lseg_split _ _ _ _ _ Hch) as Hpre.
  pose proof (last_from_elem (head_ l) xs1) as Hpos.
  set (pos := last_from (head_ l) xs1) in *. set (n := default (tail_ l) (head xs2)) in *.
  unfold insert_after. rewrite (lseg_last _ _ _ _ Hpre : h !! pos = Some n). simpl.
  set (h2 := <[pos:=p]> (<[p:=n]> h)).
  set (h3 := if n =? tail_ l then <[tail_ l:=p]> h2 else h2).
  unfold footprint in *.
  assert (pos <> p /\ tail_ l <> p /\ tail_ l <> pos) as (Hpp & Htp & Htpos).
  { clear -Hp Hpos Ht. clearbody pos. set_solver. }
  assert (forall r, r <> tail_ l -> h3 !! r = h2 !! r) as E3.
  { intros r Hr. unfold h3. case_if; [by rewrite lookup_insert_ne|done]. }
  exists (set_size l (size_ l + 1)), h3. split; [done|]. split; [|do 2 (split; [done|])].
  - split; unfold footprint; simpl.
    + rewrite !NoDup_cons, NoDup_app in *. rewrite NoDup_cons. set_solver.
    + set_solver.
    + rewrite lseg_app. split.
      * apply (lseg_frame h2); [|intros r Hr; apply E3; set_solver].
        apply (lseg_set_last _ _ _ n); [done|]. apply lseg_insert_other; [set_solver|done].
      * apply (lseg_reattach h h3 (head_ l) p xs1); [done| |].
        -- rewrite E3 by done. unfold h2. rewrite lookup_insert_ne by done.
           apply lookup_insert_eq.
        -- intros r Hr. rewrite E3 by set_solver. unfold h2.
           rewrite !lookup_insert_ne by set_solver. done.
    + rewrite last_from_app. unfold h3. destruct (Z.eqb_spec n (tail_ l)) as [E|E].
      * rewrite lookup_insert_eq. destruct xs2 as [|y ys]; [done|]. simpl in n. set_solver.
      * unfold h2. rewrite !lookup_insert_ne by done. rewrite Htl.
        destruct xs2 as [|y ys]; [done|]. by rewrite last_from_app.
    + rewrite Hsz. unfold zlen. rewrite !length_app. simpl. lia.
  - assert (p ∈ [p] ++ footprint l (xs1 ++ xs2) /\ tail_ l ∈ [p] ++ footprint l (xs1 ++ xs2)
      /\ pos ∈ [p] ++ footprint l (xs1 ++ xs2)) as (? & ? & ?).
    { clear -Hpos. clearbody pos. unfold footprint. set_solver. }
    apply only_changes_if; repeat (apply only_changes_insert; [assumption|]); done.
Qed.

(** [push_back] and [push_front] are insertions after the last element and
    after the leading dummy. *)
Lemma push_back_insert h l xs p :
  represents h l xs -> p ∉ footprint l xs ->
  push_back l p h = insert_after l (last_from (head_ l) xs) p h.
Proof.
  intros Hrep Hp. pose proof (represents_nodup_app h l xs [] ltac:(by rewrite app_nil_r)) as Hnd.
  destruct Hrep as [_ _ Hch Htl _]. pose proof (last_from_elem (head_ l) xs) as Hpos.
  unfold push_back, insert_after. rewrite Htl, (lseg_last _ _ _ _ Hch). simpl.
  rewrite Z.eqb_refl. do 2 f_equal.
  assert (tail_ l <> p /\ last_from (head_ l) xs <> p) as [H1 H2].
  { unfold footprint in Hp. set_solver. }
  rewrite (insert_insert_ne _ p (tail_ l)) by done. f_equal.
  by rewrite insert_insert_ne by done.
Qed.

Lemma push_back_implements h l xs p :
  represents h l xs -> p ∉ footprint l xs -> p <> nullptr ->
  implements h l xs [p] (push_back l p h) (xs ++ [p]).
Proof.
  intros Hrep Hp Hn. erewrite push_back_insert by done.
  pose proof (insert_after_implements h l xs [] p) as H. rewrite app_nil_r in H. auto.
Qed.

Lemma push_front_implements h l xs p :
  represents h l xs -> p ∉ footprint l xs -> p <> nullptr ->
  implements h l xs [p] (push_front l p h) (p :: xs).
Proof.
  intros Hrep Hp Hn. unfold push_front, empty, size. rewrite (rep_size _ _ _ Hrep).
  destruct xs as [|x xs].
  { simpl. by apply (push_back_implements h l []). }
  destruct (Z.eqb_spec (zlen (x :: xs)) 0) as [E|_]; [unfold zlen in E; simpl in E; lia|].
  pose proof (insert_after_implements h l [] (x :: xs) p Hrep Hp Hn) as H.
  simpl in H. unfold insert_after in H.
  pose proof Hrep as [Hnd _ [Hx _] _ Hsz]. rewrite Hx in H |- *. simpl in H |- *.
  assert (x <> tail_ l) by (unfold footprint in Hnd; rewrite !NoDup_cons in Hnd; set_solver).
  destruct (Z.eqb_spec x (tail_ l)); [done|]. by rewrite <- Hsz.
Qed.

Lemma empty_spec h l xs : represents h l xs -> empty l = bool_decide (xs = []).
Proof.
  intros H. unfold empty, size. rewrite (rep_size _ _ _ H).
  destruct xs; [done|]. rewrite zlen_cons. pose proof (zlen_nonneg xs).
  destruct (Z.eqb_spec (1 + zlen xs) 0); [lia|done].
Qed.

Lemma pop_front_nil h l : represents h l [] -> pop_front l h = Some (nullptr, l, h).
Proof. intros H. unfold pop_front. by rewrite (empty_spec _ _ _ H). Qed.

Lemma pop_front_cons h l x xs :
  represents h l (x :: xs) ->
  exists l' h', pop_front l h = Some (x, l', h') /\ represents h' l' xs /\
    head_ l' = head_ l /\ tail_ l' = tail_ l /\ only_changes h h' (footprint l (x :: xs)) /\
    h' !! x = h !! x.
Proof.
  intros Hrep. unfold pop_front. rewrite (empty_spec _ _ _ Hrep).
  destruct Hrep as [Hnd Hnn [Hx Hch] Htl Hsz]. pose proof (lseg_head _ _ _ _ Hch) as Hn.
  rewrite bool_decide_eq_false_2 by done. rewrite Hx. simpl. rewrite Hn. simpl.
  set (n := default (tail_ l) (head xs)) in *. rewrite Hsz, zlen_cons.
  replace (1 + zlen xs - 1) with (zlen xs) by lia.
  unfold footprint in *. rewrite !NoDup_cons in Hnd.
  destruct Hnd as (Hh & Ht & Hxx & Hnd).
  assert (tail_ l <> head_ l /\ head_ l <> x /\ tail_ l <> x /\ head_ l ∉ xs /\ tail_ l ∉ xs)
    as (Hth & Hhx & Htx & Hhxs & Htxs) by (clear -Hh Ht; set_solver).
  exists (set_size l (zlen xs)),
    (if zlen xs =? 0 then <[tail_ l:=head_ l]> (<[head_ l:=n]> h) else <[head_ l:=n]> h).
  split; [done|]. split; [|split; [done|split; [done|]]].
  - split; unfold footprint; simpl.
    + rewrite !NoDup_cons. clear -Hh Ht Hnd. set_solver.
    + clear -Hnn. set_solver.
    + destruct xs as [|y ys].
      * simpl. rewrite lookup_insert_ne by done. apply lookup_insert_eq.
      * rewrite zlen_cons. pose proof (zlen_nonneg ys).
        destruct (Z.eqb_spec (1 + zlen ys) 0); [lia|]. simpl. split; [apply lookup_insert_eq|].
        apply lseg_insert_other; [done|]. apply Hch.
    + destruct xs as [|y ys].
      * apply lookup_insert_eq.
      * rewrite zlen_cons. pose proof (zlen_nonneg ys).
        destruct (Z.eqb_spec (1 + zlen ys) 0); [lia|].
        rewrite lookup_insert_ne by done. by rewrite Htl.
    + done.
  - split.
    + apply only_changes_if; repeat (apply only_changes_insert; [set_solver|]); done.
    + case_if; rewrite ?lookup_insert_ne by done; done.
Qed.

(** The links of the elements themselves, without the node before them. *)
Fixpoint links (h : heap) (xs : list ptr) (q : ptr) : Prop :=
  match xs with
  | [] => True
  | x :: xs' => h !! x = Some (default q (head xs')) /\ links h xs' q
  end.

Lemma lseg_links h p xs q : lseg h p xs q -> links h xs q.
Proof.
  revert p. induction xs as [|x xs IH]; simpl; intros p H; [done|].
  destruct H as [_ H]. split; [by apply lseg_head in H|by eapply IH].
Qed.

Lemma links_lseg h p xs q :
  h !! p = Some (default q (head xs)) -> links h xs q -> lseg h p xs q.
Proof.
  revert p. induction xs as [|x xs IH]; simpl; intros p Hp Hl; [done|].
  split; [done|]. apply IH; tauto.
Qed.

Lemma links_fuel h x xs q : NoDup xs -> links h (x :: xs) q -> (length xs < S (base.size h))%nat.
Proof.
  intros Hnd [Hx Hl]. apply Nat.lt_succ_r. eapply lseg_fuel; [done|]. by eapply links_lseg.
Qed.

Lemma links_frame h h' xs q :
  links h xs q -> (forall r, r ∈ xs -> h' !! r = h !! r) -> links h' xs q.
Proof.
  induction xs as [|x xs IH]; simpl; intros H Hf; [done|]. destruct H as [Hx Hl].
  split; [rewrite Hf; [done|set_solver]|]. apply IH; [done|]. intros r Hr. apply Hf. set_solver.
Qed.

Lemma find_loop_spec h pred xs q fuel :
  links h xs q -> q ∉ xs -> (length xs < fuel)%nat ->
  find_loop fuel pred (default q (head xs)) q h = Some (default nullptr (List.find pred xs)).
Proof.
  revert fuel. induction xs as [|x xs IH]; intros [|fuel] Hl Hq Hf; simpl in *; try lia.
  - by rewrite Z.eqb_refl.
  - destruct Hl as [Hx Hl]. apply not_elem_of_cons in Hq as [Hqx Hq].
    destruct (Z.eqb_spec x q); [done|]. destruct (pred x); [done|].
    rewrite Hx. simpl. apply IH; [done|done|lia].
Qed.

(** The heap after handing [xs] to [fn] one by one. *)
Definition apply_all (fn : ptr -> heap -> heap) (xs : list ptr) (h : heap) : heap :=
  fold_left (fun h p => fn p h) xs h.

(** A consumer that touches only the node it was given. *)
Definition consumes_own_node (fn : ptr -> heap -> heap) : Prop :=
  forall p h q, q <> p -> fn p h !! q = h !! q.

Lemma apply_all_other fn xs h q :
  consumes_own_node fn -> q ∉ xs -> apply_all fn xs h !! q = h !! q.
Proof.
  intros Hfn. revert h. induction xs as [|x xs IH]; intros h Hq; [done|].
  apply not_elem_of_cons in Hq as [Hqx Hq]. simpl. rewrite IH by done. by apply Hfn.
Qed.

Lemma drain_loop_spec h fn xs q fuel :
  consumes_own_node fn -> links h xs q -> q ∉ xs -> NoDup xs -> (length xs < fuel)%nat ->
  drain_loop fuel fn (default q (head xs)) q h = Some (xs, apply_all fn xs h).
Proof.
  intros Hfn. revert h fuel. induction xs as [|x xs IH]; intros h [|fuel] Hl Hq Hnd Hf;
    simpl in *; try lia.
  - by rewrite Z.eqb_refl.
  - destruct Hl as [Hx Hl]. apply not_elem_of_cons in Hq as [Hqx Hq].
    apply NoDup_cons in Hnd as [Hxx Hnd].
    destruct (Z.eqb_spec x q); [done|]. rewrite Hx. simpl.
    rewrite IH; [done| |done|done|lia].
    eapply links_frame; [exact Hl|]. intros r Hr. apply Hfn. intros ->. done.
Qed.

Lemma represents_links h l xs :
  represents h l xs ->
  h !! head_ l = Some (default (tail_ l) (head xs)) /\ links h xs (tail_ l) /\
  tail_ l ∉ xs /\ head_ l ∉ xs /\ head_ l <> tail_ l /\ NoDup xs /\ (length xs < S (base.size h))%nat.
Proof.
  intros [Hnd _ Hch _ _]. unfold footprint in Hnd. rewrite !NoDup_cons in Hnd.
  destruct Hnd as (Hh & Ht & Hnd). pose proof (lseg_fuel _ _ _ _ Hnd Hch).
  split; [by eapply lseg_head|]. split; [by eapply lseg_links|].
  apply not_elem_of_cons in Hh as [? ?]. repeat split; try done. lia.
Qed.

Lemma find_if_spec h l xs pred :
  represents h l xs -> find_if l pred h = Some (default nullptr (List.find pred xs)).
Proof.
  intros H. apply represents_links in H as (Hh & Hl & Ht & _ & _ & Hnd & Hf).
  unfold find_if. rewrite Hh. cbn [mbind option_bind]. by apply find_loop_spec.
Qed.

Lemma init_represents l h :
  head_ l <> tail_ l -> head_ l <> nullptr -> tail_ l <> nullptr ->
  represents (init l h).2 (init l h).1 [].
Proof.
  intros H1 H2 H3. split; unfold footprint; simpl; try done.
  - rewrite !NoDup_cons, !not_elem_of_cons. split_and!; auto using not_elem_of_nil, NoDup_nil_2.
  - rewrite !not_elem_of_cons. auto using not_elem_of_nil.
  - rewrite lookup_insert_ne by done. apply lookup_insert_eq.
  - apply lookup_insert_eq.
Qed.

Lemma drain_spec h l xs fn :
  represents h l xs -> consumes_own_node fn ->
  exists l' h', drain l fn h = Some (xs, l', h') /\ represents h' l' [] /\
    head_ l' = head_ l /\ tail_ l' = tail_ l /\ only_changes h h' (footprint l xs) /\
    (forall x, x ∈ xs -> h' !! x = apply_all fn xs h !! x).
Proof.
  intros Hrep Hfn. pose proof (rep_nonnull _ _ _ Hrep) as Hnn.
  apply represents_links in Hrep as (Hh & Hl & Ht & Hhx & Hne & Hnd & Hf).
  unfold drain. rewrite Hh. cbn [mbind option_bind].
  rewrite drain_loop_spec by done. cbn [mbind option_bind].
  set (h1 := apply_all fn xs h).
  exists (init l h1).1, (init l h1).2. unfold footprint in *. split; [done|].
  split; [apply init_represents; [done|clear -Hnn; set_solver..]|].
  do 2 (split; [done|]). split.
  - simpl. apply (only_changes_insert _ _ (tail_ l)); [set_solver|].
    apply (only_changes_insert _ _ (head_ l)); [set_solver|].
    intros q Hq. apply apply_all_other; [done|]. clear -Hq. set_solver.
  - intros x Hx. simpl. rewrite !lookup_insert_ne by (intros E; rewrite E in *; done). done.
Qed.

Lemma represents_frame h h' l xs :
  represents h l xs -> (forall r, r ∈ footprint l xs -> h' !! r = h !! r) -> represents h' l xs.
Proof.
  intros [H1 H2 H3 H4 H5] Hf. unfold footprint in *. split; try done.
  - eapply lseg_frame; [exact H3|]. intros r Hr. apply Hf. set_solver.
  - rewrite Hf; [done|set_solver].
Qed.

(** The address inequalities behind [splice]: [a] is the last node of the
    first list, [b] the last node of the second. *)
Lemma splice_addresses l other xs y ys a b :
  NoDup (footprint l xs) -> NoDup (footprint other (y :: ys)) ->
  footprint l xs ## footprint other (y :: ys) ->
  a ∈ head_ l :: xs -> b ∈ y :: ys ->
  NoDup (footprint l (xs ++ y :: ys)) /\ NoDup (head_ l :: xs) /\ NoDup (y :: ys) /\
  a ∉ y :: ys /\ b ∉ head_ l :: xs /\ tail_ l ∉ head_ l :: xs ++ y :: ys /\
  head_ other ∉ tail_ l :: head_ l :: xs ++ y :: ys /\
  tail_ other ∉ tail_ l :: head_ l :: xs ++ y :: ys /\ head_ other <> tail_ other.
Proof.
  unfold footprint. intros N1 N2 Hd Ha Hb.
  assert (forall r t, r ∈ head_ l :: tail_ l :: xs -> t ∈ head_ other :: tail_ other :: y :: ys ->
    r <> t) as Hd' by (intros r t Hr Ht ->; by apply (Hd t)). clear Hd.
  assert (NoDup ((head_ l :: tail_ l :: xs) ++ y :: ys)) as N.
  { apply NoDup_app. rewrite (NoDup_cons (head_ other)), (NoDup_cons (tail_ other)) in N2.
    split; [done|]. split; [|tauto]. intros r Hr Hr'. apply (Hd' r r); [done| |done].
    by do 2 apply list_elem_of_further. }
  split; [exact N|]. simpl in N.
  apply NoDup_cons in N1 as [N1h N1]. apply NoDup_cons in N1 as [N1t N1].
  apply NoDup_cons in N2 as [N2h N2]. apply NoDup_cons in N2 as [N2t N2].
  apply NoDup_cons in N as [Nh N]. apply NoDup_cons in N as [Nt N].
  split; [apply NoDup_cons; clear -N1h N1; set_solver|]. split; [done|].
  split; [intros Hr; apply (Hd' a a); set_solver|].
  split; [intros Hr; apply (Hd' b b); set_solver|].
  split; [clear -Nh Nt; set_solver|].
  split; [intros Hr; apply elem_of_cons in Hr as [E|Hr]; [apply (Hd' (tail_ l) (head_ other)); set_solver|];
    rewrite app_comm_cons, elem_of_app in Hr; destruct Hr as [Hr|Hr];
    [apply (Hd' (head_ other) (head_ other)); set_solver|clear -N2h Hr; set_solver]|].
  split; [|clear -N2h; set_solver].
  intros Hr; apply elem_of_cons in Hr as [E|Hr]; [apply (Hd' (tail_ l) (tail_ other)); set_solver|].
  rewrite app_comm_cons, elem_of_app in Hr. destruct Hr as [Hr|Hr];
    [apply (Hd' (tail_ other) (tail_ other)); set_solver|clear -N2t Hr; set_solver].
Qed.

Lemma splice_spec h l other xs ys :
  represents h l xs -> represents h other ys -> footprint l xs ## footprint other ys ->
  exists l' other' h', splice l other h = Some (l', other', h') /\
    represents h' l' (xs ++ ys) /\ represents h' other' [] /\
    only_changes h h' (footprint l xs ++ footprint other ys).
Proof.
  intros Hl Ho Hd. unfold splice. rewrite (empty_spec _ _ _ Ho).
  destruct ys as [|y ys].
  { rewrite bool_decide_eq_true_2 by done. rewrite app_nil_r. eauto 10 with caf. }
  rewrite bool_decide_eq_false_2 by done.
  pose proof (last_from_elem y ys) as Hol. pose proof (last_from_elem (head_ l) xs) as Hll.
  destruct Hl as [Hnd Hnn Hch Htl Hsz], Ho as [Ond Onn [Oh Och] Otl Osz]. simpl in Otl.
  set (a := last_from (head_ l) xs) in *. set (b := last_from y ys) in *.
  destruct (splice_addresses l other xs y ys a b Hnd Ond Hd Hll Hol)
    as (N & N1 & N2 & A1 & A2 & A3 & A4 & A5 & A6).
  assert (a <> tail_ other /\ b <> tail_ other /\ tail_ l <> tail_ other /\ tail_ l <> head_ other)
    as (D1 & D2 & D3 & D4).
  { clear -A4 A5 Hll Hol. clearbody a b. set_solver. }
  rewrite Htl. simpl. rewrite Oh. simpl. rewrite lookup_insert_ne by done. rewrite Otl. simpl.
  rewrite !lookup_insert_ne by done. rewrite Otl. simpl.
  set (h3 := <[tail_ l:=b]> (<[b:=tail_ l]> (<[a:=y]> h))).
  exists (set_size l (size_ l + size_ other)), (init other h3).1, (init other h3).2.
  split; [done|]. simpl. split; [|split].
  - split; unfold footprint in *; simpl; [exact N|clear -Hnn Onn; set_solver| | |].
    + do 3 (apply lseg_insert_other; [clear -A3 A4 A5; set_solver|]).
      rewrite lseg_app. split.
      * apply lseg_insert_other; [done|]. by apply (lseg_set_last _ _ _ (tail_ l)).
      * apply (lseg_set_last _ _ _ (tail_ other)); [done|]. by apply lseg_insert_other.
    + rewrite !lookup_insert_ne by done. unfold h3. rewrite lookup_insert_eq, last_from_app. done.
    + rewrite Hsz, Osz, zlen_app. done.
  - unfold footprint in Onn. apply init_represents; [done|clear -Onn; set_solver..].
  - unfold footprint. apply (only_changes_insert _ _ (tail_ other)); [set_solver-|].
    apply (only_changes_insert _ _ (head_ other)); [set_solver-|].
    apply (only_changes_insert _ _ (tail_ l)); [set_solver-|].
    apply (only_changes_insert _ _ b); [clear -Hol; clearbody b; set_solver|].
    apply (only_changes_insert _ _ a); [clear -Hll; clearbody a; set_solver|done].
Qed.

(** ** Refinement: the pointer structure implements a sequence *)

(** [++it], [k] times. *)
Fixpoint advance (k : nat) (p : ptr) (h : heap) : option ptr :=
  match k with
  | O => Some p
  | S k' => n ← h !! p; advance k' n h
  end.

(** The client-visible mutators.  [OpInsertAt k p] advances an iterator [k]
    times from [before_begin] and inserts after it. *)
Inductive op :=
  | OpPushBack (p : ptr)
  | OpPushFront (p : ptr)
  | OpInsertAt (k : nat) (p : ptr)
  | OpPopFront
  | OpClear.

Definition run_op (o : op) (l : linked_list) (h : heap) : option (linked_list * heap) :=
  match o with
  | OpPushBack p => push_back l p h
  | OpPushFront p => push_front l p h
  | OpInsertAt k p => pos ← advance k (before_begin l) h; insert_after l pos p h
  | OpPopFront => '(_, l', h') ← pop_front l h; Some (l', h')
  | OpClear => clear l h
  end.

(** The same operations on sequences. *)
Definition abs_op (o : op) (xs : list ptr) : list ptr :=
  match o with
  | OpPushBack p => xs ++ [p]
  | OpPushFront p => p :: xs
  | OpInsertAt k p => take k xs ++ p :: drop k xs
  | OpPopFront => tail xs
  | OpClear => []
  end.

(** A new element must be a node of its own, an iterator must be in range. *)
Definition op_ok (o : op) (l : linked_list) (xs : list ptr) : Prop :=
  match o with
  | OpPushBack p | OpPushFront p => p ∉ footprint l xs /\ p <> nullptr
  | OpInsertAt k p => p ∉ footprint l xs /\ p <> nullptr /\ (k <= length xs)%nat
  | OpPopFront | OpClear => True
  end.

Fixpoint run_ops (os : list op) (l : linked_list) (h : heap) : option (linked_list * heap) :=
  match os with
  | [] => Some (l, h)
  | o :: os' => '(l', h') ← run_op o l h; run_ops os' l' h'
  end.

Fixpoint abs_ops (os : list op) (xs : list ptr) : list ptr :=
  match os with
  | [] => xs
  | o :: os' => abs_ops os' (abs_op o xs)
  end.

Fixpoint ops_ok (os : list op) (l : linked_list) (xs : list ptr) : Prop :=
  match os with
  | [] => True
  | o :: os' => op_ok o l xs /\ ops_ok os' l (abs_op o xs)
  end.

Lemma advance_lseg h p xs1 xs2 q :
  lseg h p (xs1 ++ xs2) q -> advance (length xs1) p h = Some (last_from p xs1).
Proof.
  revert p. induction xs1 as [|x xs IH]; simpl; intros p H; [done|].
  destruct H as [-> H]. simpl. by apply IH.
Qed.

Lemma ops_ok_dummies os l l' xs :
  head_ l' = head_ l -> tail_ l' = tail_ l -> ops_ok os l xs -> ops_ok os l' xs.
Proof.
  intros Hh Ht. revert xs. induction os as [|o os IH]; intros xs; simpl; [done|].
  intros [Ho Hos]. split; [|by apply IH]. unfold op_ok, footprint in *. by rewrite Hh, Ht.
Qed.

Lemma run_op_refines o h l xs :
  represents h l xs -> op_ok o l xs ->
  exists l' h', run_op o l h = Some (l', h') /\ represents h' l' (abs_op o xs) /\
    head_ l' = head_ l /\ tail_ l' = tail_ l.
Proof.
  intros Hrep Hok. destruct o as [p|p|k p| |]; simpl in *.
  - destruct Hok as [Hp Hn].
    destruct (push_back_implements h l xs p) as (l' & h' & ? & ? & ? & ? & _); eauto 10.
  - destruct Hok as [Hp Hn].
    destruct (push_front_implements h l xs p) as (l' & h' & ? & ? & ? & ? & _); eauto 10.
  - destruct Hok as (Hp & Hn & Hk). rewrite <- (take_drop k xs) in Hrep, Hp.
    pose proof (advance_lseg _ _ _ _ _ (rep_chain _ _ _ Hrep)) as Hadv.
    rewrite length_take_le in Hadv by done. unfold before_begin. rewrite Hadv. simpl.
    destruct (insert_after_implements _ _ _ _ _ Hrep Hp Hn) as (l' & h' & E & ? & ? & ? & _).
    rewrite E. eauto 10.
  - destruct xs as [|x xs].
    + rewrite pop_front_nil by done. simpl. eauto 10.
    + destruct (pop_front_cons _ _ _ _ Hrep) as (l' & h' & -> & ? & ? & ? & _). simpl. eauto 10.
  - unfold clear. destruct (drain_spec h l xs (fun p h => delete p h)) as (l' & h' & -> & ? & ? & ? & _);
      [done| |simpl; eauto 10].
    intros p h0 q Hq. by rewrite lookup_delete_ne.
Qed.

(** C29. Refinement of the intrusive list: whatever sequence of pushes,
    insertions, pops and clears a client runs on a consistent list (new
    elements being nodes not yet in it, iterators in range), no operation
    dereferences a bad pointer and the chain of [next] pointers afterwards
    represents exactly the sequence those operations produce on lists,
    with [tail_] pointing at the last element and [size_] counting them. *)
Theorem linked_list_refines_sequence os h l xs :
  represents h l xs -> ops_ok os l xs ->
  exists l' h', run_ops os l h = Some (l', h') /\ represents h' l' (abs_ops os xs).
Proof.
  revert h l xs. induction os as [|o os IH]; intros h l xs Hrep Hok; simpl; [eauto|].
  destruct Hok as [Ho Hos].
  destruct (run_op_refines o h l xs Hrep Ho) as (l1 & h1 & -> & Hrep1 & Hh & Ht). simpl.
  apply IH; [done|]. by eapply ops_ok_dummies.
Qed.

Lemma linked_list_refines_sequence_witness :
  exists l' h',
    run_ops [OpPushBack 10; OpPushFront 11; OpInsertAt 1 12; OpPopFront]
      (make 1 2 ∅).1 (make 1 2 ∅).2 = Some (l', h') /\ represents h' l' [12; 10].
Proof.
  apply (linked_list_refines_sequence
           [OpPushBack 10; OpPushFront 11; OpInsertAt 1 12; OpPopFront]
           (make 1 2 ∅).2 (make 1 2 ∅).1 []).
  - apply (init_represents (mk_list 1 2 0) ∅); simpl; unfold nullptr; lia.
  - simpl. unfold footprint, nullptr. simpl.
    repeat split; try lia; rewrite !not_elem_of_cons; repeat split; try lia; apply not_elem_of_nil.
Defined.

End LinkedList.
