(* ===== verification/LifoInbox.v ===== *)
(** * Lock-free LIFO inbox (libcaf_core/caf/intrusive/lifo_inbox.hpp)

    Any number of writers push elements concurrently, a single reader takes all
    of them at once, blocks the inbox while it is idle, or closes it.  Every
    access to the atomic [stack_] is one step: a writer's [load], one iteration
    of its compare-and-swap loop, one iteration of the reader's [take_head]
    loop (whose weak compare-and-swap may fail spuriously), one node of the
    chain that [take_head] returned and the reader then walks.  The step
    relation at the end interleaves them arbitrarily, including the reuse of an
    address after its element was fetched. *)

From stdpp Require Import gmap.
From S2P Require Import Prelude LinkedList.

Inductive inbox_result := success | unblocked_reader | queue_closed.

#[export] Instance inbox_result_eq_dec : EqDecision inbox_result.
Proof. solve_decision. Defined.

#[local] Arguments Z.eqb : simpl never.

Module LifoInbox.

(** The atomic head pointer and the [next] fields of the nodes. *)
Record state := mk_state { stack_ : ptr; nodes : heap }.

Section Inbox.

(** The address of the inbox object; its two tags are derived from it. *)
Context (this : ptr).

Definition stack_empty_tag : ptr := nullptr.
Definition stack_closed_tag : ptr := this + 1.
Definition reader_blocked_tag : ptr := this.

Definition is_empty_or_blocked_tag (x : ptr) : bool :=
  (x =? stack_empty_tag) || (x =? reader_blocked_tag).

Definition make (h : heap) : state := mk_state stack_empty_tag h.

(** ** Observers *)

Definition empty (s : state) : bool := stack_ s =? stack_empty_tag.
Definition closed (s : state) : bool := stack_ s =? stack_closed_tag.
Definition blocked (s : state) : bool := stack_ s =? reader_blocked_tag.

(** ** Writers *)

(** One iteration of the loop in [push_front]: [e] is the writer's current
    guess for the head.  Either the call returns, or it continues with the
    value the failed compare-and-swap loaded. *)
Definition push_iter (el e : ptr) (s : state) : (inbox_result + ptr) * state :=
  if e =? stack_closed_tag then
    (inl queue_closed, mk_state (stack_ s) (delete el (nodes s)))
  else
    let n := if e =? reader_blocked_tag then nullptr else e in
    let h := <[el := n]> (nodes s) in
    if stack_ s =? e then
      (inl (if e =? reader_blocked_tag then unblocked_reader else success), mk_state el h)
    else (inr (stack_ s), mk_state (stack_ s) h).

Fixpoint push_loop (fuel : nat) (el e : ptr) (s : state) : option (inbox_result * state) :=
  match fuel with
  | O => None
  | S fuel' =>
      match push_iter el e s with
      | (inl r, s') => Some (r, s')
      | (inr e', s') => push_loop fuel' el e' s'
      end
  end.

(** [push_front] when no other thread interferes between its steps. *)
Definition push_front (el : ptr) (s : state) : option (inbox_result * state) :=
  push_loop 1 el (stack_ s) s.

(** ** Reader *)

Definition try_block (s : state) : bool * state :=
  if stack_ s =? stack_empty_tag then (true, mk_state reader_blocked_tag (nodes s))
  else (false, s).

Definition try_unblock (s : state) : bool * state :=
  if stack_ s =? reader_blocked_tag then (true, mk_state stack_empty_tag (nodes s))
  else (false, s).

(** One iteration of the loop in [take_head]; [spurious] is the weak
    compare-and-swap failing although the values agree. *)
Definition take_iter (spurious : bool) (new_head e : ptr) (s : state) : (ptr + ptr) * state :=
  if e =? new_head then (inl nullptr, s)
  else if (stack_ s =? e) && negb spurious then
    (inl (if is_empty_or_blocked_tag e then nullptr else e), mk_state new_head (nodes s))
  else (inr (stack_ s), s).

(** [take_head] without interference. *)
Definition take_head_to (new_head : ptr) (s : state) : option (ptr * state) :=
  match take_iter false new_head (stack_ s) s with
  | (inl p, s') => Some (p, s')
  | (inr _, _) => None
  end.

Definition take_head (s : state) : option (ptr * state) := take_head_to stack_empty_tag s.

(** One iteration of the loops over the chain that [take_head] returned: null
    ends the loop, otherwise the next pointer is read from the node (before
    anything happens to it).  [None] is a read of memory that is no node. *)
Definition walk_iter (p : ptr) (h : heap) : option (option ptr) :=
  if p =? nullptr then Some None else n ← h !! p; Some (Some n).

(** [close]: the chain is walked with the next pointer read before [f] may
    free the node; the order of the calls is returned. *)
Fixpoint close_loop (fuel : nat) (f : ptr -> heap -> heap) (p : ptr) (h : heap)
  : option (list ptr * heap) :=
  match fuel with
  | O => None
  | S fuel' =>
      o ← walk_iter p h;
      match o with
      | None => Some ([], h)
      | Some n => '(ps, h') ← close_loop fuel' f n (f p h); Some (p :: ps, h')
      end
  end.

Definition close (f : ptr -> heap -> heap) (s : state) : option (list ptr * state) :=
  '(p, s') ← take_head_to stack_closed_tag s;
  '(ps, h) ← close_loop (S (base.size (nodes s'))) f p (nodes s');
  Some (ps, mk_state (stack_ s') h).

(** ** Representation *)

(** An address an element may have: no tag and not null. *)
Definition valid_ptr (p : ptr) : Prop :=
  p <> nullptr /\ p <> stack_closed_tag /\ p <> reader_blocked_tag.

Definition is_tag (p : ptr) : Prop :=
  p = stack_empty_tag \/ p = stack_closed_tag \/ p = reader_blocked_tag.

(** [holds s xs]: the inbox stores [xs], most recent element first. *)
Record holds (s : state) (xs : list ptr) : Prop := {
  holds_head : match xs with [] => is_tag (stack_ s) | x :: _ => stack_ s = x end;
  holds_links : LinkedList.links (nodes s) xs nullptr;
  holds_nodup : NoDup xs;
  holds_valid : Forall valid_ptr xs;
}.

(** Nothing the heap does elsewhere affects the chain. *)
Lemma holds_frame s h xs :
  holds s xs -> (forall r, r ∈ xs -> h !! r = nodes s !! r) -> holds (mk_state (stack_ s) h) xs.
Proof.
  intros [H1 H2 H3 H4] Hf. split; simpl; try done. by eapply LinkedList.links_frame.
Qed.

Lemma holds_head_valid s xs : holds s xs -> valid_ptr (stack_ s) -> exists xs', xs = stack_ s :: xs'.
Proof.
  intros [H1 _ _ _] (V1 & V2 & V3). destruct xs as [|x xs]; [|subst; eauto].
  destruct H1 as [|[|]]; done.
Qed.

Lemma valid_not_tag p : valid_ptr p -> ~ is_tag p.
Proof. unfold valid_ptr, is_tag, stack_empty_tag. tauto. Qed.

Lemma tag_closed : is_tag stack_closed_tag. Proof. unfold is_tag. tauto. Qed.
Lemma tag_blocked : is_tag reader_blocked_tag. Proof. unfold is_tag. tauto. Qed.
Lemma tag_empty : is_tag stack_empty_tag. Proof. unfold is_tag. tauto. Qed.

Lemma holds_tag s xs : holds s xs -> is_tag (stack_ s) -> xs = [].
Proof.
  intros [H1 _ _ H4] Ht. destruct xs as [|x xs]; [done|]. subst.
  apply Forall_cons in H4 as [Hv _]. by apply valid_not_tag in Hv.
Qed.

(** A successful compare-and-swap of [push_iter] puts the element in front. *)
Lemma push_iter_success el s xs :
  holds s xs -> valid_ptr el -> el ∉ xs -> stack_ s <> stack_closed_tag ->
  exists s', push_iter el (stack_ s) s =
      (inl (if stack_ s =? reader_blocked_tag then unblocked_reader else success), s') /\
    holds s' (el :: xs) /\ stack_ s' = el /\
    (forall q, q <> el -> nodes s' !! q = nodes s !! q).
Proof.
  intros H Hv Hel Hc. unfold push_iter.
  destruct (Z.eqb_spec (stack_ s) stack_closed_tag); [done|]. rewrite Z.eqb_refl.
  eexists. split; [done|]. split; [|split; [done|]].
  - destruct H as [H1 H2 H3 H4]. split; simpl; [done| |by apply NoDup_cons|by constructor].
    split.
    + rewrite lookup_insert_eq. f_equal. destruct xs as [|x xs]; simpl.
      * destruct (Z.eqb_spec (stack_ s) reader_blocked_tag); [done|]. by destruct H1 as [|[|]].
      * subst x. apply Forall_cons in H4 as [(_ & _ & Hb) _].
        destruct (Z.eqb_spec (stack_ s) reader_blocked_tag); done.
    + eapply LinkedList.links_frame; [exact H2|]. intros r Hr.
      rewrite lookup_insert_ne; [done|]. intros ->. done.
  - intros q Hq. simpl. by rewrite lookup_insert_ne.
Qed.

(** Whatever happens in an iteration, only the writer's own node is written. *)
Lemma push_iter_own_node el e s :
  forall q, q <> el -> nodes (push_iter el e s).2 !! q = nodes s !! q.
Proof.
  intros q Hq. unfold push_iter. repeat case_if; simpl;
    by rewrite ?lookup_insert_ne, ?lookup_delete_ne by done.
Qed.

(** ** The concurrent system *)

(** What an observer of the atomic steps records. *)
Record ghost := mk_ghost {
  contents : list ptr;   (* elements in the inbox, most recent first *)
  pushed : list ptr;     (* elements accepted so far, in order of acceptance *)
  inflight : list ptr;   (* elements taken that the reader has not visited yet *)
  fetched : list ptr;    (* elements visited by completed fetches, oldest first *)
  dropped : list ptr;    (* elements visited when closing, oldest first *)
  blocks : nat;          (* successful [try_block] calls *)
  wakeups : nat;         (* pushes that returned [unblocked_reader] *)
  unblocks : nat;        (* the reader leaving the blocked state on its own *)
}.

(** Where the reader is: between two calls, in the loop of [take_head] with the
    new head and its current [e], or walking the chain it got, with its current
    pointer and the nodes it visited so far. *)
Inductive reader_state :=
  | Idle
  | Taking (new_head e : ptr)
  | Walking (new_head p : ptr) (visited : list ptr).

Record config := mk_config {
  st : state;
  writers : gmap nat (ptr * ptr);   (* thread -> (new element, current [e]) *)
  reader : reader_state;
  gh : ghost;
}.

Definition visited (c : config) : list ptr :=
  match reader c with Walking _ _ vs => vs | _ => [] end.

Definition ghost_push (r : inbox_result) (el : ptr) (g : ghost) : ghost :=
  match r with
  | queue_closed => g
  | _ => mk_ghost (el :: contents g) (pushed g ++ [el]) (inflight g) (fetched g) (dropped g) (blocks g)
           (if decide (r = unblocked_reader) then S (wakeups g) else wakeups g) (unblocks g)
  end.

(** A successful compare-and-swap of [take_head] detaches the elements. *)
Definition ghost_take (new_head e : ptr) (g : ghost) : ghost :=
  if e =? new_head then g
  else mk_ghost [] (pushed g) (contents g) (fetched g) (dropped g) (blocks g) (wakeups g)
         (if e =? reader_blocked_tag then S (unblocks g) else unblocks g).

Definition ghost_visit (g : ghost) : ghost :=
  mk_ghost (contents g) (pushed g) (tail (inflight g)) (fetched g) (dropped g)
    (blocks g) (wakeups g) (unblocks g).

(** The loop over the chain is over: what it visited counts as fetched, or as
    dropped when the loop is the one of [close]. *)
Definition ghost_walked (new_head : ptr) (vs : list ptr) (g : ghost) : ghost :=
  mk_ghost (contents g) (pushed g) (inflight g)
    (if new_head =? stack_closed_tag then fetched g else fetched g ++ reverse vs)
    (if new_head =? stack_closed_tag then dropped g ++ reverse vs else dropped g)
    (blocks g) (wakeups g) (unblocks g).

Definition ghost_block (ok : bool) (g : ghost) : ghost :=
  mk_ghost (contents g) (pushed g) (inflight g) (fetched g) (dropped g)
    (if ok then S (blocks g) else blocks g) (wakeups g) (unblocks g).

Definition ghost_unblock (ok : bool) (g : ghost) : ghost :=
  mk_ghost (contents g) (pushed g) (inflight g) (fetched g) (dropped g)
    (blocks g) (wakeups g) (if ok then S (unblocks g) else unblocks g).

Definition owned (c : config) (p : ptr) : Prop :=
  exists t e, writers c !! t = Some (p, e).

(** One atomic action of one thread.  A thread starts [push_front] with a node
    nobody else uses; the reader's calls respect the assertions of
    [take_head], and what [take_head] returns is the pointer the reader walks
    from; [step_heap] is everything the program does to nodes that are neither
    in the inbox, nor still to be visited by the reader, nor in a writer's
    hands. *)
Inductive step : config -> config -> Prop :=
  | step_load c t el :
      writers c !! t = None -> valid_ptr el -> el ∉ contents (gh c) -> el ∉ inflight (gh c) ->
      ~ owned c el ->
      step c (mk_config (st c) (<[t := (el, stack_ (st c))]> (writers c)) (reader c) (gh c))
  | step_push c t el e r s' :
      writers c !! t = Some (el, e) -> push_iter el e (st c) = (inl r, s') ->
      step c (mk_config s' (delete t (writers c)) (reader c) (ghost_push r el (gh c)))
  | step_retry c t el e e' s' :
      writers c !! t = Some (el, e) -> push_iter el e (st c) = (inr e', s') ->
      step c (mk_config s' (<[t := (el, e')]> (writers c)) (reader c) (gh c))
  | step_take_start c nh :
      reader c = Idle -> nh = stack_closed_tag \/ nh = stack_empty_tag ->
      stack_ (st c) <> stack_closed_tag ->
      (stack_ (st c) <> reader_blocked_tag \/ nh = stack_closed_tag) ->
      step c (mk_config (st c) (writers c) (Taking nh (stack_ (st c))) (gh c))
  | step_take_done c spurious nh e p s' :
      reader c = Taking nh e -> take_iter spurious nh e (st c) = (inl p, s') ->
      step c (mk_config s' (writers c) (Walking nh p []) (ghost_take nh e (gh c)))
  | step_take_retry c spurious nh e e' s' :
      reader c = Taking nh e -> take_iter spurious nh e (st c) = (inr e', s') ->
      step c (mk_config s' (writers c) (Taking nh e') (gh c))
  | step_visit c nh p vs n :
      reader c = Walking nh p vs -> walk_iter p (nodes (st c)) = Some (Some n) ->
      step c (mk_config (st c) (writers c) (Walking nh n (vs ++ [p])) (ghost_visit (gh c)))
  | step_walked c nh p vs :
      reader c = Walking nh p vs -> walk_iter p (nodes (st c)) = Some None ->
      step c (mk_config (st c) (writers c) Idle (ghost_walked nh vs (gh c)))
  | step_block c ok s' :
      reader c = Idle -> try_block (st c) = (ok, s') ->
      step c (mk_config s' (writers c) Idle (ghost_block ok (gh c)))
  | step_unblock c ok s' :
      reader c = Idle -> try_unblock (st c) = (ok, s') ->
      step c (mk_config s' (writers c) Idle (ghost_unblock ok (gh c)))
  | step_heap c h :
      (forall r, r ∈ contents (gh c) \/ r ∈ inflight (gh c) \/ owned c r ->
        h !! r = nodes (st c) !! r) ->
      step c (mk_config (mk_state (stack_ (st c)) h) (writers c) (reader c) (gh c)).

Definition initial (h : heap) : config :=
  mk_config (make h) ∅ Idle (mk_ghost [] [] [] [] [] 0 0 0).

Definition reachable (c : config) : Prop := exists h, rtc step (initial h) c.

(** ** The invariant *)

(** [hands c]: what the reader still has to visit hangs off its pointer. *)
Definition hands (c : config) : Prop :=
  match reader c with
  | Idle | Taking _ _ => inflight (gh c) = []
  | Walking nh p vs =>
      p = default nullptr (head (inflight (gh c))) /\ dropped (gh c) = [] /\
      (nh = stack_closed_tag -> stack_ (st c) = stack_closed_tag \/ vs = [] /\ inflight (gh c) = [])
  end.

Record inv (c : config) : Prop := {
  inv_holds : holds (st c) (contents (gh c));
  inv_owner : forall t el e, writers c !! t = Some (el, e) ->
    valid_ptr el /\ el ∉ contents (gh c) /\ el ∉ inflight (gh c);
  inv_unique : forall t1 t2 el e1 e2, writers c !! t1 = Some (el, e1) ->
    writers c !! t2 = Some (el, e2) -> t1 = t2;
  inv_order : pushed (gh c) = fetched (gh c) ++ dropped (gh c)
    ++ reverse (visited c ++ inflight (gh c)) ++ reverse (contents (gh c));
  inv_closed : dropped (gh c) = [] \/ stack_ (st c) = stack_closed_tag;
  inv_reader : forall nh e, reader c = Taking nh e ->
    stack_ (st c) <> stack_closed_tag /\ (nh = stack_closed_tag \/ nh = stack_empty_tag);
  inv_wakeup : blocks (gh c) = (wakeups (gh c) + unblocks (gh c)
    + if (stack_ (st c) =? reader_blocked_tag)%Z then 1 else 0)%nat;
  inv_hands : hands c;
  inv_chain : LinkedList.links (nodes (st c)) (inflight (gh c)) nullptr /\
    Forall valid_ptr (inflight (gh c));
}.

Lemma tags_distinct :
  this <> nullptr -> this + 1 <> nullptr ->
  stack_empty_tag <> stack_closed_tag /\ stack_empty_tag <> reader_blocked_tag /\
  stack_closed_tag <> reader_blocked_tag.
Proof. unfold stack_empty_tag, stack_closed_tag, reader_blocked_tag, nullptr. lia. Qed.

Lemma push_iter_cases el e s :
  (e = stack_closed_tag /\ (push_iter el e s).1 = inl queue_closed /\
    stack_ (push_iter el e s).2 = stack_ s) \/
  (e <> stack_closed_tag /\ stack_ s = e) \/
  (e <> stack_closed_tag /\ stack_ s <> e /\ (push_iter el e s).1 = inr (stack_ s) /\
    stack_ (push_iter el e s).2 = stack_ s).
Proof.
  unfold push_iter. destruct (Z.eqb_spec e stack_closed_tag); [left; by subst|].
  destruct (Z.eqb_spec (stack_ s) e); [right; left; done|right; right; done].
Qed.

Lemma holds_push_frame c el e s' xs :
  holds (st c) xs -> el ∉ xs -> s' = (push_iter el e (st c)).2 ->
  stack_ s' = stack_ (st c) -> holds s' xs.
Proof.
  intros H Hel -> Hs. pose proof (push_iter_own_node el e (st c)) as Hn.
  destruct (push_iter el e (st c)).2 as [sp h]. simpl in *. subst.
  apply holds_frame; [done|]. intros r Hr. apply Hn. intros ->. done.
Qed.

Lemma inv_initial h : this <> nullptr -> inv (initial h).
Proof.
  intros Ht. split; simpl; try done.
  - split; simpl; try done; [left; done|constructor].
  - by left.
  - by rewrite (proj2 (Z.eqb_neq stack_empty_tag reader_blocked_tag)) by (by apply not_eq_sym).
Qed.

(** The chain in the reader's hands survives whatever happens elsewhere. *)
Lemma chain_frame h h' xs :
  LinkedList.links h xs nullptr /\ Forall valid_ptr xs ->
  (forall r, r ∈ xs -> h' !! r = h !! r) ->
  LinkedList.links h' xs nullptr /\ Forall valid_ptr xs.
Proof. intros [H1 H2] Hf. split; [by eapply LinkedList.links_frame|done]. Qed.

Lemma chain_push c el e s' r :
  inv c -> el ∉ inflight (gh c) -> push_iter el e (st c) = (r, s') ->
  LinkedList.links (nodes s') (inflight (gh c)) nullptr /\ Forall valid_ptr (inflight (gh c)).
Proof.
  intros I Hel Hp. eapply chain_frame; [apply (inv_chain _ I)|]. intros q Hq.
  pose proof (push_iter_own_node el e (st c)) as Hn. rewrite Hp in Hn. apply Hn. by intros ->.
Qed.

Lemma inv_load c t el :
  inv c -> writers c !! t = None -> valid_ptr el -> el ∉ contents (gh c) ->
  el ∉ inflight (gh c) -> ~ owned c el ->
  inv (mk_config (st c) (<[t := (el, stack_ (st c))]> (writers c)) (reader c) (gh c)).
Proof.
  intros [I1 I2 I3 I4 I5 I6 I7 I8 I9] Ht Hv Hel Hin Ho. split; simpl; try done.
  - intros t' el' e'. rewrite lookup_insert. case_decide; [intros [= <- <-]; done|apply I2].
  - intros t1 t2 el' e1 e2. rewrite !lookup_insert.
    repeat case_decide; intros H1 H2; simplify_eq; try done; [| |by eapply I3];
      exfalso; apply Ho; unfold owned; eauto.
Qed.

Lemma inv_retry c t el e e' s' :
  inv c -> writers c !! t = Some (el, e) -> push_iter el e (st c) = (inr e', s') ->
  inv (mk_config s' (<[t := (el, e')]> (writers c)) (reader c) (gh c)).
Proof.
  intros I Ht Hp. pose proof I as [I1 I2 I3 I4 I5 I6 I7 I8 I9].
  destruct (I2 _ _ _ Ht) as (Hv & Hel & Hin).
  assert (stack_ s' = stack_ (st c)) as Hs.
  { pose proof (push_iter_cases el e (st c)) as Hc. rewrite Hp in Hc. simpl in Hc.
    destruct Hc as [(_ & ? & _)|[(Hne & Hs)|(_ & _ & _ & ?)]]; [done| |done].
    subst e. destruct (push_iter_success el (st c) _ I1 Hv Hel Hne) as (? & Hq & _).
    rewrite Hq in Hp. done. }
  split; unfold hands in *; simpl; rewrite ?Hs; try done.
  - eapply (holds_push_frame c); [done|done|by rewrite Hp|done].
  - intros t' el' e1. rewrite lookup_insert. case_decide; [intros [= <- <-]; done|apply I2].
  - intros t1 t2 el' e1 e2. rewrite !lookup_insert.
    repeat case_decide; intros H1 H2; simplify_eq; try done; by eapply I3.
  - by eapply chain_push.
Qed.

(** A successful push is only possible while the inbox is open: a reader that
    closes it has nothing left to visit. *)
Lemma hands_push c r el s' :
  hands c -> stack_ (st c) <> stack_closed_tag ->
  hands (mk_config s' (writers c) (reader c) (ghost_push r el (gh c))).
Proof.
  unfold hands. intros H Hc. simpl. destruct r, (reader c); simpl in *; try done;
    (destruct H as (H1 & H2 & H3); split_and!; [done|done|]; intros Hn; destruct (H3 Hn); [done|by right]).
Qed.

Lemma inv_push c t el e r s' :
  inv c -> writers c !! t = Some (el, e) -> push_iter el e (st c) = (inl r, s') ->
  inv (mk_config s' (delete t (writers c)) (reader c) (ghost_push r el (gh c))).
Proof.
  intros I Ht Hp. pose proof I as [I1 I2 I3 I4 I5 I6 I7 I8 I9].
  destruct (I2 _ _ _ Ht) as (Hv & Hel & Hin).
  pose proof (chain_push _ _ _ _ _ I Hin Hp) as I9'.
  assert (forall t' el' e', delete t (writers c) !! t' = Some (el', e') ->
    valid_ptr el' /\ el' ∉ contents (gh c) /\ el' ∉ inflight (gh c) /\ el' <> el) as J2.
  { intros t' el' e'. rewrite lookup_delete. case_decide; [done|]. intros Ht'.
    destruct (I2 _ _ _ Ht') as (? & ? & ?). split_and!; try done.
    intros ->. by apply H, (I3 t t' el e e'). }
  assert (forall t1 t2 el' e1 e2, delete t (writers c) !! t1 = Some (el', e1) ->
    delete t (writers c) !! t2 = Some (el', e2) -> t1 = t2) as J3.
  { intros t1 t2 el' e1 e2. rewrite !lookup_delete. repeat case_decide; try done. apply I3. }
  destruct (push_iter_cases el e (st c)) as [(_ & Hr & Hs)|[(Hne & Hs)|(_ & _ & Hr & _)]].
  - rewrite Hp in Hr, Hs. simpl in Hr, Hs. injection Hr as ->. simpl.
    split; unfold hands in *; simpl; rewrite ?Hs; try done; [|intros ? ? ? H; apply J2 in H; tauto].
    eapply (holds_push_frame c); [done|done|by rewrite Hp|done].
  - subst e. destruct (push_iter_success el (st c) _ I1 Hv Hel Hne) as (s1 & Hq & Hh & Hst & _).
    rewrite Hp in Hq. injection Hq as Hr ->.
    assert (dropped (gh c) = []) as Hd by (destruct I5; done).
    pose proof (hands_push c r el s1 I8 Hne) as I8'. subst r.
    destruct Hv as (V1 & V2 & V3).
    assert ((el =? reader_blocked_tag) = false) as Hb by (by apply Z.eqb_neq).
    assert (pushed (gh c) ++ [el] = fetched (gh c) ++ dropped (gh c)
      ++ reverse (visited c ++ inflight (gh c)) ++ reverse (el :: contents (gh c))) as Hord.
    { rewrite I4, reverse_cons. by rewrite <- !app_assoc. }
    destruct (stack_ (st c) =? reader_blocked_tag) eqn:E; simpl in *;
      (split; simpl; rewrite ?Hst, ?Hb; first
        [done|by left|lia|intros ? ? H; split; [done|by apply (I6 _ _ H)]
        |intros ? ? ? H; apply J2 in H; set_solver]).
  - rewrite Hp in Hr. done.
Qed.

(** What [take_head] hands to the reader is the top of the chain it detached. *)
Lemma taken_head c e :
  holds (st c) (contents (gh c)) -> stack_ (st c) = e -> e <> stack_closed_tag ->
  (if is_empty_or_blocked_tag e then nullptr else e) = default nullptr (head (contents (gh c))).
Proof.
  intros [H1 _ _ H4] He Hc. unfold is_empty_or_blocked_tag.
  destruct (contents (gh c)) as [|x xs]; simpl.
  - destruct (Z.eqb_spec e stack_empty_tag); [done|].
    destruct (Z.eqb_spec e reader_blocked_tag); [done|]. unfold is_tag in H1. naive_solver.
  - apply Forall_cons in H4 as [(V1 & V2 & V3) _].
    destruct (Z.eqb_spec e stack_empty_tag); [unfold stack_empty_tag in *; congruence|].
    destruct (Z.eqb_spec e reader_blocked_tag); [congruence|]. simpl. congruence.
Qed.

Lemma inv_take_done c spurious nh e p s' :
  this <> nullptr -> this + 1 <> nullptr ->
  inv c -> reader c = Taking nh e -> take_iter spurious nh e (st c) = (inl p, s') ->
  inv (mk_config s' (writers c) (Walking nh p []) (ghost_take nh e (gh c))).
Proof.
  intros T1 T2 [I1 I2 I3 I4 I5 I6 I7 I8 I9] Hr. destruct (I6 _ _ Hr) as [Hc Hnh].
  destruct (tags_distinct T1 T2) as (D1 & D2 & D3).
  unfold hands, visited in *. rewrite Hr in *. simpl in *.
  assert (dropped (gh c) = []) as Hd by (destruct I5; done).
  unfold take_iter, ghost_take. destruct (Z.eqb_spec e nh).
  { intros [= <- <-]. split; unfold hands, visited; simpl; try done. rewrite I8. auto. }
  destruct (Z.eqb_spec (stack_ (st c)) e) as [Hs|]; simpl; [|done].
  destruct spurious; simpl; [done|]. intros [= <- <-].
  split; unfold hands, visited; simpl; try done.
  - split; simpl; try done; [destruct Hnh as [->| ->]; [apply tag_closed|apply tag_empty]|constructor].
  - intros t el e' Ht. destruct (I2 _ _ _ Ht) as (? & ? & ?). set_solver.
  - rewrite I4, I8. by rewrite reverse_nil, app_nil_r.
  - by left.
  - rewrite I7, Hs. destruct (Z.eqb_spec nh reader_blocked_tag) as [Hx|];
      [destruct Hnh; congruence|]. destruct (Z.eqb_spec e reader_blocked_tag); lia.
  - split_and!; [apply taken_head; congruence|done|by left].
  - destruct I1. done.
Qed.

Lemma inv_visit c nh p vs n :
  inv c -> reader c = Walking nh p vs -> walk_iter p (nodes (st c)) = Some (Some n) ->
  inv (mk_config (st c) (writers c) (Walking nh n (vs ++ [p])) (ghost_visit (gh c))).
Proof.
  intros [I1 I2 I3 I4 I5 I6 I7 I8 I9] Hr. unfold hands, visited in *. rewrite Hr in *.
  destruct I8 as (Hp & Hd & Hc). destruct I9 as [Hl Hv].
  unfold walk_iter. destruct (Z.eqb_spec p nullptr); [done|].
  destruct (inflight (gh c)) as [|x xs] eqn:Ei; [done|]. simpl in Hp. subst x.
  destruct Hl as [Hn Hl]. apply Forall_cons in Hv as [_ Hv].
  rewrite Hn. simpl. intros [= <-].
  split; unfold hands, visited; simpl; rewrite ?Ei; simpl; try done.
  - intros t el e Ht. destruct (I2 _ _ _ Ht) as (? & ? & ?). set_solver.
  - rewrite I4. by rewrite <- (app_assoc vs).
  - split_and!; [done|done|]. intros Hx. destruct (Hc Hx) as [?|[_ ?]]; [by left|done].
Qed.

Lemma inv_walked c nh p vs :
  inv c -> reader c = Walking nh p vs -> walk_iter p (nodes (st c)) = Some None ->
  inv (mk_config (st c) (writers c) Idle (ghost_walked nh vs (gh c))).
Proof.
  intros [I1 I2 I3 I4 I5 I6 I7 I8 I9] Hr. unfold hands, visited in *. rewrite Hr in *.
  destruct I8 as (Hp & Hd & Hc). unfold walk_iter.
  destruct (Z.eqb_spec p nullptr) as [->|]; [|by destruct (nodes (st c) !! p)]. intros _.
  assert (inflight (gh c) = []) as Hi.
  { destruct (inflight (gh c)) as [|x xs]; [done|]. simpl in Hp.
    destruct I9 as [_ [(? & _) _]%Forall_cons]. congruence. }
  rewrite Hi, app_nil_r, Hd in *. simpl in *.
  split; unfold hands, visited, ghost_walked; simpl; rewrite ?Hi, ?Hd; simpl; try done.
  - rewrite I4. destruct (nh =? stack_closed_tag); simpl; by rewrite <- ?app_assoc.
  - destruct (Z.eqb_spec nh stack_closed_tag) as [E|]; [|by left].
    destruct (Hc E) as [?|[-> _]]; [by right|by left].
Qed.

Lemma inv_reader_block c ok s' :
  this <> nullptr -> this + 1 <> nullptr ->
  inv c -> reader c = Idle -> try_block (st c) = (ok, s') ->
  inv (mk_config s' (writers c) Idle (ghost_block ok (gh c))).
Proof.
  intros T1 T2 [I1 I2 I3 I4 I5 I6 I7 I8 I9] Hr. destruct (tags_distinct T1 T2) as (D1 & D2 & D3).
  unfold hands, visited in *. rewrite Hr in *.
  unfold try_block. destruct (Z.eqb_spec (stack_ (st c)) stack_empty_tag) as [Hs|Hs];
    intros [= <- <-]; [|split; done].
  assert (contents (gh c) = []) as Hc.
  { apply (holds_tag _ _ I1). rewrite Hs. apply tag_empty. }
  rewrite Hs, (proj2 (Z.eqb_neq _ _)) in I7 by done.
  split; simpl; try done.
  - rewrite Hc. split; simpl; try done; [apply tag_blocked|constructor].
  - rewrite Hs in I5. destruct I5; [by left|congruence].
  - rewrite Z.eqb_refl. lia.
Qed.

Lemma inv_reader_unblock c ok s' :
  this <> nullptr -> this + 1 <> nullptr ->
  inv c -> reader c = Idle -> try_unblock (st c) = (ok, s') ->
  inv (mk_config s' (writers c) Idle (ghost_unblock ok (gh c))).
Proof.
  intros T1 T2 [I1 I2 I3 I4 I5 I6 I7 I8 I9] Hr. destruct (tags_distinct T1 T2) as (D1 & D2 & D3).
  unfold hands, visited in *. rewrite Hr in *.
  unfold try_unblock. destruct (Z.eqb_spec (stack_ (st c)) reader_blocked_tag) as [Hs|Hs];
    intros [= <- <-]; [|split; simpl; rewrite ?(proj2 (Z.eqb_neq _ _)) by done; done].
  assert (contents (gh c) = []) as Hc.
  { apply (holds_tag _ _ I1). rewrite Hs. apply tag_blocked. }
  split; simpl; try done.
  - rewrite Hc. split; simpl; try done; [apply tag_empty|constructor].
  - rewrite Hs in I5. destruct I5; [by left|congruence].
  - rewrite (proj2 (Z.eqb_neq _ _)) by done. lia.
Qed.

Lemma take_retry_state sp nh e e' s s' : take_iter sp nh e s = (inr e', s') -> s' = s.
Proof. unfold take_iter. repeat case_if; by intros [= ? ?]. Qed.

Lemma inv_step c c' :
  this <> nullptr -> this + 1 <> nullptr -> inv c -> step c c' -> inv c'.
Proof.
  intros T1 T2 I. destruct 1 as [c t el H1 H2 H3 H4 H5|c t el e r s' H1 H2|c t el e e' s' H1 H2
    |c nh H1 H2 H3 H4|c sp nh e p s' H1 H2|c sp nh e e' s' H1 H2|c nh p vs n H1 H2|c nh p vs H1 H2
    |c ok s' H1 H2|c ok s' H1 H2|c h H1].
  - by apply inv_load.
  - by eapply inv_push.
  - by eapply inv_retry.
  - destruct I as [I1 I2 I3 I4 I5 I6 I7 I8 I9]. unfold hands, visited in *. rewrite H1 in *.
    split; simpl; try done. intros nh' e' [= <- <-]. done.
  - by eapply inv_take_done.
  - apply take_retry_state in H2 as ->.
    destruct I as [I1 I2 I3 I4 I5 I6 I7 I8 I9]. unfold hands, visited in *. rewrite H1 in *.
    split; simpl; try done. intros nh' e1 [= <- <-]. by apply (I6 nh e).
  - by eapply inv_visit.
  - by eapply inv_walked.
  - by apply inv_reader_block.
  - by apply inv_reader_unblock.
  - destruct I as [I1 I2 I3 I4 I5 I6 I7 I8 I9]. split; simpl; try done.
    + apply holds_frame; [done|]. intros r Hr. apply H1. by left.
    + eapply chain_frame; [done|]. intros r Hr. apply H1. by right; left.
Qed.

Lemma inv_reachable c : this <> nullptr -> this + 1 <> nullptr -> reachable c -> inv c.
Proof.
  intros T1 T2 [h Hc]. pose proof (inv_initial h T1) as Hi. revert Hi. 
  induction Hc as [|x y z Hs Hc IH]; [done|]. intros Hi. apply IH. by apply (inv_step x).
Qed.

(** Once closed, every step leaves the inbox closed and the accepted elements
    as they are. *)
Lemma step_closed c c' :
  this <> nullptr -> this + 1 <> nullptr -> inv c -> step c c' ->
  stack_ (st c) = stack_closed_tag ->
  stack_ (st c') = stack_closed_tag /\ pushed (gh c') = pushed (gh c).
Proof.
  intros T1 T2 I Hs Hc. destruct (tags_distinct T1 T2) as (D1 & D2 & D3).
  destruct Hs as [c t el H1 H2 H3 H4 H5|c t el e r s' H1 H2|c t el e e' s' H1 H2
    |c nh H1 H2 H3 H4|c sp nh e p s' H1 H2|c sp nh e e' s' H1 H2|c nh p vs n H1 H2|c nh p vs H1 H2
    |c ok s' H1 H2|c ok s' H1 H2|c h H1];
    simpl; try done.
  - pose proof (push_iter_cases el e (st c)) as Hx. rewrite H2 in Hx. simpl in Hx.
    destruct Hx as [(_ & Hr & Hs)|[(Hne & Hs)|(_ & _ & Hr & _)]]; [|congruence|done].
    injection Hr as ->. simpl. by rewrite Hs.
  - pose proof (push_iter_cases el e (st c)) as Hx. rewrite H2 in Hx. simpl in Hx.
    destruct Hx as [(_ & Hr & _)|[(Hne & Hs)|(_ & _ & _ & Hs)]]; [done|congruence|by rewrite Hs].
  - by destruct (inv_reader _ I _ _ H1).
  - by destruct (inv_reader _ I _ _ H1).
  - revert H2. unfold try_block. rewrite Hc, (proj2 (Z.eqb_neq _ _)) by congruence.
    by intros [= <- <-].
  - revert H2. unfold try_unblock. rewrite Hc, (proj2 (Z.eqb_neq _ _)) by congruence.
    by intros [= <- <-].
Qed.

(** ** Correctness *)

(** C5. Linearizability of the inbox.  In every state reachable by any
    interleaving of writers and the reader, the elements accepted so far are, in
    order of their successful compare-and-swap, exactly those the reader visited
    in its completed walks over the chains that [take_head] returned, followed
    by those it visited when closing, those of the chain it is walking right now
    (visited and still to come), and those still in the inbox, which is a
    null-terminated chain without repetition starting at [stack_].  While the
    reader walks, its pointer is the next element still to come, or null when
    there is none, and reading the next pointer of that element succeeds.  So no
    element is lost, duplicated or reordered on its way to the reader.  The
    addresses of the inbox are assumed to be those of an object: neither it nor
    the byte after it is the null address; writers push nodes that nobody else
    uses, and there is one reader, which does not fetch from a closed or
    blocked inbox (the assertions of [take_head]). *)
Theorem inbox_linearizable c :
  this <> nullptr -> this + 1 <> nullptr -> reachable c ->
  pushed (gh c) = fetched (gh c) ++ dropped (gh c)
    ++ reverse (visited c ++ inflight (gh c)) ++ reverse (contents (gh c)) /\
  holds (st c) (contents (gh c)) /\
  match reader c with
  | Idle | Taking _ _ => inflight (gh c) = []
  | Walking _ p _ =>
      walk_iter p (nodes (st c)) =
        match inflight (gh c) with
        | [] => Some None
        | x :: xs => Some (Some (default nullptr (head xs)))
        end /\
      p = default nullptr (head (inflight (gh c)))
  end.
Proof.
  intros T1 T2 H. destruct (inv_reachable c T1 T2 H) as [I1 I2 I3 I4 I5 I6 I7 I8 I9].
  split_and!; [done|done|]. unfold hands in I8. destruct (reader c); [done|done|].
  destruct I8 as (Hp & _). split; [|done]. destruct I9 as [Hl Hv]. unfold walk_iter.
  destruct (inflight (gh c)) as [|x xs]; simpl in *; subst; [done|].
  apply Forall_cons in Hv as [(V & _) _]. rewrite (proj2 (Z.eqb_neq _ _)) by done.
  destruct Hl as [-> _]. done.
Qed.

(** Closing is final: once the inbox is closed, no step of any thread
    reopens it or makes it accept an element, whatever stale head a writer
    still holds. *)
Theorem inbox_closed_final c c' :
  this <> nullptr -> this + 1 <> nullptr -> reachable c -> rtc step c c' ->
  stack_ (st c) = stack_closed_tag ->
  stack_ (st c') = stack_closed_tag /\ pushed (gh c') = pushed (gh c).
Proof.
  intros T1 T2 Hc Hs. apply inv_reachable in Hc; [|done|done]. revert Hc.
  induction Hs as [|x y z Hxy Hyz IH]; [done|]. intros Hi Hx.
  destruct (step_closed x y T1 T2 Hi Hxy Hx) as [Hy Hp].
  destruct IH as [Hz Hp']; [by apply (inv_step x)|done|]. by rewrite Hp'.
Qed.

(** C6. Every time the reader manages to block, exactly one wake-up answers
    it: the number of successful [try_block] calls equals the number of pushes
    that returned [unblocked_reader] plus the times the reader itself left the
    blocked state, plus one if it is still blocked. *)
Theorem inbox_wakeup_exact c :
  this <> nullptr -> this + 1 <> nullptr -> reachable c ->
  blocks (gh c) = (wakeups (gh c) + unblocks (gh c) + if blocked (st c) then 1 else 0)%nat.
Proof. intros T1 T2 H. destruct (inv_reachable c T1 T2 H). done. Qed.

End Inbox.

(** A run in which the reader blocks, writer 1 pushes element 16 and is told to
    wake the reader, which then closes the inbox and walks what it found. *)
Definition demo_blocked : config :=
  mk_config (mk_state 8 ∅) ∅ Idle (mk_ghost [] [] [] [] [] 1 0 0).
Definition demo_loaded : config :=
  mk_config (mk_state 8 ∅) {[1%nat := (16, 8)]} Idle (mk_ghost [] [] [] [] [] 1 0 0).
Definition demo_pushed : config :=
  mk_config (mk_state 16 {[16 := 0]}) ∅ Idle (mk_ghost [16] [16] [] [] [] 1 1 0).
Definition demo_closing : config :=
  mk_config (mk_state 16 {[16 := 0]}) ∅ (Taking 9 16) (mk_ghost [16] [16] [] [] [] 1 1 0).
Definition demo_taken : config :=
  mk_config (mk_state 9 {[16 := 0]}) ∅ (Walking 9 16 []) (mk_ghost [] [16] [16] [] [] 1 1 0).
Definition demo_visited : config :=
  mk_config (mk_state 9 {[16 := 0]}) ∅ (Walking 9 0 [16]) (mk_ghost [] [16] [] [] [] 1 1 0).
Definition demo_closed : config :=
  mk_config (mk_state 9 {[16 := 0]}) ∅ Idle (mk_ghost [] [16] [] [] [16] 1 1 0).

Lemma demo_reachable_pushed : reachable 8 demo_pushed.
Proof.
  exists ∅. apply (rtc_l _ _ demo_blocked).
  { exact (step_block 8 (initial ∅) true _ eq_refl eq_refl). }
  apply (rtc_l _ _ demo_loaded).
  { apply (step_load 8 demo_blocked 1 16).
    - done.
    - by vm_compute.
    - apply not_elem_of_nil.
    - apply not_elem_of_nil.
    - intros (t & e & H). done. }
  apply rtc_once. exact (step_push 8 demo_loaded 1 16 8 unblocked_reader _ eq_refl eq_refl).
Qed.

Lemma demo_reachable_taken : reachable 8 demo_taken.
Proof.
  destruct demo_reachable_pushed as [h Hh]. exists h. eapply rtc_r; [eapply rtc_r; [exact Hh|]|].
  - apply (step_take_start 8 demo_pushed 9); [done|by left|done|by left].
  - exact (step_take_done 8 demo_closing false 9 16 16 _ eq_refl eq_refl).
Qed.

Lemma demo_reachable_closed : reachable 8 demo_closed.
Proof.
  destruct demo_reachable_taken as [h Hh]. exists h. eapply rtc_r; [eapply rtc_r; [exact Hh|]|].
  - exact (step_visit 8 demo_taken 9 16 [] 0 eq_refl eq_refl).
  - exact (step_walked 8 demo_visited 9 0 [16] eq_refl eq_refl).
Qed.

(** The reader has taken element 16 and finds it, with a null successor. *)
Lemma inbox_linearizable_witness :
  pushed (gh demo_taken) = reverse [16] /\ holds 8 (st demo_taken) [] /\
  walk_iter 16 (nodes (st demo_taken)) = Some (Some 0) /\ 16 = 16.
Proof.
  apply (inbox_linearizable 8 demo_taken); [vm_compute; lia|vm_compute; lia|].
  exact demo_reachable_taken.
Defined.

Lemma inbox_closed_final_witness :
  stack_ (st demo_closed) = stack_closed_tag 8 /\ pushed (gh demo_closed) = [16].
Proof.
  apply (inbox_closed_final 8 demo_closed demo_closed);
    [vm_compute; lia|vm_compute; lia|exact demo_reachable_closed|apply rtc_refl|reflexivity].
Defined.

Lemma inbox_wakeup_exact_witness :
  blocks (gh demo_pushed) = (wakeups (gh demo_pushed) + 0 + 0)%nat.
Proof.
  apply (inbox_wakeup_exact 8 demo_pushed); [vm_compute; lia|vm_compute; lia|].
  exact demo_reachable_pushed.
Defined.

End LifoInbox.
