(* ===== verification/DefaultMailbox.v ===== *)
(** * Default mailbox (libcaf_core/caf/detail/default_mailbox.{hpp,cpp},
      libcaf_core/caf/detail/sync_request_bouncer.cpp)

    The mailbox of an actor combines the lock-free LIFO inbox with two FIFO
    caches for urgent and normal messages.  All three share the [next] fields of
    their nodes, so the model keeps one heap for them: [fetch_more] relinks the
    very nodes it takes out of the inbox.  The theorems show that this
    pointer juggling delivers the messages of each priority in the order in
    which they were enqueued, loses and duplicates none, and bounces every
    pending request when the mailbox is closed. *)

From stdpp Require Import gmap.
From S2P Require Import Prelude MessageId LinkedList LifoInbox.

Import LinkedList.
#[local] Arguments Z.eqb : simpl never.
#[local] Arguments footprint : simpl never.

Module DefaultMailbox.

Section Mailbox.

(** Message contents are opaque to the mailbox. *)
Context {content : Type}.

(** An actor address; [0] is the null [strong_actor_ptr]. *)
Record mailbox_element := mk_element {
  sender : Z;
  mid : MessageId.message_id;
  payload : content;
}.

Record mailbox := mk_mailbox {
  urgent_queue_ : linked_list;
  normal_queue_ : linked_list;
  stack_ : ptr;                       (* the atomic head of [inbox_] *)
  nodes : heap;                       (* [next] fields of all nodes *)
  elems : gmap Z mailbox_element;     (* the elements themselves *)
  ref_count_ : Z;
}.

(** A response sent by the bouncer: receiver and response ID. *)
Record bounced := mk_bounced { receiver : Z; response : MessageId.message_id }.

(** [sync_request_bouncer::operator()]. *)
Definition bounce (x : mailbox_element) : list bounced :=
  if negb (sender x =? 0) && MessageId.is_request (mid x)
  then [mk_bounced (sender x) (MessageId.response_id (mid x))] else [].

(** The address of the [inbox_] member. *)
Context (this : ptr).

Definition inbox_ (m : mailbox) : LifoInbox.state := LifoInbox.mk_state (stack_ m) (nodes m).

Definition set_inbox (m : mailbox) (s : LifoInbox.state) : mailbox :=
  mk_mailbox (urgent_queue_ m) (normal_queue_ m) (LifoInbox.stack_ s) (LifoInbox.nodes s)
    (elems m) (ref_count_ m).

Definition set_urgent (m : mailbox) (r : linked_list * heap) : mailbox :=
  mk_mailbox r.1 (normal_queue_ m) (stack_ m) r.2 (elems m) (ref_count_ m).

Definition set_normal (m : mailbox) (r : linked_list * heap) : mailbox :=
  mk_mailbox (urgent_queue_ m) r.1 (stack_ m) r.2 (elems m) (ref_count_ m).

Definition set_ref_count (m : mailbox) (n : Z) : mailbox :=
  mk_mailbox (urgent_queue_ m) (normal_queue_ m) (stack_ m) (nodes m) (elems m) n.

Definition set_elems (m : mailbox) (es : gmap Z mailbox_element) : mailbox :=
  mk_mailbox (urgent_queue_ m) (normal_queue_ m) (stack_ m) (nodes m) es (ref_count_ m).

(** [new mailbox_element(...)]: a node with contents, linked nowhere. *)
Definition allocate (p : ptr) (x : mailbox_element) (m : mailbox) : mailbox :=
  set_elems m (<[p := x]> (elems m)).

(** The deleter of [mailbox_element_ptr], run on an element out of the mailbox. *)
Definition release (p : ptr) (m : mailbox) : mailbox := set_elems m (delete p (elems m)).

Definition urgent (es : gmap Z mailbox_element) (p : ptr) : bool :=
  match es !! p with
  | Some x => MessageId.is_urgent_message (mid x)
  | None => false
  end.

(** ** Operations *)

(** A closed inbox deletes the element. *)
Definition push_back (p : ptr) (m : mailbox) : option (inbox_result * mailbox) :=
  '(r, s) ← LifoInbox.push_front this p (inbox_ m);
  let m' := set_inbox m s in
  Some (r, match r with queue_closed => set_elems m' (delete p (elems m')) | _ => m' end).

Definition push_front (p : ptr) (m : mailbox) : option mailbox :=
  x ← elems m !! p;
  if MessageId.is_urgent_message (mid x)
  then r ← LinkedList.push_front (urgent_queue_ m) p (nodes m); Some (set_urgent m r)
  else r ← LinkedList.push_front (normal_queue_ m) p (nodes m); Some (set_normal m r).

Definition closed (m : mailbox) : bool := LifoInbox.closed this (inbox_ m).

Definition blocked (m : mailbox) : bool := LifoInbox.blocked this (inbox_ m).

Definition cached (m : mailbox) : Z := size (urgent_queue_ m) + size (normal_queue_ m).

Definition try_block (m : mailbox) : bool * mailbox :=
  if cached m =? 0 then
    let (ok, s) := LifoInbox.try_block this (inbox_ m) in (ok, set_inbox m s)
  else (false, m).

Definition try_unblock (m : mailbox) : bool * mailbox :=
  let (ok, s) := LifoInbox.try_unblock this (inbox_ m) in (ok, set_inbox m s).

(** The do-while loop of [fetch_more]; [uip] and [nip] are the two insertion
    points.  Fuel: one more than the number of nodes. *)
Fixpoint fetch_loop (fuel : nat) (uip nip hd : ptr) (m : mailbox) : option mailbox :=
  match fuel with
  | O => None
  | S fuel' =>
      next ← nodes m !! hd;
      x ← elems m !! hd;
      m' ← (if MessageId.is_urgent_message (mid x)
            then r ← insert_after (urgent_queue_ m) uip hd (nodes m); Some (set_urgent m r)
            else r ← insert_after (normal_queue_ m) nip hd (nodes m); Some (set_normal m r));
      if next =? nullptr then Some m' else fetch_loop fuel' uip nip next m'
  end.

Definition fetch_more (m : mailbox) : option (bool * mailbox) :=
  '(hd, s) ← LifoInbox.take_head this (inbox_ m);
  let m1 := set_inbox m s in
  if hd =? nullptr then Some (false, m1) else
  uip ← before_end (urgent_queue_ m1) (nodes m1);
  nip ← before_end (normal_queue_ m1) (nodes m1);
  m2 ← fetch_loop (S (base.size (nodes m1))) uip nip hd m1;
  Some (true, m2).

Definition peek (id : MessageId.message_id) (m : mailbox) : option (ptr * mailbox) :=
  if closed m || blocked m then Some (nullptr, m) else
  '(_, m1) ← fetch_more m;
  if MessageId.is_async id then
    if negb (empty (urgent_queue_ m1)) then
      p ← front (urgent_queue_ m1) (nodes m1); Some (p, m1)
    else if negb (empty (normal_queue_ m1)) then
      p ← front (normal_queue_ m1) (nodes m1); Some (p, m1)
    else Some (nullptr, m1)
  else
    let pred p := match elems m1 !! p with
                  | Some x => MessageId.eqb (mid x) id
                  | None => false
                  end in
    r ← find_if (urgent_queue_ m1) pred (nodes m1);
    if negb (r =? nullptr) then Some (r, m1) else
    r' ← find_if (normal_queue_ m1) pred (nodes m1);
    Some (r', m1).

(** [for (;;)] of [pop_front]: each round first serves the caches, then tries
    to refill them; the second round never needs a third. *)
Fixpoint pop_loop (fuel : nat) (m : mailbox) : option (ptr * mailbox) :=
  match fuel with
  | O => None
  | S fuel' =>
      '(p, l, h) ← LinkedList.pop_front (urgent_queue_ m) (nodes m);
      if negb (p =? nullptr) then Some (p, set_urgent m (l, h)) else
      let m1 := set_urgent m (l, h) in
      '(p', l', h') ← LinkedList.pop_front (normal_queue_ m1) (nodes m1);
      if negb (p' =? nullptr) then Some (p', set_normal m1 (l', h')) else
      let m2 := set_normal m1 (l', h') in
      '(more, m3) ← fetch_more m2;
      if (more : bool) then pop_loop fuel' m3 else Some (nullptr, m3)
  end.

Definition pop_front (m : mailbox) : option (ptr * mailbox) := pop_loop 2 m.

Definition mailbox_size (m : mailbox) : option (Z * mailbox) :=
  '(_, m1) ← fetch_more m;
  Some (cached m1, m1).

(** ** Closing *)

(** What [close] has done so far: the mailbox, the counter [result] and the
    responses sent; [cl_late] records the elements the mailbox accepted
    meanwhile. *)
Record closing := mk_closing {
  cl_box : mailbox;
  cl_count : Z;
  cl_sent : list bounced;
  cl_late : list mailbox_element;
}.

Definition accept (r : inbox_result) (x : mailbox_element) (xs : list mailbox_element) :=
  match r with queue_closed => xs | _ => xs ++ [x] end.

(** Sending a response runs foreign code: when the request came from the owner
    of the mailbox, the response is enqueued to this very mailbox, and other
    threads enqueue at any time.  [arrive n bs] are the elements enqueued while
    [bs] is sent for the element number [n], [alloc] provides their nodes. *)
Section Closing.

Context (alloc : mailbox -> ptr) (arrive : Z -> list bounced -> list mailbox_element).

Fixpoint enqueue_all (xs : list mailbox_element) (a : closing) : option closing :=
  match xs with
  | [] => Some a
  | x :: xs' =>
      let p := alloc (cl_box a) in
      '(r, m) ← push_back p (allocate p x (cl_box a));
      enqueue_all xs' (mk_closing m (cl_count a) (cl_sent a) (accept r x (cl_late a)))
  end.

(** [delete ptr] *)
Definition free (p : ptr) (m : mailbox) : mailbox :=
  mk_mailbox (urgent_queue_ m) (normal_queue_ m) (stack_ m) (delete p (nodes m))
    (delete p (elems m)) (ref_count_ m).

Definition bounce_and_count (p : ptr) (a : closing) : option closing :=
  x ← elems (cl_box a) !! p;
  let bs := bounce x in
  a' ← enqueue_all (arrive (cl_count a) bs)
         (mk_closing (cl_box a) (cl_count a) (cl_sent a ++ bs) (cl_late a));
  Some (mk_closing (free p (cl_box a')) (cl_count a' + 1) (cl_sent a') (cl_late a')).

(** The loops of [linked_list::drain] and [lifo_inbox::close]: both read the
    next pointer before the element is handed to [bounce_and_count]. *)
Fixpoint close_loop (fuel : nat) (i last : ptr) (a : closing) : option closing :=
  match fuel with
  | O => None
  | S fuel' =>
      if i =? last then Some a
      else n ← nodes (cl_box a) !! i;
           a' ← bounce_and_count i a;
           close_loop fuel' n last a'
  end.

Definition set_box (a : closing) (m : mailbox) : closing :=
  mk_closing m (cl_count a) (cl_sent a) (cl_late a).

(** [drain] on one of the two queues, ending in its [init]. *)
Definition drain_queue (queue : mailbox -> linked_list) (set : mailbox -> linked_list * heap -> mailbox)
    (a : closing) : option closing :=
  first ← nodes (cl_box a) !! head_ (queue (cl_box a));
  a' ← close_loop (S (base.size (nodes (cl_box a)))) first (tail_ (queue (cl_box a))) a;
  Some (set_box a' (set (cl_box a') (LinkedList.init (queue (cl_box a')) (nodes (cl_box a'))))).

(** [lifo_inbox::close]: from the exchange on, the inbox rejects elements. *)
Definition close_inbox (a : closing) : option closing :=
  '(p, s) ← LifoInbox.take_head_to this (LifoInbox.stack_closed_tag this) (inbox_ (cl_box a));
  close_loop (S (base.size (LifoInbox.nodes s))) p nullptr (set_box a (set_inbox (cl_box a) s)).

Definition close (m : mailbox) : option closing :=
  a1 ← drain_queue urgent_queue_ set_urgent (mk_closing m 0 [] []);
  a2 ← drain_queue normal_queue_ set_normal a1;
  close_inbox a2.

End Closing.

(** [close] when nothing arrives meanwhile: the number of dropped elements, the
    responses, and the closed mailbox. *)
Definition close_undisturbed (m : mailbox) : option (Z * list bounced * mailbox) :=
  a ← close (fun _ => nullptr) (fun _ _ => []) m;
  Some (cl_count a, cl_sent a, cl_box a).

Definition ref_mailbox (m : mailbox) : mailbox := set_ref_count m (uwrap 64 (ref_count_ m + 1)).

(** [true] when the mailbox deletes itself. *)
Definition deref_mailbox (m : mailbox) : bool * mailbox :=
  let n := uwrap 64 (ref_count_ m - 1) in (n =? 0, set_ref_count m n).

(** The default constructor, with the addresses of the four dummy nodes. *)
Definition make_mailbox (uh ut nh nt : ptr) : mailbox :=
  let (lu, h1) := make uh ut ∅ in
  let (ln, h2) := make nh nt h1 in
  mk_mailbox lu ln nullptr h2 ∅ 1.

(** ** Representation *)

(** [stores m us ns xs]: the urgent cache holds [us], the normal cache [ns]
    (both oldest first), the inbox [xs] (newest first). *)
Record stores (m : mailbox) (us ns xs : list ptr) : Prop := {
  st_urgent : represents (nodes m) (urgent_queue_ m) us;
  st_normal : represents (nodes m) (normal_queue_ m) ns;
  st_inbox : LifoInbox.holds this (inbox_ m) xs;
  st_nodup : NoDup (footprint (urgent_queue_ m) us ++ footprint (normal_queue_ m) ns ++ xs);
  st_elems : forall p, p ∈ us ++ ns ++ xs -> is_Some (elems m !! p);
  st_uprio : Forall (fun p => urgent (elems m) p = true) us;
  st_nprio : Forall (fun p => urgent (elems m) p = false) ns;
}.

(** The pending messages of one priority, oldest first. *)
Definition urgent_lane (m : mailbox) (us xs : list ptr) : list ptr :=
  us ++ filter (fun p => urgent (elems m) p = true) (reverse xs).

Definition normal_lane (m : mailbox) (ns xs : list ptr) : list ptr :=
  ns ++ filter (fun p => urgent (elems m) p = false) (reverse xs).

(** ** Fetching *)

(** Two mailboxes with the same elements and the same dummy nodes. *)
Definition same_shape (m m' : mailbox) : Prop :=
  elems m' = elems m /\
  head_ (urgent_queue_ m') = head_ (urgent_queue_ m) /\
  tail_ (urgent_queue_ m') = tail_ (urgent_queue_ m) /\
  head_ (normal_queue_ m') = head_ (normal_queue_ m) /\
  tail_ (normal_queue_ m') = tail_ (normal_queue_ m).

Lemma same_shape_trans m1 m2 m3 : same_shape m1 m2 -> same_shape m2 m3 -> same_shape m1 m3.
Proof. unfold same_shape. intuition congruence. Qed.


(** The part of the representation the loop of [fetch_more] works on: the two
    caches [us], [ns] and the remaining chain [xs] of taken nodes. *)
Record fetching (m : mailbox) (us ns xs : list ptr) : Prop := {
  ft_urgent : represents (nodes m) (urgent_queue_ m) us;
  ft_normal : represents (nodes m) (normal_queue_ m) ns;
  ft_links : links (nodes m) xs nullptr;
  ft_nodup : NoDup (footprint (urgent_queue_ m) us ++ footprint (normal_queue_ m) ns ++ xs);
  ft_valid : nullptr ∉ xs;
  ft_elems : forall p, p ∈ xs -> is_Some (elems m !! p);
}.

Lemma fetching_disjoint m us ns x xs :
  fetching m us ns (x :: xs) ->
  x ∉ footprint (urgent_queue_ m) us /\ x ∉ footprint (normal_queue_ m) ns /\ x ∉ xs /\
  x <> nullptr /\
  (forall r, r ∈ footprint (normal_queue_ m) ns -> r ∉ x :: footprint (urgent_queue_ m) us) /\
  (forall r, r ∈ footprint (urgent_queue_ m) us -> r ∉ x :: footprint (normal_queue_ m) ns) /\
  (forall r, r ∈ xs -> r ∉ x :: footprint (urgent_queue_ m) us /\
     r ∉ x :: footprint (normal_queue_ m) ns).
Proof.
  intros [_ _ _ Hnd Hnull _]. set (a := footprint _ us) in *. set (b := footprint _ ns) in *.
  clearbody a b. rewrite !NoDup_app, NoDup_cons in Hnd. destruct Hnd as (Na & Hab & Nb & Hb & Hx & Nx).
  rewrite not_elem_of_cons in Hnull.
  repeat split; try (intros ?); set_solver.
Qed.

Lemma fetching_step_urgent m us us' ns x xs :
  fetching m (us ++ us') ns (x :: xs) ->
  exists r, insert_after (urgent_queue_ m) (last_from (head_ (urgent_queue_ m)) us) x (nodes m) = Some r /\
    fetching (set_urgent m r) (us ++ x :: us') ns xs /\ same_shape m (set_urgent m r).
Proof.
  intros Hf. pose proof (fetching_disjoint _ _ _ _ _ Hf) as (Hu & Hn & Hx & Hnull & Dn & Du & Dx).
  destruct Hf as [F1 F2 F3 F4 F5 F6].
  destruct (insert_after_implements _ _ _ _ _ F1 Hu Hnull) as (l' & h' & E & R & Eh & Et & C).
  exists (l', h'). split; [done|]. split; [|done]. simpl in F3. destruct F3 as [_ F3].
  split; simpl; [done| | | | |].
  - eapply represents_frame; [exact F2|]. intros r Hr. apply C. by apply Dn.
  - eapply links_frame; [exact F3|]. intros r Hr. apply C. by apply Dx.
  - unfold footprint in F4 |- *. rewrite Eh, Et.
    eapply NoDup_Permutation_proper; [|exact F4]. solve_Permutation.
  - set_solver.
  - intros p Hp. apply F6. set_solver.
Qed.

Lemma fetching_step_normal m us ns ns' x xs :
  fetching m us (ns ++ ns') (x :: xs) ->
  exists r, insert_after (normal_queue_ m) (last_from (head_ (normal_queue_ m)) ns) x (nodes m) = Some r /\
    fetching (set_normal m r) us (ns ++ x :: ns') xs /\ same_shape m (set_normal m r).
Proof.
  intros Hf. pose proof (fetching_disjoint _ _ _ _ _ Hf) as (Hu & Hn & Hx & Hnull & Dn & Du & Dx).
  destruct Hf as [F1 F2 F3 F4 F5 F6].
  destruct (insert_after_implements _ _ _ _ _ F2 Hn Hnull) as (l' & h' & E & R & Eh & Et & C).
  exists (l', h'). split; [done|]. split; [|done]. simpl in F3. destruct F3 as [_ F3].
  split; simpl; [|done| | | |].
  - eapply represents_frame; [exact F1|]. intros r Hr. apply C. by apply Du.
  - eapply links_frame; [exact F3|]. intros r Hr. apply C. by apply Dx.
  - unfold footprint in F4 |- *. rewrite Eh, Et.
    eapply NoDup_Permutation_proper; [|exact F4]. solve_Permutation.
  - set_solver.
  - intros p Hp. apply F6. set_solver.
Qed.

(** The elements of one priority in a list. *)
Definition lane (b : bool) (es : gmap Z mailbox_element) (xs : list ptr) : list ptr :=
  filter (fun p => urgent es p = b) xs.

Lemma lane_cons b es x xs :
  lane b es (x :: xs) = if Bool.eqb (urgent es x) b then x :: lane b es xs else lane b es xs.
Proof.
  unfold lane. rewrite filter_cons. case_decide as E.
  - by rewrite E, Bool.eqb_reflx.
  - by rewrite (proj2 (Bool.eqb_false_iff _ _) E).
Qed.

Lemma urgent_lookup es x e :
  es !! x = Some e -> urgent es x = MessageId.is_urgent_message (mid e).
Proof. intros H. unfold urgent. by rewrite H. Qed.

Lemma fetch_loop_spec fuel m us us' ns ns' x xs :
  fetching m (us ++ us') (ns ++ ns') (x :: xs) -> (length xs < fuel)%nat ->
  exists m', fetch_loop fuel (last_from (head_ (urgent_queue_ m)) us)
      (last_from (head_ (normal_queue_ m)) ns) x m = Some m' /\
    fetching m' (us ++ reverse (lane true (elems m) (x :: xs)) ++ us')
      (ns ++ reverse (lane false (elems m) (x :: xs)) ++ ns') [] /\
    same_shape m m' /\ stack_ m' = stack_ m /\ ref_count_ m' = ref_count_ m.
Proof.
  revert m us' ns' x fuel. induction xs as [|y xs IH]; intros m us' ns' x fuel Hf Hlen;
    (destruct fuel as [|fuel]; [by apply Nat.nlt_0_r in Hlen|]); cbn [fetch_loop].
  all: pose proof (ft_links _ _ _ _ Hf) as [Hnext _]; rewrite Hnext; cbn [mbind option_bind];
    destruct (ft_elems _ _ _ _ Hf x) as [e He]; [apply list_elem_of_here|]; rewrite He; cbn [mbind option_bind];
    rewrite !(lane_cons _ _ x), (urgent_lookup _ _ _ He);
    destruct (MessageId.is_urgent_message (mid e)) eqn:Eu; cbn [Bool.eqb].
  - destruct (fetching_step_urgent _ _ _ _ _ _ Hf) as (r & -> & Hf' & Eh).
    exists (set_urgent m r). done.
  - destruct (fetching_step_normal _ _ _ _ _ _ Hf) as (r & -> & Hf' & Eh).
    exists (set_normal m r). done.
  - destruct (fetching_step_urgent _ _ _ _ _ _ Hf) as (r & -> & Hf' & Eh).
    cbn [mbind option_bind]. change (default nullptr (head (y :: xs))) with y.
    pose proof (ft_valid _ _ _ _ Hf') as Hv. rewrite not_elem_of_cons in Hv.
    rewrite (proj2 (Z.eqb_neq y nullptr)) by (apply not_eq_sym; tauto).
    destruct (IH _ _ _ _ fuel Hf') as (m' & E & Hm & H1 & H2 & H3); [by apply Nat.succ_lt_mono|].
    pose proof (same_shape_trans _ _ _ Eh H1). destruct Eh as (_ & Hhu & _ & Hhn & _).
    rewrite Hhu, Hhn in E. exists m'. rewrite E. split; [done|]. split; [|done].
    by rewrite reverse_cons, <- app_assoc.
  - destruct (fetching_step_normal _ _ _ _ _ _ Hf) as (r & -> & Hf' & Eh).
    cbn [mbind option_bind]. change (default nullptr (head (y :: xs))) with y.
    pose proof (ft_valid _ _ _ _ Hf') as Hv. rewrite not_elem_of_cons in Hv.
    rewrite (proj2 (Z.eqb_neq y nullptr)) by (apply not_eq_sym; tauto).
    destruct (IH _ _ _ _ fuel Hf') as (m' & E & Hm & H1 & H2 & H3); [by apply Nat.succ_lt_mono|].
    pose proof (same_shape_trans _ _ _ Eh H1). destruct Eh as (_ & Hhu & _ & Hhn & _).
    rewrite Hhu, Hhn in E. exists m'. rewrite E. split; [done|]. split; [|done].
    by rewrite (reverse_cons _ x), <- app_assoc.
Qed.

Lemma lane_reverse b es xs : lane b es (reverse xs) = reverse (lane b es xs).
Proof.
  induction xs as [|x xs IH]; [done|]. rewrite reverse_cons, lane_cons.
  unfold lane in *. rewrite filter_app, IH, filter_cons, filter_nil.
  case_decide as E.
  - by rewrite E, Bool.eqb_reflx, reverse_cons.
  - by rewrite (proj2 (Bool.eqb_false_iff _ _) E), app_nil_r.
Qed.

Lemma lane_elem b es xs p : p ∈ lane b es xs <-> urgent es p = b /\ p ∈ xs.
Proof. unfold lane. by rewrite list_elem_of_filter. Qed.

Lemma closed_false m : closed m = false <-> stack_ m <> this + 1.
Proof. unfold closed, LifoInbox.closed. by rewrite Z.eqb_neq. Qed.

(** Taking the inbox of an open mailbox. *)
Lemma take_head_spec m xs :
  LifoInbox.holds this (inbox_ m) xs -> stack_ m <> this + 1 ->
  LifoInbox.take_head this (inbox_ m)
    = Some (default nullptr (head xs), LifoInbox.mk_state nullptr (nodes m)).
Proof.
  intros [Hh _ _ Hv] Hc. simpl in Hh.
  unfold LifoInbox.take_head, LifoInbox.take_head_to, LifoInbox.take_iter,
    LifoInbox.is_empty_or_blocked_tag, LifoInbox.stack_empty_tag. simpl.
  destruct xs as [|x xs].
  - destruct (Z.eqb_spec (stack_ m) nullptr) as [E|E]; [unfold inbox_; by rewrite E|].
    rewrite Z.eqb_refl. simpl. destruct Hh as [H|[H|H]]; [done|done|].
    unfold LifoInbox.reader_blocked_tag in *. by rewrite H, Z.eqb_refl.
  - apply Forall_cons in Hv as [(V1 & V2 & V3) _]. rewrite Hh.
    rewrite (proj2 (Z.eqb_neq x nullptr)), Z.eqb_refl by done. simpl.
    unfold LifoInbox.reader_blocked_tag in *. by rewrite (proj2 (Z.eqb_neq x this)).
Qed.

Lemma stores_fetching m us ns xs :
  stores m us ns xs -> fetching (set_inbox m (LifoInbox.mk_state nullptr (nodes m))) us ns xs.
Proof.
  intros [S1 S2 S3 S4 S5 S6 S7]. split; simpl; try done.
  - by apply (LifoInbox.holds_links _ _ _ S3).
  - intros Hin. pose proof (LifoInbox.holds_valid _ _ _ S3) as Hv.
    rewrite Forall_forall in Hv. by destruct (Hv _ Hin).
  - intros p Hp. apply S5. rewrite !elem_of_app. auto.
Qed.

Lemma fetching_stores m us ns :
  fetching m us ns [] -> stack_ m = nullptr ->
  (forall p, p ∈ us ++ ns -> is_Some (elems m !! p)) ->
  Forall (fun p => urgent (elems m) p = true) us ->
  Forall (fun p => urgent (elems m) p = false) ns -> stores m us ns [].
Proof.
  intros [F1 F2 F3 F4 F5 F6] Hs He Hu Hn. split; try done.
  - split; simpl; try done; [left; done|constructor].
  - intros p. rewrite app_nil_r. apply He.
Qed.

Lemma fetch_more_spec m us ns xs :
  stores m us ns xs -> stack_ m <> this + 1 ->
  exists m', fetch_more m = Some (bool_decide (xs <> []), m') /\
    stores m' (us ++ lane true (elems m) (reverse xs)) (ns ++ lane false (elems m) (reverse xs)) [] /\
    same_shape m m' /\ stack_ m' = nullptr /\ ref_count_ m' = ref_count_ m.
Proof.
  intros Hst Hc. pose proof (stores_fetching _ _ _ _ Hst) as Hf.
  destruct Hst as [S1 S2 S3 S4 S5 S6 S7].
  unfold fetch_more. rewrite (take_head_spec _ _ S3 Hc). cbn [mbind option_bind].
  set (m1 := set_inbox m _) in *. destruct xs as [|x xs].
  - change (default nullptr (head [])) with nullptr. rewrite Z.eqb_refl.
    exists m1. split; [done|]. rewrite !app_nil_r. split; [|done].
    apply fetching_stores; try done. intros p Hp. apply S5. by rewrite app_nil_r.
  - change (default nullptr (head (x :: xs))) with x.
    pose proof (ft_valid _ _ _ _ Hf) as Hv. rewrite not_elem_of_cons in Hv.
    rewrite (proj2 (Z.eqb_neq x nullptr)) by (apply not_eq_sym; tauto).
    unfold before_end. rewrite (rep_tail _ _ _ (ft_urgent _ _ _ _ Hf)). cbn [mbind option_bind].
    rewrite (rep_tail _ _ _ (ft_normal _ _ _ _ Hf)). cbn [mbind option_bind].
    assert (length xs < S (base.size (nodes m1)))%nat as Hfuel.
    { pose proof (ft_nodup _ _ _ _ Hf) as Hnd. rewrite !NoDup_app, NoDup_cons in Hnd.
      eapply links_fuel; [|exact (ft_links _ _ _ _ Hf)]. tauto. }
    rewrite <- (app_nil_r us), <- (app_nil_r ns) in Hf.
    destruct (fetch_loop_spec _ m1 us [] ns [] x xs Hf Hfuel) as (m' & E & Hm & E1 & E2 & E3).
    rewrite E. simpl mbind. exists m'. split; [done|]. rewrite !app_nil_r in Hm.
    rewrite !lane_reverse. split; [|done]. change (elems m1) with (elems m) in *.
    destruct E1 as [E1 _]. apply fetching_stores; [done|by rewrite E2|rewrite E1..].
    + intros p. rewrite !elem_of_app, !elem_of_reverse, !lane_elem. intros Hp. apply S5.
      rewrite !elem_of_app. tauto.
    + apply Forall_app. split; [done|]. apply Forall_forall. intros p.
      rewrite elem_of_reverse, lane_elem. tauto.
    + apply Forall_app. split; [done|]. apply Forall_forall. intros p.
      rewrite elem_of_reverse, lane_elem. tauto.
Qed.

(** ** Specifications of the operations *)

Lemma stores_frame m m' us ns xs :
  stores m us ns xs ->
  urgent_queue_ m' = urgent_queue_ m -> normal_queue_ m' = normal_queue_ m ->
  stack_ m' = stack_ m ->
  (forall r, r ∈ footprint (urgent_queue_ m) us ++ footprint (normal_queue_ m) ns ++ xs ->
     nodes m' !! r = nodes m !! r) ->
  (forall r, r ∈ us ++ ns ++ xs -> elems m' !! r = elems m !! r) ->
  stores m' us ns xs.
Proof.
  intros [S1 S2 S3 S4 S5 S6 S7] Eu En Es Hn He.
  assert (forall r, r ∈ us ++ ns ++ xs -> urgent (elems m') r = urgent (elems m) r) as Hp.
  { intros r Hr. unfold urgent. by rewrite He. }
  split; rewrite ?Eu, ?En; try done.
  - eapply represents_frame; [exact S1|]. intros r Hr. apply Hn. rewrite !elem_of_app. auto.
  - eapply represents_frame; [exact S2|]. intros r Hr. apply Hn. rewrite !elem_of_app. auto.
  - unfold inbox_. rewrite Es. apply (LifoInbox.holds_frame this (inbox_ m)); [done|].
    intros r Hr. apply Hn. rewrite !elem_of_app. auto.
  - intros p Hp'. rewrite He by done. by apply S5.
  - rewrite Forall_forall in *. intros p Hp'. rewrite Hp; [by apply S6|]. rewrite !elem_of_app. auto.
  - rewrite Forall_forall in *. intros p Hp'. rewrite Hp; [by apply S7|]. rewrite !elem_of_app. auto.
Qed.

(** An address that belongs to no node of the mailbox. *)
Definition unused (m : mailbox) (p : ptr) : Prop :=
  LifoInbox.valid_ptr this p /\ elems m !! p = None /\
  p <> head_ (urgent_queue_ m) /\ p <> tail_ (urgent_queue_ m) /\
  p <> head_ (normal_queue_ m) /\ p <> tail_ (normal_queue_ m).

Lemma unused_fresh m us ns xs p :
  stores m us ns xs -> unused m p ->
  p ∉ footprint (urgent_queue_ m) us ++ footprint (normal_queue_ m) ns ++ xs.
Proof.
  intros Hst (_ & He & H1 & H2 & H3 & H4). unfold footprint.
  assert (p ∉ us ++ ns ++ xs) as Hp.
  { intros Hp. destruct (st_elems _ _ _ _ Hst _ Hp) as [x Hx]. congruence. }
  rewrite !not_elem_of_app in *. rewrite !not_elem_of_cons. tauto.
Qed.

Lemma push_back_open m us ns xs p x :
  stores m us ns xs -> unused m p -> stack_ m <> this + 1 ->
  exists m', push_back p (allocate p x m)
      = Some (if blocked m then unblocked_reader else success, m') /\
    stores m' us ns (p :: xs) /\ elems m' = <[p := x]> (elems m) /\ stack_ m' = p /\
    urgent_queue_ m' = urgent_queue_ m /\ normal_queue_ m' = normal_queue_ m.
Proof.
  intros Hst Hu Hc. pose proof (unused_fresh _ _ _ _ _ Hst Hu) as Hfresh.
  destruct Hu as (Hv & He & _). rewrite !not_elem_of_app in Hfresh.
  destruct Hfresh as (Fu & Fn & Fx).
  assert (stores (allocate p x m) us ns xs) as Hst'.
  { eapply stores_frame; [exact Hst|done..|]. intros r Hr. simpl. rewrite lookup_insert_ne; [done|].
    intros ->. destruct (st_elems _ _ _ _ Hst _ Hr). congruence. }
  unfold push_back, LifoInbox.push_front. cbn [LifoInbox.push_loop].
  destruct (LifoInbox.push_iter_success this p (inbox_ (allocate p x m)) xs) as (s' & E & Hh & Hs & Hn);
    [apply (st_inbox _ _ _ _ Hst')|done|done|done|].
  rewrite E. cbn [mbind option_bind]. exists (set_inbox (allocate p x m) s').
  split; [unfold blocked, LifoInbox.blocked; simpl; by destruct (_ =? _)|]. split; [|done].
  destruct Hst' as [S1 S2 S3 S4 S5 S6 S7]. split; try done.
  - eapply represents_frame; [exact S1|]. intros r Hr. apply Hn. intros ->. done.
  - eapply represents_frame; [exact S2|]. intros r Hr. apply Hn. intros ->. done.
  - by destruct s'.
  - cbn [set_inbox allocate urgent_queue_ normal_queue_] in *.
    rewrite app_assoc, <- Permutation_middle, <- app_assoc.
    apply NoDup_cons. split; [|exact S4]. rewrite !not_elem_of_app. tauto.
  - simpl. intros r Hr. destruct (decide (r = p)) as [->|Hne]; [rewrite lookup_insert_eq; eauto|].
    apply S5. rewrite !elem_of_app, elem_of_cons in *. tauto.
Qed.

Lemma push_back_closed m us ns xs p x :
  stores m us ns xs -> unused m p -> stack_ m = this + 1 ->
  exists m', push_back p (allocate p x m) = Some (queue_closed, m') /\
    stores m' us ns xs /\ stack_ m' = this + 1 /\ elems m' = elems m.
Proof.
  intros Hst Hu Hc. pose proof (unused_fresh _ _ _ _ _ Hst Hu) as Hfresh.
  unfold push_back, LifoInbox.push_front. cbn [LifoInbox.push_loop].
  unfold LifoInbox.push_iter, LifoInbox.stack_closed_tag. cbn [inbox_ allocate set_elems LifoInbox.stack_ stack_].
  destruct Hu as (_ & Hnone & _).
  rewrite Hc, Z.eqb_refl. cbn [mbind option_bind]. eexists. split; [done|]. split; [|split; [done|]].
  - eapply stores_frame; [exact Hst|done|done|done| |]; simpl.
    + intros r Hr. rewrite lookup_delete_ne; [done|]. intros ->. done.
    + intros r Hr. rewrite delete_insert_eq, lookup_delete_ne; [done|]. intros ->.
      destruct (st_elems _ _ _ _ Hst _ Hr). congruence.
  - simpl. by rewrite delete_insert_eq, delete_id.
Qed.

Lemma pop_urgent_spec m u us ns xs :
  stores m (u :: us) ns xs ->
  exists l h, LinkedList.pop_front (urgent_queue_ m) (nodes m) = Some (u, l, h) /\
    stores (set_urgent m (l, h)) us ns xs /\
    head_ l = head_ (urgent_queue_ m) /\ tail_ l = tail_ (urgent_queue_ m).
Proof.
  intros [S1 S2 S3 S4 S5 S6 S7].
  destruct (pop_front_cons _ _ _ _ S1) as (l & h & E & R & Eh & Et & C & _).
  exists l, h. split; [done|]. split; [|done].
  pose proof S4 as Hd. rewrite !NoDup_app in Hd. destruct Hd as (Na & Hab & Nb & Hb & Nx).
  split; simpl; [done| | | | | |done].
  - eapply represents_frame; [exact S2|]. intros r Hr. apply C. intros Hin.
    apply (Hab _ Hin). rewrite elem_of_app. auto.
  - apply (LifoInbox.holds_frame this (inbox_ m)); [done|]. intros r Hr. apply C. intros Hin.
    apply (Hab _ Hin). rewrite elem_of_app. auto.
  - unfold footprint in *. rewrite Eh, Et. simpl in S4 |- *. rewrite !NoDup_cons in *.
    clear -S4. set_solver.
  - intros p Hp. apply S5. set_solver.
  - by apply Forall_cons in S6 as [_ ?].
Qed.

Lemma pop_normal_spec m n us ns xs :
  stores m us (n :: ns) xs ->
  exists l h, LinkedList.pop_front (normal_queue_ m) (nodes m) = Some (n, l, h) /\
    stores (set_normal m (l, h)) us ns xs /\
    head_ l = head_ (normal_queue_ m) /\ tail_ l = tail_ (normal_queue_ m).
Proof.
  intros [S1 S2 S3 S4 S5 S6 S7].
  destruct (pop_front_cons _ _ _ _ S2) as (l & h & E & R & Eh & Et & C & _).
  exists l, h. split; [done|]. split; [|done].
  pose proof S4 as Hd. rewrite !NoDup_app in Hd. destruct Hd as (Na & Hab & Nb & Hb & Nx).
  split; simpl; [|done| | | |done|].
  - eapply represents_frame; [exact S1|]. intros r Hr. apply C. intros Hin.
    apply (Hab _ Hr). rewrite elem_of_app. auto.
  - apply (LifoInbox.holds_frame this (inbox_ m)); [done|]. intros r Hr. apply C. intros Hin.
    apply (Hb _ Hin Hr).
  - unfold footprint in *. rewrite Eh, Et. simpl in S4 |- *.
    rewrite !NoDup_cons, !NoDup_app in *. simpl in *. rewrite !NoDup_cons in *. clear -S4. set_solver.
  - intros p Hp. apply S5. set_solver.
  - by apply Forall_cons in S7 as [_ ?].
Qed.

(** What one call of [pop_front] does to the three sequences: urgent cache
    first, then normal cache, and only when both are empty the inbox. *)
Definition serve (us ns xs : list ptr) : option (ptr * (list ptr * list ptr * list ptr)) :=
  match us, ns with
  | u :: us', _ => Some (u, (us', ns, xs))
  | [], n :: ns' => Some (n, ([], ns', xs))
  | [], [] => None
  end.

Definition refill (es : gmap Z mailbox_element) (us ns xs : list ptr)
  : list ptr * list ptr * list ptr :=
  (us ++ lane true es (reverse xs), ns ++ lane false es (reverse xs), []).

(** The result of [pop_front] on the sequences. *)
Definition abs_pop (es : gmap Z mailbox_element) (us ns xs : list ptr)
  : ptr * (list ptr * list ptr * list ptr) :=
  match serve us ns xs with
  | Some r => r
  | None =>
      let '(us', ns', xs') := refill es us ns xs in
      match serve us' ns' xs' with
      | Some r => r
      | None => (nullptr, (us', ns', xs'))
      end
  end.

Lemma stores_not_null m us ns xs p :
  stores m us ns xs -> p ∈ us ++ ns ++ xs -> p <> nullptr.
Proof.
  intros [S1 S2 S3 _ _ _ _]. rewrite !elem_of_app. intros Hp ->. unfold footprint in *.
  destruct Hp as [H|[H|H]].
  - apply (rep_nonnull _ _ _ S1). unfold footprint. set_solver.
  - apply (rep_nonnull _ _ _ S2). unfold footprint. set_solver.
  - pose proof (LifoInbox.holds_valid _ _ _ S3) as Hv. rewrite Forall_forall in Hv.
    by destruct (Hv _ H).
Qed.

(** One round of the loop when a cache has an element. *)
Lemma pop_loop_serve fuel m us ns xs p us' ns' xs' :
  stores m us ns xs -> serve us ns xs = Some (p, (us', ns', xs')) ->
  exists m', pop_loop (S fuel) m = Some (p, m') /\ stores m' us' ns' xs' /\
    same_shape m m' /\ stack_ m' = stack_ m /\ p <> nullptr /\ p ∈ us ++ ns ++ xs.
Proof.
  intros Hst Hs. cbn [pop_loop]. destruct us as [|u us].
  - destruct ns as [|n ns]; [done|]. injection Hs as <- <- <- <-.
    rewrite (pop_front_nil _ _ (st_urgent _ _ _ _ Hst)). cbn [mbind option_bind].
    rewrite Z.eqb_refl. cbn [negb].
    assert (stores (set_urgent m (urgent_queue_ m, nodes m)) [] (n :: ns) xs) as Hst'
      by (by destruct m).
    assert (n <> nullptr) as Hn by (apply (stores_not_null _ _ _ _ _ Hst); set_solver).
    destruct (pop_normal_spec _ _ _ _ _ Hst') as (l & h & -> & Hst2 & Eh & Et).
    cbn [mbind option_bind]. rewrite (proj2 (Z.eqb_neq n nullptr)) by done. cbn [negb].
    eexists. split; [done|]. split; [done|]. split; [done|]. split_and!; try done. set_solver.
  - injection Hs as <- <- <- <-.
    assert (u <> nullptr) as Hn by (apply (stores_not_null _ _ _ _ _ Hst); set_solver).
    destruct (pop_urgent_spec _ _ _ _ _ Hst) as (l & h & -> & Hst2 & Eh & Et).
    cbn [mbind option_bind]. rewrite (proj2 (Z.eqb_neq u nullptr)) by done. cbn [negb].
    eexists. split; [done|]. split; [done|]. split; [done|]. split_and!; try done. set_solver.
Qed.

Lemma pop_loop_refill fuel m xs :
  stores m [] [] xs -> stack_ m <> this + 1 ->
  exists m', fetch_more m = Some (bool_decide (xs <> []), m') /\
    pop_loop (S fuel) m = (if bool_decide (xs <> []) then pop_loop fuel m' else Some (nullptr, m')) /\
    stores m' (lane true (elems m) (reverse xs)) (lane false (elems m) (reverse xs)) [] /\
    same_shape m m' /\ stack_ m' = nullptr.
Proof.
  intros Hst Hc. destruct (fetch_more_spec _ _ _ _ Hst Hc) as (m' & E & Hm & Hs & Hn & _).
  exists m'. split; [done|]. split; [|done]. cbn [pop_loop].
  rewrite (pop_front_nil _ _ (st_urgent _ _ _ _ Hst)). cbn [mbind option_bind].
  rewrite Z.eqb_refl. cbn [negb].
  replace (set_urgent m (urgent_queue_ m, nodes m)) with m by (by destruct m).
  rewrite (pop_front_nil _ _ (st_normal _ _ _ _ Hst)). cbn [mbind option_bind].
  rewrite Z.eqb_refl. cbn [negb].
  replace (set_normal m (normal_queue_ m, nodes m)) with m by (by destruct m).
  by rewrite E.
Qed.

Lemma serve_none us ns xs : serve us ns xs = None -> us = [] /\ ns = [].
Proof. by destruct us, ns. Qed.

(** The real [pop_front] computes [abs_pop]. *)
Lemma pop_front_spec m us ns xs :
  stores m us ns xs -> stack_ m <> this + 1 -> this + 1 <> nullptr ->
  exists m' us' ns' xs', pop_front m = Some ((abs_pop (elems m) us ns xs).1, m') /\
    (abs_pop (elems m) us ns xs).2 = (us', ns', xs') /\
    stores m' us' ns' xs' /\ same_shape m m' /\ stack_ m' <> this + 1.
Proof.
  intros Hst Hc Hthis. unfold pop_front, abs_pop.
  destruct (serve us ns xs) as [[p [[us' ns'] xs']]|] eqn:Es.
  - destruct (pop_loop_serve 1 _ _ _ _ _ _ _ _ Hst Es) as (m' & E & Hm & Hs & Hst' & _).
    exists m', us', ns', xs'. by rewrite Hst'.
  - apply serve_none in Es as [-> ->].
    destruct (pop_loop_refill 1 _ _ Hst Hc) as (m1 & _ & -> & Hm1 & Hs1 & Hn1).
    simpl. destruct (serve (lane true _ _) _ _) as [[p [[us' ns'] xs']]|] eqn:Es.
    + rewrite bool_decide_true by (by intros ->).
      destruct (pop_loop_serve 0 _ _ _ _ _ _ _ _ Hm1 Es) as (m' & E & Hm & Hs & Hst' & _).
      exists m', us', ns', xs'. rewrite Hst', Hn1. split_and!; try done.
      by eapply same_shape_trans.
    + rewrite bool_decide_false.
      * exists m1. do 3 eexists. rewrite Hn1. split_and!; try done.
      * apply serve_none in Es as [E1 E2]. intros Hne. apply Hne.
        destruct xs as [|x xs _] using rev_ind; [done|].
        rewrite reverse_snoc, !lane_cons in *. by destruct (urgent _ _).
Qed.

(** Where the element [abs_pop] returns comes from: the head of one of the two
    lanes, or nowhere when both are empty. *)
Lemma abs_pop_lanes es us ns xs us' ns' xs' :
  Forall (fun p => urgent es p = true) us -> Forall (fun p => urgent es p = false) ns ->
  (abs_pop es us ns xs).2 = (us', ns', xs') ->
  let p := (abs_pop es us ns xs).1 in
  let lu := us ++ lane true es (reverse xs) in let ln := ns ++ lane false es (reverse xs) in
  let lu' := us' ++ lane true es (reverse xs') in let ln' := ns' ++ lane false es (reverse xs') in
  (p = nullptr /\ us ++ ns ++ xs = [] /\ lu' = [] /\ ln' = []) \/
  (urgent es p = true /\ lu = p :: lu' /\ ln = ln') \/
  (urgent es p = false /\ lu = lu' /\ ln = p :: ln').
Proof.
  intros Hu Hn. unfold abs_pop. destruct us as [|u us]; [destruct ns as [|n ns]|]; simpl.
  - destruct (lane true es (reverse xs)) as [|u us] eqn:Eu; simpl.
    + destruct (lane false es (reverse xs)) as [|n ns] eqn:En; simpl; intros [= <- <- <-]; simpl.
      * left. rewrite Eu || idtac. split_and!; try done.
        destruct xs as [|x xs _] using rev_ind; [done|].
        rewrite reverse_snoc, !lane_cons in *. by destruct (urgent _ _).
      * right; right. rewrite !app_nil_r. split_and!; try done.
        assert (n ∈ lane false es (reverse xs)) as H by (rewrite En; apply list_elem_of_here).
        by apply lane_elem in H as [? _].
    + intros [= <- <- <-]. simpl. right; left. rewrite !app_nil_r. split_and!; try done.
      assert (u ∈ lane true es (reverse xs)) as H by (rewrite Eu; apply list_elem_of_here).
      by apply lane_elem in H as [? _].
  - intros [= <- <- <-]. right; right. apply Forall_cons in Hn as [Hn _]. done.
  - intros [= <- <- <-]. right; left. apply Forall_cons in Hu as [Hu _]. done.
Qed.

(** ** Histories *)

(** The elements stored at the addresses [ps]. *)
Definition contents (es : gmap Z mailbox_element) (ps : list ptr) : list mailbox_element :=
  omap (fun p => es !! p) ps.

Definition of_prio (b : bool) (xs : list mailbox_element) : list mailbox_element :=
  filter (fun x => MessageId.is_urgent_message (mid x) = b) xs.

(** The lane of priority [b], oldest message first: the cached part, then the
    part still in the inbox. *)
Definition pending (b : bool) (es : gmap Z mailbox_element) (us ns xs : list ptr) : list ptr :=
  (if b then us else ns) ++ lane b es (reverse xs).

(** A mailbox with the elements it accepted and the elements it handed out. *)
Record run := mk_run {
  box : mailbox;
  accepted : list mailbox_element;
  delivered : list mailbox_element;
}.

(** The calls of the senders and of the owner, before the mailbox is closed. *)
Inductive step : run -> run -> Prop :=
| step_enqueue r p x res m' :
    unused (box r) p -> push_back p (allocate p x (box r)) = Some (res, m') ->
    step r (mk_run m' (accept res x (accepted r)) (delivered r))
| step_dequeue r p x m' :
    pop_front (box r) = Some (p, m') -> p <> nullptr -> elems m' !! p = Some x ->
    step r (mk_run (release p m') (accepted r) (delivered r ++ [x]))
| step_idle r m' :
    pop_front (box r) = Some (nullptr, m') -> step r (mk_run m' (accepted r) (delivered r))
| step_peek r id p m' :
    peek id (box r) = Some (p, m') -> step r (mk_run m' (accepted r) (delivered r))
| step_size r n m' :
    mailbox_size (box r) = Some (n, m') -> step r (mk_run m' (accepted r) (delivered r))
| step_block r :
    step r (mk_run (try_block (box r)).2 (accepted r) (delivered r))
| step_unblock r :
    step r (mk_run (try_unblock (box r)).2 (accepted r) (delivered r)).

(** The history invariant for given contents. *)
Record tracks (r : run) (us ns xs : list ptr) : Prop := {
  tr_stores : stores (box r) us ns xs;
  tr_open : stack_ (box r) <> this + 1;
  tr_fifo : forall b, of_prio b (accepted r)
    = of_prio b (delivered r) ++ contents (elems (box r)) (pending b (elems (box r)) us ns xs);
  tr_owned : forall p, is_Some (elems (box r) !! p) -> p ∈ us ++ ns ++ xs;
}.

Lemma lane_ext b es es' ps : (forall p, p ∈ ps -> es' !! p = es !! p) -> lane b es' ps = lane b es ps.
Proof.
  induction ps as [|p ps IH]; intros H; [done|]. rewrite !lane_cons. unfold urgent at 1 2.
  rewrite (H p) by apply list_elem_of_here. rewrite IH; [done|].
  intros q Hq. apply H. by apply list_elem_of_further.
Qed.

Lemma contents_ext es es' ps : (forall p, p ∈ ps -> es' !! p = es !! p) -> contents es' ps = contents es ps.
Proof.
  induction ps as [|p ps IH]; intros H; [done|]. unfold contents in *. cbn [omap list_omap].
  rewrite (H p) by apply list_elem_of_here. rewrite IH; [done|].
  intros q Hq. apply H. by apply list_elem_of_further.
Qed.

Lemma pending_ext b es es' us ns xs :
  (forall p, p ∈ us ++ ns ++ xs -> es' !! p = es !! p) ->
  pending b es' us ns xs = pending b es us ns xs /\
  contents es' (pending b es us ns xs) = contents es (pending b es us ns xs).
Proof.
  intros H. unfold pending. split.
  - f_equal. apply lane_ext. intros p Hp. apply H. rewrite elem_of_reverse in Hp.
    rewrite !elem_of_app. auto.
  - apply contents_ext. intros p Hp. apply H. rewrite !elem_of_app, lane_elem, elem_of_reverse in *.
    destruct b; tauto.
Qed.

Lemma lanes_perm es ps : lane true es ps ++ lane false es ps ≡ₚ ps.
Proof.
  induction ps as [|p ps IH]; [done|]. rewrite !lane_cons.
  destruct (urgent es p); simpl; [by rewrite IH|]. by rewrite <- Permutation_middle, IH.
Qed.

Lemma pending_perm es us ns xs :
  pending true es us ns xs ++ pending false es us ns xs ≡ₚ us ++ ns ++ xs.
Proof.
  unfold pending. rewrite <- (reverse_Permutation xs) at 3. rewrite <- (lanes_perm es (reverse xs)) at 3.
  solve_Permutation.
Qed.

(** [pop_front] in terms of lanes. *)
Lemma pop_front_lanes m us ns xs :
  stores m us ns xs -> stack_ m <> this + 1 -> this + 1 <> nullptr ->
  exists p m' us' ns' xs', pop_front m = Some (p, m') /\ stores m' us' ns' xs' /\
    same_shape m m' /\ stack_ m' <> this + 1 /\
    ((p = nullptr /\ us ++ ns ++ xs = [] /\ us' ++ ns' ++ xs' = []) \/
     (p <> nullptr /\ us ++ ns ++ xs ≡ₚ p :: us' ++ ns' ++ xs' /\
      forall b, pending b (elems m) us ns xs
        = (if Bool.eqb b (urgent (elems m) p) then [p] else []) ++ pending b (elems m) us' ns' xs')).
Proof.
  intros Hst Hc Ht. destruct (pop_front_spec _ _ _ _ Hst Hc Ht)
    as (m' & us' & ns' & xs' & E & Ea & Hm & Hs & Ho).
  exists (abs_pop (elems m) us ns xs).1, m', us', ns', xs'. split_and!; try done.
  pose proof (abs_pop_lanes (elems m) us ns xs us' ns' xs' (st_uprio _ _ _ _ Hst)
    (st_nprio _ _ _ _ Hst) Ea) as Hl. simpl in Hl.
  set (p := (abs_pop (elems m) us ns xs).1) in *. clearbody p.
  pose proof (pending_perm (elems m) us ns xs) as P.
  pose proof (pending_perm (elems m) us' ns' xs') as P'. unfold pending in P, P'.
  destruct Hl as [(-> & H1 & H2 & H3)|[(Hp & H1 & H2)|(Hp & H1 & H2)]].
  - left. split_and!; try done. rewrite H2, H3 in P'. by apply Permutation_nil_l in P'.
  - right. rewrite H1, H2 in P. simpl in P. rewrite P' in P. split_and!; [|by symmetry|].
    + apply (stores_not_null _ _ _ _ p Hst). rewrite <- P. apply list_elem_of_here.
    + intros b. rewrite Hp. unfold pending. destruct b; simpl; [done|]. by rewrite H2.
  - right. rewrite H1, H2, <- Permutation_middle in P. rewrite P' in P. split_and!; [|by symmetry|].
    + apply (stores_not_null _ _ _ _ p Hst). rewrite <- P. apply list_elem_of_here.
    + intros b. rewrite Hp. unfold pending. destruct b; simpl; [|done]. by rewrite H1.
Qed.

Lemma of_prio_snoc b xs x :
  of_prio b (xs ++ [x])
  = of_prio b xs ++ (if Bool.eqb (MessageId.is_urgent_message (mid x)) b then [x] else []).
Proof.
  unfold of_prio. rewrite filter_app, filter_cons, filter_nil. f_equal. case_decide as E.
  - by rewrite E, Bool.eqb_reflx.
  - by rewrite (proj2 (Bool.eqb_false_iff _ _) E).
Qed.

Lemma contents_app es ps qs : contents es (ps ++ qs) = contents es ps ++ contents es qs.
Proof. apply omap_app. Qed.

Lemma contents_single es p x : es !! p = Some x -> contents es [p] = [x].
Proof. intros H. unfold contents. cbn. by rewrite H. Qed.

Lemma pending_refill b es us ns xs :
  pending b es (us ++ lane true es (reverse xs)) (ns ++ lane false es (reverse xs)) []
  = pending b es us ns xs.
Proof. unfold pending. simpl. rewrite app_nil_r. by destruct b. Qed.

Lemma tracks_enqueue r us ns xs p x res m' :
  tracks r us ns xs -> unused (box r) p -> push_back p (allocate p x (box r)) = Some (res, m') ->
  tracks (mk_run m' (accept res x (accepted r)) (delivered r)) us ns (p :: xs).
Proof.
  intros [Hst Ho Hf Hown] Hu E. pose proof (unused_fresh _ _ _ _ _ Hst Hu) as Hfresh.
  destruct (push_back_open _ _ _ _ _ x Hst Hu Ho) as (m1 & E1 & Hst' & He & Hs & _).
  rewrite E in E1. injection E1 as Hres <-.
  assert (p ∉ us ++ ns ++ xs) as Hp.
  { intros Hp. destruct (st_elems _ _ _ _ Hst _ Hp). destruct Hu as (_ & ? & _). congruence. }
  destruct (pending_ext true (elems (box r)) (elems m') us ns xs) as [Pt Ct];
    [intros q Hq; rewrite He, lookup_insert_ne; [done|by intros ->]|].
  destruct (pending_ext false (elems (box r)) (elems m') us ns xs) as [Pf Cf];
    [intros q Hq; rewrite He, lookup_insert_ne; [done|by intros ->]|].
  assert (elems m' !! p = Some x) as Hx by (by rewrite He, lookup_insert_eq).
  split; simpl; [done| | |].
  - rewrite Hs. destruct Hu as ((_ & V & _) & _). done.
  - intros b. assert (accept res x (accepted r) = accepted r ++ [x]) as ->
      by (subst res; by destruct (blocked _)).
    rewrite of_prio_snoc, Hf, <- app_assoc. f_equal.
    assert (pending b (elems m') us ns (p :: xs)
      = pending b (elems m') us ns xs
        ++ (if Bool.eqb (MessageId.is_urgent_message (mid x)) b then [p] else [])) as ->.
    { unfold pending. rewrite reverse_cons, <- app_assoc. f_equal. unfold lane at 1.
      rewrite filter_app. f_equal. change (lane b (elems m') [p] = if Bool.eqb (MessageId.is_urgent_message (mid x)) b then [p] else []).
      by rewrite lane_cons, (urgent_lookup _ _ _ Hx). }
    rewrite contents_app. f_equal.
    + destruct b; [by rewrite Pt, Ct|by rewrite Pf, Cf].
    + destruct (Bool.eqb _ _); [|done]. symmetry. by apply contents_single.
  - intros q. rewrite He, lookup_insert, !elem_of_app, elem_of_cons. case_decide; [auto|].
    intros Hq. specialize (Hown _ Hq). rewrite !elem_of_app in Hown. tauto.
Qed.

Lemma stores_nodup m us ns xs : stores m us ns xs -> NoDup (us ++ ns ++ xs).
Proof.
  intros Hst. pose proof (st_nodup _ _ _ _ Hst) as N. unfold footprint in N.
  eapply sublist_NoDup; [exact N|].
  repeat first [apply sublist_app|apply sublist_cons|reflexivity].
Qed.

Lemma tracks_dequeue r us ns xs p x m' :
  this + 1 <> nullptr ->
  tracks r us ns xs -> pop_front (box r) = Some (p, m') -> p <> nullptr -> elems m' !! p = Some x ->
  exists us' ns' xs', tracks (mk_run (release p m') (accepted r) (delivered r ++ [x])) us' ns' xs'.
Proof.
  intros Ht [Hst Ho Hf Hown] E Hp Hx.
  destruct (pop_front_lanes _ _ _ _ Hst Ho Ht)
    as (p' & m1 & us' & ns' & xs' & E1 & Hst' & (He & _) & Ho' & Hcase).
  rewrite E in E1. injection E1 as <- <-. destruct Hcase as [(? & _)|(_ & HP & Hb)]; [done|].
  assert (p ∉ us' ++ ns' ++ xs') as Hfresh.
  { pose proof (stores_nodup _ _ _ _ Hst) as N.
    rewrite HP in N. by apply NoDup_cons in N as [? _]. }
  exists us', ns', xs'. split; simpl; [|done| |].
  - eapply stores_frame; [exact Hst'|done..|]. intros q Hq. simpl. rewrite lookup_delete_ne; [done|].
    by intros ->.
  - intros b. rewrite of_prio_snoc, Hf, <- app_assoc. f_equal. rewrite Hb, contents_app.
    destruct (pending_ext b (elems m') (delete p (elems m')) us' ns' xs') as [Pb Cb].
    { intros q Hq. rewrite lookup_delete_ne; [done|]. by intros ->. }
    rewrite Pb, Cb, He in *. f_equal.
    rewrite (urgent_lookup _ _ _ Hx).
    destruct b, (MessageId.is_urgent_message (mid x)); try done; unfold contents; simpl; by rewrite Hx.
  - intros q. rewrite He, lookup_delete. case_decide; [by intros []|]. intros Hq.
    specialize (Hown _ Hq). rewrite HP, elem_of_cons in Hown. destruct Hown; [by subst|done].
Qed.

Lemma tracks_stores r us ns xs m' us' ns' xs' :
  tracks r us ns xs -> stores m' us' ns' xs' -> stack_ m' <> this + 1 -> elems m' = elems (box r) ->
  (forall b, pending b (elems m') us' ns' xs' = pending b (elems m') us ns xs) ->
  tracks (mk_run m' (accepted r) (delivered r)) us' ns' xs'.
Proof.
  intros [Hst Ho Hf Hown] Hst' Ho' He Hp. split; simpl; try done.
  - intros b. by rewrite Hp, He, Hf.
  - intros p. rewrite He. intros Hq. specialize (Hown _ Hq).
    rewrite <- (pending_perm (elems m')), !Hp, pending_perm. done.
Qed.

Lemma front_spec h l x xs : represents h l (x :: xs) -> front l h = Some x.
Proof. intros H. by apply represents_links in H as (Hh & _). Qed.

Lemma find_app (f : ptr -> bool) ps qs :
  List.find f (ps ++ qs) = match List.find f ps with Some p => Some p | None => List.find f qs end.
Proof. induction ps as [|p ps IH]; [done|]. simpl. by destruct (f p). Qed.

(** The address of the first pending element that satisfies [f], urgent lane
    first. *)
Definition first_pending (f : ptr -> bool) (es : gmap Z mailbox_element) (us ns xs : list ptr) : ptr :=
  default nullptr (List.find f (pending true es us ns xs ++ pending false es us ns xs)).

Definition matches (id : MessageId.message_id) (es : gmap Z mailbox_element) (p : ptr) : bool :=
  MessageId.is_async id ||
  match es !! p with Some x => MessageId.eqb (mid x) id | None => false end.

Lemma find_true (f : ptr -> bool) p ps :
  f p = true -> List.find f (p :: ps) = Some p.
Proof. simpl. by intros ->. Qed.

Lemma peek_spec id m us ns xs :
  stores m us ns xs -> stack_ m <> this + 1 -> blocked m = false ->
  exists m' us' ns', peek id m = Some (first_pending (matches id (elems m)) (elems m) us ns xs, m') /\
    stores m' us' ns' [] /\ same_shape m m' /\ stack_ m' = nullptr /\
    forall b, pending b (elems m) us' ns' [] = pending b (elems m) us ns xs.
Proof.
  intros Hst Hc Hb. unfold peek. rewrite (proj2 (closed_false m) Hc), Hb. cbn [orb].
  destruct (fetch_more_spec _ _ _ _ Hst Hc) as (m' & E & Hm & Hs & Hn & _).
  rewrite E. cbn [mbind option_bind]. exists m'. do 2 eexists.
  split; [|split; [exact Hm|]; split; [done|]; split; [done|]; intros b; apply pending_refill].
  set (lu := us ++ _) in *. set (ln := ns ++ _) in *.
  assert (first_pending (matches id (elems m)) (elems m) us ns xs
    = default nullptr (List.find (matches id (elems m)) (lu ++ ln))) as -> by done.
  pose proof (st_urgent _ _ _ _ Hm) as Hu. pose proof (st_normal _ _ _ _ Hm) as Hn'.
  pose proof (proj1 Hs) as He. unfold matches. destruct (MessageId.is_async id) eqn:Ea.
  - rewrite (empty_spec _ _ _ Hu), (empty_spec _ _ _ Hn').
    destruct lu as [|u lu]; [destruct ln as [|n ln]|]; cbn [app].
    + rewrite !bool_decide_true by done. done.
    + rewrite bool_decide_true, bool_decide_false by done. cbn [negb].
      rewrite (front_spec _ _ _ _ Hn'). by rewrite find_true by done.
    + rewrite bool_decide_false by done. cbn [negb].
      rewrite (front_spec _ _ _ _ Hu). by rewrite find_true by done.
  - cbn [orb]. rewrite He. rewrite (find_if_spec _ _ _ _ Hu), find_app. cbn [mbind option_bind].
    destruct (List.find _ lu) as [p|] eqn:Ef; simpl.
    + apply List.find_some in Ef as [Hin _]. rewrite <- list_elem_of_In in Hin.
      rewrite (proj2 (Z.eqb_neq p nullptr)); [done|].
      apply (stores_not_null _ _ _ _ _ Hm). rewrite elem_of_app. auto.
    + by rewrite (find_if_spec _ _ _ _ Hn').
Qed.

Lemma peek_blocked id m : blocked m = true -> peek id m = Some (nullptr, m).
Proof. intros Hb. unfold peek. by rewrite Hb, orb_true_r. Qed.

Lemma cached_spec m us ns xs : stores m us ns xs -> cached m = zlen us + zlen ns.
Proof.
  intros H. unfold cached, size.
  by rewrite (rep_size _ _ _ (st_urgent _ _ _ _ H)), (rep_size _ _ _ (st_normal _ _ _ _ H)).
Qed.

Lemma try_block_spec m us ns xs :
  stores m us ns xs -> stack_ m <> this + 1 ->
  exists m', try_block m = (bool_decide (us ++ ns ++ xs = [] /\ stack_ m = nullptr), m') /\
    stores m' us ns xs /\ same_shape m m' /\ stack_ m' <> this + 1 /\
    (bool_decide (us ++ ns ++ xs = [] /\ stack_ m = nullptr) = true -> blocked m' = true).
Proof.
  intros Hst Hc. unfold try_block. rewrite (cached_spec _ _ _ _ Hst).
  destruct (Z.eqb_spec (zlen us + zlen ns) 0) as [E|E].
  - assert (us = [] /\ ns = []) as [-> ->] by (unfold zlen in E; destruct us, ns; simpl in *; split; try done; lia).
    unfold LifoInbox.try_block, LifoInbox.stack_empty_tag. cbn [inbox_ LifoInbox.stack_ LifoInbox.nodes].
    destruct (Z.eqb_spec (stack_ m) nullptr) as [Es|Es].
    + assert (xs = []) as ->.
      { apply (LifoInbox.holds_tag this (inbox_ m)); [apply (st_inbox _ _ _ _ Hst)|by left]. }
      rewrite bool_decide_true by done. eexists. split; [done|]. split_and!; try done.
      * destruct Hst as [S1 S2 S3 S4 S5 S6 S7]. split; try done.
        split; simpl; try done; [right; right; done|constructor].
      * simpl. unfold LifoInbox.reader_blocked_tag. clear. lia.
      * intros _. unfold blocked, LifoInbox.blocked. simpl. apply Z.eqb_refl.
    + rewrite bool_decide_false by tauto. exists m. split; [by destruct m|]. split_and!; try done.
  - rewrite bool_decide_false.
    + exists m. split_and!; done.
    + intros [H _]. apply app_eq_nil in H as [-> H]. by apply app_eq_nil in H as [-> ->].
Qed.

Lemma try_unblock_spec m us ns xs :
  stores m us ns xs -> stack_ m <> this + 1 -> this + 1 <> nullptr ->
  exists m', try_unblock m = (blocked m, m') /\ stores m' us ns xs /\ same_shape m m' /\
    stack_ m' <> this + 1.
Proof.
  intros Hst Hc Ht. unfold try_unblock, LifoInbox.try_unblock, blocked, LifoInbox.blocked.
  cbn [inbox_ LifoInbox.stack_ LifoInbox.nodes].
  destruct (Z.eqb_spec (stack_ m) (LifoInbox.reader_blocked_tag this)) as [Es|Es].
  - eexists. split; [done|]. split_and!; try done.
    assert (xs = []) as ->.
    { apply (LifoInbox.holds_tag this (inbox_ m)); [apply (st_inbox _ _ _ _ Hst)|right; right; done]. }
    destruct Hst as [S1 S2 S3 S4 S5 S6 S7]. split; try done.
    split; simpl; try done; [left; done|constructor].
  - exists m. split; [by destruct m|]. done.
Qed.

Lemma tracks_step r r' us ns xs :
  this + 1 <> nullptr -> tracks r us ns xs -> step r r' -> exists us' ns' xs', tracks r' us' ns' xs'.
Proof.
  intros Ht Hr Hstep. pose proof Hr as [Hst Ho Hf Hown]. destruct Hstep as
    [r p x res m' Hu E|r p x m' E Hp Hx|r m' E|r id p m' E|r n m' E|r|r].
  - exists us, ns, (p :: xs). by eapply tracks_enqueue.
  - by eapply tracks_dequeue.
  - destruct (pop_front_lanes _ _ _ _ Hst Ho Ht)
      as (p' & m1 & us' & ns' & xs' & E1 & Hst' & (He & _) & Ho' & Hcase).
    rewrite E in E1. injection E1 as <- <-. destruct Hcase as [(_ & HP & HP')|(? & _)]; [|done].
    exists us', ns', xs'. eapply tracks_stores; try done. intros b.
    apply app_eq_nil in HP as [-> HP]. apply app_eq_nil in HP as [-> ->].
    apply app_eq_nil in HP' as [-> HP']. by apply app_eq_nil in HP' as [-> ->].
  - destruct (blocked (box r)) eqn:Hb.
    + rewrite (peek_blocked _ _ Hb) in E. injection E as <- <-. exists us, ns, xs. by destruct r.
    + destruct (peek_spec id _ _ _ _ Hst Ho Hb) as (m1 & us' & ns' & E1 & Hm & (He & _) & Hn & Hp).
      rewrite E in E1. injection E1 as -> <-. exists us', ns', [].
      eapply tracks_stores; try done; [by rewrite Hn|]. intros b. by rewrite He.
  - destruct (fetch_more_spec _ _ _ _ Hst Ho) as (m1 & E1 & Hm & (He & _) & Hn & _).
    unfold mailbox_size in E. rewrite E1 in E. injection E as <- <-.
    do 3 eexists. eapply tracks_stores; [done|exact Hm|by rewrite Hn|done|].
    intros b. rewrite He. apply pending_refill.
  - destruct (try_block_spec _ _ _ _ Hst Ho) as (m1 & E1 & Hm & (He & _) & Ho' & _).
    rewrite E1. exists us, ns, xs. by eapply tracks_stores.
  - destruct (try_unblock_spec _ _ _ _ Hst Ho Ht) as (m1 & E1 & Hm & (He & _) & Ho').
    rewrite E1. exists us, ns, xs. by eapply tracks_stores.
Qed.

Definition initial (uh ut nh nt : ptr) : run := mk_run (make_mailbox uh ut nh nt) [] [].

Lemma tracks_initial uh ut nh nt :
  NoDup [nullptr; uh; ut; nh; nt] -> this + 1 <> nullptr -> tracks (initial uh ut nh nt) [] [] [].
Proof.
  rewrite !NoDup_cons, !not_elem_of_cons.
  intros ((N1 & N2 & N3 & N4 & _) & (N5 & N6 & N7 & _) & (N8 & N9 & _) & (N10 & _) & _ & _) Hthis.
  split; [|done|by intros []|by intros p []]. split; try done.
  - apply (represents_frame (init (mk_list uh ut 0) ∅).2).
    + apply (init_represents (mk_list uh ut 0)); simpl; auto.
    + unfold footprint. simpl. intros r Hr. rewrite (lookup_insert_ne _ nt), (lookup_insert_ne _ nh); [done|..];
        intros <-; rewrite !elem_of_cons, elem_of_nil in Hr; naive_solver.
  - apply (init_represents (mk_list nh nt 0)); simpl; auto.
  - split; simpl; try done; [by left|constructor].
  - unfold footprint. simpl. rewrite !NoDup_cons, !not_elem_of_cons.
    split_and!; auto using not_elem_of_nil, NoDup_nil_2.
  - intros p Hp. by apply elem_of_nil in Hp.
Qed.

Lemma tracks_reachable uh ut nh nt r :
  NoDup [nullptr; uh; ut; nh; nt] -> this + 1 <> nullptr -> rtc step (initial uh ut nh nt) r ->
  exists us ns xs, tracks r us ns xs.
Proof.
  intros Hnd Ht Hr. assert (exists us ns xs, tracks (initial uh ut nh nt) us ns xs) as H
    by (do 3 eexists; by apply tracks_initial).
  clear Hnd. induction Hr as [|r r' r'' Hs Hr IH]; [done|]. apply IH.
  destruct H as (us & ns & xs & H). by eapply tracks_step.
Qed.

(** ** Specification of [close] *)

Lemma contents_length es ps :
  (forall p, p ∈ ps -> is_Some (es !! p)) -> zlen (contents es ps) = zlen ps.
Proof.
  induction ps as [|p ps IH]; intros H; [done|].
  destruct (H p) as [x Hx]; [apply list_elem_of_here|]. unfold contents in *.
  cbn [omap list_omap]. rewrite Hx, !zlen_cons, IH; [done|].
  intros q Hq. apply H. by apply list_elem_of_further.
Qed.

Lemma links_size h xs q : NoDup xs -> links h xs q -> (length xs <= base.size h)%nat.
Proof.
  intros Hnd Hl. rewrite <- size_dom, <- (size_list_to_set (C := gset Z) xs) by done.
  apply subseteq_size. clear Hnd. induction xs as [|x xs IH]; simpl; [set_solver|].
  destruct Hl as [Hx Hl]. apply elem_of_dom_2 in Hx. specialize (IH Hl). set_solver.
Qed.

Definition dummies (m : mailbox) : list ptr :=
  [head_ (urgent_queue_ m); tail_ (urgent_queue_ m); head_ (normal_queue_ m); tail_ (normal_queue_ m)].

(** In the middle of a loop of [close]: [cur] is the chain still to be
    visited, [fx] the other nodes of the mailbox, [xs] the inbox. *)
Record closing_inv (m : mailbox) (last : ptr) (cur fx xs : list ptr) : Prop := {
  ci_links : links (nodes m) cur last;
  ci_last : last ∉ cur;
  ci_inbox : LifoInbox.holds this (inbox_ m) xs;
  ci_nodup : NoDup (cur ++ fx ++ xs);
  ci_elems : forall p, p ∈ cur ++ xs -> is_Some (elems m !! p);
  ci_fixed : forall p, p ∈ fx -> p ∈ dummies m \/ is_Some (elems m !! p);
}.

(** What arriving elements [late] at the nodes [news] change. *)
Record grown (m m' : mailbox) (kept news : list ptr) (late : list mailbox_element) : Prop := {
  gr_closed : closed m' = closed m;
  gr_urgent : urgent_queue_ m' = urgent_queue_ m;
  gr_normal : normal_queue_ m' = normal_queue_ m;
  gr_nodes : forall r, r ∈ kept -> nodes m' !! r = nodes m !! r;
  gr_elems : forall r, r ∈ kept -> elems m' !! r = elems m !! r;
  gr_late : contents (elems m') news = reverse late;
  gr_dom : forall q, is_Some (elems m' !! q) -> q ∈ news \/ is_Some (elems m !! q);
}.

Lemma grown_refl m kept : grown m m kept [] [].
Proof. split; try done. by right. Qed.

Lemma grown_trans m m1 m2 kept n1 n2 l1 l2 :
  grown m m1 kept n1 l1 -> grown m1 m2 (n1 ++ kept) n2 l2 -> grown m m2 kept (n2 ++ n1) (l1 ++ l2).
Proof.
  intros [A1 A2 A3 A4 A5 A6 A7] [B1 B2 B3 B4 B5 B6 B7].
  split; try congruence.
  - intros r Hr. rewrite B4, A4; [done|done|]. rewrite elem_of_app. auto.
  - intros r Hr. rewrite B5, A5; [done|done|]. rewrite elem_of_app. auto.
  - rewrite contents_app, B6, reverse_app, (contents_ext (elems m1)); [by rewrite A6|].
    intros p Hp. apply B5. rewrite elem_of_app. auto.
  - intros q Hq. rewrite elem_of_app. destruct (B7 q Hq) as [|Hq1]; [auto|].
    destruct (A7 q Hq1); auto.
Qed.

Lemma closing_unused m last cur fx xs p :
  closing_inv m last cur fx xs -> unused m p -> p ∉ cur ++ fx ++ xs.
Proof.
  intros [C1 C2 C3 C4 C5 C6] (_ & He & Hd). intros Hp.
  assert (p ∈ cur ++ xs \/ p ∈ fx) as [Hc|Hc] by (rewrite !elem_of_app in *; tauto).
  - destruct (C5 _ Hc). congruence.
  - destruct (C6 _ Hc) as [Hx|[? ?]]; [|congruence]. unfold dummies in Hx.
    rewrite !elem_of_cons, elem_of_nil in Hx. tauto.
Qed.

(** The invariant only depends on the nodes and elements it names. *)
Lemma closing_inv_frame m m' last cur fx xs news :
  closing_inv m last cur fx xs -> LifoInbox.holds this (inbox_ m') (news ++ xs) ->
  NoDup news -> (forall p, p ∈ news -> p ∉ cur ++ fx ++ xs /\ is_Some (elems m' !! p)) ->
  dummies m' = dummies m ->
  (forall r, r ∈ cur -> nodes m' !! r = nodes m !! r) ->
  (forall r, r ∈ cur ++ fx ++ xs -> elems m' !! r = elems m !! r) ->
  closing_inv m' last cur fx (news ++ xs).
Proof.
  intros [C1 C2 C3 C4 C5 C6] Hi Hnd Hn Hd Hno He. split; try done.
  - by eapply links_frame.
  - apply (NoDup_Permutation_proper _ (news ++ cur ++ fx ++ xs)); [solve_Permutation|].
    apply NoDup_app. split; [done|]. split; [|done]. intros p Hp. by apply Hn.
  - intros p. rewrite !elem_of_app. intros [H|[H|H]]; [|by apply Hn|];
      (rewrite He; [apply C5|]; rewrite !elem_of_app; auto).
  - intros p Hp. rewrite Hd, He; [by apply C6|]. rewrite !elem_of_app. auto.
Qed.

Lemma arrival_open m last cur fx xs p x :
  closing_inv m last cur fx xs -> unused m p -> closed m = false ->
  exists r m', push_back p (allocate p x m) = Some (r, m') /\ (forall l, accept r x l = l ++ [x]) /\
    closing_inv m' last cur fx (p :: xs) /\ grown m m' (cur ++ fx ++ xs) [p] [x].
Proof.
  intros Hci Hu Hc. pose proof (closing_unused _ _ _ _ _ _ Hci Hu) as Hfresh.
  unfold closed, LifoInbox.closed, LifoInbox.stack_closed_tag in Hc. apply Z.eqb_neq in Hc.
  destruct Hu as (Hv & He & Hdum).
  assert (p ∉ xs) as Hx by (rewrite !not_elem_of_app in Hfresh; tauto).
  destruct (LifoInbox.push_iter_success this p (inbox_ (allocate p x m)) xs) as (s' & E & Hh & Hs & Hn);
    [apply (ci_inbox _ _ _ _ _ Hci)|done|done|done|].
  unfold push_back, LifoInbox.push_front. cbn [LifoInbox.push_loop]. rewrite E. cbn [mbind option_bind].
  eexists _, _. split; [done|].
  assert (forall m0 : mailbox, match (if LifoInbox.stack_ (inbox_ (allocate p x m)) =? LifoInbox.reader_blocked_tag this
    then unblocked_reader else success) with queue_closed => m0 | _ => set_inbox (allocate p x m) s' end
    = set_inbox (allocate p x m) s') as Hm by (intros; by destruct (_ =? _)).
  rewrite Hm. clear Hm. split; [by destruct (_ =? _)|].
  assert (forall r, r ∈ cur ++ fx ++ xs -> r <> p) as Hne by (intros r Hr ->; done).
  split.
  - apply (closing_inv_frame m _ last cur fx xs [p]); [done|by destruct s'|by apply NoDup_singleton| |done|..].
    + intros q ->%list_elem_of_singleton. split; [done|]. simpl. rewrite lookup_insert_eq. eauto.
    + intros r Hr. simpl. apply Hn. apply Hne. rewrite elem_of_app. auto.
    + intros r Hr. simpl. rewrite lookup_insert_ne; [done|]. intros E'. by apply (Hne r).
  - split; simpl; try done.
    + unfold closed, LifoInbox.closed, LifoInbox.stack_closed_tag. simpl. rewrite Hs.
      destruct Hv as (_ & V2 & _). rewrite !(proj2 (Z.eqb_neq _ _)) by done. done.
    + intros r Hr. by apply Hn, Hne.
    + intros r Hr. rewrite lookup_insert_ne; [done|]. intros E'. by apply (Hne r).
    + unfold contents. cbn. by rewrite lookup_insert_eq.
    + intros q. rewrite lookup_insert. case_decide as Hq; [|by right]. subst. left. apply list_elem_of_here.
Qed.

Lemma arrival_closed m last cur fx xs p x :
  closing_inv m last cur fx xs -> unused m p -> closed m = true ->
  exists m', push_back p (allocate p x m) = Some (queue_closed, m') /\
    closing_inv m' last cur fx xs /\ grown m m' (cur ++ fx ++ xs) [] [].
Proof.
  intros Hci Hu Hc. pose proof (closing_unused _ _ _ _ _ _ Hci Hu) as Hfresh.
  pose proof Hc as Hc0. apply Z.eqb_eq in Hc.
  unfold push_back, LifoInbox.push_front. cbn [LifoInbox.push_loop].
  unfold LifoInbox.push_iter. cbn [inbox_ allocate set_elems LifoInbox.stack_ stack_] in *.
  destruct Hu as (_ & Hnone & _). rewrite Hc, Z.eqb_refl. cbn [mbind option_bind].
  eexists. split; [done|].
  assert (forall r, r ∈ cur ++ fx ++ xs -> r <> p) as Hne by (intros r Hr ->; done).
  assert (forall r, r ∈ cur ++ fx ++ xs -> delete p (nodes m) !! r = nodes m !! r) as Hn.
  { intros r Hr. rewrite lookup_delete_ne; [done|]. intros E. by apply (Hne r). }
  split.
  - apply (closing_inv_frame m _ last cur fx xs []); try done; simpl.
    + rewrite <- Hc. apply (LifoInbox.holds_frame this (inbox_ m)); [apply (ci_inbox _ _ _ _ _ Hci)|].
      intros r Hr. apply Hn. rewrite !elem_of_app. auto.
    + constructor.
    + intros q Hq. by apply elem_of_nil in Hq.
    + intros r Hr. apply Hn. rewrite elem_of_app. auto.
    + intros r Hr. by rewrite delete_insert_eq, delete_id.
  - split; simpl; try done.
    + unfold closed, LifoInbox.closed. simpl. by rewrite Hc.
    + intros r Hr. by rewrite delete_insert_eq, delete_id.
    + rewrite delete_insert_eq, delete_id by done. auto.
Qed.

Section ClosingSpec.

Context (alloc : mailbox -> ptr) (arrive : Z -> list bounced -> list mailbox_element).
Context (Hfresh : forall n bs x m, x ∈ arrive n bs -> unused m (alloc m)).

Lemma enqueue_all_spec ys a last cur fx xs :
  (forall m, ys <> [] -> unused m (alloc m)) -> closing_inv (cl_box a) last cur fx xs ->
  exists a' news late, enqueue_all alloc ys a = Some a' /\
    closing_inv (cl_box a') last cur fx (news ++ xs) /\
    grown (cl_box a) (cl_box a') (cur ++ fx ++ xs) news late /\
    cl_count a' = cl_count a /\ cl_sent a' = cl_sent a /\ cl_late a' = cl_late a ++ late /\
    (closed (cl_box a) = true -> news = []).
Proof.
  intros Hf. revert a xs. induction ys as [|y ys IH]; intros a xs Hci.
  { exists a, [], []. rewrite app_nil_r. split_and!; try done. apply grown_refl. }
  assert (forall m, unused m (alloc m)) as Hu by (intros; by apply Hf).
  cbn [enqueue_all]. destruct (closed (cl_box a)) eqn:Ec.
  - destruct (arrival_closed _ _ _ _ _ _ y Hci (Hu _) Ec) as (m' & E & Hci' & Hg).
    rewrite E. cbn [mbind option_bind accept].
    destruct (IH ltac:(auto) (mk_closing m' (cl_count a) (cl_sent a) (cl_late a)) xs Hci')
      as (a' & news & late & Ea & Hi & Hg' & ? & ? & ? & Hcl).
    exists a', news, late. simpl in *. split_and!; try done.
    + rewrite <- (app_nil_r news). by apply (grown_trans _ m' _ _ [] _ [] _).
    + intros _. apply Hcl. by rewrite (gr_closed _ _ _ _ _ Hg).
  - destruct (arrival_open _ _ _ _ _ _ y Hci (Hu _) Ec) as (r & m' & E & Hacc & Hci' & Hg).
    rewrite E. cbn [mbind option_bind]. rewrite Hacc.
    destruct (IH ltac:(auto) (mk_closing m' (cl_count a) (cl_sent a) (cl_late a ++ [y])) _ Hci')
      as (a' & news & late & Ea & Hi & Hg' & ? & ? & Hl & Hcl).
    exists a', (news ++ [alloc (cl_box a)]), (y :: late). simpl in *. split_and!; try done.
    + by rewrite <- app_assoc.
    + apply (grown_trans _ m' _ _ [_] _ [_] _); [done|].
      destruct Hg' as [G1 G2 G3 G4 G5 G6 G7]. split; try done;
        intros q Hq; [apply G4|apply G5]; rewrite !elem_of_app in *; set_solver.
    + by rewrite Hl, <- app_assoc.
Qed.

(** One round: the element is answered, freed and counted. *)
Lemma bounce_and_count_spec a last p cur fx xs :
  closing_inv (cl_box a) last (p :: cur) fx xs ->
  exists a' x news late, bounce_and_count alloc arrive p a = Some a' /\
    elems (cl_box a) !! p = Some x /\
    closing_inv (cl_box a') last cur fx (news ++ xs) /\
    grown (cl_box a) (cl_box a') (cur ++ fx ++ xs) news late /\
    elems (cl_box a') !! p = None /\
    cl_count a' = cl_count a + 1 /\ cl_sent a' = cl_sent a ++ bounce x /\
    cl_late a' = cl_late a ++ late /\ (closed (cl_box a) = true -> news = []).
Proof.
  intros Hci. destruct (ci_elems _ _ _ _ _ Hci p) as [x Hx]; [apply list_elem_of_here|].
  unfold bounce_and_count. rewrite Hx. cbn [mbind option_bind].
  destruct (enqueue_all_spec (arrive (cl_count a) (bounce x))
    (mk_closing (cl_box a) (cl_count a) (cl_sent a ++ bounce x) (cl_late a)) last (p :: cur) fx xs)
    as (a' & news & late & E & [C1 C2 C3 C4 C5 C6] & [G1 G2 G3 G4 G5 G6 G7] & Hct & Hse & Hla & Hcl); [|done|].
  { intros m Hne. destruct (arrive _ _) as [|y ys] eqn:Ey; [done|].
    apply (Hfresh (cl_count a) (bounce x) y). rewrite Ey. apply list_elem_of_here. }
  rewrite E. cbn [mbind option_bind]. eexists _, x, news, late. split; [done|].
  simpl in C4. apply NoDup_cons in C4 as [Hp C4]. simpl in *.
  assert (forall r, r ∈ cur ++ fx ++ news ++ xs -> r <> p) as Hne by (intros r Hr ->; done).
  assert (forall {A} (h : gmap Z A) r, r ∈ cur ++ fx ++ news ++ xs -> delete p h !! r = h !! r) as Hd.
  { intros A h r Hr. rewrite lookup_delete_ne; [done|]. intros E'. by apply (Hne r). }
  split_and!; try done.
  - destruct C1 as [_ C1]. apply not_elem_of_cons in C2 as [_ C2]. split; simpl; try done.
    + eapply links_frame; [exact C1|]. intros r Hr. apply Hd. rewrite elem_of_app. auto.
    + apply (LifoInbox.holds_frame this (inbox_ (cl_box a'))); [done|].
      intros r Hr. apply Hd. rewrite !elem_of_app in *. tauto.
    + intros r Hr. rewrite Hd by (rewrite !elem_of_app in *; tauto). apply C5. by apply list_elem_of_further.
    + intros r Hr. rewrite Hd by (rewrite !elem_of_app; tauto). by apply C6.
  - assert (forall r, r ∈ cur ++ fx ++ xs -> r ∈ cur ++ fx ++ news ++ xs) as Hsub.
    { intros r. rewrite !elem_of_app. tauto. }
    split; simpl; try done.
    + intros r Hr. rewrite Hd by auto. apply G4. by apply list_elem_of_further.
    + intros r Hr. rewrite Hd by auto. apply G5. by apply list_elem_of_further.
    + rewrite <- G6. apply contents_ext. intros r Hr. apply Hd. rewrite !elem_of_app. auto.
    + intros q. rewrite lookup_delete. case_decide; [by intros []|apply G7].
  - simpl. apply lookup_delete_eq.
  - simpl. by rewrite Hct.
Qed.

(** A loop of [close]: every element of the chain is answered, freed and
    counted, in order; what arrives meanwhile goes to the inbox. *)
Lemma close_loop_spec fuel a last cur fx xs :
  closing_inv (cl_box a) last cur fx xs -> (length cur < fuel)%nat ->
  exists a' news late, close_loop alloc arrive fuel (default last (head cur)) last a = Some a' /\
    closing_inv (cl_box a') last [] fx (news ++ xs) /\
    grown (cl_box a) (cl_box a') (fx ++ xs) news late /\
    (forall p, p ∈ cur -> is_Some (elems (cl_box a') !! p) -> p ∈ news) /\
    cl_count a' = cl_count a + zlen cur /\
    cl_sent a' = cl_sent a ++ flat_map bounce (contents (elems (cl_box a)) cur) /\
    cl_late a' = cl_late a ++ late /\ (closed (cl_box a) = true -> news = []).
Proof.
  revert a xs fuel. induction cur as [|p cur IH]; intros a xs [|fuel] Hci Hlen;
    try (by apply Nat.nlt_0_r in Hlen).
  { exists a, [], []. simpl. rewrite Z.eqb_refl, !app_nil_r. split_and!; try done.
    - apply grown_refl.
    - unfold zlen. simpl. lia. }
  destruct (bounce_and_count_spec a last p cur fx xs Hci)
    as (a1 & x & n1 & l1 & E1 & Hx & Hci1 & Hg1 & Hp1 & Hct1 & Hs1 & Hl1 & Hc1).
  destruct (IH a1 (n1 ++ xs) fuel Hci1) as (a2 & n2 & l2 & E2 & Hci2 & Hg2 & Hp2 & Hct2 & Hs2 & Hl2 & Hc2);
    [by apply Nat.succ_lt_mono|].
  pose proof (ci_links _ _ _ _ _ Hci) as [Hn _].
  pose proof (ci_last _ _ _ _ _ Hci) as Hla. apply not_elem_of_cons in Hla as [Hla _].
  exists a2, (n2 ++ n1), (l1 ++ l2). split.
  { cbn [close_loop]. change (default last (head (p :: cur))) with p.
    rewrite (proj2 (Z.eqb_neq p last)) by auto. rewrite Hn. cbn [mbind option_bind].
    rewrite E1. cbn [mbind option_bind]. exact E2. }
  assert (grown (cl_box a) (cl_box a2) (fx ++ xs) (n2 ++ n1) (l1 ++ l2)) as Hg.
  { apply (grown_trans _ (cl_box a1)).
    - destruct Hg1 as [G1 G2 G3 G4 G5 G6 G7]. split; try done;
        intros r Hr; [apply G4|apply G5]; rewrite !elem_of_app in *; tauto.
    - destruct Hg2 as [G1 G2 G3 G4 G5 G6 G7]. split; try done;
        intros r Hr; [apply G4|apply G5]; rewrite !elem_of_app in *; tauto. }
  split_and!; try done.
  - by rewrite <- app_assoc.
  - intros q Hq HS. rewrite elem_of_app. destruct (decide (q ∈ cur)) as [Hqc|Hqc]; [left; by apply Hp2|].
    apply elem_of_cons in Hq as [->|]; [|done].
    destruct (gr_dom _ _ _ _ _ Hg2 _ HS) as [|[? ?]]; [by left|congruence].
  - rewrite Hct2, Hct1, zlen_cons. lia.
  - rewrite Hs2, Hs1, <- app_assoc. do 2 f_equal. unfold contents. cbn [omap list_omap]. rewrite Hx.
    cbn [flat_map]. f_equal. f_equal. apply contents_ext. intros r Hr.
    apply (gr_elems _ _ _ _ _ Hg1). rewrite elem_of_app. auto.
  - by rewrite Hl2, Hl1, <- app_assoc.
  - intros Hc. rewrite (Hc1 Hc), app_nil_r. apply Hc2. rewrite (gr_closed _ _ _ _ _ Hg1). done.
Qed.

(** What a phase of [close] over the elements [cur] achieves: [others] are the
    elements of the mailbox it leaves alone. *)
Record phase (a a' : closing) (cur others news : list ptr) (late : list mailbox_element) : Prop := {
  ph_count : cl_count a' = cl_count a + zlen cur;
  ph_sent : cl_sent a' = cl_sent a ++ flat_map bounce (contents (elems (cl_box a)) cur);
  ph_late : cl_late a' = cl_late a ++ late;
  ph_news : contents (elems (cl_box a')) news = reverse late;
  ph_others : forall p, p ∈ others -> elems (cl_box a') !! p = elems (cl_box a) !! p;
  ph_dom : forall p, is_Some (elems (cl_box a') !! p) ->
    p ∈ news \/ (is_Some (elems (cl_box a) !! p) /\ p ∉ cur);
}.

Lemma loop_phase a a' cur others fx xs news late :
  grown (cl_box a) (cl_box a') (fx ++ xs) news late ->
  (forall p, p ∈ cur -> is_Some (elems (cl_box a') !! p) -> p ∈ news) ->
  cl_count a' = cl_count a + zlen cur ->
  cl_sent a' = cl_sent a ++ flat_map bounce (contents (elems (cl_box a)) cur) ->
  cl_late a' = cl_late a ++ late -> (forall p, p ∈ others -> p ∈ fx ++ xs) ->
  phase a a' cur others news late.
Proof.
  intros [G1 G2 G3 G4 G5 G6 G7] Hc H1 H2 H3 Ho. split; try done.
  - intros p Hp. apply G5. by apply Ho.
  - intros p Hp. destruct (decide (p ∈ cur)); [left; by apply Hc|]. destruct (G7 p Hp); auto.
Qed.

Lemma urgent_frame (es es' : gmap Z mailbox_element) b ps :
  (forall p, p ∈ ps -> es' !! p = es !! p) ->
  Forall (fun p => urgent es p = b) ps -> Forall (fun p => urgent es' p = b) ps.
Proof.
  intros He. rewrite !Forall_forall. intros H p Hp. unfold urgent. rewrite He by done. by apply H.
Qed.

Lemma drain_urgent_spec a us ns xs :
  stores (cl_box a) us ns xs -> closed (cl_box a) = false ->
  exists a' news late, drain_queue alloc arrive urgent_queue_ set_urgent a = Some a' /\
    stores (cl_box a') [] ns (news ++ xs) /\ closed (cl_box a') = false /\
    phase a a' us (ns ++ xs) news late.
Proof.
  intros [S1 S2 S3 S4 S5 S6 S7] Hc. unfold drain_queue.
  pose proof (rep_nonnull _ _ _ S1) as Hnn. pose proof (rep_nodup _ _ _ S1) as Hnu.
  pose proof (represents_links _ _ _ S1) as (Hh & Hl & Ht & Hhx & Hne & Hnd & Hf).
  rewrite Hh. cbn [mbind option_bind].
  set (fx := [head_ (urgent_queue_ (cl_box a)); tail_ (urgent_queue_ (cl_box a))]
    ++ footprint (normal_queue_ (cl_box a)) ns).
  destruct (close_loop_spec (S (base.size (nodes (cl_box a)))) a (tail_ (urgent_queue_ (cl_box a))) us fx xs)
    as (a' & news & late & E & Hi & Hg & Hp & H1 & H2 & H3 & _); [|done|].
  { split; try done.
    - unfold fx, footprint in *. eapply NoDup_Permutation_proper; [|exact S4]. solve_Permutation.
    - intros p. rewrite elem_of_app. intros [?|?]; apply S5; rewrite !elem_of_app; auto.
    - intros p. unfold fx, footprint, dummies. rewrite !elem_of_app, !elem_of_cons.
      intros H. rewrite elem_of_nil in H.
      assert (p ∈ ns -> is_Some (elems (cl_box a) !! p)) by (intros ?; apply S5; rewrite !elem_of_app; auto).
      tauto. }
  rewrite E. cbn [mbind option_bind]. eexists _, news, late. split; [done|].
  destruct Hi as [_ _ C3 C4 C5 C6]. pose proof Hg as [G1 G2 G3 G4 G5 G6 G7].
  rewrite app_nil_l in C4. unfold set_box. cbn [cl_box]. rewrite G2.
  assert (forall r, r ∈ footprint (normal_queue_ (cl_box a)) ns ++ news ++ xs ->
    (init (urgent_queue_ (cl_box a)) (nodes (cl_box a'))).2 !! r = nodes (cl_box a') !! r) as Hin.
  { intros r Hr. simpl. unfold fx in C4. rewrite <- app_assoc, NoDup_app in C4. destruct C4 as (_ & D & _).
    rewrite !lookup_insert_ne; [done|..]; intros <-; (eapply D; [|exact Hr]);
      rewrite !elem_of_cons; auto. }
  split_and!.
  - split; cbn [set_urgent nodes urgent_queue_ normal_queue_ elems stack_ fst snd]; rewrite ?G3.
    + apply init_represents; [done|unfold footprint in Hnn; clear -Hnn; set_solver..].
    + eapply represents_frame; [exact S2|]. intros r Hr. rewrite Hin by (rewrite elem_of_app; auto).
      apply G4. unfold fx. rewrite !elem_of_app. auto.
    + apply (LifoInbox.holds_frame this (inbox_ (cl_box a'))); [done|]. intros r Hr. apply Hin.
      rewrite elem_of_app. auto.
    + simpl. unfold fx in C4. eapply NoDup_Permutation_proper; [|exact C4]. simpl. solve_Permutation.
    + intros p. simpl. rewrite elem_of_app. intros [Hpn|Hpx]; [|by apply C5].
      rewrite G5; [apply S5|]; unfold fx, footprint; rewrite ?elem_of_app, ?elem_of_cons; auto.
    + constructor.
    + eapply urgent_frame; [|exact S7]. intros p Hpn. apply G5. unfold fx, footprint.
      rewrite !elem_of_app, !elem_of_cons. auto.
  - done || (unfold closed in *; simpl in *; by rewrite <- Hc, <- G1).
  - assert (phase a a' us (ns ++ xs) news late) as [] by (eapply loop_phase; try done;
      intros p; unfold fx, footprint; rewrite !elem_of_app, !elem_of_cons; tauto).
    by split.
Qed.

Lemma drain_normal_spec a ns xs :
  stores (cl_box a) [] ns xs -> closed (cl_box a) = false ->
  exists a' news late, drain_queue alloc arrive normal_queue_ set_normal a = Some a' /\
    stores (cl_box a') [] [] (news ++ xs) /\ closed (cl_box a') = false /\
    phase a a' ns xs news late.
Proof.
  intros [S1 S2 S3 S4 S5 S6 S7] Hc. unfold drain_queue.
  pose proof (rep_nonnull _ _ _ S2) as Hnn. pose proof (rep_nodup _ _ _ S2) as Hnu.
  pose proof (represents_links _ _ _ S2) as (Hh & Hl & Ht & Hhx & Hne & Hnd & Hf).
  rewrite Hh. cbn [mbind option_bind].
  set (fx := footprint (urgent_queue_ (cl_box a)) []
    ++ [head_ (normal_queue_ (cl_box a)); tail_ (normal_queue_ (cl_box a))]).
  destruct (close_loop_spec (S (base.size (nodes (cl_box a)))) a (tail_ (normal_queue_ (cl_box a))) ns fx xs)
    as (a' & news & late & E & Hi & Hg & Hp & H1 & H2 & H3 & _); [|done|].
  { split; try done.
    - unfold fx, footprint in *. eapply NoDup_Permutation_proper; [|exact S4]. simpl. solve_Permutation.
    - intros p. unfold fx, footprint, dummies. rewrite !elem_of_app, !elem_of_cons.
      intros H. rewrite elem_of_nil in H |- *. tauto. }
  rewrite E. cbn [mbind option_bind]. eexists _, news, late. split; [done|].
  destruct Hi as [_ _ C3 C4 C5 C6]. pose proof Hg as [G1 G2 G3 G4 G5 G6 G7].
  rewrite app_nil_l in C4. unfold set_box. cbn [cl_box]. rewrite G3.
  assert (forall r, r ∈ footprint (urgent_queue_ (cl_box a)) [] ++ news ++ xs ->
    (init (normal_queue_ (cl_box a)) (nodes (cl_box a'))).2 !! r = nodes (cl_box a') !! r) as Hin.
  { intros r Hr. simpl. unfold fx in C4. rewrite <- app_assoc, NoDup_app in C4. destruct C4 as (_ & D & C4).
    rewrite NoDup_app in C4. destruct C4 as (_ & D2 & _).
    rewrite !lookup_insert_ne; [done|..]; intros <-; rewrite elem_of_app in Hr;
      (destruct Hr as [Hr|Hr];
        [apply (D _ Hr); rewrite elem_of_app, !elem_of_cons; auto
        |eapply D2; [|exact Hr]; rewrite !elem_of_cons; auto]). }
  split_and!.
  - split; cbn [set_normal nodes urgent_queue_ normal_queue_ elems stack_ fst snd]; rewrite ?G2.
    + eapply represents_frame; [exact S1|]. intros r Hr. rewrite Hin by (rewrite elem_of_app; auto).
      apply G4. unfold fx. rewrite !elem_of_app. auto.
    + apply init_represents; [done|unfold footprint in Hnn; clear -Hnn; set_solver..].
    + apply (LifoInbox.holds_frame this (inbox_ (cl_box a'))); [done|]. intros r Hr. apply Hin.
      rewrite elem_of_app. auto.
    + simpl. unfold fx in C4. eapply NoDup_Permutation_proper; [|exact C4]. simpl. solve_Permutation.
    + intros p. simpl. apply C5.
    + constructor.
    + constructor.
  - done || (unfold closed in *; simpl in *; by rewrite <- Hc, <- G1).
  - assert (phase a a' ns (xs) news late) as [] by (eapply loop_phase; try done;
      intros p; unfold fx, footprint; rewrite !elem_of_app, !elem_of_cons; tauto).
    by split.
Qed.

(** The exchange of [close_inbox] detaches the chain; the loop then works on it
    while the inbox is closed. *)
Lemma close_inbox_spec a xs :
  stores (cl_box a) [] [] xs -> closed (cl_box a) = false ->
  exists a', close_inbox alloc arrive a = Some a' /\
    stores (cl_box a') [] [] [] /\ closed (cl_box a') = true /\ phase a a' xs [] [] [].
Proof.
  intros [S1 S2 S3 S4 S5 S6 S7] Hc. unfold close_inbox.
  assert (stack_ (cl_box a) <> LifoInbox.stack_closed_tag this) as Hs by (by apply Z.eqb_neq).
  assert (LifoInbox.take_head_to this (LifoInbox.stack_closed_tag this) (inbox_ (cl_box a))
    = Some (default nullptr (head xs), LifoInbox.mk_state (LifoInbox.stack_closed_tag this) (nodes (cl_box a)))) as ->.
  { unfold LifoInbox.take_head_to, LifoInbox.take_iter. cbn [inbox_ LifoInbox.stack_ LifoInbox.nodes].
    rewrite (proj2 (Z.eqb_neq _ _) Hs), Z.eqb_refl. cbn [andb negb]. do 2 f_equal.
    unfold LifoInbox.is_empty_or_blocked_tag. destruct S3 as [H1 _ _ H4]. destruct xs as [|x xs]; simpl in H1.
    - destruct H1 as [H|[H|H]]; [by rewrite H|done|]. rewrite H. by rewrite Z.eqb_refl, orb_true_r.
    - apply Forall_cons in H4 as [(V1 & V2 & V3) _]. rewrite H1.
      unfold LifoInbox.stack_empty_tag.
      by rewrite (proj2 (Z.eqb_neq x nullptr) V1), (proj2 (Z.eqb_neq _ _) V3). }
  cbn [mbind option_bind LifoInbox.nodes].
  set (fx := footprint (urgent_queue_ (cl_box a)) [] ++ footprint (normal_queue_ (cl_box a)) []).
  set (a0 := set_box a _).
  destruct (close_loop_spec (S (base.size (nodes (cl_box a)))) a0 nullptr xs fx [])
    as (a' & news & late & E & Hi & Hg & Hp & H1 & H2 & H3 & Hcl).
  { destruct S3 as [_ L2 L3 L4]. split; cbn [a0 set_box cl_box set_inbox inbox_ nodes elems stack_]; simpl; try done.
    - intros Hn. rewrite Forall_forall in L4. by destruct (L4 _ Hn).
    - split; simpl; try done; [right; by left|constructor].
    - eapply NoDup_Permutation_proper; [|exact S4]. unfold fx; simpl. rewrite ?app_nil_r. solve_Permutation.
    - intros p. rewrite app_nil_r. apply S5.
    - intros p. unfold fx, footprint, dummies. simpl. rewrite !elem_of_cons. tauto. }
  { apply Nat.lt_succ_r. eapply links_size; [|apply (LifoInbox.holds_links _ _ _ S3)].
    apply (LifoInbox.holds_nodup _ _ _ S3). }
  assert (closed (cl_box a0) = true) as Hc0 by (unfold closed, LifoInbox.closed; simpl; apply Z.eqb_refl).
  rewrite (Hcl Hc0) in *. assert (late = []) as ->.
  { pose proof (gr_late _ _ _ _ _ Hg) as G. unfold contents in G. simpl in G.
    apply (f_equal reverse) in G. by rewrite reverse_involutive in G. }
  exists a'. split; [exact E|]. destruct Hi as [_ _ C3 C4 C5 C6]. pose proof Hg as [G1 G2 G3 G4 G5 G6 G7].
  split_and!.
  - split; rewrite ?G2, ?G3; simpl; try done.
    + eapply represents_frame; [exact S1|]. intros r Hr. rewrite G4; [done|]. unfold fx. rewrite !elem_of_app. auto.
    + eapply represents_frame; [exact S2|]. intros r Hr. rewrite G4; [done|]. unfold fx. rewrite !elem_of_app. auto.
  - by rewrite G1.
  - assert (phase a0 a' xs [] [] []) as [] by (eapply loop_phase; try done; by intros ? ?%elem_of_nil). by split.
Qed.

(** [close] on any open mailbox: the elements of the urgent queue, the normal
    queue, and of the inbox (newest first, with what arrived while the queues
    were drained) are answered and freed. *)
Lemma close_general m us ns xs :
  stores m us ns xs -> closed m = false ->
  exists a, close alloc arrive m = Some a /\
    stores (cl_box a) [] [] [] /\ closed (cl_box a) = true /\
    (forall p, is_Some (elems (cl_box a) !! p) -> is_Some (elems m !! p) /\ p ∉ us ++ ns ++ xs) /\
    let rest := contents (elems m) us ++ contents (elems m) ns
      ++ reverse (cl_late a) ++ contents (elems m) xs in
    cl_count a = zlen rest /\ cl_sent a = flat_map bounce rest.
Proof.
  intros Hst Hc. unfold close.
  destruct (drain_urgent_spec (mk_closing m 0 [] []) us ns xs Hst Hc)
    as (a1 & n1 & l1 & E1 & Hst1 & Hc1 & [P1 P2 P3 P4 P5 P6]).
  destruct (drain_normal_spec a1 ns _ Hst1 Hc1) as (a2 & n2 & l2 & E2 & Hst2 & Hc2 & [Q1 Q2 Q3 Q4 Q5 Q6]).
  destruct (close_inbox_spec a2 _ Hst2 Hc2) as (a3 & E3 & Hst3 & Hc3 & [R1 R2 R3 R4 R5 R6]).
  exists a3. rewrite E1. cbn [mbind option_bind]. rewrite E2. cbn [mbind option_bind].
  cbn [cl_box cl_count cl_sent cl_late] in *.
  assert (contents (elems (cl_box a1)) ns = contents (elems m) ns) as K1.
  { apply contents_ext. intros p Hp. apply P5. rewrite elem_of_app. auto. }
  assert (contents (elems (cl_box a2)) (n2 ++ n1 ++ xs)
    = reverse (cl_late a3) ++ contents (elems m) xs) as K2.
  { rewrite R3, Q3, P3, app_nil_r, app_nil_l, reverse_app, !contents_app, Q4, <- P4, <- app_assoc.
    do 2 f_equal; apply contents_ext; intros p Hp.
    - apply Q5. rewrite elem_of_app. auto.
    - rewrite Q5, P5; [done|..]; rewrite elem_of_app; auto. }
  split_and!; try done.
  - intros p Hp. destruct (R6 p Hp) as [?%elem_of_nil|[Hp2 N2]]; [done|].
    rewrite !not_elem_of_app in N2. destruct (Q6 p Hp2) as [?|[Hp1 N1]]; [tauto|].
    destruct (P6 p Hp1) as [?|[Hp0 N0]]; [tauto|]. split; [done|]. rewrite !not_elem_of_app. tauto.
  - rewrite R1, Q1, P1, <- K2, <- K1, !(zlen_app (contents _ _)), !contents_length; [lia|..].
    + apply (st_elems _ _ _ _ Hst2).
    + intros p Hp. apply (st_elems _ _ _ _ Hst1). rewrite !elem_of_app. auto.
    + intros p Hp. apply (st_elems _ _ _ _ Hst). rewrite !elem_of_app. auto.
  - rewrite R2, Q2, P2, K2, K1, !flat_map_app. by rewrite <- !app_assoc.
Qed.

End ClosingSpec.

(** Nothing is accepted when nothing arrives. *)
Lemma close_loop_late alloc fuel i last a a' :
  close_loop alloc (fun _ _ => []) fuel i last a = Some a' -> cl_late a' = cl_late a.
Proof.
  revert i a. induction fuel as [|fuel IH]; intros i a; [done|]. cbn [close_loop].
  destruct (i =? last); [by intros [= <-]|]. destruct (nodes (cl_box a) !! i); [|done].
  unfold bounce_and_count. cbn [mbind option_bind enqueue_all].
  destruct (elems (cl_box a) !! i); [|done]. cbn [mbind option_bind]. intros H. by apply IH in H.
Qed.

Lemma close_undisturbed_late alloc m a : close alloc (fun _ _ => []) m = Some a -> cl_late a = [].
Proof.
  assert (forall q s b b', drain_queue alloc (fun _ _ => []) q s b = Some b' -> cl_late b' = cl_late b) as Hd.
  { intros q s b b'. unfold drain_queue. destruct (nodes (cl_box b) !! _); [|done]. cbn [mbind option_bind].
    destruct (close_loop _ _ _ _ _ _) as [b1|] eqn:E; [|done]. intros [= <-]. by apply close_loop_late in E. }
  unfold close. destruct (drain_queue _ _ _ _ _) as [a1|] eqn:E1; [|done]. cbn [mbind option_bind].
  destruct (drain_queue _ _ normal_queue_ _ _) as [a2|] eqn:E2; [|done]. cbn [mbind option_bind].
  unfold close_inbox. destruct (LifoInbox.take_head_to _ _ _) as [[p s]|]; [|done]. cbn [mbind option_bind].
  intros E3. apply Hd in E1, E2. apply close_loop_late in E3. simpl in *. congruence.
Qed.

Lemma close_spec m us ns xs :
  stores m us ns xs -> stack_ m <> this + 1 ->
  exists m', close_undisturbed m = Some (zlen (us ++ ns ++ xs), flat_map bounce (contents (elems m) (us ++ ns ++ xs)), m') /\
    stores m' [] [] [] /\ stack_ m' = this + 1.
Proof.
  intros Hst Hs. unfold close_undisturbed.
  destruct (close_general (fun _ => nullptr) (fun _ _ => []) ltac:(by intros ? ? ? ? ?%elem_of_nil) m us ns xs Hst)
    as (a & E & Hst' & Hc & _ & Hn & Hb); [by apply Z.eqb_neq|].
  rewrite E. cbn [mbind option_bind]. exists (cl_box a). split; [|split; [done|by apply Z.eqb_eq in Hc]].
  assert (cl_late a = []) as Hl by (by apply (close_undisturbed_late (fun _ => nullptr) m)).
  rewrite Hn, Hb, Hl, reverse_nil, app_nil_l, <- !contents_app, contents_length; [done|].
  apply (st_elems _ _ _ _ Hst).
Qed.

Lemma tracks_accounts r us ns xs :
  tracks r us ns xs ->
  accepted r ≡ₚ delivered r ++ contents (elems (box r)) (us ++ ns ++ xs).
Proof.
  intros [Hst Ho Hf Hown].
  assert (forall l, of_prio true l ++ of_prio false l ≡ₚ l) as Hsplit.
  { induction l as [|x l IH]; [done|]. unfold of_prio in *. rewrite !filter_cons.
    destruct (MessageId.is_urgent_message (mid x)); repeat case_decide; try done; simpl.
    - by rewrite IH.
    - by rewrite <- Permutation_middle, IH. }
  pose proof (Hsplit (accepted r)) as Ha. rewrite !Hf in Ha.
  pose proof (Hsplit (delivered r)) as Hd. transitivity (of_prio true (delivered r) ++ of_prio false (delivered r)
    ++ contents (elems (box r)) (us ++ ns ++ xs)); [|by rewrite app_assoc, Hd].
  rewrite <- Ha.
  assert (contents (elems (box r)) (us ++ ns ++ xs) ≡ₚ contents (elems (box r))
    (pending true (elems (box r)) us ns xs ++ pending false (elems (box r)) us ns xs)) as ->.
  { apply omap_Permutation. symmetry. apply pending_perm. }
  rewrite contents_app. clear. solve_Permutation.
Qed.

(** The bouncer answers exactly the requests that have a sender. *)
Lemma bounce_requests xs :
  flat_map bounce xs = map (fun x => mk_bounced (sender x) (MessageId.response_id (mid x)))
    (filter (fun x => sender x <> 0 /\ MessageId.is_request (mid x) = true) xs).
Proof.
  induction xs as [|x xs IH]; [done|]. cbn [flat_map]. rewrite IH, filter_cons. unfold bounce.
  destruct (Z.eqb_spec (sender x) 0), (MessageId.is_request (mid x)) eqn:Er; simpl;
    repeat case_decide; naive_solver.
Qed.

(** [push_front] returns an element to the front of its lane. *)
Lemma push_front_spec m us ns xs p x :
  stores m us ns xs -> elems m !! p = Some x -> p <> nullptr ->
  p ∉ footprint (urgent_queue_ m) us ++ footprint (normal_queue_ m) ns ++ xs ->
  exists m', push_front p m = Some m' /\
    stores m' (if MessageId.is_urgent_message (mid x) then p :: us else us)
      (if MessageId.is_urgent_message (mid x) then ns else p :: ns) xs /\ same_shape m m'.
Proof.
  intros [S1 S2 S3 S4 S5 S6 S7] Hx Hn. rewrite !not_elem_of_app. intros (Fu & Fn & Fx).
  pose proof S4 as Hd. rewrite !NoDup_app in Hd. destruct Hd as (Na & Hab & Nb & Hb & Nx).
  assert (forall l h' ps, only_changes (nodes m) h' ([p] ++ footprint l ps) ->
    forall r, r <> p -> r ∉ footprint l ps -> h' !! r = nodes m !! r) as Hch.
  { intros l h' ps C r Hr Hf. apply C. simpl. by apply not_elem_of_cons. }
  unfold push_front. rewrite Hx. cbn [mbind option_bind].
  destruct (MessageId.is_urgent_message (mid x)) eqn:Ep.
  - destruct (push_front_implements _ _ _ p S1 Fu Hn) as (l & h & E & R & Eh & Et & C).
    rewrite E. cbn [mbind option_bind]. eexists. split; [done|]. split; [|done].
    split; simpl; try done.
    + eapply represents_frame; [exact S2|]. intros r Hr. apply (Hch _ _ _ C); [by intros ->|].
      intros Hin. apply (Hab _ Hin). rewrite elem_of_app. auto.
    + apply (LifoInbox.holds_frame this (inbox_ m)); [done|]. intros r Hr.
      apply (Hch _ _ _ C); [by intros ->|]. intros Hin. apply (Hab _ Hin). rewrite elem_of_app. auto.
    + unfold footprint in *. rewrite Eh, Et. apply (NoDup_Permutation_proper _ (p :: (head_ (urgent_queue_ m) :: tail_ (urgent_queue_ m) :: us) ++ (head_ (normal_queue_ m) :: tail_ (normal_queue_ m) :: ns) ++ xs)).
      * solve_Permutation.
      * apply NoDup_cons. split; [|done]. by rewrite !not_elem_of_app.
    + intros q Hq. apply elem_of_cons in Hq as [->|Hq]; [by rewrite Hx|]. by apply S5.
    + constructor; [|done]. by rewrite (urgent_lookup _ _ _ Hx).
  - destruct (push_front_implements _ _ _ p S2 Fn Hn) as (l & h & E & R & Eh & Et & C).
    rewrite E. cbn [mbind option_bind]. eexists. split; [done|]. split; [|done].
    split; simpl; try done.
    + eapply represents_frame; [exact S1|]. intros r Hr. apply (Hch _ _ _ C); [by intros ->|].
      intros Hin. apply (Hab _ Hr). rewrite elem_of_app. auto.
    + apply (LifoInbox.holds_frame this (inbox_ m)); [done|]. intros r Hr.
      apply (Hch _ _ _ C); [by intros ->|]. intros Hin. by apply (Hb _ Hin).
    + unfold footprint in *. rewrite Eh, Et. apply (NoDup_Permutation_proper _ (p :: (head_ (urgent_queue_ m) :: tail_ (urgent_queue_ m) :: us) ++ (head_ (normal_queue_ m) :: tail_ (normal_queue_ m) :: ns) ++ xs)).
      * solve_Permutation.
      * apply NoDup_cons. split; [|done]. by rewrite !not_elem_of_app.
    + intros q. rewrite elem_of_app, elem_of_cons, elem_of_app.
      intros [H|[->|[H|H]]]; [|by rewrite Hx|..];
        apply S5; rewrite !elem_of_app; auto.
    + constructor; [|done]. by rewrite (urgent_lookup _ _ _ Hx).
Qed.

Lemma abs_empty (us ns xs : list ptr) : us ++ ns ++ xs = [] -> us = [] /\ ns = [] /\ xs = [].
Proof. intros H. apply app_eq_nil in H as [-> H]. by apply app_eq_nil in H as [-> ->]. Qed.

(** ** Claims *)


(** C7. Closing accounts for every message.  [close] on a mailbox in use
    returns, whatever arrives at the mailbox while it answers (the responses to
    the owner's own requests, which are enqueued to the mailbox being closed,
    and elements of other threads).  It counts exactly the messages that were
    accepted, before or meanwhile, and not delivered; it sends one response,
    with the ID that answers the request, to the sender of each of them that is
    a request with a sender, and nothing for any other message; it frees every
    element and leaves the mailbox closed: later enqueues are rejected.  New
    elements are assumed to get addresses that are not in use. *)
Theorem mailbox_close_bounces uh ut nh nt r alloc arrive :
  this + 1 <> nullptr -> NoDup [nullptr; uh; ut; nh; nt] -> rtc step (initial uh ut nh nt) r ->
  (forall m, unused m (alloc m)) ->
  exists rest a, close alloc arrive (box r) = Some a /\
    accepted r ++ cl_late a ≡ₚ delivered r ++ rest /\ cl_count a = zlen rest /\
    cl_sent a = map (fun x => mk_bounced (sender x) (MessageId.response_id (mid x)))
      (filter (fun x => sender x <> 0 /\ MessageId.is_request (mid x) = true) rest) /\
    closed (cl_box a) = true /\ elems (cl_box a) = ∅ /\
    (forall p x, unused (cl_box a) p ->
       exists m, push_back p (allocate p x (cl_box a)) = Some (queue_closed, m) /\ elems m = ∅).
Proof.
  intros Ht Hnd Hr Hfresh. destruct (tracks_reachable _ _ _ _ _ Hnd Ht Hr) as (us & ns & xs & Htr).
  pose proof (tracks_accounts _ _ _ _ Htr) as Hacc. destruct Htr as [Hst Ho Hf Hown].
  destruct (close_general alloc arrive ltac:(intros; apply Hfresh) _ _ _ _ Hst)
    as (a & E & Hst' & Hc & He & Hn & Hb); [by apply Z.eqb_neq|].
  set (rest := contents _ us ++ _) in Hn, Hb. exists rest, a.
  assert (elems (cl_box a) = ∅) as Hempty.
  { apply map_eq. intros p. rewrite lookup_empty. apply eq_None_not_Some. intros HS.
    destruct (He p HS) as [HS' Hp]. by apply Hp, Hown. }
  split_and!; try done.
  - rewrite Hacc. unfold rest. rewrite !contents_app, (reverse_Permutation (cl_late a)). solve_Permutation.
  - by rewrite Hb, bounce_requests.
  - intros p x Hu. apply Z.eqb_eq in Hc.
    destruct (push_back_closed _ _ _ _ _ x Hst' Hu Hc) as (m'' & E'' & _ & _ & He'').
    exists m''. by rewrite He''.
Qed.

(** The owner's view.  While the reader is not blocked, [size] reports
    the number of accepted but undelivered messages, [peek] with an
    asynchronous ID returns null exactly when there are none, [peek] with a
    request or response ID returns an element that has this ID whenever it
    returns one, and [try_block] succeeds only on an empty mailbox. *)
Theorem mailbox_observers uh ut nh nt r :
  this + 1 <> nullptr -> NoDup [nullptr; uh; ut; nh; nt] -> rtc step (initial uh ut nh nt) r ->
  blocked (box r) = false ->
  (exists m', mailbox_size (box r) = Some (zlen (accepted r) - zlen (delivered r), m')) /\
  (forall id, exists p m', peek id (box r) = Some (p, m') /\
     (MessageId.is_async id = true -> p = nullptr <-> zlen (accepted r) = zlen (delivered r)) /\
     (MessageId.is_async id = false -> p <> nullptr ->
      exists x, elems m' !! p = Some x /\ MessageId.eqb (mid x) id = true)) /\
  ((try_block (box r)).1 = true -> zlen (accepted r) = zlen (delivered r) /\
     blocked (try_block (box r)).2 = true).
Proof.
  intros Ht Hnd Hr Hb. destruct (tracks_reachable _ _ _ _ _ Hnd Ht Hr) as (us & ns & xs & Htr).
  assert (zlen (accepted r) = zlen (delivered r) + zlen (us ++ ns ++ xs)) as Hlen.
  { pose proof (tracks_accounts _ _ _ _ Htr) as Ha. apply Permutation_length in Ha.
    pose proof (contents_length _ _ (st_elems _ _ _ _ (tr_stores _ _ _ _ Htr))) as Hc.
    unfold zlen in *. rewrite length_app in Ha. rewrite Ha, <- Hc, Nat2Z.inj_add. done. }
  destruct Htr as [Hst Ho Hf Hown]. split; [|split].
  - unfold mailbox_size. destruct (fetch_more_spec _ _ _ _ Hst Ho) as (m' & E & Hm & _).
    rewrite E. cbn [mbind option_bind]. exists m'. rewrite (cached_spec _ _ _ _ Hm), Hlen.
    pose proof (lanes_perm (elems (box r)) (reverse xs)) as HP.
    apply Permutation_length in HP. rewrite length_app, length_reverse in HP.
    unfold zlen. rewrite !length_app. do 2 f_equal. clear -HP. lia.
  - intros id. destruct (peek_spec id _ _ _ _ Hst Ho Hb) as (m' & us' & ns' & E & Hm & (He & _) & _).
    eexists _, m'. split; [exact E|]. rewrite He. unfold first_pending.
    destruct (List.find _ _) as [p|] eqn:Ef; simpl.
    + apply List.find_some in Ef as [Hin Hmt]. rewrite <- list_elem_of_In, pending_perm in Hin. split.
      * intros _. split; [intros ->; by apply (stores_not_null _ _ _ _ _ Hst) in Hin|].
        rewrite Hlen. destruct (us ++ ns ++ xs) eqn:El; [by apply elem_of_nil in Hin|].
        rewrite zlen_cons. pose proof (zlen_nonneg l). clear -H. lia.
      * intros Ha _. unfold matches in Hmt. rewrite Ha in Hmt. simpl in Hmt.
        destruct (elems (box r) !! p) as [x|] eqn:Ex; [|done]. eauto.
    + split; [|done]. intros Ha. split; [intros _|done]. rewrite Hlen.
      destruct (us ++ ns ++ xs) as [|p l] eqn:El; [unfold zlen; simpl; clear; lia|].
      exfalso. assert (p ∈ pending true (elems (box r)) us ns xs ++ pending false (elems (box r)) us ns xs) as Hin.
      { rewrite pending_perm, El. apply list_elem_of_here. }
      rewrite list_elem_of_In in Hin. pose proof (List.find_none _ _ Ef _ Hin) as Hm'.
      unfold matches in Hm'. by rewrite Ha in Hm'.
  - destruct (try_block_spec _ _ _ _ Hst Ho) as (m' & E & _ & _ & _ & Hbl). rewrite E. simpl.
    intros Hd. split; [|by apply Hbl]. apply bool_decide_eq_true in Hd as [Hd _].
    rewrite Hlen, Hd. unfold zlen. simpl. clear. lia.
Qed.

End Mailbox.

Arguments mailbox_element : clear implicits.
Arguments mailbox : clear implicits.
Arguments run : clear implicits.

(** ** Fresh addresses *)

(** An allocator: an address above all others. *)
Definition highest {A} (es : gmap Z A) : Z := map_fold (fun k _ n => Z.max k n) 0 es.

Lemma highest_bound {A} (es : gmap Z A) p x : es !! p = Some x -> p <= highest es.
Proof.
  revert p x. unfold highest. apply (map_fold_weak_ind (fun n es => forall p x, es !! p = Some x -> p <= n)).
  - intros p x. by rewrite lookup_empty.
  - intros k y es' n Hk IH p x. rewrite lookup_insert. case_decide; [intros _; lia|]. intros Hx.
    specialize (IH _ _ Hx). lia.
Qed.

Definition next_address {content} (this : ptr) (m : mailbox content) : ptr :=
  2 + Z.max (Z.abs this) (Z.max (highest (elems m)) (
    Z.max (Z.max (LinkedList.head_ (urgent_queue_ m)) (LinkedList.tail_ (urgent_queue_ m)))
          (Z.max (LinkedList.head_ (normal_queue_ m)) (LinkedList.tail_ (normal_queue_ m))))).

Lemma next_address_unused {content} this (m : mailbox content) : unused this m (next_address this m).
Proof.
  unfold unused, next_address, LifoInbox.valid_ptr, LifoInbox.stack_closed_tag, LifoInbox.reader_blocked_tag, nullptr.
  split_and!; try lia. destruct (elems m !! _) as [x|] eqn:E; [|done].
  apply highest_bound in E. lia.
Qed.

(** ** A concrete history *)

(** A normal request from actor 7, an urgent asynchronous message, and a
    normal asynchronous message, enqueued in this order. *)
Definition demo_request := mk_element 7 (MessageId.make_normal 1) 11.
Definition demo_urgent :=
  mk_element 7 (MessageId.with_high_priority MessageId.default) 22.
Definition demo_async := mk_element 0 MessageId.default 33.

Definition enqueue_run (p : ptr) (x : mailbox_element Z) (r : run Z) : run Z :=
  match push_back 8 p (allocate p x (box r)) with
  | Some (res, m') => mk_run m' (accept res x (accepted r)) (delivered r)
  | None => r
  end.

Definition dequeue_run (r : run Z) : run Z :=
  match pop_front 8 (box r) with
  | Some (p, m') =>
      match elems m' !! p with
      | Some x => mk_run (release p m') (accepted r) (delivered r ++ [x])
      | None => r
      end
  | None => r
  end.

Definition demo_start : run Z := initial 16 24 32 40.
Definition demo_run : run Z :=
  dequeue_run (enqueue_run 116 demo_async (enqueue_run 108 demo_urgent
    (enqueue_run 100 demo_request demo_start))).

Lemma demo_unused p (r : run Z) :
  LifoInbox.valid_ptr 8 p -> elems (box r) !! p = None ->
  bool_decide (p ∉ [head_ (urgent_queue_ (box r)); tail_ (urgent_queue_ (box r));
    head_ (normal_queue_ (box r)); tail_ (normal_queue_ (box r))]) = true -> unused 8 (box r) p.
Proof.
  intros Hv He Hb. apply bool_decide_eq_true in Hb. rewrite !not_elem_of_cons in Hb.
  unfold unused. tauto.
Qed.

Lemma demo_enqueue p x (r : run Z) res m' :
  unused 8 (box r) p -> push_back 8 p (allocate p x (box r)) = Some (res, m') ->
  step 8 r (enqueue_run p x r).
Proof. intros Hu E. unfold enqueue_run. rewrite E. by eapply step_enqueue. Qed.

Lemma demo_dequeue (r : run Z) p x m' :
  pop_front 8 (box r) = Some (p, m') -> p <> nullptr -> elems m' !! p = Some x ->
  step 8 r (dequeue_run r).
Proof. intros E Hp Hx. unfold dequeue_run. rewrite E, Hx. by eapply step_dequeue. Qed.

Ltac demo_step :=
  first [ eapply demo_dequeue; [vm_compute; reflexivity|done|vm_compute; reflexivity]
        | eapply demo_enqueue;
          [ apply demo_unused;
            [vm_compute; split_and!; discriminate|vm_compute; reflexivity..]
          | vm_compute; reflexivity ] ].

Lemma demo_reachable : rtc (step 8) demo_start demo_run.
Proof.
  unfold demo_run. do 4 (eapply rtc_r; [|demo_step]). apply rtc_refl.
Qed.

Lemma demo_nodup : NoDup [nullptr; 16; 24; 32; 40].
Proof. apply (bool_decide_unpack _). vm_compute. exact I. Qed.


(** Actor 7 owns the mailbox: the response to its request is enqueued to the
    mailbox that is being closed; so is a message of another thread. *)
Definition demo_arrive (n : Z) (bs : list bounced) : list (mailbox_element Z) :=
  map (fun b => mk_element 0 (response b) 44) (filter (fun b => receiver b = 7) bs)
  ++ (if n =? 0 then [demo_async] else []).

Lemma mailbox_close_bounces_witness :
  exists a, close 8 (next_address 8) demo_arrive (box demo_run) = Some a /\
    cl_count a = 4 /\ cl_sent a = [mk_bounced 7 (MessageId.response_id (MessageId.make_normal 1))] /\
    zlen (cl_late a) = 2 /\ elems (cl_box a) = ∅ /\ closed 8 (cl_box a) = true.
Proof.
  destruct (mailbox_close_bounces 8 16 24 32 40 demo_run (next_address 8) demo_arrive)
    as (rest & a & E & _ & Hn & Hs & Hc & He & _);
    [done|apply demo_nodup|apply demo_reachable|apply next_address_unused|].
  exists a. assert (option_map (fun a => (cl_count a, cl_sent a, zlen (cl_late a)))
    (close 8 (next_address 8) demo_arrive (box demo_run))
    = Some (4, [mk_bounced 7 (MessageId.response_id (MessageId.make_normal 1))], 2)) as H
    by (vm_compute; reflexivity).
  rewrite E in H. injection H as H1 H2 H3. by split_and!.
Defined.

Lemma mailbox_observers_witness : exists m', mailbox_size 8 (box demo_run) = Some (2, m').
Proof.
  destruct (mailbox_observers 8 16 24 32 40 demo_run) as ((m' & E) & _);
    [done|apply demo_nodup|apply demo_reachable|vm_compute; reflexivity|].
  exists m'. rewrite E. do 2 f_equal.
Defined.

End DefaultMailbox.
