(* ===== verification/AbstractMailbox.v ===== *)
(** * Mailbox interface (libcaf_core/caf/abstract_mailbox.hpp)

    What an actor may assume of its mailbox, as a class of operations and a
    class of laws over the sequences of pending messages.  Actors are verified
    against the laws; [default_mailbox] discharges them. *)

From stdpp Require Import gmap.
From S2P Require Import Prelude MessageId LinkedList LifoInbox DefaultMailbox.

Module AbstractMailbox.

Import DefaultMailbox.

(** ** Interface *)

(** [None] is undefined behaviour of the implementation.  [close] returns the
    number of dropped messages and the responses sent for them. *)
Class Mailbox (content M : Type) := {
  push_back : mailbox_element content -> M -> option (inbox_result * M);
  push_front : mailbox_element content -> M -> option M;
  pop_front : M -> option (option (mailbox_element content) * M);
  closed : M -> bool;
  blocked : M -> bool;
  try_block : M -> bool * M;
  try_unblock : M -> bool * M;
  close : M -> option (Z * list bounced * M);
}.

(** Whether the owner is running or waiting, or the mailbox was closed. *)
Inductive mode := awake | waiting | shut.

#[export] Instance mode_eq_dec : EqDecision mode.
Proof. solve_decision. Defined.

(** The pending messages of both priorities, oldest first. *)
Record view (content : Type) := mk_view {
  urgent_msgs : list (mailbox_element content);
  normal_msgs : list (mailbox_element content);
  mode_of : mode;
}.
Arguments mk_view {content}.
Arguments urgent_msgs {content}.
Arguments normal_msgs {content}.
Arguments mode_of {content}.

Section View.

Context {content : Type}.
#[local] Abbreviation element := (mailbox_element content).

Definition is_urgent (x : element) : bool := MessageId.is_urgent_message (mid x).

Definition all_msgs (v : view content) : list element := urgent_msgs v ++ normal_msgs v.

Definition with_mode (k : mode) (v : view content) : view content :=
  mk_view (urgent_msgs v) (normal_msgs v) k.

(** [x] behind, or in front of, the other messages of its priority. *)
Definition snoc (x : element) (v : view content) : view content :=
  if is_urgent x then mk_view (urgent_msgs v ++ [x]) (normal_msgs v) (mode_of v)
  else mk_view (urgent_msgs v) (normal_msgs v ++ [x]) (mode_of v).

Definition cons_front (x : element) (v : view content) : view content :=
  if is_urgent x then mk_view (x :: urgent_msgs v) (normal_msgs v) (mode_of v)
  else mk_view (urgent_msgs v) (x :: normal_msgs v) (mode_of v).

Lemma all_msgs_snoc x v : all_msgs (snoc x v) ≡ₚ x :: all_msgs v.
Proof. unfold snoc, all_msgs. destruct (is_urgent x); simpl; solve_Permutation. Qed.

Lemma all_msgs_cons x v : all_msgs (cons_front x v) ≡ₚ x :: all_msgs v.
Proof. unfold cons_front, all_msgs. destruct (is_urgent x); simpl; [done|]. by rewrite Permutation_middle. Qed.

Lemma mode_snoc x v : mode_of (snoc x v) = mode_of v.
Proof. unfold snoc. by destruct (is_urgent x). Qed.

Lemma with_mode_id k v : mode_of v = k -> with_mode k v = v.
Proof. intros <-. by destruct v. Qed.

Lemma mode_cons x v : mode_of (cons_front x v) = mode_of v.
Proof. unfold cons_front. by destruct (is_urgent x). Qed.

(** Pushing [xs] to the front one after another. *)
Definition restore (xs : list element) (v : view content) : view content :=
  fold_left (fun v x => cons_front x v) xs v.

Lemma restore_cons x xs v : restore (x :: xs) v = restore xs (cons_front x v).
Proof. done. Qed.

Lemma mode_restore xs v : mode_of (restore xs v) = mode_of v.
Proof. revert v. induction xs as [|x xs IH]; intros v; [done|]. by rewrite restore_cons, IH, mode_cons. Qed.

(** The messages of each priority end up in reverse order in front. *)
Lemma restore_lanes xs v :
  urgent_msgs (restore xs v) = of_prio true (reverse xs) ++ urgent_msgs v /\
  normal_msgs (restore xs v) = of_prio false (reverse xs) ++ normal_msgs v.
Proof.
  revert v. induction xs as [|x xs IH]; intros v; [done|]. rewrite restore_cons, reverse_cons.
  destruct (IH (cons_front x v)) as [-> ->]. rewrite !of_prio_snoc. fold (is_urgent x).
  unfold cons_front. destruct (is_urgent x); simpl; by rewrite ?app_nil_r, <- !app_assoc.
Qed.

Lemma all_msgs_restore xs v : all_msgs (restore xs v) ≡ₚ xs ++ all_msgs v.
Proof.
  revert v. induction xs as [|x xs IH]; intros v; [done|].
  rewrite restore_cons, IH, all_msgs_cons. solve_Permutation.
Qed.

End View.

(** ** Laws *)

(** [shows m v]: the mailbox is valid and holds the messages of [v]. *)
Class MailboxLaws (content M : Type) `{!Mailbox content M} := {
  shows : M -> view content -> Prop;
  push_back_law m v x : shows m v ->
    exists m', match mode_of v with
               | shut => push_back x m = Some (queue_closed, m') /\ shows m' v
               | waiting => push_back x m = Some (unblocked_reader, m') /\
                            shows m' (with_mode awake (snoc x v))
               | awake => push_back x m = Some (success, m') /\ shows m' (snoc x v)
               end;
  push_front_law m v x : shows m v -> mode_of v = awake ->
    exists m', push_front x m = Some m' /\ shows m' (cons_front x v);
  pop_front_law m v : shows m v -> mode_of v = awake ->
    exists r m', pop_front m = Some (r, m') /\
      match r with
      | None => all_msgs v = [] /\ shows m' v
      | Some x => exists v', v = cons_front x v' /\ shows m' v'
      end;
  closed_law m v : shows m v -> closed m = bool_decide (mode_of v = shut);
  blocked_law m v : shows m v -> blocked m = bool_decide (mode_of v = waiting);
  try_block_law m v : shows m v -> mode_of v = awake ->
    exists m', try_block m = (bool_decide (all_msgs v = []), m') /\
      shows m' (if bool_decide (all_msgs v = []) then with_mode waiting v else v);
  try_unblock_law m v : shows m v -> mode_of v <> shut ->
    exists m', try_unblock m = (bool_decide (mode_of v = waiting), m') /\
      shows m' (with_mode awake v);
  close_law m v : shows m v -> mode_of v <> shut ->
    exists bs m', close m = Some (zlen (all_msgs v), bs, m') /\
      bs ≡ₚ flat_map bounce (all_msgs v) /\ shows m' (mk_view [] [] shut);
}.

(** ** The default mailbox *)

(** [pop_front] leaves the head of the inbox alone or resets it. *)
Lemma fetch_loop_stack {content} fuel uip nip hd (m m' : mailbox content) :
  fetch_loop fuel uip nip hd m = Some m' -> stack_ m' = stack_ m.
Proof.
  revert hd m. induction fuel as [|fuel IH]; intros hd m; [done|]. cbn [fetch_loop].
  destruct (nodes m !! hd) as [next|]; [|done]. destruct (elems m !! hd) as [x|]; [|done].
  cbn [mbind option_bind]. destruct (MessageId.is_urgent_message (mid x)).
  - destruct (LinkedList.insert_after (urgent_queue_ m) _ _ _) as [r|]; [|done]. cbn [mbind option_bind].
    destruct (_ =? _); [by intros [= <-]|]. by intros ->%IH.
  - destruct (LinkedList.insert_after (normal_queue_ m) _ _ _) as [r|]; [|done]. cbn [mbind option_bind].
    destruct (_ =? _); [by intros [= <-]|]. by intros ->%IH.
Qed.

Lemma fetch_more_stack {content} this (m m' : mailbox content) b :
  fetch_more this m = Some (b, m') -> stack_ m' = nullptr.
Proof.
  unfold fetch_more, LifoInbox.take_head, LifoInbox.take_head_to, LifoInbox.take_iter.
  cbn [inbox_ LifoInbox.stack_]. rewrite Z.eqb_refl. cbn [andb negb].
  destruct (Z.eqb_spec (stack_ m) LifoInbox.stack_empty_tag) as [E|E].
  - cbn [mbind option_bind]. rewrite Z.eqb_refl. intros [= <- <-]. exact E.
  - cbn [mbind option_bind]. destruct (_ =? nullptr); [by intros [= <- <-]|].
    destruct (LinkedList.before_end (urgent_queue_ _) _) as [u|]; cbn [mbind option_bind]; [|done].
    destruct (LinkedList.before_end _ _) as [n|]; cbn [mbind option_bind]; [|done].
    cbn [mbind option_bind]. destruct (fetch_loop _ _ _ _ _) as [m2|] eqn:Ef; [|done].
    intros [= <- <-]. apply fetch_loop_stack in Ef as ->. done.
Qed.

Lemma pop_loop_stack {content} this fuel (m m' : mailbox content) p :
  pop_loop this fuel m = Some (p, m') -> stack_ m' = stack_ m \/ stack_ m' = nullptr.
Proof.
  revert m. induction fuel as [|fuel IH]; intros m; [done|]. cbn [pop_loop].
  destruct (LinkedList.pop_front (urgent_queue_ m) _) as [[[q l] h]|]; [|done].
  cbn [mbind option_bind]. destruct (negb _); [intros [= <- <-]; by left|].
  destruct (LinkedList.pop_front _ _) as [[[q' l'] h']|]; [|done].
  cbn [mbind option_bind]. destruct (negb _); [intros [= <- <-]; by left|].
  destruct (fetch_more _ _) as [[[] m3]|] eqn:E; [|apply fetch_more_stack in E..|done]; cbn [mbind option_bind].
  - apply fetch_more_stack in E. intros [-> | ->]%IH; by right.
  - intros [= <- <-]. by right.
Qed.

Section Default.

Context {content : Type} (this : ptr).

(** The allocator of mailbox elements: it answers with unused addresses. *)
Context (alloc : mailbox content -> ptr).

#[local] Instance default_mailbox_ops : Mailbox content (mailbox content) := {
  push_back x m := let p := alloc m in DefaultMailbox.push_back this p (allocate p x m);
  push_front x m := let p := alloc m in DefaultMailbox.push_front p (allocate p x m);
  pop_front m :=
    '(p, m') ← DefaultMailbox.pop_front this m;
    if p =? nullptr then Some (None, m')
    else x ← elems m' !! p; Some (Some x, release p m');
  closed := DefaultMailbox.closed this;
  blocked := DefaultMailbox.blocked this;
  try_block := DefaultMailbox.try_block this;
  try_unblock := DefaultMailbox.try_unblock this;
  close := DefaultMailbox.close_undisturbed this;
}.

Definition mode_in (m : mailbox content) : mode :=
  if stack_ m =? this + 1 then shut else if stack_ m =? this then waiting else awake.

Definition lane_msgs (b : bool) (m : mailbox content) (us ns xs : list ptr) : list (mailbox_element content) :=
  contents (elems m) (pending b (elems m) us ns xs).

Definition default_shows (m : mailbox content) (v : view content) : Prop :=
  exists us ns xs, stores this m us ns xs /\
    urgent_msgs v = lane_msgs true m us ns xs /\ normal_msgs v = lane_msgs false m us ns xs /\
    mode_of v = mode_in m.

Lemma mode_in_cases m :
  (mode_in m = shut /\ stack_ m = this + 1) \/ (mode_in m = waiting /\ stack_ m = this) \/
  (mode_in m = awake /\ stack_ m <> this + 1 /\ stack_ m <> this).
Proof.
  unfold mode_in. destruct (Z.eqb_spec (stack_ m) (this + 1)); [tauto|].
  destruct (Z.eqb_spec (stack_ m) this); tauto.
Qed.

Lemma mode_in_stack m m' : stack_ m' = stack_ m -> mode_in m' = mode_in m.
Proof. unfold mode_in. by intros ->. Qed.

Lemma lane_msgs_elems b m m' us ns xs :
  elems m' = elems m -> lane_msgs b m' us ns xs = lane_msgs b m us ns xs.
Proof. unfold lane_msgs. by intros ->. Qed.

Lemma all_msgs_empty m us ns xs v :
  stores this m us ns xs -> urgent_msgs v = lane_msgs true m us ns xs ->
  normal_msgs v = lane_msgs false m us ns xs -> (all_msgs v = [] <-> us ++ ns ++ xs = []).
Proof.
  intros Hst Hu Hn. unfold all_msgs. rewrite Hu, Hn. unfold lane_msgs. rewrite <- contents_app.
  assert (zlen (contents (elems m) (pending true (elems m) us ns xs ++ pending false (elems m) us ns xs))
    = zlen (us ++ ns ++ xs)) as Hl.
  { rewrite contents_length.
    - unfold zlen. by rewrite (Permutation_length (pending_perm _ us ns xs)).
    - intros p. rewrite pending_perm. apply (st_elems _ _ _ _ _ Hst). }
  unfold zlen in Hl. split; intros E; rewrite E in Hl; simpl in Hl; apply length_zero_iff_nil; lia.
Qed.

Context (Hthis : 0 < this) (alloc_unused : forall m, unused this m (alloc m)).

Lemma in_stores_fresh m us ns xs :
  stores this m us ns xs -> alloc m ∉ us ++ ns ++ xs.
Proof.
  intros Hst Hp. destruct (st_elems _ _ _ _ _ Hst _ Hp). destruct (alloc_unused m) as (_ & ? & _). congruence.
Qed.

(** Storing an unrelated element changes no lane. *)
Lemma lane_msgs_insert b m us ns xs x :
  stores this m us ns xs ->
  lane_msgs b (set_elems m (<[alloc m := x]> (elems m))) us ns xs = lane_msgs b m us ns xs /\
  pending b (<[alloc m := x]> (elems m)) us ns xs = pending b (elems m) us ns xs.
Proof.
  intros Hst. pose proof (in_stores_fresh _ _ _ _ Hst) as Hp. unfold lane_msgs. simpl.
  destruct (pending_ext b (elems m) (<[alloc m := x]> (elems m)) us ns xs) as [-> ->]; [|done].
  intros q Hq. rewrite lookup_insert_ne; [done|]. by intros <-.
Qed.

Lemma lane_msgs_push b m m' us ns xs x :
  stores this m us ns xs -> elems m' = <[alloc m := x]> (elems m) ->
  lane_msgs b m' us ns (alloc m :: xs)
  = lane_msgs b m us ns xs ++ (if Bool.eqb (is_urgent x) b then [x] else []).
Proof.
  intros Hst He. destruct (lane_msgs_insert b _ _ _ _ x Hst) as [H1 H2]. unfold lane_msgs in *. cbn [elems set_elems] in H1, H2.
  rewrite He. set (es := <[alloc m := x]> (elems m)) in *.
  assert (es !! alloc m = Some x) as Hx by apply lookup_insert_eq.
  assert (pending b es us ns (alloc m :: xs)
    = pending b es us ns xs ++ (if Bool.eqb (is_urgent x) b then [alloc m] else [])) as ->.
  { unfold pending. rewrite reverse_cons, <- app_assoc. f_equal. unfold lane at 1.
    rewrite filter_app. f_equal. fold (lane b es [alloc m]).
    by rewrite lane_cons, (urgent_lookup _ _ _ Hx). }
  rewrite contents_app, H1. f_equal. destruct (Bool.eqb _ _); [|done]. by apply contents_single.
Qed.

Lemma default_push_back m v x :
  default_shows m v ->
  exists m', match mode_of v with
             | shut => push_back x m = Some (queue_closed, m') /\ default_shows m' v
             | waiting => push_back x m = Some (unblocked_reader, m') /\
                          default_shows m' (with_mode awake (snoc x v))
             | awake => push_back x m = Some (success, m') /\ default_shows m' (snoc x v)
             end.
Proof.
  intros (us & ns & xs & Hst & Hu & Hn & Hm). pose proof (alloc_unused m) as Hf. cbn [push_back default_mailbox_ops].
  destruct (decide (stack_ m = this + 1)) as [Hc|Hc].
  - destruct (push_back_closed _ _ _ _ _ _ x Hst Hf Hc) as (m' & E & Hst' & Hs & He).
    exists m'. rewrite Hm. unfold mode_in at 1. rewrite Hc, Z.eqb_refl. split; [done|]. exists us, ns, xs.
    rewrite !(lane_msgs_elems _ m m') by done. split_and!; try done.
    rewrite Hm. apply eq_sym, mode_in_stack. congruence.
  - destruct (push_back_open _ _ _ _ _ _ x Hst Hf Hc) as (m' & E & Hst' & He & Hs & _).
    exists m'. cbv zeta. rewrite E.
    assert (forall k, mode_of v = k -> default_shows m' (with_mode awake (snoc x v))) as Hshow.
    { intros k _. exists us, ns, (alloc m :: xs). rewrite !(lane_msgs_push _ m m' _ _ _ x) by done.
      unfold snoc. destruct (is_urgent x); simpl; rewrite ?app_nil_r, ?Hu, ?Hn; split_and!; try done;
        unfold mode_in; rewrite Hs; destruct Hf as ((F1 & F2 & F3) & _);
        by rewrite (proj2 (Z.eqb_neq _ (this + 1)) F2), (proj2 (Z.eqb_neq _ this) F3). }
    rewrite Hm. unfold DefaultMailbox.blocked, LifoInbox.blocked, LifoInbox.reader_blocked_tag. cbn [inbox_ LifoInbox.stack_].
    destruct (mode_in_cases m) as [[-> ?]|[[Hk Hb]|(Hk & _ & Hb)]]; [done|rewrite Hk in *..].
    + rewrite Hb, Z.eqb_refl. split; [done|]. by apply (Hshow waiting).
    + rewrite (proj2 (Z.eqb_neq _ _) Hb). split; [done|].
      rewrite <- (with_mode_id awake (snoc x v)) by (rewrite mode_snoc; congruence).
      by apply (Hshow awake).
Qed.

Lemma default_push_front m v x :
  default_shows m v -> mode_of v = awake ->
  exists m', push_front x m = Some m' /\ default_shows m' (cons_front x v).
Proof.
  intros (us & ns & xs & Hst & Hu & Hn & Hm) Hk. pose proof (alloc_unused m) as Hf.
  pose proof (unused_fresh _ _ _ _ _ _ Hst Hf) as Hfresh.
  assert (stores this (allocate (alloc m) x m) us ns xs) as Hst1.
  { eapply stores_frame; [exact Hst|done..|]. intros q Hq. simpl. rewrite lookup_insert_ne; [done|].
    intros <-. by apply (in_stores_fresh _ _ _ _ Hst). }
  destruct (push_front_spec _ _ _ _ _ (alloc m) x Hst1) as (m' & E & Hst' & (He & _));
    [apply lookup_insert_eq|by destruct Hf as ((? & _) & _)|done|].
  exists m'. split; [exact E|].
  assert (stack_ m' = stack_ m) as Hs.
  { unfold DefaultMailbox.push_front in E. cbn [elems allocate set_elems] in E. rewrite lookup_insert_eq in E.
    cbn [mbind option_bind] in E.
    destruct (MessageId.is_urgent_message _); (destruct (LinkedList.push_front _ _ _) as [r|]; [|done]);
      by injection E as <-. }
  destruct (lane_msgs_insert true _ _ _ _ x Hst) as [T1 T2].
  destruct (lane_msgs_insert false _ _ _ _ x Hst) as [F1 F2].
  unfold cons_front, is_urgent. exists (if MessageId.is_urgent_message (mid x) then alloc m :: us else us),
    (if MessageId.is_urgent_message (mid x) then ns else alloc m :: ns), xs.
  unfold lane_msgs in *. rewrite He. cbn [elems allocate set_elems] in *.
  destruct (MessageId.is_urgent_message (mid x)); simpl; (split; [exact Hst'|]);
    rewrite Hm, (mode_in_stack m m' Hs), Hu, Hn, <- T1, <- F1; unfold pending; simpl;
    rewrite ?lookup_insert_eq; split_and!; done.
Qed.

Lemma default_pop_front m v :
  default_shows m v -> mode_of v = awake ->
  exists r m', pop_front m = Some (r, m') /\
    match r with
    | None => all_msgs v = [] /\ default_shows m' v
    | Some x => exists v', v = cons_front x v' /\ default_shows m' v'
    end.
Proof.
  intros (us & ns & xs & Hst & Hu & Hn & Hm) Hk.
  assert (stack_ m <> this + 1 /\ stack_ m <> this) as [Hc Hb].
  { destruct (mode_in_cases m) as [[? _]|[[? _]|(_ & ? & ?)]]; [congruence..|done]. }
  destruct (pop_front_lanes _ _ _ _ _ Hst Hc) as (p & m' & us' & ns' & xs' & E & Hst' & (He & _) & _ & Hcase);
    [unfold nullptr; lia|].
  assert (mode_in m' = awake) as Hm'.
  { apply pop_loop_stack in E as Hs. unfold mode_in.
    destruct Hs as [-> | ->]; [|unfold nullptr]; rewrite !(proj2 (Z.eqb_neq _ _)) by (done || lia); done. }
  cbn [pop_front default_mailbox_ops]. rewrite E. cbn [mbind option_bind].
  destruct Hcase as [(-> & Ha & Hb')|(Hp & HP & Hlane)].
  - rewrite Z.eqb_refl. exists None, m'. split; [done|].
    split; [by apply (all_msgs_empty m us ns xs)|].
    exists us', ns', xs'. split; [done|].
    apply abs_empty in Ha as (-> & -> & ->). apply abs_empty in Hb' as (-> & -> & ->).
    rewrite Hu, Hn, Hk, Hm'. by destruct m'.
  - rewrite (proj2 (Z.eqb_neq _ _) Hp).
    destruct (st_elems _ _ _ _ _ Hst p) as [x Hx]; [rewrite HP; apply list_elem_of_here|].
    rewrite He, Hx. cbn [mbind option_bind]. exists (Some x), (release p m'). split; [done|].
    assert (p ∉ us' ++ ns' ++ xs') as Hfresh.
    { pose proof (stores_nodup _ _ _ _ _ Hst) as N. rewrite HP in N. by apply NoDup_cons in N as [? _]. }
    exists (mk_view (lane_msgs true (release p m') us' ns' xs') (lane_msgs false (release p m') us' ns' xs') awake).
    assert (forall b, lane_msgs b (release p m') us' ns' xs' = lane_msgs b m' us' ns' xs') as Hrel.
    { intros b. unfold lane_msgs. simpl.
      destruct (pending_ext b (elems m') (delete p (elems m')) us' ns' xs') as [-> ->]; [|done].
      intros q Hq. rewrite lookup_delete_ne; [done|]. by intros ->. }
    assert (forall b, lane_msgs b m us ns xs
      = (if Bool.eqb b (is_urgent x) then [x] else []) ++ lane_msgs b m' us' ns' xs') as Hl.
    { intros b. unfold lane_msgs. rewrite Hlane, contents_app, He, (urgent_lookup _ _ _ Hx).
      f_equal. fold (is_urgent x). destruct (Bool.eqb b _); [by apply contents_single|done]. }
    split.
    + unfold cons_front. destruct v as [vu vn vm]. cbn [urgent_msgs normal_msgs mode_of] in Hu, Hn, Hm, Hk. subst. rewrite !Hl, !Hrel.
      destruct (is_urgent x); simpl; congruence.
    + exists us', ns', xs'. split_and!; [|done..|].
      * eapply stores_frame; [exact Hst'|done..|]. intros q Hq. simpl. rewrite lookup_delete_ne; [done|].
        by intros ->.
      * simpl. rewrite <- Hm'. by apply eq_sym, mode_in_stack.
Qed.

Lemma default_try_block m v :
  default_shows m v -> mode_of v = awake ->
  exists m', try_block m = (bool_decide (all_msgs v = []), m') /\
    default_shows m' (if bool_decide (all_msgs v = []) then with_mode waiting v else v).
Proof.
  intros (us & ns & xs & Hst & Hu & Hn & Hm) Hk.
  assert (stack_ m <> this + 1 /\ stack_ m <> this) as [Hc Hb].
  { destruct (mode_in_cases m) as [[? _]|[[? _]|(_ & ? & ?)]]; [congruence..|done]. }
  destruct (try_block_spec _ _ _ _ _ Hst Hc) as (m' & E & Hst' & (He & _) & Hc' & Hbl).
  pose proof (all_msgs_empty _ _ _ _ _ Hst Hu Hn) as Hall.
  assert (bool_decide (us ++ ns ++ xs = [] /\ stack_ m = nullptr) = bool_decide (all_msgs v = [])) as Hd.
  { apply bool_decide_ext. rewrite Hall. split; [tauto|]. intros H. split; [done|].
    apply abs_empty in H as (_ & _ & ->). destruct (LifoInbox.holds_head _ _ _ (st_inbox _ _ _ _ _ Hst)) as [H|[H|H]];
      [exact H|by contradict Hc|by contradict Hb]. }
  rewrite Hd in *. exists m'. split; [exact E|].
  exists us, ns, xs. rewrite !(lane_msgs_elems _ m m') by done.
  destruct (bool_decide (all_msgs v = [])) eqn:Eb; (split; [done|]); simpl; split_and!; try done.
  - assert (stack_ m' = this) as Hs by (apply (proj1 (Z.eqb_eq (stack_ m') this)); by apply Hbl).
    unfold mode_in. rewrite Hs, Z.eqb_refl, (proj2 (Z.eqb_neq this (this + 1))) by lia. done.
  - rewrite Hm. apply eq_sym, mode_in_stack. cbn [try_block default_mailbox_ops] in E.
    unfold DefaultMailbox.try_block, LifoInbox.try_block in E.
    revert E. destruct (_ =? 0); [|by intros [= <-]].
    destruct (_ =? _); [by intros [=]|by intros [= <-]].
Qed.

Lemma default_try_unblock m v :
  default_shows m v -> mode_of v <> shut ->
  exists m', try_unblock m = (bool_decide (mode_of v = waiting), m') /\
    default_shows m' (with_mode awake v).
Proof.
  intros (us & ns & xs & Hst & Hu & Hn & Hm) Hk.
  assert (stack_ m <> this + 1) as Hc by (destruct (mode_in_cases m) as [[? _]|[[_ ->]|(_ & ? & _)]]; [congruence|lia|done]).
  destruct (try_unblock_spec _ _ _ _ _ Hst Hc) as (m' & E & Hst' & (He & _) & Hc'); [unfold nullptr; lia|].
  exists m'. split.
  - cbn [try_unblock default_mailbox_ops]. rewrite E. f_equal. rewrite Hm.
    unfold DefaultMailbox.blocked, LifoInbox.blocked, LifoInbox.reader_blocked_tag. cbn [inbox_ LifoInbox.stack_].
    destruct (mode_in_cases m) as [[-> ?]|[[-> ->]|(-> & _ & Hb)]]; [done|by rewrite Z.eqb_refl|].
    by rewrite (proj2 (Z.eqb_neq _ _) Hb).
  - exists us, ns, xs. rewrite !(lane_msgs_elems _ m m') by done. split_and!; try done. simpl.
    unfold mode_in. rewrite (proj2 (Z.eqb_neq _ _) Hc'). destruct (Z.eqb_spec (stack_ m') this) as [Hs|]; [|done].
    unfold DefaultMailbox.try_unblock, LifoInbox.try_unblock, LifoInbox.reader_blocked_tag in E. simpl in E.
    destruct (Z.eqb_spec (stack_ m) this); injection E as _ <-; simpl in Hs; unfold LifoInbox.stack_empty_tag, nullptr in Hs; [lia|done].
Qed.

Lemma default_close m v :
  default_shows m v -> mode_of v <> shut ->
  exists bs m', close m = Some (zlen (all_msgs v), bs, m') /\
    bs ≡ₚ flat_map bounce (all_msgs v) /\ default_shows m' (mk_view [] [] shut).
Proof.
  intros (us & ns & xs & Hst & Hu & Hn & Hm) Hk.
  assert (stack_ m <> this + 1) as Hc by (destruct (mode_in_cases m) as [[? _]|[[_ ->]|(_ & ? & _)]]; [congruence|lia|done]).
  destruct (close_spec _ _ _ _ _ Hst Hc) as (m' & E & Hst' & Hs).
  assert (all_msgs v ≡ₚ contents (elems m) (us ++ ns ++ xs)) as HP.
  { unfold all_msgs. rewrite Hu, Hn. unfold lane_msgs. rewrite <- contents_app. apply omap_Permutation, pending_perm. }
  exists (flat_map bounce (contents (elems m) (us ++ ns ++ xs))), m'. split_and!.
  - cbn [close default_mailbox_ops]. rewrite E. do 3 f_equal.
    rewrite <- (contents_length (elems m)) by apply (st_elems _ _ _ _ _ Hst).
    unfold zlen. by rewrite (Permutation_length HP).
  - apply Permutation_flat_map. by symmetry.
  - exists [], [], []. split_and!; try done. simpl. unfold mode_in. by rewrite Hs, Z.eqb_refl.
Qed.

Lemma default_closed m v : default_shows m v -> closed m = bool_decide (mode_of v = shut).
Proof.
  intros (us & ns & xs & Hst & Hu & Hn & Hm). rewrite Hm.
  change (Z.eqb (stack_ m) (this + 1) = bool_decide (mode_in m = shut)).
  destruct (mode_in_cases m) as [[-> ->]|[[-> ->]|(-> & Hc & _)]]; [by rewrite Z.eqb_refl|..];
    rewrite (proj2 (Z.eqb_neq _ _)) by (done || lia); done.
Qed.

Lemma default_blocked m v : default_shows m v -> blocked m = bool_decide (mode_of v = waiting).
Proof.
  intros (us & ns & xs & Hst & Hu & Hn & Hm). rewrite Hm.
  change (Z.eqb (stack_ m) this = bool_decide (mode_in m = waiting)).
  destruct (mode_in_cases m) as [[-> ->]|[[-> ->]|(-> & _ & Hb)]]; [|by rewrite Z.eqb_refl|];
    rewrite (proj2 (Z.eqb_neq _ _)) by (done || lia); done.
Qed.

(** The default mailbox satisfies the laws. *)
#[local] Instance default_mailbox_laws : MailboxLaws content (mailbox content) := {
  shows := default_shows;
  push_back_law := default_push_back;
  push_front_law := default_push_front;
  pop_front_law := default_pop_front;
  closed_law := default_closed;
  blocked_law := default_blocked;
  try_block_law := default_try_block;
  try_unblock_law := default_try_unblock;
  close_law := default_close;
}.

Lemma default_shows_initial uh ut nh nt :
  NoDup [nullptr; uh; ut; nh; nt] -> default_shows (make_mailbox uh ut nh nt) (mk_view [] [] awake).
Proof.
  intros Hnd. destruct (tracks_initial (content := content) this uh ut nh nt) as [Hst Ho _ _];
    [done|unfold nullptr; lia|].
  exists [], [], []. split; [exact Hst|]. split_and!; try done.
  unfold mode_in. change (stack_ _) with 0. by rewrite !(proj2 (Z.eqb_neq 0 _)) by lia.
Qed.

End Default.

(** The default mailbox at address 8 with its nodes at 16 to 40. *)
Definition demo_ops {content} : Mailbox content (mailbox content) := default_mailbox_ops 8 (next_address 8).
Definition demo_laws {content} : @MailboxLaws content (mailbox content) demo_ops :=
  default_mailbox_laws 8 (next_address 8) eq_refl (next_address_unused 8).
Definition demo_box {content} : mailbox content := make_mailbox 16 24 32 40.

Lemma demo_box_shows {content} : @shows content _ _ demo_laws demo_box (mk_view [] [] awake).
Proof. apply default_shows_initial; [done|apply demo_nodup]. Qed.

End AbstractMailbox.
