(* ===== verification/AbstractActor.v ===== *)
(** * Actor base (libcaf_core/caf/{abstract_actor,default_attachable}.cpp,
      attachable.hpp)

    Life-cycle flags, the chain of attachables through which actors observe
    each other's termination, and links between pairs of actors.  The theorems
    show that every observer is notified exactly once and that links are
    symmetric as long as both actors live. *)

From stdpp Require Import gmap.
From S2P Require Import Prelude.

Module AbstractActor.

(** ** Errors *)

(** An [error] by category; a default-constructed error, which
    [exit_reason::normal] converts to, holds none. *)
Inductive error :=
| no_error
| exit_reason (code : Z)
| sec (code : Z)
| other_error (category code : Z).

#[export] Instance error_eq_dec : EqDecision error.
Proof. solve_decision. Defined.

(** [exit_reason::kill] and [exit_reason::unreachable]. *)
Definition kill : error := exit_reason 4.
Definition unreachable : error := exit_reason 6.

(** ** Attachables *)

Inductive observe_type := monitor | link.

#[export] Instance observe_type_eq_dec : EqDecision observe_type.
Proof. solve_decision. Defined.

(** A [default_attachable], or a [functor_attachable] with its closure. *)
Inductive attachable :=
| default_attachable (observed observer : Z) (type : observe_type) (priority : Z)
| functor_attachable (f : Z).

#[export] Instance attachable_eq_dec : EqDecision attachable.
Proof. solve_decision. Defined.

(** [default_attachable::observe_token]. *)
Record token := mk_token { observer : Z; type : observe_type }.

Definition matches (x : attachable) (what : token) : bool :=
  match x with
  | default_attachable _ o t _ => bool_decide (o = observer what /\ t = type what)
  | functor_attachable _ => false
  end.

Definition make_monitor (observed observer priority : Z) : attachable :=
  default_attachable observed observer monitor priority.

Definition make_link (observed observer : Z) : attachable :=
  default_attachable observed observer link 1.

(** What the system observes: a mailbox element sent to [to], a closure that
    ran, and the running count of the registry. *)
Inductive event :=
| sent_exit (from to : Z) (reason : error)          (* exit_msg{from, reason} *)
| sent_down (from to : Z) (reason : error)          (* down_msg{from, reason} *)
| functor_ran (f : Z) (reason : error)
| inc_running
| dec_running.

Section Actor.

(** Whether a weak reference to an actor can still be promoted. *)
Context (alive_ref : Z -> bool).

Definition actor_exited (x : attachable) (reason : error) : list event :=
  match x with
  | default_attachable observed o t _ =>
      if negb (alive_ref o) then []
      else match t with
           | monitor => [sent_down observed o reason]
           | link => [sent_exit observed o reason]
           end
  | functor_attachable f => [functor_ran f reason]
  end.

(** ** State *)

Record actor := mk_actor {
  is_terminated : bool;
  is_registered : bool;
  fail_state_ : error;
  attachables_ : list attachable;      (* from attachables_head_ on *)
}.

Definition set_attachables (a : actor) (xs : list attachable) : actor :=
  mk_actor (is_terminated a) (is_registered a) (fail_state_ a) xs.

Definition make_actor : actor := mk_actor false false no_error [].

(** ** Attaching *)

Definition attach_impl (x : attachable) (a : actor) : actor := set_attachables a (x :: attachables_ a).

Definition attach (x : attachable) (a : actor) : list event * actor :=
  if is_terminated a then (actor_exited x (fail_state_ a), a)
  else ([], attach_impl x a).

(** The loop of [detach_impl]: the number of hits and the remaining chain. *)
Fixpoint detach_loop (what : token) (stop_on_hit dry_run : bool) (xs : list attachable)
  : Z * list attachable :=
  match xs with
  | [] => (0, [])
  | x :: xs' =>
      if matches x what then
        if stop_on_hit then (1, if dry_run then x :: xs' else xs')
        else let (n, ys) := detach_loop what stop_on_hit dry_run xs' in
             (n + 1, if dry_run then x :: ys else ys)
      else let (n, ys) := detach_loop what stop_on_hit dry_run xs' in (n, x :: ys)
  end.

Definition detach_impl (what : token) (stop_on_hit dry_run : bool) (a : actor) : Z * actor :=
  let (n, xs) := detach_loop what stop_on_hit dry_run (attachables_ a) in (n, set_attachables a xs).

Definition detach (what : token) (a : actor) : Z * actor := detach_impl what false false a.

(** ** Termination *)

Definition register_at_system (a : actor) : list event * actor :=
  if is_registered a then ([], a)
  else ([inc_running], mk_actor (is_terminated a) true (fail_state_ a) (attachables_ a)).

Definition unregister_from_system (a : actor) : list event * actor :=
  if negb (is_registered a) then ([], a)
  else ([dec_running], mk_actor (is_terminated a) false (fail_state_ a) (attachables_ a)).

(** [cleanup] up to the virtual call of [on_cleanup], which follows exactly if
    the result is [true]. *)
Definition cleanup (reason : error) (a : actor) : bool * list event * actor :=
  if is_terminated a then (false, [], a)
  else
    let head := attachables_ a in
    let a1 := mk_actor true (is_registered a) reason [] in
    let evs := flat_map (fun x => actor_exited x reason) head in
    let (evs', a2) := unregister_from_system a1 in
    (true, evs ++ evs', a2).

(** ** Links *)

(** All actors by address.  An operation on two actors runs in their joined
    critical section. *)
Abbreviation system := (gmap Z actor).

(** [x.add_backlink(this)]: the result, the events and [x]. *)
Definition add_backlink (self other : Z) (x : actor) : bool * list event * actor :=
  if is_terminated x then (false, [sent_exit self other (fail_state_ x)], x)
  else
    let (hits, _) := detach_impl (mk_token other link) true true x in
    if hits =? 0 then (true, [], attach_impl (make_link self other) x)
    else (false, [], x).

Definition remove_backlink (other : Z) (x : actor) : bool * actor :=
  let (n, x') := detach_impl (mk_token other link) true false x in (0 <? n, x').

(** [this.add_link(x)] for the actor at [p]; [None] is a null dereference. *)
Definition add_link (p x : Z) (s : system) : option (list event * system) :=
  this ← s !! p;
  that ← s !! x;
  if is_terminated this then Some ([sent_exit p x (fail_state_ this)], s)
  else
    let '(added, evs, that') := add_backlink x p that in
    let this' := if added then attach_impl (make_link p x) this else this in
    Some (evs, <[x := that']> (<[p := this']> s)).

Definition remove_link (p x : Z) (s : system) : option system :=
  this ← s !! p;
  that ← s !! x;
  let (_, that') := remove_backlink p that in
  let (_, this') := detach_impl (mk_token x link) true false this in
  Some (<[x := that']> (<[p := this']> s)).

(** [link_to] and [unlink_from] with a handle ignore the actor itself; a weak
    address that no longer refers to an actor only detaches locally. *)
Definition link_to (p x : Z) (s : system) : option (list event * system) :=
  if p =? x then Some ([], s) else add_link p x s.

Definition unlink_from (p x : Z) (s : system) : option system :=
  if alive_ref x then if p =? x then Some s else remove_link p x s
  else this ← s !! p;
       let (_, this') := detach_impl (mk_token x link) true false this in
       Some (<[p := this']> s).

(** ** Observers *)

Lemma detach_all_spec what xs :
  detach_loop what false false xs
  = (zlen (filter (fun x => matches x what = true) xs), filter (fun x => matches x what = false) xs).
Proof.
  induction xs as [|x xs IH]; [done|]. cbn [detach_loop]. rewrite IH, !filter_cons.
  destruct (matches x what) eqn:E; simpl; [|done]. f_equal. unfold zlen. simpl. lia.
Qed.

Lemma filter_matches_perm what xs :
  xs ≡ₚ filter (fun x => matches x what = false) xs ++ filter (fun x => matches x what = true) xs.
Proof.
  induction xs as [|x xs IH]; [done|]. rewrite !filter_cons.
  destruct (matches x what); simpl; [by rewrite <- Permutation_middle, <- IH|by rewrite <- IH].
Qed.

(** The operations on one actor that concern its observers. *)
Inductive op :=
| op_register
| op_attach (x : attachable)
| op_detach (what : token)
| op_cleanup (reason : error).

(** The actor with the observers that were added and removed, and everything
    the system observed. *)
Record history := mk_history {
  act : actor;
  attached : list attachable;
  detached : list attachable;
  events : list event;
}.

Definition do_op (h : history) (o : op) : history :=
  match o with
  | op_register =>
      let (evs, a) := register_at_system (act h) in
      mk_history a (attached h) (detached h) (events h ++ evs)
  | op_attach x =>
      let (evs, a) := attach x (act h) in
      mk_history a (attached h ++ [x]) (detached h) (events h ++ evs)
  | op_detach what =>
      let (_, a) := detach what (act h) in
      mk_history a (attached h)
        (detached h ++ filter (fun x => matches x what = true) (attachables_ (act h))) (events h)
  | op_cleanup reason =>
      let '(_, evs, a) := cleanup reason (act h) in
      mk_history a (attached h) (detached h) (events h ++ evs)
  end.

Definition start : history := mk_history make_actor [] [] [].

Definition is_notification (e : event) : bool :=
  match e with inc_running | dec_running => false | _ => true end.

Definition notifications (evs : list event) : list event := filter (fun e => is_notification e = true) evs.

Fixpoint running_balance (evs : list event) : Z :=
  match evs with
  | [] => 0
  | inc_running :: evs' => running_balance evs' + 1
  | dec_running :: evs' => running_balance evs' - 1
  | _ :: evs' => running_balance evs'
  end.

Lemma notifications_app xs ys : notifications (xs ++ ys) = notifications xs ++ notifications ys.
Proof. apply filter_app. Qed.

Lemma running_balance_app xs ys : running_balance (xs ++ ys) = running_balance xs + running_balance ys.
Proof.
  induction xs as [|e xs IH]; [done|]. destruct e; simpl; rewrite IH; lia.
Qed.

Lemma exited_notifications x r :
  notifications (actor_exited x r) = actor_exited x r /\ running_balance (actor_exited x r) = 0.
Proof. destruct x as [o w [] p|f]; simpl; try destruct (alive_ref w); done. Qed.

Lemma exited_all_notifications xs r :
  notifications (flat_map (fun x => actor_exited x r) xs) = flat_map (fun x => actor_exited x r) xs /\
  running_balance (flat_map (fun x => actor_exited x r) xs) = 0.
Proof.
  induction xs as [|x xs [IH1 IH2]]; [done|]. cbn [flat_map].
  destruct (exited_notifications x r) as [E1 E2].
  rewrite notifications_app, running_balance_app, E1, E2, IH1, IH2. done.
Qed.

(** What the observers know. *)
Record observed_ok (h : history) : Prop := {
  ok_alive : is_terminated (act h) = false ->
    notifications (events h) = [] /\ attached h ≡ₚ attachables_ (act h) ++ detached h;
  ok_dead : is_terminated (act h) = true ->
    attachables_ (act h) = [] /\
    exists xs, attached h ≡ₚ xs ++ detached h /\
      notifications (events h) = flat_map (fun x => actor_exited x (fail_state_ (act h))) xs;
  ok_running : running_balance (events h) = (if is_registered (act h) then 1 else 0);
}.

Lemma observed_register h : observed_ok h -> observed_ok (do_op h op_register).
Proof.
  intros [Ha Hd Hr]. cbn [do_op]. unfold register_at_system.
  destruct (is_registered (act h)) eqn:E.
  - split; cbn [act attached detached events]; rewrite ?app_nil_r; try done. by rewrite E.
  - split; cbn [act attached detached events is_terminated is_registered fail_state_ attachables_];
      rewrite ?notifications_app, ?app_nil_r; try done.
    rewrite running_balance_app, Hr. done.
Qed.

Lemma observed_attach h x : observed_ok h -> observed_ok (do_op h (op_attach x)).
Proof.
  intros [Ha Hd Hr]. cbn [do_op]. unfold attach. destruct (is_terminated (act h)) eqn:E.
  - destruct (Hd eq_refl) as (Hn & xs & Hp & Hev). destruct (exited_notifications x (fail_state_ (act h))) as [E1 E2].
    split; cbn [act attached detached events]; [congruence| |].
    + intros _. split; [done|]. exists (xs ++ [x]). rewrite notifications_app, E1, Hev, flat_map_app.
      simpl. rewrite app_nil_r, Hp. split; [|done]. solve_Permutation.
    + by rewrite running_balance_app, E2, Hr, Z.add_0_r.
  - destruct (Ha eq_refl) as (Hn & Hp).
    split; cbn [act attached detached events attach_impl set_attachables is_terminated attachables_]; [| |].
    + intros _. rewrite app_nil_r. split; [done|]. rewrite Hp. solve_Permutation.
    + congruence.
    + by rewrite app_nil_r.
Qed.

Lemma observed_detach h what : observed_ok h -> observed_ok (do_op h (op_detach what)).
Proof.
  intros [Ha Hd Hr]. cbn [do_op]. unfold detach, detach_impl. rewrite detach_all_spec.
  split; cbn [act attached detached events set_attachables is_terminated attachables_ fail_state_ is_registered]; [| |done].
  - intros E. destruct (Ha E) as [Hn Hp]. split; [done|]. rewrite Hp.
    rewrite (filter_matches_perm what (attachables_ (act h))) at 1. solve_Permutation.
  - intros E. destruct (Hd E) as (Hn & xs & Hp & Hev). rewrite Hn. split; [done|].
    exists xs. by rewrite app_nil_r.
Qed.

Lemma observed_cleanup h r : observed_ok h -> observed_ok (do_op h (op_cleanup r)).
Proof.
  intros [Ha Hd Hr]. cbn [do_op]. unfold cleanup. destruct (is_terminated (act h)) eqn:E.
  - split; cbn [act attached detached events]; rewrite ?app_nil_r, ?E; done.
  - destruct (Ha eq_refl) as [Hn Hp]. destruct (exited_all_notifications (attachables_ (act h)) r) as [E1 E2].
    unfold unregister_from_system. cbn [is_registered].
    destruct (is_registered (act h)); cbn [negb]; split; cbn [act attached detached events is_terminated
      attachables_ fail_state_ is_registered]; try done.
    + intros _. split; [done|]. exists (attachables_ (act h)).
      by rewrite !notifications_app, E1, Hn, app_nil_r.
    + by rewrite !running_balance_app, Hr, E2.
    + intros _. split; [done|]. exists (attachables_ (act h)).
      by rewrite !notifications_app, E1, Hn, app_nil_r.
    + by rewrite !running_balance_app, Hr, E2.
Qed.

Lemma observed_run ops h : observed_ok h -> observed_ok (fold_left do_op ops h).
Proof.
  revert h. induction ops as [|o ops IH]; intros h H; [done|]. apply IH.
  destruct o; eauto using observed_register, observed_attach, observed_detach, observed_cleanup.
Qed.

(** C9. Every observer hears of an actor's termination exactly once.
    Whatever sequence of registering, attaching, detaching and (possibly
    repeated) cleanup an actor goes through: before it terminates nobody is
    notified and the attached observers are those added and not removed.  After
    that, each of them, and each one attached later, is notified exactly once
    and with the actor's final error; and the registry counts the actor as
    running exactly while it is registered. *)
Theorem observers_notified_once ops :
  let h := fold_left do_op ops start in
  (is_terminated (act h) = false ->
     notifications (events h) = [] /\ attached h ≡ₚ attachables_ (act h) ++ detached h) /\
  (is_terminated (act h) = true ->
     exists xs, attached h ≡ₚ xs ++ detached h /\
       notifications (events h) = flat_map (fun x => actor_exited x (fail_state_ (act h))) xs) /\
  running_balance (events h) = (if is_registered (act h) then 1 else 0).
Proof.
  intros h. assert (observed_ok h) as [Ha Hd Hr] by (apply observed_run; done).
  split_and!; [done| |done]. intros E. by destruct (Hd E) as (_ & ?).
Qed.

(** ** Links between actors *)

(** How often an actor reports its termination to [x] because of a link. *)
Fixpoint count_links (x : Z) (xs : list attachable) : nat :=
  match xs with
  | [] => 0
  | y :: xs' => (if matches y (mk_token x link) then 1 else 0) + count_links x xs'
  end.

Definition links_to (x : Z) (a : actor) : nat := count_links x (attachables_ a).

Definition is_link (x : attachable) : bool :=
  match x with default_attachable _ _ link _ => true | _ => false end.

Lemma links_attach_link p x y a :
  links_to y (attach_impl (make_link p x) a) = ((if decide (y = x) then 1 else 0) + links_to y a)%nat.
Proof.
  unfold links_to, attach_impl, make_link. cbn [attachables_ set_attachables count_links matches observer type].
  destruct (decide (y = x)) as [->|Hne].
  - by rewrite bool_decide_true.
  - rewrite bool_decide_false; [done|]. intros [? _]. congruence.
Qed.

Lemma count_links_other x y xs : is_link y = false -> count_links x (y :: xs) = count_links x xs.
Proof.
  intros H. cbn [count_links]. destruct y as [o w [] q|f]; try done.
  cbn [matches observer type]. rewrite bool_decide_false; [done|]. by intros [].
Qed.

Lemma detach_link_dry x xs :
  (detach_loop (mk_token x link) true true xs).1 = (if decide (count_links x xs = 0)%nat then 0 else 1).
Proof.
  induction xs as [|y xs IH]; [done|]. cbn [detach_loop count_links].
  destruct (matches y _); [done|]. destruct (detach_loop _ _ _ _). simpl in *. done.
Qed.

Lemma detach_link_count x y xs :
  count_links y (detach_loop (mk_token x link) true false xs).2
  = (if decide (y = x) then Nat.pred (count_links y xs) else count_links y xs).
Proof.
  induction xs as [|z xs IH]; [by case_decide|]. cbn [detach_loop count_links].
  destruct (matches z (mk_token x link)) eqn:E; cbn [snd].
  - destruct (decide (y = x)) as [->|Hne]; [by rewrite E|].
    destruct (matches z (mk_token y link)) eqn:E2; [|done]. exfalso.
    destruct z as [o w k q|f]; [|done]. cbn [matches observer type] in *.
    apply bool_decide_eq_true in E as [E _], E2 as [E2 _]. congruence.
  - destruct (detach_loop _ _ _ xs) as [n ys]. cbn [snd] in *. cbn [count_links]. rewrite IH.
    destruct (decide (y = x)) as [->|Hne]; [by rewrite E|done].
Qed.

Lemma links_detach x y a :
  links_to y (detach_impl (mk_token x link) true false a).2
  = (if decide (y = x) then Nat.pred (links_to y a) else links_to y a).
Proof.
  unfold links_to, detach_impl. pose proof (detach_link_count x y (attachables_ a)) as H.
  by destruct (detach_loop _ _ _ _).
Qed.

Lemma detach_impl_terminated what b1 b2 a :
  is_terminated (detach_impl what b1 b2 a).2 = is_terminated a.
Proof. unfold detach_impl. by destruct (detach_loop _ _ _ _). Qed.

Lemma detach_link_nil x a : attachables_ a = [] -> attachables_ (detach_impl (mk_token x link) true false a).2 = [].
Proof. unfold detach_impl. by intros ->. Qed.

Record wf_system (s : system) : Prop := {
  sys_dead p a : s !! p = Some a -> is_terminated a = true -> attachables_ a = [];
  sys_target p x a : s !! p = Some a -> links_to x a <> 0%nat -> x <> p /\ is_Some (s !! x);
  sys_symmetric p x a b : s !! p = Some a -> s !! x = Some b ->
    is_terminated a = false -> is_terminated b = false ->
    links_to x a = links_to p b /\ (links_to x a <= 1)%nat;
}.

Definition spawn (p : Z) (s : system) : system := <[p := make_actor]> s.

(** What may happen to a system of actors.  A weak reference that cannot be
    promoted belongs to a terminated actor; links are only added and removed in
    pairs. *)
Inductive link_step : system -> system -> Prop :=
| step_spawn p s : s !! p = None -> link_step s (spawn p s)
| step_link p x s evs s' : link_to p x s = Some (evs, s') -> link_step s s'
| step_unlink p x s s' :
    (alive_ref x = false -> forall b, s !! x = Some b -> is_terminated b = true) ->
    unlink_from p x s = Some s' -> link_step s s'
| step_attach p a x s :
    s !! p = Some a -> is_link x = false -> link_step s (<[p := (attach x a).2]> s)
| step_detach p a what s :
    s !! p = Some a -> type what = monitor -> link_step s (<[p := (detach what a).2]> s)
| step_cleanup p a r s :
    s !! p = Some a -> link_step s (<[p := (cleanup r a).2]> s).

(** One actor changes, but neither its links nor its life. *)
Lemma wf_update p a a' s :
  wf_system s -> s !! p = Some a -> is_terminated a' = is_terminated a ->
  (forall x, links_to x a' = links_to x a) ->
  (is_terminated a = true -> attachables_ a' = []) -> wf_system (<[p := a']> s).
Proof.
  intros [Hd Ht Hs] Hp Hterm Hl Hn.
  assert (forall r d, <[p := a']> s !! r = Some d ->
    exists d', s !! r = Some d' /\ is_terminated d = is_terminated d' /\ forall y, links_to y d = links_to y d') as Hold.
  { intros r d. rewrite lookup_insert. case_decide; [intros [= <-]; subst; eauto|eauto]. }
  split.
  - intros q b. rewrite lookup_insert. case_decide; [|apply Hd]. intros [= <-]. rewrite Hterm. auto.
  - intros q x b Hq H0. destruct (Hold _ _ Hq) as (b' & B1 & _ & B3). rewrite B3 in H0.
    destruct (Ht _ _ _ B1 H0) as [? Hx]. split; [done|]. rewrite lookup_insert. by case_decide.
  - intros q x b c H1 H2.
    destruct (Hold _ _ H1) as (b' & B1 & -> & B3), (Hold _ _ H2) as (c' & C1 & -> & C3).
    rewrite B3, C3. eauto.
Qed.

Lemma wf_spawn p s : wf_system s -> s !! p = None -> wf_system (spawn p s).
Proof.
  intros [Hd Ht Hs] Hp. unfold spawn. split.
  - intros q a. rewrite lookup_insert. case_decide; [by intros [= <-]|apply Hd].
  - intros q x a. rewrite lookup_insert. case_decide; [by intros [= <-]|]. intros Hq H0.
    destruct (Ht _ _ _ Hq H0). split; [done|]. rewrite lookup_insert. by case_decide.
  - assert (forall q a, s !! q = Some a -> links_to p a = 0%nat) as Hfresh.
    { intros q a Hq. destruct (decide (links_to p a = 0)%nat) as [|Hn]; [done|].
      destruct (Ht _ _ _ Hq Hn) as [_ Hx]. rewrite Hp in Hx. by destruct Hx. }
    intros q x a b. rewrite !lookup_insert.
    destruct (decide (p = q)) as [<-|], (decide (p = x)) as [<-|]; intros H1 H2 Ha Hb.
    + simplify_eq. split; [done|unfold links_to; simpl; lia].
    + injection H1 as <-. rewrite (Hfresh _ _ H2). split; [done|unfold links_to; simpl; lia].
    + injection H2 as <-. rewrite (Hfresh _ _ H1). split; [done|unfold links_to; simpl; lia].
    + eauto.
Qed.

Lemma wf_cleanup p a r s :
  wf_system s -> s !! p = Some a -> wf_system (<[p := (cleanup r a).2]> s).
Proof.
  intros Hw Hp. unfold cleanup. destruct (is_terminated a) eqn:E.
  - apply (wf_update _ a); try done. intros _. by apply (sys_dead _ Hw p).
  - set (a' := (unregister_from_system _)).
    assert (is_terminated a'.2 = true /\ attachables_ a'.2 = []) as [H1 H2].
    { unfold a', unregister_from_system. cbn [is_registered]. by destruct (is_registered a). }
    destruct a' as [evs a']. cbn [snd] in *. destruct Hw as [Hd Ht Hs]. split.
    + intros q b. rewrite lookup_insert. case_decide; [by intros [= <-]|apply Hd].
    + intros q x b. rewrite lookup_insert. case_decide.
      * intros [= <-]. unfold links_to. by rewrite H2.
      * intros Hq H0. destruct (Ht _ _ _ Hq H0). split; [done|]. rewrite lookup_insert. by case_decide.
    + intros q x b c. rewrite !lookup_insert. repeat case_decide; subst; intros; simplify_eq; [congruence..|eauto].
Qed.

(** Two actors change the links between them. *)
Lemma wf_update_pair p x a b a' b' s :
  wf_system s -> p <> x -> s !! p = Some a -> s !! x = Some b ->
  is_terminated a' = is_terminated a -> is_terminated b' = is_terminated b ->
  (is_terminated a = true -> attachables_ a' = []) -> (is_terminated b = true -> attachables_ b' = []) ->
  (forall y, y <> x -> links_to y a' = links_to y a) -> (forall y, y <> p -> links_to y b' = links_to y b) ->
  (is_terminated a = false -> is_terminated b = false -> links_to x a' = links_to p b' /\ (links_to x a' <= 1)%nat) ->
  wf_system (<[x := b']> (<[p := a']> s)).
Proof.
  intros [Hd Ht Hs] Hpx Ha Hb Ta Tb Na Nb La Lb Hpair.
  assert (forall q, is_Some (s !! q) -> is_Some (<[x := b']> (<[p := a']> s) !! q)) as Hdom.
  { intros q Hq. rewrite !lookup_insert. by repeat case_decide. }
  assert (forall q c, <[x := b']> (<[p := a']> s) !! q = Some c ->
    (q = x /\ c = b') \/ (q = p /\ c = a') \/ (q <> x /\ q <> p /\ s !! q = Some c)) as Hcases.
  { intros q c. rewrite !lookup_insert. repeat case_decide; intros; simplify_eq; auto. }
  split.
  - intros q c [[-> ->]|[[-> ->]|(_ & _ & Hq)]]%Hcases; [rewrite Tb|rewrite Ta|]; eauto.
  - intros q y c [[-> ->]|[[-> ->]|(_ & _ & Hq)]]%Hcases H0.
    + destruct (decide (y = p)) as [->|Hy]; [split; [done|]; eauto|].
      rewrite Lb in H0 by done. destruct (Ht _ _ _ Hb H0). eauto.
    + destruct (decide (y = x)) as [->|Hy]; [split; [done|]; eauto|].
      rewrite La in H0 by done. destruct (Ht _ _ _ Ha H0). eauto.
    + destruct (Ht _ _ _ Hq H0). eauto.
  - assert (forall q c, s !! q = Some c -> links_to q c = 0%nat) as Hself.
    { intros q c Hq. destruct (decide (links_to q c = 0)%nat) as [|Hn]; [done|].
      by destruct (Ht _ _ _ Hq Hn). }
    intros q y c d [[-> ->]|[[-> ->]|(Q1 & Q2 & Hq)]]%Hcases [[-> ->]|[[-> ->]|(Y1 & Y2 & Hy)]]%Hcases T1 T2.
    + rewrite Lb, (Hself _ _ Hb) by done. lia.
    + destruct Hpair as [-> H]; [congruence..|]. split; [done|lia].
    + rewrite Lb by done. apply (Hs _ _ _ _ Hb Hy); congruence.
    + apply Hpair; congruence.
    + rewrite La, (Hself _ _ Ha) by done. lia.
    + rewrite La by done. apply (Hs _ _ _ _ Ha Hy); congruence.
    + rewrite Lb by done. apply (Hs _ _ _ _ Hq Hb); congruence.
    + rewrite La by done. apply (Hs _ _ _ _ Hq Ha); congruence.
    + eauto.
Qed.

Lemma wf_link p x s evs s' : wf_system s -> link_to p x s = Some (evs, s') -> wf_system s'.
Proof.
  intros Hw. unfold link_to. destruct (Z.eqb_spec p x) as [|Hne]; [by intros [= <- <-]|].
  unfold add_link. destruct (s !! p) as [a|] eqn:Ha; [|done]. destruct (s !! x) as [b|] eqn:Hb; [|done].
  cbn [mbind option_bind]. destruct (is_terminated a) eqn:Ta; [by intros [= <- <-]|].
  unfold add_backlink. destruct (is_terminated b) eqn:Tb.
  { intros [= <- <-]. rewrite insert_id by by rewrite lookup_insert_ne. by rewrite insert_id. }
  unfold detach_impl. pose proof (detach_link_dry p (attachables_ b)) as Hdry.
  destruct (detach_loop _ _ _ _) as [hits ys]. cbn [fst] in Hdry. subst hits.
  destruct (decide (count_links p (attachables_ b) = 0)%nat) as [H0|H0]; simpl.
  - intros [= <- <-]. destruct (sys_symmetric _ Hw p x a b) as [Hl _]; [done..|].
    apply (wf_update_pair p x a b); try done; [congruence..| | |].
    + intros y Hy. rewrite links_attach_link. by rewrite decide_False.
    + intros y Hy. rewrite links_attach_link. by rewrite decide_False.
    + intros _ _. rewrite !links_attach_link, !decide_True by done. rewrite Hl.
      unfold links_to. rewrite H0. split; [done|lia].
  - intros [= <- <-]. rewrite insert_id by by rewrite lookup_insert_ne. by rewrite insert_id.
Qed.

Lemma wf_unlink p x s s' :
  wf_system s -> (alive_ref x = false -> forall b, s !! x = Some b -> is_terminated b = true) ->
  unlink_from p x s = Some s' -> wf_system s'.
Proof.
  intros Hw Hexp. unfold unlink_from. destruct (alive_ref x) eqn:Hx.
  - destruct (Z.eqb_spec p x) as [|Hne]; [by intros [= <-]|].
    unfold remove_link, remove_backlink.
    destruct (s !! p) as [a|] eqn:Ha; [|done]. destruct (s !! x) as [b|] eqn:Hb; [|done].
    cbn [mbind option_bind].
    pose proof (links_detach p) as Lb. pose proof (links_detach x) as La.
    specialize (La) with (a := a). specialize (Lb) with (a := b).
    pose proof (detach_impl_terminated (mk_token p link) true false b) as Tb.
    pose proof (detach_impl_terminated (mk_token x link) true false a) as Ta.
    pose proof (detach_link_nil p b) as Nb. pose proof (detach_link_nil x a) as Na.
    destruct (detach_impl (mk_token p link) true false b) as [n b'].
    destruct (detach_impl (mk_token x link) true false a) as [k a']. cbn [snd] in *.
    intros [= <-]. apply (wf_update_pair p x a b); try done.
    + intros T. apply Na. by apply (sys_dead _ Hw p).
    + intros T. apply Nb. by apply (sys_dead _ Hw x).
    + intros y Hy. by rewrite La, decide_False.
    + intros y Hy. by rewrite Lb, decide_False.
    + intros T1 T2. destruct (sys_symmetric _ Hw p x a b) as [Hl Hle]; [done..|].
      rewrite La, Lb, !decide_True, Hl by done. split; [done|lia].
  - destruct (s !! p) as [a|] eqn:Ha; [|done]. cbn [mbind option_bind].
    pose proof (links_detach x) as La. specialize (La) with (a := a).
    pose proof (detach_impl_terminated (mk_token x link) true false a) as Ta.
    pose proof (detach_link_nil x a) as Na.
    destruct (detach_impl (mk_token x link) true false a) as [k a']. cbn [snd] in *. intros [= <-].
    destruct (s !! x) as [b|] eqn:Hb.
    + destruct (decide (p = x)) as [->|Hne].
      * apply (wf_update x a); try done.
        -- intros y. rewrite La. case_decide; [|done]. subst.
           destruct (decide (links_to x a = 0)%nat) as [->|Hn]; [done|]. by destruct (sys_target _ Hw x x a Ha Hn).
        -- intros T. apply Na. by apply (sys_dead _ Hw x).
      * rewrite <- (insert_id (<[p := a']> s) x b) by by rewrite lookup_insert_ne.
        apply (wf_update_pair p x a b); try done.
        -- intros T. apply Na. by apply (sys_dead _ Hw p).
        -- intros T. by apply (sys_dead _ Hw x).
        -- intros y Hy. by rewrite La, decide_False.
        -- intros _ T. rewrite (Hexp eq_refl b eq_refl) in T. done.
    + apply (wf_update p a); try done.
      * intros y. rewrite La. case_decide as Hy; [|done]. subst.
        destruct (decide (links_to x a = 0)%nat) as [->|Hn]; [done|].
        destruct (sys_target _ Hw p x a Ha Hn) as [_ [? Hs]]. congruence.
      * intros T. apply Na. by apply (sys_dead _ Hw p).
Qed.

Lemma wf_link_step s s' : wf_system s -> link_step s s' -> wf_system s'.
Proof.
  intros Hw Hs. destruct Hs as [p s|p x s evs s'|p x s s'|p a x s Hp Hx|p a what s Hp Hm|p a r s Hp].
  - by apply wf_spawn.
  - by eapply wf_link.
  - by eapply wf_unlink.
  - apply (wf_update p a); try done; unfold attach; destruct (is_terminated a) eqn:T; try done.
    + intros y. unfold links_to. simpl. by apply count_links_other.
    + intros _. by apply (sys_dead _ Hw p).
  - unfold detach, detach_impl. rewrite detach_all_spec. apply (wf_update p a); try done; simpl.
    + intros y. unfold links_to. simpl. induction (attachables_ a) as [|z xs IH]; [done|].
      rewrite filter_cons. case_decide as E; cbn [count_links]; rewrite IH; [done|].
      apply not_false_is_true in E. destruct z as [o w [] q|f]; try done; cbn [matches observer type] in *;
        [rewrite bool_decide_false by (by intros []); done|].
      apply bool_decide_eq_true in E as [_ E]. congruence.
    + intros T. by rewrite (sys_dead _ Hw p a Hp T).
  - by apply wf_cleanup.
Qed.

(** C10. Links are symmetric.  In every state a system of actors can reach by
    spawning, linking, unlinking, monitoring and terminating actors: of two
    living actors, one reports its termination to the other if and only if the
    other does so in return, at most once each; no actor is linked to itself,
    and a terminated actor has no observers left. *)
Theorem links_symmetric s :
  rtc link_step ∅ s ->
  (forall p x a b, s !! p = Some a -> s !! x = Some b ->
     is_terminated a = false -> is_terminated b = false ->
     links_to x a = links_to p b /\ (links_to x a <= 1)%nat) /\
  (forall p a, s !! p = Some a -> links_to p a = 0%nat /\ (is_terminated a = true -> attachables_ a = [])).
Proof.
  intros Hr. assert (wf_system s) as Hw.
  { assert (wf_system ∅) as H by (split; intros ? *; by rewrite lookup_empty).
    induction Hr as [|s1 s2 s3 Hs Hr IH]; eauto using wf_link_step. }
  split; [intros; by eapply sys_symmetric|]. intros p a Hp. split; [|by apply (sys_dead _ Hw p)].
  destruct (decide (links_to p a = 0)%nat) as [|Hn]; [done|]. by destruct (sys_target _ Hw _ _ _ Hp Hn).
Qed.

End Actor.

(** ** Concrete instances *)

(** Actors 1 and 2 link to each other; then actor 2 terminates. *)
Definition demo_linked : gmap Z actor :=
  match link_to 1 2 (spawn 2 (spawn 1 ∅)) with Some (_, s) => s | None => ∅ end.

Lemma links_symmetric_witness :
  exists a b, demo_linked !! 1 = Some a /\ demo_linked !! 2 = Some b /\
    links_to 2 a = 1%nat /\ links_to 1 b = 1%nat.
Proof.
  destruct (links_symmetric (fun _ => true) demo_linked) as [H _].
  - apply (rtc_l _ _ (spawn 1 ∅)); [by apply step_spawn|].
    apply (rtc_l _ _ (spawn 2 (spawn 1 ∅))); [by apply step_spawn|].
    eapply rtc_l; [eapply (step_link _ 1 2); reflexivity|apply rtc_refl].
  - eexists _, _. split; [vm_compute; reflexivity|]. split; [vm_compute; reflexivity|].
    edestruct (H 1 2) as [E _]; [vm_compute; reflexivity..|]. split; [vm_compute; reflexivity|].
    rewrite <- E. vm_compute. reflexivity.
Defined.

End AbstractActor.
