(* ===== verification/LocalActor.v ===== *)
(** * Messages and responses (libcaf_core/caf/{local_actor,response_promise,
      mail_cache}.cpp, detail/sync_request_bouncer.cpp)

    The contents an actor distinguishes, and what turns a request into exactly
    one response: the answered flag of a mailbox element, response promises and
    caches for stashed messages. *)

From stdpp Require Import gmap.
From S2P Require Import Prelude MessageId LifoInbox DefaultMailbox AbstractMailbox AbstractActor.

Module LocalActor.

Import DefaultMailbox AbstractMailbox.
Import AbstractActor(error(..), kill).
#[export] Existing Instance AbstractActor.error_eq_dec.

(** ** Contents *)

(** System messages by type; [user_msg] is any other message, [stream_...]
    carry flow IDs. *)
Inductive content :=
| sys_get (is_info : bool)                         (* (sys_atom, get_atom, key) *)
| ok_info                                          (* the reply to it *)
| exit_msg (source : Z) (reason : error)
| down_msg (source : Z) (reason : error)
| node_down_msg (node : Z) (reason : error)
| error_msg (e : error)
| timeout_msg (id : Z)
| action_msg (a : Z)
| stream_open_msg (id sink sink_flow_id : Z)
| stream_demand_msg (source_flow_id demand : Z)
| stream_cancel_msg (source_flow_id : Z)
| stream_ack_msg (source sink_flow_id source_flow_id max_items_per_batch : Z)
| stream_batch_msg (sink_flow_id batch : Z)
| stream_close_msg (sink_flow_id : Z)
| stream_abort_msg (sink_flow_id : Z) (reason : error)
| empty_msg
| user_msg (n : Z).

#[export] Instance content_eq_dec : EqDecision content.
Proof. solve_decision. Defined.

Abbreviation element := (mailbox_element content).

Definition set_mid (x : element) (m : MessageId.message_id) : element := mk_element (sender x) m (payload x).

(** The codes of [sec] the runtime sends. *)
Definition sec_unexpected_message : error := sec 1.
Definition sec_unexpected_response : error := sec 2.
Definition sec_request_receiver_down : error := sec 3.
Definition sec_request_timeout : error := sec 4.
Definition sec_unsupported_sys_key : error := sec 9.
Definition sec_invalid_stream : error := sec 30.
Definition sec_broken_promise : error := sec 66.
Definition sec_disposed : error := sec 71.

(** A mailbox element on its way to [receiver]. *)
Record mail := mk_mail { receiver : Z; item : element }.

Section Local.

(** The address of the actor; [0] is the null handle. *)
Context (self : Z).

(** ** IDs *)

Definition new_request_id (high : bool) (last : MessageId.message_id)
  : MessageId.message_id * MessageId.message_id :=
  let result := MessageId.incr last in
  (if high then MessageId.with_high_priority result else result, result).

Definition new_u64_id (last : MessageId.message_id) : Z * MessageId.message_id :=
  let result := MessageId.incr last in (MessageId.integer_value result, result).

(** ** Response promises *)

Definition requires_response (m : MessageId.message_id) : bool :=
  negb (MessageId.is_response m) && negb (MessageId.is_answered m).

Definition has_response_receiver (x : element) : bool := negb (sender x =? 0).

(** [response_promise::state]; [owner] is the pointer [self] of the source,
    null once the promise was fulfilled.  Copies of a promise share the state
    and count their references. *)
Record promise_state := mk_promise {
  owner : Z;
  source : Z;
  id : MessageId.message_id;
  ref_count : Z;
}.

Definition cancel (p : promise_state) : promise_state := mk_promise 0 (source p) (id p) (ref_count p).

Definition is_empty (c : content) : bool := match c with empty_msg => true | _ => false end.

Definition deliver_impl (c : content) (p : promise_state) : list mail * promise_state :=
  ((if is_empty c && MessageId.is_async (id p) then []
    else if negb (source p =? 0)
    then [mk_mail (source p) (mk_element (owner p) (MessageId.response_id (id p)) c)]
    else []), cancel p).

Definition delegate_impl (target : Z) (c : content) (p : promise_state) : list mail * promise_state :=
  if negb (target =? 0) then
    ([mk_mail target (mk_element (source p) (id p) c)], cancel (mk_promise (owner p) 0 (id p) (ref_count p)))
  else ([], cancel p).

(** The destructor of the state. *)
Definition destroy_promise (p : promise_state) : list mail :=
  if negb (owner p =? 0) && negb (source p =? 0) then
    [mk_mail (source p) (mk_element (owner p) (MessageId.response_id (id p)) (error_msg sec_broken_promise))]
  else [].

Definition add_ref (p : promise_state) : promise_state :=
  mk_promise (owner p) (source p) (id p) (ref_count p + 1).

(** [intrusive_ptr_release]: the last reference runs the destructor. *)
Definition release_state (p : promise_state) : list mail * promise_state :=
  let p' := mk_promise (owner p) (source p) (id p) (ref_count p - 1) in
  (if ref_count p' =? 0 then destroy_promise p' else [], p').

Definition pending (p : promise_state) : bool := negb (owner p =? 0).

(** A pending promise does its work and then resets its own handle; one that is
    not pending does nothing and keeps its state ([None]). *)
Definition settle (impl : promise_state -> list mail * promise_state) (p : promise_state)
  : option (list mail * promise_state) :=
  if pending p then
    let (ms, p1) := impl p in
    let (ms', p2) := release_state p1 in Some (ms ++ ms', p2)
  else None.

Definition deliver (c : content) (p : promise_state) : option (list mail * promise_state) :=
  settle (deliver_impl c) p.

Definition delegate (high : bool) (target : Z) (c : content) (p : promise_state)
  : option (list mail * promise_state) :=
  settle (fun p => delegate_impl target c
    (if high then mk_promise (owner p) (source p) (MessageId.with_high_priority (id p)) (ref_count p) else p)) p.

(** The messages sent by one of these calls on a handle. *)
Definition mails_of (r : option (list mail * promise_state)) : list mail :=
  match r with Some (ms, _) => ms | None => [] end.

(** [response_promise(self, src)]: takes the sender out of the element; [None]
    is a handle without state. *)
Definition make_promise (x : element) : option promise_state * element :=
  let x' := mk_element 0 (mid x) (payload x) in
  if requires_response (mid x) then (Some (mk_promise self (sender x) (mid x) 1), x') else (None, x').

(** [local_actor::make_response_promise] on the current element. *)
Definition make_response_promise (x : element) : option promise_state * element :=
  if negb (MessageId.is_answered (mid x)) then
    let (p, x') := make_promise x in (p, set_mid x' (MessageId.mark_as_answered (mid x')))
  else (None, x).

(** [respond_to]: the temporary state is destroyed when the call returns. *)
Definition respond_to (x : element) (c : content) : list mail * element :=
  if requires_response (mid x) && has_response_receiver x then
    let (ms, tmp) := deliver_impl c (mk_promise self (sender x) (mid x) 1) in
    (ms ++ destroy_promise tmp, mk_element 0 (MessageId.mark_as_answered (mid x)) (payload x))
  else ([], x).

(** [sync_request_bouncer::operator()] with its reason. *)
Definition bounce_with (reason : error) (x : element) : list mail :=
  if negb (sender x =? 0) && MessageId.is_request (mid x) then
    [mk_mail (sender x) (mk_element 0 (MessageId.response_id (mid x)) (error_msg reason))]
  else [].

(** [local_actor::do_delegate_error]. *)
Definition do_delegate_error (x : element) : list mail * element :=
  if (sender x =? 0) || MessageId.is_response (mid x) || MessageId.is_answered (mid x) then ([], x)
  else ([mk_mail (sender x) (mk_element self (MessageId.response_id (mid x)) (error_msg (sec 75)))],
        set_mid x (MessageId.mark_as_answered (mid x))).

(** ** Stashing *)

(** [mail_cache]; the intrusive stack has its top first. *)
Record mail_cache := mk_cache { max_size_ : Z; size_ : Z; elements_ : list element }.

Definition make_cache (max_size : Z) : mail_cache := mk_cache max_size 0 [].

(** [None] is the exception of a full cache; the second result is the current
    element, whose ID counts as answered from now on. *)
Definition stash (c : content) (x : element) (m : mail_cache) : option (mail_cache * element) :=
  if size_ m =? max_size_ m then None
  else Some (mk_cache (max_size_ m) (size_ m + 1) (mk_element (sender x) (mid x) c :: elements_ m),
             set_mid x (MessageId.mark_as_answered (mid x))).

(** The loop of [unstash] with the [push_front] of the owner's mailbox. *)
Fixpoint unstash_loop {M} (push_front : element -> M -> option M) (xs : list element) (m : M) : option M :=
  match xs with
  | [] => Some m
  | x :: xs' => m' ← push_front x m; unstash_loop push_front xs' m'
  end.

Definition unstash {M} (push_front : element -> M -> option M) (m : mail_cache) (box : M)
  : option (mail_cache * M) :=
  box' ← unstash_loop push_front (elements_ m) box;
  Some (mk_cache (max_size_ m) 0 [], box').

(** The destructor; [dying] tells that the actor is shutting down. *)
Definition destroy_cache (dying : bool) (m : mail_cache) : list mail :=
  if size_ m =? 0 then []
  else flat_map (bounce_with (if dying then sec_request_receiver_down else sec_disposed)) (elements_ m).

(** ** One response per request *)

(** The element that is being processed, the states of the promises made for
    it, the handles user code holds on them ([None] is a handle without state)
    and everything sent so far. *)
Record exchange := mk_exchange {
  current : element;
  states : list promise_state;
  handles : list (option nat);
  outbox : list mail;
}.

(** What a handler may do about its response. *)
Inductive respond_op :=
| op_respond (c : content)
| op_make_promise
| op_copy (i : nat)
| op_deliver (i : nat) (c : content)
| op_delegate (i : nat) (high : bool) (target : Z) (c : content)
| op_destroy (i : nat).

(** A call on handle [i] that ends with the handle giving up its reference;
    [None] leaves everything as it is. *)
Definition on_handle (i : nat) (f : promise_state -> option (list mail * promise_state)) (e : exchange)
  : exchange :=
  match handles e !! i with
  | Some (Some j) =>
      match st ← states e !! j; f st with
      | Some (ms, st) =>
          mk_exchange (current e) (<[j := st]> (states e)) (<[i := None]> (handles e)) (outbox e ++ ms)
      | None => e
      end
  | _ => e
  end.

Definition copy_handle (i : nat) (e : exchange) : exchange :=
  match handles e !! i with
  | Some (Some j) =>
      mk_exchange (current e) (alter add_ref j (states e)) (handles e ++ [Some j]) (outbox e)
  | _ => mk_exchange (current e) (states e) (handles e ++ [None]) (outbox e)
  end.

Definition do_respond_op (e : exchange) (o : respond_op) : exchange :=
  match o with
  | op_respond c =>
      let (ms, x) := respond_to (current e) c in mk_exchange x (states e) (handles e) (outbox e ++ ms)
  | op_make_promise =>
      match make_response_promise (current e) with
      | (Some st, x) => mk_exchange x (states e ++ [st]) (handles e ++ [Some (length (states e))]) (outbox e)
      | (None, x) => mk_exchange x (states e) (handles e ++ [None]) (outbox e)
      end
  | op_copy i => copy_handle i e
  | op_deliver i c => on_handle i (deliver c) e
  | op_delegate i high target c => on_handle i (delegate high target c) e
  | op_destroy i => on_handle i (fun st => Some (release_state st)) e
  end.

Definition owes_element (x : element) : Z :=
  if requires_response (mid x) && has_response_receiver x then 1 else 0.

(** A live state owes a response until it is fulfilled. *)
Definition owes_state (st : promise_state) : Z :=
  if negb (ref_count st =? 0) && negb (owner st =? 0) && negb (source st =? 0) then 1 else 0.

Fixpoint owed (ps : list promise_state) : Z :=
  match ps with [] => 0 | p :: ps' => owes_state p + owed ps' end.

(** Delegating to an invalid handle loses the response. *)
Definition is_lossy (o : respond_op) : bool :=
  match o with op_delegate _ _ target _ => target =? 0 | _ => false end.

(** The messages that settle the request [x]: a response to its sender, or the
    request itself on its way to another actor. *)
Definition settles (x : element) (m : mail) : Prop :=
  (receiver m = sender x /\ mid (item m) = MessageId.response_id (mid x)) \/
  (receiver m <> 0 /\ sender (item m) = sender x /\
   (mid (item m) = mid x \/ mid (item m) = MessageId.with_high_priority (mid x))).

(** The number of handles on state [j]. *)
Definition refs (j : nat) (hs : list (option nat)) : Z := zlen (filter (fun h => h = Some j) hs).

Lemma refs_app j hs ks : refs j (hs ++ ks) = refs j hs + refs j ks.
Proof. unfold refs. by rewrite filter_app, zlen_app. Qed.

Lemma refs_one j h : refs j [h] = if decide (h = Some j) then 1 else 0.
Proof. unfold refs. rewrite filter_cons, filter_nil. by case_decide. Qed.

Lemma refs_drop j i k hs :
  hs !! i = Some (Some k) -> refs j (<[i := None]> hs) = refs j hs - if decide (j = k) then 1 else 0.
Proof.
  intros Hi. rewrite <- (take_drop_middle hs i (Some k) Hi) at 2.
  rewrite insert_take_drop by (by eapply lookup_lt_Some). 
  change (None :: drop (S i) hs) with ([None] ++ drop (S i) hs).
  change (Some k :: drop (S i) hs) with ([Some k] ++ drop (S i) hs).
  rewrite !refs_app, !refs_one. repeat case_decide; naive_solver lia.
Qed.

Lemma refs_in i j hs : hs !! i = Some (Some j) -> 0 < refs j hs.
Proof.
  intros Hi. rewrite <- (take_drop_middle hs i (Some j) Hi).
  change (Some j :: drop (S i) hs) with ([Some j] ++ drop (S i) hs).
  rewrite !refs_app, refs_one, decide_True by done. unfold refs.
  pose proof (zlen_nonneg (filter (fun h => h = Some j) (take i hs))).
  pose proof (zlen_nonneg (filter (fun h => h = Some j) (drop (S i) hs))). lia.
Qed.

Lemma refs_none j hs : Forall (fun h => h = None) hs -> refs j hs = 0.
Proof.
  intros H. unfold refs. induction H as [|h hs -> _ IH]; [done|]. rewrite filter_cons.
  by rewrite decide_False.
Qed.

Lemma owed_app ps qs : owed (ps ++ qs) = owed ps + owed qs.
Proof. induction ps as [|p ps IH]; simpl; lia. Qed.

Lemma owed_insert i p q ps : ps !! i = Some p -> owed (<[i := q]> ps) = owed ps - owes_state p + owes_state q.
Proof.
  revert i. induction ps as [|r ps IH]; intros [|i]; simpl; try done.
  - intros [= <-]. lia.
  - intros H. rewrite (IH _ H). lia.
Qed.

Lemma owed_alter f i p ps : ps !! i = Some p -> owed (alter f i ps) = owed ps - owes_state p + owes_state (f p).
Proof.
  revert i. induction ps as [|r ps IH]; intros [|i]; simpl; try done.
  - intros [= <-]. lia.
  - intros H. specialize (IH _ H). change (owes_state r + owed (alter f i ps) = owes_state r + owed ps - owes_state p + owes_state (f p)). lia.
Qed.

Lemma owed_nonneg ps : 0 <= owed ps.
Proof.
  induction ps as [|p ps IH]; simpl; [lia|]. unfold owes_state. destruct (_ && _); lia.
Qed.

Lemma owed_dead ps : (forall j st, ps !! j = Some st -> ref_count st = 0) -> owed ps = 0.
Proof.
  induction ps as [|p ps IH]; intros H; [done|]. simpl. rewrite IH by (intros j st; apply (H (S j))).
  unfold owes_state. by rewrite (H 0%nat p eq_refl).
Qed.

Lemma answered_marked m : MessageId.is_answered (MessageId.mark_as_answered m) = true.
Proof.
  rewrite MessageId.is_answered_bit. unfold MessageId.answered_bit, MessageId.mark_as_answered. cbn [MessageId.value_].
  rewrite Z.lor_spec. apply orb_true_r.
Qed.

Lemma marked_owes x m c : owes_element (mk_element x (MessageId.mark_as_answered m) c) = 0.
Proof. unfold owes_element, requires_response. cbn [mid]. by rewrite answered_marked, andb_false_r. Qed.

Lemma request_not_async m : MessageId.is_request m = true -> MessageId.is_async m = false.
Proof.
  unfold MessageId.is_request, MessageId.is_async. intros [H _]%andb_true_iff.
  destruct (Z.eqb_spec (MessageId.value_ m) 0) as [E|_]; [by rewrite E in H|].
  destruct (Z.eqb_spec (MessageId.value_ m) MessageId.default_async_value) as [E|_]; [by rewrite E in H|done].
Qed.

(** A promise that is not fulfilled knows whom to answer. *)
Definition state_ok (x : element) (st : promise_state) : Prop :=
  owner st = 0 \/ (source st = sender x /\ id st = mid x).

Definition balance (e : exchange) : Z := zlen (outbox e) + owes_element (current e) + owed (states e).

(** The exchange for the request [x]. *)
Record exchange_ok (x : element) (e : exchange) : Prop := {
  ok_current : MessageId.is_answered (mid (current e)) = true \/
    (mid (current e) = mid x /\ sender (current e) = sender x);
  ok_states : Forall (state_ok x) (states e);
  ok_refs : forall j st, states e !! j = Some st -> ref_count st = refs j (handles e);
  ok_dangling : forall j, (length (states e) <= j)%nat -> refs j (handles e) = 0;
  ok_outbox : Forall (settles x) (outbox e);
  ok_balance : balance e = 1;
}.

Section Request.

Context (x : element) (Hself : self <> 0) (Hx : sender x <> 0).
Context (Hm : MessageId.is_async (mid x) = false) (Hr : MessageId.is_response (mid x) = false).

(** What a call on a handle may do: it gives up one reference, keeps the state
    well-formed and trades what the state owes for a message. *)
Definition gives_up (f : promise_state -> option (list mail * promise_state)) : Prop :=
  forall st ms st', state_ok x st -> 0 < ref_count st -> f st = Some (ms, st') ->
    ref_count st' = ref_count st - 1 /\ state_ok x st' /\ Forall (settles x) ms /\
    zlen ms + owes_state st' = owes_state st.

Lemma on_handle_ok i f e : gives_up f -> exchange_ok x e -> exchange_ok x (on_handle i f e).
Proof.
  intros Hf [Hc Hs Hrf Hd Ho Hb]. unfold on_handle.
  destruct (handles e !! i) as [[j|]|] eqn:Ei; [|done|done].
  destruct (states e !! j) as [st|] eqn:Ej; [|done]. cbn [mbind option_bind].
  destruct (f st) as [[ms st']|] eqn:Ef; [|done].
  pose proof (Forall_lookup_1 _ _ _ _ Hs Ej) as Hst. pose proof (refs_in _ _ _ Ei) as Hpos.
  rewrite <- (Hrf _ _ Ej) in Hpos. destruct (Hf _ _ _ Hst Hpos Ef) as (H1 & H2 & H3 & H4).
  split; cbn [current states handles outbox]; [done|by apply Forall_insert| | | |].
  - intros k st1. rewrite (refs_drop _ _ _ _ Ei). destruct (decide (k = j)) as [->|Hne].
    + rewrite list_lookup_insert_eq by (by eapply lookup_lt_Some). intros [= <-]. rewrite H1, (Hrf _ _ Ej). lia.
    + rewrite list_lookup_insert_ne by done. intros Hk. rewrite (Hrf _ _ Hk). lia.
  - intros k Hk. rewrite length_insert in Hk. rewrite (refs_drop _ _ _ _ Ei), Hd by done.
    rewrite decide_False; [lia|]. intros ->. apply lookup_lt_Some in Ej. lia.
  - by apply Forall_app.
  - unfold balance in *. cbn [current states handles outbox]. rewrite zlen_app, (owed_insert _ _ _ _ Ej). lia.
Qed.

Lemma release_gives_up : gives_up (fun st => Some (release_state st)).
Proof.
  intros st ms st' Hst Hpos [= <- <-]. cbn [ref_count]. split; [done|]. split; [exact Hst|].
  unfold destroy_promise, owes_state. cbn [owner source id ref_count].
  rewrite (proj2 (Z.eqb_neq (ref_count st) 0)) by lia.
  destruct (Z.eqb_spec (ref_count st - 1) 0); cbn [negb andb]; [|split; [constructor|by rewrite zlen_nil]].
  destruct (Z.eqb_spec (owner st) 0), (Z.eqb_spec (source st) 0); cbn [negb andb];
    (split; [|done]); try constructor; [|constructor].
  left. cbn. destruct Hst as [?|[-> ->]]; done.
Qed.

(** Whatever is sent by a fulfilled state, its destructor stays silent. *)
Lemma settle_gives_up impl :
  (forall st, owner st <> 0 -> source st = sender x -> id st = mid x ->
     exists m, (impl st).1 = [m] /\ settles x m /\ owner (impl st).2 = 0 /\ ref_count (impl st).2 = ref_count st) ->
  gives_up (settle impl).
Proof.
  intros Hi st ms st' Hst Hpos. unfold settle, pending.
  destruct (Z.eqb_spec (owner st) 0) as [|Hown]; cbn [negb]; [done|].
  destruct Hst as [?|[Hsrc Hid]]; [done|]. destruct (Hi st Hown Hsrc Hid) as (m & E1 & H1 & H2 & H3).
  destruct (impl st) as [ms1 st1]. cbn [fst snd] in *. subst ms1. unfold release_state. intros [= <- <-].
  cbn [ref_count]. rewrite H3. split; [done|]. split; [left; exact H2|].
  unfold destroy_promise, owes_state. cbn [owner source id ref_count]. rewrite H2, Z.eqb_refl, Hsrc.
  rewrite (proj2 (Z.eqb_neq (ref_count st) 0)), (proj2 (Z.eqb_neq (owner st) 0)), (proj2 (Z.eqb_neq (sender x) 0)) by (done || lia).
  cbn [negb andb]. rewrite andb_false_r.
  destruct (_ =? 0); cbn [negb andb app]; (split; [constructor; [exact H1|constructor]|done]).
Qed.

Lemma deliver_gives_up c : gives_up (deliver c).
Proof.
  apply settle_gives_up. intros st Ho Hs Hi. unfold deliver_impl. rewrite Hi, Hm, andb_false_r, Hs.
  rewrite (proj2 (Z.eqb_neq _ _)) by done. eexists. split; [done|]. split; [by left|done].
Qed.

Lemma delegate_gives_up high target c : target <> 0 -> gives_up (delegate high target c).
Proof.
  intros Ht. apply settle_gives_up. intros st Ho Hs Hi. unfold delegate_impl.
  rewrite (proj2 (Z.eqb_neq target 0)) by done. cbn [negb].
  eexists. split; [done|]. split; [|by destruct high]. right. cbn. destruct high; cbn; rewrite Hi; auto.
Qed.

Lemma respond_ok c e : exchange_ok x e -> exchange_ok x (do_respond_op e (op_respond c)).
Proof.
  intros [Hc Hs Hrf Hd Ho Hb]. cbn [do_respond_op]. unfold respond_to.
  destruct (requires_response (mid (current e)) && has_response_receiver (current e)) eqn:E.
  - destruct Hc as [Hc|[Hmid Hsnd]].
    { unfold requires_response in E. by rewrite Hc, andb_false_r in E. }
    unfold deliver_impl. cbn [id source owner cancel]. rewrite Hmid, Hsnd, Hm, andb_false_r.
    rewrite (proj2 (Z.eqb_neq _ _)) by done. cbn [negb destroy_promise owner cancel Z.eqb andb app].
    split; cbn [current states handles outbox]; try done.
    + left. apply answered_marked.
    + apply Forall_app. split; [done|]. repeat constructor.
    + unfold balance in *. cbn [current states handles outbox]. rewrite marked_owes, zlen_app.
      unfold owes_element in Hb. rewrite E in Hb. unfold zlen in *. simpl. lia.
  - rewrite app_nil_r. by split.
Qed.

Lemma make_promise_ok e : exchange_ok x e -> exchange_ok x (do_respond_op e op_make_promise).
Proof.
  intros [Hc Hs Hrf Hd Ho Hb]. cbn [do_respond_op]. unfold make_response_promise.
  assert (forall j, refs j (handles e ++ [None]) = refs j (handles e)) as Hn.
  { intros j. rewrite refs_app, refs_one, decide_False by done. lia. }
  destruct (MessageId.is_answered (mid (current e))) eqn:Ea; cbn [negb].
  - split; cbn [current states handles outbox]; try done; [by left|..]; intros j; rewrite Hn; auto.
  - destruct Hc as [Hc|[Hmid Hsnd]]; [congruence|]. unfold make_promise, requires_response.
    rewrite Ea, Hmid, Hr, Hsnd. cbn [negb andb]. unfold set_mid. cbn [sender mid payload].
    assert (forall j, refs j (handles e ++ [Some (length (states e))])
      = refs j (handles e) + if decide (j = length (states e)) then 1 else 0) as Hn'.
    { intros j. rewrite refs_app, refs_one. repeat case_decide; naive_solver lia. }
    split; cbn [current states handles outbox].
    + left. apply answered_marked.
    + apply Forall_app. split; [done|]. constructor; [by right|constructor].
    + intros j st. rewrite Hn'. intros [Hj|[Hj Hl]]%lookup_app_Some.
      * rewrite (Hrf _ _ Hj), decide_False; [lia|]. apply lookup_lt_Some in Hj. lia.
      * apply list_lookup_singleton_Some in Hl as [Hz <-]. cbn [ref_count].
        rewrite decide_True by lia. rewrite Hd by lia. lia.
    + intros j Hj. rewrite length_app in Hj. simpl in Hj. rewrite Hn', Hd, decide_False by lia. lia.
    + done.
    + unfold balance in *. cbn [current states handles outbox]. rewrite marked_owes, owed_app. cbn [owed].
      unfold owes_state. cbn [ref_count owner source].
      unfold owes_element, requires_response, has_response_receiver in Hb.
      rewrite Ea, Hmid, Hr, Hsnd, !(proj2 (Z.eqb_neq _ _)) in * by done. simpl in *. lia.
Qed.

Lemma copy_ok i e : exchange_ok x e -> exchange_ok x (copy_handle i e).
Proof.
  intros [Hc Hs Hrf Hd Ho Hb]. unfold copy_handle.
  assert (forall j, refs j (handles e ++ [None]) = refs j (handles e)) as Hn.
  { intros j. rewrite refs_app, refs_one, decide_False by done. lia. }
  destruct (handles e !! i) as [[j|]|] eqn:Ei;
    [|split; cbn [current states handles outbox]; try done; intros k; rewrite Hn; auto..].
  assert (exists st, states e !! j = Some st) as [st Ej].
  { apply lookup_lt_is_Some. apply Nat.nle_gt. intros Hj. pose proof (refs_in _ _ _ Ei). rewrite Hd in H by done. lia. }
  pose proof (refs_in _ _ _ Ei) as Hpos.
  assert (forall k, refs k (handles e ++ [Some j]) = refs k (handles e) + if decide (k = j) then 1 else 0) as Hn'.
  { intros k. rewrite refs_app, refs_one. repeat case_decide; naive_solver lia. }
  split; cbn [current states handles outbox].
  - done.
  - apply Forall_alter; [done|]. by intros st' _ H.
  - intros k st'. rewrite Hn'. destruct (decide (k = j)) as [->|Hne].
    + rewrite list_lookup_alter_eq, Ej. intros [= <-]. cbn. by rewrite (Hrf _ _ Ej).
    + rewrite list_lookup_alter_ne by done. intros Hk. rewrite (Hrf _ _ Hk). lia.
  - intros k Hk. rewrite length_alter in Hk. rewrite Hn', Hd, decide_False; [lia| |done].
    intros ->. apply lookup_lt_Some in Ej. lia.
  - done.
  - unfold balance in *. cbn [current states handles outbox].
    rewrite (owed_alter _ _ _ _ Ej). unfold owes_state at 1 2. cbn [add_ref ref_count owner source].
    rewrite (Hrf _ _ Ej), (proj2 (Z.eqb_neq (refs j (handles e)) 0)), (proj2 (Z.eqb_neq (refs j (handles e) + 1) 0)) by lia. lia.
Qed.

Lemma respond_op_ok o e : is_lossy o = false -> exchange_ok x e -> exchange_ok x (do_respond_op e o).
Proof.
  intros Hl He. destruct o as [c| |i|i c|i high target c|i].
  - by apply respond_ok.
  - by apply make_promise_ok.
  - by apply copy_ok.
  - by apply on_handle_ok; [apply deliver_gives_up|].
  - apply on_handle_ok; [|done]. apply delegate_gives_up. by apply Z.eqb_neq.
  - by apply on_handle_ok; [apply release_gives_up|].
Qed.

End Request.

(** C4. A request is answered exactly once.  Whatever a handler does with a
    request that has a sender and was not answered yet, returning values,
    making promises, copying, fulfilling, delegating or destroying them, in any
    order and any number of times, as long as it does not delegate to an
    invalid handle: there is exactly one message sent or one party left that
    still owes it, never both and never two.  Every message sent is a response
    to the sender with the ID that answers the request, or the request itself
    forwarded in the name of its sender.  Once the element counts as answered
    and all handles on promises are gone, exactly one message was sent: a
    promise that was never fulfilled is answered by the destructor of its
    state. *)
Theorem request_answered_once x ops :
  self <> 0 -> sender x <> 0 -> MessageId.is_request (mid x) = true -> requires_response (mid x) = true ->
  Forall (fun o => is_lossy o = false) ops ->
  let e := fold_left do_respond_op ops (mk_exchange x [] [] []) in
  zlen (outbox e) + owes_element (current e) + owed (states e) = 1 /\
  Forall (settles x) (outbox e) /\
  (owes_element (current e) = 0 -> Forall (fun h => h = None) (handles e) -> exists m, outbox e = [m]).
Proof.
  intros Hself Hs Hreq Hneed Hops e.
  assert (MessageId.is_async (mid x) = false /\ MessageId.is_response (mid x) = false) as [Ha Hr].
  { unfold requires_response in Hneed. apply andb_true_iff in Hneed as [Hn _]. split; [|by apply negb_true_iff].
    by apply request_not_async. }
  assert (exchange_ok x e) as [_ _ Hrf _ Ho Hb].
  { unfold e. clear e. assert (exchange_ok x (mk_exchange x [] [] [])) as He.
    { split; try done; [by right|]. unfold balance, owes_element, has_response_receiver.
      cbn [outbox current states owed]. by rewrite Hneed, (proj2 (Z.eqb_neq _ _) Hs). }
    revert He. generalize (mk_exchange x [] [] []). induction Hops as [|o ops Ho Hops IH]; intros e He; [done|].
    apply IH. by apply respond_op_ok. }
  split_and!; [exact Hb|done|]. intros H0 Hh. unfold balance in Hb. rewrite H0, owed_dead in Hb.
  - destruct (outbox e) as [|m [|m' ms]]; [done|by exists m|].
    rewrite !zlen_cons in Hb. pose proof (zlen_nonneg ms). lia.
  - intros j st Hj. rewrite (Hrf _ _ Hj). by apply refs_none.
Qed.

(** ** Stashed messages keep their order *)

Lemma unstash_loop_spec {M} `{MailboxLaws content M} xs m v :
  shows m v -> mode_of v = awake ->
  exists m', unstash_loop AbstractMailbox.push_front xs m = Some m' /\ shows m' (restore xs v).
Proof.
  revert m v. induction xs as [|x xs IH]; intros m v Hs Hm; [eauto|]. cbn [unstash_loop].
  destruct (push_front_law m v x Hs Hm) as (m' & -> & Hs'). cbn [mbind option_bind].
  destruct (IH m' _ Hs') as (m2 & -> & Hs2); [by rewrite mode_cons|]. rewrite restore_cons. eauto.
Qed.

(** Stashing the contents of one message after another. *)
Fixpoint stash_all (xs : list element) (c : mail_cache) : option mail_cache :=
  match xs with
  | [] => Some c
  | x :: xs' => '(c', _) ← stash (payload x) x c; stash_all xs' c'
  end.

Lemma stash_all_spec xs c :
  0 <= size_ c -> zlen xs + size_ c <= max_size_ c ->
  stash_all xs c = Some (mk_cache (max_size_ c) (size_ c + zlen xs) (reverse xs ++ elements_ c)).
Proof.
  revert c. induction xs as [|x xs IH]; intros c H0 Hmax; cbn [stash_all].
  - destruct c. simpl. by rewrite zlen_nil, Z.add_0_r.
  - rewrite zlen_cons in *. pose proof (zlen_nonneg xs). unfold stash.
    rewrite (proj2 (Z.eqb_neq _ _)) by lia. cbn [mbind option_bind].
    rewrite IH by (simpl; lia). cbn [size_ max_size_ elements_]. do 2 f_equal; [lia|].
    rewrite reverse_cons, <- app_assoc. by destruct x.
Qed.

(** Stashing preserves order and loses nothing.  A cache of sufficient
    size takes any sequence of messages, and one message more than its maximum
    raises; unstashing puts all of them, with their senders and IDs, back in
    front of the mailbox in the order in which they were stashed, for each
    priority, and leaves the cache empty; destroying the cache instead sends
    each waiting requester exactly one error. *)
Theorem stash_unstash {M} `{MailboxLaws content M} xs (m : M) v n :
  zlen xs <= n -> shows m v -> mode_of v = awake ->
  exists c, stash_all xs (make_cache n) = Some c /\
    (zlen xs = n -> forall x, stash (payload x) x c = None) /\
    (exists m' v', unstash AbstractMailbox.push_front c m = Some (make_cache n, m') /\ shows m' v' /\
       mode_of v' = awake /\
       urgent_msgs v' = of_prio true xs ++ urgent_msgs v /\ normal_msgs v' = of_prio false xs ++ normal_msgs v) /\
    (forall dying, destroy_cache dying c
       ≡ₚ flat_map (bounce_with (if dying then sec_request_receiver_down else sec_disposed)) xs).
Proof.
  intros Hn Hs Hm. rewrite stash_all_spec by (simpl; lia). eexists. split; [done|].
  cbn [max_size_ size_ elements_ make_cache]. rewrite app_nil_r. split; [|split].
  - intros Hmax x. unfold stash. cbn [max_size_ size_]. by rewrite (proj2 (Z.eqb_eq _ _)) by lia.
  - destruct (unstash_loop_spec (reverse xs) m v Hs Hm) as (m' & E & Hs').
    unfold unstash. cbn [elements_ max_size_]. rewrite E. cbn [mbind option_bind].
    exists m', (restore (reverse xs) v). split; [done|]. split; [done|]. rewrite mode_restore.
    destruct (restore_lanes (reverse xs) v) as [-> ->]. by rewrite reverse_involutive.
  - intros dying. unfold destroy_cache. cbn [size_ elements_]. destruct (Z.eqb_spec (0 + zlen xs) 0) as [E|E].
    + destruct xs; [done|]. rewrite zlen_cons in E. pose proof (zlen_nonneg xs). lia.
    + apply Permutation_flat_map, reverse_Permutation.
Qed.

End Local.

(** ** Concrete instances *)

Definition demo_request : element := mk_element 7 (MessageId.make_normal 1) (user_msg 5).

(** A copied promise that is fulfilled twice, and a return value on top. *)
Lemma request_answered_once_witness :
  exists m, outbox (fold_left (do_respond_op 3) [op_make_promise; op_copy 0; op_deliver 1 (user_msg 1);
    op_deliver 0 (user_msg 2); op_respond (user_msg 3); op_destroy 0] (mk_exchange demo_request [] [] [])) = [m].
Proof.
  apply (request_answered_once 3 demo_request); [done|done|reflexivity|reflexivity|by repeat constructor| |].
  - reflexivity.
  - by repeat constructor.
Defined.

(** A promise that is only copied and dropped: its destructor answers. *)
Example broken_promise_answered :
  outbox (fold_left (do_respond_op 3) [op_make_promise; op_copy 0; op_destroy 0; op_destroy 1]
    (mk_exchange demo_request [] [] []))
  = [mk_mail 7 (mk_element 3 (MessageId.response_id (MessageId.make_normal 1)) (error_msg sec_broken_promise))].
Proof. reflexivity. Qed.

Lemma stash_unstash_witness :
  exists c m' v', stash_all [demo_request; demo_request] (make_cache 2) = Some c /\
    unstash (@AbstractMailbox.push_front _ _ demo_ops) c demo_box = Some (make_cache 2, m') /\
    normal_msgs v' = [demo_request; demo_request].
Proof.
  destruct (@stash_unstash (mailbox content) demo_ops demo_laws [demo_request; demo_request]
    demo_box (mk_view [] [] awake) 2) as (c & E & _ & (m' & v' & E2 & _ & _ & _ & H) & _).
  - vm_compute. discriminate.
  - apply demo_box_shows.
  - reflexivity.
  - exists c, m', v'. split; [exact E|]. split; [exact E2|exact H].
Defined.

End LocalActor.
