(* ===== verification/Effects.v ===== *)
(** * Effects

    Computations over explicit state that may raise an exception or get stuck,
    as the actors and the network transports use them, and relations between
    initial and final states that such computations respect. *)

From stdpp Require Import prelude.
From S2P Require Import Prelude.

Module Effects.

(** ** Computations *)

(** A call returns, raises an exception, or is stuck: undefined behaviour, or
    out of fuel. *)
Inductive outcome (S A : Type) :=
| Value (x : A) (s : S)
| Raised (eptr : Z) (s : S)
| Stuck.
Arguments Value {S A}.
Arguments Raised {S A}.
Arguments Stuck {S A}.

Definition comp (S A : Type) := S -> outcome S A.

#[export] Instance comp_ret {S} : MRet (comp S) := fun A x s => Value x s.

#[export] Instance comp_bind {S} : MBind (comp S) := fun A B k m s =>
  match m s with
  | Value x s' => k x s'
  | Raised e s' => Raised e s'
  | Stuck => Stuck
  end.

Definition raise {S A} (e : Z) : comp S A := fun s => Raised e s.
Definition stuck {S A} : comp S A := fun _ => Stuck.
Definition gets {S A} (f : S -> A) : comp S A := fun s => Value (f s) s.
Definition modify {S} (f : S -> S) : comp S unit := fun s => Value tt (f s).
Definition catch {S A} (m : comp S A) (h : Z -> comp S A) : comp S A := fun s =>
  match m s with
  | Raised e s' => h e s'
  | r => r
  end.

(** [for (auto& x : xs) f(x);] *)
Fixpoint for_each {S A} (f : A -> comp S unit) (xs : list A) : comp S unit :=
  match xs with
  | [] => mret tt
  | x :: xs' => f x;; for_each f xs'
  end.

(** Running a computation step by step. *)
Lemma run_gets {S A B} (f : S -> A) (k : A -> comp S B) s : (gets f ≫= k) s = k (f s) s.
Proof. done. Qed.

Lemma run_modify {S B} (f : S -> S) (k : unit -> comp S B) s : (modify f ≫= k) s = k tt (f s).
Proof. done. Qed.

Lemma run_ret {S A B} (x : A) (k : A -> comp S B) s : ((mret x : comp S A) ≫= k) s = k x s.
Proof. done. Qed.

Lemma run_value {S A B} (m : comp S A) (k : A -> comp S B) s x s' :
  m s = Value x s' -> (m ≫= k) s = k x s'.
Proof. unfold mbind, comp_bind. by intros ->. Qed.

Lemma bind_value {S A B} (m : comp S A) (k : A -> comp S B) s y s' :
  (m ≫= k) s = Value y s' -> exists x s1, m s = Value x s1 /\ k x s1 = Value y s'.
Proof. unfold mbind, comp_bind. destruct (m s) as [x s1|e s1|]; [eauto|done..]. Qed.

(** ** Relations that computations respect *)

Create HintDb keeps.

Section Keeps.

Context {S : Type} (R : S -> S -> Prop) `{!PreOrder R}.

(** However a computation ends, the final state is related to the initial one. *)
Definition keeps {A} (m : comp S A) : Prop :=
  forall s, match m s with Value _ s' | Raised _ s' => R s s' | Stuck => True end.

Lemma keeps_ret {A} (x : A) : keeps (mret x).
Proof. intros s. simpl. reflexivity. Qed.

Lemma keeps_bind {A B} (m : comp S A) (k : A -> comp S B) :
  keeps m -> (forall x, keeps (k x)) -> keeps (m ≫= k).
Proof.
  intros Hm Hk s. unfold mbind, comp_bind. specialize (Hm s). destruct (m s) as [x s'|e s'|]; [|done..].
  specialize (Hk x s'). destruct (k x s'); [by transitivity s'..|done].
Qed.

Lemma keeps_raise {A} e : keeps (raise e : comp S A).
Proof. intros s. simpl. reflexivity. Qed.

Lemma keeps_stuck {A} : keeps (stuck : comp S A).
Proof. done. Qed.

Lemma keeps_gets {A} (f : S -> A) : keeps (gets f).
Proof. intros s. simpl. reflexivity. Qed.

Lemma keeps_modify f : (forall s, R s (f s)) -> keeps (modify f).
Proof. intros H s. apply H. Qed.

Lemma keeps_catch {A} (m : comp S A) h : keeps m -> (forall e, keeps (h e)) -> keeps (catch m h).
Proof.
  intros Hm Hh s. unfold catch. specialize (Hm s). destruct (m s) as [x s'|e s'|]; [done| |done].
  specialize (Hh e s'). destruct (h e s'); [by transitivity s'..|done].
Qed.

Lemma keeps_for_each {A} (f : A -> comp S unit) xs : (forall x, keeps (f x)) -> keeps (for_each f xs).
Proof.
  intros Hf. induction xs as [|x xs IH]; [apply keeps_ret|]. cbn [for_each]. apply keeps_bind; [done|]. by intros _.
Qed.

End Keeps.

(** Takes a computation apart down to its atomic steps. *)
Ltac keeps_step :=
  first
    [ progress intros
    | solve [auto with keeps nocore]
    | simple apply keeps_bind; [apply _| |]
    | simple apply keeps_ret; apply _
    | simple apply keeps_gets; apply _
    | simple apply keeps_raise; apply _
    | simple apply keeps_stuck
    | simple apply keeps_for_each; [apply _|]
    | simple apply keeps_catch; [apply _| |]
    | match goal with
      | |- keeps _ (match ?x with _ => _ end) => destruct x
      | |- keeps _ (let (_, _) := ?x in _) => destruct x
      end ].

Ltac keeps := repeat keeps_step.

(** The same for one initial state. *)
Definition keeps_from {S} (R : S -> S -> Prop) {A} (m : comp S A) (s : S) : Prop :=
  match m s with Value _ s' | Raised _ s' => R s s' | Stuck => True end.

Lemma keeps_from_bind {S} (R : S -> S -> Prop) `{!PreOrder R} {A B} (m : comp S A) (k : A -> comp S B) s :
  keeps_from R m s -> (forall x s1, m s = Value x s1 -> keeps_from R (k x) s1) -> keeps_from R (m ≫= k) s.
Proof.
  unfold keeps_from, mbind, comp_bind. intros Hm Hk. destruct (m s) as [x s1|e s1|] eqn:E; [|done..].
  specialize (Hk x s1 eq_refl). destruct (k x s1); [by transitivity s1..|done].
Qed.

Lemma keeps_at {S} (R : S -> S -> Prop) {A} (m : comp S A) s : keeps R m -> keeps_from R m s.
Proof. intros H. exact (H s). Qed.

Lemma keeps_done {S} (R : S -> S -> Prop) {A} (m : comp S A) s x s' : keeps R m -> m s = Value x s' -> R s s'.
Proof. intros H E. specialize (H s). by rewrite E in H. Qed.

Lemma keeps_weaken {S} (R Q : S -> S -> Prop) {A} (m : comp S A) :
  (forall s s', R s s' -> Q s s') -> keeps R m -> keeps Q m.
Proof. intros H Hm s. specialize (Hm s). destruct (m s); eauto. Qed.

End Effects.
