(* ===== verification/ActorState.v ===== *)
(** * State of a scheduled actor (libcaf_core/caf/scheduled_actor.hpp,
      detail/behavior_stack.hpp)

    The members of [scheduled_actor], the calls it makes into code it does not
    own (behaviors, handlers, actions, flows), what such code may do to the
    actor in return, and one update function per member. *)

From stdpp Require Import gmap.
From S2P Require Import Prelude MessageId DefaultMailbox AbstractMailbox AbstractActor LocalActor.

Module ActorState.

Import DefaultMailbox AbstractMailbox LocalActor.
Import AbstractActor(error(..), kill).

(** Behaviors, actions and other closures are identified by numbers; [0] is an
    empty [behavior]. *)
Definition behavior := Z.
Definition action := Z.

(** ** Handlers *)

(** The free functions that serve as default handlers, or a user's. *)
Inductive default_handler :=
| print_and_drop
| reflect
| reflect_and_quit
| drop
| skip
| drop_after_quit
| user_default (h : Z).

(** [builtin] is the static member function of the class, [ignore] the
    template [silently_ignore]. *)
Inductive handler := builtin | ignore | user (h : Z).

(** ** Timeouts *)

Inductive timeout_mode := none | once_weak | once_strong | repeat_weak | repeat_strong | legacy.

#[export] Instance timeout_mode_eq_dec : EqDecision timeout_mode.
Proof. solve_decision. Defined.

(** [pending] holds the ID of the timer; [delay = None] is [infinite]. *)
Record timeout_state := mk_timeout {
  mode : timeout_mode;
  pending_timer : option Z;
  timer_id : Z;
  delay : option Z;
  idle_handler : option Z;
}.

(** A default-constructed state, also the result of [reset]. *)
Definition reset : timeout_state := mk_timeout none None 0 None None.

(** ** Streams *)

(** [batch_forwarder_impl]; [sub] tells whether [sub_] is valid. *)
Record forwarder := mk_forwarder { sink_hdl : Z; sink_flow_id : Z; sub : bool; had_error : bool }.

(** ** Calls into other code *)

Inductive callback :=
| call_behavior (b : behavior) (c : content)
| call_behavior_timeout (b : behavior)
| call_default (h : Z) (c : content)
| call_error (h : Z) (e : error)
| call_down (h source : Z) (reason : error)
| call_node_down (h node : Z) (reason : error)
| call_exit (h source : Z) (reason : error)
| call_exception (h eptr : Z)
| call_idle (h : Z)
| call_action (a : action)
| call_make_behavior
| call_on_exit
| call_subscribe (stream flow : Z)
| call_sub_request (flow n : Z)
| call_sub_cancel (flow : Z)
| call_sub_dispose (flow : Z)
| call_bridge_ack (flow source mipb : Z)
| call_bridge_push (flow batch : Z)
| call_bridge_drop (flow : Z) (reason : error)
| call_dispose (d : Z).

(** The value a message handler returns; [nothing] stands for response
    promises and delegations. *)
Inductive value := returns (c : content) | fails (e : error) | nothing.

Inductive reply :=
| no_match                     (* the message matches no handler *)
| matched (v : value)
| skips                        (* a default handler returned [skip] *)
| behaves (b : behavior)       (* make_behavior *)
| reports (e : error)          (* an exception handler *)
| finished
| threw (eptr : Z).

(** What other code may do to the actor while it is being called. *)
Inductive cmd :=
| do_quit (e : error)
| do_become (b : behavior) (discard_old : bool)
| do_unbecome
| do_send (receiver : Z) (high : bool) (c : content)
| do_request (receiver : Z) (high : bool) (timeout : option Z) (c : content) (awaited : bool) (b : behavior)
| do_call_error_handler (e : error)
| do_delay (a : action)
| do_schedule (a : action)
| do_watch (d : Z)
| do_set_default_handler (h : option default_handler)
| do_set_error_handler (h : option handler)
| do_set_down_handler (h : option handler)
| do_set_node_down_handler (h : option handler)
| do_set_exit_handler (h : option handler)
| do_set_exception_handler (h : option handler)
| do_set_idle_handler (d : option Z) (m : timeout_mode) (h : Z)
| do_make_promise (p : Z)
| do_deliver (p : Z) (c : content)
| do_destroy_promise (p : Z)
| do_to_stream (mipb : Z)
| do_deregister_stream (id : Z)
| do_register_flow (id : Z)
| do_drop_flow (id : Z)
| do_forwarder_subscribed (flow : Z)
| do_forwarder_next (flow batch : Z)
| do_forwarder_error (flow : Z) (e : error)
| do_forwarder_complete (flow : Z).

(** ** Effects on the rest of the system, in order *)

Inductive event :=
| observed (e : AbstractActor.event)
| sent (m : mail)
| bounced_response (b : bounced)
| scheduled
| unlinked (source : Z)
| printed
| timer_set (strong : bool) (id delay : Z)
| timer_disposed (id : Z)
| watch_functor (sink flow : Z)
| called (cb : callback).

(** ** Members *)

Record actor (M U : Type) := mk_actor {
  base : AbstractActor.actor;
  is_initialized : bool;
  is_shutting_down : bool;
  mailbox : M;
  stash_ : list element;   (* top first *)
  bhvrs : list behavior;   (* bhvr_stack_.elements_, back first *)
  erased : list behavior;   (* bhvr_stack_.erased_elements_ *)
  awaited_responses_ : list (MessageId.message_id * behavior * option Z);   (* front first *)
  multiplexed_responses_ : list (MessageId.message_id * (behavior * option Z));
  last_request_id_ : MessageId.message_id;
  default_handler_ : option default_handler;   (* empty while it runs *)
  error_handler_ : option handler;
  down_handler_ : option handler;
  node_down_handler_ : option handler;
  exit_handler_ : option handler;
  exception_handler_ : option handler;
  timeout_state_ : timeout_state;
  actions_ : list (option action);
  delayed_actions_this_run_ : Z;
  watched_disposables_ : list Z;
  stream_sources_ : gmap Z Z;   (* max_items_per_batch *)
  stream_subs_ : gset Z;
  forwarders : gmap Z forwarder;   (* by source_flow_id_ *)
  stream_bridges_ : gset Z;
  current_element_ : option element;
  promises : gmap Z promise_state;   (* held by user code *)
  user_state : U;
  trace : list event;   (* oldest first *)
}.
Arguments mk_actor {M U}.
Arguments base {M U}.
Arguments is_initialized {M U}.
Arguments is_shutting_down {M U}.
Arguments mailbox {M U}.
Arguments stash_ {M U}.
Arguments bhvrs {M U}.
Arguments erased {M U}.
Arguments awaited_responses_ {M U}.
Arguments multiplexed_responses_ {M U}.
Arguments last_request_id_ {M U}.
Arguments default_handler_ {M U}.
Arguments error_handler_ {M U}.
Arguments down_handler_ {M U}.
Arguments node_down_handler_ {M U}.
Arguments exit_handler_ {M U}.
Arguments exception_handler_ {M U}.
Arguments timeout_state_ {M U}.
Arguments actions_ {M U}.
Arguments delayed_actions_this_run_ {M U}.
Arguments watched_disposables_ {M U}.
Arguments stream_sources_ {M U}.
Arguments stream_subs_ {M U}.
Arguments forwarders {M U}.
Arguments stream_bridges_ {M U}.
Arguments current_element_ {M U}.
Arguments promises {M U}.
Arguments user_state {M U}.
Arguments trace {M U}.

Section Updates.

Context {M U : Type}.
#[local] Abbreviation actor := (actor M U).

Definition set_base (x : AbstractActor.actor) (s : actor) : actor :=
  mk_actor x (is_initialized s) (is_shutting_down s) (mailbox s) (stash_ s) (bhvrs s) (erased s)
    (awaited_responses_ s) (multiplexed_responses_ s) (last_request_id_ s) (default_handler_ s)
    (error_handler_ s) (down_handler_ s) (node_down_handler_ s) (exit_handler_ s)
    (exception_handler_ s) (timeout_state_ s) (actions_ s) (delayed_actions_this_run_ s)
    (watched_disposables_ s) (stream_sources_ s) (stream_subs_ s) (forwarders s) (stream_bridges_ s)
    (current_element_ s) (promises s) (user_state s) (trace s).
Definition set_is_initialized (x : bool) (s : actor) : actor :=
  mk_actor (base s) x (is_shutting_down s) (mailbox s) (stash_ s) (bhvrs s) (erased s)
    (awaited_responses_ s) (multiplexed_responses_ s) (last_request_id_ s) (default_handler_ s)
    (error_handler_ s) (down_handler_ s) (node_down_handler_ s) (exit_handler_ s)
    (exception_handler_ s) (timeout_state_ s) (actions_ s) (delayed_actions_this_run_ s)
    (watched_disposables_ s) (stream_sources_ s) (stream_subs_ s) (forwarders s) (stream_bridges_ s)
    (current_element_ s) (promises s) (user_state s) (trace s).
Definition set_is_shutting_down (x : bool) (s : actor) : actor :=
  mk_actor (base s) (is_initialized s) x (mailbox s) (stash_ s) (bhvrs s) (erased s)
    (awaited_responses_ s) (multiplexed_responses_ s) (last_request_id_ s) (default_handler_ s)
    (error_handler_ s) (down_handler_ s) (node_down_handler_ s) (exit_handler_ s)
    (exception_handler_ s) (timeout_state_ s) (actions_ s) (delayed_actions_this_run_ s)
    (watched_disposables_ s) (stream_sources_ s) (stream_subs_ s) (forwarders s) (stream_bridges_ s)
    (current_element_ s) (promises s) (user_state s) (trace s).
Definition set_mailbox (x : M) (s : actor) : actor :=
  mk_actor (base s) (is_initialized s) (is_shutting_down s) x (stash_ s) (bhvrs s) (erased s)
    (awaited_responses_ s) (multiplexed_responses_ s) (last_request_id_ s) (default_handler_ s)
    (error_handler_ s) (down_handler_ s) (node_down_handler_ s) (exit_handler_ s)
    (exception_handler_ s) (timeout_state_ s) (actions_ s) (delayed_actions_this_run_ s)
    (watched_disposables_ s) (stream_sources_ s) (stream_subs_ s) (forwarders s) (stream_bridges_ s)
    (current_element_ s) (promises s) (user_state s) (trace s).
Definition set_stash (x : list element) (s : actor) : actor :=
  mk_actor (base s) (is_initialized s) (is_shutting_down s) (mailbox s) x (bhvrs s) (erased s)
    (awaited_responses_ s) (multiplexed_responses_ s) (last_request_id_ s) (default_handler_ s)
    (error_handler_ s) (down_handler_ s) (node_down_handler_ s) (exit_handler_ s)
    (exception_handler_ s) (timeout_state_ s) (actions_ s) (delayed_actions_this_run_ s)
    (watched_disposables_ s) (stream_sources_ s) (stream_subs_ s) (forwarders s) (stream_bridges_ s)
    (current_element_ s) (promises s) (user_state s) (trace s).
Definition set_bhvrs (x : list behavior) (s : actor) : actor :=
  mk_actor (base s) (is_initialized s) (is_shutting_down s) (mailbox s) (stash_ s) x (erased s)
    (awaited_responses_ s) (multiplexed_responses_ s) (last_request_id_ s) (default_handler_ s)
    (error_handler_ s) (down_handler_ s) (node_down_handler_ s) (exit_handler_ s)
    (exception_handler_ s) (timeout_state_ s) (actions_ s) (delayed_actions_this_run_ s)
    (watched_disposables_ s) (stream_sources_ s) (stream_subs_ s) (forwarders s) (stream_bridges_ s)
    (current_element_ s) (promises s) (user_state s) (trace s).
Definition set_erased (x : list behavior) (s : actor) : actor :=
  mk_actor (base s) (is_initialized s) (is_shutting_down s) (mailbox s) (stash_ s) (bhvrs s) x
    (awaited_responses_ s) (multiplexed_responses_ s) (last_request_id_ s) (default_handler_ s)
    (error_handler_ s) (down_handler_ s) (node_down_handler_ s) (exit_handler_ s)
    (exception_handler_ s) (timeout_state_ s) (actions_ s) (delayed_actions_this_run_ s)
    (watched_disposables_ s) (stream_sources_ s) (stream_subs_ s) (forwarders s) (stream_bridges_ s)
    (current_element_ s) (promises s) (user_state s) (trace s).
Definition set_awaited_responses (x : list (MessageId.message_id * behavior * option Z)) (s : actor) : actor :=
  mk_actor (base s) (is_initialized s) (is_shutting_down s) (mailbox s) (stash_ s) (bhvrs s) (erased
    s) x (multiplexed_responses_ s) (last_request_id_ s) (default_handler_ s) (error_handler_ s)
    (down_handler_ s) (node_down_handler_ s) (exit_handler_ s) (exception_handler_ s)
    (timeout_state_ s) (actions_ s) (delayed_actions_this_run_ s) (watched_disposables_ s)
    (stream_sources_ s) (stream_subs_ s) (forwarders s) (stream_bridges_ s) (current_element_ s)
    (promises s) (user_state s) (trace s).
Definition set_multiplexed_responses (x : list (MessageId.message_id * (behavior * option Z))) (s : actor) : actor :=
  mk_actor (base s) (is_initialized s) (is_shutting_down s) (mailbox s) (stash_ s) (bhvrs s) (erased
    s) (awaited_responses_ s) x (last_request_id_ s) (default_handler_ s) (error_handler_ s)
    (down_handler_ s) (node_down_handler_ s) (exit_handler_ s) (exception_handler_ s)
    (timeout_state_ s) (actions_ s) (delayed_actions_this_run_ s) (watched_disposables_ s)
    (stream_sources_ s) (stream_subs_ s) (forwarders s) (stream_bridges_ s) (current_element_ s)
    (promises s) (user_state s) (trace s).
Definition set_last_request_id (x : MessageId.message_id) (s : actor) : actor :=
  mk_actor (base s) (is_initialized s) (is_shutting_down s) (mailbox s) (stash_ s) (bhvrs s) (erased
    s) (awaited_responses_ s) (multiplexed_responses_ s) x (default_handler_ s) (error_handler_ s)
    (down_handler_ s) (node_down_handler_ s) (exit_handler_ s) (exception_handler_ s)
    (timeout_state_ s) (actions_ s) (delayed_actions_this_run_ s) (watched_disposables_ s)
    (stream_sources_ s) (stream_subs_ s) (forwarders s) (stream_bridges_ s) (current_element_ s)
    (promises s) (user_state s) (trace s).
Definition set_default_handler (x : option default_handler) (s : actor) : actor :=
  mk_actor (base s) (is_initialized s) (is_shutting_down s) (mailbox s) (stash_ s) (bhvrs s) (erased
    s) (awaited_responses_ s) (multiplexed_responses_ s) (last_request_id_ s) x (error_handler_ s)
    (down_handler_ s) (node_down_handler_ s) (exit_handler_ s) (exception_handler_ s)
    (timeout_state_ s) (actions_ s) (delayed_actions_this_run_ s) (watched_disposables_ s)
    (stream_sources_ s) (stream_subs_ s) (forwarders s) (stream_bridges_ s) (current_element_ s)
    (promises s) (user_state s) (trace s).
Definition set_error_handler (x : option handler) (s : actor) : actor :=
  mk_actor (base s) (is_initialized s) (is_shutting_down s) (mailbox s) (stash_ s) (bhvrs s) (erased
    s) (awaited_responses_ s) (multiplexed_responses_ s) (last_request_id_ s) (default_handler_ s) x
    (down_handler_ s) (node_down_handler_ s) (exit_handler_ s) (exception_handler_ s)
    (timeout_state_ s) (actions_ s) (delayed_actions_this_run_ s) (watched_disposables_ s)
    (stream_sources_ s) (stream_subs_ s) (forwarders s) (stream_bridges_ s) (current_element_ s)
    (promises s) (user_state s) (trace s).
Definition set_down_handler (x : option handler) (s : actor) : actor :=
  mk_actor (base s) (is_initialized s) (is_shutting_down s) (mailbox s) (stash_ s) (bhvrs s) (erased
    s) (awaited_responses_ s) (multiplexed_responses_ s) (last_request_id_ s) (default_handler_ s)
    (error_handler_ s) x (node_down_handler_ s) (exit_handler_ s) (exception_handler_ s)
    (timeout_state_ s) (actions_ s) (delayed_actions_this_run_ s) (watched_disposables_ s)
    (stream_sources_ s) (stream_subs_ s) (forwarders s) (stream_bridges_ s) (current_element_ s)
    (promises s) (user_state s) (trace s).
Definition set_node_down_handler (x : option handler) (s : actor) : actor :=
  mk_actor (base s) (is_initialized s) (is_shutting_down s) (mailbox s) (stash_ s) (bhvrs s) (erased
    s) (awaited_responses_ s) (multiplexed_responses_ s) (last_request_id_ s) (default_handler_ s)
    (error_handler_ s) (down_handler_ s) x (exit_handler_ s) (exception_handler_ s) (timeout_state_
    s) (actions_ s) (delayed_actions_this_run_ s) (watched_disposables_ s) (stream_sources_ s)
    (stream_subs_ s) (forwarders s) (stream_bridges_ s) (current_element_ s) (promises s)
    (user_state s) (trace s).
Definition set_exit_handler (x : option handler) (s : actor) : actor :=
  mk_actor (base s) (is_initialized s) (is_shutting_down s) (mailbox s) (stash_ s) (bhvrs s) (erased
    s) (awaited_responses_ s) (multiplexed_responses_ s) (last_request_id_ s) (default_handler_ s)
    (error_handler_ s) (down_handler_ s) (node_down_handler_ s) x (exception_handler_ s)
    (timeout_state_ s) (actions_ s) (delayed_actions_this_run_ s) (watched_disposables_ s)
    (stream_sources_ s) (stream_subs_ s) (forwarders s) (stream_bridges_ s) (current_element_ s)
    (promises s) (user_state s) (trace s).
Definition set_exception_handler (x : option handler) (s : actor) : actor :=
  mk_actor (base s) (is_initialized s) (is_shutting_down s) (mailbox s) (stash_ s) (bhvrs s) (erased
    s) (awaited_responses_ s) (multiplexed_responses_ s) (last_request_id_ s) (default_handler_ s)
    (error_handler_ s) (down_handler_ s) (node_down_handler_ s) (exit_handler_ s) x (timeout_state_
    s) (actions_ s) (delayed_actions_this_run_ s) (watched_disposables_ s) (stream_sources_ s)
    (stream_subs_ s) (forwarders s) (stream_bridges_ s) (current_element_ s) (promises s)
    (user_state s) (trace s).
Definition set_timeout_state (x : timeout_state) (s : actor) : actor :=
  mk_actor (base s) (is_initialized s) (is_shutting_down s) (mailbox s) (stash_ s) (bhvrs s) (erased
    s) (awaited_responses_ s) (multiplexed_responses_ s) (last_request_id_ s) (default_handler_ s)
    (error_handler_ s) (down_handler_ s) (node_down_handler_ s) (exit_handler_ s)
    (exception_handler_ s) x (actions_ s) (delayed_actions_this_run_ s) (watched_disposables_ s)
    (stream_sources_ s) (stream_subs_ s) (forwarders s) (stream_bridges_ s) (current_element_ s)
    (promises s) (user_state s) (trace s).
Definition set_actions (x : list (option action)) (s : actor) : actor :=
  mk_actor (base s) (is_initialized s) (is_shutting_down s) (mailbox s) (stash_ s) (bhvrs s) (erased
    s) (awaited_responses_ s) (multiplexed_responses_ s) (last_request_id_ s) (default_handler_ s)
    (error_handler_ s) (down_handler_ s) (node_down_handler_ s) (exit_handler_ s)
    (exception_handler_ s) (timeout_state_ s) x (delayed_actions_this_run_ s) (watched_disposables_
    s) (stream_sources_ s) (stream_subs_ s) (forwarders s) (stream_bridges_ s) (current_element_ s)
    (promises s) (user_state s) (trace s).
Definition set_delayed_actions_this_run (x : Z) (s : actor) : actor :=
  mk_actor (base s) (is_initialized s) (is_shutting_down s) (mailbox s) (stash_ s) (bhvrs s) (erased
    s) (awaited_responses_ s) (multiplexed_responses_ s) (last_request_id_ s) (default_handler_ s)
    (error_handler_ s) (down_handler_ s) (node_down_handler_ s) (exit_handler_ s)
    (exception_handler_ s) (timeout_state_ s) (actions_ s) x (watched_disposables_ s)
    (stream_sources_ s) (stream_subs_ s) (forwarders s) (stream_bridges_ s) (current_element_ s)
    (promises s) (user_state s) (trace s).
Definition set_watched_disposables (x : list Z) (s : actor) : actor :=
  mk_actor (base s) (is_initialized s) (is_shutting_down s) (mailbox s) (stash_ s) (bhvrs s) (erased
    s) (awaited_responses_ s) (multiplexed_responses_ s) (last_request_id_ s) (default_handler_ s)
    (error_handler_ s) (down_handler_ s) (node_down_handler_ s) (exit_handler_ s)
    (exception_handler_ s) (timeout_state_ s) (actions_ s) (delayed_actions_this_run_ s) x
    (stream_sources_ s) (stream_subs_ s) (forwarders s) (stream_bridges_ s) (current_element_ s)
    (promises s) (user_state s) (trace s).
Definition set_stream_sources (x : gmap Z Z) (s : actor) : actor :=
  mk_actor (base s) (is_initialized s) (is_shutting_down s) (mailbox s) (stash_ s) (bhvrs s) (erased
    s) (awaited_responses_ s) (multiplexed_responses_ s) (last_request_id_ s) (default_handler_ s)
    (error_handler_ s) (down_handler_ s) (node_down_handler_ s) (exit_handler_ s)
    (exception_handler_ s) (timeout_state_ s) (actions_ s) (delayed_actions_this_run_ s)
    (watched_disposables_ s) x (stream_subs_ s) (forwarders s) (stream_bridges_ s) (current_element_
    s) (promises s) (user_state s) (trace s).
Definition set_stream_subs (x : gset Z) (s : actor) : actor :=
  mk_actor (base s) (is_initialized s) (is_shutting_down s) (mailbox s) (stash_ s) (bhvrs s) (erased
    s) (awaited_responses_ s) (multiplexed_responses_ s) (last_request_id_ s) (default_handler_ s)
    (error_handler_ s) (down_handler_ s) (node_down_handler_ s) (exit_handler_ s)
    (exception_handler_ s) (timeout_state_ s) (actions_ s) (delayed_actions_this_run_ s)
    (watched_disposables_ s) (stream_sources_ s) x (forwarders s) (stream_bridges_ s)
    (current_element_ s) (promises s) (user_state s) (trace s).
Definition set_forwarders (x : gmap Z forwarder) (s : actor) : actor :=
  mk_actor (base s) (is_initialized s) (is_shutting_down s) (mailbox s) (stash_ s) (bhvrs s) (erased
    s) (awaited_responses_ s) (multiplexed_responses_ s) (last_request_id_ s) (default_handler_ s)
    (error_handler_ s) (down_handler_ s) (node_down_handler_ s) (exit_handler_ s)
    (exception_handler_ s) (timeout_state_ s) (actions_ s) (delayed_actions_this_run_ s)
    (watched_disposables_ s) (stream_sources_ s) (stream_subs_ s) x (stream_bridges_ s)
    (current_element_ s) (promises s) (user_state s) (trace s).
Definition set_stream_bridges (x : gset Z) (s : actor) : actor :=
  mk_actor (base s) (is_initialized s) (is_shutting_down s) (mailbox s) (stash_ s) (bhvrs s) (erased
    s) (awaited_responses_ s) (multiplexed_responses_ s) (last_request_id_ s) (default_handler_ s)
    (error_handler_ s) (down_handler_ s) (node_down_handler_ s) (exit_handler_ s)
    (exception_handler_ s) (timeout_state_ s) (actions_ s) (delayed_actions_this_run_ s)
    (watched_disposables_ s) (stream_sources_ s) (stream_subs_ s) (forwarders s) x (current_element_
    s) (promises s) (user_state s) (trace s).
Definition set_current_element (x : option element) (s : actor) : actor :=
  mk_actor (base s) (is_initialized s) (is_shutting_down s) (mailbox s) (stash_ s) (bhvrs s) (erased
    s) (awaited_responses_ s) (multiplexed_responses_ s) (last_request_id_ s) (default_handler_ s)
    (error_handler_ s) (down_handler_ s) (node_down_handler_ s) (exit_handler_ s)
    (exception_handler_ s) (timeout_state_ s) (actions_ s) (delayed_actions_this_run_ s)
    (watched_disposables_ s) (stream_sources_ s) (stream_subs_ s) (forwarders s) (stream_bridges_ s)
    x (promises s) (user_state s) (trace s).
Definition set_promises (x : gmap Z promise_state) (s : actor) : actor :=
  mk_actor (base s) (is_initialized s) (is_shutting_down s) (mailbox s) (stash_ s) (bhvrs s) (erased
    s) (awaited_responses_ s) (multiplexed_responses_ s) (last_request_id_ s) (default_handler_ s)
    (error_handler_ s) (down_handler_ s) (node_down_handler_ s) (exit_handler_ s)
    (exception_handler_ s) (timeout_state_ s) (actions_ s) (delayed_actions_this_run_ s)
    (watched_disposables_ s) (stream_sources_ s) (stream_subs_ s) (forwarders s) (stream_bridges_ s)
    (current_element_ s) x (user_state s) (trace s).
Definition set_user_state (x : U) (s : actor) : actor :=
  mk_actor (base s) (is_initialized s) (is_shutting_down s) (mailbox s) (stash_ s) (bhvrs s) (erased
    s) (awaited_responses_ s) (multiplexed_responses_ s) (last_request_id_ s) (default_handler_ s)
    (error_handler_ s) (down_handler_ s) (node_down_handler_ s) (exit_handler_ s)
    (exception_handler_ s) (timeout_state_ s) (actions_ s) (delayed_actions_this_run_ s)
    (watched_disposables_ s) (stream_sources_ s) (stream_subs_ s) (forwarders s) (stream_bridges_ s)
    (current_element_ s) (promises s) x (trace s).
Definition set_trace (x : list event) (s : actor) : actor :=
  mk_actor (base s) (is_initialized s) (is_shutting_down s) (mailbox s) (stash_ s) (bhvrs s) (erased
    s) (awaited_responses_ s) (multiplexed_responses_ s) (last_request_id_ s) (default_handler_ s)
    (error_handler_ s) (down_handler_ s) (node_down_handler_ s) (exit_handler_ s)
    (exception_handler_ s) (timeout_state_ s) (actions_ s) (delayed_actions_this_run_ s)
    (watched_disposables_ s) (stream_sources_ s) (stream_subs_ s) (forwarders s) (stream_bridges_ s)
    (current_element_ s) (promises s) (user_state s) x.

End Updates.

End ActorState.
