(* ===== verification/ScheduledActor.v ===== *)
(** * Scheduled actors (libcaf_core/caf/scheduled_actor.cpp,
      event_based_actor.cpp)

    The event loop of an actor: which messages it handles itself, which it
    passes to its behavior, response handlers or default handlers, which it
    skips, and how it ends.  Code the actor calls into is a parameter that
    answers with the operations it performs on the actor. *)

From stdpp Require Import gmap.
From S2P Require Import Prelude Effects MessageId LifoInbox DefaultMailbox AbstractMailbox AbstractActor LocalActor ActorState.

Module ScheduledActor.

Import Effects DefaultMailbox AbstractMailbox LocalActor ActorState.
Import AbstractActor(error(..), kill, unreachable).

(** [defaults::max_inline_actions_per_run]. *)
Definition max_inline_actions_per_run : Z := 10.

Inductive message_category := ordinary | internal | skipped_category.
Inductive invoke_message_result := consumed | skipped | dropped.
Inductive activation_result := success | terminated | skipped_msg | dropped_msg.

#[export] Instance activation_result_eq_dec : EqDecision activation_result.
Proof. solve_decision. Defined.

(** ** Construction *)

(** The constructor, around an empty mailbox; message IDs start at zero. *)
Definition make_actor {M U} (m : M) (u : U) : actor M U :=
  mk_actor (AbstractActor.mk_actor false false no_error []) false false m [] [] [] [] []
    MessageId.default (Some print_and_drop) (Some builtin) (Some builtin) (Some builtin) (Some builtin)
    (Some builtin) reset [] 0 [] ∅ ∅ ∅ ∅ None ∅ u [].

Section ScheduledActor.

Context {M U : Type} `{MB : Mailbox content M}.

(** The actor's address, the reactions of the code it calls,
    [behavior::timeout], [disposable::disposed], and whether an actor lives on
    another node. *)
Context (self : Z) (react : callback -> U -> list cmd * reply * U).
Context (timeout_of : behavior -> option Z) (is_disposed : U -> Z -> bool) (is_remote : Z -> bool).

(** Whether weak references to observers can be promoted, the unspecified
    iteration order of unordered containers, and bounds on the rounds of the
    loop that disposes watched objects and on the nesting of calls. *)
Context (alive_ref : Z -> bool) (visit_order : gset Z -> list Z) (rounds nesting : nat).

#[local] Abbreviation actor := (actor M U).
#[local] Abbreviation comp := (comp actor).

Definition emit (e : event) : comp unit := modify (fun s => set_trace (trace s ++ [e]) s).

(** ** Enqueueing *)

(** [scheduled_actor::enqueue] on this actor. *)
Definition enqueue (x : element) : comp bool :=
  m ← gets mailbox;
  match push_back x m with
  | None => stuck
  | Some (r, m') =>
      modify (set_mailbox m');;
      match r with
      | unblocked_reader => emit scheduled;; mret true
      | LifoInbox.success => mret true
      | queue_closed =>
          for_each (fun m => if receiver m =? self then mret tt else emit (sent m))
            (bounce_with sec_request_receiver_down x);;
          mret false
      end
  end.

(** Sending a mailbox element to an actor, possibly to itself; sending to a
    null handle only counts as rejected. *)
Definition send_mail (m : mail) : comp unit :=
  if receiver m =? self then enqueue (item m);; mret tt
  else if receiver m =? 0 then mret tt
  else emit (sent m).

Definition send_mails (ms : list mail) : comp unit := for_each send_mail ms.

Definition new_request_id (high : bool) : comp MessageId.message_id :=
  last ← gets last_request_id_;
  let (res, last') := LocalActor.new_request_id high last in
  modify (set_last_request_id last');; mret res.

Definition new_u64_id : comp Z :=
  last ← gets last_request_id_;
  let (res, last') := LocalActor.new_u64_id last in
  modify (set_last_request_id last');; mret res.

(** [respond]: the visitor of message handler results. *)
Definition respond (c : content) : comp unit :=
  cur ← gets current_element_;
  match cur with
  | None => mret tt
  | Some x => let (ms, x') := respond_to self x c in modify (set_current_element (Some x'));; send_mails ms
  end.

Definition visit_result (v : value) : comp unit :=
  match v with
  | returns c => respond c
  | fails e => respond (error_msg e)
  | nothing => mret tt
  end.

(** ** Timeouts *)

(** [timeout_state_.pending = nullptr]. *)
Definition discard_timer : comp unit :=
  modify (fun s => let t := timeout_state_ s in
    set_timeout_state (mk_timeout (mode t) None (timer_id t) (delay t) (idle_handler t)) s).

(** [timeout_state_.pending.dispose()]: disposing a handle also clears it. *)
Definition dispose_timer : comp unit :=
  t ← gets timeout_state_;
  match pending_timer t with
  | Some i => emit (timer_disposed i);; discard_timer
  | None => mret tt
  end.

(** [timeout_state_.id = new_u64_id(); timeout_state_.pending = ...] *)
Definition start_timer (strong : bool) (d : Z) : comp unit :=
  i ← new_u64_id;
  emit (timer_set strong i d);;
  modify (fun s => let t := timeout_state_ s in
    set_timeout_state (mk_timeout (mode t) (Some i) i (delay t) (idle_handler t)) s).

Definition set_receive_timeout : comp unit :=
  dispose_timer;;
  t ← gets timeout_state_;
  match delay t with
  | None => mret tt
  | Some d =>
      match mode t with
      | none => mret tt
      | once_weak | repeat_weak => start_timer false d
      | legacy =>
          bs ← gets bhvrs;
          match bs with
          | [] => modify (set_timeout_state reset)
          | _ => start_timer true d
          end
      | once_strong | repeat_strong => start_timer true d
      end
  end.

(** ** Behaviors *)

Definition become (b : behavior) (discard_old : bool) : comp unit :=
  s ← gets (fun s => s);
  if AbstractActor.is_terminated (base s) || is_shutting_down s then mret tt
  else
    modify (fun s => match discard_old, bhvrs s with
                     | true, b' :: bs => set_erased (erased s ++ [b']) (set_bhvrs bs s)
                     | _, _ => s
                     end);;
    (if negb (b =? 0) then modify (fun s => set_bhvrs (b :: bhvrs s) s) else mret tt);;
    match (if negb (b =? 0) then timeout_of b else None) with
    | Some d =>
        modify (fun s => let t := timeout_state_ s in
          set_timeout_state (mk_timeout legacy (pending_timer t) (timer_id t) (Some d) (idle_handler t)) s);;
        set_receive_timeout
    | None =>
        t ← gets timeout_state_;
        if bool_decide (mode t = legacy) then dispose_timer;; modify (set_timeout_state reset) else mret tt
    end.

(** [bhvr_stack_.pop_back()] on an empty stack is undefined behaviour. *)
Definition unbecome : comp unit :=
  bs ← gets bhvrs;
  match bs with
  | [] => stuck
  | b :: bs' => modify (fun s => set_erased (erased s ++ [b]) (set_bhvrs bs' s))
  end.

(** [bhvr_stack_.clear()]. *)
Definition clear_behaviors : comp unit :=
  modify (fun s => set_erased (erased s ++ reverse (bhvrs s)) (set_bhvrs [] s)).

Definition cleanup_behaviors : comp unit := modify (set_erased []).

(** ** Response handlers *)

Definition add_awaited_response_handler (i : MessageId.message_id) (b : behavior) (timer : option Z) : comp unit :=
  modify (fun s => set_awaited_responses ((i, b, timer) :: awaited_responses_ s) s).

(** [unordered_flat_map]: [find], [emplace] and [erase]. *)
Fixpoint flat_find {A} (i : MessageId.message_id) (xs : list (MessageId.message_id * A)) : option A :=
  match xs with
  | [] => None
  | (k, v) :: xs' => if MessageId.eqb i k then Some v else flat_find i xs'
  end.

Definition flat_emplace {A} (i : MessageId.message_id) (v : A) (xs : list (MessageId.message_id * A))
  : list (MessageId.message_id * A) :=
  match flat_find i xs with Some _ => xs | None => xs ++ [(i, v)] end.

(** Erasing moves the last element into the gap. *)
Fixpoint flat_replace {A} (i : MessageId.message_id) (y : MessageId.message_id * A)
    (xs : list (MessageId.message_id * A)) : list (MessageId.message_id * A) :=
  match xs with
  | [] => []
  | (k, v) :: xs' => if MessageId.eqb i k then y :: xs' else (k, v) :: flat_replace i y xs'
  end.

Definition flat_erase {A} (i : MessageId.message_id) (xs : list (MessageId.message_id * A))
  : list (MessageId.message_id * A) :=
  match flat_find i xs, last xs with
  | Some _, Some y => removelast (flat_replace i y xs)
  | _, _ => xs
  end.

Definition add_multiplexed_response_handler (i : MessageId.message_id) (b : behavior) (timer : option Z) : comp unit :=
  modify (fun s => set_multiplexed_responses (flat_emplace i (b, timer) (multiplexed_responses_ s)) s).

(** ** Actions *)

(** The behavior [delay] installs for actions it sends to itself. *)
Definition delay_bhvr : behavior := -1.

Definition delay (a : action) : comp unit :=
  n ← gets delayed_actions_this_run_;
  modify (set_delayed_actions_this_run (n + 1));;
  if n <? max_inline_actions_per_run then modify (fun s => set_actions (actions_ s ++ [Some a]) s)
  else
    r ← new_request_id false;
    let res_id := MessageId.response_id r in
    enqueue (mk_element 0 res_id (action_msg a));;
    add_multiplexed_response_handler res_id delay_bhvr None.

Definition schedule (a : action) : comp unit :=
  enqueue (mk_element 0 MessageId.default (action_msg a));; mret tt.

Definition update_watched_disposables : comp unit :=
  modify (fun s => set_watched_disposables
    (filter (fun d => is_disposed (user_state s) d = false) (watched_disposables_ s)) s).

Section Calls.

(** How the actor calls into other code at this point. *)
Context (call : callback -> comp reply).

(** The loop of [run_actions]; running an empty action is undefined. *)
Fixpoint action_loop (fuel : nat) (index : nat) : comp unit :=
  match fuel with
  | O => stuck
  | S fuel' =>
      acts ← gets actions_;
      match acts !! index with
      | None => mret tt
      | Some None => stuck
      | Some (Some a) =>
          modify (set_actions (<[index := None]> acts));;
          call (call_action a);;
          action_loop fuel' (S index)
      end
  end.

(** Fuel: the actions that are queued, those a run may add before and after a
    call to [quit], and the check that ends the loop. *)
Definition action_fuel (acts : list (option action)) : nat :=
  length acts + Z.to_nat (2 * max_inline_actions_per_run) + 1.

Definition run_actions : comp unit :=
  modify (set_delayed_actions_this_run 0);;
  acts ← gets actions_;
  match acts with
  | None :: _ => mret tt
  | Some _ :: _ => action_loop (action_fuel acts) 0;; modify (set_actions []);; update_watched_disposables
  | [] => update_watched_disposables
  end.

(** [batch_forwarder_impl::cancel] and [request]. *)
Definition forwarder_cancel (flow : Z) : comp unit :=
  fs ← gets forwarders;
  match fs !! flow with
  | None => stuck
  | Some f =>
      (if negb (sink_hdl f =? 0) then
         send_mail (mk_mail (sink_hdl f) (mk_element 0 MessageId.default
           (stream_abort_msg (sink_flow_id f) (sec 32))));;
         modify (set_forwarders (<[flow := mk_forwarder 0 (sink_flow_id f) (sub f) (had_error f)]> fs))
       else mret tt);;
      (if sub f then
         modify (fun s => set_forwarders (alter (fun f => mk_forwarder (sink_hdl f) (sink_flow_id f) false (had_error f))
           flow (forwarders s)) s);;
         call (call_sub_cancel flow);; mret tt
       else mret tt)
  end.

Definition forwarder_request (flow n : Z) : comp unit :=
  fs ← gets forwarders;
  match fs !! flow with
  | None => stuck
  | Some f => if sub f then call (call_sub_request flow n);; mret tt else mret tt
  end.

(** [while (!watched_disposables_.empty())] *)
Fixpoint dispose_loop (fuel : nat) : comp unit :=
  match fuel with
  | O => stuck
  | S fuel' =>
      ds ← gets watched_disposables_;
      match ds with
      | [] => mret tt
      | _ =>
          modify (set_watched_disposables []);;
          for_each (fun d => call (call_dispose d);; mret tt) ds;;
          dispose_loop fuel'
      end
  end.

Definition cancel_flows_and_streams : comp unit :=
  modify (set_stream_sources ∅);;
  subs ← gets stream_subs_;
  modify (set_stream_subs ∅);;
  for_each forwarder_cancel (visit_order subs);;
  bridges ← gets stream_bridges_;
  modify (set_stream_bridges ∅);;
  for_each (fun i => call (call_bridge_drop i no_error);; mret tt) (visit_order bridges);;
  dispose_loop rounds;;
  run_actions.

Definition quit (e : error) : comp unit :=
  b ← gets is_shutting_down;
  if (b : bool) then mret tt
  else
    modify (set_is_shutting_down true);;
    modify (fun s => set_base (AbstractActor.mk_actor (AbstractActor.is_terminated (base s))
      (AbstractActor.is_registered (base s)) e (AbstractActor.attachables_ (base s))) s);;
    clear_behaviors;;
    modify (set_awaited_responses []);;
    modify (set_multiplexed_responses []);;
    modify (set_exit_handler (Some ignore));;
    modify (set_down_handler (Some ignore));;
    modify (set_error_handler (Some ignore));;
    modify (set_default_handler (Some drop_after_quit));;
    cancel_flows_and_streams.

(** ** Handlers *)

(** [call_handler]: the handler is moved out while it runs and put back unless
    it was replaced; calling an empty [std::function] raises. *)
Definition bad_function_call : Z := -1.

Definition call_handler {H R} (get : actor -> option H) (set : option H -> actor -> actor)
    (run : H -> comp R) : comp R :=
  g ← gets get;
  modify (set None);;
  match g with
  | None => raise bad_function_call
  | Some g =>
      res ← run g;
      f ← gets get;
      match f with
      | None => modify (set (Some g));; mret res
      | Some _ => mret res
      end
  end.

Definition run_error_handler (e : error) (h : handler) : comp unit :=
  match h with
  | builtin => quit e
  | ignore => mret tt
  | user h => call (call_error h e);; mret tt
  end.

Definition run_down_handler (source : Z) (reason : error) (h : handler) : comp unit :=
  match h with
  | builtin => emit printed
  | ignore => mret tt
  | user h => call (call_down h source reason);; mret tt
  end.

Definition run_node_down_handler (node : Z) (reason : error) (h : handler) : comp unit :=
  match h with
  | builtin => emit printed
  | ignore => mret tt
  | user h => call (call_node_down h node reason);; mret tt
  end.

Definition run_exit_handler (source : Z) (reason : error) (h : handler) : comp unit :=
  match h with
  | builtin => if bool_decide (reason = no_error) then mret tt else quit reason
  | ignore => mret tt
  | user h => call (call_exit h source reason);; mret tt
  end.

Definition run_exception_handler (eptr : Z) (h : handler) : comp error :=
  match h with
  | builtin => emit printed;; mret (sec 28)
  | ignore => mret no_error
  | user h => r ← call (call_exception h eptr); match r with reports e => mret e | _ => stuck end
  end.

(** [Some v] is a result for the visitor, [None] is [skip]. *)
Definition run_default_handler (c : content) (h : default_handler) : comp (option value) :=
  match h with
  | print_and_drop => emit printed;; mret (Some (fails sec_unexpected_message))
  | drop => mret (Some (fails sec_unexpected_message))
  | reflect => mret (Some (returns c))
  | reflect_and_quit => quit no_error;; mret (Some (returns c))
  | skip => mret None
  | drop_after_quit =>
      cur ← gets current_element_;
      match cur with
      | Some x => mret (Some (if MessageId.is_request (mid x) then fails sec_request_receiver_down else returns empty_msg))
      | None => stuck
      end
  | user_default h =>
      r ← call (call_default h c);
      match r with
      | matched v => mret (Some v)
      | skips => mret None
      | _ => stuck
      end
  end.

Definition call_error_handler (e : error) : comp unit :=
  call_handler error_handler_ set_error_handler (run_error_handler e).

(** ** Operations of other code *)

(** The exception [set_idle_handler] throws for an infinite delay. *)
Definition invalid_argument : Z := -2.

Definition set_idle_handler (d : option Z) (m : timeout_mode) (h : Z) : comp unit :=
  match d with
  | None => raise invalid_argument
  | Some _ =>
      modify (fun s => let t := timeout_state_ s in
        set_timeout_state (mk_timeout m (pending_timer t) (timer_id t) d (Some h)) s);;
      set_receive_timeout
  end.

(** [mail(...).request(receiver, timeout)] with [.await] or [.then]. *)
Definition request (to : Z) (high : bool) (timeout : option Z) (c : content) (awaited : bool) (b : behavior)
  : comp unit :=
  r ← new_request_id high;
  let res_id := MessageId.response_id r in
  timer ← (if negb (to =? 0) then
             match timeout with
             | Some d =>
                 emit (timer_set false (MessageId.integer_value res_id) d);;
                 send_mail (mk_mail to (mk_element self r c));;
                 mret (Some (MessageId.integer_value res_id))
             | None => send_mail (mk_mail to (mk_element self r c));; mret None
             end
           else enqueue (mk_element self res_id (error_msg (sec 76)));; mret None);
  (if awaited then add_awaited_response_handler res_id b timer
   else add_multiplexed_response_handler res_id b timer).

Definition make_promise (p : Z) : comp unit :=
  cur ← gets current_element_;
  match cur with
  | None => mret tt
  | Some x =>
      let (res, x') := make_response_promise self x in
      modify (set_current_element (Some x'));;
      match res with
      | Some st => modify (fun s => set_promises (<[p := st]> (promises s)) s)
      | None => mret tt
      end
  end.

Definition with_promise (p : Z) (f : promise_state -> list mail) : comp unit :=
  ps ← gets promises;
  match ps !! p with
  | None => mret tt
  | Some st => modify (set_promises (delete p ps));; send_mails (f st)
  end.

(** Calls of the flow on [batch_forwarder_impl]. *)
Definition with_forwarder (flow : Z) (k : forwarder -> comp unit) : comp unit :=
  fs ← gets forwarders;
  match fs !! flow with None => stuck | Some f => k f end.

Definition put_forwarder (flow : Z) (f : forwarder) : comp unit :=
  modify (fun s => set_forwarders (<[flow := f]> (forwarders s)) s).

Definition forwarder_subscribed (flow : Z) : comp unit :=
  with_forwarder flow (fun f =>
    if negb (sub f) && negb (sink_hdl f =? 0)
    then put_forwarder flow (mk_forwarder (sink_hdl f) (sink_flow_id f) true (had_error f))
    else call (call_sub_cancel flow);; mret tt).

Definition forwarder_next (flow batch : Z) : comp unit :=
  with_forwarder flow (fun f =>
    send_mail (mk_mail (sink_hdl f) (mk_element self MessageId.default (stream_batch_msg (sink_flow_id f) batch)))).

Definition forwarder_error (flow : Z) (e : error) : comp unit :=
  with_forwarder flow (fun f =>
    send_mail (mk_mail (sink_hdl f) (mk_element self MessageId.default (stream_abort_msg (sink_flow_id f) e)));;
    put_forwarder flow (mk_forwarder 0 (sink_flow_id f) false true);;
    modify (fun s => set_stream_subs (stream_subs_ s ∖ {[ flow ]}) s)).

Definition forwarder_complete (flow : Z) : comp unit :=
  with_forwarder flow (fun f =>
    send_mail (mk_mail (sink_hdl f) (mk_element self MessageId.default (stream_close_msg (sink_flow_id f))));;
    put_forwarder flow (mk_forwarder 0 (sink_flow_id f) false (had_error f));;
    modify (fun s => set_stream_subs (stream_subs_ s ∖ {[ flow ]}) s)).

Definition exec_cmd (c : cmd) : comp unit :=
  match c with
  | do_quit e => quit e
  | do_become b discard_old => become b discard_old
  | do_unbecome => unbecome
  | do_send to high c =>
      send_mail (mk_mail to (mk_element self
        (MessageId.make_from_priority (if high then MessageId.high else MessageId.normal)) c))
  | do_request to high timeout c awaited b => request to high timeout c awaited b
  | do_call_error_handler e => call_error_handler e
  | do_delay a => delay a
  | do_schedule a => schedule a
  | do_watch d => modify (fun s => set_watched_disposables (watched_disposables_ s ++ [d]) s)
  | do_set_default_handler h => modify (set_default_handler (Some (default print_and_drop h)))
  | do_set_error_handler h => modify (set_error_handler (Some (default builtin h)))
  | do_set_down_handler h => modify (set_down_handler (Some (default builtin h)))
  | do_set_node_down_handler h => modify (set_node_down_handler (Some (default builtin h)))
  | do_set_exit_handler h => modify (set_exit_handler (Some (default builtin h)))
  | do_set_exception_handler h => modify (set_exception_handler (Some (default builtin h)))
  | do_set_idle_handler d m h => set_idle_handler d m h
  | do_make_promise p => make_promise p
  | do_deliver p c => with_promise p (fun st => mails_of (deliver c st))
  | do_destroy_promise p => with_promise p (fun st => (release_state st).1)
  | do_to_stream mipb =>
      i ← new_u64_id; modify (fun s => set_stream_sources (<[i := mipb]> (stream_sources_ s)) s)
  | do_deregister_stream i => modify (fun s => set_stream_sources (delete i (stream_sources_ s)) s)
  | do_register_flow i => modify (fun s => set_stream_bridges (stream_bridges_ s ∪ {[ i ]}) s)
  | do_drop_flow i => modify (fun s => set_stream_bridges (stream_bridges_ s ∖ {[ i ]}) s)
  | do_forwarder_subscribed flow => forwarder_subscribed flow
  | do_forwarder_next flow batch => forwarder_next flow batch
  | do_forwarder_error flow e => forwarder_error flow e
  | do_forwarder_complete flow => forwarder_complete flow
  end.

End Calls.

(** Calling other code: what it does to the actor, then how it returns. *)
Definition call_with (exec : cmd -> comp unit) (cb : callback) : comp reply :=
  emit (called cb);;
  u ← gets user_state;
  let '(cs, r, u') := react cb u in
  modify (set_user_state u');;
  for_each exec cs;;
  match r with
  | threw e => raise e
  | _ => mret r
  end.

Fixpoint call_nested (n : nat) : callback -> comp reply :=
  match n with
  | O => fun _ => stuck
  | S n' => call_with (exec_cmd (call_nested n'))
  end.

Definition call : callback -> comp reply := call_nested nesting.

(** ** Timeout messages *)

Definition handle_timeout : comp unit :=
  t ← gets timeout_state_;
  match mode t with
  | none => mret tt
  | once_weak | once_strong =>
      match idle_handler t with
      | None => mret tt
      | Some f => modify (set_timeout_state reset);; call (call_idle f);; mret tt
      end
  | repeat_weak | repeat_strong =>
      discard_timer;;
      st ← gets timeout_state_;
      modify (set_timeout_state reset);;
      match idle_handler st with
      | None => mret tt
      | Some f =>
          call (call_idle f);;
          t' ← gets timeout_state_;
          if negb (bool_decide (mode t' = none)) then mret tt
          else modify (set_timeout_state st);; set_receive_timeout
      end
  | legacy =>
      discard_timer;;
      bs ← gets bhvrs;
      match bs with
      | [] => mret tt
      | b :: _ => call (call_behavior_timeout b);; set_receive_timeout
      end
  end.

(** ** System messages *)

(** The reply to [(sys_atom, get_atom, key)]. *)
Definition reply_to_sys_get (is_info : bool) : comp unit :=
  cur ← gets current_element_;
  match cur with
  | None => mret tt
  | Some x =>
      let (p, x') := make_response_promise self x in
      modify (set_current_element (Some x'));;
      match p with
      | Some st => send_mails (mails_of (deliver (if is_info then ok_info else error_msg sec_unsupported_sys_key) st))
      | None => mret tt
      end
  end.

Definition open_stream (id sink sink_id : Z) : comp unit :=
  if sink =? 0 then mret tt
  else
    srcs ← gets stream_sources_;
    let abort := send_mail (mk_mail sink (mk_element self MessageId.default
      (stream_abort_msg sink_id sec_invalid_stream))) in
    match srcs !! id with
    | None => abort
    | Some mipb =>
        flow ← new_u64_id;
        put_forwarder flow (mk_forwarder sink sink_id false false);;
        call (call_subscribe id flow);;
        with_forwarder flow (fun fwd =>
          if sub fwd then
            modify (fun s => set_stream_subs (stream_subs_ s ∪ {[ flow ]}) s);;
            send_mail (mk_mail sink (mk_element self MessageId.default
              (stream_ack_msg self sink_id flow (uwrap 32 mipb))));;
            (if is_remote sink then emit (watch_functor sink flow) else mret tt)
          else if had_error fwd then mret tt
          else call (call_sub_dispose flow);; abort)
    end.

Definition categorize (c : content) : comp message_category :=
  match c with
  | sys_get is_info => reply_to_sys_get is_info;; mret internal
  | exit_msg source reason =>
      emit (unlinked source);;
      if bool_decide (reason = kill) then quit call reason;; mret internal else mret ordinary
  | timeout_msg i =>
      t ← gets timeout_state_;
      (if timer_id t =? i then handle_timeout else mret tt);; mret internal
  | action_msg a => call (call_action a);; mret internal
  | stream_open_msg i sink sink_id => open_stream i sink sink_id;; mret internal
  | stream_demand_msg flow n =>
      subs ← gets stream_subs_;
      (if bool_decide (flow ∈ subs) then forwarder_request call flow n else mret tt);; mret internal
  | stream_cancel_msg flow =>
      subs ← gets stream_subs_;
      (if bool_decide (flow ∈ subs)
       then modify (set_stream_subs (subs ∖ {[ flow ]}));; forwarder_cancel call flow
       else mret tt);; mret internal
  | stream_ack_msg _ sink_id src_id mipb =>
      bs ← gets stream_bridges_;
      (if bool_decide (sink_id ∈ bs) then call (call_bridge_ack sink_id src_id mipb);; mret tt else mret tt);;
      mret internal
  | stream_batch_msg sink_id xs =>
      bs ← gets stream_bridges_;
      (if bool_decide (sink_id ∈ bs) then call (call_bridge_push sink_id xs);; mret tt else mret tt);;
      mret internal
  | stream_close_msg sink_id =>
      bs ← gets stream_bridges_;
      (if bool_decide (sink_id ∈ bs)
       then modify (set_stream_bridges (bs ∖ {[ sink_id ]}));; call (call_bridge_drop sink_id no_error);; mret tt
       else mret tt);; mret internal
  | stream_abort_msg sink_id reason =>
      bs ← gets stream_bridges_;
      (if bool_decide (sink_id ∈ bs)
       then modify (set_stream_bridges (bs ∖ {[ sink_id ]}));; call (call_bridge_drop sink_id reason);; mret tt
       else mret tt);; mret internal
  | _ => mret ordinary
  end.

(** ** Dispatching *)

Definition dispose_request_timer (t : option Z) : comp unit :=
  match t with Some i => emit (timer_disposed i) | None => mret tt end.

(** The behavior [delay] uses runs the action it gets. *)
Definition invoke (b : behavior) (c : content) : comp reply :=
  if b =? delay_bhvr then
    match c with
    | action_msg a => call (call_action a);; mret (matched nothing)
    | _ => mret no_match
    end
  else call (call_behavior b c).

(** Runs a response handler, once more with an error if it does not match. *)
Definition invoke_response (b : behavior) (c : content) : comp unit :=
  r ← invoke b c;
  match r with
  | no_match => invoke b (error_msg sec_unexpected_response);; mret tt
  | _ => mret tt
  end.

Definition default_dispatch (c : content) : comp invoke_message_result :=
  r ← call_handler default_handler_ set_default_handler (run_default_handler call c);
  match r with
  | Some v => visit_result v;; mret consumed
  | None => mret skipped
  end.

(** What happens to an ordinary message the behavior does not handle. *)
Definition fallback_dispatch (c : content) : comp invoke_message_result :=
  match c with
  | exit_msg source reason =>
      call_handler exit_handler_ set_exit_handler (run_exit_handler call source reason);; mret consumed
  | down_msg source reason =>
      call_handler down_handler_ set_down_handler (run_down_handler call source reason);; mret consumed
  | node_down_msg node reason =>
      call_handler node_down_handler_ set_node_down_handler (run_node_down_handler call node reason);; mret consumed
  | error_msg e => call_error_handler call e;; mret consumed
  | _ => default_dispatch c
  end.

(** [consume(x)]. *)
Definition consume (x : element) : comp invoke_message_result :=
  modify (set_current_element (Some x));;
  aw ← gets awaited_responses_;
  match aw with
  | (i, f, timer) :: aw' =>
      if negb (MessageId.eqb (mid x) i) then
        if MessageId.is_response (mid x) then mret skipped
        else
          k ← categorize (payload x);
          match k with internal => mret consumed | _ => mret skipped end
      else
        dispose_request_timer timer;;
        modify (set_awaited_responses aw');;
        invoke_response f (payload x);; mret consumed
  | [] =>
      if MessageId.is_response (mid x) then
        mr ← gets multiplexed_responses_;
        match flat_find (mid x) mr with
        | None => mret dropped
        | Some (f, timer) =>
            dispose_request_timer timer;;
            modify (set_multiplexed_responses (flat_erase (mid x) mr));;
            invoke_response f (payload x);; mret consumed
        end
      else
        k ← categorize (payload x);
        match k with
        | skipped_category => mret skipped
        | internal => mret consumed
        | ordinary =>
            bs ← gets bhvrs;
            match bs with
            | [] => fallback_dispatch (payload x)
            | b :: _ =>
                r ← call (call_behavior b (payload x));
                match r with
                | matched v => visit_result v;; mret consumed
                | no_match => fallback_dispatch (payload x)
                | _ => stuck
                end
            end
        end
  end.

(** ** Termination *)

Definition alive (s : actor) : bool :=
  negb (bool_decide (bhvrs s = [])) || negb (bool_decide (awaited_responses_ s = []))
  || negb (bool_decide (multiplexed_responses_ s = [])) || negb (bool_decide (watched_disposables_ s = []))
  || negb (bool_decide (stream_sources_ s = ∅)) || negb (bool_decide (stream_bridges_ s = ∅)).

(** Sending the responses [mailbox().close] produced; a response to this actor
    itself goes to the mailbox that is being closed, which drops it without a
    further response (see [close] in DefaultMailbox). *)
Definition emit_bounced (b : bounced) : comp unit :=
  if DefaultMailbox.receiver b =? self then mret tt else emit (bounced_response b).

Definition close_mailbox : comp unit :=
  xs ← gets stash_;
  modify (set_stash []);;
  send_mails (flat_map (bounce_with sec_request_receiver_down) xs);;
  m ← gets mailbox;
  if closed m then mret tt
  else match close m with
       | None => stuck
       | Some (_, bs, m') => modify (set_mailbox m');; for_each emit_bounced bs
       end.

Definition on_cleanup : comp unit :=
  dispose_timer;;
  modify (set_awaited_responses []);;
  modify (set_multiplexed_responses []);;
  cancel_flows_and_streams call;;
  close_mailbox;;
  call call_on_exit;; mret tt.

Definition cleanup : comp bool :=
  b ← gets base;
  let '(did, evs, b') := AbstractActor.cleanup alive_ref (AbstractActor.fail_state_ b) b in
  modify (set_base b');;
  for_each (fun e => emit (observed e)) evs;;
  (if (did : bool) then on_cleanup else mret tt);; mret did.

Definition finalize : comp bool :=
  b ← gets base;
  if AbstractActor.is_terminated b then mret true
  else
    run_actions call;;
    s ← gets (fun s => s);
    if alive s then mret false
    else cleanup_behaviors;; cleanup;; mret true.

(** ** Activation *)

(** [event_based_actor::initialize]. *)
Definition initialize : comp unit :=
  modify (set_is_initialized true);;
  r ← call call_make_behavior;
  match r with
  | behaves b => if negb (b =? 0) then become b true else mret tt
  | _ => stuck
  end.

Definition handle_init_exception (eptr : Z) : comp bool :=
  e ← call_handler exception_handler_ set_exception_handler (run_exception_handler call eptr);
  quit call e;; finalize;; mret false.

Definition activate : comp bool :=
  s ← gets (fun s => s);
  if is_initialized s && negb (alive s) then mret false
  else if negb (is_initialized s) then
    catch (initialize;; done ← finalize; mret (negb done)) handle_init_exception
  else mret true.

Definition handle_exception (eptr : Z) : comp activation_result :=
  e ← call_handler exception_handler_ set_exception_handler (run_exception_handler call eptr);
  (cur ← gets current_element_;
   match cur with
   | None => mret tt
   | Some x =>
       let (p, x') := make_response_promise self x in
       modify (set_current_element (Some x'));;
       match p with Some st => send_mails (mails_of (deliver (error_msg e) st)) | None => mret tt end
   end);;
  quit call e;; finalize;; mret terminated.

Definition reactivate (x : element) : comp activation_result :=
  catch
    (r ← consume x;
     match r with
     | dropped => mret dropped_msg
     | consumed =>
         cleanup_behaviors;;
         done ← finalize;
         mret (if (done : bool) then terminated else success)
     | skipped => mret skipped_msg
     end)
    handle_exception.

(** ** The event loop *)

Definition unstash : comp unit :=
  xs ← gets stash_;
  m ← gets mailbox;
  match unstash_loop push_front xs m with
  | None => stuck
  | Some m' => modify (set_stash []);; modify (set_mailbox m')
  end.

Definition push_to_stash : comp unit :=
  cur ← gets current_element_;
  match cur with
  | Some x => modify (fun s => set_stash (x :: stash_ s) s)
  | None => stuck
  end.

(** The body of the loop for one element. *)
Definition process (x : element) : comp activation_result :=
  res ← reactivate x;
  (match res with
   | success => unstash
   | skipped_msg => push_to_stash
   | _ => mret tt
   end);; mret res.

Inductive resume_result := resume_later | awaiting_message | done | shutdown_execution_unit.

(** Where [resume] is; other threads may enqueue messages between two of these
    points.  [n] is the number of consumed messages. *)
Inductive pc :=
| at_activate
| at_loop (n : Z)
| at_inner_block (n : Z)
| at_reset (n : Z)
| at_outer_block (n : Z)
| at_end (r : resume_result).

Definition reset_timeouts_if_needed (n : Z) : comp unit :=
  if 0 <? n then set_receive_timeout else mret tt.

Definition do_try_block : comp bool :=
  m ← gets mailbox;
  let (ok, m') := try_block m in modify (set_mailbox m');; mret ok.

Definition resume_step (max_throughput : Z) (k : pc) : comp pc :=
  match k with
  | at_activate => ok ← activate; mret (if (ok : bool) then at_loop 0 else at_end done)
  | at_loop n =>
      if n <? max_throughput then
        m ← gets mailbox;
        match pop_front m with
        | None => stuck
        | Some (None, m') => modify (set_mailbox m');; mret (at_inner_block n)
        | Some (Some x, m') =>
            modify (set_mailbox m');;
            res ← process x;
            mret (match res with
                  | success => at_loop (n + 1)
                  | terminated => at_end done
                  | _ => at_loop n
                  end)
        end
      else reset_timeouts_if_needed n;; mret (at_outer_block n)
  | at_inner_block n =>
      ok ← do_try_block; mret (if (ok : bool) then at_reset n else at_loop n)
  | at_reset n => reset_timeouts_if_needed n;; mret (at_end awaiting_message)
  | at_outer_block n =>
      ok ← do_try_block;
      mret (at_end (if (ok : bool) then awaiting_message else resume_later))
  | at_end r => mret (at_end r)
  end.

(** [resume] without interference. *)
Fixpoint resume_loop (fuel : nat) (max_throughput : Z) (k : pc) : comp resume_result :=
  match fuel with
  | O => stuck
  | S fuel' =>
      match k with
      | at_end r => mret r
      | _ => k' ← resume_step max_throughput k; resume_loop fuel' max_throughput k'
      end
  end.

End ScheduledActor.

End ScheduledActor.
