(* ===== verification/EventLoop.v ===== *)
(** * The event loop (libcaf_core/caf/scheduled_actor.cpp: resume)

    What the loop of [ScheduledActor] guarantees against the mailbox interface:
    it never reorders the messages it leaves behind, it ends, it accounts for
    every message when the actor dies, and at most one thread runs the actor. *)

From stdpp Require Import gmap.
From S2P Require Import Prelude Effects MessageId LifoInbox DefaultMailbox AbstractMailbox AbstractActor LocalActor ActorState.
From S2P Require Import ScheduledActor.

Module EventLoop.

Import Effects DefaultMailbox AbstractMailbox LocalActor ActorState ScheduledActor.

Section Loop.

Context {M U : Type} `{MB : Mailbox content M} `{ML : !MailboxLaws content M}.
Context (self : Z) (react : callback -> U -> list cmd * reply * U).
Context (timeout_of : behavior -> option Z) (is_disposed : U -> Z -> bool) (is_remote : Z -> bool).
Context (alive_ref : Z -> bool) (visit_order : gset Z -> list Z) (rounds nesting : nat).

#[local] Abbreviation actor := (actor M U).
#[local] Abbreviation comp := (comp actor).

(** ** What every part of the actor respects *)

(** The members that decide when an actor ends. *)
Definition life (s : actor) := (base s, is_shutting_down s, bhvrs s, actions_ s, delayed_actions_this_run_ s).

(** What a relation on actors has to respect: nothing else touches mailbox,
    stash and life of an actor. *)
Record obligations (R : actor -> actor -> Prop) : Prop := {
  o_same s s' : mailbox s' = mailbox s -> stash_ s' = stash_ s -> life s' = life s -> R s s';
  o_enqueue x : keeps R (enqueue self x);
  o_become b d : keeps R (become timeout_of b d);
  o_unbecome : keeps R unbecome;
  o_delay a : keeps R (delay self a);
  o_run_actions call : (forall cb, keeps R (call cb)) -> keeps R (run_actions is_disposed call);
  o_quit call e : keeps R (cancel_flows_and_streams self is_disposed visit_order rounds call) ->
    keeps R (quit self is_disposed visit_order rounds call e);
}.

(** Then everything up to [consume] respects it, and so does everything else
    if the steps of termination do. *)
Section Respect.

Context (R : actor -> actor -> Prop) `{!PreOrder R} (O : obligations R).
#[local] Hint Resolve o_enqueue o_become o_unbecome o_delay : keeps.

(** An update of another member. *)
Lemma keeps_update (f : actor -> actor) :
  (forall s, mailbox (f s) = mailbox s /\ stash_ (f s) = stash_ s /\ life (f s) = life s) -> keeps R (modify f).
Proof. intros H s. destruct (H s) as (? & ? & ?). by apply (o_same _ O). Qed.

Ltac update :=
  apply keeps_update; intros ?; split_and!; (reflexivity || (repeat case_match; reflexivity)).

Ltac frame := repeat first [keeps_step | update].

Lemma R_emit e : keeps R (emit e).
Proof. update. Qed.
#[local] Hint Resolve R_emit : keeps.

Lemma R_send_mail m : keeps R (send_mail self m).
Proof. unfold send_mail. frame. Qed.
#[local] Hint Resolve R_send_mail : keeps.

Lemma R_send_mails ms : keeps R (send_mails self ms).
Proof. unfold send_mails. frame. Qed.
#[local] Hint Resolve R_send_mails : keeps.

Lemma R_new_request_id high : keeps R (new_request_id high).
Proof. unfold new_request_id. frame. Qed.

Lemma R_new_u64_id : keeps R new_u64_id.
Proof. unfold new_u64_id. frame. Qed.
#[local] Hint Resolve R_new_request_id R_new_u64_id : keeps.

Lemma R_respond c : keeps R (respond self c).
Proof. unfold respond. frame. Qed.
#[local] Hint Resolve R_respond : keeps.

Lemma R_visit_result v : keeps R (visit_result self v).
Proof. unfold visit_result. frame. Qed.

Lemma R_dispose_timer : keeps R dispose_timer.
Proof. unfold dispose_timer, discard_timer. frame. Qed.

Lemma R_start_timer b d : keeps R (start_timer b d).
Proof. unfold start_timer. frame. Qed.
#[local] Hint Resolve R_visit_result R_dispose_timer R_start_timer : keeps.

Lemma R_set_receive_timeout : keeps R set_receive_timeout.
Proof. unfold set_receive_timeout. frame. Qed.
#[local] Hint Resolve R_set_receive_timeout : keeps.

Lemma R_schedule a : keeps R (schedule self a).
Proof. unfold schedule. frame. Qed.

Lemma R_request to high t c aw b : keeps R (request self to high t c aw b).
Proof. unfold request, add_awaited_response_handler, add_multiplexed_response_handler. frame. Qed.

Lemma R_set_idle_handler d m h : keeps R (set_idle_handler d m h).
Proof. unfold set_idle_handler. frame. Qed.

Lemma R_make_promise p : keeps R (make_promise self p).
Proof. unfold make_promise. frame. Qed.

Lemma R_with_promise p f : keeps R (with_promise self p f).
Proof. unfold with_promise. frame. Qed.

Lemma R_put_forwarder i f : keeps R (put_forwarder i f).
Proof. update. Qed.

Lemma R_update_watched : keeps R (update_watched_disposables is_disposed).
Proof. update. Qed.
#[local] Hint Resolve R_schedule R_request R_set_idle_handler
  R_make_promise R_with_promise R_put_forwarder R_update_watched : keeps.

Section Calls.

Context (call : callback -> comp reply) (Hcall : forall cb, keeps R (call cb)).
#[local] Hint Resolve Hcall : keeps.

Lemma R_run_actions : keeps R (run_actions is_disposed call).
Proof. by apply (o_run_actions _ O). Qed.

Lemma R_forwarder_cancel i : keeps R (forwarder_cancel self call i).
Proof. unfold forwarder_cancel. frame. Qed.

Lemma R_forwarder_request i n : keeps R (forwarder_request call i n).
Proof. unfold forwarder_request. frame. Qed.

Lemma R_dispose_loop fuel : keeps R (dispose_loop call fuel).
Proof. induction fuel as [|fuel IH]; cbn [dispose_loop]; frame. Qed.
#[local] Hint Resolve R_run_actions R_forwarder_cancel R_forwarder_request R_dispose_loop : keeps.

Lemma R_cancel_flows : keeps R (cancel_flows_and_streams self is_disposed visit_order rounds call).
Proof. unfold cancel_flows_and_streams. frame. Qed.
#[local] Hint Resolve R_cancel_flows : keeps.

Lemma R_quit e : keeps R (quit self is_disposed visit_order rounds call e).
Proof. apply (o_quit _ O), R_cancel_flows. Qed.
#[local] Hint Resolve R_quit : keeps.

Lemma R_call_handler {H T} get set (run : H -> comp T) :
  (forall h s, mailbox (set h s) = mailbox s /\ stash_ (set h s) = stash_ s /\ life (set h s) = life s) ->
  (forall h, keeps R (run h)) -> keeps R (call_handler get set run).
Proof.
  intros Hset Hrun. unfold call_handler.
  assert (forall h, keeps R (modify (set h))) as Hs by (intros h; apply keeps_update; intros s; apply Hset).
  frame.
Qed.

Lemma R_call_error_handler e :
  keeps R (call_error_handler self is_disposed visit_order rounds call e).
Proof. apply R_call_handler; [done|]. intros []; unfold run_error_handler; frame. Qed.

Lemma R_run_default c h : keeps R (run_default_handler self is_disposed visit_order rounds call c h).
Proof. unfold run_default_handler. frame. Qed.
#[local] Hint Resolve R_call_error_handler R_run_default : keeps.

Lemma R_exec_cmd c : keeps R (exec_cmd self timeout_of is_disposed visit_order rounds call c).
Proof.
  destruct c; cbn [exec_cmd];
    unfold forwarder_subscribed, forwarder_next, forwarder_error, forwarder_complete, with_forwarder; frame.
Qed.

End Calls.

Lemma R_call_with exec cb : (forall c, keeps R (exec c)) -> keeps R (call_with react exec cb).
Proof.
  intros He. unfold call_with. frame.
Qed.

Lemma R_call_nested n cb :
  keeps R (call_nested self react timeout_of is_disposed visit_order rounds n cb).
Proof.
  revert cb. induction n as [|n IH]; intros cb; cbn [call_nested]; [frame|].
  apply R_call_with. intros c. by apply R_exec_cmd.
Qed.

#[local] Abbreviation call := (call self react timeout_of is_disposed visit_order rounds nesting).

Lemma R_call cb : keeps R (call cb).
Proof. apply R_call_nested. Qed.
#[local] Hint Resolve R_call R_run_actions R_forwarder_cancel R_forwarder_request
  R_cancel_flows R_quit R_call_error_handler R_run_default : keeps.

Lemma R_handle_timeout :
  keeps R (handle_timeout self react timeout_of is_disposed visit_order rounds nesting).
Proof. unfold handle_timeout, discard_timer. frame. Qed.

Lemma R_open_stream i k k' :
  keeps R (open_stream self react timeout_of is_disposed is_remote visit_order rounds nesting i k k').
Proof. unfold open_stream, with_forwarder. frame. Qed.
#[local] Hint Resolve R_handle_timeout R_open_stream : keeps.

Lemma R_categorize c :
  keeps R (categorize self react timeout_of is_disposed is_remote visit_order rounds nesting c).
Proof. destruct c; cbn [categorize]; unfold reply_to_sys_get; frame. Qed.
#[local] Hint Resolve R_categorize : keeps.

Lemma R_invoke_response b c :
  keeps R (invoke_response self react timeout_of is_disposed visit_order rounds nesting b c).
Proof. unfold invoke_response, invoke. frame. Qed.
#[local] Hint Resolve R_invoke_response : keeps.

Lemma R_fallback c :
  keeps R (fallback_dispatch self react timeout_of is_disposed visit_order rounds nesting c).
Proof.
  destruct c; cbn [fallback_dispatch]; unfold default_dispatch;
    (apply keeps_bind; [apply _| |frame]); try (frame; fail);
    apply R_call_handler; try done; intros [];
    unfold run_exit_handler, run_down_handler, run_node_down_handler; frame.
Qed.
#[local] Hint Resolve R_fallback : keeps.

Lemma R_consume x :
  keeps R (consume self react timeout_of is_disposed is_remote visit_order rounds nesting x).
Proof. unfold consume, dispose_request_timer. frame. Qed.

Lemma R_initialize : keeps R (initialize self react timeout_of is_disposed visit_order rounds nesting).
Proof. unfold initialize. frame. Qed.

(** The steps of termination. *)
Context (R_close : keeps R (close_mailbox self)).
Context (R_terminate : keeps R (modify (fun s =>
  set_base (AbstractActor.cleanup alive_ref (AbstractActor.fail_state_ (base s)) (base s)).2 s))).
#[local] Hint Resolve R_close R_initialize R_consume : keeps.

Lemma R_cleanup : keeps R (cleanup self react timeout_of is_disposed alive_ref visit_order rounds nesting).
Proof.
  unfold cleanup. intros s. unfold gets, mbind at 1, comp_bind at 1. specialize (R_terminate s). unfold modify in R_terminate.
  destruct (AbstractActor.cleanup _ _ _) as [[did evs] b']. cbn [snd] in R_terminate. rename R_terminate into Hb.
  assert (keeps R (for_each (fun e => emit (observed e)) evs;;
    (if did then on_cleanup self react timeout_of is_disposed visit_order rounds nesting else mret tt);; mret did)) as Hk.
  { unfold on_cleanup. frame. }
  unfold modify, mbind at 1, comp_bind at 1. specialize (Hk (set_base b' s)).
  match goal with |- match ?x with _ => _ end => destruct x end; [etransitivity; [exact Hb|exact Hk]..|done].
Qed.
#[local] Hint Resolve R_cleanup : keeps.

Lemma R_finalize : keeps R (finalize self react timeout_of is_disposed alive_ref visit_order rounds nesting).
Proof. unfold finalize, cleanup_behaviors. frame. Qed.
#[local] Hint Resolve R_finalize : keeps.

Lemma R_exception_handler e :
  keeps R (call_handler exception_handler_ set_exception_handler
    (run_exception_handler call e)).
Proof. apply R_call_handler; [done|]. intros []; unfold run_exception_handler; frame. Qed.
#[local] Hint Resolve R_exception_handler : keeps.

Lemma R_activate : keeps R (activate self react timeout_of is_disposed alive_ref visit_order rounds nesting).
Proof. unfold activate, handle_init_exception. frame. Qed.

Lemma R_reactivate x :
  keeps R (reactivate self react timeout_of is_disposed is_remote alive_ref visit_order rounds nesting x).
Proof. unfold reactivate, handle_exception, cleanup_behaviors. frame. Qed.

End Respect.

(** A relation on mailboxes and stashes only. *)
Section BoxOnly.

Context (R : actor -> actor -> Prop) `{!PreOrder R}.
Context (R_same : forall s s', mailbox s' = mailbox s -> stash_ s' = stash_ s -> R s s').
Context (R_enqueue : forall x, keeps R (enqueue self x)).
#[local] Hint Resolve R_enqueue : keeps.

Lemma box_modify (f : actor -> actor) :
  (forall s, mailbox (f s) = mailbox s /\ stash_ (f s) = stash_ s) -> keeps R (modify f).
Proof. intros H s. destruct (H s). by apply R_same. Qed.

Ltac box :=
  repeat first [keeps_step | apply box_modify; intros ?; split; (reflexivity || (repeat case_match; reflexivity))].

Lemma box_actions call fuel i : (forall cb, keeps R (call cb)) -> keeps R (action_loop call fuel i).
Proof. intros Hc. revert i. induction fuel as [|fuel IH]; intros i; cbn [action_loop]; box. Qed.

Lemma box_only : obligations R.
Proof.
  split.
  - auto.
  - auto.
  - intros b d. unfold become, set_receive_timeout, start_timer, dispose_timer, discard_timer, new_u64_id, emit. box.
  - unfold unbecome. box.
  - intros a. unfold delay, new_request_id, add_multiplexed_response_handler. box.
  - intros call Hc. pose proof (box_actions call) as Ha. unfold run_actions, update_watched_disposables. box.
  - intros call e Hc. unfold quit, clear_behaviors. box.
Qed.

Lemma box_terminate : keeps R (modify (fun s =>
  set_base (AbstractActor.cleanup alive_ref (AbstractActor.fail_state_ (base s)) (base s)).2 s)).
Proof. by apply box_modify. Qed.

End BoxOnly.

(** ** Messages that stay put *)

(** [v'] has the messages of [v] and newer ones behind them. *)
Definition extends (v v' : view content) : Prop :=
  exists xs, v' = fold_left (fun v x => snoc x v) xs v.

(** The actor leaves its stash alone and only adds messages to its mailbox. *)
Definition frames (s s' : actor) : Prop :=
  stash_ s' = stash_ s /\
  forall v, shows (mailbox s) v -> mode_of v = awake ->
    exists v', shows (mailbox s') v' /\ mode_of v' = awake /\ extends v v'.

#[local] Instance frames_preorder : PreOrder frames.
Proof.
  split.
  - intros s. split; [done|]. intros v Hs Hm. exists v. split_and!; try done. by exists [].
  - intros s1 s2 s3 [E1 H1] [E2 H2]. split; [congruence|]. intros v Hs Hm.
    destruct (H1 v Hs Hm) as (v1 & Hs1 & Hm1 & xs & ->).
    destruct (H2 _ Hs1 Hm1) as (v2 & Hs2 & Hm2 & ys & ->).
    eexists. split; [exact Hs2|]. split; [done|]. exists (xs ++ ys). by rewrite fold_left_app.
Qed.

Lemma frames_same s s' : mailbox s' = mailbox s -> stash_ s' = stash_ s -> frames s s'.
Proof.
  intros Em Es. split; [done|]. intros v Hs Hm. rewrite Em. exists v. split_and!; try done. by exists [].
Qed.

Lemma frames_enqueue x : keeps frames (enqueue self x).
Proof.
  unfold enqueue. intros s. unfold gets at 1, mbind at 1, comp_bind at 1.
  destruct (push_back x (mailbox s)) as [[r m']|] eqn:E; [|done].
  assert (frames s (set_mailbox m' s)) as Hf.
  { split; [done|]. intros v Hs Hm. destruct (push_back_law _ _ x Hs) as (m2 & H2). rewrite Hm, E in H2.
    destruct H2 as [[= -> ->] H2]. exists (snoc x v). split_and!; [done|by rewrite mode_snoc|].
    by exists [x]. }
  assert (forall k : comp bool, keeps frames k ->
    match (modify (set_mailbox m');; k) s with Value _ s' | Raised _ s' => frames s s' | Stuck => True end) as Hk.
  { intros k Hk. unfold modify, mbind, comp_bind. specialize (Hk (set_mailbox m' s)).
    destruct (k (set_mailbox m' s)); [by etransitivity..|done]. }
  apply Hk. assert (forall e, keeps frames (emit e)) as He.
  { intros e. apply keeps_modify. intros s1. by apply frames_same. }
  keeps.
Qed.
(** ** Results *)

Lemma frames_obligations : obligations frames.
Proof. apply box_only; [apply _|apply frames_same|apply frames_enqueue]. Qed.

Lemma keeps_value {A} (m : comp A) s x s' : keeps frames m -> m s = Value x s' -> frames s s'.
Proof. intros H E. specialize (H s). by rewrite E in H. Qed.

#[local] Abbreviation call := (call self react timeout_of is_disposed visit_order rounds nesting).
#[local] Abbreviation finalize := (finalize self react timeout_of is_disposed alive_ref visit_order rounds nesting).
#[local] Abbreviation activate := (activate self react timeout_of is_disposed alive_ref visit_order rounds nesting).
#[local] Abbreviation consume := (consume self react timeout_of is_disposed is_remote visit_order rounds nesting).
#[local] Abbreviation reactivate := (reactivate self react timeout_of is_disposed is_remote alive_ref visit_order rounds nesting).
#[local] Abbreviation process := (process self react timeout_of is_disposed is_remote alive_ref visit_order rounds nesting).
#[local] Abbreviation resume_step := (resume_step self react timeout_of is_disposed is_remote alive_ref visit_order rounds nesting).

(** An actor that goes on has kept its messages. *)
Lemma finalize_frames s s' : finalize s = Value false s' -> frames s s'.
Proof.
  unfold ScheduledActor.finalize. intros (b & s1 & [= <- <-] & H)%bind_value.
  destruct (AbstractActor.is_terminated (base s)); [done|].
  apply bind_value in H as ([] & s2 & H2 & H).
  apply keeps_value in H2; [|apply (o_run_actions _ frames_obligations); intros cb; apply R_call; [apply _|apply frames_obligations]].
  apply bind_value in H as (s3 & s4 & [= <- <-] & H). destruct (alive s2); [by injection H as <-|].
  apply bind_value in H as ([] & s5 & _ & H). apply bind_value in H as (b & s6 & _ & H). discriminate H.
Qed.

Lemma handle_exception_terminates e s r s' :
  handle_exception self react timeout_of is_disposed alive_ref visit_order rounds nesting e s = Value r s' ->
  r = terminated.
Proof.
  unfold handle_exception. intros (? & ? & _ & H)%bind_value. apply bind_value in H as (? & ? & _ & H).
  apply bind_value in H as (? & ? & _ & H). apply bind_value in H as (? & ? & _ & H). by injection H as <-.
Qed.

Lemma reactivate_frames x s r s' : reactivate x s = Value r s' -> r <> terminated -> frames s s'.
Proof.
  unfold ScheduledActor.reactivate, catch. intros H Hr.
  destruct ((consume x ≫= _) s) as [r1 s1|e s1|] eqn:E; [|exfalso|done].
  - injection H as -> ->. apply bind_value in E as (k & s2 & E1 & E2).
    apply keeps_value in E1; [|apply R_consume; [apply _|apply frames_obligations]]. destruct k.
    + apply bind_value in E2 as ([] & s3 & [= <-] & E2). apply bind_value in E2 as (fin & s4 & E3 & E4).
      destruct fin; [by injection E4 as <- _|]. injection E4 as _ <-. apply finalize_frames in E3.
      transitivity s2; [done|]. transitivity (set_erased [] s2); [by apply frames_same|done].
    + by injection E2 as _ <-.
    + by injection E2 as _ <-.
  - by apply handle_exception_terminates in H.
Qed.

Lemma activate_frames s s' : activate s = Value true s' -> frames s s'.
Proof.
  unfold ScheduledActor.activate. intros (t & t' & [= <- <-] & H)%bind_value.
  destruct (_ && _); [done|]. destruct (negb _); [|by injection H as <-].
  unfold catch in H. destruct ((initialize _ _ _ _ _ _ _ ≫= _) s) as [b s1|e s1|] eqn:E; [|exfalso|done].
  - injection H as -> ->. apply bind_value in E as ([] & s2 & E1 & E2).
    apply bind_value in E2 as (fin & s3 & E3 & [= E4 <-]). destruct fin; [done|]. apply finalize_frames in E3.
    transitivity s2; [|done]. eapply keeps_value; [|exact E1].
    apply R_initialize; [apply _|apply frames_obligations].
  - unfold handle_init_exception in H. apply bind_value in H as (e1 & t1 & _ & H).
    apply bind_value in H as ([] & t2 & _ & H). apply bind_value in H as (b & t3 & _ & H). discriminate H.
Qed.

(** ** Skipping *)

(** User code that does nothing for a message it skips: a behavior without a
    matching handler runs nothing, and a default handler that skips does nothing
    else. *)
Definition skips_quietly : Prop :=
  (forall b c u cs u', react (call_behavior b c) u = (cs, no_match, u') -> cs = []) /\
  (forall h c u cs u', react (call_default h c) u = (cs, skips, u') -> cs = []).

Section Quiet.

Context (user_quiet : skips_quietly).

Definition quiet (s s' : actor) : Prop :=
  mailbox s' = mailbox s /\ stash_ s' = stash_ s /\ current_element_ s' = current_element_ s.

#[local] Instance quiet_preorder : PreOrder quiet.
Proof. unfold quiet. split; [done|]. intros s1 s2 s3. intuition congruence. Qed.

Lemma call_quiet cb s r s' :
  call cb s = Value r s' -> (forall u cs u', react cb u = (cs, r, u') -> cs = []) -> quiet s s'.
Proof.
  unfold ScheduledActor.call. destruct nesting as [|n]; [done|]. cbn [call_nested]. unfold call_with. intros H Hq.
  apply bind_value in H as ([] & s1 & [= <-] & H). apply bind_value in H as (u & s2 & [= <- <-] & H).
  destruct (react cb _) as [[cs r'] u'] eqn:E.
  apply bind_value in H as ([] & s3 & [= <-] & H). apply bind_value in H as ([] & s4 & H4 & H).
  assert (r' = r /\ s4 = s') as [-> ->] by (destruct r'; try discriminate H; by injection H as -> ->).
  apply Hq in E as ->. injection H4 as <-. done.
Qed.

Lemma categorize_quiet c s k s' :
  categorize self react timeout_of is_disposed is_remote visit_order rounds nesting c s = Value k s' ->
  k <> internal -> quiet s s'.
Proof.
  intros H Hk. revert H. destruct c; cbn [categorize]; try (by intros [= _ <-]);
    try (intros (? & ? & _ & H)%bind_value; first [by injection H as <- |
      apply bind_value in H as (? & ? & _ & H); by injection H as <-]).
  intros ([] & s1 & [= <-] & H)%bind_value. case_bool_decide; [|by injection H as _ <-].
  apply bind_value in H as (? & ? & _ & H). by injection H as <-.
Qed.

Lemma default_dispatch_quiet c s s' :
  default_dispatch self react timeout_of is_disposed visit_order rounds nesting c s = Value skipped s' -> quiet s s'.
Proof.
  unfold default_dispatch. intros (r & s1 & H1 & H)%bind_value.
  destruct r as [v|]; [apply bind_value in H as (? & ? & _ & H); discriminate H|]. injection H as <-.
  unfold call_handler in H1. apply bind_value in H1 as (g & s2 & [= <- <-] & H1).
  apply bind_value in H1 as ([] & s3 & [= <-] & H1). destruct (default_handler_ s) as [g|]; [|done].
  apply bind_value in H1 as (r & s4 & H4 & H1). apply bind_value in H1 as (f & s5 & [= <- <-] & H1).
  assert (quiet s4 s1 /\ r = None) as [Hq ->].
  { destruct (default_handler_ s4); [by injection H1 as -> <-|].
    apply bind_value in H1 as ([] & s6 & [= <-] & H1). by injection H1 as -> <-. }
  transitivity s4; [|done]. transitivity (set_default_handler None s); [done|].
  destruct g; cbn [run_default_handler] in H4;
    try (repeat (apply bind_value in H4 as (? & ? & _ & H4)); discriminate H4).
  - by injection H4 as <-.
  - apply bind_value in H4 as (cur & s7 & _ & H4). destruct cur; discriminate H4.
  - apply bind_value in H4 as (r & s7 & H7 & H4). destruct r; try discriminate H4. injection H4 as <-.
    eapply call_quiet; [exact H7|]. apply (proj2 user_quiet).
Qed.

Lemma fallback_quiet c s s' :
  fallback_dispatch self react timeout_of is_disposed visit_order rounds nesting c s = Value skipped s' -> quiet s s'.
Proof.
  destruct c; cbn [fallback_dispatch];
    first [apply default_dispatch_quiet | intros (? & ? & _ & H)%bind_value; discriminate H].
Qed.

Lemma fallback_not_dropped c s s' :
  fallback_dispatch self react timeout_of is_disposed visit_order rounds nesting c s <> Value dropped s'.
Proof.
  intros H. destruct c; cbn [fallback_dispatch] in H; unfold default_dispatch in H;
    apply bind_value in H as (r & ? & _ & H); try discriminate H; destruct r; try discriminate H;
    apply bind_value in H as (? & ? & _ & H); discriminate H.
Qed.

(** A message that is not consumed leaves no trace on mailbox and stash. *)
Lemma consume_quiet x s r s' :
  consume x s = Value r s' -> r <> consumed ->
  mailbox s' = mailbox s /\ stash_ s' = stash_ s /\ current_element_ s' = Some x.
Proof.
  unfold ScheduledActor.consume. intros H Hr.
  apply bind_value in H as ([] & s0 & [= <-] & H). set (s1 := set_current_element (Some x) s) in H.
  cut (quiet s1 s'); [by intros (-> & -> & ->)|].
  apply bind_value in H as (aw & s2 & [= <- <-] & H).
  destruct (awaited_responses_ s) as [|[[i f] timer] aw'].
  - destruct (MessageId.is_response (mid x)).
    + apply bind_value in H as (mr & s2 & [= <- <-] & H).
      destruct (flat_find _ _) as [[f timer]|]; [|by injection H as _ <-].
      do 3 (apply bind_value in H as ([] & ? & _ & H)). injection H as <- _. done.
    + apply bind_value in H as (k & s2 & Hk & H).
      destruct k; [|by injection H as <- _|injection H as _ <-; by apply categorize_quiet in Hk].
      apply categorize_quiet in Hk; [|done]. transitivity s2; [done|].
      apply bind_value in H as (bs & s3 & [= <- <-] & H). destruct (bhvrs s2) as [|b bs].
      * destruct r; [done|by apply fallback_quiet in H|by apply fallback_not_dropped in H].
      * apply bind_value in H as (rep & s4 & Hc & H). destruct rep; try done.
        -- transitivity s4; [eapply call_quiet; [exact Hc|apply (proj1 user_quiet)]|].
           destruct r; [done|by apply fallback_quiet in H|by apply fallback_not_dropped in H].
        -- apply bind_value in H as ([] & ? & _ & H). by injection H as <- _.
  - destruct (negb _).
    + destruct (MessageId.is_response (mid x)); [by injection H as _ <-|].
      apply bind_value in H as (k & s2 & Hk & H).
      destruct k; [|by injection H as <- _|]; injection H as _ <-; by apply categorize_quiet in Hk.
    + do 3 (apply bind_value in H as ([] & ? & _ & H)). by injection H as <- _.
Qed.

Lemma reactivate_quiet x s r s' :
  reactivate x s = Value r s' -> r = skipped_msg \/ r = dropped_msg ->
  mailbox s' = mailbox s /\ stash_ s' = stash_ s /\ current_element_ s' = Some x.
Proof.
  unfold ScheduledActor.reactivate, catch. intros H Hr.
  destruct ((consume x ≫= _) s) as [r1 s1|e s1|] eqn:E; [|exfalso|done].
  - injection H as -> ->. apply bind_value in E as (k & s2 & E1 & E2). destruct k.
    + apply bind_value in E2 as ([] & ? & _ & E2). apply bind_value in E2 as (fin & ? & _ & [= <- _]).
      destruct fin, Hr; done.
    + injection E2 as _ <-. by eapply consume_quiet.
    + injection E2 as _ <-. by eapply consume_quiet.
  - apply handle_exception_terminates in H as ->. by destruct Hr.
Qed.

(** Processing such a message moves at most this message. *)
Lemma process_quiet x s r s' :
  process x s = Value r s' -> r = skipped_msg \/ r = dropped_msg ->
  mailbox s' = mailbox s /\ stash_ s' = if decide (r = skipped_msg) then x :: stash_ s else stash_ s.
Proof using user_quiet.
  unfold ScheduledActor.process. intros (r1 & s1 & H1 & H)%bind_value Hr.
  apply bind_value in H as ([] & s2 & H2 & [= -> <-]).
  destruct (reactivate_quiet _ _ _ _ H1 Hr) as (Qm & Qs & Qc). destruct Hr as [-> | ->].
  - unfold push_to_stash in H2. apply bind_value in H2 as (cur & t3 & [= <- <-] & H2).
    rewrite Qc in H2. injection H2 as <-. cbn [mailbox stash_ set_stash]. by rewrite Qm, Qs.
  - injection H2 as <-. by rewrite Qm, Qs.
Qed.

End Quiet.

(** ** Selective receive *)

Definition lane_of (b : bool) (v : view content) : list element :=
  if b then urgent_msgs v else normal_msgs v.

(** The unprocessed messages of one priority, oldest first: those skipped since
    the last consumed message, then those in the mailbox. *)
Definition unprocessed (b : bool) (s : actor) (v : view content) : list element :=
  of_prio b (reverse (stash_ s)) ++ lane_of b v.

Lemma lane_of_snocs b xs v :
  lane_of b (fold_left (fun v x => snoc x v) xs v) = lane_of b v ++ of_prio b xs.
Proof.
  revert v. induction xs as [|x xs IH]; intros v; [by rewrite app_nil_r|]. cbn [fold_left]. rewrite IH.
  change (x :: xs) with ([x] ++ xs). unfold of_prio at 2. rewrite filter_app, app_assoc. f_equal.
  unfold snoc, is_urgent. rewrite filter_cons, filter_nil.
  destruct (MessageId.is_urgent_message (mid x)), b; cbn [lane_of urgent_msgs normal_msgs]; by rewrite ?app_nil_r.
Qed.

Lemma lane_of_restore b xs v : lane_of b (restore xs v) = of_prio b (reverse xs) ++ lane_of b v.
Proof. destruct (restore_lanes xs v) as [Hu Hn]. by destruct b. Qed.

Lemma lane_of_front b x v : lane_of b (cons_front x v) = of_prio b [x] ++ lane_of b v.
Proof.
  unfold cons_front, is_urgent, of_prio. rewrite filter_cons, filter_nil.
  by destruct (MessageId.is_urgent_message (mid x)), b.
Qed.

Lemma unstash_spec (s s' : actor) v :
  unstash s = Value tt s' -> shows (mailbox s) v -> mode_of v = awake ->
  stash_ s' = [] /\ shows (mailbox s') (restore (stash_ s) v).
Proof.
  unfold unstash. intros (xs & s1 & [= <- <-] & H)%bind_value Hs Hm.
  apply bind_value in H as (m & s2 & [= <- <-] & H).
  destruct (unstash_loop_spec (stash_ s) _ _ Hs Hm) as (m' & E & Hs'). rewrite E in H.
  apply bind_value in H as ([] & s3 & [= <-] & H). by injection H as <-.
Qed.

(** What [consume] says about a message decides how [reactivate] ends. *)
Lemma reactivate_result x s r s' :
  reactivate x s = Value r s' -> r <> terminated ->
  exists c s1, consume x s = Value c s1 /\
    match c with
    | consumed => r = success
    | skipped => r = skipped_msg /\ s' = s1
    | dropped => r = dropped_msg /\ s' = s1
    end.
Proof.
  unfold ScheduledActor.reactivate, catch. intros H Hr.
  destruct ((consume x ≫= _) s) as [r1 s1|e s1|] eqn:E; [|by apply handle_exception_terminates in H|done].
  injection H as -> ->. apply bind_value in E as (c & s2 & E1 & E2). exists c, s2. split; [done|]. destruct c.
  - apply bind_value in E2 as ([] & ? & _ & E2). apply bind_value in E2 as (fin & ? & _ & [= <- _]). by destruct fin.
  - by injection E2 as <- <-.
  - by injection E2 as <- <-.
Qed.

(** [v] with newer messages behind it. *)
Definition with_new (new : list element) (v : view content) : view content := fold_left (fun v x => snoc x v) new v.

(** What processing one message leaves behind, by the result of [consume]. *)
Lemma process_spec x s r s' v :
  process x s = Value r s' -> shows (mailbox s) v -> mode_of v = awake -> r <> terminated ->
  exists c s1 v' new, consume x s = Value c s1 /\ shows (mailbox s') v' /\ mode_of v' = awake /\
    match c with
    | consumed => r = success /\ stash_ s' = [] /\ v' = restore (stash_ s) (with_new new v)
    | skipped => r = skipped_msg /\ v' = with_new new v /\
        exists x', current_element_ s1 = Some x' /\ stash_ s' = x' :: stash_ s
    | dropped => r = dropped_msg /\ v' = with_new new v /\ stash_ s' = stash_ s
    end.
Proof.
  unfold ScheduledActor.process. intros (r1 & s1 & H1 & H)%bind_value Hs Hm Hr.
  apply bind_value in H as ([] & s2 & H2 & [= -> <-]).
  destruct (reactivate_frames _ _ _ _ H1 Hr) as [Est Hfr].
  destruct (reactivate_result _ _ _ _ H1 Hr) as (c & t & Hc & Hres). exists c, t.
  destruct (Hfr v Hs Hm) as (v1 & Hs1 & Hm1 & new & ->).
  destruct c; [subst r|destruct Hres as [-> <-]..].
  - destruct (unstash_spec _ _ _ H2 Hs1 Hm1) as [En Hs2]. eexists _, new.
    split_and!; [done|exact Hs2|by rewrite mode_restore|done..|]. by rewrite Est.
  - exists (with_new new v), new. unfold push_to_stash in H2. apply bind_value in H2 as (cur & t3 & [= <- <-] & H2).
    destruct (current_element_ s1) as [x'|]; [|done]. injection H2 as <-. split_and!; [done..|].
    exists x'. split; [done|]. cbn [stash_ set_stash]. by rewrite Est.
  - exists (with_new new v), new. injection H2 as <-. by split_and!.
Qed.

(** One round of the loop. *)
Lemma loop_step max n s k s' v :
  shows (mailbox s) v -> mode_of v = awake -> n < max ->
  resume_step max (at_loop n) s = Value k s' ->
  (k = at_inner_block n /\ all_msgs v = [] /\ shows (mailbox s') v /\ stash_ s' = stash_ s) \/
  exists x rest m' res, v = cons_front x rest /\ shows m' rest /\
    process x (set_mailbox m' s) = Value res s' /\
    k = match res with success => at_loop (n + 1) | terminated => at_end done | _ => at_loop n end.
Proof.
  intros Hs Hm Hn H. cbn [ScheduledActor.resume_step] in H. rewrite (proj2 (Z.ltb_lt _ _) Hn) in H.
  apply bind_value in H as (m & s1 & [= <- <-] & H).
  destruct (pop_front_law _ _ Hs Hm) as (r & m' & E & Hr). rewrite E in H. destruct r as [x|].
  - destruct Hr as (rest & -> & Hs'). apply bind_value in H as ([] & s2 & [= <-] & H).
    apply bind_value in H as (res & s3 & Hp & [= <- <-]). right. by exists x, rest, m', res.
  - apply bind_value in H as ([] & s2 & [= <-] & [= <- <-]). destruct Hr as [Ha Hs']. by left.
Qed.


(** ** Termination of [resume] *)

(** [y] is where the loop is after one step from [x]. *)
Definition resume_next (max : Z) (y x : pc * actor) : Prop :=
  (forall r, x.1 <> at_end r) /\ resume_step max x.1 x.2 = Value y.1 y.2.

Lemma acc_end max r s : Acc (resume_next max) (at_end r, s).
Proof. constructor. intros y [H _]. by destruct (H r). Qed.

Lemma acc_reset max n s : Acc (resume_next max) (at_reset n, s).
Proof.
  constructor. intros [k s'] [_ H]. simpl in H. apply bind_value in H as ([] & s1 & _ & [= <- _]). apply acc_end.
Qed.

Lemma acc_outer max n s : Acc (resume_next max) (at_outer_block n, s).
Proof.
  constructor. intros [k s'] [_ H]. simpl in H. apply bind_value in H as (ok & s1 & _ & [= <- _]). apply acc_end.
Qed.

Lemma acc_inner max n s v :
  shows (mailbox s) v -> mode_of v = awake -> all_msgs v = [] -> Acc (resume_next max) (at_inner_block n, s).
Proof.
  intros Hs Hm Ha. constructor. intros [k s'] [_ H]. simpl in H.
  apply bind_value in H as (ok & s1 & Hb & [= <- <-]). unfold do_try_block in Hb.
  apply bind_value in Hb as (m & s2 & [= <- <-] & Hb).
  destruct (try_block_law _ _ Hs Hm) as (m' & E & _). rewrite E, bool_decide_true in Hb by done.
  apply bind_value in Hb as ([] & s3 & _ & [= <- _]). apply acc_reset.
Qed.

Lemma acc_loop max g : skips_quietly -> forall len n s v,
  Z.to_nat (max - n) = g -> length (all_msgs v) = len ->
  shows (mailbox s) v -> mode_of v = awake -> Acc (resume_next max) (at_loop n, s).
Proof.
  intros Hq. induction g as [g IHg] using lt_wf_ind. induction len as [len IHlen] using lt_wf_ind.
  intros n s v Hg Hlen Hs Hm. constructor. intros [k s'] [_ H]. cbn [fst snd] in H.
  destruct (Z.ltb_spec n max) as [Hn|Hn].
  - destruct (loop_step _ _ _ _ _ _ Hs Hm Hn H) as [(-> & Ha & Hs' & _)|(x & rest & m' & res & -> & Hs' & Hp & ->)].
    + by apply (acc_inner _ _ _ v).
    + rewrite mode_cons in Hm. rewrite (Permutation_length (all_msgs_cons x rest)) in Hlen. simpl in Hlen.
      destruct (decide (res = terminated)) as [->|Hr]; [apply acc_end|].
      destruct (decide (res = success)) as [->|Hsuc].
      { destruct (process_spec _ _ _ _ rest Hp Hs' Hm Hr) as (c & s1 & v' & new & _ & Hs3 & Hm3 & _).
        by apply (IHg (Z.to_nat (max - (n + 1))) ltac:(lia) (length (all_msgs v')) _ _ v'). }
      assert (res = skipped_msg \/ res = dropped_msg) as Hres by (destruct res; auto; done).
      destruct (process_quiet Hq _ _ _ _ Hp Hres) as [Em _].
      destruct Hres as [-> | ->]; (apply (IHlen (length (all_msgs rest)) ltac:(lia) _ _ rest); [done..|by rewrite Em|done]).
  - cbn [ScheduledActor.resume_step] in H. rewrite (proj2 (Z.ltb_ge _ _) Hn) in H.
    apply bind_value in H as ([] & s1 & _ & [= <- <-]). apply acc_outer.
Qed.

(** [resume] does not go on forever.  If user code does nothing else for the
    messages that it skips and its calls return, every run of the event loop from
    a state with a valid mailbox is finite, as long as nobody else sends messages
    meanwhile: it stops after [max_throughput] consumed messages, or when the
    mailbox is exhausted, however many messages the actor skips, drops, or sends
    to itself.  (A default handler that sends a message to its own actor and skips
    the current one keeps the loop busy.) *)
Theorem resume_terminates max s v :
  skips_quietly -> shows (mailbox s) v -> mode_of v = awake -> Acc (resume_next max) (at_activate, s).
Proof.
  intros Hq Hs Hm. constructor. intros [k s'] [_ H]. cbn [fst snd ScheduledActor.resume_step] in H.
  apply bind_value in H as (ok & s1 & Ha & [= <- <-]). destruct ok; [|apply acc_end].
  apply activate_frames in Ha as [_ Ha]. destruct (Ha v Hs Hm) as (v' & Hs' & Hm' & _).
  by apply (acc_loop _ _ Hq _ _ _ v' eq_refl eq_refl).
Qed.

(** ** One thread at a time *)

(** The mailbox stays valid and the actor does not start to wait. *)
Definition stays_valid (s s' : actor) : Prop :=
  forall v, shows (mailbox s) v -> mode_of v <> waiting ->
    exists v', shows (mailbox s') v' /\ mode_of v' <> waiting.

#[local] Instance stays_valid_preorder : PreOrder stays_valid.
Proof.
  split; [intros s v; eauto|]. intros s1 s2 s3 H1 H2 v Hs Hm. destruct (H1 v Hs Hm) as (v' & Hs' & Hm'). eauto.
Qed.

Lemma stays_valid_same (s s' : actor) : mailbox s' = mailbox s -> stays_valid s s'.
Proof. intros E v Hs Hm. rewrite E. eauto. Qed.

Lemma stays_valid_emit e : keeps stays_valid (emit e).
Proof. apply keeps_modify. intros s. by apply stays_valid_same. Qed.
#[local] Hint Resolve stays_valid_emit : keeps.

(** A computation that starts by replacing the mailbox. *)
Lemma stays_valid_box {A} m' (k : comp A) (s : actor) :
  stays_valid s (set_mailbox m' s) -> keeps stays_valid k ->
  match (modify (set_mailbox m');; k) s with Value _ s' | Raised _ s' => stays_valid s s' | Stuck => True end.
Proof.
  intros Hm Hk. unfold modify, mbind, comp_bind. specialize (Hk (set_mailbox m' s)).
  destruct (k (set_mailbox m' s)); [by etransitivity..|done].
Qed.

Lemma stays_valid_enqueue x : keeps stays_valid (enqueue self x).
Proof.
  unfold enqueue. intros s. unfold gets at 1, mbind at 1, comp_bind at 1.
  destruct (push_back x (mailbox s)) as [[r m']|] eqn:E; [|done].
  apply stays_valid_box; [|keeps]. intros v Hs Hm. destruct (push_back_law _ _ x Hs) as (m2 & H2). rewrite E in H2.
  destruct (mode_of v) eqn:Ev; destruct H2 as [[= _ ->] H2]; [|done|]; eexists; (split; [exact H2|]);
    rewrite ?mode_snoc; congruence.
Qed.
#[local] Hint Resolve stays_valid_enqueue : keeps.

Lemma stays_valid_obligations : obligations stays_valid.
Proof. apply box_only; [apply _|by intros; apply stays_valid_same|apply stays_valid_enqueue]. Qed.

Lemma stays_valid_terminate : keeps stays_valid (modify (fun s =>
  set_base (AbstractActor.cleanup alive_ref (AbstractActor.fail_state_ (base s)) (base s)).2 s)).
Proof. apply box_terminate. by intros; apply stays_valid_same. Qed.

Lemma stays_valid_close : keeps stays_valid (close_mailbox self).
Proof.
  unfold close_mailbox. apply keeps_bind; [apply _|keeps|]. intros xs. apply keeps_bind; [apply _| |].
  { apply keeps_modify. intros s. by apply stays_valid_same. }
  intros _. apply keeps_bind; [apply _| |].
  { unfold send_mails, send_mail. keeps. }
  intros _ s. unfold gets at 1, mbind at 1, comp_bind at 1. destruct (closed (mailbox s)) eqn:Ec; [by apply stays_valid_same|].
  destruct (close (mailbox s)) as [[[n bs] m']|] eqn:E; [|done].
  apply stays_valid_box; [|unfold emit_bounced; keeps]. intros v Hs _.
  destruct (close_law _ _ Hs) as (bs2 & m2 & E2 & _ & H2).
  - intros Hm. by rewrite (closed_law _ _ Hs), Hm in Ec.
  - rewrite E in E2. injection E2 as _ _ ->. eexists. split; [exact H2|done].
Qed.

Definition same_box (s s' : actor) : Prop := mailbox s' = mailbox s.

#[local] Instance same_box_preorder : PreOrder same_box.
Proof. unfold same_box. split; [done|]. intros s1 s2 s3. congruence. Qed.

Lemma same_box_set_receive_timeout : keeps same_box set_receive_timeout.
Proof.
  unfold set_receive_timeout, dispose_timer, discard_timer, start_timer, new_u64_id.
  repeat first [keeps_step | apply keeps_modify; intros ?; reflexivity].
Qed.

(** A system around one actor: entries for it in job queues (or about to be
    added there by a thread that unblocked it), the threads that are inside
    [resume], and whether one of them found that the actor is done. *)
Record world := mk_world { act : actor; jobs : nat; threads : list pc; ended : bool }.

Definition is_done (k : pc) : bool := match k with at_end done => true | _ => false end.

Inductive world_step (max : Z) : world -> world -> Prop :=
| world_enqueue w x r m' b s' :
    push_back x (mailbox (act w)) = Some (r, m') -> enqueue self x (act w) = Value b s' ->
    world_step max w (mk_world s' (if decide (r = unblocked_reader) then S (jobs w) else jobs w) (threads w) (ended w))
| world_start w j :
    jobs w = S j -> world_step max w (mk_world (act w) j (threads w ++ [at_activate]) (ended w))
| world_run w i k k' s' :
    threads w !! i = Some k -> (forall r, k <> at_end r) -> resume_step max k (act w) = Value k' s' ->
    world_step max w (mk_world s' (jobs w) (<[i := k']> (threads w)) (ended w || is_done k'))
| world_finish w i r :
    threads w !! i = Some (at_end r) ->
    world_step max w (mk_world (act w)
      (match r with resume_later => S (jobs w) | _ => jobs w end) (delete i (threads w)) (ended w)).

(** Threads that run the actor's code or will hand it to the scheduler. *)
Definition holds_actor (k : pc) : bool :=
  match k with
  | at_activate | at_loop _ | at_inner_block _ | at_outer_block _ | at_end resume_later => true
  | _ => false
  end.

Fixpoint holders (ks : list pc) : nat :=
  match ks with [] => 0 | k :: ks' => (if holds_actor k then 1 else 0) + holders ks' end.

Definition tokens (w : world) : nat := jobs w + holders (threads w).

Lemma holders_app ks ls : holders (ks ++ ls) = (holders ks + holders ls)%nat.
Proof. induction ks as [|k ks IH]; simpl; lia. Qed.

Lemma holders_insert i k k' ks :
  ks !! i = Some k ->
  (holders (<[i := k']> ks) + (if holds_actor k then 1 else 0) = holders ks + (if holds_actor k' then 1 else 0))%nat.
Proof.
  revert i. induction ks as [|l ks IH]; intros [|i]; simpl; try done; [intros [= ->]; lia|].
  intros H. specialize (IH _ H). lia.
Qed.

Lemma holders_delete i k ks :
  ks !! i = Some k -> (holders (delete i ks) + (if holds_actor k then 1 else 0) = holders ks)%nat.
Proof.
  revert i. induction ks as [|l ks IH]; intros [|i]; simpl; try done; [intros [= ->]; lia|].
  intros H. specialize (IH _ H). lia.
Qed.

Lemma holders_lookup i k ks : ks !! i = Some k -> holds_actor k = true -> (1 <= holders ks)%nat.
Proof. intros H Hk. pose proof (holders_delete _ _ _ H) as E. rewrite Hk in E. lia. Qed.

Lemma holders_some ks : (1 <= holders ks)%nat -> exists i k, ks !! i = Some k /\ holds_actor k = true.
Proof.
  induction ks as [|k ks IH]; cbn [holders]; [lia|]. intros H. destruct (holds_actor k) eqn:Ek.
  - by exists 0%nat, k.
  - destruct IH as (i & l & ? & ?); [lia|]. by exists (S i), l.
Qed.

Record world_ok (w : world) (v : view content) : Prop := {
  w_shows : shows (mailbox (act w)) v;
  w_empty : mode_of v = waiting -> all_msgs v = [];
  w_one : (tokens w <= 1)%nat;
  w_zero : mode_of v <> awake -> tokens w = 0%nat;
  w_kept : ended w = false -> mode_of v = awake -> tokens w = 1%nat;
}.

(** What one step of a thread does to the mailbox. *)
Definition step_effect (k k' : pc) (v v' : view content) : Prop :=
  if holds_actor k then
    if holds_actor k' then mode_of v' = awake
    else (is_done k' = true /\ mode_of v' <> waiting) \/ (is_done k' = false /\ mode_of v' = waiting /\ all_msgs v' = [])
  else holds_actor k' = false /\ is_done k' = false /\ v' = v.

Lemma try_block_effect (s : actor) (ok : bool) s' v :
  do_try_block s = Value ok s' -> shows (mailbox s) v -> mode_of v = awake ->
  exists v', shows (mailbox s') v' /\ if ok then mode_of v' = waiting /\ all_msgs v' = [] else mode_of v' = awake.
Proof.
  unfold do_try_block. intros (m & s1 & [= <- <-] & H)%bind_value Hs Hm.
  destruct (try_block_law _ _ Hs Hm) as (m' & E & Hs'). rewrite E in H.
  apply bind_value in H as ([] & s2 & [= <-] & [= <- <-]). eexists. split; [exact Hs'|].
  by case_bool_decide as Ha.
Qed.

Lemma terminated_effect {A} (m : comp A) (s : actor) x s' v :
  keeps stays_valid m -> m s = Value x s' -> shows (mailbox s) v -> mode_of v = awake ->
  exists v', shows (mailbox s') v' /\ mode_of v' <> waiting.
Proof. intros Hk E Hs Hm. specialize (Hk s). rewrite E in Hk. apply (Hk v Hs). congruence. Qed.

Lemma process_effect x s r s' v :
  process x s = Value r s' -> shows (mailbox s) v -> mode_of v = awake ->
  exists v', shows (mailbox s') v' /\ if decide (r = terminated) then mode_of v' <> waiting else mode_of v' = awake.
Proof.
  intros Hp Hs Hm. case_decide as Hr.
  - subst r. unfold ScheduledActor.process in Hp. apply bind_value in Hp as (r1 & s1 & H1 & H).
    apply bind_value in H as ([] & s2 & H2 & [= -> <-]). injection H2 as <-.
    eapply terminated_effect; [|exact H1|exact Hs|exact Hm].
    apply R_reactivate; [apply _|apply stays_valid_obligations|apply stays_valid_close|apply stays_valid_terminate].
  - destruct (process_spec _ _ _ _ _ Hp Hs Hm Hr) as (_ & _ & v' & _ & _ & ? & ? & _). eauto.
Qed.

Lemma activate_effect s (ok : bool) s' v :
  activate s = Value ok s' -> shows (mailbox s) v -> mode_of v = awake ->
  exists v', shows (mailbox s') v' /\ if ok then mode_of v' = awake else mode_of v' <> waiting.
Proof.
  intros Ha Hs Hm. destruct ok.
  - apply activate_frames in Ha as [_ Ha]. destruct (Ha v Hs Hm) as (v' & ? & ? & _). eauto.
  - eapply terminated_effect; [|exact Ha|exact Hs|exact Hm].
    apply R_activate; [apply _|apply stays_valid_obligations|apply stays_valid_close|apply stays_valid_terminate].
Qed.

Lemma reset_same_box n (s s' : actor) : reset_timeouts_if_needed n s = Value tt s' -> mailbox s' = mailbox s.
Proof.
  unfold reset_timeouts_if_needed. destruct (_ <? _); [|by intros [= <-]].
  intros E. pose proof (same_box_set_receive_timeout s) as H. by rewrite E in H.
Qed.

Lemma step_effect_sound max k s k' s' v :
  shows (mailbox s) v -> (holds_actor k = true -> mode_of v = awake) -> (forall r, k <> at_end r) ->
  resume_step max k s = Value k' s' -> exists v', shows (mailbox s') v' /\ step_effect k k' v v'.
Proof.
  intros Hs Hm Hend H. destruct k; cbn [holds_actor] in Hm; [specialize (Hm eq_refl)..| |specialize (Hm eq_refl)|by destruct (Hend r)].
  - apply bind_value in H as (ok & s1 & Ha & [= <- <-]).
    destruct (activate_effect _ _ _ _ Ha Hs Hm) as (v' & Hs' & Hm'). exists v'. split; [done|]. destruct ok; [done|by left].
  - destruct (Z.ltb_spec n max) as [Hn|Hn].
    + destruct (loop_step _ _ _ _ _ _ Hs Hm Hn H) as [(-> & Ha & Hs' & _)|(x & rest & m' & res & -> & Hs' & Hp & ->)];
        [by exists v|]. rewrite mode_cons in Hm.
      destruct (process_effect _ _ _ _ _ Hp Hs' Hm) as (v' & Hs2 & Hm2). exists v'. split; [done|].
      destruct res; try done. by left.
    + cbn [ScheduledActor.resume_step] in H. rewrite (proj2 (Z.ltb_ge _ _) Hn) in H.
      apply bind_value in H as ([] & s1 & Hr & [= <- <-]). apply reset_same_box in Hr. exists v. by rewrite Hr.
  - apply bind_value in H as (ok & s1 & Hb & [= <- <-]).
    destruct (try_block_effect _ _ _ _ Hb Hs Hm) as (v' & Hs' & Hm'). exists v'. split; [done|].
    destruct ok; [by right|done].
  - apply bind_value in H as ([] & s1 & Hr & [= <- <-]). apply reset_same_box in Hr. exists v. by rewrite Hr.
  - apply bind_value in H as (ok & s1 & Hb & [= <- <-]).
    destruct (try_block_effect _ _ _ _ Hb Hs Hm) as (v' & Hs' & Hm'). exists v'. split; [done|].
    destruct ok; [by right|done].
Qed.

Lemma enqueue_box x (s : actor) b s' r m' :
  push_back x (mailbox s) = Some (r, m') -> enqueue self x s = Value b s' -> mailbox s' = m'.
Proof.
  intros E. unfold enqueue. intros (y & s1 & [= <- <-] & H)%bind_value. rewrite E in H.
  apply bind_value in H as ([] & s2 & [= <-] & H).
  match type of H with ?c _ = _ => assert (keeps same_box c) as Hk end.
  { unfold emit. repeat first [keeps_step | apply keeps_modify; intros ?; reflexivity]. }
  specialize (Hk (set_mailbox m' s)). by rewrite H in Hk.
Qed.

Lemma holder_awake w v i k :
  world_ok w v -> threads w !! i = Some k -> holds_actor k = true -> mode_of v = awake.
Proof.
  intros Hok Hi Hk. apply dec_stable. intros Hm. apply (w_zero _ _ Hok) in Hm.
  pose proof (holders_lookup _ _ _ Hi Hk). unfold tokens in Hm. lia.
Qed.

Lemma world_ok_enqueue w v x r m' b s' :
  world_ok w v -> push_back x (mailbox (act w)) = Some (r, m') -> enqueue self x (act w) = Value b s' ->
  exists v', world_ok (mk_world s' (if decide (r = unblocked_reader) then S (jobs w) else jobs w) (threads w) (ended w)) v'.
Proof.
  intros [Hs He Ho Hz Hk] E Hq. apply (enqueue_box _ _ _ _ _ _ E) in Hq. unfold tokens in *.
  destruct (push_back_law _ _ x Hs) as (m2 & H2). rewrite E in H2.
  destruct (mode_of v) eqn:Ev; destruct H2 as [[= -> ->] H2]; eexists; split; cbn [act jobs threads ended];
    rewrite ?Hq; try exact H2; rewrite ?mode_snoc, ?Ev; unfold tokens; cbn [jobs threads with_mode mode_of]; try done;
    specialize (Hz ltac:(done)); rewrite decide_True by done; lia.
Qed.

Lemma world_ok_run max w v i k k' s' :
  world_ok w v -> threads w !! i = Some k -> (forall r, k <> at_end r) -> resume_step max k (act w) = Value k' s' ->
  exists v', world_ok (mk_world s' (jobs w) (<[i := k']> (threads w)) (ended w || is_done k')) v'.
Proof.
  intros Hok Hi Hend H.
  destruct (step_effect_sound _ _ _ _ _ v (w_shows _ _ Hok) (fun h => holder_awake _ _ _ _ Hok Hi h) Hend H) as (v' & Hs' & He).
  exists v'. pose proof (holders_insert i k k' _ Hi) as Hins. unfold step_effect in He.
  pose proof (holder_awake _ _ _ _ Hok Hi) as Hawake. destruct Hok as [Hs Hw Ho Hz Hk].
  unfold tokens in *. split; unfold tokens; cbn [act jobs threads ended]; [done|..];
    (destruct (holds_actor k) eqn:Ek;
     [specialize (Hawake eq_refl); pose proof (holders_lookup _ _ _ Hi Ek);
      destruct (holds_actor k') eqn:Ek'; [|destruct He as [[Ed He]|(Ed & He & Ha)]]
     |destruct He as (Ek' & Ed & ->); rewrite Ek' in Hins]);
    rewrite ?Ed, ?orb_true_r, ?orb_false_r; try congruence; try lia; intuition (lia || congruence).
Qed.

Lemma world_ok_step max w v w' :
  world_ok w v -> world_step max w w' -> exists v', world_ok w' v'.
Proof.
  intros Hok H. destruct H as [w x r m' b s' E Hq|w j Hj|w i k k' s' Hi Hend H|w i r Hi].
  - by eapply world_ok_enqueue.
  - exists v. destruct Hok as [Hs He Ho Hz Hk].
    split; unfold tokens in *; cbn [act jobs threads ended]; rewrite ?holders_app; cbn [holders holds_actor];
      intuition lia.
  - by eapply world_ok_run.
  - exists v. destruct Hok as [Hs He Ho Hz Hk]. pose proof (holders_delete _ _ _ Hi) as Hd.
    split; unfold tokens in *; cbn [act jobs threads ended]; destruct r; cbn [holds_actor] in Hd; intuition lia.
Qed.

(** A thread that runs the actor's code. *)
Definition runs_actor (k : pc) : bool :=
  match k with at_activate | at_loop _ | at_inner_block _ | at_outer_block _ => true | _ => false end.

Lemma runs_holds k : runs_actor k = true -> holds_actor k = true.
Proof. by destruct k. Qed.

Lemma two_holders i j k l ks :
  ks !! i = Some k -> ks !! j = Some l -> i <> j -> holds_actor k = true -> holds_actor l = true -> (2 <= holders ks)%nat.
Proof.
  intros Hi Hj Hij Hk Hl. pose proof (holders_insert i k (at_end done) _ Hi) as H. rewrite Hk in H.
  cbn [holds_actor] in H.
  assert (1 <= holders (<[i := at_end done]> ks))%nat; [|lia].
  apply (holders_lookup j l); [|done]. by rewrite list_lookup_insert_ne.
Qed.

(** C2. At most one thread runs an actor, and no message is left behind.
    Take an actor with a valid mailbox that was scheduled once, and let any number
    of threads enqueue messages, pick the actor from a job queue, and execute
    [resume], in any interleaving of steps that return, whatever the user code of the
    actor does.  Then two threads are never inside the part of [resume]
    that runs the actor's code, no thread is inside while the actor is
    scheduled for execution, and unless the actor is done, a pending message
    implies that the actor is scheduled or running. *)
Theorem actor_runs_exclusively max s v w :
  shows (mailbox s) v -> mode_of v = awake -> rtc (world_step max) (mk_world s 1 [] false) w ->
  (forall i j k l, threads w !! i = Some k -> threads w !! j = Some l ->
     runs_actor k = true -> runs_actor l = true -> i = j) /\
  (forall i k, threads w !! i = Some k -> runs_actor k = true -> jobs w = 0%nat) /\
  exists v', shows (mailbox (act w)) v' /\
    (ended w = false -> all_msgs v' <> [] -> mode_of v' <> shut ->
     jobs w = 1%nat \/ exists i k, threads w !! i = Some k /\ holds_actor k = true).
Proof.
  intros Hs Hm Hsteps.
  assert (exists v', world_ok w v') as (v' & Hok).
  { assert (exists v', world_ok (mk_world s 1 [] false) v') as H0.
    { exists v. split; unfold tokens; cbn [jobs threads holders]; try lia; try done; by rewrite Hm. }
    revert H0. clear Hs Hm. induction Hsteps as [|w1 w2 w3 H12 _ IH]; [done|]. intros (v1 & H1). apply IH.
    by eapply world_ok_step. }
  destruct Hok as [Hs' He Ho Hz Hk]. unfold tokens in *. split_and!.
  - intros i j k l Hi Hj Hrk Hrl. apply dec_stable. intros Hij.
    pose proof (two_holders _ _ _ _ _ Hi Hj Hij (runs_holds _ Hrk) (runs_holds _ Hrl)). lia.
  - intros i k Hi Hrk. pose proof (holders_lookup _ _ _ Hi (runs_holds _ Hrk)). lia.
  - exists v'. split; [done|]. intros Hend Ha Hshut.
    destruct (mode_of v') eqn:Ev; [|by destruct (Ha (He eq_refl))|done]. specialize (Hk Hend eq_refl).
    destruct (decide (jobs w = 1%nat)) as [|Hj]; [by left|]. right. apply holders_some. lia.
Qed.

(** ** Schedules *)

Inductive move := mv_enqueue (x : element) | mv_start | mv_run (i : nat) | mv_finish (i : nat).

Definition ended_with (k : pc) : option resume_result := match k with at_end r => Some r | _ => None end.

Definition do_move (max : Z) (m : move) (w : world) : option world :=
  match m with
  | mv_enqueue x =>
      '(r, _) ← push_back x (mailbox (act w));
      match enqueue self x (act w) with
      | Value _ s' =>
          Some (mk_world s' (if decide (r = unblocked_reader) then S (jobs w) else jobs w) (threads w) (ended w))
      | _ => None
      end
  | mv_start =>
      match jobs w with
      | O => None
      | S j => Some (mk_world (act w) j (threads w ++ [at_activate]) (ended w))
      end
  | mv_run i =>
      k ← threads w !! i;
      match ended_with k with
      | Some _ => None
      | None =>
          match resume_step max k (act w) with
          | Value k' s' => Some (mk_world s' (jobs w) (<[i := k']> (threads w)) (ended w || is_done k'))
          | _ => None
          end
      end
  | mv_finish i =>
      k ← threads w !! i; r ← ended_with k;
      Some (mk_world (act w) (match r with resume_later => S (jobs w) | _ => jobs w end)
        (delete i (threads w)) (ended w))
  end.

Definition do_moves (max : Z) (ms : list move) (w : world) : option world :=
  fold_left (fun o m => w ← o; do_move max m w) ms (Some w).

Lemma do_move_sound max m w w' : do_move max m w = Some w' -> world_step max w w'.
Proof.
  destruct m as [x| |i|i]; cbn [do_move].
  - intros ([r m'] & E & H)%bind_Some. destruct (enqueue self x (act w)) as [b s'| |] eqn:Eq; [|done..].
    injection H as <-. by eapply world_enqueue.
  - destruct (jobs w) as [|j] eqn:Ej; [done|]. intros [= <-]. by apply world_start.
  - intros (k & Hi & H)%bind_Some. destruct (ended_with k) eqn:Ek; [done|].
    destruct (resume_step max k (act w)) as [k' s'| |] eqn:E; [|done..]. injection H as <-.
    eapply world_run; [done| |done]. by intros r ->.
  - intros (k & Hi & H)%bind_Some. apply bind_Some in H as (r & Ek & [= <-]).
    destruct k; try discriminate Ek. injection Ek as ->. by apply world_finish.
Qed.

Lemma do_moves_sound max ms w w' : do_moves max ms w = Some w' -> rtc (world_step max) w w'.
Proof.
  assert (forall ms, fold_left (fun o m => w ← o; do_move max m w) ms None = None) as Hn by (intros l; by induction l).
  revert w. unfold do_moves. induction ms as [|m ms IH]; intros w; cbn [fold_left]; [by intros [= ->]|].
  cbn [mbind option_bind]. destruct (do_move max m w) as [w1|] eqn:E; [|by rewrite Hn].
  intros H. eapply rtc_l; [by eapply do_move_sound|by apply IH].
Qed.

End Loop.

(** ** Example *)

(** An actor that skips messages its behavior does not match, quits on
    [user_msg 9], and sends [user_msg 1] to itself on [user_msg 2]. *)
Definition demo_react (cb : callback) (u : unit) : list cmd * reply * unit :=
  match cb with
  | call_make_behavior => ([do_set_default_handler (Some skip)], behaves 1, u)
  | call_behavior _ (user_msg 0) => ([], no_match, u)
  | call_behavior _ (user_msg 2) => ([do_send 1 false (user_msg 1)], matched nothing, u)
  | call_behavior _ (user_msg 9) => ([do_quit AbstractActor.kill], matched nothing, u)
  | call_behavior _ _ => ([], matched nothing, u)
  | call_default _ _ => ([], skips, u)
  | call_exception _ _ => ([], reports AbstractActor.kill, u)
  | _ => ([], finished, u)
  end.

Lemma demo_quiet : skips_quietly demo_react.
Proof. split; [intros b c u cs u'; unfold demo_react; repeat case_match; congruence|by intros h c u cs u' [= <- _]]. Qed.

#[local] Abbreviation demo_state := (actor (DefaultMailbox.mailbox content) unit).

Definition demo_step : Z -> pc -> comp demo_state pc :=
  @resume_step _ _ demo_ops 1 demo_react (fun _ => None) (fun _ _ => true) (fun _ => false) (fun _ => true) elements 3 3.

Definition demo_message (n : Z) : element := mk_element 7 MessageId.default (user_msg n).

Definition demo_actor : demo_state := make_actor demo_box tt.

Definition state_of {A} (o : outcome demo_state A) : demo_state :=
  match o with Value _ s | Raised _ s => s | Stuck => demo_actor end.

(** The actor after its activation with two messages in the mailbox. *)
Definition demo_filled : demo_state :=
  state_of (demo_step 5 at_activate (state_of (@enqueue _ _ demo_ops 1 (demo_message 2)
    (state_of (@enqueue _ _ demo_ops 1 (demo_message 0) demo_actor))))).

Definition demo_view : view content := mk_view [] [demo_message 0; demo_message 2] awake.

Lemma demo_filled_shows : @shows _ _ _ demo_laws (ActorState.mailbox demo_filled) demo_view.
Proof.
  destruct (@push_back_law _ _ _ demo_laws _ _ (demo_message 0) demo_box_shows) as (m1 & E1 & H1).
  destruct (@push_back_law _ _ _ demo_laws _ _ (demo_message 2) H1) as (m2 & E2 & H2).
  assert (ActorState.mailbox demo_filled = m2) as ->; [|exact H2].
  vm_compute in E1. injection E1 as <-. vm_compute in E2. injection E2 as <-. vm_compute. reflexivity.
Qed.


Lemma resume_terminates_witness :
  @resume_next _ _ demo_ops 1 demo_react (fun _ => None) (fun _ _ => true) (fun _ => false) (fun _ => true) elements 3 3 5
    (at_loop 0, state_of (demo_step 5 at_activate demo_filled)) (at_activate, demo_filled) /\
  Acc (@resume_next _ _ demo_ops 1 demo_react (fun _ => None) (fun _ _ => true) (fun _ => false) (fun _ => true) elements 3 3 5)
    (at_activate, demo_filled).
Proof.
  split; [split; [discriminate|vm_compute; reflexivity]|].
  exact (@resume_terminates _ _ demo_ops demo_laws _ _ _ _ _ _ _ _ _ 5 demo_filled demo_view
    demo_quiet demo_filled_shows eq_refl).
Defined.

#[local] Abbreviation demo_world_step :=
  (@world_step _ _ demo_ops 1 demo_react (fun _ => None) (fun _ _ => true) (fun _ => false) (fun _ => true) elements 3 3 5).

(** A worker that has picked the actor while a second message arrives. *)
Definition demo_world : world :=
  mk_world (state_of (@enqueue _ _ demo_ops 1 (demo_message 1) demo_filled)) 0 [at_activate] false.

Lemma actor_runs_exclusively_witness :
  rtc demo_world_step (mk_world demo_filled 1 [] false) demo_world /\
  (forall i k, threads demo_world !! i = Some k -> runs_actor k = true -> jobs demo_world = 0%nat) /\
  exists v', @shows _ _ _ demo_laws (ActorState.mailbox (act demo_world)) v'.
Proof.
  assert (rtc demo_world_step (mk_world demo_filled 1 [] false) demo_world) as Hr.
  { apply (do_moves_sound _ _ _ _ _ _ _ _ _ _ [mv_start; mv_enqueue (demo_message 1)]). vm_compute. reflexivity. }
  split; [exact Hr|].
  destruct (@actor_runs_exclusively _ _ demo_ops demo_laws _ _ _ _ _ _ _ _ _ 5 demo_filled
    demo_view demo_world demo_filled_shows eq_refl Hr) as (_ & H & v' & Hs & _).
  split; [exact H|]. by exists v'.
Defined.

(** A worker may still be about to write [timeout_state_] of an actor that
    another worker already runs: [resume] gives up the actor with [try_block]
    before it sets the next receive timeout. *)
Theorem receive_timeout_race :
  exists w, rtc demo_world_step (mk_world demo_actor 1 [] false) w /\ threads w = [at_reset 1; at_activate].
Proof.
  destruct (do_moves (MB := demo_ops) 1 demo_react (fun _ => None) (fun _ _ => true) (fun _ => false) (fun _ => true) elements 3 3 5
    [mv_enqueue (demo_message 1); mv_start; mv_run 0; mv_run 0; mv_run 0; mv_run 0; mv_enqueue (demo_message 1); mv_start]
    (mk_world demo_actor 1 [] false)) as [w|] eqn:E; [|vm_compute in E; discriminate E].
  exists w. split; [by eapply do_moves_sound|]. vm_compute in E. by injection E as <-.
Qed.

(** User code that quits from its default handler and then skips the message. *)
Definition leaky_react (cb : callback) (u : unit) : list cmd * reply * unit :=
  match cb with
  | call_make_behavior => ([do_set_default_handler (Some (user_default 3))], behaves 1, u)
  | call_behavior _ _ => ([], no_match, u)
  | call_default _ _ => ([do_quit AbstractActor.kill], skips, u)
  | _ => ([], finished, u)
  end.

(** Such an actor never runs [cleanup]: [reactivate] finalizes after consumed
    messages only, and the next [activate] finds nothing alive and gives up.
    Its mailbox stays open, accepts further messages, and nobody runs the actor
    again. *)
Theorem quit_and_skip_leaks :
  exists w, rtc (@world_step _ _ demo_ops 1 leaky_react (fun _ => None) (fun _ _ => true) (fun _ => false) (fun _ => true)
      elements 3 3 5) (mk_world demo_actor 1 [] false) w /\
    jobs w = 0%nat /\ threads w = [] /\ ended w = true /\
    AbstractActor.is_terminated (base (act w)) = false /\
    DefaultMailbox.closed 8 (ActorState.mailbox (act w)) = false /\
    DefaultMailbox.blocked 8 (ActorState.mailbox (act w)) = false.
Proof.
  destruct (do_moves (MB := demo_ops) 1 leaky_react (fun _ => None) (fun _ _ => true) (fun _ => false) (fun _ => true) elements 3 3 5
    [mv_enqueue (demo_message 1); mv_start; mv_run 0; mv_run 0; mv_run 0; mv_run 0; mv_run 0; mv_finish 0;
     mv_enqueue (demo_message 1); mv_start; mv_run 0; mv_finish 0; mv_enqueue (demo_message 1)]
    (mk_world demo_actor 1 [] false)) as [w|] eqn:E; [|vm_compute in E; discriminate E].
  exists w. split; [by eapply do_moves_sound|]. vm_compute in E. injection E as <-. vm_compute. split_and!; reflexivity.
Qed.

End EventLoop.
