(* ===== verification/ActorShutdown.v ===== *)
(** * Shutdown of actors (libcaf_core/caf/scheduled_actor.cpp: quit,
      close_mailbox, finalize)

    What stays true once an actor has called [quit], and what happens to the
    messages it has not processed. *)

From stdpp Require Import gmap.
From S2P Require Import Prelude Effects MessageId LifoInbox DefaultMailbox AbstractMailbox AbstractActor LocalActor ActorState.
From S2P Require Import ScheduledActor EventLoop.

Module ActorShutdown.

Import Effects DefaultMailbox AbstractMailbox LocalActor ActorState ScheduledActor EventLoop.

Section Shutdown.

Context {M U : Type} `{MB : Mailbox content M} `{ML : !MailboxLaws content M}.
Context (self : Z) (react : callback -> U -> list cmd * reply * U).
Context (timeout_of : behavior -> option Z) (is_disposed : U -> Z -> bool) (is_remote : Z -> bool).
Context (alive_ref : Z -> bool) (visit_order : gset Z -> list Z) (rounds nesting : nat).

#[local] Abbreviation actor := (actor M U).
#[local] Abbreviation comp := (comp actor).

(** ** The first exit reason is final *)

Definition leaving (e : AbstractActor.error) (s : actor) : Prop :=
  is_shutting_down s = true /\ AbstractActor.fail_state_ (base s) = e /\ bhvrs s = [].

Definition keeps_leaving (e : AbstractActor.error) (s s' : actor) : Prop := leaving e s -> leaving e s'.

#[local] Instance keeps_leaving_preorder e : PreOrder (keeps_leaving e).
Proof. unfold keeps_leaving. split; [intros s; auto|]. intros s1 s2 s3. auto. Qed.

Lemma leaving_same e (s s' : actor) : life s' = life s -> keeps_leaving e s s'.
Proof. unfold keeps_leaving, leaving, life. intros [= -> -> -> _ _]. done. Qed.

Lemma leaving_modify e (f : actor -> actor) :
  (forall s, base (f s) = base s /\ is_shutting_down (f s) = is_shutting_down s /\ bhvrs (f s) = bhvrs s) ->
  keeps (keeps_leaving e) (modify f).
Proof. intros H s. destruct (H s) as (E1 & E2 & E3). unfold modify, keeps_leaving, leaving. by rewrite E1, E2, E3. Qed.

Ltac leave :=
  repeat first [keeps_step | apply leaving_modify; intros ?; split_and!; (reflexivity || (repeat case_match; reflexivity))].

Lemma leaving_enqueue e x : keeps (keeps_leaving e) (enqueue self x).
Proof. unfold enqueue, emit. leave. Qed.

Lemma leaving_obligations e :
  obligations self timeout_of is_disposed visit_order rounds (keeps_leaving e).
Proof.
  split.
  - intros s s' _ _. apply leaving_same.
  - apply leaving_enqueue.
  - intros b d s. unfold become, gets, mbind at 1, comp_bind at 1. destruct (is_shutting_down s) eqn:Es.
    + rewrite orb_true_r. by intros Hl.
    + match goal with |- match ?x with _ => _ end => destruct x end; try done; intros (? & _); congruence.
  - intros s. unfold unbecome, gets, mbind at 1, comp_bind at 1. destruct (bhvrs s) eqn:Eb; [done|].
    intros (_ & _ & ?). congruence.
  - intros a. pose proof leaving_enqueue. unfold delay, new_request_id, add_multiplexed_response_handler. leave.
  - intros call Hc.
    assert (forall fuel i, keeps (keeps_leaving e) (action_loop call fuel i)) as Ha.
    { induction fuel as [|fuel IH]; intros i; cbn [action_loop]; leave. }
    unfold run_actions, update_watched_disposables. leave.
  - intros call e' Hc s. unfold quit, gets, mbind at 1, comp_bind at 1. destruct (is_shutting_down s) eqn:Es; [by intros Hl|].
    match goal with |- match ?x with _ => _ end => destruct x end; try done; intros (? & _); congruence.
Qed.

Lemma leaving_close e : keeps (keeps_leaving e) (close_mailbox self).
Proof. pose proof leaving_enqueue. unfold close_mailbox, send_mails, send_mail, emit_bounced, emit. leave. Qed.

Lemma leaving_terminate e : keeps (keeps_leaving e) (modify (fun s : actor =>
  set_base (AbstractActor.cleanup alive_ref (AbstractActor.fail_state_ (base s)) (base s)).2 s)).
Proof.
  intros s. unfold modify, keeps_leaving, leaving. cbn [is_shutting_down base bhvrs set_base].
  intros (-> & <- & ->). split_and!; [done| |done].
  unfold AbstractActor.cleanup, AbstractActor.unregister_from_system. destruct (base s) as [[] [] f xs]; reflexivity.
Qed.

Lemma leaving_resume_step e max k :
  keeps (keeps_leaving e)
    (resume_step self react timeout_of is_disposed is_remote alive_ref visit_order rounds nesting max k).
Proof.
  assert (keeps (keeps_leaving e) (activate self react timeout_of is_disposed alive_ref visit_order rounds nesting)) as Ha.
  { apply R_activate; [apply _|apply leaving_obligations|apply leaving_close|apply leaving_terminate]. }
  assert (forall x, keeps (keeps_leaving e)
    (reactivate self react timeout_of is_disposed is_remote alive_ref visit_order rounds nesting x)) as Hr.
  { intros x. apply R_reactivate; [apply _|apply leaving_obligations|apply leaving_close|apply leaving_terminate]. }
  assert (keeps (keeps_leaving e) set_receive_timeout) as Ht.
  { eapply R_set_receive_timeout; [apply _|apply leaving_obligations]. }
  destruct k; cbn [resume_step]; unfold process, unstash, push_to_stash, reset_timeouts_if_needed, do_try_block; leave.
Qed.

(** C11. The first call to [quit] decides.  Once it returns, whatever the
    actor's flows and disposables did meanwhile, and whatever happens to the
    actor afterwards on any thread, the actor stays on its way out, its exit
    reason is the one of this call, and it has no behavior again. *)
Theorem quit_is_final max n e s r s' j ks b w :
  is_shutting_down s = false ->
  quit self is_disposed visit_order rounds
    (call_nested self react timeout_of is_disposed visit_order rounds n) e s = Value r s' ->
  rtc (world_step self react timeout_of is_disposed is_remote alive_ref visit_order rounds nesting max)
    (mk_world s' j ks b) w ->
  leaving e (act w).
Proof.
  intros Hs Hq Hw.
  assert (forall cb, keeps (keeps_leaving e)
    (call_nested self react timeout_of is_disposed visit_order rounds n cb)) as Hc.
  { apply R_call_nested; [apply _|apply leaving_obligations]. }
  assert (leaving e s') as Hl.
  { unfold quit in Hq. apply bind_value in Hq as (f & s0 & [= <- <-] & Hq). rewrite Hs in Hq.
    do 9 (apply bind_value in Hq as ([] & ? & [= <-] & Hq)).
    assert (keeps (keeps_leaving e) (cancel_flows_and_streams self is_disposed visit_order rounds
      (call_nested self react timeout_of is_disposed visit_order rounds n))) as Hk.
    { eapply R_cancel_flows; [apply _|apply (leaving_obligations e)|exact Hc]. }
    match type of Hq with _ ?t = _ => specialize (Hk t) end. rewrite Hq in Hk. by apply Hk. }
  change (leaving e (act (mk_world s' j ks b))) in Hl. revert Hl.
  induction Hw as [|w1 w2 w3 H12 _ IH]; [done|]. intros Hl. apply IH. clear IH.
  destruct H12 as [w1 x q m' c t _ Hq'|w1 i _|w1 i k k' t _ _ H|w1 i q _]; try exact Hl.
  - pose proof (leaving_enqueue e x (act w1)) as Hk. rewrite Hq' in Hk. by apply Hk.
  - pose proof (leaving_resume_step e max k (act w1)) as Hk. rewrite H in Hk. by apply Hk.
Qed.

(** ** Pending requests are answered *)

Definition to_others (ms : list mail) : list mail := filter (fun m => receiver m <> self) ms.

Definition own_items (ms : list mail) : list element := map item (filter (fun m => receiver m = self) ms).

Lemma send_mail_own m m' (s : actor) :
  receiver m = self -> push_back (item m) (mailbox s) = Some (LifoInbox.success, m') ->
  send_mail self m s = Value tt (set_mailbox m' s).
Proof.
  intros E Ep. unfold send_mail. rewrite (proj2 (Z.eqb_eq _ _) E).
  unfold enqueue, gets, modify, mbind, comp_bind. by rewrite Ep.
Qed.

(** Sending messages, some of them to the actor itself. *)
Lemma send_mails_spec ms (s : actor) v :
  Forall (fun m => receiver m <> 0) ms -> shows (mailbox s) v -> mode_of v = awake ->
  exists s', send_mails self ms s = Value tt s' /\
    shows (mailbox s') (fold_left (fun v x => snoc x v) (own_items ms) v) /\
    stash_ s' = stash_ s /\ trace s' = trace s ++ map sent (to_others ms).
Proof.
  intros Hnz. revert s v. unfold send_mails, own_items, to_others.
  induction Hnz as [|m ms Hm _ IH]; intros s v Hs Hv.
  - exists s. cbn. by rewrite app_nil_r.
  - cbn [for_each]. rewrite !filter_cons. unfold mbind at 1, comp_bind at 1.
    destruct (decide (receiver m = self)) as [E|E].
    + rewrite decide_False by auto. destruct (push_back_law _ _ (item m) Hs) as (m' & Hp). rewrite Hv in Hp. destruct Hp as [Ep Hs'].
      destruct (IH (set_mailbox m' s) (snoc (item m) v) Hs') as (s' & Es & H); [by rewrite mode_snoc|].
      exists s'. split; [|done]. by rewrite (send_mail_own _ _ _ E Ep).
    + rewrite decide_True by auto. unfold send_mail at 1. rewrite !(proj2 (Z.eqb_neq _ _)) by done.
      destruct (IH (set_trace (trace s ++ [sent m]) s) v Hs Hv) as (s' & Es & Hs' & Hst & Ht).
      exists s'. split; [exact Es|]. split_and!; [done..|]. rewrite Ht. cbn [trace set_trace map]. by rewrite <- app_assoc.
Qed.

Lemma emit_bounced_spec bs (s : actor) :
  exists s', for_each (emit_bounced self) bs s = Value tt s' /\ mailbox s' = mailbox s /\ stash_ s' = stash_ s /\
    trace s' = trace s ++ map bounced_response (filter (fun b => DefaultMailbox.receiver b <> self) bs).
Proof.
  revert s. induction bs as [|b bs IH]; intros s.
  - exists s. cbn. by rewrite app_nil_r.
  - cbn [for_each]. rewrite filter_cons. unfold mbind at 1, comp_bind at 1. unfold emit_bounced at 1.
    destruct (Z.eqb_spec (DefaultMailbox.receiver b) self) as [E|E].
    + rewrite decide_False by auto. apply IH.
    + rewrite decide_True by auto. destruct (IH (set_trace (trace s ++ [bounced_response b]) s)) as (s' & Es & Hm & Hst & Ht).
      exists s'. split; [exact Es|]. split_and!; [done..|]. rewrite Ht. cbn [trace set_trace map]. by rewrite <- app_assoc.
Qed.

Lemma bounce_with_receiver e xs : Forall (fun m => receiver m <> 0) (flat_map (bounce_with e) xs).
Proof.
  induction xs as [|x xs IH]; [constructor|]. cbn [flat_map]. apply Forall_app_2; [|done]. unfold bounce_with.
  destruct (Z.eqb_spec (sender x) 0); [constructor|]. destruct (MessageId.is_request (mid x)); by repeat constructor.
Qed.

(** Responses are not bounced again. *)
Lemma bounce_own e xs : flat_map bounce (own_items (flat_map (bounce_with e) xs)) = [].
Proof.
  unfold own_items. induction xs as [|x xs IH]; [done|]. cbn [flat_map]. rewrite filter_app, map_app, flat_map_app, IH, app_nil_r.
  unfold bounce_with. destruct (negb _ && MessageId.is_request (mid x)) eqn:E; [|done].
  apply andb_true_iff in E as [_ E]. rewrite filter_cons, filter_nil. case_decide; [|done]. cbn [map flat_map item app].
  by rewrite (MessageId.response_id_of_request _ E).
Qed.

Lemma all_msgs_snocs xs (v : view content) : all_msgs (fold_left (fun v x => snoc x v) xs v) ≡ₚ xs ++ all_msgs v.
Proof.
  revert v. induction xs as [|x xs IH]; intros v; [done|]. cbn [fold_left]. rewrite IH, all_msgs_snoc. solve_Permutation.
Qed.

Lemma mode_snocs xs (v : view content) : mode_of (fold_left (fun v x => snoc x v) xs v) = mode_of v.
Proof. revert v. induction xs as [|x xs IH]; intros v; [done|]. cbn [fold_left]. by rewrite IH, mode_snoc. Qed.

(** C8. No request is left without an answer when an actor dies.  Closing
    the mailbox of a running actor sends exactly one [request_receiver_down]
    for every request in the stash, then one for every request in the mailbox,
    no matter how the senders are interleaved and whether some are requests of
    the actor to itself; afterwards stash and mailbox are empty and the
    mailbox is closed for good. *)
Theorem shutdown_bounces_pending (s : actor) v :
  shows (mailbox s) v -> mode_of v = awake ->
  exists s' bs, close_mailbox self s = Value tt s' /\
    shows (mailbox s') (mk_view [] [] shut) /\ stash_ s' = [] /\
    bs ≡ₚ flat_map bounce (all_msgs v) /\
    trace s' = trace s
      ++ map sent (to_others (flat_map (bounce_with sec_request_receiver_down) (stash_ s)))
      ++ map bounced_response (filter (fun b => DefaultMailbox.receiver b <> self) bs).
Proof.
  intros Hs Hm. set (ms := flat_map (bounce_with sec_request_receiver_down) (stash_ s)).
  destruct (send_mails_spec ms (set_stash [] s) v (bounce_with_receiver _ _) Hs Hm) as (s1 & E1 & Hs1 & Est1 & Et1).
  set (v1 := fold_left _ _ v) in Hs1. assert (mode_of v1 = awake) as Hm1 by (unfold v1; by rewrite mode_snocs).
  destruct (close_law _ _ Hs1) as (bs & m' & Ec & Hbs & Hs'); [congruence|].
  destruct (emit_bounced_spec bs (set_mailbox m' s1)) as (s2 & E2 & Em2 & Est2 & Et2).
  exists s2, bs. split_and!.
  - unfold close_mailbox, gets, modify, mbind, comp_bind. fold ms. rewrite E1.
    rewrite (closed_law _ _ Hs1), Hm1, Ec. exact E2.
  - by rewrite Em2.
  - by rewrite Est2, <- (eq_refl : stash_ (set_stash [] s) = []), <- Est1.
  - rewrite Hbs. unfold v1. rewrite (Permutation_flat_map _ (all_msgs_snocs _ v)), flat_map_app.
    unfold ms. by rewrite bounce_own.
  - rewrite Et2. cbn [trace set_mailbox]. rewrite Et1. cbn [trace set_stash]. by rewrite <- app_assoc.
Qed.

End Shutdown.

(** ** Example *)

(** An actor with a stashed request and two pending ones, one from itself. *)
Definition demo_dying : actor (DefaultMailbox.mailbox content) unit :=
  set_stash [mk_element 7 (MessageId.make_normal 3) (user_msg 1)]
    (state_of (@enqueue _ _ demo_ops 1 (mk_element 8 (MessageId.make_normal 4) (user_msg 2))
      (state_of (@enqueue _ _ demo_ops 1 (mk_element 1 (MessageId.make_normal 5) (user_msg 3)) demo_actor)))).

Definition demo_dying_view : view content :=
  mk_view [] [mk_element 1 (MessageId.make_normal 5) (user_msg 3); mk_element 8 (MessageId.make_normal 4) (user_msg 2)] awake.

Lemma demo_dying_shows : @shows _ _ _ demo_laws (ActorState.mailbox demo_dying) demo_dying_view.
Proof.
  destruct (@push_back_law _ _ _ demo_laws _ _ (mk_element 1 (MessageId.make_normal 5) (user_msg 3)) demo_box_shows) as (m1 & E1 & H1).
  destruct (@push_back_law _ _ _ demo_laws _ _ (mk_element 8 (MessageId.make_normal 4) (user_msg 2)) H1) as (m2 & E2 & H2).
  assert (ActorState.mailbox demo_dying = m2) as ->; [|exact H2].
  vm_compute in E1. injection E1 as <-. vm_compute in E2. injection E2 as <-. vm_compute. reflexivity.
Qed.

Lemma shutdown_bounces_pending_witness :
  exists s', @close_mailbox _ _ demo_ops 1 demo_dying = Value tt s' /\ stash_ s' = [] /\
    @shows _ _ _ demo_laws (ActorState.mailbox s') (mk_view [] [] shut).
Proof.
  destruct (@shutdown_bounces_pending _ _ demo_ops demo_laws 1 demo_dying demo_dying_view demo_dying_shows eq_refl)
    as (s' & bs & E & Hs & Est & _). by exists s'.
Defined.

Lemma quit_is_final_witness :
  exists s', @quit _ _ demo_ops 1 (fun _ _ => true) elements 3
      (@call_nested _ _ demo_ops 1 demo_react (fun _ => None) (fun _ _ => true) elements 3 2) AbstractActor.kill demo_filled
    = Value tt s' /\ leaving AbstractActor.kill s'.
Proof.
  destruct (@quit _ _ demo_ops 1 (fun _ _ => true) elements 3
      (@call_nested _ _ demo_ops 1 demo_react (fun _ => None) (fun _ _ => true) elements 3 2) AbstractActor.kill demo_filled)
    as [[] s'| |] eqn:E; [|vm_compute in E; discriminate E..].
  exists s'. split; [done|].
  exact (@quit_is_final _ _ demo_ops 1 demo_react (fun _ => None) (fun _ _ => true) (fun _ => false) (fun _ => true) elements 3 3
    5 2 AbstractActor.kill demo_filled tt s' 0 [] false (mk_world s' 0 [] false) eq_refl E (rtc_refl _ _)).
Defined.

End ActorShutdown.
