(* ===== verification/Scheduler.v ===== *)
(** * Schedulers (libcaf_core/caf/scheduler.cpp, detail/double_ended_queue.hpp)

    The work-stealing and the work-sharing scheduler: queues of jobs, workers
    that take, steal, resume and requeue jobs, and the shutdown protocol, as
    step relations over all interleavings of workers and other threads.  Each
    operation on a queue runs under its mutex and is one step. *)

From stdpp Require Import prelude.
From S2P Require Import Prelude ScheduledActor.

Module Scheduler.

Import ScheduledActor(resume_result(..)).

(** A [resumable], by address; [0] is the helper object that [stop] passes to
    the workers. *)
Definition job := Z.
Definition shutdown_helper : job := 0.

(** ** Double-ended queue *)

Definition prepend (x : job) (q : list job) : list job := x :: q.

Definition try_take_head (q : list job) : option (job * list job) :=
  match q with [] => None | x :: q' => Some (x, q') end.

Definition unsafe_append (x : job) (q : list job) : list job := q ++ [x].

(** Also tells whether a sleeping worker is notified. *)
Definition append (x : job) (q : list job) : bool * list job := (bool_decide (q = []), q ++ [x]).

Definition try_take_tail (q : list job) : option (job * list job) :=
  match last q with None => None | Some x => Some (x, removelast q) end.

(** ** Polling *)

Record poll_strategy := mk_strategy { attempts : nat; step_size : nat; steal_interval : nat }.

(** Where [policy_dequeue] is: about to look into the own queue or to steal;
    the strategies are aggressive, moderate and relaxed. *)
Inductive poll :=
| poll_own (index attempt : nat)
| poll_steal (index attempt : nat).

(** The next attempt in the first two strategies, then the relaxed one. *)
Fixpoint first_attempt (strategies : list poll_strategy) (index : nat) : poll :=
  match strategies with
  | [] => poll_own index 1
  | st :: rest => if (1 <=? attempts st)%nat then poll_own index 1 else first_attempt rest (S index)
  end.

Definition next_attempt (strategies : list poll_strategy) (index attempt : nat) : poll :=
  match strategies !! index with
  | None => poll_own index 1
  | Some st =>
      if (attempt + step_size st <=? attempts st)%nat then poll_own index (attempt + step_size st)
      else first_attempt (drop (S index) strategies) (S index)
  end.

(** After the own queue was empty; a steal interval of zero divides by zero. *)
Definition after_miss (strategies : list poll_strategy) (index attempt : nat) : option poll :=
  match strategies !! index with
  | None => Some (poll_steal index attempt)
  | Some st =>
      if (steal_interval st =? 0)%nat then None
      else if (attempt mod steal_interval st =? 0)%nat then Some (poll_steal index attempt)
      else Some (next_attempt strategies index attempt)
  end.

(** [try_steal] for the random number [r]; a single worker has no victim. *)
Definition victim (num_workers id r : nat) : option nat :=
  if (num_workers <? 2)%nat then None
  else Some (if (r =? id)%nat then num_workers - 1 else r)%nat.

(** ** Work stealing *)

Inductive worker := polling (p : poll) | resuming (j : job) | stopped.

#[export] Instance poll_eq_dec : EqDecision poll.
Proof. solve_decision. Defined.
#[export] Instance worker_eq_dec : EqDecision worker.
Proof. solve_decision. Defined.

(** Where [stop] is: not called, about to schedule the helper, waiting for a
    worker to run it, joining, draining the queue of a worker, returned. *)
Inductive stop_state :=
| not_stopping
| stop_schedule (alive : list nat)
| stop_wait (alive : list nat)
| stop_join
| stop_drain (i : nat)
| stop_done.

(** Whether the workers are gone for good. *)
Definition draining (x : stop_state) : bool := match x with stop_drain _ | stop_done => true | _ => false end.

(** The state of the scheduler, [last_worker] of the helper, and, for the
    specification, all scheduled and all released jobs, and those that were
    scheduled when the workers were gone. *)
Record state := mk_state {
  queues : list (list job);
  workers : list worker;
  next_worker : Z;
  stopping : stop_state;
  last_worker : option nat;
  scheduled : list job;
  released : list job;
  late : list job;
}.

Definition set_queues (x : list (list job)) (s : state) : state :=
  mk_state x (workers s) (next_worker s) (stopping s) (last_worker s) (scheduled s) (released s) (late s).
Definition set_worker (i : nat) (x : worker) (s : state) : state :=
  mk_state (queues s) (<[i := x]> (workers s)) (next_worker s) (stopping s) (last_worker s) (scheduled s) (released s) (late s).
Definition set_stopping (x : stop_state) (s : state) : state :=
  mk_state (queues s) (workers s) (next_worker s) x (last_worker s) (scheduled s) (released s) (late s).
Definition set_last_worker (x : option nat) (s : state) : state :=
  mk_state (queues s) (workers s) (next_worker s) (stopping s) x (scheduled s) (released s) (late s).
Definition note_scheduled (j : job) (s : state) : state :=
  mk_state (queues s) (workers s) (next_worker s) (stopping s) (last_worker s) (j :: scheduled s) (released s)
    (if draining (stopping s) then j :: late s else late s).
Definition release (j : job) (s : state) : state :=
  mk_state (queues s) (workers s) (next_worker s) (stopping s) (last_worker s) (scheduled s) (j :: released s) (late s).

Definition update_queue (i : nat) (f : list job -> list job) (s : state) : state :=
  set_queues (alter f i (queues s)) s.

Section Stealing.

Context (strategies : list poll_strategy).

Definition num_workers (s : state) : nat := length (workers s).

(** [start] with [n] workers. *)
Definition start (n : nat) : state :=
  mk_state (replicate n []) (replicate n (polling (first_attempt strategies 0))) 0 not_stopping None [] [] [].

(** [scheduler_impl::schedule]: round robin over the workers. *)
Definition schedule (j : job) (s : state) : state :=
  let i := Z.to_nat (next_worker s mod Z.of_nat (num_workers s)) in
  let s1 := update_queue i (fun q => (append j q).2) (note_scheduled j s) in
  mk_state (queues s1) (workers s1) (uwrap 64 (next_worker s1 + 1)) (stopping s1) (last_worker s1) (scheduled s1) (released s1) (late s1).

(** [worker::schedule] and [worker::delay]. *)
Definition worker_schedule (i : nat) (j : job) (s : state) : state :=
  update_queue i (fun q => (append j q).2) (note_scheduled j s).
Definition worker_delay (i : nat) (j : job) (s : state) : state := update_queue i (prepend j) (note_scheduled j s).

(** The end of one round of [worker::run]; a helper that was run has done its
    duty and counts as released. *)
Definition finish (i : nat) (j : job) (r : resume_result) (s : state) : state :=
  match r with
  | resume_later => set_worker i (polling (first_attempt strategies 0)) (update_queue i (unsafe_append j) s)
  | done | awaiting_message => set_worker i (polling (first_attempt strategies 0)) (release j s)
  | shutdown_execution_unit => set_worker i stopped (set_last_worker (Some i) (release j s))
  end.

(** [cleanup_and_release] of the next job in [stop]. *)
Definition drain_job (i : nat) (j : job) (q' : list job) (s : state) : state :=
  release j (update_queue i (fun _ => q') s).

(** All interleavings: other threads, and the code that runs when a job is
    cleaned up, may schedule jobs at any time.  Only the helper ends a worker. *)
Inductive step : state -> state -> Prop :=
| step_schedule s j :
    j <> shutdown_helper -> step s (schedule j s)
| step_take s i index attempt q j q' :
    workers s !! i = Some (polling (poll_own index attempt)) -> queues s !! i = Some q ->
    try_take_head q = Some (j, q') ->
    step s (set_worker i (resuming j) (update_queue i (fun _ => q') s))
| step_miss s i index attempt q p :
    workers s !! i = Some (polling (poll_own index attempt)) -> queues s !! i = Some q ->
    try_take_head q = None -> after_miss strategies index attempt = Some p ->
    step s (set_worker i (polling p) s)
| step_steal s i index attempt r v q j q' :
    workers s !! i = Some (polling (poll_steal index attempt)) -> (r <= num_workers s - 2)%nat ->
    victim (num_workers s) i r = Some v -> queues s !! v = Some q -> try_take_tail q = Some (j, q') ->
    step s (set_worker i (resuming j) (update_queue v (fun _ => q') s))
| step_steal_miss s i index attempt r :
    workers s !! i = Some (polling (poll_steal index attempt)) -> (r <= num_workers s - 2)%nat ->
    match victim (num_workers s) i r with
    | None => True
    | Some v => exists q, queues s !! v = Some q /\ try_take_tail q = None
    end ->
    step s (set_worker i (polling (next_attempt strategies index attempt)) s)
| step_worker_schedule s i j j' :
    workers s !! i = Some (resuming j) -> j <> shutdown_helper -> j' <> shutdown_helper ->
    step s (worker_schedule i j' s)
| step_worker_delay s i j j' :
    workers s !! i = Some (resuming j) -> j <> shutdown_helper -> j' <> shutdown_helper ->
    step s (worker_delay i j' s)
| step_finish s i j r :
    workers s !! i = Some (resuming j) ->
    (r = shutdown_execution_unit <-> j = shutdown_helper) ->
    step s (finish i j r s)
| step_stop s :
    stopping s = not_stopping -> step s (set_stopping (stop_schedule (seq 0 (num_workers s))) s)
| step_stop_schedule s alive w :
    stopping s = stop_schedule alive -> w ∈ alive ->
    step s (set_stopping (stop_wait alive) (worker_schedule w shutdown_helper s))
| step_stop_wait s alive i :
    stopping s = stop_wait alive -> last_worker s = Some i ->
    step s (set_last_worker None
      (set_stopping (match filter (.≠ i) alive with [] => stop_join | alive' => stop_schedule alive' end) s))
| step_join s :
    stopping s = stop_join -> Forall (fun w => w = stopped) (workers s) -> step s (set_stopping (stop_drain 0) s)
| step_drain_job s i q j q' :
    stopping s = stop_drain i -> queues s !! i = Some q -> try_take_head q = Some (j, q') ->
    step s (drain_job i j q' s)
| step_drain_next s i q :
    stopping s = stop_drain i -> queues s !! i = Some q -> try_take_head q = None ->
    step s (set_stopping (if (S i <? num_workers s)%nat then stop_drain (S i) else stop_done) s).

End Stealing.

(** ** No job is lost or run twice *)

Definition job_of (w : worker) : list job := match w with resuming j => [j] | _ => [] end.

(** The jobs that workers execute at the moment. *)
Definition running (ws : list worker) : list job := flat_map job_of ws.

(** Where the jobs are. *)
Definition present (s : state) : list job := concat (queues s) ++ running (workers s).

Lemma concat_alter f i (qs : list (list job)) q :
  qs !! i = Some q -> concat (alter f i qs) ≡ₚ f q ++ concat (delete i qs) /\ concat qs ≡ₚ q ++ concat (delete i qs).
Proof.
  revert i. induction qs as [|p qs IH]; intros [|i] H; try done.
  - by injection H as ->.
  - destruct (IH i H) as [H1 H2]. cbn [alter list_alter delete list_delete concat]. split; [rewrite H1|rewrite H2 at 1]; solve_Permutation.
Qed.

Lemma running_insert i w w' (ws : list worker) :
  ws !! i = Some w ->
  running (<[i := w']> ws) ≡ₚ job_of w' ++ running (delete i ws) /\ running ws ≡ₚ job_of w ++ running (delete i ws).
Proof.
  unfold running. revert i. induction ws as [|v ws IH]; intros [|i] H; try done.
  - by injection H as ->.
  - destruct (IH i H) as [H1 H2]. cbn [insert list_insert delete list_delete flat_map]. split; [rewrite H1|rewrite H2 at 1]; solve_Permutation.
Qed.

Lemma take_tail_perm q j q' : try_take_tail q = Some (j, q') -> q = q' ++ [j].
Proof.
  unfold try_take_tail. destruct (last q) as [x|] eqn:E; [|done]. intros [= -> <-].
  destruct q as [|y q _] using rev_ind; [done|]. rewrite last_snoc in E. injection E as ->. by rewrite removelast_last.
Qed.

Lemma present_update (s : state) i q :
  queues s !! i = Some q ->
  exists rest, present s ≡ₚ q ++ rest /\ forall f, present (update_queue i f s) ≡ₚ f q ++ rest.
Proof.
  intros H. exists (concat (delete i (queues s)) ++ running (workers s)). unfold present. split.
  - destruct (concat_alter id i _ _ H) as [_ H2]. rewrite H2 at 1. by rewrite app_assoc.
  - intros f. cbn [queues workers update_queue set_queues]. destruct (concat_alter f i _ _ H) as [H1 _].
    by rewrite H1, app_assoc.
Qed.

Lemma present_worker (s : state) i w :
  workers s !! i = Some w ->
  exists rest, present s ≡ₚ job_of w ++ rest /\ forall w', present (set_worker i w' s) ≡ₚ job_of w' ++ rest.
Proof.
  intros H. exists (concat (queues s) ++ running (delete i (workers s))). unfold present. split.
  - destruct (running_insert i w w _ H) as [_ H2]. rewrite H2 at 1. solve_Permutation.
  - intros w'. cbn [queues workers set_worker]. destruct (running_insert i w w' _ H) as [H1 _].
    rewrite H1. solve_Permutation.
Qed.

Lemma worker_lt s i w : workers s !! i = Some w -> (i < num_workers s)%nat.
Proof. apply lookup_lt_Some. Qed.

Lemma schedule_index s : (0 < num_workers s)%nat ->
  (Z.to_nat (next_worker s mod Z.of_nat (num_workers s)) < num_workers s)%nat.
Proof. intros H. pose proof (Z.mod_pos_bound (next_worker s) (Z.of_nat (num_workers s))). lia. Qed.

(** The workers that [stop] has not seen leaving. *)
Definition alive_workers (x : stop_state) : list nat :=
  match x with stop_schedule alive | stop_wait alive => alive | _ => [] end.

(** Each worker has a queue, there is a worker, and [stop] knows workers only. *)
Definition wf (s : state) : Prop :=
  length (queues s) = length (workers s) /\ (0 < num_workers s)%nat /\
  Forall (fun i => (i < num_workers s)%nat) (alive_workers (stopping s)).

Lemma wf_queue s i : wf s -> (i < num_workers s)%nat -> exists q, queues s !! i = Some q.
Proof. intros [Hl _] Hi; unfold num_workers in Hi. rewrite <- Hl in Hi. by apply lookup_lt_is_Some_2 in Hi as [q ?]; exists q. Qed.

(** What the operations on queues and workers do to the jobs. *)
Lemma present_enqueue s i j f :
  wf s -> (i < num_workers s)%nat -> (forall q, f q ≡ₚ j :: q) ->
  present (update_queue i f (note_scheduled j s)) ≡ₚ j :: present s.
Proof.
  intros Hw Hi Hf. destruct (wf_queue _ _ Hw Hi) as [q Hq].
  destruct (present_update (note_scheduled j s) i q Hq) as (rest & E & Ef).
  change (present (note_scheduled j s)) with (present s) in E. by rewrite (Ef f), Hf, E.
Qed.

Lemma present_take s i v p q j q' :
  workers s !! i = Some (polling p) -> queues s !! v = Some q -> q ≡ₚ j :: q' ->
  present (set_worker i (resuming j) (update_queue v (fun _ => q') s)) ≡ₚ present s.
Proof.
  intros Hi Hq Hp. destruct (present_update s v q Hq) as (rest & E & Ef). specialize (Ef (fun _ => q')).
  destruct (present_worker (update_queue v (fun _ => q') s) i (polling p) Hi) as (rest2 & E2 & Ew).
  cbn beta in Ef. rewrite (Ew (resuming j)), E, Hp. cbn [job_of app] in *. by rewrite <- E2, Ef.
Qed.

Lemma present_requeue s i j q p :
  workers s !! i = Some (resuming j) -> queues s !! i = Some q ->
  present (set_worker i (polling p) (update_queue i (unsafe_append j) s)) ≡ₚ present s.
Proof.
  intros Hi Hq. destruct (present_update s i q Hq) as (rest & E & Ef). specialize (Ef (unsafe_append j)).
  destruct (present_worker (update_queue i (unsafe_append j) s) i _ Hi) as (rest2 & E2 & Ew).
  rewrite (Ew (polling p)), E. rewrite E2 in Ef. unfold unsafe_append in Ef. cbn [job_of app] in *.
  apply (Permutation_cons_inv (a := j)). rewrite Ef. solve_Permutation.
Qed.

Lemma present_idle s i w w' : workers s !! i = Some w -> job_of w = [] -> job_of w' = [] ->
  present (set_worker i w' s) ≡ₚ present s.
Proof. intros Hi H H'. destruct (present_worker s i w Hi) as (rest & E & Ew). by rewrite (Ew w'), E, H, H'. Qed.

Lemma present_leave s i j w' : workers s !! i = Some (resuming j) -> job_of w' = [] ->
  present s ≡ₚ j :: present (set_worker i w' s).
Proof. intros Hi H'. destruct (present_worker s i _ Hi) as (rest & E & Ew). by rewrite (Ew w'), E, H'. Qed.

Lemma take_head_perm q j q' : try_take_head q = Some (j, q') -> q ≡ₚ j :: q'.
Proof. by destruct q as [|x q]; intros [= -> ->]. Qed.

Lemma take_tail_snoc q j q' : try_take_tail q = Some (j, q') -> q ≡ₚ j :: q'.
Proof. intros ->%take_tail_perm. solve_Permutation. Qed.

Lemma append_perm j q : (append j q).2 ≡ₚ j :: q.
Proof. cbn. solve_Permutation. Qed.

Lemma rtc_keeps {A} (P : A -> Prop) (R : A -> A -> Prop) x y :
  (forall x y, P x -> R x y -> P y) -> rtc R x y -> P x -> P y.
Proof. intros HR H. induction H; eauto. Qed.

Section Invariants.

Context (strategies : list poll_strategy).

Notation step := (step strategies).

(** A step changes the jobs in at most one place. *)
Inductive moved (s s' : state) : Prop :=
| moved_none : present s' ≡ₚ present s -> scheduled s' = scheduled s -> released s' = released s -> moved s s'
| moved_in j : present s' ≡ₚ j :: present s -> scheduled s' = j :: scheduled s -> released s' = released s -> moved s s'
| moved_out j : present s ≡ₚ j :: present s' -> scheduled s' = scheduled s -> released s' = j :: released s -> moved s s'.

Lemma finish_moved s i j r : wf s -> workers s !! i = Some (resuming j) -> moved s (finish strategies i j r s).
Proof.
  intros Hw Hi. destruct (wf_queue s i Hw (worker_lt _ _ _ Hi)) as [q Hq].
  destruct r; [apply moved_none; [by apply (present_requeue s i j q)|done..]|apply (moved_out _ _ j); [|done..]..].
  1, 2: exact (present_leave s i j (polling (first_attempt strategies 0)) Hi eq_refl).
  exact (present_leave s i j stopped Hi eq_refl).
Qed.

Lemma present_drain s i q j q' :
  queues s !! i = Some q -> q ≡ₚ j :: q' -> present s ≡ₚ j :: present (drain_job i j q' s).
Proof.
  intros Hq Hp. destruct (present_update s i q Hq) as (rest & E & Ef). specialize (Ef (fun _ => q')). cbn beta in Ef.
  unfold drain_job. change (present (release j ?x)) with (present x). by rewrite Ef, E, Hp.
Qed.

Lemma step_moved s s' : wf s -> step s s' -> moved s s'.
Proof.
  intros Hw H.
  destruct H as [s j|s i index attempt q j q' Hi Hq Ht|s i index attempt q p Hi
    |s i index attempt r v q j q' Hi _ _ Hq Ht|s i index attempt r Hi|s i j j' Hi|s i j j' Hi|s i j r Hi
    | |s alive w Hs Hin| | |s i q j q' Hs Hq Ht|].
  - eapply moved_in; [|done..]. apply present_enqueue; [done| |apply append_perm]. apply schedule_index, Hw.
  - apply moved_none; [|done..]. by eapply present_take, take_head_perm.
  - apply moved_none; [|done..]. by eapply present_idle.
  - apply moved_none; [|done..]. by eapply present_take, take_tail_snoc.
  - apply moved_none; [|done..]. by eapply present_idle.
  - eapply moved_in; [|done..]. apply present_enqueue; [done|by eapply worker_lt|apply append_perm].
  - eapply moved_in; [|done..]. apply present_enqueue; [done|by eapply worker_lt|done].
  - by apply finish_moved.
  - by apply moved_none.
  - eapply (moved_in _ _ shutdown_helper); [|done..]. apply (present_enqueue s); [done| |apply append_perm].
    destruct Hw as (_ & _ & Ha). rewrite Hs in Ha. by apply (proj1 (Forall_forall _ _) Ha).
  - by apply moved_none.
  - by apply moved_none.
  - eapply moved_out; [|done..]. by eapply present_drain, take_head_perm.
  - by apply moved_none.
Qed.

Lemma step_wf s s' : wf s -> step s s' -> wf s'.
Proof.
  unfold wf, num_workers. intros (Hl & Hn & Ha) H.
  destruct H as [| | | | | | |s i j r| |s alive w Hs|s alive i Hs| | |s i q Hs];
    try destruct r; cbn; rewrite ?length_alter, ?length_insert, ?length_map; split_and!; try done.
  - apply Forall_forall. intros i Hi%elem_of_seq. unfold num_workers in Hi. lia.
  - by rewrite Hs in Ha.
  - rewrite Hs in Ha. destruct (filter _ alive) eqn:E; [constructor|]. cbn. rewrite <- E.
    apply Forall_forall. intros k [_ Hk]%list_elem_of_filter. by apply (proj1 (Forall_forall _ _) Ha).
  - by case_match.
Qed.

(** Every scheduled job is in exactly one queue, with exactly one worker, or
    released. *)
Definition conserved (s : state) : Prop := wf s /\ scheduled s ≡ₚ present s ++ released s.

Lemma conserved_step s s' : conserved s -> step s s' -> conserved s'.
Proof.
  intros [Hw Hj] H. split; [by eapply step_wf|].
  destruct (step_moved s s' Hw H) as [E -> ->|j E -> ->|j E -> ->]; rewrite Hj, E; solve_Permutation.
Qed.

Lemma start_present n : present (start strategies n) = [].
Proof. unfold present, running, start. cbn. by induction n. Qed.

Lemma conserved_reachable n s : (0 < n)%nat -> rtc step (start strategies n) s -> conserved s.
Proof.
  intros Hn H. apply (rtc_keeps conserved step (start strategies n)); [apply conserved_step|done|].
  split; [|by rewrite start_present]. unfold wf, num_workers. cbn. rewrite !length_replicate. by split_and!; [| |constructor].
Qed.

End Invariants.
(** ** The shutdown protocol *)

Definition live (s : state) (i : nat) : Prop := exists w, workers s !! i = Some w /\ w <> stopped.

Definition helpers (l : list job) : nat := length (filter (.= shutdown_helper) l).

(** The helper is with worker [i]. *)
Definition helper_at (s : state) (i : nat) : Prop :=
  workers s !! i = Some (resuming shutdown_helper) \/
  live s i /\ exists q, queues s !! i = Some q /\ shutdown_helper ∈ q.

Definition alive_are (s : state) (alive : list nat) : Prop := forall i, live s i <-> i ∈ alive.

(** The queues that [stop] has emptied. *)
Definition drained (s : state) : list (list job) :=
  match stopping s with stop_drain i => take i (queues s) | stop_done => queues s | _ => [] end.

(** What [stop] relies on, in each of its states. *)
Definition stop_ok (s : state) : Prop :=
  match stopping s with
  | not_stopping =>
      helpers (present s) = 0%nat /\ last_worker s = None /\ alive_are s (seq 0 (num_workers s))
  | stop_schedule alive =>
      helpers (present s) = 0%nat /\ last_worker s = None /\ alive_are s alive /\ alive <> []
  | stop_wait alive =>
      match last_worker s with
      | None => helpers (present s) = 1%nat /\ (exists i, helper_at s i) /\ alive_are s alive
      | Some k => helpers (present s) = 0%nat /\ alive_are s (filter (.≠ k) alive)
      end
  | stop_join => alive_are s []
  | stop_drain _ | stop_done => alive_are s [] /\ concat (drained s) ⊆+ late s
  end.

(** A step of a worker or of another thread that [stop] does not notice. *)
Record unnoticed (s s' : state) : Prop := {
  u_stopping : stopping s' = stopping s;
  u_last : last_worker s' = last_worker s;
  u_num : num_workers s' = num_workers s;
  u_live : forall i, live s' i <-> live s i;
  u_helpers : helpers (present s') = helpers (present s);
  u_at : (exists i, helper_at s i) -> exists i, helper_at s' i;
}.

Lemma unnoticed_ok s s' : unnoticed s s' -> draining (stopping s) = false -> stop_ok s -> stop_ok s'.
Proof.
  intros [Hs Hl Hn Hv Hh Ha] Hd. unfold stop_ok, alive_are. rewrite Hs, Hl, Hn, Hh.
  destruct (stopping s) as [|alive|alive| | |]; [| |destruct (last_worker s)| | |]; try done;
    intuition; try (by apply Hv, H); try naive_solver.
Qed.

Lemma live_set s i w w' k : workers s !! i = Some w -> w <> stopped -> w' <> stopped ->
  live (set_worker i w' s) k <-> live s k.
Proof.
  intros Hi Hw Hw'. unfold live. cbn. destruct (decide (i = k)) as [<-|Hne].
  - rewrite list_lookup_insert_eq by by eapply lookup_lt_Some. naive_solver.
  - by rewrite list_lookup_insert_ne.
Qed.

Lemma helpers_cons j l : helpers (j :: l) = (if decide (j = shutdown_helper) then S (helpers l) else helpers l).
Proof. unfold helpers. rewrite filter_cons. by destruct (decide _). Qed.

Lemma helpers_other j l l' : j <> shutdown_helper -> l ≡ₚ j :: l' -> helpers l = helpers l'.
Proof. intros Hj H. transitivity (helpers (j :: l')); [unfold helpers; by rewrite H|]. rewrite helpers_cons. by case_decide. Qed.

Lemma helpers_perm l l' : l ≡ₚ l' -> helpers l = helpers l'.
Proof. intros H. unfold helpers. by rewrite H. Qed.

Lemma alter_mono i f k (qs : list (list job)) q : (forall q, q ⊆ f q) ->
  qs !! k = Some q -> exists q', alter f i qs !! k = Some q' /\ q ⊆ q'.
Proof.
  intros Hf Hq. destruct (decide (i = k)) as [<-|Hne].
  - rewrite list_lookup_alter_eq, Hq. by exists (f q).
  - rewrite list_lookup_alter_ne by done. by exists q.
Qed.

(** New jobs. *)
Lemma unnoticed_enqueue s i j f :
  wf s -> (i < num_workers s)%nat -> j <> shutdown_helper -> (forall q, f q ≡ₚ j :: q) ->
  unnoticed s (update_queue i f (note_scheduled j s)).
Proof.
  intros Hw Hi Hj Hf. split; try done.
  - eapply helpers_other; [done|by apply present_enqueue].
  - intros [k [Hk|[Hl (q & Hq & Hin)]]]; exists k; [by left|right]. split; [done|].
    destruct (alter_mono i f k (queues s) q) as (q' & Hq' & Hsub); [|done|by exists q'; auto].
    intros q0 x Hx. rewrite Hf. by right.
Qed.

(** A worker that changes its state, next to a change of the queues. *)
Lemma helper_at_take s i v p q j q' k :
  workers s !! i = Some (polling p) -> queues s !! v = Some q -> q ≡ₚ j :: q' -> helper_at s k ->
  exists k', helper_at (set_worker i (resuming j) (update_queue v (fun _ => q') s)) k'.
Proof.
  intros Hi Hq Hp [Hk|[Hl (q0 & Hq0 & Hin)]].
  - exists k. left. cbn. rewrite list_lookup_insert_ne; [done|]. intros <-. congruence.
  - destruct (decide (v = k)) as [<-|Hne].
    + assert (q0 = q) as -> by congruence. rewrite Hp in Hin. apply elem_of_cons in Hin as [<-|Hin].
      * exists i. left. cbn. rewrite list_lookup_insert_eq; [done|by eapply lookup_lt_Some].
      * exists v. right. split; [by apply (live_set _ i (polling p))|]. exists q'. cbn. by rewrite list_lookup_alter_eq, Hq.
    + exists k. right. split; [by apply (live_set _ i (polling p))|]. exists q0. cbn. by rewrite list_lookup_alter_ne.
Qed.

Lemma unnoticed_take s i v p q j q' :
  workers s !! i = Some (polling p) -> queues s !! v = Some q -> q ≡ₚ j :: q' ->
  unnoticed s (set_worker i (resuming j) (update_queue v (fun _ => q') s)).
Proof.
  intros Hi Hq Hp. split; try done.
  - unfold num_workers. cbn. by rewrite length_insert.
  - intros k. by apply (live_set (update_queue v _ s) i (polling p)).
  - by eapply helpers_perm, present_take.
  - intros [k Hk]. by eapply helper_at_take.
Qed.

Lemma helper_at_set s i w w' k : workers s !! i = Some w -> w <> stopped -> w' <> stopped ->
  w <> resuming shutdown_helper -> helper_at s k -> helper_at (set_worker i w' s) k.
Proof.
  intros Hi Hw Hw' Hne [Hk|[Hl Hq]].
  - left. cbn. rewrite list_lookup_insert_ne; [done|]. intros <-. congruence.
  - right. split; [by apply (live_set s i w)|done].
Qed.

Lemma unnoticed_poll s i p p' : workers s !! i = Some (polling p) -> unnoticed s (set_worker i (polling p') s).
Proof.
  intros Hi. split; try done.
  - unfold num_workers. cbn. by rewrite length_insert.
  - intros k. by apply (live_set s i (polling p)).
  - by eapply helpers_perm, present_idle.
  - intros [k Hk]. exists k. by eapply helper_at_set.
Qed.

Lemma unnoticed_trans s1 s2 s3 : unnoticed s1 s2 -> unnoticed s2 s3 -> unnoticed s1 s3.
Proof.
  intros [] []. split; try congruence; [|auto]. intros i. by rewrite u_live1.
Qed.

Section Protocol.

Context (strategies : list poll_strategy).

Notation step := (step strategies).

(** The helper ends a worker, all other jobs do not. *)
Lemma unnoticed_finish s i j r :
  wf s -> workers s !! i = Some (resuming j) -> j <> shutdown_helper -> r <> shutdown_execution_unit ->
  unnoticed s (finish strategies i j r s).
Proof.
  intros Hw Hi Hj Hr. destruct (wf_queue s i Hw (worker_lt _ _ _ Hi)) as [q Hq]. set (p := first_attempt strategies 0).
  assert (Hat : forall s1 k, workers s1 = workers s -> helper_at s1 k -> helper_at (set_worker i (polling p) s1) k).
  { intros s1 k E. apply (helper_at_set s1 i (resuming j)); [by rewrite E|done..|congruence]. }
  destruct r; [| | |done]; split; try done;
    try (unfold num_workers; cbn; by rewrite length_insert);
    try (intros k; by apply (live_set s i (resuming j))).
  - by eapply helpers_perm, present_requeue.
  - intros [k Hk]. exists k. apply Hat; [done|]. destruct Hk as [Hk|[Hl (q0 & Hq0 & Hin)]]; [by left|right].
    split; [done|]. destruct (alter_mono i (unsafe_append j) k (queues s) q0) as (q' & Hq' & Hsub); [|done|by exists q'; auto].
    intros q1 x Hx. apply elem_of_app. by left.
  - symmetry. eapply helpers_other, (present_leave s i j (polling p)); done.
  - intros [k Hk]. exists k. by apply Hat.
  - symmetry. eapply helpers_other, (present_leave s i j (polling p)); done.
  - intros [k Hk]. exists k. by apply Hat.
Qed.

(** A worker that runs the helper leaves, and [stop] sees it. *)
Lemma finish_helper_ok s i :
  wf s -> stop_ok s -> workers s !! i = Some (resuming shutdown_helper) ->
  stop_ok (finish strategies i shutdown_helper shutdown_execution_unit s).
Proof.
  intros Hw Hs Hi.
  pose proof (present_leave s i _ stopped Hi eq_refl) as Hp. set (s' := set_worker i stopped s) in *.
  assert (Hc : helpers (present s) = S (helpers (present s'))).
  { rewrite (helpers_perm _ _ Hp), helpers_cons. by case_decide. }
  assert (Hlive : live s i) by by eexists.
  unfold stop_ok in Hs. destruct (stopping s) as [|alive|alive| | |] eqn:E;
    [lia|lia|destruct (last_worker s) eqn:El; [lia|]|by apply Hs in Hlive as ?%not_elem_of_nil..|by apply Hs in Hlive as ?%not_elem_of_nil].
  unfold stop_ok. cbn [finish stopping set_worker set_last_worker release last_worker]. rewrite E.
  destruct Hs as (H1 & _ & Ha). split; [change (helpers (present s') = 0%nat); lia|].
  intros k. rewrite list_elem_of_filter, <- (Ha k). unfold live. cbn. destruct (decide (i = k)) as [<-|Hne].
  - rewrite list_lookup_insert_eq by by eapply lookup_lt_Some. naive_solver.
  - rewrite list_lookup_insert_ne by done. naive_solver.
Qed.

Lemma unnoticed_schedule s j : wf s -> j <> shutdown_helper -> unnoticed s (schedule j s).
Proof.
  intros Hw Hj.
  destruct (unnoticed_enqueue s _ j (fun q => (append j q).2) Hw (schedule_index s (proj1 (proj2 Hw))) Hj); [|by split].
  apply append_perm.
Qed.

Lemma stop_schedule_ok s alive w :
  wf s -> stop_ok s -> stopping s = stop_schedule alive -> w ∈ alive ->
  stop_ok (set_stopping (stop_wait alive) (worker_schedule w shutdown_helper s)).
Proof.
  intros Hw Hok Hs Hin. unfold stop_ok in Hok. rewrite Hs in Hok. destruct Hok as (H0 & Hl & Ha & _).
  assert (Hlt : (w < num_workers s)%nat). { apply Ha in Hin as (x & Hx & _). by eapply worker_lt. }
  unfold stop_ok. cbn [stopping set_stopping worker_schedule update_queue set_queues note_scheduled last_worker].
  rewrite Hl. split_and!.
  - change (present _) with (present (worker_schedule w shutdown_helper s)). unfold worker_schedule.
    rewrite (helpers_perm _ (shutdown_helper :: present s)); [|by apply present_enqueue, append_perm].
    rewrite helpers_cons, H0. by case_decide.
  - exists w. right. split; [by apply Ha|]. destruct (wf_queue s w Hw Hlt) as [q Hq].
    exists (q ++ [shutdown_helper]). cbn. rewrite list_lookup_alter_eq, Hq. split; [done|]. set_solver.
  - exact Ha.
Qed.

Lemma stop_wait_ok s alive i :
  stop_ok s -> stopping s = stop_wait alive -> last_worker s = Some i ->
  stop_ok (set_last_worker None
    (set_stopping (match filter (.≠ i) alive with [] => stop_join | alive' => stop_schedule alive' end) s)).
Proof.
  intros Hok Hs Hl. unfold stop_ok in Hok. rewrite Hs, Hl in Hok. destruct Hok as (H0 & Ha).
  unfold stop_ok. cbn [stopping set_stopping set_last_worker last_worker]. by destruct (filter _ alive).
Qed.

(** A job that comes late is in one queue. *)
Lemma concat_take_alter j f i k (qs : list (list job)) :
  (forall q, f q ≡ₚ j :: q) -> concat (take k (alter f i qs)) ⊆+ j :: concat (take k qs).
Proof.
  intros Hf. revert k i. induction qs as [|q qs IH]; intros [|k] [|i]; try apply submseteq_nil_l; cbn [alter list_alter take concat].
  - rewrite Hf. apply Permutation_submseteq. solve_Permutation.
  - etrans; [apply submseteq_app; [reflexivity|apply (IH k i)]|]. apply Permutation_submseteq. solve_Permutation.
Qed.

Lemma schedule_ok s j : wf s -> j <> shutdown_helper -> stop_ok s -> stop_ok (schedule j s).
Proof.
  intros Hw Hj Hok. destruct (draining (stopping s)) eqn:Hd; [|by eapply unnoticed_ok; [apply unnoticed_schedule|..]].
  unfold stop_ok in *. cbn [schedule stopping update_queue set_queues note_scheduled late].
  set (i := Z.to_nat (next_worker s mod Z.of_nat (num_workers s))). assert (Hf : forall q, (append j q).2 ≡ₚ j :: q) by apply append_perm.
  destruct (stopping s) eqn:Hs; try done; destruct Hok as [Ha Hsub]; (split; [done|]);
    unfold drained in *; cbn [stopping schedule update_queue set_queues note_scheduled queues];
    rewrite Hs in *; cbn [draining] in *.
  - etrans; [by apply concat_take_alter|]. by apply submseteq_skip.
  - etrans; [|by apply submseteq_skip].
    pose proof (concat_take_alter j (fun q => (append j q).2) i (length (queues s)) (queues s) Hf) as H.
    rewrite !take_ge in H by (rewrite ?length_alter; lia). exact H.
Qed.

Lemma drain_job_ok s i q j q' :
  stop_ok s -> stopping s = stop_drain i -> queues s !! i = Some q -> try_take_head q = Some (j, q') ->
  stop_ok (drain_job i j q' s).
Proof.
  intros Hok Hs Hq Ht. unfold stop_ok, drained in *. cbn. rewrite Hs in *. destruct Hok as [Ha Hsub]. split; [done|].
  by rewrite take_alter_ge.
Qed.

Lemma drain_next_ok s i q :
  wf s -> stop_ok s -> stopping s = stop_drain i -> queues s !! i = Some q -> q = [] ->
  stop_ok (set_stopping (if (S i <? num_workers s)%nat then stop_drain (S i) else stop_done) s).
Proof.
  intros (Hl & _) Hok Hs Hq ->. unfold stop_ok, drained in *. rewrite Hs in Hok. destruct Hok as [Ha Hsub].
  assert (concat (take (S i) (queues s)) = concat (take i (queues s))) as E
    by (rewrite (take_S_r _ _ _ Hq), concat_app; cbn; by rewrite app_nil_r).
  destruct (Nat.ltb_spec (S i) (num_workers s)) as [H|H]; cbn [stopping set_stopping queues late]; (split; [done|]); [by rewrite E|].
  unfold num_workers in H. by rewrite <- (take_ge (queues s) (S i)), E by lia.
Qed.

Lemma stop_ok_step s s' : wf s -> stop_ok s -> step s s' -> stop_ok s'.
Proof.
  intros Hw Hok H.
  assert (Hdone : forall i w, workers s !! i = Some w -> w <> stopped -> draining (stopping s) = false).
  { intros i w Hi Hn. unfold stop_ok in Hok. destruct (stopping s); try done; destruct Hok as [Ha _];
      by destruct (not_elem_of_nil i); apply Ha; exists w. }
  destruct H as [s j Hj|s i index attempt q j q' Hi Hq Ht|s i index attempt q p Hi
    |s i index attempt r v q j q' Hi _ _ Hq Ht|s i index attempt r Hi|s i j j' Hi _ Hj|s i j j' Hi _ Hj|s i j r Hi Hr
    |s Hs|s alive w Hs Hin|s alive i Hs Hl|s Hs Hall|s i q j q' Hs Hq Ht|s i q Hs Hq Ht].
  - by apply schedule_ok.
  - eapply unnoticed_ok; [by eapply unnoticed_take, take_head_perm|by eapply Hdone|done].
  - eapply unnoticed_ok; [by eapply unnoticed_poll|by eapply Hdone|done].
  - eapply unnoticed_ok; [by eapply unnoticed_take, take_tail_snoc|by eapply Hdone|done].
  - eapply unnoticed_ok; [by eapply unnoticed_poll|by eapply Hdone|done].
  - eapply unnoticed_ok; [|by eapply Hdone|done].
    apply unnoticed_enqueue; [done|by eapply worker_lt|done|apply append_perm].
  - eapply unnoticed_ok; [|by eapply Hdone|done]. apply unnoticed_enqueue; [done|by eapply worker_lt|done|done].
  - destruct (decide (j = shutdown_helper)) as [->|Hj].
    + rewrite (proj2 Hr) by done. by apply finish_helper_ok.
    + eapply unnoticed_ok; [|by eapply Hdone|done]. apply unnoticed_finish; naive_solver.
  - unfold stop_ok in Hok |- *. rewrite Hs in Hok. destruct Hok as (H0 & Hl & Ha). cbn. split_and!; [done..|].
    destruct Hw as (_ & Hn & _). unfold num_workers in *. destruct (length (workers s)); [lia|done].
  - by apply stop_schedule_ok.
  - by apply stop_wait_ok.
  - unfold stop_ok in Hok |- *. rewrite Hs in Hok. split; [done|]. apply submseteq_nil_l.
  - by eapply drain_job_ok.
  - eapply drain_next_ok; [done..|]. by destruct q.
Qed.

Lemma start_ok n : stop_ok (start strategies n).
Proof.
  unfold stop_ok. cbn [stopping start last_worker]. rewrite start_present. split_and!; [done..|].
  intros i. unfold live, num_workers. cbn. rewrite length_replicate, elem_of_seq. split.
  - intros (w & [_ Hw]%lookup_replicate & _). lia.
  - intros [_ Hi]. eexists. by rewrite lookup_replicate_2.
Qed.

Lemma stop_reachable n s : (0 < n)%nat -> rtc step (start strategies n) s -> conserved s /\ stop_ok s.
Proof.
  intros Hn H. apply (rtc_keeps (fun s => conserved s /\ stop_ok s) step (start strategies n)); [|done|].
  - intros x y [Hc Hs] Hxy. split; [by eapply conserved_step|]. eapply stop_ok_step; [apply Hc|done..].
  - split; [by eapply conserved_reachable|apply start_ok].
Qed.

Lemma nobody_alive s : alive_are s [] -> Forall (fun w => w = stopped) (workers s).
Proof.
  intros Ha. apply Forall_lookup. intros i w Hi. destruct (decide (w = stopped)) as [|Hn]; [done|].
  by destruct (not_elem_of_nil i); apply Ha; exists w.
Qed.

End Protocol.
(** ** Work sharing *)

(** One queue for all workers; [started] and [waiting] are the jobs workers
    took and all jobs ever scheduled, oldest first. *)
Record shared := mk_shared {
  queue : list job;
  shared_workers : list worker;
  taken : list job;
  arrived : list job;
}.

Definition share (j : job) (s : shared) : shared :=
  mk_shared (queue s ++ [j]) (shared_workers s) (taken s) (arrived s ++ [j]).

(** [dequeue]: waits until there is a job. *)
Definition dequeue (i : nat) (s : shared) : option shared :=
  match queue s with
  | [] => None
  | j :: q => Some (mk_shared q (<[i := resuming j]> (shared_workers s)) (taken s ++ [j]) (arrived s))
  end.

Definition start_shared (n : nat) : shared := mk_shared [] (replicate n (polling (poll_own 0 1))) [] [].

Definition finish_shared (i : nat) (j : job) (r : resume_result) (s : shared) : shared :=
  let idle s := mk_shared (queue s) (<[i := polling (poll_own 0 1)]> (shared_workers s)) (taken s) (arrived s) in
  match r with
  | resume_later => idle (share j s)
  | awaiting_message | done => idle s
  | shutdown_execution_unit => mk_shared (queue s) (<[i := stopped]> (shared_workers s)) (taken s) (arrived s)
  end.

Inductive shared_step : shared -> shared -> Prop :=
| shared_schedule s j : shared_step s (share j s)
| shared_dequeue s i p s' :
    shared_workers s !! i = Some (polling p) -> dequeue i s = Some s' -> shared_step s s'
| shared_finish s i j r :
    shared_workers s !! i = Some (resuming j) -> shared_step s (finish_shared i j r s).


(** ** Properties *)

Section Properties.

Context (strategies : list poll_strategy).

Notation step := (step strategies).

(** C13. At any time, under any interleaving of workers, thieves and other
    threads, the jobs that were scheduled are, as a multiset, the jobs in the
    queues, the jobs being run and the jobs released: the work-stealing
    scheduler neither loses nor duplicates a job. *)
Theorem jobs_conserved n s :
  (0 < n)%nat -> rtc step (start strategies n) s ->
  scheduled s ≡ₚ concat (queues s) ++ running (workers s) ++ released s.
Proof. intros Hn H. destruct (conserved_reachable _ _ _ Hn H) as [_ ->]. unfold present. by rewrite app_assoc. Qed.

(** C14. [stop] never waits in vain and never stops early, whatever other threads
    and the code of the jobs schedule meanwhile: while it waits, the helper is with a
    live worker or has been run; when it joins the workers, all have left their
    loop; when it returns, every job that was ever scheduled has been released, but
    for jobs that were scheduled after the workers were joined and have missed the
    draining of their queue, which are still there.  If no job was scheduled that
    late, the queues are empty. *)
Theorem stop_completes n s :
  (0 < n)%nat -> rtc step (start strategies n) s ->
  match stopping s with
  | not_stopping => Forall (fun w => w <> stopped) (workers s)
  | stop_schedule alive => exists i, i ∈ alive /\ live s i
  | stop_wait _ => last_worker s <> None \/ exists i, helper_at s i
  | stop_join | stop_drain _ => Forall (fun w => w = stopped) (workers s)
  | stop_done => Forall (fun w => w = stopped) (workers s) /\
      scheduled s ≡ₚ concat (queues s) ++ released s /\ concat (queues s) ⊆+ late s /\
      (late s = [] -> concat (queues s) = [] /\ scheduled s ≡ₚ released s)
  end.
Proof.
  intros Hn H. destruct (stop_reachable _ _ _ Hn H) as [[_ Hj] Hs]. unfold stop_ok in Hs.
  destruct (stopping s) as [|alive|alive| | |] eqn:E.
  - destruct Hs as (_ & _ & Ha). apply Forall_lookup. intros i w Hi ->.
    destruct (proj2 (Ha i)) as (w & Hw & Hne); [|congruence]. apply elem_of_seq. apply worker_lt in Hi. lia.
  - destruct Hs as (_ & _ & Ha & Hne). destruct alive as [|i alive]; [done|]. exists i. split; [|apply Ha]; set_solver.
  - destruct (last_worker s); [by left|right]. apply Hs.
  - by apply nobody_alive.
  - by apply nobody_alive, Hs.
  - destruct Hs as [Ha Hq]. apply nobody_alive in Ha. unfold drained in Hq. rewrite E in Hq.
    assert (running (workers s) = []) as Hr by (clear -Ha; by induction Ha as [|w ws ->]).
    unfold present in Hj. rewrite Hr, app_nil_r in Hj. split_and!; [done..|].
    intros Hl. rewrite Hl in Hq. apply submseteq_nil_r in Hq. rewrite Hq in *. done.
Qed.

(** A thief never robs itself and always finds a worker. *)
Lemma victim_other n i r v : (i < n)%nat -> (r <= n - 2)%nat -> victim n i r = Some v -> (v < n)%nat /\ v <> i.
Proof.
  unfold victim. intros Hi Hr. destruct (n <? 2)%nat eqn:E; [done|]. apply Nat.ltb_ge in E.
  destruct (r =? i)%nat eqn:E2; intros [= <-]; [apply Nat.eqb_eq in E2|apply Nat.eqb_neq in E2]; lia.
Qed.

(** A thief takes the job that was appended last, not the oldest one. *)
Theorem steals_newest j q : try_take_tail (append j q).2 = Some (j, q).
Proof. unfold try_take_tail. cbn. by rewrite last_snoc, removelast_last. Qed.

(** In relaxed mode every miss is followed by a steal attempt. *)
Theorem relaxed_always_steals attempt :
  after_miss strategies (length strategies) attempt = Some (poll_steal (length strategies) attempt).
Proof. unfold after_miss. by rewrite (proj2 (lookup_ge_None strategies (length strategies))). Qed.

End Properties.

(** A work-sharing scheduler hands out the jobs in the order of their arrival,
    and each one once. *)
Theorem shared_fifo n s : rtc shared_step (start_shared n) s -> arrived s = taken s ++ queue s.
Proof.
  intros H. apply (rtc_keeps (fun s => arrived s = taken s ++ queue s) shared_step (start_shared n)); [|done..].
  clear. intros s s' E H. destruct H as [s j|s i p s' Hi Hd|s i j r Hi].
  - cbn. by rewrite E, app_assoc.
  - unfold dequeue in Hd. destruct (queue s) as [|j q]; [done|]. injection Hd as <-. cbn. by rewrite E, <- app_assoc.
  - destruct r; cbn; by rewrite E, ?app_assoc.
Qed.

(** ** Witnesses *)

Definition default_strategies : list poll_strategy := [mk_strategy 100 1 10; mk_strategy 500 1 5].

Tactic Notation "run_step" uconstr(c) := eapply rtc_l; [by eapply c|].

(** A worker runs a job, finds its queue empty ten times and robs the other one. *)
Lemma stealing_run : exists s,
  rtc (step default_strategies) (start default_strategies 2) s /\
  scheduled s = [5; 7] /\ workers s = [resuming 5; polling (poll_own 0 1)].
Proof.
  eexists. split; [|split].
  - apply (rtc_l _ _ (schedule 7 (start default_strategies 2))); [by apply step_schedule|].
    apply (rtc_l _ _ (schedule 5 (schedule 7 (start default_strategies 2)))); [by apply step_schedule|].
    run_step (step_take default_strategies _ 0%nat). run_step (step_finish default_strategies _ 0%nat 7 done).
    do 10 (run_step (step_miss default_strategies _ 0%nat)).
    run_step (step_steal default_strategies _ 0%nat 0%nat 10%nat 0%nat). apply rtc_refl.
  - done.
  - done.
Qed.

Lemma jobs_conserved_witness : exists s,
  rtc (step default_strategies) (start default_strategies 2) s /\ scheduled s = [5; 7] /\
  scheduled s ≡ₚ concat (queues s) ++ running (workers s) ++ released s.
Proof.
  destruct stealing_run as (s & H & E & _). exists s. split; [done|split; [done|]].
  apply (jobs_conserved default_strategies 2); [lia|done].
Defined.

(** [stop] ends the only worker and cleans up a job that came after that. *)
Lemma stopping_run : exists s,
  rtc (step default_strategies) (start default_strategies 1) s /\ stopping s = stop_drain 0 /\
  scheduled s = [5; 0] /\ queues s = [[]] /\ late s = [].
Proof.
  eexists. split; [|split_and!].
  - run_step (step_stop default_strategies).
    eapply rtc_l; [eapply (step_stop_schedule default_strategies _ _ 0%nat); [done|by left]|].
    run_step (step_take default_strategies _ 0%nat).
    run_step (step_finish default_strategies _ 0%nat 0 shutdown_execution_unit).
    run_step (step_stop_wait default_strategies).
    eapply rtc_l; [by eapply (step_schedule default_strategies _ 5)|].
    eapply rtc_l; [eapply step_join; [done|by repeat constructor]|].
    run_step (step_drain_job default_strategies _ 0%nat). apply rtc_refl.
  - done.
  - done.
  - done.
  - done.
Qed.

Lemma stop_completes_witness : exists s,
  rtc (step default_strategies) (start default_strategies 1) s /\ stopping s = stop_done /\
  scheduled s = [5; 0] /\ scheduled s ≡ₚ released s.
Proof.
  destruct stopping_run as (s & H & Hd & E & Hq & Hl).
  assert (step default_strategies s (set_stopping stop_done s)) as Hstep.
  { replace stop_done with (if (1 <? num_workers s)%nat then stop_drain 1 else stop_done).
    - by eapply (step_drain_next default_strategies s 0 []); [|rewrite Hq|].
    - assert (num_workers s = 1%nat) as ->; [|done].
      destruct (conserved_reachable default_strategies 1 s ltac:(lia) H) as [[Hlen _] _]. unfold num_workers.
      by rewrite <- Hlen, Hq. }
  exists (set_stopping stop_done s). assert (Hr : rtc (step default_strategies) (start default_strategies 1) (set_stopping stop_done s))
    by (by eapply rtc_r).
  split_and!; [done..|].
  assert (Hn : (0 < 1)%nat) by lia. pose proof (stop_completes default_strategies 1 _ Hn Hr) as Hc.
  cbn [stopping set_stopping] in Hc. destruct Hc as (_ & _ & _ & Hc). apply Hc, Hl.
Defined.

(** A job that is scheduled while the queues are being drained may stay: nobody
    runs it or cleans it up. *)
Lemma late_job_stays : exists s,
  rtc (step default_strategies) (start default_strategies 1) s /\ stopping s = stop_done /\ queues s = [[9]].
Proof.
  destruct stopping_run as (s & H & Hd & E & Hq & Hl).
  destruct (conserved_reachable default_strategies 1 s ltac:(lia) H) as [[Hlen _] _]. rewrite Hq in Hlen.
  assert (Hnum : num_workers s = 1%nat) by (unfold num_workers; by rewrite <- Hlen).
  exists (schedule 9 (set_stopping stop_done s)). split_and!; [|done|].
  - eapply rtc_r; [eapply rtc_r; [exact H|]|by apply step_schedule].
    replace stop_done with (if (1 <? num_workers s)%nat then stop_drain 1 else stop_done) by (by rewrite Hnum).
    by eapply (step_drain_next default_strategies s 0 []); [|rewrite Hq|].
  - cbn. unfold num_workers in *. cbn. rewrite Hq, Hnum. change (Z.of_nat 1) with 1%Z. by rewrite Z.mod_1_r.
Qed.

End Scheduler.
