(* ===== verification/BinarySerializer.v ===== *)
(** * Binary serializer (libcaf_core/caf/binary_serializer.cpp)

    The writer of CAF's default wire format: a byte buffer with a write
    position that may be moved back to patch earlier output.  [None] is
    undefined behaviour (a write beyond the buffer).  Floating point values and
    actor handles are left out. *)

From S2P Require Import Prelude NetworkOrder.

Module BinarySerializer.

#[local] Open Scope caf_scope.

Record serializer := mk_serializer { buf_ : bytes; write_pos_ : Z }.

(** The outcome of a call: the returned flag and the new state. *)
Abbreviation saved := (option (bool * serializer)).

(** ** Position management *)

Definition seek (offset : Z) (s : serializer) : serializer := mk_serializer (buf_ s) offset.

Definition skip (num_bytes : Z) (s : serializer) : serializer :=
  let remaining := uwrap 64 (zlen (buf_ s) - write_pos_ s) in
  let buf := if remaining <? num_bytes
             then buf_ s ++ replicate (Z.to_nat (num_bytes - remaining)) 0 else buf_ s in
  mk_serializer buf (write_pos_ s + num_bytes).

(** ** Bytes *)

(** [value(const_byte_span)]: appends, overwrites, or does both. *)
Definition value_span (x : bytes) (s : serializer) : saved :=
  let buf_size := zlen (buf_ s) in
  if write_pos_ s =? buf_size then
    Some (true, mk_serializer (buf_ s ++ x) (write_pos_ s + zlen x))
  else if write_pos_ s + zlen x <=? buf_size then
    Some (true, mk_serializer (memcpy_at (Z.to_nat (write_pos_ s)) x (buf_ s)) (write_pos_ s + zlen x))
  else if write_pos_ s <=? buf_size then
    let remaining := Z.to_nat (buf_size - write_pos_ s) in
    Some (true,
      mk_serializer (memcpy_at (Z.to_nat (write_pos_ s)) (take remaining x) (buf_ s) ++ drop remaining x)
        (write_pos_ s + zlen x))
  else None.

Definition value_byte (x : byte) (s : serializer) : saved :=
  if write_pos_ s =? zlen (buf_ s) then
    Some (true, mk_serializer (buf_ s ++ [x]) (write_pos_ s + 1))
  else if write_pos_ s <? zlen (buf_ s) then
    Some (true, mk_serializer (<[Z.to_nat (write_pos_ s) := x]> (buf_ s)) (write_pos_ s + 1))
  else None.

(** ** Integers *)

Definition value_uint8 (x : Z) (s : serializer) : saved := value_byte x s.

Definition value_int8 (x : Z) (s : serializer) : saved := value_byte (uwrap 8 x) s.

Definition value_bool (x : bool) (s : serializer) : saved := value_uint8 (Z.b2z x) s.

(** [int_value<T>] for a type of [n] bytes. *)
Definition int_value (n : nat) (x : Z) (s : serializer) : saved :=
  let y := to_network_order n (uwrap (8 * Z.of_nat n) x) in
  value_span (le_bytes n y) s.

(** ** Fields *)

Definition begin_optional_field (is_present : bool) (s : serializer) : saved :=
  value_uint8 (Z.b2z is_present) s.

(** [max_value<T>] for a signed type of the given width. *)
Definition max_value (w : Z) : Z := 2 ^ (w - 1) - 1.

(** [static_cast<T>(index)] for the narrowest type that fits [num_types]. *)
Definition begin_variant_field (num_types index : Z) (s : serializer) : saved :=
  if num_types <? max_value 8 then value_int8 (swrap 8 index) s
  else if num_types <? max_value 16 then int_value 2 (swrap 16 index) s
  else if num_types <? max_value 32 then int_value 4 (swrap 32 index) s
  else int_value 8 (swrap 64 index) s.

Definition compress_index (w : Z) (is_present : bool) (value : Z) : Z :=
  if is_present then swrap w value else -1.

Definition begin_optional_variant_field (is_present : bool) (num_types index : Z) (s : serializer)
  : saved :=
  if num_types <? max_value 8 then value_int8 (compress_index 8 is_present index) s
  else if num_types <? max_value 16 then int_value 2 (compress_index 16 is_present index) s
  else if num_types <? max_value 32 then int_value 4 (compress_index 32 is_present index) s
  else int_value 8 (compress_index 64 is_present index) s.

(** ** Sequences *)

(** The loop of [begin_sequence], writing into a scratch space of [room]
    bytes; running out of it is undefined behaviour. *)
Fixpoint varbyte (room : nat) (x : Z) : option bytes :=
  match room with
  | O => None
  | S room' =>
      if 0x7f <? x then
        bs ← varbyte room' (x .>> 7);
        Some (((uwrap 8 x .& 0x7f) .| 0x80) :: bs)
      else Some [uwrap 8 x .& 0x7f]
  end.

Definition begin_sequence (list_size : Z) (s : serializer) : saved :=
  bs ← varbyte 16 (uwrap 32 list_size);
  value_span bs s.

Definition value_string (x : bytes) (s : serializer) : saved :=
  '(ok, s1) ← begin_sequence (zlen x) s;
  if negb ok then Some (false, s1) else
  '(_, s2) ← value_span x s1;
  Some (true, s2).

(** [for (auto c : x) int_value(...)]. *)
Fixpoint int_values (n : nat) (xs : list Z) (s : serializer) : option serializer :=
  match xs with
  | [] => Some s
  | c :: xs' => '(_, s1) ← int_value n c s; int_values n xs' s1
  end.

Definition value_u16string (x : list Z) (s : serializer) : saved :=
  '(ok, s1) ← begin_sequence (zlen x) s;
  if negb ok then Some (false, s1) else
  s2 ← int_values 2 x s1;
  Some (true, s2).

Definition value_u32string (x : list Z) (s : serializer) : saved :=
  '(ok, s1) ← begin_sequence (zlen x) s;
  if negb ok then Some (false, s1) else
  s2 ← int_values 4 x s1;
  Some (true, s2).

(** ** Bit vectors *)

(** [if (b) tmp |= mask;] *)
Definition or_if (b : bool) (mask tmp : Z) : Z := if b then tmp .| mask else tmp.

(** [x[pos]]; the callers stay within the vector. *)
Definition bit_at (x : list bool) (pos : nat) : bool := List.nth pos x false.

(** The eight statements of one full block, [pos] being the first index. *)
Definition full_block (x : list bool) (pos : nat) : Z :=
  or_if (bit_at x (pos + 7)) 0x01 (
  or_if (bit_at x (pos + 6)) 0x02 (
  or_if (bit_at x (pos + 5)) 0x04 (
  or_if (bit_at x (pos + 4)) 0x08 (
  or_if (bit_at x (pos + 3)) 0x10 (
  or_if (bit_at x (pos + 2)) 0x20 (
  or_if (bit_at x (pos + 1)) 0x40 (
  or_if (bit_at x pos) 0x80 0))))))).

(** The [switch] on the trailing block: [case n] tests one bit with mask
    [2^(n-1)] and falls through to [case n-1]. *)
Fixpoint trailing_block (n : nat) (x : list bool) (pos : nat) (tmp : Z) : Z :=
  match n with
  | O => tmp
  | S n' => trailing_block n' x (S pos) (or_if (bit_at x pos) (1 .<< Z.of_nat n') tmp)
  end.

Fixpoint full_blocks (blocks : nat) (x : list bool) (pos : nat) (s : serializer)
  : option serializer :=
  match blocks with
  | O => Some s
  | S blocks' =>
      '(_, s1) ← value_uint8 (full_block x pos) s;
      full_blocks blocks' x (pos + 8) s1
  end.

Definition value_vector_bool (x : list bool) (s : serializer) : saved :=
  let len := length x in
  '(ok, s1) ← begin_sequence (Z.of_nat len) s;
  if negb ok then Some (false, s1) else
  if (len =? 0)%nat then Some (true, s1) else
  let blocks := (len / 8)%nat in
  s2 ← full_blocks blocks x 0 s1;
  let trailing_block_size := (len mod 8)%nat in
  if (0 <? trailing_block_size)%nat then
    '(_, s3) ← value_uint8 (trailing_block trailing_block_size x (8 * blocks) 0) s2;
    Some (true, s3)
  else Some (true, s2).

(** ** What the calls write *)

(** The state invariant: the write position is within the buffer. *)
Definition wf (s : serializer) : Prop := 0 <= write_pos_ s <= zlen (buf_ s).

(** Writing [x] at the write position: it replaces what was there and extends
    the buffer where it reaches beyond the end. *)
Definition write (x : bytes) (s : serializer) : serializer :=
  mk_serializer (memcpy_at (Z.to_nat (write_pos_ s)) x (buf_ s)) (write_pos_ s + zlen x).

Lemma write_wf x s : wf s -> wf (write x s).
Proof.
  unfold wf, write, memcpy_at, zlen. simpl. intros H.
  rewrite !length_app, length_take, length_drop. lia.
Qed.

Lemma write_nil s : wf s -> write [] s = s.
Proof.
  intros H. destruct s as [b p]. unfold write, memcpy_at. simpl.
  rewrite Nat.add_0_r, take_drop. unfold zlen. simpl. by rewrite Z.add_0_r.
Qed.

Lemma write_app x y s : wf s -> write y (write x s) = write (x ++ y) s.
Proof.
  unfold wf, write, memcpy_at. destruct s as [b p]. simpl. intros H.
  unfold zlen in *. rewrite length_app. f_equal; [|lia].
  assert (length (take (Z.to_nat p) b) = Z.to_nat p) as Hl by (rewrite length_take; lia).
  rewrite take_app, drop_app, !Hl.
  replace (Z.to_nat (p + Z.of_nat (length x)) - Z.to_nat p)%nat with (length x) by lia.
  replace (Z.to_nat (p + Z.of_nat (length x)) + length y - Z.to_nat p)%nat
    with (length x + length y)%nat by lia.
  rewrite take_take, Nat.min_r, take_app_length by lia.
  rewrite (drop_ge (take _ _)) by lia. rewrite drop_app, drop_ge by lia.
  replace (length x + length y - length x)%nat with (length y) by lia.
  rewrite drop_drop. simpl. rewrite <- !app_assoc. do 4 f_equal. lia.
Qed.

Lemma write_end x s : write_pos_ s = zlen (buf_ s) -> write x s = mk_serializer (buf_ s ++ x) (write_pos_ s + zlen x).
Proof.
  intros H. unfold write, memcpy_at, zlen in *. rewrite H, Nat2Z.id, firstn_all, drop_ge by lia.
  by rewrite app_nil_r.
Qed.

(** The three branches of [value(const_byte_span)] are one [write]. *)
Lemma value_span_write x s : wf s -> value_span x s = Some (true, write x s).
Proof.
  intros H. unfold value_span. destruct (Z.eqb_spec (write_pos_ s) (zlen (buf_ s))) as [E|E].
  { by rewrite write_end. }
  destruct (Z.leb_spec (write_pos_ s + zlen x) (zlen (buf_ s))) as [L|L]; [done|].
  unfold wf in H. rewrite (proj2 (Z.leb_le _ _)) by lia. do 2 f_equal. unfold write. f_equal.
  set (r := Z.to_nat (zlen _ - _)). unfold memcpy_at, zlen in *.
  assert (length (take r x) = r) as -> by (rewrite length_take; lia).
  rewrite !(drop_ge (buf_ s)) by lia. by rewrite !app_nil_r, <- app_assoc, take_drop.
Qed.

Lemma value_byte_write x s : wf s -> value_byte x s = Some (true, write [x] s).
Proof.
  intros H. unfold value_byte. destruct (Z.eqb_spec (write_pos_ s) (zlen (buf_ s))) as [E|E].
  { by rewrite write_end. }
  unfold wf in H. rewrite (proj2 (Z.ltb_lt _ _)) by lia. do 2 f_equal. unfold write. f_equal.
  unfold memcpy_at, zlen in *. simpl. rewrite insert_take_drop by lia.
  by rewrite Nat.add_1_r.
Qed.

(** ** Data and their encoding *)

(** Everything the modelled part of the inspector API can transfer, one
    constructor per overload.  [d_span] is a byte span of known size; a
    sequence announces its size and its elements follow as further data. *)
Inductive datum :=
| d_bool (b : bool)
| d_byte (x : byte)
| d_int8 (x : Z) | d_uint8 (x : Z)
| d_int (n : nat) (x : Z)      (* [n]-byte signed, [n] = 2, 4, 8 *)
| d_uint (n : nat) (x : Z)     (* [n]-byte unsigned *)
| d_span (x : bytes)
| d_string (x : bytes)
| d_u16string (x : list Z)
| d_u32string (x : list Z)
| d_vector_bool (x : list bool)
| d_sequence (size : Z)
| d_optional (is_present : bool)
| d_variant (num_types index : Z)
| d_optional_variant (num_types : Z) (index : option Z).

Definition save (d : datum) (s : serializer) : saved :=
  match d with
  | d_bool b => value_bool b s
  | d_byte x => value_byte x s
  | d_int8 x => value_int8 x s
  | d_uint8 x => value_uint8 x s
  | d_int n x | d_uint n x => int_value n x s
  | d_span x => value_span x s
  | d_string x => value_string x s
  | d_u16string x => value_u16string x s
  | d_u32string x => value_u32string x s
  | d_vector_bool x => value_vector_bool x s
  | d_sequence n => begin_sequence n s
  | d_optional b => begin_optional_field b s
  | d_variant n i => begin_variant_field n i s
  | d_optional_variant n i =>
      begin_optional_variant_field (bool_decide (is_Some i)) n (default 0 i) s
  end.

(** A sequence of calls that stops at the first one returning [false]. *)
Fixpoint save_all (ds : list datum) (s : serializer) : saved :=
  match ds with
  | [] => Some (true, s)
  | d :: ds' => '(ok, s1) ← save d s; if negb ok then Some (false, s1) else save_all ds' s1
  end.

(** The width of a variant index. *)
Definition index_bytes (num_types : Z) : nat :=
  if num_types <? 127 then 1 else if num_types <? 32767 then 2
  else if num_types <? 2147483647 then 4 else 8.

(** The values the C++ types admit.  A sequence must have fewer than [2^32]
    elements: [begin_sequence] keeps only 32 bits of the size. *)
Definition valid (d : datum) : Prop :=
  match d with
  | d_bool _ | d_optional _ => True
  | d_byte x | d_uint8 x => is_byte x
  | d_int8 x => is_sint 8 x
  | d_int n x => (n = 2 \/ n = 4 \/ n = 8)%nat /\ is_sint (8 * Z.of_nat n) x
  | d_uint n x => (n = 2 \/ n = 4 \/ n = 8)%nat /\ is_uint (8 * Z.of_nat n) x
  | d_span x => all_bytes x
  | d_string x => all_bytes x /\ is_uint 32 (zlen x)
  | d_u16string x => Forall (is_uint 16) x /\ is_uint 32 (zlen x)
  | d_u32string x => Forall (is_uint 32) x /\ is_uint 32 (zlen x)
  | d_vector_bool x => is_uint 32 (zlen x)
  | d_sequence n => is_uint 32 n
  | d_variant n i => is_uint 63 n /\ 0 <= i < n
  | d_optional_variant n i => is_uint 63 n /\ match i with Some i => 0 <= i < n | None => True end
  end.

(** LEB128, the reference for the size prefix: 7 bits per byte, least
    significant group first, the top bit marking continuation. *)
Fixpoint leb128 (groups : nat) (x : Z) : bytes :=
  match groups with
  | O => []
  | S groups' => if x <? 128 then [x] else (128 + x mod 128) :: leb128 groups' (x / 128)
  end.

(** A bit list as a number, most significant bit first. *)
Definition bits_val (bs : list bool) : Z := fold_left (fun acc b => 2 * acc + Z.b2z b) bs 0.

(** Bits in groups of eight; the last group may be shorter and is right-aligned. *)
Fixpoint bit_groups (n : nat) (bs : list bool) : bytes :=
  match n with
  | O => []
  | S n' => match bs with [] => [] | _ => bits_val (take 8 bs) :: bit_groups n' (drop 8 bs) end
  end.

(** The wire format. *)
Definition encode (d : datum) : bytes :=
  match d with
  | d_bool b | d_optional b => [Z.b2z b]
  | d_byte x | d_uint8 x => [x]
  | d_int8 x => be_bytes 1 (uwrap 8 x)
  | d_int n x | d_uint n x => be_bytes n (uwrap (8 * Z.of_nat n) x)
  | d_span x => x
  | d_string x => leb128 5 (zlen x) ++ x
  | d_u16string x => leb128 5 (zlen x) ++ flat_map (be_bytes 2) x
  | d_u32string x => leb128 5 (zlen x) ++ flat_map (be_bytes 4) x
  | d_vector_bool x => leb128 5 (zlen x) ++ bit_groups (length x) x
  | d_sequence n => leb128 5 n
  | d_variant n i => be_bytes (index_bytes n) i
  | d_optional_variant n (Some i) => be_bytes (index_bytes n) i
  | d_optional_variant n None => replicate (index_bytes n) 255
  end.

Definition encode_all (ds : list datum) : bytes := flat_map encode ds.

(** ** The calls write the encoding *)

Lemma pow256 n : 256 ^ Z.of_nat n = 2 ^ (8 * Z.of_nat n).
Proof. rewrite Z.pow_mul_r by lia. done. Qed.

Lemma int_value_write n x s :
  wf s -> int_value n x s = Some (true, write (be_bytes n (uwrap (8 * Z.of_nat n) x)) s).
Proof. intros H. unfold int_value. by rewrite network_order_bytes, value_span_write. Qed.

Lemma varbyte_leb128 room groups x :
  (groups <= room)%nat -> (0 < groups)%nat -> 0 <= x < 128 ^ Z.of_nat groups ->
  varbyte room x = Some (leb128 groups x).
Proof.
  revert room x. induction groups as [|groups IH]; intros [|room] x Hr Hg Hx; try lia.
  cbn [varbyte leb128].
  assert (Z.land (uwrap 8 x) 0x7f = x mod 128) as Hlow.
  { change 0x7f with (Z.ones 7). rewrite Z.land_ones by lia. unfold uwrap.
    change (2 ^ 8) with (128 * 2). change (2 ^ 7) with 128.
    rewrite Z.rem_mul_r, Z.mul_comm, Z_mod_plus_full, Z.mod_mod by lia. done. }
  rewrite Hlow. destruct (Z.ltb_spec x 128) as [L|L].
  - rewrite (proj2 (Z.ltb_ge 0x7f x)) by lia. by rewrite Z.mod_small by lia.
  - rewrite (proj2 (Z.ltb_lt 0x7f x)) by lia.
    rewrite Z.shiftr_div_pow2 by lia. change (2 ^ 7) with 128.
    destruct groups as [|groups]; [simpl in Hx; lia|].
    rewrite (IH room); [|lia|lia|].
    + cbn [mbind option_bind]. do 2 f_equal.
      rewrite Z.lor_comm, <- Z.add_lor_land.
      enough (Z.land 0x80 (x mod 128) = 0) as -> by lia.
      apply Z.bits_inj'. intros n Hn. rewrite Z.bits_0, Z.land_spec.
      change 0x80 with (2 ^ 7). destruct (Z.eq_dec n 7) as [->|Hne].
      * change 128 with (2 ^ 7). rewrite Z.mod_pow2_bits_high by lia. by rewrite andb_false_r.
      * rewrite Z.pow2_bits_false by lia. done.
    + rewrite Nat2Z.inj_succ, Z.pow_succ_r in Hx by lia. split; [apply Z.div_pos; lia|].
      apply Z.div_lt_upper_bound; lia.
Qed.

Lemma begin_sequence_write n s :
  wf s -> is_uint 32 n -> begin_sequence n s = Some (true, write (leb128 5 n) s).
Proof.
  intros Hs Hn. unfold begin_sequence. rewrite uwrap_id by done. unfold is_uint in Hn.
  rewrite (varbyte_leb128 16 5) by (first [lia | change (128 ^ Z.of_nat 5) with (2 ^ 35); lia]).
  cbn [mbind option_bind]. by apply value_span_write.
Qed.

Lemma int_values_write n xs s :
  wf s -> Forall (is_uint (8 * Z.of_nat n)) xs ->
  int_values n xs s = Some (write (flat_map (be_bytes n) xs) s).
Proof.
  intros Hs Hxs. revert s Hs. induction Hxs as [|x xs Hx Hxs IH]; intros s Hs; simpl.
  { by rewrite write_nil. }
  rewrite int_value_write by done. cbn [mbind option_bind].
  rewrite IH by (by apply write_wf). by rewrite write_app, uwrap_id.
Qed.

Lemma bit_at_drop x pos k : bit_at x (pos + k) = bit_at (drop pos x) k.
Proof. unfold bit_at. by rewrite <- List.nth_skipn. Qed.

Lemma full_block_val x pos :
  (pos + 8 <= length x)%nat -> full_block x pos = bits_val (take 8 (drop pos x)).
Proof.
  intros H. unfold full_block. rewrite <- (Nat.add_0_r pos) at 8. rewrite !bit_at_drop.
  assert (8 <= length (drop pos x))%nat as Hl by (rewrite length_drop; lia).
  destruct (drop pos x) as [|b0 [|b1 [|b2 [|b3 [|b4 [|b5 [|b6 [|b7 l]]]]]]]]; simpl in Hl; try lia.
  unfold bit_at. simpl. by destruct b0, b1, b2, b3, b4, b5, b6, b7.
Qed.

Lemma trailing_block_drop n x pos k tmp :
  trailing_block n x (pos + k) tmp = trailing_block n (drop pos x) k tmp.
Proof.
  revert k tmp. induction n as [|n IH]; intros k tmp; simpl; [done|].
  rewrite bit_at_drop, <- IH. f_equal. lia.
Qed.

Lemma trailing_block_val x pos :
  (length (drop pos x) < 8)%nat ->
  trailing_block (length (drop pos x)) x pos 0 = bits_val (drop pos x).
Proof.
  intros H. pose proof (trailing_block_drop (length (drop pos x)) x pos 0 0) as E.
  rewrite Nat.add_0_r in E. rewrite E. clear E.
  destruct (drop pos x) as [|b0 [|b1 [|b2 [|b3 [|b4 [|b5 [|b6 [|b7 l]]]]]]]]; simpl in H; try lia;
    unfold bit_at; repeat match goal with b : bool |- _ => destruct b end; reflexivity.
Qed.

Lemma full_blocks_write blocks x pos s :
  wf s -> (pos + 8 * blocks <= length x)%nat ->
  full_blocks blocks x pos s
  = Some (write (bit_groups blocks (take (8 * blocks) (drop pos x))) s).
Proof.
  revert pos s. induction blocks as [|blocks IH]; intros pos s Hs Hl; cbn [full_blocks].
  { rewrite take_0. by rewrite write_nil. }
  unfold value_uint8. rewrite value_byte_write by done. cbn [mbind option_bind].
  rewrite IH by first [by apply write_wf | lia]. rewrite write_app by done. do 2 f_equal.
  assert (8 * S blocks <= length (drop pos x))%nat as Hd by (rewrite length_drop; lia).
  rewrite full_block_val by lia. rewrite <- drop_drop. set (l := drop pos x) in *.
  assert (take (8 * S blocks) l = take 8 l ++ take (8 * blocks) (drop 8 l)) as ->.
  { rewrite take_take_drop. f_equal. lia. }
  assert (length (take 8 l) = 8%nat) as H8 by (rewrite length_take; lia).
  cbn [bit_groups]. destruct (take 8 l ++ _) as [|b r] eqn:E; [by apply (f_equal length) in E; rewrite length_app, H8 in E|].
  rewrite <- E, take_app_le, take_take, Nat.min_id by lia. f_equal.
  by rewrite drop_app, H8, Nat.sub_diag, drop_0, (drop_ge (take 8 l)) by lia.
Qed.

Lemma bit_groups_fuel n m bs :
  (length bs <= 8 * n)%nat -> (length bs <= 8 * m)%nat -> bit_groups n bs = bit_groups m bs.
Proof.
  revert m bs. induction n as [|n IH]; intros m bs Hn Hm.
  - destruct bs; [|simpl in Hn; lia]. by destruct m.
  - destruct bs as [|b bs]; [by destruct m|]. destruct m as [|m]; [simpl in Hm; lia|].
    cbn [bit_groups]. f_equal. apply IH; rewrite length_drop; simpl in *; lia.
Qed.

(** Splitting off the full groups. *)
Lemma bit_groups_app blocks m bs cs :
  length bs = (8 * blocks)%nat ->
  bit_groups (blocks + m) (bs ++ cs) = bit_groups blocks bs ++ bit_groups m cs.
Proof.
  revert bs. induction blocks as [|blocks IH]; intros bs Hl.
  { by destruct bs. }
  cbn [bit_groups Nat.add]. destruct bs as [|b bs]; [simpl in Hl; lia|].
  cbn [app]. change (b :: bs ++ cs) with ((b :: bs) ++ cs).
  rewrite take_app_le by (simpl in *; lia). cbn [app]. f_equal.
  rewrite <- IH by (rewrite length_drop; simpl in *; lia). f_equal.
  change (b :: bs ++ cs) with ((b :: bs) ++ cs). rewrite drop_app_le; [done|simpl in *; lia].
Qed.

Lemma value_vector_bool_write x s :
  wf s -> is_uint 32 (zlen x) ->
  value_vector_bool x s = Some (true, write (leb128 5 (zlen x) ++ bit_groups (length x) x) s).
Proof.
  intros Hs Hx. unfold value_vector_bool. change (Z.of_nat (length x)) with (zlen x).
  rewrite begin_sequence_write by done. cbn [mbind option_bind negb].
  destruct (Nat.eqb_spec (length x) 0) as [E|E].
  { by destruct x. }
  set (blocks := (length x / 8)%nat).
  pose proof (Nat.div_mod_eq (length x) 8) as Hdm. fold blocks in Hdm.
  pose proof (Nat.mod_upper_bound (length x) 8) as Hmod.
  rewrite full_blocks_write by (try apply write_wf; try done; lia). cbn [mbind option_bind].
  rewrite write_app, drop_0 by done.
  assert (bit_groups (length x) x
    = bit_groups blocks (take (8 * blocks) x) ++ bit_groups 8 (drop (8 * blocks) x)) as ->.
  { rewrite <- bit_groups_app by (rewrite length_take; lia). rewrite take_drop.
    apply bit_groups_fuel; lia. }
  assert (length (drop (8 * blocks) x) = (length x mod 8)%nat) as Hl by (rewrite length_drop; lia).
  destruct (Nat.ltb_spec 0 (length x mod 8)) as [L|L].
  - unfold value_uint8. rewrite value_byte_write by (by apply write_wf). cbn [mbind option_bind].
    rewrite write_app by done. do 3 f_equal. rewrite <- app_assoc. do 2 f_equal.
    rewrite <- Hl, trailing_block_val by lia.
    destruct (drop (8 * blocks) x) as [|b l] eqn:El; [cbn [length] in Hl; lia|]. cbn [bit_groups].
    rewrite take_ge by lia. rewrite drop_ge by lia. done.
  - destruct (drop (8 * blocks) x) as [|b l] eqn:El; [|cbn [length] in Hl; lia].
    cbn [bit_groups]. by rewrite app_nil_r.
Qed.

Lemma be_bytes_1 x : is_uint 8 x -> be_bytes 1 x = [x].
Proof. intros H. unfold be_bytes. simpl. by rewrite Z.mod_small. Qed.

Lemma value_int8_write x s : wf s -> value_int8 x s = Some (true, write (be_bytes 1 (uwrap 8 x)) s).
Proof.
  intros H. unfold value_int8. rewrite value_byte_write by done.
  rewrite be_bytes_1 by (apply uwrap_range; lia). done.
Qed.

(** The chain of width tests in the field functions, for any function of the
    index. *)
Lemma index_write num_types (f : Z -> Z) s :
  wf s ->
  (if num_types <? max_value 8 then value_int8 (f 8) s
   else if num_types <? max_value 16 then int_value 2 (f 16) s
   else if num_types <? max_value 32 then int_value 4 (f 32) s
   else int_value 8 (f 64) s)
  = let w := 8 * Z.of_nat (index_bytes num_types) in
    Some (true, write (be_bytes (index_bytes num_types) (uwrap w (f w))) s).
Proof.
  intros H. unfold index_bytes.
  change (max_value 8) with 127. change (max_value 16) with 32767.
  change (max_value 32) with 2147483647.
  destruct (num_types <? 127); [by apply value_int8_write|].
  destruct (num_types <? 32767); [by apply int_value_write|].
  destruct (num_types <? 2147483647); by apply int_value_write.
Qed.

Lemma index_fits num_types i :
  is_uint 63 num_types -> 0 <= i < num_types ->
  is_sint (8 * Z.of_nat (index_bytes num_types)) i.
Proof.
  unfold is_uint, is_sint, index_bytes. intros Hn Hi.
  destruct (Z.ltb_spec num_types 127); [simpl; lia|].
  destruct (Z.ltb_spec num_types 32767); [simpl; lia|].
  destruct (Z.ltb_spec num_types 2147483647); simpl; lia.
Qed.

Lemma index_bytes_pos n : (0 < index_bytes n)%nat.
Proof. unfold index_bytes. repeat case_match; lia. Qed.

Lemma sint_nonneg_uint w x : is_sint w x -> 0 <= x -> 0 < w -> is_uint w x.
Proof.
  unfold is_sint, is_uint. intros H Hx Hw. split; [done|].
  eapply Z.lt_trans; [apply H|]. apply Z.pow_lt_mono_r; lia.
Qed.

Lemma save_write d s : wf s -> valid d -> save d s = Some (true, write (encode d) s).
Proof.
  intros Hs. destruct d; cbn [save encode valid]; intros Hv.
  - apply value_byte_write, Hs.
  - apply value_byte_write, Hs.
  - apply value_int8_write, Hs.
  - apply value_byte_write, Hs.
  - apply int_value_write, Hs.
  - apply int_value_write, Hs.
  - apply value_span_write, Hs.
  - destruct Hv as [_ Hv]. unfold value_string. rewrite begin_sequence_write by done.
    cbn [mbind option_bind negb]. rewrite value_span_write by (by apply write_wf).
    cbn [mbind option_bind]. by rewrite write_app.
  - destruct Hv as [Hc Hv]. unfold value_u16string. rewrite begin_sequence_write by done.
    cbn [mbind option_bind negb]. rewrite int_values_write by (try apply write_wf; done).
    cbn [mbind option_bind]. by rewrite write_app.
  - destruct Hv as [Hc Hv]. unfold value_u32string. rewrite begin_sequence_write by done.
    cbn [mbind option_bind negb]. rewrite int_values_write by (try apply write_wf; done).
    cbn [mbind option_bind]. by rewrite write_app.
  - by apply value_vector_bool_write.
  - by apply begin_sequence_write.
  - apply value_byte_write, Hs.
  - destruct Hv as [Hn Hi]. unfold begin_variant_field.
    rewrite (index_write num_types (fun w => swrap w index)) by done. cbv zeta.
    pose proof (index_bytes_pos num_types). pose proof (index_fits _ _ Hn Hi) as Hf.
    rewrite swrap_id, uwrap_id; [done|apply sint_nonneg_uint; [done|lia..]|lia|done].
  - destruct Hv as [Hn Hi]. unfold begin_optional_variant_field.
    rewrite (index_write num_types (fun w => compress_index w _ _)) by done. cbv zeta.
    pose proof (index_bytes_pos num_types).
    unfold compress_index. destruct index as [i|].
    + pose proof (index_fits _ _ Hn Hi) as Hf. simpl.
      rewrite swrap_id, uwrap_id; [done|apply sint_nonneg_uint; [done|lia..]|lia|done].
    + simpl. do 3 f_equal. unfold index_bytes. by repeat case_match.
Qed.

Lemma save_all_write ds s :
  wf s -> Forall valid ds -> save_all ds s = Some (true, write (encode_all ds) s).
Proof.
  intros Hs Hv. revert s Hs. induction Hv as [|d ds Hd Hv IH]; intros s Hs; cbn [save_all].
  { by rewrite write_nil. }
  rewrite save_write by done. cbn [mbind option_bind negb].
  rewrite IH by (by apply write_wf). by rewrite write_app.
Qed.

Lemma leb128_all groups x : 0 <= x < 128 ^ Z.of_nat groups -> all_bytes (leb128 groups x).
Proof.
  revert x. induction groups as [|g IH]; intros x Hx; [constructor|]. cbn [leb128].
  destruct (Z.ltb_spec x 128).
  - repeat constructor; lia.
  - constructor; [unfold is_byte; pose proof (Z.mod_pos_bound x 128); lia|].
    apply IH. rewrite Nat2Z.inj_succ, Z.pow_succ_r in Hx by lia.
    split; [apply Z.div_pos; lia|apply Z.div_lt_upper_bound; lia].
Qed.

Lemma size_prefix_all x : is_uint 32 x -> all_bytes (leb128 5 x).
Proof.
  intros Hx. apply leb128_all. unfold is_uint in Hx. change (128 ^ Z.of_nat 5) with (2 ^ 35). lia.
Qed.

Lemma bits_val_byte bs : (length bs <= 8)%nat -> is_byte (bits_val bs).
Proof.
  intros H. destruct bs as [|b0 [|b1 [|b2 [|b3 [|b4 [|b5 [|b6 [|b7 [|b8 l]]]]]]]]]; simpl in H;
    try lia; unfold is_byte, bits_val; simpl;
    repeat match goal with b : bool |- _ => destruct b; simpl end; lia.
Qed.

Lemma bit_groups_all n bs : all_bytes (bit_groups n bs).
Proof.
  revert bs. induction n as [|n IH]; intros bs; [constructor|]. cbn [bit_groups].
  destruct bs as [|b bs]; [constructor|]. constructor; [|apply IH].
  apply bits_val_byte. rewrite length_take. lia.
Qed.

Lemma flat_map_be_bytes_all n xs : all_bytes (flat_map (be_bytes n) xs).
Proof.
  induction xs as [|x xs IH]; [constructor|]. simpl. apply Forall_app. split; [apply be_bytes_all|done].
Qed.

(** The encoding consists of bytes. *)
Lemma encode_bytes d : valid d -> all_bytes (encode d).
Proof.
  destruct d as [[]|x|x|x|n x|n x|x|x|x|x|x|n|[]|n i|n [i|]]; cbn [encode valid]; intros Hv;
    auto using be_bytes_all, size_prefix_all;
    try (apply Forall_app; split; [apply size_prefix_all; by try apply Hv|];
         first [apply flat_map_be_bytes_all | apply bit_groups_all | apply Hv]).
  - by constructor.
  - by constructor.
  - by constructor.
  - by constructor.
  - by constructor.
  - by constructor.
  - by apply Forall_replicate.
Qed.

Lemma skip_end n s :
  write_pos_ s = zlen (buf_ s) -> 0 <= n -> zlen (buf_ s) <= size_max ->
  skip n s = mk_serializer (buf_ s ++ replicate (Z.to_nat n) 0) (zlen (buf_ s) + n).
Proof.
  intros Hp Hn _. unfold skip. rewrite Hp, Z.sub_diag. change (uwrap 64 0) with 0.
  rewrite Z.sub_0_r. destruct (Z.ltb_spec 0 n); [done|].
  assert (n = 0) as -> by lia. by rewrite app_nil_r.
Qed.

(** ** Claims *)

(** The serializer emits the wire format at the write position.  For any
    sequence of valid calls on a consistent serializer, every call returns
    [true] and none writes out of bounds; afterwards the buffer holds the
    encoding of the data at the old write position, everything before it and
    everything behind it is unchanged, and the write position is just behind
    the encoding. *)
Theorem serializer_writes ds s :
  wf s -> Forall valid ds ->
  exists s', save_all ds s = Some (true, s') /\ wf s' /\
    write_pos_ s' = write_pos_ s + zlen (encode_all ds) /\
    buf_ s' = take (Z.to_nat (write_pos_ s)) (buf_ s) ++ encode_all ds
              ++ drop (Z.to_nat (write_pos_ s) + length (encode_all ds)) (buf_ s) /\
    all_bytes (encode_all ds).
Proof.
  intros Hs Hv. exists (write (encode_all ds) s). rewrite save_all_write by done.
  split; [done|]. split; [by apply write_wf|]. split; [done|]. split; [done|].
  clear Hs. induction Hv as [|d ds Hd Hv IH]; [constructor|]. simpl.
  apply Forall_app. split; [by apply encode_bytes|done].
Qed.

Lemma serializer_writes_witness :
  exists s', save_all [d_uint 2 0x1234; d_string [104; 105]; d_optional_variant 3 None]
               (mk_serializer [1; 2; 3; 4] 3) = Some (true, s') /\
    buf_ s' = [1; 2; 3; 0x12; 0x34; 2; 104; 105; 255].
Proof.
  destruct (serializer_writes [d_uint 2 0x1234; d_string [104; 105]; d_optional_variant 3 None]
    (mk_serializer [1; 2; 3; 4] 3)) as (s' & E & _ & _ & Hb & _).
  - unfold wf, zlen. simpl. lia.
  - repeat constructor; unfold is_uint, is_byte, zlen; simpl; lia.
  - exists s'. split; [exact E|]. rewrite Hb. reflexivity.
Defined.

(** Back-patching.  Reserving room with [skip], writing the payload and
    then seeking back to write the header in front of it, as the network layer
    does for every message, yields header and payload next to each other, if
    the header fills the reserved room exactly. *)
Theorem serializer_backpatch hs ds s :
  wf s -> write_pos_ s = zlen (buf_ s) -> zlen (buf_ s) <= size_max ->
  Forall valid hs -> Forall valid ds ->
  exists s1 s2, save_all ds (skip (zlen (encode_all hs)) s) = Some (true, s1) /\
    save_all hs (seek (write_pos_ s) s1) = Some (true, s2) /\
    buf_ s2 = buf_ s ++ encode_all hs ++ encode_all ds.
Proof.
  intros Hs Hp Hmax Hh Hd. set (n := zlen (encode_all hs)).
  pose proof (zlen_nonneg (encode_all hs)) as Hn. fold n in Hn.
  rewrite skip_end by done. set (s0 := mk_serializer _ _).
  assert (write_pos_ s0 = zlen (buf_ s0)) as H0.
  { simpl. rewrite zlen_app. unfold zlen at 3. rewrite length_replicate. lia. }
  assert (wf s0) as Hs0 by (unfold wf in *; rewrite <- H0; simpl; lia).
  rewrite save_all_write by done. do 2 eexists. split; [done|]. rewrite write_end by done.
  assert (length (replicate (Z.to_nat n) (0 : Z)) = length (encode_all hs)) as Hl
    by (rewrite length_replicate; unfold n, zlen; lia).
  rewrite save_all_write; [|unfold wf in *; simpl; rewrite !zlen_app; pose proof (zlen_nonneg (encode_all ds)); pose proof (zlen_nonneg (replicate (Z.to_nat n) (0:Z))); lia|done].
  split; [done|]. simpl. rewrite Hp. unfold zlen at 1. rewrite Nat2Z.id, <- !app_assoc.
  by apply memcpy_at_app.
Qed.

Lemma serializer_backpatch_witness :
  exists s1 s2, save_all [d_string [7; 8]] (skip 4 (mk_serializer [] 0)) = Some (true, s1) /\
    save_all [d_uint 4 3] (seek 0 s1) = Some (true, s2) /\ buf_ s2 = [0; 0; 0; 3; 2; 7; 8].
Proof.
  apply (serializer_backpatch [d_uint 4 3] [d_string [7; 8]] (mk_serializer [] 0)).
  - unfold wf, zlen. simpl. lia.
  - reflexivity.
  - vm_compute. discriminate.
  - repeat constructor; unfold is_uint; simpl; lia.
  - repeat constructor; unfold is_uint, is_byte, zlen; simpl; lia.
Defined.

(** Only 32 bits of a sequence size reach the wire: sizes that differ by
    a multiple of [2^32] are written identically, so that a sequence of [2^32]
    elements announces zero elements. *)
Theorem sequence_size_truncated n k s :
  begin_sequence (n + k * 2 ^ 32) s = begin_sequence n s /\
  begin_sequence (2 ^ 32) s = begin_sequence 0 s.
Proof. unfold begin_sequence, uwrap. by rewrite Z_mod_plus_full. Qed.

End BinarySerializer.
