(* ===== verification/BinaryDeserializer.v ===== *)
(** * Binary deserializer (libcaf_core/caf/binary_deserializer.cpp)

    The reader of the default wire format.  Its input may come from the
    network, so the theorems cover arbitrary bytes, not only the output of the
    serializer. *)

From S2P Require Import Prelude NetworkOrder BinarySerializer.

Import BinarySerializer.

Module BinaryDeserializer.

#[local] Open Scope caf_scope.

(** The error codes the deserializer emplaces. *)
Inductive sec := end_of_stream | invalid_field_type | unsupported_operation.

(** The bytes in [current_, end_) and the last error. *)
Record deserializer := mk_deserializer { remainder : bytes; err_ : option sec }.

(** The outcome of a call: it returns [true] with the output value, returns
    [false], raises an exception or has undefined behaviour. *)
Inductive outcome (A : Type) :=
| Ok (x : A) (s : deserializer)
| Failed (s : deserializer)
| Raised
| Undefined.
Arguments Ok {A} _ _.
Arguments Failed {A} _.
Arguments Raised {A}.
Arguments Undefined {A}.

(** [if (!f) return false; ...]. *)
Definition and_then {A B} (r : outcome A) (f : A -> deserializer -> outcome B) : outcome B :=
  match r with
  | Ok x s => f x s
  | Failed s => Failed s
  | Raised => Raised
  | Undefined => Undefined
  end.

Notation "'let*' ( x , s ) := r 'in' k" := (and_then r (fun x s => k))
  (at level 200, x name, s name, r at level 100, k at level 200) : caf_scope.

(** ** Positions and errors *)

Definition remaining (s : deserializer) : Z := zlen (remainder s).

Definition advance (n : Z) (s : deserializer) : deserializer :=
  mk_deserializer (drop (Z.to_nat n) (remainder s)) (err_ s).

Definition emplace_error {A} (e : sec) (s : deserializer) : outcome A :=
  Failed (mk_deserializer (remainder s) (Some e)).

Definition skip (num_bytes : Z) (s : deserializer) : outcome unit :=
  if remaining s <? num_bytes then Raised else Ok tt (advance num_bytes s).

Definition reset (input : bytes) (s : deserializer) : deserializer :=
  mk_deserializer input (err_ s).

Definition fetch_next_object_type (s : deserializer) : outcome Z :=
  emplace_error unsupported_operation s.

(** [current_ + read_size <= end_].  Where the answer is [false], the code has
    formed a pointer behind the end of the input in order to compare it.  The C++
    standard leaves this undefined; the model takes addresses as numbers, and
    [range_check_addresses] below says when the sum does not wrap around. *)
Definition range_check (read_size : Z) (s : deserializer) : bool := read_size <=? remaining s.

(** ** Bytes and integers *)

Definition value_byte (s : deserializer) : outcome Z :=
  if range_check 1 s then
    match remainder s with
    | x :: _ => Ok x (advance 1 s)
    | [] => Undefined
    end
  else emplace_error end_of_stream s.

Definition value_uint8 (s : deserializer) : outcome Z := value_byte s.

Definition value_int8 (s : deserializer) : outcome Z :=
  let* (x, s1) := value_byte s in Ok (swrap 8 x) s1.

Definition value_bool (s : deserializer) : outcome bool :=
  let* (tmp, s1) := value_int8 s in Ok (negb (tmp =? 0)) s1.

(** [value(byte_span)] into a span of [n] bytes. *)
Definition value_span (n : Z) (s : deserializer) : outcome bytes :=
  if negb (range_check n s) then emplace_error end_of_stream s
  else Ok (take (Z.to_nat n) (remainder s)) (advance n s).

(** [int_value<T>]: [cast] is the conversion from the unsigned type to [T]. *)
Definition int_value (n : nat) (cast : Z -> Z) (s : deserializer) : outcome Z :=
  let* (tmp, s1) := value_span (Z.of_nat n) s in
  Ok (cast (from_network_order n (le_val tmp))) s1.

Definition to_unsigned (x : Z) : Z := x.
Definition to_signed (n : nat) (x : Z) : Z := swrap (8 * Z.of_nat n) x.

(** ** Fields *)

Definition begin_optional_field (s : deserializer) : outcome bool :=
  let* (tmp, s1) := value_uint8 s in Ok (negb (tmp =? 0)) s1.

(** [value(tmp)] for the narrowest signed type that fits [num_types]. *)
Definition value_index (num_types : Z) (s : deserializer) : outcome Z :=
  if num_types <? max_value 8 then value_int8 s
  else if num_types <? max_value 16 then int_value 2 (to_signed 2) s
  else if num_types <? max_value 32 then int_value 4 (to_signed 4) s
  else int_value 8 (to_signed 8) s.

Definition begin_variant_field (num_types : Z) (s : deserializer) : outcome Z :=
  let* (tmp, s1) := value_index num_types s in
  if (tmp <? 0) || (num_types <=? uwrap 64 tmp) then emplace_error invalid_field_type s1
  else Ok (uwrap 64 tmp) s1.

Definition begin_optional_variant_field (num_types : Z) (s : deserializer) : outcome (option Z) :=
  let* (tmp, s1) := value_index num_types s in
  if tmp <? 0 then Ok None s1
  else if num_types <=? uwrap 64 tmp then emplace_error invalid_field_type s1
  else Ok (Some (uwrap 64 tmp)) s1.

(** ** Sequences *)

(** The loop of [begin_sequence].  Every round consumes a byte or returns, so
    one round more than there are bytes is enough; shifting a 32-bit integer by
    32 or more is undefined. *)
Fixpoint varbyte_loop (fuel : nat) (x n : Z) (s : deserializer) : outcome Z :=
  match fuel with
  | O => Undefined
  | S fuel' =>
      let* (low7, s1) := value_uint8 s in
      if 32 <=? 7 * n then Undefined else
      let x' := x .| uwrap 32 ((low7 .& 0x7F) .<< (7 * n)) in
      if has_bits low7 0x80 then varbyte_loop fuel' x' (n + 1) s1 else Ok x' s1
  end.

Definition begin_sequence (s : deserializer) : outcome Z :=
  varbyte_loop (S (length (remainder s))) 0 0 s.

Definition value_string (s : deserializer) : outcome bytes :=
  let* (str_size, s1) := begin_sequence s in
  if negb (range_check str_size s1) then emplace_error end_of_stream s1
  else Ok (take (Z.to_nat str_size) (remainder s1)) (advance str_size s1).

(** [unsafe_int_value]: copies without a range check, then skips. *)
Definition unsafe_int_value (n : nat) (s : deserializer) : outcome Z :=
  if remaining s <? Z.of_nat n then Undefined else
  let tmp := le_val (take n (remainder s)) in
  let* (_, s1) := skip (Z.of_nat n) s in
  Ok (from_network_order n tmp) s1.

Fixpoint unsafe_int_values (count n : nat) (s : deserializer) : outcome (list Z) :=
  match count with
  | O => Ok [] s
  | S count' =>
      let* (x, s1) := unsafe_int_value n s in
      let* (xs, s2) := unsafe_int_values count' n s1 in
      Ok (x :: xs) s2
  end.

Definition value_u16string (s : deserializer) : outcome (list Z) :=
  let* (str_size, s1) := begin_sequence s in
  if negb (range_check (uwrap 64 (str_size * 2)) s1) then emplace_error end_of_stream s1
  else unsafe_int_values (Z.to_nat str_size) 2 s1.

Definition value_u32string (s : deserializer) : outcome (list Z) :=
  let* (str_size, s1) := begin_sequence s in
  if negb (range_check (uwrap 64 (str_size * 4)) s1) then emplace_error end_of_stream s1
  else unsafe_int_values (Z.to_nat str_size) 4 s1.

(** ** Bit vectors *)

Definition unpack_block (tmp : Z) : list bool :=
  [has_bits tmp 0x80; has_bits tmp 0x40; has_bits tmp 0x20; has_bits tmp 0x10;
   has_bits tmp 0x08; has_bits tmp 0x04; has_bits tmp 0x02; has_bits tmp 0x01].

(** The fall-through [switch] on the trailing block. *)
Fixpoint unpack_trailing (n : nat) (tmp : Z) : list bool :=
  match n with
  | O => []
  | S n' => has_bits tmp (1 .<< Z.of_nat n') :: unpack_trailing n' tmp
  end.

Fixpoint unpack_blocks (blocks : nat) (s : deserializer) : outcome (list bool) :=
  match blocks with
  | O => Ok [] s
  | S blocks' =>
      let* (tmp, s1) := value_uint8 s in
      let* (bs, s2) := unpack_blocks blocks' s1 in
      Ok (unpack_block tmp ++ bs) s2
  end.

Definition value_vector_bool (s : deserializer) : outcome (list bool) :=
  let* (len, s1) := begin_sequence s in
  if len =? 0 then Ok [] s1 else
  let* (bs, s2) := unpack_blocks (Z.to_nat (len / 8)) s1 in
  let trailing_block_size := len mod 8 in
  if 0 <? trailing_block_size then
    let* (tmp, s3) := value_uint8 s2 in
    Ok (bs ++ unpack_trailing (Z.to_nat trailing_block_size) tmp) s3
  else Ok bs s2.

(** ** Loading data *)

(** What a caller asks for: the type of the datum, with the sizes it knows. *)
Inductive kind :=
| k_bool | k_byte | k_int8 | k_uint8 | k_int (n : nat) | k_uint (n : nat) | k_span (n : Z)
| k_string | k_u16string | k_u32string | k_vector_bool | k_sequence | k_optional
| k_variant (num_types : Z) | k_optional_variant (num_types : Z).

Definition kind_of (d : datum) : kind :=
  match d with
  | d_bool _ => k_bool
  | d_byte _ => k_byte
  | d_int8 _ => k_int8
  | d_uint8 _ => k_uint8
  | d_int n _ => k_int n
  | d_uint n _ => k_uint n
  | d_span x => k_span (zlen x)
  | d_string _ => k_string
  | d_u16string _ => k_u16string
  | d_u32string _ => k_u32string
  | d_vector_bool _ => k_vector_bool
  | d_sequence _ => k_sequence
  | d_optional _ => k_optional
  | d_variant n _ => k_variant n
  | d_optional_variant n _ => k_optional_variant n
  end.

Definition wrap {A} (f : A -> datum) (r : outcome A) : outcome datum :=
  and_then r (fun x s => Ok (f x) s).

Definition load (k : kind) (s : deserializer) : outcome datum :=
  match k with
  | k_bool => wrap d_bool (value_bool s)
  | k_byte => wrap d_byte (value_byte s)
  | k_int8 => wrap d_int8 (value_int8 s)
  | k_uint8 => wrap d_uint8 (value_uint8 s)
  | k_int n => wrap (d_int n) (int_value n (to_signed n) s)
  | k_uint n => wrap (d_uint n) (int_value n to_unsigned s)
  | k_span n => wrap d_span (value_span n s)
  | k_string => wrap d_string (value_string s)
  | k_u16string => wrap d_u16string (value_u16string s)
  | k_u32string => wrap d_u32string (value_u32string s)
  | k_vector_bool => wrap d_vector_bool (value_vector_bool s)
  | k_sequence => wrap d_sequence (begin_sequence s)
  | k_optional => wrap d_optional (begin_optional_field s)
  | k_variant n => wrap (d_variant n) (begin_variant_field n s)
  | k_optional_variant n => wrap (d_optional_variant n) (begin_optional_variant_field n s)
  end.

Fixpoint load_all (ks : list kind) (s : deserializer) : outcome (list datum) :=
  match ks with
  | [] => Ok [] s
  | k :: ks' =>
      let* (d, s1) := load k s in
      let* (ds, s2) := load_all ks' s1 in
      Ok (d :: ds) s2
  end.

(** ** Reading back what the serializer wrote *)

Lemma value_byte_cons x r e : value_byte (mk_deserializer (x :: r) e) = Ok x (mk_deserializer r e).
Proof.
  unfold value_byte, range_check, remaining. simpl. rewrite zlen_cons.
  rewrite (proj2 (Z.leb_le 1 _)) by (pose proof (zlen_nonneg r); lia). done.
Qed.

Lemma advance_app x r e : advance (zlen x) (mk_deserializer (x ++ r) e) = mk_deserializer r e.
Proof. unfold advance, zlen. simpl. by rewrite Nat2Z.id, drop_app_length. Qed.

Lemma range_check_app x r e : range_check (zlen x) (mk_deserializer (x ++ r) e) = true.
Proof.
  unfold range_check, remaining. simpl. rewrite zlen_app. apply Z.leb_le.
  pose proof (zlen_nonneg r). lia.
Qed.

Lemma value_span_app x r e :
  value_span (zlen x) (mk_deserializer (x ++ r) e) = Ok x (mk_deserializer r e).
Proof.
  unfold value_span. rewrite range_check_app, advance_app. simpl. unfold zlen.
  by rewrite Nat2Z.id, take_app_length.
Qed.

Lemma int_value_be n cast x r e :
  is_uint (8 * Z.of_nat n) x ->
  int_value n cast (mk_deserializer (be_bytes n x ++ r) e) = Ok (cast x) (mk_deserializer r e).
Proof.
  intros Hx. unfold int_value.
  replace (Z.of_nat n) with (zlen (be_bytes n x)) by (unfold zlen; by rewrite be_bytes_length).
  rewrite value_span_app. cbn [and_then].
  pose proof (network_order_val (be_bytes n x) (be_bytes_all n x)) as E.
  rewrite be_bytes_length in E. rewrite E, be_val_bytes, pow256, Z.mod_small by done. done.
Qed.

Lemma to_signed_uwrap n x : (0 < n)%nat -> is_sint (8 * Z.of_nat n) x ->
  to_signed n (uwrap (8 * Z.of_nat n) x) = x.
Proof. intros Hn Hx. apply swrap_uwrap; [lia|done]. Qed.

Lemma low7_of_cont x : 0 <= x -> Z.land (128 + x mod 128) 0x7F = x mod 128.
Proof.
  intros Hx. change 0x7F with (Z.ones 7). rewrite Z.land_ones by lia. change (2 ^ 7) with 128.
  rewrite <- Z.add_mod_idemp_l, Z.mod_same, Z.add_0_l by lia. apply Z.mod_mod. lia.
Qed.

Lemma low7_of_last x : 0 <= x < 128 -> Z.land x 0x7F = x.
Proof.
  intros Hx. change 0x7F with (Z.ones 7). rewrite Z.land_ones by lia. by apply Z.mod_small.
Qed.

Lemma cont_bit x : has_bits x 0x80 = Z.testbit x 7.
Proof. by apply (has_bits_testbit x 7). Qed.

Lemma cont_bit_set x : has_bits (128 + x mod 128) 0x80 = true.
Proof.
  rewrite cont_bit, Z.testbit_true by lia. change (2 ^ 7) with 128.
  pose proof (Z.mod_pos_bound x 128 ltac:(lia)).
  replace (128 + x mod 128) with (x mod 128 + 1 * 128) by lia. rewrite Z.div_add by lia.
  by rewrite Z.div_small by lia.
Qed.

Lemma cont_bit_clear x : 0 <= x < 128 -> has_bits x 0x80 = false.
Proof.
  intros Hx. rewrite cont_bit. apply (uint_testbit_high 7); [|lia]. unfold is_uint. lia.
Qed.

(** Accumulating a 7-bit group above the bits read so far. *)
Lemma accumulate_group acc y k :
  0 <= k -> 0 <= acc < 2 ^ k -> 0 <= y -> y * 2 ^ k < 2 ^ 32 ->
  Z.lor acc (uwrap 32 (Z.shiftl y k)) = acc + y * 2 ^ k.
Proof.
  intros Hk Ha Hy Hyk. rewrite Z.shiftl_mul_pow2 by done.
  rewrite uwrap_id by (unfold is_uint; pose proof (pow2_pos k Hk); nia).
  rewrite <- Z.shiftl_mul_pow2 by done. rewrite <- Z.add_lor_land.
  enough (Z.land acc (Z.shiftl y k) = 0) by lia.
  apply Z.bits_inj'. intros n Hn. rewrite Z.bits_0, Z.land_spec.
  destruct (Z.ltb_spec n k).
  - rewrite Z.shiftl_spec_low by done. apply andb_false_r.
  - rewrite (uint_testbit_high k acc) by (unfold is_uint; lia). done.
Qed.

Lemma varbyte_loop_leb128 groups fuel acc n y r e :
  (length (leb128 groups y) <= fuel)%nat -> (0 < groups)%nat -> 0 <= n -> 7 * (n + Z.of_nat groups) <= 35 ->
  0 <= acc < 2 ^ (7 * n) -> 0 <= y < 128 ^ Z.of_nat groups -> y * 2 ^ (7 * n) < 2 ^ 32 ->
  varbyte_loop fuel acc n (mk_deserializer (leb128 groups y ++ r) e)
  = Ok (acc + y * 2 ^ (7 * n)) (mk_deserializer r e).
Proof.
  revert fuel acc n y. induction groups as [|g IH]; intros fuel acc n y Hf Hg Hn Hb Ha Hy Hyn; [lia|].
  cbn [leb128] in Hf |- *.
  destruct (Z.ltb_spec y 128) as [L|L]; cbn [app length] in Hf |- *;
    (destruct fuel as [|fuel]; [lia|]); cbn [varbyte_loop]; unfold value_uint8; rewrite value_byte_cons; cbn [and_then];
    rewrite (proj2 (Z.leb_gt 32 (7 * n))) by lia.
  - rewrite cont_bit_clear, low7_of_last by lia. rewrite accumulate_group by lia. done.
  - destruct g as [|g]; [simpl in Hy; lia|].
    rewrite cont_bit_set, low7_of_cont by lia.
    pose proof (Z.mod_pos_bound y 128 ltac:(lia)) as Hm. pose proof (Z.div_mod y 128 ltac:(lia)) as Hdm.
    assert (0 <= y / 128) as Hd by (apply Z.div_pos; lia).
    assert (2 ^ (7 * (n + 1)) = 128 * 2 ^ (7 * n)) as Hp.
    { replace (7 * (n + 1)) with (7 + 7 * n) by lia. rewrite Z.pow_add_r by lia. done. }
    pose proof (pow2_pos (7 * n) ltac:(lia)) as Hpos.
    rewrite accumulate_group by nia.
    rewrite IH; [f_equal; rewrite Hp; nia|lia|lia|lia|lia|rewrite Hp; nia| |rewrite Hp; nia].
    rewrite Nat2Z.inj_succ, Z.pow_succ_r in Hy by lia. split; [done|].
    apply Z.div_lt_upper_bound; lia.
Qed.

Lemma begin_sequence_leb128 y r e :
  is_uint 32 y ->
  begin_sequence (mk_deserializer (leb128 5 y ++ r) e) = Ok y (mk_deserializer r e).
Proof.
  unfold is_uint. intros Hy. unfold begin_sequence. cbn [remainder].
  rewrite varbyte_loop_leb128; [f_equal; lia|rewrite length_app; lia|lia..| |lia].
  change (128 ^ Z.of_nat 5) with (2 ^ 35). lia.
Qed.

Lemma unsafe_int_value_be n x r e :
  is_uint (8 * Z.of_nat n) x ->
  unsafe_int_value n (mk_deserializer (be_bytes n x ++ r) e) = Ok x (mk_deserializer r e).
Proof.
  intros Hx. unfold unsafe_int_value, skip, remaining. cbn [remainder].
  assert (zlen (be_bytes n x) = Z.of_nat n) as Hl by (unfold zlen; by rewrite be_bytes_length).
  rewrite zlen_app, Hl. pose proof (zlen_nonneg r).
  rewrite (proj2 (Z.ltb_ge _ _)) by lia. cbn [and_then].
  rewrite <- Hl at 1. rewrite advance_app.
  rewrite <- (be_bytes_length n x) at 2. rewrite take_app_length.
  pose proof (network_order_val (be_bytes n x) (be_bytes_all n x)) as E.
  rewrite be_bytes_length in E. rewrite E, be_val_bytes, pow256, Z.mod_small by done. done.
Qed.

Lemma unsafe_int_values_be n xs r e :
  Forall (is_uint (8 * Z.of_nat n)) xs ->
  unsafe_int_values (length xs) n (mk_deserializer (flat_map (be_bytes n) xs ++ r) e)
  = Ok xs (mk_deserializer r e).
Proof.
  induction 1 as [|x xs Hx Hxs IH]; [done|]. cbn [unsafe_int_values length flat_map].
  rewrite <- app_assoc, unsafe_int_value_be by done. cbn [and_then]. by rewrite IH.
Qed.

Lemma flat_map_be_length n xs : zlen (flat_map (be_bytes n) xs) = zlen xs * Z.of_nat n.
Proof.
  induction xs as [|x xs IH]; [done|]. cbn [flat_map]. rewrite zlen_app, zlen_cons, IH.
  unfold zlen at 1. rewrite be_bytes_length. lia.
Qed.

(** The common part of the two wide string readers. *)
Lemma wide_string_be n xs r e :
  (n = 2 \/ n = 4)%nat -> is_uint 32 (zlen xs) -> Forall (is_uint (8 * Z.of_nat n)) xs ->
  (let* (str_size, s1) :=
     begin_sequence (mk_deserializer ((leb128 5 (zlen xs) ++ flat_map (be_bytes n) xs) ++ r) e) in
   if negb (range_check (uwrap 64 (str_size * Z.of_nat n)) s1) then emplace_error end_of_stream s1
   else unsafe_int_values (Z.to_nat str_size) n s1) = Ok xs (mk_deserializer r e).
Proof.
  intros Hn Hl Hxs. rewrite <- app_assoc, begin_sequence_leb128 by done. cbn [and_then].
  rewrite uwrap_id by (unfold is_uint in *; destruct Hn as [-> | ->]; lia).
  rewrite <- flat_map_be_length, range_check_app. cbn [negb].
  unfold zlen. rewrite Nat2Z.id. by apply unsafe_int_values_be.
Qed.

Lemma unpack_block_bits bs : length bs = 8%nat -> unpack_block (bits_val bs) = bs.
Proof.
  intros H. destruct bs as [|b0 [|b1 [|b2 [|b3 [|b4 [|b5 [|b6 [|b7 [|]]]]]]]]]; try discriminate H.
  by destruct b0, b1, b2, b3, b4, b5, b6, b7.
Qed.

Lemma unpack_trailing_bits bs :
  (length bs < 8)%nat -> unpack_trailing (length bs) (bits_val bs) = bs.
Proof.
  intros H. destruct bs as [|b0 [|b1 [|b2 [|b3 [|b4 [|b5 [|b6 [|b7 l]]]]]]]]; simpl in H; try lia;
    repeat match goal with b : bool |- _ => destruct b end; reflexivity.
Qed.

Lemma unpack_blocks_bits blocks bs r e :
  length bs = (8 * blocks)%nat ->
  unpack_blocks blocks (mk_deserializer (bit_groups blocks bs ++ r) e) = Ok bs (mk_deserializer r e).
Proof.
  revert bs. induction blocks as [|blocks IH]; intros bs Hl.
  { by destruct bs. }
  cbn [unpack_blocks bit_groups]. destruct bs as [|b bs]; [simpl in Hl; lia|].
  cbn [app]. unfold value_uint8. rewrite value_byte_cons. cbn [and_then].
  rewrite IH by (rewrite length_drop; lia). cbn [and_then].
  rewrite unpack_block_bits by (rewrite length_take; lia). by rewrite take_drop.
Qed.

Lemma value_vector_bool_bits x r e :
  is_uint 32 (zlen x) ->
  value_vector_bool (mk_deserializer ((leb128 5 (zlen x) ++ bit_groups (length x) x) ++ r) e)
  = Ok x (mk_deserializer r e).
Proof.
  intros Hx. unfold value_vector_bool. rewrite <- app_assoc, begin_sequence_leb128 by done.
  cbn [and_then]. destruct (Z.eqb_spec (zlen x) 0) as [E|E].
  { destruct x; [done|]. rewrite zlen_cons in E. pose proof (zlen_nonneg x). lia. }
  assert (Z.to_nat (zlen x / 8) = length x / 8)%nat as ->.
  { unfold zlen. change 8 with (Z.of_nat 8). by rewrite <- Nat2Z.inj_div, Nat2Z.id. }
  assert (zlen x mod 8 = Z.of_nat (length x mod 8)) as ->.
  { unfold zlen. change 8 with (Z.of_nat 8). by rewrite <- Nat2Z.inj_mod. }
  set (blocks := (length x / 8)%nat).
  pose proof (Nat.div_mod_eq (length x) 8) as Hdm. fold blocks in Hdm.
  pose proof (Nat.mod_upper_bound (length x) 8) as Hmod.
  rewrite (bit_groups_fuel _ (blocks + 1)) by lia. rewrite <- (take_drop (8 * blocks) x) at 1.
  rewrite bit_groups_app by (rewrite length_take; lia). rewrite <- app_assoc.
  rewrite unpack_blocks_bits by (rewrite length_take; lia). cbn [and_then].
  assert (length (drop (8 * blocks) x) = (length x mod 8)%nat) as Hl by (rewrite length_drop; lia).
  destruct (Z.ltb_spec 0 (Z.of_nat (length x mod 8))) as [L|L].
  - rewrite Nat2Z.id. cbn [bit_groups].
    destruct (drop (8 * blocks) x) as [|b l] eqn:El; [cbn [length] in Hl; lia|]. cbn [app].
    unfold value_uint8. rewrite value_byte_cons. cbn [and_then]. rewrite (take_ge (b :: l)) by lia.
    rewrite <- Hl, unpack_trailing_bits by lia. by rewrite <- El, take_drop.
  - destruct (drop (8 * blocks) x) as [|b l] eqn:El; [|cbn [length] in Hl; lia].
    cbn [bit_groups app]. by rewrite <- (app_nil_r (take _ _)), <- El, take_drop.
Qed.

Lemma value_int8_be x r e :
  is_sint 8 x ->
  value_int8 (mk_deserializer (be_bytes 1 (uwrap 8 x) ++ r) e) = Ok x (mk_deserializer r e).
Proof.
  intros Hx. unfold value_int8. rewrite be_bytes_1 by (apply uwrap_range; lia). cbn [app].
  rewrite value_byte_cons. cbn [and_then]. by rewrite swrap_uwrap.
Qed.

Lemma value_index_be num_types x r e :
  is_sint (8 * Z.of_nat (index_bytes num_types)) x ->
  value_index num_types
    (mk_deserializer (be_bytes (index_bytes num_types) (uwrap (8 * Z.of_nat (index_bytes num_types)) x) ++ r) e)
  = Ok x (mk_deserializer r e).
Proof.
  unfold value_index, index_bytes.
  change (max_value 8) with 127. change (max_value 16) with 32767.
  change (max_value 32) with 2147483647. intros Hx.
  destruct (num_types <? 127); [by apply value_int8_be|].
  destruct (num_types <? 32767);
    [|destruct (num_types <? 2147483647)];
    rewrite int_value_be by (apply uwrap_range; lia); rewrite to_signed_uwrap by (done || lia); done.
Qed.

Lemma index_none n : replicate (index_bytes n) 255 = be_bytes (index_bytes n) (uwrap (8 * Z.of_nat (index_bytes n)) (-1)).
Proof. unfold index_bytes. by repeat case_match. Qed.

Lemma index_some n i :
  is_uint 63 n -> 0 <= i < n -> uwrap (8 * Z.of_nat (index_bytes n)) i = i.
Proof.
  intros Hn Hi. apply uwrap_id. pose proof (index_bytes_pos n).
  apply sint_nonneg_uint; [by apply index_fits|lia..].
Qed.

(** Loading inverts encoding and leaves the rest of the input alone. *)
Lemma load_encode d r e :
  valid d -> load (kind_of d) (mk_deserializer (encode d ++ r) e) = Ok d (mk_deserializer r e).
Proof.
  destruct d as [b|x|x|x|n x|n x|x|x|x|x|x|n|b|n i|n i]; cbn [kind_of load encode valid]; intros Hv.
  - unfold value_bool, value_int8. cbn [app]. rewrite value_byte_cons. by destruct b.
  - cbn [app]. by rewrite value_byte_cons.
  - by rewrite value_int8_be.
  - cbn [app]. unfold value_uint8. by rewrite value_byte_cons.
  - destruct Hv as [Hn Hx]. rewrite int_value_be by (apply uwrap_range; lia). cbn [wrap and_then].
    by rewrite to_signed_uwrap by (done || lia).
  - destruct Hv as [Hn Hx]. rewrite int_value_be by (apply uwrap_range; lia). unfold to_unsigned.
    by rewrite uwrap_id.
  - by rewrite value_span_app.
  - destruct Hv as [_ Hv]. unfold value_string. rewrite <- app_assoc, begin_sequence_leb128 by done.
    cbn [and_then]. rewrite range_check_app, advance_app. cbn [negb wrap and_then remainder].
    unfold zlen. by rewrite Nat2Z.id, take_app_length.
  - destruct Hv as [Hc Hv]. 
    assert (value_u16string (mk_deserializer ((leb128 5 (zlen x) ++ flat_map (be_bytes 2) x) ++ r) e)
      = Ok x (mk_deserializer r e)) as -> by (apply (wide_string_be 2); [lia|done|done]). done.
  - destruct Hv as [Hc Hv]. 
    assert (value_u32string (mk_deserializer ((leb128 5 (zlen x) ++ flat_map (be_bytes 4) x) ++ r) e)
      = Ok x (mk_deserializer r e)) as -> by (apply (wide_string_be 4); [lia|done|done]). done.
  - by rewrite value_vector_bool_bits.
  - by rewrite begin_sequence_leb128.
  - unfold begin_optional_field, value_uint8. cbn [app]. rewrite value_byte_cons. by destruct b.
  - destruct Hv as [Hn Hi]. unfold begin_variant_field.
    rewrite <- (index_some n i) at 1 by done. rewrite value_index_be by (by apply index_fits).
    cbn [and_then]. unfold is_uint in Hn. rewrite (uwrap_id 64 i) by (unfold is_uint; lia).
    rewrite (proj2 (Z.ltb_ge i 0)), (proj2 (Z.leb_gt n i)) by lia. done.
  - destruct Hv as [Hn Hi]. unfold begin_optional_variant_field. unfold is_uint in Hn. destruct i as [i|].
    + rewrite <- (index_some n i) at 1 by done. rewrite value_index_be by (by apply index_fits).
      cbn [and_then]. rewrite (uwrap_id 64 i) by (unfold is_uint; lia).
      rewrite (proj2 (Z.ltb_ge i 0)), (proj2 (Z.leb_gt n i)) by lia. done.
    + rewrite index_none, value_index_be; [done|].
      unfold is_sint, index_bytes. repeat case_match; simpl; lia.
Qed.

Lemma load_all_encode ds r e :
  Forall valid ds ->
  load_all (map kind_of ds) (mk_deserializer (encode_all ds ++ r) e) = Ok ds (mk_deserializer r e).
Proof.
  induction 1 as [|d ds Hd Hds IH]; [done|]. cbn [load_all map encode_all flat_map].
  rewrite <- app_assoc, load_encode by done. cbn [and_then]. unfold encode_all in IH. by rewrite IH.
Qed.

(** ** Arbitrary input *)

(** Why a read fails, at the position where it stops: the index of a variant
    is out of bounds, or a check for at most [limit] bytes finds fewer.  In the
    second case, and only then, [range_check] has formed a pointer behind the end. *)
Definition refused (limit : Z) (s : deserializer) : Prop :=
  err_ s = Some invalid_field_type
  \/ err_ s = Some end_of_stream /\ exists n, 0 < n <= limit /\ range_check n s = false.

Section Robust.
  Context (limit : Z) (Hlimit : 1 <= limit).

(** A call on any input: what it returns is well-typed and consumed a prefix
    of the input, and a call that returns [false] recorded its reason. *)
Definition sound {A} (P : A -> Prop) (s : deserializer) (r : outcome A) : Prop :=
  match r with
  | Ok x s' => P x /\ (exists used, remainder s = used ++ remainder s') /\ err_ s' = err_ s
  | Failed s' => (exists used, remainder s = used ++ remainder s') /\ refused limit s'
  | Raised | Undefined => False
  end.

(** Soundness from a later position is soundness from here. *)
Lemma sound_from {A} (P : A -> Prop) s s1 r :
  (exists used, remainder s = used ++ remainder s1) -> err_ s1 = err_ s ->
  sound P s1 r -> sound P s r.
Proof.
  intros [u Hu] He. destruct r as [x s2|s2| |]; simpl; [|..]; try done.
  - intros (HP & [v Hv] & He2). split; [done|]. split; [|congruence].
    exists (u ++ v). by rewrite Hu, Hv, app_assoc.
  - intros ([v Hv] & He2). split; [|done]. exists (u ++ v). by rewrite Hu, Hv, app_assoc.
Qed.

Lemma sound_then {A B} (P : A -> Prop) (Q : B -> Prop) s r (f : A -> deserializer -> outcome B) :
  sound P s r ->
  (forall x s', P x -> (exists used, remainder s = used ++ remainder s') -> sound Q s' (f x s')) ->
  sound Q s (and_then r f).
Proof.
  destruct r as [x s1|s1| |]; simpl; [|done..]. intros (Hx & [u Hu] & He) Hf.
  eapply sound_from; [by exists u|done|]. apply Hf; [done|]. by exists u.
Qed.

Lemma sound_ok {A} (P : A -> Prop) x s : P x -> sound P s (Ok x s).
Proof. intros H. split; [done|]. split; [|done]. by exists []. Qed.

Lemma sound_index {A} (P : A -> Prop) s : sound P s (emplace_error invalid_field_type s).
Proof. split; [by exists []|]. by left. Qed.

Lemma sound_end {A} (P : A -> Prop) n s :
  remaining s < n <= limit -> sound P s (emplace_error end_of_stream s).
Proof.
  intros Hn. split; [by exists []|]. right. split; [done|]. exists n. unfold remaining in *.
  pose proof (zlen_nonneg (remainder s)). split; [lia|]. unfold range_check. apply Z.leb_gt. simpl. unfold remaining. simpl. lia.
Qed.

Lemma sound_advance {A} (P : A -> Prop) x n s : P x -> sound P s (Ok x (advance n s)).
Proof.
  intros H. split; [done|]. split; [|done]. exists (take (Z.to_nat n) (remainder s)).
  simpl. by rewrite take_drop.
Qed.

Lemma sound_weaken {A} (P Q : A -> Prop) s r : sound P s r -> (forall x, P x -> Q x) -> sound Q s r.
Proof. intros H HPQ. destruct r; simpl in *; [|done..]. destruct H as (? & ? & ?). auto. Qed.

#[local] Hint Resolve sound_ok sound_index sound_advance : caf.

Lemma suffix_bytes s s' :
  all_bytes (remainder s) -> (exists used, remainder s = used ++ remainder s') ->
  all_bytes (remainder s').
Proof. intros H [u Hu]. rewrite Hu in H. by apply Forall_app in H as [_ ?]. Qed.

Lemma value_byte_sound s : all_bytes (remainder s) -> sound is_byte s (value_byte s).
Proof.
  intros Hb. unfold value_byte, range_check, remaining.
  destruct (Z.leb_spec 1 (zlen (remainder s))); [|apply (sound_end _ 1); unfold remaining; lia].
  destruct (remainder s) as [|x r] eqn:E; [by rewrite zlen_nil in *|].
  apply Forall_cons in Hb as [Hx _]. by apply sound_advance.
Qed.

Lemma value_span_sound n s :
  0 <= n <= limit -> all_bytes (remainder s) ->
  sound (fun x => all_bytes x /\ zlen x = n) s (value_span n s).
Proof.
  intros Hn Hb. unfold value_span, range_check, remaining.
  destruct (Z.leb_spec n (zlen (remainder s))); [|apply (sound_end _ n); unfold remaining; lia].
  apply sound_advance. split; [by apply Forall_take|].
  unfold zlen in *. rewrite length_take. lia.
Qed.

Lemma int_value_sound n cast (P : Z -> Prop) s :
  Z.of_nat n <= limit -> all_bytes (remainder s) -> (forall x, is_uint (8 * Z.of_nat n) x -> P (cast x)) ->
  sound P s (int_value n cast s).
Proof.
  intros Hn' Hb HP. eapply sound_then; [apply value_span_sound; [lia|done]|].
  intros x s' [Hx Hl] _. apply sound_ok, HP.
  assert (length x = n) as Hn by (unfold zlen in Hl; lia).
  pose proof (network_order_val x Hx) as E. rewrite Hn in E. rewrite E.
  pose proof (be_val_range x Hx) as R. unfold zlen in R. rewrite Hn, pow256 in R. done.
Qed.

Lemma value_int8_sound s : all_bytes (remainder s) -> sound (is_sint 8) s (value_int8 s).
Proof.
  intros Hb. eapply sound_then; [by apply value_byte_sound|]. intros x s' _ _.
  apply sound_ok. by apply swrap_range.
Qed.

(** A size prefix with more than five bytes. *)
Definition overlong (bs : bytes) : Prop :=
  (5 < length bs)%nat /\ Forall (fun b => has_bits b 0x80 = true) (take 5 bs).

Lemma value_byte_nil e : value_byte (mk_deserializer [] e) = emplace_error end_of_stream (mk_deserializer [] e).
Proof. done. Qed.

Lemma varbyte_loop_any fuel acc (n : nat) s :
  all_bytes (remainder s) -> (length (remainder s) < fuel)%nat -> (n <= 5)%nat -> is_uint 32 acc ->
  sound (is_uint 32) s (varbyte_loop fuel acc (Z.of_nat n) s) \/
  (varbyte_loop fuel acc (Z.of_nat n) s = Undefined /\ (5 - n < length (remainder s))%nat /\
   Forall (fun b => has_bits b 0x80 = true) (take (5 - n) (remainder s))).
Proof.
  revert acc n s. induction fuel as [|fuel IH]; intros acc n [rs e] Hb Hf Hn Ha; [lia|].
  cbn [varbyte_loop remainder] in *. unfold value_uint8. destruct rs as [|b r].
  { left. rewrite value_byte_nil. cbn [and_then]. apply (sound_end _ 1). unfold remaining, zlen. simpl. lia. }
  rewrite value_byte_cons. cbn [and_then]. apply Forall_cons in Hb as [Hb Hr].
  destruct (Z.leb_spec 32 (7 * Z.of_nat n)) as [L|L].
  { right. assert (n = 5%nat) as -> by lia. split; [done|]. simpl. split; [lia|constructor]. }
  set (acc' := Z.lor _ _).
  assert (is_uint 32 acc') as Ha' by (apply uint_lor; [lia|done|apply uwrap_range; lia]).
  assert (forall r1, sound (is_uint 32) (mk_deserializer r e) r1 ->
    sound (is_uint 32) (mk_deserializer (b :: r) e) r1) as Hstep.
  { intros r1. apply sound_from; [by exists [b]|done]. }
  destruct (has_bits b 0x80) eqn:Hc; [|left; by apply Hstep, sound_ok].
  replace (Z.of_nat n + 1) with (Z.of_nat (S n)) by lia.
  destruct (IH acc' (S n) (mk_deserializer r e) Hr) as [H|(H & Hlen & Hall)]; try (simpl in *; lia); [done|..].
  - left. by apply Hstep.
  - right. cbn [remainder length] in *. split; [done|]. split; [lia|].
    replace (5 - n)%nat with (S (5 - S n)) by lia. cbn [take]. by constructor.
Qed.

Lemma begin_sequence_any s :
  all_bytes (remainder s) ->
  sound (is_uint 32) s (begin_sequence s) \/ (begin_sequence s = Undefined /\ overlong (remainder s)).
Proof.
  intros Hb. destruct (varbyte_loop_any (S (length (remainder s))) 0 0 s Hb) as [H|(H & Hl & Hall)];
    [lia|lia|unfold is_uint; lia|by left|]. right. split; [done|]. split; [lia|done].
Qed.

(** A reader that starts with a size prefix. *)
Lemma sized_any {A} (P : A -> Prop) s f :
  all_bytes (remainder s) ->
  (forall n s', is_uint 32 n -> all_bytes (remainder s') -> sound P s' (f n s')) ->
  sound P s (and_then (begin_sequence s) f) \/
  (and_then (begin_sequence s) f = Undefined /\ overlong (remainder s)).
Proof.
  intros Hb Hf. destruct (begin_sequence_any s Hb) as [H|[-> H]]; [left|by right].
  eapply sound_then; [exact H|]. intros n s' Hn Hu. apply Hf; [done|]. by eapply suffix_bytes.
Qed.

Lemma unsafe_int_values_sound count n s :
  all_bytes (remainder s) -> (count * n <= length (remainder s))%nat ->
  sound (fun xs => Forall (is_uint (8 * Z.of_nat n)) xs /\ length xs = count) s (unsafe_int_values count n s).
Proof.
  revert s. induction count as [|count IH]; intros s Hb Hl; cbn [unsafe_int_values].
  { by apply sound_ok. }
  unfold unsafe_int_value, skip. cbn [Nat.mul] in Hl. unfold remaining, zlen.
  rewrite (proj2 (Z.ltb_ge _ _)) by lia. cbn [and_then].
  apply (sound_from _ s (advance (Z.of_nat n) s));
    [exists (take n (remainder s)); simpl; by rewrite Nat2Z.id, take_drop|done|].
  eapply sound_then; [apply IH|].
  - by apply Forall_drop.
  - simpl. rewrite Nat2Z.id, length_drop. lia.
  - intros xs s' [Hxs Hlx] _. apply sound_ok. split; [|simpl; by rewrite Hlx].
    constructor; [|done]. set (t := take n _).
    assert (length t = n) as Ht by (unfold t; rewrite length_take; lia).
    assert (all_bytes t) as Hbt by (by apply Forall_take).
    pose proof (network_order_val t Hbt) as E. rewrite Ht in E. rewrite E.
    pose proof (be_val_range t Hbt) as R. unfold zlen in R. by rewrite Ht, pow256 in R.
Qed.

Lemma unpack_blocks_sound blocks s :
  all_bytes (remainder s) ->
  sound (fun bs => length bs = (8 * blocks)%nat) s (unpack_blocks blocks s).
Proof.
  revert s. induction blocks as [|blocks IH]; intros s Hb; cbn [unpack_blocks].
  { by apply sound_ok. }
  eapply sound_then; [by apply value_byte_sound|]. intros x s' _ Hu.
  eapply sound_then; [apply IH; by eapply suffix_bytes|]. intros bs s2 Hl _.
  apply sound_ok. rewrite length_app, Hl. simpl. lia.
Qed.

Lemma unpack_trailing_length n tmp : length (unpack_trailing n tmp) = n.
Proof. induction n as [|n IH]; [done|]. simpl. by rewrite IH. Qed.

Lemma value_index_sound num_types s :
  8 <= limit -> all_bytes (remainder s) -> sound (is_sint 64) s (value_index num_types s).
Proof.
  intros Hl Hb. unfold value_index.
  assert (forall n x, (0 < n <= 8)%nat -> is_sint 64 (to_signed n x)) as Hs.
  { intros n x Hn. unfold to_signed. pose proof (swrap_range (8 * Z.of_nat n) x) as R.
    unfold is_sint in *. assert (2 ^ (8 * Z.of_nat n - 1) <= 2 ^ (64 - 1)) by (apply Z.pow_le_mono_r; lia).
    lia. }
  destruct (_ <? _); [eapply sound_weaken; [by apply value_int8_sound|unfold is_sint; simpl; lia]|].
  destruct (_ <? _); [|destruct (_ <? _)]; apply int_value_sound; try (done || lia); intros; apply Hs; lia.
Qed.

(** How many bytes a read of a kind asks for at most, in one check. *)
Definition reach (k : kind) : Z :=
  match k with
  | k_int n | k_uint n => Z.of_nat n
  | k_span n => Z.max 1 n
  | k_string => 2 ^ 32 - 1
  | k_u16string => (2 ^ 32 - 1) * 2
  | k_u32string => (2 ^ 32 - 1) * 4
  | k_variant _ | k_optional_variant _ => 8
  | _ => 1
  end.

Definition valid_kind (k : kind) : Prop :=
  match k with
  | k_int n | k_uint n => (n = 2 \/ n = 4 \/ n = 8)%nat
  | k_span n => 0 <= n
  | k_variant n | k_optional_variant n => is_uint 63 n
  | _ => True
  end.

Definition reads_size (k : kind) : bool :=
  match k with
  | k_string | k_u16string | k_u32string | k_vector_bool | k_sequence => true
  | _ => false
  end.

Lemma wrap_sound {A} (P : A -> Prop) (Q : datum -> Prop) (f : A -> datum) s r :
  sound P s r -> (forall x, P x -> Q (f x)) -> sound Q s (wrap f r).
Proof.
  intros H HPQ. unfold wrap. eapply sound_then; [exact H|]. intros x s' Hx _. by apply sound_ok, HPQ.
Qed.

Lemma wrap_any {A} (P : A -> Prop) (Q : datum -> Prop) (f : A -> datum) s r (U : Prop) :
  sound P s r \/ (r = Undefined /\ U) -> (forall x, P x -> Q (f x)) ->
  sound Q s (wrap f r) \/ (wrap f r = Undefined /\ U).
Proof. intros [H|[-> H]] HPQ; [left; by eapply wrap_sound|by right]. Qed.

Lemma load_plain_sound k s :
  reach k <= limit -> all_bytes (remainder s) -> valid_kind k -> reads_size k = false ->
  sound (fun d => valid d /\ kind_of d = k) s (load k s).
Proof.
  intros Hl Hb Hk Hr. destruct k; try discriminate Hr; cbn [load valid_kind reach] in *.
  - apply (wrap_sound (fun _ => True)); [|done].
    eapply sound_then; [by apply value_int8_sound|]. intros. by apply sound_ok.
  - eapply wrap_sound; [by apply value_byte_sound|done].
  - eapply wrap_sound; [by apply value_int8_sound|done].
  - eapply wrap_sound; [by apply value_byte_sound|done].
  - eapply wrap_sound; [apply (int_value_sound n _ (is_sint (8 * Z.of_nat n))); [done..|]|done].
    intros x _. apply swrap_range. lia.
  - eapply wrap_sound; [by apply (int_value_sound n _ (is_uint (8 * Z.of_nat n)))|done].
  - eapply wrap_sound; [apply value_span_sound; [lia|done]|]. simpl. intros x [Hx <-]. done.
  - apply (wrap_sound (fun _ => True)); [|done].
    eapply sound_then; [by apply value_byte_sound|]. intros. by apply sound_ok.
  - apply (wrap_sound (fun i => 0 <= i < num_types)); [|done].
    eapply sound_then; [by apply value_index_sound|]. intros x s' Hx _. unfold is_sint, is_uint in *.
    destruct (Z.ltb_spec x 0); [apply sound_index|]. cbn [orb].
    rewrite uwrap_id by (unfold is_uint; lia).
    destruct (Z.leb_spec num_types x); [apply sound_index|]. apply sound_ok. lia.
  - apply (wrap_sound (fun i => match i with Some i => 0 <= i < num_types | None => True end)); [|done].
    eapply sound_then; [by apply value_index_sound|]. intros x s' Hx _. unfold is_sint, is_uint in *.
    destruct (Z.ltb_spec x 0); [by apply sound_ok|].
    rewrite uwrap_id by (unfold is_uint; lia).
    destruct (Z.leb_spec num_types x); [apply sound_index|]. apply sound_ok. lia.
Qed.

(** Wide strings: the range check covers all unchecked reads. *)
Lemma wide_string_sound n str_size s :
  (n = 2 \/ n = 4)%nat -> (2 ^ 32 - 1) * Z.of_nat n <= limit -> is_uint 32 str_size -> all_bytes (remainder s) ->
  sound (fun xs => Forall (is_uint (8 * Z.of_nat n)) xs /\ is_uint 32 (zlen xs)) s
    (if negb (range_check (uwrap 64 (str_size * Z.of_nat n)) s) then emplace_error end_of_stream s
     else unsafe_int_values (Z.to_nat str_size) n s).
Proof.
  intros Hn Hl' Hsz Hb. rewrite uwrap_id by (unfold is_uint in *; destruct Hn as [-> | ->]; lia).
  unfold range_check, remaining. destruct (Z.leb_spec (str_size * Z.of_nat n) (zlen (remainder s))) as [L|L];
    [|apply (sound_end _ (str_size * Z.of_nat n)); unfold is_uint, remaining in *; nia]. cbn [negb].
  unfold is_uint, zlen in *.
  eapply sound_weaken; [apply unsafe_int_values_sound; [done|nia]|].
  intros xs [Hxs Hl]. split; [done|]. unfold zlen. lia.
Qed.

Lemma vector_bool_sound len s :
  is_uint 32 len -> all_bytes (remainder s) ->
  sound (fun x => is_uint 32 (zlen x)) s
    (if len =? 0 then Ok [] s else
     let* (bs, s2) := unpack_blocks (Z.to_nat (len / 8)) s in
     if 0 <? len mod 8 then
       let* (tmp, s3) := value_uint8 s2 in
       Ok (bs ++ unpack_trailing (Z.to_nat (len mod 8)) tmp) s3
     else Ok bs s2).
Proof.
  intros Hlen Hb. unfold is_uint in *. destruct (Z.eqb_spec len 0); [apply sound_ok; unfold zlen; simpl; lia|].
  pose proof (Z.div_mod len 8 ltac:(lia)). pose proof (Z.mod_pos_bound len 8 ltac:(lia)).
  assert (0 <= len / 8) by (apply Z.div_pos; lia).
  eapply sound_then; [by apply unpack_blocks_sound|]. intros bs s2 Hl Hu.
  destruct (Z.ltb_spec 0 (len mod 8)).
  - eapply sound_then; [apply value_byte_sound; by eapply suffix_bytes|]. intros tmp s3 _ _.
    apply sound_ok. unfold zlen. rewrite length_app, unpack_trailing_length, Hl. lia.
  - apply sound_ok. unfold zlen. rewrite Hl. lia.
Qed.

Lemma load_sized_any k s :
  reach k <= limit -> all_bytes (remainder s) -> reads_size k = true ->
  sound (fun d => valid d /\ kind_of d = k) s (load k s) \/
  (load k s = Undefined /\ overlong (remainder s)).
Proof.
  intros Hl Hb Hr. destruct k; try discriminate Hr; cbn [load reach] in *.
  - apply (wrap_any (fun x => all_bytes x /\ is_uint 32 (zlen x))); [|done].
    apply sized_any; [done|]. intros n s' Hn Hb'. unfold is_uint in Hn. unfold range_check, remaining.
    destruct (Z.leb_spec n (zlen (remainder s'))); [|apply (sound_end _ n); unfold remaining; lia]. cbn [negb].
    apply sound_advance. split; [by apply Forall_take|]. unfold is_uint, zlen in *. rewrite length_take. lia.
  - eapply wrap_any; [apply sized_any; [done|]; intros n s' Hn Hb'; apply (wide_string_sound 2); (done || lia)|done].
  - eapply wrap_any; [apply sized_any; [done|]; intros n s' Hn Hb'; apply (wide_string_sound 4); (done || lia)|done].
  - eapply wrap_any; [apply sized_any; [done|]; intros n s' Hn Hb'; by apply vector_bool_sound|done].
  - eapply wrap_any; [by apply begin_sequence_any|done].
Qed.

End Robust.

(** Comparing addresses of 64 bits gives the answer of [range_check] as long as
    the input does not end so close to the top of the address space that the
    sum wraps around.  A read asks for less than 2^34 bytes unless its caller has
    a larger span. *)
Lemma range_check_addresses current end_ n s :
  0 <= current -> current + remaining s = end_ -> 0 <= n -> end_ + n < 2 ^ 64 ->
  (uwrap 64 (current + n) <=? end_) = range_check n s.
Proof.
  intros H0 H1 Hn H2. pose proof (zlen_nonneg (remainder s)). unfold range_check, remaining in *.
  rewrite uwrap_id by (unfold is_uint; lia). destruct (Z.leb_spec n (zlen (remainder s))); [apply Z.leb_le|apply Z.leb_gt]; lia.
Qed.

(** Otherwise the sum is a small number and the check lets every size pass. *)
Lemma range_check_wraps :
  (uwrap 64 (2 ^ 64 - 16 + 100) <=? 2 ^ 64 - 8) = true
  /\ range_check 100 (mk_deserializer (replicate 8 0) None) = false.
Proof. split; vm_compute; reflexivity. Qed.

(** ** Claims *)

(** C30. Round trip.  Whatever sequence of valid data the serializer appends
    to a buffer, the deserializer reads back exactly this data from the
    appended bytes and leaves what follows them untouched. *)
Theorem binary_roundtrip ds pre post e :
  Forall valid ds ->
  exists s', save_all ds (mk_serializer pre (zlen pre)) = Some (true, s') /\
    load_all (map kind_of ds) (mk_deserializer (drop (length pre) (buf_ s') ++ post) e)
    = Ok ds (mk_deserializer post e).
Proof.
  intros Hv. eexists. rewrite save_all_write;
    [|unfold wf; simpl; pose proof (zlen_nonneg pre); lia|done].
  split; [done|]. rewrite write_end by done. simpl. rewrite drop_app_length.
  by apply load_all_encode.
Qed.

Lemma binary_roundtrip_witness :
  let ds := [d_bool true; d_int 4 (-2); d_u16string [0x20AC; 65]; d_vector_bool [true; false; true];
             d_sequence 300; d_optional_variant 500 (Some 400)] in
  exists s', save_all ds (mk_serializer [9] 1) = Some (true, s') /\
    load_all (map kind_of ds) (mk_deserializer (drop 1 (buf_ s') ++ [42]) None)
    = Ok ds (mk_deserializer [42] None).
Proof.
  intros ds. apply (binary_roundtrip ds [9] [42] None).
  repeat constructor; unfold is_sint, is_uint, is_byte, zlen; simpl; lia.
Defined.

(** C31. Robustness.  On any input bytes a read of any kind ends in one of four
    ways, and never raises.  It returns a well-typed value of the requested kind after
    consuming a prefix of the input; or it returns [false] with [invalid_field_type],
    without having left the input; or it returns [false] with [end_of_stream], without
    having read a byte behind the end, where [range_check] has found fewer bytes than
    the read asked for: at this point the code has formed a pointer at most
    [reach k] bytes ahead, behind the end of the input, which the standard leaves
    undefined and which the model takes for a number; or the kind starts with a size
    prefix, this prefix has more than five bytes, and the shift is undefined. *)
Theorem deserializer_robust k s :
  all_bytes (remainder s) -> valid_kind k ->
  (exists d s' used, load k s = Ok d s' /\ valid d /\ kind_of d = k /\
     remainder s = used ++ remainder s' /\ err_ s' = err_ s) \/
  (exists s' used, load k s = Failed s' /\ remainder s = used ++ remainder s' /\
     err_ s' = Some invalid_field_type) \/
  (exists s' used n, load k s = Failed s' /\ remainder s = used ++ remainder s' /\
     err_ s' = Some end_of_stream /\ 0 < n <= reach k /\ range_check n s' = false) \/
  (reads_size k = true /\ overlong (remainder s) /\ load k s = Undefined).
Proof.
  intros Hb Hk. assert (1 <= reach k) as Hr by (destruct k; cbn [reach valid_kind] in *; lia).
  assert (sound (reach k) (fun d => valid d /\ kind_of d = k) s (load k s) \/
    (reads_size k = true /\ load k s = Undefined /\ overlong (remainder s))) as [H|H]; [..|naive_solver].
  { destruct (reads_size k) eqn:E; [|left; by apply load_plain_sound].
    destruct (load_sized_any (reach k) Hr k s (Z.le_refl _) Hb E); [by left|]. right. tauto. }
  destruct (load k s) as [d s'|s'| |]; simpl in H; [|..]; try done.
  - destruct H as ([Hv Hd] & [u Hu] & He). left. eauto 10.
  - destruct H as ([u Hu] & [He|(He & n & Hn & Hc)]); right; [left|right; left]; eauto 10.
Qed.

Lemma deserializer_robust_witness :
  exists s' used n, load k_string (mk_deserializer [5; 1; 2] None) = Failed s' /\
    [5; 1; 2] = used ++ remainder s' /\ err_ s' = Some end_of_stream /\ 0 < n <= reach k_string
    /\ range_check n s' = false.
Proof.
  destruct (deserializer_robust k_string (mk_deserializer [5; 1; 2] None)) as [H|[H|[H|H]]].
  - apply (bool_decide_unpack _). vm_compute. exact I.
  - exact I.
  - destruct H as (d & s' & u & E & _). discriminate E.
  - destruct H as (s' & u & E & _ & He). injection E as <-. discriminate He.
  - exact H.
  - destruct H as (_ & _ & E). discriminate E.
Defined.

(** The overlong prefix is reachable: six bytes, the first five with
    the continuation bit set, make [begin_sequence] shift a 32-bit integer by
    35, whatever follows. *)
Theorem overlong_size_undefined s : overlong (remainder s) -> begin_sequence s = Undefined.
Proof.
  destruct s as [rs e]. intros [Hl Hc]. cbn [remainder] in *.
  destruct rs as [|b0 [|b1 [|b2 [|b3 [|b4 [|b5 r]]]]]]; simpl in Hl; try lia.
  cbn [take] in Hc. rewrite !Forall_cons in Hc. destruct Hc as (H0 & H1 & H2 & H3 & H4 & _).
  unfold begin_sequence. cbn [remainder length]. cbn [varbyte_loop]. unfold value_uint8.
  rewrite value_byte_cons. cbn [and_then]. rewrite H0. change (32 <=? 7 * 0) with false. cbn [and_then].
  rewrite value_byte_cons. cbn [and_then]. rewrite H1. change (32 <=? 7 * (0 + 1)) with false. cbn [and_then].
  rewrite value_byte_cons. cbn [and_then]. rewrite H2. change (32 <=? 7 * (0 + 1 + 1)) with false. cbn [and_then].
  rewrite value_byte_cons. cbn [and_then]. rewrite H3. change (32 <=? 7 * (0 + 1 + 1 + 1)) with false. cbn [and_then].
  rewrite value_byte_cons. cbn [and_then]. rewrite H4. change (32 <=? 7 * (0 + 1 + 1 + 1 + 1)) with false. cbn [and_then].
  by rewrite value_byte_cons.
Qed.

Lemma overlong_size_undefined_witness :
  begin_sequence (mk_deserializer [0x80; 0x80; 0x80; 0x80; 0x80; 0] None) = Undefined.
Proof.
  apply overlong_size_undefined. split; [simpl; lia|]. repeat constructor.
Defined.

End BinaryDeserializer.
