(* ===== verification/BaspHeader.v ===== *)
(** * BASP headers and framing (libcaf_io/caf/io/basp/{header,message_type,
      connection_state}.hpp, header.cpp, [instance::write], the read states of
      basp_broker.cpp)

    A BASP connection transports messages as a 32-byte header followed by
    [payload_len] bytes of payload.  The writer leaves room for the header,
    serializes the payload and patches the header in; the reader alternates
    between waiting for a header and waiting for a payload. *)

From S2P Require Import Prelude NetworkOrder BinarySerializer BinaryDeserializer.

Import BinarySerializer BinaryDeserializer.

Module BaspHeader.

Inductive message_type :=
| server_handshake | client_handshake | direct_message | routed_message
| monitor_message | down_message | heartbeat.

(** The underlying values of the enumeration. *)
Definition to_integer (x : message_type) : Z :=
  match x with
  | server_handshake => 0 | client_handshake => 1 | direct_message => 2 | routed_message => 3
  | monitor_message => 4 | down_message => 5 | heartbeat => 6
  end.

Record header := mk_header {
  operation : message_type;
  flags : Z;
  payload_len : Z;
  operation_data : Z;
  source_actor : Z;
  dest_actor : Z;
}.

Definition named_receiver_flag : Z := 0x01.
Definition config_server_id : Z := 1.
Definition spawn_server_id : Z := 2.

Definition has (hdr : header) (flag : Z) : bool := has_bits (flags hdr) flag.

Definition is_handshake (hdr : header) : bool :=
  match operation hdr with server_handshake | client_handshake => true | _ => false end.

Definition is_heartbeat (hdr : header) : bool :=
  match operation hdr with heartbeat => true | _ => false end.

(** [sizeof(actor_id) * 2 + sizeof(uint32_t) * 2 + sizeof(uint64_t)]. *)
Definition header_size : Z := 8 * 2 + 4 * 2 + 8.

(** ** Validity *)

Definition zero (x : Z) : bool := x =? 0.

Definition server_handshake_valid (hdr : header) : bool := negb (zero (operation_data hdr)).

Definition client_handshake_valid (hdr : header) : bool :=
  zero (source_actor hdr) && zero (dest_actor hdr).

Definition direct_message_valid (hdr : header) : bool :=
  negb (zero (dest_actor hdr)) && negb (zero (payload_len hdr)).

Definition routed_message_valid (hdr : header) : bool :=
  negb (zero (dest_actor hdr)) && negb (zero (payload_len hdr)).

Definition monitor_message_valid (hdr : header) : bool :=
  negb (zero (payload_len hdr)) && zero (operation_data hdr).

Definition down_message_valid (hdr : header) : bool :=
  negb (zero (source_actor hdr)) && zero (dest_actor hdr)
  && negb (zero (payload_len hdr)) && zero (operation_data hdr).

Definition heartbeat_valid (hdr : header) : bool :=
  zero (source_actor hdr) && zero (dest_actor hdr) && zero (payload_len hdr)
  && zero (operation_data hdr).

Definition valid (hdr : header) : bool :=
  match operation hdr with
  | server_handshake => server_handshake_valid hdr
  | client_handshake => client_handshake_valid hdr
  | direct_message => direct_message_valid hdr
  | routed_message => routed_message_valid hdr
  | monitor_message => monitor_message_valid hdr
  | down_message => down_message_valid hdr
  | heartbeat => heartbeat_valid hdr
  end.

(** ** Connection states *)

Inductive connection_state :=
| await_header | await_payload | close_connection | incompatible_versions
| incompatible_application_ids | malformed_message | serializing_basp_payload_failed
| redundant_connection | no_route_to_receiving_node.

Definition state_value (x : connection_state) : Z :=
  match x with
  | await_header => 0 | await_payload => 1 | close_connection => 2 | incompatible_versions => 3
  | incompatible_application_ids => 4 | malformed_message => 5
  | serializing_basp_payload_failed => 6 | redundant_connection => 7
  | no_route_to_receiving_node => 8
  end.

Definition requires_shutdown (x : connection_state) : bool := 1 <? state_value x.

Inductive sec_code :=
| sec_none | sec_incompatible_versions | sec_incompatible_application_ids | sec_malformed_message
| sec_serializing_basp_payload_failed | sec_redundant_connection | sec_no_route_to_receiving_node.

Definition to_sec (x : connection_state) : sec_code :=
  match x with
  | incompatible_versions => sec_incompatible_versions
  | incompatible_application_ids => sec_incompatible_application_ids
  | malformed_message => sec_malformed_message
  | serializing_basp_payload_failed => sec_serializing_basp_payload_failed
  | redundant_connection => sec_redundant_connection
  | no_route_to_receiving_node => sec_no_route_to_receiving_node
  | _ => sec_none
  end.

(** ** Inspection *)

(** What [inspect] passes to a save inspector, field by field. *)
Definition header_data (hdr : header) : list datum :=
  [d_uint8 (to_integer (operation hdr)); d_uint8 0; d_uint8 0; d_uint8 (flags hdr);
   d_uint 4 (payload_len hdr); d_uint 8 (operation_data hdr);
   d_uint 8 (source_actor hdr); d_uint 8 (dest_actor hdr)].

Definition save_header (hdr : header) (sink : serializer) : saved := save_all (header_data hdr) sink.

Definition set_payload_len (hdr : header) (n : Z) : header :=
  mk_header (operation hdr) (flags hdr) n (operation_data hdr) (source_actor hdr) (dest_actor hdr).

(** [instance::write]: the header (whose [payload_len] the call updates) and
    the buffer afterwards.  [pw] is the payload writer. *)
Definition write (buf : bytes) (hdr : header) (pw : option (serializer -> saved))
  : option (header * bytes) :=
  let sink := mk_serializer buf (zlen buf) in
  match pw with
  | Some pw =>
      let header_offset := zlen buf in
      '(ok, sink1) ← pw (BinarySerializer.skip header_size sink);
      if negb ok then Some (hdr, buf_ sink1) else
      let sink2 := seek header_offset sink1 in
      let payload_len := uwrap 64 (zlen (buf_ sink2) - (header_offset + header_size)) in
      let hdr' := set_payload_len hdr (uwrap 32 payload_len) in
      '(_, sink3) ← save_header hdr' sink2;
      Some (hdr', buf_ sink3)
  | None =>
      '(_, sink1) ← save_header hdr sink;
      Some (hdr, buf_ sink1)
  end.

Section Receive.

(** The build generates [from_integer] from the enumeration. *)
Variable from_integer : Z -> option message_type.

(** Loading a header: the fields in order, then the enumeration conversion
    (default_enum_inspect.hpp); the load inspector stops at the operation if it
    does not convert. *)
Definition load_header (source : deserializer) : outcome header :=
  and_then (value_uint8 source) (fun op s1 =>
  match from_integer op with
  | None => Failed s1
  | Some op' =>
      and_then (value_uint8 s1) (fun _ s2 =>
      and_then (value_uint8 s2) (fun _ s3 =>
      and_then (value_uint8 s3) (fun fl s4 =>
      and_then (BinaryDeserializer.int_value 4 to_unsigned s4) (fun len s5 =>
      and_then (BinaryDeserializer.int_value 8 to_unsigned s5) (fun od s6 =>
      and_then (BinaryDeserializer.int_value 8 to_unsigned s6) (fun src s7 =>
      and_then (BinaryDeserializer.int_value 8 to_unsigned s7) (fun dst s8 =>
      Ok (mk_header op' fl len od src dst) s8)))))))
  end).

(** What a completed read means to the reader: the header phase of
    [instance::handle], before a message is dispatched. *)
Inductive received :=
| next_header (hdr : header)                    (* a complete message without payload *)
| next_payload (hdr : header)                   (* the payload of this header is next *)
| rejected.

Definition handle_header (dm : bytes) : received :=
  match load_header (mk_deserializer dm None) with
  | Ok hdr _ =>
      if negb (valid hdr) then rejected
      else if 0 <? payload_len hdr then next_payload hdr else next_header hdr
  | _ => rejected
  end.

(** The broker: reads exactly [header_size] bytes, then exactly
    [payload_len] bytes if there is a payload.  Returns the messages and
    whether the connection survives; stops when the stream holds no complete
    unit. *)
Fixpoint read_stream (fuel : nat) (stream : bytes) : list (header * bytes) * bool :=
  match fuel with
  | O => ([], true)
  | S fuel' =>
      if zlen stream <? header_size then ([], true) else
      let rest := drop (Z.to_nat header_size) stream in
      match handle_header (take (Z.to_nat header_size) stream) with
      | rejected => ([], false)
      | next_header hdr =>
          let (ms, ok) := read_stream fuel' rest in ((hdr, []) :: ms, ok)
      | next_payload hdr =>
          if zlen rest <? payload_len hdr then ([], true) else
          let n := Z.to_nat (payload_len hdr) in
          let (ms, ok) := read_stream fuel' (drop n rest) in ((hdr, take n rest) :: ms, ok)
      end
  end.

(** Enough fuel: every round consumes a header. *)
Definition read_messages (stream : bytes) : list (header * bytes) * bool :=
  read_stream (S (length stream)) stream.

(** ** Lemmas *)

Definition wf_header (hdr : header) : Prop :=
  is_uint 8 (flags hdr) /\ is_uint 32 (payload_len hdr) /\ is_uint 64 (operation_data hdr) /\
  is_uint 64 (source_actor hdr) /\ is_uint 64 (dest_actor hdr).

(** [from_integer] accepts the enumerators. *)
Hypothesis from_to_integer : forall x, from_integer (to_integer x) = Some x.

Lemma header_data_valid hdr : wf_header hdr -> Forall BinarySerializer.valid (header_data hdr).
Proof.
  intros (H1 & H2 & H3 & H4 & H5). unfold header_data. repeat constructor; simpl;
    unfold is_byte; try lia; try apply H1; try apply H2; try apply H3; try apply H4; try apply H5;
    destruct (operation hdr); simpl; lia.
Qed.

Definition header_bytes (hdr : header) : bytes := encode_all (header_data hdr).

Lemma header_bytes_length hdr : length (header_bytes hdr) = Z.to_nat header_size.
Proof. unfold header_bytes, encode_all, header_data. cbn [flat_map encode]. by rewrite !length_app, !be_bytes_length. Qed.

Lemma load_header_bytes hdr rest e :
  wf_header hdr -> load_header (mk_deserializer (header_bytes hdr ++ rest) e) = Ok hdr (mk_deserializer rest e).
Proof.
  intros (H1 & H2 & H3 & H4 & H5). unfold load_header, header_bytes, encode_all, header_data, value_uint8.
  cbn [flat_map encode app]. rewrite <- !app_assoc. rewrite value_byte_cons. cbn [and_then].
  rewrite from_to_integer. do 3 (rewrite value_byte_cons; cbn [and_then]).
  rewrite !uwrap_id by done.
  do 4 (rewrite int_value_be by done; cbn [and_then]). by destruct hdr.
Qed.

(** A payload writer that succeeds and emits [payload] behind the current
    contents. *)
Definition emits (pw : serializer -> saved) (payload : bytes) : Prop :=
  forall s, write_pos_ s = zlen (buf_ s) -> pw s = Some (true, BinarySerializer.write payload s).

Lemma write_no_payload buf hdr :
  wf_header hdr -> write buf hdr None = Some (hdr, buf ++ header_bytes hdr).
Proof.
  intros Hh. unfold write, save_header.
  rewrite save_all_write; [|unfold wf; simpl; pose proof (zlen_nonneg buf); lia|by apply header_data_valid].
  cbn [mbind option_bind]. by rewrite write_end.
Qed.

Lemma write_payload buf hdr pw payload :
  wf_header hdr -> emits pw payload -> zlen buf + header_size + zlen payload <= size_max ->
  let hdr' := set_payload_len hdr (uwrap 32 (zlen payload)) in
  write buf hdr (Some pw) = Some (hdr', buf ++ header_bytes hdr' ++ payload).
Proof.
  intros Hh Hpw Hmax hdr'. unfold write. pose proof (zlen_nonneg buf). pose proof (zlen_nonneg payload).
  assert (size_max = 2 ^ 64 - 1) as Hsm by done. assert (header_size = 32) as Hhs by done.
  rewrite skip_end by (simpl; lia). cbn [buf_].
  set (gap := replicate (Z.to_nat header_size) 0).
  assert (zlen gap = header_size) as Hgap by done.
  rewrite Hpw by (simpl; rewrite zlen_app; lia). cbn [mbind option_bind negb].
  rewrite write_end by (simpl; rewrite zlen_app; lia). cbn [buf_ seek].
  rewrite !zlen_app, Hgap.
  replace (zlen buf + header_size + zlen payload - (zlen buf + header_size)) with (zlen payload) by lia.
  rewrite (uwrap_id 64) by (unfold is_uint; lia).
  fold hdr'. unfold save_header.
  assert (wf_header hdr') as Hh'.
  { destruct Hh as (? & ? & ? & ? & ?). unfold hdr', wf_header. simpl. split_and!; try done.
    apply uwrap_range. lia. }
  rewrite save_all_write; [|unfold wf; simpl; rewrite !zlen_app; lia|by apply header_data_valid].
  cbn [mbind option_bind]. do 2 f_equal. unfold BinarySerializer.write, seek. cbn [buf_ write_pos_].
  fold (header_bytes hdr'). replace (Z.to_nat (zlen buf)) with (length buf) by (unfold zlen; lia).
  rewrite <- !app_assoc.
  apply memcpy_at_app. unfold gap. rewrite length_replicate. symmetry. apply header_bytes_length.
Qed.

(** ** Framing *)

(** A message a node writes: a header and, unless it is a bare header, the
    payload its writer emits. *)
Record outgoing := mk_outgoing { out_hdr : header; out_payload : option bytes }.

Definition sendable (m : outgoing) : Prop :=
  wf_header (out_hdr m) /\
  match out_payload m with
  | Some p => is_uint 32 (zlen p) /\ 0 < zlen p /\ valid (set_payload_len (out_hdr m) (zlen p)) = true
  | None => payload_len (out_hdr m) = 0 /\ valid (out_hdr m) = true
  end.

Definition writer_of (payload : bytes) (s : serializer) : saved := BinarySerializer.value_span payload s.

(** Writing messages one after another into the same output buffer. *)
Fixpoint write_messages (buf : bytes) (ms : list outgoing) : option bytes :=
  match ms with
  | [] => Some buf
  | m :: ms' =>
      '(_, buf') ← write buf (out_hdr m) (option_map writer_of (out_payload m));
      write_messages buf' ms'
  end.

(** What the peer is supposed to see. *)
Definition on_wire (m : outgoing) : header * bytes :=
  match out_payload m with
  | Some p => (set_payload_len (out_hdr m) (zlen p), p)
  | None => (out_hdr m, [])
  end.

Definition frame (m : outgoing) : bytes :=
  header_bytes (on_wire m).1 ++ (on_wire m).2.

Lemma writer_emits p : emits (writer_of p) p.
Proof.
  intros s Hs. apply value_span_write. unfold wf. rewrite Hs. pose proof (zlen_nonneg (buf_ s)). lia.
Qed.

Lemma write_frame buf m :
  sendable m -> zlen buf + zlen (frame m) <= size_max ->
  write buf (out_hdr m) (option_map writer_of (out_payload m)) = Some ((on_wire m).1, buf ++ frame m).
Proof.
  intros [Hh Hp]. unfold frame, on_wire. destruct (out_payload m) as [p|]; cbn [option_map fst snd]; intros Hmax.
  - destruct Hp as (Hlen & _ & _). rewrite write_payload with (payload := p);
      [by rewrite uwrap_id|done|apply writer_emits|].
    rewrite zlen_app in Hmax. unfold zlen at 2 in Hmax. rewrite header_bytes_length in Hmax.
    unfold header_size in *. lia.
  - rewrite app_nil_r. by apply write_no_payload.
Qed.

Lemma frame_length m : (Z.to_nat header_size <= length (frame m))%nat.
Proof. unfold frame. rewrite length_app, header_bytes_length. lia. Qed.

Lemma read_frame fuel m rest :
  sendable m ->
  read_stream (S fuel) (frame m ++ rest)
  = let (ms, ok) := read_stream fuel rest in (on_wire m :: ms, ok).
Proof.
  intros [Hh Hp]. set (hdr := (on_wire m).1). set (p := (on_wire m).2).
  assert (wf_header hdr /\ valid hdr = true /\ payload_len hdr = zlen p) as (Hw & Hv & Hl).
  { unfold hdr, p, on_wire. destruct (out_payload m) as [q|]; simpl; [|by destruct Hp].
    destruct Hp as (Hq & _ & Hv). split_and!; try done.
    destruct Hh as (? & ? & ? & ? & ?). unfold wf_header. simpl. by split_and!. }
  assert (on_wire m = (hdr, p)) as -> by (unfold hdr, p; by destruct (on_wire m)).
  unfold frame. fold hdr p. rewrite <- app_assoc. cbn [read_stream].
  assert (zlen (header_bytes hdr) = header_size) as Hhl
    by (unfold zlen; rewrite header_bytes_length; done).
  rewrite zlen_app, Hhl, (proj2 (Z.ltb_ge _ _)) by (pose proof (zlen_nonneg (p ++ rest)); lia).
  rewrite <- (header_bytes_length hdr), take_app_length, drop_app_length.
  unfold handle_header. rewrite <- (app_nil_r (header_bytes hdr)), load_header_bytes by done.
  rewrite Hv. cbn [negb]. rewrite Hl. destruct (Z.ltb_spec 0 (zlen p)) as [L|L].
  - rewrite zlen_app, (proj2 (Z.ltb_ge _ _)) by (pose proof (zlen_nonneg rest); lia).
    rewrite Hl. replace (Z.to_nat (zlen p)) with (length p) by (unfold zlen; lia).
    by rewrite take_app_length, drop_app_length.
  - destruct p as [|b p']; [done|]. rewrite zlen_cons in L. pose proof (zlen_nonneg p'). lia.
Qed.

Lemma write_messages_frames buf ms :
  Forall sendable ms -> zlen buf + zlen (flat_map frame ms) <= size_max ->
  write_messages buf ms = Some (buf ++ flat_map frame ms).
Proof.
  intros Hms. revert buf. induction Hms as [|m ms Hm Hms IH]; intros buf Hmax; cbn [write_messages flat_map].
  { by rewrite app_nil_r. }
  cbn [flat_map] in Hmax. rewrite zlen_app in Hmax. pose proof (zlen_nonneg (flat_map frame ms)).
  rewrite write_frame by (done || lia). cbn [mbind option_bind].
  rewrite IH by (rewrite zlen_app; lia). by rewrite <- app_assoc.
Qed.

Lemma read_frames fuel ms :
  Forall sendable ms -> (length (flat_map frame ms) < fuel)%nat ->
  read_stream fuel (flat_map frame ms) = (map on_wire ms, true).
Proof.
  intros Hms. revert fuel. induction Hms as [|m ms Hm Hms IH]; intros [|fuel] Hf; try (by apply Nat.nlt_0_r in Hf).
  - done.
  - cbn [flat_map map] in *. rewrite read_frame by done. rewrite length_app in Hf.
    pose proof (frame_length m). rewrite IH; [done|]. change (Z.to_nat header_size) with 32%nat in *. lia.
Qed.

(** C33. Framing round trip.  Take any sequence of messages with valid headers whose
    fields fit their types, each without a payload or with a payload of at least one and less
    than 2^32 bytes that its writer serializes without failing (a failing writer
    leaves the stream corrupt, see [failed_write_corrupts_stream]), and of a total size that fits
    into [size_t].  Written one after another into a connection's output buffer, payloads
    serialized first and headers patched in afterwards, they are what the peer reads:
    the same headers, with [payload_len] filled in, and the same payloads in
    the same order, and the connection stays open. *)
Theorem basp_framing_roundtrip ms :
  Forall sendable ms -> zlen (flat_map frame ms) <= size_max ->
  exists stream, write_messages [] ms = Some stream /\
    read_messages stream = (map on_wire ms, true).
Proof.
  intros Hms Hmax. exists (flat_map frame ms). rewrite write_messages_frames by done.
  split; [done|]. apply read_frames; [done|lia].
Qed.

End Receive.

(** The generated conversion. *)
Definition from_integer (x : Z) : option message_type :=
  match x with
  | 0 => Some server_handshake | 1 => Some client_handshake | 2 => Some direct_message
  | 3 => Some routed_message | 4 => Some monitor_message | 5 => Some down_message
  | 6 => Some heartbeat | _ => None
  end.

Definition demo_direct : outgoing := mk_outgoing (mk_header direct_message 0 0 77 3 4) (Some [1; 2; 3]).
Definition demo_heartbeat : outgoing := mk_outgoing (mk_header heartbeat 0 0 0 0 0) None.

Lemma basp_framing_roundtrip_witness :
  exists stream, write_messages [] [demo_direct; demo_heartbeat] = Some stream /\
    read_messages from_integer stream
    = ([(mk_header direct_message 0 3 77 3 4, [1; 2; 3]); (mk_header heartbeat 0 0 0 0 0, [])], true).
Proof.
  apply (basp_framing_roundtrip from_integer).
  - by intros [].
  - repeat constructor; unfold is_uint; simpl; try lia; try (unfold zlen; simpl; lia).
  - vm_compute. discriminate.
Defined.

(** ** Writers that fail *)

Lemma zero_header_rejected : handle_header from_integer (replicate 32 0) = rejected.
Proof. vm_compute. reflexivity. Qed.

Lemma zero_header_stream partial fuel :
  read_stream from_integer (S fuel) (replicate 32 0 ++ partial) = ([], false).
Proof.
  cbn [read_stream].
  assert (zlen (replicate 32 0 ++ partial) <? header_size = false) as ->.
  { apply Z.ltb_ge. rewrite zlen_app. pose proof (zlen_nonneg partial).
    assert (zlen (replicate 32 (0 : Z)) = 32) as -> by done. assert (header_size = 32) by done. lia. }
  assert (take (Z.to_nat header_size) (replicate 32 0 ++ partial) = replicate 32 0) as ->.
  { replace (Z.to_nat header_size) with (length (replicate 32 (0 : Z))) by done. apply take_app_length. }
  by rewrite zero_header_rejected.
Qed.

(** A payload writer that fails leaves its traces in the output: the 32
    zero bytes reserved for the header stay in the buffer, followed by whatever
    the writer produced before it failed, and the peer will take them for the
    next message.  Such a header is never valid, so the peer drops the
    connection. *)
Theorem failed_write_corrupts_stream buf hdr pw partial :
  zlen buf + header_size <= size_max ->
  (forall s, write_pos_ s = zlen (buf_ s) -> pw s = Some (false, BinarySerializer.write partial s)) ->
  write buf hdr (Some pw) = Some (hdr, buf ++ replicate 32 0 ++ partial) /\
  read_messages from_integer (replicate 32 0 ++ partial) = ([], false).
Proof.
  intros Hmax Hpw. pose proof (zlen_nonneg buf). assert (header_size = 32) as Hhs by done.
  assert (size_max = 2 ^ 64 - 1) as Hsm by done. split.
  - unfold write. rewrite skip_end by (simpl; lia). cbn [buf_].
    rewrite Hpw by (simpl; rewrite zlen_app; unfold zlen; simpl; lia). cbn [mbind option_bind negb].
    rewrite write_end by (simpl; rewrite zlen_app; unfold zlen; simpl; lia).
    cbn [buf_]. by rewrite <- app_assoc.
  - apply zero_header_stream.
Qed.

Lemma failed_write_corrupts_stream_witness :
  write [9] (mk_header direct_message 0 0 0 1 2) (Some (fun s => Some (false, BinarySerializer.write [5] s)))
  = Some (mk_header direct_message 0 0 0 1 2, [9] ++ replicate 32 0 ++ [5]) /\
  read_messages from_integer (replicate 32 0 ++ [5]) = ([], false).
Proof.
  apply (failed_write_corrupts_stream [9] (mk_header direct_message 0 0 0 1 2) _ [5]).
  - vm_compute. discriminate.
  - reflexivity.
Defined.

End BaspHeader.
