(* ===== verification/BaspQueue.v ===== *)
(** * BASP message queue (libcaf_io/caf/io/basp/message_queue.{hpp,cpp})

    Several workers deserialize the messages of a node concurrently; the queue
    restores the order in which the messages arrived.  Every operation holds
    the mutex for its whole duration, so operations are atomic and a history is
    a sequence of calls. *)

From stdpp Require Import gmap.
From S2P Require Import Prelude.

Module BaspQueue.

#[local] Arguments Z.eqb : simpl never.

(** [receiver = None] is a null pointer: the ID was dropped. *)
Record actor_msg := mk_msg { id : Z; receiver : option Z; content : Z }.

Record message_queue := mk_queue {
  next_id : Z;
  next_undelivered : Z;
  pending : list actor_msg;
}.

Definition make_queue : message_queue := mk_queue 0 0 [].

(** A call to [receiver->enqueue]. *)
Abbreviation delivery := (Z * Z)%type.

(** [if (receiver != nullptr) receiver->enqueue(content)]. *)
Definition enqueue (m : actor_msg) : list delivery :=
  match receiver m with Some r => [(r, content m)] | None => [] end.

(** The [for] loop over the pending messages: what it enqueues, the final
    [next] and the messages from the final iterator on. *)
Fixpoint deliver_loop (ms : list actor_msg) (next : Z) : list delivery * Z * list actor_msg :=
  match ms with
  | [] => ([], next, [])
  | i :: ms' =>
      if id i =? next then
        let '(ds, next', rest) := deliver_loop ms' (uwrap 64 (next + 1)) in
        (enqueue i ++ ds, next', rest)
      else ([], next, ms)
  end.

(** [pending.emplace(find_if(first, last, pred), ...)]. *)
Fixpoint insert_before (m : actor_msg) (ms : list actor_msg) : list actor_msg :=
  match ms with
  | [] => [m]
  | x :: ms' => if id m <=? id x then m :: ms else x :: insert_before m ms'
  end.

Definition push (m : actor_msg) (q : message_queue) : list delivery * message_queue :=
  if id m =? next_undelivered q then
    let next := uwrap 64 (id m + 1) in
    match pending q with
    | first :: _ =>
        if negb (id first =? next) then (enqueue m, mk_queue (next_id q) next (pending q)) else
        let '(ds, next', rest) := deliver_loop (pending q) next in
        (enqueue m ++ ds, mk_queue (next_id q) next' rest)
    | [] => (enqueue m, mk_queue (next_id q) next (pending q))
    end
  else ([], mk_queue (next_id q) (next_undelivered q) (insert_before m (pending q))).

Definition drop (i : Z) (q : message_queue) : list delivery * message_queue :=
  push (mk_msg i None 0) q.

Definition new_id (q : message_queue) : Z * message_queue :=
  (next_id q, mk_queue (uwrap 64 (next_id q + 1)) (next_undelivered q) (pending q)).

(** ** Histories *)

(** The queue, the messages handed to [push] or [drop] so far by ID, and all
    deliveries in order. *)
Record history := mk_history {
  queue : message_queue;
  pushed : gmap Z actor_msg;
  delivered : list delivery;
}.

(** A worker draws an ID, and later pushes or drops it exactly once. *)
Inductive step : history -> history -> Prop :=
| step_new_id h :
    next_id (queue h) < 2 ^ 64 - 1 ->
    step h (mk_history (new_id (queue h)).2 (pushed h) (delivered h))
| step_push h m :
    0 <= id m < next_id (queue h) -> pushed h !! id m = None ->
    step h (mk_history (push m (queue h)).2 (<[id m := m]> (pushed h))
              (delivered h ++ (push m (queue h)).1)).

Definition initial : history := mk_history make_queue ∅ [].

(** The reference: the deliveries of a single thread that handles the IDs
    [0, ..., n-1] in order. *)
Fixpoint in_order (ps : gmap Z actor_msg) (n : nat) : list delivery :=
  match n with
  | O => []
  | S n' => in_order ps n' ++ match ps !! Z.of_nat n' with Some m => enqueue m | None => [] end
  end.

(** Strictly ascending IDs, all above [lo]. *)
Fixpoint ascending (lo : Z) (ms : list actor_msg) : Prop :=
  match ms with
  | [] => True
  | m :: ms' => lo < id m /\ ascending (id m) ms'
  end.

Record inv (h : history) : Prop := {
  inv_bounds : 0 <= next_undelivered (queue h) <= next_id (queue h) /\ next_id (queue h) < 2 ^ 64;
  inv_sorted : ascending (next_undelivered (queue h)) (pending (queue h));
  inv_pending : forall m, m ∈ pending (queue h) ->
    pushed h !! id m = Some m /\ id m < next_id (queue h);
  inv_pushed : forall i m, pushed h !! i = Some m ->
    id m = i /\ (0 <= i < next_undelivered (queue h) \/ m ∈ pending (queue h));
  inv_complete : forall i, 0 <= i < next_undelivered (queue h) -> is_Some (pushed h !! i);
  inv_delivered : delivered h = in_order (pushed h) (Z.to_nat (next_undelivered (queue h)));
}.

(** ** Lemmas *)

Lemma ascending_weaken lo lo' ms : lo' <= lo -> ascending lo ms -> ascending lo' ms.
Proof. intros H. destruct ms; simpl; [done|]. intros [? ?]. split; [lia|done]. Qed.

Lemma ascending_lower lo ms m : ascending lo ms -> m ∈ ms -> lo < id m.
Proof.
  revert lo. induction ms as [|x ms IH]; intros lo H Hm; [by apply elem_of_nil in Hm|].
  destruct H as [H1 H2]. apply elem_of_cons in Hm as [->|Hm]; [done|]. specialize (IH _ H2 Hm). lia.
Qed.

Lemma insert_before_elem m ms x : x ∈ insert_before m ms <-> x = m \/ x ∈ ms.
Proof.
  induction ms as [|y ms IH]; simpl; [set_solver|].
  destruct (id m <=? id y); rewrite !elem_of_cons; [done|]. rewrite IH. tauto.
Qed.

Lemma insert_before_ascending lo m ms :
  ascending lo ms -> lo < id m -> (forall x, x ∈ ms -> id x <> id m) ->
  ascending lo (insert_before m ms).
Proof.
  revert lo. induction ms as [|y ms IH]; intros lo Ha Hlo Hne; simpl; [done|].
  destruct Ha as [H1 H2]. assert (id y <> id m) by (apply Hne, list_elem_of_here).
  destruct (Z.leb_spec (id m) (id y)); simpl.
  - split; [done|]. split; [lia|done].
  - split; [done|]. apply IH; [done|lia|]. intros x Hx. apply Hne. by apply list_elem_of_further.
Qed.

Lemma in_order_ext ps ps' n :
  (forall i, 0 <= i < Z.of_nat n -> ps' !! i = ps !! i) -> in_order ps' n = in_order ps n.
Proof.
  induction n as [|n IH]; intros H; simpl; [done|]. rewrite IH by (intros; apply H; lia).
  by rewrite H by lia.
Qed.

Lemma in_order_S ps n m :
  0 <= n -> ps !! n = Some m -> in_order ps (Z.to_nat (n + 1)) = in_order ps (Z.to_nat n) ++ enqueue m.
Proof.
  intros Hn H. replace (Z.to_nat (n + 1)) with (S (Z.to_nat n)) by lia. simpl.
  rewrite Z2Nat.id by done. by rewrite H.
Qed.

(** The loop delivers a run of consecutive IDs and stops at the first gap. *)
Lemma deliver_loop_spec ps ms next ds next' rest bound :
  deliver_loop ms next = (ds, next', rest) -> 0 <= next <= bound -> bound < 2 ^ 64 ->
  ascending (next - 1) ms -> (forall m, m ∈ ms -> ps !! id m = Some m /\ id m < bound) ->
  next <= next' <= bound /\
  in_order ps (Z.to_nat next') = in_order ps (Z.to_nat next) ++ ds /\
  ascending next' rest /\ (forall m, m ∈ rest -> m ∈ ms) /\
  (forall m, m ∈ ms -> m ∈ rest \/ id m < next') /\
  (forall i, next <= i < next' -> is_Some (ps !! i)).
Proof.
  revert next ds next' rest. induction ms as [|m ms IH]; intros next ds next' rest E Hn Hb Ha Hps;
    cbn [deliver_loop] in E.
  { injection E as <- <- <-. rewrite app_nil_r. split_and!; try done; try lia.
    intros m Hm. by left. }
  destruct Ha as [H1 H2].
  destruct (Z.eqb_spec (id m) next) as [Hid|Hid].
  - destruct (Hps m) as [Hm Hlt]; [apply list_elem_of_here|].
    destruct (deliver_loop ms (uwrap 64 (next + 1))) as [[ds1 next1] rest1] eqn:E1.
    injection E as <- <- <-. rewrite uwrap_id in E1 by (unfold is_uint; lia).
    destruct (IH _ _ _ _ E1) as (B & D & S & R & K & C); [lia|done| |..].
    + replace (next + 1 - 1) with (id m) by lia. done.
    + intros x Hx. apply Hps. by apply list_elem_of_further.
    + assert (in_order ps (Z.to_nat next1) = in_order ps (Z.to_nat next) ++ enqueue m ++ ds1) as Hio.
      { rewrite Hid in Hm. rewrite D, (in_order_S _ _ m) by (lia || done). by rewrite app_assoc. }
      split_and!; try done; try lia.
      * intros x Hx. by apply list_elem_of_further, R.
      * intros x Hx. apply elem_of_cons in Hx as [->|Hx]; [right; lia|by apply K].
      * intros i Hi. destruct (decide (i = next)) as [->|]; [subst; eauto|]. apply C. lia.
  - injection E as <- <- <-. rewrite app_nil_r. cbn [ascending]. split_and!; try done; try lia.
    intros x Hx. by left.
Qed.

(** The branch structure of [push]: the early return is the loop stopping at
    once. *)
Lemma push_head m q :
  id m = next_undelivered q -> 0 <= id m < 2 ^ 64 - 1 ->
  push m q = let '(ds, next', rest) := deliver_loop (pending q) (id m + 1) in
             (enqueue m ++ ds, mk_queue (next_id q) next' rest).
Proof.
  intros Hid Hb. unfold push. rewrite (proj2 (Z.eqb_eq _ _) Hid).
  rewrite uwrap_id by (unfold is_uint; lia).
  destruct (pending q) as [|first ms]; cbn [deliver_loop]; [by rewrite app_nil_r|].
  destruct (id first =? id m + 1); [done|]. cbn [negb]. by rewrite app_nil_r.
Qed.

Lemma push_later m q :
  id m <> next_undelivered q ->
  push m q = ([], mk_queue (next_id q) (next_undelivered q) (insert_before m (pending q))).
Proof. intros Hid. unfold push. by rewrite (proj2 (Z.eqb_neq _ _) Hid). Qed.

Lemma fresh_not_pending h m x :
  inv h -> pushed h !! id m = None -> x ∈ pending (queue h) -> id x <> id m.
Proof. intros Hi Hf Hx E. destruct (inv_pending _ Hi _ Hx) as [H _]. rewrite E in H. congruence. Qed.

Lemma fresh_not_delivered h m :
  inv h -> 0 <= id m -> pushed h !! id m = None -> next_undelivered (queue h) <= id m.
Proof.
  intros Hi H0 Hf. destruct (Z.le_gt_cases (next_undelivered (queue h)) (id m)) as [|L]; [done|].
  destruct (inv_complete _ Hi (id m)) as [x Hx]; [lia|]. congruence.
Qed.

Lemma inv_push_later h m :
  inv h -> 0 <= id m < next_id (queue h) -> pushed h !! id m = None ->
  id m <> next_undelivered (queue h) ->
  inv (mk_history (push m (queue h)).2 (<[id m := m]> (pushed h)) (delivered h ++ (push m (queue h)).1)).
Proof.
  intros Hi Hm Hf Hne. pose proof (fresh_not_delivered _ _ Hi (proj1 Hm) Hf) as Hlo.
  rewrite push_later by done. pose proof (fun x => fresh_not_pending _ _ x Hi Hf) as Hfp.
  destruct Hi as [I1 I2 I3 I4 I5 I6]. split; simpl; try done.
  - apply insert_before_ascending; [done|lia|]. intros x Hx. by apply Hfp.
  - intros x. rewrite insert_before_elem. intros [->|Hx]; [rewrite lookup_insert_eq; split; [done|lia]|].
    rewrite lookup_insert_ne; [by apply I3|]. intros E. by apply (Hfp x).
  - intros i x. rewrite lookup_insert. case_decide as Ei.
    + intros [= <-]. split; [done|]. right. rewrite insert_before_elem. auto.
    + intros Hx. destruct (I4 _ _ Hx) as [E [H|H]]; [auto|]. split; [done|]. right.
      rewrite insert_before_elem. auto.
  - intros i Hx. rewrite lookup_insert. case_decide; [eauto|by apply I5].
  - rewrite app_nil_r, I6. symmetry. apply in_order_ext. intros i Hx.
    rewrite lookup_insert_ne; [done|]. intros <-. lia.
Qed.

Lemma inv_push_head h m :
  inv h -> id m < next_id (queue h) -> pushed h !! id m = None ->
  id m = next_undelivered (queue h) ->
  inv (mk_history (push m (queue h)).2 (<[id m := m]> (pushed h)) (delivered h ++ (push m (queue h)).1)).
Proof.
  intros Hi Hm Hf Heq. pose proof (fun x => fresh_not_pending _ _ x Hi Hf) as Hfp.
  destruct Hi as [I1 I2 I3 I4 I5 I6]. rewrite push_head by lia.
  set (ps := <[id m := m]> (pushed h)) in *.
  assert (forall i, i <> id m -> ps !! i = pushed h !! i) as Hps
    by (intros i Hne; unfold ps; by rewrite lookup_insert_ne).
  destruct (deliver_loop _ _) as [[ds next'] rest] eqn:E. 
  destruct (deliver_loop_spec ps _ _ _ _ _ (next_id (queue h)) E) as (B & D & S & R & K & C);
    [lia|lia|replace (id m + 1 - 1) with (next_undelivered (queue h)) by lia; done| |].
  { intros x Hx. rewrite Hps by (by apply Hfp). by apply I3. }
  assert (ps !! id m = Some m) as Hpm by apply lookup_insert_eq.
  split; cbn [queue pushed delivered fst snd next_id next_undelivered pending].
  - lia.
  - done.
  - intros x Hx. apply R in Hx. rewrite Hps by (by apply Hfp). by apply I3.
  - intros i x Hx. destruct (decide (i = id m)) as [->|Hne].
    + rewrite Hpm in Hx. injection Hx as <-. split; [done|]. left. lia.
    + rewrite Hps in Hx by done. destruct (I4 _ _ Hx) as [E' [H|H]]; split; try done; [left; lia|].
      destruct (K _ H) as [|L]; [by right|left]. pose proof (ascending_lower _ _ _ I2 H). lia.
  - intros i Hx. destruct (decide (i = id m)) as [->|Hne]; [eauto|].
    destruct (Z.le_gt_cases (id m + 1) i); [apply C; lia|]. rewrite Hps by done. apply I5. lia.
  - rewrite D, (in_order_S _ _ m) by (lia || done). rewrite I6, <- Heq, <- app_assoc. f_equal.
    apply in_order_ext. intros i Hx. symmetry. apply Hps. lia.
Qed.

Lemma queue_inv_step h h' : inv h -> step h h' -> inv h'.
Proof.
  intros Hi Hs. destruct Hs as [h Hn|h m Hm Hf].
  - destruct Hi as [I1 I2 I3 I4 I5 I6]. split; simpl; try done.
    + rewrite uwrap_id by (unfold is_uint; lia). lia.
    + intros m Hm. rewrite uwrap_id by (unfold is_uint; lia). destruct (I3 _ Hm). split; [done|lia].
  - destruct (Z.eq_dec (id m) (next_undelivered (queue h))).
    + apply inv_push_head; (done || lia).
    + by apply inv_push_later.
Qed.

Lemma queue_inv_initial : inv initial.
Proof.
  split; simpl; try done; try lia. intros m Hm. by apply elem_of_nil in Hm.
Qed.

Lemma queue_inv_reachable h : rtc step initial h -> inv h.
Proof.
  intros Hr. assert (inv initial) as Hi by apply queue_inv_initial.
  induction Hr as [|h h' h'' Hs Hr IH]; [done|]. apply IH. by eapply queue_inv_step.
Qed.

(** ** Claims *)

(** C34. Delivery in arrival order, whatever the workers do.  However the
    calls of [new_id], [push] and [drop] interleave, the deliveries made so far
    are exactly those a single thread makes when it handles the messages with
    IDs below [next_undelivered] one after another: nothing out of order,
    nothing twice, dropped IDs skipped. *)
Theorem basp_queue_in_order h :
  rtc step initial h ->
  delivered h = in_order (pushed h) (Z.to_nat (next_undelivered (queue h))).
Proof. intros Hr. by apply inv_delivered, queue_inv_reachable. Qed.

(** No message is held back longer than necessary: [next_undelivered]
    is the smallest ID that has not been pushed or dropped yet, and once every
    issued ID has been, all messages are delivered and the queue is empty. *)
Theorem basp_queue_prompt h :
  rtc step initial h ->
  (forall i, 0 <= i < next_undelivered (queue h) -> is_Some (pushed h !! i)) /\
  pushed h !! next_undelivered (queue h) = None /\
  ((forall i, 0 <= i < next_id (queue h) -> is_Some (pushed h !! i)) ->
   pending (queue h) = [] /\ next_undelivered (queue h) = next_id (queue h)).
Proof.
  intros Hr. apply queue_inv_reachable in Hr as [I1 I2 I3 I4 I5 I6].
  assert (pushed h !! next_undelivered (queue h) = None) as Hnone.
  { destruct (pushed h !! _) as [m|] eqn:E; [|done]. destruct (I4 _ _ E) as [Hid [H|H]]; [lia|].
    pose proof (ascending_lower _ _ _ I2 H). lia. }
  split; [done|]. split; [done|]. intros Hall.
  assert (next_undelivered (queue h) = next_id (queue h)) as He.
  { destruct (Z.eq_dec (next_undelivered (queue h)) (next_id (queue h))) as [|Hne]; [done|].
    destruct (Hall (next_undelivered (queue h))) as [m Hm]; [lia|]. congruence. }
  split; [|done]. destruct (pending (queue h)) as [|m ms] eqn:Ep; [done|].
  destruct (I3 m) as [_ Hlt]; [rewrite ?Ep; apply list_elem_of_here|].
  destruct I2 as [I2 _]. lia.
Qed.

(** Three messages; the third is pushed first, the first one is dropped. *)
Definition demo_push (m : actor_msg) (h : history) : history :=
  mk_history (push m (queue h)).2 (<[id m := m]> (pushed h)) (delivered h ++ (push m (queue h)).1).
Definition demo_new (h : history) : history :=
  mk_history (new_id (queue h)).2 (pushed h) (delivered h).
Definition demo : history :=
  demo_push (mk_msg 1 (Some 50) 11) (demo_push (mk_msg 0 None 0) (demo_push (mk_msg 2 (Some 60) 22)
    (demo_new (demo_new (demo_new initial))))).

Lemma queue_demo_reachable : rtc step initial demo.
Proof.
  do 3 (eapply rtc_r; [|apply step_push; [vm_compute; split; congruence|vm_compute; reflexivity]]).
  do 3 (eapply rtc_r; [|apply step_new_id; vm_compute; reflexivity]). apply rtc_refl.
Qed.

Lemma basp_queue_in_order_witness : delivered demo = [(50, 11); (60, 22)].
Proof. rewrite (basp_queue_in_order demo queue_demo_reachable). vm_compute. reflexivity. Defined.

Lemma basp_queue_prompt_witness : pushed demo !! next_undelivered (queue demo) = None.
Proof. apply (basp_queue_prompt demo queue_demo_reachable). Defined.

End BaspQueue.
