(* ===== verification/RoutingTable.v ===== *)
(** * BASP routing table (libcaf_io/caf/io/basp/routing_table.{hpp,cpp})

    Direct connections are indexed by handle and by node; for other nodes the
    table stores the hops that claimed to reach them.  Hops that lost their
    connection are removed lazily, when a lookup meets them.  Every operation
    holds the mutex, so operations are atomic. *)

From stdpp Require Import gmap.
From S2P Require Import Prelude.

Module RoutingTable.

(** Node IDs and connection handles; node [0] is [none]. *)
Abbreviation node_id := Z (only parsing).
Abbreviation connection_handle := Z (only parsing).
Definition none : node_id := 0.

Record route := mk_route { next_hop : node_id; hdl : connection_handle }.

Record routing_table := mk_table {
  direct_by_hdl_ : gmap Z Z;
  direct_by_nid_ : gmap Z Z;
  indirect_ : gmap Z (gset Z);
}.

Definition make_table : routing_table := mk_table ∅ ∅ ∅.

(** The documented contract of [begin] on a set: it designates an element, and
    it is the end iterator only if the set is empty. *)
Class SetBegin (first : gset Z -> option Z) : Prop := {
  begin_elem s x : first s = Some x -> x ∈ s;
  begin_none s : first s = None -> s = ∅;
}.

Section Table.

(** [*hops.begin()] of an [std::unordered_set]: the iteration order is
    unspecified, so it is a parameter. *)
Variable first_hop : gset Z -> option Z.

(** ** Operations *)

(** The [while] loop of [lookup]: the route, if any, and the remaining hops. *)
Fixpoint lookup_loop (fuel : nat) (direct : gmap Z Z) (hops : gset Z) : option route * gset Z :=
  match fuel with
  | O => (None, hops)
  | S fuel' =>
      match first_hop hops with
      | None => (None, hops)
      | Some hop =>
          match direct !! hop with
          | Some j => (Some (mk_route hop j), hops)
          | None => lookup_loop fuel' direct (hops ∖ {[ hop ]})
          end
      end
  end.

Definition lookup (target : node_id) (t : routing_table) : option route * routing_table :=
  match direct_by_nid_ t !! target with
  | Some i => (Some (mk_route target i), t)
  | None =>
      match indirect_ t !! target with
      | Some hops =>
          let (r, hops') := lookup_loop (S (size hops)) (direct_by_nid_ t) hops in
          (r, mk_table (direct_by_hdl_ t) (direct_by_nid_ t) (<[target := hops']> (indirect_ t)))
      | None => (None, t)
      end
  end.

Definition lookup_direct_hdl (h : connection_handle) (t : routing_table) : node_id :=
  default none (direct_by_hdl_ t !! h).

Definition lookup_direct (nid : node_id) (t : routing_table) : option connection_handle :=
  direct_by_nid_ t !! nid.

Definition lookup_indirect (nid : node_id) (t : routing_table) : node_id :=
  match indirect_ t !! nid with
  | None => none
  | Some hops => default none (first_hop hops)
  end.

Definition erase_direct (h : connection_handle) (t : routing_table) : node_id * routing_table :=
  match direct_by_hdl_ t !! h with
  | None => (none, t)
  | Some nid =>
      (nid, mk_table (delete h (direct_by_hdl_ t)) (delete nid (direct_by_nid_ t)) (indirect_ t))
  end.

Definition erase_indirect (dest : node_id) (t : routing_table) : bool * routing_table :=
  match indirect_ t !! dest with
  | None => (false, t)
  | Some _ => (true, mk_table (direct_by_hdl_ t) (direct_by_nid_ t) (delete dest (indirect_ t)))
  end.

(** [emplace] never overwrites. *)
Definition emplace (k v : Z) (m : gmap Z Z) : gmap Z Z :=
  match m !! k with Some _ => m | None => <[k := v]> m end.

Definition add_direct (h : connection_handle) (nid : node_id) (t : routing_table) : routing_table :=
  mk_table (emplace h nid (direct_by_hdl_ t)) (emplace nid h (direct_by_nid_ t)) (indirect_ t).

Definition add_indirect (hop dest : node_id) (t : routing_table) : bool * routing_table :=
  if bool_decide (is_Some (direct_by_nid_ t !! dest)) then (false, t)
  else if bool_decide (direct_by_nid_ t !! hop = None) then (false, t)
  else
    let hops := default ∅ (indirect_ t !! dest) in
    (bool_decide (hops = ∅),
     mk_table (direct_by_hdl_ t) (direct_by_nid_ t) (<[dest := {[ hop ]} ∪ hops]> (indirect_ t))).

Lemma lookup_keeps_direct target t :
  direct_by_hdl_ (lookup target t).2 = direct_by_hdl_ t /\
  direct_by_nid_ (lookup target t).2 = direct_by_nid_ t.
Proof.
  unfold lookup. destruct (direct_by_nid_ t !! target); [done|].
  destruct (indirect_ t !! target); [|done]. by destruct (lookup_loop _ _ _).
Qed.

(** ** Specification *)

(** The two direct indexes are inverse to each other. *)
Definition wf (t : routing_table) : Prop :=
  forall h n, direct_by_hdl_ t !! h = Some n <-> direct_by_nid_ t !! n = Some h.

(** The live hops for an indirect target: those with a connection. *)
Definition live_hop (t : routing_table) (target hop : node_id) : Prop :=
  exists hops, indirect_ t !! target = Some hops /\ hop ∈ hops /\ is_Some (direct_by_nid_ t !! hop).

(** What the table promises: a node is reachable directly, or through a live
    hop. *)
Definition reachable (t : routing_table) (target : node_id) : Prop :=
  is_Some (direct_by_nid_ t !! target) \/ exists hop, live_hop t target hop.

(** The routes a lookup may answer with. *)
Definition answers (t : routing_table) (target : node_id) (r : route) : Prop :=
  direct_by_nid_ t !! next_hop r = Some (hdl r) /\
  (next_hop r = target \/ (direct_by_nid_ t !! target = None /\ live_hop t target (next_hop r))).

Context `{!SetBegin first_hop}.

Lemma lookup_loop_spec fuel direct hops r hops' :
  (size hops < fuel)%nat -> lookup_loop fuel direct hops = (r, hops') ->
  hops' ⊆ hops /\ (forall x, x ∈ hops -> is_Some (direct !! x) -> x ∈ hops') /\
  match r with
  | Some r => next_hop r ∈ hops /\ direct !! next_hop r = Some (hdl r)
  | None => forall x, x ∈ hops -> direct !! x = None
  end.
Proof.
  revert hops. induction fuel as [|fuel IH]; intros hops Hf E; [by apply Nat.nlt_0_r in Hf|].
  cbn [lookup_loop] in E. destruct (first_hop hops) as [hop|] eqn:Eh.
  - pose proof (begin_elem _ _ Eh) as Hin. destruct (direct !! hop) as [j|] eqn:Ej.
    + injection E as <- <-. split_and!; try done. 
    + apply IH in E as (Hs & Hl & Hr).
      * split; [set_solver|]. split.
        -- intros x Hx Hd. apply Hl; [|done]. apply elem_of_difference. split; [done|].
           rewrite elem_of_singleton. intros ->. rewrite Ej in Hd. by destruct Hd.
        -- destruct r as [r|]; [set_solver|]. intros x Hx.
           destruct (decide (x = hop)) as [->|]; [done|]. apply Hr. set_solver.
      * rewrite size_difference by set_solver. rewrite size_singleton.
        assert (size hops <> 0)%nat by (apply size_non_empty_iff; set_solver). lia.
  - injection E as <- <-. apply begin_none in Eh. split_and!; try done.
    intros x Hx. set_solver.
Qed.

Lemma lookup_spec target t :
  let (r, t') := lookup target t in
  direct_by_hdl_ t' = direct_by_hdl_ t /\ direct_by_nid_ t' = direct_by_nid_ t /\
  (forall n hop, live_hop t' n hop <-> live_hop t n hop) /\
  match r with
  | Some r => answers t target r
  | None => ~ reachable t target
  end.
Proof.
  unfold lookup. destruct (direct_by_nid_ t !! target) as [i|] eqn:Ed.
  { do 3 (split; [done|]). split; [done|by left]. }
  destruct (indirect_ t !! target) as [hops|] eqn:Ei.
  - destruct (lookup_loop _ _ hops) as [r hops'] eqn:E.
    destruct (lookup_loop_spec _ _ _ _ _ (Nat.lt_succ_diag_r _) E) as (Hs & Hl & Hr).
    split; [done|]. split; [done|]. split.
    + intros n hop. unfold live_hop. simpl. split.
      * intros (hs & H1 & H2 & H3). destruct (decide (target = n)) as [<-|Hne].
        -- rewrite lookup_insert_eq in H1. injection H1 as <-. exists hops. split_and!; try done. set_solver.
        -- rewrite lookup_insert_ne in H1 by done. eauto.
      * intros (hs & H1 & H2 & H3). destruct (decide (target = n)) as [<-|Hne].
        -- rewrite Ei in H1. injection H1 as <-. exists hops'. rewrite lookup_insert_eq. auto.
        -- exists hs. by rewrite lookup_insert_ne.
    + destruct r as [r|].
      * destruct Hr as [Hr1 Hr2]. split; [done|]. right. split; [done|]. exists hops. eauto.
      * intros [[x Hx]|(hop & hs & H1 & H2 & [x Hx])]; [congruence|].
        rewrite Ei in H1. injection H1 as <-. specialize (Hr _ H2). congruence.
  - split_and!; try done. intros [[x Hx]|(hop & hs & H1 & _)]; congruence.
Qed.

(** ** Preservation of the index invariant *)

Lemma wf_make : wf make_table.
Proof. intros h n. simpl. by rewrite !lookup_empty. Qed.

Lemma wf_lookup target t : wf t -> wf (lookup target t).2.
Proof.
  intros H h n. pose proof (lookup_spec target t) as L. destruct (lookup target t) as [r t'].
  destruct L as (E1 & E2 & _). simpl. rewrite E1, E2. apply H.
Qed.

Lemma wf_erase_direct h t : wf t -> wf (erase_direct h t).2.
Proof.
  intros H. unfold erase_direct. destruct (direct_by_hdl_ t !! h) as [nid|] eqn:E; [|done].
  intros h' n. simpl. rewrite !lookup_delete. repeat case_decide; subst; try done.
  - split; [done|]. intros Hn. apply H in Hn. congruence.
  - split; [|done]. intros Hh. apply H in E. apply H in Hh. congruence.
Qed.

Lemma wf_add_direct h nid t :
  wf t -> direct_by_hdl_ t !! h = None -> direct_by_nid_ t !! nid = None -> wf (add_direct h nid t).
Proof.
  intros H Hh Hn h' n. unfold add_direct, emplace. rewrite Hh, Hn. simpl.
  rewrite !lookup_insert. repeat case_decide; subst; try done.
  - split; [congruence|]. intros E. apply H in E. congruence.
  - split; [|congruence]. intros E. apply H in E. congruence.
Qed.

(** ** Histories *)

(** The calls of the BASP instance.  [add_direct] is called only with a fresh
    handle and a fresh node, the precondition the code asserts. *)
Inductive op :=
| op_lookup (target : Z)
| op_add_direct (h nid : Z)
| op_add_indirect (hop dest : Z)
| op_erase_direct (h : Z)
| op_erase_indirect (dest : Z).

Definition allowed (o : op) (t : routing_table) : Prop :=
  match o with
  | op_add_direct h nid => direct_by_hdl_ t !! h = None /\ direct_by_nid_ t !! nid = None
  | _ => True
  end.

Definition apply_op (o : op) (t : routing_table) : routing_table :=
  match o with
  | op_lookup target => (lookup target t).2
  | op_add_direct h nid => add_direct h nid t
  | op_add_indirect hop dest => (add_indirect hop dest t).2
  | op_erase_direct h => (erase_direct h t).2
  | op_erase_indirect dest => (erase_indirect dest t).2
  end.

Inductive step : routing_table -> routing_table -> Prop :=
| step_op o t : allowed o t -> step t (apply_op o t).

Lemma wf_step t t' : wf t -> step t t' -> wf t'.
Proof.
  intros H Hs. destruct Hs as [[] t Ha]; simpl in *.
  - by apply wf_lookup.
  - destruct Ha. by apply wf_add_direct.
  - unfold add_indirect. by repeat case_bool_decide.
  - by apply wf_erase_direct.
  - unfold erase_indirect. by destruct (indirect_ t !! dest).
Qed.

(** ** Claims *)

(** Lookups answer correctly and pruning is invisible.  In every state
    the BASP instance can bring the table into, the two direct indexes are
    inverse to each other; a lookup returns a route exactly if the target is
    reachable; the route's connection belongs to the next hop, which is the
    target itself whenever there is a direct connection and a hop known to
    reach it otherwise; and the hops a lookup erases change the reachability of
    no node. *)
Theorem routing_lookup_correct t target :
  rtc step make_table t ->
  let (r, t') := lookup target t in
  wf t /\ (is_Some r <-> reachable t target) /\
  (forall x, r = Some x -> answers t target x /\ direct_by_hdl_ t !! hdl x = Some (next_hop x) /\
     (is_Some (direct_by_nid_ t !! target) -> next_hop x = target)) /\
  (forall n, reachable t' n <-> reachable t n).
Proof.
  intros Hr. assert (wf t) as Hwf.
  { assert (wf make_table) as H by apply wf_make. revert H. induction Hr; [done|]. eauto using wf_step. }
  pose proof (lookup_spec target t) as L.
  destruct (lookup target t) as [r t'] eqn:El. destruct L as (_ & En & Hl & Hm).
  split; [done|]. split.
  { destruct r as [x|].
    - split; [intros _|by eauto]. destruct Hm as [H1 [<-|[_ H2]]]; [left; eauto|right; eauto].
    - split; [by intros []|]. intros H. by apply Hm in H. }
  split.
  - intros x ->. split; [done|]. destruct Hm as [H1 H2]. split; [by apply Hwf|].
    intros [i Hi]. destruct H2 as [|[H2 _]]; [done|congruence].
  - intros n. unfold reachable. rewrite En.
    split; (intros [H|[hop H]]; [by left|right; exists hop; by apply Hl]).
Qed.

End Table.

(** ** Reachability *)

Lemma reachable_add_direct h nid t n :
  direct_by_nid_ t !! nid = None ->
  (reachable (add_direct h nid t) n <->
   reachable t n \/ n = nid \/ exists hops, indirect_ t !! n = Some hops /\ nid ∈ hops).
Proof.
  intros Hn. unfold reachable, live_hop, add_direct, emplace. rewrite Hn. simpl. split.
  - intros [H|(hop & hops & H1 & H2 & H3)].
    + rewrite lookup_insert in H. case_decide; auto.
    + rewrite lookup_insert in H3. case_decide; [subst; eauto|]. left. right. eauto 10.
  - intros [[H|(hop & hops & H1 & H2 & H3)]|[ -> |(hops & H1 & H2)]].
    + left. rewrite lookup_insert. case_decide; [eauto|done].
    + right. exists hop, hops. split_and!; try done. rewrite lookup_insert. case_decide; [eauto|done].
    + left. rewrite lookup_insert_eq. eauto.
    + right. exists nid, hops. split_and!; try done. rewrite lookup_insert_eq. eauto.
Qed.

Lemma reachable_add_indirect hop dest t n :
  is_Some (direct_by_nid_ t !! hop) ->
  (reachable (add_indirect hop dest t).2 n <-> reachable t n \/ n = dest).
Proof.
  intros Hh. unfold add_indirect. case_bool_decide as Hd.
  { simpl. split; [auto|]. intros [H| ->]; [done|]. by left. }
  rewrite bool_decide_false by (intros E; rewrite E in Hh; by destruct Hh).
  unfold reachable, live_hop. simpl. split.
  - intros [H|(hop' & hops & H1 & H2 & H3)]; [auto|].
    rewrite lookup_insert in H1. case_decide; [auto|]. left. right. eauto 10.
  - intros [[H|(hop' & hops & H1 & H2 & H3)]| ->]; [auto|..].
    + destruct (decide (n = dest)) as [->|].
      * right. exists hop', ({[ hop ]} ∪ hops). rewrite H1, lookup_insert_eq. simpl.
        split_and!; try done. set_solver.
      * right. exists hop', hops. by rewrite lookup_insert_ne.
    + right. exists hop, ({[ hop ]} ∪ default ∅ (indirect_ t !! dest)).
      rewrite lookup_insert_eq. split_and!; try done. set_solver.
Qed.

Lemma reachable_erase_direct h nid t n :
  direct_by_hdl_ t !! h = Some nid ->
  (reachable (erase_direct h t).2 n <->
   (n <> nid /\ is_Some (direct_by_nid_ t !! n)) \/ exists hop, hop <> nid /\ live_hop t n hop).
Proof.
  intros E. unfold erase_direct. rewrite E. unfold reachable, live_hop. simpl. split.
  - intros [H|(hop & hops & H1 & H2 & H3)].
    + rewrite lookup_delete in H. case_decide; [by destruct H|]. auto.
    + rewrite lookup_delete in H3. case_decide; [by destruct H3|]. right. eauto 10.
  - intros [[Hne H]|(hop & Hne & hops & H1 & H2 & H3)].
    + left. by rewrite lookup_delete_ne.
    + right. exists hop, hops. by rewrite lookup_delete_ne.
Qed.

(** What the updates do to reachability, for every node at once: a new
    direct connection makes the node and everything behind it reachable, an
    indirect entry through a connected hop adds its destination only, and
    closing a connection loses exactly the node and those nodes whose only live
    hop it was. *)
Theorem routing_updates t h hop dest nid n :
  (direct_by_hdl_ t !! h = None -> direct_by_nid_ t !! nid = None ->
   (reachable (add_direct h nid t) n <->
    reachable t n \/ n = nid \/ exists hops, indirect_ t !! n = Some hops /\ nid ∈ hops)) /\
  (is_Some (direct_by_nid_ t !! hop) ->
   (reachable (add_indirect hop dest t).2 n <-> reachable t n \/ n = dest)) /\
  (direct_by_hdl_ t !! h = Some nid ->
   (erase_direct h t).1 = nid /\
   (reachable (erase_direct h t).2 n <->
    (n <> nid /\ is_Some (direct_by_nid_ t !! n)) \/ exists hop', hop' <> nid /\ live_hop t n hop')).
Proof.
  split; [|split].
  - intros _. apply reachable_add_direct.
  - apply reachable_add_indirect.
  - intros E. split; [unfold erase_direct; by rewrite E|]. by apply reachable_erase_direct.
Qed.

(** An iteration order: the order of [elements]. *)
Definition first_element (s : gset Z) : option Z := head (elements s).

#[export] Instance first_element_begin : SetBegin first_element.
Proof.
  unfold first_element. split.
  - intros s x H. apply elem_of_elements. destruct (elements s) as [|y l]; [done|].
    injection H as <-. apply list_elem_of_here.
  - intros s H. destruct (elements s) as [|y l] eqn:E; [|done].
    by apply elements_empty_inv, leibniz_equiv in E.
Qed.

(** Node 5 is reachable through node 3 only; handle 30 belongs to node 3. *)
Definition demo_table : routing_table :=
  (add_indirect 3 5 (add_direct 30 3 make_table)).2.

Lemma demo_table_reachable : rtc (step first_element) make_table demo_table.
Proof.
  eapply rtc_l; [apply (step_op _ (op_add_direct 30 3)); done|].
  eapply rtc_l; [apply (step_op _ (op_add_indirect 3 5)); done|]. apply rtc_refl.
Qed.

Lemma routing_lookup_correct_witness :
  (lookup first_element 5 demo_table).1 = Some (mk_route 3 30) /\ reachable demo_table 5.
Proof.
  pose proof (routing_lookup_correct first_element
    demo_table 5 demo_table_reachable) as H.
  assert ((lookup first_element 5 demo_table).1 = Some (mk_route 3 30)) as E by (vm_compute; reflexivity).
  split; [exact E|]. destruct (lookup first_element 5 demo_table) as [r t']. simpl in E.
  destruct H as (_ & [H _] & _). apply H. rewrite E. eauto.
Defined.

(** Closing the connection to node 3 makes node 5 unreachable. *)
Lemma routing_updates_witness : ~ reachable (erase_direct 30 demo_table).2 5.
Proof.
  destruct (routing_updates demo_table 30 0 0 3 5) as (_ & _ & H).
  destruct H as [_ H]; [vm_compute; reflexivity|]. rewrite H. intros [[_ [x Hx]]|(hop & Hne & hops & H1 & H2 & H3)].
  - vm_compute in Hx. discriminate Hx.
  - assert (indirect_ demo_table !! 5 = Some {[ 3 ]}) as E by (vm_compute; reflexivity).
    rewrite E in H1. injection H1 as <-. apply elem_of_singleton in H2. exact (Hne H2).
Defined.

End RoutingTable.
