(* ===== verification/BaspInstance.v ===== *)
(** * BASP instance (libcaf_io/caf/io/basp/{instance,worker}.cpp,
      remote_message_handler.hpp)

    The protocol state machine of a node: it reacts to completed reads of its
    connections, maintains the routing table, forwards messages for other nodes
    and hands local messages to workers that deserialize them concurrently.
    Calls into the rest of the system are recorded as events, in order. *)

From stdpp Require Import gmap.
From S2P Require Import Prelude NetworkOrder MessageId BinarySerializer BinaryDeserializer.
From S2P Require Import BaspHeader BaspQueue RoutingTable.

Import BinarySerializer BinaryDeserializer BaspHeader RoutingTable.

Module BaspInstance.

#[local] Arguments Z.eqb : simpl never.

Definition invalid_actor_id : Z := 0.

(** [basp::version]. *)
Definition version : Z := 9.

(** ** State *)

Record instance := mk_instance {
  tbl_ : routing_table;
  queue_ : BaspQueue.message_queue;
  hub_ : list Z;                       (* idle workers, next one first *)
}.

Definition set_tbl (i : instance) (t : routing_table) : instance := mk_instance t (queue_ i) (hub_ i).

(** What the instance asks its environment to do. *)
Inductive event :=
| finalize_handshake (nid aid : Z) (sigs : gset bytes)
| learned_new_node_directly (nid : Z) (was_indirect : bool)
| learned_new_node_indirectly (nid : Z)
| purge_state (nid : Z)
| proxy_announced (nid aid : Z)
| handle_heartbeat
| sent (hdl : Z) (out : bytes)                        (* flushed with this output buffer *)
| unsent (hdl : Z) (out : bytes)                      (* output buffer changed without a flush *)
| launched (worker msg_id last_hop : Z) (hdr : header) (payload : bytes)
| deserialized_here (msg_id last_hop : Z) (hdr : header) (payload : bytes)
| delivered (ds : list BaspQueue.delivery).

(** The end of a call: a new connection state with the updated instance and the
    events, or undefined behaviour: dereferencing a null payload, or what the
    deserializer leaves undefined. *)
Inductive result :=
| Done (state : connection_state) (i : instance) (evs : list event)
| NullDereference
| Stuck.

Section Instance.

Context (from_integer : Z -> option message_type) (first_hop : gset Z -> option Z).

(** This node, the accepted application IDs, and the mailbox that receives
    [delete_atom] messages. *)
Context (this_node_ : Z) (whitelist : list bytes) (this_actor : Z).

(** [source.apply(...)] for node IDs and errors, and the content of the
    [delete_atom] message built from a [down_message]. *)
Context (read_node : deserializer -> outcome Z) (read_error : deserializer -> outcome Z).
Context (delete_message : Z -> Z -> Z -> Z).

(** [callee_.get_buffer]: the output buffers of the connections. *)
Context (get_buffer : Z -> bytes).

(** [load_inspector_base::list] for strings. *)
Fixpoint read_strings_loop (n : nat) (s : deserializer) : outcome (list bytes) :=
  match n with
  | O => Ok [] s
  | S n' =>
      and_then (BinaryDeserializer.value_string s) (fun x s1 =>
      and_then (read_strings_loop n' s1) (fun xs s2 => Ok (x :: xs) s2))
  end.

Definition read_strings (s : deserializer) : outcome (list bytes) :=
  and_then (BinaryDeserializer.begin_sequence s) (fun n s1 => read_strings_loop (Z.to_nat n) s1).

(** [if (!source.apply(...)) return serializing_basp_payload_failed;] *)
Definition applied {A} (r : outcome A) (i : instance) (k : A -> result) : result :=
  match r with
  | Ok x _ => k x
  | Failed _ => Done serializing_basp_payload_failed i []
  | Raised | Undefined => Stuck
  end.

(** ** Forwarding *)

(** [None] is undefined behaviour of the serializer. *)
Definition forward (dest_node : Z) (hdr : header) (payload : bytes) (i : instance)
  : option (list event * instance) :=
  let (path, t) := lookup first_hop dest_node (tbl_ i) in
  match path with
  | Some p =>
      let buf := get_buffer (hdl p) in
      '(ok, sink1) ← save_header hdr (mk_serializer buf (zlen buf));
      if negb ok then Some ([unsent (hdl p) (buf_ sink1)], set_tbl i t) else
      '(_, sink2) ← BinarySerializer.value_span payload sink1;
      Some ([sent (hdl p) (buf_ sink2)], set_tbl i t)
  | None => Some ([], set_tbl i t)
  end.

(** A handler that ends with a call to [forward]. *)
Definition forwarded (dest_node : Z) (hdr : header) (payload : bytes) (i : instance) : result :=
  match forward dest_node hdr payload i with
  | Some (evs, i1) => Done await_header i1 evs
  | None => Stuck
  end.

(** ** Message handlers, one per case of the [switch] *)

Definition add_node (h nid : Z) (i : instance) : bool * instance :=
  let t1 := add_direct h nid (tbl_ i) in
  let (was_indirect, t2) := erase_indirect nid t1 in
  (was_indirect, set_tbl i t2).

(** The fields of a server handshake, the two nodes in front of a routed or
    monitor message, and the fields of a down message. *)
Definition read_handshake (payload : bytes) : outcome (Z * list bytes * Z * gset bytes) :=
  and_then (read_node (mk_deserializer payload None)) (fun node s1 =>
  and_then (read_strings s1) (fun ids s2 =>
  and_then (BinaryDeserializer.int_value 8 to_unsigned s2) (fun aid s3 =>
  and_then (read_strings s3) (fun sigs s4 => Ok (node, ids, aid, list_to_set (C := gset bytes) sigs) s4)))).

Definition read_nodes (payload : bytes) : outcome (Z * Z) :=
  and_then (read_node (mk_deserializer payload None)) (fun src s1 =>
  and_then (read_node s1) (fun dst s2 => Ok (src, dst) s2)).

Definition read_down (payload : bytes) : outcome (Z * Z * Z) :=
  and_then (read_node (mk_deserializer payload None)) (fun src s1 =>
  and_then (read_node s1) (fun dst s2 =>
  and_then (read_error s2) (fun rsn s3 => Ok (src, dst, rsn) s3))).

Definition handle_server_handshake (h : Z) (payload : bytes) (i : instance) : result :=
  applied (read_handshake payload) i
    (fun '(source_node, app_ids, aid, sigs) =>
     if negb (existsb (fun x => bool_decide (x ∈ whitelist)) app_ids) then
       Done incompatible_application_ids i []
     else if source_node =? this_node_ then
       Done redundant_connection i [finalize_handshake source_node aid sigs]
     else if bool_decide (is_Some (lookup_direct source_node (tbl_ i))) then
       Done redundant_connection i [finalize_handshake source_node aid sigs]
     else
       let (was_indirect, i1) := add_node h source_node i in
       let (path, t) := lookup first_hop source_node (tbl_ i1) in
       let i2 := set_tbl i1 t in
       match path with
       | None => Done no_route_to_receiving_node i2 []
       | Some _ =>
           Done await_header i2 [learned_new_node_directly source_node was_indirect;
                                 finalize_handshake source_node aid sigs]
       end).

Definition handle_client_handshake (h : Z) (payload : bytes) (i : instance) : result :=
  applied (read_node (mk_deserializer payload None)) i (fun source_node =>
    if bool_decide (is_Some (lookup_direct source_node (tbl_ i))) then Done await_header i []
    else
      let (was_indirect, i1) := add_node h source_node i in
      Done await_header i1 [learned_new_node_directly source_node was_indirect]).

(** Also the tail of a routed message for this node. *)
Definition handle_direct_message (h : Z) (hdr : header) (payload : bytes) (i : instance)
  : list event * instance :=
  let last_hop := lookup_direct_hdl h (tbl_ i) in
  let (msg_id, q) := BaspQueue.new_id (queue_ i) in
  match hub_ i with
  | w :: ws => ([launched w msg_id last_hop hdr payload], mk_instance (tbl_ i) q ws)
  | [] => ([deserialized_here msg_id last_hop hdr payload], mk_instance (tbl_ i) q [])
  end.

Definition handle_routed_message (h : Z) (hdr : header) (payload : bytes) (i : instance) : result :=
  applied (read_nodes payload) i
    (fun '(source_node, dest_node) =>
     if negb (dest_node =? this_node_) then
       forwarded dest_node hdr payload i
     else
       let last_hop := lookup_direct_hdl h (tbl_ i) in
       let (learned, i1) :=
         if negb (source_node =? none) && negb (source_node =? this_node_)
            && negb (last_hop =? source_node)
         then let (added, t) := add_indirect last_hop source_node (tbl_ i) in
              ((if added then [learned_new_node_indirectly source_node] else []), set_tbl i t)
         else ([], i) in
       let (evs, i2) := handle_direct_message h hdr payload i1 in
       Done await_header i2 (learned ++ evs)).

Definition handle_monitor_message (hdr : header) (payload : bytes) (i : instance) : result :=
  applied (read_nodes payload) i
    (fun '(source_node, dest_node) =>
     if dest_node =? this_node_ then
       Done await_header i [proxy_announced source_node (dest_actor hdr)]
     else forwarded dest_node hdr payload i).

Definition handle_down_message (hdr : header) (payload : bytes) (i : instance) : result :=
  applied (read_down payload) i
    (fun '(source_node, dest_node, fail_state) =>
     if dest_node =? this_node_ then
       let (msg_id, q) := BaspQueue.new_id (queue_ i) in
       let (ds, q') := BaspQueue.push (BaspQueue.mk_msg msg_id (Some this_actor)
         (delete_message source_node (source_actor hdr) fail_state)) q in
       Done await_header (mk_instance (tbl_ i) q' (hub_ i)) [delivered ds]
     else forwarded dest_node hdr payload i).

(** [handle(ctx, hdl, hdr, payload)]: [None] is a null payload pointer, which
    the handlers dereference. *)
Definition handle_message (h : Z) (hdr : header) (payload : option bytes) (i : instance) : result :=
  let check := match payload with
               | None => payload_len hdr =? 0
               | Some p => payload_len hdr =? zlen p
               end in
  if negb check then Done malformed_message i [] else
  match operation hdr, payload with
  | heartbeat, _ => Done await_header i [handle_heartbeat]
  | _, None => NullDereference
  | server_handshake, Some p => handle_server_handshake h p i
  | client_handshake, Some p => handle_client_handshake h p i
  | routed_message, Some p => handle_routed_message h hdr p i
  | direct_message, Some p =>
      let (evs, i1) := handle_direct_message h hdr p i in Done await_header i1 evs
  | monitor_message, Some p => handle_monitor_message hdr p i
  | down_message, Some p => handle_down_message hdr p i
  end.

(** The clean-up code on errors. *)
Definition err (h : Z) (code : connection_state) (i : instance) : result :=
  let (nid, t) := erase_direct h (tbl_ i) in
  Done code (set_tbl i t) (if negb (nid =? none) then [purge_state nid] else []).

(** [handle(ctx, dm, hdr, is_payload)]; also returns the header the connection
    keeps. *)
Definition handle (h : Z) (buf : bytes) (hdr : header) (is_payload : bool) (i : instance)
  : header * result :=
  if is_payload then
    if negb (zlen buf =? payload_len hdr) then (hdr, err h malformed_message i)
    else (hdr, handle_message h hdr (Some buf) i)
  else
    match load_header from_integer (mk_deserializer buf None) with
    | Ok hdr' _ =>
        if negb (valid hdr') then (hdr', err h malformed_message i)
        else if 0 <? payload_len hdr' then (hdr', Done await_payload i [])
        else (hdr', handle_message h hdr' None i)
    | Failed _ => (hdr, err h malformed_message i)
    | Raised | Undefined => (hdr, Stuck)
    end.

(** ** Lemmas *)

(** Behaviour that the deserializers leave undefined. *)
Definition crashed {A} (r : outcome A) : Prop := r = Raised \/ r = Undefined.

(** Reading the fields in front of the content crashes. *)
Definition payload_crashes (hdr : header) (p : bytes) : Prop :=
  match operation hdr with
  | server_handshake => crashed (read_handshake p)
  | client_handshake => crashed (read_node (mk_deserializer p None))
  | routed_message | monitor_message => crashed (read_nodes p)
  | down_message => crashed (read_down p)
  | direct_message | heartbeat => False
  end.

(** A call that returns leaves the table consistent; it dereferences null only
    under [N] and runs into other undefined behaviour only under [U]. *)
Definition keeps (N U : Prop) (r : result) : Prop :=
  match r with Done _ i' _ => wf (tbl_ i') | NullDereference => N | Stuck => U end.

Lemma applied_cases {A} (r : outcome A) i k (P : result -> Prop) :
  P (Done serializing_basp_payload_failed i []) -> P Stuck -> (forall x, P (k x)) -> P (applied r i k).
Proof. intros H1 H2 H3. destruct r; simpl; auto. Qed.

Lemma applied_no_null {A} (r : outcome A) i k :
  (forall x, k x <> NullDereference) -> applied r i k <> NullDereference.
Proof. intros H. by apply applied_cases. Qed.

Ltac split_matches :=
  repeat (cbn beta iota zeta; match goal with |- context [match ?x with _ => _ end] => destruct x end).

Lemma forwarded_no_null dest hdr p i : forwarded dest hdr p i <> NullDereference.
Proof. unfold forwarded. by destruct (forward _ _ _ _) as [[]|]. Qed.

(** With a payload, no handler dereferences a null pointer. *)
Lemma handle_message_payload h hdr p i : handle_message h hdr (Some p) i <> NullDereference.
Proof.
  unfold handle_message. destruct (negb _); [done|]. destruct (operation hdr).
  - apply applied_no_null. intros [[[n ids] aid] sigs]. by split_matches.
  - apply applied_no_null. intros n. by split_matches.
  - by destruct (handle_direct_message _ _ _ _).
  - apply applied_no_null. intros [src dst]. destruct (negb _); [apply forwarded_no_null|by split_matches].
  - apply applied_no_null. intros [src dst]. destruct (_ =? _); [done|apply forwarded_no_null].
  - apply applied_no_null. intros [[src dst] rsn]. destruct (_ =? _); [by split_matches|apply forwarded_no_null].
  - done.
Qed.

(** A forwarded message is its header followed by its payload. *)
Lemma forward_bytes dest hdr p i :
  wf_header hdr ->
  forward dest hdr p i =
    let (path, t) := lookup first_hop dest (tbl_ i) in
    Some (match path with
          | Some r => [sent (hdl r) (get_buffer (hdl r) ++ header_bytes hdr ++ p)]
          | None => []
          end, set_tbl i t).
Proof.
  intros Hh. unfold forward, save_header. destruct (lookup _ _ _) as [[r|] t]; [|done].
  pose proof (zlen_nonneg (get_buffer (hdl r))).
  rewrite save_all_write; [|unfold BinarySerializer.wf; simpl; lia|by apply header_data_valid].
  cbn [mbind option_bind negb]. rewrite write_end by done.
  pose proof (zlen_nonneg (encode_all (header_data hdr))).
  rewrite value_span_write by (unfold BinarySerializer.wf; cbn [buf_ write_pos_]; rewrite zlen_app; lia).
  cbn [mbind option_bind]. rewrite write_end by (cbn [buf_ write_pos_]; rewrite zlen_app; lia).
  cbn [buf_]. by rewrite <- app_assoc.
Qed.

Lemma wf_forwarded N U dest hdr p i :
  wf_header hdr -> wf (tbl_ i) -> keeps N U (forwarded dest hdr p i).
Proof.
  intros Hh H. unfold forwarded. rewrite forward_bytes by done.
  pose proof (lookup_keeps_direct first_hop dest (tbl_ i)) as [E1 E2].
  destruct (lookup _ _ _) as [[r|] t]; simpl in *; intros h n; rewrite E1, E2; apply H.
Qed.

Lemma wf_add_indirect hop dest t : wf t -> wf (add_indirect hop dest t).2.
Proof. intros H. unfold add_indirect. by repeat case_bool_decide. Qed.

Lemma wf_erase_indirect dest t : wf t -> wf (erase_indirect dest t).2.
Proof. intros H. unfold erase_indirect. by destruct (indirect_ t !! dest). Qed.

Lemma wf_add_node h nid i :
  wf (tbl_ i) -> direct_by_hdl_ (tbl_ i) !! h = None -> lookup_direct nid (tbl_ i) = None ->
  wf (tbl_ (add_node h nid i).2).
Proof.
  intros H Hh Hn. unfold add_node.
  pose proof (wf_erase_indirect nid _ (wf_add_direct h nid (tbl_ i) H Hh Hn)) as Hw.
  by destruct (erase_indirect _ _).
Qed.

Lemma wf_handle_direct h hdr p i : wf (tbl_ i) -> wf (tbl_ (handle_direct_message h hdr p i).2).
Proof.
  intros H. unfold handle_direct_message. destruct (BaspQueue.new_id _), (hub_ i); done.
Qed.

Lemma wf_applied {A} N (U : Prop) (r : outcome A) i k :
  wf (tbl_ i) -> (crashed r -> U) -> (forall x, keeps N U (k x)) -> keeps N U (applied r i k).
Proof. intros H1 HU H2. destruct r; simpl; [done|done|apply HU; by left|apply HU; by right]. Qed.

Lemma wf_handle_payload N h hdr p i :
  wf_header hdr -> wf (tbl_ i) -> (is_handshake hdr = true -> direct_by_hdl_ (tbl_ i) !! h = None) ->
  keeps N (payload_crashes hdr p) (handle_message h hdr (Some p) i).
Proof.
  intros Hhdr H Hh. unfold handle_message. destruct (negb _); [done|].
  unfold is_handshake in Hh. unfold payload_crashes. destruct (operation hdr); try done.
  - apply wf_applied; [done..|]. intros [[[n ids] aid] sigs].
    destruct (negb _); [done|]. destruct (_ =? _); [done|]. case_bool_decide as Hd; [done|].
    apply eq_None_not_Some in Hd. pose proof (wf_add_node h n i H (Hh eq_refl) Hd) as Hw.
    destruct (add_node h n i) as [was i1]. simpl in Hw.
    pose proof (lookup_keeps_direct first_hop n (tbl_ i1)) as [E1 E2].
    destruct (lookup _ _ _) as [[r|] t]; simpl in *; intros h' n'; rewrite E1, E2; apply Hw.
  - apply wf_applied; [done..|]. intros n. case_bool_decide as Hd; [done|].
    apply eq_None_not_Some in Hd. pose proof (wf_add_node h n i H (Hh eq_refl) Hd) as Hw.
    by destruct (add_node h n i).
  - pose proof (wf_handle_direct h hdr p i H) as Hw. by destruct (handle_direct_message _ _ _ _).
  - apply wf_applied; [done..|]. intros [src dst]. destruct (negb _).
    + by apply wf_forwarded.
    + pose proof (wf_add_indirect (lookup_direct_hdl h (tbl_ i)) src _ H) as Hw.
      cbn beta iota zeta. destruct (_ && negb (lookup_direct_hdl h (tbl_ i) =? src)).
      * destruct (add_indirect _ _ _) as [b t]. simpl in Hw.
        pose proof (wf_handle_direct h hdr p (set_tbl i t) Hw) as Hw2.
        cbn beta iota zeta. by destruct (handle_direct_message _ _ _ _).
      * pose proof (wf_handle_direct h hdr p i H) as Hw2. cbn beta iota zeta. by destruct (handle_direct_message _ _ _ _).
  - apply wf_applied; [done..|]. intros [src dst]. destruct (_ =? _); [done|].
    by apply wf_forwarded.
  - apply wf_applied; [done..|]. intros [[src dst] rsn]. destruct (_ =? _).
    + destruct (BaspQueue.new_id _), (BaspQueue.push _ _). done.
    + by apply wf_forwarded.
Qed.

Lemma wf_err N U h code i : wf (tbl_ i) -> keeps N U (err h code i).
Proof.
  intros H. unfold err. pose proof (wf_erase_direct h _ H) as Hw. by destruct (erase_direct _ _).
Qed.

(** A header has no size prefix: reading one never crashes. *)
Lemma value_byte_returns s : ~ crashed (BinaryDeserializer.value_byte s).
Proof.
  unfold BinaryDeserializer.value_byte, BinaryDeserializer.range_check, BinaryDeserializer.remaining.
  destruct (Z.leb_spec 1 (zlen (remainder s))) as [L|]; [|by intros [|]].
  destruct (remainder s); [unfold zlen in L; cbn in L; lia|]. by intros [|].
Qed.

Lemma int_value_returns n cast s : ~ crashed (BinaryDeserializer.int_value n cast s).
Proof.
  unfold BinaryDeserializer.int_value, BinaryDeserializer.value_span. destruct (negb _); by intros [|].
Qed.

Lemma then_returns {A B} (r : outcome A) (f : A -> deserializer -> outcome B) :
  ~ crashed r -> (forall x s, ~ crashed (f x s)) -> ~ crashed (and_then r f).
Proof. intros H1 H2. destruct r; simpl; [apply H2|by intros [|]|exfalso; apply H1; by left|exfalso; apply H1; by right]. Qed.

Lemma load_header_returns s : ~ crashed (load_header from_integer s).
Proof.
  unfold load_header, value_uint8. apply then_returns; [apply value_byte_returns|]. intros op s1.
  destruct (from_integer op); [|by intros [|]].
  repeat (apply then_returns; [apply value_byte_returns || apply int_value_returns|]; intros ? ?). by intros [|].
Qed.

(** ** Claims *)

(** Reading a header ends with [Done] or in front of a null payload. *)
Lemma handle_header_cases h buf hdr0 i :
  wf (tbl_ i) -> keeps True False (handle h buf hdr0 false i).2.
Proof.
  intros Hwf. unfold handle. pose proof (load_header_returns (mk_deserializer buf None)) as Hr.
  destruct (load_header _ _) as [hdr' s|s| |]; simpl; [|by apply wf_err|apply Hr; by left|apply Hr; by right].
  destruct (valid hdr'); simpl; [|by apply wf_err]. destruct (0 <? payload_len hdr'); simpl; [done|].
  unfold handle_message. destruct (negb _); [done|]. by destruct (operation hdr').
Qed.

(** Where a null payload is dereferenced.  A completed header read makes
    the instance dereference a null payload exactly if the header is a valid
    handshake that announces no payload; a completed payload read never does. *)
Theorem null_payload_handshakes h buf hdr0 hdr i :
  (handle h buf hdr0 false i = (hdr, NullDereference) <->
   exists s, load_header from_integer (mk_deserializer buf None) = Ok hdr s /\
     valid hdr = true /\ payload_len hdr = 0 /\ is_handshake hdr = true) /\
  (handle h buf hdr0 true i).2 <> NullDereference.
Proof.
  split.
  - unfold handle. destruct (load_header _ _) as [hdr' s|s| |] eqn:El.
    + destruct (valid hdr') eqn:Ev; cbn [negb].
      * destruct (Z.ltb_spec 0 (payload_len hdr')) as [L|L].
        { split; [done|]. intros (s' & [= <- <-] & _ & H & _). lia. }
        unfold handle_message. destruct (Z.eqb_spec (payload_len hdr') 0) as [E0|E0]; cbn [negb].
        -- unfold valid, direct_message_valid, routed_message_valid, monitor_message_valid,
             down_message_valid, zero in Ev. unfold is_handshake.
           split.
           ++ destruct (operation hdr') eqn:Eo; intros [= <-]; rewrite ?E0 in Ev; cbn in Ev;
                rewrite ?andb_false_r, ?andb_false_l in Ev; try discriminate Ev;
                exists s; rewrite Eo, E0; split_and!; try done;
                unfold valid; rewrite Eo; done.
           ++ intros (s' & [= <- <-] & _ & _ & H). by destruct (operation hdr').
        -- split; [done|]. intros (s' & [= <- <-] & _ & H & _). done.
      * split; [unfold err; destruct (erase_direct _ _); done|].
        intros (s' & [= <- <-] & H & _). congruence.
    + split; [unfold err; destruct (erase_direct _ _); done|]. by intros (s' & ? & _).
    + split; [done|]. by intros (s' & ? & _).
    + split; [done|]. by intros (s' & ? & _).
  - unfold handle. destruct (negb _); simpl.
    + unfold err. by destruct (erase_direct _ _).
    + apply handle_message_payload.
Qed.


(** A second client handshake breaks the table.  If connection [h]
    already belongs to node [n1] and its peer announces itself again as another,
    unconnected node [n2], the table maps [n2] to [h] but [h] to [n1]; when the
    connection closes, only [n1] is removed and lookups keep answering with the
    closed connection [h] for [n2]. *)
Theorem second_handshake_breaks_table h p hdr n1 n2 s i :
  operation hdr = client_handshake -> payload_len hdr = zlen p ->
  read_node (mk_deserializer p None) = Ok n2 s ->
  direct_by_hdl_ (tbl_ i) !! h = Some n1 -> direct_by_nid_ (tbl_ i) !! n2 = None -> n1 <> n2 ->
  exists i' was, handle_message h hdr (Some p) i
      = Done await_header i' [learned_new_node_directly n2 was] /\
    ~ wf (tbl_ i') /\
    (lookup first_hop n2 (erase_direct h (tbl_ i')).2).1 = Some (mk_route n2 h).
Proof.
  intros Eo El Er Eh En Hne. unfold handle_message. rewrite El, Z.eqb_refl, Eo. cbn [negb].
  unfold handle_client_handshake. rewrite Er. cbn [applied].
  unfold lookup_direct. rewrite En, bool_decide_false by (by intros []).
  unfold add_node, add_direct, emplace. rewrite Eh, En.
  set (t1 := mk_table _ _ _). 
  assert (forall t2, t2 = (erase_indirect n2 t1).2 ->
    direct_by_hdl_ t2 !! h = Some n1 /\ direct_by_nid_ t2 !! n2 = Some h) as Ht.
  { intros t2 ->. unfold erase_indirect. destruct (indirect_ t1 !! n2); simpl; by rewrite lookup_insert_eq. }
  destruct (erase_indirect n2 t1) as [was t2] eqn:E2. destruct (Ht t2 eq_refl) as [H1 H2].
  eexists _, was. split; [reflexivity|]. cbn [set_tbl tbl_]. split.
  - intros Hw. apply Hw in H2. congruence.
  - unfold erase_direct. rewrite H1. unfold lookup. simpl. by rewrite lookup_delete_ne, H2.
Qed.

(** Messages for other nodes are relayed untouched.  A routed message
    whose destination is another node leaves no trace on this node except lazily
    pruned hops; if the destination is reachable, header and payload are appended
    unchanged to the output buffer of the connection to the next hop, which is
    flushed, otherwise the message is dropped. *)
Theorem routed_message_relayed `{!SetBegin first_hop} h hdr p src dst s1 s2 i :
  operation hdr = routed_message -> payload_len hdr = zlen p -> wf_header hdr ->
  read_node (mk_deserializer p None) = Ok src s1 -> read_node s1 = Ok dst s2 -> dst <> this_node_ ->
  exists i' evs, handle_message h hdr (Some p) i = Done await_header i' evs /\
    queue_ i' = queue_ i /\ hub_ i' = hub_ i /\
    (forall n, reachable (tbl_ i') n <-> reachable (tbl_ i) n) /\
    ((reachable (tbl_ i) dst /\ exists r, answers (tbl_ i) dst r /\
        evs = [sent (hdl r) (get_buffer (hdl r) ++ header_bytes hdr ++ p)]) \/
     (~ reachable (tbl_ i) dst /\ evs = [])).
Proof.
  intros Eo El Hh E1 E2 Hne. unfold handle_message. rewrite El, Z.eqb_refl, Eo. cbn [negb].
  unfold handle_routed_message, read_nodes. rewrite E1. cbn [and_then]. rewrite E2. cbn [and_then applied].
  rewrite (proj2 (Z.eqb_neq _ _) Hne). cbn [negb]. unfold forwarded.
  rewrite forward_bytes by done.
  pose proof (lookup_spec first_hop dst (tbl_ i)) as L.
  destruct (lookup first_hop dst (tbl_ i)) as [r t]. destruct L as (L1 & L2 & L3 & L4).
  assert (forall n, reachable t n <-> reachable (tbl_ i) n) as Hr.
  { intros n. unfold reachable. rewrite L2.
    split; (intros [H|[hop H]]; [by left|right; exists hop; by apply L3]). }
  destruct r as [r|]; do 2 eexists; (split; [reflexivity|]); do 2 (split; [done|]);
    (split; [exact Hr|]).
  - left. split; [|eauto]. destruct L4 as [A [<-|[_ B]]]; [left; eauto|right; eauto].
  - by right.
Qed.

End Instance.

(** ** Sending *)

Section Sending.

Context (first_hop : gset Z -> option Z) (this_node_ : Z).

(** [sink.apply(...)] for node IDs, messages and errors, and the string lists
    of a server handshake. *)
Context (write_node : Z -> serializer -> saved).

(** [a && b] of two [sink.apply] calls. *)
Definition then_apply (f g : serializer -> saved) (s : serializer) : saved :=
  '(ok, s1) ← f s; if (ok : bool) then g s1 else Some (false, s1).

(** [instance::dispatch]: [bufs] are the output buffers of the connections;
    [None] is undefined behaviour of a writer. *)
Definition dispatch (sender : option (Z * Z)) (dest_node dest_actor flags : Z)
    (mid : MessageId.message_id) (write_msg : serializer -> saved) (bufs : Z -> bytes) (i : instance)
  : option (bool * list event * instance) :=
  let (path, t) := lookup first_hop dest_node (tbl_ i) in
  let i' := set_tbl i t in
  match path with
  | None => Some (false, [], i')
  | Some p =>
      let source_node := match sender with Some (n, _) => n | None => this_node_ end in
      let source_id := match sender with Some (_, a) => a | None => invalid_actor_id end in
      if (dest_node =? next_hop p) && (source_node =? this_node_) then
        let hdr := mk_header direct_message flags 0 (MessageId.integer_value mid) source_id dest_actor in
        '(_, out) ← write (bufs (hdl p)) hdr (Some write_msg);
        Some (true, [sent (hdl p) out], i')
      else
        let hdr := mk_header routed_message flags 0 (MessageId.integer_value mid) source_id dest_actor in
        let writer := then_apply (write_node source_node) (then_apply (write_node dest_node) write_msg) in
        '(_, out) ← write (bufs (hdl p)) hdr (Some writer);
        Some (true, [sent (hdl p) out], i')
  end.

(** The remaining writers; the result is the new output buffer. *)
Definition write_server_handshake (write_app_ids write_interface : serializer -> saved) (aid : Z)
    (buf : bytes) : option bytes :=
  let writer := then_apply (write_node this_node_) (then_apply write_app_ids
    (then_apply (BinarySerializer.int_value 8 aid) write_interface)) in
  '(_, out) ← write buf (mk_header server_handshake 0 0 version invalid_actor_id invalid_actor_id) (Some writer);
  Some out.

Definition write_client_handshake (buf : bytes) : option bytes :=
  '(_, out) ← write buf (mk_header client_handshake 0 0 0 invalid_actor_id invalid_actor_id)
    (Some (write_node this_node_));
  Some out.

Definition write_monitor_message (dest_node aid : Z) (buf : bytes) : option bytes :=
  '(_, out) ← write buf (mk_header monitor_message 0 0 0 invalid_actor_id aid)
    (Some (then_apply (write_node this_node_) (write_node dest_node)));
  Some out.

Definition write_down_message (dest_node aid : Z) (write_rsn : serializer -> saved) (buf : bytes)
  : option bytes :=
  '(_, out) ← write buf (mk_header down_message 0 0 0 aid invalid_actor_id)
    (Some (then_apply (write_node this_node_) (then_apply (write_node dest_node) write_rsn)));
  Some out.

Definition write_heartbeat (buf : bytes) : option bytes :=
  '(_, out) ← write buf (mk_header heartbeat 0 0 0 invalid_actor_id invalid_actor_id) None;
  Some out.

Lemma then_apply_emits f g x y : emits f x -> emits g y -> emits (then_apply f g) (x ++ y).
Proof.
  intros Hf Hg s Hs. unfold then_apply. rewrite Hf by done. cbn [mbind option_bind].
  rewrite write_end by done. rewrite Hg by (simpl; rewrite zlen_app; lia).
  rewrite !write_end by (simpl; rewrite ?zlen_app; lia). simpl. rewrite zlen_app.
  do 3 f_equal; [by rewrite app_assoc|lia].
Qed.

(** A message with an all-default header apart from the given fields. *)
Definition frame_of (op : message_type) (fl od src dst : Z) (payload : bytes) : bytes :=
  header_bytes (mk_header op fl (zlen payload) od src dst) ++ payload.

Lemma write_frame_of buf op fl od src dst pw payload :
  wf_header (mk_header op fl 0 od src dst) -> emits pw payload -> is_uint 32 (zlen payload) ->
  zlen buf + header_size + zlen payload <= size_max ->
  exists hdr, write buf (mk_header op fl 0 od src dst) (Some pw)
    = Some (hdr, buf ++ frame_of op fl od src dst payload).
Proof.
  intros Hh Hpw Hl Hmax. eexists. rewrite (write_payload _ _ _ payload) by done.
  unfold frame_of, set_payload_len. cbn. by rewrite uwrap_id.
Qed.

(** Dispatching.  [dispatch] succeeds exactly if the destination node is
    reachable.  A message of a local sender to a directly connected node goes
    out as a direct message carrying just the content; any other message goes
    out as a routed message whose payload starts with source and destination
    node.  Either way exactly one frame is appended to the output buffer of the
    connection to the next hop, and the header transports message ID, source and
    destination actor. *)
Theorem dispatch_correct `{!SetBegin first_hop} sender dest_node dest_actor flags mid write_msg content enc_src enc_dst bufs i :
  let source_node := match sender with Some (n, _) => n | None => this_node_ end in
  let source_id := match sender with Some (_, a) => a | None => 0 end in
  let routed := enc_src ++ enc_dst ++ content in
  emits write_msg content -> emits (write_node source_node) enc_src -> emits (write_node dest_node) enc_dst ->
  is_uint 8 flags -> is_uint 64 dest_actor -> is_uint 64 source_id -> MessageId.wf mid ->
  is_uint 32 (zlen routed) -> (forall h, zlen (bufs h) + header_size + zlen routed <= size_max) ->
  exists ok evs i', dispatch sender dest_node dest_actor flags mid write_msg bufs i = Some (ok, evs, i') /\
    (ok = true <-> reachable (tbl_ i) dest_node) /\
    (ok = false -> evs = []) /\
    (ok = true -> exists r, answers (tbl_ i) dest_node r /\
       evs = [sent (hdl r) (bufs (hdl r) ++
         (if bool_decide (next_hop r = dest_node /\ source_node = this_node_)
          then frame_of direct_message flags (MessageId.integer_value mid) source_id dest_actor content
          else frame_of routed_message flags (MessageId.integer_value mid) source_id dest_actor routed))]).
Proof.
  intros source_node source_id routed Hm Hs Hd Hfl Hda Hsi Hmid Hlen Hmax.
  unfold dispatch. pose proof (lookup_spec first_hop dest_node (tbl_ i)) as L.
  destruct (lookup first_hop dest_node (tbl_ i)) as [[r|] t]; destruct L as (_ & _ & _ & L).
  2: { do 3 eexists. split; [done|]. split_and!; try done. }
  change (match sender with Some (n, _) => n | None => this_node_ end) with source_node.
  change (match sender with Some (_, a) => a | None => invalid_actor_id end) with source_id.
  assert (reachable (tbl_ i) dest_node) as Hreach
    by (destruct L as [A [<-|[_ B]]]; [left; eauto|right; eauto]).
  pose proof (zlen_nonneg content). pose proof (zlen_nonneg enc_src). pose proof (zlen_nonneg enc_dst).
  assert (zlen routed = zlen enc_src + (zlen enc_dst + zlen content)) as Hr
    by (unfold routed; by rewrite !zlen_app).
  specialize (Hmax (hdl r)). unfold is_uint in Hlen.
  assert (forall op, wf_header (mk_header op flags 0 (MessageId.integer_value mid) source_id dest_actor)) as Hh
    by (intros op; split_and!; try done; unfold is_uint; simpl; lia).
  assert (source_node =? this_node_ = bool_decide (source_node = this_node_)) as Hn
    by (destruct (Z.eqb_spec source_node this_node_); [by rewrite bool_decide_true|by rewrite bool_decide_false]).
  destruct ((dest_node =? next_hop r) && (source_node =? this_node_)) eqn:Ec.
  - destruct (write_frame_of (bufs (hdl r)) direct_message flags (MessageId.integer_value mid) source_id
      dest_actor write_msg content) as [hdr ->]; [done|done|unfold is_uint; lia|lia|].
    cbn [mbind option_bind]. do 3 eexists. split; [done|]. split_and!; try done. intros _.
    exists r. split; [done|]. reflect_bools. rewrite bool_decide_true by done. done.
  - destruct (write_frame_of (bufs (hdl r)) routed_message flags (MessageId.integer_value mid) source_id
      dest_actor (then_apply (write_node source_node) (then_apply (write_node dest_node) write_msg)) routed)
      as [hdr ->]; [done|by repeat apply then_apply_emits|done|lia|].
    cbn [mbind option_bind]. do 3 eexists. split; [done|]. split_and!; try done. intros _.
    exists r. split; [done|]. rewrite bool_decide_false; [done|]. intros [<- E].
    rewrite Z.eqb_refl, E, Z.eqb_refl in Ec. done.
Qed.

End Sending.

(** ** Deserializing a message *)

(** The content of a message as far as the handler distinguishes it. *)
Inductive message :=
| msg_link (target : option Z)
| msg_unlink (target : option Z)
| msg_other (content : Z).

(** What the handler does besides deserializing. *)
Inductive effect :=
| bounced (receiver : Z) (rid : MessageId.message_id)
| malformed (receiver : Z) (rid : MessageId.message_id)
| add_link (proxy dst : Z)
| remove_link (proxy dst : Z)
| queue_push (id dst : Z) (src : option Z) (mid : MessageId.message_id) (msg : message)
| queue_drop (id : Z).

Inductive handled :=
| Handled (effs : list effect)
| NullSender
| HandlerStuck.

Section Handler.

Context (this_node_ : Z).
(** The actor registry by ID and by name. *)
Context (registry : Z -> option Z) (config_serv spawn_serv : option Z).
(** The proxy for a remote actor, if one can be made. *)
Context (proxy : Z -> Z -> Z).
Context (read_node : deserializer -> outcome Z) (read_message : deserializer -> outcome message).

(** [proxy_registry::get_or_put] with [basp_broker::make_proxy]. *)
Definition get_or_put (nid aid : Z) : option Z :=
  if (nid =? none) || (aid =? invalid_actor_id) then None else Some (proxy nid aid).

Definition local_receiver (hdr : header) : option Z :=
  if has hdr named_receiver_flag then
    if dest_actor hdr =? 1 then config_serv
    else if dest_actor hdr =? 2 then spawn_serv else None
  else registry (dest_actor hdr).

(** The part after source and destination are known.  [guard] drops the ID. *)
Definition ship (msg_id : Z) (mid : MessageId.message_id) (src dst : option Z) (source : deserializer)
  : handled :=
  let guard := queue_drop msg_id in
  match dst with
  | None =>
      (* detail::sync_request_bouncer *)
      Handled ((match src with
                | Some s => if MessageId.is_request mid then [bounced s (MessageId.response_id mid)] else []
                | None => []
                end) ++ [guard])
  | Some d =>
      match read_message source with
      | Ok msg _ =>
          match msg with
          | msg_link (Some p) => Handled [add_link p d; guard]
          | msg_link None => Handled [guard]
          | msg_unlink (Some p) => Handled [remove_link p d; guard]
          | msg_unlink None => Handled [guard]
          | msg_other _ => Handled [queue_push msg_id d src mid msg]
          end
      | Failed _ =>
          match src with
          | Some s => Handled [malformed s (MessageId.response_id mid); guard]
          | None => NullSender
          end
      | Raised | Undefined => HandlerStuck
      end
  end.

(** [remote_message_handler::handle_remote_message]. *)
Definition handle_remote_message (msg_id last_hop : Z) (hdr : header) (payload : bytes) : handled :=
  let mid := MessageId.make_normal (operation_data hdr) in
  let source := mk_deserializer payload None in
  let guard := queue_drop msg_id in
  let dst := local_receiver hdr in
  if bool_decide (dst = None) && negb (MessageId.is_request mid) then Handled [guard] else
  match operation hdr with
  | routed_message =>
      match read_node source with
      | Ok src_node s1 =>
          match read_node s1 with
          | Ok _ s2 =>
              let src := if negb (source_actor hdr =? 0) then
                           if src_node =? this_node_ then registry (source_actor hdr)
                           else get_or_put src_node (source_actor hdr)
                         else None in
              ship msg_id mid src dst s2
          | Failed _ => Handled [guard]
          | Raised | Undefined => HandlerStuck
          end
      | Failed _ => Handled [guard]
      | Raised | Undefined => HandlerStuck
      end
  | _ => ship msg_id mid (get_or_put last_hop (source_actor hdr)) dst source
  end.

(** The queue operations among the effects. *)
Definition queue_ops (effs : list effect) : list effect :=
  List.filter (fun e => match e with queue_push _ _ _ _ _ | queue_drop _ => true | _ => false end) effs.

Definition settles (msg_id : Z) (effs : list effect) : Prop :=
  queue_ops effs = [queue_drop msg_id] \/
  exists dst src mid msg, queue_ops effs = [queue_push msg_id dst src mid msg].

Lemma ship_settles msg_id mid src dst source effs :
  ship msg_id mid src dst source = Handled effs -> settles msg_id effs.
Proof.
  unfold ship, settles. destruct dst as [d|].
  - destruct (read_message source) as [[[q|]|[q|]|c] s|s| |]; [..|by destruct src; intros [= <-]; left|done|done];
      intros [= <-]; try (by left). right. by do 4 eexists.
  - destruct src as [x|]; [|by intros [= <-]; left]. destruct (MessageId.is_request mid);
      intros [= <-]; by left.
Qed.

(** Every ID is settled exactly once.  Whenever the handler of a remote
    message returns, on any of its paths, it has pushed its message ID or
    dropped it, exactly once and never both: the workers meet the obligation
    under which the message queue delivers in order and without holding
    messages back. *)
Theorem handler_settles_id msg_id last_hop hdr payload effs :
  handle_remote_message msg_id last_hop hdr payload = Handled effs -> settles msg_id effs.
Proof.
  unfold handle_remote_message. destruct (_ && _); [by intros [= <-]; left|].
  destruct (operation hdr); try apply ship_settles.
  destruct (read_node _) as [src s1|s1| |]; [|by intros [= <-]; left|done|done].
  destruct (read_node s1) as [dst s2|s2| |]; [|by intros [= <-]; left|done|done].
  apply ship_settles.
Qed.

(** A malformed message from an anonymous sender dereferences a null
    pointer: a direct message with a known receiver, whose content does not
    deserialize and whose header names no source actor, makes the handler
    enqueue an error to a null sender. *)
Theorem malformed_anonymous_message msg_id last_hop hdr payload d s :
  operation hdr = direct_message -> source_actor hdr = 0 ->
  local_receiver hdr = Some d -> read_message (mk_deserializer payload None) = Failed s ->
  handle_remote_message msg_id last_hop hdr payload = NullSender.
Proof.
  intros Eo Es Ed Em. unfold handle_remote_message. rewrite Ed, bool_decide_false by done.
  cbn [andb]. rewrite Eo. unfold ship, get_or_put. rewrite Em, Es.
  by rewrite (proj2 (Z.eqb_eq 0 invalid_actor_id)), orb_true_r.
Qed.

(** Message IDs across the network.  The handler restores the message ID
    of the sender from the header up to its priority: response flag, answered
    flag and request ID survive, but the category of every remote message
    becomes normal, also if it was sent with high priority. *)
Theorem remote_message_id mid :
  MessageId.wf mid -> MessageId.category_field mid <= 1 ->
  let mid' := MessageId.make_normal (MessageId.integer_value mid) in
  MessageId.response_bit mid' = MessageId.response_bit mid /\
  MessageId.answered_bit mid' = MessageId.answered_bit mid /\
  MessageId.request_field mid' = MessageId.request_field mid /\
  MessageId.is_normal_message mid' = true /\ MessageId.is_urgent_message mid' = false.
Proof.
  intros Hwf Hc mid'. destruct (MessageId.fields_normal mid Hwf) as (_ & Hr & Ha & Hcat & Hq).
  change (MessageId.with_normal_priority mid) with mid' in *. split_and!; try done.
  - unfold MessageId.is_normal_message. rewrite MessageId.category_field_eq, Hcat.
    pose proof (MessageId.category_field_range mid).
    assert (MessageId.category_field mid = 0 \/ MessageId.category_field mid = 1) as [-> | ->] by lia; done.
  - unfold MessageId.is_urgent_message. rewrite MessageId.category_field_eq, Hcat.
    pose proof (MessageId.category_field_range mid).
    assert (MessageId.category_field mid = 0 \/ MessageId.category_field mid = 1) as [-> | ->] by lia; done.
Qed.

End Handler.

(** ** Concrete instances *)

(** Node IDs as plain 32-bit integers; this node is 1. *)
Definition demo_read_node (s : deserializer) : outcome Z := BinaryDeserializer.int_value 4 to_unsigned s.
Definition demo_write_node (n : Z) (s : serializer) : saved := BinarySerializer.int_value 4 n s.
Definition demo_read_message (s : deserializer) : outcome message :=
  and_then (BinaryDeserializer.value_byte s) (fun x s1 => Ok (msg_other x) s1).

Definition demo_instance : instance := mk_instance demo_table BaspQueue.make_queue [].

Definition demo_handle :=
  handle from_integer first_element 1 [] 0 demo_read_node demo_read_node (fun _ _ _ => 0) (fun _ => []).
Definition demo_handle_message :=
  handle_message first_element 1 [] 0 demo_read_node demo_read_node (fun _ _ _ => 0) (fun _ => []).

(** A server handshake with version 9 and nothing else. *)
Definition demo_bare_handshake : header := mk_header server_handshake 0 0 9 0 0.

Lemma null_payload_handshakes_witness :
  demo_handle 30 (header_bytes demo_bare_handshake) demo_bare_handshake false demo_instance
  = (demo_bare_handshake, NullDereference).
Proof.
  apply (null_payload_handshakes from_integer first_element 1 [] 0 demo_read_node demo_read_node).
  eexists. vm_compute. repeat split.
Defined.

Lemma demo_table_wf : wf demo_table.
Proof.
  assert (demo_table = apply_op first_element (op_add_indirect 3 5)
    (apply_op first_element (op_add_direct 30 3) make_table)) as -> by (vm_compute; reflexivity).
  eapply (wf_step first_element); [|by apply step_op].
  eapply (wf_step first_element); [apply wf_make|by apply step_op].
Qed.

(** Connection 31 is new; its peer introduces itself as node 4. *)
Definition demo_handshake : header := mk_header client_handshake 0 4 0 0 0.


(** Connection 30 belongs to node 3; its peer now claims to be node 4. *)
Lemma second_handshake_breaks_table_witness :
  exists i' was, demo_handle_message 30 (mk_header client_handshake 0 4 0 0 0) (Some [0; 0; 0; 4]) demo_instance
      = Done await_header i' [learned_new_node_directly 4 was] /\
    ~ wf (tbl_ i') /\
    (lookup first_element 4 (erase_direct 30 (tbl_ i')).2).1 = Some (mk_route 4 30).
Proof.
  apply (second_handshake_breaks_table first_element 1 [] 0 demo_read_node demo_read_node _ _ 30
    [0; 0; 0; 4] (mk_header client_handshake 0 4 0 0 0) 3 4 (mk_deserializer [] None)).
  - reflexivity.
  - reflexivity.
  - vm_compute. reflexivity.
  - vm_compute. reflexivity.
  - vm_compute. reflexivity.
  - discriminate.
Defined.

(** A routed message from node 3 to node 5. *)
Definition demo_routed : header := mk_header routed_message 0 9 77 8 9.

Lemma routed_message_relayed_witness :
  exists i' evs, demo_handle_message 30 demo_routed (Some [0; 0; 0; 3; 0; 0; 0; 5; 42]) demo_instance
      = Done await_header i' evs /\ queue_ i' = queue_ demo_instance.
Proof.
  destruct (routed_message_relayed first_element 1 [] 0 demo_read_node demo_read_node (fun _ _ _ => 0) (fun _ => []) 30
    demo_routed [0; 0; 0; 3; 0; 0; 0; 5; 42] 3 5 (mk_deserializer [0; 0; 0; 5; 42] None)
    (mk_deserializer [42] None) demo_instance) as (i' & evs & E & Eq & _).
  - reflexivity.
  - reflexivity.
  - unfold wf_header, is_uint. simpl. lia.
  - vm_compute. reflexivity.
  - vm_compute. reflexivity.
  - discriminate.
  - exists i', evs. split; [exact E|exact Eq].
Defined.

Definition demo_direct_header (source : Z) : header := mk_header direct_message 0 1 77 source 9.

Lemma handler_settles_id_witness :
  settles 5 [queue_push 5 9 (Some 103) (MessageId.make_normal 77) (msg_other 42)].
Proof.
  apply (handler_settles_id 1 Some None None (fun n a => n * 100 + a) demo_read_node demo_read_message
    5 1 (demo_direct_header 3) [42]).
  vm_compute. reflexivity.
Defined.

Lemma malformed_anonymous_message_witness :
  handle_remote_message 1 Some None None (fun n a => n * 100 + a) demo_read_node demo_read_message
    5 1 (demo_direct_header 0) [] = NullSender.
Proof.
  apply (malformed_anonymous_message 1 Some None None (fun n a => n * 100 + a) demo_read_node
    demo_read_message 5 1 (demo_direct_header 0) [] 9 (mk_deserializer [] (Some end_of_stream))).
  - reflexivity.
  - reflexivity.
  - reflexivity.
  - vm_compute. reflexivity.
Defined.

Lemma remote_message_id_witness :
  MessageId.is_urgent_message (MessageId.make_high 7) = true /\
  MessageId.is_urgent_message (MessageId.make_normal (MessageId.integer_value (MessageId.make_high 7))) = false.
Proof.
  split; [vm_compute; reflexivity|].
  apply (remote_message_id (MessageId.make_high 7)).
  - vm_compute. split; congruence.
  - vm_compute. congruence.
Defined.

(** Actor 8 of this node sends to actor 9 of node 5, which is behind node 3. *)
Lemma dispatch_correct_witness :
  exists ok evs i', dispatch first_element 1 demo_write_node (Some (1, 8)) 5 9 0 (MessageId.make_normal 77)
      (BinarySerializer.value_span [42]) (fun _ => []) demo_instance = Some (ok, evs, i') /\
    (ok = true <-> reachable demo_table 5).
Proof.
  assert (forall n, is_uint 32 n -> emits (demo_write_node n) (be_bytes 4 n)) as Hn.
  { intros n Hn s Hs. unfold demo_write_node. rewrite int_value_write, uwrap_id; [done|done|].
    unfold BinarySerializer.wf. rewrite Hs. pose proof (zlen_nonneg (buf_ s)). lia. }
  destruct (dispatch_correct first_element 1 demo_write_node (Some (1, 8)) 5 9 0 (MessageId.make_normal 77)
    (BinarySerializer.value_span [42]) [42] (be_bytes 4 1) (be_bytes 4 5) (fun _ => []) demo_instance)
    as (ok & evs & i' & E & H & _).
  - apply (writer_emits [42]).
  - apply Hn. unfold is_uint. lia.
  - apply Hn. unfold is_uint. lia.
  - unfold is_uint. lia.
  - unfold is_uint. lia.
  - unfold is_uint. lia.
  - vm_compute. split; congruence.
  - vm_compute. split; congruence.
  - vm_compute. congruence.
  - exists ok, evs, i'. split; [exact E|exact H].
Defined.

End BaspInstance.
