(* ===== verification/Base64.v ===== *)
(** * Base64 (libcaf_core/caf/detail/base64.cpp) *)

From S2P Require Import Prelude.

Module Base64.

#[local] Open Scope caf_scope.

(** The tables, character by character. *)
Definition decoding_tbl : list Z :=
  [0; 0; 0; 0; 0; 0; 0; 0; 0; 0; 0; 0; 0; 0; 0; 0;
   0; 0; 0; 0; 0; 0; 0; 0; 0; 0; 0; 0; 0; 0; 0; 0;
   0; 0; 0; 0; 0; 0; 0; 0; 0; 0; 0; 62; 0; 0; 0; 63;
   52; 53; 54; 55; 56; 57; 58; 59; 60; 61; 0; 0; 0; 0; 0; 0;
   0; 0; 1; 2; 3; 4; 5; 6; 7; 8; 9; 10; 11; 12; 13; 14;
   15; 16; 17; 18; 19; 20; 21; 22; 23; 24; 25; 0; 0; 0; 0; 0;
   0; 26; 27; 28; 29; 30; 31; 32; 33; 34; 35; 36; 37; 38; 39; 40;
   41; 42; 43; 44; 45; 46; 47; 48; 49; 50; 51; 0; 0; 0; 0; 0].

Definition encoding_tbl : list Z :=
  [65; 66; 67; 68; 69; 70; 71; 72; 73; 74; 75; 76; 77; 78; 79; 80;
   81; 82; 83; 84; 85; 86; 87; 88; 89; 90;
   97; 98; 99; 100; 101; 102; 103; 104; 105; 106; 107; 108; 109; 110; 111; 112;
   113; 114; 115; 116; 117; 118; 119; 120; 121; 122;
   48; 49; 50; 51; 52; 53; 54; 55; 56; 57; 43; 47].

(** The padding character. *)
Definition pad_char : Z := 61.

Definition enc (x : Z) : Z := List.nth (Z.to_nat x) encoding_tbl 0.

(** The lambda [consume] of [encode_impl]. *)
Definition consume (s0 s1 s2 : Z) (out : bytes) : bytes :=
  out ++ map enc
    [(s0 .& 0xfc) .>> 2;
     ((s0 .& 0x03) .<< 4) + ((s1 .& 0xf0) .>> 4);
     ((s1 .& 0x0f) .<< 2) + ((s2 .& 0xc0) .>> 6);
     s2 .& 0x3f].

(** The fix-up of the last [n] characters. *)
Definition fixup (n : nat) (out : bytes) : bytes :=
  take (length out - n) out ++ replicate n pad_char.

(** [encode_impl]: appends to [out]; chunks of three, then the leftover. *)
Fixpoint encode (input out : bytes) : bytes :=
  match input with
  | s0 :: s1 :: s2 :: rest => encode rest (consume s0 s1 s2 out)
  | [s0; s1] => fixup 1 (consume s0 s1 0 out)
  | [s0] => fixup 2 (consume s0 0 0 out)
  | [] => out
  end.

Definition val (c : Z) : Z := List.nth (Z.to_nat (c .& 0x7F)) decoding_tbl 0.

(** One round of the decoding loop. *)
Definition decode_group (c0 c1 c2 c3 : Z) : bytes :=
  let bits := ((val c0 .<< 18) .| (val c1 .<< 12)) .| (val c2 .<< 6) .| val c3 in
  [(bits .& 0xFF0000) .>> 16; (bits .& 0x00FF00) .>> 8; bits .& 0x0000FF].

Fixpoint decode_loop (input : bytes) : bytes :=
  match input with
  | c0 :: c1 :: c2 :: c3 :: rest => decode_group c0 c1 c2 c3 ++ decode_loop rest
  | _ => []
  end.

(** [out.pop_back()], [n] times. *)
Definition pop_back (n : nat) (out : bytes) : bytes := take (length out - n) out.

(** [decode_impl]: the returned flag and the output. *)
Definition decode (input out : bytes) : bool * bytes :=
  match input with
  | [] => (true, out)
  | _ =>
      if negb (zlen input mod 4 =? 0) then (false, out) else
      let out' := out ++ decode_loop input in
      let s := length input in
      if List.nth (s - 2) input 0 =? pad_char then (true, pop_back 2 out')
      else if List.nth (s - 1) input 0 =? pad_char then (true, pop_back 1 out')
      else (true, out')
  end.

(** ** Reference *)

(** The four 6-bit groups of three bytes. *)
Definition sextets (a b c : Z) : list Z :=
  [a / 4; a mod 4 * 16 + b / 16; b mod 16 * 4 + c / 64; c mod 64].

(** RFC 4648: groups of three bytes as four characters, the last group padded
    with zero bits and its unused characters written as [=]. *)
Fixpoint reference (input : bytes) : bytes :=
  match input with
  | a :: b :: c :: rest => map enc (sextets a b c) ++ reference rest
  | [a; b] => take 3 (map enc (sextets a b 0)) ++ [pad_char]
  | [a] => take 2 (map enc (sextets a 0 0)) ++ [pad_char; pad_char]
  | [] => []
  end.

(** ** Lemmas *)

(** Induction in steps of three. *)
Lemma list_ind3 {A} (P : list A -> Prop) :
  P [] -> (forall x, P [x]) -> (forall x y, P [x; y]) ->
  (forall x y z l, P l -> P (x :: y :: z :: l)) -> forall l, P l.
Proof.
  intros H0 H1 H2 H3. enough (forall l, P l /\ (forall x, P (x :: l)) /\ (forall x y, P (x :: y :: l))) as H
    by (intros l; apply H).
  induction l as [|a l (IH1 & IH2 & IH3)]; [auto|]. split; [apply IH2|]. split; [intros x; apply IH3|].
  intros x y. by apply H3.
Qed.

Lemma consume_sextets a b c out :
  is_byte a -> is_byte b -> is_byte c -> consume a b c out = out ++ map enc (sextets a b c).
Proof.
  intros Ha Hb Hc. unfold consume, sextets. do 3 f_equal;
    [| f_equal; [| f_equal; [|f_equal]]].
  all: unfold is_byte in *.
  - pose proof (forall_byteb_spec (fun x => (Z.land x 0xfc .>> 2) =? x / 4) a) as H.
    apply Z.eqb_eq, H; [vm_compute; reflexivity|done].
  - pose proof (forall_byteb_spec (fun x => (Z.land x 0x03 .<< 4) =? x mod 4 * 16) a) as H1.
    pose proof (forall_byteb_spec (fun x => (Z.land x 0xf0 .>> 4) =? x / 16) b) as H2.
    f_equal; apply Z.eqb_eq; [apply H1|apply H2]; try done; vm_compute; reflexivity.
  - pose proof (forall_byteb_spec (fun x => (Z.land x 0x0f .<< 2) =? x mod 16 * 4) b) as H1.
    pose proof (forall_byteb_spec (fun x => (Z.land x 0xc0 .>> 6) =? x / 64) c) as H2.
    f_equal; apply Z.eqb_eq; [apply H1|apply H2]; try done; vm_compute; reflexivity.
  - pose proof (forall_byteb_spec (fun x => Z.land x 0x3f =? x mod 64) c) as H.
    apply Z.eqb_eq, H; [vm_compute; reflexivity|done].
Qed.

Lemma fixup_last out n x :
  (n <= length x)%nat -> fixup n (out ++ x) = out ++ take (length x - n) x ++ replicate n pad_char.
Proof.
  intros H. unfold fixup. rewrite length_app, take_app, <- app_assoc.
  replace (length out + length x - n - length out)%nat with (length x - n)%nat by lia.
  rewrite (take_ge out) by lia. done.
Qed.

Lemma encode_reference input out : all_bytes input -> encode input out = out ++ reference input.
Proof.
  revert out. induction input as [|a|a b|a b c l IH] using list_ind3; intros out Hb.
  - by rewrite app_nil_r.
  - apply Forall_cons in Hb as [Ha _]. cbn [encode reference].
    rewrite consume_sextets by done. by rewrite fixup_last by (simpl; lia).
  - apply Forall_cons in Hb as [Ha Hb]. apply Forall_cons in Hb as [Hb _]. cbn [encode reference].
    rewrite consume_sextets by done. by rewrite fixup_last by (simpl; lia).
  - apply Forall_cons in Hb as [Ha Hb]. apply Forall_cons in Hb as [Hb Hl].
    apply Forall_cons in Hl as [Hc Hl]. cbn [encode reference].
    rewrite consume_sextets, IH by done. by rewrite app_assoc.
Qed.

Lemma val_enc x : 0 <= x < 64 -> val (enc x) = x /\ enc x <> pad_char /\ is_byte (enc x).
Proof.
  intros Hx.
  pose proof (forall_byteb_spec (fun x => negb (x <? 64) || ((val (enc x) =? x) && negb (enc x =? pad_char)
    && is_byteb (enc x))) x) as H.
  specialize (H ltac:(vm_compute; reflexivity) ltac:(unfold is_byte; lia)). cbv beta in H.
  rewrite (proj2 (Z.ltb_lt x 64)) in H by lia. cbn [negb orb] in H. reflect_bools.
  split_and!; try done. by apply is_byteb_spec.
Qed.

Lemma val_pad : val pad_char = 0.
Proof. done. Qed.

Lemma decode_group_vals c0 c1 c2 c3 a b c :
  is_byte a -> is_byte b -> is_byte c ->
  [val c0; val c1; val c2; val c3] = sextets a b c -> decode_group c0 c1 c2 c3 = [a; b; c].
Proof.
  unfold is_byte, sextets, decode_group. intros Ha Hb Hc [= -> -> -> ->].
  set (bits := _ .| _).
  assert (bits = a * 65536 + b * 256 + c) as ->.
  { unfold bits. rewrite <- !Z.lor_assoc.
    rewrite (lor_shiftl_add _ _ 6) by (Z.div_mod_to_equations; lia).
    rewrite (lor_shiftl_add _ _ 12) by (Z.div_mod_to_equations; lia).
    rewrite (lor_shiftl_add _ _ 18) by (Z.div_mod_to_equations; lia).
    Z.div_mod_to_equations. lia. }
  change 0xFF0000 with (Z.ones 8 .<< 16). change 0x00FF00 with (Z.ones 8 .<< 8).
  change 0x0000FF with (Z.ones 8).
  rewrite !land_shifted by lia. rewrite !Z.shiftr_shiftl_l, !Z.sub_diag, !Z.shiftl_0_r by lia.
  rewrite !Z.land_ones, !Z.shiftr_div_pow2 by lia.
  f_equal; [|f_equal; [|f_equal]]; Z.div_mod_to_equations; lia.
Qed.

Lemma sextets_range a b c :
  is_byte a -> is_byte b -> is_byte c -> Forall (fun x => 0 <= x < 64) (sextets a b c).
Proof. unfold is_byte. intros. repeat constructor; Z.div_mod_to_equations; lia. Qed.

(** The groups of an unpadded part decode to its bytes. *)
Lemma decode_group_bytes a b c :
  is_byte a -> is_byte b -> is_byte c ->
  decode_loop (map enc (sextets a b c)) = [a; b; c].
Proof.
  intros Ha Hb Hc. pose proof (sextets_range a b c Ha Hb Hc) as H. unfold sextets in *.
  rewrite !Forall_cons in H. destruct H as (H0 & H1 & H2 & H3 & _). cbn [map decode_loop].
  rewrite (decode_group_vals _ _ _ _ a b c); [done..|].
  by rewrite (proj1 (val_enc _ H0)), (proj1 (val_enc _ H1)), (proj1 (val_enc _ H2)), (proj1 (val_enc _ H3)).
Qed.

(** The bytes a padded group decodes to before the fix-up. *)
Definition padding (input : bytes) : nat := (3 - length input mod 3) mod 3.

Lemma padding_step (a b c : Z) l : padding (a :: b :: c :: l) = padding l.
Proof.
  unfold padding. cbn [length]. replace (S (S (S (length l)))) with (length l + 1 * 3)%nat by lia.
  by rewrite Nat.Div0.mod_add.
Qed.

Lemma decode_loop_reference input :
  all_bytes input -> decode_loop (reference input) = input ++ replicate (padding input) 0.
Proof.
  induction input as [|a|a b|a b c l IH] using list_ind3; intros Hb.
  - done.
  - apply Forall_cons in Hb as [Ha _].
    pose proof (sextets_range a 0 0 Ha ltac:(done) ltac:(done)) as H. cbn [reference].
    unfold sextets in H |- *. rewrite !Forall_cons in H. destruct H as (H0 & H1 & _).
    cbn [map take app decode_loop]. rewrite (decode_group_vals _ _ _ _ a 0 0); [done..|].
    by rewrite (proj1 (val_enc _ H0)), (proj1 (val_enc _ H1)).
  - apply Forall_cons in Hb as [Ha Hb]. apply Forall_cons in Hb as [Hb _].
    pose proof (sextets_range a b 0 Ha Hb ltac:(done)) as H. cbn [reference].
    unfold sextets in H |- *. rewrite !Forall_cons in H. destruct H as (H0 & H1 & H2 & _).
    cbn [map take app decode_loop]. rewrite (decode_group_vals _ _ _ _ a b 0); [done..|].
    by rewrite (proj1 (val_enc _ H0)), (proj1 (val_enc _ H1)), (proj1 (val_enc _ H2)).
  - apply Forall_cons in Hb as [Ha Hb]. apply Forall_cons in Hb as [Hb Hl].
    apply Forall_cons in Hl as [Hc Hl]. rewrite padding_step. cbn [reference].
    change ((a :: b :: c :: l) ++ replicate (padding l) 0) with ([a; b; c] ++ l ++ replicate (padding l) 0).
    rewrite <- IH by done. rewrite <- (decode_group_bytes a b c) by done. reflexivity.
Qed.

Lemma reference_length input : length (reference input) = (4 * ((length input + 2) / 3))%nat.
Proof.
  induction input as [|a|a b|a b c l IH] using list_ind3; [done..|].
  cbn [reference length]. rewrite length_app, IH. cbn [map sextets length].
  replace (S (S (S (length l))) + 2)%nat with (length l + 2 + 1 * 3)%nat by lia.
  rewrite Nat.div_add by lia. lia.
Qed.

(** The last two characters show the amount of padding. *)
Lemma reference_tail input :
  all_bytes input -> input <> [] ->
  exists pre c2 c3, reference input = pre ++ [c2; c3] /\
    (c2 =? pad_char) = (padding input =? 2)%nat /\ (c3 =? pad_char) = negb (padding input =? 0)%nat.
Proof.
  induction input as [|a|a b|a b c l IH] using list_ind3; intros Hb Hne; [done|..].
  - exists (take 2 (map enc (sextets a 0 0))), pad_char, pad_char. done.
  - apply Forall_cons in Hb as [Ha Hb]. apply Forall_cons in Hb as [Hb _].
    pose proof (sextets_range a b 0 Ha Hb ltac:(done)) as H.
    unfold sextets in *. rewrite !Forall_cons in H. destruct H as (_ & _ & H2 & _).
    eexists [_; _], _, _. split; [reflexivity|].
    destruct (val_enc _ H2) as (_ & Hp & _). by rewrite (proj2 (Z.eqb_neq _ _) Hp).
  - apply Forall_cons in Hb as [Ha Hb]. apply Forall_cons in Hb as [Hb Hl].
    apply Forall_cons in Hl as [Hc Hl]. rewrite padding_step. destruct l as [|d l].
    + pose proof (sextets_range a b c Ha Hb Hc) as H.
      unfold sextets in *. rewrite !Forall_cons in H. destruct H as (_ & _ & H2 & H3 & _).
      eexists [_; _], _, _. split; [reflexivity|].
      destruct (val_enc _ H2) as (_ & Hp & _). destruct (val_enc _ H3) as (_ & Hp' & _).
      by rewrite (proj2 (Z.eqb_neq _ _) Hp), (proj2 (Z.eqb_neq _ _) Hp').
    + destruct IH as (pre & c2 & c3 & E & H2 & H3); [done|done|].
      exists (map enc (sextets a b c) ++ pre), c2, c3. split; [|done].
      rewrite <- app_assoc, <- E. reflexivity.
Qed.

Lemma pop_back_app n (out x y : bytes) :
  length y = n -> pop_back n (out ++ x ++ y) = out ++ x.
Proof.
  intros H. unfold pop_back. rewrite !length_app, H.
  replace (length out + (length x + n) - n)%nat with (length (out ++ x)) by (rewrite length_app; lia).
  by rewrite app_assoc, take_app_length.
Qed.

(** ** Claims *)

(** Base64 round trip and format.  [encode] appends exactly the RFC 4648
    encoding of its input, four characters for every started group of three
    bytes, and [decode] of this encoding succeeds and appends the original
    bytes, for every input. *)
Theorem base64_roundtrip input out out' :
  all_bytes input ->
  encode input out = out ++ reference input /\
  length (reference input) = (4 * ((length input + 2) / 3))%nat /\
  decode (reference input) out' = (true, out' ++ input).
Proof.
  intros Hb. split; [by apply encode_reference|]. split; [apply reference_length|].
  destruct (decide (input = [])) as [->|Hne]; [by rewrite app_nil_r|].
  destruct (reference_tail input Hb Hne) as (pre & c2 & c3 & E & H2 & H3).
  pose proof (decode_loop_reference input Hb) as Hd. pose proof (reference_length input) as Hl.
  assert (zlen (reference input) mod 4 = 0) as Hm.
  { unfold zlen. rewrite Hl, Nat2Z.inj_mul, Z.mul_comm. apply Z.mod_mul. lia. }
  unfold decode. destruct (reference input) as [|c l] eqn:Er; [by destruct pre|]. rewrite <- Er in *.
  rewrite Hm. cbn [negb Z.eqb]. rewrite Hd.
  assert (List.nth (length (reference input) - 2) (reference input) 0 = c2) as ->.
  { rewrite E, length_app, List.app_nth2 by (simpl; lia).
    cbn [length]. replace (length pre + 2 - 2 - length pre)%nat with 0%nat by lia. done. }
  assert (List.nth (length (reference input) - 1) (reference input) 0 = c3) as ->.
  { rewrite E, length_app, List.app_nth2 by (simpl; lia).
    cbn [length]. replace (length pre + 2 - 1 - length pre)%nat with 1%nat by lia. done. }
  rewrite H2, H3.
  assert (padding input < 3)%nat as Hp by (unfold padding; apply Nat.mod_upper_bound; lia).
  destruct (padding input) as [|[|[|n]]]; [..|lia]; cbn [Nat.eqb negb].
  - by rewrite app_nil_r.
  - by rewrite pop_back_app.
  - by rewrite pop_back_app.
Qed.

Lemma base64_roundtrip_witness :
  encode [102; 111; 111; 98] [] = [90; 109; 57; 118; 89; 103; 61; 61] /\
  decode [90; 109; 57; 118; 89; 103; 61; 61] [7] = (true, [7; 102; 111; 111; 98]).
Proof.
  destruct (base64_roundtrip [102; 111; 111; 98] [] [7]) as (E & _ & D).
  - repeat constructor; lia.
  - split; [exact E|exact D].
Defined.

(** Decoding does not validate its alphabet: any character outside the
    Base64 alphabet, and the padding character in any position, decodes like
    [A]; only the length of the input is checked. *)
Theorem base64_decode_unchecked c0 c1 c2 c3 out :
  (forall c, is_byte c -> c ∉ encoding_tbl -> c < 128 -> val c = val 65) /\
  (decode [c0; c1; c2; c3] out).1 = true /\
  (decode [c0; c1; c2] out).1 = false.
Proof.
  split; [|split].
  - intros c Hc Hn Hlt.
    pose proof (forall_byteb_spec (fun c => bool_decide (c ∈ encoding_tbl) || negb (c <? 128) || (val c =? val 65)) c) as H.
    specialize (H ltac:(vm_compute; reflexivity) Hc). cbv beta in H.
    rewrite bool_decide_false, (proj2 (Z.ltb_lt c 128)) in H by done. cbn [negb orb] in H. by reflect_bools.
  - unfold decode. change (zlen [c0; c1; c2; c3] mod 4 =? 0) with true. cbn [negb].
    cbn [length Nat.sub List.nth]. by destruct (c2 =? pad_char), (c3 =? pad_char).
  - done.
Qed.

End Base64.
