(* ===== verification/Rfc3629.v ===== *)
(** * UTF-8 validation (libcaf_core/caf/detail/rfc3629.cpp)

    The validator accepts exactly the concatenations of UTF-8 encodings of
    Unicode scalar values; for other inputs it reports the longest valid prefix
    and whether more input could make the rest valid, which the WebSocket layer
    uses to check text messages fragment by fragment. *)

From S2P Require Import Prelude.

Module Rfc3629.

#[local] Open Scope caf_scope.

(** [head<N>(value)]: the first [N] bits. *)
Definition head (n : nat) (value : byte) : byte :=
  match n with
  | 1 => value .& 0x80
  | 2 => value .& 0xC0
  | 3 => value .& 0xE0
  | 4 => value .& 0xF0
  | 5 => value .& 0xF8
  | 6 => value .& 0xFC
  | _ => value .& 0xFE
  end%nat.

Definition is_continuation_byte (value : byte) : bool := head 2 value =? 0x80.

(** The outcome of one iteration: the loop continues behind the character, or
    the function returns the checkpoint with the flag for incomplete input. *)
Inductive scanned :=
| Next (rest : bytes)
| Stop (incomplete : bool).

(** The body of the [while] loop, [x] being the byte just read and [first] the
    bytes after it. *)
Definition scan_char (x : byte) (first : bytes) : scanned :=
  if head 1 x =? 0x00 then Next first
  else if head 3 x =? 0xC0 then
    if head 7 x =? 0xC0 then Stop false else
    match first with
    | [] => Stop true
    | b1 :: first1 => if negb (is_continuation_byte b1) then Stop false else Next first1
    end
  else if head 4 x =? 0xE0 then
    match first with
    | [] => Stop true
    | b1 :: first1 =>
        if negb (is_continuation_byte b1) then Stop false
        else if (x =? 0xE0) && (head 3 b1 =? 0x80) then Stop false
        else if (x =? 0xED) && (head 3 b1 =? 0xA0) then Stop false
        else match first1 with
             | [] => Stop true
             | b2 :: first2 => if negb (is_continuation_byte b2) then Stop false else Next first2
             end
    end
  else if head 5 x =? 0xF0 then
    if 0xF4 <? x then Stop false else
    match first with
    | [] => Stop true
    | b1 :: first1 =>
        if negb (is_continuation_byte b1) then Stop false
        else if (x =? 0xF0) && (head 4 b1 =? 0x80) then Stop false
        else if (x =? 0xF4) && (0x90 <=? b1) then Stop false
        else match first1 with
             | [] => Stop true
             | b2 :: first2 =>
                 if negb (is_continuation_byte b2) then Stop false else
                 match first2 with
                 | [] => Stop true
                 | b3 :: first3 => if negb (is_continuation_byte b3) then Stop false else Next first3
                 end
             end
    end
  else Stop false.

(** [validate_rfc3629]: the bytes behind the returned pointer and the flag.
    Every iteration consumes a byte, so the length is enough fuel. *)
Fixpoint validate_rfc3629 (fuel : nat) (bs : bytes) : bytes * bool :=
  match fuel, bs with
  | _, [] => ([], false)
  | O, _ => (bs, false)
  | S fuel', x :: first =>
      match scan_char x first with
      | Next rest => validate_rfc3629 fuel' rest
      | Stop incomplete => (bs, incomplete)
      end
  end.

Definition valid (bs : bytes) : bool :=
  match (validate_rfc3629 (length bs) bs).1 with [] => true | _ => false end.

Definition validate (bs : bytes) : Z * bool :=
  let (rest, incomplete) := validate_rfc3629 (length bs) bs in
  (zlen bs - zlen rest, incomplete).

(** ** Reference *)

(** Unicode scalar values: code points without the surrogates. *)
Definition scalar (c : Z) : Prop := 0 <= c < 0x110000 /\ ~ (0xD800 <= c < 0xE000).

(** The encoding of RFC 3629, section 3. *)
Definition utf8 (c : Z) : bytes :=
  if c <? 0x80 then [c]
  else if c <? 0x800 then [0xC0 + c / 64; 0x80 + c mod 64]
  else if c <? 0x10000 then [0xE0 + c / 4096; 0x80 + c / 64 mod 64; 0x80 + c mod 64]
  else [0xF0 + c / 262144; 0x80 + c / 4096 mod 64; 0x80 + c / 64 mod 64; 0x80 + c mod 64].

(** Sequences of encoded characters. *)
Definition well_formed (bs : bytes) : Prop := exists cs, Forall scalar cs /\ bs = flat_map utf8 cs.

(** ** Bit tests as ranges *)

Ltac by_bytes P x Hx :=
  let H := fresh in
  pose proof (forall_byteb_spec P x) as H; specialize (H ltac:(vm_compute; reflexivity) Hx);
  cbv beta in H; apply eqb_prop in H; exact H.

Lemma head1_range x : is_byte x -> (head 1 x =? 0x00) = (x <? 0x80).
Proof. intros Hx. by_bytes (fun x => Bool.eqb (head 1 x =? 0x00) (x <? 0x80)) x Hx. Qed.

Lemma head3_range x : is_byte x -> (head 3 x =? 0xC0) = (0xC0 <=? x) && (x <? 0xE0).
Proof. intros Hx. by_bytes (fun x => Bool.eqb (head 3 x =? 0xC0) ((0xC0 <=? x) && (x <? 0xE0))) x Hx. Qed.

Lemma head7_range x : is_byte x -> (head 7 x =? 0xC0) = (0xC0 <=? x) && (x <? 0xC2).
Proof. intros Hx. by_bytes (fun x => Bool.eqb (head 7 x =? 0xC0) ((0xC0 <=? x) && (x <? 0xC2))) x Hx. Qed.

Lemma head4_range x : is_byte x -> (head 4 x =? 0xE0) = (0xE0 <=? x) && (x <? 0xF0).
Proof. intros Hx. by_bytes (fun x => Bool.eqb (head 4 x =? 0xE0) ((0xE0 <=? x) && (x <? 0xF0))) x Hx. Qed.

Lemma head5_range x : is_byte x -> (head 5 x =? 0xF0) = (0xF0 <=? x) && (x <? 0xF8).
Proof. intros Hx. by_bytes (fun x => Bool.eqb (head 5 x =? 0xF0) ((0xF0 <=? x) && (x <? 0xF8))) x Hx. Qed.

Lemma head3_low x : is_byte x -> (head 3 x =? 0x80) = (0x80 <=? x) && (x <? 0xA0).
Proof. intros Hx. by_bytes (fun x => Bool.eqb (head 3 x =? 0x80) ((0x80 <=? x) && (x <? 0xA0))) x Hx. Qed.

Lemma head3_high x : is_byte x -> (head 3 x =? 0xA0) = (0xA0 <=? x) && (x <? 0xC0).
Proof. intros Hx. by_bytes (fun x => Bool.eqb (head 3 x =? 0xA0) ((0xA0 <=? x) && (x <? 0xC0))) x Hx. Qed.

Lemma head4_low x : is_byte x -> (head 4 x =? 0x80) = (0x80 <=? x) && (x <? 0x90).
Proof. intros Hx. by_bytes (fun x => Bool.eqb (head 4 x =? 0x80) ((0x80 <=? x) && (x <? 0x90))) x Hx. Qed.

Lemma continuation_range x : is_byte x -> is_continuation_byte x = (0x80 <=? x) && (x <? 0xC0).
Proof. intros Hx. by_bytes (fun x => Bool.eqb (is_continuation_byte x) ((0x80 <=? x) && (x <? 0xC0))) x Hx. Qed.

(** Replaces the bit tests on known bytes by range tests and splits them. *)
Ltac ranges :=
  repeat match goal with
  | H : is_byte ?x |- context [head 1 ?x =? 0x00] => rewrite (head1_range x H)
  | H : is_byte ?x |- context [head 3 ?x =? 0xC0] => rewrite (head3_range x H)
  | H : is_byte ?x |- context [head 7 ?x =? 0xC0] => rewrite (head7_range x H)
  | H : is_byte ?x |- context [head 4 ?x =? 0xE0] => rewrite (head4_range x H)
  | H : is_byte ?x |- context [head 5 ?x =? 0xF0] => rewrite (head5_range x H)
  | H : is_byte ?x |- context [head 3 ?x =? 0x80] => rewrite (head3_low x H)
  | H : is_byte ?x |- context [head 3 ?x =? 0xA0] => rewrite (head3_high x H)
  | H : is_byte ?x |- context [head 4 ?x =? 0x80] => rewrite (head4_low x H)
  | H : is_byte ?x |- context [is_continuation_byte ?x] => rewrite (continuation_range x H)
  end.

(** Evaluates a boolean condition that linear arithmetic decides. *)
Ltac decide_if :=
  match goal with
  | |- context [if ?b then _ else _] =>
      first [ replace b with true by (unfold is_byte in *; lia)
            | replace b with false by (unfold is_byte in *; lia) ]
  end.

(** ** One character *)

Lemma utf8_bytes c : scalar c -> all_bytes (utf8 c).
Proof.
  intros [Hc _]. unfold utf8. repeat case_if; repeat constructor; unfold is_byte;
    Z.div_mod_to_equations; lia.
Qed.

(** The body accepts every encoded character. *)
Lemma scan_utf8 c rest :
  scalar c -> exists x tl, utf8 c = x :: tl /\ scan_char x (tl ++ rest) = Next rest.
Proof.
  intros Hc. pose proof (utf8_bytes c Hc) as Hb. destruct Hc as [Hc Hs]. unfold utf8, all_bytes in *.
  destruct (Z.ltb_spec c 0x80); [|destruct (Z.ltb_spec c 0x800); [|destruct (Z.ltb_spec c 0x10000)]].
  - do 2 eexists. split; [reflexivity|]. apply Forall_cons in Hb as [Hx _].
    unfold scan_char. ranges. by decide_if.
  - do 2 eexists. split; [reflexivity|]. cbn [app]. rewrite !Forall_cons in Hb. destruct Hb as (Hx & B1 & _).
    set (x := 0xC0 + c / 64) in *. set (b1 := 0x80 + c mod 64) in *.
    assert (0xC2 <= x < 0xE0 /\ 0x80 <= b1 < 0xC0) by (unfold x, b1; Z.div_mod_to_equations; lia).
    clearbody x b1. unfold scan_char. ranges. by repeat decide_if.
  - do 2 eexists. split; [reflexivity|]. cbn [app]. rewrite !Forall_cons in Hb.
    destruct Hb as (Hx & B1 & B2 & _).
    set (x := 0xE0 + c / 4096) in *. set (b1 := 0x80 + c / 64 mod 64) in *. set (b2 := 0x80 + c mod 64) in *.
    assert (0xE0 <= x < 0xF0 /\ 0x80 <= b1 < 0xC0 /\ 0x80 <= b2 < 0xC0 /\ (x = 0xE0 -> 0xA0 <= b1) /\
      (x = 0xED -> b1 < 0xA0)) by (unfold x, b1, b2; Z.div_mod_to_equations; lia).
    clearbody x b1 b2. unfold scan_char. ranges. by repeat decide_if.
  - do 2 eexists. split; [reflexivity|]. cbn [app]. rewrite !Forall_cons in Hb.
    destruct Hb as (Hx & B1 & B2 & B3 & _).
    set (x := 0xF0 + c / 262144) in *. set (b1 := 0x80 + c / 4096 mod 64) in *.
    set (b2 := 0x80 + c / 64 mod 64) in *. set (b3 := 0x80 + c mod 64) in *.
    assert (0xF0 <= x <= 0xF4 /\ 0x80 <= b1 < 0xC0 /\ 0x80 <= b2 < 0xC0 /\ 0x80 <= b3 < 0xC0 /\
      (x = 0xF0 -> 0x90 <= b1) /\ (x = 0xF4 -> b1 < 0x90))
      by (unfold x, b1, b2, b3; Z.div_mod_to_equations; lia).
    clearbody x b1 b2 b3. unfold scan_char. ranges. by repeat decide_if.
Qed.

(** Characters from their bytes. *)
Lemma utf8_of_2 x b1 :
  0xC2 <= x < 0xE0 -> 0x80 <= b1 < 0xC0 -> exists c, scalar c /\ utf8 c = [x; b1].
Proof.
  intros Hx H1. exists ((x - 0xC0) * 64 + (b1 - 0x80)). unfold scalar. split; [lia|].
  unfold utf8. repeat decide_if. f_equal; [|f_equal]; Z.div_mod_to_equations; lia.
Qed.

Lemma utf8_of_3 x b1 b2 :
  0xE0 <= x < 0xF0 -> 0x80 <= b1 < 0xC0 -> 0x80 <= b2 < 0xC0 ->
  (x = 0xE0 -> 0xA0 <= b1) -> (x = 0xED -> b1 < 0xA0) -> exists c, scalar c /\ utf8 c = [x; b1; b2].
Proof.
  intros Hx H1 H2 Hlo Hhi. exists ((x - 0xE0) * 4096 + (b1 - 0x80) * 64 + (b2 - 0x80)).
  unfold scalar. split; [lia|].
  unfold utf8. repeat decide_if. f_equal; [|f_equal; [|f_equal]]; Z.div_mod_to_equations; lia.
Qed.

Lemma utf8_of_4 x b1 b2 b3 :
  0xF0 <= x <= 0xF4 -> 0x80 <= b1 < 0xC0 -> 0x80 <= b2 < 0xC0 -> 0x80 <= b3 < 0xC0 ->
  (x = 0xF0 -> 0x90 <= b1) -> (x = 0xF4 -> b1 < 0x90) -> exists c, scalar c /\ utf8 c = [x; b1; b2; b3].
Proof.
  intros Hx H1 H2 H3 Hlo Hhi.
  exists ((x - 0xF0) * 262144 + (b1 - 0x80) * 4096 + (b2 - 0x80) * 64 + (b3 - 0x80)).
  unfold scalar. split; [lia|].
  unfold utf8. repeat decide_if.
  f_equal; [|f_equal; [|f_equal; [|f_equal]]]; Z.div_mod_to_equations; lia.
Qed.

(** What each outcome of the body says about the bytes. *)
Definition explains (bs : bytes) (r : scanned) : Prop :=
  match r with
  | Next rest => exists c, scalar c /\ bs = utf8 c ++ rest
  | Stop true => exists c more, scalar c /\ more <> [] /\ utf8 c = bs ++ more
  | Stop false => True
  end.

Lemma scan_explains x first : all_bytes (x :: first) -> explains (x :: first) (scan_char x first).
Proof.
  intros Hb. apply Forall_cons in Hb as [Hx Hb]. unfold scan_char. ranges. unfold is_byte in Hx.
  destruct (x <? 0x80) eqn:E1.
  { exists x. split; [unfold scalar; lia|]. unfold utf8. by decide_if. }
  destruct ((0xC0 <=? x) && (x <? 0xE0)) eqn:E2.
  { destruct ((0xC0 <=? x) && (x <? 0xC2)) eqn:E3; [done|].
    destruct first as [|b1 first].
    - destruct (utf8_of_2 x 0x80) as (c & Hc & E); [lia..|]. exists c, [0x80]. by rewrite E.
    - apply Forall_cons in Hb as [B1 _]. ranges. unfold is_byte in B1.
      match goal with |- context [negb ?b] => destruct b eqn:E4 end; cbn [negb]; [|done].
      destruct (utf8_of_2 x b1) as (c & Hc & E); [lia..|]. exists c. by rewrite E. }
  destruct ((0xE0 <=? x) && (x <? 0xF0)) eqn:E3.
  { destruct first as [|b1 first].
    - destruct (utf8_of_3 x (if x =? 0xE0 then 0xA0 else 0x80) 0x80) as (c & Hc & E);
        [destruct (Z.eqb_spec x 0xE0); lia..|].
      exists c, [if x =? 0xE0 then 0xA0 else 0x80; 0x80]. by rewrite E.
    - apply Forall_cons in Hb as [B1 Hb]. ranges. unfold is_byte in B1.
      match goal with |- context [negb ?b] => destruct b eqn:E4 end; cbn [negb]; [|done]. destruct ((x =? 0xE0) && _) eqn:E5; [done|].
      destruct ((x =? 0xED) && _) eqn:E6; [done|]. destruct first as [|b2 first].
      + destruct (utf8_of_3 x b1 0x80) as (c & Hc & E); [lia..|]. exists c, [0x80]. by rewrite E.
      + apply Forall_cons in Hb as [B2 _]. ranges. unfold is_byte in B2.
        match goal with |- context [negb ?b] => destruct b eqn:E7 end; cbn [negb]; [|done].
        destruct (utf8_of_3 x b1 b2) as (c & Hc & E); [lia..|]. exists c. by rewrite E. }
  destruct ((0xF0 <=? x) && (x <? 0xF8)) eqn:E4; [|done].
  destruct (0xF4 <? x) eqn:E5; [done|]. destruct first as [|b1 first].
  { destruct (utf8_of_4 x (if x =? 0xF0 then 0x90 else 0x80) 0x80 0x80) as (c & Hc & E);
      [destruct (Z.eqb_spec x 0xF0); lia..|].
    exists c, [if x =? 0xF0 then 0x90 else 0x80; 0x80; 0x80]. by rewrite E. }
  apply Forall_cons in Hb as [B1 Hb]. ranges. unfold is_byte in B1.
  match goal with |- context [negb ?b] => destruct b eqn:E6 end; cbn [negb]; [|done]. destruct ((x =? 0xF0) && _) eqn:E7; [done|].
  destruct ((x =? 0xF4) && _) eqn:E8; [done|]. destruct first as [|b2 first].
  { destruct (utf8_of_4 x b1 0x80 0x80) as (c & Hc & E); [lia..|]. exists c, [0x80; 0x80]. by rewrite E. }
  apply Forall_cons in Hb as [B2 Hb]. ranges. unfold is_byte in B2. match goal with |- context [negb ?b] => destruct b eqn:E9 end; cbn [negb]; [|done].
  destruct first as [|b3 first].
  { destruct (utf8_of_4 x b1 b2 0x80) as (c & Hc & E); [lia..|]. exists c, [0x80]. by rewrite E. }
  apply Forall_cons in Hb as [B3 _]. ranges. unfold is_byte in B3. match goal with |- context [negb ?b] => destruct b eqn:E10 end; cbn [negb]; [|done].
  destruct (utf8_of_4 x b1 b2 b3) as (c & Hc & E); [lia..|]. exists c. by rewrite E.
Qed.

(** A malformed character stays malformed, whatever follows. *)
Lemma scan_malformed x first more :
  scan_char x first = Stop false -> scan_char x (first ++ more) = Stop false.
Proof.
  unfold scan_char. destruct first as [|b1 [|b2 [|b3 first]]]; cbn [app];
    repeat match goal with |- context [if ?b then _ else _] => destruct b end; try done;
    destruct more; done.
Qed.

(** ** Whole inputs *)

Lemma scan_shorter x first rest : scan_char x first = Next rest -> (length rest <= length first)%nat.
Proof.
  unfold scan_char.
  repeat (match goal with |- context [match ?b with _ => _ end] => destruct b end; cbn [length]);
    intros [= <-]; lia.
Qed.

(** The reference for a whole input: encoded characters, then a rest that the
    flag explains. *)
Definition judged (bs rest : bytes) (incomplete : bool) : Prop :=
  exists cs, Forall scalar cs /\ bs = flat_map utf8 cs ++ rest /\
    (rest = [] -> incomplete = false) /\
    (rest <> [] ->
     if incomplete then exists c more, scalar c /\ more <> [] /\ utf8 c = rest ++ more
     else forall more c tl, scalar c -> rest ++ more <> utf8 c ++ tl).

Lemma validate_judged fuel bs :
  (length bs <= fuel)%nat -> all_bytes bs ->
  let (rest, incomplete) := validate_rfc3629 fuel bs in judged bs rest incomplete.
Proof.
  revert bs. induction fuel as [|fuel IH]; intros [|x first] Hf Hb; try (simpl in Hf; lia);
    cbn [validate_rfc3629]; try (by exists []).
  pose proof (scan_explains x first Hb) as He. destruct (scan_char x first) as [rest|[]] eqn:Es.
  - destruct He as (c & Hc & E). pose proof (scan_shorter _ _ _ Es).
    assert (all_bytes rest) as Hr by (rewrite E in Hb; by apply Forall_app in Hb as [_ ?]).
    specialize (IH rest ltac:(simpl in Hf; lia) Hr).
    destruct (validate_rfc3629 fuel rest) as [rest' inc]. destruct IH as (cs & Hcs & E' & H1 & H2).
    exists (c :: cs). split; [by constructor|]. split; [|done].
    cbn [flat_map]. by rewrite <- app_assoc, <- E', E.
  - destruct He as (c & more & Hc & Hm & E). exists []. split_and!; try done. intros _. eauto.
  - exists []. split_and!; try done. intros _ more c tl Hc E.
    destruct (scan_utf8 c tl Hc) as (y & tl' & Eu & Hn). rewrite Eu in E. injection E as -> E.
    pose proof (scan_malformed _ _ more Es) as Hs. rewrite E in Hs. congruence.
Qed.

Lemma judged_extend bs rest inc more cs :
  judged bs rest inc -> Forall scalar cs -> bs ++ more = flat_map utf8 cs ->
  rest = [] \/ inc = true.
Proof.
  intros (ds & Hds & -> & _ & H2) Hcs E. destruct rest as [|r rest]; [by left|]. right.
  destruct inc; [done|]. specialize (H2 ltac:(done)). exfalso. revert cs Hcs E.
  induction Hds as [|d ds Hd Hds IH]; intros cs Hcs E.
  - destruct Hcs as [|c cs Hc Hcs]; [done|]. cbn [flat_map app] in E. by apply (H2 more c (flat_map utf8 cs)).
  - destruct Hcs as [|c cs Hc Hcs].
    { destruct (scan_utf8 d [] Hd) as (y & tl & Ey & _). cbn [flat_map] in E. by rewrite Ey in E. }
    cbn [flat_map] in E. rewrite <- !app_assoc in E.
    destruct (scan_utf8 d (flat_map utf8 ds ++ (r :: rest) ++ more) Hd) as (y & tl & Ey & Sy).
    destruct (scan_utf8 c (flat_map utf8 cs) Hc) as (z & tz & Ez & Sz).
    rewrite Ey, Ez in E. injection E as -> E. cbn [app] in Sy. rewrite E, Sz in Sy. injection Sy as Sy.
    apply (IH cs Hcs). rewrite <- app_assoc. by symmetry.
Qed.

(** ** Validating piece by piece *)

(** The part of the input behind the returned pointer, and the flag. *)
Definition left_over (bs : bytes) : bytes := (validate_rfc3629 (length bs) bs).1.
Definition is_incomplete (bs : bytes) : bool := (validate_rfc3629 (length bs) bs).2.

Lemma scan_more x first rest more :
  scan_char x first = Next rest -> scan_char x (first ++ more) = Next (rest ++ more).
Proof.
  unfold scan_char. destruct first as [|b1 [|b2 [|b3 first]]]; cbn [app];
    repeat match goal with |- context [if ?b then _ else _] => destruct b end;
    intros [= <-]; done.
Qed.

Lemma validate_fuel f1 f2 bs :
  (length bs <= f1)%nat -> (length bs <= f2)%nat -> validate_rfc3629 f1 bs = validate_rfc3629 f2 bs.
Proof.
  revert f2 bs. induction f1 as [|f1 IH]; intros [|f2] [|x first] H1 H2; try done; simpl in *; try lia.
  destruct (scan_char x first) as [rest|] eqn:E; [|done]. apply scan_shorter in E.
  apply IH; lia.
Qed.

(** Scanning a longer input first scans the shorter one. *)
Lemma validate_app fuel a b :
  (length a <= fuel)%nat ->
  let rest := (validate_rfc3629 fuel a).1 in
  validate_rfc3629 (length (a ++ b)) (a ++ b) = validate_rfc3629 (length (rest ++ b)) (rest ++ b).
Proof.
  revert a. induction fuel as [|fuel IH]; intros [|x first] Hf; simpl in *; try done; try lia.
  destruct (scan_char x first) as [rest|] eqn:E; [|done]. pose proof (scan_shorter _ _ _ E).
  rewrite (scan_more _ _ _ b E), <- IH by lia. apply validate_fuel; rewrite !length_app; lia.
Qed.

Lemma validate_suffix fuel a : exists pre, a = pre ++ (validate_rfc3629 fuel a).1.
Proof.
  revert a. induction fuel as [|fuel IH]; intros [|x first]; simpl; try (by exists []).
  destruct (scan_char x first) as [rest|] eqn:E; [|by exists []].
  assert (exists c, first = c ++ rest) as [c ->].
  { revert E. unfold scan_char. destruct first as [|b1 [|b2 [|b3 first]]];
      repeat match goal with |- context [if ?b then _ else _] => destruct b end;
      intros [= <-];
      first [by exists [] | by exists [b1] | by exists [b1; b2] | by exists [b1; b2; b3]]. }
  destruct (IH rest) as [pre Hp]. exists (x :: c ++ pre). simpl. f_equal.
  by rewrite <- app_assoc, <- Hp.
Qed.

Lemma left_over_app a b : left_over (a ++ b) = left_over (left_over a ++ b).
Proof. unfold left_over. by rewrite (validate_app (length a) a b). Qed.

Lemma is_incomplete_app a b : is_incomplete (a ++ b) = is_incomplete (left_over a ++ b).
Proof. unfold is_incomplete, left_over. by rewrite (validate_app (length a) a b). Qed.

Lemma left_over_suffix a : exists pre, a = pre ++ left_over a.
Proof. apply validate_suffix. Qed.

Lemma validate_stopped fuel a :
  (length a <= fuel)%nat ->
  match validate_rfc3629 fuel a with
  | (x :: first, incomplete) => scan_char x first = Stop incomplete
  | ([], incomplete) => incomplete = false
  end.
Proof.
  revert a. induction fuel as [|fuel IH]; intros [|x first] Hf; simpl in *; try done; try lia.
  destruct (scan_char x first) as [rest|] eqn:E; [|done].
  apply IH. apply scan_shorter in E. lia.
Qed.

(** Input that is neither valid nor incomplete stays so. *)
Lemma malformed_app a b :
  left_over a <> [] -> is_incomplete a = false ->
  left_over (a ++ b) <> [] /\ is_incomplete (a ++ b) = false.
Proof.
  rewrite left_over_app, is_incomplete_app. unfold left_over, is_incomplete.
  pose proof (validate_stopped (length a) a (Nat.le_refl _)) as H.
  destruct (validate_rfc3629 (length a) a) as [[|x first] inc]; [done|]. simpl in *. intros _ ->.
  by rewrite (scan_malformed _ _ b H).
Qed.

Lemma valid_left_over bs : valid bs = true <-> left_over bs = [].
Proof. unfold valid, left_over. by destruct (validate_rfc3629 _ _).1. Qed.

Lemma validate_left_over bs : validate bs = (zlen bs - zlen (left_over bs), is_incomplete bs).
Proof. unfold validate, left_over, is_incomplete. by destruct (validate_rfc3629 _ _). Qed.

(** ** Claims *)

(** C40. [valid] accepts exactly well-formed UTF-8: the concatenations of the
    RFC 3629 encodings of Unicode scalar values.  In particular overlong forms,
    surrogates and code points above 10FFFF are rejected. *)
Theorem utf8_valid_iff bs : all_bytes bs -> valid bs = true <-> well_formed bs.
Proof.
  intros Hb. unfold valid. pose proof (validate_judged (length bs) bs (Nat.le_refl _) Hb) as J.
  destruct (validate_rfc3629 (length bs) bs) as [rest inc]. simpl. split.
  - destruct rest; [|done]. intros _. destruct J as (cs & Hcs & E & _). exists cs.
    by rewrite app_nil_r in E.
  - intros (cs & Hcs & E). destruct rest as [|r rest]; [done|]. exfalso.
    assert (bs ++ [] = flat_map utf8 cs) as E' by (by rewrite app_nil_r).
    destruct (judged_extend _ _ _ _ _ J Hcs E') as [|Hi]; [done|].
    (* the rest is an incomplete character, yet the input ends in a complete one *)
    destruct J as (ds & Hds & Eb & _ & H2). specialize (H2 ltac:(done)). rewrite Hi in H2.
    destruct H2 as (c & more & Hc & Hm & Eu). rewrite E in Eb. clear E E' Hb bs Hi inc.
    revert cs Hcs Eb. induction Hds as [|d ds Hd Hds IH]; intros cs Hcs Eb.
    + destruct Hcs as [|c' cs Hc' Hcs]; [done|]. cbn [flat_map app] in Eb.
      destruct (scan_utf8 c' (flat_map utf8 cs ++ more) Hc') as (y & tl & Ey & Sy).
      destruct (scan_utf8 c [] Hc) as (z & tz & Ez & Sz).
      assert (z :: tz = (y :: tl) ++ flat_map utf8 cs ++ more) as E.
      { rewrite <- Ez, <- Ey, Eu, <- Eb, app_assoc. done. }
      injection E as -> E. rewrite app_nil_r in Sz. rewrite E, Sy in Sz. injection Sz as Sz.
      by apply app_eq_nil in Sz as [_ ?].
    + destruct Hcs as [|c' cs Hc' Hcs].
      { destruct (scan_utf8 d [] Hd) as (y & tl & Ey & _). cbn [flat_map] in Eb. by rewrite Ey in Eb. }
      cbn [flat_map] in Eb. rewrite <- !app_assoc in Eb.
      destruct (scan_utf8 d (flat_map utf8 ds ++ r :: rest) Hd) as (y & tl & Ey & Sy).
      destruct (scan_utf8 c' (flat_map utf8 cs) Hc') as (z & tz & Ez & Sz).
      rewrite Ey, Ez in Eb. injection Eb as -> Eb. rewrite Eb, Sy in Sz. injection Sz as Sz.
      by apply (IH cs Hcs).
Qed.

Lemma utf8_valid_iff_witness : well_formed [0xE2; 0x82; 0xAC; 0x41].
Proof.
  apply (utf8_valid_iff [0xE2; 0x82; 0xAC; 0x41]).
  - repeat constructor; lia.
  - vm_compute. reflexivity.
Defined.

(** [validate] supports validation piece by piece.  It returns the length
    of a prefix that is well-formed; if it reports incomplete input, some
    continuation makes the whole input well-formed; if it does not and the
    prefix is not the whole input, no continuation can. *)
Theorem utf8_validate_correct bs n incomplete :
  all_bytes bs -> validate bs = (n, incomplete) ->
  well_formed (take (Z.to_nat n) bs) /\ 0 <= n <= zlen bs /\
  (n = zlen bs -> incomplete = false) /\
  (n < zlen bs -> incomplete = true -> exists more, well_formed (bs ++ more)) /\
  (n < zlen bs -> incomplete = false -> forall more, ~ well_formed (bs ++ more)).
Proof.
  intros Hb. unfold validate. pose proof (validate_judged (length bs) bs (Nat.le_refl _) Hb) as J.
  destruct (validate_rfc3629 (length bs) bs) as [rest inc]. intros [= <- <-].
  pose proof J as (cs & Hcs & E & H1 & H2). pose proof (zlen_nonneg rest).
  assert (zlen bs = zlen (flat_map utf8 cs) + zlen rest) as El by (rewrite E; apply zlen_app).
  assert (take (Z.to_nat (zlen bs - zlen rest)) bs = flat_map utf8 cs) as ->.
  { replace (Z.to_nat (zlen bs - zlen rest)) with (length (flat_map utf8 cs)) by (unfold zlen in *; lia).
    rewrite E. apply take_app_length. }
  pose proof (zlen_nonneg (flat_map utf8 cs)).
  split; [by exists cs|]. split; [lia|]. split; [|split].
  - intros Hn. apply H1. destruct rest as [|r rest]; [done|]. rewrite zlen_cons in *.
    pose proof (zlen_nonneg rest). lia.
  - intros Hn ->. assert (rest <> []) as Hr by (intros ->; rewrite zlen_nil in *; lia).
    destruct (H2 Hr) as (c & more & Hc & _ & Eu). exists more, (cs ++ [c]). split.
    + apply Forall_app. split; [done|]. by constructor.
    + rewrite E, flat_map_app, <- app_assoc, <- Eu. simpl. by rewrite app_nil_r.
  - intros Hn -> more (ds & Hds & Ed). destruct (judged_extend _ _ _ _ _ J Hds Ed) as [->|]; [|done].
    rewrite zlen_nil in *. lia.
Qed.

Lemma utf8_validate_correct_witness :
  (exists more, well_formed ([0x41; 0xE2; 0x82] ++ more)) /\
  (forall more, ~ well_formed ([0x41; 0xC0; 0x80] ++ more)).
Proof.
  split.
  - apply (utf8_validate_correct [0x41; 0xE2; 0x82] 1 true).
    + repeat constructor; lia.
    + vm_compute. reflexivity.
    + vm_compute. reflexivity.
    + reflexivity.
  - apply (utf8_validate_correct [0x41; 0xC0; 0x80] 1 false).
    + repeat constructor; lia.
    + vm_compute. reflexivity.
    + vm_compute. reflexivity.
    + reflexivity.
Defined.

End Rfc3629.
