(* ===== verification/Rfc6455.v ===== *)
(** * WebSocket frames (libcaf_net/caf/detail/rfc6455.{hpp,cpp}) *)

From S2P Require Import Prelude NetworkOrder.

Module Rfc6455.

#[local] Open Scope caf_scope.

(** ** Constants and headers *)

Definition continuation_frame : Z := 0x00.
Definition text_frame : Z := 0x01.
Definition binary_frame : Z := 0x02.
Definition connection_close_frame : Z := 0x08.
Definition ping_frame : Z := 0x09.
Definition pong_frame : Z := 0x0A.
Definition invalid_frame : Z := 0xFF.
Definition fin_flag : Z := 0x80.

Record header := mk_header { fin : bool; opcode : Z; mask_key : Z; payload_len : Z }.

(** A default-constructed header. *)
Definition no_header : header := mk_header false invalid_frame 0 0.

Definition valid (hdr : header) : bool := negb (opcode hdr =? invalid_frame).

Definition is_control_frame (op : Z) : bool := binary_frame <? op.

(** ** Masking *)

(** The loop: [arr] is the key in network byte order, [i] the current index. *)
Fixpoint mask_loop (arr : bytes) (i : nat) (data : bytes) : bytes :=
  match data with
  | [] => []
  | x :: data' => (x .^ List.nth i arr 0) :: mask_loop arr ((i + 1) mod 4) data'
  end.

Definition mask_data (key : Z) (data : bytes) (offset : nat) : bytes :=
  let arr := le_bytes 4 (to_network_order 4 key) in
  take offset data ++ mask_loop arr (offset mod 4) (drop offset data).

(** ** Frames *)

(** [assemble_frame]: appends a frame to [out]. *)
Definition assemble_frame (op key : Z) (data out : bytes) (flags : Z) : bytes :=
  let out1 := out ++ [flags .| op] in
  let mask_bit := if key =? 0 then 0x00 else 0x80 in
  let size := zlen data in
  let out2 :=
    if size <? 126 then out1 ++ [mask_bit .| size]
    else if size <=? 65535 then
      let no_len := to_network_order 2 size in out1 ++ [mask_bit .| 126] ++ le_bytes 2 no_len
    else
      let no_len := to_network_order 8 size in out1 ++ [mask_bit .| 127] ++ le_bytes 8 no_len in
  let out3 :=
    if negb (key =? 0) then out2 ++ le_bytes 4 (to_network_order 4 key) else out2 in
  out3 ++ data.

Definition known_opcode (op : Z) : bool :=
  (op =? continuation_frame) || (op =? text_frame) || (op =? binary_frame)
  || (op =? connection_close_frame) || (op =? ping_frame) || (op =? pong_frame).

(** [decode_header]: the returned length, [0] for "need more", [-1] for
    malformed input, and the header in case of success. *)
Definition decode_header (data : bytes) : Z * option header :=
  match data with
  | byte1 :: byte2 :: p =>
      let hfin := has_bits byte1 0x80 in
      let hopcode := byte1 .& 0x0F in
      let masked := has_bits byte2 0x80 in
      let len_field := byte2 .& 0x7F in
      let header_length :=
        (if len_field <? 126 then 2 else if len_field =? 126 then 4 else 10)
        + (if masked then 4 else 0) in
      if zlen data <? header_length then (0, None) else
      let '(len, p1) :=
        if len_field =? 126 then (from_network_order 2 (le_val (take 2 p)), drop 2 p)
        else if len_field =? 127 then (from_network_order 8 (le_val (take 8 p)), drop 8 p)
        else (len_field, p) in
      let key := if masked then from_network_order 4 (le_val (take 4 p1)) else 0 in
      if has_bits byte1 0x70 then (-1, None)
      else if known_opcode hopcode then (header_length, Some (mk_header hfin hopcode key len))
      else (-1, None)
  | _ => (0, None)
  end.

(** ** Lemmas *)

Lemma mask_loop_app arr i a b :
  (i < 4)%nat ->
  mask_loop arr i (a ++ b) = mask_loop arr i a ++ mask_loop arr ((i + length a) mod 4) b.
Proof.
  revert i. induction a as [|x a IH]; intros i Hi; cbn [mask_loop app length].
  { by rewrite Nat.add_0_r, Nat.mod_small. }
  rewrite IH by (apply Nat.mod_upper_bound; lia). do 3 f_equal.
  rewrite Nat.Div0.add_mod_idemp_l. f_equal. lia.
Qed.

Lemma mask_loop_length arr i data : length (mask_loop arr i data) = length data.
Proof. revert i. induction data as [|x data IH]; intros i; simpl; [done|]. by rewrite IH. Qed.

Lemma mask_loop_involutive arr i data : mask_loop arr i (mask_loop arr i data) = data.
Proof.
  revert i. induction data as [|x data IH]; intros i; simpl; [done|]. rewrite IH. f_equal.
  rewrite Z.lxor_assoc, Z.lxor_nilpotent. apply Z.lxor_0_r.
Qed.

Lemma key_bytes key : le_bytes 4 (to_network_order 4 key) = be_bytes 4 key.
Proof. apply network_order_bytes. Qed.

Lemma land_7F x : Z.land x 0x7F = x mod 128.
Proof. change 0x7F with (Z.ones 7). by rewrite Z.land_ones by lia. Qed.

Lemma mask_data_loop key data : mask_data key data 0 = mask_loop (be_bytes 4 key) 0 data.
Proof. unfold mask_data. by rewrite key_bytes, take_0, drop_0. Qed.

Lemma mask_involutive key data : mask_data key (mask_data key data 0) 0 = data.
Proof. rewrite !mask_data_loop. apply mask_loop_involutive. Qed.

Lemma mask_length key data : length (mask_data key data 0) = length data.
Proof. rewrite mask_data_loop. apply mask_loop_length. Qed.

Lemma mask_zero data : mask_loop (be_bytes 4 0) 0 data = data.
Proof.
  assert (forall i, (i < 4)%nat -> mask_loop (be_bytes 4 0) i data = data) as H; [|apply H; lia].
  induction data as [|x data IH]; intros i Hi; cbn [mask_loop]; [done|].
  f_equal; [|apply IH, Nat.mod_upper_bound; lia].
  change (be_bytes 4 0) with [0; 0; 0; 0]. destruct i as [|[|[|[|i]]]]; try lia; apply Z.lxor_0_r.
Qed.

Lemma mask_piecewise key a b :
  mask_data key (mask_data key a 0 ++ b) (length a) = mask_data key (a ++ b) 0.
Proof.
  rewrite !mask_data_loop, mask_loop_app by lia. unfold mask_data. rewrite !key_bytes.
  rewrite <- (mask_loop_length (be_bytes 4 key) 0 a) at 1 3.
  by rewrite take_app_length, drop_app_length.
Qed.

(** The length byte: mask bit and 7-bit field. *)
Lemma length_byte (m : bool) x :
  0 <= x < 128 ->
  has_bits (Z.lor (if m then 0x80 else 0x00) x) 0x80 = m /\
  Z.land (Z.lor (if m then 0x80 else 0x00) x) 0x7F = x.
Proof.
  intros Hx. assert (Z.lor (if m then 0x80 else 0x00) x = (if m then 128 else 0) + x) as ->.
  { destruct m; [|done]. apply (lor_shiftl_add 1 x 7); lia. }
  rewrite land_7F. split.
  - rewrite (has_bits_testbit _ 7) by lia. destruct m.
    + rewrite Z.testbit_true by lia. change (2 ^ 7) with 128. Z.div_mod_to_equations. lia.
    + apply (uint_testbit_high 7); [unfold is_uint; lia|lia].
  - destruct m; Z.div_mod_to_equations; lia.
Qed.

(** The first byte: FIN flag and opcode. *)
Lemma first_byte (f : bool) op :
  known_opcode op = true ->
  has_bits (Z.lor (if f then fin_flag else 0) op) 0x80 = f /\
  Z.land (Z.lor (if f then fin_flag else 0) op) 0x0F = op /\
  has_bits (Z.lor (if f then fin_flag else 0) op) 0x70 = false.
Proof.
  unfold known_opcode. rewrite !orb_true_iff, !Z.eqb_eq.
  intros [[[[[->| ->]| ->]| ->]| ->]| ->]; by destruct f.
Qed.

(** The header part of a frame. *)
Definition frame_header (op key len flags : Z) : bytes :=
  [flags .| op] ++
  (let mask_bit := if key =? 0 then 0x00 else 0x80 in
   if len <? 126 then [mask_bit .| len]
   else if len <=? 65535 then [mask_bit .| 126] ++ be_bytes 2 len
   else [mask_bit .| 127] ++ be_bytes 8 len) ++
  (if negb (key =? 0) then be_bytes 4 key else []).

Lemma assemble_frame_layout op key data out flags :
  assemble_frame op key data out flags = out ++ frame_header op key (zlen data) flags ++ data.
Proof.
  unfold assemble_frame, frame_header. rewrite !network_order_bytes.
  destruct (zlen data <? 126), (zlen data <=? 65535), (negb (key =? 0));
    rewrite <- ?app_assoc; cbn [app]; by rewrite ?app_nil_r, <- ?app_assoc.
Qed.

Definition header_length (key len : Z) : Z :=
  (if len <? 126 then 2 else if len <=? 65535 then 4 else 10) + (if key =? 0 then 0 else 4).

Lemma frame_header_length op key len flags :
  zlen (frame_header op key len flags) = header_length key len.
Proof.
  unfold frame_header, header_length, zlen. rewrite !length_app.
  destruct (len <? 126), (len <=? 65535), (key =? 0); cbn [negb];
    rewrite ?length_app, ?be_bytes_length; done.
Qed.

Lemma from_network_be n x rest :
  is_uint (8 * Z.of_nat n) x -> from_network_order n (le_val (take n (be_bytes n x ++ rest))) = x.
Proof.
  intros Hx. rewrite <- (be_bytes_length n x) at 2. rewrite take_app_length.
  pose proof (network_order_val (be_bytes n x) (be_bytes_all n x)) as E.
  rewrite be_bytes_length in E. rewrite E, be_val_bytes.
  replace (256 ^ Z.of_nat n) with (2 ^ (8 * Z.of_nat n)) by (by rewrite Z.pow_mul_r by lia).
  by apply Z.mod_small.
Qed.

Lemma drop_be n x rest : drop n (be_bytes n x ++ rest) = rest.
Proof. rewrite <- (be_bytes_length n x) at 1. apply drop_app_length. Qed.

Lemma decode_frame_header op key len (f : bool) rest :
  known_opcode op = true -> is_uint 32 key -> is_uint 64 len ->
  decode_header (frame_header op key len (if f then fin_flag else 0) ++ rest)
  = (header_length key len, Some (mk_header f op key len)).
Proof.
  intros Hop Hkey Hlen. destruct (first_byte f op Hop) as (B1 & B2 & B3).
  set (b1 := (if f then fin_flag else 0) .| op) in *.
  unfold frame_header, header_length. fold b1. cbn [app].
  assert (forall (m : bool) x, 0 <= x < 128 -> let b2 := (if m then 0x80 else 0x00) .| x in
    has_bits b2 0x80 = m /\ b2 .& 0x7F = x) as Hb2 by (intros m x Hx; by apply length_byte).
  assert ((if key =? 0 then 0x00 else 0x80) = (if negb (key =? 0) then 0x80 else 0x00)) as ->
    by (by destruct (key =? 0)).
  assert ((if key =? 0 then 0 else 4) = (if negb (key =? 0) then 4 else 0)) as -> by (by destruct (key =? 0)).
  assert ((if negb (key =? 0) then key else 0) = key) as Hk0 by (destruct (Z.eqb_spec key 0) as [E0|]; [by rewrite E0|done]).
  set (m := negb (key =? 0)) in *.
  assert (forall p r, zlen p = (if m then 4 else 0) -> p = (if m then be_bytes 4 key else []) ->
    (if m then from_network_order 4 (le_val (take 4 (p ++ r))) else 0) = key) as Hkey'.
  { intros p r _ ->. destruct m; [|done]. rewrite from_network_be by done. done. }
  assert (zlen (if m then be_bytes 4 key else []) = (if m then 4 else 0)) as Hkl
    by (destruct m; [unfold zlen; by rewrite be_bytes_length|done]).
  unfold is_uint in Hlen. unfold decode_header.
  destruct (Z.ltb_spec len 126) as [L1|L1]; [|destruct (Z.leb_spec len 65535) as [L2|L2]]; cbn [app].
  - destruct (Hb2 m len) as [M1 M2]; [lia|]. cbv zeta in M1, M2. rewrite M1, M2, B1, B2, B3, Hop.
    rewrite (proj2 (Z.ltb_lt len 126)) by done. rewrite !zlen_cons, zlen_app, Hkl.
    rewrite (proj2 (Z.ltb_ge _ _)) by (pose proof (zlen_nonneg rest); destruct m; lia).
    rewrite (proj2 (Z.eqb_neq len 126)), (proj2 (Z.eqb_neq len 127)) by lia.
    by rewrite Hkey'.
  - destruct (Hb2 m 126) as [M1 M2]; [lia|]. cbv zeta in M1, M2. rewrite M1, M2, B1, B2, B3, Hop.
    change (126 <? 126) with false. change (126 =? 126) with true. cbn iota.
    rewrite <- !app_assoc. rewrite !zlen_cons, !zlen_app, Hkl.
    assert (zlen (be_bytes 2 len) = 2) as -> by (unfold zlen; by rewrite be_bytes_length).
    rewrite (proj2 (Z.ltb_ge _ _)) by (pose proof (zlen_nonneg rest); destruct m; lia).
    rewrite from_network_be, drop_be by (unfold is_uint; simpl; lia). by rewrite Hkey'.
  - destruct (Hb2 m 127) as [M1 M2]; [lia|]. cbv zeta in M1, M2. rewrite M1, M2, B1, B2, B3, Hop.
    change (127 <? 126) with false. change (127 =? 126) with false. change (127 =? 127) with true. cbn iota.
    rewrite <- !app_assoc. rewrite !zlen_cons, !zlen_app, Hkl.
    assert (zlen (be_bytes 8 len) = 8) as -> by (unfold zlen; by rewrite be_bytes_length).
    rewrite (proj2 (Z.ltb_ge _ _)) by (pose proof (zlen_nonneg rest); destruct m; lia).
    rewrite from_network_be, drop_be by (unfold is_uint; simpl; lia). by rewrite Hkey'.
Qed.

(** A header cut short is never mistaken for a complete or malformed one. *)
Lemma decode_short data n hdr k :
  decode_header data = (n, Some hdr) -> Z.of_nat k < n -> decode_header (take k data) = (0, None).
Proof.
  intros E Hk. destruct data as [|b1 [|b2 p]]; [done|done|].
  destruct k as [|[|k]]; [done|done|]. cbn [take]. unfold decode_header in *.
  set (hl := (if (b2 .& 0x7F) <? 126 then 2 else if (b2 .& 0x7F) =? 126 then 4 else 10)
        + (if has_bits b2 0x80 then 4 else 0)) in *.
  destruct (Z.ltb_spec (zlen (b1 :: b2 :: p)) hl) as [|L]; [done|].
  assert (n = hl) as ->.
  { destruct (_ =? 126); [|destruct (_ =? 127)]; cbn iota in E;
      destruct (has_bits b1 0x70); try done; destruct (known_opcode _); by injection E. }
  rewrite (proj2 (Z.ltb_lt _ _)); [done|]. unfold zlen in *. cbn [length] in *.
  pose proof (length_take_le p k). lia.
Qed.

(** ** Claims *)

(** Masking can be undone and done piecewise.  Masking twice with the
    same key is the identity, and unmasking a payload that arrives in chunks,
    always from the current offset on, gives the same bytes as unmasking it at
    once. *)
Theorem mask_data_correct key a b :
  mask_data key (mask_data key (a ++ b) 0) 0 = a ++ b /\
  mask_data key (mask_data key a 0 ++ b) (length a) = mask_data key (a ++ b) 0 /\
  length (mask_data key a 0) = length a.
Proof.
  split; [apply mask_involutive|]. split; [apply mask_piecewise|apply mask_length].
Qed.

(** Frame round trip.  A frame assembled with a known opcode decodes to
    the same FIN flag, opcode, masking key and payload length; the decoder
    consumes exactly the header, so that the payload follows; and on any
    proper prefix of the header it asks for more input. *)
Theorem frame_roundtrip op key data (f : bool) rest :
  known_opcode op = true -> is_uint 32 key -> is_uint 64 (zlen data) ->
  let frame := assemble_frame op key data [] (if f then fin_flag else 0) in
  exists n, decode_header (frame ++ rest) = (n, Some (mk_header f op key (zlen data))) /\
    2 <= n <= 14 /\ drop (Z.to_nat n) frame = data /\
    (forall k, Z.of_nat k < n -> decode_header (take k frame) = (0, None)).
Proof.
  intros Hop Hkey Hlen frame. unfold frame. rewrite assemble_frame_layout. cbn [app].
  pose proof (decode_frame_header op key (zlen data) f) as D.
  exists (header_length key (zlen data)). split; [|split; [|split]].
  - rewrite <- app_assoc. by apply D.
  - unfold header_length. repeat case_if; lia.
  - rewrite <- (frame_header_length op key (zlen data) (if f then fin_flag else 0)). unfold zlen at 1.
    rewrite Nat2Z.id. apply drop_app_length.
  - intros k Hk. eapply decode_short; [by apply D|done].
Qed.

Lemma frame_roundtrip_witness :
  exists n, decode_header (assemble_frame text_frame 0x11223344 [104; 105] [] fin_flag ++ [9])
    = (n, Some (mk_header true text_frame 0x11223344 2)) /\ n = 6.
Proof.
  destruct (frame_roundtrip text_frame 0x11223344 [104; 105] true [9]) as (n & E & _ & Hd & _).
  - reflexivity.
  - unfold is_uint. lia.
  - unfold is_uint, zlen. simpl. lia.
  - exists n. split; [exact E|]. vm_compute in E. congruence.
Defined.

End Rfc6455.
