(* ===== verification/WebSocketFraming.v ===== *)
(** * WebSocket framing (libcaf_net/caf/net/web_socket/framing.cpp)

    The receiving side: headers, masked payloads that arrive in pieces,
    fragmented messages with control frames in between, UTF-8 validation on the
    go; and the sending side: data frames, pongs and closing frames.  Calls into
    the layers above and below are recorded in order. *)

From stdpp Require Import strings.
From S2P Require Import Prelude NetworkOrder Rfc3629 Rfc6455.

Module WebSocketFraming.

Import Rfc6455.
#[local] Open Scope caf_scope.
#[local] Arguments Z.eqb : simpl never.

(** ** Data *)

(** The values of [sec] that occur. *)
Inductive sec := protocol_error | malformed_message | connection_closed | other_code (n : Z).

Record error := mk_error { code : sec; context : string }.

(** status.hpp *)
Inductive status :=
| normal_close | going_away | status_protocol_error | invalid_data | no_status | abnormal_exit
| inconsistent_data | policy_violation | message_too_big | missing_extensions
| unexpected_condition | tls_handshake_failure.

#[export] Instance status_eq_dec : EqDecision status.
Proof. solve_decision. Defined.

Definition status_value (x : status) : Z :=
  match x with
  | normal_close => 1000 | going_away => 1001 | status_protocol_error => 1002
  | invalid_data => 1003 | no_status => 1005 | abnormal_exit => 1006
  | inconsistent_data => 1007 | policy_violation => 1008 | message_too_big => 1009
  | missing_extensions => 1010 | unexpected_condition => 1011 | tls_handshake_failure => 1015
  end.

Inductive receive_policy := up_to (n : Z) | exactly (n : Z).

Definition default_receive_policy : receive_policy := up_to 2048.

Definition max_frame_size : Z := 2 ^ 31 - 1.

(** Calls to the upper layer ([up_]) and to the lower layer ([down_]). *)
Inductive call :=
| consume_text (text : bytes)
| consume_binary (data : bytes)
| up_abort (reason : error)
| configure_read (p : receive_policy)
| output (frame : bytes)             (* appended between begin_output and end_output *)
| down_shutdown.

Record framing := mk_framing {
  mask_outgoing_frames : bool;
  hdr_ : header;
  opcode_ : Z;
  payload_buf_ : bytes;
  validation_offset_ : Z;
  binary_buf_ : bytes;
  text_buf_ : bytes;
  rng_ : nat;                        (* how many random numbers were drawn *)
  calls : list call;
}.

Definition set_hdr (f : framing) (h : header) : framing :=
  mk_framing (mask_outgoing_frames f) h (opcode_ f) (payload_buf_ f) (validation_offset_ f)
    (binary_buf_ f) (text_buf_ f) (rng_ f) (calls f).
Definition set_opcode (f : framing) (x : Z) : framing :=
  mk_framing (mask_outgoing_frames f) (hdr_ f) x (payload_buf_ f) (validation_offset_ f)
    (binary_buf_ f) (text_buf_ f) (rng_ f) (calls f).
Definition set_payload_buf (f : framing) (x : bytes) : framing :=
  mk_framing (mask_outgoing_frames f) (hdr_ f) (opcode_ f) x (validation_offset_ f)
    (binary_buf_ f) (text_buf_ f) (rng_ f) (calls f).
Definition set_offset (f : framing) (x : Z) : framing :=
  mk_framing (mask_outgoing_frames f) (hdr_ f) (opcode_ f) (payload_buf_ f) x
    (binary_buf_ f) (text_buf_ f) (rng_ f) (calls f).
Definition set_bufs (f : framing) (b t : bytes) : framing :=
  mk_framing (mask_outgoing_frames f) (hdr_ f) (opcode_ f) (payload_buf_ f) (validation_offset_ f)
    b t (rng_ f) (calls f).
Definition set_rng (f : framing) (n : nat) : framing :=
  mk_framing (mask_outgoing_frames f) (hdr_ f) (opcode_ f) (payload_buf_ f) (validation_offset_ f)
    (binary_buf_ f) (text_buf_ f) n (calls f).
Definition emit (c : call) (f : framing) : framing :=
  mk_framing (mask_outgoing_frames f) (hdr_ f) (opcode_ f) (payload_buf_ f) (validation_offset_ f)
    (binary_buf_ f) (text_buf_ f) (rng_ f) (calls f ++ [c]).

(** [make_client] and [make_server]. *)
Definition make (client : bool) : framing :=
  mk_framing client no_header invalid_frame [] 0 [] [] 0 [].

(** ** Validation *)

(** [payload_valid]: the verdict and the new offset. *)
Definition payload_valid (payload : bytes) (offset : Z) : bool * Z :=
  let (index, incomplete) := Rfc3629.validate (drop (Z.to_nat offset) payload) in
  let offset := offset + index in
  ((offset =? zlen payload) || incomplete, offset).

Definition validate_header (hdr_bytes : Z) (f : framing) : option error :=
  let h := hdr_ f in
  if is_control_frame (opcode h) then
    if 125 <? payload_len h
    then Some (mk_error protocol_error "WebSocket control frame payload exceeds allowed size")
    else if negb (fin h)
    then Some (mk_error protocol_error "Received a fragmented WebSocket control message")
    else None
  else
    if max_frame_size - hdr_bytes <=? payload_len h
    then Some (mk_error protocol_error "WebSocket frame too large")
    else if max_frame_size <? zlen (payload_buf_ f) + payload_len h
    then Some (mk_error protocol_error "Fragmented WebSocket payload exceeds maximum size")
    else if negb (opcode h =? continuation_frame) && negb (opcode_ f =? invalid_frame)
    then Some (mk_error protocol_error "Expected a WebSocket continuation_frame")
    else if (opcode h =? continuation_frame) && (opcode_ f =? invalid_frame)
    then Some (mk_error protocol_error "Received WebSocket continuation frame without prior opcode")
    else None.

Section Framing.

(** The [n]-th number of the random number generator. *)
Context (draw : nat -> Z).
(** The results of the upper layer. *)
Context (text_result binary_result : bytes -> Z).
(** [to_string] for errors. *)
Context (to_string : error -> bytes).
(** The build generates [from_integer] from the enumeration. *)
Context (from_integer : Z -> option status).

Definition validate_closing_payload (payload : bytes) : option error :=
  match payload with
  | [] => None
  | [_] => Some (mk_error protocol_error "non empty closing payload must have at least two bytes")
  | b0 :: b1 :: text =>
      let status := (b0 .<< 8) + b1 in
      if negb (Rfc3629.valid text)
      then Some (mk_error protocol_error "malformed UTF-8 text message in closing payload")
      else if (3000 <=? status) && (status <? 5000) then None
      else match from_integer status with
           | Some (normal_close | going_away | status_protocol_error | invalid_data
                  | inconsistent_data | policy_violation | message_too_big | missing_extensions
                  | unexpected_condition) => None
           | _ => Some (mk_error protocol_error "invalid status code in closing payload")
           end
  end.

(** ** Sending *)

(** Draws a masking key if outgoing frames are masked. *)
Definition draw_key (f : framing) : Z * framing :=
  if mask_outgoing_frames f then (draw (rng_ f), set_rng f (S (rng_ f))) else (0, f).

Definition mask_if (f : framing) (key : Z) (data : bytes) : bytes :=
  if mask_outgoing_frames f then mask_data key data 0 else data.

Definition ship (op : Z) (payload : bytes) (f : framing) : framing :=
  let (key, f1) := draw_key f in
  emit (output (assemble_frame op key (mask_if f key payload) [] fin_flag)) f1.

Definition ship_pong (payload : bytes) (f : framing) : framing := ship pong_frame payload f.

(** [ship_frame] for the two buffers. *)
Definition end_binary_message (f : framing) : framing :=
  set_bufs (ship binary_frame (binary_buf_ f) f) [] (text_buf_ f).

Definition end_text_message (f : framing) : framing :=
  set_bufs (ship text_frame (text_buf_ f) f) (binary_buf_ f) [].

(** [ship_closing_message()]: the empty payload is not masked, only the key is
    drawn. *)
Definition ship_closing_message (f : framing) : framing :=
  let (key, f1) := draw_key f in
  emit (output (assemble_frame connection_close_frame key [] [] fin_flag)) f1.

Definition ship_closing_status (st : status) (msg : bytes) (f : framing) : framing :=
  let code_val := status_value st in
  ship connection_close_frame
    ([(code_val .>> 8) .& 0xFF; code_val .& 0xFF] ++ msg) f.

Definition shutdown (st : status) (msg : bytes) (f : framing) : framing :=
  emit down_shutdown (ship_closing_status st msg f).

(** [lower_layer::shutdown(const error&)]. *)
Definition shutdown_error (reason : error) (f : framing) : framing :=
  match code reason with
  | connection_closed => shutdown normal_close (to_string reason) f
  | protocol_error => shutdown status_protocol_error (to_string reason) f
  | malformed_message => shutdown inconsistent_data (to_string reason) f
  | other_code _ => shutdown unexpected_condition (to_string reason) f
  end.

Definition abort_and_shutdown (err : error) (f : framing) : framing :=
  shutdown_error err (emit (up_abort err) f).

Definition abort (reason : error) (f : framing) : framing :=
  emit (up_abort reason) (ship_closing_message f).

(** ** Receiving *)

(** Cleans up after a frame. *)
Definition next_frame (f : framing) : framing :=
  let f1 := emit (configure_read default_receive_policy) f in
  let h := hdr_ f1 in
  set_hdr f1 (mk_header (fin h) invalid_frame (mask_key h) (payload_len h)).

Definition handle (op : Z) (payload : bytes) (frame_size : Z) (f : framing) : Z * framing :=
  if op =? connection_close_frame then
    match validate_closing_payload payload with
    | Some err => (-1, abort_and_shutdown err f)
    | None => (-1, abort_and_shutdown (mk_error connection_closed "") f)
    end
  else if op =? text_frame then
    let f1 := emit (consume_text payload) f in
    if text_result payload <? 0 then (-1, f1) else (frame_size, next_frame f1)
  else if op =? binary_frame then
    let f1 := emit (consume_binary payload) f in
    if binary_result payload <? 0 then (-1, f1) else (frame_size, next_frame f1)
  else if op =? ping_frame then (frame_size, next_frame (ship_pong payload f))
  else (frame_size, next_frame f).

Definition consume_header (buffer : bytes) (f : framing) : Z * framing :=
  let (hdr_bytes, decoded) := decode_header buffer in
  let f1 := match decoded with Some h => set_hdr f h | None => f end in
  if hdr_bytes <? 0 then
    (-1, abort_and_shutdown (mk_error protocol_error "negative header size on WebSocket connection") f1)
  else if hdr_bytes =? 0 then (0, f1)
  else match validate_header hdr_bytes f1 with
       | Some err => (-1, abort_and_shutdown err f1)
       | None =>
           let h := hdr_ f1 in
           let text := (opcode h =? text_frame)
             || ((opcode h =? continuation_frame) && (opcode_ f1 =? text_frame)) in
           (hdr_bytes,
            emit (configure_read (if text then up_to (payload_len h) else exactly (payload_len h))) f1)
       end.

Definition invalid_utf8 : error := mk_error malformed_message "Invalid UTF-8 sequence".

(** The completed frame. *)
Definition complete_frame (buffer : bytes) (f : framing) : Z * framing :=
  let h := hdr_ f in
  if fin h then
    if opcode_ f =? invalid_frame then
      if (opcode h =? text_frame) && negb (validation_offset_ f =? zlen buffer)
      then (-1, abort_and_shutdown invalid_utf8 f)
      else handle (opcode h) buffer (payload_len h) (set_offset f 0)
    else if (opcode_ f =? text_frame) && negb (validation_offset_ f =? zlen (payload_buf_ f))
    then (-1, abort_and_shutdown invalid_utf8 f)
    else
      let (result, f1) := handle (opcode_ f) (payload_buf_ f) (payload_len h) f in
      (result, set_offset (set_payload_buf (set_opcode f1 invalid_frame) []) 0)
  else
    let f1 := if opcode_ f =? invalid_frame then set_opcode f (opcode h) else f in
    (payload_len h, next_frame f1).

(** Unmasks in place: also returns the buffer.  [offset] is where the new bytes
    begin. *)
Definition consume_payload (buffer0 : bytes) (offset : nat) (f : framing) : Z * bytes * framing :=
  let h := hdr_ f in
  let buffer := if negb (mask_key h =? 0) then mask_data (mask_key h) buffer0 offset else buffer0 in
  if is_control_frame (opcode h) then
    let (r, f1) := handle (opcode h) buffer (payload_len h) f in (r, buffer, f1)
  else if (opcode h =? text_frame) || (opcode_ f =? text_frame) then
    let '(ok, f1) :=
      if (opcode h =? text_frame) && fin h then
        let (ok, off) := payload_valid buffer (validation_offset_ f) in (ok, set_offset f off)
      else
        let f1 := set_payload_buf f (payload_buf_ f ++ drop offset buffer) in
        let (ok, off) := payload_valid (payload_buf_ f1) (validation_offset_ f1) in
        (ok, set_offset f1 off) in
    if negb ok then (-1, buffer, abort_and_shutdown invalid_utf8 f1)
    else if zlen buffer <? payload_len h then (0, buffer, f1)
    else let (r, f2) := complete_frame buffer f1 in (r, buffer, f2)
  else
    let f1 :=
      if ((opcode h =? binary_frame) && negb (fin h)) || (opcode_ f =? binary_frame)
      then set_payload_buf f (payload_buf_ f ++ buffer) else f in
    let (r, f2) := complete_frame buffer f1 in (r, buffer, f2).

Definition consume (buffer : bytes) (offset : nat) (f : framing) : Z * bytes * framing :=
  if negb (valid (hdr_ f)) then
    let (hdr_bytes, f1) := consume_header buffer f in
    if hdr_bytes <=? 0 then (hdr_bytes, buffer, f1)
    else if payload_len (hdr_ f1) =? 0 then
      let '(r, _, f2) := consume_payload [] 0 f1 in
      if r <? 0 then (-1, buffer, f2) else (hdr_bytes, buffer, f2)
    else (hdr_bytes, buffer, f1)
  else consume_payload buffer offset f.

(** ** Frames on the wire *)

(** A frame as the peer sends it, and the pieces in which its payload arrives. *)
Record wire_frame := mk_wire {
  w_fin : bool;
  w_op : Z;
  w_key : Z;
  w_data : bytes;                    (* before masking *)
  w_chunks : list bytes;             (* after masking *)
}.

Definition unmask (key : Z) (data : bytes) : bytes :=
  if negb (key =? 0) then mask_data key data 0 else data.

Definition w_header (w : wire_frame) : bytes :=
  frame_header (w_op w) (w_key w) (zlen (w_data w)) (if w_fin w then fin_flag else 0).

(** The transport hands over the bytes it has kept, followed by a new chunk,
    until the frame is complete or rejected. *)
Fixpoint feed (buffer : bytes) (chunks : list bytes) (f : framing) : Z * framing :=
  match chunks with
  | [] => (0, f)
  | c :: cs =>
      let '(r, buffer', f') := consume (buffer ++ c) (length buffer) f in
      if r =? 0 then feed buffer' cs f' else (r, f')
  end.

(** The header, possibly with bytes behind it, then the payload. *)
Definition receive_frame (w : wire_frame) (behind : bytes) (f : framing) : Z * framing :=
  let '(r, _, f1) := consume (w_header w ++ behind) 0 f in
  if (r <=? 0) || (zlen (w_data w) =? 0) then (r, f1) else feed [] (w_chunks w) f1.

Fixpoint receive_frames (ws : list wire_frame) (f : framing) : Z * framing :=
  match ws with
  | [] => (1, f)
  | w :: ws' =>
      let (r, f1) := receive_frame w [] f in
      if r <? 0 then (r, f1) else receive_frames ws' f1
  end.

(** Text arrives in any pieces, everything else at once ([exactly]). *)
Definition wf_wire (text : bool) (w : wire_frame) : Prop :=
  known_opcode (w_op w) = true /\ is_uint 32 (w_key w) /\ all_bytes (w_data w) /\
  concat (w_chunks w) = unmask (w_key w) (w_data w) /\ Forall (fun c => c <> []) (w_chunks w) /\
  (text = false -> (length (w_chunks w) <= 1)%nat).

(** ** Incremental UTF-8 validation *)

(** The offset the code keeps for a text seen so far, and its verdict. *)
Definition offset_of (seen : bytes) : Z := zlen seen - zlen (Rfc3629.left_over seen).
Definition plausible (seen : bytes) : bool :=
  (offset_of seen =? zlen seen) || Rfc3629.is_incomplete seen.

Lemma payload_valid_resume a b :
  payload_valid (a ++ b) (offset_of a) = (plausible (a ++ b), offset_of (a ++ b)).
Proof.
  unfold payload_valid, plausible. destruct (Rfc3629.left_over_suffix a) as [pre Hp].
  assert (Ho : offset_of a = zlen pre).
  { unfold offset_of. rewrite Hp at 1. rewrite zlen_app. lia. }
  assert (Hd : drop (Z.to_nat (offset_of a)) (a ++ b) = Rfc3629.left_over a ++ b).
  { rewrite Ho. unfold zlen. rewrite Nat2Z.id. rewrite Hp at 1. rewrite <- app_assoc.
    apply drop_app_length. }
  rewrite Hd, Rfc3629.validate_left_over, <- Rfc3629.left_over_app, <- Rfc3629.is_incomplete_app.
  assert (E : offset_of a + (zlen (Rfc3629.left_over a ++ b) - zlen (Rfc3629.left_over (a ++ b)))
    = offset_of (a ++ b)).
  { unfold offset_of. rewrite !zlen_app. lia. }
  by rewrite E.
Qed.

Lemma offset_complete seen : (offset_of seen =? zlen seen) = Rfc3629.valid seen.
Proof.
  apply eq_bool_prop_intro. rewrite !Is_true_true, Z.eqb_eq, Rfc3629.valid_left_over.
  unfold offset_of. split; [|intros ->; rewrite zlen_nil; lia].
  intros H. destruct (Rfc3629.left_over seen) as [|x l]; [done|].
  rewrite zlen_cons in H. pose proof (zlen_nonneg l). lia.
Qed.

Lemma valid_plausible seen : Rfc3629.valid seen = true -> plausible seen = true.
Proof. unfold plausible. by rewrite offset_complete; intros ->. Qed.

Lemma plausible_prefix a b : plausible (a ++ b) = true -> plausible a = true.
Proof.
  unfold plausible. rewrite !offset_complete. intros H.
  destruct (Rfc3629.valid a) eqn:Ev; [done|]. destruct (Rfc3629.is_incomplete a) eqn:Ei; [done|].
  assert (Hl : Rfc3629.left_over a <> []).
  { intros El. apply Rfc3629.valid_left_over in El. congruence. }
  destruct (Rfc3629.malformed_app a b Hl Ei) as [H1 H2]. rewrite H2, orb_false_r in H.
  by apply Rfc3629.valid_left_over in H.
Qed.

(** ** Unmasking in pieces *)

Lemma unmask_length key data : length (unmask key data) = length data.
Proof. unfold unmask. case_match; [apply mask_length|done]. Qed.

Lemma unmask_nil key : unmask key [] = [].
Proof. unfold unmask. by case_match. Qed.

Lemma unmask_involutive key data : unmask key (unmask key data) = data.
Proof. unfold unmask. destruct (negb (key =? 0)); [apply mask_involutive|done]. Qed.

Lemma unmask_step key a c :
  (if negb (key =? 0) then mask_data key (unmask key a ++ c) (length (unmask key a))
   else unmask key a ++ c) = unmask key (a ++ c).
Proof.
  rewrite unmask_length. unfold unmask. destruct (negb (key =? 0)); [apply mask_piecewise|done].
Qed.

Lemma unmask_prefix key a c :
  unmask key (a ++ c) = unmask key a ++ drop (length (unmask key a)) (unmask key (a ++ c)).
Proof.
  unfold unmask. destruct (negb (key =? 0)); [|by rewrite drop_app_length].
  rewrite !mask_data_loop, mask_loop_app by lia. by rewrite drop_app_length.
Qed.

(** ** Text that arrives in pieces *)

(** The frame being received carries text: it is a whole message ([single]), or
    a fragment of a message of which [base] was received before. *)
Definition carries_text (single : bool) (base : bytes) (f : framing) : Prop :=
  let h := hdr_ f in
  if single then opcode h = text_frame /\ fin h = true /\ opcode_ f = invalid_frame /\ base = []
  else (opcode h = text_frame /\ fin h = false /\ opcode_ f = invalid_frame) \/
       (opcode h = continuation_frame /\ opcode_ f = text_frame).

(** The state after [b] of the frame's payload has arrived. *)
Definition text_state (single : bool) (base b : bytes) (f : framing) : framing :=
  set_offset (if single then f else set_payload_buf f (base ++ b)) (offset_of (base ++ b)).

Definition at_text (single : bool) (base b : bytes) (f : framing) : Prop :=
  carries_text single base f /\ validation_offset_ f = offset_of (base ++ b) /\
  (single = false -> payload_buf_ f = base ++ b).

Lemma text_state_at single base b b' f :
  at_text single base b f -> at_text single base b' (text_state single base b' f).
Proof.
  unfold at_text, carries_text, text_state. intros (H & _ & _). by destruct single; simpl.
Qed.

Lemma text_state_twice single base b b' f :
  text_state single base b' (text_state single base b f) = text_state single base b' f.
Proof. by destruct single. Qed.

Lemma text_state_same single base b f :
  at_text single base b f -> text_state single base b f = f.
Proof.
  unfold at_text, text_state. intros (_ & Ho & Hb).
  destruct single, f; simpl in *; [by rewrite Ho|]. by rewrite Ho, Hb.
Qed.

Lemma consume_text_piece single base w c f :
  at_text single base (unmask (mask_key (hdr_ f)) w) f ->
  let b := unmask (mask_key (hdr_ f)) (w ++ c) in
  let f1 := text_state single base b f in
  consume (unmask (mask_key (hdr_ f)) w ++ c) (length (unmask (mask_key (hdr_ f)) w)) f =
  if negb (plausible (base ++ b)) then (-1, b, abort_and_shutdown invalid_utf8 f1)
  else if zlen b <? payload_len (hdr_ f) then (0, b, f1)
  else let (r, f2) := complete_frame b f1 in (r, b, f2).
Proof.
  intros (Hc & Ho & Hb). cbv zeta. unfold consume, consume_payload. rewrite unmask_step.
  assert (Hpre := unmask_prefix (mask_key (hdr_ f)) w c).
  set (b := unmask _ (w ++ c)) in *. set (a := unmask _ w) in *.
  assert (Hv : valid (hdr_ f) = true).
  { unfold valid, carries_text in *. destruct single; [destruct Hc as (-> & _)|
      destruct Hc as [(-> & _)|(-> & _)]]; done. }
  rewrite Hv. cbn [negb].
  assert (Hpv : forall x, x = base ++ b ->
    payload_valid x (validation_offset_ f) = (plausible (base ++ b), offset_of (base ++ b))).
  { intros x ->. rewrite Ho, Hpre, app_assoc. apply payload_valid_resume. }
  unfold carries_text, text_state in *. destruct single.
  - destruct Hc as (-> & -> & _ & ->). cbn [app andb orb is_control_frame].
    change (is_control_frame text_frame) with false. rewrite Z.eqb_refl. cbn [orb andb].
    by rewrite (Hpv b eq_refl).
  - assert (Hpb : payload_buf_ f ++ drop (length a) b = base ++ b).
    { rewrite (Hb eq_refl), <- app_assoc. by rewrite <- Hpre. }
    assert (Hctl : is_control_frame (opcode (hdr_ f)) = false) by (by destruct Hc as [(-> & _)|(-> & _)]).
    assert (Ht : (opcode (hdr_ f) =? text_frame) || (opcode_ f =? text_frame) = true).
    { destruct Hc as [(-> & _)|(_ & ->)]; [done|apply orb_true_r]. }
    assert (Hs : (opcode (hdr_ f) =? text_frame) && fin (hdr_ f) = false).
    { destruct Hc as [(_ & -> & _)|(-> & _)]; [apply andb_false_r|done]. }
    rewrite Hctl, Ht, Hs, Hpb. cbn [payload_buf_ validation_offset_ set_payload_buf].
    by rewrite (Hpv (base ++ b) eq_refl).
Qed.

Lemma handle_result op payload n f : (handle op payload n f).1 = -1 \/ (handle op payload n f).1 = n.
Proof. unfold handle. repeat case_match; simpl; auto. Qed.

Lemma complete_frame_nonzero b f : 0 < payload_len (hdr_ f) -> (complete_frame b f).1 <> 0.
Proof.
  intros Hl. unfold complete_frame. repeat case_match; simpl; try lia.
  - match goal with |- (handle ?a ?b ?c ?d).1 <> 0 => destruct (handle_result a b c d) as [E|E] end;
      rewrite E; lia.
  - match goal with H : handle ?a ?b ?c ?d = _ |- _ => destruct (handle_result a b c d) as [E|E];
      rewrite H in E; simpl in E; rewrite E end; lia.
Qed.

(** Text in any pieces is handled like text at once. *)
Lemma feed_text single base ws : forall w f,
  at_text single base (unmask (mask_key (hdr_ f)) w) f ->
  Forall (fun c => c <> []) ws -> ws <> [] -> zlen (w ++ concat ws) = payload_len (hdr_ f) ->
  let b := unmask (mask_key (hdr_ f)) (w ++ concat ws) in
  if plausible (base ++ b)
  then feed (unmask (mask_key (hdr_ f)) w) ws f = complete_frame b (text_state single base b f)
  else exists b', feed (unmask (mask_key (hdr_ f)) w) ws f
                  = (-1, abort_and_shutdown invalid_utf8 (text_state single base b' f)).
Proof.
  induction ws as [|c ws IH]; intros w f Hat Hne Hws Hlen; [done|].
  apply Forall_cons in Hne as [Hc Hne]. cbv zeta. cbn [feed concat] in *.
  rewrite app_assoc in Hlen |- *. set (b := unmask _ ((w ++ c) ++ concat ws)).
  rewrite (consume_text_piece single base w c f Hat).
  set (b1 := unmask (mask_key (hdr_ f)) (w ++ c)) in *.
  assert (Hpre : b = b1 ++ drop (length b1) b) by apply unmask_prefix.
  destruct (plausible (base ++ b1)) eqn:E1; cbn [negb].
  2: { destruct (plausible (base ++ b)) eqn:E2; [|by exists b1].
       rewrite Hpre, app_assoc in E2. apply plausible_prefix in E2. congruence. }
  assert (Hh : hdr_ (text_state single base b1 f) = hdr_ f) by (by destruct single).
  assert (Hz : zlen b1 = zlen (w ++ c)) by (unfold zlen, b1; by rewrite unmask_length).
  destruct ws as [|c' ws].
  - assert (Hb : b = b1) by (unfold b, b1; cbn [concat]; by rewrite app_nil_r).
    cbn [concat] in Hlen. rewrite app_nil_r in Hlen.
    rewrite (proj2 (Z.ltb_ge _ _)) by lia. rewrite Hb, E1.
    destruct (complete_frame b1 (text_state single base b1 f)) as [r f2] eqn:E.
    assert (Hr : r <> 0).
    { change r with ((r, f2).1). rewrite <- E. apply complete_frame_nonzero. rewrite Hh, <- Hlen.
      rewrite zlen_app. destruct c; [done|]. rewrite zlen_cons. pose proof (zlen_nonneg w).
      pose proof (zlen_nonneg c). lia. }
    by rewrite (proj2 (Z.eqb_neq _ _) Hr).
  - assert (Hlt : zlen b1 < payload_len (hdr_ f)).
    { rewrite <- Hlen, Hz. rewrite (zlen_app (w ++ c)). cbn [concat]. rewrite (zlen_app c').
      apply Forall_cons in Hne as [Hc' _]. destruct c'; [done|]. rewrite zlen_cons.
      pose proof (zlen_nonneg c'). pose proof (zlen_nonneg (concat ws)). lia. }
    rewrite (proj2 (Z.ltb_lt _ _)) by done. change (0 =? 0) with true. cbn iota.
    specialize (IH (w ++ c) (text_state single base b1 f)). rewrite Hh in IH.
    specialize (IH (text_state_at _ _ _ _ _ Hat) Hne ltac:(done) Hlen). cbv zeta in IH.
    fold b1 in IH. change (unmask (mask_key (hdr_ f)) ((w ++ c) ++ concat (c' :: ws))) with b in IH.
    rewrite text_state_twice in IH. destruct (plausible (base ++ b)); [done|].
    destruct IH as [b' IH]. exists b'. by rewrite text_state_twice in IH.
Qed.

(** ** Whole frames *)

Definition w_hdr (w : wire_frame) : header :=
  mk_header (w_fin w) (w_op w) (w_key w) (zlen (w_data w)).

(** The receiver waits for a header; [op] is the opcode of an unfinished
    message ([invalid_frame] if there is none), [acc] what it has received. *)
Definition awaits (op : Z) (acc : bytes) (f : framing) : Prop :=
  valid (hdr_ f) = false /\ opcode_ f = op /\ payload_buf_ f = acc /\
  validation_offset_ f = (if op =? text_frame then offset_of acc else 0).

(** The message a frame belongs to. *)
Definition message_op (op : Z) (w : wire_frame) : Z :=
  if w_op w =? continuation_frame then op else w_op w.

(** The data frames [validate_header] lets pass. *)
Definition admissible (op : Z) (acc : bytes) (w : wire_frame) : Prop :=
  ((op = invalid_frame /\ acc = [] /\ (w_op w = text_frame \/ w_op w = binary_frame)) \/
   ((op = text_frame \/ op = binary_frame) /\ w_op w = continuation_frame)) /\
  zlen (w_data w) < max_frame_size - header_length (w_key w) (zlen (w_data w)) /\
  zlen acc + zlen (w_data w) <= max_frame_size.

Definition is_up_call (c : call) : bool :=
  match c with consume_text _ | consume_binary _ | up_abort _ => true | _ => false end.

(** What the upper layer has seen. *)
Definition up_calls (f : framing) : list call := List.filter is_up_call (calls f).

Lemma up_calls_emit c f :
  up_calls (emit c f) = up_calls f ++ (if is_up_call c then [c] else []).
Proof. unfold up_calls, emit. simpl. rewrite List.filter_app. simpl. by destruct (is_up_call c). Qed.

Lemma ship_up_calls op payload f : up_calls (ship op payload f) = up_calls f.
Proof.
  unfold ship, draw_key. destruct (mask_outgoing_frames f); rewrite up_calls_emit; apply app_nil_r.
Qed.

Lemma abort_up_calls err f : up_calls (abort_and_shutdown err f) = up_calls f ++ [up_abort err].
Proof.
  unfold abort_and_shutdown, shutdown_error, shutdown, ship_closing_status.
  destruct (code err); rewrite up_calls_emit, ship_up_calls, app_nil_r, up_calls_emit; done.
Qed.

Lemma next_frame_up_calls f : up_calls (next_frame f) = up_calls f.
Proof. unfold next_frame, up_calls. simpl. rewrite List.filter_app. simpl. apply app_nil_r. Qed.

Lemma text_state_up_calls single base b f : up_calls (text_state single base b f) = up_calls f.
Proof. by destruct single. Qed.

Lemma header_length_pos key len : 2 <= header_length key len.
Proof. unfold header_length. repeat case_if; lia. Qed.

(** What remains of [consume_header] once the header is complete and
    accepted. *)
Lemma consume_header_accepts w behind f :
  known_opcode (w_op w) = true -> is_uint 32 (w_key w) -> zlen (w_data w) < max_frame_size ->
  let n := header_length (w_key w) (zlen (w_data w)) in
  validate_header n (set_hdr f (w_hdr w)) = None ->
  exists p, consume_header (w_header w ++ behind) f
            = (n, emit (configure_read p) (set_hdr f (w_hdr w))).
Proof.
  intros Hop Hkey Hlen n Hv. unfold consume_header, w_header. pose proof (zlen_nonneg (w_data w)).
  rewrite decode_frame_header; [|done|done|unfold max_frame_size, is_uint in *; lia].
  fold n. fold (w_hdr w). pose proof (header_length_pos (w_key w) (zlen (w_data w))).
  rewrite (proj2 (Z.ltb_ge _ _)), (proj2 (Z.eqb_neq _ _)) by (unfold n; lia).
  rewrite Hv. by eexists.
Qed.

Lemma admissible_accepted op acc w f :
  awaits op acc f -> admissible op acc w ->
  validate_header (header_length (w_key w) (zlen (w_data w))) (set_hdr f (w_hdr w)) = None.
Proof.
  intros (_ & Ho & Hp & _) (Hop & Hl & Hsum). unfold validate_header. simpl. rewrite Ho, Hp.
  assert (Hctl : is_control_frame (w_op w) = false).
  { destruct Hop as [(_ & _ & [->| ->])|(_ & ->)]; done. }
  rewrite Hctl, (proj2 (Z.leb_gt _ _)) by lia. rewrite (proj2 (Z.ltb_ge _ _)) by lia.
  destruct Hop as [(-> & _ & [->| ->])|([->| ->] & ->)]; done.
Qed.

(** What happens after the header. *)
Definition payload_phase (w : wire_frame) (f : framing) : Z * framing :=
  if zlen (w_data w) =? 0 then let '(r, _, f') := consume_payload [] 0 f in (r, f')
  else feed [] (w_chunks w) f.

Lemma receive_frame_phases w behind f n f1 :
  valid (hdr_ f) = false -> consume_header (w_header w ++ behind) f = (n, f1) -> 0 < n ->
  hdr_ f1 = w_hdr w ->
  receive_frame w behind f =
  let (r, f2) := payload_phase w f1 in
  (if zlen (w_data w) =? 0 then if r <? 0 then -1 else n else r, f2).
Proof.
  intros Hv Hc Hn Hh. unfold receive_frame, consume. rewrite Hv, Hc. cbn [negb].
  rewrite (proj2 (Z.leb_gt n 0)) by lia. rewrite Hh. cbn [payload_len w_hdr]. unfold payload_phase.
  destruct (zlen (w_data w) =? 0).
  - destruct (consume_payload [] 0 f1) as [[r b] f2]. destruct (r <? 0); simpl; [done|].
    by rewrite orb_true_r.
  - rewrite (proj2 (Z.leb_gt n 0)) by lia. simpl. by destruct (feed [] (w_chunks w) f1).
Qed.

Lemma zlen_zero {A} (l : list A) : zlen l = 0 -> l = [].
Proof. destruct l; [done|]. rewrite zlen_cons. pose proof (zlen_nonneg l). lia. Qed.

Lemma consume_valid buffer o f : valid (hdr_ f) = true -> consume buffer o f = consume_payload buffer o f.
Proof. intros Hv. unfold consume. by rewrite Hv. Qed.

Lemma known_valid op : known_opcode op = true -> (op =? invalid_frame) = false.
Proof.
  unfold known_opcode. rewrite !orb_true_iff, !Z.eqb_eq.
  by intros [[[[[->| ->]| ->]| ->]| ->]| ->].
Qed.

Lemma unmask_chunks w :
  concat (w_chunks w) = unmask (w_key w) (w_data w) ->
  unmask (w_key w) (concat (w_chunks w)) = w_data w.
Proof. intros ->. apply unmask_involutive. Qed.

Lemma text_phase w single base f :
  wf_wire true w -> hdr_ f = w_hdr w -> at_text single base [] f ->
  if plausible (base ++ w_data w)
  then payload_phase w f = complete_frame (w_data w) (text_state single base (w_data w) f)
  else exists b', payload_phase w f = (-1, abort_and_shutdown invalid_utf8 (text_state single base b' f)).
Proof.
  intros (Hop & Hkey & Hd & Hcat & Hne & _) Hh Hat. unfold payload_phase.
  assert (Hl : zlen (concat (w_chunks w)) = zlen (w_data w)).
  { rewrite Hcat. unfold zlen. by rewrite unmask_length. }
  destruct (zlen (w_data w) =? 0) eqn:E0.
  - apply Z.eqb_eq in E0. apply zlen_zero in E0 as Hd0. rewrite <- (consume_valid [] 0).
    2: { unfold valid. rewrite Hh. simpl. by rewrite known_valid. }
    pose proof (consume_text_piece single base [] [] f) as Hp. cbv zeta in Hp.
    rewrite app_nil_r, !unmask_nil in Hp. specialize (Hp Hat). rewrite Hh in Hp.
    cbn [payload_len w_hdr length app] in Hp. rewrite Hp, E0, Hd0.
    destruct (plausible (base ++ [])); cbn [negb]; [|by eexists].
    change (zlen []) with 0. rewrite Z.ltb_irrefl. by destruct (complete_frame _ _).
  - assert (Hc : w_chunks w <> []).
    { intros E. rewrite E in Hl. change (zlen (concat [])) with 0 in Hl. rewrite <- Hl in E0. done. }
    pose proof (feed_text single base (w_chunks w) [] f) as Hp. cbv zeta in Hp. cbn [app] in Hp.
    rewrite !unmask_nil in Hp. specialize (Hp Hat Hne Hc). rewrite Hh in Hp.
    cbn [payload_len mask_key w_hdr] in Hp. rewrite unmask_chunks in Hp by done. by apply Hp.
Qed.

Lemma other_phase w f :
  wf_wire false w -> hdr_ f = w_hdr w -> is_control_frame (w_op w) = false ->
  (w_op w =? text_frame) || (opcode_ f =? text_frame) = false ->
  payload_phase w f =
  complete_frame (w_data w)
    (if ((w_op w =? binary_frame) && negb (w_fin w)) || (opcode_ f =? binary_frame)
     then set_payload_buf f (payload_buf_ f ++ w_data w) else f).
Proof.
  intros (Hop & Hkey & Hd & Hcat & Hne & Hone) Hh Hctl Htxt.
  assert (Hcp : consume_payload (unmask (w_key w) (w_data w)) 0 f =
    let '(r, f') := complete_frame (w_data w)
      (if ((w_op w =? binary_frame) && negb (w_fin w)) || (opcode_ f =? binary_frame)
       then set_payload_buf f (payload_buf_ f ++ w_data w) else f) in (r, w_data w, f')).
  { unfold consume_payload. rewrite Hh. cbn [mask_key opcode fin w_hdr].
    pose proof (unmask_step (w_key w) [] (unmask (w_key w) (w_data w))) as Hu. cbn [app] in Hu.
    rewrite unmask_nil in Hu. cbn [app length] in Hu. rewrite unmask_involutive in Hu.
    rewrite Hu, Hctl, Htxt. done. }
  unfold payload_phase. destruct (zlen (w_data w) =? 0) eqn:E0.
  - apply Z.eqb_eq, zlen_zero in E0. rewrite E0 in *.
    rewrite unmask_nil in Hcp. rewrite Hcp. by destruct (complete_frame _ _).
  - specialize (Hone eq_refl). destruct (w_chunks w) as [|c [|]] eqn:Ec; [| |simpl in Hone; lia].
    + cbn [concat] in Hcat. symmetry in Hcat. apply (f_equal length) in Hcat.
      rewrite unmask_length in Hcat. apply Z.eqb_neq in E0. unfold zlen in E0. rewrite Hcat in E0. done.
    + cbn [concat] in Hcat. rewrite app_nil_r in Hcat. subst c. cbn [feed app length].
      rewrite consume_valid by (unfold valid; rewrite Hh; simpl; by rewrite known_valid).
      rewrite Hcp. destruct (complete_frame _ _) as [r f'] eqn:E.
      assert (Hr : r <> 0).
      { change r with ((r, f').1). rewrite <- E. apply complete_frame_nonzero.
        assert (hdr_ (if ((w_op w =? binary_frame) && negb (w_fin w)) || (opcode_ f =? binary_frame)
          then set_payload_buf f (payload_buf_ f ++ w_data w) else f) = w_hdr w) as -> by (by case_match).
        simpl. apply Z.eqb_neq in E0. pose proof (zlen_nonneg (w_data w)). lia. }
      by rewrite (proj2 (Z.eqb_neq _ _) Hr).
Qed.

(** ** Messages *)

Definition up_call (op : Z) (msg : bytes) : call :=
  if op =? text_frame then consume_text msg else consume_binary msg.

Definition up_result (op : Z) (msg : bytes) : Z :=
  if op =? text_frame then text_result msg else binary_result msg.

(** The upper layer received [msg] and the receiver is ready for the next
    message, unless the upper layer refused. *)
Definition delivered (op : Z) (msg : bytes) (n : Z) (f : framing) (out : Z * framing) : Prop :=
  up_calls out.2 = up_calls f ++ [up_call op msg] /\
  (if up_result op msg <? 0 then out.1 = -1 else out.1 = n /\ awaits invalid_frame [] out.2).

Lemma handle_delivers op msg n f :
  op = text_frame \/ op = binary_frame ->
  let out := handle op msg n f in
  up_calls out.2 = up_calls f ++ [up_call op msg] /\
  (if up_result op msg <? 0 then out.1 = -1
   else out.1 = n /\ valid (hdr_ out.2) = false /\ opcode_ out.2 = opcode_ f /\
        payload_buf_ out.2 = payload_buf_ f /\ validation_offset_ out.2 = validation_offset_ f).
Proof.
  intros Hop. unfold handle, up_call, up_result.
  destruct Hop as [->| ->]; cbn iota; [change (text_frame =? connection_close_frame) with false;
    change (text_frame =? text_frame) with true | change (binary_frame =? connection_close_frame) with false;
    change (binary_frame =? text_frame) with false; change (binary_frame =? binary_frame) with true];
    cbn iota; match goal with |- context [?x <? 0] => destruct (x <? 0) end;
    cbn [fst snd]; rewrite ?next_frame_up_calls, up_calls_emit; done.
Qed.

Lemma deliver_single op b f :
  op = text_frame \/ op = binary_frame -> fin (hdr_ f) = true -> opcode (hdr_ f) = op ->
  opcode_ f = invalid_frame -> payload_buf_ f = [] ->
  (op = text_frame -> validation_offset_ f = zlen b) ->
  delivered op b (payload_len (hdr_ f)) f (complete_frame b f).
Proof.
  intros Hop Hf Ho Hi Hp Hv. unfold complete_frame. rewrite Hf, Hi, Z.eqb_refl.
  assert (Hn : (opcode (hdr_ f) =? text_frame) && negb (validation_offset_ f =? zlen b) = false).
  { rewrite Ho. destruct Hop as [->| ->]; [|done]. by rewrite Hv, !Z.eqb_refl. }
  rewrite Hn, Ho. pose proof (handle_delivers op b (payload_len (hdr_ f)) (set_offset f 0) Hop) as (H1 & H2).
  split; [done|]. destruct (up_result op b <? 0); [done|].
  destruct H2 as (H2 & H3 & H4 & H5 & H6). split; [done|]. unfold awaits. by rewrite H3, H4, H5, H6.
Qed.

Lemma deliver_fragmented op msg b f :
  op = text_frame \/ op = binary_frame -> fin (hdr_ f) = true ->
  opcode_ f = op -> payload_buf_ f = msg -> (op = text_frame -> validation_offset_ f = zlen msg) ->
  delivered op msg (payload_len (hdr_ f)) f (complete_frame b f).
Proof.
  intros Hop Hf Ho Hp Hv. unfold complete_frame. rewrite Hf, Ho.
  assert (Hi : (op =? invalid_frame) = false) by (by destruct Hop as [->| ->]).
  assert (Hn : (op =? text_frame) && negb (validation_offset_ f =? zlen (payload_buf_ f)) = false).
  { destruct Hop as [->| ->]; [|done]. by rewrite Hp, Hv, !Z.eqb_refl. }
  rewrite Hi, Hn, Hp. pose proof (handle_delivers op msg (payload_len (hdr_ f)) f Hop) as (H1 & H2).
  destruct (handle op msg (payload_len (hdr_ f)) f) as [r f1]. cbn [fst snd] in *.
  split; [done|]. cbn [fst snd]. destruct (up_result op msg <? 0); [done|].
  destruct H2 as (H2 & H3 & _). by split.
Qed.

Lemma continue_message b f :
  fin (hdr_ f) = false ->
  let op := if opcode_ f =? invalid_frame then opcode (hdr_ f) else opcode_ f in
  validation_offset_ f = (if op =? text_frame then offset_of (payload_buf_ f) else 0) ->
  let out := complete_frame b f in
  out.1 = payload_len (hdr_ f) /\ up_calls out.2 = up_calls f /\ awaits op (payload_buf_ f) out.2.
Proof.
  intros Hf op Hv. unfold complete_frame. rewrite Hf. cbn [fst snd].
  split; [done|]. rewrite next_frame_up_calls. unfold op in *.
  destruct (opcode_ f =? invalid_frame) eqn:E; (split; [done|]); by repeat split.
Qed.

(** The text of a message is rejected when it cannot be, or at the end is not,
    valid UTF-8. *)
Definition rejects_text (op : Z) (last : bool) (seen : bytes) : bool :=
  (op =? text_frame) && negb (if last then Rfc3629.valid seen else plausible seen).

Definition frame_spec (op : Z) (last : bool) (seen : bytes) (n : Z) (f : framing)
    (out : Z * framing) : Prop :=
  if rejects_text op last seen
  then out.1 = -1 /\ up_calls out.2 = up_calls f ++ [up_abort invalid_utf8]
  else if last then delivered op seen n f out
  else out.1 = n /\ up_calls out.2 = up_calls f /\ awaits op seen out.2.

(** The last piece of text: complete only if the offset is at the end. *)
Lemma complete_rejects op b seen f :
  fin (hdr_ f) = true -> op = text_frame -> validation_offset_ f = offset_of seen ->
  Rfc3629.valid seen = false ->
  (opcode_ f = invalid_frame /\ opcode (hdr_ f) = op /\ b = seen \/
   opcode_ f = op /\ payload_buf_ f = seen) ->
  complete_frame b f = (-1, abort_and_shutdown invalid_utf8 f).
Proof.
  intros Hf -> Hv Hbad H. unfold complete_frame. rewrite Hf, Hv.
  assert (Hne : (offset_of seen =? zlen seen) = false) by (by rewrite offset_complete).
  destruct H as [(-> & -> & ->)|(-> & ->)]; by rewrite Hne.
Qed.

Lemma text_frame_spec w single base f :
  wf_wire true w -> hdr_ f = w_hdr w -> at_text single base [] f ->
  (single = true -> payload_buf_ f = []) ->
  frame_spec text_frame (w_fin w) (base ++ w_data w) (zlen (w_data w)) f (payload_phase w f).
Proof.
  intros Hwf Hh Hat Hp0. pose proof (text_phase w single base f Hwf Hh Hat) as Hph.
  destruct Hat as (Hc & _ & _). unfold carries_text in Hc. rewrite Hh in Hc. simpl in Hc.
  set (seen := base ++ w_data w) in *. unfold frame_spec, rejects_text. rewrite Z.eqb_refl. cbn [andb].
  set (f2 := text_state single base (w_data w) f) in *.
  assert (Hh2 : hdr_ f2 = w_hdr w) by (by unfold f2; destruct single).
  assert (Ho2 : validation_offset_ f2 = offset_of seen) by (by unfold f2; destruct single).
  assert (Hup : up_calls f2 = up_calls f) by apply text_state_up_calls.
  destruct (plausible seen) eqn:Epl.
  2: { assert (Rfc3629.valid seen = false) as ->.
       { destruct (Rfc3629.valid seen) eqn:E; [|done]. apply valid_plausible in E. congruence. }
       assert ((if w_fin w then false else false) = false) as -> by (by destruct (w_fin w)).
       destruct Hph as [b' ->]. cbn [negb fst snd]. by rewrite abort_up_calls, text_state_up_calls. }
  rewrite Hph. destruct (w_fin w) eqn:Ef.
  - destruct (Rfc3629.valid seen) eqn:Ev; cbn [negb].
    + assert (Hz : validation_offset_ f2 = zlen seen).
      { rewrite Ho2. apply Z.eqb_eq. by rewrite offset_complete. }
      assert (Hd : delivered text_frame seen (payload_len (hdr_ f2)) f2 (complete_frame (w_data w) f2)).
      { destruct single.
        - destruct Hc as (H1 & _ & H3 & H4). assert (seen = w_data w) as -> by (unfold seen; by rewrite H4).
          apply deliver_single; auto; unfold f2; simpl; rewrite ?Hh; simpl; auto.
        - destruct Hc as [(_ & ? & _)|(_ & H2)]; [congruence|].
          apply deliver_fragmented; auto; unfold f2; simpl; rewrite ?Hh; simpl; auto. }
      unfold delivered in *. rewrite Hup, Hh2 in Hd. done.
    + assert (complete_frame (w_data w) f2 = (-1, abort_and_shutdown invalid_utf8 f2)) as ->.
      { apply (complete_rejects text_frame (w_data w) seen); auto; [by rewrite Hh2|].
        destruct single.
        - destruct Hc as (H1 & _ & H3 & H4). left. unfold f2, seen; simpl. rewrite Hh, H4. auto.
        - right. destruct Hc as [(_ & ? & _)|(_ & H2)]; [congruence|]. by unfold f2; simpl. }
      cbn [fst snd]. by rewrite abort_up_calls, Hup.
  - cbn [negb]. destruct single; [destruct Hc as (_ & ? & _); congruence|].
    assert (Hop : (if opcode_ f2 =? invalid_frame then opcode (hdr_ f2) else opcode_ f2) = text_frame).
    { unfold f2. simpl. rewrite Hh. simpl. by destruct Hc as [(-> & _ & ->)|(_ & ->)]. }
    pose proof (continue_message (w_data w) f2) as Hcm. rewrite Hop, Hh2 in Hcm. cbn [fin w_hdr payload_len] in Hcm.
    destruct (Hcm Ef) as (H1 & H2 & H3); [by rewrite Ho2|]. rewrite Hup in H2. done.
Qed.

Lemma binary_frame_spec w op acc f :
  wf_wire false w -> hdr_ f = w_hdr w -> opcode_ f = op -> payload_buf_ f = acc ->
  validation_offset_ f = 0 ->
  (op = invalid_frame /\ acc = [] /\ w_op w = binary_frame) \/
  (op = binary_frame /\ w_op w = continuation_frame) ->
  frame_spec binary_frame (w_fin w) (acc ++ w_data w) (zlen (w_data w)) f (payload_phase w f).
Proof.
  intros Hwf Hh Ho Hp Hv Hop. unfold frame_spec, rejects_text.
  change (binary_frame =? text_frame) with false. cbn [andb].
  assert (Hctl : is_control_frame (w_op w) = false) by (by destruct Hop as [(_ & _ & ->)|(_ & ->)]).
  assert (Htxt : (w_op w =? text_frame) || (opcode_ f =? text_frame) = false).
  { rewrite Ho. by destruct Hop as [(-> & _ & ->)|(-> & ->)]. }
  rewrite (other_phase w f Hwf Hh Hctl Htxt), Ho.
  set (f2 := set_payload_buf f (payload_buf_ f ++ w_data w)).
  assert (Hup : up_calls f2 = up_calls f) by done.
  assert (Hmore : w_fin w = false -> complete_frame (w_data w) f2 =
    (zlen (w_data w), (complete_frame (w_data w) f2).2) /\
    up_calls (complete_frame (w_data w) f2).2 = up_calls f /\
    awaits binary_frame (acc ++ w_data w) (complete_frame (w_data w) f2).2).
  { intros Ef. pose proof (continue_message (w_data w) f2) as Hcm.
    assert (E : (if opcode_ f2 =? invalid_frame then opcode (hdr_ f2) else opcode_ f2) = binary_frame).
    { unfold f2. simpl. rewrite Ho, Hh. by destruct Hop as [(-> & _ & E)|(-> & E)]; simpl; rewrite ?E. }
    rewrite E in Hcm. unfold f2 in Hcm at 1. simpl in Hcm. rewrite Hh in Hcm. simpl in Hcm.
    destruct (Hcm Ef Hv) as (H1 & H2 & H3). rewrite Hp in H3. split_and!; try done.
    destruct (complete_frame (w_data w) f2). simpl in *. by rewrite H1. }
  destruct (w_fin w) eqn:Ef.
  - destruct Hop as [(-> & -> & E)|(-> & E)]; rewrite E.
    + change ((binary_frame =? binary_frame) && negb true || (invalid_frame =? binary_frame)) with false.
      cbn iota. pose proof (deliver_single binary_frame (w_data w) f) as Hd. rewrite Hh in Hd.
      apply Hd; auto. done.
    + change ((continuation_frame =? binary_frame) && negb true || (binary_frame =? binary_frame)) with true.
      cbn iota.
      assert (Hd : delivered binary_frame (acc ++ w_data w) (payload_len (hdr_ f2)) f2
                     (complete_frame (w_data w) f2)).
      { apply deliver_fragmented; auto; unfold f2; simpl; by rewrite ?Hh, ?Hp. }
      unfold delivered in *. rewrite Hup in Hd.
      replace (zlen (w_data w)) with (payload_len (hdr_ f2)) by (unfold f2; simpl; by rewrite Hh). done.
  - destruct (Hmore eq_refl) as (H1 & H2 & H3).
    assert (((w_op w =? binary_frame) && negb false) || (op =? binary_frame) = true) as ->.
    { by destruct Hop as [(-> & _ & ->)|(-> & ->)]. }
    split; [by rewrite H1|]. done.
Qed.

(** One data frame, whatever follows its header in the buffer. *)
Lemma receive_data op acc w behind f :
  awaits op acc f -> admissible op acc w -> wf_wire (message_op op w =? text_frame) w ->
  let mop := message_op op w in
  let seen := acc ++ w_data w in
  let out := receive_frame w behind f in
  if rejects_text mop (w_fin w) seen
  then out.1 = -1 /\ up_calls out.2 = up_calls f ++ [up_abort invalid_utf8]
  else if w_fin w
  then up_calls out.2 = up_calls f ++ [up_call mop seen] /\
       (if up_result mop seen <? 0 then out.1 = -1
        else 0 < out.1 /\ awaits invalid_frame [] out.2)
  else 0 < out.1 /\ up_calls out.2 = up_calls f /\ awaits mop seen out.2.
Proof.
  intros Haw Had Hwf mop seen. pose proof Haw as (Hinv & Ho & Hp & Hoff).
  pose proof Had as (Hop & Hl & _). pose proof Hwf as (Hk & Hkey & _).
  pose proof (header_length_pos (w_key w) (zlen (w_data w))) as Hn.
  destruct (consume_header_accepts w behind f Hk Hkey ltac:(lia)
    (admissible_accepted _ _ _ _ Haw Had)) as [pol Hc].
  set (f1 := emit (configure_read pol) (set_hdr f (w_hdr w))) in *.
  assert (Hup : up_calls f1 = up_calls f).
  { unfold f1. rewrite up_calls_emit. simpl. apply app_nil_r. }
  assert (Hspec : frame_spec mop (w_fin w) seen (zlen (w_data w)) f1 (payload_phase w f1)).
  { unfold mop, seen, message_op in *. destruct Hop as [(-> & -> & [E|E])|([->| ->] & E)];
      rewrite E in *; cbn iota in *.
    - destruct (w_fin w) eqn:Ef.
      + rewrite <- Ef. apply (text_frame_spec w true []); auto. unfold at_text, carries_text. simpl. auto.
      + rewrite <- Ef. apply (text_frame_spec w false []); [done|done| |done].
        unfold at_text, carries_text. simpl. auto 6.
    - apply (binary_frame_spec w invalid_frame []); auto 6.
    - apply (text_frame_spec w false acc); [done|done| |done]. unfold at_text, carries_text. simpl.
      rewrite app_nil_r. auto.
    - apply (binary_frame_spec w binary_frame acc); auto. }
  rewrite (receive_frame_phases w behind f _ f1 Hinv Hc) by (done || lia).
  destruct (payload_phase w f1) as [r f2]. unfold frame_spec, delivered in Hspec. cbn [fst snd] in *.
  rewrite Hup in Hspec. pose proof (zlen_nonneg (w_data w)) as Hz.
  destruct (rejects_text mop (w_fin w) seen).
  { destruct Hspec as [-> ->]. split; [|done]. by destruct (zlen (w_data w) =? 0). }
  assert (Hpos : r = zlen (w_data w) ->
    0 < (if zlen (w_data w) =? 0 then if r <? 0 then -1 else header_length (w_key w) (zlen (w_data w)) else r)).
  { intros ->. destruct (Z.eqb_spec (zlen (w_data w)) 0) as [E|E]; [|lia]. rewrite (proj2 (Z.ltb_ge _ _)) by lia. lia. }
  destruct (w_fin w).
  - destruct Hspec as [-> Hspec]. split; [done|]. destruct (up_result mop seen <? 0).
    + rewrite Hspec. by destruct (zlen (w_data w) =? 0).
    + destruct Hspec. auto.
  - destruct Hspec as (? & ? & ?). auto.
Qed.

(** Pings and pongs may arrive between the frames of a message. *)
Definition ping_or_pong (w : wire_frame) : Prop :=
  (w_op w = ping_frame \/ w_op w = pong_frame) /\ w_fin w = true /\ zlen (w_data w) <= 125 /\
  wf_wire false w.

Definition echo (w : wire_frame) (f : framing) : framing :=
  if w_op w =? ping_frame then ship_pong (w_data w) f else f.

Lemma control_phase w f :
  ping_or_pong w -> hdr_ f = w_hdr w ->
  payload_phase w f = (zlen (w_data w), next_frame (echo w f)).
Proof.
  intros (Hop & Hf & Hl & (Hk & Hkey & _ & Hcat & Hne & Hone)) Hh.
  assert (Hcp : consume_payload (unmask (w_key w) (w_data w)) 0 f
    = (zlen (w_data w), w_data w, next_frame (echo w f))).
  { unfold consume_payload. rewrite Hh. cbn [mask_key opcode fin w_hdr payload_len].
    pose proof (unmask_step (w_key w) [] (unmask (w_key w) (w_data w))) as Hu. cbn [app] in Hu.
    rewrite unmask_nil in Hu. cbn [app length] in Hu. rewrite unmask_involutive in Hu. rewrite Hu.
    unfold echo, handle. by destruct Hop as [->| ->]. }
  unfold payload_phase. destruct (zlen (w_data w) =? 0) eqn:E0.
  - apply Z.eqb_eq, zlen_zero in E0. rewrite E0, unmask_nil in Hcp. by rewrite Hcp, E0.
  - specialize (Hone eq_refl). apply Z.eqb_neq in E0.
    destruct (w_chunks w) as [|c [|]] eqn:Ec; [| |simpl in Hone; lia].
    + cbn [concat] in Hcat. apply (f_equal length) in Hcat. rewrite unmask_length in Hcat.
      unfold zlen in E0. by rewrite <- Hcat in E0.
    + cbn [concat] in Hcat. rewrite app_nil_r in Hcat. subst c. cbn [feed app length].
      rewrite consume_valid by (unfold valid; rewrite Hh; simpl; by rewrite known_valid).
      rewrite Hcp. by rewrite (proj2 (Z.eqb_neq _ _) E0).
Qed.

Lemma echo_state w f :
  up_calls (echo w f) = up_calls f /\ opcode_ (echo w f) = opcode_ f /\
  payload_buf_ (echo w f) = payload_buf_ f /\ validation_offset_ (echo w f) = validation_offset_ f.
Proof.
  unfold echo. destruct (w_op w =? ping_frame); [|done]. unfold ship_pong. rewrite ship_up_calls.
  unfold ship, draw_key. by destruct (mask_outgoing_frames f).
Qed.

Lemma receive_control op acc w behind f :
  awaits op acc f -> ping_or_pong w ->
  exists p,
  receive_frame w behind f =
    ((if zlen (w_data w) =? 0 then header_length (w_key w) (zlen (w_data w)) else zlen (w_data w)),
     next_frame (echo w (emit (configure_read p) (set_hdr f (w_hdr w))))) /\
  0 < (receive_frame w behind f).1 /\ up_calls (receive_frame w behind f).2 = up_calls f /\
  awaits op acc (receive_frame w behind f).2.
Proof.
  intros (Hinv & Ho & Hp & Hoff) Hw. pose proof Hw as (Hop & Hf & Hl & (Hk & Hkey & _)).
  pose proof (header_length_pos (w_key w) (zlen (w_data w))) as Hn.
  pose proof (zlen_nonneg (w_data w)) as Hz.
  assert (Hv : validate_header (header_length (w_key w) (zlen (w_data w))) (set_hdr f (w_hdr w)) = None).
  { unfold validate_header. simpl. assert (is_control_frame (w_op w) = true) as -> by (by destruct Hop as [->| ->]).
    by rewrite (proj2 (Z.ltb_ge _ _)), Hf by lia. }
  destruct (consume_header_accepts w behind f Hk Hkey) as [pol Hc]; [unfold max_frame_size; lia|done|].
  exists pol. set (f1 := emit (configure_read pol) (set_hdr f (w_hdr w))) in *.
  rewrite (receive_frame_phases w behind f _ f1 Hinv Hc) by (done || lia).
  rewrite (control_phase w f1 Hw) by done. rewrite (proj2 (Z.ltb_ge _ _)) by lia. split; [done|].
  cbn [fst snd]. destruct (echo_state w f1) as (E1 & E2 & E3 & E4).
  split; [destruct (Z.eqb_spec (zlen (w_data w)) 0); lia|].
  rewrite next_frame_up_calls, E1. unfold f1 at 1. rewrite up_calls_emit. simpl.
  split; [apply app_nil_r|]. unfold awaits. cbn [next_frame hdr_ opcode_ payload_buf_ validation_offset_ set_hdr emit].
  rewrite E2, E3, E4. done.
Qed.

(** [transmits op acc ws mop msg]: with [acc] of a message of type [op]
    received, the frames [ws] complete it to [msg]. *)
Inductive transmits : Z -> bytes -> list wire_frame -> Z -> bytes -> Prop :=
| transmits_control op acc w ws mop msg :
    ping_or_pong w -> transmits op acc ws mop msg -> transmits op acc (w :: ws) mop msg
| transmits_fragment op acc w ws mop msg :
    admissible op acc w -> wf_wire (message_op op w =? text_frame) w -> w_fin w = false ->
    transmits (message_op op w) (acc ++ w_data w) ws mop msg -> transmits op acc (w :: ws) mop msg
| transmits_last op acc w :
    admissible op acc w -> wf_wire (message_op op w =? text_frame) w -> w_fin w = true ->
    transmits op acc [w] (message_op op w) (acc ++ w_data w).

Lemma transmits_prefix op acc ws mop msg :
  transmits op acc ws mop msg -> exists more, msg = acc ++ more.
Proof.
  induction 1 as [| op acc w ws mop msg _ _ _ _ [more ->]|]; eauto.
  exists (w_data w ++ more). by rewrite app_assoc.
Qed.

Lemma admissible_op op acc w :
  admissible op acc w -> message_op op w = text_frame \/ message_op op w = binary_frame.
Proof.
  intros ([(_ & _ & [E|E])|([E|E] & E')] & _); unfold message_op; rewrite ?E, ?E'; auto.
Qed.

Lemma transmits_op op acc ws mop msg :
  transmits op acc ws mop msg ->
  (op = text_frame \/ op = binary_frame -> mop = op) /\ (mop = text_frame \/ mop = binary_frame).
Proof.
  induction 1 as [| op acc w ws mop msg Had _ _ _ [IH1 IH2]| op acc w Had]; [done| |].
  - split; [|done]. intros Hop. rewrite IH1 by (by eapply admissible_op).
    destruct Had as ([(-> & _ & _)|(_ & E)] & _); [by destruct Hop|]. unfold message_op. by rewrite E.
  - split; [|by eapply admissible_op]. intros Hop.
    destruct Had as ([(-> & _ & _)|(_ & E)] & _); [by destruct Hop|]. unfold message_op. by rewrite E.
Qed.

Lemma transmits_received op acc ws mop msg f :
  transmits op acc ws mop msg -> awaits op acc f ->
  let out := receive_frames ws f in
  if (mop =? text_frame) && negb (Rfc3629.valid msg)
  then out.1 = -1 /\ up_calls out.2 = up_calls f ++ [up_abort invalid_utf8]
  else up_calls out.2 = up_calls f ++ [up_call mop msg] /\
       (if up_result mop msg <? 0 then out.1 = -1 else 0 < out.1 /\ awaits invalid_frame [] out.2).
Proof.
  intros Ht. revert f. induction Ht as [op acc w ws mop msg Hw Ht IH
    |op acc w ws mop msg Had Hwf Hfin Ht IH|op acc w Had Hwf Hfin]; intros f Haw; cbn [receive_frames].
  - destruct (receive_control op acc w [] f Haw Hw) as (p & _ & Hpos & Hup & Haw').
    destruct (receive_frame w [] f) as [r f1]. cbn [fst snd] in *.
    rewrite (proj2 (Z.ltb_ge _ _)) by lia. rewrite <- Hup. by apply IH.
  - pose proof (receive_data op acc w [] f Haw Had Hwf) as Hd. cbv zeta in Hd. rewrite Hfin in Hd.
    destruct (receive_frame w [] f) as [r f1]. cbn [fst snd] in Hd.
    destruct (transmits_prefix _ _ _ _ _ Ht) as [more Hm].
    assert (Hmop : mop = message_op op w).
    { apply (transmits_op _ _ _ _ _ Ht). by eapply admissible_op. }
    destruct (rejects_text (message_op op w) false (acc ++ w_data w)) eqn:Er.
    + unfold rejects_text in Er. apply andb_true_iff in Er as [Et Ep]. rewrite Hmop, Et.
      assert (Rfc3629.valid msg = false) as ->.
      { destruct (Rfc3629.valid msg) eqn:Ev; [|done]. apply valid_plausible in Ev.
        rewrite Hm in Ev. apply plausible_prefix in Ev. by rewrite Ev in Ep. }
      destruct Hd as [-> Hd]. done.
    + destruct Hd as (Hpos & Hup & Haw'). rewrite (proj2 (Z.ltb_ge _ _)) by lia.
      rewrite <- Hup. by apply IH.
  - pose proof (receive_data op acc w [] f Haw Had Hwf) as Hd. cbv zeta in Hd. rewrite Hfin in Hd.
    destruct (receive_frame w [] f) as [r f1]. cbn [fst snd] in Hd. unfold rejects_text in Hd.
    destruct ((message_op op w =? text_frame) && negb (Rfc3629.valid (acc ++ w_data w))).
    + by destruct Hd as [-> Hd].
    + destruct Hd as [Hup Hd]. destruct (up_result _ _ <? 0).
      * rewrite Hd. done.
      * destruct Hd as [Hpos Haw']. rewrite (proj2 (Z.ltb_ge _ _)) by lia. done.
Qed.

(** ** Claims *)

(** C37. Receiving a message.  However a text or binary message is cut into
    frames, masked, and interleaved with pings and pongs, and in whatever pieces
    the payload of text frames arrives, the upper layer receives exactly the
    concatenation of the fragments, once; unless it refuses the message, which ends
    the connection, the receiver is then ready for the next message.  Each frame with
    its header is shorter than [max_frame_size], and the message is at most as long
    (larger ones are aborted).  A text that is not valid UTF-8 never reaches the
    upper layer: the connection is aborted with [malformed_message]. *)
Theorem ws_message_received ws mop msg f :
  transmits invalid_frame [] ws mop msg -> awaits invalid_frame [] f ->
  let out := receive_frames ws f in
  if (mop =? text_frame) && negb (Rfc3629.valid msg)
  then out.1 = -1 /\ up_calls out.2 = up_calls f ++ [up_abort invalid_utf8]
  else up_calls out.2 = up_calls f ++ [up_call mop msg] /\
       (if up_result mop msg <? 0 then out.1 = -1 else 0 < out.1 /\ awaits invalid_frame [] out.2).
Proof. apply transmits_received. Qed.

(** The headers the protocol allows while [acc] of a message of type [op] has
    been received. *)
Definition legal (op : Z) (acc : bytes) (h : header) (n : Z) : Prop :=
  if is_control_frame (opcode h) then payload_len h <= 125 /\ fin h = true
  else payload_len h < max_frame_size - n /\ zlen acc + payload_len h <= max_frame_size /\
       (opcode h = continuation_frame <-> op <> invalid_frame).

Lemma decode_header_pos buffer n h : decode_header buffer = (n, Some h) -> 0 < n.
Proof using Type.
  unfold decode_header. intros H. repeat case_match; simplify_eq; lia.
Qed.

Lemma validate_header_legal op acc h n f :
  awaits op acc f -> validate_header n (set_hdr f h) = None <-> legal op acc h n.
Proof using Type.
  clear draw text_result binary_result to_string from_integer.
  intros (_ & Ho & Hp & _). unfold validate_header, legal. simpl. rewrite Ho, Hp.
  destruct (is_control_frame (opcode h)).
  - destruct (Z.ltb_spec 125 (payload_len h)), (fin h); simpl; intuition (lia || done).
  - destruct (Z.leb_spec (max_frame_size - n) (payload_len h)); [intuition (lia || done)|].
    destruct (Z.ltb_spec max_frame_size (zlen acc + payload_len h)); [intuition (lia || done)|].
    destruct (Z.eqb_spec (opcode h) continuation_frame), (Z.eqb_spec op invalid_frame); simpl;
      intuition done.
Qed.

Lemma validate_header_code n f err : validate_header n f = Some err -> code err = protocol_error.
Proof using Type. unfold validate_header. intros H. by repeat case_match; simplify_eq. Qed.

(** Checking headers.  With a complete header in the buffer, the receiver
    goes on to the payload, of which it then asks for exactly (text: at most)
    [payload_len] bytes, if and only if the header is legal: control frames are
    final and have at most 125 bytes, a continuation comes if and only if a
    message is unfinished, and neither the frame nor the message becomes larger
    than [max_frame_size].  Otherwise, and for malformed headers, it aborts with
    [protocol_error], sends a closing frame and shuts down.  With less than a
    header it waits and nothing changes. *)
Theorem ws_header_checked op acc buffer f :
  awaits op acc f ->
  let (n, decoded) := decode_header buffer in
  let out := consume_header buffer f in
  match decoded with
  | Some h =>
      (legal op acc h n /\ out.1 = n /\ hdr_ out.2 = h /\ up_calls out.2 = up_calls f /\
       (calls out.2 = calls f ++ [configure_read (exactly (payload_len h))] \/
        calls out.2 = calls f ++ [configure_read (up_to (payload_len h))])) \/
      (~ legal op acc h n /\ out.1 = -1 /\ exists err frame, code err = protocol_error /\
       calls out.2 = calls f ++ [up_abort err; output frame; down_shutdown])
  | None =>
      (n = 0 -> out = (0, f)) /\
      (n < 0 -> out.1 = -1 /\ exists err frame, code err = protocol_error /\
       calls out.2 = calls f ++ [up_abort err; output frame; down_shutdown])
  end.
Proof using draw to_string.
  intros Haw.
  assert (Hab : forall err g, calls g = calls f -> code err = protocol_error ->
    exists err' frame, code err' = protocol_error /\
    calls (abort_and_shutdown err g) = calls f ++ [up_abort err'; output frame; down_shutdown]).
  { intros err g Hg He. unfold abort_and_shutdown, shutdown_error. rewrite He.
    unfold shutdown, ship_closing_status, ship, draw_key. simpl.
    destruct (mask_outgoing_frames g); simpl; rewrite Hg, <- !app_assoc; eauto. }
  unfold consume_header. destruct (decode_header buffer) as [n [h|]] eqn:Ed; cbv zeta.
  - pose proof (decode_header_pos _ _ _ Ed) as Hn. rewrite (proj2 (Z.ltb_ge n 0)), (proj2 (Z.eqb_neq n 0)) by lia.
    destruct (validate_header n (set_hdr f h)) as [err|] eqn:Ev; cbn [fst snd].
    + right. split.
      { intros Hl. apply (validate_header_legal op acc h n f Haw) in Hl. congruence. }
      split; [done|]. apply Hab; [done|]. by eapply validate_header_code.
    + left. split; [by apply (validate_header_legal op acc h n f Haw)|].
      split_and!; try done; [rewrite up_calls_emit; apply app_nil_r|]. simpl. case_match; auto.
  - split.
    + intros ->. done.
    + intros Hn. rewrite (proj2 (Z.ltb_lt n 0)) by lia. split; [done|]. by apply Hab.
Qed.

(** The message that a side sends with [end_text_message] or
    [end_binary_message]. *)
Definition end_message (text : bool) (f : framing) : framing :=
  if text then end_text_message f else end_binary_message f.

Definition message_buf (text : bool) (f : framing) : bytes :=
  if text then text_buf_ f else binary_buf_ f.

Lemma ship_output op payload f :
  (forall n, is_uint 32 (draw n)) ->
  exists key, is_uint 32 key /\
    calls (ship op payload f) =
      calls f ++ [output (frame_header op key (zlen payload) fin_flag ++ unmask key payload)].
Proof.
  intros Hd. unfold ship, draw_key, mask_if, unmask.
  destruct (mask_outgoing_frames f); cbn [emit calls set_rng].
  - exists (draw (rng_ f)). split; [done|]. rewrite assemble_frame_layout. cbn [app].
    unfold zlen. rewrite mask_length. destruct (Z.eqb_spec (draw (rng_ f)) 0) as [E|]; [|done].
    rewrite E. cbn [negb]. by rewrite mask_data_loop, mask_zero.
  - exists 0. split; [unfold is_uint; lia|]. rewrite assemble_frame_layout. done.
Qed.

(** From one side to the other.  What a side ships for a text or binary
    message is one frame; if that frame arrives, the header first and the payload
    in any pieces (binary: at once), the upper layer of an idle receiver gets
    exactly the message, and the sender's buffer is empty again. *)
Theorem ws_transfer (text : bool) (sender receiver : framing) :
  (forall n, is_uint 32 (draw n)) ->
  let msg := message_buf text sender in
  let op := if text then text_frame else binary_frame in
  all_bytes msg -> zlen msg < max_frame_size - 14 -> (text = true -> Rfc3629.valid msg = true) ->
  awaits invalid_frame [] receiver ->
  let sender' := end_message text sender in
  message_buf text sender' = [] /\
  exists hdr payload, calls sender' = calls sender ++ [output (hdr ++ payload)] /\
    forall chunks behind,
      concat chunks = payload -> Forall (fun c => c <> []) chunks ->
      (text = false -> (length chunks <= 1)%nat) ->
      exists w, w_header w = hdr /\ w_chunks w = chunks /\
        let out := receive_frame w behind receiver in
        up_calls out.2 = up_calls receiver ++ [up_call op msg] /\
        (if up_result op msg <? 0 then out.1 = -1 else 0 < out.1 /\ awaits invalid_frame [] out.2).
Proof.
  intros Hdraw msg op Hb Hlen Hval Haw sender'. split; [by destruct text|].
  destruct (ship_output op msg sender Hdraw) as (key & Hkey & Hship).
  exists (frame_header op key (zlen msg) fin_flag), (unmask key msg). split.
  { unfold sender', end_message, op, msg, message_buf in *. by destruct text. }
  intros chunks behind Hcat Hne Hone. exists (mk_wire true op key msg chunks).
  split; [done|]. split; [done|]. cbv zeta.
  assert (Hmop : message_op invalid_frame (mk_wire true op key msg chunks) = op) by (by destruct text).
  assert (Hop : op = text_frame \/ op = binary_frame) by (destruct text; auto).
  pose proof (receive_data invalid_frame [] (mk_wire true op key msg chunks) behind receiver Haw) as Hd.
  rewrite Hmop in Hd. cbv zeta in Hd. cbn [w_fin w_data app] in Hd.
  assert (rejects_text op true msg = false) as Hr.
  { unfold rejects_text, op. destruct text; [|done]. by rewrite Hval. }
  rewrite Hr in Hd. apply Hd.
  - unfold admissible. cbn [w_op w_data w_key]. split; [left; auto|].
    assert (header_length key (zlen msg) <= 14) by (unfold header_length; repeat case_if; lia).
    change (zlen []) with 0. lia.
  - unfold wf_wire. cbn [w_op w_data w_key w_chunks]. split_and!; auto.
    + by destruct Hop as [->| ->].
    + intros E. apply Hone. unfold op in E. by destruct text.
Qed.

End Framing.

(** ** A concrete run

    A text of two characters in two masked fragments, cut within a character; the
    first one arrives byte by byte and a ping arrives between the two. *)

Definition demo_draw (n : nat) : Z := 0x01020304 + Z.of_nat n mod 256.
Definition demo_accept (msg : bytes) : Z := zlen msg.
Definition demo_to_string (err : error) : bytes := [].
Definition demo_status (x : Z) : option status := if x =? 1000 then Some normal_close else None.

Definition demo_first : wire_frame :=
  mk_wire false text_frame 0x11223344 [0x68; 0xC3] [[0x79]; [0xE1]].
Definition demo_ping : wire_frame := mk_wire true ping_frame 0 [1; 2] [[1; 2]].
Definition demo_last : wire_frame := mk_wire true continuation_frame 0x0A0B0C0D [0xA9] [[0xA3]].

Ltac wire := repeat split; try reflexivity; try (vm_compute; congruence);
  try (repeat constructor; congruence); try (repeat constructor; vm_compute; congruence).

Lemma demo_transmits :
  transmits invalid_frame [] [demo_first; demo_ping; demo_last] text_frame [0x68; 0xC3; 0xA9].
Proof.
  apply transmits_fragment; [| |reflexivity|].
  - split; [left; auto|]. vm_compute. split; congruence.
  - wire.
  - apply transmits_control; [split; [left; reflexivity|wire]|].
    apply (transmits_last text_frame [0x68; 0xC3] demo_last); [| |reflexivity].
    + split; [right; auto|]. vm_compute. split; congruence.
    + wire.
Qed.

Lemma ws_message_received_witness :
  up_calls (receive_frames demo_draw demo_accept demo_accept demo_to_string demo_status
    [demo_first; demo_ping; demo_last] (make false)).2 = [consume_text [0x68; 0xC3; 0xA9]].
Proof.
  apply (ws_message_received demo_draw demo_accept demo_accept demo_to_string demo_status
    [demo_first; demo_ping; demo_last] text_frame [0x68; 0xC3; 0xA9] (make false)).
  - apply demo_transmits.
  - repeat split.
Defined.

(** A continuation without a message. *)
Lemma ws_header_checked_witness :
  (consume_header demo_draw demo_to_string (w_header demo_last) (make false)).1 = -1 /\
  ~ legal invalid_frame [] (mk_header true continuation_frame 0x0A0B0C0D 1) 6.
Proof.
  pose proof (ws_header_checked demo_draw demo_to_string invalid_frame [] (w_header demo_last) (make false)
    ltac:(repeat split)) as H.
  assert (E : decode_header (w_header demo_last) = (6, Some (mk_header true continuation_frame 0x0A0B0C0D 1)))
    by (vm_compute; reflexivity).
  rewrite E in H. destruct H as [(_ & H & _)|(H1 & H2 & _)]; [|split; assumption].
  vm_compute in H. discriminate H.
Defined.

Definition demo_sender : framing :=
  mk_framing true no_header invalid_frame [] 0 [] [0x68; 0xC3; 0xA9] 0 [].

Lemma ws_transfer_witness :
  message_buf true (end_message demo_draw true demo_sender) = [].
Proof.
  apply (ws_transfer demo_draw demo_accept demo_accept demo_to_string demo_status
    true demo_sender (make false)).
  - intros n. unfold demo_draw, is_uint. pose proof (Z.mod_pos_bound (Z.of_nat n) 256). lia.
  - repeat constructor; vm_compute; congruence.
  - vm_compute. reflexivity.
  - reflexivity.
  - repeat split.
Defined.

End WebSocketFraming.
