(* ===== verification/LpFraming.v ===== *)
(** * Length-prefix framing (libcaf_net/caf/net/lp/framing.cpp)

    Messages on a byte stream with a big-endian size prefix of 1, 2, 4 or 8
    bytes.  The sender reserves the prefix, lets the upper layer append the
    message and patches the size in; the receiver asks the transport for exactly
    the prefix, then for prefix and message together. *)

From S2P Require Import Prelude NetworkOrder.

Module LpFraming.

Inductive size_field_type := u1 | u2 | u4 | u8.

(** The size of the prefix, as the constructor computes it; also [sizeof(T)]
    in the templates the public functions dispatch to. *)
Definition hdr_size (f : size_field_type) : nat :=
  match f with u1 => 1 | u2 => 2 | u4 => 4 | u8 => 8 end%nat.

Record framing := mk_framing {
  size_field_ : size_field_type;
  message_offset_ : Z;
  max_message_size_ : Z;
}.

Definition make (f : size_field_type) (max : Z) : framing := mk_framing f 0 max.

Definition hdr_len (s : framing) : nat := hdr_size (size_field_ s).

(** ** Sending *)

Definition begin_message (buf : bytes) (s : framing) : framing * bytes :=
  (mk_framing (size_field_ s) (zlen buf) (max_message_size_ s), buf ++ replicate (hdr_len s) 0).

(** The object representation of the size field; a single byte is not swapped. *)
Definition size_bytes (f : size_field_type) (msg_size : Z) : bytes :=
  let v := uwrap (8 * Z.of_nat (hdr_size f)) msg_size in
  match f with
  | u1 => le_bytes 1 v
  | _ => le_bytes (hdr_size f) (to_network_order (hdr_size f) v)
  end.

Definition end_message (buf : bytes) (s : framing) : bool * bytes :=
  let msg_size := zlen buf - message_offset_ s - Z.of_nat (hdr_len s) in
  if (0 <? msg_size) && (max_message_size_ s <? msg_size) then (false, buf)
  else (true, memcpy_at (Z.to_nat (message_offset_ s)) (size_bytes (size_field_ s) msg_size) buf).

(** ** Receiving *)

(** [memcpy] and conversion of the size field. *)
Definition read_size (f : size_field_type) (input : bytes) : Z :=
  let t_size := le_val (take (hdr_size f) input) in
  match f with u1 => t_size | _ => from_network_order (hdr_size f) t_size end.

Inductive abort_reason := too_few_bytes | empty_message | message_too_large | malformed_message
| rejected_by_upper_layer.

(** The outcome of [consume]: the message passed up, the number of bytes the
    transport has to provide for the next call, or an abort. *)
Inductive consumed :=
| Message (msg : bytes)
| NeedExactly (n : Z)
| Aborted (reason : abort_reason).

(** [consume_impl<T>]; [accepts] is whether the upper layer consumes the
    message. *)
Definition consume (accepts : bytes -> bool) (input : bytes) (s : framing) : consumed :=
  let f := size_field_ s in
  if zlen input <? Z.of_nat (hdr_size f) then Aborted too_few_bytes
  else if zlen input =? Z.of_nat (hdr_len s) then
    let msg_size := read_size f input in
    if msg_size =? 0 then Aborted empty_message
    else if max_message_size_ s <? msg_size then Aborted message_too_large
    else NeedExactly (Z.of_nat (hdr_len s) + msg_size)
  else
    let msg_size := read_size f input in
    let msg := drop (hdr_size f) input in
    if (msg_size =? zlen msg) && (msg_size + Z.of_nat (hdr_len s) =? zlen input) then
      if accepts msg then Message msg else Aborted rejected_by_upper_layer
    else Aborted malformed_message.

(** The transport: calls [consume] once the requested number of bytes is
    there, starting with a prefix.  Returns the messages passed up, the unused
    bytes and the reason of an abort, if any. *)
Fixpoint receive (fuel : nat) (accepts : bytes -> bool) (want : Z) (stream : bytes) (s : framing)
  : list bytes * bytes * option abort_reason :=
  match fuel with
  | O => ([], stream, None)
  | S fuel' =>
      if zlen stream <? want then ([], stream, None) else
      match consume accepts (take (Z.to_nat want) stream) s with
      | Aborted reason => ([], stream, Some reason)
      | NeedExactly n => receive fuel' accepts n stream s
      | Message msg =>
          let '(ms, rest, r) :=
            receive fuel' accepts (Z.of_nat (hdr_len s)) (drop (Z.to_nat want) stream) s in
          (msg :: ms, rest, r)
      end
  end.

(** Two calls per message, at most one message per byte. *)
Definition receive_all (accepts : bytes -> bool) (stream : bytes) (s : framing) :=
  receive (S (2 * length stream)) accepts (Z.of_nat (hdr_len s)) stream s.

(** ** Specification *)

(** Sending whole messages: begin, append, end. *)
Fixpoint send_all (buf : bytes) (ms : list bytes) (s : framing) : option bytes :=
  match ms with
  | [] => Some buf
  | m :: ms' =>
      let (s1, buf1) := begin_message buf s in
      let (ok, buf2) := end_message (buf1 ++ m) s1 in
      if ok then send_all buf2 ms' s1 else None
  end.

Definition frame (f : size_field_type) (m : bytes) : bytes := be_bytes (hdr_size f) (zlen m) ++ m.

(** Messages both sides agree on. *)
Definition transferable (s : framing) (m : bytes) : Prop :=
  0 < zlen m <= max_message_size_ s /\ is_uint (8 * Z.of_nat (hdr_len s)) (zlen m).

Lemma size_bytes_be f n :
  is_uint (8 * Z.of_nat (hdr_size f)) n -> size_bytes f n = be_bytes (hdr_size f) n.
Proof.
  intros Hn. unfold size_bytes. rewrite uwrap_id by done. destruct f; [done|..]; apply network_order_bytes.
Qed.

Lemma size_bytes_length f n : length (size_bytes f n) = hdr_size f.
Proof. unfold size_bytes. destruct f; cbv zeta; by rewrite le_bytes_length. Qed.

Lemma read_size_be f n rest :
  is_uint (8 * Z.of_nat (hdr_size f)) n -> read_size f (be_bytes (hdr_size f) n ++ rest) = n.
Proof.
  intros Hn. unfold read_size.
  assert (take (hdr_size f) (be_bytes (hdr_size f) n ++ rest) = be_bytes (hdr_size f) n) as ->.
  { rewrite <- (be_bytes_length (hdr_size f) n) at 1. apply take_app_length. }
  pose proof (network_order_val _ (be_bytes_all (hdr_size f) n)) as E.
  rewrite be_val_bytes in E.
  replace (256 ^ Z.of_nat (hdr_size f)) with (2 ^ (8 * Z.of_nat (hdr_size f))) in E
    by (by rewrite Z.pow_mul_r by lia).
  rewrite Z.mod_small in E by done. rewrite be_bytes_length in *.
  destruct f; [|exact E..]. unfold be_bytes, le_bytes. simpl. unfold is_uint in Hn. simpl in Hn.
  rewrite Z.mod_small; lia.
Qed.

Lemma hdr_size_pos f : (0 < hdr_size f)%nat.
Proof. destruct f; simpl; lia. Qed.

(** One message on the sending side, for any size. *)
Lemma send_one buf m s :
  let (s1, buf1) := begin_message buf s in
  end_message (buf1 ++ m) s1
  = if (0 <? zlen m) && (max_message_size_ s <? zlen m)
    then (false, buf ++ replicate (hdr_len s) 0 ++ m)
    else (true, buf ++ size_bytes (size_field_ s) (zlen m) ++ m).
Proof.
  unfold begin_message, end_message, hdr_len. simpl. rewrite <- app_assoc.
  assert (zlen (buf ++ replicate (hdr_size (size_field_ s)) 0 ++ m) - zlen buf
    - Z.of_nat (hdr_size (size_field_ s)) = zlen m) as ->.
  { rewrite !zlen_app. unfold zlen at 2. rewrite length_replicate. lia. }
  destruct (_ && _); [done|]. f_equal. unfold zlen at 1. rewrite Nat2Z.id.
  apply memcpy_at_app. by rewrite length_replicate, size_bytes_length.
Qed.

Lemma send_all_frames buf ms s :
  Forall (transferable s) ms -> send_all buf ms s = Some (buf ++ flat_map (frame (size_field_ s)) ms).
Proof.
  intros Hms. revert buf s Hms. induction ms as [|m ms IH]; intros buf s Hms; cbn [send_all flat_map].
  { by rewrite app_nil_r. }
  apply Forall_cons in Hms as [[Hm Hu] Hms]. pose proof (send_one buf m s) as E.
  destruct (begin_message buf s) as [s1 buf1] eqn:Eb. rewrite E.
  rewrite (proj2 (Z.ltb_ge (max_message_size_ s) (zlen m))), andb_false_r by lia.
  unfold begin_message in Eb. injection Eb as <- <-.
  rewrite IH by exact Hms. cbn [size_field_]. rewrite size_bytes_be by done.
  unfold frame at 2. by rewrite <- !app_assoc.
Qed.

Lemma lp_frame_length f m : length (frame f m) = (hdr_size f + length m)%nat.
Proof. unfold frame. by rewrite length_app, be_bytes_length. Qed.

Lemma take_frame s m rest : take (hdr_len s) (frame (size_field_ s) m ++ rest) = be_bytes (hdr_len s) (zlen m).
Proof.
  unfold frame, hdr_len. rewrite <- app_assoc. rewrite <- (be_bytes_length _ (zlen m)) at 1. apply take_app_length.
Qed.

(** The two calls of [consume] for one message. *)
Lemma consume_prefix accepts m s :
  transferable s m ->
  consume accepts (be_bytes (hdr_len s) (zlen m)) s = NeedExactly (Z.of_nat (hdr_len s) + zlen m).
Proof.
  intros [Hm Hu]. pose proof (read_size_be _ (zlen m) [] Hu) as Hr. rewrite app_nil_r in Hr.
  unfold consume, hdr_len in *.
  assert (zlen (be_bytes (hdr_size (size_field_ s)) (zlen m)) = Z.of_nat (hdr_size (size_field_ s))) as ->
    by (unfold zlen; by rewrite be_bytes_length).
  rewrite Z.ltb_irrefl, Z.eqb_refl, Hr.
  by rewrite (proj2 (Z.eqb_neq (zlen m) 0)), (proj2 (Z.ltb_ge _ (zlen m))) by lia.
Qed.

Lemma consume_frame accepts m s :
  transferable s m -> accepts m = true -> consume accepts (frame (size_field_ s) m) s = Message m.
Proof.
  intros [Hm Hu] Hacc. unfold consume, hdr_len in *. set (f := size_field_ s) in *.
  assert (zlen (frame f m) = Z.of_nat (hdr_size f) + zlen m) as -> by (unfold zlen; rewrite lp_frame_length; lia).
  rewrite (proj2 (Z.ltb_ge _ (Z.of_nat (hdr_size f)))), (proj2 (Z.eqb_neq _ (Z.of_nat (hdr_size f)))) by lia.
  assert (read_size f (frame f m) = zlen m) as -> by (unfold frame; by apply read_size_be).
  assert (drop (hdr_size f) (frame f m) = m) as ->.
  { unfold frame. rewrite <- (be_bytes_length (hdr_size f) (zlen m)) at 1. apply drop_app_length. }
  rewrite Z.eqb_refl, (proj2 (Z.eqb_eq (zlen m + Z.of_nat (hdr_size f)) (Z.of_nat (hdr_size f) + zlen m))) by lia.
  cbn [andb]. by rewrite Hacc.
Qed.

(** One message on the receiving side. *)
Lemma receive_one fuel accepts m rest s :
  transferable s m -> accepts m = true ->
  receive (S (S fuel)) accepts (Z.of_nat (hdr_len s)) (frame (size_field_ s) m ++ rest) s
  = let '(ms, rest', r) := receive fuel accepts (Z.of_nat (hdr_len s)) rest s in (m :: ms, rest', r).
Proof.
  intros Ht Hacc. pose proof (zlen_nonneg rest) as Hr. pose proof (zlen_nonneg m) as Hm.
  assert (zlen (frame (size_field_ s) m ++ rest) = Z.of_nat (hdr_len s) + zlen m + zlen rest) as Hl
    by (rewrite zlen_app; unfold zlen at 1, hdr_len; rewrite lp_frame_length; unfold zlen; lia).
  cbn [receive]. rewrite Hl, (proj2 (Z.ltb_ge _ _)) by lia. rewrite Nat2Z.id.
  rewrite take_frame, consume_prefix by done.
  rewrite (proj2 (Z.ltb_ge _ (Z.of_nat (hdr_len s) + zlen m))) by lia.
  assert (Z.to_nat (Z.of_nat (hdr_len s) + zlen m) = length (frame (size_field_ s) m)) as ->
    by (rewrite lp_frame_length; unfold zlen, hdr_len; lia).
  rewrite take_app_length, drop_app_length. by rewrite consume_frame.
Qed.

Lemma receive_frames fuel accepts ms s :
  Forall (transferable s) ms -> Forall (fun m => accepts m = true) ms ->
  (2 * length (flat_map (frame (size_field_ s)) ms) < fuel)%nat ->
  receive fuel accepts (Z.of_nat (hdr_len s)) (flat_map (frame (size_field_ s)) ms) s = (ms, [], None).
Proof.
  revert fuel. induction ms as [|m ms IH]; intros fuel Hms Hacc Hf.
  - destruct fuel as [|fuel]; [simpl in Hf; lia|]. cbn [flat_map receive]. rewrite zlen_nil.
    rewrite (proj2 (Z.ltb_lt _ _)); [done|]. pose proof (hdr_size_pos (size_field_ s)). unfold hdr_len. lia.
  - apply Forall_cons in Hms as [Hm Hms]. apply Forall_cons in Hacc as [Ha Hacc].
    cbn [flat_map] in *. rewrite length_app in Hf.
    assert (1 <= length (frame (size_field_ s) m))%nat as Hlen.
    { unfold frame. rewrite length_app, be_bytes_length. pose proof (hdr_size_pos (size_field_ s)). lia. }
    destruct fuel as [|[|fuel]]; [lia|lia|]. rewrite receive_one by done.
    rewrite IH by (done || lia). done.
Qed.

(** ** Claims *)

(** Framing round trip.  Any sequence of non-empty messages within the
    configured maximum and the range of the size field is sent without error
    and received unchanged, one message per message sent, with nothing left
    over. *)
Theorem lp_roundtrip ms s accepts :
  Forall (transferable s) ms -> Forall (fun m => accepts m = true) ms ->
  exists stream, send_all [] ms s = Some stream /\ receive_all accepts stream s = (ms, [], None).
Proof.
  intros Hms Hacc. exists (flat_map (frame (size_field_ s)) ms).
  rewrite send_all_frames by done. split; [done|].
  apply receive_frames; [done|done|]. lia.
Qed.

Lemma lp_roundtrip_witness :
  exists stream, send_all [] [[1; 2; 3]; [4]] (make u2 100) = Some stream /\
    receive_all (fun _ => true) stream (make u2 100) = ([[1; 2; 3]; [4]], [], None).
Proof.
  apply (lp_roundtrip [[1; 2; 3]; [4]] (make u2 100) (fun _ => true)).
  - repeat constructor; unfold zlen, is_uint; simpl; lia.
  - repeat constructor.
Defined.

(** Where sender and receiver disagree.  If the configured maximum
    exceeds the range of the size field, the sender accepts messages whose size
    does not fit and announces the size modulo the range; and it accepts empty
    messages, which make every receiver abort the connection. *)
Theorem lp_disagreement s m :
  0 <= zlen m <= max_message_size_ s ->
  send_all [] [m] s
  = Some (be_bytes (hdr_len s) (uwrap (8 * Z.of_nat (hdr_len s)) (zlen m)) ++ m) /\
  (m = [] -> forall stream accepts, send_all [] [m] s = Some stream ->
   receive_all accepts stream s = ([], stream, Some empty_message)).
Proof.
  intros Hm.
  assert (send_all [] [m] s
    = Some (be_bytes (hdr_len s) (uwrap (8 * Z.of_nat (hdr_len s)) (zlen m)) ++ m)) as E.
  { cbn [send_all]. pose proof (send_one [] m s) as E. destruct (begin_message [] s) as [s1 buf1]. rewrite E.
    rewrite (proj2 (Z.ltb_ge (max_message_size_ s) (zlen m))), andb_false_r by lia. cbn [app]. do 2 f_equal.
    unfold hdr_len. rewrite <- size_bytes_be by (apply uwrap_range; lia). unfold size_bytes.
    by rewrite (uwrap_id _ (uwrap _ _)) by (apply uwrap_range; lia). }
  split; [done|]. intros -> stream accepts Es. rewrite E in Es. injection Es as <-.
  by destruct s as [[] off max].
Qed.

(** A message of 256 bytes with a one-byte prefix announces no bytes at all. *)
Lemma lp_disagreement_witness :
  send_all [] [replicate 256 7] (make u1 1000) = Some ([0] ++ replicate 256 7).
Proof.
  apply (lp_disagreement (make u1 1000) (replicate 256 7)). vm_compute. split; congruence.
Defined.

End LpFraming.
