(* ===== verification/Transport.v ===== *)
(** * Octet stream transport (libcaf_net/caf/net/octet_stream/transport.cpp,
      net/socket_manager.cpp)

    The bottom of every network protocol stack: moves bytes between a socket
    and the protocol above, which tells the transport how many bytes it wants
    to see at a time.  The socket and the protocol are parameters; the
    registration of the socket manager at the multiplexer is part of the
    state. *)

From stdpp Require Import prelude.
From S2P Require Import Prelude Effects.

Module Transport.

Import Effects.

(** ** Socket manager *)

(** Functions scheduled at the multiplexer: the continuation
    [configure_read] schedules, [handle_error(sec::disposed)] and [cleanup]. *)
Inductive job := resume_reading | dispose_manager | cleanup_manager.

(** The manager: its events in the pollset, its flags, whether [handler_] is
    still there, and what is scheduled. *)
Record manager := mk_manager {
  reading : bool;
  writing : bool;
  manager_shutting_down : bool;
  disposed : bool;
  has_handler : bool;
  jobs : list job;
}.

Definition set_events (r w : bool) (m : manager) : manager :=
  mk_manager r w (manager_shutting_down m) (disposed m) (has_handler m) (jobs m).

Definition register_reading (m : manager) : manager := set_events true (writing m) m.
Definition register_writing (m : manager) : manager := set_events (reading m) true m.
Definition deregister_reading (m : manager) : manager := set_events false (writing m) m.
Definition deregister_writing (m : manager) : manager := set_events (reading m) false m.
Definition deregister (m : manager) : manager := set_events false false m.

Definition schedule_fn (j : job) (m : manager) : manager :=
  mk_manager (reading m) (writing m) (manager_shutting_down m) (disposed m) (has_handler m) (jobs m ++ [j]).

Definition dispose (m : manager) : manager :=
  if disposed m then m
  else schedule_fn dispose_manager
    (mk_manager (reading m) (writing m) (manager_shutting_down m) true (has_handler m) (jobs m)).

Definition shutdown_manager (m : manager) : manager :=
  if negb (manager_shutting_down m)
  then dispose (mk_manager (reading m) (writing m) true (disposed m) (has_handler m) (jobs m))
  else schedule_fn cleanup_manager m.

Definition cleanup (m : manager) : manager :=
  mk_manager false false (manager_shutting_down m) (disposed m) false (jobs m).

(** ** Neighbours *)

(** [octet_stream::errc]. *)
Inductive errc := temporary | want_read | want_write | permanent.

(** Results of the policy: an empty read and a write of zero bytes tell that
    the peer closed the connection. *)
Inductive read_result := rd_bytes (bs : bytes) | rd_error (e : errc).
Inductive write_result := wr_bytes (n : nat) | wr_error (e : errc).

Inductive abort_reason := socket_operation_failed | socket_disconnected | runtime_error | logic_error | closed_by_manager.

(** Calls to the upper layer and its answers. *)
Inductive up_call :=
| up_start
| up_consume (input delta : bytes)
| up_prepare_send
| up_written (n : nat)
| up_done_sending
| up_abort (reason : abort_reason).

Inductive up_result := returned | consumed (n : Z) | done_sending (b : bool) | started (ok : bool).

(** What the upper layer does to the transport while it runs.  Protocols fill
    the output buffer behind the bytes that are already there. *)
Inductive cmd :=
| configure_read (min_size max_size : nat)
| begin_output
| append_output (bs : bytes)
| write_later
| shutdown
| switch_protocol (next : Z).

(** What the upper layer can see of the transport. *)
Record lower_layer := mk_lower_layer {
  is_reading : bool;
  can_send_more : bool;
  output_buffer : bytes;
  switching_protocol : bool;
}.

(** What happened: bytes that arrived, calls to [consume], what [consume]
    returned for the number of bytes it was offered, bytes accepted by the
    socket, failures and a closed socket. *)
Inductive event :=
| got (bs : bytes)
| showed (layer : Z) (input delta : bytes)
| answered (offered : nat) (result : Z)
| appended (bs : bytes)
| put (bs : bytes)
| failed (reason : abort_reason).

(** ** State *)

Record transport (U P : Type) := mk_transport {
  wanted_read_from_write_event : bool;
  wanted_write_from_read_event : bool;
  shutting_down : bool;
  max_write_buf_size_ : nat;
  min_read_size_ : nat;
  max_read_size_ : nat;
  buffered_ : nat;
  delta_offset_ : nat;
  read_buf_ : bytes;
  write_buf_ : bytes;
  up_ : option Z;
  next_ : option Z;
  mgr : manager;
  upper : U;
  sock : P;
  trace : list event;
}.
Arguments mk_transport {U P}.
Arguments wanted_read_from_write_event {U P}.
Arguments wanted_write_from_read_event {U P}.
Arguments shutting_down {U P}.
Arguments max_write_buf_size_ {U P}.
Arguments min_read_size_ {U P}.
Arguments max_read_size_ {U P}.
Arguments buffered_ {U P}.
Arguments delta_offset_ {U P}.
Arguments read_buf_ {U P}.
Arguments write_buf_ {U P}.
Arguments up_ {U P}.
Arguments next_ {U P}.
Arguments mgr {U P}.
Arguments upper {U P}.
Arguments sock {U P}.
Arguments trace {U P}.

Section Updates.

Context {U P : Type}.
#[local] Abbreviation transport := (transport U P).

Definition set_wanted_read_from_write_event (x : bool) (s : transport) : transport :=
  mk_transport x (wanted_write_from_read_event s) (shutting_down s) (max_write_buf_size_ s)
    (min_read_size_ s) (max_read_size_ s) (buffered_ s) (delta_offset_ s) (read_buf_ s) (write_buf_ s)
    (up_ s) (next_ s) (mgr s) (upper s) (sock s) (trace s).
Definition set_wanted_write_from_read_event (x : bool) (s : transport) : transport :=
  mk_transport (wanted_read_from_write_event s) x (shutting_down s) (max_write_buf_size_ s)
    (min_read_size_ s) (max_read_size_ s) (buffered_ s) (delta_offset_ s) (read_buf_ s) (write_buf_ s)
    (up_ s) (next_ s) (mgr s) (upper s) (sock s) (trace s).
Definition set_shutting_down (x : bool) (s : transport) : transport :=
  mk_transport (wanted_read_from_write_event s) (wanted_write_from_read_event s) x
    (max_write_buf_size_ s) (min_read_size_ s) (max_read_size_ s) (buffered_ s) (delta_offset_ s)
    (read_buf_ s) (write_buf_ s) (up_ s) (next_ s) (mgr s) (upper s) (sock s) (trace s).
Definition set_max_write_buf_size (x : nat) (s : transport) : transport :=
  mk_transport (wanted_read_from_write_event s) (wanted_write_from_read_event s) (shutting_down s) x
    (min_read_size_ s) (max_read_size_ s) (buffered_ s) (delta_offset_ s) (read_buf_ s) (write_buf_ s)
    (up_ s) (next_ s) (mgr s) (upper s) (sock s) (trace s).
Definition set_min_read_size (x : nat) (s : transport) : transport :=
  mk_transport (wanted_read_from_write_event s) (wanted_write_from_read_event s) (shutting_down s)
    (max_write_buf_size_ s) x (max_read_size_ s) (buffered_ s) (delta_offset_ s) (read_buf_ s)
    (write_buf_ s) (up_ s) (next_ s) (mgr s) (upper s) (sock s) (trace s).
Definition set_max_read_size (x : nat) (s : transport) : transport :=
  mk_transport (wanted_read_from_write_event s) (wanted_write_from_read_event s) (shutting_down s)
    (max_write_buf_size_ s) (min_read_size_ s) x (buffered_ s) (delta_offset_ s) (read_buf_ s)
    (write_buf_ s) (up_ s) (next_ s) (mgr s) (upper s) (sock s) (trace s).
Definition set_buffered (x : nat) (s : transport) : transport :=
  mk_transport (wanted_read_from_write_event s) (wanted_write_from_read_event s) (shutting_down s)
    (max_write_buf_size_ s) (min_read_size_ s) (max_read_size_ s) x (delta_offset_ s) (read_buf_ s)
    (write_buf_ s) (up_ s) (next_ s) (mgr s) (upper s) (sock s) (trace s).
Definition set_delta_offset (x : nat) (s : transport) : transport :=
  mk_transport (wanted_read_from_write_event s) (wanted_write_from_read_event s) (shutting_down s)
    (max_write_buf_size_ s) (min_read_size_ s) (max_read_size_ s) (buffered_ s) x (read_buf_ s)
    (write_buf_ s) (up_ s) (next_ s) (mgr s) (upper s) (sock s) (trace s).
Definition set_read_buf (x : bytes) (s : transport) : transport :=
  mk_transport (wanted_read_from_write_event s) (wanted_write_from_read_event s) (shutting_down s)
    (max_write_buf_size_ s) (min_read_size_ s) (max_read_size_ s) (buffered_ s) (delta_offset_ s) x
    (write_buf_ s) (up_ s) (next_ s) (mgr s) (upper s) (sock s) (trace s).
Definition set_write_buf (x : bytes) (s : transport) : transport :=
  mk_transport (wanted_read_from_write_event s) (wanted_write_from_read_event s) (shutting_down s)
    (max_write_buf_size_ s) (min_read_size_ s) (max_read_size_ s) (buffered_ s) (delta_offset_ s)
    (read_buf_ s) x (up_ s) (next_ s) (mgr s) (upper s) (sock s) (trace s).
Definition set_up (x : option Z) (s : transport) : transport :=
  mk_transport (wanted_read_from_write_event s) (wanted_write_from_read_event s) (shutting_down s)
    (max_write_buf_size_ s) (min_read_size_ s) (max_read_size_ s) (buffered_ s) (delta_offset_ s)
    (read_buf_ s) (write_buf_ s) x (next_ s) (mgr s) (upper s) (sock s) (trace s).
Definition set_next (x : option Z) (s : transport) : transport :=
  mk_transport (wanted_read_from_write_event s) (wanted_write_from_read_event s) (shutting_down s)
    (max_write_buf_size_ s) (min_read_size_ s) (max_read_size_ s) (buffered_ s) (delta_offset_ s)
    (read_buf_ s) (write_buf_ s) (up_ s) x (mgr s) (upper s) (sock s) (trace s).
Definition set_mgr (x : manager) (s : transport) : transport :=
  mk_transport (wanted_read_from_write_event s) (wanted_write_from_read_event s) (shutting_down s)
    (max_write_buf_size_ s) (min_read_size_ s) (max_read_size_ s) (buffered_ s) (delta_offset_ s)
    (read_buf_ s) (write_buf_ s) (up_ s) (next_ s) x (upper s) (sock s) (trace s).
Definition set_upper (x : U) (s : transport) : transport :=
  mk_transport (wanted_read_from_write_event s) (wanted_write_from_read_event s) (shutting_down s)
    (max_write_buf_size_ s) (min_read_size_ s) (max_read_size_ s) (buffered_ s) (delta_offset_ s)
    (read_buf_ s) (write_buf_ s) (up_ s) (next_ s) (mgr s) x (sock s) (trace s).
Definition set_sock (x : P) (s : transport) : transport :=
  mk_transport (wanted_read_from_write_event s) (wanted_write_from_read_event s) (shutting_down s)
    (max_write_buf_size_ s) (min_read_size_ s) (max_read_size_ s) (buffered_ s) (delta_offset_ s)
    (read_buf_ s) (write_buf_ s) (up_ s) (next_ s) (mgr s) (upper s) x (trace s).
Definition set_trace (x : list event) (s : transport) : transport :=
  mk_transport (wanted_read_from_write_event s) (wanted_write_from_read_event s) (shutting_down s)
    (max_write_buf_size_ s) (min_read_size_ s) (max_read_size_ s) (buffered_ s) (delta_offset_ s)
    (read_buf_ s) (write_buf_ s) (up_ s) (next_ s) (mgr s) (upper s) (sock s) x.

End Updates.

Section Transport.

Context {U P : Type}.
#[local] Abbreviation transport := (transport U P).
#[local] Abbreviation comp := (comp transport).

(** The protocols above, by number, and the policy: [read] into a buffer of a
    given size, [write] of a buffer, and [buffered]. *)
Context (up : Z -> up_call -> lower_layer -> U -> list cmd * up_result * U).
Context (read : P -> nat -> read_result * P) (write : P -> bytes -> write_result * P) (pending : P -> nat).

Definition make (layer : Z) (u : U) (p : P) : transport :=
  mk_transport false false false 0 0 0 0 0 [] [] (Some layer) None
    (mk_manager false false false false true []) u p [].

Definition emit (e : event) : comp unit := modify (fun s => set_trace (trace s ++ [e]) s).

Definition on_manager (f : manager -> manager) : comp unit := modify (fun s => set_mgr (f (mgr s)) s).

Definition view (s : transport) : lower_layer :=
  mk_lower_layer (0 <? max_read_size_ s)%nat (length (write_buf_ s) <? max_write_buf_size_ s)%nat
    (write_buf_ s) (bool_decide (is_Some (next_ s))).

(** ** Operations of the upper layer *)

Definition do_configure_read (min_size max_size : nat) : comp unit :=
  s ← gets (fun s => s);
  let restarting := (0 <? max_size)%nat && (max_read_size_ s =? 0)%nat in
  modify (set_min_read_size min_size);;
  modify (set_max_read_size max_size);;
  if restarting && negb (reading (mgr s)) then
    if (0 <? buffered_ s)%nat && (min_size <=? buffered_ s)%nat && (delta_offset_ s <? buffered_ s)%nat
    then on_manager (schedule_fn resume_reading)
    else on_manager register_reading
  else if (max_size =? 0)%nat then on_manager deregister_reading
  else mret tt.

Definition do_shutdown : comp unit :=
  buf ← gets write_buf_;
  match buf with
  | [] => on_manager shutdown_manager
  | _ =>
      do_configure_read 0 0;;
      on_manager deregister_reading;;
      modify (set_shutting_down true)
  end.

Definition exec_cmd (c : cmd) : comp unit :=
  match c with
  | configure_read lo hi => do_configure_read lo hi
  | begin_output =>
      buf ← gets write_buf_;
      match buf with [] => on_manager register_writing | _ => mret tt end
  | append_output bs => modify (fun s => set_write_buf (write_buf_ s ++ bs) s);; emit (appended bs)
  | write_later => on_manager register_writing
  | shutdown => do_shutdown
  | switch_protocol next => modify (set_next (Some next))
  end.

(** Calling the upper layer; calling through a null pointer is undefined. *)
Definition call_up (c : up_call) : comp up_result :=
  s ← gets (fun s => s);
  match up_ s with
  | None => stuck
  | Some layer =>
      let '(cs, r, u) := up layer c (view s) (upper s) in
      modify (set_upper u);;
      for_each exec_cmd cs;;
      match c, r with
      | up_consume input _, consumed n => emit (answered (length input) n)
      | _, _ => mret tt
      end;;
      mret r
  end.

Definition fail (reason : abort_reason) : comp unit :=
  emit (failed reason);;
  call_up (up_abort reason);;
  modify (set_up None);;
  on_manager deregister;;
  on_manager shutdown_manager.

(** ** Reading *)

Definition switch_to_next_protocol (next : Z) : comp bool :=
  do_configure_read 0 0;;
  modify (set_up (Some next));;
  modify (set_next None);;
  r ← call_up up_start;
  match r with
  | started true => mret true
  | _ =>
      modify (set_up None);;
      on_manager deregister;;
      on_manager shutdown_manager;;
      mret false
  end.

(** Shoves the unread bytes to the beginning of the buffer. *)
Definition shift (n : nat) : comp unit :=
  modify (fun s =>
    let prev := buffered_ s in
    let rest := (prev - n)%nat in
    set_read_buf (if (0 <? rest)%nat then drop n (take prev (read_buf_ s)) ++ drop rest (read_buf_ s) else read_buf_ s)
      (set_delta_offset 0 (set_buffered rest s))).

(** [bytes.subspan(delta_offset_)] with an offset behind the end is
    undefined. *)
Fixpoint buffered_loop (fuel : nat) : comp unit :=
  match fuel with
  | O => stuck
  | S fuel' =>
      s ← gets (fun s => s);
      if reading (mgr s) && (0 <? max_read_size_ s)%nat && (min_read_size_ s <=? buffered_ s)%nat then
        let n := Nat.min (buffered_ s) (max_read_size_ s) in
        let input := take n (read_buf_ s) in
        if (n <? delta_offset_ s)%nat then stuck
        else
          let delta := drop (delta_offset_ s) input in
          (match up_ s with Some layer => emit (showed layer input delta) | None => stuck end);;
          r ← call_up (up_consume input delta);
          match r with
          | consumed c =>
              if c <? 0 then call_up (up_abort runtime_error);; on_manager deregister_reading
              else if Z.of_nat n <? c then call_up (up_abort logic_error);; on_manager deregister_reading
              else
                nx ← gets next_;
                if c =? 0 then
                  match nx with
                  | Some next => ok ← switch_to_next_protocol next; if (ok : bool) then buffered_loop fuel' else mret tt
                  | None =>
                      modify (set_delta_offset n);;
                      t ← gets (fun s => s);
                      if (n =? Nat.min (buffered_ t) (max_read_size_ t))%nat then mret tt else buffered_loop fuel'
                  end
                else
                  ok ← match nx with Some next => switch_to_next_protocol next | None => mret true end;
                  if (ok : bool) then shift (Z.to_nat c);; buffered_loop fuel' else mret tt
          | _ => stuck
          end
      else mret tt
  end.

(** Makes room for [n] bytes and stores bytes behind the buffered ones. *)
Definition resize (n : nat) (buf : bytes) : bytes := take n buf ++ replicate (n - length buf) 0.

Definition store (bs : bytes) : comp unit :=
  modify (fun s => set_buffered (buffered_ s + length bs) (set_read_buf (memcpy_at (buffered_ s) bs (read_buf_ s)) s));;
  emit (got bs).

Definition read_socket (n : nat) : comp read_result :=
  p ← gets sock;
  let (r, p') := read p n in modify (set_sock p');; mret r.

Section Fuel.

(** Rounds of the loop in [handle_buffered_data]. *)
Context (fuel : nat).

Definition handle_buffered_data : comp unit := buffered_loop fuel.

(** Bytes the policy holds back, for example the rest of a TLS record. *)
Definition drain_policy : comp bool :=
  p ← gets sock;
  let n := pending p in
  if (0 <? n)%nat then
    modify (fun s => if (length (read_buf_ s) <? buffered_ s + n)%nat
                     then set_read_buf (resize (buffered_ s + n) (read_buf_ s)) s else s);;
    r ← read_socket n;
    match r with
    | rd_bytes bs => if (length bs =? n)%nat then store bs;; mret true else fail socket_operation_failed;; mret false
    | rd_error _ => fail socket_operation_failed;; mret false
    end
  else mret true.

(** [handle_read_event] behind its first block. *)
Definition do_read : comp unit :=
  modify (fun s => if (length (read_buf_ s) <? max_read_size_ s)%nat
                   then set_read_buf (resize (max_read_size_ s) (read_buf_ s)) s else s);;
  s ← gets (fun s => s);
  r ← read_socket (length (read_buf_ s) - buffered_ s);
  match r with
  | rd_error temporary | rd_error want_read => mret tt
  | rd_error want_write =>
      modify (set_wanted_write_from_read_event true);;
      on_manager register_writing;;
      on_manager deregister_reading
  | rd_error permanent => fail socket_operation_failed
  | rd_bytes [] => fail socket_disconnected
  | rd_bytes bs =>
      store bs;;
      ok ← drain_policy;
      if (ok : bool) then handle_buffered_data else mret tt
  end.

(** ** Writing *)

(** Removes what the socket accepted from the buffer. *)
Definition drop_written (n : nat) : comp unit :=
  buf ← gets write_buf_;
  modify (set_write_buf (drop n buf));;
  emit (put (take n buf)).

(** [handle_write_event] behind its first block. *)
Definition do_write : comp unit :=
  s ← gets (fun s => s);
  if shutting_down s && bool_decide (write_buf_ s = []) then on_manager shutdown_manager
  else
    (if negb (shutting_down s) && can_send_more (view s) then call_up up_prepare_send;; mret tt else mret tt);;
    buf ← gets write_buf_;
    p ← gets sock;
    let (r, p') := write p buf in
    modify (set_sock p');;
    match r with
    | wr_bytes O => fail socket_disconnected
    | wr_bytes n =>
        drop_written n;;
        call_up (up_written n);;
        buf' ← gets write_buf_;
        match buf' with
        | [] =>
            r ← call_up up_done_sending;
            match r with
            | done_sending true =>
                sd ← gets shutting_down;
                if negb sd then on_manager deregister_writing else on_manager shutdown_manager
            | _ => mret tt
            end
        | _ => mret tt
        end
    | wr_error temporary | wr_error want_write => mret tt
    | wr_error want_read =>
        modify (set_wanted_read_from_write_event true);;
        on_manager register_reading;;
        on_manager deregister_writing
    | wr_error permanent => fail socket_operation_failed
    end.

(** ** Events *)

(** The handlers call each other to resume an operation; each call clears a
    flag, so that three levels are enough. *)
Fixpoint handle_event (depth : nat) (is_read : bool) : comp unit :=
  match depth with
  | O => stuck
  | S depth' =>
      if is_read then
        flag ← gets wanted_read_from_write_event;
        go ← (if (flag : bool) then
                modify (set_wanted_read_from_write_event false);;
                on_manager register_writing;;
                handle_event depth' false;;
                s ← gets (fun s => s);
                if negb (reading (mgr s)) then mret false
                else if (max_read_size_ s =? 0)%nat then
                  (if negb (wanted_read_from_write_event s) then on_manager deregister_reading else mret tt);;
                  mret false
                else mret true
              else mret true);
        if (go : bool) then do_read else mret tt
      else
        flag ← gets wanted_write_from_read_event;
        go ← (if (flag : bool) then
                modify (set_wanted_write_from_read_event false);;
                on_manager register_writing;;
                handle_event depth' true;;
                m ← gets mgr;
                mret (writing m)
              else mret true);
        if (go : bool) then do_write else mret tt
  end.

Definition handle_read_event : comp unit := handle_event 3 true.
Definition handle_write_event : comp unit := handle_event 3 false.

Definition abort (reason : abort_reason) : comp unit :=
  call_up (up_abort reason);;
  modify (set_shutting_down true).

Definition finalized (s : transport) : bool := bool_decide (write_buf_ s = []).

(** [socket_manager::handle_error] and [cleanup]. *)
Definition handle_error (is_disposed : bool) : comp unit :=
  on_manager (fun m => mk_manager (reading m) (writing m) (manager_shutting_down m) true (has_handler m) (jobs m));;
  m ← gets mgr;
  if has_handler m then
    (if negb (manager_shutting_down m) then
       abort closed_by_manager;;
       on_manager (fun m => mk_manager (reading m) (writing m) true (disposed m) (has_handler m) (jobs m))
     else mret tt);;
    s ← gets (fun s => s);
    if is_disposed && negb (finalized s) then on_manager deregister_reading else on_manager cleanup
  else mret tt.

(** Runs the oldest scheduled function; the one of [configure_read] refers to
    the transport, which does not exist any more once the handler is gone. *)
Definition run_job : comp unit :=
  m ← gets mgr;
  match jobs m with
  | [] => mret tt
  | j :: js =>
      on_manager (fun m => mk_manager (reading m) (writing m) (manager_shutting_down m) (disposed m) (has_handler m) js);;
      match j with
      | resume_reading => if has_handler m then on_manager register_reading;; handle_buffered_data else stuck
      | dispose_manager => handle_error true
      | cleanup_manager => on_manager cleanup
      end
  end.

(** [start]: [size] is the size of the send buffer of the socket. *)
Definition start (size : nat) : comp bool :=
  modify (set_max_write_buf_size size);;
  r ← call_up up_start;
  match r with
  | started true => mret true
  | _ => on_manager cleanup;; mret false
  end.

End Fuel.

End Transport.

End Transport.
