(* ===== verification/TransportStream.v ===== *)
(** * Byte streams over the transport

    Bytes reach the upper layer and the socket in order, whatever sizes the
    socket reads and writes, and however the protocol configures, pauses and
    replaces itself. *)

From stdpp Require Import prelude.
From S2P Require Import Prelude Effects Transport.

Module TransportStream.

Import Effects Transport.

(** ** What a trace says about the streams *)

Definition got_bytes (e : event) : bytes := match e with got bs => bs | _ => [] end.

(** What the upper layer has consumed by its own account: the results of
    [consume].  Negative results and results beyond what was offered are
    errors. *)
Definition taken_bytes (e : event) : nat :=
  match e with
  | answered n c => if (0 <=? c) && (c <=? Z.of_nat n) then Z.to_nat c else 0%nat
  | _ => 0%nat
  end.
Definition appended_bytes (e : event) : bytes := match e with appended bs => bs | _ => [] end.
Definition put_bytes (e : event) : bytes := match e with put bs => bs | _ => [] end.

Definition received (tr : list event) : bytes := flat_map got_bytes tr.
Definition taken (tr : list event) : nat := sum_list_with taken_bytes tr.
Definition outgoing (tr : list event) : bytes := flat_map appended_bytes tr.
Definition sent (tr : list event) : bytes := flat_map put_bytes tr.

(** The bytes that arrived and are not consumed yet. *)
Definition unread (tr : list event) : bytes := drop (taken tr) (received tr).

(** Every call of [consume] shows the next unread bytes, of which [delta] is
    the end. *)
Definition shown_in_order (tr : list event) : Prop :=
  forall tr1 layer input delta tr2, tr = tr1 ++ showed layer input delta :: tr2 ->
    input `prefix_of` unread tr1 /\ delta `suffix_of` input.

Lemma received_snoc tr e : received (tr ++ [e]) = received tr ++ got_bytes e.
Proof. unfold received. rewrite flat_map_app. simpl. by rewrite app_nil_r. Qed.

Lemma taken_snoc tr e : taken (tr ++ [e]) = (taken tr + taken_bytes e)%nat.
Proof. unfold taken. rewrite sum_list_with_app. simpl. lia. Qed.

Lemma outgoing_snoc tr e : outgoing (tr ++ [e]) = outgoing tr ++ appended_bytes e.
Proof. unfold outgoing. rewrite flat_map_app. simpl. by rewrite app_nil_r. Qed.

Lemma sent_snoc tr e : sent (tr ++ [e]) = sent tr ++ put_bytes e.
Proof. unfold sent. rewrite flat_map_app. simpl. by rewrite app_nil_r. Qed.

Lemma shown_snoc tr e :
  shown_in_order tr ->
  match e with showed _ input delta => input `prefix_of` unread tr /\ delta `suffix_of` input | _ => True end ->
  shown_in_order (tr ++ [e]).
Proof.
  intros Hs He tr1 layer input delta tr2 E.
  destruct tr2 as [|x tr2 _] using rev_ind.
  - apply app_inj_tail in E as [-> ->]. exact He.
  - rewrite app_comm_cons, app_assoc in E. apply app_inj_tail in E as [-> _]. by eapply Hs.
Qed.

(** Moving the unread bytes to the front. *)
Lemma shifted_content (buf : bytes) b n :
  (n <= b <= length buf)%nat ->
  let buf' := if (0 <? b - n)%nat then drop n (take b buf) ++ drop (b - n) buf else buf in
  take (b - n) buf' = drop n (take b buf) /\ (b - n <= length buf')%nat.
Proof.
  intros Hn buf'. assert (length (drop n (take b buf)) = b - n)%nat as Hl by (rewrite length_drop, length_take; lia).
  unfold buf'. destruct (Nat.ltb_spec 0 (b - n)) as [Hp|Hp].
  - split; [rewrite <- Hl at 1; apply take_app_length|]. rewrite length_app. lia.
  - replace (b - n)%nat with 0%nat in * by lia. split; [|lia]. by apply nil_length_inv in Hl as ->.
Qed.

Section Streams.

Context {U P : Type}.
#[local] Abbreviation transport := (transport U P).
#[local] Abbreviation comp := (comp transport).

Context (up : Z -> up_call -> lower_layer -> U -> list cmd * up_result * U).
Context (read : P -> nat -> read_result * P) (write : P -> bytes -> write_result * P) (pending : P -> nat).
Context (fuel : nat).

(** Documented behaviour of [recv]: it never exceeds the buffer. *)
Context (read_bounded : forall p n bs p', read p n = (rd_bytes bs, p') -> (length bs <= n)%nat).

(** ** Steps *)

(** Events on the socket, scheduled functions, the multiplexer, and actions of
    the upper layer on its own account. *)
Inductive transport_step : transport -> transport -> Prop :=
| step_start s size b s' : start up size s = Value b s' -> transport_step s s'
| step_read s s' :
    reading (mgr s) = true -> has_handler (mgr s) = true ->
    handle_read_event up read write pending fuel s = Value tt s' -> transport_step s s'
| step_write s s' :
    writing (mgr s) = true -> has_handler (mgr s) = true ->
    handle_write_event up read write pending fuel s = Value tt s' -> transport_step s s'
| step_job s s' : run_job up fuel s = Value tt s' -> transport_step s s'
| step_error s s' : handle_error up false s = Value tt s' -> transport_step s s'
| step_dispose s : transport_step s (set_mgr (dispose (mgr s)) s)
| step_upper s cs u s' :
    is_Some (up_ s) -> for_each exec_cmd cs (set_upper u s) = Value tt s' -> transport_step s s'.

(** ** Reading *)

(** The buffer holds the unread bytes behind the last [k] that were consumed. *)
Record reads_at (k : nat) (s : transport) : Prop := {
  r_bound : (buffered_ s <= length (read_buf_ s))%nat;
  r_late : (k <= taken (trace s))%nat;
  r_content : take (buffered_ s) (read_buf_ s) = drop (taken (trace s) - k) (received (trace s));
  r_taken : (taken (trace s) <= length (received (trace s)))%nat;
  r_shown : shown_in_order (trace s);
}.

(** Consumed bytes stay in the buffer only if the upper layer is gone. *)
Definition reads_ok (s : transport) : Prop :=
  reads_at 0 s \/ (up_ s = None /\ exists k, reads_at k s).

Definition keeps_reads (s s' : transport) : Prop := reads_ok s -> reads_ok s'.

#[local] Instance keeps_reads_preorder : PreOrder keeps_reads.
Proof. unfold keeps_reads. split; [intros s; auto|]. intros s1 s2 s3. auto. Qed.

(** Steps that leave the number of buffered bytes alone. *)
Definition still (s s' : transport) : Prop :=
  buffered_ s' = buffered_ s /\ forall k, reads_at k s -> reads_at k s'.

#[local] Instance still_preorder : PreOrder still.
Proof.
  unfold still. split; [done|]. intros s1 s2 s3 [E1 H1] [E2 H2]. split; [congruence|auto].
Qed.

(** Those that do not replace the upper layer either. *)
Definition quiet (s s' : transport) : Prop := still s s' /\ (up_ s' = up_ s \/ up_ s' = None).

#[local] Instance quiet_preorder : PreOrder quiet.
Proof.
  unfold quiet. split; [split; [reflexivity|by left]|].
  intros s1 s2 s3 [H1 E1] [H2 E2]. split; [by transitivity s2|]. destruct E2 as [E2|E2]; [rewrite E2|]; auto.
Qed.

Lemma quiet_modify (f : transport -> transport) :
  (forall s, buffered_ (f s) = buffered_ s /\ read_buf_ (f s) = read_buf_ s /\ trace (f s) = trace s /\
     (up_ (f s) = up_ s \/ up_ (f s) = None)) ->
  keeps quiet (modify f).
Proof.
  intros H s. destruct (H s) as (E1 & E2 & E3 & E4). split; [|exact E4]. split; [done|].
  intros k [H1 Hk H2 Ht H3]. split; by rewrite ?E1, ?E2, ?E3.
Qed.

Ltac quietly :=
  apply quiet_modify; intros ?; split_and!; [reflexivity..|first [left; reflexivity | right; reflexivity]].

Ltac streams := repeat first [keeps_step | quietly].

Lemma quiet_emit e :
  match e with got _ | showed _ _ _ | answered _ _ => False | _ => True end -> keeps quiet (emit e).
Proof.
  intros He s. split; [|by left]. split; [done|]. intros k [H1 Hk H2 Ht H3]. unfold emit, modify.
  split; cbn [read_buf_ buffered_ trace set_trace]; rewrite ?received_snoc, ?taken_snoc, ?length_app.
  - exact H1.
  - lia.
  - rewrite H2. destruct e; try done; cbn [got_bytes taken_bytes]; by rewrite app_nil_r, Nat.add_0_r.
  - destruct e; try done; simpl; lia.
  - apply shown_snoc; [done|]. by destruct e.
Qed.
#[local] Hint Extern 1 (keeps quiet (emit _)) => (apply quiet_emit; exact I) : keeps.

Lemma quiet_exec_cmd c : keeps quiet (exec_cmd c).
Proof. destruct c; cbn [exec_cmd]; unfold do_shutdown, do_configure_read, on_manager; streams. Qed.
#[local] Hint Resolve quiet_exec_cmd : keeps.

Definition is_consume (c : up_call) : bool := match c with up_consume _ _ => true | _ => false end.

Lemma quiet_call_up c : is_consume c = false -> keeps quiet (call_up up c).
Proof. intros Hc. unfold call_up. destruct c; try done; streams. Qed.
#[local] Hint Extern 1 (keeps quiet (call_up _ _)) => (apply quiet_call_up; reflexivity) : keeps.

Lemma quiet_fail r : keeps quiet (fail up r).
Proof. unfold fail, on_manager. streams. Qed.
#[local] Hint Resolve quiet_fail : keeps.

Lemma quiet_still {A} (m : comp A) : keeps quiet m -> keeps still m.
Proof. apply keeps_weaken. by intros s s' [H _]. Qed.

Lemma quiet_keeps {A} (m : comp A) : keeps quiet m -> keeps keeps_reads m.
Proof.
  apply keeps_weaken. intros s s' [[_ H] E] [Hs|[Hu [k Hs]]]; [left; auto|right].
  split; [destruct E; congruence|]. exists k. auto.
Qed.

Lemma on_manager_quiet f : keeps quiet (on_manager f).
Proof. unfold on_manager. streams. Qed.
#[local] Hint Resolve on_manager_quiet : keeps.

Lemma still_switch n : keeps still (switch_to_next_protocol up n).
Proof.
  unfold switch_to_next_protocol. apply keeps_bind; [apply _|apply quiet_still; unfold do_configure_read; streams|].
  intros _. apply keeps_bind; [apply _| |].
  - apply keeps_modify. intros s. split; [done|]. intros k [H1 Hk H2 Ht H3]. by split.
  - intros _. apply quiet_still. streams.
Qed.

(** A protocol that fails to start leaves the transport without one. *)
Lemma switch_fails n (s s' : transport) : switch_to_next_protocol up n s = Value false s' -> up_ s' = None.
Proof.
  unfold switch_to_next_protocol. intros H. do 3 (apply bind_value in H as (? & ? & _ & H)).
  apply bind_value in H as (r & s1 & _ & H).
  assert ((modify (set_up None);; on_manager deregister;; on_manager shutdown_manager;; mret false : comp bool) s1
    = Value false s') as E by (destruct r as [| | |[]]; (done || exact H)).
  by injection E as <-.
Qed.

(** Commands do not touch the upper layer. *)
Definition same_up (s s' : transport) : Prop := up_ s' = up_ s.

#[local] Instance same_up_preorder : PreOrder same_up.
Proof. unfold same_up. split; [done|]. intros s1 s2 s3 H1 H2. congruence. Qed.

Lemma cmds_keep_up cs : keeps same_up (for_each exec_cmd cs).
Proof.
  apply keeps_for_each; [apply _|]. intros c.
  destruct c; cbn [exec_cmd]; unfold do_shutdown, do_configure_read, on_manager, emit;
    repeat first [keeps_step | apply keeps_modify; intros ?; reflexivity].
Qed.

(** What [consume] returns counts as consumed. *)
Lemma consume_takes input delta s r s' :
  call_up up (up_consume input delta) s = Value r s' ->
  buffered_ s' = buffered_ s /\ up_ s' = up_ s /\
  forall c, r = consumed c -> (length input <= buffered_ s)%nat -> reads_at 0 s ->
    reads_at (taken_bytes (answered (length input) c)) s'.
Proof.
  unfold call_up. intros (t & s1 & [= <- <-] & H)%bind_value. destruct (up_ s) as [layer|] eqn:Eu; [|done].
  destruct (up layer _ _ _) as [[cs r'] u].
  apply bind_value in H as ([] & s1 & [= <-] & H). apply bind_value in H as ([] & s2 & H2 & H).
  assert (quiet s s2) as [[Eb Hk] Eu2].
  { transitivity (set_upper u s); [exact (quiet_modify (set_upper u) ltac:(intros; split_and!; auto) s)|].
    eapply keeps_done; [|exact H2]. streams. }
  assert (up_ s2 = up_ s) as Eu3 by (by apply (keeps_done _ _ _ _ _ (cmds_keep_up cs)) in H2).
  apply bind_value in H as ([] & s3 & H3 & [= -> <-]).
  destruct r as [|c| |]; injection H3 as <-; (split_and!; [done|cbn [up_ set_trace]; congruence|]); intros ? [= <-] Hl Hs. apply Hk in Hs as [H1 _ Hc Ht Hsh].
  assert (taken_bytes (answered (length input) c) <= length input)%nat as Hle.
  { unfold taken_bytes. destruct (Z.leb_spec 0 c), (Z.leb_spec c (Z.of_nat (length input))); simpl; lia. }
  assert (length (take (buffered_ s2) (read_buf_ s2)) = buffered_ s2) as Hlen by (rewrite length_take; lia).
  rewrite Hc, length_drop in Hlen.
  split; cbn [read_buf_ buffered_ trace set_trace]; rewrite ?received_snoc, ?taken_snoc, ?length_app; cbn [got_bytes].
  - exact H1.
  - lia.
  - rewrite Hc, app_nil_r. f_equal. lia.
  - cbn [length]. lia.
  - by apply shown_snoc.
Qed.

(** Showing the buffered bytes. *)
Lemma reads_show layer n d (s : transport) :
  (n <= buffered_ s)%nat -> reads_at 0 s ->
  reads_at 0 (set_trace (trace s ++ [showed layer (take n (read_buf_ s)) (drop d (take n (read_buf_ s)))]) s).
Proof.
  intros Hn [H1 Hk H2 Ht H3].
  split; cbn [read_buf_ buffered_ trace set_trace]; rewrite ?received_snoc, ?taken_snoc, ?length_app; try (simpl; lia).
  - rewrite H2. simpl. by rewrite app_nil_r, !Nat.add_0_r.
  - apply shown_snoc; [done|]. unfold unread. rewrite Nat.sub_0_r in H2. rewrite <- H2. split.
    + exists (drop n (take (buffered_ s) (read_buf_ s))).
      rewrite <- (take_drop n (take (buffered_ s) (read_buf_ s))) at 1. f_equal. rewrite take_take. f_equal. lia.
    + exists (take d (take n (read_buf_ s))). by rewrite take_drop.
Qed.

(** Dropping what was consumed brings the buffer up to date. *)
Lemma reads_shift k s s' : (k <= buffered_ s)%nat -> reads_at k s -> shift k s = Value tt s' -> reads_at 0 s'.
Proof.
  intros Hn [H1 Hk H2 Ht H3] [= <-].
  destruct (shifted_content (read_buf_ s) (buffered_ s) k) as [E El]; [lia|].
  split; cbn [read_buf_ buffered_ trace set_read_buf set_delta_offset set_buffered]; try done; [lia|].
  rewrite E, H2, drop_drop. f_equal. lia.
Qed.

(** Nothing here raises an exception. *)
Lemma exec_cmd_returns c (s : transport) : exists s', exec_cmd c s = Value tt s'.
Proof.
  destruct c; cbn [exec_cmd]; unfold do_shutdown, do_configure_read, on_manager, emit, gets, modify, mbind, comp_bind;
    repeat case_match; eauto; try done.
Qed.

Lemma cmds_return cs (s : transport) : exists s', for_each exec_cmd cs s = Value tt s'.
Proof.
  revert s. induction cs as [|c cs IH]; intros s; [by eexists|]. cbn [for_each].
  destruct (exec_cmd_returns c s) as [s1 E]. rewrite (run_value _ _ _ _ _ E). apply IH.
Qed.

Definition no_raise {A} (m : comp A) : Prop := forall s e s', m s <> Raised e s'.

Lemma no_raise_bind {A B} (m : comp A) (k : A -> comp B) : no_raise m -> (forall x, no_raise (k x)) -> no_raise (m ≫= k).
Proof.
  intros Hm Hk s e s'. unfold mbind, comp_bind. destruct (m s) as [x s1|e1 s1|] eqn:E; [apply Hk| |done].
  by apply Hm in E.
Qed.

Lemma no_raise_call_up c : no_raise (call_up up c).
Proof.
  intros s e s'. unfold call_up. rewrite run_gets. destruct (up_ s); [|done].
  destruct (up _ _ _ _) as [[cs r] u]. rewrite run_modify. destruct (cmds_return cs (set_upper u s)) as [s1 E].
  rewrite (run_value _ _ _ _ _ E). by destruct c, r.
Qed.

Lemma no_raise_switch n : no_raise (switch_to_next_protocol up n).
Proof.
  unfold switch_to_next_protocol. apply no_raise_bind; [intros s e s'; by destruct (exec_cmd_returns (configure_read 0 0) s) as [? E]; cbn [exec_cmd] in E; rewrite E|].
  intros _. apply no_raise_bind; [done|]. intros _. apply no_raise_bind; [done|]. intros _.
  apply no_raise_bind; [apply no_raise_call_up|]. by intros [| | |[]].
Qed.

(** However a computation ends, the final state satisfies [Q]. *)
Definition ends (Q : transport -> Prop) {A} (m : comp A) (s : transport) : Prop := keeps_from (fun _ => Q) m s.

Lemma ends_bind Q {A B} (m : comp A) (k : A -> comp B) s :
  no_raise m -> (forall x s1, m s = Value x s1 -> ends Q (k x) s1) -> ends Q (m ≫= k) s.
Proof.
  unfold ends, keeps_from, mbind, comp_bind. intros Hm Hk. destruct (m s) as [x s1|e s1|] eqn:E; [by apply Hk| |done].
  by apply Hm in E.
Qed.

Lemma keeps_ends {A} (m : comp A) s : keeps keeps_reads m -> reads_ok s -> ends reads_ok m s.
Proof. intros Hm Hs. specialize (Hm s). unfold ends, keeps_from. destruct (m s); auto. Qed.

(** One round of the loop that consumes [c] bytes. *)
Lemma reads_consumed (c : Z) (next : option Z) s (rest : comp unit) :
  0 <= c <= Z.of_nat (buffered_ s) -> reads_at (Z.to_nat c) s -> keeps keeps_reads rest ->
  ends reads_ok (ok ← match next with Some next => switch_to_next_protocol up next | None => mret true end;
    if (ok : bool) then shift (Z.to_nat c);; rest else mret tt) s.
Proof.
  intros Hc Hs Hrest. apply ends_bind; [destruct next; [apply no_raise_switch|done]|]. intros ok s1 E.
  assert (still s s1) as [Eb Hk].
  { destruct next; [by apply (keeps_done _ _ _ _ _ (still_switch _)) in E|by injection E as _ <-]. }
  destruct ok.
  - apply ends_bind; [done|]. intros [] s2 E2. apply keeps_ends; [done|]. left.
    apply (reads_shift (Z.to_nat c) s1); [lia|by apply Hk|done].
  - destruct next; [|done]. apply switch_fails in E. right. split; [done|]. eauto.
Qed.

(** Draining the buffer. *)
Lemma reads_buffered_loop f : keeps keeps_reads (buffered_loop up f).
Proof.
  induction f as [|f IH]; [done|]. intros s. cut (reads_ok s -> ends reads_ok (buffered_loop up (S f)) s).
  { unfold ends, keeps_from. intros H. destruct (buffered_loop up (S f) s); try done; by intros ?%H. }
  intros Hs. cbn [buffered_loop]. apply ends_bind; [done|]. intros s0 s1 [= <- <-].
  destruct (_ && _); [|exact Hs]. set (n := Nat.min _ _). destruct (n <? delta_offset_ s)%nat; [done|].
  destruct (up_ s) as [layer|] eqn:Eu; [|done]. destruct Hs as [Hs|[? _]]; [|congruence].
  assert (length (take n (read_buf_ s)) = n) as Hl by (destruct Hs; rewrite length_take; lia).
  apply ends_bind; [done|]. intros [] s2 E2. pose proof (reads_show layer n (delta_offset_ s) s ltac:(lia) Hs) as Hs2.
  injection E2 as E2. rewrite E2 in Hs2. assert (buffered_ s2 = buffered_ s) as Eb2 by (by subst s2). clear E2.
  apply ends_bind; [apply no_raise_call_up|]. intros r s3 E3. apply consume_takes in E3 as (Eb & _ & Hr).
  destruct r as [|c| |]; try done. specialize (Hr c eq_refl). rewrite Hl in Hr. specialize (Hr ltac:(lia) Hs2).
  unfold taken_bytes in Hr. destruct (Z.ltb_spec c 0) as [Hneg|Hneg].
  { apply keeps_ends; [apply quiet_keeps; keeps|]. left. by rewrite (proj2 (Z.leb_gt 0 c)) in Hr by lia. }
  destruct (Z.ltb_spec (Z.of_nat n) c) as [Hbig|Hbig].
  { apply keeps_ends; [apply quiet_keeps; keeps|]. left. by rewrite (proj2 (Z.leb_gt c (Z.of_nat n))), andb_false_r in Hr by lia. }
  rewrite (proj2 (Z.leb_le 0 c)), (proj2 (Z.leb_le c (Z.of_nat n))) in Hr by lia. cbn [andb] in Hr.
  apply ends_bind; [done|]. intros nx s4 [= <- <-]. destruct (Z.eqb_spec c 0) as [->|Hc].
  - destruct (next_ s3) as [next|].
    + apply ends_bind; [apply no_raise_switch|]. intros ok s4 E4.
      apply (keeps_done _ _ _ _ _ (still_switch _)) in E4 as [_ Hk]. destruct ok; [apply keeps_ends; [done|]|]; left; by apply Hk.
    + apply keeps_ends; [|by left]. apply keeps_bind; [apply _|apply quiet_keeps; streams|]. intros _.
      apply keeps_bind; [apply _|apply keeps_gets, _|]. intros t. destruct (_ =? _)%nat; [apply keeps_ret, _|done].
  - apply reads_consumed; [lia|done|done].
Qed.

(** Storing bytes from the socket. *)
Lemma reads_store_at k bs s s' :
  (buffered_ s + length bs <= length (read_buf_ s))%nat -> reads_at k s -> store bs s = Value tt s' -> reads_at k s'.
Proof.
  intros Hl [H1 Hk H2 Ht H3] [= <-].
  split; cbn [read_buf_ buffered_ trace set_trace set_read_buf set_buffered]; rewrite ?received_snoc, ?taken_snoc, ?length_app;
    cbn [got_bytes taken_bytes].
  - rewrite memcpy_at_length; lia.
  - lia.
  - unfold memcpy_at. rewrite app_assoc, take_app_le by (rewrite length_app, length_take; lia).
    rewrite take_ge by (rewrite length_app, length_take; lia). rewrite H2, Nat.add_0_r. symmetry. apply drop_app_le. lia.
  - simpl. lia.
  - by apply shown_snoc.
Qed.

Lemma reads_store bs s :
  (buffered_ s + length bs <= length (read_buf_ s))%nat -> keeps_from keeps_reads (store bs) s.
Proof.
  intros Hl. destruct (store bs s) as [[] s'| |] eqn:E; [|done..]. unfold keeps_from. rewrite E.
  intros [Hs|[Hu [k Hs]]]; [left; by eapply reads_store_at|right].
  split; [by injection E as <-|]. exists k. by eapply reads_store_at.
Qed.

Lemma resize_length n buf : (length buf <= n)%nat -> length (resize n buf) = n.
Proof. intros H. unfold resize. rewrite length_app, length_take, length_replicate. lia. Qed.

(** Growing the buffer. *)
Lemma reads_grow n (s : transport) :
  let s' := if (length (read_buf_ s) <? n)%nat then set_read_buf (resize n (read_buf_ s)) s else s in
  buffered_ s' = buffered_ s /\ (n <= length (read_buf_ s'))%nat /\ keeps_reads s s'.
Proof.
  cbv zeta. destruct (Nat.ltb_spec (length (read_buf_ s)) n) as [Hn|Hn]; [|done]. split; [done|].
  cbn [read_buf_ set_read_buf]. rewrite resize_length by lia. split; [done|].
  assert (forall k, reads_at k s -> reads_at k (set_read_buf (resize n (read_buf_ s)) s)) as Hk.
  { intros k [H1 Hk H2 Ht H3].
    split; cbn [read_buf_ buffered_ trace set_read_buf]; [rewrite resize_length; lia|done| |done..].
    rewrite <- H2. unfold resize. rewrite (take_ge (read_buf_ s) n) by lia. by rewrite take_app_le. }
  intros [Hs|[Hu [k Hs]]]; [left; auto|right; eauto].
Qed.

Lemma read_socket_quiet n : keeps quiet (read_socket read n).
Proof. unfold read_socket. streams. Qed.

(** A read that returns bytes leaves room for them. *)
Lemma read_socket_bytes n (s : transport) bs s' :
  read_socket read n s = Value (rd_bytes bs) s' ->
  (length bs <= n)%nat /\ buffered_ s' = buffered_ s /\ read_buf_ s' = read_buf_ s.
Proof.
  unfold read_socket. intros (p & s1 & [= <- <-] & H)%bind_value. destruct (read (sock s) n) as [r p'] eqn:E.
  apply bind_value in H as ([] & s2 & [= <-] & [= -> <-]). split; [by eapply read_bounded|done].
Qed.

Lemma reads_drain : keeps keeps_reads (drain_policy up read pending).
Proof.
  intros s. unfold drain_policy. apply keeps_from_bind; [apply _|apply keeps_at; keeps|]. intros p s1 [= <- <-].
  set (n := pending (sock s)). destruct (0 <? n)%nat; [|apply keeps_at; keeps].
  destruct (reads_grow (buffered_ s + n) s) as (Eb & Hl & Hk).
  apply keeps_from_bind; [apply _|exact Hk|]. intros [] ? [= <-]. match type of Eb with buffered_ ?t = _ => set (s1 := t) in * end.
  apply keeps_from_bind; [apply _|apply keeps_at, quiet_keeps, read_socket_quiet|]. intros r s2 E2.
  destruct r as [bs|e]; [|apply keeps_at, quiet_keeps; keeps].
  apply read_socket_bytes in E2 as (Hbs & Eb2 & Er2). destruct (_ =? _)%nat; [|apply keeps_at, quiet_keeps; keeps].
  apply keeps_from_bind; [apply _|apply reads_store; rewrite Eb2, Er2; lia|]. intros [] s3 _. apply keeps_at; keeps.
Qed.

Lemma reads_do_read : keeps keeps_reads (do_read up read pending fuel).
Proof.
  intros s. unfold do_read. destruct (reads_grow (max_read_size_ s) s) as (Eb & Hl & Hk).
  apply keeps_from_bind; [apply _|exact Hk|]. intros [] ? [= <-]. match type of Eb with buffered_ ?t = _ => set (s1 := t) in * end.
  apply keeps_from_bind; [apply _|apply keeps_at; keeps|]. intros t s2 [= <- <-].
  apply keeps_from_bind; [apply _|apply keeps_at, quiet_keeps, read_socket_quiet|]. intros r s2 E2.
  destruct r as [[|x bs]|[]]; try solve [apply keeps_at, quiet_keeps; streams].
  apply read_socket_bytes in E2 as (Hbs & Eb2 & Er2). cbn [length] in Hbs.
  apply keeps_from_bind; [apply _|apply reads_store; rewrite Eb2, Er2; cbn [length]; lia|]. intros [] s3 _.
  apply keeps_at. apply keeps_bind; [apply _|apply reads_drain|]. intros []; [apply reads_buffered_loop|apply keeps_ret, _].
Qed.

Lemma reads_do_write : keeps keeps_reads (do_write up write).
Proof. apply quiet_keeps. unfold do_write, drop_written. streams. Qed.

Lemma reads_handle_event d b : keeps keeps_reads (handle_event up read write pending fuel d b).
Proof.
  revert b. induction d as [|d IH]; intros b; [done|]. cbn [handle_event].
  pose proof reads_do_read. pose proof reads_do_write.
  assert (forall f, keeps keeps_reads (on_manager f)) by (intros f; apply quiet_keeps; keeps).
  destruct b; repeat first [keeps_step | apply quiet_keeps; quietly].
Qed.

Lemma reads_run_job : keeps keeps_reads (run_job up fuel).
Proof.
  unfold run_job, handle_buffered_data, handle_error, abort. pose proof (reads_buffered_loop fuel).
  assert (forall f, keeps keeps_reads (on_manager f)) by (intros f; apply quiet_keeps; keeps).
  assert (forall r, keeps keeps_reads (call_up up (up_abort r))) by (intros f; apply quiet_keeps; keeps).
  repeat first [keeps_step | apply quiet_keeps; quietly].
Qed.

Lemma reads_step s s' : transport_step s s' -> keeps_reads s s'.
Proof.
  intros H. destruct H as [s size b s' H|s s' _ _ H|s s' _ _ H|s s' H|s s' H|s|s cs u s' _ H].
  - eapply keeps_done; [|exact H]. apply quiet_keeps. unfold start. streams.
  - eapply keeps_done; [|exact H]. apply reads_handle_event.
  - eapply keeps_done; [|exact H]. apply reads_handle_event.
  - eapply keeps_done; [|exact H]. apply reads_run_job.
  - eapply keeps_done; [|exact H]. apply quiet_keeps. unfold handle_error, abort. streams.
  - intros [[]|[Hu [k []]]]; [left; by split|right]. split; [done|]. exists k. by split.
  - transitivity (set_upper u s).
    { intros [[]|[Hu [k []]]]; [left; by split|right]. split; [done|]. exists k. by split. }
    eapply keeps_done; [|exact H]. apply quiet_keeps. keeps.
Qed.

Lemma reads_ok_initial layer u p : reads_ok (make layer u p).
Proof.
  left. split; [done..|]. intros tr1 l i d tr2 E. by destruct tr1.
Qed.

(** C16. The upper layer sees the received byte stream.  Whatever sizes the
    socket returns (at most as many bytes as it was asked for), however the
    protocol configures, pauses, resumes and replaces itself, and wherever the
    connection fails, every call of [consume] gets bytes that directly follow
    all those that earlier calls said they consumed, in the order they arrived:
    nothing is skipped, repeated or reordered.  As long as there is an upper
    layer, the buffer holds exactly the bytes that were received and not yet
    consumed.  A result of [consume] that is negative or larger than what was
    offered is an error and consumes nothing; the statement covers every event
    that returns (three cases in which one does not are
    [resume_after_failure_crashes], [shrinking_policy_undefined] and a call
    without an upper layer). *)
Theorem transport_delivers_stream layer u p s :
  rtc transport_step (make layer u p) s ->
  shown_in_order (trace s) /\
  (is_Some (up_ s) -> take (buffered_ s) (read_buf_ s) = unread (trace s)).
Proof.
  intros H. assert (keeps_reads (make layer u p) s) as Hk.
  { induction H as [|s1 s2 s3 H12 _ IH]; [reflexivity|]. transitivity s2; [by apply reads_step|done]. }
  destruct (Hk (reads_ok_initial layer u p)) as [[]|[E [k []]]].
  - split; [done|]. intros _. by rewrite r_content0, Nat.sub_0_r.
  - split; [done|]. rewrite E. by intros [].
Qed.

(** ** Writing *)

Definition writes_ok (s : transport) : Prop := outgoing (trace s) = sent (trace s) ++ write_buf_ s.

Definition keeps_writes (s s' : transport) : Prop := writes_ok s -> writes_ok s'.

#[local] Instance keeps_writes_preorder : PreOrder keeps_writes.
Proof. unfold keeps_writes. split; [intros s; auto|]. intros s1 s2 s3. auto. Qed.

Lemma writes_modify (f : transport -> transport) :
  (forall s, write_buf_ (f s) = write_buf_ s /\ trace (f s) = trace s) -> keeps keeps_writes (modify f).
Proof. intros H s. destruct (H s) as (E1 & E2). unfold modify, keeps_writes, writes_ok. by rewrite E1, E2. Qed.

Ltac output :=
  repeat first [keeps_step
    | apply writes_modify; intros ?; split; (reflexivity || (repeat case_match; reflexivity))].

Lemma writes_emit e :
  match e with appended _ | put _ => False | _ => True end -> keeps keeps_writes (emit e).
Proof.
  intros He s H. unfold emit, modify, writes_ok. cbn [trace set_trace write_buf_].
  rewrite outgoing_snoc, sent_snoc. destruct e; try done; simpl; by rewrite !app_nil_r.
Qed.
#[local] Hint Extern 1 (keeps keeps_writes (emit _)) => (apply writes_emit; exact I) : keeps.

Lemma writes_exec_cmd c : keeps keeps_writes (exec_cmd c).
Proof.
  destruct c; cbn [exec_cmd]; unfold do_shutdown, do_configure_read, on_manager; try (output; fail).
  intros s H. simpl. unfold writes_ok. cbn [trace set_trace write_buf_ set_write_buf].
  rewrite outgoing_snoc, sent_snoc. simpl. by rewrite app_nil_r, H, app_assoc.
Qed.
#[local] Hint Resolve writes_exec_cmd : keeps.

Lemma writes_call_up c : keeps keeps_writes (call_up up c).
Proof. unfold call_up. output. Qed.

Lemma writes_on_manager f : keeps keeps_writes (on_manager f).
Proof. unfold on_manager. output. Qed.
#[local] Hint Resolve writes_call_up writes_on_manager : keeps.

Lemma writes_fail r : keeps keeps_writes (fail up r).
Proof. unfold fail. output. Qed.

Lemma writes_switch n : keeps keeps_writes (switch_to_next_protocol up n).
Proof. unfold switch_to_next_protocol, do_configure_read. output. Qed.
#[local] Hint Resolve writes_fail writes_switch : keeps.

Lemma writes_buffered_loop f : keeps keeps_writes (buffered_loop up f).
Proof. induction f as [|f IH]; cbn [buffered_loop]; unfold shift; output. Qed.
#[local] Hint Resolve writes_buffered_loop : keeps.

Lemma writes_do_read : keeps keeps_writes (do_read up read pending fuel).
Proof. unfold do_read, drain_policy, read_socket, store, handle_buffered_data. output. Qed.

(** What the socket accepted leaves the buffer. *)
Lemma writes_drop_written n : keeps keeps_writes (drop_written n).
Proof.
  intros s H. simpl. unfold writes_ok in *. cbn [trace set_trace write_buf_ set_write_buf].
  rewrite outgoing_snoc, sent_snoc. simpl. by rewrite app_nil_r, H, <- app_assoc, take_drop.
Qed.
#[local] Hint Resolve writes_do_read writes_drop_written : keeps.

Lemma writes_do_write : keeps keeps_writes (do_write up write).
Proof. unfold do_write. output. Qed.
#[local] Hint Resolve writes_do_write : keeps.

Lemma writes_handle_event d b : keeps keeps_writes (handle_event up read write pending fuel d b).
Proof. revert b. induction d as [|d IH]; intros []; cbn [handle_event]; output. Qed.

Lemma writes_handle_error b : keeps keeps_writes (handle_error up b).
Proof. unfold handle_error, abort. output. Qed.
#[local] Hint Resolve writes_handle_event writes_handle_error : keeps.

Lemma writes_step s s' : transport_step s s' -> keeps_writes s s'.
Proof.
  intros H. destruct H as [s size b s' H|s s' _ _ H|s s' _ _ H|s s' H|s s' H|s|s cs u s' _ H];
    try (eapply keeps_done; [|exact H]; unfold start, handle_read_event, handle_write_event, run_job, handle_buffered_data; output; fail).
  - by intros H.
  - transitivity (set_upper u s); [by intros Hw|]. eapply keeps_done; [|exact H]. output.
Qed.

(** The socket gets the byte stream of the upper layers.  Whatever sizes
    the socket accepts and however writes are interrupted, the bytes it has
    accepted followed by those in the write buffer are the bytes all upper
    layers appended, in this order. *)
Theorem transport_sends_stream layer u p s :
  rtc transport_step (make layer u p) s -> outgoing (trace s) = sent (trace s) ++ write_buf_ s.
Proof.
  intros H. assert (keeps_writes (make layer u p) s) as Hk.
  { induction H as [|s1 s2 s3 H12 _ IH]; [reflexivity|]. transitivity s2; [by apply writes_step|done]. }
  by apply Hk.
Qed.

End Streams.

(** ** Examples *)

(** A socket that delivers one chunk per read and answers every write in the
    same way; a write of no bytes returns zero. *)
Record demo_socket := mk_demo { chunks : list bytes; broken : bool }.

Definition demo_read (p : demo_socket) (n : nat) : read_result * demo_socket :=
  match chunks p with
  | [] => (rd_error temporary, p)
  | c :: cs => (rd_bytes (take n c), mk_demo cs (broken p))
  end.

Definition demo_write (p : demo_socket) (b : bytes) : write_result * demo_socket :=
  (if broken p then wr_error permanent else wr_bytes (length b), p).

Lemma demo_read_bounded p n bs p' : demo_read p n = (rd_bytes bs, p') -> (length bs <= n)%nat.
Proof.
  unfold demo_read. destruct (chunks p) as [|c cs]; [done|]. intros [= <- _]. rewrite length_take. lia.
Qed.

(** An upper layer for each example; the state counts the calls of [consume]. *)
Definition quick_layer (layer : Z) (c : up_call) (v : lower_layer) (n : nat) : list cmd * up_result * nat :=
  match c with
  | up_start => ([configure_read 1 10], started true, n)
  | up_consume input _ => ([begin_output; append_output input], consumed (zlen input), S n)
  | up_done_sending => ([], done_sending true, n)
  | _ => ([], returned, n)
  end.

(** Reads two chunks and echoes the first. *)
Definition quick_start : transport nat demo_socket :=
  make 0 0%nat (mk_demo [[1; 2; 3]; [4]] false).

Definition state_of {A} (o : outcome (transport nat demo_socket) A) : transport nat demo_socket :=
  match o with Value _ s | Raised _ s => s | Stuck => quick_start end.

Definition quick_started := state_of (start quick_layer 100 quick_start).
Definition quick_read := state_of (handle_read_event quick_layer demo_read demo_write (fun _ => 0%nat) 9 quick_started).
Definition quick_written := state_of (handle_write_event quick_layer demo_read demo_write (fun _ => 0%nat) 9 quick_read).

Lemma quick_reachable :
  rtc (transport_step quick_layer demo_read demo_write (fun _ => 0%nat) 9) quick_start quick_written.
Proof.
  eapply rtc_l; [by apply (step_start _ _ _ _ _ _ 100%nat true quick_started)|].
  eapply rtc_l; [apply (step_read _ _ _ _ _ _ quick_read); vm_compute; reflexivity|].
  apply rtc_once. apply step_write; vm_compute; reflexivity.
Qed.

Lemma transport_delivers_stream_witness :
  received (trace quick_written) = [1; 2; 3] /\ taken (trace quick_written) = 3%nat /\
  shown_in_order (trace quick_written) /\
  (is_Some (up_ quick_written) ->
   take (buffered_ quick_written) (read_buf_ quick_written) = unread (trace quick_written)).
Proof.
  split; [vm_compute; reflexivity|]. split; [vm_compute; reflexivity|].
  apply (transport_delivers_stream quick_layer demo_read demo_write (fun _ => 0%nat) 9 demo_read_bounded
    0 0%nat (mk_demo [[1; 2; 3]; [4]] false)). exact quick_reachable.
Defined.

Lemma transport_sends_stream_witness :
  sent (trace quick_written) = [1; 2; 3] /\
  outgoing (trace quick_written) = sent (trace quick_written) ++ write_buf_ quick_written.
Proof.
  split; [vm_compute; reflexivity|].
  apply (transport_sends_stream quick_layer demo_read demo_write (fun _ => 0%nat) 9
    0 0%nat (mk_demo [[1; 2; 3]; [4]] false)). exact quick_reachable.
Defined.

(** ** Where the code goes wrong *)

(** A protocol that asks to write without having anything to send loses its
    connection: the transport passes the empty buffer to the socket and takes
    the zero it returns for a closed connection. *)
Theorem empty_write_disconnects :
  exists s, for_each (fun m => m)
      [exec_cmd write_later; handle_write_event quick_layer demo_read demo_write (fun _ => 0%nat) 9] quick_started
    = Value tt s /\ trace s = [failed socket_disconnected] /\ up_ s = None.
Proof.
  exists (state_of (for_each (fun m => m)
    [exec_cmd write_later; handle_write_event quick_layer demo_read demo_write (fun _ => 0%nat) 9] quick_started)).
  vm_compute. split_and!; reflexivity.
Qed.

(** Pauses after the first byte and resumes when it may send. *)
Definition pausing_layer (layer : Z) (c : up_call) (v : lower_layer) (n : nat) : list cmd * up_result * nat :=
  match c with
  | up_start => ([configure_read 1 10], started true, n)
  | up_consume _ _ => ([configure_read 0 0; begin_output; append_output [9]], consumed 1, S n)
  | up_prepare_send => ([configure_read 1 10], returned, n)
  | _ => ([], returned, n)
  end.

(** If the write that follows fails, the function scheduled by
    [configure_read] runs after the upper layer was destroyed and calls it
    through a null pointer. *)
Theorem resume_after_failure_crashes :
  exists s, for_each (fun m => m)
      [start pausing_layer 100;; mret tt;
       handle_read_event pausing_layer demo_read demo_write (fun _ => 0%nat) 9;
       handle_write_event pausing_layer demo_read demo_write (fun _ => 0%nat) 9]
      (make 0 0%nat (mk_demo [[1; 2; 3]] true)) = Value tt s /\
    jobs (mgr s) = [resume_reading; dispose_manager] /\ run_job pausing_layer 9 s = Stuck.
Proof.
  exists (state_of (for_each (fun m => m)
    [start pausing_layer 100;; mret tt;
     handle_read_event pausing_layer demo_read demo_write (fun _ => 0%nat) 9;
     handle_write_event pausing_layer demo_read demo_write (fun _ => 0%nat) 9]
    (make 0 0%nat (mk_demo [[1; 2; 3]] true)))).
  vm_compute. split_and!; reflexivity.
Qed.

(** Asks for fewer bytes than it was shown without consuming any. *)
Definition shrinking_layer (layer : Z) (c : up_call) (v : lower_layer) (n : nat) : list cmd * up_result * nat :=
  match c with
  | up_start => ([configure_read 4 4], started true, n)
  | up_consume _ _ => ([configure_read 2 2], consumed 0, S n)
  | _ => ([], returned, n)
  end.

(** Then [delta_offset_] exceeds the next input, and the call of [subspan] is
    undefined. *)
Theorem shrinking_policy_undefined :
  handle_read_event shrinking_layer demo_read demo_write (fun _ => 0%nat) 9
    (match start shrinking_layer 100 (make 0 0%nat (mk_demo [[1; 2; 3; 4]] false)) with
     | Value _ s | Raised _ s => s | Stuck => quick_start end) = Stuck.
Proof. vm_compute. reflexivity. Qed.

(** Waits for four bytes and then hands over to layer 1 without consuming. *)
Definition switching_layer (layer : Z) (c : up_call) (v : lower_layer) (n : nat) : list cmd * up_result * nat :=
  match c with
  | up_start => ([configure_read 1 10], started true, n)
  | up_consume input _ =>
      if layer =? 1 then ([], consumed (zlen input), S n)
      else if zlen input <? 4 then ([], consumed 0, S n) else ([switch_protocol 1], consumed 0, S n)
  | _ => ([], returned, n)
  end.

(** The new layer has not seen any byte, yet its [delta] leaves out the bytes
    that were shown to the old one. *)
Theorem switched_layer_misses_delta :
  exists s, for_each (fun m => m)
      [start switching_layer 100;; mret tt;
       handle_read_event switching_layer demo_read demo_write (fun _ => 0%nat) 9;
       handle_read_event switching_layer demo_read demo_write (fun _ => 0%nat) 9; run_job switching_layer 9]
      (make 0 0%nat (mk_demo [[1; 2]; [3; 4]] false)) = Value tt s /\
    showed 1 [1; 2; 3; 4] [3; 4] ∈ trace s.
Proof.
  exists (state_of (for_each (fun m => m)
    [start switching_layer 100;; mret tt;
     handle_read_event switching_layer demo_read demo_write (fun _ => 0%nat) 9;
     handle_read_event switching_layer demo_read demo_write (fun _ => 0%nat) 9; run_job switching_layer 9]
    (make 0 0%nat (mk_demo [[1; 2]; [3; 4]] false)))).
  vm_compute. split; [reflexivity|]. set_solver.
Qed.

End TransportStream.
