(* ===== verification/LpTransport.v ===== *)
(** * Length-prefix framing over the transport

    The framing of [LpFraming] as the upper layer of the transport of
    [Transport]: messages arrive over a socket that delivers the byte stream in
    pieces of any size. *)

From stdpp Require Import prelude.
From S2P Require Import Prelude NetworkOrder Effects LpFraming Transport TransportStream.

Module LpTransport.

Import Effects LpFraming Transport TransportStream.

(** ** The framing as an upper layer *)

Section Stack.

Context (f : framing).
#[local] Abbreviation h := (hdr_len f).

(** An application that requests messages when it starts, and keeps all of
    them; the state is the list of messages it received. *)
Definition lp_layer (layer : Z) (c : up_call) (v : lower_layer) (ms : list bytes)
  : list cmd * up_result * list bytes :=
  match c with
  | up_start => ([configure_read h h], started true, ms)
  | up_consume input _ =>
      match LpFraming.consume (fun _ => true) input f with
      | Message m => (if is_reading v then [configure_read h h] else [], consumed (zlen input), ms ++ [m])
      | NeedExactly n => ([configure_read (Z.to_nat n) (Z.to_nat n)], consumed 0, ms)
      | Aborted _ => ([], consumed (-1), ms)
      end
  | up_done_sending => ([], done_sending true, ms)
  | _ => ([], returned, ms)
  end.

(** A socket that delivers chunks one after another, and then has no data. *)
Definition chunk_read (cs : list bytes) (n : nat) : read_result * list bytes :=
  match cs with
  | [] => (rd_error temporary, [])
  | c :: cs' =>
      (rd_bytes (take n c), match drop n c with [] => cs' | c' => c' :: cs' end)
  end.

Definition chunk_write (cs : list bytes) (b : bytes) : write_result * list bytes := (wr_bytes (length b), cs).

Definition no_pending (cs : list bytes) : nat := 0.

#[local] Abbreviation state := (transport (list bytes) (list bytes)).
#[local] Abbreviation comp := (comp state).

Context (fuel : nat).

Definition lp_read_event : comp unit := handle_read_event lp_layer chunk_read chunk_write no_pending fuel.

(** [k] read events. *)
Fixpoint lp_read_events (k : nat) : comp unit :=
  match k with O => mret tt | S k' => lp_read_event;; lp_read_events k' end.

(** The transport after it was started on a socket with the given chunks. *)
Definition lp_start (cs : list bytes) : outcome state bool := start lp_layer 1024 (make 0 [] cs).

(** ** Correctness *)

(** The transport while it receives: it waits for [w] bytes, the upper layer
    has seen [d] of the buffered bytes [b], the application has [ms], and the
    socket still has [cs]. *)
Record receiving (s : state) (w d : nat) (b : bytes) (ms cs : list bytes) : Prop := {
  a_reading : reading (mgr s) = true;
  a_min : min_read_size_ s = w;
  a_max : max_read_size_ s = w;
  a_buf : take (buffered_ s) (read_buf_ s) = b;
  a_len : buffered_ s = length b;
  a_delta : delta_offset_ s = d;
  a_up : up_ s = Some 0;
  a_next : next_ s = None;
  a_msgs : upper s = ms;
  a_sock : sock s = cs;
  a_flag : wanted_read_from_write_event s = false;
}.

(** The loop stops if there are not enough bytes. *)
Lemma loop_waits n s w d b ms cs :
  receiving s w d b ms cs -> (length b < w)%nat -> buffered_loop lp_layer (S n) s = Value tt s.
Proof.
  intros [] Hb. cbn [buffered_loop]. unfold gets, mbind, comp_bind. rewrite a_min0, a_max0, a_len0.
  rewrite (proj2 (Nat.leb_gt w (length b))) by lia. by rewrite andb_false_r.
Qed.

Lemma take_buffered (s : state) w b :
  take (buffered_ s) (read_buf_ s) = b -> buffered_ s = length b -> (w <= length b)%nat ->
  take w (read_buf_ s) = take w b.
Proof. intros <- E Hw. rewrite take_take. f_equal. lia. Qed.

Lemma configure_running (s : state) n :
  max_read_size_ s <> 0%nat -> (0 < n)%nat ->
  exec_cmd (configure_read n n) s = Value tt (set_max_read_size n (set_min_read_size n s)).
Proof.
  intros Hm Hn. cbn [exec_cmd]. unfold do_configure_read. rewrite run_gets, !run_modify.
  rewrite (proj2 (Nat.eqb_neq (max_read_size_ s) 0)), andb_false_r by done. cbn [andb].
  by rewrite (proj2 (Nat.eqb_neq n 0)) by lia.
Qed.

(** One round of the loop, up to the decision about the result. *)
Lemma loop_round n s w d b ms cs size r u :
  receiving s w d b ms cs -> (d <= w <= length b)%nat -> (0 < w)%nat -> (0 < size)%nat ->
  lp_layer 0 (up_consume (take w b) (drop d (take w b))) (view s) ms = ([configure_read size size], consumed r, u) ->
  exists s', receiving s' size d b u cs /\
    buffered_loop lp_layer (S n) s
    = (if r <? 0 then call_up lp_layer (up_abort runtime_error);; on_manager deregister_reading
       else if Z.of_nat w <? r then call_up lp_layer (up_abort logic_error);; on_manager deregister_reading
       else if r =? 0 then
         modify (set_delta_offset w);;
         t ← gets (fun s => s);
         if (w =? Nat.min (buffered_ t) (max_read_size_ t))%nat then mret tt else buffered_loop lp_layer n
       else shift (Z.to_nat r);; buffered_loop lp_layer n) s'.
Proof.
  intros Hr Hb Hw Hsize Hup. pose proof Hr as [].
  set (s1 := set_trace (trace s ++ [showed 0 (take w b) (drop d (take w b))]) s).
  set (s2 := set_max_read_size size (set_min_read_size size (set_upper u s1))).
  exists (set_trace (trace s2 ++ [answered (length (take w b)) r]) s2).
  split; [by split|].
  cbn [buffered_loop]. rewrite run_gets.
  rewrite a_reading0, a_min0, a_max0, a_len0, a_delta0, a_up0.
  rewrite (proj2 (Nat.ltb_lt 0 w)), (proj2 (Nat.leb_le w (length b))) by lia. cbn [andb].
  rewrite (Nat.min_r (length b) w), (proj2 (Nat.ltb_ge w d)) by lia.
  rewrite (take_buffered s w b) by (done || lia). unfold emit. rewrite run_modify. fold s1.
  assert (call_up lp_layer (up_consume (take w b) (drop d (take w b))) s1
    = Value (consumed r) (set_trace (trace s2 ++ [answered (length (take w b)) r]) s2)) as E.
  { unfold call_up. rewrite run_gets. change (up_ s1) with (up_ s). rewrite a_up0.
    change (view s1) with (view s). change (upper s1) with (upper s). rewrite a_msgs0, Hup, run_modify.
    cbn [for_each]. rewrite (run_value _ _ _ tt s2); [done|].
    assert (max_read_size_ (set_upper u s1) <> 0)%nat as Hm by (cbn [max_read_size_ set_upper s1 set_trace]; lia).
    by rewrite (run_value _ _ _ _ _ (configure_running _ _ Hm Hsize)). }
  rewrite (run_value _ _ _ _ _ E). destruct (r <? 0); [done|]. destruct (_ <? r); [done|].
  rewrite run_gets. cbn [next_ set_max_read_size set_min_read_size set_upper s2 s1 set_trace]. rewrite a_next0.
  by destruct (r =? 0).
Qed.

Lemma shift_receiving s w d b ms cs n :
  receiving s w d b ms cs -> (n <= length b)%nat ->
  exists s', shift n s = Value tt s' /\ receiving s' w 0 (drop n b) ms cs.
Proof.
  intros [] Hn. eexists. split; [reflexivity|].
  assert (length b <= length (read_buf_ s))%nat as Hl.
  { rewrite <- a_buf0, length_take, a_len0. lia. }
  destruct (shifted_content (read_buf_ s) (buffered_ s) n) as [E El]; [lia|].
  split; try done; cbn [read_buf_ buffered_ set_trace set_read_buf set_delta_offset set_buffered]; [by rewrite E, a_buf0|].
  rewrite a_len0, length_drop. done.
Qed.

(** What the transport waits for: the next header, or the rest of a message
    whose header it has. *)
Definition phase (rest : list bytes) (w d : nat) (b : bytes) : Prop :=
  (w = h /\ d = 0%nat) \/
  exists m rest', rest = m :: rest' /\ w = (h + length m)%nat /\ d = h /\ (h <= length b)%nat.

Definition stream (rest : list bytes) : bytes := flat_map (frame (size_field_ f)) rest.

(** The state between two events. *)
Definition settled (s : state) (rest ms cs : list bytes) : Prop :=
  exists w d b, receiving s w d b ms cs /\ phase rest w d b /\ (length b < w)%nat /\
    b ++ concat cs = stream rest.

Lemma hdr_pos : (0 < h)%nat.
Proof. apply hdr_size_pos. Qed.

(** The bytes in front belong to the first message. *)
Lemma stream_front m rest b cs w :
  b ++ concat cs = stream (m :: rest) -> (w <= length b)%nat ->
  take w b = take w (frame (size_field_ f) m ++ stream rest).
Proof. intros E Hw. rewrite <- (take_app_le b (concat cs) w) by done. by rewrite E. Qed.

Lemma loop_message m rest n s b ms cs :
  receiving s (h + length m) h b ms cs -> (h + length m <= length b)%nat -> transferable f m ->
  b ++ concat cs = stream (m :: rest) ->
  exists s' b', buffered_loop lp_layer (S n) s = buffered_loop lp_layer n s' /\
    receiving s' h 0 b' (ms ++ [m]) cs /\ b' ++ concat cs = stream rest /\ (length b = h + length m + length b')%nat.
Proof.
  intros Hr Hb Ht E. pose proof hdr_pos. pose proof (lp_frame_length (size_field_ f) m) as Hl. fold h in Hl.
  pose proof (stream_front m rest b cs _ E Hb) as Hf.
  assert (take (h + length m) (frame (size_field_ f) m ++ stream rest) = frame (size_field_ f) m) as Et
    by (rewrite <- Hl; apply take_app_length). rewrite Et in Hf.
  destruct (loop_round n s (h + length m) h b ms cs h (zlen (frame (size_field_ f) m)) (ms ++ [m]) Hr) as (s1 & Hr1 & ->); [lia..| |].
  { cbn [lp_layer]. rewrite Hf, consume_frame by done.
    destruct Hr. unfold view. cbn [is_reading]. by rewrite a_max0, (proj2 (Nat.ltb_lt 0 _)) by lia. }
  destruct (shift_receiving _ _ _ _ _ _ (h + length m) Hr1 Hb) as (s2 & E2 & Hr2). exists s2, (drop (h + length m) b).
  assert (zlen (frame (size_field_ f) m) = Z.of_nat (h + length m)) as Ez by (unfold zlen; by rewrite Hl).
  split_and!.
  - rewrite Ez, (proj2 (Z.ltb_ge _ 0)), Z.ltb_irrefl, (proj2 (Z.eqb_neq _ 0)), Nat2Z.id by lia. by rewrite (run_value _ _ _ _ _ E2).
  - done.
  - rewrite <- (drop_app_le b (concat cs)) by done. rewrite E. unfold stream. cbn [flat_map].
    rewrite <- Hl. apply drop_app_length.
  - rewrite length_drop. lia.
Qed.

Lemma loop_header m rest n s b ms cs :
  receiving s h 0 b ms cs -> (h <= length b)%nat -> transferable f m -> b ++ concat cs = stream (m :: rest) ->
  exists s', receiving s' (h + length m) h b ms cs /\
    buffered_loop lp_layer (S n) s = if (h =? length b)%nat then Value tt s' else buffered_loop lp_layer n s'.
Proof.
  intros Hr Hb Ht E. pose proof hdr_pos. pose proof Ht as [Hm _].
  assert (0 < length m)%nat as Hlm by (unfold zlen in Hm; lia).
  pose proof (stream_front m rest b cs h E Hb) as Hf. rewrite take_frame in Hf.
  destruct (loop_round n s h 0 b ms cs (h + length m) 0 ms Hr) as (s1 & Hr1 & ->); [lia..| |].
  { cbn [lp_layer]. rewrite Hf, consume_prefix by done. repeat f_equal; unfold zlen; lia. }
  exists (set_delta_offset h s1). split; [by destruct Hr1|].
  cbn [Z.ltb Z.compare Z.eqb]. rewrite (proj2 (Z.ltb_ge (Z.of_nat h) 0)) by lia. rewrite run_modify, run_gets.
  destruct Hr1. cbn [buffered_ max_read_size_ set_delta_offset]. rewrite a_len0, a_max0.
  destruct (Nat.eqb_spec h (length b)) as [Eh|Eh].
  - by rewrite (proj2 (Nat.eqb_eq h _)) by lia.
  - by rewrite (proj2 (Nat.eqb_neq h _)) by lia.
Qed.

(** The loop passes up all complete messages. *)
Lemma loop_settles n : forall s w d b rest ms cs,
  receiving s w d b ms cs -> phase rest w d b -> Forall (transferable f) rest ->
  b ++ concat cs = stream rest -> (2 * length b + (if (w =? h)%nat then 2 else 1) <= n)%nat ->
  exists s' new rest', buffered_loop lp_layer n s = Value tt s' /\ rest = new ++ rest' /\
    settled s' rest' (ms ++ new) cs.
Proof.
  induction n as [|n IH]; intros s w d b rest ms cs Hr Hp Ht E Hn; [destruct (_ =? _)%nat; lia|].
  pose proof hdr_pos as Hh. destruct (Nat.ltb_spec (length b) w) as [Hw|Hw].
  { exists s, [], rest. split; [by eapply loop_waits|]. split; [done|]. rewrite app_nil_r. by exists w, d, b. }
  destruct Hp as [[-> ->]|(m & rest' & -> & -> & -> & Hb)].
  - rewrite Nat.eqb_refl in Hn. destruct rest as [|m rest].
    { apply (f_equal length) in E. rewrite length_app in E. simpl in E. lia. }
    apply Forall_cons in Ht as [Hm Ht]. pose proof Hm as [Hlm _]. unfold zlen in Hlm.
    destruct (loop_header m rest n s b ms cs Hr Hw Hm E) as (s1 & Hr1 & ->).
    assert (phase (m :: rest) (h + length m) h b) as Hp by (right; by exists m, rest).
    destruct (Nat.eqb_spec h (length b)) as [Eh|Eh].
    + exists s1, [], (m :: rest). split_and!; [done..|]. rewrite app_nil_r. exists (h + length m)%nat, h, b.
      split_and!; [done..|lia|done].
    + apply (IH s1 (h + length m)%nat h b (m :: rest) ms cs Hr1 Hp); [by constructor|done|].
      rewrite (proj2 (Nat.eqb_neq _ h)) by lia. lia.
  - apply Forall_cons in Ht as [Hm Ht]. destruct (loop_message m rest' n s b ms cs Hr Hw Hm E) as (s1 & b' & -> & Hr1 & E1 & Hl).
    destruct (IH s1 h 0%nat b' rest' (ms ++ [m]) cs Hr1) as (s2 & new & rest2 & -> & -> & Hs); [by left|done..| |].
    { rewrite Nat.eqb_refl. destruct (_ =? h)%nat; lia. }
    exists s2, (m :: new), rest2. split_and!; [done..|]. by rewrite <- app_assoc in Hs.
Qed.

(** Growing the buffer and reading the socket change nothing else. *)
Definition grown (s : state) : state :=
  if (length (read_buf_ s) <? max_read_size_ s)%nat then set_read_buf (resize (max_read_size_ s) (read_buf_ s)) s else s.

Lemma grown_receiving s w d b ms cs :
  receiving s w d b ms cs -> receiving (grown s) w d b ms cs /\ (w <= length (read_buf_ (grown s)))%nat.
Proof.
  intros Hr. pose proof Hr as []. unfold grown. destruct (Nat.ltb_spec (length (read_buf_ s)) (max_read_size_ s)) as [Hl|Hl]; [|lia || (split; [done|lia])].
  assert (length b <= length (read_buf_ s))%nat as Hb by (rewrite <- a_buf0, length_take; lia).
  split; [|cbn [read_buf_ set_read_buf]; rewrite resize_length; lia].
  split; try done. cbn [read_buf_ buffered_ set_read_buf]. unfold resize.
  rewrite (take_ge (read_buf_ s) (max_read_size_ s)) by lia. rewrite take_app_le by lia. done.
Qed.

Lemma store_receiving s w d b ms cs bs :
  receiving s w d b ms cs -> (length b + length bs <= length (read_buf_ s))%nat ->
  exists s', store bs s = Value tt s' /\ receiving s' w d (b ++ bs) ms cs.
Proof.
  intros [] Hl. eexists. split; [reflexivity|].
  split; try done; cbn [read_buf_ buffered_ set_trace set_read_buf set_buffered]; [|by rewrite length_app, a_len0].
  unfold memcpy_at. rewrite a_buf0, a_len0, app_assoc, <- length_app. apply take_app_length.
Qed.

(** One read event. *)
Lemma read_event_settles s rest ms cs :
  settled s rest ms cs -> Forall (transferable f) rest -> Forall (fun c => c <> []) cs ->
  (2 * length (stream rest) + 2 <= fuel)%nat ->
  exists s' new rest' cs', lp_read_event s = Value tt s' /\ rest = new ++ rest' /\
    settled s' rest' (ms ++ new) cs' /\ Forall (fun c => c <> []) cs' /\
    (length (concat cs') <= length (concat cs) - 1)%nat.
Proof.
  intros (w & d & b & Hr & Hp & Hb & E) Ht Hcs Hfuel.
  destruct (grown_receiving _ _ _ _ _ _ Hr) as [Hg Hw]. set (s1 := grown s) in *.
  unfold lp_read_event, handle_read_event. cbn [handle_event]. rewrite run_gets, (a_flag _ _ _ _ _ _ Hr), run_ret.
  unfold do_read. rewrite run_modify, run_gets. fold (grown s). fold s1. unfold read_socket at 1.
  rewrite (a_len _ _ _ _ _ _ Hg).
  set (n := (length (read_buf_ s1) - length b)%nat).
  destruct cs as [|c cs].
  - exists (set_sock [] s1), [], rest, [].
    split_and!; [|done| |done|simpl; lia].
    + unfold gets, modify, mbind, comp_bind. rewrite (a_sock _ _ _ _ _ _ Hg). done.
    + rewrite app_nil_r. exists w, d, b. split_and!; try done. by destruct Hg.
  - apply Forall_cons in Hcs as [Hc Hcs].
    set (cs' := match drop n c with [] => cs | c' => c' :: cs end).
    assert (take n c ++ concat cs' = concat (c :: cs)) as Ecs.
    { transitivity (take n c ++ drop n c ++ concat cs); [|by rewrite app_assoc, take_drop].
      f_equal. unfold cs'. by destruct (drop n c). }
    assert (exists x bs, take n c = x :: bs) as (x & bs & Etake).
    { destruct c as [|y c]; [done|]. assert (exists k, n = S k) as (k & ->) by (exists (pred n); lia). by exists y, (take k c). }
    assert (receiving (set_sock cs' s1) w d b ms cs') as Hg' by (by destruct Hg).
    destruct (store_receiving _ _ _ _ _ _ (take n c) Hg') as (s2 & Es2 & Hr2).
    { cbn [read_buf_ set_sock]. rewrite length_take. lia. }
    assert ((b ++ take n c) ++ concat cs' = stream rest) as E2 by (rewrite <- app_assoc, Ecs; done).
    destruct (loop_settles fuel s2 w d (b ++ take n c) rest ms cs' Hr2) as (s3 & new & rest' & Es3 & -> & Hs); try done.
    { destruct Hp as [?|(m & r & ? & ? & ? & ?)]; [by left|right]. exists m, r. rewrite length_app. split_and!; try done. lia. }
    { apply (f_equal length) in E2. rewrite length_app in E2. destruct (w =? h)%nat; lia. }
    exists s3, new, rest', cs'. split_and!; [|done|done| |].
    + unfold gets at 1. rewrite (run_value _ _ _ (rd_bytes (take n c)) (set_sock cs' s1)).
      * rewrite Etake. rewrite <- Etake. rewrite (run_value _ _ _ _ _ Es2).
        by rewrite (run_value (drain_policy lp_layer chunk_read no_pending) _ _ true s2).
      * unfold mbind, comp_bind, modify. rewrite (a_sock _ _ _ _ _ _ Hg). done.
    + unfold cs'. destruct (drop n c) eqn:Ed; [done|by constructor].
    + apply (f_equal length) in Ecs. rewrite length_app, Etake in Ecs. simpl in Ecs |- *. lia.
Qed.

Lemma start_settles ms cs :
  concat cs = stream ms -> exists s, lp_start cs = Value true s /\ settled s ms [] cs.
Proof.
  intros E. pose proof hdr_pos as Hh. unfold lp_start, start, call_up. rewrite run_modify.
  eexists. split.
  - unfold gets, modify, mbind, comp_bind. cbn [up_ set_max_write_buf_size make lp_layer for_each exec_cmd].
    unfold mbind, comp_bind, do_configure_read, on_manager, gets, modify, mbind, comp_bind.
    cbn [max_read_size_ set_max_write_buf_size set_upper make]. rewrite (proj2 (Nat.ltb_lt 0 h)) by done.
    cbn [Nat.eqb andb negb reading mgr set_max_write_buf_size set_upper make buffered_ Nat.ltb Nat.leb]. reflexivity.
  - exists h, 0%nat, []. split_and!; [by split|by left|done|done].
Qed.

Lemma events_settle k : forall s rest ms cs,
  settled s rest ms cs -> Forall (transferable f) rest -> Forall (fun c => c <> []) cs ->
  (2 * length (stream rest) + 2 <= fuel)%nat ->
  exists s' new rest' cs', lp_read_events k s = Value tt s' /\ rest = new ++ rest' /\
    settled s' rest' (ms ++ new) cs' /\ Forall (fun c => c <> []) cs' /\ (length (concat cs') <= length (concat cs) - k)%nat.
Proof.
  induction k as [|k IH]; intros s rest ms cs Hs Ht Hcs Hf.
  { exists s, [], rest, cs. rewrite app_nil_r. split_and!; [done..|lia]. }
  destruct (read_event_settles s rest ms cs Hs Ht Hcs Hf) as (s1 & new & rest1 & cs1 & E1 & -> & Hs1 & Hcs1 & Hl1).
  apply Forall_app in Ht as [_ Ht]. unfold stream in Hf. rewrite flat_map_app, length_app in Hf.
  destruct (IH s1 rest1 (ms ++ new) cs1 Hs1 Ht Hcs1) as (s2 & new2 & rest2 & cs2 & E2 & -> & Hs2 & Hcs2 & Hl2);
    [unfold stream; lia|].
  exists s2, (new ++ new2), rest2, cs2. cbn [lp_read_events]. rewrite (run_value _ _ _ _ _ E1), !app_assoc.
  split_and!; [done..|lia].
Qed.

(** Without bytes on the way, no message is missing. *)
Lemma settled_done s rest ms : settled s rest ms [] -> rest = [] /\ buffered_ s = 0%nat /\ upper s = ms /\ reading (mgr s) = true.
Proof.
  intros (w & d & b & Hr & Hp & Hb & E). cbn [concat] in E. rewrite app_nil_r in E.
  assert (rest = []) as ->.
  { destruct rest as [|m rest]; [done|exfalso]. apply (f_equal length) in E. unfold stream in E. cbn [flat_map] in E.
    rewrite length_app, lp_frame_length in E. fold h in E.
    destruct Hp as [[-> _]|(m' & r & [= <- <-] & -> & _)]; lia. }
  destruct Hr. split_and!; [done| |done..]. by rewrite a_len0, E.
Qed.

(** C15. Messages survive the network.  Take a list of messages, each of them not
    empty, not longer than [max_message_size] of the framing, and with a length that fits
    into its size field.  Send them through length-prefix framing, cut the resulting
    byte stream into pieces that are not empty, and let a receiver read them whose
    application keeps every message and never stops reading: after at most one read
    event per byte, however the pieces relate to headers and messages, the
    application has received exactly these messages, nothing is left in the buffer,
    and the connection is still open.  Two units of fuel per byte, and two more,
    are enough for every read event. *)
Theorem lp_messages_arrive ms bytes_out cs k :
  Forall (transferable f) ms -> send_all [] ms f = Some bytes_out -> concat cs = bytes_out ->
  Forall (fun c => c <> []) cs -> (2 * length bytes_out + 2 <= fuel)%nat -> (length bytes_out <= k)%nat ->
  exists s0 s, lp_start cs = Value true s0 /\ lp_read_events k s0 = Value tt s /\
    upper s = ms /\ sock s = [] /\ buffered_ s = 0%nat /\ reading (mgr s) = true.
Proof.
  intros Ht Hsend Hcs Hne Hf Hk. rewrite send_all_frames in Hsend by done. injection Hsend as <-. cbn [app] in *.
  fold (stream ms) in *. destruct (start_settles ms cs Hcs) as (s0 & E0 & Hs0).
  destruct (events_settle k s0 ms [] cs Hs0 Ht Hne Hf) as (s & new & rest & cs' & E & -> & Hs & Hne' & Hl).
  rewrite Hcs in Hl. assert (cs' = []) as ->.
  { destruct cs' as [|c cs']; [done|]. apply Forall_cons in Hne' as [Hc _]. destruct c; [done|].
    cbn [concat app length] in Hl. lia. }
  pose proof Hs as (w & d & b & Hr & _). destruct (settled_done _ _ _ Hs) as (-> & Hb & Hu & Hrd).
  exists s0, s. rewrite app_nil_r. split_and!; try done. by destruct Hr.
Qed.

End Stack.

Lemma lp_messages_arrive_witness :
  exists s0 s, lp_start (LpFraming.make u2 100) [[0]; [3; 1]; [2; 3; 0; 1; 4]] = Value true s0 /\
    lp_read_events (LpFraming.make u2 100) 30 8 s0 = Value tt s /\
    upper s = [[1; 2; 3]; [4]] /\ sock s = [] /\ buffered_ s = 0%nat /\ reading (mgr s) = true.
Proof.
  apply (lp_messages_arrive (LpFraming.make u2 100) 30 [[1; 2; 3]; [4]] [0; 3; 1; 2; 3; 0; 1; 4]).
  - repeat constructor; unfold zlen, is_uint; simpl; lia.
  - vm_compute. reflexivity.
  - reflexivity.
  - by repeat constructor.
  - simpl. lia.
  - simpl. lia.
Defined.

(** The state in which a computation ends. *)
Definition final {A} (o : outcome (transport (list bytes) (list bytes)) A) : transport (list bytes) (list bytes) :=
  match o with Value _ s | Raised _ s => s | Stuck => make 0 [] [] end.

(** The receiver has the header of a message of three bytes. *)
Definition half_received : transport (list bytes) (list bytes) :=
  final (lp_read_event (LpFraming.make u2 100) 30 (final (lp_start (LpFraming.make u2 100) [[0; 3]; [1; 2; 3]]))).

(** If an application suspends and resumes reading between the header and the
    body of a message, the transport offers the socket a buffer without free
    space, takes the zero it returns for a closed connection, and gives up the
    connection although the rest of the message is there. *)
Theorem suspended_message_disconnects :
  let s := final (for_each (fun m => m)
    [exec_cmd (configure_read 0 0); exec_cmd (configure_read 2 2); lp_read_event (LpFraming.make u2 100) 30] half_received) in
  reading (mgr half_received) = true /\ failed socket_disconnected ∈ trace s /\ upper s = [] /\ sock s = [[1; 2; 3]].
Proof. vm_compute. split_and!; try reflexivity. set_solver. Qed.

End LpTransport.
