(* ===== verification/SpscBuffer.v ===== *)
(** * Single-producer single-consumer buffer (libcaf_core/caf/async/spsc_buffer.hpp)

    The buffer connects a producer and a consumer that run in different threads.
    Each critical section is one atomic operation of the model; [pull] releases
    the mutex while it hands items to the observer, so it consists of several
    operations between which the producer may run. *)

From stdpp Require Import relations.
From S2P Require Import Prelude.

Module SpscBuffer.

#[local] Arguments Z.eqb : simpl never.

Section Buffer.

Context {T : Type}.

Record spsc_buffer := mk_buffer {
  buf_ : list T;
  capacity_ : Z;
  min_pull_size_ : Z;
  demand_ : Z;
  closed : bool;
  canceled : bool;
  err_ : option Z;
  consumer_ : bool;       (* whether the handle is set *)
  producer_ : bool;
}.

Definition make (capacity min_pull_size : Z) : spsc_buffer :=
  mk_buffer [] capacity min_pull_size 0 false false None false false.

(** Calls into producer, consumer and observer, made while holding the mutex
    or, for [on_next], right after. *)
Inductive callback :=
| on_producer_wakeup
| on_producer_ready
| on_consumer_ready
| on_consumer_demand (n : Z)
| on_consumer_cancel.

Definition set_buf (b : spsc_buffer) (x : list T) : spsc_buffer :=
  mk_buffer x (capacity_ b) (min_pull_size_ b) (demand_ b) (closed b) (canceled b) (err_ b)
    (consumer_ b) (producer_ b).
Definition set_demand (b : spsc_buffer) (x : Z) : spsc_buffer :=
  mk_buffer (buf_ b) (capacity_ b) (min_pull_size_ b) x (closed b) (canceled b) (err_ b)
    (consumer_ b) (producer_ b).
Definition set_handles (b : spsc_buffer) (c p : bool) : spsc_buffer :=
  mk_buffer (buf_ b) (capacity_ b) (min_pull_size_ b) (demand_ b) (closed b) (canceled b) (err_ b) c p.
Definition set_flags (b : spsc_buffer) (cl ca : bool) (e : option Z) : spsc_buffer :=
  mk_buffer (buf_ b) (capacity_ b) (min_pull_size_ b) (demand_ b) cl ca e (consumer_ b) (producer_ b).

(** ** Operations *)

Definition signal_demand (new_demand : Z) (b : spsc_buffer) : spsc_buffer * list callback :=
  let d := demand_ b + new_demand in
  if (min_pull_size_ b <=? d) && producer_ b
  then (set_demand b 0, [on_consumer_demand d])
  else (set_demand b d, []).

(** Returns the remaining capacity. *)
Definition push (items : list T) (b : spsc_buffer) : Z * spsc_buffer * list callback :=
  let b1 := set_buf b (buf_ b ++ items) in
  let cbs := if (zlen (buf_ b1) =? zlen items) && consumer_ b1 then [on_producer_wakeup] else [] in
  (if zlen (buf_ b1) <? capacity_ b1 then capacity_ b1 - zlen (buf_ b1) else 0, b1, cbs).

Definition has_data (b : spsc_buffer) : bool := match buf_ b with [] => false | _ => true end.

Definition has_consumer_event (b : spsc_buffer) : bool := has_data b || closed b.

Definition available (b : spsc_buffer) : Z := zlen (buf_ b).

Definition abort (reason : option Z) (b : spsc_buffer) : spsc_buffer * list callback :=
  if negb (closed b) then
    let b1 := set_handles (set_flags b true (canceled b) reason) (consumer_ b) false in
    (b1, if negb (has_data b1) && consumer_ b1 then [on_producer_wakeup] else [])
  else (b, []).

Definition close (b : spsc_buffer) : spsc_buffer * list callback := abort None b.

Definition cancel (b : spsc_buffer) : spsc_buffer * list callback :=
  if negb (canceled b) then
    let b1 := set_handles (set_flags b (closed b) true (err_ b)) false (producer_ b) in
    (b1, if producer_ b1 then [on_consumer_cancel] else [])
  else (b, []).

Definition ready (b : spsc_buffer) : spsc_buffer * list callback :=
  if has_data b then
    if zlen (buf_ b) <? capacity_ b then
      let (b1, cbs) := signal_demand (capacity_ b - zlen (buf_ b)) b in
      (b1, on_consumer_ready :: on_producer_ready :: on_producer_wakeup :: cbs)
    else (b, [on_consumer_ready; on_producer_ready; on_producer_wakeup])
  else
    let (b1, cbs) := signal_demand (capacity_ b) b in
    (b1, on_consumer_ready :: on_producer_ready :: cbs).

(** [None]: the call raises a logic error. *)
Definition set_consumer (b : spsc_buffer) : option (spsc_buffer * list callback) :=
  if consumer_ b then None else
  let b1 := set_handles b true (producer_ b) in
  if producer_ b1 then Some (ready b1)
  else if closed b1 then Some (b1, [on_producer_wakeup]) else Some (b1, []).

Definition set_producer (b : spsc_buffer) : option (spsc_buffer * list callback) :=
  if producer_ b then None else
  let b1 := set_handles b (consumer_ b) true in
  if consumer_ b1 then Some (ready b1)
  else if canceled b1 then Some (b1, [on_consumer_cancel]) else Some (b1, []).

(** ** Pulling *)

(** How [pull] ends: the returned flag, and the observer's final call. *)
Inductive pull_result :=
| may_pull_again
| completed
| failed (reason : Z).

(** The check before the loop with policy [prioritize_errors]. *)
Definition pull_check (prioritize_errors : bool) (b : spsc_buffer) : option Z * spsc_buffer :=
  match err_ b with
  | Some e => if prioritize_errors then (Some e, set_handles b false (producer_ b)) else (None, b)
  | None => (None, b)
  end.

Definition overflow (b : spsc_buffer) : Z :=
  if zlen (buf_ b) <=? capacity_ b then 0 else zlen (buf_ b) - capacity_ b.

(** One locked section of the loop: takes [min(demand, buf_.size())] items, or
    ends the loop when this is zero. *)
Inductive pull_step :=
| took (items : list T) (b : spsc_buffer) (cbs : list callback)
| ended (r : pull_result) (b : spsc_buffer).

Definition pull_finish (b : spsc_buffer) : pull_step :=
  if has_data b || negb (closed b) then ended may_pull_again b
  else
    let b1 := set_handles b false (producer_ b) in
    match err_ b with
    | None => ended completed b1
    | Some e => ended (failed e) b1
    end.

Definition pull_section (demand : Z) (b : spsc_buffer) : pull_step :=
  let n := Z.min demand (zlen (buf_ b)) in
  if 0 <? n then
    let items := take (Z.to_nat n) (buf_ b) in
    let b1 := set_buf b (drop (Z.to_nat n) (buf_ b)) in
    if overflow b <? n
    then let (b2, cbs) := signal_demand (n - overflow b) b1 in took items b2 cbs
    else took items b1 []
  else pull_finish b.

(** ** Executions *)

(** The consumer thread: idle, or inside [pull] with the remaining demand and
    the items it has taken but not handed to the observer yet. *)
Inductive consumer_state :=
| idle
| pulling (demand : Z) (consumer_buf : list T).

(** [credit] is what the producer may push: the demand signaled to it minus
    the items it pushed.  [waiting] holds while the consumer relies on a wakeup:
    after it registered or after a pull that emptied the buffer, until the next
    wakeup. *)
Record system := mk_system {
  buffer : spsc_buffer;
  consumer : consumer_state;
  credit : Z;
  waiting : bool;
  pushed : list T;
  observed : list T;
  finished : option pull_result;
}.

Definition grant (cbs : list callback) : Z :=
  fold_right (fun c acc => match c with on_consumer_demand n => n + acc | _ => acc end) 0 cbs.

Definition wakes (cbs : list callback) : bool :=
  existsb (fun c => match c with on_producer_wakeup => true | _ => false end) cbs.

(** [prio]: the consumer pulls with [prioritize_errors].  [conforming]: the
    producer never pushes more than the demand it has received.  A consumer may
    cancel at any time, also from within [on_next]. *)
Inductive step (prio conforming : bool) : system -> system -> Prop :=
| step_push s items b' r cbs :
    producer_ (buffer s) = true -> closed (buffer s) = false ->
    (conforming = true -> zlen items <= credit s) ->
    push items (buffer s) = (r, b', cbs) ->
    step prio conforming s
      (mk_system b' (consumer s) (credit s - zlen items) (waiting s && negb (wakes cbs))
         (pushed s ++ items) (observed s) (finished s))
| step_abort s reason b' cbs :
    abort reason (buffer s) = (b', cbs) ->
    step prio conforming s
      (mk_system b' (consumer s) (credit s) (waiting s && negb (wakes cbs))
         (pushed s) (observed s) (finished s))
| step_cancel s b' cbs :
    cancel (buffer s) = (b', cbs) ->
    step prio conforming s
      (mk_system b' (consumer s) (credit s) false (pushed s) (observed s) (finished s))
| step_set_consumer s b' cbs :
    canceled (buffer s) = false -> finished s = None ->
    set_consumer (buffer s) = Some (b', cbs) ->
    step prio conforming s
      (mk_system b' (consumer s) (credit s + grant cbs) (negb (wakes cbs))
         (pushed s) (observed s) (finished s))
| step_set_producer s b' cbs :
    closed (buffer s) = false -> set_producer (buffer s) = Some (b', cbs) ->
    step prio conforming s
      (mk_system b' (consumer s) (credit s + grant cbs) (waiting s && negb (wakes cbs))
         (pushed s) (observed s) (finished s))
| step_pull s demand b' :
    consumer s = idle -> consumer_ (buffer s) = true -> 0 < demand ->
    pull_check prio (buffer s) = (None, b') ->
    step prio conforming s
      (mk_system b' (pulling demand []) (credit s) false (pushed s) (observed s) (finished s))
| step_pull_error s demand e b' :
    consumer s = idle -> consumer_ (buffer s) = true -> 0 < demand ->
    pull_check prio (buffer s) = (Some e, b') ->
    step prio conforming s
      (mk_system b' idle (credit s) false (pushed s) (observed s) (Some (failed e)))
| step_take s demand items b' cbs :
    consumer s = pulling demand [] -> pull_section demand (buffer s) = took items b' cbs ->
    step prio conforming s
      (mk_system b' (pulling (demand - zlen items) items) (credit s + grant cbs) (waiting s)
         (pushed s) (observed s) (finished s))
| step_observe s demand item items :
    consumer s = pulling demand (item :: items) ->
    step prio conforming s
      (mk_system (buffer s) (pulling demand items) (credit s) (waiting s)
         (pushed s) (observed s ++ [item]) (finished s))
| step_end s demand b' :
    consumer s = pulling demand [] -> pull_section demand (buffer s) = ended may_pull_again b' ->
    step prio conforming s
      (mk_system b' idle (credit s) ((0 <? demand) && consumer_ b')
         (pushed s) (observed s) (finished s))
| step_finish s demand r b' :
    consumer s = pulling demand [] -> r <> may_pull_again ->
    pull_section demand (buffer s) = ended r b' ->
    step prio conforming s
      (mk_system b' idle (credit s) false (pushed s) (observed s) (Some r)).

Definition initial (capacity min_pull_size : Z) : system :=
  mk_system (make capacity min_pull_size) idle 0 false [] [] None.

Definition in_flight (s : system) : list T :=
  match consumer s with idle => [] | pulling _ items => items end.

Abbreviation reachable prio conforming c m s := (rtc (step prio conforming) (initial c m) s).

(** ** Invariants *)

Definition fifo_inv (prio : bool) (s : system) : Prop :=
  pushed s = observed s ++ in_flight s ++ buf_ (buffer s) /\
  (closed (buffer s) = false -> err_ (buffer s) = None) /\
  match finished s with
  | None => True
  | Some r =>
      consumer s = idle /\ consumer_ (buffer s) = false /\ closed (buffer s) = true /\
      match r with
      | may_pull_again => False
      | completed => err_ (buffer s) = None /\ buf_ (buffer s) = []
      | failed e => err_ (buffer s) = Some e /\ (prio = false -> buf_ (buffer s) = [])
      end
  end.

(** A waiting consumer is registered and has nothing to react to. *)
Definition wakeup_inv (s : system) : Prop :=
  (producer_ (buffer s) = true -> closed (buffer s) = false) /\
  (closed (buffer s) = false -> producer_ (buffer s) = false -> buf_ (buffer s) = []) /\
  (waiting s = true ->
   consumer_ (buffer s) = true /\ buf_ (buffer s) = [] /\ closed (buffer s) = false).

(** The demand of the consumer is conserved: it is signaled, pending or
    occupied by an item.  Before the handshake there is none. *)
Definition accounts (c m : Z) (b : spsc_buffer) (cr : Z) (fin : option pull_result) : Prop :=
  capacity_ b = c /\ min_pull_size_ b = m /\ 0 <= cr /\ 0 <= demand_ b /\
  (producer_ b = true -> demand_ b = 0 \/ demand_ b < m) /\
  (c < m -> cr = 0) /\
  (consumer_ b = true -> canceled b = false) /\ (producer_ b = true -> closed b = false) /\
  ((cr = 0 /\ demand_ b = 0 /\ buf_ b = [] /\ producer_ b && consumer_ b = false) \/
   (cr + demand_ b + zlen (buf_ b) = c /\ (closed b = false -> producer_ b = true) /\
    (canceled b = false -> fin = None -> consumer_ b = true))).

Definition demand_inv (c m : Z) (s : system) : Prop :=
  accounts c m (buffer s) (credit s) (finished s).

(** Unfolds the operations and splits on the conditions they test. *)
Ltac op_cases :=
  repeat match goal with
    | H : push _ _ = _ |- _ => unfold push in H
    | H : abort _ _ = _ |- _ => unfold abort in H
    | H : cancel _ = _ |- _ => unfold cancel in H
    | H : set_consumer _ = _ |- _ => unfold set_consumer in H
    | H : set_producer _ = _ |- _ => unfold set_producer in H
    | H : context [ready _] |- _ => unfold ready in H
    | H : context [signal_demand _ _] |- _ => unfold signal_demand in H
    | H : pull_check _ _ = _ |- _ => unfold pull_check in H
    | H : context [pull_section _ _] |- _ => unfold pull_section in H
    | H : context [pull_finish _] |- _ => unfold pull_finish in H
    | H : context [if ?c then _ else _] |- _ => destruct c eqn:?; simplify_eq
    | H : context [match err_ ?b with _ => _ end] |- _ => destruct (err_ b) eqn:?; simplify_eq
    end; simplify_eq.

Lemma zlen_nil_inv (l : list T) : zlen l <= 0 -> l = [].
Proof. unfold zlen. destruct l; simpl; [done|lia]. Qed.

Lemma zlen_drop (l : list T) n : 0 <= n <= zlen l -> zlen (drop (Z.to_nat n) l) = zlen l - n.
Proof. unfold zlen. rewrite length_drop. lia. Qed.

Lemma has_data_false (b : spsc_buffer) : has_data b = false <-> buf_ b = [].
Proof. unfold has_data. by destruct (buf_ b). Qed.

Ltac step_cases :=
  op_cases; simpl in *; rewrite ?negb_true_iff, ?orb_false_iff, ?has_data_false in *;
  simpl in *;
  repeat match goal with H : consumer _ = _ |- _ => rewrite H in * end; simpl in *.

Lemma step_fifo prio conforming s s' :
  fifo_inv prio s -> step prio conforming s s' -> fifo_inv prio s'.
Proof.
  intros (Hp & He & Hf) Hs. unfold fifo_inv, in_flight in *.
  destruct Hs; step_cases; rewrite ?Hp, <- ?(assoc_L (++)); simpl; rewrite ?take_drop.
  all: (split; [by rewrite ?app_nil_r | split; [try done; try congruence|]]).
  all: try (destruct (finished s) as [[| |]|]; naive_solver congruence).
  all: destruct (closed (buffer s)); naive_solver.
Qed.

Lemma step_wakeup prio conforming s s' :
  wakeup_inv s -> step prio conforming s s' -> wakeup_inv s'.
Proof.
  intros (Hc & Hn & Hw) Hs. unfold wakeup_inv in *. destruct Hs; step_cases.
  all: (split; [try naive_solver congruence|split; [try naive_solver congruence|]]).
  all: intros Hw'; try discriminate Hw'; rewrite ?andb_true_r in Hw'; reflect_bools; try discriminate;
    try by (destruct Hw as (? & Hb & ?); rewrite ?Hb, ?drop_nil in * ).
  - destruct (Hw ltac:(done)) as (E1 & E2 & E3). rewrite E2, E1 in *. simpl in *.
    by rewrite Z.eqb_refl in *.
  - destruct (Hw ltac:(done)) as (E1 & E2 & E3). rewrite E2, E1 in *. simpl in *.
    by rewrite Z.eqb_refl in *.
  - destruct (Hw ltac:(done)) as (E1 & E2 & E3). unfold has_data in *. simpl in *.
    by rewrite E2, E1 in *.
  - auto.
  - auto.
  - destruct (closed (buffer s)) eqn:E; [done|]. split_and!; auto.
  - intros Hp. rewrite (Hn Hw' Hp). apply drop_nil.
  - intros Hp. rewrite (Hn Hw' Hp). apply drop_nil.
  - intros Hp. rewrite (Hn Hw' Hp). apply drop_nil.
  - assert (Hb : buf_ (buffer s) = []) by (apply zlen_nil_inv; pose proof (zlen_nonneg (buf_ (buffer s))); lia).
    split_and!; auto. unfold has_data in *. rewrite Hb in *. by apply negb_true_iff.
Qed.

(** What signaling a demand of [n] does to the accounts. *)
Definition signals (n : Z) (b b' : spsc_buffer) (cbs : list callback) : Prop :=
  exists d, b' = set_demand b d /\ d + grant cbs = demand_ b + n /\
  0 <= d /\ 0 <= grant cbs /\
  (producer_ b = true -> d = 0 \/ d < min_pull_size_ b) /\
  (demand_ b + n < min_pull_size_ b -> grant cbs = 0).

Lemma signal_demand_spec n b b' cbs :
  0 <= demand_ b + n -> signal_demand n b = (b', cbs) -> signals n b b' cbs.
Proof.
  unfold signals, signal_demand. intros Hn H. destruct (_ && _) eqn:E; simplify_eq; simpl;
    eexists; (split; [reflexivity|]).
  - reflect_bools. split_and!; auto; lia.
  - apply andb_false_iff in E. split_and!; try done; try lia.
    intros Hp. rewrite Hp in E. right. destruct E; [bool_lia|done].
Qed.

Lemma ready_spec b b' cbs :
  buf_ b = [] -> 0 <= demand_ b + capacity_ b -> ready b = (b', cbs) ->
  signals (capacity_ b) b b' cbs.
Proof.
  unfold ready, has_data. intros -> Hn H.
  destruct (signal_demand _ _) as [b1 cbs1] eqn:E. simplify_eq.
  by apply signal_demand_spec in E.
Qed.

Lemma pull_section_spec d b items b' cbs :
  zlen (buf_ b) <= capacity_ b -> 0 <= demand_ b -> pull_section d b = took items b' cbs ->
  exists b1, b1 = set_buf b (buf_ b') /\ zlen (buf_ b') = zlen (buf_ b) - zlen items /\
    0 < zlen items /\ signals (zlen items) b1 b' cbs.
Proof.
  unfold pull_section, overflow, pull_finish. intros Hl Hd H.
  rewrite (proj2 (Z.leb_le _ _) Hl) in H.
  destruct (0 <? _) eqn:En; [|by repeat case_match].
  apply Z.ltb_lt in En. rewrite Z.sub_0_r in H.
  destruct (signal_demand _ _) as [b2 cbs2] eqn:E. simplify_eq.
  apply signal_demand_spec in E; [|simpl; lia].
  destruct E as (dm & -> & E). simpl. eexists. split; [done|].
  rewrite zlen_drop by lia.
  assert (Hi : zlen (take (Z.to_nat (d `min` zlen (buf_ b))) (buf_ b)) = d `min` zlen (buf_ b)).
  { unfold zlen in *. rewrite length_take. lia. }
  rewrite Hi. split_and!; [done|done|]. by exists dm.
Qed.

Lemma pull_section_ended d b r b' :
  pull_section d b = ended r b' -> exists c, b' = set_handles b c (producer_ b) /\
    (c = true -> consumer_ b = true) /\ (r = may_pull_again -> c = consumer_ b).
Proof.
  unfold pull_section, pull_finish. intros H. destruct b; simpl in *.
  repeat case_match; simplify_eq; eexists; done.
Qed.

Lemma accounts_release c m b cr fin c' fin' :
  accounts c m b cr fin -> (c' = true -> consumer_ b = true) ->
  (fin' = None -> c' = consumer_ b /\ fin = None) ->
  accounts c m (set_handles b c' (producer_ b)) cr fin'.
Proof.
  unfold accounts. intros (Hc & Hm & H0 & H1 & Hlt & Hcm & Hcan & Hclo & Hsum) Hc' Hf. simpl.
  split_and!; auto.
  destruct Hsum as [(? & ? & ? & Hpc)|(? & ? & Hcs)]; [left|right]; split_and!; auto.
  - destruct (producer_ b), c', (consumer_ b); auto. by destruct (Hc' eq_refl).
  - intros Hca Hn. destruct (Hf Hn) as [-> ->]. auto.
Qed.

Lemma accounts_handshake c m b b' cbs fin :
  0 <= c -> capacity_ b = c -> min_pull_size_ b = m -> demand_ b = 0 -> buf_ b = [] ->
  producer_ b = true -> consumer_ b = true -> closed b = false -> canceled b = false ->
  ready b = (b', cbs) -> accounts c m b' (grant cbs) fin.
Proof.
  intros Hc <- <- Hd Hb Hp Hcs Hcl Hca Hr.
  apply ready_spec in Hr as (dm & -> & G1 & G2 & G3 & G4 & G5); [|done|lia].
  unfold accounts. simpl. rewrite Hb, Hd in *. split_and!; auto; try lia.
  right. split_and!; auto. change (zlen []) with 0. lia.
Qed.

Lemma accounts_set_consumer c m b b' cbs cr fin :
  0 <= c -> accounts c m b cr fin -> canceled b = false -> fin = None ->
  set_consumer b = Some (b', cbs) -> accounts c m b' (cr + grant cbs) fin.
Proof.
  unfold set_consumer.
  intros Hc0 (Hc & Hm & H0 & H1 & Hlt & Hcm & Hcan & Hclo & Hsum) Hca Hf Hs.
  destruct (consumer_ b) eqn:Ec; [done|].
  destruct Hsum as [(-> & Hd & Hb & Hpc)|(? & ? & Hcs)]; [|by specialize (Hcs Hca Hf)].
  simpl in Hs. destruct (producer_ b) eqn:Ep.
  - apply Some_inj in Hs. eapply (accounts_handshake c m (set_handles b true true)); simpl; auto.
  - assert (G : b' = set_handles b true false /\ grant cbs = 0) by (destruct (closed b); by simplify_eq).
    destruct G as [-> ->]. unfold accounts. simpl. split_and!; auto; done.
Qed.

Lemma accounts_set_producer c m b b' cbs cr fin :
  0 <= c -> accounts c m b cr fin -> closed b = false ->
  set_producer b = Some (b', cbs) -> accounts c m b' (cr + grant cbs) fin.
Proof.
  unfold set_producer.
  intros Hc0 (Hc & Hm & H0 & H1 & Hlt & Hcm & Hcan & Hclo & Hsum) Hcl Hs.
  destruct (producer_ b) eqn:Ep; [done|].
  destruct Hsum as [(-> & Hd & Hb & Hpc)|(? & Hpr & _)]; [|by specialize (Hpr Hcl)].
  simpl in Hs. destruct (consumer_ b) eqn:Ec.
  - apply Some_inj in Hs. eapply (accounts_handshake c m (set_handles b true true)); simpl; auto.
  - assert (G : b' = set_handles b false true /\ grant cbs = 0) by (destruct (canceled b); by simplify_eq).
    destruct G as [-> ->]. unfold accounts. simpl. split_and!; auto; try done; lia.
Qed.

Lemma accounts_take c m b b' cbs cr fin d items :
  0 <= c -> 0 <= m -> accounts c m b cr fin -> pull_section d b = took items b' cbs ->
  accounts c m b' (cr + grant cbs) fin.
Proof.
  intros Hc0 Hm0 (Hc & Hm & H0 & H1 & Hlt & Hcm & Hcan & Hclo & Hsum) Hs.
  pose proof (zlen_nonneg (buf_ b)) as Hnn.
  assert (Hle : zlen (buf_ b) <= capacity_ b).
  { destruct Hsum as [(-> & Hd & Hb & Hpc)|(? & ? & ?)]; [|lia]. rewrite Hb, Hc. done. }
  pose proof (pull_section_spec _ _ _ _ _ Hle H1 Hs) as (b1 & Hb1 & Hl & Hpos & dm & Hb' & G).
  rewrite Hb1 in G, Hb'. simpl in *. destruct G as (G1 & G2 & G3 & G4 & G5).
  pose proof (zlen_nonneg (buf_ b')).
  destruct Hsum as [(-> & Hd & Hb & Hpc)|(Hsum & Hpr & Hcs)].
  { rewrite Hb in Hl. change (zlen []) with 0 in Hl. lia. }
  unfold accounts. rewrite Hb'. simpl. rewrite Hl, <- Hc, <- Hm in *.
  split_and!; auto; try lia. right. split_and!; auto. lia.
Qed.

Lemma accounts_push c m b b' cbs cr fin items r :
  accounts c m b cr fin -> zlen items <= cr -> push items b = (r, b', cbs) ->
  accounts c m b' (cr - zlen items) fin.
Proof.
  intros (Hc & Hm & H0 & H1 & Hlt & Hcm & Hcan & Hclo & Hsum) Hle Hs.
  pose proof (zlen_nonneg items). unfold push in Hs. simplify_eq.
  unfold accounts. simpl. rewrite zlen_app. split_and!; auto; try lia.
  destruct Hsum as [(-> & Hd & Hb & Hpc)|(Hsum & Hpr & Hcs)]; [left|right].
  - assert (items = []) as -> by (apply zlen_nil_inv; lia). by rewrite app_nil_r.
  - split_and!; auto. lia.
Qed.

Lemma accounts_abort c m b b' cbs cr fin e :
  accounts c m b cr fin -> abort e b = (b', cbs) -> accounts c m b' cr fin.
Proof.
  unfold accounts. intros (Hc & Hm & H0 & H1 & Hlt & Hcm & Hcan & Hclo & Hsum) Hs.
  op_cases; simpl; split_and!; auto; try done.
  destruct Hsum as [(-> & Hd & Hb & Hpc)|(Hsum & Hpr & Hcs)]; [left|right]; split_and!; auto; done.
Qed.

Lemma accounts_cancel c m b b' cbs cr fin :
  accounts c m b cr fin -> cancel b = (b', cbs) -> accounts c m b' cr fin.
Proof.
  unfold accounts. intros (Hc & Hm & H0 & H1 & Hlt & Hcm & Hcan & Hclo & Hsum) Hs.
  op_cases; simpl; split_and!; auto; try done.
  destruct Hsum as [(-> & Hd & Hb & Hpc)|(Hsum & Hpr & Hcs)]; [left|right]; split_and!; auto;
    try done. by rewrite andb_false_r.
Qed.

Lemma pull_check_spec prio b e b' :
  pull_check prio b = (e, b') ->
  match e with
  | None => b' = b
  | Some x => err_ b = Some x /\ b' = set_handles b false (producer_ b)
  end.
Proof. unfold pull_check. intros H. by repeat case_match; simplify_eq. Qed.

Lemma step_demand prio c m s s' :
  0 <= c -> 0 <= m -> demand_inv c m s -> step prio true s s' -> demand_inv c m s'.
Proof.
  unfold demand_inv. intros Hc Hm Ha Hs. destruct Hs; simpl.
  - eapply accounts_push; eauto.
  - eapply accounts_abort; eauto.
  - eapply accounts_cancel; eauto.
  - eapply accounts_set_consumer; eauto.
  - eapply accounts_set_producer; eauto.
  - by apply pull_check_spec in H2 as ->.
  - apply pull_check_spec in H2 as [? ->]. by eapply accounts_release.
  - eapply accounts_take; eauto.
  - done.
  - apply pull_section_ended in H0 as (c' & -> & ? & ?). eapply accounts_release; eauto.
  - apply pull_section_ended in H1 as (c' & -> & ? & ?). by eapply accounts_release.
Qed.

Lemma reachable_inv prio conforming c m (P : system -> Prop) s :
  P (initial c m) ->
  (forall s1 s2, P s1 -> step prio conforming s1 s2 -> P s2) ->
  reachable prio conforming c m s -> P s.
Proof.
  intros H0 Hstep Hr. revert H0. by induction Hr as [|x y z Hs _ IH]; eauto.
Qed.

Lemma fifo_reachable prio conforming c m s :
  reachable prio conforming c m s -> fifo_inv prio s.
Proof. apply reachable_inv; [by repeat split|apply step_fifo]. Qed.

Lemma wakeup_reachable prio conforming c m s :
  reachable prio conforming c m s -> wakeup_inv s.
Proof. apply reachable_inv; [by repeat split|apply step_wakeup]. Qed.

Lemma demand_reachable prio c m s :
  0 <= c -> 0 <= m -> reachable prio true c m s -> demand_inv c m s.
Proof.
  intros Hc Hm. apply reachable_inv; [|intros; eapply step_demand; eauto].
  split_and!; try done. by left.
Qed.

(** After the final call to the observer, nothing reaches it anymore. *)
Lemma step_after_finish prio conforming s s' r :
  fifo_inv prio s -> finished s = Some r -> step prio conforming s s' ->
  finished s' = Some r /\ observed s' = observed s /\ pushed s' = pushed s.
Proof.
  intros (_ & _ & Hf) Hr. rewrite Hr in Hf. destruct Hf as (Hi & Hc & Hcl & _).
  intros Hs. destruct Hs; simpl; congruence || auto.
Qed.

Lemma after_finish prio conforming s s' r :
  fifo_inv prio s -> finished s = Some r -> rtc (step prio conforming) s s' ->
  finished s' = Some r /\ observed s' = observed s /\ pushed s' = pushed s.
Proof.
  intros Hi Hr Hs. revert Hi Hr. induction Hs as [|x y z H1 _ IH]; [done|].
  intros Hi Hr. destruct (step_after_finish _ _ _ _ _ Hi Hr H1) as (E1 & E2 & E3).
  rewrite <- E2, <- E3. apply IH; [by eapply step_fifo|done].
Qed.

(** A minimum pull size above the capacity never grants any demand. *)
Lemma stalled prio c m s :
  0 <= c -> c < m -> reachable prio true c m s -> pushed s = [].
Proof.
  intros Hc Hm Hr. assert (Hc' : 0 <= m) by lia.
  assert (pushed s = [] /\ demand_inv c m s) as [? _]; [|done].
  revert Hr. apply (reachable_inv prio true c m (fun s => pushed s = [] /\ demand_inv c m s)).
  { split; [done|]. apply (demand_reachable prio); auto using rtc_refl. }
  intros s1 s2 [IH Hd] Hs. split; [|by eapply step_demand].
  destruct Hd as (_ & _ & _ & _ & _ & Hz & _). specialize (Hz Hm). destruct Hs; simpl; auto.
  rewrite IH. apply zlen_nil_inv. specialize (H1 eq_refl). simpl. lia.
Qed.

(** ** Properties *)

(** C39. For any interleaving of producer and consumer, the consumer observes
    the pushed items in order, none lost and none duplicated: at any time the
    pushed items are those already observed, those the consumer has taken and is
    handing out, and those in the buffer.  [on_complete] means that every pushed
    item was observed and that the producer did not fail; [on_error] passes the
    producer's error, after all items unless errors are prioritized; both are
    final. *)
Theorem spsc_fifo (prio conforming : bool) (c m : Z) (s : system) :
  reachable prio conforming c m s ->
  pushed s = observed s ++ in_flight s ++ buf_ (buffer s) /\
  (finished s = Some completed -> observed s = pushed s /\ err_ (buffer s) = None) /\
  (forall e, finished s = Some (failed e) ->
     err_ (buffer s) = Some e /\ (prio = false -> observed s = pushed s)) /\
  (forall r s', finished s = Some r -> rtc (step prio conforming) s s' ->
     finished s' = Some r /\ observed s' = observed s /\ pushed s' = pushed s).
Proof.
  intros Hr. pose proof (fifo_reachable _ _ _ _ _ Hr) as Hi.
  pose proof Hi as (Hp & _ & Hf). split_and!; [done| | |by intros; eapply after_finish].
  - intros E. rewrite E in Hf. destruct Hf as (Hid & _ & _ & He & Hb).
    unfold in_flight in Hp. by rewrite Hid, Hb, app_nil_r in Hp.
  - intros e E. rewrite E in Hf. destruct Hf as (Hid & _ & _ & He & Hb). split; [done|].
    intros Hprio. unfold in_flight in Hp. by rewrite Hid, (Hb Hprio), app_nil_r in Hp.
Qed.

(** Back-pressure: a producer that pushes only what was demanded never
    fills the buffer beyond its capacity; once both sides are connected, the
    capacity is always split exactly into granted demand, demand held back for
    [min_pull_size] and buffered items, so that an empty buffer implies that the
    producer may push (no stall) whenever [min_pull_size <= capacity].  With a
    larger [min_pull_size], which the constructor accepts, no item is ever
    transferred. *)
Theorem spsc_demand (prio : bool) (c m : Z) (s : system) :
  0 < c -> 0 <= m -> reachable prio true c m s ->
  zlen (buf_ (buffer s)) <= c /\ 0 <= credit s /\
  (producer_ (buffer s) = true -> consumer_ (buffer s) = true ->
     credit s + demand_ (buffer s) + zlen (buf_ (buffer s)) = c /\
     (m <= c -> buf_ (buffer s) = [] -> 0 < credit s)) /\
  (c < m -> pushed s = []).
Proof.
  intros Hc Hm Hr. assert (Hc' : 0 <= c) by lia.
  destruct (demand_reachable _ _ _ _ Hc' Hm Hr) as (_ & _ & H0 & H1 & Hlt & _ & _ & _ & Hsum).
  split_and!; [|done| |by intros; apply (stalled prio c m)].
  - destruct Hsum as [(_ & _ & -> & _)|(? & _ & _)]; [done|lia].
  - intros Hp Hcs. rewrite Hp, Hcs in Hsum. specialize (Hlt Hp).
    destruct Hsum as [(_ & _ & _ & ?)|(Hsum & _ & _)]; [done|].
    split; [done|]. intros Hmc Hb. rewrite Hb in Hsum. change (zlen []) with 0 in Hsum. lia.
Qed.

(** No wakeup is lost: while the consumer relies on a wakeup from the
    producer, it is registered and there is neither data nor a pending close, i.e.
    every operation that creates a consumer event has called
    [on_producer_wakeup]. *)
Theorem spsc_no_lost_wakeup (prio conforming : bool) (c m : Z) (s : system) :
  reachable prio conforming c m s -> waiting s = true ->
  consumer_ (buffer s) = true /\ has_consumer_event (buffer s) = false /\
  available (buffer s) = 0.
Proof.
  intros Hr Hw. destruct (wakeup_reachable _ _ _ _ _ Hr) as (_ & _ & H).
  destruct (H Hw) as (Hc & Hb & Hcl). unfold has_consumer_event, has_data, available.
  by rewrite Hb, Hcl.
Qed.

End Buffer.

Arguments spsc_buffer : clear implicits.
Arguments system : clear implicits.

(** ** A concrete run

    Capacity 4 and a minimum pull size of 2: connect, push three items, pull
    with a demand of 10, close between two locked sections of the pull. *)

Definition demo_waiting : system Z :=
  mk_system (mk_buffer [] 4 2 0 false false None true true) idle 4 true [] [] None.

Definition demo_pushed : system Z :=
  mk_system (mk_buffer [7; 8; 9] 4 2 0 false false None true true) idle 1 false [7; 8; 9] [] None.

Definition demo_done : system Z :=
  mk_system (mk_buffer [] 4 2 0 true false None false false) idle 4 false
    [7; 8; 9] [7; 8; 9] (Some completed).

Tactic Notation "run_step" uconstr(t) :=
  eapply rtc_l; [solve [eapply t; first [reflexivity | discriminate]]|];
  match goal with |- rtc _ ?s _ => let s' := eval vm_compute in s in change s with s' end.

Lemma demo_waiting_reachable : rtc (step false true) (initial 4 2) demo_waiting.
Proof. run_step step_set_consumer. run_step step_set_producer. apply rtc_refl. Qed.

Lemma demo_pushed_reachable : rtc (step false true) (initial 4 2) demo_pushed.
Proof.
  transitivity demo_waiting; [apply demo_waiting_reachable|].
  eapply rtc_l; [eapply (step_push _ _ _ [7; 8; 9]); first [reflexivity | discriminate]|].
  apply rtc_refl.
Qed.

Lemma demo_done_reachable : rtc (step false true) (initial 4 2) demo_done.
Proof.
  transitivity demo_pushed; [apply demo_pushed_reachable|].
  eapply rtc_l; [eapply (step_pull _ _ _ 10); reflexivity|].
  run_step step_take. do 2 run_step step_observe.
  eapply rtc_l; [eapply (step_abort _ _ _ None); reflexivity|].
  run_step step_observe. run_step (step_finish _ _ _ 7 completed). apply rtc_refl.
Qed.

Lemma spsc_fifo_witness : observed demo_done = pushed demo_done /\ finished demo_done = Some completed.
Proof.
  split; [|reflexivity].
  apply (proj1 (proj2 (spsc_fifo false true 4 2 demo_done demo_done_reachable))). reflexivity.
Defined.

Lemma spsc_demand_witness :
  credit demo_pushed + demand_ (buffer demo_pushed) + zlen (buf_ (buffer demo_pushed)) = 4.
Proof.
  apply (spsc_demand false 4 2 demo_pushed); [lia|lia|apply demo_pushed_reachable|reflexivity|reflexivity].
Defined.

Lemma spsc_no_lost_wakeup_witness :
  waiting demo_waiting = true /\ has_consumer_event (buffer demo_waiting) = false.
Proof.
  split; [reflexivity|].
  apply (spsc_no_lost_wakeup false true 4 2 demo_waiting demo_waiting_reachable eq_refl).
Defined.

End SpscBuffer.
