(* ===== verification/RingBuffer.v ===== *)
(** * Ring buffer (libcaf_core/caf/detail/ring_buffer.hpp)

    A fixed array with a write position and a size; pushing to a full buffer
    overwrites the oldest element. *)

From S2P Require Import Prelude.

Module RingBuffer.

Section Ring.

Context {T : Type}.

Record ring_buffer := mk_ring {
  write_pos_ : nat;
  max_size_ : nat;
  size_ : nat;
  buf_ : list T;              (* [max_size_] elements *)
}.

(** [std::make_unique<T[]>] value-initializes the elements: [init]. *)
Definition make (init : T) (max_size : nat) : ring_buffer :=
  mk_ring 0 max_size 0 (replicate max_size init).

Definition full (b : ring_buffer) : bool := (size_ b =? max_size_ b)%nat.

Definition empty (b : ring_buffer) : bool := (size_ b =? 0)%nat.

Definition size (b : ring_buffer) : nat := size_ b.

(** [None]: no element at this index ([mod 0] included). *)
Definition front (b : ring_buffer) : option T :=
  if (max_size_ b =? 0)%nat then None
  else buf_ b !! ((write_pos_ b + max_size_ b - size_ b) mod max_size_ b)%nat.

(** [None]: the assertion fails. *)
Definition pop_front (b : ring_buffer) : option ring_buffer :=
  if empty b then None
  else Some (mk_ring (write_pos_ b) (max_size_ b) (size_ b - 1) (buf_ b)).

Definition push_back (x : T) (b : ring_buffer) : ring_buffer :=
  if (max_size_ b =? 0)%nat then b else
  let b1 := mk_ring ((write_pos_ b + 1) mod max_size_ b) (max_size_ b) (size_ b)
              (<[write_pos_ b := x]> (buf_ b)) in
  if negb (full b1) then mk_ring (write_pos_ b1) (max_size_ b1) (size_ b1 + 1) (buf_ b1) else b1.

(** The copy constructor. *)
Definition copy (other : ring_buffer) : ring_buffer :=
  mk_ring (write_pos_ other) (max_size_ other) (size_ other)
    (if (0 <? max_size_ other)%nat then take (max_size_ other) (buf_ other) else []).

(** ** Representation *)

(** [xs] is the content, oldest element first. *)
Record represents (b : ring_buffer) (xs : list T) : Prop := {
  rep_length : length xs = size_ b;
  rep_size : (size_ b <= max_size_ b)%nat;
  rep_buf : length (buf_ b) = max_size_ b;
  rep_pos : (write_pos_ b < max_size_ b)%nat \/ max_size_ b = 0%nat;
  rep_elems : forall i, (i < size_ b)%nat ->
    buf_ b !! ((write_pos_ b + max_size_ b - size_ b + i) mod max_size_ b)%nat = xs !! i;
}.

(** A bounded queue that forgets its oldest elements. *)
Definition enqueue (max : nat) (x : T) (xs : list T) : list T :=
  if (length xs <? max)%nat then xs ++ [x] else drop 1 (xs ++ [x]).

Lemma mod_wrap a m :
  (0 < m)%nat -> (a < 2 * m)%nat -> (a mod m = if a <? m then a else a - m)%nat.
Proof.
  intros Hm Ha. destruct (Nat.ltb_spec a m) as [H|H]; [by apply Nat.mod_small|].
  replace a with ((a - m) + 1 * m)%nat at 1 by lia.
  rewrite Nat.Div0.mod_add. apply Nat.mod_small. lia.
Qed.

Lemma make_represents init n : represents (make init n) [].
Proof.
  split; simpl; [done|lia|apply length_replicate|lia|lia].
Qed.

Lemma push_represents b xs x :
  represents b xs -> represents (push_back x b) (enqueue (max_size_ b) x xs).
Proof.
  intros [Hl Hs Hb Hp He]. unfold push_back, enqueue, full. cbn [size_ max_size_ write_pos_ buf_].
  destruct (Nat.eqb_spec (max_size_ b) 0) as [E0|E0].
  { destruct xs; [|simpl in Hl; lia]. rewrite (proj2 (Nat.ltb_ge _ _)) by (simpl; lia). by split. }
  destruct Hp as [Hp|]; [|lia]. rewrite Hl.
  destruct (Nat.eqb_spec (size_ b) (max_size_ b)) as [Ef|Ef]; cbn [negb].
  - rewrite (proj2 (Nat.ltb_ge _ _)) by lia. split; simpl.
    + rewrite length_drop, length_app. simpl. lia.
    + lia.
    + by rewrite length_insert.
    + left. apply Nat.mod_upper_bound. lia.
    + intros i Hi. rewrite (mod_wrap (write_pos_ b + 1)) by lia. rewrite mod_wrap by (repeat case_if; lia).
      rewrite lookup_drop. destruct (decide (S i = size_ b)) as [Elast|Elast].
      * assert ((xs ++ [x]) !! (1 + i)%nat = Some x) as -> by (rewrite lookup_app_r by lia;
          replace (1 + i - length xs)%nat with 0%nat by lia; done).
        match goal with |- _ !! ?k = _ => replace k with (write_pos_ b) by (repeat case_if; lia) end.
        apply list_lookup_insert_eq. lia.
      * rewrite lookup_app_l by lia. rewrite <- He by lia. rewrite mod_wrap by lia.
        rewrite list_lookup_insert_ne by (repeat case_if; lia). f_equal. repeat case_if; lia.
  - rewrite (proj2 (Nat.ltb_lt _ _)) by lia. split; simpl.
    + rewrite length_app. simpl. lia.
    + lia.
    + by rewrite length_insert.
    + left. apply Nat.mod_upper_bound. lia.
    + intros i Hi. rewrite (mod_wrap (write_pos_ b + 1)) by lia. rewrite mod_wrap by (repeat case_if; lia).
      destruct (decide (i = size_ b)) as [->|Ei].
      * rewrite lookup_app_r, Hl, Nat.sub_diag by lia. simpl.
        match goal with |- _ !! ?k = _ => replace k with (write_pos_ b) by (repeat case_if; lia) end.
        apply list_lookup_insert_eq. lia.
      * rewrite lookup_app_l by lia. rewrite <- He by lia. rewrite mod_wrap by lia.
        rewrite list_lookup_insert_ne by (repeat case_if; lia). f_equal. repeat case_if; lia.
Qed.

Lemma pop_represents b x xs :
  represents b (x :: xs) -> exists b', pop_front b = Some b' /\ represents b' xs.
Proof.
  intros [Hl Hs Hb Hp He]. unfold pop_front, empty. simpl in Hl.
  rewrite (proj2 (Nat.eqb_neq _ _)) by lia. eexists. split; [done|]. split; simpl; try lia.
  intros i Hi. specialize (He (S i)). simpl in He. rewrite <- He by lia. do 2 f_equal. lia.
Qed.

Lemma front_represents b xs : represents b xs -> xs <> [] -> front b = head xs.
Proof.
  intros [Hl Hs Hb Hp He] Hx. destruct xs as [|x xs]; [done|]. simpl in Hl. unfold front.
  rewrite (proj2 (Nat.eqb_neq _ _)) by lia. specialize (He 0%nat). rewrite Nat.add_0_r in He.
  simpl in He. apply He. lia.
Qed.

Lemma copy_represents b xs : represents b xs -> represents (copy b) xs.
Proof.
  intros [Hl Hs Hb Hp He]. unfold copy. rewrite <- Hb. destruct (Nat.ltb_spec 0 (length (buf_ b))).
  - rewrite firstn_all. rewrite Hb. by split.
  - split; simpl; try lia.
Qed.

(** ** Sequences of operations *)

Inductive op := op_push (x : T) | op_pop.

Fixpoint run (os : list op) (b : ring_buffer) : option ring_buffer :=
  match os with
  | [] => Some b
  | op_push x :: os' => run os' (push_back x b)
  | op_pop :: os' => b' ← pop_front b; run os' b'
  end.

Fixpoint abs_run (max : nat) (os : list op) (xs : list T) : option (list T) :=
  match os with
  | [] => Some xs
  | op_push x :: os' => abs_run max os' (enqueue max x xs)
  | op_pop :: os' => match xs with [] => None | _ :: xs' => abs_run max os' xs' end
  end.

Lemma run_represents os : forall b xs,
  represents b xs ->
  match abs_run (max_size_ b) os xs with
  | Some ys => exists b', run os b = Some b' /\ represents b' ys /\ max_size_ b' = max_size_ b
  | None => run os b = None
  end.
Proof.
  induction os as [|[x|] os IH]; intros b xs Hr; simpl.
  - eauto.
  - assert (max_size_ (push_back x b) = max_size_ b) as Hm.
    { unfold push_back. by repeat case_match. }
    specialize (IH _ _ (push_represents b xs x Hr)). by rewrite Hm in IH.
  - destruct xs as [|x xs].
    + unfold pop_front, empty. destruct Hr as [Hl _ _ _ _]. by rewrite <- Hl.
    + destruct (pop_represents b x xs Hr) as (b' & Hp & Hr'). rewrite Hp. simpl.
      assert (max_size_ b' = max_size_ b) as Hm.
      { unfold pop_front in Hp. case_match; [done|]. by injection Hp as <-. }
      specialize (IH _ _ Hr'). by rewrite Hm in IH.
Qed.

(** The ring buffer is a bounded queue that forgets its oldest elements:
    for any sequence of pushes and pops on a new buffer, it holds exactly the
    elements of that queue in order; pushing never fails, popping fails only if
    the queue is empty; [front] is the oldest element, [size], [empty] and [full]
    are those of the queue, and a copy has the same content. *)
Theorem ring_buffer_refines (init : T) (n : nat) (os : list op) :
  match abs_run n os [] with
  | None => run os (make init n) = None
  | Some xs =>
      exists b, run os (make init n) = Some b /\ represents b xs /\ represents (copy b) xs /\
        (xs <> [] -> front b = head xs) /\ size b = length xs /\ (length xs <= n)%nat /\
        empty b = (length xs =? 0)%nat /\ full b = (length xs =? n)%nat
  end.
Proof.
  pose proof (run_represents os _ _ (make_represents init n)) as H. cbn [max_size_ make] in H.
  destruct (abs_run n os []) as [xs|]; [|done]. destruct H as (b & Hb & Hr & Hm). exists b.
  unfold empty, full, size. pose proof Hr as [Hl Hs _ _ _]. rewrite Hm, <- Hl in *. split_and!; auto.
  - by apply copy_represents.
  - by apply front_represents.
Qed.

End Ring.

End RingBuffer.
