(* ===== verification/FlowSteps.v ===== *)
(** * Flow steps (libcaf_core/caf/flow/step)

    The transformation steps of flows, such as map, filter and take.  A step
    gets the signals of its source and calls the next step; what the code does
    with templates ([step.on_next(item, next, steps...)]) is a step applied to
    the machine that the remaining steps form.  Each step is shown to compute
    a function on streams, and a chain of steps their composition. *)

From stdpp Require Import prelude.
From S2P Require Import Prelude RingBuffer.

Module FlowSteps.

Import RingBuffer(ring_buffer, represents).

Definition error := Z.

(** ** Machines and steps *)

Section Machines.

(** The object behind the last step. *)
Context {T : Type}.

(** What a step sees of its successors: their state and their three callbacks.
    [on_next] returns false to stop the source; [None] is undefined behaviour. *)
Record machine (A : Type) := mk_machine {
  locals : Type;
  on_next : A -> locals * T -> option (bool * (locals * T));
  on_complete : locals * T -> option (locals * T);
  on_error : error -> locals * T -> option (locals * T);
}.
Arguments mk_machine {A}.
Arguments locals {A}.
Arguments on_next {A}.
Arguments on_complete {A}.
Arguments on_error {A}.

(** A step: its members and its callbacks, for any successor. *)
Record step (A B : Type) := mk_step {
  local : Type;
  init : local;
  step_next : forall next : machine B, A -> local * (locals next * T) -> option (bool * (local * (locals next * T)));
  step_complete : forall next : machine B, local * (locals next * T) -> option (local * (locals next * T));
  step_error : forall next : machine B, error -> local * (locals next * T) -> option (local * (locals next * T));
}.
Arguments mk_step {A B}.
Arguments local {A B}.
Arguments init {A B}.
Arguments step_next {A B}.
Arguments step_complete {A B}.
Arguments step_error {A B}.

Definition assoc_l {L M : Type} (s : (L * M) * T) : L * (M * T) := (s.1.1, (s.1.2, s.2)).
Definition assoc_r {L M : Type} (s : L * (M * T)) : (L * M) * T := ((s.1, s.2.1), s.2.2).

Definition chain {A B} (st : step A B) (next : machine B) : machine A :=
  mk_machine (local st * locals next)%type
    (fun x s => '(b, s') ← step_next st next x (assoc_l s); Some (b, assoc_r s'))
    (fun s => assoc_r <$> step_complete st next (assoc_l s))
    (fun e s => assoc_r <$> step_error st next e (assoc_l s)).

(** Calling the next step. *)
Definition fwd_next {B L} (next : machine B) (y : B) (s : L * (locals next * T))
  : option (bool * (L * (locals next * T))) :=
  '(b, s') ← on_next next y s.2; Some (b, (s.1, s')).
Definition fwd_complete {B L} (next : machine B) (s : L * (locals next * T)) : option (L * (locals next * T)) :=
  pair s.1 <$> on_complete next s.2.
Definition fwd_error {B L} (next : machine B) (e : error) (s : L * (locals next * T)) : option (L * (locals next * T)) :=
  pair s.1 <$> on_error next e s.2.

(** A last item before the end: [if (next.on_next(x)) k]. *)
Definition last_item {B L} (next : machine B) (x : B) (k : L * (locals next * T) -> option (L * (locals next * T)))
  (s : L * (locals next * T)) : option (L * (locals next * T)) :=
  '(b, s') ← fwd_next next x s; if (b : bool) then k s' else Some s'.

(** ** The steps *)

Definition map_step {A B} (fn : A -> B) : step A B :=
  mk_step unit tt
    (fun next item => fwd_next next (fn item)) fwd_complete fwd_error.

Definition filter_step {A} (fn : A -> bool) : step A A :=
  mk_step unit tt
    (fun next item s => if fn item then fwd_next next item s else Some (true, s))
    fwd_complete fwd_error.

Definition take_while_step {A} (fn : A -> bool) : step A A :=
  mk_step unit tt
    (fun next item s =>
       if fn item then fwd_next next item s
       else s' ← fwd_complete next s; Some (false, s'))
    fwd_complete fwd_error.

Definition ignore_elements_step {A} : step A A :=
  mk_step unit tt (fun _ _ s => Some (true, s)) fwd_complete fwd_error.

(** The member [prev_]. *)
Definition distinct_step {A} `{!EqDecision A} : step A A :=
  mk_step (list A) []
    (fun next item '(prev, s) =>
       if decide (item ∈ prev) then Some (true, (prev, s)) else fwd_next next item (item :: prev, s))
    fwd_complete fwd_error.

(** The member [current_index_]. *)
Definition element_at_step {A} (index : nat) : step A A :=
  mk_step nat 0%nat
    (fun next item '(cur, s) =>
       if (index =? cur)%nat then s' ← last_item next item (fwd_complete next) (cur, s); Some (false, s')
       else Some (true, (S cur, s)))
    fwd_complete fwd_error.

(** The member [remaining_]. *)
Definition skip_step {A} (num : nat) : step A A :=
  mk_step nat num
    (fun next item '(remaining, s) =>
       match remaining with
       | O => fwd_next next item (remaining, s)
       | S r => Some (true, (r, s))
       end)
    fwd_complete fwd_error.

Definition take_step {A} (num : nat) : step A A :=
  mk_step nat num
    (fun next item '(remaining, s) =>
       '(go, (r, s')) ← (match remaining with
                         | O => Some (true, (O, s))
                         | S r => '(b, (_, s')) ← fwd_next next item (remaining, s);
                                  if (b : bool) then Some (true, (r, s')) else Some (false, (S r, s'))
                         end : option (bool * (nat * _)));
       if (go : bool) then
         if (r =? 0)%nat then s'' ← fwd_complete next (r, s'); Some (false, s'') else Some (true, (r, s'))
       else Some (false, (r, s')))
    fwd_complete fwd_error.

(** The member [val_]. *)
Definition scan_step {A B} (init_val : B) (fn : B -> A -> B) : step A B :=
  mk_step B init_val
    (fun next item '(val, s) => let val' := fn val item in fwd_next next val' (val', s))
    fwd_complete fwd_error.

Definition reduce_step {A B} (init_val : B) (fn : B -> A -> B) : step A B :=
  mk_step B init_val
    (fun next item '(val, s) => Some (true, (fn val item, s)))
    (fun next s => last_item next s.1 (fwd_complete next) s)
    (fun next e s => last_item next s.1 (fwd_error next e) s).

(** The member [elements_]; [dflt] is the value of a fresh element. *)
Definition skip_last_step {A} (dflt : A) (num : nat) : step A A :=
  mk_step (@ring_buffer A) (RingBuffer.make dflt num)
    (fun next item '(elements, s) =>
       if RingBuffer.full elements then
         x ← RingBuffer.front elements;
         '(b, (_, s')) ← fwd_next next x (elements, s);
         if (b : bool) then
           elements' ← RingBuffer.pop_front elements;
           Some (true, (RingBuffer.push_back item elements', s'))
         else Some (false, (elements, s'))
       else Some (true, (RingBuffer.push_back item elements, s)))
    fwd_complete fwd_error.

(** The loop of [on_complete], once for each element of the buffer. *)
Fixpoint flush {A} (next : machine A) (n : nat) (s : @ring_buffer A * (locals next * T))
  : option (bool * (@ring_buffer A * (locals next * T))) :=
  if RingBuffer.empty s.1 then Some (true, s) else
  match n with
  | O => None
  | S n' =>
      x ← RingBuffer.front s.1;
      '(b, s') ← fwd_next next x s;
      if (b : bool) then elements' ← RingBuffer.pop_front s'.1; flush next n' (elements', s'.2)
      else Some (false, s')
  end.

Definition take_last_step {A} (dflt : A) (num : nat) : step A A :=
  mk_step (@ring_buffer A) (RingBuffer.make dflt num)
    (fun next item '(elements, s) => Some (true, (RingBuffer.push_back item elements, s)))
    (fun next s => '(b, s') ← flush next (RingBuffer.size s.1) s; if (b : bool) then fwd_complete next s' else Some s')
    fwd_error.

Definition on_error_complete_step {A} : step A A :=
  mk_step unit tt fwd_next fwd_complete (fun next _ s => fwd_complete next s).

Definition on_error_return_step {A} (fn : error -> A + error) : step A A :=
  mk_step unit tt fwd_next fwd_complete
    (fun next e s =>
       match fn e with
       | inl item => last_item next item (fwd_complete next) s
       | inr e' => fwd_error next e' s
       end).

Definition on_error_return_item_step {A} (item : A) : step A A :=
  mk_step unit tt fwd_next fwd_complete (fun next _ s => last_item next item (fwd_complete next) s).

(** The steps that run a callback; the member is the list of its calls. *)
Inductive call (A : Type) := called_next (x : A) | called_complete | called_error (e : error).
Arguments called_next {A}.
Arguments called_complete {A}.
Arguments called_error {A}.

Definition note {A} {M : Type} (c : call A) (s : list (call A) * M) : list (call A) * M := (s.1 ++ [c], s.2).

Definition do_on_next_step {A} : step A A :=
  mk_step (list (call A)) []
    (fun next item s => fwd_next next item (note (called_next item) s)) fwd_complete fwd_error.

Definition do_on_complete_step {A} : step A A :=
  mk_step (list (call A)) []
    fwd_next (fun next s => fwd_complete next (note called_complete s)) fwd_error.

Definition do_on_error_step {A} : step A A :=
  mk_step (list (call A)) []
    fwd_next fwd_complete (fun next e s => fwd_error next e (note (called_error e) s)).

Definition do_finally_step {A} : step A A :=
  mk_step (list (call A)) []
    fwd_next
    (fun next s => fwd_complete next (note called_complete s))
    (fun next e s => fwd_error next e (note (called_error e) s)).

End Machines.

Arguments machine : clear implicits.
Arguments mk_machine {T A}.
Arguments locals {T A}.
Arguments on_next {T A}.
Arguments on_complete {T A}.
Arguments on_error {T A}.
Arguments step : clear implicits.
Arguments mk_step {T A B}.
Arguments local {T A B}.
Arguments init {T A B}.
Arguments step_next {T A B}.
Arguments step_complete {T A B}.
Arguments step_error {T A B}.
Arguments called_next {A}.
Arguments called_complete {A}.
Arguments called_error {A}.

(** ** Streams *)

(** How a stream of signals ends: not yet, with [on_complete] or [on_error]. *)
Inductive ending := open | completed | failed (e : error).

Definition stream (A : Type) : Type := list A * ending.

Definition cons_item {A} (x : A) (s : stream A) : stream A := (x :: s.1, s.2).

Section Runs.

Context {T : Type}.

#[local] Abbreviation machine := (machine T).
#[local] Abbreviation step := (step T).

(** Passing items to a machine until it returns false. *)
Fixpoint feed {A} (m : machine A) (xs : list A) (s : locals m * T) : option (bool * (locals m * T)) :=
  match xs with
  | [] => Some (true, s)
  | x :: xs' => '(b, s') ← on_next m x s; if (b : bool) then feed m xs' s' else Some (false, s')
  end.

Definition finish {A} (m : machine A) (fin : ending) (s : locals m * T) : option (locals m * T) :=
  match fin with open => Some s | completed => on_complete m s | failed e => on_error m e s end.

Definition run {A} (m : machine A) (z : stream A) (s : locals m * T) : option (locals m * T) :=
  '(b, s') ← feed m z.1 s; if (b : bool) then finish m z.2 s' else Some s'.

(** The same for a step in front of a machine. *)
Fixpoint step_feed {A B} (st : step A B) (next : machine B) (xs : list A) (s : local st * (locals next * T))
  : option (bool * (local st * (locals next * T))) :=
  match xs with
  | [] => Some (true, s)
  | x :: xs' => '(b, s') ← step_next st next x s; if (b : bool) then step_feed st next xs' s' else Some (false, s')
  end.

Definition step_run {A B} (st : step A B) (next : machine B) (z : stream A) (s : local st * (locals next * T))
  : option (local st * (locals next * T)) :=
  '(b, s') ← step_feed st next z.1 s;
  if (b : bool) then
    match z.2 with open => Some s' | completed => step_complete st next s' | failed e => step_error st next e s' end
  else Some s'.

#[local] Arguments run : simpl never.
#[local] Arguments step_run : simpl never.

Lemma feed_chain {A B} (st : step A B) (next : machine B) xs s :
  feed (chain st next) xs (assoc_r s) = ('(b, s') ← step_feed st next xs s; Some (b, assoc_r s')).
Proof.
  revert s. induction xs as [|x xs IH]; intros [l [ls t]]; [done|]. cbn.
  change (assoc_l (assoc_r (l, (ls, t)))) with (l, (ls, t)). destruct (step_next st next x (l, (ls, t))) as [[[] s']|]; cbn; [apply IH|done|done].
Qed.

Lemma run_chain {A B} (st : step A B) (next : machine B) z s :
  run (chain st next) z (assoc_r s) = assoc_r <$> step_run st next z s.
Proof.
  unfold run, step_run. rewrite feed_chain. destruct (step_feed st next z.1 s) as [[[] [l [ls t]]]|]; [|done|done].
  destruct z as [xs []]; [done|..]; cbn; by change (assoc_l (assoc_r (l, (ls, t)))) with (l, (ls, t)).
Qed.

Lemma run_cons {A} (m : machine A) x z s :
  run m (cons_item x z) s = ('(b, s') ← on_next m x s; if (b : bool) then run m z s' else Some s').
Proof. unfold run. cbn. by destruct (on_next m x s) as [[[] s']|]. Qed.

Lemma run_item {A} (m : machine A) x xs fin s :
  run m (x :: xs, fin) s = ('(b, s') ← on_next m x s; if (b : bool) then run m (xs, fin) s' else Some s').
Proof. apply (run_cons m x (xs, fin)). Qed.

Lemma step_run_cons {A B} (st : step A B) (next : machine B) x xs fin s :
  step_run st next (x :: xs, fin) s =
    ('(b, s') ← step_next st next x s; if (b : bool) then step_run st next (xs, fin) s' else Some s').
Proof. unfold step_run. cbn. by destruct (step_next st next x s) as [[[] s']|]. Qed.

(** The step computes the function [f] on streams, whatever comes next. *)
Definition denotes {A B} (st : step A B) (f : stream A -> stream B) : Prop :=
  forall (next : machine B) (z : stream A) (s : locals next * T),
    snd <$> step_run st next z (init st, s) = run next (f z) s.

(** ** The functions *)

Definition on_items {A B} (f : list A -> list B) (z : stream A) : stream B := (f z.1, z.2).

Fixpoint take_while_items {A} (p : A -> bool) (xs : list A) (fin : ending) : stream A :=
  match xs with
  | [] => ([], fin)
  | x :: xs' => if p x then cons_item x (take_while_items p xs' fin) else ([], completed)
  end.

Fixpoint distinct_items {A} `{!EqDecision A} (prev : list A) (xs : list A) : list A :=
  match xs with
  | [] => []
  | x :: xs' => if decide (x ∈ prev) then distinct_items prev xs' else x :: distinct_items (x :: prev) xs'
  end.

Fixpoint scan_items {A B} (f : B -> A -> B) (v : B) (xs : list A) : list B :=
  match xs with [] => [] | x :: xs' => f v x :: scan_items f (f v x) xs' end.

Definition element_at_stream {A} (i : nat) (z : stream A) : stream A :=
  match z.1 !! i with Some x => ([x], completed) | None => ([], z.2) end.

Definition take_stream {A} (n : nat) (z : stream A) : stream A :=
  match z.1 with
  | [] => z
  | _ => if (n <=? length z.1)%nat then (take n z.1, completed) else z
  end.

Definition reduce_stream {A B} (f : B -> A -> B) (v : B) (z : stream A) : stream B :=
  match z.2 with open => ([], open) | _ => ([foldl f v z.1], z.2) end.

Definition take_last_stream {A} (n : nat) (z : stream A) : stream A :=
  match z.2 with completed => (drop (length z.1 - n) z.1, completed) | _ => ([], z.2) end.

(** ** The steps compute them *)

Ltac step_case next :=
  match goal with |- context [on_next next ?x ?s] => destruct (on_next next x s) as [[[] ?]|]; cbn; try done end.

Ltac completes next :=
  cbn; unfold run, fwd_complete; cbn;
  match goal with |- context [on_complete next ?s] => by destruct (on_complete next s) end.

Lemma finish_nil {A L} (next : machine A) fin (l : L) s :
  snd <$> match fin with open => Some (l, s) | completed => fwd_complete next (l, s) | failed e => fwd_error next e (l, s) end
  = run next ([], fin) s.
Proof. unfold run, fwd_complete, fwd_error. destruct fin; cbn; [done|by destruct (on_complete _ _)|by destruct (on_error _ _ _)]. Qed.

Lemma finish_last {A L} (next : machine A) x fin (l : L) s :
  snd <$> last_item next x (fun s => match fin with open => Some s | completed => fwd_complete next s | failed e => fwd_error next e s end) (l, s)
  = run next ([x], fin) s.
Proof. unfold last_item, run, fwd_next. cbn. step_case next; apply finish_nil. Qed.

Lemma map_denotes {A B} (f : A -> B) : denotes (map_step f) (on_items (map f)).
Proof.
  intros next [xs fin] s. revert s. induction xs as [|x xs IH]; intros s; [apply finish_nil|].
  unfold on_items in *. cbn [fst snd map]. rewrite run_item, step_run_cons. cbn. unfold fwd_next. cbn. step_case next; apply IH.
Qed.

Lemma filter_denotes {A} (p : A -> bool) : denotes (filter_step p) (on_items (filter p)).
Proof.
  intros next [xs fin] s. revert s. induction xs as [|x xs IH]; intros s; [apply finish_nil|].
  rewrite step_run_cons. unfold on_items in *. cbn [fst snd step_next filter_step]. rewrite filter_cons.
  destruct (p x); cbn [decide]; [|apply IH]. case_decide; [|done].
  rewrite run_item. unfold fwd_next. cbn. step_case next; apply IH.
Qed.

Lemma take_while_denotes {A} (p : A -> bool) :
  denotes (take_while_step p) (fun z => take_while_items p z.1 z.2).
Proof.
  intros next [xs fin] s. revert s. induction xs as [|x xs IH]; intros s; [apply finish_nil|].
  rewrite step_run_cons. cbn. destruct (p x).
  - rewrite run_cons. unfold fwd_next. cbn. step_case next; apply IH.
  - completes next.
Qed.

Lemma ignore_elements_denotes {A} : denotes (@ignore_elements_step T A) (on_items (fun _ => [])).
Proof. intros next [xs fin] s. revert s. induction xs as [|x xs IH]; intros s; [apply finish_nil|]. apply IH. Qed.

Lemma distinct_denotes {A} `{!EqDecision A} : denotes (distinct_step (A := A)) (on_items (distinct_items [])).
Proof.
  intros next [xs fin] s. cbn [init distinct_step]. unfold on_items. cbn [fst snd]. generalize (@nil A) as prev.
  intros prev. revert prev s. induction xs as [|x xs IH]; intros prev s; [apply finish_nil|].
  rewrite step_run_cons. cbn [step_next distinct_step distinct_items]. case_decide as Hx; [apply IH|].
  rewrite run_item. unfold fwd_next. cbn. step_case next; apply IH.
Qed.

Lemma element_at_denotes {A} i : denotes (@element_at_step T A i) (element_at_stream i).
Proof.
  intros next [xs fin] s. unfold element_at_stream. cbn [init element_at_step fst snd].
  enough (forall k, snd <$> step_run (element_at_step (k + i)) next (xs, fin) (k, s)
    = run next (match xs !! i with Some x => ([x], completed) | None => ([], fin) end) s) as H by apply (H 0%nat).
  revert i s. induction xs as [|x xs IH]; intros i s k; [apply finish_nil|].
  rewrite step_run_cons. cbn [step_next element_at_step]. destruct i as [|i].
  - rewrite Nat.add_0_r, Nat.eqb_refl. etransitivity; [|exact (finish_last next x completed k s)].
    by destruct (last_item _ _ _ _) as [[]|].
  - rewrite (proj2 (Nat.eqb_neq (k + S i) k)) by lia. etransitivity; [|exact (IH i s (S k))].
    by replace (S k + i)%nat with (k + S i)%nat by lia.
Qed.

Lemma skip_denotes {A} n : denotes (@skip_step T A n) (on_items (drop n)).
Proof.
  intros next [xs fin] s. unfold on_items. cbn [init skip_step fst snd].
  enough (forall m, snd <$> step_run (skip_step m) next (xs, fin) (n, s) = run next (drop n xs, fin) s) as H by apply (H n).
  revert n s. induction xs as [|x xs IH]; intros n s m; [destruct n; apply finish_nil|].
  rewrite step_run_cons. destruct n as [|n]; cbn; [|apply IH].
  rewrite run_item. unfold fwd_next. cbn. step_case next.
  etransitivity; [apply IH|by rewrite drop_0].
Qed.

Lemma take_denotes {A} n : denotes (@take_step T A n) (take_stream n).
Proof.
  intros next [xs fin] s. cbn [init take_step].
  enough (forall m, snd <$> step_run (take_step m) next (xs, fin) (n, s) = run next (take_stream n (xs, fin)) s) as H by apply (H n).
  revert n s. induction xs as [|x xs IH]; intros n s m; [apply finish_nil|].
  rewrite step_run_cons. unfold take_stream. cbn [fst snd]. destruct n as [|n].
  { completes next. }
  cbn [length Nat.leb take].
  assert (forall ys f, (x :: ys, f) = cons_item x (ys, f)) as Ec by done.
  transitivity (run next (cons_item x (if (n =? 0)%nat then ([], completed) else take_stream n (xs, fin))) s).
  - rewrite run_cons. cbn. unfold fwd_next. cbn. step_case next. destruct (n =? 0)%nat eqn:E; [|apply IH].
    completes next.
  - f_equal. destruct n as [|n]; [by destruct xs|]. unfold take_stream. cbn [Nat.eqb fst].
    destruct xs as [|y xs]; [done|]. by destruct (S n <=? length (y :: xs))%nat.
Qed.

Lemma scan_denotes {A B} (v : B) (f : B -> A -> B) : denotes (scan_step v f) (on_items (scan_items f v)).
Proof.
  intros next [xs fin] s. unfold on_items. cbn [init scan_step fst snd].
  enough (forall w, snd <$> step_run (scan_step w f) next (xs, fin) (v, s) = run next (scan_items f v xs, fin) s) as H by apply (H v).
  revert v s. induction xs as [|x xs IH]; intros v s w; [apply finish_nil|].
  rewrite step_run_cons. cbn [scan_items]. rewrite run_item. cbn. unfold fwd_next. cbn. step_case next; apply IH.
Qed.

Lemma reduce_denotes {A B} (v : B) (f : B -> A -> B) : denotes (reduce_step v f) (reduce_stream f v).
Proof.
  intros next [xs fin] s. cbn [init reduce_step]. unfold reduce_stream. cbn [fst snd].
  enough (forall w, snd <$> step_run (reduce_step w f) next (xs, fin) (v, s)
    = run next (match fin with open => ([], open) | _ => ([foldl f v xs], fin) end) s) as H by apply (H v).
  revert v s. induction xs as [|x xs IH]; intros v s w.
  - destruct fin as [| |e]; [done|apply (finish_last next v completed v s)|apply (finish_last next v (failed e) v s)].
  - rewrite step_run_cons. cbn. apply IH.
Qed.

Lemma run_app {A} (m : machine A) xs ys fin s :
  run m (xs ++ ys, fin) s = ('(b, s') ← feed m xs s; if (b : bool) then run m (ys, fin) s' else Some s').
Proof.
  revert s. induction xs as [|x xs IH]; intros s; [done|]. cbn [app feed]. rewrite run_item.
  destruct (on_next m x s) as [[[] s']|]; [apply IH|done|done].
Qed.

(** Steps that pass items on unchanged and may add some at the end. *)
Definition step_end {A B} (st : step A B) (next : machine B) (fin : ending) (s : local st * (locals next * T))
  : option (local st * (locals next * T)) :=
  match fin with open => Some s | completed => step_complete st next s | failed e => step_error st next e s end.

Lemma transparent_denotes {A} (st : step A A) (tail : ending -> stream A) :
  (forall next x l s, exists l', step_next st next x (l, s) = ('(b, s') ← on_next next x s; Some (b, (l', s')))) ->
  (forall next fin l s, snd <$> step_end st next fin (l, s) = run next (tail fin) s) ->
  denotes st (fun z => (z.1 ++ (tail z.2).1, (tail z.2).2)).
Proof.
  intros Hn He next [xs fin] s. cbn [fst snd]. rewrite run_app. generalize (init st) as l. revert s.
  induction xs as [|x xs IH]; intros s l.
  - cbn. destruct (tail fin) as [ys fin'] eqn:E. specialize (He next fin l s). by rewrite E in He.
  - rewrite step_run_cons. destruct (Hn next x l s) as [l' ->]. cbn. destruct (on_next next x s) as [[[] s']|]; cbn; [apply IH|done|done].
Qed.

Definition recover_tail {A} (h : error -> A + error) (fin : ending) : stream A :=
  match fin with
  | failed e => match h e with inl x => ([x], completed) | inr e' => ([], failed e') end
  | _ => ([], fin)
  end.

Definition recover {A} (h : error -> A + error) (z : stream A) : stream A :=
  (z.1 ++ (recover_tail h z.2).1, (recover_tail h z.2).2).

Definition error_to_complete {A} (z : stream A) : stream A :=
  (z.1, match z.2 with failed _ => completed | fin => fin end).

Lemma denotes_ext {A B} (st : step A B) f g : denotes st f -> (forall z, f z = g z) -> denotes st g.
Proof. intros Hd Hfg next z s. rewrite <- Hfg. apply Hd. Qed.

Lemma on_error_return_denotes {A} (h : error -> A + error) : denotes (on_error_return_step h) (recover h).
Proof.
  apply (transparent_denotes (on_error_return_step h) (recover_tail h)); [by intros; eexists|].
  intros next [| |e] l s; [apply (finish_nil next open)|apply (finish_nil next completed)|].
  cbn. destruct (h e) as [x|e']; [apply (finish_last next x completed)|apply (finish_nil next (failed e'))].
Qed.

Lemma on_error_return_item_denotes {A} (x : A) : denotes (on_error_return_item_step x) (recover (fun _ => inl x)).
Proof.
  apply (transparent_denotes (on_error_return_item_step x) (recover_tail (fun _ => inl x))); [by intros; eexists|].
  intros next [| |e] l s; [apply (finish_nil next open)|apply (finish_nil next completed)|apply (finish_last next x completed)].
Qed.

Lemma on_error_complete_denotes {A} : denotes (@on_error_complete_step T A) error_to_complete.
Proof.
  eapply denotes_ext; [apply (transparent_denotes on_error_complete_step
    (fun fin => ([], match fin with failed _ => completed | fin => fin end)))|].
  - by intros; eexists.
  - intros next [| |e] l s; [apply (finish_nil next open)|apply (finish_nil next completed)|apply (finish_nil next completed)].
  - intros [xs []]; unfold error_to_complete; cbn; by rewrite app_nil_r.
Qed.

(** Steps that only run a callback. *)
Lemma observing_denotes {A} (st : step A A) :
  (forall next x l s, exists l', step_next st next x (l, s) = ('(b, s') ← on_next next x s; Some (b, (l', s')))) ->
  (forall next l s, snd <$> step_complete st next (l, s) = on_complete next s) ->
  (forall next e l s, snd <$> step_error st next e (l, s) = on_error next e s) ->
  denotes st id.
Proof.
  intros Hn Hc He. eapply denotes_ext; [apply (transparent_denotes st (fun fin => ([], fin))); [done|]|].
  - intros next [| |e] l s; [done|apply Hc|apply He].
  - intros [xs fin]. cbn. by rewrite app_nil_r.
Qed.

Ltac observing :=
  apply observing_denotes; intros; [by eexists|cbn; unfold fwd_complete, note; cbn; by destruct (on_complete _ _)
  |cbn; unfold fwd_error, note; cbn; by destruct (on_error _ _ _)].

Lemma do_on_next_denotes {A} : denotes (@do_on_next_step T A) id.
Proof. observing. Qed.
Lemma do_on_complete_denotes {A} : denotes (@do_on_complete_step T A) id.
Proof. observing. Qed.
Lemma do_on_error_denotes {A} : denotes (@do_on_error_step T A) id.
Proof. observing. Qed.
Lemma do_finally_denotes {A} : denotes (@do_finally_step T A) id.
Proof. observing. Qed.

(** ** Steps with a ring buffer *)

Definition holds {A} (n : nat) (b : @ring_buffer A) (xs : list A) : Prop :=
  represents b xs /\ RingBuffer.max_size_ b = n.

Lemma holds_make {A} (d : A) n : holds n (RingBuffer.make d n) [].
Proof. split; [apply RingBuffer.make_represents|done]. Qed.

Lemma holds_push {A} n (b : @ring_buffer A) xs x :
  holds n b xs -> holds n (RingBuffer.push_back x b) (RingBuffer.enqueue n x xs).
Proof.
  intros [Hr <-]. split; [by apply RingBuffer.push_represents|]. unfold RingBuffer.push_back.
  destruct (RingBuffer.max_size_ b =? 0)%nat; [done|]. by destruct (negb _).
Qed.

Lemma holds_pop {A} n (b : @ring_buffer A) x xs :
  holds n b (x :: xs) -> RingBuffer.front b = Some x /\ exists b', RingBuffer.pop_front b = Some b' /\ holds n b' xs.
Proof.
  intros [Hr Hn]. split; [by apply (RingBuffer.front_represents b (x :: xs))|].
  destruct (RingBuffer.pop_represents b x xs Hr) as (b' & E & Hr'). exists b'. split; [done|]. split; [done|].
  unfold RingBuffer.pop_front in E. destruct (RingBuffer.empty b); [done|]. by injection E as <-.
Qed.

Lemma holds_full {A} n (b : @ring_buffer A) xs : holds n b xs -> RingBuffer.full b = (length xs =? n)%nat.
Proof. intros [[Hl _ _ _ _] <-]. unfold RingBuffer.full. by rewrite Hl. Qed.

Lemma holds_size {A} n (b : @ring_buffer A) xs : holds n b xs -> RingBuffer.size b = length xs /\ (length xs <= n)%nat.
Proof. intros [[Hl Hs _ _ _] <-]. unfold RingBuffer.size. by rewrite Hl. Qed.

Lemma skip_last_denotes {A} (d : A) n : (0 < n)%nat ->
  denotes (skip_last_step d n) (on_items (fun xs => take (length xs - n) xs)).
Proof.
  intros Hn next [xs fin] s. unfold on_items. cbn [init skip_last_step fst snd].
  enough (forall b ys, holds n b ys -> snd <$> step_run (skip_last_step d n) next (xs, fin) (b, s)
    = run next (take (length (ys ++ xs) - n) (ys ++ xs), fin) s) as H by apply (H _ [] (holds_make d n)).
  revert s. induction xs as [|x xs IH]; intros s b ys Hb.
  - destruct (holds_size _ _ _ Hb) as [_ Hl]. rewrite app_nil_r, (proj2 (Nat.sub_0_le _ _)), take_0 by done.
    apply finish_nil.
  - rewrite step_run_cons. cbn [step_next skip_last_step]. rewrite (holds_full _ _ _ Hb).
    destruct (holds_size _ _ _ Hb) as [_ Hl]. destruct (Nat.eqb_spec (length ys) n) as [E|E].
    + destruct ys as [|y ys]; [simpl in E; lia|]. destruct (holds_pop _ _ _ _ Hb) as (-> & b' & Epop & Hb').
      assert (take (length ((y :: ys) ++ x :: xs) - n) ((y :: ys) ++ x :: xs)
        = y :: take (length ((ys ++ [x]) ++ xs) - n) ((ys ++ [x]) ++ xs)) as ->.
      { rewrite <- (app_assoc ys [x] xs). cbn [app length] in *. rewrite !length_app. cbn [length].
        replace (S (length ys + S (length xs)) - n)%nat with (S (length ys + S (length xs) - n))%nat by lia. done. }
      rewrite run_item. cbn. unfold fwd_next. cbn. step_case next. rewrite Epop. cbn.
      apply IH. pose proof (holds_push _ _ _ x Hb') as Hp. unfold RingBuffer.enqueue in Hp.
      cbn [length] in E. by rewrite (proj2 (Nat.ltb_lt (length ys) n)) in Hp by lia.
    + cbn. etransitivity; [apply (IH s _ (ys ++ [x]))|by rewrite <- app_assoc].
      pose proof (holds_push _ _ _ x Hb) as Hp. unfold RingBuffer.enqueue in Hp.
      by rewrite (proj2 (Nat.ltb_lt (length ys) n)) in Hp by lia.
Qed.

(** The buffer keeps the last items. *)
Lemma enqueue_last {A} n (x : A) ys : 
  RingBuffer.enqueue n x (drop (length ys - n) ys) = drop (length (ys ++ [x]) - n) (ys ++ [x]).
Proof.
  unfold RingBuffer.enqueue. rewrite length_drop, length_app. cbn [length].
  destruct (Nat.ltb_spec (length ys - (length ys - n)) n) as [H|H].
  - by rewrite !(proj2 (Nat.sub_0_le _ n)) by lia.
  - rewrite <- drop_app_le by lia. rewrite drop_drop. f_equal. lia.
Qed.

Lemma feed_take_last {A} (d : A) n (next : machine A) xs : forall b ys s,
  holds n b (drop (length ys - n) ys) -> exists b',
    step_feed (take_last_step d n) next xs (b, s) = Some (true, (b', s)) /\
    holds n b' (drop (length (ys ++ xs) - n) (ys ++ xs)).
Proof.
  induction xs as [|x xs IH]; intros b ys s Hb; [exists b; by rewrite app_nil_r|].
  destruct (IH (RingBuffer.push_back x b) (ys ++ [x]) s) as (b' & E & Hb').
  { rewrite <- enqueue_last. by apply holds_push. }
  exists b'. rewrite <- app_assoc in Hb'. done.
Qed.

Lemma flush_run {A} (next : machine A) n k : forall b ys s,
  holds n b ys -> (length ys <= k)%nat ->
  snd <$> ('(c, s') ← flush next k (b, s); if (c : bool) then fwd_complete next s' else Some s')
  = run next (ys, completed) s.
Proof.
  induction k as [|k IH]; intros b ys s Hb Hk; destruct ys as [|y ys]; cbn [length] in Hk; try lia.
  1, 2: cbn [flush]; destruct (holds_size _ _ _ Hb) as [Hs _]; unfold RingBuffer.empty; cbn [fst];
    unfold RingBuffer.size in Hs; rewrite Hs; apply (finish_nil next completed).
  cbn [flush fst]. destruct (holds_size _ _ _ Hb) as [Hs _]. unfold RingBuffer.size in Hs. unfold RingBuffer.empty at 1. rewrite Hs.
  destruct (holds_pop _ _ _ _ Hb) as (-> & b' & Epop & Hb'). rewrite run_item. cbn. unfold fwd_next. cbn. step_case next.
  rewrite Epop. cbn. apply (IH b' ys); [done|lia].
Qed.

Lemma take_last_denotes {A} (d : A) n : denotes (take_last_step d n) (take_last_stream n).
Proof.
  intros next [xs fin] s. unfold step_run, take_last_stream. cbn [fst snd].
  change (init (take_last_step d n)) with (RingBuffer.make d n).
  destruct (feed_take_last d n next xs (RingBuffer.make d n) [] s) as (b & E & Hb); [apply holds_make|].
  cbn [app] in Hb. change (local (take_last_step d n)) with (@ring_buffer A). rewrite E. cbn. destruct fin as [| |e]; [done| |apply (finish_nil next (failed e))].
  apply (flush_run next n); [done|]. by destruct (holds_size _ _ _ Hb) as [-> _].
Qed.

End Runs.

#[global] Arguments run : simpl never.
#[global] Arguments step_run : simpl never.

(** ** Pipelines *)

(** The steps that flows offer, with their parameters; the value for fresh
    elements of a ring buffer is one of them. *)
Inductive flow_step : Type -> Type -> Type :=
| distinct A (eq_dec : EqDecision A) : flow_step A A
| do_finally A : flow_step A A
| do_on_complete A : flow_step A A
| do_on_error A : flow_step A A
| do_on_next A : flow_step A A
| element_at A (index : nat) : flow_step A A
| filter_items A (fn : A -> bool) : flow_step A A
| ignore_elements A : flow_step A A
| map_items A B (fn : A -> B) : flow_step A B
| on_error_complete A : flow_step A A
| on_error_return A (fn : error -> A + error) : flow_step A A
| on_error_return_item A (item : A) : flow_step A A
| reduce A B (init : B) (fn : B -> A -> B) : flow_step A B
| scan A B (init : B) (fn : B -> A -> B) : flow_step A B
| skip A (num : nat) : flow_step A A
| skip_last A (dflt : A) (num : nat) : flow_step A A
| take_items A (num : nat) : flow_step A A
| take_last A (dflt : A) (num : nat) : flow_step A A
| take_while A (fn : A -> bool) : flow_step A A.

Definition step_of {T A B} (st : flow_step A B) : step T A B :=
  match st in flow_step A B return step T A B with
  | distinct _ eq_dec => distinct_step
  | do_finally _ => do_finally_step
  | do_on_complete _ => do_on_complete_step
  | do_on_error _ => do_on_error_step
  | do_on_next _ => do_on_next_step
  | element_at _ i => element_at_step i
  | filter_items _ fn => filter_step fn
  | ignore_elements _ => ignore_elements_step
  | map_items _ _ fn => map_step fn
  | on_error_complete _ => on_error_complete_step
  | on_error_return _ fn => on_error_return_step fn
  | on_error_return_item _ x => on_error_return_item_step x
  | reduce _ _ v fn => reduce_step v fn
  | scan _ _ v fn => scan_step v fn
  | skip _ n => skip_step n
  | skip_last _ d n => skip_last_step d n
  | take_items _ n => take_step n
  | take_last _ d n => take_last_step d n
  | take_while _ fn => take_while_step fn
  end.

(** The functions on streams they stand for. *)
Definition denote {A B} (st : flow_step A B) : stream A -> stream B :=
  match st in flow_step A B return stream A -> stream B with
  | distinct _ eq_dec => on_items (distinct_items [])
  | do_finally _ | do_on_complete _ | do_on_error _ | do_on_next _ => id
  | element_at _ i => element_at_stream i
  | filter_items _ fn => on_items (filter fn)
  | ignore_elements _ => on_items (fun _ => [])
  | map_items _ _ fn => on_items (map fn)
  | on_error_complete _ => error_to_complete
  | on_error_return _ fn => recover fn
  | on_error_return_item _ x => recover (fun _ => inl x)
  | reduce _ _ v fn => reduce_stream fn v
  | scan _ _ v fn => on_items (scan_items fn v)
  | skip _ n => on_items (drop n)
  | skip_last _ _ n => on_items (fun xs => take (length xs - n) xs)
  | take_items _ n => take_stream n
  | take_last _ _ n => take_last_stream n
  | take_while _ fn => fun z => take_while_items fn z.1 z.2
  end.

(** [skip_last(0)] divides by zero. *)
Definition valid_step {A B} (st : flow_step A B) : bool :=
  match st with skip_last _ _ n => (0 <? n)%nat | _ => true end.

Lemma step_denotes {T A B} (st : flow_step A B) : valid_step st = true -> denotes (@step_of T A B st) (denote st).
Proof.
  destruct st; intros Hv.
  - apply distinct_denotes.
  - apply do_finally_denotes.
  - apply do_on_complete_denotes.
  - apply do_on_error_denotes.
  - apply do_on_next_denotes.
  - apply element_at_denotes.
  - apply filter_denotes.
  - apply ignore_elements_denotes.
  - apply map_denotes.
  - apply on_error_complete_denotes.
  - apply on_error_return_denotes.
  - apply on_error_return_item_denotes.
  - apply reduce_denotes.
  - apply scan_denotes.
  - apply skip_denotes.
  - apply skip_last_denotes. by apply Nat.ltb_lt.
  - apply take_denotes.
  - apply take_last_denotes.
  - apply take_while_denotes.
Qed.

(** The steps of an observable, from its source to its observer. *)
Inductive pipeline : Type -> Type -> Type :=
| no_steps A : pipeline A A
| then_step A B C (st : flow_step A B) (p : pipeline B C) : pipeline A C.
Arguments no_steps {A}.
Arguments then_step {A B C}.

Section Pipelines.

Context {T : Type}.

Fixpoint build {A C} (p : pipeline A C) : machine T C -> machine T A :=
  match p in pipeline A C return machine T C -> machine T A with
  | no_steps => fun term => term
  | then_step st p' => fun term => chain (step_of st) (build p' term)
  end.

(** The members of the steps, in front of those of the terminal object. *)
Fixpoint start {A C} (p : pipeline A C) (term : machine T C) (ls : locals term) : locals (build p term) :=
  match p in pipeline A C return forall term : machine T C, locals term -> locals (build p term) with
  | no_steps => fun _ ls => ls
  | then_step st p' => fun term ls => (init (step_of st), start p' term ls)
  end term ls.

Fixpoint denote_all {A C} (p : pipeline A C) : stream A -> stream C :=
  match p in pipeline A C return stream A -> stream C with
  | no_steps => id
  | then_step st p' => fun z => denote_all p' (denote st z)
  end.

Fixpoint valid_pipeline {A C} (p : pipeline A C) : bool :=
  match p with no_steps => true | then_step st p' => valid_step st && valid_pipeline p' end.

(** Forgetting the members of the steps. *)
Fixpoint terminal_locals {A C} (p : pipeline A C) (term : machine T C) (ls : locals (build p term)) : locals term :=
  match p in pipeline A C return forall term : machine T C, locals (build p term) -> locals term with
  | no_steps => fun _ ls => ls
  | then_step st p' => fun term ls => terminal_locals p' term ls.2
  end term ls.

Lemma run_pipeline {A C} (p : pipeline A C) (term : machine T C) :
  valid_pipeline p = true -> forall z ls t,
    (fun s => (terminal_locals p term s.1, s.2)) <$> run (build p term) z (start p term ls, t)
    = run term (denote_all p z) (ls, t).
Proof.
  induction p as [A|A B C st p IH]; intros Hv z ls t.
  - cbn. by destruct (run term z (ls, t)) as [[]|].
  - cbn in Hv. apply andb_prop in Hv as [Hst Hp]. cbn [build denote_all].
    rewrite <- (IH term Hp (denote st z) ls t).
    rewrite <- (step_denotes st Hst (build p term) z (start p term ls, t)).
    pose proof (run_chain (step_of st) (build p term) z (init (step_of st), (start p term ls, t))) as E.
    etransitivity; [exact (f_equal (fmap _) E)|]. by destruct (step_run _ _ _ _) as [[l [ls' t']]|].
Qed.

End Pipelines.

(** ** The end of a pipeline *)

(** The callbacks of [from_generator_sub]: the buffer and how it ends. *)
Record terminal (A : Type) := mk_terminal { buf_ : list A; completed_ : bool; err_ : option error }.
Arguments mk_terminal {A}.
Arguments buf_ {A}.
Arguments completed_ {A}.
Arguments err_ {A}.

Definition terminal_machine (A : Type) : machine (terminal A) A :=
  mk_machine unit
    (fun x '(u, t) => Some (true, (u, mk_terminal (buf_ t ++ [x]) (completed_ t) (err_ t))))
    (fun '(u, t) => Some (u, mk_terminal (buf_ t) true (err_ t)))
    (fun e '(u, t) => Some (u, mk_terminal (buf_ t) true (Some e))).

Definition fresh {A} : terminal A := mk_terminal [] false None.

Definition ended (fin : ending) : bool := match fin with open => false | _ => true end.
Definition error_of (fin : ending) : option error := match fin with failed e => Some e | _ => None end.

Lemma terminal_run {A} z u t : err_ t = None -> completed_ t = false ->
  run (terminal_machine A) z (u, t) = Some (u, mk_terminal (buf_ t ++ z.1) (ended z.2) (error_of z.2)).
Proof.
  destruct z as [xs fin]. cbn [fst snd]. revert t. induction xs as [|x xs IH]; intros t He Hc.
  - rewrite app_nil_r. destruct t as [b c e]. cbn in He, Hc. subst. by destruct fin.
  - rewrite run_item. cbn. rewrite IH by done. cbn. by rewrite <- app_assoc.
Qed.

(** C19. A pipeline computes the composition of the functions its steps stand
    for.  Pass any items and any ending through a chain of steps (of
    [map], [filter], [take], [skip], [take_last], [skip_last], [take_while],
    [distinct], [element_at], [reduce], [scan], error handlers and callbacks), where
    no step is [skip_last(0)], which reads from an empty buffer: no step of the chain
    runs into undefined behaviour, and at the end of the chain arrive
    exactly the items and the ending that the functions on lists give, also if
    a step in the middle stops its source early. *)
Theorem pipeline_correct {A C} (p : pipeline A C) (xs : list A) (fin : ending) :
  valid_pipeline p = true ->
  exists ls, run (build p (terminal_machine C)) (xs, fin) (start p (terminal_machine C) tt, fresh)
    = Some (ls, mk_terminal (denote_all p (xs, fin)).1 (ended (denote_all p (xs, fin)).2) (error_of (denote_all p (xs, fin)).2)).
Proof.
  intros Hv. pose proof (run_pipeline p (terminal_machine C) Hv (xs, fin) tt fresh) as E.
  rewrite terminal_run in E by done. destruct (run _ _ _) as [[ls t]|]; [|done].
  exists ls. cbn in E. injection E as _ ->. done.
Qed.

(** [skip_last(0)] reads the front of an empty buffer, modulo zero. *)
Theorem skip_last_zero_crashes {A} (x : A) xs fin :
  run (build (then_step (skip_last A x 0) no_steps) (terminal_machine A)) (x :: xs, fin)
    (start _ (terminal_machine A) tt, fresh) = None.
Proof. done. Qed.

Definition demo_pipeline : pipeline Z Z :=
  then_step (filter_items Z (fun x => Z.odd x))
    (then_step (map_items Z Z (fun x => x * x))
      (then_step (take_items Z 3) (then_step (reduce Z Z 0 Z.add) no_steps))).

Lemma pipeline_correct_witness :
  denote_all demo_pipeline ([1; 2; 3; 4; 5; 6; 7; 8], open) = ([35], completed) /\
  exists ls, run (build demo_pipeline (terminal_machine Z)) ([1; 2; 3; 4; 5; 6; 7; 8], open) (start demo_pipeline (terminal_machine Z) tt, fresh)
    = Some (ls, mk_terminal [35] true None).
Proof.
  split; [reflexivity|].
  exact (pipeline_correct demo_pipeline [1; 2; 3; 4; 5; 6; 7; 8] open eq_refl).
Defined.

End FlowSteps.
