(* ===== verification/FlowUniform.v ===== *)
(** * What a chain of flow steps sends

    A chain of steps treats the object at its end uniformly: each call emits a
    sequence of signals that depends on the steps alone.  This lets the
    operators of [FlowGenerator] and [FlowFromSteps] drain the buffer at the
    end of a chain while items are still on their way. *)

From stdpp Require Import prelude.
From S2P Require Import Prelude RingBuffer FlowSteps.

Module FlowUniform.

Import FlowSteps.

(** An object that takes signals, one after another. *)
Class Terminal (T C : Type) := {
  emit : stream C -> T -> T;
  emit_nil : forall t, emit ([], open) t = t;
  emit_app : forall xs z t, emit z (emit (xs, open) t) = emit (xs ++ z.1, z.2) t;
}.

Section Uniform.

Context {T C : Type} `{!Terminal T C}.

(** The three callbacks emit the same signals whatever the state of the object
    is, and [on_next] returns false exactly if the stream has ended. *)
Definition sends_next {L : Type} (f : L * T -> option (bool * (L * T))) : Prop :=
  forall ls, (forall t, f (ls, t) = None) \/
    exists ls' z, forall t, f (ls, t) = Some (negb (ended z.2), (ls', emit z t)).

Definition sends_end {L : Type} (f : L * T -> option (L * T)) : Prop :=
  forall ls, (forall t, f (ls, t) = None) \/
    exists ls' z, ended z.2 = true /\ forall t, f (ls, t) = Some (ls', emit z t).

Record uniform {A} (m : machine T A) : Prop := {
  u_next : forall x, sends_next (on_next m x);
  u_complete : sends_end (on_complete m);
  u_error : forall e, sends_end (on_error m e);
}.

(** The same for the callbacks of a step. *)
Definition step_sends_next {L M : Type} (f : L * (M * T) -> option (bool * (L * (M * T)))) : Prop :=
  forall l ls, (forall t, f (l, (ls, t)) = None) \/
    exists l' ls' z, forall t, f (l, (ls, t)) = Some (negb (ended z.2), (l', (ls', emit z t))).

Definition step_sends_end {L M : Type} (f : L * (M * T) -> option (L * (M * T))) : Prop :=
  forall l ls, (forall t, f (l, (ls, t)) = None) \/
    exists l' ls' z, ended z.2 = true /\ forall t, f (l, (ls, t)) = Some (l', (ls', emit z t)).

Lemma chain_uniform {A B} (st : step T A B) (next : machine T B) :
  (forall x, step_sends_next (step_next st next x)) -> step_sends_end (step_complete st next) ->
  (forall e, step_sends_end (step_error st next e)) -> uniform (chain st next).
Proof.
  intros Hn Hc He. split.
  - intros x [l ls]. destruct (Hn x l ls) as [H|(l' & ls' & z & H)]; [left|right; exists (l', ls'), z];
      intros t; cbn; by unfold assoc_l; cbn; rewrite H.
  - intros [l ls]. destruct (Hc l ls) as [H|(l' & ls' & z & Hz & H)]; [left|right; exists (l', ls'), z; split; [done|]];
      intros t; cbn; by unfold assoc_l; cbn; rewrite H.
  - intros e [l ls]. destruct (He e l ls) as [H|(l' & ls' & z & Hz & H)]; [left|right; exists (l', ls'), z; split; [done|]];
      intros t; cbn; by unfold assoc_l; cbn; rewrite H.
Qed.

Section Steps.

Context {B : Type} (next : machine T B) (Hu : uniform next).

Lemma sends_quiet {L : Type} (g : L -> L) :
  step_sends_next (fun s : L * (locals next * T) => Some (true, (g s.1, s.2))).
Proof. intros l ls. right. exists (g l), ls, ([], open). intros t. cbn. by rewrite emit_nil. Qed.

Lemma sends_fwd_next {L : Type} (x : B) : step_sends_next (@fwd_next T B L next x).
Proof.
  intros l ls. destruct (u_next next Hu x ls) as [H|(ls' & z & H)]; [left|right; exists l, ls', z];
    intros t; unfold fwd_next; cbn; by rewrite H.
Qed.

Lemma sends_fwd_complete {L : Type} : step_sends_end (@fwd_complete T B L next).
Proof.
  intros l ls. destruct (u_complete next Hu ls) as [H|(ls' & z & Hz & H)]; [left|right; exists l, ls', z; split; [done|]];
    intros t; unfold fwd_complete; cbn; by rewrite H.
Qed.

Lemma sends_fwd_error {L : Type} e : step_sends_end (@fwd_error T B L next e).
Proof.
  intros l ls. destruct (u_error next Hu e ls) as [H|(ls' & z & Hz & H)]; [left|right; exists l, ls', z; split; [done|]];
    intros t; unfold fwd_error; cbn; by rewrite H.
Qed.

(** First a callback that emits items, and if it returns true another one. *)
Lemma sends_then_end {L M : Type} (f : L * (M * T) -> option (bool * (L * (M * T)))) (k : L * (M * T) -> option (L * (M * T))) :
  step_sends_next f -> step_sends_end k ->
  step_sends_end (fun s => '(b, s') ← f s; if (b : bool) then k s' else Some s').
Proof.
  intros Hf Hk l ls. destruct (Hf l ls) as [H|(l1 & ls1 & [xs fin] & H)]; [left; intros t; by rewrite H|]. cbn [fst snd] in H.
  destruct fin as [| |e].
  - destruct (Hk l1 ls1) as [H'|(l2 & ls2 & z2 & Hz & H')].
    + left. intros t. rewrite H. cbn. apply H'.
    + right. exists l2, ls2, (xs ++ z2.1, z2.2). split; [done|]. intros t. rewrite H. cbn. by rewrite H', emit_app.
  - right. exists l1, ls1, (xs, completed). split; [done|]. intros t. by rewrite H.
  - right. exists l1, ls1, (xs, failed e). split; [done|]. intros t. by rewrite H.
Qed.

Lemma sends_then_next {L M : Type} (f k : L * (M * T) -> option (bool * (L * (M * T)))) :
  step_sends_next f -> step_sends_next k ->
  step_sends_next (fun s => '(b, s') ← f s; if (b : bool) then k s' else Some (false, s')).
Proof.
  intros Hf Hk l ls. destruct (Hf l ls) as [H|(l1 & ls1 & [xs fin] & H)]; [left; intros t; by rewrite H|]. cbn [fst snd] in H.
  destruct fin as [| |e].
  - destruct (Hk l1 ls1) as [H'|(l2 & ls2 & z2 & H')].
    + left. intros t. rewrite H. cbn. apply H'.
    + right. exists l2, ls2, (xs ++ z2.1, z2.2). intros t. rewrite H. cbn. by rewrite H', emit_app.
  - right. exists l1, ls1, (xs, completed). intros t. by rewrite H.
  - right. exists l1, ls1, (xs, failed e). intros t. by rewrite H.
Qed.

(** Ending the stream and returning false. *)
Lemma sends_stop {L M : Type} (k : L * (M * T) -> option (L * (M * T))) :
  step_sends_end k -> step_sends_next (fun s => s' ← k s; Some (false, s')).
Proof.
  intros Hk l ls. destruct (Hk l ls) as [H|(l' & ls' & z & Hz & H)]; [left; intros t; by rewrite H|right].
  exists l', ls', z. intros t. rewrite H, Hz. done.
Qed.

Lemma sends_last {L : Type} x (k : L * (locals next * T) -> option (L * (locals next * T))) :
  step_sends_end k -> step_sends_end (last_item next x k).
Proof. intros Hk. apply sends_then_end; [apply sends_fwd_next|done]. Qed.

Lemma distinct_uniform `{!EqDecision B} x : step_sends_next (step_next distinct_step next x).
Proof.
  intros prev ls. cbn. case_decide; [apply (sends_quiet id)|apply (sends_fwd_next x (x :: prev) ls)].
Qed.

Lemma element_at_uniform i x : step_sends_next (step_next (element_at_step i) next x).
Proof.
  intros cur ls. cbn. destruct (i =? cur)%nat; [|apply (sends_quiet S)].
  apply (sends_stop (last_item next x (fwd_complete next)) (sends_last x _ sends_fwd_complete)).
Qed.

Lemma filter_uniform fn x : step_sends_next (step_next (filter_step fn) next x).
Proof. intros l ls. cbn. destruct (fn x); [apply sends_fwd_next|apply (sends_quiet id)]. Qed.

Lemma take_while_uniform fn x : step_sends_next (step_next (take_while_step fn) next x).
Proof. intros l ls. cbn. destruct (fn x); [apply sends_fwd_next|apply (sends_stop _ sends_fwd_complete)]. Qed.

Lemma skip_uniform n x : step_sends_next (step_next (skip_step n) next x).
Proof. intros [|r] ls; cbn; [apply (sends_fwd_next x 0%nat)|apply (sends_quiet (fun _ => r) (S r))]. Qed.

Lemma scan_uniform {A} (v : B) (fn : B -> A -> B) x : step_sends_next (step_next (scan_step v fn) next x).
Proof. intros val ls. cbn. apply (sends_fwd_next (fn val x) (fn val x) ls). Qed.

Lemma take_uniform n x : step_sends_next (step_next (take_step n) next x).
Proof.
  intros [|r] ls; cbn.
  { apply (sends_stop (fwd_complete next) sends_fwd_complete 0%nat). }
  destruct (u_next next Hu x ls) as [H|(ls1 & [xs fin] & H)].
  { left. intros t. unfold fwd_next. cbn. by rewrite H. }
  cbn [fst snd] in H. destruct (ended fin) eqn:Ef.
  { right. exists (S r), ls1, (xs, fin). intros t. unfold fwd_next. cbn. by rewrite H, Ef. }
  destruct fin; try done. destruct (r =? 0)%nat eqn:Er.
  - destruct (sends_stop (fwd_complete next) sends_fwd_complete r ls1) as [H'|(l2 & ls2 & z & H')].
    + left. intros t. unfold fwd_next. cbn. rewrite H. cbn. rewrite Er. apply H'.
    + right. exists l2, ls2, (xs ++ z.1, z.2). intros t. unfold fwd_next. cbn. rewrite H. cbn. by rewrite Er, H', emit_app.
  - right. exists r, ls1, (xs, open). intros t. unfold fwd_next. cbn. rewrite H. cbn. by rewrite Er.
Qed.

Lemma skip_last_uniform d n x : step_sends_next (step_next (skip_last_step d n) next x).
Proof.
  intros b ls. cbn. destruct (RingBuffer.full b); [|apply (sends_quiet (RingBuffer.push_back x))].
  destruct (RingBuffer.front b) as [y|]; cbn; [|by left].
  destruct (u_next next Hu y ls) as [H|(ls1 & z & H)].
  { left. intros t. unfold fwd_next. cbn. by rewrite H. }
  destruct (ended z.2) eqn:Ef.
  { right. exists b, ls1, z. intros t. unfold fwd_next. cbn. by rewrite H, Ef. }
  destruct (RingBuffer.pop_front b) as [b'|]; [right; exists (RingBuffer.push_back x b'), ls1, z|left];
    intros t; unfold fwd_next; cbn; by rewrite H, ?Ef.
Qed.

Lemma flush_uniform n : step_sends_next (flush next n).
Proof.
  induction n as [|n IH]; intros b ls; cbn [flush fst]; (destruct (RingBuffer.empty b); [apply (sends_quiet id)|]); [by left|].
  destruct (RingBuffer.front b) as [y|]; cbn; [|by left].
  apply (sends_then_next (fwd_next next y) (fun s => elements' ← RingBuffer.pop_front s.1; flush next n (elements', s.2)));
    [apply sends_fwd_next|].
  intros b1 ls1. cbn. destruct (RingBuffer.pop_front b1) as [b2|]; cbn; [apply IH|by left].
Qed.

Lemma take_last_complete_uniform d n : step_sends_end (step_complete (take_last_step d n) next).
Proof.
  intros b ls. cbn. apply (sends_then_end (flush next (RingBuffer.size b)) (fwd_complete next));
    [apply flush_uniform|apply sends_fwd_complete].
Qed.

End Steps.

(** Every step keeps a machine uniform. *)
Lemma step_uniform {A B} (st : flow_step A B) (next : machine T B) : uniform next -> uniform (chain (step_of st) next).
Proof.
  intros Hu. apply chain_uniform; destruct st; try (intros; by apply sends_fwd_next); try (intros; by apply sends_fwd_complete);
    try (intros; by apply sends_fwd_error).
  all: try (intros; by apply (sends_quiet next id)).
  all: try (intros x; by (apply distinct_uniform || apply element_at_uniform || apply filter_uniform || apply take_while_uniform
    || apply skip_uniform || apply scan_uniform || apply take_uniform || apply skip_last_uniform)).
  - intros x l ls. apply (sends_fwd_next next Hu x (l ++ [called_next x]) ls).
  - intros x l ls. apply (sends_quiet next (fun v => fn v x) l ls).
  - intros x l ls. apply (sends_quiet next (RingBuffer.push_back x) l ls).
  - intros l ls. apply (sends_fwd_complete next Hu (l ++ [called_complete]) ls).
  - intros l ls. apply (sends_fwd_complete next Hu (l ++ [called_complete]) ls).
  - intros l ls. apply (sends_last next Hu l _ (sends_fwd_complete next Hu)).
  - by apply take_last_complete_uniform.
  - intros e l ls. apply (sends_fwd_error next Hu e (l ++ [called_error e]) ls).
  - intros e l ls. apply (sends_fwd_error next Hu e (l ++ [called_error e]) ls).
  - intros e l ls. cbn. destruct (fn e) as [x|e'];
      [apply (sends_last next Hu x _ (sends_fwd_complete next Hu))|apply (sends_fwd_error next Hu e')].
  - intros e l ls. apply (sends_last next Hu item _ (sends_fwd_complete next Hu)).
  - intros e l ls. apply (sends_last next Hu l _ (sends_fwd_error next Hu e)).
Qed.

Lemma feed_uniform {A} (m : machine T A) : uniform m -> forall xs, sends_next (feed m xs).
Proof.
  intros Hu. induction xs as [|x xs IH]; intros ls.
  - right. exists ls, ([], open). intros t. cbn. by rewrite emit_nil.
  - destruct (u_next m Hu x ls) as [H|(ls1 & [ys fin] & H)]; [left; intros t; cbn; by rewrite H|]. cbn [fst snd] in H.
    destruct (ended fin) eqn:Ef; [right; exists ls1, (ys, fin); intros t; cbn; by rewrite H, Ef|].
    destruct fin; try done. destruct (IH ls1) as [H'|(ls2 & z & H')].
    + left. intros t. cbn. rewrite H. apply H'.
    + right. exists ls2, (ys ++ z.1, z.2). intros t. cbn. rewrite H. cbn. by rewrite H', emit_app.
Qed.

End Uniform.

Lemma pipeline_uniform {T A C} (p : pipeline A C) : forall (H : Terminal T C) (term : machine T C),
  uniform term -> uniform (build p term).
Proof. induction p as [A|A B C st p IH]; intros H term Ht; [done|]. by apply step_uniform, IH. Qed.

(** ** The two ends of a chain *)

(** [from_generator_sub] stores how the stream ends. *)
Definition generator_emit {C} (z : stream C) (t : terminal C) : terminal C :=
  mk_terminal (buf_ t ++ z.1) (completed_ t || ended z.2) (match z.2 with failed e => Some e | _ => err_ t end).

Lemma generator_emit_nil {C} (t : terminal C) : generator_emit ([], open) t = t.
Proof. destruct t as [b c e]. unfold generator_emit. cbn. by rewrite app_nil_r, orb_false_r. Qed.

Lemma generator_emit_app {C} xs (z : stream C) t : generator_emit z (generator_emit (xs, open) t) = generator_emit (xs ++ z.1, z.2) t.
Proof. destruct z, t. unfold generator_emit. cbn. by rewrite orb_false_r, app_assoc. Qed.

#[export] Instance generator_terminal C : Terminal (terminal C) C :=
  Build_Terminal _ _ generator_emit generator_emit_nil generator_emit_app.

Lemma terminal_uniform C : uniform (terminal_machine C).
Proof.
  split.
  - intros x u. right. exists u, ([x], open). intros [b c e]. cbn. unfold generator_emit. cbn. by rewrite orb_false_r.
  - intros u. right. exists u, ([], completed). split; [done|]. intros [b c e]. cbn. unfold generator_emit. cbn. by rewrite app_nil_r, orb_true_r.
  - intros e u. right. exists u, ([], failed e). split; [done|]. intros [b c e']. cbn. unfold generator_emit. cbn. by rewrite app_nil_r, orb_true_r.
Qed.

Lemma emit_fresh {C} (z : stream C) : emit z (@fresh C) = mk_terminal z.1 (ended z.2) (error_of z.2).
Proof. by destruct z as [xs []]. Qed.

Lemma emit_fresh_inj {C} (z z' : stream C) : emit z (@fresh C) = emit z' fresh -> z = z'.
Proof. rewrite !emit_fresh. destruct z as [xs []], z' as [ys []]; cbn; congruence. Qed.

(** ** Feeding a chain step by step *)

Section Incremental.

Context {A C : Type} (p : pipeline A C) (Hp : valid_pipeline p = true).

#[local] Abbreviation m := (build p (terminal_machine C)).
#[local] Abbreviation start := (start p (terminal_machine C) tt).

Lemma pipeline_machine_uniform : uniform m.
Proof. apply pipeline_uniform, terminal_uniform. Qed.

Lemma run_emits z : exists ls, run m z (start, fresh) = Some (ls, emit (denote_all p z) fresh).
Proof.
  pose proof (run_pipeline p (terminal_machine C) Hp z tt fresh) as E. rewrite terminal_run in E by done.
  destruct (run m _ _) as [[ls t]|]; [|done]. exists ls. cbn in E. injection E as _ ->. by rewrite emit_fresh.
Qed.

(** After the items [xs] the members of the steps are [ls], and [ys] came out. *)
Definition reaches (xs : list A) (ls : locals m) (ys : list C) : Prop :=
  forall t, feed m xs (start, t) = Some (true, (ls, emit (ys, open) t)).

Lemma reaches_nil : reaches [] start [].
Proof. intros t. by rewrite emit_nil. Qed.

Lemma reaches_denotes xs ls ys : reaches xs ls ys -> denote_all p (xs, open) = (ys, open).
Proof.
  intros H. destruct (run_emits (xs, open)) as [ls' E]. unfold run in E. cbn [fst snd] in E. rewrite (H fresh) in E.
  cbn [mbind option_bind finish] in E. symmetry. apply emit_fresh_inj. congruence.
Qed.

Lemma feed_snoc xs x s :
  feed m (xs ++ [x]) s = ('(b, s') ← feed m xs s; if (b : bool) then on_next m x s' else Some (false, s')).
Proof.
  revert s. induction xs as [|y xs IH]; intros s; cbn.
  - by destruct (on_next m x s) as [[[] s']|].
  - destruct (on_next m y s) as [[[] s']|]; cbn; [apply IH|done|done].
Qed.

Lemma reaches_next xs ls ys x : reaches xs ls ys ->
  exists ls' z, (forall t, on_next m x (ls, t) = Some (negb (ended z.2), (ls', emit z t))) /\
    denote_all p (xs ++ [x], open) = (ys ++ z.1, z.2) /\
    (ended z.2 = false -> reaches (xs ++ [x]) ls' (ys ++ z.1)).
Proof.
  intros H. destruct (run_emits (xs ++ [x], open)) as [ls1 E]. unfold run in E. cbn [fst snd] in E.
  rewrite feed_snoc, (H fresh) in E. cbn [mbind option_bind] in E.
  destruct (u_next m pipeline_machine_uniform x ls) as [Hn|(ls' & z & Hz)]; [by rewrite Hn in E|].
  exists ls', z. split_and!; [done| |].
  - rewrite Hz, emit_app in E. cbn [mbind option_bind] in E. symmetry. apply emit_fresh_inj.
    destruct (negb (ended z.2)); cbn [finish] in E; congruence.
  - intros Ho t. rewrite feed_snoc, H. cbn [mbind option_bind]. rewrite Hz, Ho, emit_app.
    by destruct z as [zs []].
Qed.

Lemma reaches_end xs ls ys fin : reaches xs ls ys -> ended fin = true ->
  exists ls' z, ended z.2 = true /\ (forall t, finish m fin (ls, t) = Some (ls', emit z t)) /\
    denote_all p (xs, fin) = (ys ++ z.1, z.2).
Proof.
  intros H Hf. destruct (run_emits (xs, fin)) as [ls1 E]. unfold run in E. cbn [fst snd] in E. rewrite (H fresh) in E.
  cbn [mbind option_bind] in E.
  assert (sends_end (finish m fin)) as Hs.
  { destruct fin as [| |e]; [done|apply pipeline_machine_uniform|apply (u_error m pipeline_machine_uniform e)]. }
  destruct (Hs ls) as [Hn|(ls' & z & Hz & Hc)]; [by rewrite Hn in E|].
  exists ls', z. split_and!; [done..|]. rewrite Hc, emit_app in E. symmetry. apply emit_fresh_inj. congruence.
Qed.

End Incremental.

End FlowUniform.
