(* ===== verification/FlowGenerator.v ===== *)
(** * Observables from generators (libcaf_core/caf/flow/op/from_generator.hpp,
      flow/gen)

    A generator pushes items into a chain of steps when the observer asks for
    some; what comes out waits in a buffer until it is requested.  The observer
    may request more items and cancel from within [on_next]. *)

From stdpp Require Import prelude.
From S2P Require Import Prelude Effects FlowSteps FlowUniform.

Module FlowGenerator.

Import Effects FlowSteps FlowUniform.

(** ** Generators *)

Section Generators.

Context {T A : Type} (m : machine T A).

(** [from_container]: the values from [pos_] on.  The loop tells whether it
    ended because the step returned false. *)
Fixpoint container_loop (n : nat) (values : list A) (s : locals m * T) : option (bool * list A * (locals m * T)) :=
  match values, n with
  | x :: values', S n' =>
      '(b, s') ← on_next m x s;
      if (b : bool) then container_loop n' values' s' else Some (false, values', s')
  | _, _ => Some (true, values, s)
  end.

Definition from_container (n : nat) (values : list A) (s : locals m * T) : option (list A * (locals m * T)) :=
  '(go, values', s') ← container_loop n values s;
  if (go : bool) && bool_decide (values' = [])
  then s'' ← on_complete m s'; Some (values', s'')
  else Some (values', s').

(** [empty]. *)
Definition empty (n : nat) (s : locals m * T) : option (locals m * T) := on_complete m s.

(** [just]: emits its value and completes. *)
Definition just (n : nat) (value : A) (s : locals m * T) : option (A * (locals m * T)) :=
  '(b, s') ← on_next m value s;
  if (b : bool) then s'' ← on_complete m s'; Some (value, s'') else Some (value, s').

(** [repeat]. *)
Fixpoint repeat (n : nat) (value : A) (s : locals m * T) : option (A * (locals m * T)) :=
  match n with
  | O => Some (value, s)
  | S n' => '(b, s') ← on_next m value s; if (b : bool) then repeat n' value s' else Some (value, s')
  end.

(** [from_callable] for a function with a state: it returns a value or how the
    sequence ends; a function that returns plain values never ends it. *)
Fixpoint from_callable {F} (fn : F -> (A + option error) * F) (n : nat) (f : F) (s : locals m * T)
  : option (F * (locals m * T)) :=
  match n with
  | O => Some (f, s)
  | S n' =>
      match fn f with
      | (inr (Some e), f') => s' ← on_error m e s; Some (f', s')
      | (inr None, f') => s' ← on_complete m s; Some (f', s')
      | (inl x, f') => '(b, s') ← on_next m x s; if (b : bool) then from_callable fn n' f' s' else Some (f', s')
      end
  end.

End Generators.

(** [iota] over unsigned integers of [w] bits. *)
Fixpoint iota {T} (w : Z) (m : machine T Z) (n : nat) (value : Z) (s : locals m * T) : option (Z * (locals m * T)) :=
  match n with
  | O => Some (value, s)
  | S n' =>
      '(b, s') ← on_next m value s;
      if (b : bool) then iota w m n' (uwrap w (value + 1)) s' else Some (uwrap w (value + 1), s')
  end.

(** ** The subscription *)

(** What the observer gets. *)
Inductive signal (C : Type) := s_next (x : C) | s_complete | s_error (e : error).
Arguments s_next {C}.
Arguments s_complete {C}.
Arguments s_error {C}.

(** [sec::disposed]. *)
Definition sec_disposed : error := 71.

(** The sum of two numbers of type [size_t]. *)
Definition add_size (a n : nat) : nat := Z.to_nat (uwrap 64 (Z.of_nat a + Z.of_nat n)).

Lemma add_size_le a n : (add_size a n <= a + n)%nat.
Proof. unfold add_size, uwrap. pose proof (Z.mod_le (Z.of_nat a + Z.of_nat n) (2 ^ 64)). lia. Qed.

Lemma add_size_exact a n : Z.of_nat (a + n) < 2 ^ 64 -> add_size a n = (a + n)%nat.
Proof. intros H. unfold add_size. rewrite uwrap_id by (split; lia). lia. Qed.

Section Subscription.

Context {A C : Type} (p : pipeline A C).

Abbreviation steps := (build p (terminal_machine C)).

(** What the observer does within [on_next], given everything it has seen: it
    requests more items, and it may cancel. *)
Context (react : list (signal C) -> nat * bool).

(** [requested] sums up the demand, for the specification. *)
Record sub := mk_sub {
  running_ : bool;
  demand_ : nat;
  out_ : bool;
  gen_ : list A;
  steps_ : locals steps;
  term_ : terminal C;
  trace : list (signal C);
  requested : nat;
}.

Definition set_running (x : bool) (s : sub) : sub :=
  mk_sub x (demand_ s) (out_ s) (gen_ s) (steps_ s) (term_ s) (trace s) (requested s).
Definition set_demand (x : nat) (s : sub) : sub :=
  mk_sub (running_ s) x (out_ s) (gen_ s) (steps_ s) (term_ s) (trace s) (requested s).
Definition set_out (x : bool) (s : sub) : sub :=
  mk_sub (running_ s) (demand_ s) x (gen_ s) (steps_ s) (term_ s) (trace s) (requested s).
Definition set_term (x : terminal C) (s : sub) : sub :=
  mk_sub (running_ s) (demand_ s) (out_ s) (gen_ s) (steps_ s) x (trace s) (requested s).
Definition note_requested (n : nat) (s : sub) : sub :=
  mk_sub (running_ s) (demand_ s) (out_ s) (gen_ s) (steps_ s) (term_ s) (trace s) (requested s + n).
Definition send (x : signal C) (s : sub) : sub :=
  mk_sub (running_ s) (demand_ s) (out_ s) (gen_ s) (steps_ s) (term_ s) (trace s ++ [x]) (requested s).

#[local] Abbreviation comp := (comp sub).

(** [request]; the subscription of an observer that was released is never
    used again.  [demand_] is a [size_t]: the sum wraps around. *)
Definition request (n : nat) : comp unit :=
  s ← gets (fun s => s);
  if out_ s then
    modify (fun s => note_requested n (set_demand (add_size (demand_ s) n) s));;
    modify (set_running true)
  else stuck.

(** [fin]: the observer is released. *)
Definition fin : comp unit :=
  modify (fun s => set_out false
    (send (match err_ (term_ s) with None => s_complete | Some e => s_error e end) s)).

Definition do_dispose (from_external : bool) : comp unit :=
  s ← gets (fun s => s);
  if negb (out_ s) then mret tt else
  modify (set_term (mk_terminal [] true (if from_external then Some sec_disposed else err_ (term_ s))));;
  if from_external then fin else modify (set_out false).

(** [out_.on_next]: the observer reacts. *)
Definition on_next_out (x : C) : comp unit :=
  modify (send (s_next x));;
  s ← gets (fun s => s);
  let (more, stop) := react (trace s) in
  request more;;
  if (stop : bool) then do_dispose false else mret tt.

(** [pull]: the generator pushes items into the steps. *)
Definition pull (n : nat) : comp unit :=
  s ← gets (fun s => s);
  match from_container steps n (gen_ s) (steps_ s, term_ s) with
  | None => stuck
  | Some (g, (ls, t)) =>
      modify (fun s => mk_sub (running_ s) (demand_ s) (out_ s) g ls t (trace s) (requested s))
  end.

(** [do_run]; pulling changes neither the demand nor the observer, so that the
    inner loop may check them again. *)
Fixpoint do_run (fuel : nat) : comp unit :=
  match fuel with
  | O => stuck
  | S fuel' =>
      s ← gets (fun s => s);
      if out_ s && (0 <? demand_ s)%nat then
        if bool_decide (buf_ (term_ s) = []) && negb (completed_ (term_ s)) then pull (demand_ s);; do_run fuel'
        else
          match buf_ (term_ s) with
          | x :: buf =>
              modify (set_demand (demand_ s - 1));;
              modify (set_term (mk_terminal buf (completed_ (term_ s)) (err_ (term_ s))));;
              on_next_out x;;
              do_run fuel'
          | [] => fin;; modify (set_running false)
          end
      else
        (if out_ s && bool_decide (buf_ (term_ s) = []) && completed_ (term_ s) then fin else mret tt);;
        modify (set_running false)
  end.

Definition subscribe (xs : list A) : sub :=
  mk_sub false 0 true xs (start p (terminal_machine C) tt) fresh [] 0.

End Subscription.

(** ** Correctness *)

(** The items the observer has got. *)
Definition item {C} (x : signal C) : list C := match x with s_next y => [y] | _ => [] end.
Definition items {C} (tr : list (signal C)) : list C := flat_map item tr.

Lemma items_snoc {C} (tr : list (signal C)) x : items (tr ++ [x]) = items tr ++ item x.
Proof. unfold items. rewrite flat_map_app. cbn. by rewrite app_nil_r. Qed.

Lemma items_next {C} (ys : list C) : items (map s_next ys) = ys.
Proof. unfold items. induction ys as [|y ys IH]; [done|]. cbn. by rewrite IH. Qed.

(** A loop over a container feeds the first items. *)
Lemma container_loop_feed {T A} (m : machine T A) n : forall values s,
  match feed m (take n values) s with
  | None => container_loop m n values s = None
  | Some (true, s') => container_loop m n values s = Some (true, drop n values, s')
  | Some (false, s') => exists v, container_loop m n values s = Some (false, v, s') /\ (length v < length values)%nat
  end.
Proof.
  induction n as [|n IH]; intros [|x values] s; [done..|]. cbn [take feed container_loop drop].
  destruct (on_next m x s) as [[[] s1]|]; cbn; [|exists values; split; [done|lia]|done].
  specialize (IH values s1). destruct (feed m (take n values) s1) as [[[] s2]|]; [done| |done].
  destruct IH as (v & E & Hv). exists v. split; [done|]. lia.
Qed.

Section Correctness.

Context {A C : Type} (p : pipeline A C) (Hp : valid_pipeline p = true).
Context (react : list (signal C) -> nat * bool) (xs : list A).

#[local] Abbreviation m := (build p (terminal_machine C)).
#[local] Abbreviation sub := (sub p).
#[local] Abbreviation start := (start p (terminal_machine C) tt).

(** The items and the ending that the steps make of the values. *)
Definition result : stream C := denote_all p (xs, completed).

(** What the steps have emitted so far: [z], for the values before [rest]. *)
Definition fed (rest : list A) (ls : locals m) (z : stream C) : Prop :=
  exists xs1, xs = xs1 ++ rest /\ forall t, feed m xs1 (start, t) = Some (negb (ended z.2), (ls, emit z t)).

#[local] Abbreviation m_uniform := (pipeline_machine_uniform p).

Lemma run_result : exists ls, run m (xs, completed) (start, fresh) = Some (ls, emit result fresh).
Proof. by apply run_emits. Qed.

Lemma fed_start : fed xs start ([], open).
Proof. exists []. split; [done|]. intros t. cbn. by rewrite generator_emit_nil. Qed.

(** A stream that has ended is the result. *)
Lemma fed_ended rest ls z : fed rest ls z -> ended z.2 = true -> z = result.
Proof.
  intros (xs1 & E & H) Hz. destruct run_result as [ls' Hr]. rewrite E, run_app, (H fresh), Hz in Hr. cbn [negb mbind option_bind] in Hr.
  apply (emit_fresh_inj z result). congruence.
Qed.

(** Feeding some more values. *)
Lemma fed_more rest ls ys n : fed rest ls (ys, open) ->
  exists ls' z, (forall t, feed m (take n rest) (ls, t) = Some (negb (ended z.2), (ls', emit z t))) /\
    fed (drop n rest) ls' (ys ++ z.1, z.2).
Proof.
  intros (xs1 & E & H). destruct (feed_uniform m m_uniform (take n rest) ls) as [Hn|(ls' & z & Hz)].
  - exfalso. destruct run_result as [ls' Hr]. rewrite E, run_app, (H fresh) in Hr. cbn in Hr.
    rewrite <- (take_drop n rest), run_app, Hn in Hr. done.
  - exists ls', z. split; [done|]. exists (xs1 ++ take n rest). split; [by rewrite <- app_assoc, take_drop|].
    intros t. transitivity ('(b, s') ← feed m xs1 (start, t); if (b : bool) then feed m (take n rest) s' else Some (false, s')).
    { generalize (take n rest) as ws. clear. intros ws. generalize (start, t) as s. induction xs1 as [|x xs1 IH]; intros s; [done|].
      cbn. destruct (on_next m x s) as [[[] s1]|]; [apply IH|done|done]. }
    rewrite H. cbn [negb ended snd mbind option_bind]. by rewrite Hz, <- (emit_app ys z t).
Qed.

(** Completing after the last value. *)
Lemma fed_complete ls ys : fed [] ls (ys, open) ->
  exists ls' z, ended z.2 = true /\ (forall t, on_complete m (ls, t) = Some (ls', emit z t)) /\ (ys ++ z.1, z.2) = result.
Proof.
  intros (xs1 & E & H). rewrite app_nil_r in E. destruct run_result as [ls1 Hr]. unfold run in Hr. cbn [fst snd] in Hr.
  rewrite E, (H fresh) in Hr. cbn [ended negb snd mbind option_bind finish] in Hr.
  destruct (u_complete m m_uniform ls) as [Hn|(ls' & z & Hz & Hc)]; [by rewrite Hn in Hr|].
  exists ls', z. split; [done|split; [done|]]. rewrite Hc, emit_app in Hr.
  apply (emit_fresh_inj _ result). congruence.
Qed.

(** The emitted items are a prefix of all. *)
Lemma fed_prefix rest ls ys : fed rest ls (ys, open) -> exists ys', result.1 = ys ++ ys'.
Proof.
  intros H. destruct (fed_more rest ls ys (length rest) H) as (ls1 & [zs fin] & _ & H1). cbn [fst snd] in H1.
  rewrite drop_all in H1. destruct (ended fin) eqn:Ef.
  - exists zs. by rewrite <- (fed_ended _ _ _ H1 Ef).
  - destruct fin; try done. destruct (fed_complete _ _ H1) as (ls2 & z2 & _ & _ & <-). exists (zs ++ z2.1). cbn. by rewrite app_assoc.
Qed.

(** ** Invariants *)

(** While there is an observer. *)
Record active (s : sub) (z : stream C) : Prop := {
  a_out : out_ p s = true;
  a_items : items (trace p s) ++ buf_ (term_ p s) = z.1;
  a_completed : completed_ (term_ p s) = ended z.2;
  a_err : err_ (term_ p s) = error_of z.2;
  a_done : ended z.2 = true -> z = result;
  a_open : ended z.2 = false -> fed (gen_ p s) (steps_ p s) z;
  a_trace : trace p s = map s_next (items (trace p s));
  a_demand : (length (items (trace p s)) + demand_ p s <= requested p s)%nat;
  a_exact : Z.of_nat (requested p s) < 2 ^ 64 -> (length (items (trace p s)) + demand_ p s)%nat = requested p s;
  a_gen : (length (gen_ p s) <= length xs)%nat;
}.

(** When the observer is gone: it has cancelled or got the last signal. *)
Record gone (s : sub) : Prop := {
  g_out : out_ p s = false;
  g_prefix : exists ys', result.1 = items (trace p s) ++ ys';
  g_demand : (length (items (trace p s)) <= requested p s)%nat;
  g_trace : exists tail, trace p s = map s_next (items (trace p s)) ++ tail /\
    (tail = [] \/ tail = [s_error sec_disposed] \/
     items (trace p s) = result.1 /\ tail = [match error_of result.2 with None => s_complete | Some e => s_error e end]);
}.

Lemma active_prefix s z : active s z -> exists ys', result.1 = items (trace p s) ++ ys'.
Proof.
  intros []. destruct (ended z.2) eqn:Ez.
  - rewrite <- (a_done0 eq_refl), <- a_items0. by eexists.
  - specialize (a_open0 eq_refl). destruct z as [ys []]; try done. destruct (fed_prefix _ _ _ a_open0) as [ys' E].
    cbn [fst] in a_items0. rewrite E, <- a_items0, <- app_assoc. by eexists.
Qed.

(** The last signal. *)
Lemma fin_gone s z : active s z -> ended z.2 = true -> buf_ (term_ p s) = [] ->
  exists s', fin p s = Value tt s' /\ gone s'.
Proof.
  intros Ha Hz Hb. pose proof Ha as []. eexists. split; [reflexivity|]. pose proof (a_done0 Hz) as ->.
  assert (item (match err_ (term_ p s) with None => s_complete | Some e => s_error e end) = @nil C) as Ei by by destruct (err_ _).
  rewrite Hb, app_nil_r in a_items0.
  split; cbn [out_ trace requested set_out send]; rewrite ?items_snoc, ?Ei, ?app_nil_r.
  - done.
  - exists []. by rewrite app_nil_r, a_items0.
  - lia.
  - eexists. split; [by rewrite <- a_trace0|]. right. right. split; [done|]. by rewrite a_err0.
Qed.

Lemma dispose_gone b s z : active s z -> exists s', do_dispose p b s = Value tt s' /\ gone s'.
Proof.
  intros Ha. destruct (active_prefix s z Ha) as [ys' E]. destruct Ha. unfold do_dispose. rewrite run_gets, a_out0. cbn [negb].
  rewrite run_modify. destruct b; eexists; (split; [reflexivity|]);
    split; cbn [out_ trace requested set_out send set_term err_ term_]; rewrite ?items_snoc; cbn [item]; rewrite ?app_nil_r; try lia; try done.
  - by exists ys'.
  - eexists. split; [by rewrite <- a_trace0|]. by right; left.
  - by exists ys'.
  - exists []. rewrite app_nil_r. split; [done|]. by left.
Qed.

Lemma request_active n s z : active s z ->
  exists s', request p n s = Value tt s' /\ active s' z /\ running_ p s' = true /\ gen_ p s' = gen_ p s /\ term_ p s' = term_ p s
    /\ items (trace p s') = items (trace p s).
Proof.
  intros []. unfold request. rewrite run_gets, a_out0. eexists. split; [reflexivity|]. split_and!; try done.
  pose proof (add_size_le (demand_ p s) n). pose proof (add_size_exact (demand_ p s) n).
  split; try done; cbn [trace demand_ requested note_requested set_demand set_running]; lia.
Qed.

(** How much [do_run] has left to do. *)
Definition todo (s : sub) : nat :=
  if out_ p s then
    (length result.1 - length (items (trace p s)) + length (gen_ p s) + (if completed_ (term_ p s) then 0 else 1) + 1)%nat
  else 0%nat.

Lemma items_bound s z : active s z -> (length (items (trace p s)) + length (buf_ (term_ p s)) <= length result.1)%nat.
Proof.
  intros []. assert (exists ys', result.1 = z.1 ++ ys') as [ys' E].
  { destruct (ended z.2) eqn:Ez; [exists []; by rewrite app_nil_r, (a_done0 eq_refl)|].
    specialize (a_open0 eq_refl). destruct z as [ys []]; try done. by apply fed_prefix in a_open0. }
  rewrite E, <- a_items0, !length_app. lia.
Qed.

(** Taking an item out of the buffer and passing it to the observer. *)
Lemma emit_item s z x buf : active s z -> buf_ (term_ p s) = x :: buf -> (0 < demand_ p s)%nat ->
  let s1 := set_term p (mk_terminal buf (completed_ (term_ p s)) (err_ (term_ p s))) (set_demand p (demand_ p s - 1) s) in
  exists s', on_next_out p react x s1 = Value tt s' /\ (active s' z \/ gone s') /\ (todo s' < todo s)%nat.
Proof.
  intros Ha Hb Hd s1. pose proof (items_bound _ _ Ha) as Hl. rewrite Hb in Hl. cbn [length] in Hl. pose proof Ha as [].
  assert (active (send p (s_next x) s1) z) as H1.
  { split; cbn [out_ trace demand_ term_ gen_ steps_ requested buf_ completed_ err_ send set_term set_demand s1]; try done.
    - rewrite items_snoc, <- app_assoc. cbn [item app]. by rewrite <- Hb.
    - rewrite items_snoc, map_app, <- a_trace0. done.
    - rewrite items_snoc, length_app. cbn [item length]. lia.
    - rewrite items_snoc, length_app. cbn [item length]. lia. }
  unfold on_next_out. rewrite run_modify, run_gets. destruct (react _) as [more stop].
  destruct (request_active more _ _ H1) as (s2 & E2 & H2 & _ & Hg & Ht & Hi). rewrite (run_value _ _ _ _ _ E2).
  assert (todo s2 < todo s)%nat as Hm.
  { unfold todo. rewrite (a_out _ _ H2), a_out0, Hg, Ht, Hi. cbn [trace gen_ term_ send set_term set_demand s1 completed_].
    rewrite items_snoc, length_app. cbn [item length]. lia. }
  destruct stop; [|exists s2; by split_and!; [|left|]].
  destruct (dispose_gone false s2 z H2) as (s3 & E3 & H3). exists s3. split_and!; [done|by right|].
  unfold todo at 1. by rewrite (g_out _ H3); unfold todo in *; lia.
Qed.

(** Pulling from the generator. *)
Lemma pull_ok s ys : active s (ys, open) -> buf_ (term_ p s) = [] -> (0 < demand_ p s)%nat ->
  exists s' z, pull p (demand_ p s) s = Value tt s' /\ active s' z /\ (todo s' < todo s)%nat.
Proof.
  intros Ha Hb Hd. pose proof Ha as []. specialize (a_open0 eq_refl). cbn [ended snd error_of] in *.
  destruct (fed_more _ _ _ (demand_ p s) a_open0) as (ls1 & z & Hfeed & Hfed).
  unfold pull. rewrite run_gets. unfold from_container.
  pose proof (container_loop_feed m (demand_ p s) (gen_ p s) (steps_ p s, term_ p s)) as Hloop. rewrite Hfeed in Hloop.
  assert (term_ p s = @fresh C) as Et by (destruct (term_ p s); cbn in *; by subst).
  rewrite Hb, app_nil_r in a_items0. cbn [fst] in a_items0.
  (* The state after the steps have emitted [w]. *)
  assert (forall g ls (w : stream C), (ended w.2 = true -> (ys ++ w.1, w.2) = result) ->
    (ended w.2 = false -> fed g ls (ys ++ w.1, w.2)) -> (length g <= length (gen_ p s))%nat ->
    (ended w.2 = true \/ length g < length (gen_ p s))%nat ->
    let s' := mk_sub p (running_ p s) (demand_ p s) (out_ p s) g ls (emit w (@fresh C)) (trace p s) (requested p s) in
    active s' (ys ++ w.1, w.2) /\ (todo s' < todo s)%nat) as Hnext.
  { intros g ls w H1 H2 Hg Hg' s'. split.
    - split; try done; cbn [trace term_ gen_ s']; rewrite ?emit_fresh; cbn [buf_ completed_ err_]; try done; [by rewrite a_items0|lia].
    - unfold todo. cbn [out_ trace gen_ term_ s']. rewrite a_out0, emit_fresh, a_completed0. cbn [completed_].
      destruct (ended w.2); destruct Hg'; try done; lia. }
  rewrite Et in Hloop |- *. destruct (ended z.2) eqn:Ez; cbn [negb] in Hloop.
  - destruct Hloop as (v & E & Hv). rewrite E. cbn [mbind option_bind andb].
    eexists. exists (ys ++ z.1, z.2). split; [reflexivity|]. apply Hnext; [|by rewrite Ez|lia|by left].
    intros _. by eapply fed_ended.
  - rewrite Hloop. cbn [mbind option_bind andb]. destruct z as [zs []]; try done. cbn [fst snd] in *.
    assert (length (drop (demand_ p s) (gen_ p s)) <= length (gen_ p s))%nat as Hd1 by (rewrite length_drop; lia).
    case_bool_decide as Hnil.
    + rewrite Hnil in Hfed. destruct (fed_complete _ _ Hfed) as (ls2 & z2 & Hz2 & Hc & Hres). rewrite Hc. cbn [mbind option_bind].
      eexists. exists (ys ++ (zs ++ z2.1), z2.2). split; [reflexivity|]. rewrite emit_app.
      apply (Hnext _ ls2 (zs ++ z2.1, z2.2)); cbn [fst snd]; [|by rewrite Hz2|done|by left].
      intros _. by rewrite app_assoc.
    + eexists. exists (ys ++ zs, open). split; [reflexivity|]. apply (Hnext _ ls1 (zs, open)); cbn [fst snd ended]; [done|done|done|].
      right. rewrite length_drop. destruct (gen_ p s); [by rewrite drop_nil in Hnil|cbn [length]; lia].
Qed.

Lemma do_run_ok fuel : forall s, (exists z, active s z) \/ gone s -> (todo s < fuel)%nat ->
  exists s', do_run p react fuel s = Value tt s' /\ running_ p s' = false /\
    ((exists z, active s' z /\ demand_ p s' = 0%nat) \/ gone s').
Proof.
  induction fuel as [|fuel IH]; intros s Hs Hf; [lia|]. cbn [do_run]. rewrite run_gets. destruct Hs as [[z Ha]|Hg].
  2: { rewrite (g_out _ Hg). cbn [andb]. eexists. split; [reflexivity|]. split; [done|]. right. by destruct Hg. }
  rewrite (a_out _ _ Ha). cbn [andb]. pose proof (a_completed _ _ Ha) as Hc.
  destruct (Nat.ltb_spec 0 (demand_ p s)) as [Hd|Hd].
  - destruct (buf_ (term_ p s)) as [|x buf] eqn:Hb.
    + destruct (ended z.2) eqn:Ez; rewrite Hc; cbn [bool_decide decide andb negb].
      * destruct (fin_gone s z Ha Ez Hb) as (s1 & E1 & H1). rewrite andb_false_r, (run_value _ _ _ _ _ E1).
        eexists. split; [reflexivity|]. split; [done|]. right. by destruct H1.
      * rewrite bool_decide_true by done. cbn [andb]. destruct z as [ys []]; try done.
        destruct (pull_ok s ys Ha Hb Hd) as (s1 & z1 & E1 & H1 & Hm). rewrite (run_value _ _ _ _ _ E1).
        apply IH; [left; by exists z1|lia].
    + rewrite bool_decide_false by done. cbn [andb]. rewrite !run_modify.
      destruct (emit_item s z x buf Ha Hb Hd) as (s1 & E1 & H1 & Hm). rewrite (run_value _ _ _ _ _ E1).
      apply IH; [destruct H1 as [H1|H1]; [left; by exists z|by right]|lia].
  - destruct (bool_decide (buf_ (term_ p s) = []) && completed_ (term_ p s)) eqn:Ef.
    + apply andb_prop in Ef as [Hb%bool_decide_eq_true Ec]. rewrite Hc in Ec.
      destruct (fin_gone s z Ha Ec Hb) as (s1 & E1 & H1). rewrite (run_value _ _ _ _ _ E1).
      eexists. split; [reflexivity|]. split; [done|]. right. by destruct H1.
    + rewrite run_ret. eexists. split; [reflexivity|]. split; [done|]. left. exists z. split; [by destruct Ha|cbn; lia].
Qed.

(** ** Every run *)

Context (fuel : nat).

(** The observer requests items, the scheduled [do_run] runs, the observer
    cancels, or somebody else disposes of the subscription. *)
Inductive sub_step : sub -> sub -> Prop :=
| sub_request s n s' : out_ p s = true -> request p n s = Value tt s' -> sub_step s s'
| sub_run s s' : running_ p s = true -> do_run p react fuel s = Value tt s' -> sub_step s s'
| sub_dispose s b s' : do_dispose p b s = Value tt s' -> sub_step s s'.

Definition sub_ok (s : sub) : Prop :=
  (exists z, active s z /\ (running_ p s = false -> demand_ p s = 0%nat)) \/ gone s.

Lemma todo_bound s z : active s z -> (todo s <= length result.1 + length xs + 2)%nat.
Proof. intros []. unfold todo. rewrite a_out0. destruct (completed_ _); lia. Qed.

Lemma do_run_fuel s : (length result.1 + length xs + 3 <= fuel)%nat -> sub_ok s ->
  exists s', do_run p react fuel s = Value tt s' /\ running_ p s' = false /\
    ((exists z, active s' z /\ demand_ p s' = 0%nat) \/ gone s').
Proof.
  intros Hf [(z & Ha & _)|Hg].
  - apply do_run_ok; [left; by exists z|]. pose proof (todo_bound s z Ha). lia.
  - apply do_run_ok; [by right|]. unfold todo. rewrite (g_out _ Hg). lia.
Qed.

Lemma sub_step_ok s s' : (length result.1 + length xs + 3 <= fuel)%nat -> sub_ok s -> sub_step s s' -> sub_ok s'.
Proof.
  intros Hf Hs H. destruct H as [s n s' Ho E|s s' Hr E|s b s' E].
  - destruct Hs as [(z & Ha & _)|Hg]; [|by rewrite (g_out _ Hg) in Ho].
    destruct (request_active n s z Ha) as (s1 & E1 & H1 & Hr & _). rewrite E1 in E. injection E as <-.
    left. exists z. split; [done|congruence].
  - destruct (do_run_fuel s Hf Hs) as (s1 & E1 & Hr1 & H1). rewrite E1 in E. injection E as <-.
    destruct H1 as [(z & Ha & Hd)|Hg]; [left; by exists z|by right].
  - destruct Hs as [(z & Ha & _)|Hg].
    + destruct (dispose_gone b s z Ha) as (s1 & E1 & H1). rewrite E1 in E. injection E as <-. by right.
    + unfold do_dispose in E. rewrite run_gets, (g_out _ Hg) in E. injection E as <-. by right.
Qed.

Lemma subscribe_ok : sub_ok (subscribe p xs).
Proof.
  left. exists ([], open). split; [|done]. split; try done. intros _. apply fed_start.
Qed.

End Correctness.

(** C20. An observable from a container delivers what its steps make of the
    values, for every chain of valid steps (no [skip_last(0)] and the like).
    Whatever the observer requests, also from within [on_next], and
    whenever it cancels or is disposed of: it gets a prefix of the result, never
    more than it requested, at most one last signal and nothing behind it, and
    [on_complete] or [on_error] of the result only behind all items; when the
    operator rests and the demand sums up to less than 2^64 (the counter is a
    [size_t] and wraps around), the observer has got exactly what it requested (or
    everything); and a scheduled run always returns. *)
Theorem generator_delivers {A C} (p : pipeline A C) react xs fuel s :
  valid_pipeline p = true ->
  (length (denote_all p (xs, completed)).1 + length xs + 3 <= fuel)%nat ->
  rtc (sub_step p react fuel) (subscribe p xs) s ->
  let (ys, fin) := denote_all p (xs, completed) in
  (exists tail, trace p s = map s_next (items (trace p s)) ++ tail /\
     (tail = [] \/ tail = [s_error sec_disposed] \/
      items (trace p s) = ys /\ tail = [match error_of fin with None => s_complete | Some e => s_error e end])) /\
  items (trace p s) `prefix_of` ys /\ (length (items (trace p s)) <= requested p s)%nat /\
  (out_ p s = true -> running_ p s = false -> Z.of_nat (requested p s) < 2 ^ 64 ->
   items (trace p s) = take (requested p s) ys) /\
  (running_ p s = true -> exists s', do_run p react fuel s = Value tt s').
Proof.
  intros Hp Hf H. assert (sub_ok p xs s) as Hs.
  { revert H. generalize (subscribe_ok p xs). generalize (subscribe p xs) as s0. intros s0 H0 H.
    induction H as [|s1 s2 s3 H12 _ IH]; [done|]. by eapply IH, sub_step_ok. }
  pose proof (fun Hr : running_ p s = true => do_run_fuel p Hp react xs fuel s Hf Hs) as Hrun.
  fold (result p xs). destruct (result p xs) as [ys fin] eqn:Eres. destruct Hs as [(z & Ha & Hd)|Hg].
  - destruct (active_prefix p Hp xs s z Ha) as [ys' E]. rewrite Eres in E. cbn [fst] in E. pose proof Ha as []. split_and!.
    + exists []. rewrite app_nil_r. split; [done|by left].
    + by exists ys'.
    + lia.
    + intros _ Hr Hlt. specialize (Hd Hr). rewrite E, <- (a_exact0 Hlt), Hd, Nat.add_0_r. by rewrite take_app_length.
    + intros Hr. destruct (Hrun Hr) as (s' & E' & _). by exists s'.
  - pose proof Hg as []. rewrite Eres in *. destruct g_prefix0 as [ys' E]. split_and!; [done|by exists ys'|done|congruence|].
    intros Hr. destruct (Hrun Hr) as (s' & E' & _). by exists s'.
Qed.

(** An observer that asks for two items at first and cancels after three. *)
Definition demo_react (tr : list (signal Z)) : nat * bool := (1%nat, (3 <=? length tr)%nat).

Definition demo_values : list Z := [1; 2; 3; 4; 5; 6].

Definition demo_requested : sub demo_pipeline :=
  match request demo_pipeline 2 (subscribe demo_pipeline demo_values) with
  | Value _ s | Raised _ s => s | Stuck => subscribe demo_pipeline [] end.

Definition demo_delivered : sub demo_pipeline :=
  match do_run demo_pipeline demo_react 20 demo_requested with
  | Value _ s | Raised _ s => s | Stuck => subscribe demo_pipeline [] end.

Lemma generator_delivers_witness :
  rtc (sub_step demo_pipeline demo_react 20) (subscribe demo_pipeline demo_values) demo_delivered /\
  trace _ demo_delivered = [s_next 35; s_complete] /\
  items (trace _ demo_delivered) `prefix_of` [35] /\
  (length (items (trace _ demo_delivered)) <= requested _ demo_delivered)%nat.
Proof.
  assert (rtc (sub_step demo_pipeline demo_react 20) (subscribe demo_pipeline demo_values) demo_delivered) as H.
  { apply (rtc_l _ _ demo_requested); [apply (sub_request _ _ _ _ 2); vm_compute; reflexivity|].
    apply (rtc_l _ _ demo_delivered); [apply sub_run; vm_compute; reflexivity|apply rtc_refl]. }
  assert (valid_pipeline demo_pipeline = true) as Hv by reflexivity.
  assert ((length (denote_all demo_pipeline (demo_values, completed)).1 + length demo_values + 3 <= 20)%nat) as Hf
    by (vm_compute; lia).
  split; [exact H|split; [vm_compute; reflexivity|]].
  pose proof (generator_delivers demo_pipeline demo_react demo_values 20 demo_delivered Hv Hf H) as (_ & H1 & H2 & _).
  split; [exact H1|exact H2].
Defined.

(** ** What the other generators feed *)

Section Feeding.

Context {T : Type}.

Lemma iota_feeds w (m : machine T Z) n v s : 
  snd <$> iota w m n v s = snd <$> feed m (map (fun i => Nat.iter i (fun x => uwrap w (x + 1)) v) (seq 0 n)) s.
Proof.
  revert v s. induction n as [|n IH]; intros v s; [done|]. cbn [iota seq map feed].
  change (Nat.iter 0 (fun x => uwrap w (x + 1)) v) with v.
  destruct (on_next m v s) as [[[] s']|]; cbn [mbind option_bind]; [|reflexivity|reflexivity].
  rewrite IH, <- seq_shift, map_map. do 2 f_equal. apply map_ext. intros i. by rewrite Nat.iter_succ_r.
Qed.

Lemma repeat_feeds {A} (m : machine T A) n v s :
  snd <$> repeat m n v s = snd <$> feed m (replicate n v) s.
Proof.
  revert s. induction n as [|n IH]; intros s; [done|]. cbn [repeat replicate feed].
  destruct (on_next m v s) as [[[] s']|]; cbn [mbind option_bind]; [apply IH|reflexivity|reflexivity].
Qed.

Lemma just_runs {A} (m : machine T A) n v s : snd <$> just m n v s = run m ([v], completed) s.
Proof.
  unfold just, run. cbn [fst snd feed]. destruct (on_next m v s) as [[[] s']|]; cbn [mbind option_bind]; [|reflexivity|reflexivity].
  cbn [finish]. by destruct (on_complete m s').
Qed.

End Feeding.

End FlowGenerator.
