(* ===== verification/FlowFromSteps.v ===== *)
(** * Transforming observables (libcaf_core/caf/flow/op/from_steps.hpp)

    The operator behind [map], [filter] and the other transformations: it
    passes the items of a source through a chain of steps into a buffer, and
    keeps a bounded number of items on their way.  The observer may request
    more items and cancel from within [on_next]; the source answers requests
    later, as the operators of the library do. *)

From stdpp Require Import prelude.
From S2P Require Import Prelude Effects FlowSteps FlowUniform FlowGenerator.

Module FlowFromSteps.

Import Effects FlowSteps FlowUniform.
Import FlowGenerator(signal, s_next, s_complete, s_error, item, items, items_snoc, items_next, sec_disposed).

Section Operator.

Context {A C : Type} (p : pipeline A C).

#[local] Abbreviation m := (build p (terminal_machine C)).

(** What the observer does within [on_next]: it requests more items, and it may
    cancel. *)
Context (react : list (signal C) -> nat * bool).

(** [in_] and [out_] tell whether there is a subscription and an observer.
    [term_] holds [buf_] and [err_]; its flag, like [source] (the signals taken
    from the source) and [requested], is for the specification.  [scheduled]
    counts the delayed calls of [do_run]. *)
Record sub := mk_sub {
  in_ : bool;
  out_ : bool;
  steps_ : locals m;
  term_ : terminal C;
  demand_ : nat;
  in_flight_ : nat;
  max_buf_size_ : nat;
  running_ : bool;
  scheduled : nat;
  trace : list (signal C);
  source : stream A;
  requested : nat;
}.

Definition set_in (x : bool) (s : sub) : sub :=
  mk_sub x (out_ s) (steps_ s) (term_ s) (demand_ s) (in_flight_ s) (max_buf_size_ s) (running_ s) (scheduled s) (trace s) (source s) (requested s).
Definition set_out (x : bool) (s : sub) : sub :=
  mk_sub (in_ s) x (steps_ s) (term_ s) (demand_ s) (in_flight_ s) (max_buf_size_ s) (running_ s) (scheduled s) (trace s) (source s) (requested s).
Definition set_pipe (ls : locals m) (t : terminal C) (s : sub) : sub :=
  mk_sub (in_ s) (out_ s) ls t (demand_ s) (in_flight_ s) (max_buf_size_ s) (running_ s) (scheduled s) (trace s) (source s) (requested s).
Definition set_demand (x : nat) (s : sub) : sub :=
  mk_sub (in_ s) (out_ s) (steps_ s) (term_ s) x (in_flight_ s) (max_buf_size_ s) (running_ s) (scheduled s) (trace s) (source s) (requested s).
Definition set_in_flight (x : nat) (s : sub) : sub :=
  mk_sub (in_ s) (out_ s) (steps_ s) (term_ s) (demand_ s) x (max_buf_size_ s) (running_ s) (scheduled s) (trace s) (source s) (requested s).
Definition set_running (x : bool) (s : sub) : sub :=
  mk_sub (in_ s) (out_ s) (steps_ s) (term_ s) (demand_ s) (in_flight_ s) (max_buf_size_ s) x (scheduled s) (trace s) (source s) (requested s).
Definition set_scheduled (x : nat) (s : sub) : sub :=
  mk_sub (in_ s) (out_ s) (steps_ s) (term_ s) (demand_ s) (in_flight_ s) (max_buf_size_ s) (running_ s) x (trace s) (source s) (requested s).
Definition send (x : signal C) (s : sub) : sub :=
  mk_sub (in_ s) (out_ s) (steps_ s) (term_ s) (demand_ s) (in_flight_ s) (max_buf_size_ s) (running_ s) (scheduled s) (trace s ++ [x]) (source s) (requested s).
Definition note_source (z : stream A) (s : sub) : sub :=
  mk_sub (in_ s) (out_ s) (steps_ s) (term_ s) (demand_ s) (in_flight_ s) (max_buf_size_ s) (running_ s) (scheduled s) (trace s) z (requested s).
Definition note_requested (n : nat) (s : sub) : sub :=
  mk_sub (in_ s) (out_ s) (steps_ s) (term_ s) (demand_ s) (in_flight_ s) (max_buf_size_ s) (running_ s) (scheduled s) (trace s) (source s) (requested s + n).

Definition buf (s : sub) : list C := buf_ (term_ s).

#[local] Abbreviation comp := (comp sub).

Definition run_later : comp unit :=
  modify (fun s => if running_ s then s else set_scheduled (S (scheduled s)) s).

Definition request (n : nat) : comp unit :=
  modify (note_requested n);;
  d ← gets demand_;
  if negb (d =? 0)%nat then modify (set_demand (d + n))
  else modify (set_demand n);; run_later.

(** [pull]: asks the source for as many items as there is room for. *)
Definition pull : comp unit :=
  modify (fun s =>
    let pending := (length (buf s) + in_flight_ s)%nat in
    if in_ s && (pending <? max_buf_size_ s)%nat
    then set_in_flight (in_flight_ s + (max_buf_size_ s - pending)) s else s).

Definition do_dispose (from_external : bool) : comp unit :=
  s ← gets (fun s => s);
  if negb (out_ s) then mret tt else
  modify (set_in false);;
  modify (set_demand 0);;
  modify (fun s => set_pipe (steps_ s) (mk_terminal [] (completed_ (term_ s)) (err_ (term_ s))) s);;
  (if from_external then modify (send (s_error sec_disposed)) else mret tt);;
  modify (set_out false).

(** [out_.on_next]: the observer reacts. *)
Definition on_next_out (x : C) : comp unit :=
  modify (send (s_next x));;
  tr ← gets trace;
  let (more, stop) := react tr in
  request more;;
  if (stop : bool) then do_dispose false else mret tt.

(** The loop of [do_run], at most one round per buffered item.  Tells whether
    there is still an observer. *)
Fixpoint drain (fuel : nat) : comp bool :=
  s ← gets (fun s => s);
  match fuel, buf s with
  | S fuel', x :: rest =>
      if (0 <? demand_ s)%nat then
        modify (set_pipe (steps_ s) (mk_terminal rest (completed_ (term_ s)) (err_ (term_ s))));;
        modify (set_demand (demand_ s - 1));;
        on_next_out x;;
        ok ← gets out_;
        if (ok : bool) then drain fuel' else mret false
      else mret true
  | _, _ => mret true
  end.

(** The part of [do_run] behind the guard that resets [running_]. *)
Definition run_body : comp unit :=
  s ← gets (fun s => s);
  if negb (out_ s) then mret tt else
  ok ← drain (length (buf s));
  if negb ok then mret tt else
  s ← gets (fun s => s);
  if in_ s then pull
  else if bool_decide (buf s = []) && out_ s then
    modify (fun s => set_out false (send (match err_ (term_ s) with None => s_complete | Some e => s_error e end) s))
  else mret tt.

Definition do_run : comp unit :=
  modify (set_running true);; run_body;; modify (set_running false).

Definition run_now : comp unit :=
  r ← gets running_; if (r : bool) then mret tt else do_run.

(** Signals of the source. *)
Definition on_next (x : A) : comp unit :=
  s ← gets (fun s => s);
  if negb (in_ s) then mret tt
  else if (in_flight_ s =? 0)%nat then stuck
  else
    modify (set_in_flight (in_flight_ s - 1));;
    modify (note_source ((source s).1 ++ [x], open));;
    match FlowSteps.on_next m x (steps_ s, term_ s) with
    | None => stuck
    | Some (b, (ls, t)) =>
        modify (set_pipe ls t);;
        (if (b : bool) then pull else modify (set_in false));;
        run_now
    end.

Definition on_end (fin : ending) : comp unit :=
  s ← gets (fun s => s);
  if negb (in_ s) then mret tt else
  modify (set_in false);;
  modify (note_source ((source s).1, fin));;
  match finish m fin (steps_ s, term_ s) with
  | None => stuck
  | Some (ls, t) => modify (set_pipe ls t);; run_now
  end.

Definition on_complete : comp unit := on_end completed.
Definition on_error (e : error) : comp unit := on_end (failed e).

Definition on_subscribe : comp unit :=
  i ← gets in_;
  if negb i then modify (set_in true);; pull else mret tt.

(** A new subscription, to which the source subscribes. *)
Definition make (max : nat) : sub :=
  mk_sub false true (start p (terminal_machine C) tt) fresh 0 0 max false 0 [] ([], open) 0.

End Operator.

(** ** Correctness *)

Section Correctness.

Context {A C : Type} (p : pipeline A C) (Hp : valid_pipeline p = true).
Context (react : list (signal C) -> nat * bool).

#[local] Abbreviation m := (build p (terminal_machine C)).
#[local] Abbreviation sub := (sub p).

(** What the steps make of the signals of the source. *)
Definition result (s : sub) : stream C := denote_all p (source p s).

(** While there is an observer. *)
Record active (s : sub) : Prop := {
  a_out : out_ p s = true;
  a_items : items (trace p s) ++ buf p s = (result s).1;
  a_completed : completed_ (term_ p s) = ended (result s).2;
  a_err : err_ (term_ p s) = error_of (result s).2;
  a_in : in_ p s = negb (ended (result s).2);
  a_source : in_ p s = true -> (source p s).2 = open /\ reaches p (source p s).1 (steps_ p s) (result s).1;
  a_trace : trace p s = map s_next (items (trace p s));
  a_demand : (length (items (trace p s)) + demand_ p s)%nat = requested p s;
}.

(** When the observer is gone: it has cancelled or got the last signal. *)
Record gone (s : sub) : Prop := {
  g_out : out_ p s = false;
  g_in : in_ p s = false;
  g_prefix : items (trace p s) `prefix_of` (result s).1;
  g_demand : (length (items (trace p s)) <= requested p s)%nat;
  g_trace : exists tail, trace p s = map s_next (items (trace p s)) ++ tail /\
    (tail = [] \/ tail = [s_error sec_disposed] \/
     items (trace p s) = (result s).1 /\ ended (result s).2 = true /\
     tail = [match error_of (result s).2 with None => s_complete | Some e => s_error e end]);
}.

(** The source has been asked for all items there is room for. *)
Definition asked (s : sub) : Prop := in_ p s = true -> (max_buf_size_ p s <= length (buf p s) + in_flight_ p s)%nat.

(** Nothing can be passed on. *)
Definition drained (s : sub) : Prop := demand_ p s = 0%nat \/ buf p s = [].

Ltac fields := cbn [in_ out_ steps_ term_ demand_ in_flight_ max_buf_size_ running_ scheduled trace source requested
  set_in set_out set_pipe set_demand set_in_flight set_running set_scheduled send note_source note_requested
  buf_ completed_ err_].

Lemma request_ok n s : active s ->
  exists s', request p n s = Value tt s' /\ active s' /\ (asked s -> asked s') /\
    term_ p s' = term_ p s /\ trace p s' = trace p s /\ running_ p s' = running_ p s /\ source p s' = source p s /\
    (running_ p s = true -> scheduled p s' = scheduled p s) /\
    (running_ p s = false -> scheduled p s' = 0%nat -> scheduled p s = 0%nat /\ (demand_ p s <> 0 \/ n = 0)%nat).
Proof.
  intros []. unfold request, run_later. rewrite run_modify, run_gets. fields.
  destruct (Nat.eqb_spec (demand_ p s) 0) as [E|E]; cbn [negb].
  - rewrite run_modify. unfold modify. eexists. split; [reflexivity|]. fields.
    destruct (running_ p s) eqn:Er; (split; [split; try done; fields; lia|]); split_and!; try done; congruence.
  - eexists. split; [reflexivity|]. split; [split; try done; fields; lia|]. split_and!; try done.
    intros _ Hs. split; [done|by left].
Qed.

Lemma dispose_ok b s : active s ->
  exists s', do_dispose p b s = Value tt s' /\ gone s' /\ running_ p s' = running_ p s /\ scheduled p s' = scheduled p s.
Proof.
  intros []. unfold do_dispose. rewrite run_gets, a_out0. cbn [negb]. rewrite !run_modify.
  assert (items (trace p s) `prefix_of` (result s).1) as Hpre by (rewrite <- a_items0; by eexists).
  destruct b; [rewrite run_modify|rewrite run_ret]; (eexists; split; [reflexivity|]; split; [|done]);
    split; try done; fields; rewrite ?items_snoc, ?app_nil_r; try done; try lia.
  - exists [s_error sec_disposed]. split; [by rewrite <- a_trace0|]. by right; left.
  - exists []. rewrite app_nil_r. split; [done|by left].
Qed.

(** Passing one item to the observer. *)
Lemma emit_ok s x rest : active s -> buf p s = x :: rest -> (0 < demand_ p s)%nat -> running_ p s = true ->
  let s1 := set_demand p (demand_ p s - 1) (set_pipe p (steps_ p s) (mk_terminal rest (completed_ (term_ p s)) (err_ (term_ p s))) s) in
  exists s', on_next_out p react x s1 = Value tt s' /\ running_ p s' = true /\ scheduled p s' = scheduled p s /\
    (active s' /\ buf p s' = rest \/ gone s').
Proof.
  intros Ha Hb Hd Hr s1. pose proof Ha as [].
  assert (active (send p (s_next x) s1)) as H1.
  { subst s1. split; try done; fields; rewrite ?items_snoc.
    - rewrite <- app_assoc. change (items (trace p s) ++ x :: rest = (result s).1). by rewrite <- Hb.
    - by rewrite map_app, <- a_trace0.
    - rewrite length_app. cbn [item length]. lia. }
  unfold on_next_out. rewrite run_modify, run_gets. destruct (react _) as [more stop].
  destruct (request_ok more _ H1) as (s2 & E2 & H2 & _ & Ht & _ & Hr2 & _ & Hs & _). rewrite (run_value _ _ _ _ _ E2).
  destruct stop.
  - destruct (dispose_ok false s2 H2) as (s3 & E3 & H3 & Hr3 & Hs3). exists s3. split_and!; [done| | |by right].
    + rewrite Hr3, Hr2. exact Hr.
    + rewrite Hs3. by apply Hs.
  - exists s2. split_and!; [done|rewrite Hr2; exact Hr|by apply Hs|left]. split; [done|]. unfold buf. by rewrite Ht.
Qed.

Lemma drain_ok fuel : forall s, active s -> (length (buf p s) <= fuel)%nat -> running_ p s = true ->
  exists b s', drain p react fuel s = Value b s' /\ running_ p s' = true /\ scheduled p s' = scheduled p s /\
    (b = true /\ active s' /\ drained s' \/ b = false /\ gone s').
Proof.
  induction fuel as [|fuel IH]; intros s Ha Hf Hr; cbn [drain]; rewrite run_gets.
  { exists true, s. split_and!; try done. left. split_and!; try done. right. by destruct (buf p s); [|cbn in Hf; lia]. }
  destruct (buf p s) as [|x rest] eqn:Hb; [exists true, s; split_and!; try done; left; by split_and!; [| |right]|].
  destruct (Nat.ltb_spec 0 (demand_ p s)) as [Hd|Hd].
  2: { exists true, s. split_and!; try done. left. split_and!; [done..|]. left. lia. }
  rewrite !run_modify. destruct (emit_ok s x rest Ha Hb Hd Hr) as (s1 & E1 & Hr1 & Hs1 & H1). rewrite (run_value _ _ _ _ _ E1), run_gets.
  destruct H1 as [[H1 Hb1]|H1].
  - rewrite (a_out _ H1). destruct (IH s1 H1) as (b & s2 & E2 & Hr2 & Hs2 & H2); [rewrite Hb1; cbn in Hf; lia|done|].
    exists b, s2. rewrite E2, Hs2. by split_and!.
  - rewrite (g_out _ H1). exists false, s1. split_and!; try done. by right.
Qed.

(** After [do_run]: everything that was requested and is there was passed on,
    and the source was asked for more, or the last signal was sent. *)
Definition settled (s : sub) : Prop :=
  running_ p s = false /\
  ((active s /\ asked s /\ drained s /\ (in_ p s = false -> buf p s <> [])) \/ gone s).

Lemma steps_run_ok s : (active s \/ gone s) -> exists s', do_run p react s = Value tt s' /\ settled s' /\ scheduled p s' = scheduled p s.
Proof.
  intros Hs. unfold do_run. rewrite run_modify. set (s0 := set_running p true s).
  enough (exists s1, run_body p react s0 = Value tt s1 /\ scheduled p s1 = scheduled p s /\
    ((active s1 /\ asked s1 /\ drained s1 /\ (in_ p s1 = false -> buf p s1 <> [])) \/ gone s1)) as (s1 & E & Hsch & H1).
  { rewrite (run_value _ _ _ _ _ E). eexists. split; [reflexivity|]. split; [|done]. split; [done|].
    destruct H1 as [(Ha & H1)|Hg]; [left|right; by destruct Hg]. split; [by destruct Ha|done]. }
  unfold run_body. rewrite run_gets. destruct Hs as [Ha|Hg].
  2: { change (out_ p s0) with (out_ p s). rewrite (g_out _ Hg). exists s0. split_and!; try done. right. by destruct Hg. }
  assert (active s0) as Ha0 by by destruct Ha. rewrite (a_out _ Ha0). cbn [negb].
  destruct (drain_ok (length (buf p s0)) s0 Ha0 (le_n _) eq_refl) as (b & s1 & E1 & Hr1 & Hs1 & H1).
  rewrite (run_value _ _ _ _ _ E1). change (scheduled p s0) with (scheduled p s) in Hs1.
  destruct H1 as [(-> & H1 & Hd)|[-> H1]]; cbn [negb]; [|exists s1; by split_and!; [| |right]].
  rewrite run_gets. destruct (in_ p s1) eqn:Ein.
  - unfold pull, modify. eexists. split; [reflexivity|]. rewrite Ein. cbn [andb].
    destruct (Nat.ltb_spec (length (buf p s1) + in_flight_ p s1) (max_buf_size_ p s1)) as [Hl|Hl]; (split; [done|]); left.
    + split_and!; [by destruct H1| |done|by fields; congruence]. intros _. unfold buf in *. fields. lia.
    + split_and!; [done|by intros _|done|congruence].
  - rewrite (a_out _ H1), andb_true_r. case_bool_decide as Hb.
    2: { exists s1. split_and!; try done. left. split_and!; try done. by intros ?; congruence. }
    eexists. split; [reflexivity|]. split; [done|]. right. pose proof H1 as [].
    assert (item (match err_ (term_ p s1) with None => s_complete | Some e => s_error e end) = @nil C) as Ei by by destruct (err_ _).
    rewrite Hb, app_nil_r in a_items0.
    split; try done; fields; rewrite ?items_snoc, ?Ei, ?app_nil_r; try lia.
    + change (result _) with (result s1). by rewrite a_items0.
    + eexists. split; [by rewrite <- a_trace0|]. right. right. change (result _) with (result s1).
      rewrite a_in0 in Ein. split_and!; [done|by destruct (ended _)|by rewrite a_err0].
Qed.

(** ** Every run *)

(** The observer requests items, a scheduled call runs, the subscription is
    cancelled or disposed of, and the source sends items and an end. *)
Inductive event := ev_request (n : nat) | ev_run | ev_dispose (from_external : bool) | ev_next (x : A) | ev_complete | ev_error (e : error).

Definition handle (e : event) : comp sub unit :=
  match e with
  | ev_request n => request p n
  | ev_run => modify (fun s => set_scheduled p (scheduled p s - 1) s);; do_run p react
  | ev_dispose b => do_dispose p b
  | ev_next x => on_next p react x
  | ev_complete => on_complete p react
  | ev_error e => on_error p react e
  end.

(** A source sends no more items than it was asked for; an observer that is
    gone requests nothing. *)
Definition allowed (e : event) (s : sub) : bool :=
  match e with
  | ev_request _ => out_ p s
  | ev_run => (0 <? scheduled p s)%nat
  | ev_next _ => negb (in_ p s) || (0 <? in_flight_ p s)%nat
  | _ => true
  end.

Definition ok (s : sub) : Prop :=
  running_ p s = false /\
  ((active s /\ asked s /\ (in_ p s = false -> buf p s <> []) /\ (scheduled p s = 0%nat -> drained s)) \/ gone s).

Lemma settled_ok s : settled s -> ok s.
Proof. intros [Hr [(Ha & Hk & Hd & Hi)|Hg]]; split; try done; [left|by right]. by split_and!. Qed.

(** The steps take a signal of the source and [do_run] runs. *)
Lemma run_now_ok s : running_ p s = false -> active s -> exists s', run_now p react s = Value tt s' /\ ok s'.
Proof.
  intros Hr Ha. unfold run_now. rewrite run_gets, Hr. destruct (steps_run_ok s (or_introl Ha)) as (s' & E & Hs & _).
  exists s'. split; [done|by apply settled_ok].
Qed.

Lemma pull_active s : active s -> exists s', pull p s = Value tt s' /\ active s' /\ running_ p s' = running_ p s.
Proof.
  intros Ha. unfold pull, modify. eexists. split; [reflexivity|]. destruct (in_ p s && _); [|done]. split; [by destruct Ha|done].
Qed.

Lemma on_next_ok s x : ok s -> allowed (ev_next x) s = true -> exists s', on_next p react x s = Value tt s' /\ ok s'.
Proof.
  intros Hs Hal. unfold on_next. rewrite run_gets. destruct (in_ p s) eqn:Ein; cbn [negb]; [|by exists s].
  cbn [allowed] in Hal. rewrite Ein in Hal. cbn [negb orb] in Hal. apply Nat.ltb_lt in Hal.
  rewrite (proj2 (Nat.eqb_neq _ 0)) by lia. rewrite !run_modify.
  destruct Hs as [Hr [(Ha & _)|Hg]]; [|by rewrite (g_in _ Hg) in Ein]. pose proof Ha as [].
  destruct (a_source0 Ein) as [Hopen Hreach]. destruct (reaches_next p Hp _ _ _ x Hreach) as (ls & z & Hz & Hden & Hnext).
  rewrite Hz, run_modify. set (s1 := set_pipe p ls (emit z (term_ p s)) _).
  assert (Hend : ended (result s).2 = false) by (rewrite a_in0 in Ein; by destruct (ended (result s).2)).
  assert (Hres : result s1 = ((result s).1 ++ z.1, z.2)) by exact Hden.
  assert (Hact : forall i, i = negb (ended z.2) -> active (set_in p i s1)).
  { intros i ->. split; try done; change (result (set_in p _ s1)) with (result s1); rewrite ?Hres; fields; cbn [fst snd].
    - subst s1. unfold buf in *. fields. rewrite <- a_items0, <- app_assoc. done.
    - subst s1. fields. cbn. by rewrite a_completed0, Hend.
    - subst s1. fields. cbn. rewrite a_err0. destruct (result s) as [ws []]; try done; by destruct z as [zs []].
    - done.
    - intros Hi. split; [done|]. apply Hnext. by destruct (ended z.2). }
  destruct (ended z.2) eqn:Ez; cbn [negb].
  - rewrite run_modify. apply run_now_ok; [done|]. by apply Hact.
  - assert (active s1) as H1.
    { replace s1 with (set_in p true s1); [by apply Hact|]. subst s1. unfold set_in, set_pipe, note_source, set_in_flight. fields. by rewrite Ein. }
    destruct (pull_active s1 H1) as (s2 & E2 & H2 & Hr2). rewrite (run_value _ _ _ _ _ E2). apply run_now_ok; [by rewrite Hr2|done].
Qed.

Lemma on_end_ok s fin : ok s -> ended fin = true -> exists s', on_end p react fin s = Value tt s' /\ ok s'.
Proof.
  intros Hs Hfin. unfold on_end. rewrite run_gets. destruct (in_ p s) eqn:Ein; cbn [negb]; [|by exists s].
  rewrite !run_modify. destruct Hs as [Hr [(Ha & _)|Hg]]; [|by rewrite (g_in _ Hg) in Ein]. pose proof Ha as [].
  destruct (a_source0 Ein) as [Hopen Hreach]. destruct (reaches_end p Hp _ _ _ fin Hreach Hfin) as (ls & z & Hz & Hf & Hden).
  rewrite Hf, run_modify. set (s1 := set_pipe p ls (emit z (term_ p s)) _).
  assert (Hend : ended (result s).2 = false) by (rewrite a_in0 in Ein; by destruct (ended (result s).2)).
  assert (Hres : result s1 = ((result s).1 ++ z.1, z.2)) by exact Hden.
  apply run_now_ok; [done|]. split; try done; rewrite ?Hres; cbn [fst snd].
  - subst s1. unfold buf in *. fields. rewrite <- a_items0, <- app_assoc. done.
  - subst s1. fields. cbn. by rewrite a_completed0, Hend.
  - subst s1. fields. cbn. rewrite a_err0. destruct (result s) as [ws []]; try done; by destruct z as [zs []].
  - by rewrite Hz.
Qed.

Lemma handle_ok e s : ok s -> allowed e s = true -> exists s', handle e s = Value tt s' /\ ok s'.
Proof.
  intros Hs Hal. destruct e as [n| |b|x| |e]; cbn [handle].
  - destruct Hs as [Hr [(Ha & Hk & Hi & Hd)|Hg]]; [|cbn in Hal; by rewrite (g_out _ Hg) in Hal].
    destruct (request_ok n s Ha) as (s' & E & Ha' & Hk' & Ht & _ & Hr' & Hso & _ & Hsch). exists s'. split; [done|].
    split; [congruence|]. left.
    assert (buf p s' = buf p s) as Hb by (unfold buf; by rewrite Ht).
    assert (in_ p s' = in_ p s) as Hin by (rewrite (a_in _ Ha'), (a_in _ Ha); unfold result; by rewrite Hso).
    split_and!; [done|by apply Hk'|by rewrite Hin, Hb|]. intros H0. destruct (Hsch Hr H0) as [H1 H2].
    destruct (Hd H1) as [Hd0|Hd0]; [|right; by rewrite Hb].
    destruct H2 as [H2| ->]; [done|]. left. pose proof (a_demand _ Ha'). pose proof (a_demand _ Ha).
    unfold request in E. rewrite run_modify, run_gets in E. cbn [demand_ note_requested] in E. rewrite Hd0 in E.
    cbn [Nat.eqb negb] in E. rewrite run_modify in E. unfold run_later, modify in E. injection E as <-. by destruct (running_ _ _).
  - rewrite run_modify. destruct (steps_run_ok (set_scheduled p (scheduled p s - 1) s)) as (s' & E & Hset & _).
    + destruct Hs as [_ [(Ha & _)|Hg]]; [left; by destruct Ha|right; by destruct Hg].
    + exists s'. split; [done|by apply settled_ok].
  - destruct Hs as [Hr [(Ha & _)|Hg]].
    + destruct (dispose_ok b s Ha) as (s' & E & Hg & Hr' & _). exists s'. split; [done|]. split; [congruence|by right].
    + exists s. unfold do_dispose. rewrite run_gets, (g_out _ Hg). split; [done|]. split; [done|by right].
  - by apply on_next_ok.
  - by apply on_end_ok.
  - by apply on_end_ok.
Qed.

(** The observer has requested [n] items when the source subscribes. *)
Definition subscribed (n max : nat) : outcome sub unit := (request p n;; on_subscribe p) (make p max).

Definition op_step (s s' : sub) : Prop := exists e, allowed e s = true /\ handle e s = Value tt s'.

Lemma subscribed_ok n max s : subscribed n max = Value tt s -> ok s.
Proof.
  pose proof (reaches_denotes p Hp _ _ _ (reaches_nil p)) as Hnil.
  assert (Hden : denote_all p ([], open) = ([], open)) by exact Hnil.
  intros E. unfold subscribed in E. apply bind_value in E as ([] & s1 & E1 & E).
  assert (forall d k (f : nat), s = set_in_flight p f (set_in p true (set_scheduled p k (set_demand p d (note_requested p d (make p max))))) ->
    (max <= f)%nat -> ok s) as Hok.
  { intros d k f -> Hf. split; [done|]. left. split_and!; [|by intros _|done|by right].
    split; try done; unfold result; fields; cbn [source make]; rewrite ?Hden; try done.
    intros _. split; [done|]. apply reaches_nil. }
  unfold request, run_later in E1. rewrite run_modify, run_gets in E1. cbn in E1. injection E1 as <-.
  unfold on_subscribe in E. rewrite run_gets in E. cbn in E. unfold pull, modify in E. cbn in E.
  destruct max as [|max]; cbn in E; injection E as <-; eapply Hok; try reflexivity; cbn; lia.
Qed.

(** A transformed observable delivers what its steps make of the source.
    Whatever the observer requests, also from within [on_next], however its
    requests and the signals of the source interleave, and whenever it cancels
    or is disposed of: no event leads to undefined behaviour; the observer gets
    a prefix of what the steps make of the items so far, never more than it
    requested, at most one last signal, which comes as soon as the steps have
    ended and everything was delivered; when no call is scheduled it has got
    everything it requested that is there; and until the steps end, the source
    has been asked for all items there is room for, so that it never stalls. *)
Theorem from_steps_delivers n max s0 s :
  subscribed n max = Value tt s0 -> rtc op_step s0 s ->
  let (ys, fin) := denote_all p (source p s) in
  (exists tail, trace p s = map s_next (items (trace p s)) ++ tail /\
     (tail = [] \/ tail = [s_error sec_disposed] \/
      items (trace p s) = ys /\ ended fin = true /\
      tail = [match error_of fin with None => s_complete | Some e => s_error e end])) /\
  items (trace p s) `prefix_of` ys /\ (length (items (trace p s)) <= requested p s)%nat /\
  (out_ p s = true -> scheduled p s = 0%nat -> items (trace p s) = take (requested p s) ys) /\
  (out_ p s = true -> ended fin = true -> items (trace p s) <> ys) /\
  (out_ p s = true -> ended fin = false -> (max_buf_size_ p s <= length (buf p s) + in_flight_ p s)%nat) /\
  (forall e, allowed e s = true -> exists s', handle e s = Value tt s').
Proof.
  intros H0 H. assert (ok s) as Hs.
  { apply subscribed_ok in H0. induction H as [|s1 s2 s3 (e & Hal & E) _ IH]; [done|]. apply IH.
    destruct (handle_ok e s1 H0 Hal) as (s' & E' & Hok). congruence. }
  assert (forall e, allowed e s = true -> exists s', handle e s = Value tt s') as Htot.
  { intros e Hal. destruct (handle_ok e s Hs Hal) as (s' & E & _). by exists s'. }
  change (denote_all p (source p s)) with (result s). destruct (result s) as [ys fin] eqn:Eres.
  destruct Hs as [_ [(Ha & Hk & Hi & Hd)|Hg]].
  - pose proof Ha as []. rewrite Eres in *. cbn [fst snd] in *. split_and!.
    + exists []. rewrite app_nil_r. split; [done|by left].
    + rewrite <- a_items0. by eexists.
    + lia.
    + intros _ Hsch. rewrite <- a_items0. destruct (Hd Hsch) as [Hd0|Hd0].
      * rewrite take_app_le, firstn_all2 by lia. done.
      * rewrite Hd0, app_nil_r, firstn_all2 by lia. done.
    + intros _ He E. rewrite He in a_in0. rewrite <- a_items0 in E. apply Hi; [done|].
      apply (f_equal length) in E. rewrite length_app in E. destruct (buf p s); [done|cbn in E; lia].
    + intros _ He. apply Hk. by rewrite a_in0, He.
    + done.
  - pose proof Hg as []. rewrite Eres in *. by split_and!; try congruence.
Qed.

End Correctness.

(** An observer that requests one item and another one for each it gets. *)
Definition demo_react (tr : list (signal Z)) : nat * bool := (1%nat, false).

Definition demo_state (o : outcome (sub demo_pipeline) unit) : sub demo_pipeline :=
  match o with Value _ s | Raised _ s => s | Stuck => make demo_pipeline 0 end.

Definition demo_start : sub demo_pipeline := demo_state (subscribed demo_pipeline 1 4).

Definition demo_after (es : list (@event Z)) : sub demo_pipeline :=
  demo_state (for_each (handle demo_pipeline demo_react) es demo_start).

Lemma from_steps_delivers_witness :
  let s := demo_after [ev_next 1; ev_run; ev_next 3; ev_next 4; ev_next 5] in
  rtc (op_step demo_pipeline demo_react) demo_start s /\
  trace _ s = [s_next 35; s_complete] /\ source _ s = ([1; 3; 4; 5], open) /\
  items (trace _ s) `prefix_of` [35].
Proof.
  intros s. assert (rtc (op_step demo_pipeline demo_react) demo_start s) as H.
  { apply (rtc_l _ _ (demo_after [ev_next 1])); [exists (ev_next 1); vm_compute; by split|].
    apply (rtc_l _ _ (demo_after [ev_next 1; ev_run])); [exists ev_run; vm_compute; by split|].
    apply (rtc_l _ _ (demo_after [ev_next 1; ev_run; ev_next 3])); [exists (ev_next 3); vm_compute; by split|].
    apply (rtc_l _ _ (demo_after [ev_next 1; ev_run; ev_next 3; ev_next 4])); [exists (ev_next 4); vm_compute; by split|].
    apply (rtc_l _ _ s); [exists (ev_next 5); vm_compute; by split|apply rtc_refl]. }
  assert (valid_pipeline demo_pipeline = true) as Hv by reflexivity.
  assert (subscribed demo_pipeline 1 4 = Value tt demo_start) as H0 by (vm_compute; reflexivity).
  assert (source _ s = ([1; 3; 4; 5], open)) as Es by (vm_compute; reflexivity).
  assert (trace _ s = [s_next 35; s_complete]) as Et by (vm_compute; reflexivity). clearbody s.
  pose proof (from_steps_delivers demo_pipeline Hv demo_react 1 4 demo_start s H0 H) as H1. rewrite Es in H1.
  destruct H1 as (_ & H1 & _). split; [exact H|split; [exact Et|split; [exact Es|exact H1]]].
Defined.

End FlowFromSteps.
