(* ===== verification/Fsm.v ===== *)
(** The parser framework of libcaf_core: the error codes of [pec.hpp], the
    cursor of [parser_state.hpp], the character classes of
    [detail/parser/chars.hpp] and the state machines that the macros of
    [detail/parser/fsm.hpp] generate.

    A character is its code, a number below 256.  [step] is one round of the
    generated code: it enters a state at its label [s_name], checks for the end
    of the input the way the state's kind asks for and takes the first
    transition that matches.  The local variable [ch] of the generated code is
    [ps.current()] whenever a label is reached ([start], every transition and
    every call assign it), so the model reads the character from the cursor.
    Two things of the C++ code are undefined and become [Crash]: moving the
    cursor past the end and an unstable state in which nothing matches.
    [FsmOk] is what a machine has to promise to run to its end on every input:
    epsilon transitions descend in a rank, calls never move the cursor back,
    and nothing crashes. *)
From Stdlib Require Import Strings.Ascii Strings.String.
From S2P Require Import Prelude.
#[local] Open Scope Z_scope.


Module Fsm.

(** ** Characters *)

Definition chr (a : ascii) : Z := Z.of_N (N_of_ascii a).

Definition chars (s : string) : list Z := map chr (list_ascii_of_string s).

Definition whitespace_chars : list Z := [32; 12; 10; 13; 9; 11].
Definition alphabetic_chars : list Z :=
  chars "ABCDEFGHIJKLMNOPQRSTUVWXYZabcdefghijklmnopqrstuvwxyz".
Definition alphanumeric_chars : list Z :=
  chars "0123456789ABCDEFGHIJKLMNOPQRSTUVWXYZabcdefghijklmnopqrstuvwxyz".
Definition hexadecimal_chars : list Z := chars "0123456789ABCDEFabcdef".
Definition decimal_chars : list Z := chars "0123456789".
Definition octal_chars : list Z := chars "01234567".

Fixpoint in_whitelist (whitelist : list Z) (ch : Z) : bool :=
  match whitelist with
  | [] => false
  | c :: rest => if c =? ch then true else in_whitelist rest ch
  end.

(** ** Parser error codes *)

Inductive pec :=
  | success | trailing_character | unexpected_eof | unexpected_character
  | timespan_overflow | fractional_timespan | too_many_characters
  | invalid_escape_sequence | unexpected_newline | integer_overflow
  | integer_underflow | exponent_underflow | exponent_overflow | type_mismatch
  | not_an_option | invalid_argument | missing_argument | invalid_category
  | invalid_field_name | repeated_field_name | missing_field
  | invalid_range_expression | invalid_state | nested_too_deeply.

#[export] Instance pec_eq_dec : EqDecision pec.
Proof. solve_decision. Defined.

(** [static_cast<uint8_t>(code)]. *)
Definition pec_value (c : pec) : Z :=
  match c with
  | success => 0 | trailing_character => 1 | unexpected_eof => 2
  | unexpected_character => 3 | timespan_overflow => 4 | fractional_timespan => 5
  | too_many_characters => 6 | invalid_escape_sequence => 7 | unexpected_newline => 8
  | integer_overflow => 9 | integer_underflow => 10 | exponent_underflow => 11
  | exponent_overflow => 12 | type_mismatch => 13 | not_an_option => 14
  | invalid_argument => 15 | missing_argument => 16 | invalid_category => 17
  | invalid_field_name => 18 | repeated_field_name => 19 | missing_field => 20
  | invalid_range_expression => 21 | invalid_state => 22 | nested_too_deeply => 23
  end.

(** [code <= pec::trailing_character]: the parser has read a value. *)
Definition accepted (c : pec) : bool := pec_value c <=? pec_value trailing_character.

(** ** The cursor *)

(** [rest] holds the characters from [i] to [e]. *)
Record parser_state := PS {
  rest : list Z;
  code : pec;
  line : Z;
  column : Z;
}.

Definition init_state (text : list Z) : parser_state := PS text success 1 1.

Definition set_code (ps : parser_state) (c : pec) : parser_state :=
  PS (rest ps) c (line ps) (column ps).

Definition current (ps : parser_state) : Z :=
  match rest ps with [] => 0 | c :: _ => c end.

Definition at_end (ps : parser_state) : bool :=
  match rest ps with [] => true | _ => false end.

(** [next()], with its result: incrementing [i] at the end is undefined. *)
Definition next (ps : parser_state) : option (Z * parser_state) :=
  match rest ps with
  | [] => None
  | _ :: r =>
      let ps1 := PS r (code ps) (line ps) (column ps + 1) in
      match r with
      | [] => Some (0, ps1)
      | c :: _ =>
          if c =? 10 then Some (c, PS r (code ps) (line ps + 1) 1) else Some (c, ps1)
      end
  end.

(** [isspace] of the C locale. *)
Definition isspace (c : Z) : bool := (c =? 32) || ((9 <=? c) && (c <=? 13)).

Fixpoint skip_blanks (r : list Z) (c : pec) (ln col : Z) : parser_state :=
  match r with
  | [] => PS r c ln col
  | x :: r' =>
      if isspace x then
        match r' with
        | y :: _ => if y =? 10 then skip_blanks r' c (ln + 1) 1 else skip_blanks r' c ln (col + 1)
        | [] => skip_blanks r' c ln (col + 1)
        end
      else PS r c ln col
  end.

Definition skip_whitespaces (ps : parser_state) : parser_state :=
  skip_blanks (rest ps) (code ps) (line ps) (column ps).

(** [consume_strict] and [consume]; matching ['\0'] at the end would move the
    cursor past it. *)
Definition consume_strict (x : Z) (ps : parser_state) : option (bool * parser_state) :=
  if current ps =? x then
    match next ps with Some (_, ps') => Some (true, ps') | None => None end
  else Some (false, ps).

Definition consume (x : Z) (ps : parser_state) : option (bool * parser_state) :=
  consume_strict x (skip_whitespaces ps).

(** ** State machines *)

(** [state], [term_state] and [unstable_state]. *)
Inductive state_kind := nonterm | term | unstable.

(** What the code between two state macros does for the current character:
    [transition], a [transition] whose action looks at the cursor [ps.i],
    [epsilon], [fsm_epsilon], leaving with an error code, or
    falling through because nothing matches. *)
Inductive move (S L : Type) :=
  | Take (s : S) (l : L)
  | Mark (s : S) (act : list Z -> L)
  | Eps (s : S) (l : L)
  | Sub (f : L -> parser_state -> option (parser_state * L)) (s : S)
  | Stop (c : pec) (l : L)
  | Stay.
Arguments Take {S L}. Arguments Mark {S L}. Arguments Eps {S L}. Arguments Sub {S L}.
Arguments Stop {S L}. Arguments Stay {S L}.

(** [transition(target, whitelist, action, error_code)] once the character
    matches: [act] is the action's result and the locals it leaves. *)
Definition checked {S L} (act : bool * L) (target : S) (error_code : pec) : move S L :=
  if act.1 then Take target act.2 else Stop error_code act.2.

(** [fsm_transition]: the call starts behind the current character. *)
Definition behind {L} (f : L -> parser_state -> option (parser_state * L)) (l : L)
    (ps : parser_state) : option (parser_state * L) :=
  match next ps with Some (_, ps') => f l ps' | None => None end.

Record fsm (S L : Type) := Fsm {
  kind : S -> state_kind;
  body : S -> Z -> L -> move S L;
}.
Arguments Fsm {S L}. Arguments kind {S L}. Arguments body {S L}.

Inductive outcome (S L : Type) :=
  | Go (s : S) (l : L) (ps : parser_state)
  | Done (l : L) (ps : parser_state)
  | Crash.
Arguments Go {S L}. Arguments Done {S L}. Arguments Crash {S L}.

Definition mismatch (ch : Z) : pec :=
  if ch =? 10 then unexpected_newline else unexpected_character.

Section Machine.
  Context {S L : Type} (m : fsm S L).

Definition fall_through (s : S) (l : L) (ps : parser_state) : outcome S L :=
  match kind m s with
  | nonterm => Done l (set_code ps (mismatch (current ps)))
  | term => Done l (set_code ps trailing_character)
  | unstable => Crash
  end.

Definition enter (s : S) (l : L) (ps : parser_state) : outcome S L :=
  match body m s (current ps) l with
  | Take s' l' => match next ps with Some (_, ps') => Go s' l' ps' | None => Crash end
  | Mark s' act =>
      match next ps with Some (_, ps') => Go s' (act (rest ps)) ps' | None => Crash end
  | Eps s' l' => Go s' l' ps
  | Sub f s' =>
      match f l ps with
      | Some (ps', l') => if accepted (code ps') then Go s' l' ps' else Done l' ps'
      | None => Crash
      end
  | Stop c l' => Done l' (set_code ps c)
  | Stay => fall_through s l ps
  end.

Definition step (s : S) (l : L) (ps : parser_state) : outcome S L :=
  if current ps =? 0 then
    match kind m s with
    | nonterm => Done l (set_code ps unexpected_eof)
    | term => Done l (set_code ps success)
    | unstable => enter s l ps
    end
  else enter s l ps.

Fixpoint run (fuel : nat) (s : S) (l : L) (ps : parser_state) : option (parser_state * L) :=
  match fuel with
  | O => None
  | Datatypes.S n =>
      match step s l ps with
      | Go s' l' ps' => run n s' l' ps'
      | Done l' ps' => Some (ps', l')
      | Crash => None
      end
  end.

End Machine.

(** Eight rounds for every character and for the end of the input. *)
Definition fsm_fuel (ps : parser_state) : nat := 8 * Datatypes.S (length (rest ps)).

Definition run_fsm {S L} (m : fsm S L) (s : S) (l : L) (ps : parser_state) :=
  run m (fsm_fuel ps) s l ps.

(** ** Machines that run to their end *)

(** What a call promises to the machine that makes it: [P] when it accepts, [Q]
    in any case. *)
Definition call_ok {L} (P Q : L -> Prop) (f : L -> parser_state -> option (parser_state * L))
    (l : L) (ps : parser_state) : Prop :=
  exists ps' l', f l ps = Some (ps', l') /\ suffix (rest ps') (rest ps)
    /\ (accepted (code ps') = true -> P l') /\ Q l'.

(** Only unstable states run at the end of the input. *)
Definition at_char {S L} (m : fsm S L) (s : S) (ch : Z) : Prop := kind m s <> unstable -> ch <> 0.

(** The invariant of a machine may speak of the unread input, since actions may
    keep positions of the cursor.  A call lowers the rank or moves the cursor. *)
Class FsmRuns {S L} (m : fsm S L) (inv : S -> L -> list Z -> Prop) (rank : S -> nat) : Prop := {
  rank_bound_at s : (rank s < 8)%nat;
  take_ok_at s l r s' l' :
    inv s l r -> at_char m s (hd 0 r) -> body m s (hd 0 r) l = Take s' l' ->
    hd 0 r <> 0 /\ inv s' l' (tl r);
  mark_ok_at s l r s' act :
    inv s l r -> at_char m s (hd 0 r) -> body m s (hd 0 r) l = Mark s' act ->
    hd 0 r <> 0 /\ inv s' (act r) (tl r);
  eps_ok_at s l r s' l' :
    inv s l r -> body m s (hd 0 r) l = Eps s' l' -> (rank s' < rank s)%nat /\ inv s' l' r;
  sub_ok_at s l ps f s' :
    inv s l (rest ps) -> at_char m s (current ps) -> body m s (current ps) l = Sub f s' ->
    exists ps' l', f l ps = Some (ps', l') /\ suffix (rest ps') (rest ps)
      /\ (accepted (code ps') = true ->
          inv s' l' (rest ps') /\ ((rank s' < rank s)%nat \/ (length (rest ps') < length (rest ps))%nat))
      /\ exists s1, inv s1 l' (rest ps');
  stop_ok_at s l r c l' :
    inv s l r -> body m s (hd 0 r) l = Stop c l' -> accepted c = false /\ exists s1, inv s1 l' r;
  stay_ok_at s l r : inv s l r -> kind m s = unstable -> body m s (hd 0 r) l <> Stay;
}.

(** A machine in which every call lowers the rank. *)
Class FsmOkAt {S L} (m : fsm S L) (inv : S -> L -> list Z -> Prop) (rank : S -> nat) : Prop := {
  rank_bound_here s : (rank s < 8)%nat;
  take_ok_here s l r s' l' :
    inv s l r -> at_char m s (hd 0 r) -> body m s (hd 0 r) l = Take s' l' ->
    hd 0 r <> 0 /\ inv s' l' (tl r);
  mark_ok_here s l r s' act :
    inv s l r -> at_char m s (hd 0 r) -> body m s (hd 0 r) l = Mark s' act ->
    hd 0 r <> 0 /\ inv s' (act r) (tl r);
  eps_ok_here s l r s' l' :
    inv s l r -> body m s (hd 0 r) l = Eps s' l' -> (rank s' < rank s)%nat /\ inv s' l' r;
  sub_ok_here s l ps f s' :
    inv s l (rest ps) -> at_char m s (current ps) -> body m s (current ps) l = Sub f s' ->
    (rank s' < rank s)%nat /\
    exists ps' l', f l ps = Some (ps', l') /\ suffix (rest ps') (rest ps)
      /\ (accepted (code ps') = true -> inv s' l' (rest ps'))
      /\ exists s1, inv s1 l' (rest ps');
  stop_ok_here s l r c l' :
    inv s l r -> body m s (hd 0 r) l = Stop c l' -> accepted c = false /\ exists s1, inv s1 l' r;
  stay_ok_here s l r : inv s l r -> kind m s = unstable -> body m s (hd 0 r) l <> Stay;
}.

#[export] Instance fsm_runs {S L} (m : fsm S L) inv rank `{!FsmOkAt m inv rank} : FsmRuns m inv rank.
Proof.
  split.
  - apply rank_bound_here.
  - apply take_ok_here.
  - apply mark_ok_here.
  - apply eps_ok_here.
  - intros s l ps f s' Hi Hat Hb.
    destruct (sub_ok_here s l ps f s' Hi Hat Hb) as [Hr (ps' & l' & Hf & Hs & Ha & Hq)].
    exists ps', l'. split_and!; [done..| |done]. auto.
  - apply stop_ok_here.
  - apply stay_ok_here.
Qed.

(** An invariant of the states and their locals alone. *)
Class FsmOk {S L} (m : fsm S L) (inv : S -> L -> Prop) (rank : S -> nat) : Prop := {
  rank_bound s : (rank s < 8)%nat;
  take_ok s ch l s' l' :
    inv s l -> at_char m s ch -> body m s ch l = Take s' l' -> ch <> 0 /\ inv s' l';
  mark_ok s ch l s' act :
    inv s l -> at_char m s ch -> body m s ch l = Mark s' act -> ch <> 0 /\ forall i, inv s' (act i);
  eps_ok s ch l s' l' : inv s l -> body m s ch l = Eps s' l' -> (rank s' < rank s)%nat /\ inv s' l';
  sub_ok s l ps f s' :
    inv s l -> body m s (current ps) l = Sub f s' ->
    (rank s' < rank s)%nat /\ call_ok (inv s') (fun l' => exists s1, inv s1 l') f l ps;
  stop_ok s ch l c l' :
    inv s l -> body m s ch l = Stop c l' -> accepted c = false /\ exists s1, inv s1 l';
  stay_ok s ch l : inv s l -> kind m s = unstable -> body m s ch l <> Stay;
}.

#[export] Instance fsm_ok_at {S L} (m : fsm S L) inv rank `{!FsmOk m inv rank} :
  FsmOkAt m (fun s l _ => inv s l) rank.
Proof.
  split.
  - apply rank_bound.
  - intros s l r s' l' Hi Hat Hb. by eapply take_ok.
  - intros s l r s' act Hi Hat Hb. eapply mark_ok in Hb as [Hc Ha]; [|done..]. eauto.
  - intros s l r s' l' Hi Hb. by eapply eps_ok.
  - intros s l ps f s' Hi _ Hb. by eapply sub_ok.
  - intros s l r c l' Hi Hb. by eapply stop_ok.
  - intros s l r Hi Hk. by eapply stay_ok.
Qed.

Lemma next_rest ps c ps' : next ps = Some (c, ps') -> rest ps = current ps :: rest ps' /\ c = current ps'.
Proof.
  unfold next, current. destruct (rest ps) as [|x [|y r]]; [done| |].
  - intros [= <- <-]. done.
  - destruct (y =? 10); intros [= <- <-]; done.
Qed.

Lemma next_some ps : current ps <> 0 -> exists c ps', next ps = Some (c, ps').
Proof.
  unfold next, current. destruct (rest ps) as [|x [|y r]]; [done|eauto|].
  destruct (y =? 10); eauto.
Qed.

Lemma current_hd ps : current ps = hd 0 (rest ps).
Proof. done. Qed.

Section Totality.
  Context {S L : Type} (m : fsm S L).

Lemma run_mono n k s l ps r : run m n s l ps = Some r -> (n <= k)%nat -> run m k s l ps = Some r.
Proof.
  revert k s l ps; induction n as [|n IH]; intros k s l ps; [done|].
  destruct k as [|k]; [lia|]. cbn [run]. destruct (step m s l ps); [|by intros..].
  intros. apply IH; [done|lia].
Qed.

Context (inv : S -> L -> list Z -> Prop) (rank : S -> nat) `{!FsmRuns m inv rank}.

(** The measure of a configuration: every round that continues lowers it. *)
Definition measure (s : S) (ps : parser_state) : nat := (8 * length (rest ps) + rank s)%nat.

Definition outcome_ok (s : S) (ps : parser_state) (o : outcome S L) : Prop :=
  match o with
  | Go s' l' ps' => inv s' l' (rest ps') /\ suffix (rest ps') (rest ps) /\ (measure s' ps' < measure s ps)%nat
  | Done l' ps' => suffix (rest ps') (rest ps)
      /\ (exists s', inv s' l' (rest ps') /\ (accepted (code ps') = true -> kind m s' = term))
  | Crash => False
  end.

Lemma go_next s l' s' ps :
  current ps <> 0 -> inv s' l' (tl (rest ps)) ->
  outcome_ok s ps (match next ps with Some (_, ps') => Go s' l' ps' | None => Crash end).
Proof using FsmRuns0.
  intros Hc Hi. destruct (next_some ps Hc) as (c & ps' & Hn). rewrite Hn.
  apply next_rest in Hn as [Hr _]. rewrite Hr in Hi. cbn [outcome_ok].
  rewrite Hr. split_and!; [done|by exists [current ps]|].
  unfold measure. rewrite Hr. cbn [length]. pose proof (rank_bound_at (m := m) s'). lia.
Qed.

Lemma enter_ok s l ps :
  inv s l (rest ps) -> at_char m s (current ps) -> outcome_ok s ps (enter m s l ps).
Proof using FsmRuns0.
  intros Hi Hat. unfold enter. destruct (body m s (current ps) l) as [s' l'|s' act|s' l'|f s'|c l'|] eqn:Hb.
  - eapply take_ok_at in Hb as [Hc Hi']; [|done..]. by apply go_next.
  - eapply mark_ok_at in Hb as [Hc Hi']; [|done..]. by apply go_next.
  - eapply eps_ok_at in Hb as [Hr Hi']; [|done]. split_and!; [done..|]. unfold measure. lia.
  - eapply sub_ok_at in Hb as (ps' & l' & -> & Hs & Ha & s1 & Hs1); [|done..].
    destruct (accepted (code ps')) eqn:Hacc; [|by split; [|exists s1; rewrite Hacc]].
    destruct (Ha eq_refl) as [Hi' Hlow].
    split_and!; [done..|]. apply suffix_length in Hs. pose proof (rank_bound_at (m := m) s'). unfold measure. lia.
  - eapply stop_ok_at in Hb as [Hb [s1 Hs1]]; [|done]. split; [done|]. exists s1. cbn. by rewrite Hb.
  - pose proof (stay_ok_at (m := m) s l (rest ps) Hi) as Hs. rewrite <- current_hd in Hs. unfold fall_through.
    destruct (kind m s) eqn:Hk; [| |by apply Hs].
    + split; [done|]. exists s. split; [done|]. cbn. unfold mismatch. by destruct (current ps =? 10).
    + split; eauto.
Qed.

Lemma step_ok s l ps : inv s l (rest ps) -> outcome_ok s ps (step m s l ps).
Proof using FsmRuns0.
  intros Hi. pose proof (enter_ok s l ps Hi) as He. unfold step, at_char in *.
  destruct (Z.eqb_spec (current ps) 0); [|by apply He].
  destruct (kind m s) eqn:Hk; [split; [done|by exists s]|split; eauto|by apply He].
Qed.

Lemma run_total n s l ps :
  inv s l (rest ps) -> (measure s ps < n)%nat ->
  exists ps' l', run m n s l ps = Some (ps', l') /\ suffix (rest ps') (rest ps)
    /\ (exists s', inv s' l' (rest ps') /\ (accepted (code ps') = true -> kind m s' = term)).
Proof using FsmRuns0.
  revert s l ps; induction n as [|n IH]; intros s l ps Hi Hm; [lia|]. cbn [run].
  pose proof (step_ok s l ps Hi) as Hstep.
  destruct (step m s l ps) as [s' l' ps'|l' ps'|]; [|destruct Hstep; by eauto|done].
  destruct Hstep as (Hi' & Hs & Hlt).
  destruct (IH s' l' ps' Hi') as (ps2 & l2 & Hr & Hs2 & Hf); [lia|].
  exists ps2, l2. split_and!; [done| |done]. by trans (rest ps').
Qed.

(** On every input the machine stops within its fuel, and accepts only in a
    terminal state. *)
Lemma run_fsm_total_at s l ps :
  inv s l (rest ps) ->
  exists ps' l', run_fsm m s l ps = Some (ps', l') /\ suffix (rest ps') (rest ps)
    /\ (exists s', inv s' l' (rest ps') /\ (accepted (code ps') = true -> kind m s' = term)).
Proof using FsmRuns0.
  intros Hi. apply run_total; [done|]. unfold measure, fsm_fuel.
  pose proof (rank_bound_at (m := m) s). lia.
Qed.

End Totality.

Lemma run_fsm_total {S L} (m : fsm S L) inv rank `{!FsmOk m inv rank} s l ps :
  inv s l ->
  exists ps' l', run_fsm m s l ps = Some (ps', l') /\ suffix (rest ps') (rest ps)
    /\ (exists s', inv s' l' /\ (accepted (code ps') = true -> kind m s' = term)).
Proof. exact (run_fsm_total_at m (fun s l _ => inv s l) rank s l ps). Qed.

(** ** Machines without an invariant *)

(** A parser that always returns and never moves the cursor back. *)
Definition total {A} (f : parser_state -> option (parser_state * A)) : Prop :=
  forall ps, exists ps' a, f ps = Some (ps', a) /\ suffix (rest ps') (rest ps).

Create HintDb total.

Lemma run_fsm_is_total {S L} (m : fsm S L) rank `{!FsmOk m (fun _ _ => True) rank} s l : total (run_fsm m s l).
Proof. intros ps. destruct (run_fsm_total m _ rank s l ps I) as (ps' & l' & Hr & Hs & _). eauto. Qed.

Lemma total_call {S L} (f : L -> parser_state -> option (parser_state * L)) (s : S) l ps :
  total (f l) -> call_ok (fun _ => True) (fun _ => exists _ : S, True) f l ps.
Proof. intros Hf. destruct (Hf ps) as (ps' & l' & Hr & Hs). exists ps', l'. split_and!; [done..|by exists s]. Qed.

Lemma total_behind {L} (f : L -> parser_state -> option (parser_state * L)) l ps :
  total (f l) -> current ps <> 0 ->
  exists ps' l', behind f l ps = Some (ps', l') /\ suffix (rest ps') (rest ps).
Proof.
  intros Hf Hc. unfold behind. destruct (next_some ps Hc) as (c & ps1 & Hn). rewrite Hn.
  destruct (Hf ps1) as (ps' & l' & Hr & Hs). exists ps', l'. split; [done|].
  apply next_rest in Hn as [-> _]. by apply suffix_cons_r.
Qed.

(** Case analysis of the conditionals of a state. *)
Ltac split_body :=
  repeat match goal with
  | H : context [match (if ?b then _ else _) with _ => _ end] |- _ => destruct b eqn:?
  | H : (if ?b then _ else _) = _ |- _ => destruct b eqn:?
  end.

(** ** Reasoning about runs round by round *)

Definition runs {S L} (m : fsm S L) (s : S) (l : L) (ps : parser_state) (r : parser_state * L) : Prop :=
  exists n, run m n s l ps = Some r.

Section Runs.
  Context {S L : Type} (m : fsm S L).

Lemma runs_go s l ps s' l' ps' r :
  step m s l ps = Go s' l' ps' -> runs m s' l' ps' r -> runs m s l ps r.
Proof. intros Hs [n Hn]. exists (Datatypes.S n). cbn [run]. by rewrite Hs. Qed.

Lemma runs_done s l ps l' ps' : step m s l ps = Done l' ps' -> runs m s l ps (ps', l').
Proof. intros Hs. exists 1%nat. cbn [run]. by rewrite Hs. Qed.

Lemma run_fsm_runs inv rank `{!FsmRuns m inv rank} s l ps r :
  inv s l (rest ps) -> runs m s l ps r -> run_fsm m s l ps = Some r.
Proof.
  intros Hi [n Hn]. destruct (run_fsm_total_at m inv rank s l ps Hi) as (ps' & l' & Hr & _).
  rewrite Hr. unfold run_fsm in Hr.
  apply (run_mono m _ (n `max` fsm_fuel ps)) in Hn; [|lia].
  apply (run_mono m _ (n `max` fsm_fuel ps)) in Hr; [|lia]. congruence.
Qed.

(** From state [s] with locals [l] the machine reads the text [t] up to [r] and
    stops with a code and its final locals, whatever code and position the
    cursor carries. *)
Definition ends (s : S) (l : L) (t : list Z) (c : pec) (l' : L) (r : list Z) : Prop :=
  forall co ln col, exists ln' col', runs m s l (PS t co ln col) (PS r c ln' col', l').

Lemma next_cons c t co ln col : exists ln' col' x, next (PS (c :: t) co ln col) = Some (x, PS t co ln' col').
Proof. unfold next. cbn. destruct t as [|y t]; [eauto|]. destruct (y =? 10); eauto. Qed.

Lemma ends_take s l x t s' l1 c l' r :
  x <> 0 -> body m s x l = Take s' l1 -> ends s' l1 t c l' r -> ends s l (x :: t) c l' r.
Proof.
  intros Hx Hb He co ln col. destruct (next_cons x t co ln col) as (ln1 & col1 & y & Hn).
  destruct (He co ln1 col1) as (ln' & col' & Hr). exists ln', col'.
  eapply runs_go; [|exact Hr]. unfold step, enter. cbn [current rest].
  by rewrite (proj2 (Z.eqb_neq x 0) Hx), Hb, Hn.
Qed.

Lemma ends_mark s l x t s' act c l' r :
  x <> 0 -> body m s x l = Mark s' act -> ends s' (act (x :: t)) t c l' r -> ends s l (x :: t) c l' r.
Proof.
  intros Hx Hb He co ln col. destruct (next_cons x t co ln col) as (ln1 & col1 & y & Hn).
  destruct (He co ln1 col1) as (ln' & col' & Hr). exists ln', col'.
  eapply runs_go; [|exact Hr]. unfold step, enter. cbn [current rest].
  by rewrite (proj2 (Z.eqb_neq x 0) Hx), Hb, Hn.
Qed.

Lemma ends_eps s l x t s' l1 c l' r :
  x <> 0 -> body m s x l = Eps s' l1 -> ends s' l1 (x :: t) c l' r -> ends s l (x :: t) c l' r.
Proof.
  intros Hx Hb He co ln col. destruct (He co ln col) as (ln' & col' & Hr). exists ln', col'.
  eapply runs_go; [|exact Hr]. unfold step, enter. cbn [current rest].
  by rewrite (proj2 (Z.eqb_neq x 0) Hx), Hb.
Qed.

(** The same from an unstable state, which does not look for the end. *)
Lemma ends_eps_unstable s l t s' l1 c l' r :
  kind m s = unstable -> body m s (hd 0 t) l = Eps s' l1 -> ends s' l1 t c l' r -> ends s l t c l' r.
Proof.
  intros Hk Hb He co ln col. destruct (He co ln col) as (ln' & col' & Hr). exists ln', col'.
  eapply runs_go; [|exact Hr]. unfold step, enter.
  replace (current (PS t co ln col)) with (hd 0 t) by (by destruct t).
  rewrite Hk, Hb. by destruct (hd 0 t =? 0).
Qed.

Lemma ends_stop s l x t c l' :
  x <> 0 -> body m s x l = Stop c l' -> ends s l (x :: t) c l' (x :: t).
Proof.
  intros Hx Hb co ln col. exists ln, col. apply runs_done. unfold step, enter. cbn [current rest].
  by rewrite (proj2 (Z.eqb_neq x 0) Hx), Hb.
Qed.

Definition end_code (r : list Z) : pec :=
  match r with [] => success | c :: _ => if c =? 0 then success else trailing_character end.

Definition refusal (r : list Z) : pec :=
  match r with [] => unexpected_eof | c :: _ => if c =? 0 then unexpected_eof else mismatch c end.

(** Leaving a terminal state: at the end of the input or at a character that
    has no transition. *)
Lemma ends_term s l t :
  kind m s = term -> (forall x t', t = x :: t' -> x <> 0 -> body m s x l = Stay) ->
  ends s l t (end_code t) l t.
Proof.
  intros Hk Hb co ln col. exists ln, col. apply runs_done. unfold step, enter, fall_through.
  destruct t as [|x t]; cbn [current rest]; rewrite Hk; [done|]. cbn.
  destruct (Z.eqb_spec x 0); [done|]. by rewrite (Hb x t).
Qed.

(** Refusing in any other state. *)
Lemma ends_nonterm s l t :
  kind m s = nonterm -> (forall x t', t = x :: t' -> x <> 0 -> body m s x l = Stay) ->
  ends s l t (refusal t) l t.
Proof.
  intros Hk Hb co ln col. exists ln, col. apply runs_done. unfold step, enter, fall_through.
  destruct t as [|x t]; cbn [current rest]; rewrite Hk; [done|]. cbn.
  destruct (Z.eqb_spec x 0); [done|]. by rewrite (Hb x t).
Qed.

End Runs.

(** What a parser does with a text. *)
Definition reads {A} (f : parser_state -> option (parser_state * A)) (t : list Z) (c : pec) (a : A)
    (r : list Z) : Prop :=
  forall co ln col, exists ln' col', f (PS t co ln col) = Some (PS r c ln' col', a).

Section Reads.
  Context {S L : Type} (m : fsm S L).

Lemma ends_sub s l x t f s' c1 l1 t1 c l' r :
  x <> 0 -> body m s x l = Sub f s' -> reads (f l) (x :: t) c1 l1 t1 -> accepted c1 = true ->
  ends m s' l1 t1 c l' r -> ends m s l (x :: t) c l' r.
Proof.
  intros Hx Hb Hf Ha He co ln col. destruct (Hf co ln col) as (ln1 & col1 & Hf').
  destruct (He c1 ln1 col1) as (ln' & col' & Hr). exists ln', col'.
  eapply runs_go; [|exact Hr]. unfold step, enter. cbn [current rest].
  rewrite (proj2 (Z.eqb_neq x 0) Hx), Hb, Hf'. cbn [code]. by rewrite Ha.
Qed.

Lemma ends_sub_error s l x t f s' c l' r :
  x <> 0 -> body m s x l = Sub f s' -> reads (f l) (x :: t) c l' r -> accepted c = false ->
  ends m s l (x :: t) c l' r.
Proof.
  intros Hx Hb Hf Ha co ln col. destruct (Hf co ln col) as (ln' & col' & Hf').
  exists ln', col'. apply runs_done. unfold step, enter. cbn [current rest].
  rewrite (proj2 (Z.eqb_neq x 0) Hx), Hb, Hf'. cbn [code]. by rewrite Ha.
Qed.

Lemma reads_behind (f : L -> parser_state -> option (parser_state * L)) l x t c l' r :
  reads (f l) t c l' r -> reads (behind f l) (x :: t) c l' r.
Proof.
  intros Hf co ln col. unfold behind. destruct (next_cons x t co ln col) as (ln1 & col1 & y & ->). apply Hf.
Qed.

Lemma ends_reads_at inv rank `{!FsmRuns m inv rank} s l t c l' r :
  inv s l t -> ends m s l t c l' r -> reads (run_fsm m s l) t c l' r.
Proof.
  intros Hi He co ln col. destruct (He co ln col) as (ln' & col' & Hr). exists ln', col'.
  by eapply run_fsm_runs.
Qed.

Lemma ends_reads inv rank `{!FsmOk m inv rank} s l t c l' r :
  inv s l -> ends m s l t c l' r -> reads (run_fsm m s l) t c l' r.
Proof. exact (ends_reads_at (fun s l _ => inv s l) rank s l t c l' r). Qed.

End Reads.

(** ** Verdicts

    The code a parser ends with and, if it accepts, its value and the input it
    leaves; where it stops after an error does not matter. *)

Definition verdict (A : Type) : Type := pec * option (A * list Z).

Definition parses {A} (f : parser_state -> option (parser_state * A)) (t : list Z) (v : verdict A) : Prop :=
  exists c a r, reads f t c a r /\ v = (c, if accepted c then Some (a, r) else None).

Section Decides.
  Context {S L : Type} (m : fsm S L).

Definition decides (s : S) (x : L) (text : list Z) (v : verdict L) : Prop :=
  exists c x' r, ends m s x text c x' r
    /\ v = (c, if accepted c then Some (x', r) else None).

Lemma decides_take s x c t s' x' v :
  c <> 0 -> body m s c x = Take s' x' -> decides s' x' t v -> decides s x (c :: t) v.
Proof. intros Hc Hb (co & y & r & He & Hv). exists co, y, r. split; [by eapply ends_take|done]. Qed.

Lemma decides_eps s x c t s' x' v :
  c <> 0 -> body m s c x = Eps s' x' -> decides s' x' (c :: t) v -> decides s x (c :: t) v.
Proof. intros Hc Hb (co & y & r & He & Hv). exists co, y, r. split; [by eapply ends_eps|done]. Qed.

Lemma decides_stop s x c t e x' :
  c <> 0 -> body m s c x = Stop e x' -> accepted e = false -> decides s x (c :: t) (e, None).
Proof. intros Hc Hb He. exists e, x', (c :: t). split; [by apply ends_stop|by rewrite He]. Qed.

Lemma decides_term s x t :
  kind m s = term -> (forall c t', t = c :: t' -> c <> 0 -> body m s c x = Stay) ->
  decides s x t (end_code t, Some (x, t)).
Proof.
  intros Hk Hb. exists (end_code t), x, t. split; [by apply ends_term|].
  destruct t as [|c t]; [done|]. cbn. by destruct (c =? 0).
Qed.

Lemma decides_nonterm s x t :
  kind m s = nonterm -> (forall c t', t = c :: t' -> c <> 0 -> body m s c x = Stay) ->
  decides s x t (refusal t, None).
Proof.
  intros Hk Hb. exists (refusal t), x, t. split; [by apply ends_nonterm|].
  destruct t as [|c t]; [done|]. cbn. unfold mismatch. by destruct (c =? 0), (c =? 10).
Qed.

(** A call: its verdict decides, or the machine goes on with what it delivers. *)
Lemma decides_sub s x c t f s' v1 v :
  c <> 0 -> body m s c x = Sub f s' -> parses (f x) (c :: t) v1 ->
  match v1.2 with
  | Some (x1, t1) => decides s' x1 t1 v
  | None => v = (v1.1, None)
  end -> decides s x (c :: t) v.
Proof.
  intros Hc Hb (c1 & a & r & Hr & ->) Hv. destruct (accepted c1) eqn:Ha; cbn [fst snd] in Hv.
  - destruct Hv as (co & y & r' & He & Hv). exists co, y, r'. split; [|done]. by eapply ends_sub.
  - exists c1, a, r. rewrite Ha. split; [|done]. by eapply ends_sub_error.
Qed.

Lemma decides_eps_unstable s x t s' x' v :
  kind m s = unstable -> body m s (hd 0 t) x = Eps s' x' -> decides s' x' t v -> decides s x t v.
Proof.
  intros Hk Hb (co & y & r & He & Hv). exists co, y, r. split; [by eapply ends_eps_unstable|done].
Qed.

Lemma decides_parses inv rank `{!FsmOk m inv rank} s x t v :
  inv s x -> decides s x t v -> parses (run_fsm m s x) t v.
Proof.
  intros Hi (c & y & r & He & Hv). exists c, y, r. split; [|done]. by eapply ends_reads.
Qed.

End Decides.

Lemma parses_behind {L} (f : L -> parser_state -> option (parser_state * L)) l x t v :
  parses (f l) t v -> parses (behind f l) (x :: t) v.
Proof. intros (c & a & r & Hr & Hv). exists c, a, r. split; [|done]. by apply reads_behind. Qed.

End Fsm.
