(* ===== verification/ReadInteger.v ===== *)
(** Integer parsers of libcaf_core: [ascii_to_int], [add_ascii], [sub_ascii]
    and the state machines [read_unsigned_integer] and [read_signed_integer]
    of [detail/parser], for any integer type given by its limits.

    The reference is [signed_spec] / [unsigned_spec]: skip blanks, take a sign,
    let a leading zero choose the base, take the longest run of digits and
    compare its value with the limits of the type.  The machines agree with it
    on every input: the value they deliver, the place where they stop and the
    error they report. *)
From Stdlib Require Import Strings.Ascii Strings.String.
From S2P Require Import Prelude.
From S2P Require Import Fsm.
#[local] Open Scope Z_scope.

Import Fsm.

Module ReadInteger.

(** ** Digits *)

Definition ascii_to_int (base c : Z) : Z :=
  if base =? 16 then
    if c <=? 57 then c - 48 else if c <=? 70 then 10 + (c - 65) else 10 + (c - 97)
  else c - 48.

(** [add_ascii] and [sub_ascii]: whether the digit fits, and the variable
    afterwards. Integer division truncates towards zero.

    For an unsigned type with maximum [max] every result wraps around. *)
Definition add_ascii (base max x c : Z) : bool * Z :=
  if Z.quot max base <? x then (false, x)
  else
    let x1 := (x * base) mod (max + 1) in
    let y := ascii_to_int base c in
    if max - y <? x1 then (false, x1) else (true, (x1 + y) mod (max + 1)).

(** A result of an operation on a signed type: out of the limits it overflows,
    which is undefined. *)
Definition fit (min max v : Z) : option Z :=
  if (min <=? v) && (v <=? max) then Some v else None.

Definition add_ascii_signed (base min max x c : Z) : option (bool * Z) :=
  if Z.quot max base <? x then Some (false, x)
  else
    x1 ← fit min max (x * base);
    let y := ascii_to_int base c in
    if max - y <? x1 then Some (false, x1) else x2 ← fit min max (x1 + y); Some (true, x2).

Definition sub_ascii (base min max x c : Z) : option (bool * Z) :=
  if x <? Z.quot min base then Some (false, x)
  else
    x1 ← fit min max (x * base);
    let y := ascii_to_int base c in
    if x1 <? min + y then Some (false, x1) else x2 ← fit min max (x1 - y); Some (true, x2).

(** A transition whose action is undefined crashes the machine. *)
Definition guarded {S L} (act : option (bool * L)) (target : S) (error_code : pec) : move S L :=
  match act with
  | Some a => checked a target error_code
  | None => Sub (fun _ _ => None) target
  end.

Definition digit_chars (base : Z) : list Z :=
  if base =? 2 then chars "01"
  else if base =? 8 then octal_chars
  else if base =? 16 then hexadecimal_chars
  else decimal_chars.

(** ** [read_unsigned_integer] *)

Inductive ustate :=
  | u_init | u_has_plus | u_zero | u_start_bin | u_bin | u_start_oct | u_oct
  | u_start_hex | u_hex | u_dec.

Definition u_kind (s : ustate) : state_kind :=
  match s with u_zero | u_bin | u_oct | u_hex | u_dec => term | _ => nonterm end.

Definition u_body (max : Z) (s : ustate) (ch : Z) (result : Z) : move ustate Z :=
  match s with
  | u_init =>
      if in_whitelist [32; 9] ch then Take u_init result
      else if ch =? chr "+" then Take u_has_plus result
      else Eps u_has_plus result
  | u_has_plus =>
      if ch =? chr "0" then Take u_zero result
      else if in_whitelist decimal_chars ch then Eps u_dec result
      else Stay
  | u_zero =>
      if in_whitelist (chars "bB") ch then Take u_start_bin result
      else if in_whitelist (chars "xX") ch then Take u_start_hex result
      else Eps u_oct result
  | u_start_bin => if in_whitelist (chars "01") ch then Eps u_bin result else Stay
  | u_bin =>
      if in_whitelist (chars "01") ch
      then checked (add_ascii 2 max result ch) u_bin integer_overflow else Stay
  | u_start_oct => if in_whitelist octal_chars ch then Eps u_oct result else Stay
  | u_oct =>
      if in_whitelist octal_chars ch
      then checked (add_ascii 8 max result ch) u_oct integer_overflow else Stay
  | u_start_hex => if in_whitelist hexadecimal_chars ch then Eps u_hex result else Stay
  | u_hex =>
      if in_whitelist hexadecimal_chars ch
      then checked (add_ascii 16 max result ch) u_hex integer_overflow else Stay
  | u_dec =>
      if in_whitelist decimal_chars ch
      then checked (add_ascii 10 max result ch) u_dec integer_overflow else Stay
  end.

Definition u_fsm (max : Z) : fsm ustate Z := Fsm u_kind (u_body max).

(** The final [if]: only an accepted number reaches the consumer. *)
Definition deliver {A} (r : option (parser_state * A)) : option (parser_state * option A) :=
  match r with
  | Some (ps, x) => Some (ps, if accepted (code ps) then Some x else None)
  | None => None
  end.

Definition read_unsigned_integer (max : Z) (ps : parser_state) : option (parser_state * option Z) :=
  deliver (run_fsm (u_fsm max) u_init 0 ps).

(** ** [read_signed_integer]

    The machine has every state twice, for positive and for negative numbers. *)

Inductive sign := Pos | Neg.

Inductive sstate :=
  | s_init
  | has_sign (g : sign) | zero (g : sign) | start_bin (g : sign) | bin (g : sign)
  | start_oct (g : sign) | oct (g : sign) | start_hex (g : sign) | hex (g : sign)
  | dec (g : sign).

Definition s_kind (s : sstate) : state_kind :=
  match s with zero _ | bin _ | oct _ | hex _ | dec _ => term | _ => nonterm end.

(** [add_ascii] with [integer_overflow] or [sub_ascii] with [integer_underflow]. *)
Definition digit (min max : Z) (g : sign) (base result ch : Z) (target : sstate) : move sstate Z :=
  match g with
  | Pos => guarded (add_ascii_signed base min max result ch) target integer_overflow
  | Neg => guarded (sub_ascii base min max result ch) target integer_underflow
  end.

Definition s_body (min max : Z) (s : sstate) (ch : Z) (result : Z) : move sstate Z :=
  match s with
  | s_init =>
      if in_whitelist [32; 9] ch then Take s_init result
      else if ch =? chr "+" then Take (has_sign Pos) result
      else if ch =? chr "-" then Take (has_sign Neg) result
      else Eps (has_sign Pos) result
  | has_sign g =>
      if ch =? chr "0" then Take (zero g) result
      else if in_whitelist decimal_chars ch then Eps (dec g) result
      else Stay
  | zero g =>
      if in_whitelist (chars "bB") ch then Take (start_bin g) result
      else if in_whitelist (chars "xX") ch then Take (start_hex g) result
      else Eps (oct g) result
  | start_bin g => if in_whitelist (chars "01") ch then Eps (bin g) result else Stay
  | bin g => if in_whitelist (chars "01") ch then digit min max g 2 result ch (bin g) else Stay
  | start_oct g => if in_whitelist octal_chars ch then Eps (oct g) result else Stay
  | oct g => if in_whitelist octal_chars ch then digit min max g 8 result ch (oct g) else Stay
  | start_hex g => if in_whitelist hexadecimal_chars ch then Eps (hex g) result else Stay
  | hex g => if in_whitelist hexadecimal_chars ch then digit min max g 16 result ch (hex g) else Stay
  | dec g => if in_whitelist decimal_chars ch then digit min max g 10 result ch (dec g) else Stay
  end.

Definition s_fsm (min max : Z) : fsm sstate Z := Fsm s_kind (s_body min max).

Definition read_signed_integer (min max : Z) (ps : parser_state) : option (parser_state * option Z) :=
  deliver (run_fsm (s_fsm min max) s_init 0 ps).

(** ** The reference *)

Fixpoint run_of (p : Z -> bool) (l : list Z) : list Z :=
  match l with [] => [] | c :: r => if p c then c :: run_of p r else [] end.

Fixpoint after (p : Z -> bool) (l : list Z) : list Z :=
  match l with [] => [] | c :: r => if p c then after p r else l end.

Definition value (base : Z) (ds : list Z) : Z :=
  fold_left (fun a c => a * base + ascii_to_int base c) ds 0.

Definition signed (g : sign) (v : Z) : Z := match g with Pos => v | Neg => - v end.

Definition in_limits (min max : Z) (g : sign) (v : Z) : bool :=
  match g with Pos => v <=? max | Neg => min <=? v end.

Definition limit_error (g : sign) : pec :=
  match g with Pos => integer_overflow | Neg => integer_underflow end.

Definition digits_spec (min max : Z) (g : sign) (base : Z) (required : bool) (t : list Z) : verdict Z :=
  let ds := run_of (in_whitelist (digit_chars base)) t in
  let r := after (in_whitelist (digit_chars base)) t in
  let v := signed g (value base ds) in
  if required && bool_decide (ds = []) then (refusal r, None)
  else if in_limits min max g v then (end_code r, Some (v, r))
  else (limit_error g, None).

Definition numeral_spec (min max : Z) (g : sign) (t : list Z) : verdict Z :=
  if hd 0 t =? chr "0" then
    let r := tl t in
    if in_whitelist (chars "bB") (hd 0 r) then digits_spec min max g 2 true (tl r)
    else if in_whitelist (chars "xX") (hd 0 r) then digits_spec min max g 16 true (tl r)
    else digits_spec min max g 8 false r
  else digits_spec min max g 10 true t.

Definition unsigned_spec (max : Z) (text : list Z) : verdict Z :=
  let t := after (in_whitelist [32; 9]) text in
  numeral_spec 0 max Pos (if hd 0 t =? chr "+" then tl t else t).

Definition signed_spec (min max : Z) (text : list Z) : verdict Z :=
  let t := after (in_whitelist [32; 9]) text in
  if hd 0 t =? chr "+" then numeral_spec min max Pos (tl t)
  else if hd 0 t =? chr "-" then numeral_spec min max Neg (tl t)
  else numeral_spec min max Pos t.

Definition verdict_of (ps : parser_state) (x : option Z) : verdict Z :=
  (code ps, match x with Some v => Some (v, rest ps) | None => None end).

(** ** Reading digits *)

Definition is_base (base : Z) : Prop := base = 2 \/ base = 8 \/ base = 10 \/ base = 16.

Lemma in_whitelist_elem wl c : in_whitelist wl c = true <-> c ∈ wl.
Proof.
  induction wl as [|x wl IH]; cbn [in_whitelist]; [by rewrite elem_of_nil|].
  rewrite elem_of_cons. destruct (Z.eqb_spec x c) as [->|]; [by split; [left|]|]. rewrite IH. naive_solver.
Qed.

(** A check of every byte decides a claim about the characters of a class. *)
Lemma class_check wl (P : Z -> bool) c :
  forallb P wl = true -> in_whitelist wl c = true -> P c = true.
Proof. rewrite forallb_forall, in_whitelist_elem, list_elem_of_In. auto. Qed.

Lemma digit_range base c :
  is_base base -> in_whitelist (digit_chars base) c = true -> 0 <= ascii_to_int base c < base.
Proof.
  intros Hb Hc.
  enough ((0 <=? ascii_to_int base c) && (ascii_to_int base c <? base) = true) by bool_lia.
  apply (class_check (digit_chars base) (fun c => (0 <=? ascii_to_int base c) && (ascii_to_int base c <? base)));
    [|done].
  destruct Hb as [-> | [-> | [-> | ->]]]; vm_compute; done.
Qed.

Lemma digit_nonzero base c :
  is_base base -> in_whitelist (digit_chars base) c = true -> c <> 0.
Proof.
  intros Hb Hc ->. destruct Hb as [-> | [-> | [-> | ->]]]; vm_compute in Hc; done.
Qed.

Lemma base_pos base : is_base base -> 0 < base.
Proof. intros [-> | [-> | [-> | ->]]]; lia. Qed.

(** The guard in front of the multiplication keeps the product in range. *)
Lemma product_fits base max x :
  0 < base -> 0 <= x -> 0 <= max -> (Z.quot max base <? x) = false -> 0 <= x * base <= max.
Proof.
  intros Hb Hx Hm H. rewrite Z.quot_div_nonneg in H by lia. apply Z.ltb_ge in H.
  pose proof (Z.mul_div_le max base Hb). nia.
Qed.

(** ... and cuts off nothing but numbers beyond the maximum. *)
Lemma guard_exact base max x y :
  0 < base -> 0 <= y -> 0 <= max -> (Z.quot max base <? x) = true -> max < x * base + y.
Proof.
  intros Hb Hy Hm H. rewrite Z.quot_div_nonneg in H by lia. apply Z.ltb_lt in H.
  pose proof (Z.mul_succ_div_gt max base Hb). nia.
Qed.

Lemma add_ascii_spec base max x c :
  is_base base -> 0 <= x -> 0 <= max -> in_whitelist (digit_chars base) c = true ->
  let v := x * base + ascii_to_int base c in
  (add_ascii base max x c).1 = (v <=? max) /\ (v <= max -> (add_ascii base max x c).2 = v).
Proof.
  intros Hb Hx Hm Hc v. pose proof (digit_range base c Hb Hc) as Hd. subst v. apply base_pos in Hb.
  unfold add_ascii. destruct (Z.quot max base <? x) eqn:E; cbn [fst snd].
  - apply (guard_exact base max x (ascii_to_int base c)) in E; [|lia..]. split; [symmetry; by apply Z.leb_gt|lia].
  - apply product_fits in E; [|lia..]. rewrite (Z.mod_small (x * base)) by lia.
    destruct (Z.ltb_spec (max - ascii_to_int base c) (x * base)); cbn [fst snd].
    + split; [symmetry; apply Z.leb_gt; lia|lia].
    + rewrite Z.mod_small by lia. split; [symmetry; apply Z.leb_le; lia|done].
Qed.

Lemma fit_in min max v : min <= v <= max -> fit min max v = Some v.
Proof. intros H. unfold fit. by rewrite !(proj2 (Z.leb_le _ _)) by lia. Qed.

Lemma add_ascii_signed_spec base min max x c :
  is_base base -> 0 <= x -> min <= 0 <= max -> in_whitelist (digit_chars base) c = true ->
  let v := x * base + ascii_to_int base c in
  exists y, add_ascii_signed base min max x c = Some (v <=? max, y) /\ (v <= max -> y = v) /\
    (x <= max -> 0 <= y <= max).
Proof.
  intros Hb Hx Hm Hc v. pose proof (digit_range base c Hb Hc) as Hd. subst v. apply base_pos in Hb.
  unfold add_ascii_signed. destruct (Z.quot max base <? x) eqn:E.
  - apply (guard_exact base max x (ascii_to_int base c)) in E; [|lia..]. exists x.
    rewrite (proj2 (Z.leb_gt _ max)) by lia. split_and!; [done|lia..].
  - apply product_fits in E; [|lia..]. rewrite fit_in by lia. cbn [mbind option_bind].
    destruct (Z.ltb_spec (max - ascii_to_int base c) (x * base)).
    + eexists. rewrite (proj2 (Z.leb_gt _ max)) by lia. split_and!; [done|lia..].
    + rewrite fit_in by lia. cbn [mbind option_bind].
      eexists. rewrite (proj2 (Z.leb_le _ max)) by lia. split_and!; [done|lia..].
Qed.

(** Subtracting in the negative range is adding in the positive one. *)
Lemma sub_ascii_add base min max x c :
  is_base base ->
  sub_ascii base min max x c
  = option_map (fun r => (r.1, - r.2)) (add_ascii_signed base (- max) (- min) (- x) c).
Proof.
  intros Hb%base_pos. unfold sub_ascii, add_ascii_signed. rewrite Z.quot_opp_l by lia.
  replace (- Z.quot min base <? - x) with (x <? Z.quot min base)
    by (apply Bool.eq_iff_eq_true; rewrite !Z.ltb_lt; lia).
  destruct (x <? _); cbn [option_map fst snd]; [do 2 f_equal; lia|].
  assert (forall v, fit min max v = option_map Z.opp (fit (- max) (- min) (- v))) as Hfit.
  { intros v. unfold fit.
    replace ((- max <=? - v) && (- v <=? - min)) with ((min <=? v) && (v <=? max))
      by (apply Bool.eq_iff_eq_true; rewrite !andb_true_iff, !Z.leb_le; lia).
    destruct (_ && _); [|done]. cbn. f_equal. lia. }
  rewrite Hfit. replace (- (x * base)) with (- x * base) by lia.
  destruct (fit (- max) (- min) (- x * base)) as [x1|]; [|done]. cbn [option_map mbind option_bind].
  replace (- min - ascii_to_int base c <? x1) with (- x1 <? min + ascii_to_int base c)
    by (apply Bool.eq_iff_eq_true; rewrite !Z.ltb_lt; lia).
  destruct (- x1 <? _); [done|]. rewrite Hfit. replace (- (- x1 - ascii_to_int base c)) with (x1 + ascii_to_int base c) by lia.
  by destruct (fit _ _ _).
Qed.

(** The action of a machine on a digit does what it should: it adds or
    subtracts exactly, or reports the limit. *)
Definition digit_action {S} (min max : Z) (g : sign) (base x c : Z) (s : S) (m : move S Z) : Prop :=
  let v := x * base + signed g (ascii_to_int base c) in
  exists y, m = checked (in_limits min max g v, y) s (limit_error g) /\
    (in_limits min max g v = true -> y = v) /\ 0 <= signed g v /\
    (in_limits min max g x = true -> 0 <= signed g y /\ in_limits min max g y = true).

Lemma add_action {S} min max base x c (s : S) :
  min <= 0 <= max -> is_base base -> 0 <= x -> in_whitelist (digit_chars base) c = true ->
  digit_action min max Pos base x c s (checked (add_ascii base max x c) s integer_overflow).
Proof.
  intros Hm Hb Hx Hc. pose proof (digit_range base c Hb Hc) as Hd. pose proof (base_pos base Hb).
  destruct (add_ascii_spec base max x c Hb Hx ltac:(lia) Hc) as [H1 H2]. cbn zeta in *.
  exists (add_ascii base max x c).2. cbn [signed in_limits limit_error]. rewrite <- H1.
  split_and!; [by destruct (add_ascii base max x c)|rewrite H1; intros; apply H2; lia|nia|].
  intros Hl. apply Z.leb_le in Hl. unfold add_ascii. destruct (Z.quot max base <? x) eqn:E; cbn [snd]; [split; [lia|by apply Z.leb_le]|].
  apply product_fits in E; [|lia..]. rewrite (Z.mod_small (x * base)) by lia.
  destruct (_ <? _); cbn [snd]; [rewrite Z.leb_le; lia|].
  pose proof (Z.mod_pos_bound (x * base + ascii_to_int base c) (max + 1) ltac:(lia)). rewrite Z.leb_le. lia.
Qed.

Lemma signed_action min max g base x c s :
  min <= 0 <= max -> is_base base -> 0 <= signed g x -> in_whitelist (digit_chars base) c = true ->
  digit_action min max g base x c s (digit min max g base x c s).
Proof.
  intros Hm Hb Hx Hc. pose proof (digit_range base c Hb Hc) as Hd. pose proof (base_pos base Hb).
  destruct g; cbn [signed digit] in *; unfold digit_action; cbn [signed in_limits limit_error].
  - destruct (add_ascii_signed_spec base min max x c Hb Hx Hm Hc) as (y & -> & H2 & H3). exists y. cbn [guarded].
    split_and!; [done|intros; apply H2; lia|nia|]. intros. rewrite Z.leb_le. lia.
  - rewrite sub_ascii_add by done.
    destruct (add_ascii_signed_spec base (- max) (- min) (- x) c Hb) as (y & -> & H2 & H3); [lia|lia|done|].
    exists (- y). cbn [guarded option_map fst snd].
    replace (- x * base + ascii_to_int base c <=? - min) with (min <=? x * base + - ascii_to_int base c)
      by (apply Bool.eq_iff_eq_true; rewrite !Z.leb_le; lia).
    split_and!; [done|intros; rewrite H2 by lia; lia|nia|]. intros Hl. rewrite Z.leb_le in *. lia.
Qed.

(** The value after reading more digits, from an accumulator. *)
Definition value_from (g : sign) (base x : Z) (ds : list Z) : Z :=
  fold_left (fun a c => a * base + signed g (ascii_to_int base c)) ds x.

Lemma value_from_signed g base x ds : value_from g base (signed g x) ds = signed g (fold_left (fun a c => a * base + ascii_to_int base c) ds x).
Proof.
  revert x; induction ds as [|c ds IH]; intros x; [done|]. cbn.
  rewrite <- IH. apply (f_equal (fun a => value_from g base a ds)). destruct g; cbn [signed]; ring.
Qed.

Lemma value_from_0 g base ds : value_from g base 0 ds = signed g (value base ds).
Proof. unfold value. rewrite <- (value_from_signed g base 0 ds). by destruct g. Qed.

(** Once out of the limits, always out of them. *)
Lemma value_from_escapes min max g base x ds :
  is_base base -> 0 <= signed g x -> in_limits min max g x = false ->
  Forall (fun c => in_whitelist (digit_chars base) c = true) ds ->
  in_limits min max g (value_from g base x ds) = false.
Proof.
  intros Hb. revert x; induction ds as [|c ds IH]; intros x Hx Hl Hds; [done|].
  apply Forall_cons in Hds as [Hc Hds]. pose proof (digit_range base c Hb Hc).
  assert (Hb0 : 0 < base) by (destruct Hb as [-> | [-> | [-> | ->]]]; lia).
  cbn. apply IH; [|  |done]; destruct g; cbn [signed in_limits] in *; reflect_bools; try apply Z.leb_gt; nia.
Qed.

Lemma run_of_forall p l : Forall (fun c => p c = true) (run_of p l).
Proof. induction l as [|c l IH]; [done|]. cbn. destruct (p c) eqn:?; [by constructor|done]. Qed.

(** ** Machines that accumulate digits *)

Section Decide.
  Context {S : Type} (m : fsm S Z).

(** A terminal state that accumulates the digits of a base. *)
Context (min max : Z) (Hlim : min <= 0 <= max).

Definition digit_state (g : sign) (base : Z) (s : S) : Prop :=
  is_base base /\ kind m s = term /\
  forall c x, if in_whitelist (digit_chars base) c
    then 0 <= signed g x -> digit_action min max g base x c s (body m s c x)
    else body m s c x = Stay.

Lemma digits_loop g base s x t :
  digit_state g base s -> 0 <= signed g x -> in_limits min max g x = true ->
  let v := value_from g base x (run_of (in_whitelist (digit_chars base)) t) in
  let r := after (in_whitelist (digit_chars base)) t in
  decides m s x t (if in_limits min max g v then (end_code r, Some (v, r)) else (limit_error g, None)).
Proof using Hlim.
  intros (Hb & Hk & Hbody). revert x; induction t as [|c t IH]; intros x Hx Hl.
  - cbn. rewrite Hl. by apply decides_term.
  - cbn [run_of after]. destruct (in_whitelist (digit_chars base) c) eqn:Hc.
    + pose proof (digit_nonzero base c Hb Hc) as Hc0.
      specialize (Hbody c x). rewrite Hc in Hbody. destruct (Hbody Hx) as (y & E & H2 & H3 & _). clear Hbody.
      set (x1 := x * base + signed g (ascii_to_int base c)) in *. unfold checked in E. cbn [fst snd] in E.
      change (value_from g base x (c :: run_of (in_whitelist (digit_chars base)) t))
        with (value_from g base x1 (run_of (in_whitelist (digit_chars base)) t)).
      destruct (in_limits min max g x1) eqn:Hl1.
      * rewrite H2 in E by done. eapply decides_take; [done..|]. by apply IH.
      * rewrite value_from_escapes by (try done; apply run_of_forall).
        eapply decides_stop; [done..|]. by destruct g.
    + cbn. rewrite Hl. apply decides_term; [done|]. intros c' t' [= <- <-] _.
      specialize (Hbody c x). by rewrite Hc in Hbody.
Qed.

(** The state before the digits of a base: at least one digit is required. *)
Lemma digits_required g base s0 s t :
  digit_state g base s -> kind m s0 = nonterm ->
  (forall c, hd_error t = Some c -> c <> 0 ->
     body m s0 c 0 = if in_whitelist (digit_chars base) c then Eps s 0 else Stay) ->
  decides m s0 0 t (digits_spec min max g base true t).
Proof using Hlim.
  intros Hd Hk Hb. unfold digits_spec. cbn [andb].
  destruct t as [|c t]; [by apply decides_nonterm|]. cbn [hd_error] in Hb.
  cbn [run_of after]. destruct (in_whitelist (digit_chars base) c) eqn:Hc.
  - pose proof (digit_nonzero base c (proj1 Hd) Hc) as Hc0. rewrite bool_decide_eq_false_2 by done.
    eapply decides_eps; [done|rewrite (Hb c eq_refl Hc0), Hc; reflexivity|].
    assert (H0 : 0 <= signed g 0) by (by destruct g).
    assert (Hl0 : in_limits min max g 0 = true) by (destruct g; apply Z.leb_le; lia).
    pose proof (digits_loop g base s 0 (c :: t) Hd H0 Hl0) as Hloop.
    cbn zeta in Hloop. rewrite value_from_0 in Hloop. cbn [run_of after] in Hloop.
    rewrite Hc in Hloop. exact Hloop.
  - rewrite bool_decide_eq_true_2 by done. apply decides_nonterm; [done|].
    intros c' t' [= <- <-] Hc0. by rewrite (Hb c eq_refl Hc0), Hc.
Qed.

(** The digits after a leading zero. *)
Lemma digits_optional g base s t :
  digit_state g base s -> decides m s 0 t (digits_spec min max g base false t).
Proof using Hlim.
  intros Hd. unfold digits_spec. cbn [andb].
  assert (H0 : 0 <= signed g 0) by (by destruct g).
  assert (Hl0 : in_limits min max g 0 = true) by (destruct g; apply Z.leb_le; lia).
  pose proof (digits_loop g base s 0 t Hd H0 Hl0) as Hloop. cbn zeta in Hloop.
  by rewrite value_from_0 in Hloop.
Qed.

End Decide.

(** ** Both machines read numerals the same way *)

(** The states of a machine that read a numeral of sign [g]: the state after
    the sign, the one after a leading zero, and for each base the states before
    and while reading its digits. *)
Record NumeralStates {S} (m : fsm S Z) (min max : Z) (g : sign)
    (has z sb b o sh h d : S) : Prop := {
  has_kind : kind m has = nonterm;
  has_body c x : body m has c x =
    if c =? chr "0" then Take z x
    else if in_whitelist (digit_chars 10) c then Eps d x else Stay;
  z_kind : kind m z = term;
  z_body c x : body m z c x =
    if in_whitelist (chars "bB") c then Take sb x
    else if in_whitelist (chars "xX") c then Take sh x else Eps o x;
  sb_kind : kind m sb = nonterm;
  sb_body c x : body m sb c x = if in_whitelist (digit_chars 2) c then Eps b x else Stay;
  sh_kind : kind m sh = nonterm;
  sh_body c x : body m sh c x = if in_whitelist (digit_chars 16) c then Eps h x else Stay;
  b_digits : digit_state m min max g 2 b;
  o_digits : digit_state m min max g 8 o;
  h_digits : digit_state m min max g 16 h;
  d_digits : digit_state m min max g 10 d;
}.

Lemma octal_end min max g t :
  min <= 0 <= max -> hd 0 t = 0 -> digits_spec min max g 8 false t = (end_code t, Some (0, t)).
Proof.
  intros Hlim Ht.
  assert (Hl0 : in_limits min max g 0 = true) by (destruct g; apply Z.leb_le; lia).
  assert (H : run_of (in_whitelist (digit_chars 8)) t = [] /\ after (in_whitelist (digit_chars 8)) t = t).
  { destruct t as [|c t]; [done|]. cbn in Ht. subst c. done. }
  unfold digits_spec. cbn [andb]. destruct H as [-> ->]. change (value 8 []) with 0.
  replace (signed g 0) with 0 by (by destruct g). by rewrite Hl0.
Qed.

Lemma numeral_decides {S} (m : fsm S Z) min max g has z sb b o sh h d t :
  min <= 0 <= max -> NumeralStates m min max g has z sb b o sh h d ->
  decides m has 0 t (numeral_spec min max g t).
Proof.
  intros Hlim Hn. unfold numeral_spec. destruct (Z.eqb_spec (hd 0 t) (chr "0")) as [Ht|Ht].
  - destruct t as [|c t]; [done|]. cbn [hd tl] in *. subst c.
    eapply decides_take; [done|by rewrite (has_body _ _ _ _ _ _ _ _ _ _ _ _ Hn)|].
    destruct (Z.eq_dec (hd 0 t) 0) as [H0|H0].
    { rewrite H0. cbn [in_whitelist]. change (in_whitelist (chars "bB") 0) with false.
      change (in_whitelist (chars "xX") 0) with false. cbn match.
      rewrite octal_end by done. apply decides_term; [apply Hn|].
      intros c' t' -> Hc. cbn in H0. done. }
    destruct t as [|c t]; [done|]. cbn [hd tl] in *.
    pose proof (z_body _ _ _ _ _ _ _ _ _ _ _ _ Hn c 0) as Hz.
    destruct (in_whitelist (chars "bB") c); [|destruct (in_whitelist (chars "xX") c)].
    + eapply decides_take; [done..|]. apply (digits_required m min max Hlim g 2 sb b); [apply Hn..|].
      intros. apply Hn.
    + eapply decides_take; [done..|]. apply (digits_required m min max Hlim g 16 sh h); [apply Hn..|].
      intros. apply Hn.
    + eapply decides_eps; [done..|]. apply digits_optional; [done|apply Hn].
  - apply (digits_required m min max Hlim g 10 has d); [apply Hn..|].
    intros c Hc _. destruct t as [|c' t]; [done|]. injection Hc as ->. cbn in Ht.
    rewrite (has_body _ _ _ _ _ _ _ _ _ _ _ _ Hn), (proj2 (Z.eqb_neq c (chr "0")) Ht). done.
Qed.

Lemma u_numeral max :
  0 <= 0 <= max ->
  NumeralStates (u_fsm max) 0 max Pos u_has_plus u_zero u_start_bin u_bin u_oct u_start_hex u_hex u_dec.
Proof.
  intros Hm. assert (forall base s, is_base base -> (forall c x, body (u_fsm max) s c x =
    if in_whitelist (digit_chars base) c then checked (add_ascii base max x c) s integer_overflow else Stay) ->
    forall c x, if in_whitelist (digit_chars base) c
      then 0 <= signed Pos x -> digit_action 0 max Pos base x c s (body (u_fsm max) s c x)
      else body (u_fsm max) s c x = Stay) as H.
  { intros base s Hb Hs c x. rewrite Hs. destruct (in_whitelist _ c) eqn:Hc; [|done]. intros. by apply add_action. }
  split; try done; (split; [unfold is_base; tauto|]); (split; [done|]); apply H; try done; unfold is_base; tauto.
Qed.

Lemma s_numeral min max g :
  min <= 0 <= max ->
  NumeralStates (s_fsm min max) min max g
    (has_sign g) (zero g) (start_bin g) (bin g) (oct g) (start_hex g) (hex g) (dec g).
Proof.
  intros Hm. assert (forall base s, is_base base -> (forall c x, body (s_fsm min max) s c x =
    if in_whitelist (digit_chars base) c then digit min max g base x c s else Stay) ->
    forall c x, if in_whitelist (digit_chars base) c
      then 0 <= signed g x -> digit_action min max g base x c s (body (s_fsm min max) s c x)
      else body (s_fsm min max) s c x = Stay) as H.
  { intros base s Hb Hs c x. rewrite Hs. destruct (in_whitelist _ c) eqn:Hc; [|done]. intros. by apply signed_action. }
  destruct g; split; try done; (split; [unfold is_base; tauto|]); (split; [done|]); apply H; try done; unfold is_base; tauto.
Qed.

(** ** The machines run to their end *)

Definition u_rank (s : ustate) : nat :=
  match s with u_init => 3 | u_has_plus => 2 | u_dec | u_bin | u_oct | u_hex => 0 | _ => 1 end.

Definition s_rank (s : sstate) : nat :=
  match s with s_init => 3 | has_sign _ => 2 | dec _ | bin _ | oct _ | hex _ => 0 | _ => 1 end.

Lemma checked_take {S L} (a : bool * L) (t : S) e s' l' : checked a t e = Take s' l' -> t = s'.
Proof. unfold checked. destruct a.1; congruence. Qed.

(** A character that a class or a comparison admits is not the null byte. *)
Ltac not_nul := intros ->; match goal with H : _ = true |- _ => vm_compute in H; done end.

#[export] Instance u_fsm_ok max : FsmOk (u_fsm max) (fun _ _ => True) u_rank.
Proof.
  split.
  - intros []; cbn; lia.
  - intros s ch l s' l' _ Hat Hb. split; [|done]. apply Hat. by destruct s.
  - intros s ch l s' act _ _ Hb.
    destruct s; cbn [body u_fsm u_body] in Hb; unfold checked in Hb; split_body; done.
  - intros s ch l s' l' _ Hb. split; [|done].
    destruct s; cbn [body u_fsm u_body] in Hb; split_body; try done;
      try (injection Hb as <- _; cbn; lia); unfold checked in Hb; split_body; done.
  - intros s l ps f s' _ Hb.
    destruct s; cbn [body u_fsm u_body] in Hb; unfold checked in Hb; split_body; done.
  - intros s ch l c l' _ Hb. destruct s; cbn [body u_fsm u_body] in Hb; unfold checked in Hb; split_body; try done; injection Hb as <- _; (split; [done|by exists u_init]).
  - intros [] ch l _ Hk; done.
Qed.

(** The accumulator is a number of the type with the sign of the state. *)
Definition s_inv (min max : Z) (s : sstate) (x : Z) : Prop :=
  match s with
  | bin g | oct g | hex g | dec g => 0 <= signed g x /\ in_limits min max g x = true
  | _ => x = 0
  end.

Lemma s_inv_zero min max s : min <= 0 <= max -> s_inv min max s 0.
Proof. intros H. destruct s as [| [] | [] | [] | [] | [] | [] | [] | [] | []]; cbn; try split; try lia; apply Z.leb_le; lia. Qed.

Lemma s_digit_ok min max g base x c s m :
  min <= 0 <= max -> is_base base -> in_whitelist (digit_chars base) c = true ->
  0 <= signed g x /\ in_limits min max g x = true -> digit min max g base x c s = m ->
  match m with
  | Take s' x' => s' = s /\ 0 <= signed g x' /\ in_limits min max g x' = true
  | Stop e x' => accepted e = false /\ 0 <= signed g x' /\ in_limits min max g x' = true
  | _ => False
  end.
Proof.
  intros Hm Hb Hc [Hx Hl] <-. destruct (signed_action min max g base x c s Hm Hb Hx Hc) as (y & -> & _ & _ & H).
  destruct (H Hl) as [H1 H2]. unfold checked. cbn [fst snd]. destruct (in_limits min max g (_ + _)); [done|]. by destruct g.
Qed.

Ltac s_case Hi Hb :=
  match type of Hb with
  | digit _ _ _ _ _ _ _ = _ => apply s_digit_ok in Hb; [|done|unfold is_base; lia|done|done]
  end.

#[export] Instance s_fsm_ok min max (Hm : min <= 0 <= max) : FsmOk (s_fsm min max) (s_inv min max) s_rank.
Proof.
  split.
  - intros []; cbn; lia.
  - intros s ch l s' l' Hi Hat Hb. split; [apply Hat; by destruct s|].
    destruct s; cbn [body s_fsm s_body] in Hb; split_body; try done;
      first [s_case Hi Hb; destruct Hb as (-> & Hb); exact Hb
            |injection Hb as <- <-; cbn in Hi; subst l; by apply s_inv_zero].
  - intros s ch l s' act Hi _ Hb.
    destruct s; cbn [body s_fsm s_body] in Hb; split_body; try done; by s_case Hi Hb.
  - intros s ch l s' l' Hi Hb.
    destruct s; cbn [body s_fsm s_body] in Hb; split_body; try done; try (by s_case Hi Hb);
      injection Hb as <- <-; cbn in Hi; subst l; (split; [cbn; lia|by apply s_inv_zero]).
  - intros s l ps f s' Hi Hb.
    destruct s; cbn [body s_fsm s_body] in Hb; split_body; try done; by s_case Hi Hb.
  - intros s ch l c l' Hi Hb.
    destruct s; cbn [body s_fsm s_body] in Hb; split_body; try done;
      s_case Hi Hb; destruct Hb as (Ha & Hb); (split; [done|]); by exists (dec g).
  - intros [] ch l _ Hk; done.
Qed.

(** ** The theorems *)

Lemma decides_reads {S} (m : fsm S Z) inv rank `{!FsmOk m inv rank} s x ps v :
  inv s x -> decides m s x (rest ps) v ->
  exists ps' y, deliver (run_fsm m s x ps) = Some (ps', y) /\ verdict_of ps' y = v.
Proof.
  destruct ps as [t co ln col]. cbn [rest]. intros Hi (c & x' & r & He & ->).
  apply (ends_reads m inv rank) in He; [|done].
  destruct (He co ln col) as (ln' & col' & Hr). unfold deliver. rewrite Hr. cbn [code].
  eexists _, _. split; [done|]. unfold verdict_of. cbn. by destruct (accepted c).
Qed.

Lemma value_nonneg base ds :
  is_base base -> Forall (fun c => in_whitelist (digit_chars base) c = true) ds -> 0 <= value base ds.
Proof.
  intros Hb Hds. unfold value.
  assert (Hb0 : 0 < base) by (destruct Hb as [-> | [-> | [-> | ->]]]; lia).
  enough (H : forall x, 0 <= x -> 0 <= fold_left (fun a c => a * base + ascii_to_int base c) ds x) by (by apply H).
  induction Hds as [|c ds Hc _ IH]; intros x Hx; [done|].
  cbn [fold_left]. apply IH. pose proof (digit_range base c Hb Hc). nia.
Qed.

(** Whatever the reference delivers is a number of the type. *)
Lemma digits_spec_bounds min max g base req t c v r :
  min <= 0 <= max -> is_base base -> digits_spec min max g base req t = (c, Some (v, r)) -> min <= v <= max.
Proof.
  intros Hm Hb. unfold digits_spec. destruct (_ && _); [done|].
  pose proof (value_nonneg base _ Hb (run_of_forall (in_whitelist (digit_chars base)) t)) as Hv.
  destruct (in_limits _ _ _ _) eqn:Hl; [|done]. intros [= _ <- _].
  destruct g; cbn [signed in_limits] in *; bool_lia.
Qed.

Lemma signed_spec_bounds min max t c v r :
  min <= 0 <= max -> signed_spec min max t = (c, Some (v, r)) -> min <= v <= max.
Proof.
  intros Hm. unfold signed_spec, numeral_spec.
  assert (is_base 2 /\ is_base 8 /\ is_base 10 /\ is_base 16) by (unfold is_base; tauto).
  repeat case_if; apply digits_spec_bounds; tauto.
Qed.

Lemma unsigned_decides max t : 0 <= max -> decides (u_fsm max) u_init 0 t (unsigned_spec max t).
Proof.
  intros Hm. unfold unsigned_spec. induction t as [|c t IH].
  { eapply decides_nonterm; done. }
  cbn [after]. destruct (in_whitelist [32; 9] c) eqn:Hbl.
  { eapply decides_take; [not_nul|cbn [u_fsm body u_body]; by rewrite Hbl|done]. }
  cbn [hd tl]. pose proof (fun t H => numeral_decides (u_fsm max) 0 max Pos _ _ _ _ _ _ _ _ t H (u_numeral max H)) as Hnum.
  destruct (Z.eqb_spec c (chr "+")) as [->|Hp].
  - eapply decides_take; [done..|]. apply (Hnum t); lia.
  - destruct (Z.eq_dec c 0) as [->|Hc].
    { apply (decides_nonterm (u_fsm max) u_init 0 (0 :: t)); [done|]. by intros c' t' [= <- _]. }
    eapply decides_eps; [done| |apply (Hnum (c :: t)); lia].
    cbn [u_fsm body u_body]. by rewrite Hbl, (proj2 (Z.eqb_neq _ _) Hp).
Qed.

Lemma signed_decides min max t :
  min <= 0 <= max -> decides (s_fsm min max) s_init 0 t (signed_spec min max t).
Proof.
  intros Hm. unfold signed_spec. induction t as [|c t IH].
  { eapply decides_nonterm; done. }
  cbn [after]. destruct (in_whitelist [32; 9] c) eqn:Hbl.
  { eapply decides_take; [not_nul|cbn [s_fsm body s_body]; by rewrite Hbl|done]. }
  cbn [hd tl]. pose proof (fun g t H => numeral_decides (s_fsm min max) min max g _ _ _ _ _ _ _ _ t H (s_numeral min max g H)) as Hnum.
  destruct (Z.eqb_spec c (chr "+")) as [->|Hp].
  { eapply decides_take; [done..|]. apply (Hnum Pos t); lia. }
  destruct (Z.eqb_spec c (chr "-")) as [->|Hn].
  { eapply decides_take; [done..|]. apply (Hnum Neg t); lia. }
  destruct (Z.eq_dec c 0) as [->|Hc].
  { apply (decides_nonterm (s_fsm min max) s_init 0 (0 :: t)); [done|]. by intros c' t' [= <- _]. }
  eapply decides_eps; [done| |apply (Hnum Pos (c :: t)); lia].
  cbn [s_fsm body s_body]. by rewrite Hbl, (proj2 (Z.eqb_neq _ _) Hp), (proj2 (Z.eqb_neq _ _) Hn).
Qed.

(** For every unsigned integer type and every input, [read_unsigned_integer]
    ends and does what the reference does: it skips blanks and an optional plus
    sign, chooses the base by the prefix, delivers the value of the longest run
    of digits exactly when it fits the type and then stops right behind them,
    and otherwise reports an overflow or the unexpected character. *)
Theorem read_unsigned_exact max ps :
  0 <= max ->
  exists ps' x, read_unsigned_integer max ps = Some (ps', x)
    /\ verdict_of ps' x = unsigned_spec max (rest ps).
Proof.
  intros Hm. apply (decides_reads (u_fsm max) (fun _ _ => True) u_rank); [done|]. by apply unsigned_decides.
Qed.

Lemma read_unsigned_exact_witness :
  exists ps' x, read_unsigned_integer 255 (init_state (chars " 0xffz")) = Some (ps', x)
    /\ verdict_of ps' x = (trailing_character, Some (255, chars "z")).
Proof. apply (read_unsigned_exact 255 (init_state (chars " 0xffz"))). lia. Defined.

(** C26. For every signed integer type, given by its limits, and every input,
    [read_signed_integer] returns: none of its operations leaves the limits of
    the type, which would be undefined.  It does what the reference does: it
    skips blanks, the sign decides between adding digits up to the maximum and
    subtracting them down to the minimum, the prefix chooses the base, and
    exactly the numbers of the type are delivered, the smallest one included,
    with the cursor behind the last digit; any other number ends in an overflow
    or an underflow. *)
Theorem read_signed_exact min max ps :
  min <= 0 <= max ->
  exists ps' x, read_signed_integer min max ps = Some (ps', x)
    /\ verdict_of ps' x = signed_spec min max (rest ps)
    /\ (forall v, x = Some v -> min <= v <= max).
Proof.
  intros Hm. pose proof (s_fsm_ok min max Hm) as Hok.
  destruct (decides_reads _ _ s_rank _ _ ps _ (s_inv_zero min max s_init Hm) (signed_decides min max (rest ps) Hm)) as (ps' & x & Hr & Hv).
  exists ps', x. split_and!; [done..|]. intros v ->. by apply (signed_spec_bounds min max (rest ps) (code ps') v (rest ps')).
Qed.

Lemma read_signed_exact_witness :
  exists ps' x, read_signed_integer (-128) 127 (init_state (chars "-128")) = Some (ps', x)
    /\ verdict_of ps' x = (success, Some (-128, []))
    /\ (forall v, x = Some v -> -128 <= v <= 127).
Proof. apply (read_signed_exact (-128) 127 (init_state (chars "-128"))). lia. Defined.

End ReadInteger.
