(* ===== verification/Printer.v ===== *)
(** Printing of libcaf_core: the integer and string printers of
    [detail/print.hpp] and the parser [detail/parser/read_string.hpp] that
    configuration files and command lines use for strings.

    Printed integers are read back by the parsers of [ReadInteger] for every
    width; printed strings are read back exactly when they hold no control
    character outside [\t \n \v \f \r]. *)
From Stdlib Require Import Strings.Ascii Strings.String.
From S2P Require Import Prelude.
From S2P Require Import Fsm.
From S2P Require Import ReadInteger.
#[local] Open Scope Z_scope.
#[local] Open Scope caf_scope.

Import Fsm ReadInteger.

Module Printer.

(** ** Integers *)

(** The digits that the two loops of [print] store into [stack_buffer], the last
    digit first; the buffer has room for 24 of them. *)
Fixpoint stack_digits (room : nat) (x : Z) : list Z :=
  match room with
  | O => []
  | S n => x mod 10 + 48 :: (if x / 10 =? 0 then [] else stack_digits n (x / 10))
  end.

(** The literal for the smallest value, which has no positive counterpart. *)
Definition min_literal (w : Z) : list Z :=
  if w =? 8 then chars "-128"
  else if w =? 16 then chars "-32768"
  else if w =? 32 then chars "-2147483648"
  else chars "-9223372036854775808".

Definition print_signed (w x : Z) : list Z :=
  if x =? - 2 ^ (w - 1) then min_literal w
  else if x <? 0 then chr "-" :: rev (stack_digits 24 (- x))
  else rev (stack_digits 24 x).

Definition print_unsigned (x : Z) : list Z := rev (stack_digits 24 x).

Definition print_bool (x : bool) : list Z := if x then chars "true" else chars "false".

(** ** Strings *)

Definition to_hex (d : Z) : Z := List.nth (Z.to_nat d) (chars "0123456789abcdef") 0.

(** The quotation mark and the backslash. *)
Definition quote : Z := 34.
Definition backslash : Z := 92.

Definition print_escaped_to (c : Z) : list Z :=
  if c =? backslash then [backslash; backslash]
  else if c =? 8 then [backslash; chr "b"]
  else if c =? 12 then [backslash; chr "f"]
  else if c =? 10 then [backslash; chr "n"]
  else if c =? 13 then [backslash; chr "r"]
  else if c =? 9 then [backslash; chr "t"]
  else if c =? 11 then [backslash; chr "v"]
  else if c =? quote then [backslash; quote]
  else if 31 <? c then [c]
  else [backslash; chr "u"; chr "0"; chr "0"; to_hex (c .>> 4); to_hex (c .& 15)].

Definition escaped_body (s : list Z) : list Z := flat_map print_escaped_to s.

Definition print_escaped (s : list Z) : list Z := quote :: escaped_body s ++ [quote].

Fixpoint print_unescaped (s : list Z) : list Z :=
  match s with
  | [] => []
  | c :: s' =>
      if c =? backslash then
        match s' with
        | [] => []
        | e :: s'' =>
            (if e =? quote then quote
             else if e =? backslash then backslash
             else if e =? chr "b" then 8
             else if e =? chr "f" then 12
             else if e =? chr "n" then 10
             else if e =? chr "r" then 13
             else if e =? chr "t" then 9
             else if e =? chr "v" then 11
             else chr "?") :: print_unescaped s''
        end
      else c :: print_unescaped s'
  end.

(** ** [read_string] *)

Inductive rstate := r_init | read_chars | escape | read_unquoted_chars | r_done.

(** The result so far and the quotation mark that ends it. *)
Record rlocals := RL { res : list Z; quote_mark : Z }.

Definition push (l : rlocals) (c : Z) : rlocals := RL (res l ++ [c]) (quote_mark l).

Definition r_kind (s : rstate) : state_kind :=
  match s with read_unquoted_chars | r_done => term | _ => nonterm end.

Definition single_quote : Z := 39.

Definition r_body (s : rstate) (ch : Z) (l : rlocals) : move rstate rlocals :=
  match s with
  | r_init =>
      if in_whitelist [32; 9] ch then Take r_init l
      else if ch =? quote then Take read_chars (RL (res l) quote)
      else if ch =? single_quote then Take read_chars (RL (res l) single_quote)
      else if in_whitelist alphanumeric_chars ch then Take read_unquoted_chars (push l ch)
      else Stay
  | read_chars =>
      if ch =? backslash then Take escape l
      else if (quote_mark l =? quote) && (ch =? quote) then Take r_done l
      else if (quote_mark l =? single_quote) && (ch =? single_quote) then Take r_done l
      else if ch =? 10 then Stop unexpected_newline l
      else Take read_chars (push l ch)
  | escape =>
      if ch =? chr "f" then Take read_chars (push l 12)
      else if ch =? chr "n" then Take read_chars (push l 10)
      else if ch =? chr "r" then Take read_chars (push l 13)
      else if ch =? chr "t" then Take read_chars (push l 9)
      else if ch =? chr "v" then Take read_chars (push l 11)
      else if ch =? backslash then Take read_chars (push l backslash)
      else if (quote_mark l =? quote) && (ch =? quote) then Take read_chars (push l quote)
      else if (quote_mark l =? single_quote) && (ch =? single_quote)
      then Take read_chars (push l single_quote)
      else Stop invalid_escape_sequence l
  | read_unquoted_chars =>
      if in_whitelist alphanumeric_chars ch then Take read_unquoted_chars (push l ch)
      else Eps r_done l
  | r_done => if in_whitelist [32; 9] ch then Take r_done l else Stay
  end.

Definition r_fsm : fsm rstate rlocals := Fsm r_kind r_body.

Definition read_string (ps : parser_state) : option (parser_state * option (list Z)) :=
  match run_fsm r_fsm r_init (RL [] 0) ps with
  | Some (ps', l) => Some (ps', if accepted (code ps') then Some (res l) else None)
  | None => None
  end.

(** ** Printed integers are read back *)

Lemma value_snoc base ds c : value base (ds ++ [c]) = value base ds * base + ascii_to_int base c.
Proof. unfold value. by rewrite fold_left_app. Qed.

Definition decimal (ds : list Z) : Prop := Forall (fun c => in_whitelist decimal_chars c = true) ds.

Lemma decimal_char d : 0 <= d < 10 -> in_whitelist decimal_chars (d + 48) = true /\ ascii_to_int 10 (d + 48) = d.
Proof.
  intros Hd. assert (d = 0 \/ d = 1 \/ d = 2 \/ d = 3 \/ d = 4 \/ d = 5 \/ d = 6 \/ d = 7 \/ d = 8 \/ d = 9) as H by lia.
  repeat destruct H as [-> | H]; [..|subst d]; done.
Qed.

(** The printed digits are a numeral without leading zeros. *)
Lemma stack_digits_spec n x :
  0 <= x < 10 ^ Z.of_nat n -> (n <> 0)%nat ->
  decimal (rev (stack_digits n x)) /\ value 10 (rev (stack_digits n x)) = x
  /\ (hd 0 (rev (stack_digits n x)) = 48 -> x = 0)
  /\ rev (stack_digits n x) <> [].
Proof.
  revert x; induction n as [|n IH]; intros x Hx Hn; [done|]. clear Hn.
  destruct (decimal_char (x mod 10)) as [Hc Hv]; [apply Z.mod_pos_bound; lia|].
  pose proof (Z.div_mod x 10 ltac:(lia)) as Hdm.
  cbn [stack_digits]. destruct (Z.eqb_spec (x / 10) 0) as [H0|H0].
  - cbn [rev app]. split_and!; [by constructor| |cbn [hd]; lia|done].
    rewrite <- (app_nil_l [_]), value_snoc, Hv. unfold value. cbn [fold_left]. lia.
  - assert (Hr : 0 <= x / 10 < 10 ^ Z.of_nat n).
    { split; [apply Z.div_pos; lia|]. apply Z.div_lt_upper_bound; [lia|].
      rewrite Nat2Z.inj_succ, Z.pow_succ_r in Hx by lia. lia. }
    assert (Hn : (n <> 0)%nat) by (intros ->; cbn in Hr; lia).
    destruct (IH (x / 10) Hr Hn) as (H1 & H2 & H3 & H4). cbn [rev].
    destruct (rev (stack_digits n (x / 10))) as [|d ds]; [done|].
    split_and!; [|rewrite value_snoc, H2, Hv; lia| |done].
    + unfold decimal. rewrite Forall_app. split; [done|by constructor].
    + intros Hh. exfalso. apply H0. by apply H3.
Qed.

Lemma run_of_all p ds r :
  Forall (fun c => p c = true) ds -> hd_error r = None \/ (exists c r', r = c :: r' /\ p c = false) ->
  run_of p (ds ++ r) = ds /\ after p (ds ++ r) = r.
Proof.
  intros Hds Hr. induction Hds as [|c ds Hc _ IH]; cbn [app run_of after].
  - destruct Hr as [Hr | (c & r' & -> & Hc)]; [by destruct r|]. cbn. by rewrite Hc.
  - rewrite Hc. by destruct IH as [-> ->].
Qed.

(** The reference reads a numeral without leading zeros. *)
Lemma numeral_spec_decimal min max g ds :
  min <= 0 <= max -> decimal ds -> ds <> [] -> (hd 0 ds = 48 -> ds = [48]) ->
  in_limits min max g (signed g (value 10 ds)) = true ->
  numeral_spec min max g ds = (success, Some (signed g (value 10 ds), [])).
Proof.
  intros Hm Hds Hne Hz Hl. unfold numeral_spec.
  destruct (Z.eqb_spec (hd 0 ds) (chr "0")) as [H0|H0].
  - rewrite (Hz H0) in *. cbn [tl hd]. cbn match.
    change (in_whitelist (chars "bB") 0) with false. change (in_whitelist (chars "xX") 0) with false. cbn match.
    rewrite octal_end by done. by destruct g.
  - destruct (run_of_all (in_whitelist decimal_chars) ds []) as [H1 H2]; [done|by left|].
    rewrite app_nil_r in H1, H2. unfold digits_spec. change (digit_chars 10) with decimal_chars.
    rewrite H1, H2, bool_decide_eq_false_2 by done. cbn [andb]. by rewrite Hl.
Qed.

Lemma printed_numeral x :
  0 <= x < 10 ^ 24 ->
  let ds := rev (stack_digits 24 x) in
  decimal ds /\ ds <> [] /\ (hd 0 ds = 48 -> ds = [48]) /\ value 10 ds = x.
Proof.
  intros Hx. destruct (stack_digits_spec 24 x Hx) as (H1 & H2 & H3 & H4); [done|].
  split_and!; [done..| |done]. intros Hh. by rewrite (H3 Hh).
Qed.

(** A digit is neither a blank nor a sign. *)
Lemma decimal_plain c :
  in_whitelist decimal_chars c = true ->
  in_whitelist [32; 9] c = false /\ (c =? chr "+") = false /\ (c =? chr "-") = false.
Proof.
  intros Hc.
  pose proof (class_check decimal_chars
    (fun c => negb (in_whitelist [32; 9] c) && negb (c =? chr "+") && negb (c =? chr "-")) c eq_refl Hc) as H. cbn beta in H.
  destruct (in_whitelist [32; 9] c), (c =? chr "+"), (c =? chr "-"); done.
Qed.

Lemma digits_text ds :
  decimal ds -> ds <> [] ->
  after (in_whitelist [32; 9]) ds = ds /\ (hd 0 ds =? chr "+") = false /\ (hd 0 ds =? chr "-") = false.
Proof.
  intros Hds Hne. destruct ds as [|c ds]; [done|]. apply Forall_cons in Hds as [Hc _].
  destruct (decimal_plain c Hc) as (H1 & H2 & H3). cbn [after]. by rewrite H1.
Qed.

Definition is_width (w : Z) : Prop := w = 8 \/ w = 16 \/ w = 32 \/ w = 64.

Lemma signed_spec_printed w x :
  is_width w -> is_sint w x ->
  signed_spec (- 2 ^ (w - 1)) (2 ^ (w - 1) - 1) (print_signed w x) = (success, Some (x, [])).
Proof.
  intros Hw Hx. unfold is_sint in Hx.
  assert (Hp : 0 < 2 ^ (w - 1) <= 2 ^ 63) by (destruct Hw as [-> | [-> | [-> | ->]]]; lia).
  unfold print_signed. destruct (Z.eqb_spec x (- 2 ^ (w - 1))) as [->|Hmin].
  { destruct Hw as [-> | [-> | [-> | ->]]]; vm_compute; done. }
  destruct (Z.ltb_spec x 0) as [Hneg|Hpos].
  - destruct (printed_numeral (- x)) as (H1 & H2 & H3 & H4); [lia|].
    unfold signed_spec. cbn [after]. change (in_whitelist [32; 9] (chr "-")) with false. cbn [hd tl].
    change (chr "-" =? chr "+") with false. rewrite Z.eqb_refl.
    rewrite numeral_spec_decimal; [|lia|done..|]; rewrite H4; cbn [signed in_limits].
    + do 3 f_equal. lia.
    + apply Z.leb_le. lia.
  - destruct (printed_numeral x) as (H1 & H2 & H3 & H4); [lia|].
    destruct (digits_text _ H1 H2) as (H5 & H6 & H7).
    unfold signed_spec. rewrite H5, H6, H7.
    rewrite numeral_spec_decimal; [|lia|done..|]; rewrite H4; cbn [signed in_limits]; [done|].
    apply Z.leb_le. lia.
Qed.

(** Every integer of every width is read back from its printed form, the
    smallest value of the signed types included: the parser consumes the whole
    text and delivers the number. *)
Theorem print_read_integer w x :
  is_width w ->
  (is_sint w x -> exists ps, read_signed_integer (- 2 ^ (w - 1)) (2 ^ (w - 1) - 1)
                    (init_state (print_signed w x)) = Some (ps, Some x) /\ code ps = success /\ rest ps = [])
  /\ (is_uint w x -> exists ps, read_unsigned_integer (2 ^ w - 1)
                    (init_state (print_unsigned x)) = Some (ps, Some x) /\ code ps = success /\ rest ps = []).
Proof.
  intros Hw. split; intros Hx.
  - assert (0 < 2 ^ (w - 1)) by (destruct Hw as [-> | [-> | [-> | ->]]]; lia).
    assert (Hm : - 2 ^ (w - 1) <= 0 <= 2 ^ (w - 1) - 1) by lia. pose proof (s_fsm_ok _ _ Hm) as Hok.
    destruct (decides_reads _ _ s_rank _ _ (init_state (print_signed w x)) _ (s_inv_zero _ _ s_init Hm)
      (signed_decides (- 2 ^ (w - 1)) (2 ^ (w - 1) - 1) _ Hm)) as (ps & y & Hr & Hv).
    cbn [init_state rest] in Hv. rewrite signed_spec_printed in Hv by done.
    unfold read_signed_integer. rewrite Hr. destruct y as [y|]; inversion Hv; subst; eauto.
  - unfold is_uint in Hx. assert (Hp : 0 < 2 ^ w <= 2 ^ 64) by (destruct Hw as [-> | [-> | [-> | ->]]]; lia).
    destruct (decides_reads (u_fsm (2 ^ w - 1)) (fun _ _ => True) u_rank _ _ (init_state (print_unsigned x)) _ I
      (unsigned_decides (2 ^ w - 1) _ ltac:(lia))) as (ps & y & Hr & Hv).
    cbn [init_state rest] in Hv.
    destruct (printed_numeral x) as (H1 & H2 & H3 & H4); [lia|].
    destruct (digits_text _ H1 H2) as (H5 & H6 & H7).
    unfold unsigned_spec, print_unsigned in Hv. rewrite H5, H6 in Hv.
    rewrite numeral_spec_decimal in Hv; [|lia|done..|rewrite H4; cbn [signed in_limits]; apply Z.leb_le; lia].
    rewrite H4 in Hv. cbn [signed] in Hv.
    unfold read_unsigned_integer. rewrite Hr.
    destruct y as [y|]; inversion Hv; subst; eauto.
Qed.

Lemma print_read_integer_witness :
  exists ps, read_signed_integer (-128) 127 (init_state (print_signed 8 (-128))) = Some (ps, Some (-128))
    /\ code ps = success /\ rest ps = [].
Proof. apply (print_read_integer 8 (-128)); [left; reflexivity|split; vm_compute; congruence]. Defined.

(** ** Printed strings are read back *)

Definition r_rank (s : rstate) : nat := match s with read_unquoted_chars => 1 | _ => 0 end.

#[export] Instance r_fsm_ok : FsmOk r_fsm (fun _ _ => True) r_rank.
Proof.
  split.
  - intros []; cbn; lia.
  - intros s ch l s' l' _ Hat Hb. split; [|done]. apply Hat. by destruct s.
  - intros s ch l s' act _ _ Hb. destruct s; cbn [body r_fsm r_body] in Hb; split_body; done.
  - intros s ch l s' l' _ Hb. split; [|done].
    destruct s; cbn [body r_fsm r_body] in Hb; split_body; try done; injection Hb as <- _; cbn; lia.
  - intros s l ps f s' _ Hb. destruct s; cbn [body r_fsm r_body] in Hb; split_body; done.
  - intros s ch l c l' _ Hb. destruct s; cbn [body r_fsm r_body] in Hb; split_body; try done; injection Hb as <- _; (split; [done|by exists r_init]).
  - intros [] ch l _ Hk; done.
Qed.

(** The characters that [read_string] understands in their printed form. *)
Definition readable (c : Z) : bool := (9 <=? c) && (c <=? 13) || (31 <? c).

(** The printed form of a character, by cases. *)
Lemma print_escaped_cases c :
  (exists e, print_escaped_to c = [backslash; e] /\ e <> 0 /\ readable c = true
      /\ forall l, quote_mark l = quote -> body r_fsm escape e l = Take read_chars (push l c))
  \/ (c = 8 /\ print_escaped_to c = [backslash; chr "b"])
  \/ (31 < c /\ c <> backslash /\ c <> quote /\ print_escaped_to c = [c])
  \/ (c <= 31 /\ readable c = false
      /\ print_escaped_to c = [backslash; chr "u"; chr "0"; chr "0"; to_hex (c .>> 4); to_hex (c .& 15)]).
Proof.
  assert (Hesc : forall e, print_escaped_to c = [backslash; e] -> e <> 0 -> readable c = true ->
    (forall l, quote_mark l = quote -> body r_fsm escape e l = Take read_chars (push l c)) ->
    exists e, print_escaped_to c = [backslash; e] /\ e <> 0 /\ readable c = true
      /\ forall l, quote_mark l = quote -> body r_fsm escape e l = Take read_chars (push l c)) by eauto.
  destruct (Z.eq_dec c 8) as [->|H8]; [by right; left|].
  destruct (Z.eq_dec c 92) as [->|H1]; [left; by eapply Hesc|].
  destruct (Z.eq_dec c 12) as [->|H2]; [left; by eapply Hesc|].
  destruct (Z.eq_dec c 10) as [->|H3]; [left; by eapply Hesc|].
  destruct (Z.eq_dec c 13) as [->|H4]; [left; by eapply Hesc|].
  destruct (Z.eq_dec c 9) as [->|H5]; [left; by eapply Hesc|].
  destruct (Z.eq_dec c 11) as [->|H6]; [left; by eapply Hesc|].
  destruct (Z.eq_dec c 34) as [->|H7].
  { left. eapply (Hesc quote); [done..|]. intros l Hl. cbn [body r_fsm r_body]. by rewrite Hl. }
  right. right. unfold print_escaped_to, backslash, quote.
  rewrite !(proj2 (Z.eqb_neq _ _)) by done. unfold readable.
  destruct (Z.ltb_spec 31 c); [by left|right]. split_and!; [lia| |done].
  apply orb_false_iff. split; [|done]. destruct (Z.leb_spec 9 c), (Z.leb_spec c 13); try done. lia.
Qed.

Lemma read_chars_readable c l t co l' r :
  readable c = true -> quote_mark l = quote ->
  ends r_fsm read_chars (push l c) t co l' r ->
  ends r_fsm read_chars l (print_escaped_to c ++ t) co l' r.
Proof.
  intros Hc Hq He.
  destruct (print_escaped_cases c) as [(e & -> & H0 & _ & Hb) | [[-> _] | [(H1 & H2 & H3 & ->) | (_ & Hn & _)]]];
    [| done| |congruence]; cbn [app].
  - eapply ends_take; [done|reflexivity|]. eapply ends_take; [done|by apply Hb|exact He].
  - eapply ends_take; [lia| |exact He]. cbn [body r_fsm r_body]. rewrite Hq.
    rewrite (proj2 (Z.eqb_neq c backslash) H2), (proj2 (Z.eqb_neq c quote) H3).
    rewrite (proj2 (Z.eqb_neq c 10)) by lia. done.
Qed.

Lemma read_chars_unreadable c l t :
  readable c = false ->
  exists r, ends r_fsm read_chars l (print_escaped_to c ++ t) invalid_escape_sequence l r.
Proof.
  intros Hc.
  destruct (print_escaped_cases c) as [(e & Hp & H0 & H8 & Hb) | [[-> ->] | [(H1 & _) | (_ & _ & ->)]]]; cbn [app].
  - congruence.
  - eexists. eapply ends_take; [done|reflexivity|]. apply ends_stop; [done|].
    cbn [body r_fsm r_body]. change (chr "b" =? quote) with false. change (chr "b" =? single_quote) with false.
    by rewrite !andb_false_r.
  - exfalso. unfold readable in Hc. bool_lia.
  - eexists. eapply ends_take; [done|reflexivity|]. apply ends_stop; [done|].
    cbn [body r_fsm r_body]. change (chr "u" =? quote) with false. change (chr "u" =? single_quote) with false.
    by rewrite !andb_false_r.
Qed.

Lemma read_printed s l :
  quote_mark l = quote ->
  if forallb readable s
  then ends r_fsm read_chars l (escaped_body s ++ [quote]) success (RL (res l ++ s) quote) []
  else exists l' r, ends r_fsm read_chars l (escaped_body s ++ [quote]) invalid_escape_sequence l' r.
Proof.
  revert l; induction s as [|c s IH]; intros l Hq; cbn [forallb escaped_body flat_map].
  - rewrite app_nil_r. cbn [app]. eapply ends_take; [done|cbn [body r_fsm r_body]; by rewrite Hq|].
    rewrite <- Hq. destruct l as [x q]. by apply ends_term.
  - rewrite <- app_assoc. destruct (readable c) eqn:Hc; cbn [andb].
    + specialize (IH (push l c) Hq). cbn [push res] in IH. rewrite <- app_assoc in IH.
      destruct (forallb readable s).
      * by apply read_chars_readable.
      * destruct IH as (l' & r & He). exists l', r. by apply read_chars_readable.
    + exists l. by apply read_chars_unreadable.
Qed.

(** A string that [print_escaped] has written is read back by [read_string]
    exactly when the code of every character is above 31 or one of
    [\t \n \v \f \r]: then the parser consumes the whole text and delivers the
    same string. Any other string (a backspace, a null byte, a control
    character, all printed with escapes that the parser does not know) is
    rejected as an invalid escape sequence. *)
Theorem print_read_string s :
  exists ps x, read_string (init_state (print_escaped s)) = Some (ps, x)
    /\ if forallb readable s
       then code ps = success /\ rest ps = [] /\ x = Some s
       else code ps = invalid_escape_sequence /\ x = None.
Proof.
  assert (Hstart : forall co l' r, ends r_fsm read_chars (RL [] quote) (escaped_body s ++ [quote]) co l' r ->
    exists ps, run_fsm r_fsm r_init (RL [] 0) (init_state (print_escaped s)) = Some (ps, l')
      /\ code ps = co /\ rest ps = r).
  { intros co l' r He.
    assert (He' : ends r_fsm r_init (RL [] 0) (print_escaped s) co l' r).
    { eapply ends_take; [done|reflexivity|exact He]. }
    apply (ends_reads r_fsm (fun _ _ => True) r_rank) in He'; [|done].
    destruct (He' success 1 1) as (ln & col & Hr). eauto. }
  pose proof (read_printed s (RL [] quote) eq_refl) as Hp. unfold read_string.
  destruct (forallb readable s).
  - destruct (Hstart _ _ _ Hp) as (ps & -> & Hc & Hr). exists ps, (Some s). rewrite Hc. done.
  - destruct Hp as (l' & r & He). destruct (Hstart _ _ _ He) as (ps & -> & Hc & Hr).
    exists ps, None. rewrite Hc. done.
Qed.

(** Unescaping undoes escaping unless a control character needed [\u]. *)
Theorem unescape_escape s :
  Forall (fun c => readable c = true \/ c = 8) s -> print_unescaped (escaped_body s) = s.
Proof.
  induction 1 as [|c s Hc _ IH]; [done|]. cbn [escaped_body flat_map].
  change (flat_map print_escaped_to s) with (escaped_body s).
  destruct (Z.eq_dec c 8) as [->|H8]; [cbn; by rewrite IH|].
  destruct Hc as [Hc|]; [|done].
  destruct (decide (c ∈ [92; 12; 10; 13; 9; 11; 34])) as [Hin|Hin].
  { repeat (apply elem_of_cons in Hin as [-> | Hin]; [cbn; by rewrite IH|]). by apply elem_of_nil in Hin. }
  destruct (print_escaped_cases c) as [(e & Hp & _) | [[-> _] | [(H1 & H2 & H3 & ->) | (_ & Hn & _)]]];
    [|done| |congruence].
  - exfalso. apply Hin. unfold print_escaped_to in Hp. rewrite !elem_of_cons.
    repeat case_if; try done; naive_solver.
  - cbn [app print_unescaped]. rewrite (proj2 (Z.eqb_neq c backslash) H2). by rewrite IH.
Qed.

End Printer.
