(* ===== verification/Ipv4Address.v ===== *)
(** IPv4 addresses of libcaf_core: [ipv4_address] with its printer
    ([to_string]) and its parser ([detail/parser/read_ipv4_address.hpp]).

    An address is its byte array.  The word [bits_] of the union is read from
    the bytes in the order of a little-endian host, as everywhere in this
    development; [to_network_order] swaps bytes there. *)
From Stdlib Require Import Strings.Ascii Strings.String.
From S2P Require Import Prelude.
From S2P Require Import NetworkOrder.
From S2P Require Import Fsm.
From S2P Require Import ReadInteger.
From S2P Require Import Printer.
#[local] Open Scope Z_scope.
#[local] Open Scope caf_scope.

Import NetworkOrder Fsm ReadInteger Printer.

Module Ipv4Address.

(** ** IPv4 addresses *)

Definition ipv4_address : Type := bytes.

Definition is_ipv4 (x : ipv4_address) : Prop := length x = 4%nat /\ all_bytes x.

Definition v4_bits (x : ipv4_address) : Z := le_val x.

Definition v4_from_bits (b : Z) : ipv4_address := le_bytes 4 b.

Definition make_ipv4_address (oct1 oct2 oct3 oct4 : Z) : ipv4_address := [oct1; oct2; oct3; oct4].

Definition v4_is_loopback (x : ipv4_address) : bool :=
  (v4_bits x .& to_network_order 4 0xFF000000) =? to_network_order 4 0x7F000000.

Definition v4_is_multicast (x : ipv4_address) : bool :=
  (v4_bits x .& to_network_order 4 0xF0000000) =? to_network_order 4 0xE0000000.

Definition v4_any : ipv4_address := make_ipv4_address 0 0 0 0.
Definition v4_loopback : ipv4_address := make_ipv4_address 127 0 0 1.

(** [to_string]: the octets, a dot before every one but the first. *)
Definition v4_to_string (x : ipv4_address) : list Z :=
  print_unsigned (List.nth 0 x 0)
    ++ flat_map (fun i => chr "." :: print_unsigned (List.nth i x 0)) (seq 1 (length x - 1)).

(** *** [read_ipv4_octet] *)

Inductive ostate := o_init | o_read.

Definition o_kind (s : ostate) : state_kind := match s with o_init => nonterm | o_read => term end.

Definition o_body (s : ostate) (ch : Z) (res : Z) : move ostate Z :=
  if in_whitelist decimal_chars ch
  then checked (add_ascii 10 255 res ch) o_read integer_overflow else Stay.

Definition o_fsm : fsm ostate Z := Fsm o_kind o_body.

(** The consumer stores into an array of four bytes: a fifth one is out of range. *)
Definition octet_value (f : bytes) (octet : Z) : option bytes :=
  if (length f <? 4)%nat then Some (f ++ [octet]) else None.

Definition read_ipv4_octet (f : bytes) (ps : parser_state) : option (parser_state * bytes) :=
  match run_fsm o_fsm o_init 0 ps with
  | Some (ps', res) =>
      if accepted (code ps') then
        match octet_value f res with Some f' => Some (ps', f') | None => None end
      else Some (ps', f)
  | None => None
  end.

(** *** [read_ipv4_address] *)

Inductive astate := a_init | a_rd_dot | a_rd_oct | a_done.

Definition a_kind (s : astate) : state_kind := match s with a_done => term | _ => nonterm end.

Definition a_body (s : astate) (ch : Z) (f : bytes) : move astate bytes :=
  match s with
  | a_init => if in_whitelist decimal_chars ch then Sub read_ipv4_octet a_rd_dot else Stay
  | a_rd_dot => if ch =? chr "." then Take a_rd_oct f else Stay
  | a_rd_oct =>
      if (length f <? 3)%nat && in_whitelist decimal_chars ch then Sub read_ipv4_octet a_rd_dot
      else if (length f =? 3)%nat && in_whitelist decimal_chars ch then Sub read_ipv4_octet a_done
      else Stay
  | a_done => Stay
  end.

Definition a_fsm : fsm astate bytes := Fsm a_kind a_body.

Definition read_ipv4_address (ps : parser_state) : option (parser_state * option ipv4_address) :=
  deliver (run_fsm a_fsm a_init [] ps).

(** [parse]: an error code, or the address for [pec::success]. *)
Definition v4_parse (str : list Z) : option (pec * option ipv4_address) :=
  match read_ipv4_address (init_state str) with
  | Some (ps, x) => Some (code ps, if bool_decide (code ps = success) then x else None)
  | None => None
  end.

(** ** The IPv4 parser against its reference *)

(** Four decimal numbers up to 255, separated by dots: [n] of them to go. *)
Definition octet_spec (f t : list Z) : verdict bytes :=
  let ds := run_of (in_whitelist decimal_chars) t in
  let r := after (in_whitelist decimal_chars) t in
  if bool_decide (ds = []) then (refusal r, None)
  else if value 10 ds <=? 255 then (end_code r, Some (f ++ [value 10 ds], r))
  else (integer_overflow, None).

Fixpoint ipv4_spec (n : nat) (f t : list Z) : verdict ipv4_address :=
  match n with
  | O => octet_spec f t
  | S n' =>
      match octet_spec f t with
      | (_, Some (f', r)) =>
          if hd 0 r =? chr "." then ipv4_spec n' f' (tl r) else (refusal r, None)
      | (c, None) => (c, None)
      end
  end.

#[export] Instance o_fsm_ok : FsmOk o_fsm (fun _ _ => True) (fun _ => 0%nat).
Proof.
  split.
  - intros; lia.
  - intros s ch l s' l' _ Hat Hb. split; [|done]. apply Hat. by destruct s.
  - intros s ch l s' act _ _ Hb. cbn in Hb. unfold o_body, checked in Hb. split_body; done.
  - intros s ch l s' l' _ Hb. cbn in Hb. unfold o_body, checked in Hb. split_body; done.
  - intros s l ps f s' _ Hb. cbn in Hb. unfold o_body, checked in Hb. split_body; done.
  - intros s ch l c l' _ Hb. cbn in Hb. unfold o_body, checked in Hb. split_body; try done; injection Hb as <- _; (split; [done|by exists o_init]).
  - intros [] ch l _ Hk; done.
Qed.

Lemma octet_digits : digit_state o_fsm 0 255 Pos 10 o_read.
Proof.
  split; [unfold is_base; tauto|]. split; [done|]. intros c x. cbn [body o_fsm]. unfold o_body.
  change (digit_chars 10) with decimal_chars. destruct (in_whitelist decimal_chars c) eqn:Hc; [|done].
  intros Hx. apply add_action; [lia|unfold is_base; tauto|done|done].
Qed.

Lemma octet_decides t : decides o_fsm o_init 0 t (digits_spec 0 255 Pos 10 true t).
Proof.
  destruct t as [|c t]; [by apply decides_nonterm|].
  unfold digits_spec. change (digit_chars 10) with decimal_chars. cbn [run_of after andb].
  destruct (in_whitelist decimal_chars c) eqn:Hc.
  - rewrite bool_decide_eq_false_2 by done.
    assert (Hb : is_base 10) by (unfold is_base; tauto).
    pose proof (digit_range 10 c Hb Hc) as Hd.
    destruct (add_ascii_spec 10 255 0 c Hb ltac:(lia) ltac:(lia) Hc) as [H1 H2]. cbn zeta in *.
    assert (Hfit : 0 * 10 + ascii_to_int 10 c <= 255) by lia.
    eapply decides_take; [by apply (digit_nonzero 10 c Hb)| |].
    { cbn [body o_fsm]. unfold o_body, checked. rewrite Hc, H1, (proj2 (Z.leb_le _ _) Hfit), (H2 Hfit). reflexivity. }
    pose proof (digits_loop o_fsm 0 255 ltac:(lia) Pos 10 o_read (0 * 10 + ascii_to_int 10 c) t octet_digits) as Hl.
    cbn [signed in_limits] in Hl. rewrite (proj2 (Z.leb_le _ _) Hfit) in Hl.
    specialize (Hl ltac:(lia) eq_refl). exact Hl.
  - rewrite bool_decide_eq_true_2 by done. apply decides_nonterm; [done|].
    intros c' t' [= <- <-] _. cbn [body o_fsm]. unfold o_body. by rewrite Hc.
Qed.

(** What reading one octet does to the address. *)
Lemma octet_parses f t : (length f < 4)%nat -> parses (read_ipv4_octet f) t (octet_spec f t).
Proof.
  intros Hf. destruct (decides_parses _ (fun _ _ => True) (fun _ => 0%nat) _ _ _ _ I (octet_decides t))
    as (c & x & r & Hr & Hv).
  exists c, (if accepted c then f ++ [x] else f), r. split.
  - intros co ln col. destruct (Hr co ln col) as (ln' & col' & H). exists ln', col'.
    unfold read_ipv4_octet, octet_value. rewrite H. cbn [code].
    rewrite (proj2 (Nat.ltb_lt _ _) Hf). by destruct (accepted c).
  - revert Hv. unfold digits_spec, octet_spec. change (digit_chars 10) with decimal_chars.
    cbn [andb signed in_limits limit_error].
    destruct (bool_decide _); [|destruct (_ <=? 255)]; destruct (accepted c); intros [= <-]; subst; try done.
Qed.

Definition a_inv (s : astate) (f : bytes) : Prop :=
  match s with a_init => f = [] | a_done => True | _ => (length f <= 3)%nat end.

Definition a_rank (s : astate) : nat := match s with a_init | a_rd_oct => 1 | _ => 0 end.

Lemma octet_call s f ps :
  (length f < 4)%nat -> (forall x, (length f < 3)%nat -> a_inv s (f ++ [x])) -> (length f = 3%nat -> s = a_done) ->
  call_ok (a_inv s) (fun f' => exists s1, a_inv s1 f') read_ipv4_octet f ps.
Proof.
  intros Hf Hs H3. destruct (run_fsm_total o_fsm (fun _ _ => True) (fun _ => 0%nat) o_init 0 ps I) as (ps' & x & Hr & Hsuf & _).
  exists ps', (if accepted (code ps') then f ++ [x] else f).
  unfold read_ipv4_octet, octet_value. rewrite Hr, (proj2 (Nat.ltb_lt _ _) Hf).
  split_and!; [by destruct (accepted (code ps'))|done| |by exists a_done]. intros ->.
  destruct (decide (length f = 3%nat)) as [H|H]; [by rewrite (H3 H)|apply Hs; lia].
Qed.

#[export] Instance a_fsm_ok : FsmOk a_fsm a_inv a_rank.
Proof.
  split.
  - intros []; cbn; lia.
  - intros s ch l s' l' Hi Hat Hb. split; [apply Hat; by destruct s|].
    destruct s; cbn [body a_fsm a_body] in Hb; split_body; try done; injection Hb as <- <-; exact Hi.
  - intros s ch l s' act _ _ Hb. destruct s; cbn [body a_fsm a_body] in Hb; split_body; done.
  - intros s ch l s' l' _ Hb. destruct s; cbn [body a_fsm a_body] in Hb; split_body; done.
  - intros s l ps f s' Hi Hb. destruct s; cbn [body a_fsm a_body] in Hb; split_body; try done;
      injection Hb as <- <-; (split; [cbn; lia|]).
    + cbn in Hi. subst l. apply octet_call; cbn; lia.
    + apply octet_call; [bool_lia| |bool_lia]. intros. cbn. rewrite length_app. cbn. lia.
    + apply octet_call; [bool_lia|bool_lia|done].
  - intros s ch l c l' _ Hb. destruct s; cbn [body a_fsm a_body] in Hb; split_body; try done; injection Hb as <- _; (split; [done|by exists a_init]).
  - intros [] ch l _ Hk; done.
Qed.

Lemma octet_next_decides n f t :
  (length f + S n = 4)%nat -> (f = [] -> n = 3)%nat ->
  decides a_fsm (if (length f =? 0)%nat then a_init else a_rd_oct) f t (ipv4_spec n f t).
Proof.
  revert f t; induction n as [|n IH]; intros f t Hlen H0.
  - assert (Hf : length f = 3%nat) by lia. rewrite Hf. cbn [Nat.eqb ipv4_spec].
    destruct t as [|c t]; [by apply decides_nonterm|].
    destruct (in_whitelist decimal_chars c) eqn:Hc.
    + eapply decides_sub with (s' := a_done); [by eapply (digit_nonzero 10); [unfold is_base; tauto|]| |apply octet_parses; lia|].
      { cbn [body a_fsm a_body]. by rewrite Hf, Hc. }
      destruct (octet_spec f (c :: t)) as [co [[f' r]|]] eqn:Ho; cbn [fst snd]; [|done].
      assert (co = end_code r) as ->.
      { revert Ho. unfold octet_spec. destruct (bool_decide _); [done|]. destruct (_ <=? 255); [|done]. by intros [= <- <- <-]. }
      apply decides_term; done.
    + unfold octet_spec. cbn [run_of after]. rewrite Hc, bool_decide_eq_true_2 by done.
      apply decides_nonterm; [done|]. intros c' t' [= <- <-] _. cbn [body a_fsm a_body]. by rewrite Hc, !andb_false_r.
  - cbn [ipv4_spec]. set (s0 := if (length f =? 0)%nat then a_init else a_rd_oct).
    assert (Hs0 : kind a_fsm s0 = nonterm) by (subst s0; by destruct (length f =? 0)%nat).
    assert (Hb0 : forall c, body a_fsm s0 c f = if in_whitelist decimal_chars c then Sub read_ipv4_octet a_rd_dot else Stay).
    { intros c. subst s0. destruct (Nat.eqb_spec (length f) 0); [done|]. cbn [body a_fsm a_body].
      rewrite (proj2 (Nat.ltb_lt (length f) 3)) by lia. rewrite (proj2 (Nat.eqb_neq (length f) 3)) by lia.
      by destruct (in_whitelist decimal_chars c). }
    clearbody s0.
    destruct t as [|c t]; [by apply decides_nonterm|].
    destruct (in_whitelist decimal_chars c) eqn:Hc.
    + eapply decides_sub with (s' := a_rd_dot);
        [by eapply (digit_nonzero 10); [unfold is_base; tauto|]|by rewrite Hb0, Hc|apply octet_parses; lia|].
      destruct (octet_spec f (c :: t)) as [co [[f' r]|]] eqn:Ho; cbn [fst snd]; [|done].
      assert (Hf' : length f' = S (length f)).
      { revert Ho. unfold octet_spec. destruct (bool_decide _); [done|]. destruct (_ <=? 255); [|done].
        intros [= _ <- _]. rewrite length_app. cbn. lia. }
      destruct (Z.eqb_spec (hd 0 r) (chr ".")) as [Hd|Hd].
      * destruct r as [|d r]; [done|]. cbn [hd tl] in *. subst d. eapply decides_take; [done..|].
        specialize (IH f' r). rewrite Hf' in IH. cbn [Nat.eqb] in IH. apply IH; [lia|by destruct f'].
      * apply decides_nonterm; [done|]. intros d r' -> _. cbn [body a_fsm a_body]. cbn in Hd.
        by rewrite (proj2 (Z.eqb_neq _ _) Hd).
    + unfold octet_spec. cbn [run_of after]. rewrite Hc, bool_decide_eq_true_2 by done.
      apply decides_nonterm; [done|]. intros c' t' [= <- <-] _. by rewrite Hb0, Hc.
Qed.

Lemma ipv4_parses t : parses (run_fsm a_fsm a_init []) t (ipv4_spec 3 [] t).
Proof.
  apply (decides_parses _ a_inv a_rank); [done|].
  by apply (octet_next_decides 3 [] t).
Qed.

(** On every text [read_ipv4_address] ends, never writes a fifth octet and
    does what the reference does: it accepts exactly four decimal numbers up to
    255 with dots between them, stops right behind the last digit, and reports
    an overflow or the unexpected character otherwise. *)
Theorem ipv4_read_exact ps :
  exists ps' x, read_ipv4_address ps = Some (ps', x)
    /\ (code ps', match x with Some a => Some (a, rest ps') | None => None end) = ipv4_spec 3 [] (rest ps).
Proof.
  destruct ps as [t co ln col]. destruct (ipv4_parses t) as (c & a & r & Hr & Hv).
  destruct (Hr co ln col) as (ln' & col' & H). unfold read_ipv4_address, deliver. rewrite H.
  eexists _, _. split; [done|]. cbn [code rest]. rewrite Hv. by destruct (accepted c).
Qed.

(** ** Printing and parsing *)

Lemma octet_spec_printed f x r :
  0 <= x <= 255 -> hd 0 r = 0 \/ hd 0 r = chr "." ->
  octet_spec f (print_unsigned x ++ r) = (end_code r, Some (f ++ [x], r)).
Proof.
  intros Hx Hr. destruct (printed_numeral x) as (H1 & H2 & H3 & H4); [lia|].
  assert (Hnd : hd_error r = None \/ exists c r', r = c :: r' /\ in_whitelist decimal_chars c = false).
  { destruct r as [|c r]; [by left|right]. exists c, r. split; [done|]. cbn in Hr. by destruct Hr as [-> | ->]. }
  destruct (run_of_all (in_whitelist decimal_chars) _ r H1 Hnd) as [H5 H6].
  unfold octet_spec, print_unsigned. rewrite H5, H6, H4, bool_decide_eq_false_2 by done.
  by rewrite (proj2 (Z.leb_le x 255)) by lia.
Qed.

Lemma ipv4_spec_printed x : is_ipv4 x -> ipv4_spec 3 [] (v4_to_string x) = (success, Some (x, [])).
Proof.
  intros [Hlen Hb]. destruct x as [|a [|b [|c [|d [|]]]]]; try done. clear Hlen.
  repeat (apply Forall_cons in Hb as [? Hb]). unfold is_byte in *.
  unfold v4_to_string. cbn [length Nat.sub seq flat_map List.nth app]. rewrite app_nil_r.
  rewrite <- (app_nil_r (print_unsigned d)).
  cbn [ipv4_spec]. rewrite octet_spec_printed by (try lia; by right). cbn [hd tl]. rewrite Z.eqb_refl.
  rewrite octet_spec_printed by (try lia; by right). cbn [hd tl]. rewrite Z.eqb_refl.
  rewrite octet_spec_printed by (try lia; by right). cbn [hd tl]. rewrite Z.eqb_refl.
  by rewrite octet_spec_printed by (try lia; by left).
Qed.

(** Every IPv4 address is read back from its printed form. *)
Theorem ipv4_roundtrip x : is_ipv4 x -> v4_parse (v4_to_string x) = Some (success, Some x).
Proof.
  intros Hx. unfold v4_parse, read_ipv4_address.
  destruct (ipv4_parses (v4_to_string x)) as (c & a & r & Hr & Hv).
  destruct (Hr success 1 1) as (ln' & col' & H). unfold init_state, deliver. rewrite H. cbn [code].
  rewrite ipv4_spec_printed in Hv by done. injection Hv as <- Hv. cbn in Hv. by injection Hv as <- <-.
Qed.

Lemma ipv4_roundtrip_witness : v4_parse (v4_to_string [192; 0; 2; 255]) = Some (success, Some [192; 0; 2; 255]).
Proof. apply ipv4_roundtrip. split; [reflexivity|]. apply (bool_decide_eq_true_1 _). vm_compute. reflexivity. Defined.

End Ipv4Address.
