(* ===== verification/Ipv6Address.v ===== *)
(** IPv6 addresses of libcaf_core: [ipv6_address] with its printer
    ([to_string], which abbreviates the longest run of zeros) and its parser
    ([detail/parser/read_ipv6_address.hpp]).

    The words of the union ([half_segments_], [quad_segments_],
    [oct_segments_]) are read from the bytes in the order of a little-endian
    host. *)
From Stdlib Require Import Strings.Ascii Strings.String.
From S2P Require Import Prelude.
From S2P Require Import NetworkOrder.
From S2P Require Import Fsm.
From S2P Require Import ReadInteger.
From S2P Require Import Printer.
From S2P Require Import Ipv4Address.
#[local] Open Scope Z_scope.
#[local] Open Scope caf_scope.

Import NetworkOrder Fsm ReadInteger Printer Ipv4Address.

Module Ipv6Address.

(** ** IPv6 addresses *)

Definition ipv6_address : Type := bytes.

Definition is_ipv6 (x : ipv6_address) : Prop := length x = 16%nat /\ all_bytes x.

(** The words of the union: [words n x] reads [n] bytes at a time. *)
Fixpoint words_go (fuel n : nat) (x : bytes) : list Z :=
  match fuel with
  | O => []
  | S k => match x with [] => [] | _ => le_val (take n x) :: words_go k n (drop n x) end
  end.

Definition oct_segments (x : ipv6_address) : list Z := words_go 8 2 x.
Definition quad_segments (x : ipv6_address) : list Z := words_go 4 4 x.
Definition half_segments (x : ipv6_address) : list Z := words_go 2 8 x.

Definition v4_prefix : list Z := [0; 0; to_network_order 4 0x0000FFFF].

(** The constructors: from a prefix and a suffix of 16-bit chunks, and from an
    embedded IPv4 address. *)
Definition chunk_bytes (chunk : Z) : bytes := le_bytes 2 (to_network_order 2 chunk).

Definition v6_make (prefix suffix : list Z) : ipv6_address :=
  let pre := flat_map chunk_bytes prefix in
  let suf := flat_map chunk_bytes suffix in
  pre ++ replicate (16 - length pre - length suf) 0 ++ suf.

Definition v6_of_v4 (addr : ipv4_address) : ipv6_address :=
  flat_map (le_bytes 4) v4_prefix ++ le_bytes 4 (v4_bits addr).

Definition v6_embeds_v4 (x : ipv6_address) : bool :=
  bool_decide (take 3 (quad_segments x) = v4_prefix).

Definition v6_embedded_v4 (x : ipv6_address) : ipv4_address :=
  v4_from_bits (List.nth 3 (quad_segments x) 0).

Definition v6_zero (x : ipv6_address) : bool :=
  (List.nth 0 (half_segments x) 0 =? 0) && (List.nth 1 (half_segments x) 0 =? 0).

Definition v6_is_loopback (x : ipv6_address) : bool :=
  if v6_embeds_v4 x then v4_is_loopback (v6_embedded_v4 x)
  else (List.nth 0 (half_segments x) 0 =? 0)
       && (List.nth 1 (half_segments x) 0 =? to_network_order 8 1).

Definition v6_any : ipv6_address := v6_make [0] [0].
Definition v6_loopback : ipv6_address := v6_make [0] [1].

(** *** [to_string] *)

(** [append_v6_hex]: four hexadecimal digits and a null byte, printed as a C
    string from the first character that is not ['0']. *)
Fixpoint c_str (l : list Z) : list Z :=
  match l with [] => [] | c :: r => if c =? 0 then [] else c :: c_str r end.

Fixpoint find_not (v : Z) (l : list Z) : list Z :=
  match l with [] => [] | c :: r => if c =? v then find_not v r else l end.

Definition append_v6_hex (xs : bytes) : list Z :=
  let buf := flat_map (fun c => [to_hex (c .>> 4); to_hex (c .& 15)]) xs ++ [0] in
  let first_non_zero := find_not (chr "0") buf in
  if hd 0 first_non_zero =? 0 then [chr "0"] else c_str first_non_zero.

(** [std::adjacent_find] for two zeros and [std::find_if] for a non-zero chunk,
    as offsets; the length of the list stands for [last]. *)
Fixpoint adjacent_zeros (l : list Z) : nat :=
  match l with
  | [] => 0
  | x :: r => match r with
              | [] => 1
              | y :: _ => if (x =? 0) && (y =? 0) then 0 else S (adjacent_zeros r)
              end
  end.

Fixpoint find_nonzero (l : list Z) : nat :=
  match l with [] => 0 | x :: r => if negb (x =? 0) then 0 else S (find_nonzero r) end.

Fixpoint longest_streak (fuel : nat) (l : list Z) : nat * nat :=
  match fuel with
  | O => (length l, length l)
  | S n =>
      let f := adjacent_zeros l in
      if (f =? length l)%nat then (length l, length l)
      else
        let s := (f + 2 + find_nonzero (drop (f + 2) l))%nat in
        if (s =? length l)%nat then (f, s)
        else
          let '(a, b) := longest_streak n (drop s l) in
          if (b - a <=? s - f)%nat then (f, s) else (s + a, s + b)%nat
  end.

Definition add_chunk (chunk : Z) : list Z := append_v6_hex (le_bytes 2 chunk).

Definition add_chunks (l : list Z) : list Z :=
  match l with
  | [] => []
  | c :: r => add_chunk c ++ flat_map (fun d => chr ":" :: add_chunk d) r
  end.

Definition v6_to_string (x : ipv6_address) : list Z :=
  if v6_embeds_v4 x then v4_to_string (v6_embedded_v4 x)
  else if v6_zero x then chars "::"
  else
    let segs := oct_segments x in
    let '(f, s) := longest_streak 8 segs in
    if (f =? length segs)%nat then add_chunks segs
    else add_chunks (take f segs) ++ chars "::" ++ add_chunks (drop s segs).

(** *** The consumers of the IPv6 parser *)

(** The arrays that collect the bytes before and after the ["::"], and how many
    bytes both hold. [oob] records a write outside of an array. *)
Record v6_parts := V6 {
  prefix : bytes;
  suffix : bytes;
  filled_bytes : nat;
  oob : bool;
}.

Definition remaining_bytes (p : v6_parts) : nat := (16 - filled_bytes p)%nat.

Fixpoint read_prefix (xs : bytes) (p : v6_parts) : v6_parts :=
  match xs with
  | [] => p
  | x :: r =>
      read_prefix r (V6 (<[filled_bytes p := x]> (prefix p)) (suffix p) (S (filled_bytes p))
                        (oob p || negb (filled_bytes p <? 16)%nat))
  end.

Definition read_suffix (xs : bytes) (p : v6_parts) : v6_parts :=
  let stored := xs ++ drop (length xs) (suffix p) in
  V6 (prefix p) (drop (length xs) stored ++ take (length xs) stored)
     (filled_bytes p + length xs) (oob p || (16 <? length xs)%nat).

(** [value(uint16_t)] and [value(uint8_t)]. *)
Definition value16 (callback : bytes -> v6_parts -> v6_parts) (x : Z) : v6_parts -> v6_parts :=
  callback (le_bytes 2 (to_network_order 2 x)).
Definition value8 (callback : bytes -> v6_parts -> v6_parts) (x : Z) : v6_parts -> v6_parts :=
  callback [x].

(** *** [read_ipv6_h16] *)

Record hlocals := HL { h_res : Z; h_digits : nat }.

Inductive hstate := h_init | h_read.

Definition h_kind (s : hstate) : state_kind := match s with h_init => nonterm | h_read => term end.

Definition h_rd_hex (l : hlocals) (c : Z) : bool * hlocals :=
  let r := add_ascii 16 65535 (h_res l) c in (r.1, HL r.2 (S (h_digits l))).

Definition h_body (s : hstate) (ch : Z) (l : hlocals) : move hstate hlocals :=
  match s with
  | h_init =>
      if in_whitelist hexadecimal_chars ch then checked (h_rd_hex l ch) h_read integer_overflow else Stay
  | h_read =>
      if (h_digits l <? 4)%nat && in_whitelist hexadecimal_chars ch
      then checked (h_rd_hex l ch) h_read integer_overflow else Stay
  end.

Definition h_fsm : fsm hstate hlocals := Fsm h_kind h_body.

Definition read_ipv6_h16 (callback : bytes -> v6_parts -> v6_parts) (p : v6_parts)
    (ps : parser_state) : option (parser_state * v6_parts) :=
  match run_fsm h_fsm h_init (HL 0 0) ps with
  | Some (ps', l) =>
      Some (ps', if accepted (code ps') then value16 callback (h_res l) p else p)
  | None => None
  end.

(** *** [read_ipv6_h16_or_l32] *)

Inductive mode_t := indeterminate | v6_bits | v4_octets.

#[export] Instance mode_eq_dec : EqDecision mode_t.
Proof. solve_decision. Defined.

Record llocals := LL {
  mode : mode_t; hex_res : Z; dec_res : Z; digits : nat; octet : nat; dest : v6_parts
}.

Inductive lstate := l_init | l_read | l_read_octet | l_read_last_octet.

Definition l_kind (s : lstate) : state_kind :=
  match s with l_read | l_read_last_octet => term | _ => nonterm end.

Definition rd_hex (l : llocals) (c : Z) : bool * llocals :=
  let r := add_ascii 16 65535 (hex_res l) c in
  (r.1, LL (mode l) r.2 (dec_res l) (S (digits l)) (octet l) (dest l)).

Definition rd_dec (l : llocals) (c : Z) : bool * llocals :=
  let r := add_ascii 10 255 (dec_res l) c in
  (r.1, LL (mode l) (hex_res l) r.2 (S (digits l)) (octet l) (dest l)).

(** Both bases at once: a digit that is not decimal, or an octet that gets too
    large, settles for hexadecimal. *)
Definition rd_both (l : llocals) (c : Z) : bool * llocals :=
  let d := add_ascii 10 255 (dec_res l) c in
  let is_dec := in_whitelist decimal_chars c in
  let h := add_ascii 16 65535 (hex_res l) c in
  (h.1, LL (if is_dec && d.1 then mode l else v6_bits) h.2
           (if is_dec then d.2 else dec_res l) (S (digits l)) (octet l) (dest l)).

Definition fin_octet (callback : bytes -> v6_parts -> v6_parts) (l : llocals) : llocals :=
  LL v4_octets (hex_res l) 0 0 (S (octet l)) (value8 callback (dec_res l) (dest l)).

Definition l_body (callback : bytes -> v6_parts -> v6_parts) (s : lstate) (ch : Z) (l : llocals)
    : move lstate llocals :=
  match s with
  | l_init =>
      if in_whitelist hexadecimal_chars ch then checked (rd_both l ch) l_read integer_overflow else Stay
  | l_read =>
      if bool_decide (mode l = indeterminate) && in_whitelist hexadecimal_chars ch
      then checked (rd_both l ch) l_read integer_overflow
      else if bool_decide (mode l = v6_bits) && in_whitelist hexadecimal_chars ch
      then checked (rd_hex l ch) l_read integer_overflow
      else if negb (bool_decide (mode l = v6_bits)) && (0 <? digits l)%nat && (ch =? chr ".")
      then Take l_read_octet (fin_octet callback l)
      else Stay
  | l_read_octet =>
      if in_whitelist decimal_chars ch then checked (rd_dec l ch) l_read_octet integer_overflow
      else if (octet l <? 2)%nat && (0 <? digits l)%nat && (ch =? chr ".")
      then Take l_read_octet (fin_octet callback l)
      else if (octet l =? 2)%nat && (0 <? digits l)%nat && (ch =? chr ".")
      then Take l_read_last_octet (fin_octet callback l)
      else Stay
  | l_read_last_octet =>
      if in_whitelist decimal_chars ch then checked (rd_dec l ch) l_read_last_octet integer_overflow
      else Stay
  end.

Definition l_fsm (callback : bytes -> v6_parts -> v6_parts) : fsm lstate llocals :=
  Fsm l_kind (l_body callback).

Definition read_ipv6_h16_or_l32 (callback : bytes -> v6_parts -> v6_parts) (p : v6_parts)
    (ps : parser_state) : option (parser_state * v6_parts) :=
  match run_fsm (l_fsm callback) l_init (LL indeterminate 0 0 0 0 p) ps with
  | Some (ps', l) =>
      Some (ps', if accepted (code ps')
                 then if bool_decide (mode l = v4_octets) then dest (fin_octet callback l)
                      else value16 callback (hex_res l) (dest l)
                 else dest l)
  | None => None
  end.

(** *** [read_ipv6_address] *)

Inductive vstate :=
  | v_init | maybe_has_l32 | rd_sep | has_sep | rd_prefix | maybe_done | rd_prefix_sep
  | rd_next_prefix | rd_suffix | rd_next_suffix | v_done.

Definition v_kind (s : vstate) : state_kind :=
  match s with
  | maybe_has_l32 | maybe_done => unstable
  | has_sep | rd_next_suffix | v_done => term
  | _ => nonterm
  end.

(** Four bytes are an IPv4 address, which moves to the end of the prefix. *)
Definition promote_v4 (p : v6_parts) : v6_parts :=
  V6 (v6_of_v4 (take 4 (prefix p))) (suffix p) (filled_bytes p) (oob p).

Definition v_body (s : vstate) (ch : Z) (p : v6_parts) : move vstate v6_parts :=
  let hexadecimal := in_whitelist hexadecimal_chars ch in
  match s with
  | v_init =>
      if ch =? chr ":" then Take rd_sep p
      else if hexadecimal then Sub (read_ipv6_h16_or_l32 read_prefix) maybe_has_l32
      else Stay
  | maybe_has_l32 =>
      if (filled_bytes p =? 4)%nat then Eps v_done (promote_v4 p) else Eps rd_prefix_sep p
  | rd_sep => if ch =? chr ":" then Take has_sep p else Stay
  | has_sep => if hexadecimal then Eps rd_suffix p else Stay
  | rd_prefix =>
      if (4 <? remaining_bytes p)%nat && hexadecimal
      then Sub (read_ipv6_h16 read_prefix) rd_prefix_sep
      else if (remaining_bytes p =? 4)%nat && hexadecimal
      then Sub (read_ipv6_h16_or_l32 read_prefix) maybe_done
      else if (remaining_bytes p =? 2)%nat && hexadecimal
      then Sub (read_ipv6_h16 read_prefix) v_done
      else Stay
  | maybe_done =>
      if (remaining_bytes p =? 0)%nat then Eps v_done p else Eps rd_prefix_sep p
  | rd_prefix_sep => if ch =? chr ":" then Take rd_next_prefix p else Stay
  | rd_next_prefix => if ch =? chr ":" then Take has_sep p else Eps rd_prefix p
  | rd_suffix =>
      if (4 <=? remaining_bytes p)%nat && hexadecimal
      then Sub (read_ipv6_h16_or_l32 read_suffix) rd_next_suffix
      else if (remaining_bytes p =? 2)%nat && hexadecimal
      then Sub (read_ipv6_h16 read_suffix) rd_next_suffix
      else Stay
  | rd_next_suffix => if ch =? chr ":" then Take rd_suffix p else Stay
  | v_done => Stay
  end.

Definition v_fsm : fsm vstate v6_parts := Fsm v_kind v_body.

Definition v6_start : v6_parts := V6 (replicate 16 0) (replicate 16 0) 0 false.

Definition v6_result (p : v6_parts) : ipv6_address := zip_with Z.lor (prefix p) (suffix p).

Definition read_ipv6_address (ps : parser_state) : option (parser_state * option ipv6_address) :=
  match run_fsm v_fsm v_init v6_start ps with
  | Some (ps', p) =>
      if oob p then None else Some (ps', if accepted (code ps') then Some (v6_result p) else None)
  | None => None
  end.

Definition v6_parse (str : list Z) : option (pec * option ipv6_address) :=
  match read_ipv6_address (init_state str) with
  | Some (ps, x) => Some (code ps, if bool_decide (code ps = success) then x else None)
  | None => None
  end.


(** ** No input makes the parser write outside of its arrays *)

(** [n] bytes are stored, all of them inside the arrays. *)
Definition parts_ok (n : nat) (p : v6_parts) : Prop :=
  filled_bytes p = n /\ (n <= 16)%nat /\ length (prefix p) = 16%nat /\ length (suffix p) = 16%nat
  /\ oob p = false.

(** What the machines ask of a callback: it stores the bytes it gets. *)
Class Stores (callback : bytes -> v6_parts -> v6_parts) : Prop :=
  stores xs n p : parts_ok n p -> (n + length xs <= 16)%nat -> parts_ok (n + length xs) (callback xs p).

#[export] Instance read_prefix_stores : Stores read_prefix.
Proof.
  intros xs. induction xs as [|x xs IH]; intros n p Hp Hn; cbn [read_prefix length] in *.
  - by rewrite Nat.add_0_r.
  - replace (n + S (length xs))%nat with (S n + length xs)%nat by lia. apply IH; [|lia].
    destruct Hp as (Hf & Hle & H1 & H2 & H3). unfold parts_ok. cbn [filled_bytes prefix suffix oob].
    rewrite length_insert, H3, Hf. split_and!; [done|lia|done..|].
    by rewrite (proj2 (Nat.ltb_lt n 16)) by lia.
Qed.

#[export] Instance read_suffix_stores : Stores read_suffix.
Proof.
  intros xs n p (Hf & Hle & H1 & H2 & H3) Hn. unfold read_suffix, parts_ok. cbn [filled_bytes prefix suffix oob].
  rewrite H3, Hf, (proj2 (Nat.ltb_ge 16 (length xs))) by lia.
  rewrite length_app, length_drop, length_take, length_app, length_drop. split_and!; lia || done.
Qed.

#[export] Instance h_fsm_ok : FsmOk h_fsm (fun _ _ => True) (fun _ => 0%nat).
Proof.
  split.
  - intros; lia.
  - intros s ch l s' l' _ Hat Hb. split; [|done]. apply Hat. by destruct s.
  - intros s ch l s' act _ _ Hb. destruct s; cbn [body h_fsm h_body] in Hb; unfold checked in Hb; split_body; done.
  - intros s ch l s' l' _ Hb. destruct s; cbn [body h_fsm h_body] in Hb; unfold checked in Hb; split_body; done.
  - intros s l ps f s' _ Hb. destruct s; cbn [body h_fsm h_body] in Hb; unfold checked in Hb; split_body; done.
  - intros s ch l c l' _ Hb. destruct s; cbn [body h_fsm h_body] in Hb; unfold checked in Hb; split_body; try done;
      injection Hb as <- _; (split; [done|by exists h_init]).
  - intros [] ch l _ Hk; done.
Qed.

(** How many octets [read_ipv6_h16_or_l32] has stored in each of its states. *)
Definition l_inv (n : nat) (s : lstate) (l : llocals) : Prop :=
  match s with
  | l_init => mode l = indeterminate /\ octet l = 0%nat /\ parts_ok n (dest l)
  | l_read => mode l <> v4_octets /\ octet l = 0%nat /\ parts_ok n (dest l)
  | l_read_octet =>
      mode l = v4_octets /\ (octet l = 1 \/ octet l = 2)%nat /\ parts_ok (n + octet l) (dest l)
  | l_read_last_octet => mode l = v4_octets /\ octet l = 3%nat /\ parts_ok (n + 3) (dest l)
  end.

Lemma rd_both_inv n l c :
  mode l <> v4_octets -> octet l = 0%nat -> parts_ok n (dest l) -> l_inv n l_read (rd_both l c).2.
Proof. intros Hm Ho Hp. cbn. by destruct (_ && _). Qed.

Lemma fin_octet_stores callback `{!Stores callback} n l :
  parts_ok n (dest l) -> (n < 16)%nat -> parts_ok (n + 1) (dest (fin_octet callback l)).
Proof. intros Hp Hn. cbn. apply (stores [dec_res l]); [done|cbn; lia]. Qed.

Lemma l_fsm_ok callback `{!Stores callback} n :
  (n + 4 <= 16)%nat -> FsmOk (l_fsm callback) (l_inv n) (fun _ => 0%nat).
Proof.
  intros Hn. split.
  - intros; lia.
  - intros s ch l s' l' Hi Hat Hb. split; [apply Hat; by destruct s|].
    destruct s; cbn [body l_fsm l_body] in Hb; unfold checked in Hb; split_body; try done;
      injection Hb as <- <-.
    + destruct Hi as (Hm & Ho & Hp). apply rd_both_inv; [by rewrite Hm|done..].
    + destruct Hi as (Hm & Ho & Hp). by apply rd_both_inv.
    + exact Hi.
    + destruct Hi as (Hm & Ho & Hp). cbn. split_and!; [done|lia|]. rewrite Ho. apply (fin_octet_stores callback); [done|lia].
    + exact Hi.
    + destruct Hi as (Hm & Ho & Hp). cbn. split_and!; [done|bool_lia|].
      replace (n + S (octet l))%nat with (n + octet l + 1)%nat by lia. apply (fin_octet_stores callback); [done|lia].
    + destruct Hi as (Hm & Ho & Hp). cbn. split_and!; [done|bool_lia|].
      replace (n + 3)%nat with (n + octet l + 1)%nat by bool_lia. apply (fin_octet_stores callback); [done|lia].
    + exact Hi.
  - intros s ch l s' act _ _ Hb. destruct s; cbn [body l_fsm l_body] in Hb; unfold checked in Hb; split_body; done.
  - intros s ch l s' l' _ Hb. destruct s; cbn [body l_fsm l_body] in Hb; unfold checked in Hb; split_body; done.
  - intros s l ps f s' _ Hb. destruct s; cbn [body l_fsm l_body] in Hb; unfold checked in Hb; split_body; done.
  - intros s ch l c l' Hi Hb. destruct s; cbn [body l_fsm l_body] in Hb; unfold checked in Hb; split_body; try done;
      injection Hb as <- <-; (split; [done|]).
    + destruct Hi as (Hm & Ho & Hp). exists l_read. apply rd_both_inv; [by rewrite Hm|done..].
    + destruct Hi as (Hm & Ho & Hp). exists l_read. by apply rd_both_inv.
    + by exists l_read.
    + by exists l_read_octet.
    + by exists l_read_last_octet.
  - intros [] ch l _ Hk; done.
Qed.

Lemma chunk_length x : length (le_bytes 2 (to_network_order 2 x)) = 2%nat.
Proof. apply le_bytes_length. Qed.

(** Both pieces of an address store two bytes, or four of an IPv4 address; a
    piece that fails may have stored some octets. *)
Definition parts_in (p : v6_parts) : Prop := exists n, parts_ok n p.

Lemma h16_call callback `{!Stores callback} n p ps :
  parts_ok n p -> (n + 2 <= 16)%nat -> call_ok (parts_ok (n + 2)) parts_in (read_ipv6_h16 callback) p ps.
Proof.
  intros Hp Hn. destruct (run_fsm_total h_fsm (fun _ _ => True) (fun _ => 0%nat) h_init (HL 0 0) ps I)
    as (ps' & l & Hr & Hs & _).
  exists ps', (if accepted (code ps') then value16 callback (h_res l) p else p).
  assert (Hv : parts_ok (n + 2) (value16 callback (h_res l) p)).
  { unfold value16. rewrite <- (chunk_length (h_res l)) at 1. apply stores; [done|]. by rewrite chunk_length. }
  unfold read_ipv6_h16. rewrite Hr. split_and!; [done..|by intros ->|].
  destruct (accepted (code ps')); by eexists.
Qed.

Lemma h16_or_l32_call callback `{!Stores callback} n p ps :
  parts_ok n p -> (n + 4 <= 16)%nat ->
  call_ok (fun p' => parts_ok (n + 2) p' \/ parts_ok (n + 4) p') parts_in (read_ipv6_h16_or_l32 callback) p ps.
Proof.
  intros Hp Hn. pose proof (l_fsm_ok callback n Hn) as Hok.
  destruct (run_fsm_total (l_fsm callback) (l_inv n) (fun _ => 0%nat) l_init (LL indeterminate 0 0 0 0 p) ps)
    as (ps' & l & Hr & Hs & s & Hi & Ht); [done|].
  eexists ps', _. unfold read_ipv6_h16_or_l32. rewrite Hr. split; [done|split; [done|]].
  destruct (accepted (code ps')).
  - specialize (Ht eq_refl).
    assert (H : parts_ok (n + 2) (if bool_decide (mode l = v4_octets) then dest (fin_octet callback l)
                                   else value16 callback (hex_res l) (dest l))
             \/ parts_ok (n + 4) (if bool_decide (mode l = v4_octets) then dest (fin_octet callback l)
                                   else value16 callback (hex_res l) (dest l))).
    { destruct s; try done; destruct Hi as (Hm & Ho & Hpl).
      - left. rewrite bool_decide_eq_false_2 by done. unfold value16.
        rewrite <- (chunk_length (hex_res l)) at 1. apply stores; [done|]. rewrite chunk_length. lia.
      - right. rewrite bool_decide_eq_true_2 by done. replace (n + 4)%nat with (n + 3 + 1)%nat by lia.
        apply (fin_octet_stores callback); [done|lia]. }
    split; [done|]. destruct H; by eexists.
  - split; [done|]. destruct s; destruct Hi as (_ & _ & Hpl); by eexists.
Qed.

(** The states of the address parser: an even number of bytes is stored, and
    there is room for what the state may read next. *)
Definition v_inv (s : vstate) (p : v6_parts) : Prop :=
  exists k, match s with
  | v_init | rd_sep => p = v6_start /\ k = 0%nat
  | maybe_has_l32 => parts_ok (2 * k) p /\ (k = 1 \/ k = 2)%nat
  | rd_prefix | rd_prefix_sep | rd_next_prefix => parts_ok (2 * k) p /\ (1 <= k <= 7)%nat
  | maybe_done => parts_ok (2 * k) p /\ (k = 7 \/ k = 8)%nat
  | has_sep | rd_suffix | rd_next_suffix => parts_ok (2 * k) p
  | v_done => parts_ok k p
  end.

Definition v_rank (s : vstate) : nat :=
  match s with
  | v_init => 7 | maybe_has_l32 => 2 | rd_next_prefix => 5 | rd_prefix => 4 | maybe_done => 3
  | has_sep => 2 | rd_suffix => 1 | _ => 0
  end.

Lemma v6_start_ok : parts_ok 0 v6_start.
Proof. repeat split; cbn; lia. Qed.

Lemma call_weaken s (P : v6_parts -> Prop) f l ps :
  (forall l, P l -> v_inv s l) -> call_ok P parts_in f l ps ->
  call_ok (v_inv s) (fun l' => exists s1, v_inv s1 l') f l ps.
Proof.
  intros H (ps' & l' & Hf & Hs & Hp & n & Hn). exists ps', l'. split_and!; [done..|eauto|].
  exists v_done. by exists n.
Qed.

Lemma promote_ok p : parts_ok 4 p -> parts_ok 4 (promote_v4 p).
Proof. intros (Hf & _ & H1 & H2 & H3). repeat split; cbn; done || lia. Qed.

#[export] Instance v_fsm_ok : FsmOk v_fsm v_inv v_rank.
Proof.
  split.
  - intros []; cbn; lia.
  - intros s ch l s' l' [k Hi] Hat Hb.
    split; [destruct s; cbn [body v_fsm v_body] in Hb; split_body; try done; apply Hat; done|].
    destruct s; cbn [body v_fsm v_body] in Hb; split_body; try done; injection Hb as <- <-;
      exists k; cbn in Hi |- *; try tauto.
    destruct Hi as [-> ->]. apply v6_start_ok.
  - intros s ch l s' act _ _ Hb. destruct s; cbn [body v_fsm v_body] in Hb; split_body; done.
  - intros s ch l s' l' [k Hi] Hb.
    destruct s; cbn [body v_fsm v_body] in Hb; split_body; try done; injection Hb as <- <-;
      (split; [cbn; lia|]); cbn in Hi.
    + destruct Hi as [Hp Hk]. assert (k = 2%nat) as -> by (destruct Hp; bool_lia). exists 4%nat. by apply promote_ok.
    + exists k. destruct Hi as [Hp Hk]. split; [done|lia].
    + by exists k.
    + destruct Hi as [Hp Hk]. by exists (2 * k)%nat.
    + exists k. destruct Hi as [Hp Hk]. split; [done|]. destruct Hp as [Hf _]. unfold remaining_bytes in *. bool_lia.
    + by exists k.
  - intros s l ps f s' [k Hi] Hb.
    destruct s; cbn [body v_fsm v_body] in Hb; split_body; try done; injection Hb as <- <-;
      (split; [cbn; lia|]); cbn in Hi.
    + destruct Hi as [-> ->]. eapply call_weaken; [|apply (h16_or_l32_call _ 0); [apply v6_start_ok|lia]].
      intros p [Hp|Hp]; [exists 1%nat|exists 2%nat]; cbn; eauto.
    + destruct Hi as [Hp Hk]. unfold remaining_bytes in *. pose proof (proj1 Hp).
      eapply call_weaken; [|apply (h16_call _ (2 * k)); [done|bool_lia]].
      intros p' Hp'. exists (S k). replace (2 * S k)%nat with (2 * k + 2)%nat by lia. split; [done|bool_lia].
    + destruct Hi as [Hp Hk]. unfold remaining_bytes in *. pose proof (proj1 Hp).
      assert (k = 6%nat) as -> by bool_lia.
      eapply call_weaken; [|apply (h16_or_l32_call _ 12); [done|lia]].
      intros p' [Hp'|Hp']; [exists 7%nat|exists 8%nat]; cbn; eauto.
    + destruct Hi as [Hp Hk]. unfold remaining_bytes in *. pose proof (proj1 Hp).
      assert (k = 7%nat) as -> by bool_lia.
      eapply call_weaken; [|apply (h16_call _ 14); [done|lia]]. intros p' Hp'. by exists 16%nat.
    + unfold remaining_bytes in *. pose proof (proj1 Hi).
      eapply call_weaken; [|apply (h16_or_l32_call _ (2 * k)); [done|bool_lia]].
      intros p' [Hp'|Hp']; [exists (S k); change (parts_ok (2 * S k) p')|exists (S (S k)); change (parts_ok (2 * S (S k)) p')].
      * by replace (2 * S k)%nat with (2 * k + 2)%nat by lia.
      * by replace (2 * S (S k))%nat with (2 * k + 4)%nat by lia.
    + unfold remaining_bytes in *. pose proof (proj1 Hi).
      eapply call_weaken; [|apply (h16_call _ (2 * k)); [done|bool_lia]].
      intros p' Hp'. exists (S k). change (parts_ok (2 * S k) p'). by replace (2 * S k)%nat with (2 * k + 2)%nat by lia.
  - intros s ch l c l' _ Hb. destruct s; cbn [body v_fsm v_body] in Hb; split_body; done.
  - intros [] ch l _ Hk Hb; try done; cbn [body v_fsm v_body] in Hb; split_body; done.
Qed.

Lemma v_start_inv : v_inv v_init v6_start.
Proof. by exists 0%nat. Qed.

Lemma v_inv_parts s p : v_inv s p -> parts_in p.
Proof.
  intros [k Hk]. destruct s; cbn in Hk; try (by eexists); try (destruct Hk as [Hp _]; by eexists);
    destruct Hk as [-> _]; exists 0%nat; apply v6_start_ok.
Qed.

Lemma ipv6_reads_within ps :
  exists ps' x, read_ipv6_address ps = Some (ps', x) /\ list.suffix (rest ps') (rest ps)
    /\ (forall a, x = Some a -> length a = 16%nat).
Proof.
  destruct (run_fsm_total v_fsm v_inv v_rank v_init v6_start ps v_start_inv) as (ps' & p & Hr & Hs & s & Hi & _).
  destruct (v_inv_parts s p Hi) as (n & _ & _ & H1 & H2 & H3).
  unfold read_ipv6_address. rewrite Hr, H3. eexists _, _. split_and!; [done..|].
  intros a. destruct (accepted (code ps')); [|done]. intros [= <-].
  unfold v6_result. rewrite length_zip_with. lia.
Qed.

(** On every text [read_ipv6_address] ends without writing outside of its
    two arrays and without reaching an unstable state that no transition leaves;
    the bytes it counts never exceed sixteen, and an address that it delivers
    has sixteen bytes. *)
Theorem ipv6_read_safe ps :
  exists ps' x, read_ipv6_address ps = Some (ps', x) /\ list.suffix (rest ps') (rest ps)
    /\ (forall a, x = Some a -> length a = 16%nat).
Proof. apply ipv6_reads_within. Qed.

(** ** Reading the pieces of a printed address *)

(** Behind a piece of an address comes a colon or the end. *)
Definition piece_end (r : list Z) : Prop := hd 0 r = 0 \/ hd 0 r = chr ":" \/ hd 0 r = chr "]".

(** An address ends with the text, or at the bracket that encloses it in a URI. *)
Definition address_end (r : list Z) : Prop := r = [] \/ exists r', r = chr "]" :: r'.

Lemma address_end_piece r : address_end r -> piece_end r.
Proof. intros [-> | [r' ->]]; [by left|by right; right]. Qed.

Lemma address_end_accepted r : address_end r -> accepted (end_code r) = true.
Proof. by intros [-> | [r' ->]]. Qed.


Lemma piece_end_class r c r' :
  piece_end r -> r = c :: r' -> in_whitelist hexadecimal_chars c = false /\ (c =? chr ".") = false.
Proof. intros Hr ->. unfold piece_end in Hr. cbn [hd] in Hr. by destruct Hr as [-> | [-> | ->]]. Qed.

(** The states in which an address may be complete. *)
Lemma ends_address s p r :
  s = v_done \/ s = rd_next_suffix \/ s = has_sep -> address_end r -> ends v_fsm s p r (end_code r) p r.
Proof.
  intros Hs Hr. apply (ends_term v_fsm); [by destruct Hs as [-> | [-> | ->]]|].
  intros x t -> Hx. destruct Hr as [Hr|[r' Hr]]; [done|]. injection Hr as -> ->. by destruct Hs as [-> | [-> | ->]].
Qed.

Definition hexadecimal (ds : list Z) : Prop := Forall (fun c => in_whitelist hexadecimal_chars c = true) ds.

Definition value_onto (base x : Z) (ds : list Z) : Z :=
  fold_left (fun a c => a * base + ascii_to_int base c) ds x.

Lemma is_base_16 : is_base 16. Proof. unfold is_base. tauto. Qed.
Lemma is_base_10 : is_base 10. Proof. unfold is_base. tauto. Qed.

Lemma value_onto_grows base x ds :
  is_base base -> 0 <= x -> Forall (fun c => in_whitelist (digit_chars base) c = true) ds ->
  x <= value_onto base x ds.
Proof.
  intros Hb Hx Hds. assert (0 < base) by (destruct Hb as [-> | [-> | [-> | ->]]]; lia).
  revert x Hx. induction Hds as [|c ds Hc _ IH]; intros x Hx; [done|].
  cbn. pose proof (digit_range base c Hb Hc). etrans; [|apply IH]; nia.
Qed.

(** A digit that fits is added. *)
Lemma add_ascii_fits base max x c :
  is_base base -> 0 <= x -> 0 <= max -> in_whitelist (digit_chars base) c = true ->
  x * base + ascii_to_int base c <= max ->
  add_ascii base max x c = (true, x * base + ascii_to_int base c).
Proof.
  intros Hb Hx Hm Hc Hf. destruct (add_ascii_spec base max x c Hb Hx Hm Hc) as [H1 H2].
  rewrite (surjective_pairing (add_ascii base max x c)), H1, (H2 Hf). f_equal. by apply Z.leb_le.
Qed.

Lemma hex_step x c ds max :
  0 <= x -> 0 <= max -> hexadecimal (c :: ds) -> value_onto 16 x (c :: ds) <= max ->
  add_ascii 16 max x c = (true, x * 16 + ascii_to_int 16 c) /\ 0 <= x * 16 + ascii_to_int 16 c.
Proof.
  intros Hx Hm Hds Hv. apply Forall_cons in Hds as [Hc Hds].
  pose proof (digit_range 16 c is_base_16 Hc). split; [|lia].
  apply add_ascii_fits; [apply is_base_16|done..|].
  pose proof (value_onto_grows 16 (x * 16 + ascii_to_int 16 c) ds is_base_16 ltac:(lia) Hds).
  change (value_onto 16 x (c :: ds)) with (value_onto 16 (x * 16 + ascii_to_int 16 c) ds) in Hv. lia.
Qed.

Lemma l_read_hex callback ds r l :
  hexadecimal ds -> mode l <> v4_octets -> 0 <= hex_res l -> value_onto 16 (hex_res l) ds <= 65535 ->
  piece_end r ->
  exists l', ends (l_fsm callback) l_read l (ds ++ r) (end_code r) l' r
    /\ mode l' <> v4_octets /\ hex_res l' = value_onto 16 (hex_res l) ds /\ dest l' = dest l.
Proof.
  intros Hds. revert l; induction ds as [|c ds IH]; intros l Hm Hx Hv Hr.
  - exists l. split_and!; [|done..]. apply ends_term; [done|]. intros c r' Hc _.
    destruct (piece_end_class r c r' Hr Hc) as [H1 H2]. cbn [body l_fsm l_body]. by rewrite H1, H2, !andb_false_r.
  - destruct (hex_step (hex_res l) c ds 65535 Hx ltac:(lia) Hds Hv) as [Ha H0].
    pose proof Hds as Hds'. apply Forall_cons in Hds' as [Hc Hds'].
    pose proof (digit_nonzero 16 c is_base_16 Hc) as Hc0.
    destruct (mode l) eqn:Hml; [| |done].
    + destruct (IH Hds' (rd_both l c).2) as (l' & He & H1 & H2 & H3);
        [cbn; rewrite Hml; by destruct (_ && _)|cbn; by rewrite Ha|cbn; by rewrite Ha|done|].
      cbn in H2, H3. rewrite Ha in H2. exists l'. split_and!; [|done..].
      eapply ends_take; [done| |exact He]. cbn [body l_fsm l_body].
      rewrite bool_decide_eq_true_2, Hc by done. unfold checked. cbn [andb rd_both fst]. by rewrite Ha.
    + destruct (IH Hds' (rd_hex l c).2) as (l' & He & H1 & H2 & H3);
        [cbn; by rewrite Hml|cbn; by rewrite Ha|cbn; by rewrite Ha|done|].
      cbn in H2, H3. rewrite Ha in H2. exists l'. split_and!; [|done..].
      eapply ends_take; [done| |exact He]. cbn [body l_fsm l_body].
      rewrite bool_decide_eq_false_2, bool_decide_eq_true_2, Hc by (by rewrite ?Hml).
      unfold checked. cbn [andb rd_hex fst]. by rewrite Ha.
Qed.

Lemma reads_h16_or_l32 callback `{!Stores callback} n p ds r :
  parts_ok n p -> (n + 4 <= 16)%nat -> hexadecimal ds -> ds <> [] -> value 16 ds <= 65535 -> piece_end r ->
  reads (read_ipv6_h16_or_l32 callback p) (ds ++ r) (end_code r) (value16 callback (value 16 ds) p) r.
Proof.
  intros Hp Hn Hds Hne Hv Hr. destruct ds as [|c ds]; [done|]. cbn [app].
  pose proof Hds as Hds'. apply Forall_cons in Hds' as [Hc Hds'].
  destruct (hex_step 0 c ds 65535 ltac:(lia) ltac:(lia) Hds Hv) as [Ha H0].
  set (l0 := LL indeterminate 0 0 0 0 p).
  destruct (l_read_hex callback ds r (rd_both l0 c).2) as (l' & He & H1 & H2 & H3); [done|..|done|].
  { cbn. by destruct (_ && _). }
  { cbn. by rewrite Ha. }
  { cbn. by rewrite Ha. }
  assert (He0 : ends (l_fsm callback) l_init l0 (c :: ds ++ r) (end_code r) l' r).
  { eapply ends_take; [by apply (digit_nonzero 16 c is_base_16)| |exact He].
    cbn [body l_fsm l_body]. rewrite Hc. unfold checked. cbn [rd_both fst l0 hex_res]. by rewrite Ha. }
  pose proof (l_fsm_ok callback n Hn) as Hok.
  apply (ends_reads _ (l_inv n) (fun _ => 0%nat)) in He0; [|done].
  intros co ln col. destruct (He0 co ln col) as (ln' & col' & Hrun). exists ln', col'.
  unfold read_ipv6_h16_or_l32. fold l0. rewrite Hrun. cbn [code].
  assert (accepted (end_code r) = true) as -> by (destruct r as [|d r]; [done|]; cbn; by destruct (d =? 0)).
  rewrite bool_decide_eq_false_2 by done. cbn in H2, H3. rewrite Ha in H2. by rewrite H2, H3.
Qed.

Lemma h_read_hex ds r l :
  hexadecimal ds -> (h_digits l + length ds <= 4)%nat -> 0 <= h_res l -> value_onto 16 (h_res l) ds <= 65535 ->
  piece_end r ->
  ends h_fsm h_read l (ds ++ r) (end_code r) (HL (value_onto 16 (h_res l) ds) (h_digits l + length ds)) r.
Proof.
  intros Hds. revert l; induction ds as [|c ds IH]; intros l Hd Hx Hv Hr.
  - cbn [app length value_onto fold_left]. rewrite Nat.add_0_r. destruct l as [x d]. apply ends_term; [done|].
    intros c r' Hc _. destruct (piece_end_class r c r' Hr Hc) as [H1 _]. cbn [body h_fsm h_body].
    by rewrite H1, andb_false_r.
  - destruct (hex_step (h_res l) c ds 65535 Hx ltac:(lia) Hds Hv) as [Ha H0].
    apply Forall_cons in Hds as [Hc Hds]. cbn [length app] in *.
    eapply ends_take with (l1 := HL (h_res l * 16 + ascii_to_int 16 c) (S (h_digits l)));
      [by apply (digit_nonzero 16 c is_base_16)| |].
    + cbn [body h_fsm h_body]. rewrite Hc, (proj2 (Nat.ltb_lt _ _)) by lia. unfold checked, h_rd_hex. by rewrite Ha.
    + replace (h_digits l + S (length ds))%nat with (S (h_digits l) + length ds)%nat by lia.
      apply (IH Hds (HL (h_res l * 16 + ascii_to_int 16 c) (S (h_digits l)))); cbn [h_digits h_res]; [lia|done..].
Qed.

Lemma reads_h16 callback p ds r :
  hexadecimal ds -> ds <> [] -> (length ds <= 4)%nat -> value 16 ds <= 65535 -> piece_end r ->
  reads (read_ipv6_h16 callback p) (ds ++ r) (end_code r) (value16 callback (value 16 ds) p) r.
Proof.
  intros Hds Hne Hlen Hv Hr. destruct ds as [|c ds]; [done|]. cbn [app].
  destruct (hex_step 0 c ds 65535 ltac:(lia) ltac:(lia) Hds Hv) as [Ha H0].
  apply Forall_cons in Hds as [Hc Hds]. cbn [length] in Hlen.
  pose proof (h_read_hex ds r (HL (0 * 16 + ascii_to_int 16 c) 1) Hds ltac:(cbn; lia) H0 Hv Hr) as He.
  assert (He0 : ends h_fsm h_init (HL 0 0) (c :: ds ++ r) (end_code r)
                  (HL (value_onto 16 (0 * 16 + ascii_to_int 16 c) ds) (1 + length ds)) r).
  { eapply ends_take; [by apply (digit_nonzero 16 c is_base_16)| |exact He].
    cbn [body h_fsm h_body]. rewrite Hc. unfold checked, h_rd_hex. cbn [h_res h_digits]. by rewrite Ha. }
  apply (ends_reads _ (fun _ _ => True) (fun _ => 0%nat)) in He0; [|done].
  intros co ln col. destruct (He0 co ln col) as (ln' & col' & Hrun). exists ln', col'.
  unfold read_ipv6_h16. rewrite Hrun. cbn [code].
  assert (accepted (end_code r) = true) as -> by (destruct r as [|d r]; [done|]; cbn; by destruct (d =? 0)).
  done.
Qed.

(** *** Printed chunks *)

Definition chunk_ok (a b : Z) : bool :=
  let ds := append_v6_hex [a; b] in
  forallb (in_whitelist hexadecimal_chars) ds
    && ((0 <? length ds)%nat && (length ds <=? 4)%nat && (value 16 ds =? a * 256 + b)).

Lemma chunk_ok_all : forall_byteb (fun a => forall_byteb (chunk_ok a)) = true.
Proof. vm_compute. reflexivity. Qed.

Lemma chunk_check a b :
  is_byte a -> is_byte b ->
  let ds := append_v6_hex [a; b] in
  hexadecimal ds /\ ds <> [] /\ (length ds <= 4)%nat /\ value 16 ds = a * 256 + b.
Proof.
  intros Ha Hb ds.
  pose proof (forall_byteb_spec _ b (forall_byteb_spec _ a chunk_ok_all Ha) Hb) as H.
  unfold chunk_ok in H. fold ds in H. clearbody ds.
  apply andb_prop in H as [H1 H]. apply andb_prop in H as [H H4]. apply andb_prop in H as [H2 H3].
  split_and!; [|by intros ->|by apply Nat.leb_le|by apply Z.eqb_eq].
  rewrite forallb_forall in H1. apply List.Forall_forall. exact H1.
Qed.

Lemma value16_bytes callback a b : is_byte a -> is_byte b -> value16 callback (a * 256 + b) = callback [a; b].
Proof.
  intros Ha Hb. unfold value16. f_equal. rewrite network_order_bytes.
  assert (Hab : all_bytes [a; b]) by (constructor; [done|constructor; [done|constructor]]).
  pose proof (be_bytes_val [a; b] Hab) as H. cbn [length] in H. rewrite <- H.
  f_equal. unfold be_val. cbn. lia.
Qed.

Lemma reads_chunk callback `{!Stores callback} n p a b r :
  parts_ok n p -> (n + 4 <= 16)%nat -> is_byte a -> is_byte b -> piece_end r ->
  reads (read_ipv6_h16_or_l32 callback p) (append_v6_hex [a; b] ++ r) (end_code r) (callback [a; b] p) r.
Proof.
  intros Hp Hn Ha Hb Hr. destruct (chunk_check a b Ha Hb) as (H1 & H2 & H3 & H4).
  rewrite <- (value16_bytes callback a b Ha Hb), <- H4.
  apply reads_h16_or_l32 with n; [done..| |done]. rewrite H4. unfold is_byte in *. lia.
Qed.

Lemma reads_chunk16 callback p a b r :
  is_byte a -> is_byte b -> piece_end r ->
  reads (read_ipv6_h16 callback p) (append_v6_hex [a; b] ++ r) (end_code r) (callback [a; b] p) r.
Proof.
  intros Ha Hb Hr. destruct (chunk_check a b Ha Hb) as (H1 & H2 & H3 & H4).
  rewrite <- (value16_bytes callback a b Ha Hb), <- H4.
  apply reads_h16; [done..| |done]. rewrite H4. unfold is_byte in *. lia.
Qed.

(** The first character of a printed chunk. *)
Lemma chunk_head a b :
  is_byte a -> is_byte b ->
  exists c t, append_v6_hex [a; b] = c :: t /\ c <> 0 /\ in_whitelist hexadecimal_chars c = true
    /\ (c =? chr ":") = false.
Proof.
  intros Ha Hb. destruct (chunk_check a b Ha Hb) as (H1 & H2 & _).
  destruct (append_v6_hex [a; b]) as [|c t]; [done|]. apply Forall_cons in H1 as [Hc _].
  exists c, t. split_and!; [done|by apply (digit_nonzero 16 c is_base_16)|done|].
  pose proof (class_check hexadecimal_chars (fun c => negb (c =? chr ":")) c eq_refl Hc) as H. by apply negb_true_iff.
Qed.

(** *** The arrays while reading *)

Definition pre_parts (pre : bytes) : v6_parts :=
  V6 (pre ++ replicate (16 - length pre) 0) (replicate 16 0) (length pre) false.

Definition suf_parts (pre suf : bytes) : v6_parts :=
  V6 (pre ++ replicate (16 - length pre) 0) (replicate (16 - length suf) 0 ++ suf)
     (length pre + length suf) false.

Lemma pre_parts_ok pre : (length pre <= 16)%nat -> parts_ok (length pre) (pre_parts pre).
Proof.
  intros H. unfold parts_ok, pre_parts. cbn [filled_bytes prefix suffix oob].
  rewrite length_app, !length_replicate. split_and!; lia || done.
Qed.

Lemma suf_parts_ok pre suf :
  (length pre + length suf <= 16)%nat -> parts_ok (length pre + length suf) (suf_parts pre suf).
Proof.
  intros H. unfold parts_ok, suf_parts. cbn [filled_bytes prefix suffix oob].
  rewrite !length_app, !length_replicate. split_and!; lia || done.
Qed.

Lemma read_prefix_parts pre xs :
  (length pre + length xs <= 16)%nat -> read_prefix xs (pre_parts pre) = pre_parts (pre ++ xs).
Proof.
  revert pre; induction xs as [|x xs IH]; intros pre H; cbn [read_prefix length] in *.
  - by rewrite app_nil_r.
  - replace (pre ++ x :: xs) with ((pre ++ [x]) ++ xs) by (by rewrite <- app_assoc).
    rewrite <- IH by (rewrite length_app; cbn; lia). f_equal. unfold pre_parts.
    cbn [filled_bytes prefix suffix oob]. rewrite (proj2 (Nat.ltb_lt _ _)) by lia.
    rewrite length_app. cbn [length orb negb]. f_equal; [|lia].
    rewrite insert_app_r_alt by lia. rewrite Nat.sub_diag, <- app_assoc.
    replace (16 - length pre)%nat with (S (16 - (length pre + 1))) by lia. done.
Qed.

Lemma read_suffix_parts pre suf xs :
  (length pre + length suf + length xs <= 16)%nat ->
  read_suffix xs (suf_parts pre suf) = suf_parts pre (suf ++ xs).
Proof.
  intros H. unfold read_suffix, suf_parts. cbn [filled_bytes prefix suffix oob].
  rewrite (proj2 (Nat.ltb_ge 16 (length xs))) by lia. cbn [orb]. rewrite length_app. f_equal; [|lia].
  rewrite drop_app_length, take_app_length.
  replace (16 - length suf)%nat with (length xs + (16 - (length suf + length xs)))%nat by lia.
  rewrite replicate_add, <- !app_assoc, drop_app_le by (rewrite length_replicate; lia).
  rewrite drop_replicate. replace (length xs - length xs)%nat with 0%nat by lia. cbn [replicate app].
  by rewrite <- app_assoc.
Qed.

Lemma zip_or_zero l : zip_with Z.lor l (replicate (length l) 0) = l.
Proof. induction l as [|x l IH]; [done|]. cbn [length replicate zip_with]. by rewrite Z.lor_0_r, IH. Qed.

Lemma result_parts pre suf :
  (length pre + length suf <= 16)%nat ->
  v6_result (suf_parts pre suf) = pre ++ replicate (16 - length pre - length suf) 0 ++ suf.
Proof.
  intros H. unfold v6_result, suf_parts. cbn [prefix suffix].
  remember (16 - length pre - length suf)%nat as k eqn:Hk.
  assert (16 - length suf = length pre + k)%nat as -> by lia.
  assert (16 - length pre = k + length suf)%nat as -> by lia.
  rewrite !replicate_add, <- app_assoc.
  assert (Hr : forall l, zip_with Z.lor (replicate (length l) 0) l = l).
  { intros l. induction l as [|x l IH]; [done|]. cbn. by rewrite IH. }
  rewrite zip_with_app by (by rewrite length_replicate). rewrite zip_or_zero. f_equal.
  rewrite zip_with_app by (by rewrite !length_replicate). rewrite Hr. f_equal.
  rewrite <- (length_replicate k 0) at 2. by rewrite zip_or_zero.
Qed.

(** *** Runs of the address parser *)

(** Chunks as pairs of bytes, each printed behind a colon. *)
Definition pair_bytes (l : list (Z * Z)) : bytes := flat_map (fun ab => [ab.1; ab.2]) l.

Definition colon_chunks (l : list (Z * Z)) : list Z :=
  flat_map (fun ab => chr ":" :: append_v6_hex [ab.1; ab.2]) l.

Definition byte_pairs (l : list (Z * Z)) : Prop := Forall (fun ab => is_byte ab.1 /\ is_byte ab.2) l.

Lemma pair_bytes_length l : length (pair_bytes l) = (2 * length l)%nat.
Proof. induction l as [|ab l IH]; [done|]. cbn. fold (pair_bytes l). rewrite IH. lia. Qed.

Lemma pair_bytes_app l k : pair_bytes (l ++ k) = pair_bytes l ++ pair_bytes k.
Proof. apply flat_map_app. Qed.

Lemma colon_chunks_end l t : piece_end t -> piece_end (colon_chunks l ++ t).
Proof. destruct l; [done|]. intros _. by right; left. Qed.

(** A chunk of the prefix behind a colon, when more than two bytes are missing. *)
Lemma run_prefix_chunk pre a b t c p r k :
  length pre = (2 * k)%nat -> (1 <= k <= 6)%nat -> is_byte a -> is_byte b -> piece_end t ->
  ends v_fsm rd_prefix_sep (pre_parts (pre ++ [a; b])) t c p r ->
  ends v_fsm rd_prefix_sep (pre_parts pre) (chr ":" :: append_v6_hex [a; b] ++ t) c p r.
Proof.
  intros Hlen Hk Ha Hb Ht He. eapply ends_take; [done|reflexivity|].
  destruct (chunk_head a b Ha Hb) as (x & ds & Hx & Hx0 & Hhex & Hcolon).
  assert (Hacc : accepted (end_code t) = true) by (destruct t as [|d t]; [done|]; cbn; by destruct (d =? 0)).
  assert (Hok : parts_ok (length pre) (pre_parts pre)) by (apply pre_parts_ok; lia).
  rewrite <- (read_prefix_parts pre [a; b]) in He by (cbn; lia).
  assert (Hrem : remaining_bytes (pre_parts pre) = (16 - 2 * k)%nat) by (unfold remaining_bytes; cbn; lia).
  pose proof (reads_chunk16 read_prefix (pre_parts pre) a b t Ha Hb Ht) as R16.
  pose proof (fun H => reads_chunk read_prefix (length pre) (pre_parts pre) a b t Hok H Ha Hb Ht) as R32.
  rewrite Hx in *. cbn [app] in *.
  eapply ends_eps; [done|cbn [body v_fsm v_body]; by rewrite Hcolon|].
  destruct (decide (k = 6)%nat) as [->|Hk6].
  - eapply ends_sub with (s' := maybe_done); [done| |apply R32; lia|done|].
    { cbn [body v_fsm v_body]. by rewrite Hrem, Hhex. }
    eapply ends_eps_unstable; [done| |exact He]. cbn [body v_fsm v_body].
    rewrite (read_prefix_parts pre [a; b]) by (cbn; lia). unfold remaining_bytes. cbn.
    rewrite length_app, Hlen. done.
  - eapply ends_sub with (s' := rd_prefix_sep); [done| |exact R16|done|exact He].
    cbn [body v_fsm v_body]. rewrite Hrem, Hhex, (proj2 (Nat.ltb_lt _ _)) by lia. done.
Qed.

Lemma run_prefix l pre t c p r k :
  length pre = (2 * k)%nat -> (1 <= k)%nat -> (k + length l <= 7)%nat -> byte_pairs l -> piece_end t ->
  ends v_fsm rd_prefix_sep (pre_parts (pre ++ pair_bytes l)) t c p r ->
  ends v_fsm rd_prefix_sep (pre_parts pre) (colon_chunks l ++ t) c p r.
Proof.
  intros Hlen Hk Hl Hb Ht He. revert pre k Hlen Hk Hl He.
  induction Hb as [|[a b] l [Ha Hb'] Hb IH]; intros pre k Hlen Hk Hl He.
  - cbn in He. by rewrite app_nil_r in He.
  - cbn [length] in Hl. cbn [colon_chunks flat_map fst snd]. fold (colon_chunks l).
    rewrite <- app_assoc, <- app_comm_cons.
    eapply (run_prefix_chunk pre a b _ _ _ _ k); [done|lia|done..|by apply colon_chunks_end|].
    apply (IH (pre ++ [a; b]) (S k)); [rewrite length_app; cbn; lia|lia..|].
    by rewrite <- app_assoc.
Qed.

(** The last chunk of an address without an abbreviation. *)
Lemma run_last pre a b r :
  length pre = 14%nat -> is_byte a -> is_byte b -> address_end r ->
  ends v_fsm rd_prefix_sep (pre_parts pre) (chr ":" :: append_v6_hex [a; b] ++ r)
    (end_code r) (pre_parts (pre ++ [a; b])) r.
Proof.
  intros Hlen Ha Hb Hr. eapply ends_take; [done|reflexivity|].
  destruct (chunk_head a b Ha Hb) as (x & ds & Hx & Hx0 & Hhex & Hcolon).
  pose proof (reads_chunk16 read_prefix (pre_parts pre) a b r Ha Hb (address_end_piece r Hr)) as R16.
  rewrite (read_prefix_parts pre [a; b]) in R16 by (cbn; lia). rewrite Hx in *. cbn [app] in *.
  eapply ends_eps; [done|cbn [body v_fsm v_body]; by rewrite Hcolon|].
  eapply ends_sub with (s' := v_done); [done| |exact R16|by apply address_end_accepted|by apply ends_address; [left|]].
  cbn [body v_fsm v_body]. assert (remaining_bytes (pre_parts pre) = 2%nat) as -> by (unfold remaining_bytes; cbn; lia).
  by rewrite Hhex.
Qed.

(** The chunks behind the double colon. *)
Lemma run_suffix pre a b l suf r :
  is_byte a -> is_byte b -> byte_pairs l -> address_end r ->
  (length pre + length suf + 2 + 2 * length l <= 12)%nat ->
  ends v_fsm rd_suffix (suf_parts pre suf) (append_v6_hex [a; b] ++ colon_chunks l ++ r)
    (end_code r) (suf_parts pre (suf ++ [a; b] ++ pair_bytes l)) r.
Proof.
  intros Ha Hb Hl Hr. revert a b suf Ha Hb. induction Hl as [|[a' b'] l [Ha' Hb'] Hl IH]; intros a b suf Ha Hb Hlen.
  - cbn [colon_chunks flat_map]. cbn [length] in Hlen.
    destruct (chunk_head a b Ha Hb) as (x & ds & Hx & Hx0 & Hhex & Hcolon).
    pose proof (reads_chunk read_suffix _ _ a b r (suf_parts_ok pre suf ltac:(lia)) ltac:(lia) Ha Hb
      (address_end_piece r Hr)) as R.
    rewrite read_suffix_parts in R by (cbn; lia). rewrite Hx in *. cbn [app pair_bytes flat_map] in *.
    eapply ends_sub with (s' := rd_next_suffix);
      [done| |exact R|by apply address_end_accepted|by apply ends_address; [right; left|]].
    cbn [body v_fsm v_body].
    assert ((4 <=? remaining_bytes (suf_parts pre suf))%nat = true) as ->
      by (apply Nat.leb_le; unfold remaining_bytes; cbn [filled_bytes suf_parts]; lia).
    by rewrite Hhex.
  - cbn [colon_chunks flat_map fst snd length] in *. fold (colon_chunks l).
    destruct (chunk_head a b Ha Hb) as (x & ds & Hx & Hx0 & Hhex & Hcolon).
    rewrite <- !app_assoc.
    pose proof (reads_chunk read_suffix _ _ a b ((chr ":" :: append_v6_hex [a'; b']) ++ colon_chunks l ++ r)
      (suf_parts_ok pre suf ltac:(lia)) ltac:(lia) Ha Hb ltac:(by right; left)) as R.
    rewrite read_suffix_parts in R by (cbn; lia). rewrite Hx in *. cbn [app] in *.
    eapply ends_sub with (s' := rd_next_suffix); [done| |exact R|done|].
    { cbn [body v_fsm v_body].
      assert ((4 <=? remaining_bytes (suf_parts pre suf))%nat = true) as ->
        by (apply Nat.leb_le; unfold remaining_bytes; cbn [filled_bytes suf_parts]; lia).
      by rewrite Hhex. }
    eapply ends_take; [done|reflexivity|].
    specialize (IH a' b' (suf ++ [a; b]) Ha' Hb' ltac:(rewrite length_app; cbn; lia)).
    rewrite <- app_assoc in IH. exact IH.
Qed.

(** *** Embedded IPv4 addresses *)

Lemma dec_step max x c ds :
  0 <= x -> 0 <= max -> decimal (c :: ds) -> value_onto 10 x (c :: ds) <= max ->
  add_ascii 10 max x c = (true, x * 10 + ascii_to_int 10 c) /\ 0 <= x * 10 + ascii_to_int 10 c.
Proof.
  intros Hx Hm Hds Hv. apply Forall_cons in Hds as [Hc Hds].
  pose proof (digit_range 10 c is_base_10 Hc). split; [|lia].
  apply add_ascii_fits; [apply is_base_10|done..|].
  pose proof (value_onto_grows 10 (x * 10 + ascii_to_int 10 c) ds is_base_10 ltac:(lia) Hds).
  change (value_onto 10 x (c :: ds)) with (value_onto 10 (x * 10 + ascii_to_int 10 c) ds) in Hv. lia.
Qed.

Lemma decimal_hexadecimal ds : decimal ds -> hexadecimal ds.
Proof.
  unfold decimal, hexadecimal. induction 1 as [|c ds Hc _ IH]; constructor; [|done].
  exact (class_check decimal_chars (in_whitelist hexadecimal_chars) c eq_refl Hc).
Qed.

(** The digits of the first octet, read in both bases. *)
Lemma l_read_dec callback ds t h d n o p c l' r :
  decimal ds -> 0 <= d -> 0 <= h -> value_onto 10 d ds <= 255 -> value_onto 16 h ds <= 65535 ->
  ends (l_fsm callback) l_read
    (LL indeterminate (value_onto 16 h ds) (value_onto 10 d ds) (n + length ds) o p) t c l' r ->
  ends (l_fsm callback) l_read (LL indeterminate h d n o p) (ds ++ t) c l' r.
Proof.
  intros Hds. revert h d n. induction ds as [|x ds IH]; intros h d n Hd Hh Hv Hw He.
  - cbn in He. by rewrite Nat.add_0_r in He.
  - destruct (dec_step 255 d x ds Hd ltac:(lia) Hds Hv) as [Ha H0].
    destruct (hex_step h x ds 65535 Hh ltac:(lia) (decimal_hexadecimal _ Hds) Hw) as [Hb H1].
    apply Forall_cons in Hds as [Hc Hds]. cbn [app length] in *.
    eapply ends_take with (l1 := LL indeterminate (h * 16 + ascii_to_int 16 x) (d * 10 + ascii_to_int 10 x) (S n) o p);
      [by apply (digit_nonzero 10 x is_base_10)| |].
    + cbn [body l_fsm l_body mode]. rewrite bool_decide_eq_true_2 by done.
      assert (in_whitelist hexadecimal_chars x = true) as -> by
        (exact (class_check decimal_chars (in_whitelist hexadecimal_chars) x eq_refl Hc)).
      unfold checked, rd_both. cbn [andb fst snd mode hex_res dec_res digits octet dest]. by rewrite Ha, Hb, Hc.
    + apply IH; [done..|]. by replace (S n + length ds)%nat with (n + S (length ds))%nat by lia.
Qed.

(** The digits of the other octets. *)
Lemma l_octet_dec callback s ds t h d n o p c l' r :
  s = l_read_octet \/ s = l_read_last_octet ->
  decimal ds -> 0 <= d -> value_onto 10 d ds <= 255 ->
  ends (l_fsm callback) s (LL v4_octets h (value_onto 10 d ds) (n + length ds) o p) t c l' r ->
  ends (l_fsm callback) s (LL v4_octets h d n o p) (ds ++ t) c l' r.
Proof.
  intros Hs Hds. revert d n. induction ds as [|x ds IH]; intros d n Hd Hv He.
  - cbn in He. by rewrite Nat.add_0_r in He.
  - destruct (dec_step 255 d x ds Hd ltac:(lia) Hds Hv) as [Ha H0].
    apply Forall_cons in Hds as [Hc Hds]. cbn [app length] in *.
    eapply ends_take with (l1 := LL v4_octets h (d * 10 + ascii_to_int 10 x) (S n) o p);
      [by apply (digit_nonzero 10 x is_base_10)| |].
    + destruct Hs as [-> | ->]; cbn [body l_fsm l_body]; rewrite Hc; unfold checked, rd_dec;
        cbn [mode hex_res dec_res digits octet dest]; by rewrite Ha.
    + apply IH; [done..|]. by replace (S n + length ds)%nat with (n + S (length ds))%nat by lia.
Qed.

Definition octet_ok (a : Z) : bool :=
  let ds := print_unsigned a in
  forallb (in_whitelist decimal_chars) ds
    && ((0 <? length ds)%nat && (value 10 ds =? a) && (value 16 ds <=? 65535)).

Lemma octet_ok_all : forall_byteb octet_ok = true.
Proof. vm_compute. reflexivity. Qed.

Lemma octet_text a :
  is_byte a ->
  let ds := print_unsigned a in
  decimal ds /\ (0 < length ds)%nat /\ value 10 ds = a /\ value 16 ds <= 65535.
Proof.
  intros Ha ds. pose proof (forall_byteb_spec _ a octet_ok_all Ha) as H.
  unfold octet_ok in H. fold ds in H. clearbody ds.
  apply andb_prop in H as [H1 H]. apply andb_prop in H as [H H4]. apply andb_prop in H as [H2 H3].
  split_and!; [|by apply Nat.ltb_lt|by apply Z.eqb_eq|by apply Z.leb_le].
  rewrite forallb_forall in H1. apply List.Forall_forall. exact H1.
Qed.

Lemma fin_octet_parts h d n o pre :
  (length pre < 16)%nat ->
  fin_octet read_prefix (LL v4_octets h d n o (pre_parts pre)) = LL v4_octets h 0 0 (S o) (pre_parts (pre ++ [d])).
Proof.
  intros H. unfold fin_octet, value8. cbn [hex_res octet dest dec_res].
  by rewrite read_prefix_parts by (cbn; lia).
Qed.

(** The first octet: it is read in both bases until the dot settles for IPv4. *)
Lemma first_octet_run a t c l' r :
  is_byte a ->
  ends (l_fsm read_prefix) l_read_octet (LL v4_octets (value 16 (print_unsigned a)) 0 0 1 (pre_parts [a])) t c l' r ->
  ends (l_fsm read_prefix) l_init (LL indeterminate 0 0 0 0 (pre_parts [])) (print_unsigned a ++ chr "." :: t) c l' r.
Proof.
  intros Ha He. destruct (octet_text a Ha) as (A1 & A2 & A3 & A4). unfold is_byte in Ha.
  destruct (print_unsigned a) as [|x da]; [cbn in A2; lia|]. cbn [app].
  destruct (dec_step 255 0 x da ltac:(lia) ltac:(lia) A1) as [E1 E2]; [unfold value in A3; unfold value_onto; lia|].
  destruct (hex_step 0 x da 65535 ltac:(lia) ltac:(lia) (decimal_hexadecimal _ A1)) as [F1 F2];
    [unfold value in A4; unfold value_onto; lia|].
  apply Forall_cons in A1 as [X1 A1].
  eapply ends_take with
    (l1 := LL indeterminate (0 * 16 + ascii_to_int 16 x) (0 * 10 + ascii_to_int 10 x) 1 0 (pre_parts []));
    [by apply (digit_nonzero 10 x is_base_10)| |].
  { cbn [body l_fsm l_body].
    assert (in_whitelist hexadecimal_chars x = true) as -> by
      (exact (class_check decimal_chars (in_whitelist hexadecimal_chars) x eq_refl X1)).
    unfold checked, rd_both. cbn [fst snd mode hex_res dec_res digits octet dest]. by rewrite E1, F1, X1. }
  change (value 10 (x :: da)) with (value_onto 10 (0 * 10 + ascii_to_int 10 x) da) in A3.
  change (value 16 (x :: da)) with (value_onto 16 (0 * 16 + ascii_to_int 16 x) da) in A4, He.
  apply l_read_dec; [done..|lia|done|]. rewrite A3.
  eapply ends_take; [done| |exact He].
  cbn [body l_fsm l_body]. unfold fin_octet, value8. cbn [hex_res octet dest dec_res].
  by rewrite (read_prefix_parts [] [a]) by (cbn; lia).
Qed.

(** The second and the third octet, each up to its dot. *)
Lemma next_octet_run s' a pre h t c l' r :
  (length pre = 1%nat /\ s' = l_read_octet) \/ (length pre = 2%nat /\ s' = l_read_last_octet) ->
  is_byte a ->
  ends (l_fsm read_prefix) s' (LL v4_octets h 0 0 (S (length pre)) (pre_parts (pre ++ [a]))) t c l' r ->
  ends (l_fsm read_prefix) l_read_octet (LL v4_octets h 0 0 (length pre) (pre_parts pre))
    (print_unsigned a ++ chr "." :: t) c l' r.
Proof.
  intros Hs Ha He. destruct (octet_text a Ha) as (A1 & A2 & A3 & _). unfold is_byte in Ha.
  apply l_octet_dec; [by left|done|lia|unfold value_onto; unfold value in A3; lia|].
  change (value_onto 10 0 (print_unsigned a)) with (value 10 (print_unsigned a)). rewrite A3.
  eapply ends_take; [done| |exact He].
  cbn [body l_fsm l_body octet digits]. rewrite (proj2 (Nat.ltb_lt 0 (0 + _))) by lia.
  rewrite fin_octet_parts by lia. by destruct Hs as [[-> ->] | [-> ->]].
Qed.

Lemma reads_l32 a b c d :
  is_byte a -> is_byte b -> is_byte c -> is_byte d ->
  reads (read_ipv6_h16_or_l32 read_prefix v6_start) (v4_to_string [a; b; c; d])
    success (pre_parts [a; b; c; d]) [].
Proof.
  intros Ha Hb Hc Hd. change v6_start with (pre_parts []).
  unfold v4_to_string. cbn [length Nat.sub seq flat_map List.nth app]. rewrite app_nil_r.
  assert (He : ends (l_fsm read_prefix) l_init (LL indeterminate 0 0 0 0 (pre_parts []))
    (print_unsigned a ++ chr "." :: print_unsigned b ++ chr "." :: print_unsigned c ++ chr "." :: print_unsigned d) success
    (LL v4_octets (value 16 (print_unsigned a)) d (0 + length (print_unsigned d)) 3 (pre_parts [a; b; c])) []).
  { apply first_octet_run; [done|].
    apply (next_octet_run l_read_octet b [a]); [by left|done|].
    apply (next_octet_run l_read_last_octet c [a; b]); [by right|done|].
    destruct (octet_text d Hd) as (D1 & _ & D3 & _). unfold is_byte in Hd. rewrite <- (app_nil_r (print_unsigned d)) at 1.
    apply l_octet_dec; [by right|done|lia|unfold value_onto; unfold value in D3; lia|].
    change (value_onto 10 0 (print_unsigned d)) with (value 10 (print_unsigned d)). rewrite D3.
    by apply (ends_term (l_fsm read_prefix)). }
  pose proof (l_fsm_ok read_prefix 0 ltac:(lia)) as Hok.
  apply (ends_reads _ (l_inv 0) (fun _ => 0%nat)) in He; [|split_and!; [done..|by apply pre_parts_ok; cbn; lia]].
  intros co ln col. destruct (He co ln col) as (ln' & col' & Hrun). exists ln', col'.
  unfold read_ipv6_h16_or_l32. rewrite Hrun. cbn [code]. rewrite bool_decide_eq_true_2 by done.
  rewrite (fin_octet_parts _ _ _ _ [a; b; c]) by (cbn; lia). done.
Qed.

(** ** The longest run of zeros *)

(** Either there are no two adjacent zeros, or the streak is a run of at least
    two of them. *)
Lemma adjacent_zeros_spec l :
  let f := adjacent_zeros l in
  f = length l \/ (f + 2 <= length l)%nat /\ take 2 (drop f l) = [0; 0].
Proof.
  induction l as [|x [|y r] IH]; [by left|by left|].
  change (adjacent_zeros (x :: y :: r)) with (if (x =? 0) && (y =? 0) then 0%nat else S (adjacent_zeros (y :: r))).
  cbn zeta in *. set (g := adjacent_zeros (y :: r)) in *. clearbody g.
  destruct (Z.eqb_spec x 0) as [->|Hx]; [destruct (Z.eqb_spec y 0) as [->|Hy]|]; cbn [andb].
  - right. cbn. split; [lia|done].
  - destruct IH as [IH|[IH1 IH2]]; [left|right]; cbn [length drop] in *; [lia|]. split; [lia|exact IH2].
  - destruct IH as [IH|[IH1 IH2]]; [left|right]; cbn [length drop] in *; [lia|]. split; [lia|exact IH2].
Qed.

Lemma find_nonzero_spec l :
  (find_nonzero l <= length l)%nat /\ take (find_nonzero l) l = replicate (find_nonzero l) 0.
Proof.
  induction l as [|x l [IH1 IH2]]; [done|]. cbn. destruct (Z.eqb_spec x 0) as [->|]; cbn; [|split; [lia|done]].
  split; [lia|]. by rewrite IH2.
Qed.

Definition zero_streak (l : list Z) (f s : nat) : Prop :=
  (f = length l /\ s = length l)
  \/ ((f + 2 <= s <= length l)%nat /\ take (s - f) (drop f l) = replicate (s - f) 0).

Lemma longest_streak_spec n l : zero_streak l (longest_streak n l).1 (longest_streak n l).2.
Proof.
  revert l; induction n as [|n IH]; intros l; [by left|]. cbn [longest_streak].
  destruct (Nat.eqb_spec (adjacent_zeros l) (length l)) as [Hf|Hf]; [by left|].
  destruct (adjacent_zeros_spec l) as [H|[H1 H2]]; [done|].
  set (f := adjacent_zeros l) in *. destruct (find_nonzero_spec (drop (f + 2) l)) as [H3 H4].
  set (k := find_nonzero (drop (f + 2) l)) in *. rewrite length_drop in H3.
  assert (Hz : zero_streak l f (f + 2 + k)).
  { right. split; [lia|]. replace (f + 2 + k - f)%nat with (2 + k)%nat by lia.
    rewrite <- (take_drop 2 (drop f l)), H2, drop_drop.
    change (take (2 + k) ([0; 0] ++ drop (f + 2) l)) with (0 :: 0 :: take k (drop (f + 2) l)). by rewrite H4. }
  destruct (Nat.eqb_spec (f + 2 + k) (length l)) as [Hs|Hs]; [exact Hz|].
  specialize (IH (drop (f + 2 + k) l)). destruct (longest_streak n (drop (f + 2 + k) l)) as [a b]. cbn [fst snd] in IH.
  destruct (Nat.leb_spec (b - a) (f + 2 + k - f)); [exact Hz|].
  unfold zero_streak in IH. rewrite length_drop, drop_drop in IH. cbn [fst snd].
  destruct IH as [[-> ->]|[Hab Ht]]; [lia|]. right. split; [lia|].
  by replace (f + 2 + k + b - (f + 2 + k + a))%nat with (b - a)%nat by lia.
Qed.

(** ** Printing and parsing *)

Definition seg (ab : Z * Z) : Z := le_val [ab.1; ab.2].

Lemma add_chunk_seg a b : is_byte a -> is_byte b -> add_chunk (seg (a, b)) = append_v6_hex [a; b].
Proof.
  intros Ha Hb. unfold add_chunk, seg. cbn [fst snd]. f_equal.
  assert (Hab : all_bytes [a; b]) by (constructor; [done|constructor; [done|constructor]]).
  exact (le_bytes_val [a; b] Hab).
Qed.

Lemma add_chunks_segs ab l :
  byte_pairs (ab :: l) -> add_chunks (map seg (ab :: l)) = append_v6_hex [ab.1; ab.2] ++ colon_chunks l.
Proof.
  intros Hb. apply Forall_cons in Hb as [[Ha Hb'] Hl]. destruct ab as [a b]. cbn [map add_chunks fst snd] in *.
  rewrite add_chunk_seg by done. f_equal. induction Hl as [|[c d] l [Hc Hd] Hl IH]; [done|].
  cbn [map flat_map colon_chunks fst snd] in *. rewrite add_chunk_seg by done. cbn [app]. by rewrite IH.
Qed.

Lemma seg_zero ab : is_byte ab.1 -> is_byte ab.2 -> seg ab = 0 -> ab = (0, 0).
Proof. intros Ha Hb. unfold seg, is_byte in *. destruct ab as [a b]. cbn in *. intros. f_equal; lia. Qed.

Lemma ipv6_pairs x :
  is_ipv6 x ->
  exists prs, length prs = 8%nat /\ byte_pairs prs /\ x = pair_bytes prs /\ oct_segments x = map seg prs.
Proof.
  intros [Hlen Hb].
  do 16 (destruct x as [|? x]; [done|]). destruct x; [|done]. clear Hlen.
  repeat (apply Forall_cons in Hb as [? Hb]).
  eexists [(_, _); (_, _); (_, _); (_, _); (_, _); (_, _); (_, _); (_, _)]. split_and!; [done| |done..].
  repeat (constructor; [done|]). constructor.
Qed.

Lemma pre_suf_parts pre : pre_parts pre = suf_parts pre [].
Proof. unfold pre_parts, suf_parts. cbn [length]. by rewrite Nat.sub_0_r, app_nil_r, Nat.add_0_r. Qed.

(** Behind the double colon. *)
Lemma run_has_sep pre l r :
  byte_pairs l -> (length pre + 2 * length l <= 12)%nat -> address_end r ->
  ends v_fsm has_sep (suf_parts pre []) (add_chunks (map seg l) ++ r) (end_code r) (suf_parts pre (pair_bytes l)) r.
Proof.
  intros Hl Hlen Hr. destruct l as [|[a b] l]; [by apply ends_address; [right; right|]|].
  rewrite add_chunks_segs by done. apply Forall_cons in Hl as [[Ha Hb] Hl]. cbn [fst snd length] in *.
  pose proof (run_suffix pre a b l [] r Ha Hb Hl Hr ltac:(cbn; lia)) as He. cbn [app] in He. rewrite <- app_assoc.
  destruct (chunk_head a b Ha Hb) as (x & ds & Hx & Hx0 & Hhex & Hcolon). rewrite Hx in *. cbn [app] in *.
  eapply ends_eps; [done| |exact He]. cbn [body v_fsm v_body]. by rewrite Hhex.
Qed.

(** The first chunk. *)
Lemma run_first a b t c p r :
  is_byte a -> is_byte b -> piece_end t ->
  ends v_fsm rd_prefix_sep (pre_parts [a; b]) t c p r ->
  ends v_fsm v_init v6_start (append_v6_hex [a; b] ++ t) c p r.
Proof.
  intros Ha Hb Ht He. change v6_start with (pre_parts []).
  pose proof (reads_chunk read_prefix 0 (pre_parts []) a b t (pre_parts_ok [] ltac:(cbn; lia)) ltac:(lia) Ha Hb Ht) as R.
  rewrite (read_prefix_parts [] [a; b]) in R by (cbn; lia).
  destruct (chunk_head a b Ha Hb) as (x & ds & Hx & Hx0 & Hhex & Hcolon). rewrite Hx in *. cbn [app] in *.
  assert (Hacc : accepted (end_code t) = true) by (destruct t as [|d t]; [done|]; cbn; by destruct (d =? 0)).
  eapply ends_sub with (s' := maybe_has_l32); [done| |exact R|done|].
  { cbn [body v_fsm v_body]. by rewrite Hcolon, Hhex. }
  by eapply ends_eps_unstable; [done|reflexivity|].
Qed.

Lemma run_abbreviated A C r :
  byte_pairs A -> byte_pairs C -> (length A + length C <= 6)%nat -> address_end r ->
  ends v_fsm v_init v6_start ((add_chunks (map seg A) ++ chars "::" ++ add_chunks (map seg C)) ++ r)
    (end_code r) (suf_parts (pair_bytes A) (pair_bytes C)) r.
Proof.
  intros HA HC Hlen Hr. rewrite <- !app_assoc.
  pose proof (run_has_sep (pair_bytes A) C r HC ltac:(rewrite pair_bytes_length; lia) Hr) as He.
  destruct A as [|[a b] A].
  - change v6_start with (suf_parts [] []). cbn [map add_chunks app].
    eapply ends_take; [done|reflexivity|]. eapply ends_take; [done|reflexivity|]. exact He.
  - rewrite add_chunks_segs by done. apply Forall_cons in HA as [[Ha Hb] HA]. cbn [fst snd length] in *.
    rewrite <- app_assoc. apply run_first; [done..|by apply colon_chunks_end; right; left|].
    apply (run_prefix A [a; b] _ _ _ _ 1); [done|lia|lia|done|by right; left|].
    eapply ends_take; [done|reflexivity|]. eapply ends_take; [done|reflexivity|].
    rewrite pre_suf_parts. exact He.
Qed.

Lemma run_full l r :
  byte_pairs l -> length l = 8%nat -> address_end r ->
  ends v_fsm v_init v6_start (add_chunks (map seg l) ++ r) (end_code r) (pre_parts (pair_bytes l)) r.
Proof.
  intros Hl Hlen Hr. destruct l as [|ab l]; [done|]. cbn [length] in Hlen.
  destruct (exists_last (l := l)) as (l' & [y z] & ->); [by destruct l|].
  rewrite length_app in Hlen. cbn [length] in Hlen. rewrite add_chunks_segs by done.
  apply Forall_cons in Hl as [[Ha Hb] Hl]. apply Forall_app in Hl as [Hl Hyz].
  apply Forall_cons in Hyz as [[Hy Hz] _]. destruct ab as [a b]. cbn [fst snd] in *.
  unfold colon_chunks. rewrite flat_map_app. fold (colon_chunks l'). cbn [flat_map fst snd]. rewrite app_nil_r, <- !app_assoc.
  apply run_first; [done..|apply colon_chunks_end; by right; left|].
  apply (run_prefix l' [a; b] _ _ _ _ 1); [done|lia|lia|done|by right; left|].
  pose proof (run_last ([a; b] ++ pair_bytes l') y z r) as He.
  replace (pair_bytes ((a, b) :: l' ++ [(y, z)])) with (([a; b] ++ pair_bytes l') ++ [y; z])
    by (unfold pair_bytes; cbn; rewrite flat_map_app; done).
  apply He; [|done..]. rewrite length_app, pair_bytes_length. cbn. lia.
Qed.

(** A run of zero chunks is sixteen-bit zeros. *)
Lemma pair_bytes_zero l n : byte_pairs l -> map seg l = replicate n 0 -> pair_bytes l = replicate (2 * n) 0.
Proof.
  intros Hl. revert n. induction Hl as [|ab l [Ha Hb] Hl IH]; intros [|n] H; try done.
  cbn [map replicate] in H. injection H as H0 H. rewrite (seg_zero ab Ha Hb H0).
  change (pair_bytes ((0, 0) :: l)) with (0 :: 0 :: pair_bytes l). rewrite (IH n H).
  replace (2 * S n)%nat with (S (S (2 * n))) by lia. done.
Qed.

Lemma reads_of_run x t c r p :
  ends v_fsm v_init v6_start t c p r -> accepted c = true -> v6_result p = x -> oob p = false ->
  reads read_ipv6_address t c (Some x) r.
Proof.
  intros He Ha Hx Ho. apply (ends_reads _ v_inv v_rank) in He; [|apply v_start_inv].
  intros co ln col. destruct (He co ln col) as (ln' & col' & Hr). exists ln', col'. unfold read_ipv6_address.
  rewrite Hr, Ho. cbn [code]. by rewrite Ha, Hx.
Qed.

Lemma quad_bytes a b c d v :
  is_byte a -> is_byte b -> is_byte c -> is_byte d -> le_val [a; b; c; d] = v -> [a; b; c; d] = le_bytes 4 v.
Proof.
  intros Ha Hb Hc Hd <-. symmetry. apply (le_bytes_val [a; b; c; d]).
  constructor; [done|constructor; [done|constructor; [done|constructor; [done|constructor]]]].
Qed.

(** An address that embeds an IPv4 address consists of the prefix and its four bytes. *)
Lemma embeds_v4_bytes x :
  is_ipv6 x -> v6_embeds_v4 x = true ->
  exists a b c d, is_byte a /\ is_byte b /\ is_byte c /\ is_byte d
    /\ v6_embedded_v4 x = [a; b; c; d] /\ x = v6_of_v4 [a; b; c; d].
Proof.
  intros [Hlen Hb] He.
  destruct x as [|x0 [|x1 [|x2 [|x3 [|x4 [|x5 [|x6 [|x7 [|x8 [|x9 [|x10 [|x11 [|x12 [|x13 [|x14 [|x15 [|]]]]]]]]]]]]]]]]]; try done. clear Hlen.
  unfold all_bytes in Hb. rewrite !Forall_cons in Hb.
  destruct Hb as (B0 & B1 & B2 & B3 & B4 & B5 & B6 & B7 & B8 & B9 & B10 & B11 & B12 & B13 & B14 & B15 & _).
  apply bool_decide_eq_true in He. cbn [quad_segments words_go take drop] in He. injection He as E1 E2 E3.
  exists x12, x13, x14, x15. split_and!; [done..| |].
  - unfold v6_embedded_v4, v4_from_bits. cbn [quad_segments words_go take drop List.nth]. symmetry. by apply quad_bytes.
  - unfold v6_of_v4, v4_bits. rewrite <- (quad_bytes x12 x13 x14 x15 _ B12 B13 B14 B15 eq_refl).
    apply quad_bytes in E1; [|done..]. apply quad_bytes in E2; [|done..]. apply quad_bytes in E3; [|done..].
    injection E1 as -> -> -> ->. injection E2 as -> -> -> ->. injection E3 as -> -> -> ->. done.
Qed.

Lemma run_embedded a b c d :
  is_byte a -> is_byte b -> is_byte c -> is_byte d ->
  ends v_fsm v_init v6_start (v4_to_string [a; b; c; d]) success (promote_v4 (pre_parts [a; b; c; d])) [].
Proof.
  intros Ha Hb Hc Hd. pose proof (reads_l32 a b c d Ha Hb Hc Hd) as R.
  destruct (octet_text a Ha) as (A1 & A2 & _).
  assert (exists x t, v4_to_string [a; b; c; d] = x :: t /\ in_whitelist decimal_chars x = true) as (x & t & Ht & Hx).
  { unfold v4_to_string. cbn [List.nth]. destruct (print_unsigned a) as [|x da]; [cbn in A2; lia|].
    apply Forall_cons in A1 as [Hx _]. eexists x, _. done. }
  rewrite Ht in *.
  pose proof (class_check decimal_chars (fun x => in_whitelist hexadecimal_chars x && negb (x =? chr ":")) x eq_refl Hx) as Hc'.
  apply andb_prop in Hc' as [Hhex Hcolon]. apply negb_true_iff in Hcolon.
  eapply ends_sub with (s' := maybe_has_l32); [by apply (digit_nonzero 10 x is_base_10)| |exact R|done|].
  { cbn [body v_fsm v_body]. by rewrite Hcolon, Hhex. }
  eapply ends_eps_unstable; [done|reflexivity|]. by apply (ends_term v_fsm).
Qed.

Lemma v6_zero_bytes x : is_ipv6 x -> v6_zero x = true -> x = replicate 16 0.
Proof.
  intros [Hlen Hb] Hz. apply andb_prop in Hz as [H1 H2]. apply Z.eqb_eq in H1, H2.
  assert (Hx : x = take 8 x ++ drop 8 x) by (by rewrite take_drop).
  assert (Hb1 : all_bytes (take 8 x)) by (by apply Forall_take). assert (Hb2 : all_bytes (drop 8 x)) by (by apply Forall_drop).
  assert (E1 : le_val (take 8 x) = 0) by (destruct x; done).
  assert (E2 : le_val (drop 8 x) = 0).
  { rewrite <- H2. do 16 (destruct x as [|? x]; [done|]). destruct x; done. }
  rewrite Hx, <- (le_bytes_val _ Hb1), <- (le_bytes_val _ Hb2), E1, E2, length_take, length_drop, Hlen. done.
Qed.

(** What is printed for an address other than an embedded IPv4 address is read
    back, also between brackets. *)
Lemma printed_v6_reads x r :
  is_ipv6 x -> v6_embeds_v4 x = false -> address_end r ->
  reads read_ipv6_address (v6_to_string x ++ r) (end_code r) (Some x) r.
Proof.
  intros Hx He Hr. pose proof (address_end_accepted r Hr) as Ha. unfold v6_to_string. rewrite He.
  destruct (v6_zero x) eqn:Hz.
  { rewrite (v6_zero_bytes x Hx Hz). pose proof (run_abbreviated [] [] r) as H. cbn [map add_chunks app] in H.
    eapply reads_of_run; [apply H; [by constructor..|cbn; lia|done]|done|vm_compute; done|done]. }
  destruct (ipv6_pairs x Hx) as (prs & Hlen & Hb & -> & ->).
  pose proof (longest_streak_spec 8 (map seg prs)) as Hs.
  destruct (longest_streak 8 (map seg prs)) as [f s]. cbn [fst snd] in Hs.
  destruct Hs as [[-> ->]|[Hfs Hzero]]; rewrite length_map in *.
  { rewrite Nat.eqb_refl. eapply reads_of_run; [by apply run_full|done| |done].
    rewrite pre_suf_parts. assert (length (pair_bytes prs) = 16%nat) as Hl by (rewrite pair_bytes_length; lia).
    rewrite result_parts by (cbn; lia). rewrite Hl. cbn. by rewrite app_nil_r. }
  rewrite (proj2 (Nat.eqb_neq f _)) by lia. rewrite firstn_map, skipn_map.
  assert (Hsplit : prs = take f prs ++ take (s - f) (drop f prs) ++ drop s prs).
  { replace s with (f + (s - f))%nat at 2 by lia. by rewrite <- drop_drop, take_drop, take_drop. }
  assert (HA : byte_pairs (take f prs)) by (by apply Forall_take).
  assert (HC : byte_pairs (drop s prs)) by (by apply Forall_drop).
  assert (HM : pair_bytes (take (s - f) (drop f prs)) = replicate (2 * (s - f)) 0).
  { apply pair_bytes_zero; [by apply Forall_take, Forall_drop|]. by rewrite <- firstn_map, <- skipn_map. }
  assert (LA : length (take f prs) = f) by (rewrite length_take; lia).
  assert (LC : length (drop s prs) = (8 - s)%nat) by (rewrite length_drop; lia).
  eapply reads_of_run; [apply run_abbreviated; [done..|lia|done]|done| |done].
  rewrite result_parts by (rewrite !pair_bytes_length; lia).
  trans (pair_bytes (take f prs ++ take (s - f) (drop f prs) ++ drop s prs)); [|by rewrite <- Hsplit].
  rewrite !pair_bytes_app, HM, !pair_bytes_length, LA, LC. by replace (16 - 2 * f - 2 * (8 - s))%nat with (2 * (s - f))%nat by lia.
Qed.

(** C12. Every IPv6 address is read back from its printed form: as an IPv4
    address when it embeds one, as [::] when it is zero, in full, or with its
    longest run of zero chunks abbreviated anywhere in the address. *)
Theorem ipv6_roundtrip x : is_ipv6 x -> v6_parse (v6_to_string x) = Some (success, Some x).
Proof.
  intros Hx. unfold v6_parse.
  assert (reads read_ipv6_address (v6_to_string x) success (Some x) []) as Hr.
  { destruct (v6_embeds_v4 x) eqn:He.
    - destruct (embeds_v4_bytes x Hx He) as (a & b & c & d & Ha & Hb & Hc & Hd & E & ->).
      unfold v6_to_string. rewrite He, E.
      eapply reads_of_run; [by apply run_embedded|done|apply (zip_or_zero (v6_of_v4 [a; b; c; d]))|done].
    - rewrite <- (app_nil_r (v6_to_string x)). by apply (printed_v6_reads x []); [..|left]. }
  destruct (Hr success 1 1) as (ln & col & Hp). unfold init_state. by rewrite Hp.
Qed.

Lemma ipv6_roundtrip_witness :
  v6_parse (v6_to_string (v6_make [0x2001; 0xdb8] [1])) = Some (success, Some (v6_make [0x2001; 0xdb8] [1])).
Proof. apply ipv6_roundtrip. split; [reflexivity|]. apply (bool_decide_eq_true_1 _). vm_compute. reflexivity. Defined.

(** The parser is more lenient than the grammar in its comment: an IPv4 address
    may lack its last octet, may be followed by further chunks behind the double
    colon, a piece may have more than four digits, and a double colon may stand
    for nothing. *)
Lemma ipv6_lenient :
  v6_parse (chars "1.2.3.") = Some (success, Some (v6_of_v4 [1; 2; 3; 0]))
  /\ v6_parse (chars "::1.2.3.4:5") = Some (success, Some (v6_make [] [0x0102; 0x0304; 5]))
  /\ v6_parse (chars "00001::") = Some (success, Some (v6_make [1] []))
  /\ v6_parse (chars "::1:2:3:4:5:6:7:8") = Some (success, Some (v6_make [] [1; 2; 3; 4; 5; 6; 7; 8])).
Proof. vm_compute. auto. Qed.

End Ipv6Address.
