(* ===== verification/IpSubnet.v ===== *)
(** Subnets of libcaf_core: [detail/mask_bits.hpp], the bitwise operations and
    [network_address] of [byte_address.hpp], [ipv4_subnet] and [ipv6_subnet].

    The two subnet classes share their code up to the number of bytes of an
    address, which is a parameter here.  The specification reads an address as a
    sequence of bits, the most significant bit of the first byte first: masking
    keeps a prefix of them, an address belongs to a subnet when the prefixes
    agree, and a subnet contains another one exactly when it contains all of its
    addresses. *)
From S2P Require Import Prelude.
From S2P Require Import NetworkOrder.
From S2P Require Import Fsm.
From S2P Require Import Printer.
From S2P Require Import Ipv4Address.
From S2P Require Import Ipv6Address.
#[local] Open Scope Z_scope.
#[local] Open Scope caf_scope.

Import NetworkOrder Fsm Printer Ipv4Address Ipv6Address.

Module IpSubnet.

(** ** Masks *)

Definition mask_tbl : list Z := [0x00; 0x80; 0xC0; 0xE0; 0xF0; 0xF8; 0xFC; 0xFE].

(** [mask_bits]: the array of [NumBytes] bytes and the number of bits to keep. *)
Definition mask_bits (l : bytes) (bits_to_keep : nat) : bytes :=
  let bytes_to_keep := (bits_to_keep / 8)%nat in
  if (length l <=? bytes_to_keep)%nat then l
  else
    let byte_cutoff := (bits_to_keep mod 8)%nat in
    let kept := take bytes_to_keep l in
    if (byte_cutoff =? 0)%nat then kept ++ replicate (length l - bytes_to_keep) 0
    else kept ++ (List.nth bytes_to_keep l 0 .& List.nth byte_cutoff mask_tbl 0)
              :: replicate (length l - bytes_to_keep - 1) 0.

(** [operator&=], [operator|=] and [operator^=] of byte addresses. *)
Definition addr_and (x y : bytes) : bytes := zip_with Z.land x y.
Definition addr_or (x y : bytes) : bytes := zip_with Z.lor x y.
Definition addr_xor (x y : bytes) : bytes := zip_with Z.lxor x y.

(** [network_address]: the address and a netmask that starts as zeros. *)
Definition netmask (num_bytes prefix_length : nat) : bytes :=
  let n := Nat.min prefix_length (num_bytes * 8) in
  let bytes_to_keep := (n / 8)%nat in
  let remainder := (n mod 8)%nat in
  let full := replicate bytes_to_keep 0xFF ++ replicate (num_bytes - bytes_to_keep) 0 in
  if (remainder =? 0)%nat then full else <[bytes_to_keep := List.nth remainder mask_tbl 0]> full.

Definition network_address (x : bytes) (prefix_length : nat) : bytes :=
  addr_and x (netmask (length x) prefix_length).

(** [memcmp]: the sign of the first difference. *)
Fixpoint memcmp (x y : bytes) : Z :=
  match x, y with
  | a :: x', b :: y' => if a <? b then -1 else if b <? a then 1 else memcmp x' y'
  | _, _ => 0
  end.

(** ** Subnets *)

Record subnet := Subnet { address : bytes; prefix_length : nat }.

(** The constructor [(network_address, prefix_length)]. *)
Definition make_subnet (network_address : bytes) (n : nat) : subnet := Subnet (mask_bits network_address n) n.

Definition contains_addr (s : subnet) (addr : bytes) : bool :=
  memcmp (address s) (network_address addr (prefix_length s)) =? 0.

Definition contains_subnet (s other : subnet) : bool :=
  if (prefix_length other <? prefix_length s)%nat then false
  else if (prefix_length s =? prefix_length other)%nat then memcmp (address s) (address other) =? 0
  else memcmp (address s) (network_address (address other) (prefix_length s)) =? 0.

Definition subnet_compare (s other : subnet) : Z :=
  let sub_res := memcmp (address s) (address other) in
  if negb (sub_res =? 0) then sub_res
  else Z.of_nat (prefix_length s) - Z.of_nat (prefix_length other).

Definition v4_subnet_to_string (s : subnet) : list Z :=
  v4_to_string (address s) ++ [47] ++ print_unsigned (Z.of_nat (prefix_length s)).

(** *** IPv6 subnets *)

Definition v4_offset : nat := 96.

(** [static_cast<uint8_t>] of a prefix length. *)
Definition wrap8 (n : nat) : nat := (n mod 256)%nat.

Definition v6_subnet_of_v4_subnet (s : subnet) : subnet :=
  make_subnet (v6_of_v4 (address s)) (wrap8 (v4_offset + prefix_length s)).

Definition v6_subnet_of_v4 (network_address : ipv4_address) (n : nat) : subnet :=
  make_subnet (v6_of_v4 network_address) (wrap8 (n + v4_offset)).

Definition subnet_embeds_v4 (s : subnet) : bool :=
  (v4_offset <=? prefix_length s)%nat && v6_embeds_v4 (address s).

Definition subnet_embedded_v4 (s : subnet) : subnet :=
  make_subnet (v6_embedded_v4 (address s)) (wrap8 (prefix_length s - v4_offset)).

Definition v6_contains_v4 (s : subnet) (addr : ipv4_address) : bool :=
  if subnet_embeds_v4 s then contains_addr (subnet_embedded_v4 s) addr else false.

Definition v6_contains_v4_subnet (s other : subnet) : bool :=
  if subnet_embeds_v4 s then contains_subnet (subnet_embedded_v4 s) other else false.

Definition v6_subnet_to_string (s : subnet) : list Z :=
  if subnet_embeds_v4 s then v4_subnet_to_string (subnet_embedded_v4 s)
  else v6_to_string (address s) ++ [47] ++ print_unsigned (Z.of_nat (prefix_length s)).

(** ** Masking, byte by byte *)

(** The reference: keep [n] bits from the front. *)
Fixpoint keep_bits (n : nat) (l : bytes) : bytes :=
  match l with
  | [] => []
  | x :: r => if (8 <=? n)%nat then x :: keep_bits (n - 8) r
              else (x .& List.nth n mask_tbl 0) :: keep_bits 0 r
  end.

Lemma keep_bits_0 l : keep_bits 0 l = replicate (length l) 0.
Proof. induction l as [|x l IH]; [done|]. cbn. by rewrite Z.land_0_r, IH. Qed.

Lemma div8_sub n : (8 <= n)%nat -> (n / 8 = S ((n - 8) / 8) /\ n mod 8 = (n - 8) mod 8)%nat.
Proof.
  intros Hn. replace n with (n - 8 + 1 * 8)%nat at 1 3 by lia.
  rewrite Nat.div_add, Nat.Div0.mod_add by lia. lia.
Qed.

Lemma mask_bits_keep l n : mask_bits l n = keep_bits n l.
Proof.
  unfold mask_bits. revert n; induction l as [|x l IH]; intros n; [done|].
  cbn [keep_bits]. destruct (Nat.leb_spec 8 n) as [Hn|Hn].
  - destruct (div8_sub n Hn) as [-> ->]. rewrite <- (IH (n - 8)%nat). cbn [length take List.nth Nat.sub].
    destruct (Nat.leb_spec (S (length l)) (S ((n - 8) / 8))), (Nat.leb_spec (length l) ((n - 8) / 8)); try lia; [done|].
    by destruct (_ =? 0)%nat.
  - rewrite Nat.div_small, Nat.mod_small by lia. cbn [length take app Nat.leb Nat.sub List.nth].
    rewrite keep_bits_0, Nat.sub_0_r. destruct (Nat.eqb_spec n 0) as [->|]; [|done].
    cbn. by rewrite Z.land_0_r.
Qed.

Lemma land_255 x : is_byte x -> x .& 255 = x.
Proof. intros Hx. change 255 with (Z.ones 8). rewrite Z.land_ones by lia. apply Z.mod_small. exact Hx. Qed.

Lemma netmask_cons k n :
  netmask (S k) n = if (8 <=? n)%nat then 255 :: netmask k (n - 8) else List.nth n mask_tbl 0 :: replicate k 0.
Proof.
  unfold netmask. destruct (Nat.leb_spec 8 n) as [Hn|Hn].
  - assert (Hm : (8 <= n `min` (S k * 8))%nat) by lia. destruct (div8_sub _ Hm) as [-> ->].
    replace (n `min` (S k * 8) - 8)%nat with ((n - 8) `min` (k * 8))%nat by lia.
    cbn [Nat.sub replicate app]. by destruct (_ =? 0)%nat.
  - replace (n `min` (S k * 8))%nat with n by lia. rewrite Nat.div_small, Nat.mod_small by lia.
    cbn [replicate app Nat.sub]. destruct (Nat.eqb_spec n 0) as [->|]; done.
Qed.

Lemma addr_and_zeros l : addr_and l (replicate (length l) 0) = replicate (length l) 0.
Proof. induction l as [|x l IH]; [done|]. cbn. unfold addr_and in IH. by rewrite Z.land_0_r, IH. Qed.

Lemma network_address_keep l n : all_bytes l -> network_address l n = keep_bits n l.
Proof.
  unfold network_address. intros Hl. revert n. induction Hl as [|x l Hx Hl IH]; intros n; [done|].
  cbn [length keep_bits]. rewrite netmask_cons. destruct (8 <=? n)%nat; unfold addr_and in *; cbn [zip_with].
  - by rewrite land_255, IH.
  - rewrite keep_bits_0. f_equal. apply addr_and_zeros.
Qed.

(** The two ways the code masks an address agree: clearing the bits behind the
    prefix in place ([mask_bits], used by the constructors) and ANDing with a
    netmask ([network_address], used by the lookups). *)
Theorem mask_bits_network_address l n : all_bytes l -> mask_bits l n = network_address l n.
Proof. intros Hl. by rewrite mask_bits_keep, network_address_keep. Qed.

Lemma mask_bits_network_address_witness : mask_bits [192; 168; 255; 7] 20 = [192; 168; 240; 0].
Proof.
  rewrite mask_bits_network_address; [vm_compute; reflexivity|].
  apply (bool_decide_eq_true_1 _). vm_compute. reflexivity.
Defined.

(** ** Addresses as sequences of bits *)

Definition addr_bit (l : bytes) (i : nat) : bool :=
  Z.testbit (List.nth (i / 8) l 0) (7 - Z.of_nat (i mod 8)).

Lemma addr_bit_cons x l i :
  addr_bit (x :: l) i = if (i <? 8)%nat then Z.testbit x (7 - Z.of_nat i) else addr_bit l (i - 8).
Proof.
  unfold addr_bit. destruct (Nat.ltb_spec i 8) as [Hi|Hi].
  - by rewrite Nat.div_small, Nat.mod_small by lia.
  - by destruct (div8_sub i Hi) as [-> ->].
Qed.

Lemma mask_tbl_bit n i :
  (n < 8)%nat -> (i < 8)%nat -> Z.testbit (List.nth n mask_tbl 0) (7 - Z.of_nat i) = (i <? n)%nat.
Proof. intros Hn Hi. do 8 (destruct n as [|n]; [do 8 (destruct i as [|i]; [done|]); lia|]). lia. Qed.

Lemma addr_bit_zeros k i : addr_bit (replicate k 0) i = false.
Proof.
  unfold addr_bit. assert (List.nth (i / 8) (replicate k 0) 0 = 0) as ->; [|by rewrite Z.testbit_0_l].
  generalize (i / 8)%nat as j. induction k as [|k IH]; intros [|j]; cbn; auto.
Qed.

Lemma keep_bits_spec n l i :
  addr_bit (keep_bits n l) i = (i <? n)%nat && addr_bit l i.
Proof.
  revert n i; induction l as [|x l IH]; intros n i.
  - cbn. unfold addr_bit. destruct (i / 8)%nat; cbn; by rewrite Z.testbit_0_l, andb_false_r.
  - cbn [keep_bits]. rewrite addr_bit_cons. destruct (Nat.leb_spec 8 n) as [Hn|Hn]; rewrite addr_bit_cons;
      destruct (Nat.ltb_spec i 8) as [Hi|Hi].
    + by rewrite (proj2 (Nat.ltb_lt i n)) by lia.
    + rewrite IH. f_equal. apply Bool.eq_iff_eq_true. rewrite !Nat.ltb_lt. lia.
    + rewrite Z.land_spec, mask_tbl_bit by lia. apply andb_comm.
    + rewrite keep_bits_0, addr_bit_zeros, (proj2 (Nat.ltb_ge i n)) by lia. done.
Qed.

(** Bytes are determined by their bits. *)
Lemma byte_bits x y : is_byte x -> is_byte y -> (forall i, (i < 8)%nat -> Z.testbit x (7 - Z.of_nat i) = Z.testbit y (7 - Z.of_nat i)) -> x = y.
Proof.
  intros Hx Hy H. apply Z.bits_inj'. intros k Hk. destruct (Z.ltb_spec k 8).
  - specialize (H (Z.to_nat (7 - k)) ltac:(lia)).
    by replace (7 - Z.of_nat (Z.to_nat (7 - k))) with k in H by lia.
  - rewrite (uint_testbit_high 8 x), (uint_testbit_high 8 y); [done|exact Hy|lia|exact Hx|lia].
Qed.

Lemma addr_bits_eq l k :
  all_bytes l -> all_bytes k -> length l = length k ->
  (forall i, (i < 8 * length l)%nat -> addr_bit l i = addr_bit k i) -> l = k.
Proof.
  intros Hl. revert k. induction Hl as [|x l Hx Hl IH]; intros [|y k] Hk Hlen H; try done.
  apply Forall_cons in Hk as [Hy Hk]. cbn [length] in *. f_equal.
  - apply byte_bits; [done..|]. intros i Hi. specialize (H i ltac:(lia)). rewrite !addr_bit_cons in H.
    by rewrite (proj2 (Nat.ltb_lt i 8)) in H by lia.
  - apply IH; [done|lia|]. intros i Hi. specialize (H (i + 8)%nat ltac:(lia)). rewrite !addr_bit_cons in H.
    rewrite (proj2 (Nat.ltb_ge (i + 8) 8)) in H by lia. by replace (i + 8 - 8)%nat with i in H by lia.
Qed.

Lemma keep_bits_length n l : length (keep_bits n l) = length l.
Proof. revert n; induction l as [|x l IH]; intros n; [done|]. cbn [keep_bits]. destruct (8 <=? n)%nat; cbn [length]; by rewrite IH. Qed.

Lemma keep_bits_bytes n l : all_bytes l -> all_bytes (keep_bits n l).
Proof.
  intros Hl. revert n. induction Hl as [|x l Hx Hl IH]; intros n; [constructor|]. cbn [keep_bits].
  destruct (8 <=? n)%nat; constructor; [done|apply IH| |apply IH].
  apply (uint_land 8); [lia|exact Hx].
Qed.

(** The first [n] bits of two addresses agree. *)
Definition agree (n : nat) (l k : bytes) : Prop := forall i, (i < n)%nat -> addr_bit l i = addr_bit k i.

Lemma agree_trans n l k r : agree n l k -> agree n k r -> agree n l r.
Proof. intros H1 H2 i Hi. by rewrite (H1 i Hi), (H2 i Hi). Qed.

Lemma agree_sym n l k : agree n l k -> agree n k l.
Proof. intros H i Hi. symmetry. by apply H. Qed.

Lemma agree_le n m l k : (n <= m)%nat -> agree m l k -> agree n l k.
Proof. intros Hnm H i Hi. apply H. lia. Qed.

Lemma agree_keep n m l : (n <= m)%nat -> agree n (keep_bits m l) l.
Proof. intros Hnm i Hi. rewrite keep_bits_spec. by rewrite (proj2 (Nat.ltb_lt i m)) by lia. Qed.

Lemma keep_bits_agree n l k :
  all_bytes l -> all_bytes k -> length l = length k -> keep_bits n l = keep_bits n k <-> agree n l k.
Proof.
  intros Hl Hk Hlen. split.
  - intros H i Hi. pose proof (f_equal (fun x => addr_bit x i) H) as Hb. cbn in Hb.
    rewrite !keep_bits_spec, (proj2 (Nat.ltb_lt i n)) in Hb by done. exact Hb.
  - intros H. apply addr_bits_eq; [by apply keep_bits_bytes..|by rewrite !keep_bits_length|].
    intros i _. rewrite !keep_bits_spec. destruct (Nat.ltb_spec i n); [cbn; by apply H|done].
Qed.

Lemma keep_bits_idem n l : all_bytes l -> keep_bits n (keep_bits n l) = keep_bits n l.
Proof.
  intros Hl. apply keep_bits_agree; [by apply keep_bits_bytes|done|by rewrite keep_bits_length|by apply agree_keep].
Qed.

Lemma memcmp_eq x y : length x = length y -> (memcmp x y =? 0) = bool_decide (x = y).
Proof.
  revert y; induction x as [|a x IH]; intros [|b y] Hlen; try done. cbn [memcmp].
  destruct (Z.ltb_spec a b); [by rewrite bool_decide_eq_false_2 by (intros [= -> _]; lia)|].
  destruct (Z.ltb_spec b a); [by rewrite bool_decide_eq_false_2 by (intros [= -> _]; lia)|].
  assert (a = b) as -> by lia. rewrite IH by (cbn in Hlen; lia). apply bool_decide_ext. naive_solver.
Qed.

(** An address of [N] bytes. *)
Definition is_addr (N : nat) (x : bytes) : Prop := length x = N /\ all_bytes x.

Lemma contains_addr_agree N net n a :
  is_addr N net -> is_addr N a -> contains_addr (make_subnet net n) a = true <-> agree n net a.
Proof.
  intros [Ln Bn] [La Ba]. unfold contains_addr, make_subnet. cbn [address prefix_length].
  rewrite mask_bits_keep, network_address_keep, memcmp_eq by (rewrite ?keep_bits_length; congruence || done).
  rewrite bool_decide_eq_true. apply keep_bits_agree; [done..|congruence].
Qed.

(** ** Subnets contain what their addresses say *)

Definition byte_of_bits (g : nat -> bool) : Z :=
  (if g 0%nat then 128 else 0) + (if g 1%nat then 64 else 0) + (if g 2%nat then 32 else 0)
  + (if g 3%nat then 16 else 0) + (if g 4%nat then 8 else 0) + (if g 5%nat then 4 else 0)
  + (if g 6%nat then 2 else 0) + (if g 7%nat then 1 else 0).

Lemma byte_of_bits_spec g :
  is_byte (byte_of_bits g) /\ forall i, (i < 8)%nat -> Z.testbit (byte_of_bits g) (7 - Z.of_nat i) = g i.
Proof.
  unfold byte_of_bits, is_byte. split; [repeat case_if; lia|].
  intros i Hi. do 8 (destruct i as [|i]; [
    destruct (g 0%nat), (g 1%nat), (g 2%nat), (g 3%nat), (g 4%nat), (g 5%nat), (g 6%nat), (g 7%nat); reflexivity|]). lia.
Qed.

Fixpoint addr_of_bits (N : nat) (f : nat -> bool) : bytes :=
  match N with O => [] | S k => byte_of_bits f :: addr_of_bits k (fun i => f (i + 8)%nat) end.

Lemma addr_of_bits_spec N f :
  is_addr N (addr_of_bits N f) /\ forall i, (i < 8 * N)%nat -> addr_bit (addr_of_bits N f) i = f i.
Proof.
  revert f; induction N as [|N IH]; intros f; [split; [split; [done|constructor]|lia]|].
  destruct (IH (fun i => f (i + 8)%nat)) as [[H1 H2] H3]. destruct (byte_of_bits_spec f) as [H4 H5].
  split; [split; [cbn; lia|by constructor]|]. intros i Hi. cbn [addr_of_bits]. rewrite addr_bit_cons.
  destruct (Nat.ltb_spec i 8); [by apply H5|]. rewrite H3 by lia. f_equal. lia.
Qed.

(** An address belongs to a subnet exactly when its first bits, as many as
    the prefix length says, are those of the network address the subnet was made
    from; and a subnet contains another one exactly when every address of the
    other one belongs to it. *)
Theorem subnet_contains_exact N a n b m :
  is_addr N a -> is_addr N b -> (n <= 8 * N)%nat -> (m <= 8 * N)%nat ->
  (forall x, is_addr N x -> contains_addr (make_subnet a n) x = true <-> agree n a x)
  /\ (contains_subnet (make_subnet a n) (make_subnet b m) = true <->
      forall x, is_addr N x -> contains_addr (make_subnet b m) x = true -> contains_addr (make_subnet a n) x = true).
Proof.
  intros Ha Hb Hn Hm. split; [intros; by apply (contains_addr_agree N)|].
  transitivity ((n <= m)%nat /\ agree n a b).
  - destruct Ha as [La Ba], Hb as [Lb Bb]. unfold contains_subnet, make_subnet. cbn [address prefix_length].
    destruct (Nat.ltb_spec m n) as [Hlt|Hge]; [split; [done|lia]|].
    rewrite !mask_bits_keep, network_address_keep by (by apply keep_bits_bytes).
    rewrite !memcmp_eq by (rewrite ?keep_bits_length; congruence).
    destruct (Nat.eqb_spec n m) as [->|Hne]; rewrite bool_decide_eq_true.
    + rewrite keep_bits_agree by (done || congruence). naive_solver.
    + rewrite keep_bits_agree by (try apply keep_bits_bytes; rewrite ?keep_bits_length; done || congruence).
      pose proof (agree_keep n m b Hge) as Hk. split; [|intros [_ H]; by eapply agree_trans; [|apply agree_sym]].
      intros H. split; [done|]. by eapply agree_trans.
  - split.
    + intros [Hnm Hab] x Hx. rewrite !(contains_addr_agree N) by done. intros Hbx.
      eapply agree_trans; [done|]. by eapply agree_le.
    + intros H. destruct (decide (n <= m)%nat) as [Hnm|Hnm].
      * split; [done|]. specialize (H b Hb). rewrite !(contains_addr_agree N) in H by done. by apply H.
      * exfalso. destruct (addr_of_bits_spec N (fun i => if (i <? m)%nat then addr_bit b i else negb (addr_bit a i))) as [Hx Hbits].
        set (x := addr_of_bits N _) in *. clearbody x. specialize (H x Hx). rewrite !(contains_addr_agree N) in H by done.
        assert (Hbx : agree m b x).
        { intros i Hi. rewrite Hbits by lia. by rewrite (proj2 (Nat.ltb_lt i m)). }
        specialize (H Hbx m ltac:(lia)). rewrite Hbits, Nat.ltb_irrefl in H by lia. by destruct (addr_bit a m).
Qed.

Lemma subnet_contains_exact_witness :
  (forall x, is_addr 4 x -> contains_addr (make_subnet [10; 0; 0; 1] 8) x = true <-> agree 8 [10; 0; 0; 1] x)
  /\ (contains_subnet (make_subnet [10; 0; 0; 1] 8) (make_subnet [10; 9; 0; 0] 16) = true <->
      forall x, is_addr 4 x -> contains_addr (make_subnet [10; 9; 0; 0] 16) x = true ->
        contains_addr (make_subnet [10; 0; 0; 1] 8) x = true).
Proof.
  apply (subnet_contains_exact 4 [10; 0; 0; 1] 8 [10; 9; 0; 0] 16);
    try (split; [reflexivity|]; apply (bool_decide_eq_true_1 _); vm_compute; reflexivity); lia.
Defined.

(** ** Embedded IPv4 subnets *)

Lemma v6_of_v4_app l : is_ipv4 l -> v6_of_v4 l = (replicate 10 0 ++ [255; 255]) ++ l.
Proof.
  intros [Hl Hb]. unfold v6_of_v4, v4_bits.
  assert (E : le_bytes 4 (le_val l) = l) by (rewrite <- Hl; by apply le_bytes_val). by rewrite E.
Qed.

Lemma keep_bits_app n l k : keep_bits (8 * length l + n) (l ++ k) = l ++ keep_bits n k.
Proof.
  induction l as [|x l IH]; [done|]. cbn [length app keep_bits].
  rewrite (proj2 (Nat.leb_le 8 _)) by lia. replace (8 * S (length l) + n - 8)%nat with (8 * length l + n)%nat by lia.
  by rewrite IH.
Qed.

Lemma embedded_v4_app l : is_ipv4 l -> v6_embeds_v4 (v6_of_v4 l) = true /\ v6_embedded_v4 (v6_of_v4 l) = l.
Proof.
  intros Hl. rewrite v6_of_v4_app by done. destruct Hl as [Hl Hb].
  destruct l as [|a [|b [|c [|d [|]]]]]; try done. split; [done|].
  unfold v6_embedded_v4, v4_from_bits. cbn [app replicate quad_segments words_go take drop List.nth].
  exact (le_bytes_val [a; b; c; d] Hb).
Qed.

(** A subnet of IPv4 addresses, embedded into IPv6, contains the same IPv4
    addresses, whether they are asked for as IPv4 or as embedded addresses, and
    the same IPv4 subnets. *)
Theorem embedded_subnet_exact net n addr :
  is_ipv4 net -> is_ipv4 addr -> (n <= 32)%nat ->
  let s := make_subnet net n in
  v6_contains_v4 (v6_subnet_of_v4_subnet s) addr = contains_addr s addr
  /\ contains_addr (v6_subnet_of_v4_subnet s) (v6_of_v4 addr) = contains_addr s addr
  /\ (forall other, v6_contains_v4_subnet (v6_subnet_of_v4_subnet s) other = contains_subnet s other).
Proof.
  intros Hnet Haddr Hn s.
  assert (Hm : is_ipv4 (keep_bits n net)).
  { destruct Hnet as [H1 H2]. split; [by rewrite keep_bits_length|by apply keep_bits_bytes]. }
  assert (Hs : v6_subnet_of_v4_subnet s = Subnet (v6_of_v4 (keep_bits n net)) (96 + n)).
  { unfold v6_subnet_of_v4_subnet, s, make_subnet, wrap8, v4_offset. cbn [address prefix_length].
    rewrite Nat.mod_small by lia. rewrite !mask_bits_keep, v6_of_v4_app by done.
    rewrite (keep_bits_app n (replicate 10 0 ++ [255; 255])). by rewrite keep_bits_idem by apply Hnet. }
  assert (He : subnet_embeds_v4 (v6_subnet_of_v4_subnet s) = true).
  { rewrite Hs. unfold subnet_embeds_v4. cbn [address prefix_length]. rewrite (proj1 (embedded_v4_app _ Hm)).
    by rewrite (proj2 (Nat.leb_le v4_offset (96 + n))) by (unfold v4_offset; lia). }
  assert (Hv : subnet_embedded_v4 (v6_subnet_of_v4_subnet s) = s).
  { rewrite Hs. unfold subnet_embedded_v4, v4_offset, wrap8, s, make_subnet. cbn [address prefix_length].
    rewrite (proj2 (embedded_v4_app _ Hm)). replace (96 + n - 96)%nat with n by lia. rewrite Nat.mod_small by lia.
    rewrite !mask_bits_keep. by rewrite keep_bits_idem by apply Hnet. }
  unfold v6_contains_v4, v6_contains_v4_subnet. rewrite He, Hv. split_and!; [done| |done].
  rewrite Hs. unfold contains_addr. cbn [address prefix_length s make_subnet].
  assert (Hb6 : all_bytes (v6_of_v4 addr)).
  { rewrite v6_of_v4_app by done. apply Forall_app. split; [|apply Haddr].
    apply (bool_decide_eq_true_1 _). vm_compute. reflexivity. }
  rewrite !network_address_keep, mask_bits_keep by (done || apply Haddr).
  rewrite !v6_of_v4_app by done. change (96 + n)%nat with (8 * length (replicate 10 0 ++ [255; 255]) + n)%nat.
  rewrite (keep_bits_app n (replicate 10 0 ++ [255; 255])). destruct Hm as [Lm _], Haddr as [La _].
  rewrite !memcmp_eq by (rewrite ?length_app, ?keep_bits_length in *; lia). apply bool_decide_ext.
  split; [apply app_inv_head|by intros ->].
Qed.

Lemma embedded_subnet_exact_witness :
  let s := make_subnet [10; 0; 0; 0] 8 in
  v6_contains_v4 (v6_subnet_of_v4_subnet s) [10; 1; 2; 3] = contains_addr s [10; 1; 2; 3]
  /\ contains_addr (v6_subnet_of_v4_subnet s) (v6_of_v4 [10; 1; 2; 3]) = contains_addr s [10; 1; 2; 3]
  /\ (forall other, v6_contains_v4_subnet (v6_subnet_of_v4_subnet s) other = contains_subnet s other).
Proof.
  apply (embedded_subnet_exact [10; 0; 0; 0] 8 [10; 1; 2; 3]);
    try (split; [reflexivity|]; apply (bool_decide_eq_true_1 _); vm_compute; reflexivity); lia.
Defined.

(** The overload for IPv4 addresses only looks at embedded subnets: [::/0]
    contains every IPv6 address, an embedded one too, but no IPv4 address. *)
Lemma any_subnet_misses_v4 :
  contains_addr (make_subnet v6_any 0) (v6_of_v4 [1; 2; 3; 4]) = true
  /\ v6_contains_v4 (make_subnet v6_any 0) [1; 2; 3; 4] = false.
Proof. vm_compute. auto. Qed.

End IpSubnet.
