(* ===== verification/ReadNumber.v ===== *)
(** Numbers of libcaf_core: [detail/parser/read_floating_point.hpp] and
    [read_number.hpp] the way the JSON parser instantiates it (floating point
    numbers enabled, ranges disabled).

    A [double] is a [spec_float] of the standard library with 53 bits of
    precision and the exponent range of IEEE 754, whose operations are the
    executable specification of the hardware's. *)
From Stdlib Require Import Strings.Ascii Strings.String Floats.SpecFloat.
From S2P Require Import Prelude.
From S2P Require Import Fsm.
From S2P Require Import ReadInteger.
#[local] Open Scope Z_scope.

Import Fsm ReadInteger.

Module ReadNumber.

(** ** Doubles *)

Definition double : Type := spec_float.

Definition dmul : double -> double -> double := SFmul 53 1024.
Definition ddiv : double -> double -> double := SFdiv 53 1024.
Definition dadd : double -> double -> double := SFadd 53 1024.

(** [static_cast<double>] of an integer, rounded to nearest. *)
Definition of_int (z : Z) : double := binary_normalize 53 1024 z 0 false.

Definition dzero : double := S754_zero false.

(** [add_ascii<10>] for floating point numbers never fails. *)
Definition add_ascii_double (x : double) (c : Z) : bool * double :=
  (true, dadd (dmul x (of_int 10)) (of_int (ascii_to_int 10 c))).

(** ** [read_floating_point] *)

Inductive fstate :=
  | f_init | regular_init | f_has_sign | f_zero | f_dec | after_dec | leading_dot | trailing_dot
  | after_dot | has_e | has_plus_after_e | has_minus_after_e | pos_exp | neg_exp.

#[export] Instance fstate_eq_dec : EqDecision fstate.
Proof. solve_decision. Defined.

Record flocals := FL {
  start_value : option double; minus : bool; f_result : double; dec_exp : Z; exp : Z
}.

Definition f_kind (s : fstate) : state_kind :=
  match s with
  | f_init => unstable
  | f_zero | f_dec | trailing_dot | after_dot | pos_exp | neg_exp => term
  | _ => nonterm
  end.

Definition rd_decimal (l : flocals) (c : Z) : bool * flocals :=
  let r := add_ascii_double (f_result l) c in
  (r.1, FL (start_value l) (minus l) r.2 (dec_exp l - 1) (exp l)).

Definition rd_integer (l : flocals) (c : Z) : bool * flocals :=
  let r := add_ascii_double (f_result l) c in
  (r.1, FL (start_value l) (minus l) r.2 (dec_exp l) (exp l)).

Definition int_max : Z := 2 ^ 31 - 1.
Definition int_min : Z := - 2 ^ 31.

Definition set_exp (l : flocals) (e : Z) : flocals :=
  FL (start_value l) (minus l) (f_result l) (dec_exp l) e.

Definition add_exp (l : flocals) (c : Z) : option (bool * flocals) :=
  '(ok, e) ← add_ascii_signed 10 int_min int_max (exp l) c; Some (ok, set_exp l e).

Definition sub_exp (l : flocals) (c : Z) : option (bool * flocals) :=
  '(ok, e) ← sub_ascii 10 int_min int_max (exp l) c; Some (ok, set_exp l e).

Definition set_minus (l : flocals) : flocals :=
  FL (start_value l) true (f_result l) (dec_exp l) (exp l).

Definition f_body (s : fstate) (ch : Z) (l : flocals) : move fstate flocals :=
  match s with
  | f_init =>
      match start_value l with
      | None => Eps regular_init l
      | Some _ => if in_whitelist (chars "eE.") ch then Eps after_dec l else Eps after_dot l
      end
  | regular_init =>
      if in_whitelist [32; 9] ch then Take regular_init l
      else if ch =? chr "+" then Take f_has_sign l
      else if ch =? chr "-" then Take f_has_sign (set_minus l)
      else Eps f_has_sign l
  | f_has_sign =>
      if ch =? chr "." then Take leading_dot l
      else if ch =? chr "0" then Take f_zero l
      else if in_whitelist decimal_chars ch then Eps f_dec l
      else Stay
  | f_zero => if ch =? chr "." then Take trailing_dot l else Stay
  | f_dec =>
      if in_whitelist decimal_chars ch then checked (rd_integer l ch) f_dec integer_overflow
      else if in_whitelist (chars "eE.") ch then Eps after_dec l
      else Stay
  | after_dec =>
      if in_whitelist (chars "eE") ch then Take has_e l
      else if ch =? chr "." then Take trailing_dot l
      else Stay
  | leading_dot =>
      if in_whitelist decimal_chars ch then checked (rd_decimal l ch) after_dot exponent_underflow
      else Stay
  | trailing_dot => Eps after_dot l
  | after_dot =>
      if in_whitelist decimal_chars ch then checked (rd_decimal l ch) after_dot exponent_underflow
      else if in_whitelist (chars "eE") ch then Take has_e l
      else Stay
  | has_e =>
      if ch =? chr "+" then Take has_plus_after_e l
      else if ch =? chr "-" then Take has_minus_after_e l
      else if in_whitelist decimal_chars ch then guarded (add_exp l ch) pos_exp exponent_overflow
      else Stay
  | has_plus_after_e =>
      if in_whitelist decimal_chars ch then guarded (add_exp l ch) pos_exp exponent_overflow else Stay
  | has_minus_after_e =>
      if in_whitelist decimal_chars ch then guarded (sub_exp l ch) neg_exp exponent_underflow else Stay
  | pos_exp =>
      if in_whitelist decimal_chars ch then guarded (add_exp l ch) pos_exp exponent_overflow else Stay
  | neg_exp =>
      if in_whitelist decimal_chars ch then guarded (sub_exp l ch) neg_exp exponent_underflow else Stay
  end.

Definition f_fsm : fsm fstate flocals := Fsm f_kind f_body.

Definition max_double_exponent : Z := 511.

Definition power_table : list double :=
  map (fun k => of_int (10 ^ k)) [1; 2; 4; 8; 16; 32; 64; 128; 256].

(** The scaling loop: one bit of the exponent per round, nine of them for an
    exponent up to 511. *)
Fixpoint scale_loop (f : double -> double -> double) (table : list double) (n : Z) (x : double) : double :=
  match table with
  | [] => x
  | p :: table' => if n =? 0 then x else scale_loop f table' (Z.shiftr n 1) (if Z.odd n then f x p else x)
  end.

Definition scale (e : Z) (x : double) : double :=
  if e <? 0 then scale_loop ddiv power_table (- e) x else scale_loop dmul power_table e x.

Definition f_start (start : option double) (negative : bool) : flocals :=
  match start with
  | None => FL None false dzero 0 0
  | Some x =>
      if SFltb x dzero then FL start true (SFopp x) 0 0
      else FL start negative x 0 0
  end.

(** What the consumer gets.  The sum of the two exponents is an [int]: when it
    overflows, the behaviour is undefined from there on.  The parser then yields
    the mark [Overflowed], which stands for any value (or none at all); it is
    carried along so that the theorems can tell whether the parser got there.
    ([dec_exp] itself only overflows behind 2^31 decimal places.) *)
Inductive real := Real (d : double) | Overflowed.

Definition read_floating_point (start : option double) (negative : bool) (ps : parser_state)
    : option (parser_state * option real) :=
  match run_fsm f_fsm f_init (f_start start negative) ps with
  | None => None
  | Some (ps', l) =>
      if accepted (code ps') then
        match fit int_min int_max (dec_exp l), fit int_min int_max (exp l + dec_exp l) with
        | Some _, Some e =>
            if e <? - max_double_exponent then Some (set_code ps' exponent_underflow, None)
            else if max_double_exponent <? e then Some (set_code ps' exponent_overflow, None)
            else
              let x := scale e (f_result l) in
              Some (ps', Some (Real (if minus l then SFopp x else x)))
        | _, _ => Some (ps', Some Overflowed)
        end
      else Some (ps', None)
  end.

(** ** [read_negative_number] and [read_positive_number] *)

Inductive number := NInt (z : Z) | NUint (z : Z) | NDouble (d : double) | NOverflowed.

Definition of_real (x : real) : number := match x with Real d => NDouble d | Overflowed => NOverflowed end.

(** The states of both machines; [neg] selects one of them. *)
Inductive nstate :=
  | n_init | n_zero | n_start_bin | n_bin | n_start_oct | n_oct | n_start_hex | n_hex | n_dec
  | n_dot | n_done.

Record nlocals := NL { n_result : Z; disabled : bool; out : option number }.

Definition n_kind (s : nstate) : state_kind :=
  match s with
  | n_dot => unstable
  | n_zero | n_bin | n_oct | n_hex | n_dec | n_done => term
  | _ => nonterm
  end.

Definition n_digit (neg : bool) (base : Z) (l : nlocals) (c : Z) (target : nstate) : move nstate nlocals :=
  let r := if neg then sub_ascii base (- 2 ^ 63) (2 ^ 63 - 1) (n_result l) c
           else Some (add_ascii base (2 ^ 64 - 1) (n_result l) c) in
  guarded ('(ok, x) ← r; Some (ok, NL x (disabled l) (out l))) target
    (if neg then integer_underflow else integer_overflow).

(** The call of [read_floating_point], with [disabled = true]. *)
Definition n_float (neg : bool) (start : nlocals -> double) (l : nlocals) (ps : parser_state)
    : option (parser_state * nlocals) :=
  match read_floating_point (Some (start l)) neg ps with
  | Some (ps', Some d) => Some (ps', NL (n_result l) true (Some (of_real d)))
  | Some (ps', None) => Some (ps', NL (n_result l) true (out l))
  | None => None
  end.

Definition n_body (neg : bool) (s : nstate) (ch : Z) (l : nlocals) : move nstate nlocals :=
  match s with
  | n_init =>
      if ch =? chr "." then Sub (n_float neg (fun _ => dzero)) n_done
      else if ch =? chr "0" then Take n_zero l
      else Eps n_dec l
  | n_zero =>
      if in_whitelist (chars "bB") ch then Take n_start_bin l
      else if in_whitelist (chars "xX") ch then Take n_start_hex l
      else if ch =? chr "." then Take n_dot l
      else Eps n_oct l
  | n_start_bin => Eps n_bin l
  | n_bin => if in_whitelist (chars "01") ch then n_digit neg 2 l ch n_bin else Stay
  | n_start_oct => Eps n_oct l
  | n_oct => if in_whitelist octal_chars ch then n_digit neg 8 l ch n_oct else Stay
  | n_start_hex => Eps n_hex l
  | n_hex => if in_whitelist hexadecimal_chars ch then n_digit neg 16 l ch n_hex else Stay
  | n_dec =>
      if in_whitelist decimal_chars ch then n_digit neg 10 l ch n_dec
      else if in_whitelist (chars "eE") ch then Sub (n_float neg (fun l => of_int (n_result l))) n_done
      else if ch =? chr "." then Take n_dot l
      else Stay
  | n_dot => Sub (n_float neg (fun l => of_int (n_result l))) n_done
  | n_done => Stay
  end.

Definition n_fsm (neg : bool) : fsm nstate nlocals := Fsm n_kind (n_body neg).

Definition read_signed_number (neg : bool) (o : option number) (ps : parser_state)
    : option (parser_state * option number) :=
  match run_fsm (n_fsm neg) n_init (NL 0 false o) ps with
  | Some (ps', l) =>
      Some (ps', if negb (disabled l) && accepted (code ps')
                 then Some (if neg then NInt (n_result l) else NUint (n_result l)) else out l)
  | None => None
  end.

Definition read_negative_number := read_signed_number true.
Definition read_positive_number := read_signed_number false.

(** ** [read_number] *)

Inductive mstate := m_init | m_done.

Definition m_kind (s : mstate) : state_kind := match s with m_init => nonterm | m_done => term end.

Definition m_float (o : option number) (ps : parser_state) : option (parser_state * option number) :=
  match read_floating_point (Some dzero) false ps with
  | Some (ps', Some d) => Some (ps', Some (of_real d))
  | Some (ps', None) => Some (ps', o)
  | None => None
  end.

Definition m_body (s : mstate) (ch : Z) (o : option number) : move mstate (option number) :=
  match s with
  | m_init =>
      if in_whitelist [32; 9] ch then Take m_init o
      else if ch =? chr "+" then Sub (behind read_positive_number) m_done
      else if ch =? chr "-" then Sub (behind read_negative_number) m_done
      else if ch =? chr "." then Sub m_float m_done
      else Sub read_positive_number m_done
  | m_done => Stay
  end.

Definition m_fsm : fsm mstate (option number) := Fsm m_kind m_body.

Definition read_number (ps : parser_state) : option (parser_state * option number) :=
  run_fsm m_fsm m_init None ps.

(** ** The number parsers always return *)

Definition f_rank (s : fstate) : nat :=
  match s with
  | f_init => 5 | regular_init => 4 | f_has_sign => 3 | f_dec => 2 | after_dec | trailing_dot => 1 | _ => 0
  end.

(** The digits that a text goes on with, and how far they can take an exponent. *)
Definition digits_of (r : list Z) : list Z := run_of (in_whitelist decimal_chars) r.

Fixpoint small_runs (r : list Z) : bool :=
  match r with
  | [] => true
  | _ :: t => (value 10 (digits_of r) <=? 2 ^ 30) && small_runs t
  end.

(** A text of at most 2^30 bytes, none of whose numerals exceeds 2^30: neither an
    exponent nor the count of the decimal places is then close to the limits. *)
Definition small_exponents (r : list Z) : bool := (Z.of_nat (length r) <=? 2 ^ 30) && small_runs r.

Lemma small_exponents_tl c r : small_exponents (c :: r) = true -> small_exponents r = true.
Proof.
  unfold small_exponents. cbn [small_runs length]. rewrite !andb_true_iff, !Z.leb_le. intros (? & _ & ?). split; [lia|done].
Qed.

Lemma small_exponents_suffix r t : suffix t r -> small_exponents r = true -> small_exponents t = true.
Proof.
  intros [k ->]. induction k as [|c k IH]; [done|]. cbn [app]. intros H%small_exponents_tl. auto.
Qed.

Lemma small_exponents_here r : small_exponents r = true -> Z.of_nat (length r) <= 2 ^ 30 /\ value 10 (digits_of r) <= 2 ^ 30.
Proof.
  unfold small_exponents. rewrite andb_true_iff, Z.leb_le. intros [H1 H2]. split; [done|].
  destruct r as [|c r]; [vm_compute; congruence|]. cbn [small_runs] in H2. apply andb_prop in H2 as [H2 _]. by apply Z.leb_le.
Qed.

(** The sign of the exponent in the states that collect it. *)
Definition exp_sign (s : fstate) : option sign :=
  match s with pos_exp => Some Pos | neg_exp => Some Neg | _ => None end.

(** The exponent stays a number of its type, with the sign of the state; in a
    text with small exponents ([p = false]) both exponents stay below 2^30. *)
Definition f_inv (p : bool) (s : fstate) (l : flocals) (r : list Z) : Prop :=
  match exp_sign s with
  | Some g => 0 <= signed g (exp l) /\ in_limits int_min int_max g (exp l) = true
  | None => exp l = 0
  end /\
  (p = false -> small_exponents r = true /\ Z.of_nat (length r) - 2 ^ 30 <= dec_exp l <= 0 /\
    match exp_sign s with
    | Some g => signed g (value_from g 10 (exp l) (digits_of r)) <= 2 ^ 30
    | None => True
    end).

Lemma value_from_grows g x ds :
  0 <= signed g x -> Forall (fun c => in_whitelist decimal_chars c = true) ds ->
  signed g x <= signed g (value_from g 10 x ds).
Proof.
  intros Hx Hds. revert x Hx. induction Hds as [|c ds Hc _ IH]; intros x Hx; [done|].
  pose proof (digit_range 10 c ltac:(unfold is_base; lia) Hc) as Hd. cbn [value_from fold_left].
  etrans; [|apply IH]; destruct g; cbn [signed] in *; nia.
Qed.

(** Where the machine may stop, the sum of the two exponents is defined. *)
Lemma f_inv_sum s l r :
  f_inv false s l r -> fit int_min int_max (dec_exp l) = Some (dec_exp l) /\
    fit int_min int_max (exp l + dec_exp l) = Some (exp l + dec_exp l).
Proof.
  intros [He Hp]. destruct (Hp eq_refl) as (_ & Hd & Hv). clear Hp.
  assert (- 2 ^ 30 <= exp l <= 2 ^ 30).
  { destruct (exp_sign s) as [g|]; [|lia]. destruct He as [H0 _].
    pose proof (value_from_grows g (exp l) (digits_of r) H0 (run_of_forall _ r)). destruct g; cbn [signed] in *; lia. }
  split; apply fit_in; unfold int_min, int_max; lia.
Qed.

(** The digit actions of the exponent. *)
Definition exp_digit (g : sign) (l : flocals) (c : Z) (s : fstate) : move fstate flocals :=
  match g with
  | Pos => guarded (add_exp l c) s exponent_overflow
  | Neg => guarded (sub_exp l c) s exponent_underflow
  end.

Lemma exp_digit_ok p g l c r s m :
  exp_sign s = Some g -> in_whitelist decimal_chars c = true ->
  0 <= signed g (exp l) /\ in_limits int_min int_max g (exp l) = true ->
  (p = false -> small_exponents (c :: r) = true /\ Z.of_nat (length (c :: r)) - 2 ^ 30 <= dec_exp l <= 0 /\
     signed g (value_from g 10 (exp l) (digits_of (c :: r))) <= 2 ^ 30) ->
  exp_digit g l c s = m ->
  match m with
  | Take s' l' => s' = s /\ f_inv p s' l' r
  | Stop e l' => accepted e = false /\ exists s', f_inv p s' l' (c :: r)
  | _ => False
  end.
Proof.
  intros Hs Hc He Hp <-.
  assert (exists y, exp_digit g l c s =
      checked (in_limits int_min int_max g (exp l * 10 + signed g (ascii_to_int 10 c)), set_exp l y) s
        (match g with Pos => exponent_overflow | Neg => exponent_underflow end) /\
    (in_limits int_min int_max g (exp l * 10 + signed g (ascii_to_int 10 c)) = true ->
       y = exp l * 10 + signed g (ascii_to_int 10 c)) /\
    0 <= signed g y /\ in_limits int_min int_max g y = true) as (y & -> & Hy & Hl).
  { destruct (signed_action int_min int_max g 10 (exp l) c (dec g)) as (y & Hm & H1 & _ & H2);
      [done|unfold is_base; lia|apply He|done|]. exists y. split; [|by split; [|apply H2, He]].
    unfold exp_digit, digit, add_exp, sub_exp, guarded, checked in *.
    destruct g; [destruct (add_ascii_signed _ _ _ _ c) as [[ok z]|]|destruct (sub_ascii _ _ _ _ c) as [[ok z]|]];
      cbn [mbind option_bind fst snd] in *; try destruct ok; destruct (in_limits _ _ _ (_ + _)); congruence. }
  unfold checked. cbn [fst snd]. destruct (in_limits int_min int_max g (exp l * 10 + _)) eqn:Hin.
  - rewrite (Hy eq_refl) in *. split; [done|]. unfold f_inv. rewrite Hs. split; [done|]. intros E.
    destruct (Hp E) as (H1 & H2 & H3). cbn [length set_exp dec_exp] in *. split_and!; [by eapply small_exponents_tl|lia..|].
    unfold digits_of in H3. cbn [run_of] in H3. by rewrite Hc in H3.
  - split; [by destruct g|]. exists s. unfold f_inv. rewrite Hs. split; [done|]. intros E. destruct (Hp E) as (H1 & H2 & H3).
    exfalso. unfold digits_of in H3. cbn [run_of] in H3. rewrite Hc in H3. cbn [value_from fold_left] in H3.
    pose proof (value_from_grows g (exp l * 10 + signed g (ascii_to_int 10 c)) (digits_of r)) as Hg.
    pose proof (digit_range 10 c ltac:(unfold is_base; lia) Hc) as Hd. unfold value_from, digits_of in Hg.
    specialize (Hg ltac:(destruct He, g; cbn [signed] in *; lia) (run_of_forall _ r)).
    unfold int_min, int_max in Hin. destruct g; cbn [signed in_limits] in *; apply Z.leb_gt in Hin; lia.
Qed.

(** The transitions that leave both exponents alone. *)
Lemma f_inv_keeps p s s' l l' r r' :
  exp_sign s = None -> exp_sign s' = None -> exp l' = exp l ->
  Z.of_nat (length r') <= Z.of_nat (length r) - (dec_exp l - dec_exp l') -> dec_exp l' <= dec_exp l ->
  suffix r' r -> f_inv p s l r -> f_inv p s' l' r'.
Proof.
  unfold f_inv. intros -> -> -> Hlen Hd Hs [He Hp]. split; [done|]. intros E. destruct (Hp E) as (H1 & H2 & _).
  split_and!; [by eapply small_exponents_suffix|lia|lia|done].
Qed.

(** The first digit of an exponent. *)
Lemma exp_start_ok p g s0 l c r s m :
  exp_sign s0 = None -> exp_sign s = Some g -> f_inv p s0 l (c :: r) -> in_whitelist decimal_chars c = true ->
  exp_digit g l c s = m ->
  match m with
  | Take s' l' => s' = s /\ f_inv p s' l' r
  | Stop e l' => accepted e = false /\ exists s', f_inv p s' l' (c :: r)
  | _ => False
  end.
Proof.
  unfold f_inv at 1. intros -> Hs [He Hp] Hc. apply exp_digit_ok; [done..| |].
  - rewrite He. by destruct g.
  - intros E. destruct (Hp E) as (H1 & H2 & _). split_and!; [done|lia..|]. rewrite He, value_from_0.
    apply small_exponents_here in H1 as [_ H1]. destruct g; cbn [signed]; lia.
Qed.

Ltac f_keeps Hi := apply (f_inv_keeps _ _ _ _ _ _ _) with (7 := Hi); try done; cbn [dec_exp set_minus length]; try lia.

Lemma f_body_ok p s l r m :
  f_inv p s l r -> f_body s (hd 0 r) l = m ->
  match m with
  | Take s' l' => f_inv p s' l' (tl r)
  | Eps s' l' => (f_rank s' < f_rank s)%nat /\ f_inv p s' l' r
  | Stop e l' => accepted e = false /\ exists s', f_inv p s' l' r
  | Stay => kind f_fsm s <> unstable
  | _ => False
  end.
Proof.
  destruct r as [|c r]; cbn [hd tl].
  { intros Hi Hb. destruct s; cbn in Hb; [destruct (start_value l)|..]; subst m; try done; (split; [cbn; lia|]); by f_keeps Hi. }
  assert (suffix r (c :: r)) by (by apply suffix_cons_r). assert (suffix (c :: r) (c :: r)) by done.
  intros Hi Hb. destruct s; cbn [f_body] in Hb; [destruct (start_value l)|..];
    unfold checked, rd_decimal, rd_integer, add_ascii_double in Hb; cbn [fst snd] in Hb; split_body.
  all: try (subst m; first [done|by split; [cbn; lia|f_keeps Hi]|by f_keeps Hi]; fail).
  1: apply (exp_start_ok p Pos has_e l c r pos_exp m) in Hb; [|done..]; destruct m; naive_solver.
  1: apply (exp_start_ok p Pos has_plus_after_e l c r pos_exp m) in Hb; [|done..]; destruct m; naive_solver.
  1: apply (exp_start_ok p Neg has_minus_after_e l c r neg_exp m) in Hb; [|done..]; destruct m; naive_solver.
  all: destruct Hi as [He Hp].
  1: apply (exp_digit_ok p Pos l c r pos_exp) in Hb; [|done..]; destruct m; naive_solver.
  1: apply (exp_digit_ok p Neg l c r neg_exp) in Hb; [|done..]; destruct m; naive_solver.
Qed.

#[export] Instance f_fsm_ok p : FsmOkAt f_fsm (f_inv p) f_rank.
Proof.
  split.
  - intros []; cbn; lia.
  - intros s l r s' l' Hi Hat Hb. split; [|by apply f_body_ok with (p := p) in Hb].
    apply Hat. destruct s; try done. cbn in Hb. by destruct (start_value l); split_body.
  - intros s l r s' act Hi _ Hb. by apply f_body_ok with (p := p) in Hb.
  - intros s l r s' l' Hi Hb. by apply f_body_ok with (p := p) in Hb.
  - intros s l ps f s' Hi _ Hb. by apply f_body_ok with (p := p) in Hb.
  - intros s l r c l' Hi Hb. by apply f_body_ok with (p := p) in Hb.
  - intros s l r Hi Hk Hb. by apply f_body_ok with (p := p) in Hb.
Qed.

(** [read_floating_point] returns, and in a text with small exponents no sum
    overflows. *)
Lemma read_floating_point_ok start negative ps :
  exists ps' d, read_floating_point start negative ps = Some (ps', d) /\ suffix (rest ps') (rest ps) /\
    (small_exponents (rest ps) = true -> d <> Some Overflowed).
Proof.
  set (p := negb (small_exponents (rest ps))).
  destruct (run_fsm_total_at f_fsm (f_inv p) f_rank f_init (f_start start negative) ps) as (ps' & l & Hr & Hs & s & Hi & _).
  { assert (exp (f_start start negative) = 0 /\ dec_exp (f_start start negative) = 0) as [He Hd]
      by (unfold f_start; destruct start as [x|]; [destruct (SFltb x dzero)|]; done).
    split; [done|]. subst p. rewrite Hd. intros Hp%negb_false_iff. pose proof (small_exponents_here _ Hp). split_and!; [done|lia..|done]. }
  unfold read_floating_point. rewrite Hr. destruct (accepted (code ps')); [|by eexists _, _].
  destruct (small_exponents (rest ps)) eqn:Hp; subst p; cbn [negb] in Hi.
  - destruct (f_inv_sum s l _ Hi) as [-> ->]. repeat case_match; by eexists _, _.
  - repeat case_match; by eexists _, _.
Qed.

(** Integers stay in the range of their type; no sum of exponents has overflowed
    unless [p] allows it. *)
Definition num_ok (p : bool) (n : number) : Prop :=
  match n with NInt z => is_sint 64 z | NUint z => is_uint 64 z | NDouble _ => True | NOverflowed => p = true end.

(** What [p = false] promises of the text. *)
Definition small_unless (p : bool) (r : list Z) : Prop := p = false -> small_exponents r = true.

Lemma small_unless_suffix p r t : suffix t r -> small_unless p r -> small_unless p t.
Proof. intros Hs Hr E. by eapply small_exponents_suffix, Hr. Qed.

Definition some_ok {A} (P : A -> Prop) (o : option A) : Prop := forall x, o = Some x -> P x.

Lemma some_ok_none {A} (P : A -> Prop) : some_ok P None.
Proof. done. Qed.

Lemma some_ok_some {A} (P : A -> Prop) x : P x -> some_ok P (Some x).
Proof. by intros ? ? [= <-]. Qed.

Definition m_inv (p : bool) (o : option number) : Prop := some_ok (num_ok p) o.

Definition n_inv (p neg : bool) (l : nlocals) : Prop :=
  (if neg then - 2 ^ 63 <= n_result l <= 0 else 0 <= n_result l < 2 ^ 64) /\ m_inv p (out l).

(** The number that a floating point parser delivers. *)
Lemma of_real_ok p start neg ps :
  small_unless p (rest ps) ->
  exists ps' d, read_floating_point start neg ps = Some (ps', d) /\ suffix (rest ps') (rest ps) /\
    forall x, d = Some x -> num_ok p (of_real x).
Proof.
  intros Hp. destruct (read_floating_point_ok start neg ps) as (ps' & d & H1 & H2 & H3). exists ps', d.
  split_and!; [done..|]. intros [x|] ->; [done|]. destruct p; [done|]. by destruct (H3 (Hp eq_refl)).
Qed.

Lemma n_float_ok p neg start l ps :
  n_inv p neg l -> small_unless p (rest ps) ->
  exists ps' l', n_float neg start l ps = Some (ps', l') /\ suffix (rest ps') (rest ps) /\ n_inv p neg l'.
Proof.
  intros [Hr Ho] Hp. unfold n_float. destruct (of_real_ok p (Some (start l)) neg ps Hp) as (ps' & d & -> & Hs & Hd).
  destruct d as [d|]; (eexists _, _; split_and!; [done..|]); (split; [done|]); [by apply some_ok_some, Hd|done].
Qed.

Lemma m_float_ok p o ps :
  m_inv p o -> small_unless p (rest ps) ->
  exists ps' o', m_float o ps = Some (ps', o') /\ suffix (rest ps') (rest ps) /\ m_inv p o'.
Proof.
  intros Ho Hp. unfold m_float. destruct (of_real_ok p (Some dzero) false ps Hp) as (ps' & d & -> & Hs & Hd).
  destruct d as [d|]; (eexists _, _; split_and!; [done..|]); [by apply some_ok_some, Hd|done].
Qed.

Definition n_rank (s : nstate) : nat :=
  match s with n_init => 2 | n_zero | n_start_bin | n_start_oct | n_start_hex | n_dec | n_dot => 1 | _ => 0 end.

(** A digit keeps the invariant, whether it fits or not, and no operation on it
    overflows. *)
Lemma n_digit_ok p neg base l c t m :
  n_inv p neg l -> is_base base -> in_whitelist (digit_chars base) c = true -> n_digit neg base l c t = m ->
  match m with
  | Take _ l' => n_inv p neg l'
  | Stop e l' => accepted e = false /\ n_inv p neg l'
  | _ => False
  end.
Proof.
  intros [Hr Ho] Hb Hc <-. unfold n_digit, n_inv. destruct neg.
  - destruct (signed_action (- 2 ^ 63) (2 ^ 63 - 1) Neg base (n_result l) c (dec Neg)) as (y & Hm & _ & _ & Hy);
      [lia|done|cbn; lia|done|]. destruct (Hy ltac:(apply Z.leb_le; lia)) as [H1 H2%Z.leb_le]. cbn [signed] in H1.
    unfold digit, guarded, checked in *. destruct (sub_ascii _ _ _ _ _) as [[ok z]|]; cbn [mbind option_bind fst snd] in *;
      [|by destruct (in_limits _ _ _ _)]. destruct ok, (in_limits _ _ _ _); try done; injection Hm as ->; cbn [n_result out]; split_and!; done || lia.
  - destruct (add_action 0 (2 ^ 64 - 1) base (n_result l) c n_bin) as (y & Hm & _ & _ & Hy); [lia|done|lia|done|].
    destruct (Hy ltac:(apply Z.leb_le; lia)) as [H1 H2%Z.leb_le]. cbn [signed] in H1.
    unfold guarded, checked in *. destruct (add_ascii _ _ _ _) as [ok z]; cbn [mbind option_bind fst snd] in *.
    destruct ok, (in_limits _ _ _ _); try done; injection Hm as ->; cbn [n_result out]; split_and!; done || lia.
Qed.

Ltac n_case p Hb :=
  match type of Hb with
  | n_digit _ ?base _ _ _ = _ => apply (n_digit_ok p) in Hb; [|done|unfold is_base; lia|done]
  end.

Definition n_inv_at (p neg : bool) (_ : nstate) (l : nlocals) (r : list Z) : Prop := small_unless p r /\ n_inv p neg l.

Lemma suffix_tl {A} (r : list A) : suffix (tl r) r.
Proof. destruct r; [done|]. by apply suffix_cons_r. Qed.

#[export] Instance n_fsm_ok p neg : FsmOkAt (n_fsm neg) (n_inv_at p neg) n_rank.
Proof.
  split.
  - intros []; cbn; lia.
  - intros s l r s' l' [Hp Hi] Hat Hb. split; [apply Hat; by destruct s|].
    split; [by eapply small_unless_suffix; [apply suffix_tl|]|].
    destruct s; cbn [body n_fsm n_body] in Hb; split_body; try done; try (by injection Hb as _ <-); by n_case p Hb.
  - intros s l r s' act [Hp Hi] _ Hb. destruct s; cbn [body n_fsm n_body] in Hb; split_body; try done; by n_case p Hb.
  - intros s l r s' l' [Hp Hi] Hb.
    destruct s; cbn [body n_fsm n_body] in Hb; split_body; try done; try (by n_case p Hb);
      injection Hb as <- <-; split; try done; cbn; lia.
  - intros s l ps f s' [Hp Hi] _ Hb.
    assert (exists start, f = n_float neg start /\ s' = n_done /\ (n_rank n_done < n_rank s)%nat) as (start & -> & -> & Hk)
      by (destruct s; cbn [body n_fsm n_body] in Hb; split_body; try done; try (by n_case p Hb);
          injection Hb as <- <-; eexists; (split; [reflexivity|split; [done|cbn; lia]])).
    split; [done|]. destruct (n_float_ok p neg start l ps Hi Hp) as (ps' & l' & H1 & H2 & H3).
    exists ps', l'. assert (n_inv_at p neg n_done l' (rest ps')) by (split; [by eapply small_unless_suffix|done]).
    split_and!; [done..|by exists n_done].
  - intros s l r c l' [Hp Hi] Hb. destruct s; cbn [body n_fsm n_body] in Hb; split_body; try done;
      n_case p Hb; destruct Hb; split; try done; by exists n_init.
  - intros [] l r _ Hk; done.
Qed.

Lemma read_signed_number_ok p neg o ps :
  m_inv p o -> small_unless p (rest ps) ->
  exists ps' o', read_signed_number neg o ps = Some (ps', o') /\ suffix (rest ps') (rest ps) /\ m_inv p o'.
Proof.
  intros Ho Hp. unfold read_signed_number.
  destruct (run_fsm_total_at (n_fsm neg) (n_inv_at p neg) n_rank n_init (NL 0 false o) ps) as (ps' & l & -> & Hs & s & [_ [Hr Hi]] & _).
  { split; [done|]. split; [by destruct neg|done]. }
  eexists _, _. split_and!; [done..|]. destruct (_ && _); [|done]. apply some_ok_some.
  destruct neg; cbn [num_ok]; unfold is_sint, is_uint; lia.
Qed.

Definition m_rank (s : mstate) : nat := match s with m_init => 1 | m_done => 0 end.

Lemma behind_ok p neg o ps :
  m_inv p o -> small_unless p (rest ps) -> current ps <> 0 ->
  exists ps' o', behind (read_signed_number neg) o ps = Some (ps', o') /\ suffix (rest ps') (rest ps) /\ m_inv p o'.
Proof.
  intros Ho Hp Hc. unfold behind. destruct (next_some ps Hc) as (c & ps1 & Hn). rewrite Hn.
  apply next_rest in Hn as [Hn _]. assert (suffix (rest ps1) (rest ps)) by (rewrite Hn; by apply suffix_cons_r).
  destruct (read_signed_number_ok p neg o ps1 Ho) as (ps' & o' & Hr & Hs & Hi); [by eapply small_unless_suffix|].
  exists ps', o'. split_and!; [done|by etrans|done].
Qed.

#[export] Instance m_fsm_ok p : FsmOkAt m_fsm (fun _ o r => small_unless p r /\ m_inv p o) m_rank.
Proof.
  split.
  - intros []; cbn; lia.
  - intros s l r s' l' [Hp Hi] Hat Hb. split; [apply Hat; by destruct s|].
    split; [by eapply small_unless_suffix; [apply suffix_tl|]|].
    destruct s; cbn [body m_fsm m_body] in Hb; split_body; try done. by injection Hb as _ <-.
  - intros s l r s' act _ _ Hb. destruct s; cbn [body m_fsm m_body] in Hb; split_body; done.
  - intros s l r s' l' _ Hb. destruct s; cbn [body m_fsm m_body] in Hb; split_body; done.
  - intros s l ps f s' [Hp Hi] Hat Hb. specialize (Hat ltac:(by destruct s)).
    assert ((m_rank s' < m_rank s)%nat /\
      exists ps' o', f l ps = Some (ps', o') /\ suffix (rest ps') (rest ps) /\ m_inv p o') as (Hk & ps' & o' & H1 & H2 & H3).
    { destruct s; cbn [body m_fsm m_body] in Hb; split_body; try done; injection Hb as <- <-; (split; [cbn; lia|]);
        [by apply (behind_ok p false)|by apply (behind_ok p true)|by apply m_float_ok|by apply (read_signed_number_ok p false)]. }
    split; [done|]. exists ps', o'. assert (small_unless p (rest ps')) by (by eapply small_unless_suffix).
    split_and!; [done..|by exists s].
  - intros s l r c l' _ Hb. destruct s; cbn [body m_fsm m_body] in Hb; split_body; done.
  - intros [] l r _ Hk; done.
Qed.

(** On every text [read_number] returns, and an integer that it delivers is one
    of its type. *)
Lemma read_number_ok p ps :
  small_unless p (rest ps) ->
  exists ps' o, read_number ps = Some (ps', o) /\ suffix (rest ps') (rest ps) /\ some_ok (num_ok p) o.
Proof.
  intros Hp. destruct (run_fsm_total_at m_fsm _ m_rank m_init None ps (conj Hp (some_ok_none _)))
    as (ps' & o & Hr & Hs & _ & [_ Ho] & _). eauto.
Qed.

(** A text that reaches the overflow: the behaviour of the parser is undefined. *)
Lemma exponent_sum_overflows :
  option_map snd (read_number (init_state (chars "1.5e-2147483648"))) = Some (Some NOverflowed).
Proof. vm_compute. reflexivity. Qed.

End ReadNumber.
