(* ===== verification/Json.v ===== *)
(** JSON of libcaf_core: the value type, the parser and the printer of
    [detail/json.hpp] and [detail/json.cpp].

    The parser is the one for contiguous input ([parse], with the unescaper
    that copies strings).  Its consumers write into the value under
    construction; here each machine returns what it has built. [read_value] is
    recursive through objects and arrays, up to [max_nesting_level]. *)
From Stdlib Require Import Strings.Ascii Strings.String Floats.SpecFloat.
From S2P Require Import Prelude.
From S2P Require Import Fsm.
From S2P Require Import ReadInteger.
From S2P Require Import Printer.
From S2P Require Import ReadNumber.
#[local] Open Scope Z_scope.
#[local] Open Scope caf_scope.

Import Fsm ReadInteger Printer ReadNumber.

Module Json.

(** ** Values *)

Inductive json :=
  | JNull
  | JInteger (z : Z)
  | JUnsigned (z : Z)
  | JDouble (d : double)
  | JBool (b : bool)
  | JString (s : list Z)
  | JArray (l : list json)
  | JObject (l : list (list Z * json))
  | JUndefined.

(** ** Unescaping *)

Definition surrogates_to_utf32 (high low : Z) : Z :=
  uwrap 32 ((uwrap 32 (uwrap 32 (high - 0xD800) .<< 10) .| uwrap 32 (low - 0xDC00)) + 0x10000).

Definition is_leading_surrogate (code_point : Z) : bool := (0xD800 <=? code_point) && (code_point <? 0xDC00).

Definition utf32_to_utf8 (cp : Z) : list Z :=
  if cp <=? 0x7f then [cp]
  else if cp <=? 0x7ff then [0xc0 .| ((cp .& 0x07c0) .>> 6); 0x80 .| (cp .& 0x003f)]
  else if cp <=? 0xffff then
    [0xe0 .| ((cp .& 0xf000) .>> 12); 0x80 .| ((cp .& 0x0fc0) .>> 6); 0x80 .| (cp .& 0x003f)]
  else if cp <=? 0x10ffff then
    [0xf0 .| ((cp .& 0x1c0000) .>> 18); 0x80 .| ((cp .& 0x03f000) .>> 12);
     0x80 .| ((cp .& 0x000fc0) .>> 6); 0x80 .| (cp .& 0x00003f)]
  else [].

(** [read_4len_hex]: four digits without checks, from a list that has them. *)
Definition hex4 (a b c d : Z) : Z :=
  let f x e := uwrap 16 (x * 16) + ascii_to_int 16 e in f (f (f (f 0 a) b) c) d.

Definition read_4len_hex (l : list Z) : option (Z * list Z) :=
  match l with
  | a :: b :: c :: d :: r => Some (hex4 a b c d, r)
  | _ => None
  end.

(** What an escape other than [\u] stands for. *)
Definition unescaped (e : Z) : Z :=
  if e =? quote then quote
  else if e =? backslash then backslash
  else if e =? chr "b" then 8
  else if e =? chr "f" then 12
  else if e =? chr "n" then 10
  else if e =? chr "r" then 13
  else if e =? chr "t" then 9
  else if e =? chr "v" then 11
  else chr "?".

(** [do_unescape]; running past the end of the string is [None]. *)
Fixpoint do_unescape (fuel : nat) (s : list Z) : option (list Z) :=
  match fuel with
  | O => None
  | S n =>
      match s with
      | [] => Some []
      | c :: s1 =>
          if c =? backslash then
            match s1 with
            | [] => Some []
            | e :: s2 =>
                if e =? chr "u" then
                  match read_4len_hex s2 with
                  | None => None
                  | Some (cp, s3) =>
                      if is_leading_surrogate (uwrap 16 cp) then
                        match read_4len_hex (drop 2 s3) with
                        | None => None
                        | Some (low, s4) =>
                            option_map (app (utf32_to_utf8 (surrogates_to_utf32 (uwrap 16 cp) low)))
                              (do_unescape n s4)
                        end
                      else option_map (app (utf32_to_utf8 cp)) (do_unescape n s3)
                  end
                else option_map (cons (unescaped e)) (do_unescape n s2)
            end
          else option_map (cons c) (do_unescape n s1)
      end
  end.

Definition unescape (s : list Z) : option (list Z) := do_unescape (S (length s)) s.

(** ** [read_code_point] *)

Inductive cstate := c_init | c_digits (n : nat).

(** [c_digits n] is [read_unicode_escape_n]; the fourth one is terminal. *)
Definition c_kind (s : cstate) : state_kind := match s with c_digits 4 => term | _ => nonterm end.

Definition c_body (s : cstate) (ch : Z) (result : Z) : move cstate Z :=
  match s with
  | c_init => if in_whitelist (chars "u") ch then Take (c_digits 0) result else Stay
  | c_digits n =>
      if (n <? 4)%nat && in_whitelist hexadecimal_chars ch
      then Take (c_digits (S n)) (uwrap 16 (uwrap 16 (16 * result) + uwrap 16 (ascii_to_int 16 ch)))
      else Stay
  end.

Definition c_fsm : fsm cstate Z := Fsm c_kind c_body.

(** ** [read_json_string] *)

Inductive jsstate :=
  | js_init | js_read_chars | js_after_escape | js_escape | js_after_code_point
  | js_second_code_point | js_done.

(** Where the string starts, the last code point, and the string for the consumer. *)
Record jslocals := JS { first : list Z; code_point : Z; str_out : option (list Z); str_bad : bool }.

Definition js_kind (s : jsstate) : state_kind :=
  match s with js_after_code_point => unstable | js_done => term | _ => nonterm end.

Definition raw_string (first i : list Z) : list Z := take (length first - length i) first.

(** [assign_value] with [regular_unescaper], for strings without and with
    escapes. The buffer for the result has the size of the source; [str_bad]
    records that the unescaper has left one of the two. *)
Definition assign_value (is_escaped : bool) (l : jslocals) (i : list Z) : jslocals :=
  let raw := raw_string (first l) i in
  if is_escaped then
    match unescape raw with
    | Some s => JS (first l) (code_point l) (Some s) (str_bad l || (length raw <? length s)%nat)
    | None => JS (first l) (code_point l) (str_out l) true
    end
  else JS (first l) (code_point l) (Some raw) (str_bad l).

Definition call_code_point (assign : bool) (l : jslocals) (ps : parser_state) : option (parser_state * jslocals) :=
  match run_fsm c_fsm c_init 0 ps with
  | Some (ps', cp) =>
      Some (ps', if assign && accepted (code ps') then JS (first l) cp (str_out l) (str_bad l) else l)
  | None => None
  end.

Definition js_body (s : jsstate) (ch : Z) (l : jslocals) : move jsstate jslocals :=
  match s with
  | js_init =>
      if in_whitelist whitespace_chars ch then Take js_init l
      else if ch =? quote then Mark js_read_chars (fun i => JS (tl i) (code_point l) (str_out l) (str_bad l))
      else Stay
  | js_read_chars =>
      if ch =? backslash then Take js_escape l
      else if ch =? quote then Mark js_done (assign_value false l)
      else Take js_read_chars l
  | js_after_escape =>
      if ch =? backslash then Take js_escape l
      else if ch =? quote then Mark js_done (assign_value true l)
      else Take js_after_escape l
  | js_escape =>
      if in_whitelist (quote :: backslash :: chars "/bfnrtv") ch then Take js_after_escape l
      else if in_whitelist (chars "u") ch then Sub (call_code_point true) js_after_code_point
      else Stay
  | js_after_code_point =>
      if is_leading_surrogate (code_point l) then Eps js_second_code_point l else Eps js_after_escape l
  | js_second_code_point =>
      if in_whitelist [backslash] ch then Sub (behind (call_code_point false)) js_after_escape else Stay
  | js_done => if in_whitelist whitespace_chars ch then Take js_done l else Stay
  end.

Definition js_fsm : fsm jsstate jslocals := Fsm js_kind js_body.

(** The string that the consumer got before the machine stopped. *)
Definition read_json_string (ps : parser_state) : option (parser_state * option (list Z)) :=
  match run_fsm js_fsm js_init (JS [] 0 None false) ps with
  | Some (ps', l) => if str_bad l then None else Some (ps', str_out l)
  | None => None
  end.

(** ** [read_bool] and [read_json_null_or_nan] *)

(** A machine that reads one of some words, one state per read prefix. *)
Inductive bstate := b_init | has_f | has_fa | has_fal | has_fals | has_t | has_tr | has_tru | b_done.

Definition b_kind (s : bstate) : state_kind := match s with b_done => term | _ => nonterm end.

Definition b_body (s : bstate) (ch : Z) (res : bool) : move bstate bool :=
  match s with
  | b_init => if ch =? chr "f" then Take has_f res else if ch =? chr "t" then Take has_t res else Stay
  | has_f => if ch =? chr "a" then Take has_fa res else Stay
  | has_fa => if ch =? chr "l" then Take has_fal res else Stay
  | has_fal => if ch =? chr "s" then Take has_fals res else Stay
  | has_fals => if ch =? chr "e" then Take b_done false else Stay
  | has_t => if ch =? chr "r" then Take has_tr res else Stay
  | has_tr => if ch =? chr "u" then Take has_tru res else Stay
  | has_tru => if ch =? chr "e" then Take b_done true else Stay
  | b_done => Stay
  end.

Definition b_fsm : fsm bstate bool := Fsm b_kind b_body.

Definition read_bool (ps : parser_state) : option (parser_state * option bool) :=
  deliver (run_fsm b_fsm b_init false ps).

Inductive zstate := z_init | has_n | has_nu | has_nul | has_na | z_done.

Inductive res_type := nil_res | is_null | is_nan.

Definition z_kind (s : zstate) : state_kind := match s with z_done => term | _ => nonterm end.

Definition z_body (s : zstate) (ch : Z) (res : res_type) : move zstate res_type :=
  match s with
  | z_init =>
      if in_whitelist whitespace_chars ch then Take z_init res
      else if ch =? chr "n" then Take has_n res else Stay
  | has_n => if ch =? chr "u" then Take has_nu res else if ch =? chr "a" then Take has_na res else Stay
  | has_nu => if ch =? chr "l" then Take has_nul res else Stay
  | has_nul => if ch =? chr "l" then Take z_done is_null else Stay
  | has_na => if ch =? chr "n" then Take z_done is_nan else Stay
  | z_done => if in_whitelist whitespace_chars ch then Take z_done res else Stay
  end.

Definition z_fsm : fsm zstate res_type := Fsm z_kind z_body.

Definition read_json_null_or_nan (ps : parser_state) : option (parser_state * option json) :=
  match run_fsm z_fsm z_init nil_res ps with
  | Some (ps', r) =>
      Some (ps', if accepted (code ps')
                 then Some (match r with is_null => JNull | _ => JDouble S754_nan end) else None)
  | None => None
  end.

(** ** Members, objects and arrays *)

Definition vparser : Type := parser_state -> option (parser_state * option json).

(** [read_member]; [rv] is [read_value] one level deeper. *)
Inductive mbstate := mb_init | after_key | mb_done.

Record mblocals := MB { mb_key : list Z; mb_val : option json }.

Definition mb_kind (s : mbstate) : state_kind := match s with mb_done => term | _ => nonterm end.

Definition mb_read_key (l : mblocals) (ps : parser_state) : option (parser_state * mblocals) :=
  match read_json_string ps with
  | Some (ps', Some s) => Some (ps', MB s (mb_val l))
  | Some (ps', None) => Some (ps', l)
  | None => None
  end.

Definition mb_read_val (rv : vparser) (l : mblocals) (ps : parser_state) : option (parser_state * mblocals) :=
  match rv ps with
  | Some (ps', v) => Some (ps', MB (mb_key l) v)
  | None => None
  end.

Definition mb_body (rv : vparser) (s : mbstate) (ch : Z) (l : mblocals) : move mbstate mblocals :=
  match s with
  | mb_init =>
      if in_whitelist whitespace_chars ch then Take mb_init l
      else if ch =? quote then Sub mb_read_key after_key else Stay
  | after_key =>
      if in_whitelist whitespace_chars ch then Take after_key l
      else if ch =? chr ":" then Sub (behind (mb_read_val rv)) mb_done else Stay
  | mb_done => if in_whitelist whitespace_chars ch then Take mb_done l else Stay
  end.

Definition mb_fsm (rv : vparser) : fsm mbstate mblocals := Fsm mb_kind (mb_body rv).

(** The member that [begin_member] has appended, filled by the parser. *)
Definition read_member (rv : vparser) (l : list (list Z * json)) (ps : parser_state)
    : option (parser_state * list (list Z * json)) :=
  match run_fsm (mb_fsm rv) mb_init (MB [] None) ps with
  | Some (ps', MB k (Some v)) => Some (ps', l ++ [(k, v)])
  | Some (ps', MB _ None) => Some (ps', l)
  | None => None
  end.

(** [read_json_object]. *)
Inductive obstate := ob_init | ob_has_open_brace | after_member | ob_after_comma | ob_done.

Definition ob_kind (s : obstate) : state_kind := match s with ob_done => term | _ => nonterm end.

Definition ob_body (rv : vparser) (s : obstate) (ch : Z) (l : list (list Z * json))
    : move obstate (list (list Z * json)) :=
  match s with
  | ob_init =>
      if in_whitelist whitespace_chars ch then Take ob_init l
      else if ch =? chr "{" then Take ob_has_open_brace l else Stay
  | ob_has_open_brace =>
      if in_whitelist whitespace_chars ch then Take ob_has_open_brace l
      else if ch =? quote then Sub (read_member rv) after_member
      else if ch =? chr "}" then Take ob_done l else Stay
  | after_member =>
      if in_whitelist whitespace_chars ch then Take after_member l
      else if ch =? chr "," then Take ob_after_comma l
      else if ch =? chr "}" then Take ob_done l else Stay
  | ob_after_comma =>
      if in_whitelist whitespace_chars ch then Take ob_after_comma l
      else if ch =? quote then Sub (read_member rv) after_member else Stay
  | ob_done => if in_whitelist whitespace_chars ch then Take ob_done l else Stay
  end.

Definition ob_fsm (rv : vparser) : fsm obstate (list (list Z * json)) := Fsm ob_kind (ob_body rv).

(** [read_json_array]. *)
Inductive arstate := ar_init | ar_has_open_brace | after_value | ar_after_comma | ar_done.

Definition ar_kind (s : arstate) : state_kind := match s with ar_done => term | _ => nonterm end.

Definition read_element (rv : vparser) (l : list json) (ps : parser_state) : option (parser_state * list json) :=
  match rv ps with
  | Some (ps', Some v) => Some (ps', l ++ [v])
  | Some (ps', None) => Some (ps', l)
  | None => None
  end.

Definition ar_body (rv : vparser) (s : arstate) (ch : Z) (l : list json) : move arstate (list json) :=
  match s with
  | ar_init =>
      if in_whitelist whitespace_chars ch then Take ar_init l
      else if ch =? chr "[" then Take ar_has_open_brace l else Stay
  | ar_has_open_brace =>
      if in_whitelist whitespace_chars ch then Take ar_has_open_brace l
      else if ch =? chr "]" then Take ar_done l
      else Sub (read_element rv) after_value
  | after_value =>
      if in_whitelist whitespace_chars ch then Take after_value l
      else if ch =? chr "," then Take ar_after_comma l
      else if ch =? chr "]" then Take ar_done l else Stay
  | ar_after_comma =>
      if in_whitelist whitespace_chars ch then Take ar_after_comma l
      else Sub (read_element rv) after_value
  | ar_done => if in_whitelist whitespace_chars ch then Take ar_done l else Stay
  end.

Definition ar_fsm (rv : vparser) : fsm arstate (list json) := Fsm ar_kind (ar_body rv).

(** The check of the nesting level at the start of both: [rv] is [None] when the
    level has reached [max_nesting_level]. *)
Definition read_json_object (rv : option vparser) : vparser := fun ps =>
  match rv with
  | None => Some (set_code ps nested_too_deeply, None)
  | Some rv' =>
      match run_fsm (ob_fsm rv') ob_init [] ps with
      | Some (ps', l) => Some (ps', Some (JObject l))
      | None => None
      end
  end.

Definition read_json_array (rv : option vparser) : vparser := fun ps =>
  match rv with
  | None => Some (set_code ps nested_too_deeply, None)
  | Some rv' =>
      match run_fsm (ar_fsm rv') ar_init [] ps with
      | Some (ps', l) => Some (ps', Some (JArray l))
      | None => None
      end
  end.

(** ** [read_value] *)

Inductive vlstate := vl_init | vl_done.

Definition vl_kind (s : vlstate) : state_kind := match s with vl_init => nonterm | vl_done => term end.

(** A call whose consumer stores its value into the value under construction. *)
Definition storing {A} (f : parser_state -> option (parser_state * option A)) (g : A -> json)
    (l : option json) (ps : parser_state) : option (parser_state * option json) :=
  match f ps with
  | Some (ps', Some x) => Some (ps', Some (g x))
  | Some (ps', None) => Some (ps', l)
  | None => None
  end.

(** An overflowed number stands for any value; the undefined value, which the
    parser yields in no other case, marks it. *)
Definition of_number (n : number) : json :=
  match n with
  | NInt z => JInteger z | NUint z => JUnsigned z | NDouble d => JDouble d | NOverflowed => JUndefined
  end.

Definition vl_body (rv : option vparser) (s : vlstate) (ch : Z) (l : option json)
    : move vlstate (option json) :=
  match s with
  | vl_init =>
      if in_whitelist whitespace_chars ch then Take vl_init l
      else if ch =? quote then Sub (storing read_json_string JString) vl_done
      else if in_whitelist (chars "ft") ch then Sub (storing read_bool JBool) vl_done
      else if in_whitelist (chars "n") ch then Sub (storing read_json_null_or_nan (fun v => v)) vl_done
      else if in_whitelist (chars "+-.0123456789") ch then Sub (storing read_number of_number) vl_done
      else if ch =? chr "{" then Sub (storing (read_json_object rv) (fun v => v)) vl_done
      else if ch =? chr "[" then Sub (storing (read_json_array rv) (fun v => v)) vl_done
      else Stay
  | vl_done => if in_whitelist whitespace_chars ch then Take vl_done l else Stay
  end.

Definition vl_fsm (rv : option vparser) : fsm vlstate (option json) := Fsm vl_kind (vl_body rv).

Definition max_nesting_level : nat := 128.

(** [levels] is [max_nesting_level - nesting_level]. *)
Fixpoint read_value (levels : nat) : vparser := fun ps =>
  run_fsm (vl_fsm (match levels with O => None | S n => Some (read_value n) end)) vl_init (Some JNull) ps.

(** [json_value::parse]. *)
Definition parse (str : list Z) : option (pec * option json) :=
  match read_value max_nesting_level (init_state str) with
  | Some (ps, v) => Some (code ps, if bool_decide (code ps = success) then v else None)
  | None => None
  end.

(** ** Printing *)

(** [std::to_string(double)]: six decimal places, rounded to nearest even, with
    enough digits for the largest number. *)
Definition round_half_even (num den : Z) : Z :=
  let q := num / den in
  let r := num mod den in
  if (2 * r <? den) || ((2 * r =? den) && Z.even q) then q else q + 1.

Definition micros (m : Z) (e : Z) : Z :=
  if 0 <=? e then m * 2 ^ e * 10 ^ 6 else round_half_even (m * 10 ^ 6) (2 ^ (- e)).

Definition std_to_string (d : double) : list Z :=
  let fixed (s : bool) (u : Z) :=
    (if s then [chr "-"] else [])
      ++ rev (stack_digits 310 (u / 10 ^ 6)) ++ [chr "."]
      ++ tl (rev (stack_digits 7 (10 ^ 6 + u mod 10 ^ 6))) in
  match d with
  | S754_zero s => fixed s 0
  | S754_finite s m e => fixed s (micros (Zpos m) e)
  | S754_infinity s => (if s then [chr "-"] else []) ++ chars "inf"
  | S754_nan => chars "nan"
  end.

Fixpoint drop_zeros (l : list Z) : list Z :=
  match l with c :: r => if c =? chr "0" then drop_zeros r else l | [] => [] end.

(** Trailing zeros and then a trailing dot are dropped. *)
Definition print_double (d : double) : list Z :=
  let str := std_to_string d in
  if in_whitelist str (chr ".") then
    match drop_zeros (rev str) with
    | c :: r => rev (if c =? chr "." then r else c :: r)
    | [] => []
    end
  else str.

Definition print_nl_to (indentation : nat) : list Z := 10 :: replicate indentation 32.

(** The elements of an array or object between brackets: separated by a comma
    and a blank, or each on a line of its own. *)
Definition print_items (indentation_factor offset : nat) (open close : Z) (items : list (list Z)) : list Z :=
  match items with
  | [] => [open; close]
  | x :: r =>
      if (indentation_factor =? 0)%nat then
        open :: x ++ flat_map (fun y => chars ", " ++ y) r ++ [close]
      else
        let new_offset := (indentation_factor + offset)%nat in
        open :: print_nl_to new_offset ++ x
          ++ flat_map (fun y => chr "," :: print_nl_to new_offset ++ y) r
          ++ print_nl_to offset ++ [close]
  end.

Fixpoint print_to (indentation_factor offset : nat) (v : json) : list Z :=
  let inner flat_offset := if (indentation_factor =? 0)%nat then flat_offset else (indentation_factor + offset)%nat in
  match v with
  | JInteger z => print_signed 64 z
  | JUnsigned z => print_unsigned z
  | JDouble d => print_double d
  | JBool b => print_bool b
  | JString s => print_escaped s
  | JArray l => print_items indentation_factor offset (chr "[") (chr "]") (map (print_to indentation_factor (inner 0%nat)) l)
  | JObject l =>
      print_items indentation_factor offset (chr "{") (chr "}")
        (map (fun kv => print_escaped kv.1 ++ chars ": " ++ print_to indentation_factor (inner offset) kv.2) l)
  | JNull | JUndefined => chars "null"
  end.

(** ** Unescaping stays within its buffers *)

Definition hex_digits (l : list Z) : Prop := Forall (fun c => in_whitelist hexadecimal_chars c = true) l.

(** The pieces of a string that the parser accepts: a plain character, a short
    escape, a code point, or two code points of which the first one is a leading
    surrogate. *)
Inductive piece : list Z -> Prop :=
  | piece_char c : c <> backslash -> is_byte c -> piece [c]
  | piece_short e : e <> chr "u" -> piece [backslash; e]
  | piece_cp a b c d :
      hex_digits [a; b; c; d] -> is_leading_surrogate (uwrap 16 (hex4 a b c d)) = false ->
      piece [backslash; chr "u"; a; b; c; d]
  | piece_pair a b c d x y e f g h :
      hex_digits [a; b; c; d] -> is_leading_surrogate (uwrap 16 (hex4 a b c d)) = true ->
      piece [backslash; chr "u"; a; b; c; d; x; y; e; f; g; h].

Definition pieces (raw : list Z) : Prop := exists ps, Forall piece ps /\ raw = concat ps.

Lemma pieces_nil : pieces [].
Proof. by exists []. Qed.

Lemma pieces_snoc raw p : pieces raw -> piece p -> pieces (raw ++ p).
Proof.
  intros (ps & Hps & ->) Hp. exists (ps ++ [p]). split; [apply Forall_app; split; [done|by constructor]|].
  rewrite concat_app. cbn. by rewrite app_nil_r.
Qed.

Lemma hex4_range a b c d : hex_digits [a; b; c; d] -> 0 <= hex4 a b c d < 2 ^ 16.
Proof.
  unfold hex_digits. rewrite !Forall_cons. intros (Ha & Hb & Hc & Hd & _).
  apply (digit_range 16) in Ha, Hb, Hc, Hd; try (unfold is_base; lia).
  unfold hex4, uwrap. Z.div_mod_to_equations. lia.
Qed.

Lemma lor_land_byte h x m k :
  0 <= k -> is_byte h -> is_uint (k + 8) m -> is_byte (h .| ((x .& m) .>> k)).
Proof.
  intros Hk Hh Hm. apply (uint_lor 8); [lia|done|].
  rewrite Z.shiftr_div_pow2 by done. rewrite Z.land_comm. apply (uint_land _ _ x) in Hm; [|lia]. unfold is_uint in *.
  rewrite Z.pow_add_r in Hm by lia. split; [apply Z.div_pos; lia|apply Z.div_lt_upper_bound; lia].
Qed.

Lemma lor_land_byte_0 h x m : is_byte h -> is_byte m -> is_byte (h .| (x .& m)).
Proof. intros Hh Hm. rewrite <- (Z.shiftr_0_r (x .& m)). by apply lor_land_byte. Qed.

Lemma utf32_to_utf8_ok cp : 0 <= cp ->
  all_bytes (utf32_to_utf8 cp) /\ (length (utf32_to_utf8 cp) <= 4)%nat
  /\ (cp <= 0xffff -> (length (utf32_to_utf8 cp) <= 3)%nat).
Proof.
  intros Hcp. unfold utf32_to_utf8, all_bytes.
  destruct (Z.leb_spec cp 0x7f); [|destruct (Z.leb_spec cp 0x7ff); [|destruct (Z.leb_spec cp 0xffff);
    [|destruct (Z.leb_spec cp 0x10ffff)]]]; cbn [length]; split_and!; try lia;
    repeat (apply Forall_cons; split); try apply Forall_nil;
    first [apply lor_land_byte; [lia|unfold is_byte; lia|split; vm_compute; congruence]
      |apply lor_land_byte_0; unfold is_byte; lia|unfold is_byte; lia].
Qed.

Lemma unescape_pieces ps n :
  Forall piece ps -> (length (concat ps) < n)%nat ->
  exists s, do_unescape n (concat ps) = Some s /\ all_bytes s /\ (length s <= length (concat ps))%nat.
Proof.
  intros Hps. revert n. induction Hps as [|p ps Hp Hps IH]; intros [|n] Hn; try lia;
    [exists []; split_and!; [done|constructor|cbn; lia]|].
  destruct Hp as [c Hc Hb|e He|a b c d Hx Hs|a b c d x y e f g h Hx Hs];
    cbn [concat app length] in Hn |- *; cbn [do_unescape];
    (destruct (IH n) as (s & Hs' & Hbs & Hls); [lia|]).
  - rewrite (proj2 (Z.eqb_neq _ _) Hc), Hs'. eexists. split_and!; [done|by constructor|cbn; lia].
  - rewrite Z.eqb_refl, (proj2 (Z.eqb_neq _ _) He), Hs'. eexists. split_and!; [done| |cbn; lia].
    constructor; [|done]. unfold unescaped. repeat case_match; done.
  - rewrite !Z.eqb_refl. cbn [read_4len_hex]. rewrite Hs, Hs'. eexists.
    apply hex4_range in Hx. destruct (utf32_to_utf8_ok (hex4 a b c d)) as (Hu & _ & Hl); [lia|].
    split_and!; [done|by apply Forall_app|]. rewrite length_app. specialize (Hl ltac:(lia)). cbn [length]. lia.
  - rewrite !Z.eqb_refl. cbn [read_4len_hex]. rewrite Hs. cbn [drop read_4len_hex]. rewrite Hs'. eexists.
    destruct (utf32_to_utf8_ok (surrogates_to_utf32 (uwrap 16 (hex4 a b c d)) (hex4 e f g h))) as (Hu & Hl & _).
    { apply (uwrap_range 32). lia. }
    split_and!; [done|by apply Forall_app|]. rewrite length_app. cbn [length]. lia.
Qed.

(** A string of pieces is unescaped within the bounds of both buffers. *)
Lemma pieces_unescape raw :
  pieces raw -> exists s, unescape raw = Some s /\ all_bytes s /\ (length s <= length raw)%nat.
Proof. intros (ps & Hps & ->). apply unescape_pieces; [done|lia]. Qed.

(** *** Code points *)

Definition hex_step (x e : Z) : Z := uwrap 16 (uwrap 16 (16 * x) + uwrap 16 (ascii_to_int 16 e)).

Lemma hex_step_4 a b c d : hex_digits [a; b; c; d] -> foldl hex_step 0 [a; b; c; d] = uwrap 16 (hex4 a b c d).
Proof.
  unfold hex_digits. rewrite !Forall_cons. intros (Ha & Hb & Hc & Hd & _).
  apply (digit_range 16) in Ha, Hb, Hc, Hd; try (unfold is_base; lia).
  assert (Hx : forall x y, 0 <= x < 2 ^ 12 -> 0 <= y < 16 ->
    uwrap 16 (x * 16) + y = x * 16 + y /\ uwrap 16 (uwrap 16 (16 * x) + uwrap 16 y) = x * 16 + y).
  { intros x y Hx Hy. rewrite (Z.mul_comm 16), !(uwrap_id 16); unfold is_uint; rewrite ?(uwrap_id 16); unfold is_uint; lia. }
  cbn [foldl]. unfold hex4, hex_step. revert Ha Hb Hc Hd.
  generalize (ascii_to_int 16 a), (ascii_to_int 16 b), (ascii_to_int 16 c), (ascii_to_int 16 d).
  intros p q r s Hp Hq Hr Hs.
  destruct (Hx 0 p) as [-> ->]; [lia..|]. destruct (Hx (0 * 16 + p) q) as [-> ->]; [lia..|].
  destruct (Hx ((0 * 16 + p) * 16 + q) r) as [-> ->]; [lia..|].
  destruct (Hx (((0 * 16 + p) * 16 + q) * 16 + r) s) as [-> ->]; [lia..|].
  rewrite uwrap_id; [done|unfold is_uint; lia].
Qed.

(** What [read_code_point] has consumed of the text [t] in each of its states. *)
Definition c_inv (t : list Z) (s : cstate) (x : Z) (r : list Z) : Prop :=
  match s with
  | c_init => r = t /\ x = 0
  | c_digits n => exists ds, t = chr "u" :: ds ++ r /\ length ds = n /\ hex_digits ds /\ x = foldl hex_step 0 ds
  end.

Definition c_rank (s : cstate) : nat := 0.

#[export] Instance c_fsm_ok t : FsmOkAt c_fsm (c_inv t) c_rank.
Proof.
  split.
  - intros s. unfold c_rank. lia.
  - intros s x r s' x' Hi Hat Hb. assert (Hc : hd 0 r <> 0) by (apply Hat; by destruct s as [|[|[|[|[|[|]]]]]]).
    split; [done|]. destruct r as [|ch r]; [done|]. cbn [hd tl] in *.
    destruct s as [|n]; cbn [body c_fsm c_body] in Hb; split_body; try done; injection Hb as <- <-.
    + destruct Hi as [<- ->]. exists []. cbn in Heqb. destruct (Z.eqb_spec (chr "u") ch) as [<-|]; [|done].
      split_and!; [done..|constructor|done].
    + destruct Hi as (ds & -> & <- & Hds & ->). exists (ds ++ [ch]).
      apply andb_prop in Heqb as [_ Hh]. split_and!.
      * by rewrite <- app_assoc.
      * rewrite length_app. cbn. lia.
      * apply Forall_app. split; [done|by constructor].
      * by rewrite foldl_snoc.
  - intros [|n] l r s' act _ _ Hb; cbn [body c_fsm c_body] in Hb; split_body; done.
  - intros [|n] l r s' l' _ Hb; cbn [body c_fsm c_body] in Hb; split_body; done.
  - intros [|n] l ps f s' _ _ Hb; cbn [body c_fsm c_body] in Hb; split_body; done.
  - intros [|n] l r c l' _ Hb; cbn [body c_fsm c_body] in Hb; split_body; done.
  - intros [|[|[|[|[|[|n]]]]]] l r _ Hk; done.
Qed.

(** If [read_code_point] accepts, it has read [u] and four digits, of which it
    returns the value. *)
Lemma read_code_point_ok ps :
  exists ps' x, run_fsm c_fsm c_init 0 ps = Some (ps', x) /\ suffix (rest ps') (rest ps)
    /\ (accepted (code ps') = true -> exists a b c d,
          rest ps = chr "u" :: a :: b :: c :: d :: rest ps' /\ hex_digits [a; b; c; d]
          /\ x = uwrap 16 (hex4 a b c d)).
Proof.
  destruct (run_fsm_total_at c_fsm (c_inv (rest ps)) c_rank c_init 0 ps) as (ps' & x & Hr & Hs & s & Hi & Hk); [done|].
  exists ps', x. split_and!; [done..|]. intros Ha. specialize (Hk Ha).
  destruct s as [|[|[|[|[|[|n]]]]]]; try done.
  destruct Hi as (ds & Ht & Hl & Hds & ->). destruct ds as [|a [|b [|c [|d [|]]]]]; try done.
  exists a, b, c, d. split_and!; [done..|]. by apply hex_step_4.
Qed.

(** *** Strings *)

Lemma bytes_suffix r t : suffix r t -> all_bytes t -> all_bytes r.
Proof. intros [k ->]. unfold all_bytes. rewrite Forall_app. by intros [_ ?]. Qed.

Lemma bytes_tl r : all_bytes r -> all_bytes (tl r).
Proof. destruct r; [done|]. by inversion 1. Qed.

Lemma bytes_hd r : all_bytes r -> hd 0 r <> 0 -> exists c r', r = c :: r' /\ is_byte c /\ all_bytes r'.
Proof. destruct r as [|c r]; [done|]. inversion 1; subst. eauto. Qed.

(** What the machine has read of the string. *)
Definition js_inv (s : jsstate) (l : jslocals) (r : list Z) : Prop :=
  all_bytes r /\ str_bad l = false /\ some_ok all_bytes (str_out l) /\
  match s with
  | js_init | js_done => True
  | js_read_chars | js_after_escape => exists raw, pieces raw /\ all_bytes raw /\ first l = raw ++ r
  | js_escape => exists raw, pieces raw /\ all_bytes raw /\ first l = raw ++ backslash :: r
  | js_after_code_point => exists raw a b c d, pieces raw /\ all_bytes raw /\ hex_digits [a; b; c; d]
      /\ all_bytes [a; b; c; d]
      /\ first l = raw ++ [backslash; chr "u"; a; b; c; d] ++ r /\ code_point l = uwrap 16 (hex4 a b c d)
  | js_second_code_point => exists raw a b c d, pieces raw /\ all_bytes raw /\ hex_digits [a; b; c; d]
      /\ all_bytes [a; b; c; d]
      /\ first l = raw ++ [backslash; chr "u"; a; b; c; d] ++ r
      /\ is_leading_surrogate (uwrap 16 (hex4 a b c d)) = true
  end.

Definition js_rank (s : jsstate) : nat :=
  match s with js_escape => 3 | js_after_code_point => 2 | js_second_code_point => 1 | _ => 0 end.

Lemma raw_string_app raw r : raw_string (raw ++ r) r = raw.
Proof. unfold raw_string. rewrite length_app. replace (length raw + length r - length r)%nat with (length raw) by lia. apply take_app_length. Qed.

Lemma assign_value_ok escaped l raw r :
  pieces raw -> all_bytes raw -> all_bytes r -> first l = raw ++ r -> str_bad l = false ->
  js_inv js_done (assign_value escaped l r) (tl r).
Proof.
  intros Hp Hb Hr Hf Hbad. unfold assign_value. rewrite Hf, raw_string_app.
  destruct escaped.
  - destruct (pieces_unescape raw Hp) as (s & -> & Hs & Hl).
    split_and!; [by apply bytes_tl| |by apply some_ok_some|done]. cbn. rewrite Hbad. cbn. apply Nat.ltb_ge. lia.
  - split_and!; [by apply bytes_tl|done|by apply some_ok_some|done].
Qed.

Lemma call_code_point_ok assign l ps :
  exists ps' l', call_code_point assign l ps = Some (ps', l') /\ suffix (rest ps') (rest ps)
    /\ first l' = first l /\ str_out l' = str_out l /\ str_bad l' = str_bad l
    /\ (accepted (code ps') = true -> exists a b c d,
          rest ps = chr "u" :: a :: b :: c :: d :: rest ps' /\ hex_digits [a; b; c; d]
          /\ (assign = true -> code_point l' = uwrap 16 (hex4 a b c d))).
Proof.
  unfold call_code_point. destruct (read_code_point_ok ps) as (ps' & x & -> & Hs & Ha).
  eexists _, _. split_and!; [done..|by destruct (_ && _)|by destruct (_ && _)|by destruct (_ && _)|].
  intros Hacc. rewrite Hacc. destruct (Ha Hacc) as (a & b & c & d & H1 & H2 & ->).
  exists a, b, c, d. split_and!; [done..|]. by intros ->.
Qed.

#[local] Hint Resolve bytes_tl : core.

Lemma js_take_ok s l r s' l' :
  js_inv s l r -> hd 0 r <> 0 -> body js_fsm s (hd 0 r) l = Take s' l' -> js_inv s' l' (tl r).
Proof.
  intros (Hr & Hbad & Hout & Hi) Hc Hb. destruct (bytes_hd r Hr Hc) as (ch & r' & -> & Hch & Hr').
  cbn [hd tl] in *. destruct s; cbn [body js_fsm js_body] in Hb; split_body; try done; injection Hb as <- <-;
    (split_and!; [done..|]); try done.
  - destruct Hi as (raw & Hp & Hb & Hf). apply Z.eqb_eq in Heqb as ->. by exists raw.
  - destruct Hi as (raw & Hp & Hb & Hf). exists (raw ++ [ch]). apply Z.eqb_neq in Heqb.
    split_and!; [apply pieces_snoc; [done|by constructor]|apply Forall_app; split; [done|by constructor]|].
    by rewrite <- app_assoc.
  - destruct Hi as (raw & Hp & Hb & Hf). apply Z.eqb_eq in Heqb as ->. by exists raw.
  - destruct Hi as (raw & Hp & Hb & Hf). exists (raw ++ [ch]). apply Z.eqb_neq in Heqb.
    split_and!; [apply pieces_snoc; [done|by constructor]|apply Forall_app; split; [done|by constructor]|].
    by rewrite <- app_assoc.
  - destruct Hi as (raw & Hp & Hb & Hf). exists (raw ++ [backslash; ch]).
    split_and!; [apply pieces_snoc; [done|]; constructor; by intros ->| |by rewrite <- app_assoc].
    apply Forall_app. split; [done|]. constructor; [unfold is_byte, backslash; lia|by constructor].
Qed.

Lemma js_sub_ok s l ps f s' :
  js_inv s l (rest ps) -> current ps <> 0 -> body js_fsm s (current ps) l = Sub f s' ->
  (js_rank s' < js_rank s)%nat /\
  exists ps' l', f l ps = Some (ps', l') /\ suffix (rest ps') (rest ps)
    /\ (accepted (code ps') = true -> js_inv s' l' (rest ps'))
    /\ exists s1, js_inv s1 l' (rest ps').
Proof.
  intros (Hr & Hbad & Hout & Hi) Hc Hb.
  destruct s; cbn [body js_fsm js_body] in Hb; split_body; try done; injection Hb as <- <-; (split; [cbn; lia|]).
  - destruct (call_code_point_ok true l ps) as (ps' & l' & -> & Hs & Hf & Ho & Hbd & Ha).
    exists ps', l'. split_and!; [done..| |].
    + intros Hacc. destruct (Ha Hacc) as (a & b & c & d & Ht & Hx & Hcp). specialize (Hcp eq_refl).
      destruct Hi as (raw & Hp & Hb & Hfirst). unfold js_inv. rewrite Ho, Hbd.
      split_and!; [by eapply bytes_suffix|done..|]. exists raw, a, b, c, d. split_and!; [done..| | |done].
      * rewrite Ht in Hr. inversion Hr as [|? ? _ Hr1]. change [a; b; c; d] with (take 4 (a :: b :: c :: d :: rest ps')).
        by apply Forall_take.
      * by rewrite Hf, Hfirst, Ht.
    + exists js_init. unfold js_inv. rewrite Ho, Hbd. split_and!; [by eapply bytes_suffix|done..].
  - unfold behind. destruct (next_some ps Hc) as (x & ps1 & Hn). rewrite Hn. apply next_rest in Hn as [Hn _].
    destruct (call_code_point_ok false l ps1) as (ps' & l' & -> & Hs & Hf & Ho & Hbd & Ha).
    assert (Hs' : suffix (rest ps') (rest ps)) by (rewrite Hn; by apply suffix_cons_r).
    exists ps', l'. split_and!; [done..| |].
    + intros Hacc. destruct (Ha Hacc) as (e & f & g & h & Ht & Hx & _).
      destruct Hi as (raw & a & b & c & d & Hp & Hb & Hxs & Hbs & Hfirst & Hlead). unfold js_inv. rewrite Ho, Hbd.
      split_and!; [by eapply bytes_suffix|done..|].
      rewrite Hn, Ht in Hfirst, Hr.
      exists (raw ++ [backslash; chr "u"; a; b; c; d; current ps; chr "u"; e; f; g; h]). split_and!.
      * apply pieces_snoc; [done|]. by apply piece_pair.
      * apply Forall_app. split; [done|].
        change [backslash; chr "u"; a; b; c; d; current ps; chr "u"; e; f; g; h]
          with ([backslash; chr "u"] ++ [a; b; c; d] ++ take 6 (current ps :: chr "u" :: e :: f :: g :: h :: rest ps')).
        apply Forall_app. split; [repeat constructor; unfold is_byte; vm_compute; congruence|].
        apply Forall_app. split; [done|by apply Forall_take].
      * rewrite Hf, Hfirst. by rewrite <- app_assoc.
    + exists js_init. unfold js_inv. rewrite Ho, Hbd. split_and!; [by eapply bytes_suffix|done..].
Qed.

#[export] Instance js_fsm_ok : FsmOkAt js_fsm js_inv js_rank.
Proof.
  split.
  - intros []; cbn; lia.
  - intros s l r s' l' Hi Hat Hb. assert (hd 0 r <> 0) by (apply Hat; destruct s; try done; cbn in Hb; by case_match).
    split; [done|]. by eapply js_take_ok.
  - intros s l r s' act (Hr & Hbad & Hout & Hi) Hat Hb.
    assert (Hc : hd 0 r <> 0) by (apply Hat; destruct s; try done; cbn in Hb; by case_match).
    split; [done|]. destruct s; cbn [body js_fsm js_body] in Hb; split_body; try done; injection Hb as <- <-.
    + split_and!; [by apply bytes_tl|done..|]. exists []. split_and!; [apply pieces_nil|constructor|done].
    + destruct Hi as (raw & Hp & Hb & Hf). by eapply assign_value_ok.
    + destruct Hi as (raw & Hp & Hb & Hf). by eapply assign_value_ok.
  - intros s l r s' l' (Hr & Hbad & Hout & Hi) Hb.
    destruct s; cbn [body js_fsm js_body] in Hb; split_body; try done; injection Hb as <- <-; (split; [cbn; lia|]);
      destruct Hi as (raw & a & b & c & d & Hp & Hb & Hxs & Hbs & Hfirst & Hcp); (split_and!; [done..|]);
      rewrite Hcp in Heqb.
    + by exists raw, a, b, c, d.
    + exists (raw ++ [backslash; chr "u"; a; b; c; d]). split_and!; [|apply Forall_app; split; [done|]|by rewrite <- app_assoc].
      * apply pieces_snoc; [done|by apply piece_cp].
      * constructor; [done|]. constructor; [done|done].
  - intros s l ps f s' Hi Hat Hb. apply js_sub_ok; [done| |done]. apply Hat. destruct s; try done. cbn in Hb. by case_match.
  - intros s l r c l' _ Hb. destruct s; cbn [body js_fsm js_body] in Hb; split_body; done.
  - intros [] l r _ Hk; try done. cbn [body js_fsm js_body]. by destruct (is_leading_surrogate _).
Qed.

(** A text of bytes; unless [p], its exponents are small. *)
Definition text_ok (p : bool) (r : list Z) : Prop := all_bytes r /\ small_unless p r.

Lemma text_suffix p r t : suffix t r -> text_ok p r -> text_ok p t.
Proof. intros Hs [H1 H2]. split; [by eapply bytes_suffix|by eapply small_unless_suffix]. Qed.

Lemma text_tl p r : text_ok p r -> text_ok p (tl r).
Proof. apply text_suffix, suffix_tl. Qed.

(** A parser that returns on every such text, and whose value satisfies [P]. *)
Definition yields (p : bool) {A} (P : A -> Prop) (f : parser_state -> option (parser_state * option A)) : Prop :=
  forall ps, text_ok p (rest ps) ->
    exists ps' a, f ps = Some (ps', a) /\ suffix (rest ps') (rest ps) /\ some_ok P a.

Lemma js_start_inv r : all_bytes r -> js_inv js_init (JS [] 0 None false) r.
Proof. intros Hr. by split_and!. Qed.

Lemma read_json_string_yields p : yields p all_bytes read_json_string.
Proof.
  intros ps [Hb _]. destruct (run_fsm_total_at js_fsm js_inv js_rank js_init _ ps (js_start_inv _ Hb))
    as (ps' & l & Hr & Hs & s & (_ & Hbad & Hout & _) & _).
  unfold read_json_string. rewrite Hr, Hbad. eauto.
Qed.

(** *** Machines that only consume characters and call other parsers *)

Lemma plain_fsm_ok p {S L} (m : fsm S L) (I : L -> Prop) (rank : S -> nat) :
  (forall s, (rank s < 8)%nat) -> (forall s, kind m s <> unstable) ->
  (forall s ch l, I l ->
    match body m s ch l with Take _ l' => I l' | Sub _ _ | Stay => True | _ => False end) ->
  (forall s l ps f s', I l -> text_ok p (rest ps) -> current ps <> 0 -> body m s (current ps) l = Sub f s' ->
    (rank s' < rank s)%nat /\
    exists ps' l', f l ps = Some (ps', l') /\ suffix (rest ps') (rest ps) /\ I l') ->
  FsmOkAt m (fun _ l r => text_ok p r /\ I l) rank.
Proof.
  intros Hrank Hk Hb Hsub. split.
  - done.
  - intros s l r s' l' [Hr Hi] Hat H. specialize (Hb s (hd 0 r) l Hi). rewrite H in Hb. split; [by apply Hat|]. split; [by apply text_tl|done].
  - intros s l r s' act [Hr Hi] Hat H. specialize (Hb s (hd 0 r) l Hi). by rewrite H in Hb.
  - intros s l r s' l' [Hr Hi] H. specialize (Hb s (hd 0 r) l Hi). by rewrite H in Hb.
  - intros s l ps f s' [Hr Hi] Hat H. destruct (Hsub s l ps f s') as (H1 & ps' & l' & H2 & H3 & H4); [auto..|].
    split; [done|]. assert (text_ok p (rest ps')) by (by eapply text_suffix).
    exists ps', l'. split_and!; [done..|by exists s].
  - intros s l r c l' [Hr Hi] H. specialize (Hb s (hd 0 r) l Hi). by rewrite H in Hb.
  - intros s l r _ H. by apply Hk in H.
Qed.

Lemma plain_fsm_run p {S L} (m : fsm S L) (I : L -> Prop) (rank : S -> nat)
    `{!FsmOkAt m (fun _ l r => text_ok p r /\ I l) rank} s l ps :
  I l -> text_ok p (rest ps) ->
  exists ps' l', run_fsm m s l ps = Some (ps', l') /\ suffix (rest ps') (rest ps) /\ I l'.
Proof.
  intros Hi Hr. destruct (run_fsm_total_at m _ rank s l ps (conj Hr Hi)) as (ps' & l' & H1 & H2 & _ & [_ H3] & _).
  eauto.
Qed.

#[export] Instance b_fsm_ok p : FsmOkAt b_fsm (fun _ _ r => text_ok p r /\ True) (fun _ => 0%nat).
Proof.
  apply (plain_fsm_ok p b_fsm (fun _ => True)); [lia|by intros []| |].
  - intros [] ch l _; cbn; repeat case_match; done.
  - intros [] l ps f s' _ _ _ Hb; cbn in Hb; split_body; done.
Qed.

#[export] Instance z_fsm_ok p : FsmOkAt z_fsm (fun _ _ r => text_ok p r /\ True) (fun _ => 0%nat).
Proof.
  apply (plain_fsm_ok p z_fsm (fun _ => True)); [lia|by intros []| |].
  - intros [] ch l _; cbn [body z_fsm z_body]; repeat case_match; done.
  - intros [] l ps f s' _ _ _ Hb; cbn [body z_fsm z_body] in Hb; split_body; done.
Qed.

(** ** Well-formed values

    Integers of their width, strings of bytes, at most [k] levels of arrays and
    objects, and no undefined value unless [p]. *)
Fixpoint json_form (p : bool) (k : nat) (v : json) {struct k} : Prop :=
  match v with
  | JNull | JDouble _ | JBool _ => True
  | JInteger z => is_sint 64 z
  | JUnsigned z => is_uint 64 z
  | JString s => all_bytes s
  | JArray l => match k with O => False | S n => Forall (json_form p n) l end
  | JObject l => match k with O => False | S n => Forall (fun kv => all_bytes kv.1 /\ json_form p n kv.2) l end
  | JUndefined => p = true
  end.

Notation json_ok := (json_form false).

Lemma json_form_mono p k n v : (k <= n)%nat -> json_form p k v -> json_form p n v.
Proof.
  revert n v; induction k as [|k IH]; intros [|n] v Hn; try lia; try done; destruct v; try done; cbn [json_form];
    intros Hl; (eapply Forall_impl; [exact Hl|]); cbn beta; [intros x|intros [key x] [Hk Hx]; split; [done|]; revert Hx];
    apply IH; lia.
Qed.

(** [read_value] as a component: it always returns with a well-formed value. *)
Definition value_parser (p : bool) (k : nat) (rv : vparser) : Prop :=
  forall ps, text_ok p (rest ps) ->
    exists ps' v, rv ps = Some (ps', Some v) /\ suffix (rest ps') (rest ps) /\ json_form p k v.

Ltac split_goal := repeat match goal with |- context [if ?b then _ else _] => destruct b end.

Section Containers.
  Context (p : bool) (k : nat) (rv : vparser) (Hrv : value_parser p k rv).

Definition mb_good (l : mblocals) : Prop := all_bytes (mb_key l) /\ some_ok (json_form p k) (mb_val l).

Definition mb_rank (s : mbstate) : nat := match s with mb_init => 2 | after_key => 1 | mb_done => 0 end.

Lemma mb_start_good : mb_good (MB [] None).
Proof. split; [constructor|done]. Qed.

#[local] Instance mb_fsm_ok : FsmOkAt (mb_fsm rv) (fun _ l r => text_ok p r /\ mb_good l) mb_rank.
Proof using Hrv.
  apply plain_fsm_ok; [intros []; cbn; lia|by intros []| |].
  - intros [] ch l Hi; cbn [body mb_fsm mb_body]; split_goal; done.
  - intros [] l ps f s' [Hk Hv] Hr Hc Hb; cbn [body mb_fsm mb_body] in Hb; split_body; try done;
      injection Hb as <- <-; (split; [cbn; lia|]).
    + unfold mb_read_key. destruct (read_json_string_yields p ps Hr) as (ps' & [s|] & -> & Hs & Ho);
        (eexists _, _; split_and!; [done..|]); [by split; [apply Ho|]|by split].
    + unfold behind. destruct (next_some ps Hc) as (x & ps1 & Hn). rewrite Hn. apply next_rest in Hn as [Hn _].
      rewrite Hn in Hr. unfold mb_read_val. destruct (Hrv ps1 (text_tl p _ Hr)) as (ps' & v & -> & Hs & Hok).
      eexists _, _. split_and!; [done|rewrite Hn; by apply suffix_cons_r|]. split; [done|by apply some_ok_some].
Qed.

Definition ob_good (l : list (list Z * json)) : Prop := Forall (fun kv => all_bytes kv.1 /\ json_form p k kv.2) l.

Lemma read_member_ok l ps :
  ob_good l -> text_ok p (rest ps) ->
  exists ps' l', read_member rv l ps = Some (ps', l') /\ suffix (rest ps') (rest ps) /\ ob_good l'.
Proof using Hrv.
  intros Hl Hr. unfold read_member.
  destruct (plain_fsm_run p (mb_fsm rv) mb_good mb_rank mb_init (MB [] None) ps) as (ps' & [key val] & -> & Hs & Hk & Hv);
    [apply mb_start_good|done|].
  destruct val as [v|]; (eexists _, _; split_and!; [done..|]); [|done].
  apply Forall_app. split; [done|]. constructor; [|done]. split; [done|by apply Hv].
Qed.

Definition ob_rank (s : obstate) : nat :=
  match s with ob_has_open_brace | ob_after_comma => 1 | _ => 0 end.

#[local] Instance ob_fsm_ok : FsmOkAt (ob_fsm rv) (fun _ l r => text_ok p r /\ ob_good l) ob_rank.
Proof using Hrv.
  apply plain_fsm_ok; [intros []; cbn; lia|by intros []| |].
  - intros [] ch l Hi; cbn [body ob_fsm ob_body]; split_goal; done.
  - intros [] l ps f s' Hi Hr Hc Hb; cbn [body ob_fsm ob_body] in Hb; split_body; try done;
      injection Hb as <- <-; (split; [cbn; lia|]); by apply read_member_ok.
Qed.

Lemma read_element_ok l ps :
  Forall (json_form p k) l -> text_ok p (rest ps) ->
  exists ps' l', read_element rv l ps = Some (ps', l') /\ suffix (rest ps') (rest ps) /\ Forall (json_form p k) l'.
Proof using Hrv.
  intros Hl Hr. unfold read_element. destruct (Hrv ps Hr) as (ps' & v & -> & Hs & Hv).
  eexists _, _. split_and!; [done..|]. apply Forall_app. split; [done|by constructor].
Qed.

Definition ar_rank (s : arstate) : nat :=
  match s with ar_has_open_brace | ar_after_comma => 1 | _ => 0 end.

#[local] Instance ar_fsm_ok : FsmOkAt (ar_fsm rv) (fun _ l r => text_ok p r /\ Forall (json_form p k) l) ar_rank.
Proof using Hrv.
  apply plain_fsm_ok; [intros []; cbn; lia|by intros []| |].
  - intros [] ch l Hi; cbn [body ar_fsm ar_body]; split_goal; done.
  - intros [] l ps f s' Hi Hr Hc Hb; cbn [body ar_fsm ar_body] in Hb; split_body; try done;
      injection Hb as <- <-; (split; [cbn; lia|]); by apply read_element_ok.
Qed.

Lemma read_json_object_yields : yields p (json_form p (S k)) (read_json_object (Some rv)).
Proof using Hrv.
  intros ps Hr. cbn [read_json_object].
  destruct (plain_fsm_run p (ob_fsm rv) ob_good ob_rank ob_init [] ps) as (ps' & l & -> & Hs & Hl); [constructor|done|].
  eexists _, _. split_and!; [done..|by apply some_ok_some].
Qed.

Lemma read_json_array_yields : yields p (json_form p (S k)) (read_json_array (Some rv)).
Proof using Hrv.
  intros ps Hr. cbn [read_json_array].
  destruct (plain_fsm_run p (ar_fsm rv) _ ar_rank ar_init [] ps) as (ps' & l & -> & Hs & Hl); [constructor|done|].
  eexists _, _. split_and!; [done..|by apply some_ok_some].
Qed.

End Containers.

Definition has_value (p : bool) (k : nat) (l : option json) : Prop := exists v, l = Some v /\ json_form p k v.

Definition vl_rank (s : vlstate) : nat := match s with vl_init => 1 | vl_done => 0 end.

Lemma storing_ok p {A} (P : A -> Prop) k f (g : A -> json) l ps :
  yields p P f -> (forall x, P x -> json_form p k (g x)) -> has_value p k l -> text_ok p (rest ps) ->
  exists ps' l', storing f g l ps = Some (ps', l') /\ suffix (rest ps') (rest ps) /\ has_value p k l'.
Proof.
  intros Hf Hg Hl Hr. unfold storing. destruct (Hf ps Hr) as (ps' & [a|] & -> & Hs & Ha);
    (eexists _, _; split_and!; [done..|]); [|done]. exists (g a). split; [done|]. by apply Hg, Ha.
Qed.

Lemma read_bool_yields p : yields p (fun _ => True) read_bool.
Proof.
  intros ps Hr. unfold read_bool, deliver.
  destruct (plain_fsm_run p b_fsm (fun _ => True) _ b_init false ps I Hr) as (ps' & l & -> & Hs & _). by eexists _, _.
Qed.

Lemma read_json_null_or_nan_yields p k : yields p (json_form p k) read_json_null_or_nan.
Proof.
  intros ps Hr. unfold read_json_null_or_nan.
  destruct (plain_fsm_run p z_fsm (fun _ => True) _ z_init nil_res ps I Hr) as (ps' & l & -> & Hs & _).
  eexists _, _. split_and!; [done..|]. destruct (accepted _); [|done]. apply some_ok_some. destruct k, l; exact I.
Qed.

Lemma read_number_yields p : yields p (num_ok p) read_number.
Proof. intros ps [_ Hp]. by apply read_number_ok. Qed.

Lemma json_form_scalar p k v :
  match v with JArray _ | JObject _ => False | _ => json_form p 0 v end -> json_form p k v.
Proof. destruct k, v; done. Qed.

#[local] Instance vl_fsm_ok p k rv :
  yields p (json_form p k) (read_json_object rv) -> yields p (json_form p k) (read_json_array rv) ->
  FsmOkAt (vl_fsm rv) (fun _ l r => text_ok p r /\ has_value p k l) vl_rank.
Proof.
  intros Hob Har. apply plain_fsm_ok; [intros []; cbn; lia|by intros []| |].
  - intros [] ch l Hi; cbn [body vl_fsm vl_body]; split_goal; done.
  - intros [] l ps f s' Hi Hr Hc Hb; cbn [body vl_fsm vl_body] in Hb; split_body; try done;
      injection Hb as <- <-; (split; [cbn; lia|]); (eapply storing_ok; [..|done|done]).
    + apply (read_json_string_yields p).
    + intros x Hx. by apply json_form_scalar.
    + apply read_bool_yields.
    + intros x Hx. by apply json_form_scalar.
    + apply (read_json_null_or_nan_yields p k).
    + done.
    + apply read_number_yields.
    + intros [] Hx; by apply json_form_scalar.
    + done.
    + done.
    + done.
    + done.
Qed.

Lemma too_deep_yields p k :
  yields p (json_form p k) (read_json_object None) /\ yields p (json_form p k) (read_json_array None).
Proof. split; intros ps _; by eexists _, _. Qed.

Lemma read_value_ok p k : value_parser p k (read_value k).
Proof.
  assert (Hv : forall k rv, yields p (json_form p k) (read_json_object rv) -> yields p (json_form p k) (read_json_array rv) ->
    value_parser p k (run_fsm (vl_fsm rv) vl_init (Some JNull))).
  { intros k' rv Hob Har ps Hr. pose proof (vl_fsm_ok p k' rv Hob Har) as Hok.
    destruct (plain_fsm_run p (vl_fsm rv) (has_value p k') vl_rank vl_init (Some JNull) ps) as (ps' & l & H1 & H2 & v & -> & H3);
      [exists JNull; split; [done|by apply json_form_scalar]|done|]. eauto. }
  induction k as [|k IH]; cbn [read_value]; apply Hv; try apply too_deep_yields.
  - by apply read_json_object_yields.
  - by apply read_json_array_yields.
Qed.



(** The overflow is within reach of a short text. *)
Lemma json_exponent_overflow :
  parse (chars "[1.5e-2147483648]") = Some (success, Some (JArray [JUndefined])).
Proof. vm_compute. reflexivity. Qed.

(** ** Where the parser differs from JSON *)

(** A sign without digits is a number, and so are two dots and hexadecimal
    numerals. *)
Lemma json_lenient :
  parse (chars "[-]") = Some (success, Some (JArray [JInteger 0]))
  /\ parse (chars "[0x1F]") = Some (success, Some (JArray [JUnsigned 31]))
  /\ parse (chars "1..5") = parse (chars "1.5").
Proof. vm_compute. done. Qed.

(** The escaped solidus is accepted and turned into a question mark. *)
Lemma json_solidus_lost :
  parse [quote; backslash; chr "/"; quote] = Some (success, Some (JString [chr "?"])).
Proof. vm_compute. done. Qed.

(** Behind a leading surrogate any code point is accepted: the letter A yields
    the code point U+2441. *)
Lemma json_surrogate_unchecked :
  parse (quote :: backslash :: chars "ud800" ++ backslash :: chars "u0041" ++ [quote])
    = Some (success, Some (JString [226; 145; 129])).
Proof. vm_compute. done. Qed.

End Json.
