(* ===== verification/JsonRoundtrip.v ===== *)
(** Printed JSON is read back: what [print_to] writes for a value, with or without
    indentation, is what [parse] reads.  The proofs follow the parser: each
    machine reads the printed form of its part of the value, whatever follows. *)
From Stdlib Require Import Strings.Ascii Strings.String Floats.SpecFloat.
From S2P Require Import Prelude.
From S2P Require Import Fsm.
From S2P Require Import ReadInteger.
From S2P Require Import Printer.
From S2P Require Import ReadNumber.
From S2P Require Import Json.
#[local] Open Scope Z_scope.
#[local] Open Scope caf_scope.

Import Fsm ReadInteger Printer ReadNumber Json.

Module JsonRoundtrip.

(** ** What follows a printed value *)

Definition delimiters : list Z := 10 :: 32 :: chars ",]}".

(** The end of the text, or a delimiter. *)
Definition delim (t : list Z) : Prop := match t with [] => True | c :: _ => in_whitelist delimiters c = true end.

Definition tail_ok (t : list Z) : Prop := delim t /\ all_bytes t.

Definition blank (w : list Z) : Prop := Forall (fun c => c = 10 \/ c = 32) w.

Fixpoint skip_ws (t : list Z) : list Z :=
  match t with
  | c :: r => if in_whitelist whitespace_chars c then skip_ws r else t
  | [] => []
  end.

Lemma delim_cases c : in_whitelist delimiters c = true -> c = 10 \/ c = 32 \/ c = 44 \/ c = 93 \/ c = 125.
Proof.
  rewrite in_whitelist_elem. change delimiters with [10; 32; 44; 93; 125].
  rewrite !elem_of_cons, elem_of_nil. tauto.
Qed.

Lemma delim_nonzero c t : delim (c :: t) -> c <> 0.
Proof. intros H. apply delim_cases in H. lia. Qed.

Lemma blank_ws c : c = 10 \/ c = 32 -> in_whitelist whitespace_chars c = true.
Proof. by intros [-> | ->]. Qed.

Lemma ws_nonzero c : in_whitelist whitespace_chars c = true -> c <> 0.
Proof. by intros H ->. Qed.

Lemma skip_ws_app w t : blank w -> skip_ws (w ++ t) = skip_ws t.
Proof. induction 1 as [|c w Hc _ IH]; [done|]. cbn [app skip_ws]. by rewrite blank_ws. Qed.

Lemma skip_ws_suffix t : suffix (skip_ws t) t.
Proof. induction t as [|c t IH]; [done|]. cbn [skip_ws]. destruct (in_whitelist _ c); [by apply suffix_cons_r|done]. Qed.

Lemma skip_ws_idem t : skip_ws (skip_ws t) = skip_ws t.
Proof. induction t as [|c t IH]; [done|]. cbn [skip_ws]. destruct (in_whitelist _ c) eqn:E; [done|]. cbn [skip_ws]. by rewrite E. Qed.

Lemma accepted_end t : accepted (end_code t) = true.
Proof. destruct t as [|c t]; [done|]. cbn. by destruct (c =? 0). Qed.

#[local] Hint Resolve accepted_end : core.

Section Blanks.
  Context {S L : Type} (m : fsm S L).

(** A terminal state that skips whitespace. *)
Lemma ends_ws_term s l t :
  kind m s = term -> (forall x, body m s x l = if in_whitelist whitespace_chars x then Take s l else Stay) ->
  ends m s l t (end_code (skip_ws t)) l (skip_ws t).
Proof.
  intros Hk Hb. induction t as [|c t IH]; [by apply ends_term|]. cbn [skip_ws].
  destruct (in_whitelist whitespace_chars c) eqn:Hc.
  - eapply ends_take; [by apply ws_nonzero|by rewrite Hb, Hc|done].
  - apply ends_term; [done|]. intros x t' [= <- <-] _. by rewrite Hb, Hc.
Qed.

(** Any state that skips whitespace. *)
Lemma ends_ws_skip s l w t c l' r :
  (forall x, in_whitelist whitespace_chars x = true -> body m s x l = Take s l) -> blank w ->
  ends m s l t c l' r -> ends m s l (w ++ t) c l' r.
Proof.
  intros Hb Hw He. induction Hw as [|x w Hx _ IH]; [done|]. cbn [app].
  apply blank_ws in Hx. eapply ends_take; [by apply ws_nonzero|by apply Hb|done].
Qed.

End Blanks.

(** ** Bytes *)

Lemma bytes_app l t : all_bytes l -> all_bytes t -> all_bytes (l ++ t).
Proof. intros. by apply Forall_app. Qed.

Lemma bool_bytes b : all_bytes (print_bool b).
Proof. apply (bool_decide_eq_true_1 _). by destruct b. Qed.

Lemma null_bytes : all_bytes (chars "null").
Proof. apply (bool_decide_eq_true_1 _). done. Qed.

(** Any text of bytes, if overflowed exponents are accepted. *)
Lemma text_any r : all_bytes r -> text_ok true r.
Proof. by split. Qed.

(** ** Numbers *)

Definition sign_of (neg : bool) : sign := if neg then Neg else Pos.

(** A digit that fits is added or subtracted. *)
Lemma n_digit_take neg x o c t :
  in_whitelist decimal_chars c = true -> 0 <= signed (sign_of neg) x ->
  let x1 := x * 10 + signed (sign_of neg) (ascii_to_int 10 c) in
  in_limits (- 2 ^ 63) (2 ^ 64 - 1) (sign_of neg) x1 = true ->
  n_digit neg 10 (NL x false o) c t = Take t (NL x1 false o).
Proof.
  intros Hc Hx x1 Hl. unfold n_digit. cbn [n_result disabled out]. assert (is_base 10) as Hb by (unfold is_base; lia).
  destruct neg; cbn [sign_of] in *.
  - destruct (signed_action (- 2 ^ 63) (2 ^ 63 - 1) Neg 10 x c (dec Neg)) as (y & Hm & Hy & _); [lia|done..|].
    fold x1 in Hm, Hy. cbn [in_limits] in *. rewrite Hl in Hm, Hy. rewrite (Hy eq_refl) in Hm.
    unfold digit, guarded, checked in *. destruct (sub_ascii _ _ _ _ _) as [[ok z]|]; cbn [fst snd mbind option_bind] in *; try destruct ok; congruence.
  - destruct (add_ascii_spec 10 (2 ^ 64 - 1) x c) as [H1 H2]; [done..|].
    cbn [in_limits signed] in *. fold x1 in H1, H2. rewrite Hl in H1. specialize (H2 (proj1 (Z.leb_le _ _) Hl)).
    unfold guarded, checked. destruct (add_ascii _ _ _ _) as [ok z]; cbn [fst snd mbind option_bind] in *; by subst.
Qed.

Lemma n_dec_reads neg ds x o t :
  decimal ds -> delim t -> 0 <= signed (sign_of neg) x ->
  in_limits (- 2 ^ 63) (2 ^ 64 - 1) (sign_of neg) (value_from (sign_of neg) 10 x ds) = true ->
  ends (n_fsm neg) n_dec (NL x false o) (ds ++ t) (end_code t)
    (NL (value_from (sign_of neg) 10 x ds) false o) t.
Proof.
  intros Hds Ht. revert x. induction Hds as [|c ds Hc Hds IH]; intros x Hx Hl.
  - apply ends_term; [done|]. intros c t' -> _. apply delim_cases in Ht.
    by repeat destruct Ht as [-> | Ht]; [..|subst c].
  - pose proof (digit_nonzero 10 c ltac:(unfold is_base; lia) Hc) as Hc0.
    pose proof (digit_range 10 c ltac:(unfold is_base; lia) Hc) as Hd.
    set (x1 := x * 10 + signed (sign_of neg) (ascii_to_int 10 c)) in *.
    change (value_from (sign_of neg) 10 x (c :: ds)) with (value_from (sign_of neg) 10 x1 ds) in Hl |- *.
    assert (0 <= signed (sign_of neg) x1) by (destruct neg; cbn [sign_of signed] in *; lia).
    assert (Hl1 : in_limits (- 2 ^ 63) (2 ^ 64 - 1) (sign_of neg) x1 = true).
    { destruct (in_limits _ _ _ x1) eqn:E; [done|].
      rewrite (value_from_escapes _ _ _ _ x1 ds) in Hl; [done|unfold is_base; lia|done..]. }
    cbn [app]. eapply ends_take; [done| |by apply (IH x1)].
    cbn [body n_fsm n_body]. rewrite Hc. by apply n_digit_take.
Qed.

Lemma n_start_inv neg r : n_inv_at true neg n_init (NL 0 false None) r.
Proof. split; [done|]. split; [by destruct neg|apply some_ok_none]. Qed.

Lemma read_signed_number_reads neg ds t :
  decimal ds -> ds <> [] -> (hd 0 ds = 48 -> ds = [48]) -> delim t ->
  in_limits (- 2 ^ 63) (2 ^ 64 - 1) (sign_of neg) (signed (sign_of neg) (value 10 ds)) = true ->
  reads (read_signed_number neg None) (ds ++ t) (end_code t)
    (Some (if neg then NInt (- value 10 ds) else NUint (value 10 ds))) t.
Proof.
  intros Hds Hne Hz Ht Hl.
  assert (He : ends (n_fsm neg) n_init (NL 0 false None) (ds ++ t) (end_code t)
    (NL (signed (sign_of neg) (value 10 ds)) false None) t).
  { destruct ds as [|c ds]; [done|]. cbn [app hd] in *. destruct (Z.eqb_spec c 48) as [->|Hc].
    - injection (Hz eq_refl) as ->. cbn [app]. eapply ends_take; [done..|].
      replace (signed (sign_of neg) (value 10 [48])) with 0 by (by destruct neg).
      destruct t as [|x t]; [by apply ends_term|]. pose proof (delim_nonzero x t Ht) as Hx.
      apply delim_cases in Ht.
      eapply (ends_eps _ _ _ _ _ n_oct); [done|by repeat destruct Ht as [-> | Ht]; [..|subst x]|].
      apply ends_term; [done|]. intros y t' [= <- <-] _. by repeat destruct Ht as [-> | Ht]; [..|subst x].
    - rewrite <- value_from_0. pose proof (Forall_inv Hds) as Hd.
      eapply (ends_eps _ _ _ _ _ n_dec).
      + by apply (digit_nonzero 10); [unfold is_base; lia|].
      + cbn [body n_fsm n_body]. rewrite (proj2 (Z.eqb_neq c (chr "0")) Hc).
        destruct (Z.eqb_spec c (chr ".")) as [->|]; [done|done].
      + apply (n_dec_reads neg (c :: ds) 0 None t); [done..|by destruct neg|by rewrite value_from_0]. }
  intros co ln col. destruct (ends_reads_at (n_fsm neg) (n_inv_at true neg) n_rank n_init _ _ _ _ _
    (n_start_inv neg _) He co ln col) as (ln' & col' & Hr).
  exists ln', col'. unfold read_signed_number. rewrite Hr. cbn [disabled code negb andb]. rewrite accepted_end.
  by destruct neg.
Qed.

Lemma m_done_reads o t : delim t -> ends m_fsm m_done o t (end_code t) o t.
Proof. intros Ht. by apply ends_term. Qed.

Lemma read_unsigned_reads z t :
  is_uint 64 z -> delim t -> reads read_number (print_unsigned z ++ t) (end_code t) (Some (NUint z)) t.
Proof.
  intros Hz Ht. unfold is_uint in Hz. destruct (printed_numeral z) as (H1 & H2 & H3 & H4); [lia|]. unfold print_unsigned.
  apply (ends_reads_at m_fsm (fun _ o r => small_unless true r /\ m_inv true o) m_rank); [done|].
  pose proof (read_signed_number_reads false _ t H1 H2 H3 Ht) as Hr. cbn [sign_of signed in_limits] in Hr.
  rewrite H4 in Hr. specialize (Hr ltac:(apply Z.leb_le; lia)).
  destruct (rev (stack_digits 24 z)) as [|c ds] eqn:E; [done|]. pose proof (Forall_inv H1) as Hc. cbn [app] in *.
  eapply ends_sub; [|  |exact Hr|done|by apply m_done_reads].
  - by apply (digit_nonzero 10); [unfold is_base; lia|].
  - destruct (decimal_plain c Hc) as (Ha & Hb & Hd). cbn [body m_fsm m_body]. rewrite Ha, Hb, Hd.
    destruct (Z.eqb_spec c (chr ".")) as [->|]; done.
Qed.

Lemma print_negative z : is_sint 64 z -> z < 0 -> print_signed 64 z = chr "-" :: rev (stack_digits 24 (- z)).
Proof.
  intros Hz Hn. unfold print_signed. destruct (Z.eqb_spec z (- 2 ^ (64 - 1))) as [->|]; [by vm_compute|].
  by rewrite (proj2 (Z.ltb_lt z 0) Hn).
Qed.

Lemma read_negative_reads z t :
  is_sint 64 z -> z < 0 -> delim t -> reads read_number (print_signed 64 z ++ t) (end_code t) (Some (NInt z)) t.
Proof.
  intros Hz Hn Ht. rewrite print_negative by done. unfold is_sint in Hz.
  destruct (printed_numeral (- z)) as (H1 & H2 & H3 & H4); [lia|].
  apply (ends_reads_at m_fsm (fun _ o r => small_unless true r /\ m_inv true o) m_rank); [done|].
  pose proof (read_signed_number_reads true _ t H1 H2 H3 Ht) as Hr. cbn [sign_of signed in_limits] in Hr.
  rewrite H4, Z.opp_involutive in Hr. specialize (Hr ltac:(apply Z.leb_le; lia)). cbn [app].
  eapply ends_sub; [done|done| |by apply accepted_end|by apply m_done_reads].
  by apply (reads_behind read_negative_number).
Qed.

(** ** Strings *)

(** The three forms in which a character is printed. *)
Definition char_form (c : Z) : bool :=
  match print_escaped_to c with
  | [x] => (x =? c) && negb (c =? backslash) && negb (c =? quote) && negb (c =? 0)
  | [b; e] => (b =? backslash) && in_whitelist (quote :: backslash :: chars "/bfnrtv") e && (unescaped e =? c)
  | [b; u; p; q; x; y] =>
      (b =? backslash) && (u =? chr "u") && forallb (in_whitelist hexadecimal_chars) [p; q; x; y]
        && (hex4 p q x y =? c) && (c <=? 127)
  | _ => false
  end.

Lemma char_forms : forall_byteb char_form = true.
Proof. vm_compute. reflexivity. Qed.

Inductive printed_as (c : Z) : list Z -> Prop :=
  | as_itself : c <> backslash -> c <> quote -> c <> 0 -> printed_as c [c]
  | as_short e : in_whitelist (quote :: backslash :: chars "/bfnrtv") e = true -> unescaped e = c ->
      printed_as c [backslash; e]
  | as_code p q x y : hex_digits [p; q; x; y] -> hex4 p q x y = c -> c <= 127 ->
      printed_as c [backslash; chr "u"; p; q; x; y].

Lemma printed_char c : is_byte c -> printed_as c (print_escaped_to c).
Proof.
  intros Hc. pose proof (forall_byteb_spec _ _ char_forms Hc) as H. unfold char_form in H.
  destruct (print_escaped_to c) as [|b [|e [|p [|q [|x [|y [|]]]]]]]; try done; reflect_bools; subst.
  - by constructor.
  - by constructor.
  - constructor; [|done..]. apply List.Forall_forall. by apply forallb_forall.
Qed.

(** Unescaping undoes the printing. *)
Lemma unescape_printed s n :
  all_bytes s -> (length (escaped_body s) < n)%nat -> do_unescape n (escaped_body s) = Some s.
Proof.
  intros Hs. revert n. induction Hs as [|c s Hc _ IH]; intros [|n] Hn; try lia; [done|].
  unfold escaped_body in *. cbn [flat_map] in *. rewrite length_app in Hn.
  destruct (printed_char c Hc) as [H1 H2 H3|e H1 H2|p q x y H1 H2 H3]; cbn [app length] in Hn |- *; cbn [do_unescape].
  - by rewrite (proj2 (Z.eqb_neq _ _) H1), IH by lia.
  - destruct (Z.eqb_spec e (chr "u")) as [->|]; [done|]. by rewrite Z.eqb_refl, IH, H2 by lia.
  - rewrite !Z.eqb_refl. cbn [read_4len_hex]. rewrite H2, uwrap_id by (unfold is_uint, is_byte in *; lia).
    unfold is_leading_surrogate, is_byte in *. rewrite (proj2 (Z.leb_gt _ c)) by lia. cbn [andb].
    unfold utf32_to_utf8. rewrite (proj2 (Z.leb_le c _)) by lia. by rewrite IH by lia.
Qed.

Lemma escaped_length s : (length s <= length (escaped_body s))%nat.
Proof.
  unfold escaped_body. induction s as [|c s IH]; [done|]. cbn [flat_map length]. rewrite length_app.
  assert (1 <= length (print_escaped_to c))%nat; [|lia].
  unfold print_escaped_to. repeat case_match; cbn; lia.
Qed.

(** Whether a string is printed with an escape. *)
Definition has_escape (s : list Z) : bool := existsb (fun c => (1 <? length (print_escaped_to c))%nat) s.

Lemma escaped_plain s : all_bytes s -> has_escape s = false -> escaped_body s = s.
Proof.
  unfold escaped_body. induction 1 as [|c s Hc _ IH]; [done|]. cbn [has_escape existsb flat_map].
  intros [H1 H2]%orb_false_iff. destruct (printed_char c Hc); try done. by rewrite IH.
Qed.

Lemma read_code_point_reads p q x y t :
  hex_digits [p; q; x; y] ->
  reads (run_fsm c_fsm c_init 0) (chr "u" :: p :: q :: x :: y :: t) (end_code t) (uwrap 16 (hex4 p q x y)) t.
Proof.
  intros Hx. pose proof Hx as Hd. unfold hex_digits in Hd. rewrite !Forall_cons in Hd. destruct Hd as (Hp & Hq & H1 & H2 & _).
  rewrite <- hex_step_4 by done. eapply ends_reads_at; [apply fsm_runs, c_fsm_ok|by split|].
  assert (Hnz : forall c, in_whitelist hexadecimal_chars c = true -> c <> 0).
  { intros c. apply (digit_nonzero 16). unfold is_base. lia. }
  eapply ends_take; [done|done|].
  do 4 (eapply ends_take; [by apply Hnz|cbn [body c_fsm c_body]; rewrite ?Hp, ?Hq, ?H1, ?H2; done|]).
  by apply ends_term.
Qed.

Definition string_state (escaped : bool) : jsstate := if escaped then js_after_escape else js_read_chars.

(** The machine walks over the printed characters. *)
Lemma js_reads_body s esc f cp :
  all_bytes s ->
  exists cp', forall t c l' r,
    ends js_fsm (string_state (esc || has_escape s)) (JS f cp' None false) t c l' r ->
    ends js_fsm (string_state esc) (JS f cp None false) (escaped_body s ++ t) c l' r.
Proof.
  intros Hs. revert esc cp. induction Hs as [|x s Hx _ IH]; intros esc cp.
  { exists cp. intros t c l' r. cbn. by rewrite orb_false_r. }
  unfold escaped_body in *. cbn [flat_map has_escape existsb].
  destruct (printed_char x Hx) as [H1 H2 H3|e H1 H2|p q y z H1 H2 H3]; cbn [app length Nat.ltb Nat.leb orb].
  - destruct (IH esc cp) as [cp' He]. exists cp'. intros t c l' r Ht. cbn [app].
    eapply (ends_take _ _ _ _ _ (string_state esc)); [done| |by apply He].
    destruct esc; cbn [body js_fsm js_body string_state];
      by rewrite (proj2 (Z.eqb_neq _ _) H1), (proj2 (Z.eqb_neq _ _) H2).
  - destruct (IH true cp) as [cp' He]. exists cp'. intros t c l' r Ht. rewrite orb_true_r in Ht. cbn [app].
    eapply (ends_take _ _ _ _ _ js_escape); [done|by destruct esc|].
    eapply (ends_take _ _ _ _ _ js_after_escape); [by intros ->|by cbn [body js_fsm js_body]; rewrite H1|].
    by apply (He t).
  - destruct (IH true (uwrap 16 (hex4 p q y z))) as [cp' He]. exists cp'. intros t c l' r Ht.
    rewrite orb_true_r in Ht. cbn [app].
    eapply (ends_take _ _ _ _ _ js_escape); [done|by destruct esc|].
    eapply (ends_sub _ _ _ _ _ _ js_after_code_point (end_code (flat_map print_escaped_to s ++ t))
      (JS f (uwrap 16 (hex4 p q y z)) None false)); [done|done| |done|].
    { intros co ln col. unfold call_code_point.
      destruct (read_code_point_reads p q y z (flat_map print_escaped_to s ++ t) H1 co ln col) as (ln' & col' & ->).
      exists ln', col'. cbn [code andb]. by rewrite accepted_end. }
    eapply (ends_eps_unstable _ _ _ _ js_after_escape); [done| |by apply (He t)].
    cbn [body js_fsm js_body code_point]. rewrite H2, uwrap_id by (unfold is_uint, is_byte in *; lia).
    unfold is_leading_surrogate. by rewrite (proj2 (Z.leb_gt _ x)) by lia.
Qed.

Lemma read_string_reads s t :
  all_bytes s -> all_bytes (print_escaped s ++ t) ->
  reads read_json_string (print_escaped s ++ t) (end_code (skip_ws t)) (Some s) (skip_ws t).
Proof.
  intros Hs Hb.
  set (f := escaped_body s ++ quote :: t). set (esc := has_escape s).
  destruct (js_reads_body s false f 0 Hs) as [cp' Hbody]. cbn [orb] in Hbody. fold esc in Hbody.
  assert (Ha : assign_value esc (JS f cp' None false) (quote :: t) = JS f cp' (Some s) false).
  { unfold assign_value. cbn [first code_point str_out str_bad]. unfold f. rewrite raw_string_app.
    destruct esc eqn:He.
    - unfold unescape. rewrite unescape_printed by (done || lia). cbn [orb].
      by rewrite (proj2 (Nat.ltb_ge _ _) (escaped_length s)).
    - by rewrite escaped_plain. }
  assert (Hend : ends js_fsm js_init (JS [] 0 None false) (print_escaped s ++ t) (end_code (skip_ws t))
    (JS f cp' (Some s) false) (skip_ws t)).
  { unfold print_escaped. cbn [app]. rewrite <- app_assoc. eapply ends_mark; [done|done|].
    cbn [tl]. apply (Hbody ([quote] ++ t)). cbn [app].
    apply (ends_mark _ _ _ _ _ js_done (assign_value esc (JS f cp' None false))); [done|by destruct esc|].
    rewrite Ha. by apply ends_ws_term. }
  intros co ln col. destruct (ends_reads_at js_fsm js_inv js_rank js_init _ _ _ _ _
    (js_start_inv _ Hb) Hend co ln col) as (ln' & col' & Hr).
  exists ln', col'. unfold read_json_string. by rewrite Hr.
Qed.

(** ** Literals *)

Lemma read_bool_reads b t : delim t -> all_bytes t -> reads read_bool (print_bool b ++ t) (end_code t) (Some b) t.
Proof.
  intros Ht Hb co ln col. unfold read_bool, deliver.
  assert (He : ends b_fsm b_init false (print_bool b ++ t) (end_code t) b t).
  { destruct b; cbn -[end_code]; repeat (eapply ends_take; [done|done|]); by apply ends_term. }
  destruct (ends_reads_at b_fsm _ _ b_init false _ _ _ _ (conj (text_any _ (bytes_app _ _ (bool_bytes b) Hb)) I) He co ln col)
    as (ln' & col' & ->).
  exists ln', col'. cbn [code]. by rewrite accepted_end.
Qed.

Lemma read_null_reads t :
  all_bytes t -> reads read_json_null_or_nan (chars "null" ++ t) (end_code (skip_ws t)) (Some JNull) (skip_ws t).
Proof.
  intros Hb co ln col. unfold read_json_null_or_nan.
  assert (He : ends z_fsm z_init nil_res (chars "null" ++ t) (end_code (skip_ws t)) is_null (skip_ws t)).
  { cbn -[end_code]. repeat (eapply ends_take; [done|done|]). by apply ends_ws_term. }
  destruct (ends_reads_at z_fsm _ _ z_init nil_res _ _ _ _ (conj (text_any _ (bytes_app _ _ null_bytes Hb)) I) He co ln col)
    as (ln' & col' & ->).
  exists ln', col'. cbn [code]. by rewrite accepted_end.
Qed.

(** ** Lists between brackets *)

Lemma print_items_form ind off open close x r :
  exists w0 w w1, blank w0 /\ blank w /\ blank w1 /\
    print_items ind off open close (x :: r)
      = open :: w0 ++ x ++ flat_map (fun y => chr "," :: w ++ y) r ++ w1 ++ [close].
Proof.
  assert (Hnl : forall n, blank (print_nl_to n)).
  { intros n. constructor; [by left|]. apply Forall_replicate. by right. }
  unfold print_items. destruct (ind =? 0)%nat.
  - exists [], [32], []. split_and!; [constructor|by constructor; [right|]|constructor|done].
  - by exists (print_nl_to (ind + off)), (print_nl_to (ind + off)), (print_nl_to off).
Qed.

(** The part of a machine that reads a list: the states behind the opening
    bracket, behind an item, behind a comma and behind the closing bracket. *)
Record ListMachine {S A} (m : fsm S (list A)) (op af co dn : S) (close : Z) (start : Z -> bool)
    (f : list A -> parser_state -> option (parser_state * list A)) : Prop := {
  op_ws x l : in_whitelist whitespace_chars x = true -> body m op x l = Take op l;
  op_item x l : start x = true -> body m op x l = Sub f af;
  op_close l : body m op close l = Take dn l;
  af_comma l : body m af (chr ",") l = Take co l;
  af_close l : body m af close l = Take dn l;
  co_ws x l : in_whitelist whitespace_chars x = true -> body m co x l = Take co l;
  co_item x l : start x = true -> body m co x l = Sub f af;
  dn_kind : kind m dn = term;
  dn_body x l : body m dn x l = if in_whitelist whitespace_chars x then Take dn l else Stay;
  close_ok : close = chr "]" \/ close = chr "}";
  start_ok_at x : start x = true -> x <> 0;
}.

Arguments op_ws {S A m op af co dn close start f}.
Arguments op_item {S A m op af co dn close start f}.
Arguments op_close {S A m op af co dn close start f}.
Arguments af_comma {S A m op af co dn close start f}.
Arguments af_close {S A m op af co dn close start f}.
Arguments co_ws {S A m op af co dn close start f}.
Arguments co_item {S A m op af co dn close start f}.
Arguments dn_kind {S A m op af co dn close start f}.
Arguments dn_body {S A m op af co dn close start f}.
Arguments close_ok {S A m op af co dn close start f}.
Arguments start_ok_at {S A m op af co dn close start f}.

Section Items.
  Context {S A : Type} (m : fsm S (list A)) (op af co dn : S) (close : Z) (start : Z -> bool)
    (f : list A -> parser_state -> option (parser_state * list A))
    (Hm : ListMachine m op af co dn close start f).

(** The text of an item and what the call makes of it. *)
Definition item_ok (p : list Z) (a : A) : Prop :=
  (exists c p', p = c :: p' /\ start c = true) /\ all_bytes p /\
  forall l t, tail_ok t -> reads (f l) (p ++ t) (end_code (skip_ws t)) (l ++ [a]) (skip_ws t).

Lemma close_cons w t :
  blank w -> all_bytes t -> tail_ok (w ++ close :: t) /\ skip_ws (w ++ close :: t) = close :: t.
Proof using Hm.
  intros Hw Ht. split.
  - split.
    + destruct Hw as [|c w [-> | ->] _]; [|done..]. by destruct (close_ok Hm) as [-> | ->].
    + apply bytes_app; [|constructor; [|done]].
      * eapply Forall_impl; [exact Hw|]. intros c [-> | ->]; unfold is_byte; lia.
      * destruct (close_ok Hm) as [-> | ->]; done.
  - rewrite skip_ws_app by done. by destruct (close_ok Hm) as [-> | ->].
Qed.

Lemma blank_bytes w : blank w -> all_bytes w.
Proof. intros Hw. eapply Forall_impl; [exact Hw|]. intros c [-> | ->]; unfold is_byte; lia. Qed.

Lemma tail_items w w1 ps xs t :
  blank w -> blank w1 -> Forall2 item_ok ps xs -> all_bytes t ->
  tail_ok (flat_map (fun y => chr "," :: w ++ y) ps ++ w1 ++ close :: t).
Proof using Hm.
  intros Hw Hw1 Hps Ht. destruct (close_cons w1 t Hw1 Ht) as [[Hd Hb] _].
  split; [by destruct Hps|]. apply bytes_app; [|done]. clear Hd Hb.
  induction Hps as [|p a ps xs (_ & Hp & _) _ IH]; [constructor|]. cbn [flat_map].
  constructor; [done|]. apply bytes_app; [|done]. apply bytes_app; [by apply blank_bytes|done].
Qed.

Lemma item_step s l p a t c l' r :
  (forall x, start x = true -> body m s x l = Sub f af) -> item_ok p a -> tail_ok t ->
  ends m af (l ++ [a]) (skip_ws t) c l' r -> ends m s l (p ++ t) c l' r.
Proof using Hm.
  intros Hs ((x & p' & -> & Hx) & _ & Hr) Ht He. cbn [app].
  eapply ends_sub; [by apply (start_ok_at Hm)|by apply Hs|by apply (Hr l t)|done|done].
Qed.

Lemma items_after w w1 ps xs l t :
  blank w -> blank w1 -> Forall2 item_ok ps xs -> all_bytes t ->
  ends m af l (skip_ws (flat_map (fun y => chr "," :: w ++ y) ps ++ w1 ++ close :: t))
    (end_code (skip_ws t)) (l ++ xs) (skip_ws t).
Proof using Hm.
  intros Hw Hw1 Hps Ht. revert l. induction Hps as [|p a ps xs Hp Hps IH]; intros l.
  - cbn [flat_map app]. rewrite (proj2 (close_cons w1 t Hw1 Ht)), app_nil_r.
    eapply ends_take; [by destruct (close_ok Hm) as [-> | ->]|apply (af_close Hm)|].
    apply ends_ws_term; [apply (dn_kind Hm)|]. intros x. apply (dn_body Hm).
  - cbn [flat_map app]. change (skip_ws (chr "," :: ?u)) with (chr "," :: u).
    eapply ends_take; [done|apply (af_comma Hm)|]. rewrite <- !app_assoc.
    apply ends_ws_skip; [intros; by apply (co_ws Hm)|done|].
    eapply item_step; [intros; by apply (co_item Hm)|done|by eapply tail_items|].
    rewrite (app_assoc l [a] xs : l ++ a :: xs = _). apply IH.
Qed.

(** The machine behind the opening bracket, for any layout of the items. *)
Lemma items_open ind off open ps xs t :
  Forall2 item_ok ps xs -> all_bytes t ->
  exists p, print_items ind off open close ps = open :: p /\ 
    ends m op [] (p ++ t) (end_code (skip_ws t)) xs (skip_ws t).
Proof using Hm.
  intros Hps Ht. destruct Hps as [|p a ps xs Hp Hps].
  - exists [close]. split; [done|]. cbn [app].
    eapply ends_take; [by destruct (close_ok Hm) as [-> | ->]|apply (op_close Hm)|].
    apply ends_ws_term; [apply (dn_kind Hm)|]. intros x. apply (dn_body Hm).
  - destruct (print_items_form ind off open close p ps) as (w0 & w & w1 & Hw0 & Hw & Hw1 & ->).
    eexists. split; [done|]. rewrite <- !app_assoc. cbn [app].
    apply ends_ws_skip; [intros; by apply (op_ws Hm)|done|].
    eapply item_step; [intros; by apply (op_item Hm)|done|by eapply tail_items|].
    cbn [app]. apply (items_after w w1 ps xs [a]); done.
Qed.

End Items.

(** ** Values *)

(** Values without floating point numbers, which are printed with six decimal
    places only. *)
Fixpoint whole (v : json) : bool :=
  match v with
  | JDouble _ => false
  | JArray l => forallb whole l
  | JObject l => forallb (fun kv => whole kv.2) l
  | _ => true
  end.

(** The parser reads integers that are not negative as unsigned numbers. *)
Fixpoint canon (v : json) : json :=
  match v with
  | JInteger z => if z <? 0 then v else JUnsigned z
  | JArray l => JArray (map canon l)
  | JObject l => JObject (map (fun kv => (kv.1, canon kv.2)) l)
  | JUndefined => JNull
  | _ => v
  end.

(** The characters with which a printed value starts. *)
Definition value_starts : list Z := quote :: chars "ftn-0123456789{[".

Definition value_start (c : Z) : bool := in_whitelist value_starts c.

Lemma digits_head x : 0 <= x < 10 ^ 24 ->
  exists c r, rev (stack_digits 24 x) = c :: r /\ in_whitelist decimal_chars c = true.
Proof.
  intros Hx. destruct (printed_numeral x Hx) as (H1 & H2 & _).
  destruct (rev (stack_digits 24 x)) as [|c r]; [done|]. exists c, r. split; [done|]. by apply Forall_inv in H1.
Qed.

Lemma decimal_bytes ds : decimal ds -> all_bytes ds.
Proof.
  intros H. eapply Forall_impl; [exact H|]. intros c Hc. apply is_byteb_spec.
  by apply (class_check decimal_chars is_byteb c).
Qed.

Lemma print_integer_cases z :
  is_sint 64 z ->
  (z < 0 /\ print_signed 64 z = chr "-" :: rev (stack_digits 24 (- z))) \/ (0 <= z /\ print_signed 64 z = print_unsigned z).
Proof.
  intros Hz. destruct (Z.ltb_spec z 0) as [Hn|Hn]; [left|right]; (split; [done|]); [by apply print_negative|].
  unfold print_signed, print_unsigned. rewrite (proj2 (Z.eqb_neq z _)) by lia. by rewrite (proj2 (Z.ltb_ge z 0)).
Qed.

Lemma escaped_bytes s : all_bytes s -> all_bytes (print_escaped s).
Proof.
  intros Hs. unfold print_escaped. constructor; [done|]. apply bytes_app; [|by constructor].
  unfold escaped_body. induction Hs as [|c s Hc _ IH]; [constructor|]. cbn [flat_map]. apply bytes_app; [|done].
  destruct (printed_char c Hc) as [H1 H2 H3|e H1 H2|p q x y H1 H2 H3].
  - by constructor.
  - repeat constructor; try done; apply is_byteb_spec;
      by apply (class_check (quote :: backslash :: chars "/bfnrtv") is_byteb e).
  - constructor; [done|]. constructor; [done|]. eapply Forall_impl; [exact H1|]. intros c' Hc'. apply is_byteb_spec.
    by apply (class_check hexadecimal_chars is_byteb c').
Qed.

Lemma print_items_bytes ind off open close ps :
  is_byte open -> is_byte close -> Forall all_bytes ps -> all_bytes (print_items ind off open close ps).
Proof.
  intros Ho Hc Hps. destruct Hps as [|p ps Hp Hps]; [by constructor; [|constructor]|].
  destruct (print_items_form ind off open close p ps) as (w0 & w & w1 & Hw0 & Hw & Hw1 & ->).
  constructor; [done|]. repeat apply bytes_app; try (by apply blank_bytes); [done| |by constructor].
  clear Hw0 Hw1. induction Hps as [|q ps Hq _ IH]; [constructor|]. cbn [flat_map].
  constructor; [done|]. repeat apply bytes_app; [by apply blank_bytes|done|done].
Qed.

Lemma print_unsigned_shape z :
  is_uint 64 z -> all_bytes (print_unsigned z) /\ exists c r, print_unsigned z = c :: r /\ value_start c = true.
Proof.
  intros Hz. unfold is_uint in Hz. unfold print_unsigned. split; [apply decimal_bytes; by apply printed_numeral; lia|].
  destruct (digits_head z) as (c & r & -> & Hc); [lia|]. exists c, r. split; [done|].
  by apply (class_check decimal_chars value_start c).
Qed.

Lemma print_integer_shape z :
  is_sint 64 z -> all_bytes (print_signed 64 z) /\ exists c r, print_signed 64 z = c :: r /\ value_start c = true.
Proof.
  intros Hz. destruct (print_integer_cases z Hz) as [[Hn ->]|[Hn ->]].
  - unfold is_sint in Hz. split; [|by eexists _, _]. constructor; [done|]. apply decimal_bytes.
    by apply printed_numeral; lia.
  - apply print_unsigned_shape. unfold is_sint, is_uint in *. lia.
Qed.

Lemma print_items_head ind off open close ps : exists p, print_items ind off open close ps = open :: p.
Proof. destruct ps as [|x r]; [by eexists|]. cbn. by destruct (ind =? 0)%nat; eexists. Qed.

(** The text of a value: a first character that starts a value, and bytes. *)
Lemma print_shape k v ind off :
  json_ok k v -> whole v = true ->
  all_bytes (print_to ind off v) /\ exists c r, print_to ind off v = c :: r /\ value_start c = true.
Proof.
  revert v off. induction k as [|k IH]; intros v off Hv Hw;
    (destruct v as [|z|z|d|b|s|l|l|]; [by split; [apply null_bytes|eexists _, _]|..]); cbn [json_form] in Hv; try done.
  all: try (by split; [apply bool_bytes|destruct b; eexists _, _]).
  all: try (by split; [apply escaped_bytes|eexists _, _]).
  all: try (by apply print_integer_shape).
  all: try (by apply print_unsigned_shape).
  - cbn [print_to whole] in *. split; [|by destruct l; cbn; [|case_match]; eexists _, _].
    apply print_items_bytes; [done..|]. apply Forall_map. rewrite forallb_forall in Hw.
    apply List.Forall_forall. intros v Hin. rewrite List.Forall_forall in Hv. by apply IH; [apply Hv|apply Hw].
  - cbn [print_to whole] in *. split; [|by destruct l; cbn; [|case_match]; eexists _, _].
    apply print_items_bytes; [done..|]. apply Forall_map. rewrite forallb_forall in Hw.
    apply List.Forall_forall. intros [key v] Hin. rewrite List.Forall_forall in Hv. destruct (Hv _ Hin) as [Hk Hvv].
    cbn [fst snd]. apply bytes_app; [by apply escaped_bytes|].
    apply bytes_app; [by apply (bool_decide_eq_true_1 _)|]. by apply IH; [|apply (Hw _ Hin)].
Qed.

Lemma storing_reads {A} (f : parser_state -> option (parser_state * option A)) (g : A -> json) l t c x r :
  reads f t c (Some x) r -> reads (storing f g l) t c (Some (g x)) r.
Proof.
  intros Hf co ln col. destruct (Hf co ln col) as (ln' & col' & Hr). exists ln', col'. unfold storing. by rewrite Hr.
Qed.

(** One value, behind blanks and in front of a delimiter. *)
Lemma vl_reads {A} rv (f : parser_state -> option (parser_state * option A)) (g : A -> json) w c p t c1 x t1 :
  blank w -> value_start c = true -> body (vl_fsm rv) vl_init c (Some JNull) = Sub (storing f g) vl_done ->
  reads f ((c :: p) ++ t) c1 (Some x) t1 -> accepted c1 = true -> skip_ws t1 = skip_ws t ->
  ends (vl_fsm rv) vl_init (Some JNull) (w ++ (c :: p) ++ t) (end_code (skip_ws t)) (Some (g x)) (skip_ws t).
Proof.
  intros Hw Hc Hb Hf Ha Hs. apply ends_ws_skip; [|done|].
  { intros y Hy. cbn [body vl_fsm vl_body]. by rewrite Hy. }
  cbn [app]. eapply ends_sub; [by intros ->|exact Hb|by apply storing_reads|done|].
  rewrite <- Hs. by apply ends_ws_term.
Qed.

(** What [read_value] does with a printed value; the parser of the level below is
    a parameter. *)
Definition reads_values (k : nat) (rv : vparser) : Prop :=
  forall v ind off w t, json_ok k v -> whole v = true -> blank w -> tail_ok t ->
    reads rv (w ++ print_to ind off v ++ t) (end_code (skip_ws t)) (Some (canon v)) (skip_ws t).

Lemma ar_machine rv :
  ListMachine (ar_fsm rv) ar_has_open_brace after_value ar_after_comma ar_done (chr "]") value_start (read_element rv).
Proof.
  split; try done; try (by left).
  - intros x l Hx. cbn [body ar_fsm ar_body]. by rewrite Hx.
  - intros x l Hx. cbn [body ar_fsm ar_body].
    pose proof (class_check value_starts (fun x => negb (in_whitelist whitespace_chars x) && negb (x =? chr "]")) x eq_refl Hx) as H.
    cbn beta in H. reflect_bools. by rewrite H, (proj2 (Z.eqb_neq _ _) H0).
  - intros x l Hx. cbn [body ar_fsm ar_body]. by rewrite Hx.
  - intros x l Hx. cbn [body ar_fsm ar_body].
    pose proof (class_check value_starts (fun x => negb (in_whitelist whitespace_chars x)) x eq_refl Hx) as H.
    cbn beta in H. reflect_bools. by rewrite H.
  - by intros x Hx ->.
Qed.

Definition is_quote (c : Z) : bool := c =? quote.

Lemma ob_machine rv :
  ListMachine (ob_fsm rv) ob_has_open_brace after_member ob_after_comma ob_done (chr "}") is_quote (read_member rv).
Proof.
  split; try done; try (by right).
  - intros x l Hx. cbn [body ob_fsm ob_body]. by rewrite Hx.
  - intros x l Hx. apply Z.eqb_eq in Hx as ->. done.
  - intros x l Hx. cbn [body ob_fsm ob_body]. by rewrite Hx.
  - intros x l Hx. apply Z.eqb_eq in Hx as ->. done.
  - intros x Hx. by apply Z.eqb_eq in Hx as ->.
Qed.

Lemma Forall2_maps {A B C} (R : B -> C -> Prop) (f : A -> B) (g : A -> C) l :
  Forall (fun x => R (f x) (g x)) l -> Forall2 R (map f l) (map g l).
Proof. by induction 1; constructor. Qed.

Lemma number_ends rv z w t :
  is_uint 64 z -> blank w -> delim t ->
  ends (vl_fsm rv) vl_init (Some JNull) (w ++ print_unsigned z ++ t) (end_code (skip_ws t)) (Some (JUnsigned z)) (skip_ws t).
Proof.
  intros Hz Hw Ht. pose proof (read_unsigned_reads z t Hz Ht) as Hr. unfold print_unsigned in *.
  destruct (digits_head z) as (c & r & Hx & Hc); [unfold is_uint in Hz; lia|]. rewrite Hx in *.
  eapply (vl_reads rv read_number of_number w c r t _ (NUint z) t Hw); [|  |exact Hr|done..].
  - by apply (class_check decimal_chars value_start c).
  - cbn [body vl_fsm vl_body].
    pose proof (class_check decimal_chars (fun x => negb (in_whitelist whitespace_chars x) && negb (x =? quote)
      && negb (in_whitelist (chars "ft") x) && negb (in_whitelist (chars "n") x)
      && in_whitelist (chars "+-.0123456789") x) c eq_refl Hc) as H. cbn beta in H.
    apply andb_prop in H as [[[[H1 H2]%andb_prop H3]%andb_prop H4]%andb_prop H5].
    apply negb_true_iff in H1, H2, H3, H4. by rewrite H1, H2, H3, H4, H5.
Qed.

Section Levels.
  Context (k : nat) (rv : vparser) (Hok : value_parser true k rv) (Hrv : reads_values k rv).

Lemma element_ok v ind off :
  json_ok k v -> whole v = true -> item_ok value_start (read_element rv) (print_to ind off v) (canon v).
Proof using Hrv.
  intros Hv Hw. destruct (print_shape k v ind off Hv Hw) as [Hb Hs]. split_and!; [done..|].
  intros l t Ht co ln col. destruct (Hrv v ind off [] t Hv Hw ltac:(constructor) Ht co ln col) as (ln' & col' & Hr).
  exists ln', col'. unfold read_element. cbn [app] in Hr. by rewrite Hr.
Qed.

Lemma member_ok key v ind off :
  all_bytes key -> json_ok k v -> whole v = true ->
  item_ok is_quote (read_member rv) (print_escaped key ++ chars ": " ++ print_to ind off v) (key, canon v).
Proof using Hrv Hok.
  intros Hk Hv Hw. destruct (print_shape k v ind off Hv Hw) as [Hb Hs].
  assert (Hall : all_bytes (chars ": " ++ print_to ind off v)).
  { apply bytes_app; [by apply (bool_decide_eq_true_1 _)|done]. }
  split_and!; [by eexists _, _|by apply bytes_app; [apply escaped_bytes|]|].
  intros l t Ht. set (text := print_escaped key ++ chars ": " ++ print_to ind off v).
  assert (Htext : all_bytes (text ++ t)).
  { apply bytes_app; [by apply bytes_app; [apply escaped_bytes|]|apply Ht]. }
  assert (He : ends (mb_fsm rv) mb_init (MB [] None) (text ++ t) (end_code (skip_ws t)) (MB key (Some (canon v))) (skip_ws t)).
  { unfold text in *. rewrite <- !app_assoc in *. unfold print_escaped at 1. cbn [app].
    eapply (ends_sub _ _ _ _ _ mb_read_key after_key trailing_character (MB key None)); [done|done| |done|].
    - intros co ln col. unfold mb_read_key.
      destruct (read_string_reads key (chars ": " ++ print_to ind off v ++ t) Hk Htext co ln col) as (ln' & col' & Hr).
      exists ln', col'. unfold print_escaped in Hr. cbn [app] in Hr. rewrite Hr. done.
    - change (skip_ws (chars ": " ++ ?u)) with (chr ":" :: 32 :: u).
      eapply (ends_sub _ _ _ _ _ (behind (mb_read_val rv)) mb_done); [done|done| |by apply accepted_end|].
      + apply reads_behind. intros co ln col.
        destruct (Hrv v ind off [32] t Hv Hw ltac:(by constructor; [right|]) Ht co ln col) as (ln' & col' & Hr).
        exists ln', col'. unfold mb_read_val. cbn [app] in Hr. rewrite Hr. done.
      + rewrite <- (skip_ws_idem t) at 2 3. by apply ends_ws_term. }
  intros co ln col. pose proof (mb_fsm_ok true k rv Hok) as Hmb.
  destruct (ends_reads_at (mb_fsm rv) _ mb_rank mb_init _ _ _ _ _ (conj (text_any _ Htext) (mb_start_good true k)) He co ln col)
    as (ln' & col' & Hr).
  exists ln', col'. unfold read_member. by rewrite Hr.
Qed.

Lemma array_reads l ind off t :
  json_ok (S k) (JArray l) -> whole (JArray l) = true -> tail_ok t ->
  reads (read_json_array (Some rv)) (print_to ind off (JArray l) ++ t) (end_code (skip_ws t))
    (Some (canon (JArray l))) (skip_ws t).
Proof using Hrv Hok.
  intros Hv Hw Ht. pose proof (print_shape (S k) _ ind off Hv Hw) as [Hb _].
  cbn [json_form whole print_to canon] in *. rewrite forallb_forall in Hw.
  set (o := if (ind =? 0)%nat then 0%nat else (ind + off)%nat) in *.
  destruct (items_open _ _ _ _ _ _ _ _ (ar_machine rv) ind off (chr "[") (map (print_to ind o) l) (map canon l) t)
    as (p & Hp & He).
  { apply Forall2_maps, List.Forall_forall. intros v Hin. rewrite List.Forall_forall in Hv.
    by apply element_ok; [apply Hv|apply Hw]. }
  { apply Ht. }
  rewrite Hp in *. intros co ln col. cbn [read_json_array app].
  pose proof (ar_fsm_ok true k rv Hok) as Har. inversion Hb as [|? ? _ Hbp]; subst.
  assert (He' : ends (ar_fsm rv) ar_init [] (chr "[" :: p ++ t) (end_code (skip_ws t)) (map canon l) (skip_ws t))
    by (by eapply ends_take).
  destruct (ends_reads_at (ar_fsm rv) _ ar_rank ar_init [] _ _ _ _
    (conj (text_any _ (bytes_app (chr "[" :: p) t Hb (proj2 Ht))) (Forall_nil_2 _)) He' co ln col) as (ln' & col' & ->).
  by exists ln', col'.
Qed.

Lemma object_reads l ind off t :
  json_ok (S k) (JObject l) -> whole (JObject l) = true -> tail_ok t ->
  reads (read_json_object (Some rv)) (print_to ind off (JObject l) ++ t) (end_code (skip_ws t))
    (Some (canon (JObject l))) (skip_ws t).
Proof using Hrv Hok.
  intros Hv Hw Ht. pose proof (print_shape (S k) _ ind off Hv Hw) as [Hb _].
  cbn [json_form whole print_to canon] in *. rewrite forallb_forall in Hw.
  set (o := if (ind =? 0)%nat then off else (ind + off)%nat) in *.
  destruct (items_open _ _ _ _ _ _ _ _ (ob_machine rv) ind off (chr "{")
    (map (fun kv => print_escaped kv.1 ++ chars ": " ++ print_to ind o kv.2) l)
    (map (fun kv => (kv.1, canon kv.2)) l) t) as (p & Hp & He).
  { apply Forall2_maps, List.Forall_forall. intros [key v] Hin. rewrite List.Forall_forall in Hv.
    destruct (Hv _ Hin) as [Hkey Hval]. by apply member_ok; [| |apply (Hw _ Hin)]. }
  { apply Ht. }
  rewrite Hp in *. intros co ln col. cbn [read_json_object app].
  pose proof (ob_fsm_ok true k rv Hok) as Hob.
  assert (He' : ends (ob_fsm rv) ob_init [] (chr "{" :: p ++ t) (end_code (skip_ws t))
    (map (fun kv => (kv.1, canon kv.2)) l) (skip_ws t)) by (by eapply ends_take).
  destruct (ends_reads_at (ob_fsm rv) _ ob_rank ob_init [] _ _ _ _
    (conj (text_any _ (bytes_app (chr "{" :: p) t Hb (proj2 Ht))) (Forall_nil_2 _)) He' co ln col) as (ln' & col' & ->).
  by exists ln', col'.
Qed.

End Levels.

(** A scalar is read the same way at every level. *)
Lemma scalar_ends rv v ind off w t :
  json_ok 0 v -> whole v = true -> blank w -> tail_ok t ->
  ends (vl_fsm rv) vl_init (Some JNull) (w ++ print_to ind off v ++ t) (end_code (skip_ws t)) (Some (canon v)) (skip_ws t).
Proof.
  intros Hv Hwh Hw [Hd Hb]. destruct v as [|z|z|d|b|s|l|l|]; cbn [json_form whole print_to canon] in *; try done.
  - by apply (vl_reads rv read_json_null_or_nan (fun v => v) w (chr "n") (chars "ull") t _ JNull (skip_ws t)
      Hw eq_refl eq_refl (read_null_reads t Hb)); [|apply skip_ws_idem].
  - destruct (print_integer_cases z Hv) as [[Hn Hp]|[Hn Hp]].
    + pose proof (read_negative_reads z t Hv Hn Hd) as Hr. rewrite Hp in *. rewrite (proj2 (Z.ltb_lt z 0) Hn).
      by apply (vl_reads rv read_number of_number w (chr "-") _ t _ (NInt z) t Hw eq_refl eq_refl Hr).
    + rewrite Hp, (proj2 (Z.ltb_ge z 0) Hn). apply number_ends; [|done..]. unfold is_sint, is_uint in *. lia.
  - by apply number_ends.
  - pose proof (read_bool_reads b t Hd Hb) as Hr.
    destruct b.
    + by apply (vl_reads rv read_bool JBool w (chr "t") (chars "rue") t _ true t Hw eq_refl eq_refl Hr).
    + by apply (vl_reads rv read_bool JBool w (chr "f") (chars "alse") t _ false t Hw eq_refl eq_refl Hr).
  - by apply (vl_reads rv read_json_string JString w quote (escaped_body s ++ [quote]) t _ s (skip_ws t) Hw eq_refl eq_refl
      (read_string_reads s t Hv (bytes_app _ _ (escaped_bytes s Hv) Hb))); [|apply skip_ws_idem].
Qed.

(** From a machine's run to the parser. *)
Lemma value_reads k rv v ind off w t :
  yields true (json_form true k) (read_json_object rv) -> yields true (json_form true k) (read_json_array rv) ->
  json_ok k v -> whole v = true -> blank w -> tail_ok t ->
  ends (vl_fsm rv) vl_init (Some JNull) (w ++ print_to ind off v ++ t) (end_code (skip_ws t)) (Some (canon v)) (skip_ws t) ->
  reads (run_fsm (vl_fsm rv) vl_init (Some JNull)) (w ++ print_to ind off v ++ t) (end_code (skip_ws t))
    (Some (canon v)) (skip_ws t).
Proof.
  intros Hob Har Hv Hwh Hw [Hd Hb] He. pose proof (vl_fsm_ok true k rv Hob Har) as Hok.
  eapply ends_reads_at; [apply fsm_runs, Hok| |exact He]. split.
  - apply text_any, bytes_app; [by apply blank_bytes|]. apply bytes_app; [|done]. by apply (print_shape k).
  - exists JNull. split; [done|by apply json_form_scalar].
Qed.

Lemma read_value_reads k : reads_values k (read_value k).
Proof.
  induction k as [|k IH]; intros v ind off w t Hv Hwh Hw Ht; cbn [read_value].
  - apply (value_reads 0); try apply too_deep_yields; try done. by apply scalar_ends.
  - pose proof (read_value_ok true k) as Hok.
    apply (value_reads (S k)); try done; [by apply read_json_object_yields|by apply read_json_array_yields|].
    destruct v as [|z|z|d|b|s|l|l|]; try (by apply scalar_ends).
    + pose proof (array_reads k (read_value k) Hok IH l ind off t Hv Hwh Ht) as Hr.
      destruct (print_items_head ind off (chr "[") (chr "]") (map (print_to ind (if (ind =? 0)%nat then 0 else (ind + off))%nat) l)) as [p Hp].
      cbn [print_to] in *. rewrite Hp in *.
      by apply (vl_reads _ _ (fun v => v) w (chr "[") p t _ _ _ Hw eq_refl eq_refl Hr); [|apply skip_ws_idem].
    + pose proof (object_reads k (read_value k) Hok IH l ind off t Hv Hwh Ht) as Hr.
      destruct (print_items_head ind off (chr "{") (chr "}") (map (fun kv => print_escaped kv.1 ++ chars ": "
        ++ print_to ind (if (ind =? 0)%nat then off else (ind + off))%nat kv.2) l)) as [p Hp].
      cbn [print_to] in *. rewrite Hp in *.
      by apply (vl_reads _ _ (fun v => v) w (chr "{") p t _ _ _ Hw eq_refl eq_refl Hr); [|apply skip_ws_idem].
Qed.

Lemma parse_print v ind :
  json_ok max_nesting_level v -> whole v = true ->
  parse (print_to ind 0 v) = Some (success, Some (canon v)).
Proof.
  intros Hv Hw. unfold parse.
  destruct (read_value_reads max_nesting_level v ind 0%nat [] [] Hv Hw ltac:(constructor) ltac:(by split; [|constructor])
    success 1 1) as (ln & col & Hr).
  rewrite app_nil_r in Hr. cbn [app] in Hr. unfold init_state. by rewrite Hr.
Qed.

(** C24. A JSON value without floating point numbers and with at most 128 levels of arrays
    and objects, the limit of the parser, is read back from its printed form, with any
    indentation: the parser consumes the whole text and delivers
    the same value, every byte of every string included; only the type of
    integers changes that are not negative, which it takes for unsigned. *)
Theorem json_roundtrip v ind :
  json_ok max_nesting_level v -> whole v = true ->
  parse (print_to ind 0 v) = Some (success, Some (canon v)).
Proof. apply parse_print. Qed.

Definition demo_json : json :=
  JObject [(chars "a", JArray [JInteger (-5); JInteger 7; JBool true; JNull]);
           ([0; 10; 34; 200], JString [92; 8; 31; 255]); (chars "o", JObject [])].

Lemma demo_json_ok : json_ok max_nesting_level demo_json.
Proof.
  apply (json_form_mono false 2); [unfold max_nesting_level; lia|]. unfold demo_json. cbn [json_form].
  repeat (apply Forall_cons; split); try apply Forall_nil; cbn [fst snd json_form]; try split; try exact I;
    try (apply (bool_decide_eq_true_1 _); vm_compute; reflexivity);
    repeat (apply Forall_cons; split); try apply Forall_nil; cbn [json_form]; try exact I; split; vm_compute; congruence.
Qed.

Lemma json_roundtrip_witness :
  whole demo_json = true /\ parse (print_to 2 0 demo_json) = Some (success, Some (canon demo_json)).
Proof. split; [reflexivity|]. apply (json_roundtrip demo_json 2); [exact demo_json_ok|reflexivity]. Defined.

End JsonRoundtrip.
