(* ===== verification/Inspector.v ===== *)
(** The inspector framework of libcaf_core: how the inspection DSL drives an
    inspector that saves or loads a value ([save_inspector_base.hpp],
    [load_inspector_base.hpp], [save_inspector.hpp], [load_inspector.hpp],
    [inspector_access.hpp], [inspector_access_base.hpp]).

    [doc] is a value of an inspectable type with the names and type IDs that its
    [inspect] overload passes on, [ty] is the type that guides loading.  The
    classes [SaveInspector] and [LoadInspector] are the interfaces that
    inspectors implement; [save] and [load] are written against them. *)
From Stdlib Require Import Floats.SpecFloat.
From S2P Require Import Prelude.
From S2P Require Import ReadNumber.
#[local] Open Scope Z_scope.

Import ReadNumber.

Module Inspector.

(** ** Inspectable values and types *)

(** A field: mandatory, optional ([std::optional] and pointers), a variant with
    the IDs of its types and the index of the current one, or both. *)
Inductive fval (A : Type) :=
  | VReq (a : A)
  | VOpt (o : option A)
  | VVar (types : list Z) (index : nat) (a : A)
  | VOptVar (types : list Z) (o : option (nat * A)).
Arguments VReq {A}. Arguments VOpt {A}. Arguments VVar {A}. Arguments VOptVar {A}.

Inductive doc :=
  | DBool (b : bool)
  | DInt (is_signed : bool) (w : Z) (z : Z)
  | DDouble (d : double)
  | DStr (s : list Z)
  | DSpan (s : list Z)
  | DU16 (s : list Z)
  | DU32 (s : list Z)
  | DList (l : list doc)
  | DTuple (l : list doc)
  | DMap (l : list (doc * doc))
  | DObj (id : Z) (name : list Z) (fs : list (list Z * fval doc)).

Inductive fty (A : Type) :=
  | FReq (t : A)
  | FOpt (t : A)
  | FVar (alts : list (Z * A))
  | FOptVar (alts : list (Z * A)).
Arguments FReq {A}. Arguments FOpt {A}. Arguments FVar {A}. Arguments FOptVar {A}.

Inductive ty :=
  | TBool
  | TInt (is_signed : bool) (w : Z)
  | TDouble
  | TStr
  | TList (t : ty)
  | TTuple (ts : list ty)
  | TMap (k t : ty)
  | TObj (id : Z) (name : list Z) (fs : list (list Z * fty ty)).

(** The error codes of [sec.hpp] that inspectors raise. *)
Inductive sec :=
  | runtime_error | unsupported_operation | conversion_failed | invalid_field_type.

(** ** Saving *)

(** A call of an inspector: whether it succeeded and the inspector afterwards, or
    [None] where the code is undefined. *)
Definition act (W : Type) : Type := W -> option (bool * W).

Class SaveInspector (W : Type) := {
  s_begin_object : Z -> list Z -> act W;
  s_end_object : act W;
  s_begin_field : list Z -> act W;
  s_begin_opt_field : list Z -> bool -> act W;
  s_begin_var_field : list Z -> list Z -> nat -> act W;
  s_begin_optvar_field : list Z -> bool -> list Z -> nat -> act W;
  s_end_field : act W;
  s_begin_tuple : nat -> act W;
  s_end_tuple : act W;
  s_begin_key_value_pair : act W;
  s_end_key_value_pair : act W;
  s_begin_sequence : nat -> act W;
  s_end_sequence : act W;
  s_begin_associative_array : nat -> act W;
  s_end_associative_array : act W;
  s_bool : bool -> act W;
  s_int : bool -> Z -> Z -> act W;
  s_double : double -> act W;
  s_string : list Z -> act W;
  s_span : list Z -> act W;
  s_u16string : list Z -> act W;
  s_u32string : list Z -> act W;
}.

(** [a && b]. *)
Definition and_then {W} (a b : act W) : act W := fun w =>
  match a w with
  | Some (true, w') => b w'
  | r => r
  end.

Infix "&&>" := and_then (at level 60, right associativity).

Definition pass {W} : act W := fun w => Some (true, w).

(** [(f(x) && ...)]. *)
Definition all_of {W A} (f : A -> act W) : list A -> act W :=
  fix go l := match l with [] => pass | x :: r => f x &&> go r end.

Section Save.
  Context {W : Type} `{!SaveInspector W}.

(** [save_field] of [inspector_access_base], [optional_inspector_access] and
    [variant_inspector_access]. *)
Definition save_field (save : doc -> act W) (name : list Z) (v : fval doc) : act W :=
  match v with
  | VReq x => s_begin_field name &&> save x &&> s_end_field
  | VOpt (Some x) => s_begin_opt_field name true &&> save x &&> s_end_field
  | VOpt None => s_begin_opt_field name false &&> s_end_field
  | VVar types index x => s_begin_var_field name types index &&> save x &&> s_end_field
  | VOptVar types (Some (index, x)) => s_begin_optvar_field name true types index &&> save x &&> s_end_field
  | VOptVar types None => s_begin_optvar_field name false types 0 &&> s_end_field
  end.

(** [detail::save], with [list], [tuple] and [map] of [save_inspector_base] and
    [object_t::fields]. *)
Fixpoint save (d : doc) : act W :=
  match d with
  | DBool b => s_bool b
  | DInt s w z => s_int s w z
  | DDouble x => s_double x
  | DStr s => s_string s
  | DSpan s => s_span s
  | DU16 s => s_u16string s
  | DU32 s => s_u32string s
  | DList l => s_begin_sequence (length l) &&> all_of save l &&> s_end_sequence
  | DTuple l => s_begin_tuple (length l) &&> all_of save l &&> s_end_tuple
  | DMap l =>
      s_begin_associative_array (length l)
      &&> all_of (fun kv => s_begin_key_value_pair &&> save kv.1 &&> save kv.2 &&> s_end_key_value_pair) l
      &&> s_end_associative_array
  | DObj id name fs =>
      s_begin_object id name &&> all_of (fun f => save_field save f.1 f.2) fs &&> s_end_object
  end.

End Save.

(** ** Loading *)

(** A call of an inspector that loads: [None] stands for the result [false]. *)
Definition rd (R A : Type) : Type := R -> option A * R.

Class LoadInspector (R : Type) := {
  l_emplace_error : sec -> R -> R;
  l_begin_object : Z -> list Z -> rd R unit;
  l_end_object : rd R unit;
  l_begin_field : list Z -> rd R unit;
  l_begin_opt_field : list Z -> rd R bool;
  l_begin_var_field : list Z -> list Z -> rd R nat;
  l_begin_optvar_field : list Z -> list Z -> rd R (option nat);
  l_end_field : rd R unit;
  l_begin_tuple : nat -> rd R unit;
  l_end_tuple : rd R unit;
  l_begin_key_value_pair : rd R unit;
  l_end_key_value_pair : rd R unit;
  l_begin_sequence : rd R nat;
  l_end_sequence : rd R unit;
  l_begin_associative_array : rd R nat;
  l_end_associative_array : rd R unit;
  l_bool : rd R bool;
  l_int : bool -> Z -> rd R Z;
  l_double : rd R double;
  l_string : rd R (list Z);
}.

Definition rret {R A} (a : A) : rd R A := fun r => (Some a, r).

Definition rfail {R A} : rd R A := fun r => (None, r).

Definition rbind {R A B} (m : rd R A) (f : A -> rd R B) : rd R B := fun r =>
  match m r with
  | (Some a, r') => f a r'
  | (None, r') => (None, r')
  end.

Notation "'let+' x := m 'in' b" := (rbind m (fun x => b)) (at level 200, x pattern, m at level 100, b at level 200).
Notation "m ;+ b" := (rbind m (fun _ => b)) (at level 100, b at level 200, right associativity).

(** [(load(f, get<Is>(xs)) && ...)]. *)
Fixpoint load_seq {R A} (ms : list (rd R A)) : rd R (list A) :=
  match ms with
  | [] => rret []
  | m :: r => let+ x := m in let+ xs := load_seq r in rret (x :: xs)
  end.

(** [for (size_t i = 0; i < size; ++i)]. *)
Fixpoint load_n {R A} (n : nat) (m : rd R A) : rd R (list A) :=
  match n with
  | O => rret []
  | S k => let+ x := m in let+ xs := load_n k m in rret (x :: xs)
  end.

(** Equality of the keys of a map. *)
Definition key_eqb (a b : doc) : bool :=
  match a, b with
  | DStr x, DStr y => bool_decide (x = y)
  | DInt s w x, DInt s' w' y => Bool.eqb s s' && (w =? w') && (x =? y)
  | DBool x, DBool y => Bool.eqb x y
  | _, _ => false
  end.

Section Load.
  Context {R : Type} `{!LoadInspector R}.

(** [load_inspector_base::map]; [xs] is what the map contains, in the order of
    insertion. *)
Fixpoint load_map (n : nat) (lk lv : rd R doc) (xs : list (doc * doc)) : rd R (list (doc * doc)) :=
  match n with
  | O => rret xs
  | S n' =>
      l_begin_key_value_pair ;+
      let+ k := lk in
      let+ v := lv in
      l_end_key_value_pair ;+
      if existsb (fun kv => key_eqb k kv.1) xs
      then fun r => (None, l_emplace_error runtime_error r)
      else load_map n' lk lv (xs ++ [(k, v)])
  end.

(** [load_variant_value]: the alternative for an ID, with its index. *)
Fixpoint find_alt {A} (id : Z) (alts : list (Z * A)) : option (nat * A) :=
  match alts with
  | [] => None
  | (i, a) :: r => if i =? id then Some (0%nat, a) else option_map (fun p => (S p.1, p.2)) (find_alt id r)
  end.

Definition load_variant_value (alts : list (Z * rd R doc)) (type_index : nat) : rd R (nat * doc) :=
  match map fst alts !! type_index with
  | None => fun r => (None, l_emplace_error invalid_field_type r)
  | Some id =>
      match find_alt id alts with
      | None => fun r => (None, l_emplace_error invalid_field_type r)
      | Some (i, m) => let+ x := m in rret (i, x)
      end
  end.

Definition fty_map {A B} (f : A -> B) (t : fty A) : fty B :=
  match t with
  | FReq t => FReq (f t)
  | FOpt t => FOpt (f t)
  | FVar alts => FVar (map (fun a => (a.1, f a.2)) alts)
  | FOptVar alts => FOptVar (map (fun a => (a.1, f a.2)) alts)
  end.

(** [load_field] of [inspector_access_base], [optional_inspector_access] and
    [variant_inspector_access], for fields without invariants and setters; the
    types are given by the calls that load them. *)
Definition load_field (name : list Z) (f : fty (rd R doc)) : rd R (list Z * fval doc) :=
  match f with
  | FReq m => l_begin_field name ;+ let+ x := m in l_end_field ;+ rret (name, VReq x)
  | FOpt m =>
      let+ is_present := l_begin_opt_field name in
      if is_present : bool then let+ x := m in l_end_field ;+ rret (name, VOpt (Some x))
      else l_end_field ;+ rret (name, VOpt None)
  | FVar alts =>
      let+ type_index := l_begin_var_field name (map fst alts) in
      let+ v := load_variant_value alts type_index in
      l_end_field ;+ rret (name, VVar (map fst alts) v.1 v.2)
  | FOptVar alts =>
      let+ o := l_begin_optvar_field name (map fst alts) in
      match o with
      | Some type_index =>
          let+ v := load_variant_value alts type_index in
          l_end_field ;+ rret (name, VOptVar (map fst alts) (Some v))
      | None => l_end_field ;+ rret (name, VOptVar (map fst alts) None)
      end
  end.

(** [detail::load], with [list], [tuple] and [map] of [load_inspector_base] and
    [object_t::fields]. *)
Fixpoint load (t : ty) : rd R doc :=
  match t with
  | TBool => let+ b := l_bool in rret (DBool b)
  | TInt s w => let+ z := l_int s w in rret (DInt s w z)
  | TDouble => let+ x := l_double in rret (DDouble x)
  | TStr => let+ s := l_string in rret (DStr s)
  | TList t =>
      let+ size := l_begin_sequence in
      let+ l := load_n size (load t) in
      l_end_sequence ;+ rret (DList l)
  | TTuple ts =>
      l_begin_tuple (length ts) ;+
      let+ l := load_seq (map load ts) in
      l_end_tuple ;+ rret (DTuple l)
  | TMap k t =>
      let+ size := l_begin_associative_array in
      let+ l := load_map size (load k) (load t) [] in
      l_end_associative_array ;+ rret (DMap l)
  | TObj id name fs =>
      l_begin_object id name ;+
      let+ l := load_seq (map (fun f => load_field f.1 (fty_map load f.2)) fs) in
      l_end_object ;+ rret (DObj id name l)
  end.

End Load.

(** ** Values of a type *)

Definition field_typed (P : ty -> doc -> Prop) (f : list Z * fty ty) (v : list Z * fval doc) : Prop :=
  f.1 = v.1 /\
  match f.2, v.2 with
  | FReq t, VReq d => P t d
  | FOpt t, VOpt o => match o with Some d => P t d | None => True end
  | FVar alts, VVar types i d => types = map fst alts /\ exists id t, alts !! i = Some (id, t) /\ P t d
  | FOptVar alts, VOptVar types o =>
      types = map fst alts /\
      match o with Some (i, d) => exists id t, alts !! i = Some (id, t) /\ P t d | None => True end
  | _, _ => False
  end.

(** [d] is a value of the type [t] with at most [k] levels of containers; maps
    have strings as keys, and the types of a variant are different. *)
Fixpoint typed (k : nat) (t : ty) (d : doc) {struct k} : Prop :=
  match t, d with
  | TBool, DBool _ => True
  | TInt s w, DInt s' w' z =>
      s = s' /\ w = w' /\ (w = 8 \/ w = 16 \/ w = 32 \/ w = 64) /\ if s then is_sint w z else is_uint w z
  | TStr, DStr s => all_bytes s
  | TList t, DList l => match k with O => False | S n => Forall (typed n t) l end
  | TTuple ts, DTuple l => match k with O => False | S n => Forall2 (typed n) ts l end
  | TMap TStr t, DMap l =>
      match k with
      | O => False
      | S n => NoDup (map fst l)
          /\ Forall (fun kv => (exists s, kv.1 = DStr s /\ all_bytes s) /\ typed n t kv.2) l
      end
  | TObj id name fs, DObj id' name' vs =>
      match k with
      | O => False
      | S n => id = id' /\ name = name' /\ Forall2 (field_typed (typed n)) fs vs
          /\ Forall (fun f => match f.2 with FVar alts | FOptVar alts => NoDup (map fst alts) | _ => True end) fs
      end
  | _, _ => False
  end.

(** ** Induction over documents *)

Definition fval_all {A} (P : A -> Prop) (v : fval A) : Prop :=
  match v with
  | VReq x | VOpt (Some x) | VVar _ _ x | VOptVar _ (Some (_, x)) => P x
  | VOpt None | VOptVar _ None => True
  end.

Section DocInd.
  Context (P : doc -> Prop)
    (Hscalar : forall d, match d with DList _ | DTuple _ | DMap _ | DObj _ _ _ => True | _ => P d end)
    (Hlist : forall l, Forall P l -> P (DList l))
    (Htuple : forall l, Forall P l -> P (DTuple l))
    (Hmap : forall l, Forall (fun kv => P kv.2) l -> P (DMap l))
    (Hobj : forall id name fs, Forall (fun f => fval_all P f.2) fs -> P (DObj id name fs)).

Fixpoint doc_ind' (d : doc) : P d.
Proof using Hscalar Hlist Htuple Hmap Hobj.
  destruct d as [b|sg w z|x|s|s|s|s|l|l|l|id name fs].
  1-7: match goal with |- P ?d => exact (Hscalar d) end.
  - apply Hlist. induction l as [|x l IH]; constructor; [apply doc_ind'|exact IH].
  - apply Htuple. induction l as [|x l IH]; constructor; [apply doc_ind'|exact IH].
  - apply Hmap. induction l as [|[k x] l IH]; constructor; [apply doc_ind'|exact IH].
  - apply Hobj. induction fs as [|[n v] l IH]; constructor; [|exact IH].
    destruct v as [x|[x|]|ts i x|ts [[i x]|]]; cbn; try exact I; apply doc_ind'.
Defined.

End DocInd.

End Inspector.
