(* ===== verification/JsonWriter.v ===== *)
(** [json_writer.cpp]: the inspector that saves a value as JSON, with
    [internal/json_node.hpp] and [detail/append_hex.hpp].

    The stack of the writer is a list with its top first. [None] is what an
    operation returns where an assertion of the code fails, as it does for the
    top of an empty stack in [sep]. *)
From Stdlib Require Import Strings.Ascii Strings.String Floats.SpecFloat.
From S2P Require Import Prelude.
From S2P Require Import Fsm.
From S2P Require Import Printer.
From S2P Require Import ReadNumber.
From S2P Require Import Json.
From S2P Require Import Inspector.
#[local] Open Scope Z_scope.
#[local] Open Scope caf_scope.

Import Fsm Printer ReadNumber Json Inspector.

Module JsonWriter.

(** ** State *)

Inductive json_node := element | object | member | key | array | jstring | number_node | boolean | null.

#[export] Instance json_node_eq_dec : EqDecision json_node.
Proof. solve_decision. Defined.

Record entry := E { node : json_node; filled : bool }.

Record config := Config {
  indentation_factor : nat;
  skip_empty_fields : bool;
  skip_object_type_annotation : bool;
  field_type_suffix : list Z;
  mapper : Z -> list Z;
}.

Definition default_config (m : Z -> list Z) : config := Config 0 true false (chars "-type") m.

Record writer := Wr {
  buf : list Z;
  stack : list entry;
  indentation_level : nat;
  err : option sec;
}.

Definition fresh : writer := Wr [] [E element false] 0 None.

(** [reset] leaves the indentation level and the error alone. *)
Definition reset (w : writer) : writer := Wr [] [E element false] (indentation_level w) (err w).

Definition set_error (e : sec) (w : writer) : writer := Wr (buf w) (stack w) (indentation_level w) (Some e).

Definition refuse (e : sec) : act writer := fun w => Some (false, set_error e w).

(** ** State management *)

Definition top (w : writer) : json_node := match stack w with e :: _ => node e | [] => null end.

Definition push (n : json_node) (w : writer) : writer :=
  Wr (buf w) (E n false :: stack w) (indentation_level w) (err w).

Definition set_stack (s : list entry) (w : writer) : writer := Wr (buf w) s (indentation_level w) (err w).

Definition set_level (n : nat) (w : writer) : writer := Wr (buf w) (stack w) n (err w).

(** [pop]; its callers ignore the result. *)
Definition pop (w : writer) : writer :=
  match stack w with
  | _ :: r => set_stack r w
  | [] => set_error runtime_error w
  end.

Definition pop_if (n : json_node) : act writer := fun w =>
  match stack w with
  | e :: r => if bool_decide (node e = n) then Some (true, set_stack r w) else refuse runtime_error w
  | [] => refuse runtime_error w
  end.

Definition unsafe_morph (n : json_node) (w : writer) : option writer :=
  match stack w with
  | e :: r => Some (set_stack (E n (filled e) :: r) w)
  | [] => None
  end.

Definition inside_object (w : writer) : bool := existsb (fun e => bool_decide (node e = object)) (stack w).

(** ** Printing *)

Definition add (s : list Z) (w : writer) : writer := Wr (buf w ++ s) (stack w) (indentation_level w) (err w).

Definition last_non_ws_char (b : list Z) : Z :=
  match filter (fun c => isspace c = false) (rev b) with c :: _ => c | [] => 0 end.

Fixpoint drop_spaces (l : list Z) : list Z :=
  match l with c :: r => if isspace c then drop_spaces r else l | [] => [] end.

(** [while (std::isspace(buf_.back())) buf_.pop_back();] *)
Definition strip (b : list Z) : list Z := rev (drop_spaces (rev b)).

Section Writer.
  Context (cfg : config).

Definition nl_text (level : nat) : list Z :=
  if (0 <? indentation_factor cfg)%nat then 10 :: replicate (indentation_factor cfg * level) 32 else [].

Definition nl (w : writer) : writer := add (nl_text (indentation_level w)) w.

(** What [sep] adds behind an item. *)
Definition comma (level : nat) : list Z :=
  if (0 <? indentation_factor cfg)%nat then chr "," :: 10 :: replicate (indentation_factor cfg * level) 32
  else chars ", ".

Definition sep (w : writer) : option writer :=
  match stack w with
  | E n f :: r =>
      if bool_decide (n = element \/ n = object \/ n = array) then
        Some (if f then add (comma (indentation_level w)) w else set_stack (E n true :: r) w)
      else None
  | [] => None
  end.

(** ** Keys, sequences and associative arrays *)

Definition begin_key_value_pair : act writer := fun w =>
  w1 ← sep w;
  match top w1 with
  | object => Some (true, push key (push element (push member w1)))
  | _ => refuse runtime_error w1
  end.

Definition end_key_value_pair : act writer := pop_if member.

Definition open_with (n : json_node) (c : Z) : act writer := fun w =>
  let go w := Some (true, nl (set_level (S (indentation_level w)) (add [c] w))) in
  match top w with
  | element => w1 ← unsafe_morph n w; go w1
  | array => w1 ← sep w; go (push n w1)
  | _ => refuse runtime_error w
  end.

Definition begin_sequence (size : nat) : act writer := open_with array (chr "[").

Definition begin_associative_array (size : nat) : act writer := open_with object (chr "{").

(** The common part of [end_sequence] and [end_associative_array]. *)
Definition close_with (open close : Z) (w : writer) : writer :=
  let w1 := set_level (pred (indentation_level w)) w in
  let w2 := if last_non_ws_char (buf w1) =? open
            then Wr (strip (buf w1)) (stack w1) (indentation_level w1) (err w1) else nl w1 in
  add [close] w2.

Definition end_sequence : act writer :=
  pop_if array &&> fun w => Some (true, close_with (chr "[") (chr "]") w).

Definition fill_top (s : list entry) : list entry := match s with e :: r => E (node e) true :: r | [] => [] end.

Definition end_associative_array : act writer :=
  pop_if object &&> fun w =>
    let w1 := close_with (chr "{") (chr "}") w in Some (true, set_stack (fill_top (stack w1)) w1).

(** ** Objects and fields *)

(** [CAF_ASSERT(top() == n)]. *)
Definition expect (n : json_node) (w : writer) : option writer :=
  if bool_decide (top w = n) then Some w else None.

Definition quoted (s : list Z) : list Z := quote :: s ++ [quote].

Definition add_type_annotation (id : Z) (name : list Z) : act writer := fun w =>
  w1 ← expect key w;
  w2 ← expect element (pop (add (quoted (chars "@type") ++ chars ": ") w1));
  let tname := mapper cfg id in
  Some (true, pop (add (quoted (match tname with [] => name | _ => tname end)) w2)).

Definition begin_object (id : Z) (name : list Z) : act writer := fun w =>
  if skip_object_type_annotation cfg || inside_object w then begin_associative_array 0 w
  else (begin_associative_array 0 &&> begin_key_value_pair &&> add_type_annotation id name
        &&> end_key_value_pair) w.

Definition end_object : act writer := end_associative_array.

(** The key of a field, behind [begin_key_value_pair]. *)
Definition add_key (k : list Z) : act writer := fun w =>
  w1 ← expect key w;
  w2 ← expect element (pop (add (quoted k ++ chars ": ") w1));
  Some (true, w2).

Definition begin_field (name : list Z) : act writer := begin_key_value_pair &&> add_key name.

Definition begin_opt_field (name : list Z) (is_present : bool) : act writer := fun w =>
  if skip_empty_fields cfg && negb is_present then
    match top w with
    | object => Some (true, push member w)
    | _ => refuse runtime_error w
    end
  else
    (begin_key_value_pair &&> add_key name &&>
      fun w1 => Some (true, if is_present then w1 else pop (add (chars "null") w1))) w.

Definition begin_var_field (name : list Z) (types : list Z) (index : nat) : act writer := fun w =>
  match types !! index with
  | None => refuse runtime_error w
  | Some id =>
      (begin_key_value_pair &&> add_key (chr "@" :: name ++ field_type_suffix cfg) &&>
        (fun w1 =>
          let w2 := pop w1 in
          match mapper cfg id with
          | [] => refuse runtime_error w2
          | tname => Some (true, add (quoted tname) w2)
          end) &&>
        end_key_value_pair &&> begin_field name) w
  end.

Definition begin_optvar_field (name : list Z) (is_present : bool) (types : list Z) (index : nat) : act writer :=
  if is_present then begin_var_field name types index else begin_opt_field name false.

Definition end_field : act writer := end_key_value_pair.

(** ** Values *)

(** The shape that the overloads of [value] share: [text] is the value, [as_key]
    what is written in the place of a key and [popped] whether the key is left
    then. *)
Definition put (text as_key : list Z) (popped : bool) : act writer := fun w =>
  match top w with
  | element => Some (true, pop (add text w))
  | key => let w1 := add (as_key ++ chars ": ") w in Some (true, if popped then pop w1 else w1)
  | array => w1 ← sep w; Some (true, add text w1)
  | _ => refuse runtime_error w
  end.

Definition value_bool (x : bool) : act writer := put (print_bool x) (quoted (print_bool x)) false.

Definition number (text : list Z) : act writer := put text (quoted text) false.

Definition value_int (is_signed : bool) (w : Z) (z : Z) : act writer :=
  number (if is_signed then print_signed w z else print_unsigned z).

Definition value_double (x : double) : act writer := number (print_double x).

Definition value_string (x : list Z) : act writer := put (print_escaped x) (print_escaped x) true.

Definition append_hex (x : list Z) : list Z :=
  let digit d := List.nth (Z.to_nat d) (chars "0123456789ABCDEF") 0 in
  flat_map (fun c => [digit (c .>> 4); digit (c .& 15)]) x.

Definition value_span (x : list Z) : act writer := put (quoted (append_hex x)) (quoted (append_hex x)) true.

Definition value_u16string (x : list Z) : act writer := refuse unsupported_operation.
Definition value_u32string (x : list Z) : act writer := refuse unsupported_operation.

Definition json_writer : SaveInspector writer := {|
  s_begin_object := begin_object;
  s_end_object := end_object;
  s_begin_field := begin_field;
  s_begin_opt_field := begin_opt_field;
  s_begin_var_field := begin_var_field;
  s_begin_optvar_field := begin_optvar_field;
  s_end_field := end_field;
  s_begin_tuple := begin_sequence;
  s_end_tuple := end_sequence;
  s_begin_key_value_pair := begin_key_value_pair;
  s_end_key_value_pair := end_key_value_pair;
  s_begin_sequence := begin_sequence;
  s_end_sequence := end_sequence;
  s_begin_associative_array := begin_associative_array;
  s_end_associative_array := end_associative_array;
  s_bool := value_bool;
  s_int := value_int;
  s_double := value_double;
  s_string := value_string;
  s_span := value_span;
  s_u16string := value_u16string;
  s_u32string := value_u32string;
|}.

(** ** The JSON value of a document *)

Definition key_of (k : doc) : list Z := match k with DStr s => s | _ => [] end.

(** The members that a field becomes. *)
Definition field_json (f : doc -> json) (name : list Z) (v : fval doc) : list (list Z * json) :=
  let absent := if skip_empty_fields cfg then [] else [(name, JNull)] in
  let variant types index x :=
    [(chr "@" :: name ++ field_type_suffix cfg, JString (mapper cfg (List.nth index types 0))); (name, f x)] in
  match v with
  | VReq x | VOpt (Some x) => [(name, f x)]
  | VVar types index x | VOptVar types (Some (index, x)) => variant types index x
  | VOpt None | VOptVar _ None => absent
  end.

Definition annotation (inside : bool) (id : Z) (name : list Z) : list (list Z * json) :=
  if skip_object_type_annotation cfg || inside then []
  else [(chars "@type", JString (match mapper cfg id with [] => name | tname => tname end))].

(** Objects below another object or a map carry no annotation. *)
Fixpoint to_json (inside : bool) (d : doc) : json :=
  match d with
  | DBool b => JBool b
  | DInt true _ z => JInteger z
  | DInt false _ z => JUnsigned z
  | DDouble x => JDouble x
  | DStr s => JString s
  | DSpan s => JString (append_hex s)
  | DU16 _ | DU32 _ => JUndefined
  | DList l | DTuple l => JArray (map (to_json inside) l)
  | DMap l => JObject (map (fun kv => (key_of kv.1, to_json true kv.2)) l)
  | DObj id name fs =>
      JObject (annotation inside id name ++ flat_map (fun f => field_json (to_json true) f.1 f.2) fs)
  end.

(** ** Documents that the writer supports *)

(** A name that needs no escapes, since the writer adds names as they are. *)
Definition plain (s : list Z) : bool := bool_decide (escaped_body s = s).

Definition is_str (k : doc) : bool := match k with DStr _ => true | _ => false end.

Definition variant_ok (name : list Z) (types : list Z) (index : nat) : bool :=
  match types !! index with
  | Some id => match mapper cfg id with [] => false | tname => plain tname end && plain (name ++ field_type_suffix cfg)
  | None => false
  end.

Definition field_ok (ok : doc -> bool) (name : list Z) (v : fval doc) : bool :=
  plain name &&
  match v with
  | VReq x | VOpt (Some x) => ok x
  | VVar types index x | VOptVar types (Some (index, x)) => variant_ok name types index && ok x
  | VOpt None | VOptVar _ None => true
  end.

Fixpoint writable (d : doc) : bool :=
  match d with
  | DBool _ | DDouble _ | DStr _ => true
  | DInt true w z => bool_decide (is_width w) && bool_decide (is_sint w z)
  | DInt false w z => bool_decide (is_uint 64 z)
  | DSpan s => bool_decide (escaped_body (append_hex s) = append_hex s)
  | DU16 _ | DU32 _ => false
  | DList l | DTuple l => forallb writable l
  | DMap l => forallb (fun kv => is_str kv.1 && writable kv.2) l
  | DObj id name fs =>
      plain (match mapper cfg id with [] => name | tname => tname end)
        && forallb (fun f => field_ok writable f.1 f.2) fs
  end.

End Writer.

(** ** The end of a printed value *)

(** The text ends with a character that is neither a blank nor an opening
    bracket. *)
Definition closed (s : list Z) : Prop :=
  exists p c, s = p ++ [c] /\ isspace c = false /\ c <> chr "[" /\ c <> chr "{".

Lemma closed_app p s : closed s -> closed (p ++ s).
Proof. intros (q & c & -> & H). exists (p ++ q), c. by rewrite app_assoc. Qed.

Lemma closed_snoc p c : isspace c = false -> c <> chr "[" -> c <> chr "{" -> closed (p ++ [c]).
Proof. intros. by exists p, c. Qed.

Lemma digits_closed n x : closed (rev (stack_digits (S n) x)).
Proof.
  cbn [stack_digits rev]. apply closed_app. pose proof (Z.mod_pos_bound x 10 ltac:(lia)).
  exists [], (x mod 10 + 48). unfold isspace. split_and!; [done|bool_lia|unfold chr; cbn; lia|unfold chr; cbn; lia].
Qed.

Lemma print_signed_closed w z : closed (print_signed w z).
Proof.
  unfold print_signed, min_literal. repeat case_match; try apply digits_closed; try apply (closed_app [_]), digits_closed.
  - by apply (closed_snoc (chars "-12")).
  - by apply (closed_snoc (chars "-3276")).
  - by apply (closed_snoc (chars "-214748364")).
  - by apply (closed_snoc (chars "-922337203685477580")).
Qed.

Lemma stack_digits_decimal n x : Forall (fun c => 48 <= c <= 57) (stack_digits n x).
Proof.
  revert x; induction n as [|n IH]; intros x; [constructor|]. cbn [stack_digits].
  pose proof (Z.mod_pos_bound x 10 ltac:(lia)). constructor; [lia|]. case_match; [constructor|apply IH].
Qed.

Lemma drop_zeros_closed q p :
  Forall (fun c => 48 <= c <= 57) q -> closed (rev p) ->
  closed (match drop_zeros (q ++ chr "." :: p) with
          | c :: r => rev (if c =? chr "." then r else c :: r)
          | [] => []
          end).
Proof.
  intros Hq Hp. induction Hq as [|c q Hc _ IH]; [done|]. cbn [app drop_zeros].
  destruct (Z.eqb_spec c (chr "0")) as [|Hz]; [done|].
  assert (c <> chr ".") by (unfold chr; cbn; lia). rewrite (proj2 (Z.eqb_neq _ _)) by done. cbn [rev].
  apply closed_snoc; [unfold isspace; bool_lia|unfold chr; cbn; lia|unfold chr; cbn; lia].
Qed.

Lemma in_whitelist_app l r c : in_whitelist r c = true -> in_whitelist (l ++ r) c = true.
Proof. intros H. induction l as [|x l IH]; [done|]. cbn. by destruct (x =? c). Qed.

Lemma print_double_closed x : closed (print_double x).
Proof.
  assert (Hfix : forall sg a b, closed (
    let str := (if sg : bool then [chr "-"] else []) ++ rev (stack_digits 310 a) ++ [chr "."] ++ tl (rev (stack_digits 7 b)) in
    if in_whitelist str (chr ".") then
      match drop_zeros (rev str) with
      | c :: r => rev (if c =? chr "." then r else c :: r)
      | [] => []
      end
    else str)).
  { intros sg a b. cbn zeta. rewrite in_whitelist_app by (by apply in_whitelist_app).
    rewrite !rev_app_distr, <- app_assoc. cbn [rev app]. rewrite <- app_assoc. cbn [app].
    apply drop_zeros_closed.
    - apply Forall_rev. destruct (rev (stack_digits 7 b)) as [|y l] eqn:E; [constructor|]. cbn [tl].
      pose proof (Forall_rev (stack_digits_decimal 7 b)) as H. rewrite E in H. by inversion H.
    - rewrite rev_app_distr, !rev_involutive. apply closed_app, (digits_closed 309). }
  unfold print_double, std_to_string. destruct x as [sg|sg| |sg m e]; [apply (Hfix sg)| | |apply (Hfix sg)].
  - destruct sg; [by apply (closed_snoc (chars "-in"))|by apply (closed_snoc (chars "in"))].
  - by apply (closed_snoc (chars "na")).
Qed.

Lemma print_items_closed i o op cl items :
  isspace cl = false -> cl <> chr "[" -> cl <> chr "{" -> closed (print_items i o op cl items).
Proof.
  intros H1 H2 H3. assert (closed [cl]) by (by apply (closed_snoc [])).
  destruct items as [|x r]; cbn [print_items]; [by apply (closed_app [op])|].
  case_match; apply (closed_app [op]); rewrite ?app_assoc; by apply closed_app.
Qed.

Lemma print_to_closed i o j : closed (print_to i o j).
Proof.
  destruct j as [|z|z|x|b|s|l|l|]; cbn [print_to].
  - by apply (closed_snoc (chars "nul")).
  - apply print_signed_closed.
  - apply digits_closed.
  - apply print_double_closed.
  - destruct b; [by apply (closed_snoc (chars "tru"))|by apply (closed_snoc (chars "fals"))].
  - unfold print_escaped. apply (closed_snoc (quote :: _)); done.
  - by apply print_items_closed.
  - by apply print_items_closed.
  - by apply (closed_snoc (chars "nul")).
Qed.

(** ** The layout of the writer *)

Section Layout.
  Context (cfg : config).
  Notation factor := (indentation_factor cfg).

#[local] Instance the_writer : SaveInspector writer := json_writer cfg.

Definition txt (lv : nat) (j : json) : list Z := print_to factor (factor * lv) j.

Definition member_text (lv : nat) (m : list Z * json) : list Z := print_escaped m.1 ++ chars ": " ++ txt lv m.2.

Definition sep_text (f : bool) (lv : nat) : list Z := if f then comma cfg lv else [].

(** The items that are written into a container with the given flag. *)
Fixpoint emit (f : bool) (lv : nat) (items : list (list Z)) : list Z :=
  match items with
  | [] => []
  | x :: r => sep_text f lv ++ x ++ emit true lv r
  end.

Definition some_items {A} (l : list A) : bool := match l with [] => false | _ => true end.

Lemma emit_app f lv l r : emit f lv (l ++ r) = emit f lv l ++ emit (f || some_items l) lv r.
Proof.
  revert f; induction l as [|x l IH]; intros f; cbn [app emit some_items].
  - by rewrite orb_false_r.
  - rewrite IH, orb_true_r. cbn [orb]. by rewrite !app_assoc.
Qed.

Lemma emit_closed f lv items :
  Forall closed items -> items <> [] -> closed (emit f lv items).
Proof.
  intros H. revert f; induction H as [|x r Hx Hr IH]; intros f Hne; [done|]. cbn [emit]. apply closed_app.
  destruct r as [|y r]; [cbn [emit]; by rewrite app_nil_r|]. by apply closed_app, IH.
Qed.

Lemma last_closed b s : closed s -> last_non_ws_char (b ++ s) <> chr "[" /\ last_non_ws_char (b ++ s) <> chr "{".
Proof.
  intros (p & c & -> & Hs & H1 & H2). unfold last_non_ws_char.
  rewrite app_assoc, rev_app_distr. cbn [rev app]. rewrite filter_cons_True by done. done.
Qed.

Lemma rev_replicate {A} n (x : A) : rev (replicate n x) = replicate n x.
Proof. induction n as [|n IH]; [done|]. cbn [replicate rev]. by rewrite IH, <- replicate_S_end. Qed.

Lemma nl_blank lv c b : isspace c = false ->
  last_non_ws_char (b ++ c :: nl_text cfg lv) = c /\ strip (b ++ c :: nl_text cfg lv) = b ++ [c].
Proof.
  intros Hc. unfold last_non_ws_char, strip, nl_text.
  assert (Hr : forall n l, filter (fun c => isspace c = false) (replicate n 32 ++ l) = filter (fun c => isspace c = false) l
    /\ drop_spaces (replicate n 32 ++ l) = drop_spaces l).
  { induction n as [|n IH]; intros l; [done|]. cbn [replicate app drop_spaces]. rewrite filter_cons_False by done. apply IH. }
  replace (b ++ c :: (if (0 <? factor)%nat then 10 :: replicate (factor * lv) 32 else []))
    with ((b ++ [c]) ++ (if (0 <? factor)%nat then 10 :: replicate (factor * lv) 32 else [])) by (by rewrite <- app_assoc).
  rewrite rev_app_distr. destruct (0 <? factor)%nat.
  - cbn [rev]. rewrite rev_replicate, <- app_assoc. destruct (Hr (factor * lv)%nat ([10] ++ rev (b ++ [c]))) as [-> ->].
    rewrite rev_app_distr. cbn [rev app drop_spaces]. rewrite filter_cons_False by done.
    rewrite filter_cons_True by done. change (isspace 10) with true. cbn match. rewrite Hc.
    split; [done|]. cbn [rev]. by rewrite rev_involutive.
  - cbn [rev app]. rewrite rev_app_distr. cbn [rev app drop_spaces]. rewrite filter_cons_True by done.
    rewrite Hc. split; [done|]. cbn [rev]. by rewrite rev_involutive.
Qed.

Lemma print_items_emit lv op cl items :
  print_items factor (factor * lv) op cl items
    = op :: (match items with [] => [] | _ => nl_text cfg (S lv) ++ emit false (S lv) items ++ nl_text cfg lv end) ++ [cl].
Proof.
  destruct items as [|x r]; [done|]. unfold print_items, nl_text.
  assert (He : forall lv' l, emit true lv' l = flat_map (fun y => comma cfg lv' ++ y) l).
  { intros lv' l. induction l as [|y l IH]; [done|]. cbn [emit flat_map sep_text]. by rewrite IH, app_assoc. }
  cbn [emit sep_text app]. rewrite He. unfold comma. destruct (Nat.eqb_spec factor 0) as [->|Hf].
  - cbn [Nat.ltb Nat.leb app]. by rewrite app_nil_r, <- app_assoc.
  - rewrite (proj2 (Nat.ltb_lt 0 factor)) by lia. unfold print_nl_to.
    replace (factor * S lv)%nat with (factor + factor * lv)%nat by lia. cbn [app]. by rewrite <- !app_assoc.
Qed.

(** Closing a container whose items have been written. *)
Lemma close_with_items op cl b r lv e items :
  op = chr "[" \/ op = chr "{" -> Forall closed items ->
  close_with cfg op cl (Wr (b ++ op :: nl_text cfg (S lv) ++ emit false (S lv) items) r (S lv) e)
    = Wr (b ++ print_items factor (factor * lv) op cl items) r lv e.
Proof.
  intros Hop Hi. rewrite print_items_emit. unfold close_with, nl, add, set_level. cbn [buf stack indentation_level err pred].
  assert (Hs : isspace op = false) by (by destruct Hop as [-> | ->]).
  destruct items as [|x items'].
  - cbn [emit]. rewrite app_nil_r. destruct (nl_blank (S lv) op b Hs) as [-> ->]. rewrite Z.eqb_refl. cbn [buf stack].
    by rewrite <- app_assoc.
  - assert (Hc : closed (emit false (S lv) (x :: items'))) by (by apply emit_closed).
    revert Hc. generalize (emit false (S lv) (x :: items')). intros t Hc.
    replace (b ++ op :: nl_text cfg (S lv) ++ t) with ((b ++ op :: nl_text cfg (S lv)) ++ t) by (by rewrite <- app_assoc).
    destruct (last_closed (b ++ op :: nl_text cfg (S lv)) _ Hc) as [H1 H2].
    rewrite (proj2 (Z.eqb_neq _ op)) by (destruct Hop as [-> | ->]; done). cbn [buf stack indentation_level err].
    f_equal. by rewrite <- !app_assoc.
Qed.

(** ** The calls of the writer *)

Lemma and_then_ok {W} (a b : act W) w w' : a w = Some (true, w') -> (a &&> b) w = b w'.
Proof. intros H. unfold and_then. by rewrite H. Qed.

Lemma all_of_cons {W A} (f : A -> act W) x l w w' : f x w = Some (true, w') -> all_of f (x :: l) w = all_of f l w'.
Proof. apply and_then_ok. Qed.

Lemma begin_pair_ok b f r lv e :
  begin_key_value_pair cfg (Wr b (E object f :: r) lv e)
    = Some (true, Wr (b ++ sep_text f lv) (E key false :: E element false :: E member false :: E object true :: r) lv e).
Proof. destruct f; unfold begin_key_value_pair, sep; cbn; [done|]. by rewrite app_nil_r. Qed.

Lemma pop_if_ok n b f r lv e : pop_if n (Wr b (E n f :: r) lv e) = Some (true, Wr b r lv e).
Proof. unfold pop_if. cbn [stack node]. by rewrite bool_decide_true. Qed.

Lemma add_key_ok k b f g r lv e :
  add_key k (Wr b (E key f :: E element g :: r) lv e)
    = Some (true, Wr (b ++ quoted k ++ chars ": ") (E element g :: r) lv e).
Proof. done. Qed.

Definition inside (r : list entry) : bool := existsb (fun e => bool_decide (node e = object)) r.

(** What saving a document does in the place of an element and of an item of an
    array. *)
Definition written (d : doc) : Prop :=
  writable cfg d = true ->
  (forall b r lv e, save d (Wr b (E element false :: r) lv e)
     = Some (true, Wr (b ++ txt lv (to_json cfg (inside r) d))
         (match d with DMap _ | DObj _ _ _ => fill_top r | _ => r end) lv e))
  /\ (forall b f r lv e, save d (Wr b (E array f :: r) lv e)
     = Some (true, Wr (b ++ sep_text f lv ++ txt lv (to_json cfg (inside r) d)) (E array true :: r) lv e)).

Lemma put_element text k p b r lv e :
  put cfg text k p (Wr b (E element false :: r) lv e) = Some (true, Wr (b ++ text) r lv e).
Proof. done. Qed.

Lemma put_array text k p b f r lv e :
  put cfg text k p (Wr b (E array f :: r) lv e) = Some (true, Wr (b ++ sep_text f lv ++ text) (E array true :: r) lv e).
Proof.
  destruct f; [|done].
  transitivity (Some (true, Wr ((b ++ comma cfg lv) ++ text) (E array true :: r) lv e)); [done|by rewrite <- app_assoc].
Qed.

Lemma print_signed_width w z : is_width w -> is_sint w z -> print_signed w z = print_signed 64 z.
Proof.
  intros Hw Hz. unfold print_signed. destruct (Z.eqb_spec z (- 2 ^ (w - 1))) as [->|].
  - destruct Hw as [-> | [-> | [-> | ->]]]; vm_compute; done.
  - destruct (Z.eqb_spec z (- 2 ^ (64 - 1))) as [->|]; [|done].
    exfalso. unfold is_sint in Hz. destruct Hw as [-> | [-> | [-> | ->]]]; lia.
Qed.

Lemma scalar_written d :
  match d with DList _ | DTuple _ | DMap _ | DObj _ _ _ => True | _ => written d end.
Proof.
  destruct d as [b|[] w z|x|s|s|s|s|l|l|l|id name fs]; try done; intros Hw; cbn [writable] in Hw; try done;
    (split; intros; cbn [save s_bool s_int s_double s_string s_span the_writer json_writer to_json];
     unfold value_bool, value_int, value_double, value_string, value_span, number; cbn match;
     rewrite ?put_element, ?put_array; repeat f_equal); try done.
  all: try (apply andb_prop in Hw as [H1%bool_decide_eq_true_1 H2%bool_decide_eq_true_1]; by apply print_signed_width).
  all: apply bool_decide_eq_true_1 in Hw; unfold quoted, txt; cbn [print_to]; unfold print_escaped; by rewrite Hw.
Qed.

Lemma items_written l b f r lv e :
  Forall written l -> forallb (writable cfg) l = true ->
  all_of save l (Wr b (E array f :: r) lv e)
    = Some (true, Wr (b ++ emit f lv (map (fun d => txt lv (to_json cfg (inside r) d)) l))
        (E array (f || some_items l) :: r) lv e).
Proof.
  intros Hl. revert b f; induction Hl as [|d l Hd Hl IH]; intros b f Hw.
  - cbn. by rewrite app_nil_r, orb_false_r.
  - cbn [forallb] in Hw. apply andb_prop in Hw as [Hw1 Hw2].
    rewrite (all_of_cons _ _ _ _ _ (proj2 (Hd Hw1) b f r lv e)), IH by done.
    cbn [map emit some_items]. by rewrite orb_true_r, <- !app_assoc.
Qed.

(** Opening a container in both contexts. *)
Lemma open_element n c b r lv e :
  open_with cfg n c (Wr b (E element false :: r) lv e)
    = Some (true, Wr (b ++ c :: nl_text cfg (S lv)) (E n false :: r) (S lv) e).
Proof.
  transitivity (Some (true, Wr ((b ++ [c]) ++ nl_text cfg (S lv)) (E n false :: r) (S lv) e)); [done|].
  by rewrite <- app_assoc.
Qed.

Lemma open_array n c b f r lv e :
  open_with cfg n c (Wr b (E array f :: r) lv e)
    = Some (true, Wr ((b ++ sep_text f lv) ++ c :: nl_text cfg (S lv)) (E n false :: E array true :: r) (S lv) e).
Proof.
  destruct f.
  - transitivity (Some (true, Wr (((b ++ comma cfg lv) ++ [c]) ++ nl_text cfg (S lv)) (E n false :: E array true :: r) (S lv) e));
      [done|by rewrite <- (app_assoc _ [c])].
  - transitivity (Some (true, Wr ((b ++ [c]) ++ nl_text cfg (S lv)) (E n false :: E array true :: r) (S lv) e)); [done|].
    cbn [sep_text]. by rewrite app_nil_r, <- app_assoc.
Qed.

Lemma txt_array lv l :
  txt lv (JArray l) = print_items factor (factor * lv) (chr "[") (chr "]") (map (txt (S lv)) l).
Proof.
  unfold txt. cbn [print_to]. do 2 f_equal.
  replace (factor * S lv)%nat with (factor + factor * lv)%nat by lia.
  by destruct (Nat.eqb_spec factor 0) as [->|].
Qed.

Lemma txt_object lv l :
  txt lv (JObject l) = print_items factor (factor * lv) (chr "{") (chr "}") (map (member_text (S lv)) l).
Proof.
  unfold txt, member_text. cbn [print_to].
  assert (Ho : (if (factor =? 0)%nat then factor * lv else factor + factor * lv)%nat = (factor * S lv)%nat).
  { replace (factor * S lv)%nat with (factor + factor * lv)%nat by lia. by destruct (Nat.eqb_spec factor 0) as [->|]. }
  by rewrite Ho.
Qed.

(** The items of a sequence and its end. *)
Lemma sequence_written l b r lv e :
  Forall written l -> forallb (writable cfg) l = true ->
  (all_of save l &&> end_sequence cfg) (Wr (b ++ chr "[" :: nl_text cfg (S lv)) (E array false :: r) (S lv) e)
    = Some (true, Wr (b ++ txt lv (JArray (map (to_json cfg (inside r)) l))) r lv e).
Proof.
  intros Hl Hw. rewrite (and_then_ok _ _ _ _ (items_written l _ false r (S lv) e Hl Hw)).
  unfold end_sequence. rewrite (and_then_ok _ _ _ _ (pop_if_ok array _ _ _ _ _)).
  rewrite <- app_assoc. cbn [app]. rewrite close_with_items; [by rewrite txt_array, map_map|by left|].
  apply Forall_map, List.Forall_forall. intros. apply print_to_closed.
Qed.

Lemma list_written l : Forall written l -> written (DList l).
Proof.
  intros Hl Hw. cbn [writable] in Hw.
  split; intros; cbn [save s_begin_sequence s_end_sequence the_writer json_writer to_json]; unfold begin_sequence.
  - by rewrite (and_then_ok _ _ _ _ (open_element array _ b r lv e)), sequence_written.
  - rewrite (and_then_ok _ _ _ _ (open_array array _ b f r lv e)), sequence_written by done.
    by rewrite <- app_assoc.
Qed.

Lemma tuple_written l : Forall written l -> written (DTuple l).
Proof. intros Hl Hw. exact (list_written l Hl Hw). Qed.

Lemma plain_quoted k : plain k = true -> print_escaped k = quoted k.
Proof. intros H%bool_decide_eq_true_1. unfold print_escaped. by rewrite H. Qed.

(** The value of a member and the end of the pair. *)
Lemma pair_value_written d b r lv e :
  written d -> writable cfg d = true ->
  (save d &&> end_key_value_pair) (Wr b (E element false :: E member false :: E object true :: r) lv e)
    = Some (true, Wr (b ++ txt lv (to_json cfg true d)) (E object true :: r) lv e).
Proof.
  intros Hd Hw. rewrite (and_then_ok _ _ _ _ (proj1 (Hd Hw) b _ lv e)).
  by destruct d; cbn [fill_top node]; apply pop_if_ok.
Qed.

Lemma begin_field_ok name b f r lv e :
  begin_field cfg name (Wr b (E object f :: r) lv e)
    = Some (true, Wr (b ++ sep_text f lv ++ quoted name ++ chars ": ")
        (E element false :: E member false :: E object true :: r) lv e).
Proof.
  unfold begin_field. rewrite (and_then_ok _ _ _ _ (begin_pair_ok b f r lv e)), add_key_ok. by rewrite <- !app_assoc.
Qed.

(** A mandatory field. *)
Lemma req_written name d b f r lv e :
  plain name = true -> written d -> writable cfg d = true ->
  (begin_field cfg name &&> save d &&> end_field) (Wr b (E object f :: r) lv e)
    = Some (true, Wr (b ++ emit f lv [member_text lv (name, to_json cfg true d)]) (E object true :: r) lv e).
Proof.
  intros Hn Hd Hw. rewrite (and_then_ok _ _ _ _ (begin_field_ok name b f r lv e)).
  unfold end_field. rewrite pair_value_written by done. unfold member_text. cbn [emit fst snd].
  rewrite plain_quoted by done. by rewrite app_nil_r, <- !app_assoc.
Qed.

(** The annotation of a variant. *)
Lemma begin_var_field_ok name types index b f r lv e :
  plain name = true -> variant_ok cfg name types index = true ->
  let annot := (chr "@" :: name ++ field_type_suffix cfg, JString (mapper cfg (List.nth index types 0))) in
  begin_var_field cfg name types index (Wr b (E object f :: r) lv e)
    = begin_field cfg name (Wr (b ++ emit f lv [member_text lv annot]) (E object true :: r) lv e).
Proof.
  intros Hn Hv annot. unfold variant_ok in Hv. unfold begin_var_field.
  destruct (types !! index) as [id|] eqn:Hid; [|done].
  assert (Hnth : List.nth index types 0 = id) by (by apply nth_lookup_Some).
  apply andb_prop in Hv as [Hm Hs]. destruct (mapper cfg id) as [|c t] eqn:Hmap; [done|].
  rewrite (and_then_ok _ _ _ _ (begin_pair_ok b f r lv e)), (and_then_ok _ _ _ _ (add_key_ok _ _ _ _ _ _ _)).
  erewrite and_then_ok; [|unfold pop; cbn [stack]; unfold add, set_stack; cbn [buf stack indentation_level err]; reflexivity].
  rewrite (and_then_ok _ _ _ _ (pop_if_ok member _ _ _ _ _)). f_equal. f_equal.
  unfold annot, member_text, txt. cbn [emit fst snd print_to]. rewrite Hnth, Hmap.
  rewrite !plain_quoted; [|done|].
  - by rewrite app_nil_r, <- !app_assoc.
  - unfold plain in *. apply bool_decide_eq_true_1 in Hs. apply bool_decide_eq_true_2.
    unfold escaped_body in *. cbn [flat_map]. by rewrite Hs.
Qed.

Definition field_members (name : list Z) (v : fval doc) : list (list Z * json) := field_json cfg (to_json cfg true) name v.

Lemma variant_written name types index d b f r lv e :
  plain name = true -> variant_ok cfg name types index = true -> written d -> writable cfg d = true ->
  (begin_var_field cfg name types index &&> save d &&> end_field) (Wr b (E object f :: r) lv e)
    = Some (true, Wr (b ++ emit f lv (map (member_text lv) (field_members name (VVar types index d))))
        (E object true :: r) lv e).
Proof.
  intros Hn Hv Hd Hw. unfold and_then at 1. rewrite begin_var_field_ok by done.
  pose proof (req_written name d (b ++ emit f lv [member_text lv (chr "@" :: name ++ field_type_suffix cfg,
    JString (mapper cfg (List.nth index types 0)))]) true r lv e Hn Hd Hw) as Hr.
  unfold and_then at 1 in Hr. rewrite Hr. cbn [field_members field_json map].
  change [?x; ?y] with ([x] ++ [y]). rewrite emit_app, orb_true_r. by rewrite <- app_assoc.
Qed.

Lemma absent_written name b f r lv e :
  plain name = true ->
  (begin_opt_field cfg name false &&> end_field) (Wr b (E object f :: r) lv e)
    = Some (true, Wr (b ++ emit f lv (map (member_text lv) (field_members name (VOpt None))))
        (E object (f || some_items (field_members name (VOpt None))) :: r) lv e).
Proof.
  intros Hn. unfold begin_opt_field, field_members, field_json, end_field. destruct (skip_empty_fields cfg); cbn [andb negb].
  - unfold and_then at 1. cbn [top stack node]. cbn [map emit some_items]. rewrite app_nil_r, orb_false_r.
    apply (pop_if_ok member).
  - unfold and_then at 1. rewrite (and_then_ok _ _ _ _ (begin_pair_ok b f r lv e)), (and_then_ok _ _ _ _ (add_key_ok _ _ _ _ _ _ _)).
    cbn [map some_items]. rewrite orb_true_r. unfold pop, add. cbn [stack buf indentation_level err set_stack].
    unfold set_stack. cbn [buf indentation_level err]. unfold end_key_value_pair. rewrite pop_if_ok.
    unfold member_text, txt. cbn [emit fst snd print_to]. rewrite plain_quoted by done.
    by rewrite app_nil_r, <- !app_assoc.
Qed.

Lemma begin_present_ok name w : begin_opt_field cfg name true w = begin_field cfg name w.
Proof.
  unfold begin_opt_field, begin_field. rewrite andb_false_r. unfold and_then.
  destruct (begin_key_value_pair cfg w) as [[[] w1]|]; try done. by destruct (add_key name w1) as [[[] w2]|].
Qed.

Lemma field_written name v b f r lv e :
  fval_all written v -> field_ok cfg (writable cfg) name v = true ->
  save_field save name v (Wr b (E object f :: r) lv e)
    = Some (true, Wr (b ++ emit f lv (map (member_text lv) (field_members name v)))
        (E object (f || some_items (field_members name v)) :: r) lv e).
Proof.
  intros Hv Hok. unfold field_ok in Hok. apply andb_prop in Hok as [Hn Hok].
  destruct v as [d|[d|]|types i d|types [[i d]|]]; cbn [fval_all] in Hv; cbn [save_field s_begin_field s_begin_opt_field
    s_begin_var_field s_begin_optvar_field s_end_field the_writer json_writer]; cbn [field_members field_json some_items];
    rewrite ?orb_true_r; try (apply andb_prop in Hok as [Hok1 Hok2]).
  - by apply req_written.
  - unfold and_then at 1. rewrite begin_present_ok. by apply req_written.
  - by apply absent_written.
  - by apply variant_written.
  - by apply variant_written.
  - by apply absent_written.
Qed.

Lemma fields_written fs b f r lv e :
  Forall (fun f => fval_all written f.2) fs -> forallb (fun f => field_ok cfg (writable cfg) f.1 f.2) fs = true ->
  all_of (fun f => save_field save f.1 f.2) fs (Wr b (E object f :: r) lv e)
    = Some (true, Wr (b ++ emit f lv (map (member_text lv) (flat_map (fun f => field_members f.1 f.2) fs)))
        (E object (f || some_items (flat_map (fun f => field_members f.1 f.2) fs)) :: r) lv e).
Proof.
  intros Hf. revert b f; induction Hf as [|[name v] fs Hv _ IH]; intros b f Hw.
  - cbn. by rewrite app_nil_r, orb_false_r.
  - cbn [forallb fst snd] in Hw. apply andb_prop in Hw as [Hw1 Hw2].
    rewrite (all_of_cons (fun f => save_field save f.1 f.2) (name, v) _ _ _ (field_written name v b f r lv e Hv Hw1)), IH by done.
    cbn [flat_map fst snd]. rewrite map_app, emit_app, <- app_assoc, <- orb_assoc.
    do 4 f_equal; [do 3 f_equal; by destruct (field_members name v)|do 2 f_equal; by destruct (field_members name v)].
Qed.

(** The members of an object and its end. *)
Lemma object_end b r lv e f ms :
  end_associative_array cfg (Wr (b ++ chr "{" :: nl_text cfg (S lv) ++ emit false (S lv) (map (member_text (S lv)) ms))
      (E object f :: r) (S lv) e)
    = Some (true, Wr (b ++ txt lv (JObject ms)) (fill_top r) lv e).
Proof.
  unfold end_associative_array. rewrite (and_then_ok _ _ _ _ (pop_if_ok object _ _ _ _ _)).
  rewrite close_with_items; [by rewrite txt_object|by right|].
  apply Forall_map, List.Forall_forall. intros m _. apply closed_app, closed_app, print_to_closed.
Qed.

Lemma map_items_written l b f r lv e :
  Forall (fun kv => written kv.2) l -> forallb (fun kv => is_str kv.1 && writable cfg kv.2) l = true ->
  all_of (fun kv => s_begin_key_value_pair &&> save kv.1 &&> save kv.2 &&> s_end_key_value_pair) l
      (Wr b (E object f :: r) lv e)
    = Some (true, Wr (b ++ emit f lv (map (member_text lv) (map (fun kv => (key_of kv.1, to_json cfg true kv.2)) l)))
        (E object (f || some_items l) :: r) lv e).
Proof.
  intros Hl. revert b f; induction Hl as [|[k d] l Hd _ IH]; intros b f Hw.
  - cbn. by rewrite app_nil_r, orb_false_r.
  - cbn [forallb fst snd] in *. apply andb_prop in Hw as [[Hk Hw1]%andb_prop Hw2].
    destruct k as [| | |key| | | | | | |]; try done. cbn [map emit some_items key_of fst snd] in *.
    set (go := fun kv : doc * doc => _).
    assert (Hstep : go (DStr key, d) (Wr b (E object f :: r) lv e)
      = Some (true, Wr (b ++ emit f lv [member_text lv (key, to_json cfg true d)]) (E object true :: r) lv e)).
    { unfold go. cbn [fst snd s_begin_key_value_pair s_end_key_value_pair the_writer json_writer].
      rewrite (and_then_ok _ _ _ _ (begin_pair_ok b f r lv e)).
      rewrite (and_then_ok _ _ _ (Wr ((b ++ sep_text f lv) ++ print_escaped key ++ chars ": ")
        (E element false :: E member false :: E object true :: r) lv e)) by done.
      rewrite pair_value_written by done. unfold member_text. cbn [emit fst snd]. by rewrite app_nil_r, <- !app_assoc. }
    rewrite (all_of_cons go _ _ _ _ Hstep), IH, orb_true_r by done. cbn [emit]. by rewrite app_nil_r, <- !app_assoc.
Qed.

Lemma add_type_annotation_ok id name b f g r lv e :
  add_type_annotation cfg id name (Wr b (E key f :: E element g :: r) lv e)
    = Some (true, Wr ((b ++ quoted (chars "@type") ++ chars ": ")
        ++ quoted (match mapper cfg id with [] => name | tname => tname end)) r lv e).
Proof. unfold add_type_annotation. by destruct (mapper cfg id). Qed.

(** The beginning of an object, in any context in which a container may open. *)
Lemma begin_object_ok id name w b r lv e :
  plain (match mapper cfg id with [] => name | tname => tname end) = true ->
  inside_object w = inside r ->
  open_with cfg object (chr "{") w = Some (true, Wr (b ++ chr "{" :: nl_text cfg (S lv)) (E object false :: r) (S lv) e) ->
  let ms := annotation cfg (inside r) id name in
  begin_object cfg id name w
    = Some (true, Wr ((b ++ chr "{" :: nl_text cfg (S lv)) ++ emit false (S lv) (map (member_text (S lv)) ms))
        (E object (some_items ms) :: r) (S lv) e).
Proof.
  intros Hn Hin Ho ms. unfold begin_object, ms, annotation. rewrite Hin. unfold begin_associative_array.
  destruct (_ || _); [cbn [map emit some_items]; by rewrite app_nil_r|].
  set (tn := match mapper cfg id with [] => name | tname => tname end) in *.
  set (b1 := b ++ chr "{" :: nl_text cfg (S lv)) in *.
  rewrite (and_then_ok _ _ _ _ Ho), (and_then_ok _ _ _ _ (begin_pair_ok b1 false r (S lv) e)).
  rewrite (and_then_ok _ _ _ _ (add_type_annotation_ok id name _ _ _ _ _ _)).
  unfold end_key_value_pair. rewrite pop_if_ok. unfold member_text, txt. cbn [map emit some_items fst snd print_to].
  rewrite (plain_quoted tn) by done. rewrite (plain_quoted (chars "@type")) by done.
  cbn [sep_text app]. by rewrite !app_nil_r, <- !app_assoc.
Qed.

Lemma object_written id name fs w b r lv e :
  Forall (fun f => fval_all written f.2) fs -> writable cfg (DObj id name fs) = true ->
  inside_object w = inside r ->
  open_with cfg object (chr "{") w = Some (true, Wr (b ++ chr "{" :: nl_text cfg (S lv)) (E object false :: r) (S lv) e) ->
  save (DObj id name fs) w
    = Some (true, Wr (b ++ txt lv (to_json cfg (inside r) (DObj id name fs))) (fill_top r) lv e).
Proof.
  intros Hf Hw Hin Ho. cbn [writable] in Hw. apply andb_prop in Hw as [Hn Hw].
  cbn [save s_begin_object s_end_object the_writer json_writer].
  rewrite (and_then_ok _ _ _ _ (begin_object_ok id name w b r lv e Hn Hin Ho)).
  rewrite (and_then_ok _ _ _ _ (fields_written fs _ _ r (S lv) e Hf Hw)).
  unfold end_object. rewrite <- !app_assoc. cbn [app].
  replace (some_items (annotation cfg (inside r) id name))
    with (false || some_items (map (member_text (S lv)) (annotation cfg (inside r) id name)))
    by (by destruct (annotation cfg (inside r) id name)).
  rewrite <- emit_app, <- map_app. apply object_end.
Qed.

Lemma map_written l w b r lv e :
  Forall (fun kv => written kv.2) l -> writable cfg (DMap l) = true ->
  open_with cfg object (chr "{") w = Some (true, Wr (b ++ chr "{" :: nl_text cfg (S lv)) (E object false :: r) (S lv) e) ->
  save (DMap l) w = Some (true, Wr (b ++ txt lv (to_json cfg (inside r) (DMap l))) (fill_top r) lv e).
Proof.
  intros Hl Hw Ho. cbn [writable] in Hw.
  cbn [save s_begin_associative_array s_end_associative_array the_writer json_writer]. unfold begin_associative_array.
  rewrite (and_then_ok _ _ _ _ Ho), (and_then_ok _ _ _ _ (map_items_written l _ _ r (S lv) e Hl Hw)).
  rewrite <- !app_assoc. cbn [app]. apply object_end.
Qed.

Lemma doc_written d : written d.
Proof.
  apply (doc_ind' written); [apply scalar_written|apply list_written|apply tuple_written|intros l IH|intros id name fs IH].
  - intros Hw. split; intros.
    + by rewrite (map_written l _ b r lv e IH Hw (open_element object _ b r lv e)).
    + rewrite (map_written l _ _ _ lv e IH Hw (open_array object _ b f r lv e)). by rewrite <- app_assoc.
  - intros Hw. split; intros.
    + by rewrite (object_written id name fs (Wr b (E element false :: r) lv e) b r lv e IH Hw eq_refl (open_element object _ b r lv e)).
    + rewrite (object_written id name fs (Wr b (E array f :: r) lv e) _ (E array true :: r) lv e IH Hw eq_refl
        (open_array object _ b f r lv e)). by rewrite <- app_assoc.
Qed.

Lemma saved_text d :
  writable cfg d = true ->
  save d fresh = Some (true, Wr (print_to factor 0 (to_json cfg false d)) [] 0 None).
Proof.
  intros Hw. unfold fresh. rewrite (proj1 (doc_written d Hw)). unfold txt. rewrite Nat.mul_0_r. by destruct d.
Qed.

(** Saving a value with the JSON writer succeeds on every value that the writer
    supports and leaves the text in the buffer that the printer of JSON values
    produces for the JSON form of the value: the same layout for every
    indentation, with the type annotations, without the empty fields if they are
    skipped, and with a balanced stack. *)
Theorem json_writer_prints d :
  writable cfg d = true ->
  save d fresh = Some (true, Wr (print_to factor 0 (to_json cfg false d)) [] 0 None).
Proof. apply saved_text. Qed.

End Layout.

(** ** A concrete value *)

Definition demo_mapper (id : Z) : list Z := if id =? 1 then chars "string" else if id =? 2 then chars "list" else [].

Definition demo_config : config := default_config demo_mapper.

Definition demo_doc : doc :=
  DObj 42 (chars "point") [
    (chars "x", VReq (DInt true 32 (-1)));
    (chars "note", VOpt None);
    (chars "tags", VVar [1; 2] 1 (DList [DStr (chars "a"); DStr [10; 34]]));
    (chars "sizes", VReq (DMap [(DStr (chars "k"), DTuple [DBool true; DInt false 8 255])]))].

Lemma json_writer_prints_witness :
  writable demo_config demo_doc = true /\
  save (SaveInspector0 := json_writer demo_config) demo_doc fresh
    = Some (true, Wr (print_to 0 0 (to_json demo_config false demo_doc)) [] 0 None).
Proof. split; [reflexivity|]. apply (json_writer_prints demo_config demo_doc). reflexivity. Defined.

(** ** Behaviour that the code does not intend *)

(** A number or a Boolean as the key of a map is printed, but the position of the
    key stays on the stack, so that saving the map fails. *)
Lemma integer_keys_fail (m : Z -> list Z) :
  exists w, save (SaveInspector0 := json_writer (default_config m)) (DMap [(DInt true 32 1, DBool true)]) fresh
    = Some (false, w).
Proof. eexists. reflexivity. Qed.

(** After a failure inside of a container, [reset] keeps the indentation, so that the
    next value is printed as if it were nested. *)
Lemma reset_keeps_indentation (m : Z -> list Z) :
  let cfg := Config 2 true false (chars "-type") m in
  exists w w',
    save (SaveInspector0 := json_writer cfg) (DList [DU16 []]) fresh = Some (false, w) /\
    save (SaveInspector0 := json_writer cfg) (DList [DBool true]) (reset w) = Some (true, w') /\
    buf w' <> print_to 2 0 (to_json cfg false (DList [DBool true])).
Proof. eexists _, _. split_and!; [reflexivity|reflexivity|]. by intros H%(f_equal length). Qed.

End JsonWriter.
