(* ===== verification/JsonReader.v ===== *)
(** [json_reader.cpp]: the inspector that loads a value from JSON, with
    [detail/bounds_checker.hpp].

    The stack of the reader holds positions in the parsed value: a value, an
    object whose fields are read by name, a key, the rest of an array or the
    rest of an object that is read member by member.  The list has the top
    first, and the JSON values are immutable, so that positions are values
    themselves. *)
From Stdlib Require Import Strings.Ascii Strings.String Floats.SpecFloat.
From stdpp Require Import sets.
From S2P Require Import Prelude.
From S2P Require Import Fsm.
From S2P Require Import Printer.
From S2P Require Import ReadNumber.
From S2P Require Import Json.
From S2P Require Import JsonRoundtrip.
From S2P Require Import Inspector.
From S2P Require Import JsonWriter.
#[local] Open Scope Z_scope.
#[local] Open Scope caf_scope.

Import Fsm Printer ReadNumber Json JsonRoundtrip Inspector JsonWriter.

Module JsonReader.

(** ** State *)

Inductive frame :=
  | FValue (v : json)
  | FObject (ms : list (list Z * json))
  | FNull
  | FKey (k : list Z)
  | FSeq (l : list json)
  | FMembers (l : list (list Z * json)).

Inductive rerror := RSec (e : sec) | RPec (c : pec).

Record reader := Rd {
  st : option (list frame);
  root : option json;
  field : list (list Z);
  rerr : option rerror;
}.

Definition new_reader : reader := Rd None None [] None.

Definition rset_error (e : sec) (r : reader) : reader := Rd (st r) (root r) (field r) (Some (RSec e)).

(** Setting [err_] and returning [false]. *)
Definition rrefuse {A} (e : sec) : rd reader A := fun r => (None, rset_error e r).

Definition set_st (s : list frame) (r : reader) : reader := Rd (Some s) (root r) (field r) (rerr r).

Definition set_field (f : list (list Z)) (r : reader) : reader := Rd (st r) (root r) f (rerr r).

Definition rreset (r : reader) : reader := Rd None (root r) [] None.

(** [load]; the unescaper of [parse_shallow] differs from the one of [parse] only
    in where strings are stored, and the root of a failed attempt is never read. *)
Definition load_text (text : list Z) (r : reader) : option (bool * reader) :=
  match parse text with
  | Some (_, Some v) => Some (true, Rd (Some [FValue v]) (Some v) [] None)
  | Some (c, None) => Some (false, Rd None None [] (Some (RPec c)))
  | None => None
  end.

Definition revert (r : reader) : reader :=
  match st r, root r with
  | Some _, Some v => Rd (Some [FValue v]) (root r) [] None
  | _, _ => r
  end.

(** [pop] and [push], on a stack that is there. *)
Definition rpop (r : reader) : reader :=
  match st r with Some (_ :: s) => set_st s r | _ => r end.

Definition rpush (f : frame) (r : reader) : reader :=
  match st r with Some s => set_st (f :: s) r | None => r end.

(** ** Members *)

Fixpoint find_member (ms : list (list Z * json)) (k : list Z) : option json :=
  match ms with
  | [] => None
  | (k', v) :: r => if bool_decide (k' = k) then Some v else find_member r k
  end.

(** The annotation of a variant: the member with the key [@], name, suffix, if
    its value is a string. *)
Fixpoint field_type (ms : list (list Z * json)) (name suffix : list Z) : list Z :=
  match ms with
  | [] => []
  | (k, JString s) :: r =>
      if bool_decide (k = chr "@" :: name ++ suffix) then s else field_type r name suffix
  | _ :: r => field_type r name suffix
  end.

(** ** Consuming values *)

(** [consume<advance>]. *)
Definition consume {A} (advance : bool) (f : json -> rd reader A) : rd reader A := fun r =>
  let on_value v :=
    match f v r with
    | (Some a, r') => (Some a, if advance then rpop r' else r')
    | (None, r') => (None, r')
    end in
  match st r with
  | None | Some [] => rrefuse runtime_error r
  | Some (FValue v :: _) => on_value v
  | Some (FKey k :: _) => on_value (JString k)
  | Some (FSeq [] :: _) => rrefuse runtime_error r
  | Some (FSeq (v :: l) :: s) => f v (if advance then set_st (FSeq l :: s) r else r)
  | Some _ => rrefuse runtime_error r
  end.

(** [bounds_checker<T>::check(x)] for a 64-bit number, signed or not, and a type of
    [w] bits: the conversion to the type and back. *)
Definition bounds_check (from_signed to_signed : bool) (w x : Z) : bool :=
  let converted := if to_signed then swrap w x else uwrap w x in
  let back := if from_signed then swrap 64 converted else uwrap 64 converted in
  if Bool.eqb from_signed to_signed then back =? x
  else if from_signed then (0 <=? x) && (back =? x)
  else (0 <=? converted) && (back =? x).

Definition integer (to_signed : bool) (w : Z) : rd reader Z :=
  consume true (fun v =>
    match v with
    | JInteger z => if bounds_check true to_signed w z then rret (if to_signed then swrap w z else uwrap w z)
                    else rrefuse runtime_error
    | JUnsigned z => if bounds_check false to_signed w z then rret (if to_signed then swrap w z else uwrap w z)
                     else rrefuse runtime_error
    | _ => rrefuse runtime_error
    end).

Definition rvalue_bool : rd reader bool :=
  consume true (fun v => match v with JBool b => rret b | _ => rrefuse runtime_error end).

Definition rvalue_double : rd reader double :=
  consume true (fun v =>
    match v with
    | JDouble d => rret d
    | JInteger z | JUnsigned z => rret (of_int z)
    | _ => rrefuse runtime_error
    end).

Definition rvalue_string : rd reader (list Z) :=
  consume true (fun v => match v with JString s => rret s | _ => rrefuse runtime_error end).

(** ** Objects and fields *)

Definition fetch_next_object_name : rd reader (list Z) :=
  consume false (fun v =>
    match v with
    | JObject ms =>
        match find_member ms (chars "@type") with
        | Some (JString s) => rret s
        | _ => rrefuse runtime_error
        end
    | _ => rrefuse runtime_error
    end).

Definition rbegin_object (id : Z) (name : list Z) : rd reader unit :=
  consume false (fun v =>
    match v with
    | JObject ms => fun r => (Some tt, rpush (FObject ms) r)
    | _ => rrefuse runtime_error
    end).

Definition rend_object : rd reader unit := fun r =>
  match st r with
  | Some (FObject _ :: s) =>
      let r1 := set_st s r in
      match s with
      | FValue _ :: s' => (Some tt, set_st s' r1)
      | FSeq l :: s' => (Some tt, set_st (FSeq (tl l) :: s') r1)
      | _ => rrefuse runtime_error r1
      end
  | _ => rrefuse runtime_error r
  end.

(** [SCOPE(position::object)] and [field_.push_back(name)]. *)
Definition in_object {A} (name : list Z) (f : list (list Z * json) -> rd reader A) : rd reader A := fun r =>
  match st r with
  | Some (FObject ms :: _) => f ms (set_field (field r ++ [name]) r)
  | _ => rrefuse runtime_error r
  end.

Definition rbegin_field (name : list Z) : rd reader unit :=
  in_object name (fun ms =>
    match find_member ms name with
    | Some v => fun r => (Some tt, rpush (FValue v) r)
    | None => rrefuse runtime_error
    end).

(** The value of a member that is neither missing nor null. *)
Definition present_member (ms : list (list Z * json)) (name : list Z) : option json :=
  match find_member ms name with
  | Some JNull | None => None
  | Some v => Some v
  end.

Definition rbegin_opt_field (name : list Z) : rd reader bool :=
  in_object name (fun ms =>
    match present_member ms name with
    | Some v => fun r => (Some true, rpush (FValue v) r)
    | None => rret false
    end).

(** [std::find] in the IDs of the types. *)
Fixpoint find_index (id : Z) (types : list Z) : option nat :=
  match types with
  | [] => None
  | t :: r => if t =? id then Some 0%nat else option_map S (find_index id r)
  end.

Definition invalid_type_id : Z := 65535.

Section Reader.
  Context (suffix : list Z) (to_id : list Z -> Z).

Definition fetch_next_object_type : rd reader Z :=
  let+ name := fetch_next_object_name in
  if to_id name =? invalid_type_id then rrefuse runtime_error else rret (to_id name).

Definition rbegin_optvar_field (name : list Z) (types : list Z) : rd reader (option nat) :=
  in_object name (fun ms =>
    match present_member ms name with
    | Some v =>
        let id := to_id (field_type ms name suffix) in
        match (if id =? invalid_type_id then None else find_index id types) with
        | Some i => fun r => (Some (Some i), rpush (FValue v) r)
        | None => rret None
        end
    | None => rret None
    end).

Definition rbegin_var_field (name : list Z) (types : list Z) : rd reader nat :=
  let+ o := rbegin_optvar_field name types in
  match o with
  | Some i => rret i
  | None => rrefuse runtime_error
  end.

Definition rend_field : rd reader unit := fun r =>
  match st r with
  | Some (FObject _ :: _) => (Some tt, set_field (removelast (field r)) r)
  | _ => rrefuse runtime_error r
  end.

(** ** Sequences, tuples and maps *)

Definition rbegin_sequence : rd reader nat :=
  consume false (fun v =>
    match v with
    | JArray l => fun r => (Some (length l), rpush (FSeq l) r)
    | _ => rrefuse runtime_error
    end).

Definition rend_sequence : rd reader unit := fun r =>
  match st r with
  | Some (FSeq [] :: s) => consume true (fun _ => rret tt) (set_st s r)
  | _ => rrefuse runtime_error r
  end.

Definition rbegin_tuple (size : nat) : rd reader unit :=
  let+ list_size := rbegin_sequence in
  if (list_size =? size)%nat then rret tt else rrefuse conversion_failed.

Definition rbegin_key_value_pair : rd reader unit := fun r =>
  match st r with
  | Some (FMembers ((k, v) :: _) :: _) => (Some tt, rpush (FKey k) (rpush (FValue v) r))
  | _ => rrefuse runtime_error r
  end.

(** Advancing behind the end would be undefined; the loop of [map] never does. *)
Definition rend_key_value_pair : rd reader unit := fun r =>
  match st r with
  | Some (FMembers l :: s) => (Some tt, set_st (FMembers (tl l) :: s) r)
  | _ => rrefuse runtime_error r
  end.

(** The position of the object is popped before its members are pushed, also if
    it is an array that contains the object. *)
Definition rbegin_associative_array : rd reader nat :=
  consume false (fun v =>
    match v with
    | JObject ms => fun r => (Some (length ms), rpush (FMembers ms) (rpop r))
    | _ => rrefuse runtime_error
    end).

Definition rend_associative_array : rd reader unit := fun r =>
  match st r with
  | Some (FMembers [] :: s) => (Some tt, set_st s r)
  | _ => rrefuse runtime_error r
  end.

Definition json_reader : LoadInspector reader := {|
  l_emplace_error := rset_error;
  l_begin_object := rbegin_object;
  l_end_object := rend_object;
  l_begin_field := rbegin_field;
  l_begin_opt_field := rbegin_opt_field;
  l_begin_var_field := rbegin_var_field;
  l_begin_optvar_field := rbegin_optvar_field;
  l_end_field := rend_field;
  l_begin_tuple := rbegin_tuple;
  l_end_tuple := rend_sequence;
  l_begin_key_value_pair := rbegin_key_value_pair;
  l_end_key_value_pair := rend_key_value_pair;
  l_begin_sequence := rbegin_sequence;
  l_end_sequence := rend_sequence;
  l_begin_associative_array := rbegin_associative_array;
  l_end_associative_array := rend_associative_array;
  l_bool := rvalue_bool;
  l_int := integer;
  l_double := rvalue_double;
  l_string := rvalue_string;
|}.

End Reader.

(** ** Reading back what the writer prints *)

Section Roundtrip.
  Context (cfg : config) (to_id : list Z -> Z).

#[local] Instance the_reader : LoadInspector reader := json_reader (field_type_suffix cfg) to_id.

Definition annot_key (name : list Z) : list Z := chr "@" :: name ++ field_type_suffix cfg.

(** The keys that belong to a field. *)
Definition fkeys (f : list Z * fval doc) : list (list Z) :=
  match f.2 with
  | VVar _ _ _ | VOptVar _ _ => [f.1; annot_key f.1]
  | _ => [f.1]
  end.

Definition obj_name (id : Z) (name : list Z) : list Z := match mapper cfg id with [] => name | tname => tname end.

(** The name of the type of a variant leads back to its ID. *)
Definition variant_fits (types : list Z) (index : nat) : bool :=
  match types !! index with
  | Some id =>
      bool_decide (all_bytes (mapper cfg id)) && (to_id (mapper cfg id) =? id) && negb (id =? invalid_type_id)
  | None => false
  end.

Definition field_fits (ok : doc -> bool) (v : fval doc) : bool :=
  match v with
  | VReq x | VOpt (Some x) => ok x
  | VVar types i x | VOptVar types (Some (i, x)) => variant_fits types i && ok x
  | VOpt None | VOptVar _ None => true
  end.

(** Values that the reader can load: no map is an element of a list or a tuple,
    since [begin_associative_array] pops the position in the list that contains the
    map, and the keys of an object are different from each other. *)
Fixpoint fits (in_seq : bool) (d : doc) : bool :=
  match d with
  | DList l | DTuple l => forallb (fits true) l
  | DMap l => negb in_seq && forallb (fun kv => fits false kv.2) l
  | DObj id name fs =>
      let keys := chars "@type" :: flat_map fkeys fs in
      bool_decide (NoDup keys) && bool_decide (Forall all_bytes (obj_name id name :: keys))
        && forallb (fun f => field_fits (fits false) f.2) fs
  | _ => true
  end.

(** The stack before and after a value was read. *)
Definition before (in_seq : bool) (j : json) (l : list json) (s : list frame) : list frame :=
  if in_seq then FSeq (j :: l) :: s else FValue j :: s.

Definition behind (in_seq : bool) (l : list json) (s : list frame) : list frame :=
  if in_seq then FSeq l :: s else s.

Definition reads_back (d : doc) : Prop :=
  forall k t in_seq inside l s ro f e,
    typed k t d -> fits in_seq d = true ->
    load t (Rd (Some (before in_seq (canon (to_json cfg inside d)) l s)) ro f e)
      = (Some d, Rd (Some (behind in_seq l s)) ro f e).

Lemma rbind_ok {A B} (m : rd reader A) (g : A -> rd reader B) r a r' : m r = (Some a, r') -> rbind m g r = g a r'.
Proof. intros H. unfold rbind. by rewrite H. Qed.

Lemma consume_value {A} (g : json -> rd reader A) in_seq j l s ro f e a :
  (forall r, g j r = (Some a, r)) ->
  consume true g (Rd (Some (before in_seq j l s)) ro f e) = (Some a, Rd (Some (behind in_seq l s)) ro f e).
Proof. intros H. by destruct in_seq; unfold consume, before; cbn [st]; rewrite H. Qed.

Lemma consume_peek {A} (g : json -> rd reader A) in_seq j l s ro f e :
  consume false g (Rd (Some (before in_seq j l s)) ro f e) = g j (Rd (Some (before in_seq j l s)) ro f e).
Proof. destruct in_seq; unfold consume, before; cbn [st]; by destruct (g j _) as [[]]. Qed.

(** *** Scalars *)

Lemma sint_64 w z : w = 8 \/ w = 16 \/ w = 32 \/ w = 64 -> is_sint w z -> is_sint 64 z.
Proof. unfold is_sint. intros [->|[->|[->| ->]]]; lia. Qed.

Lemma uint_64 w z : w = 8 \/ w = 16 \/ w = 32 \/ w = 64 -> is_uint w z -> is_uint 64 z.
Proof. unfold is_uint. intros [->|[->|[->| ->]]]; lia. Qed.

Definition in_range (is_signed : bool) (w x : Z) : Prop := if is_signed then is_sint w x else is_uint w x.

Definition converted (is_signed : bool) (w x : Z) : Z := if is_signed then swrap w x else uwrap w x.

Lemma converted_range sg w x : 0 < w -> in_range sg w (converted sg w x).
Proof. intros Hw. destruct sg; [by apply swrap_range|apply uwrap_range; lia]. Qed.

Lemma converted_id sg w x : 0 < w -> in_range sg w x -> converted sg w x = x.
Proof. intros Hw Hx. destruct sg; [by apply swrap_id|by apply uwrap_id]. Qed.

(** The check of [bounds_checker] is exact: a 64-bit number passes if and only if it is
    a value of the type. *)
Lemma bounds_check_exact fs ts w x :
  w = 8 \/ w = 16 \/ w = 32 \/ w = 64 -> in_range fs 64 x ->
  bounds_check fs ts w x = true <-> in_range ts w x.
Proof.
  intros Hw Hx. unfold bounds_check. fold (converted ts w x). fold (converted fs 64 (converted ts w x)).
  pose proof (converted_range ts w x ltac:(lia)) as Hc. split; intros H.
  - destruct fs, ts; cbn [Bool.eqb] in H; try apply andb_prop in H as [H0%Z.leb_le H]; apply Z.eqb_eq in H.
    + rewrite converted_id in H; [by rewrite <- H|lia|by apply (sint_64 w)].
    + destruct (decide (w = 64)) as [-> |Hne]; [unfold in_range, is_sint, is_uint in *; lia|].
      rewrite converted_id in H; [by rewrite <- H|lia|].
      unfold in_range, is_sint, is_uint in *. destruct Hw as [->|[->|[->| ->]]]; lia.
    + rewrite converted_id in H; [by rewrite <- H|lia|].
      unfold in_range, is_sint, is_uint in *. destruct Hw as [->|[->|[->| ->]]]; lia.
    + rewrite converted_id in H; [by rewrite <- H|lia|by apply (uint_64 w)].
  - rewrite (converted_id ts w x ltac:(lia) H), (converted_id fs 64 x ltac:(lia) Hx).
    destruct fs, ts; unfold in_range, is_sint, is_uint in *; cbn [Bool.eqb]; lia.
Qed.

(** An integer is read as it is if it is a value of the type, and refused otherwise. *)
Lemma integer_exact ts w x in_seq l s ro f e :
  w = 8 \/ w = 16 \/ w = 32 \/ w = 64 -> in_range (x <? 0) 64 x ->
  let j := if x <? 0 then JInteger x else JUnsigned x in
  (in_range ts w x ->
    integer ts w (Rd (Some (before in_seq j l s)) ro f e) = (Some x, Rd (Some (behind in_seq l s)) ro f e)) /\
  (~ in_range ts w x -> (integer ts w (Rd (Some (before in_seq j l s)) ro f e)).1 = None).
Proof.
  intros Hw Hx j. pose proof (bounds_check_exact (x <? 0) ts w x Hw Hx) as Hb. split; intros Hr.
  - apply consume_value. intros r. fold (converted ts w x). unfold j.
    destruct (x <? 0); rewrite (proj2 Hb Hr); fold (converted ts w x); by rewrite (converted_id ts w x ltac:(lia) Hr).
  - assert (Hf : bounds_check (x <? 0) ts w x = false) by (destruct (bounds_check (x <? 0) ts w x); [by destruct Hr; apply Hb|done]).
    unfold integer, consume, before, j. by destruct in_seq; cbn [st]; destruct (x <? 0); rewrite Hf.
Qed.

Lemma int_reads_back sg w z : reads_back (DInt sg w z).
Proof.
  intros k t in_seq inside l s ro f e Ht _. destruct k, t as [| | | | | |[] ?|]; try done; destruct Ht as (-> & -> & Hw & Hz);
    cbn [load l_int the_reader json_reader];
    (erewrite rbind_ok; [reflexivity|]).
  all: assert (Hx : in_range (z <? 0) 64 z) by (destruct sg, (Z.ltb_spec z 0); unfold in_range, is_sint, is_uint in *;
    destruct Hw as [->|[->|[->| ->]]]; lia).
  all: assert (Hj : canon (to_json cfg inside (DInt sg w z)) = if z <? 0 then JInteger z else JUnsigned z)
    by (destruct sg; [done|]; cbn [to_json canon]; destruct (Z.ltb_spec z 0); [unfold is_uint in Hz; lia|done]).
  all: rewrite Hj; by apply (integer_exact sg w z).
Qed.

Lemma scalar_reads_back d : match d with DList _ | DTuple _ | DMap _ | DObj _ _ _ => True | _ => reads_back d end.
Proof.
  destruct d as [b|sg w z|x|x|x|x|x|l|l|l|id name fs]; try exact I; try apply int_reads_back;
    intros k t in_seq inside l s ro f e Ht _; destruct k, t as [| | | | | |[] ?|]; try done;
    cbn [load l_bool l_string the_reader json_reader to_json canon];
    (erewrite rbind_ok; [reflexivity|]); by apply consume_value.
Qed.

(** *** Lists and tuples *)

Lemma rend_sequence_ok in_seq j l s ro f e :
  rend_sequence (Rd (Some (FSeq [] :: before in_seq j l s)) ro f e) = (Some tt, Rd (Some (behind in_seq l s)) ro f e).
Proof. unfold rend_sequence. cbn [st set_st]. by apply consume_value. Qed.

Lemma rbegin_sequence_ok in_seq js l s ro f e :
  rbegin_sequence (Rd (Some (before in_seq (JArray js) l s)) ro f e)
    = (Some (length js), Rd (Some (FSeq js :: before in_seq (JArray js) l s)) ro f e).
Proof. unfold rbegin_sequence. by rewrite consume_peek. Qed.

Lemma items_read k t inside ds s ro f e :
  Forall reads_back ds -> Forall (typed k t) ds -> forallb (fits true) ds = true ->
  load_n (length ds) (load t) (Rd (Some (FSeq (map canon (map (to_json cfg inside) ds)) :: s)) ro f e)
    = (Some ds, Rd (Some (FSeq [] :: s)) ro f e).
Proof.
  intros Hr. induction Hr as [|d ds Hd _ IH]; intros Ht Hf; [done|]. apply Forall_cons in Ht as [Ht1 Ht2].
  cbn [forallb] in Hf. apply andb_prop in Hf as [Hf1 Hf2]. cbn [length load_n map].
  erewrite rbind_ok; [|apply (Hd k t true inside _ s ro f e Ht1 Hf1)]. cbn [behind].
  by rewrite (rbind_ok _ _ _ _ _ (IH Ht2 Hf2)).
Qed.

Lemma elements_read k ts inside ds s ro f e :
  Forall reads_back ds -> Forall2 (typed k) ts ds -> forallb (fits true) ds = true ->
  load_seq (map load ts) (Rd (Some (FSeq (map canon (map (to_json cfg inside) ds)) :: s)) ro f e)
    = (Some ds, Rd (Some (FSeq [] :: s)) ro f e).
Proof.
  intros Hr Ht. revert Hr; induction Ht as [|t d ts ds Ht1 Ht2 IH]; intros Hr Hf; [done|]. apply Forall_cons in Hr as [Hd Hr].
  cbn [forallb] in Hf. apply andb_prop in Hf as [Hf1 Hf2]. cbn [load_seq map].
  erewrite rbind_ok; [|apply (Hd k t true inside _ s ro f e Ht1 Hf1)]. cbn [behind].
  by rewrite (rbind_ok _ _ _ _ _ (IH Hr Hf2)).
Qed.

Lemma list_reads_back ds : Forall reads_back ds -> reads_back (DList ds).
Proof.
  intros Hr k t in_seq inside l s ro f e Ht Hf. destruct k as [|k], t as [| | | | | |[] ?|]; try done. cbn [typed] in Ht.
  cbn [load l_begin_sequence l_end_sequence the_reader json_reader to_json canon].
  rewrite (rbind_ok _ _ _ _ _ (rbegin_sequence_ok _ _ _ _ _ _ _)), !length_map.
  rewrite (rbind_ok _ _ _ _ _ (items_read k _ inside ds _ ro f e Hr Ht Hf)).
  by rewrite (rbind_ok _ _ _ _ _ (rend_sequence_ok _ _ _ _ _ _ _)).
Qed.

Lemma tuple_reads_back ds : Forall reads_back ds -> reads_back (DTuple ds).
Proof.
  intros Hr k t in_seq inside l s ro f e Ht Hf. destruct k as [|k], t as [| | | | | |[] ?|]; try done. cbn [typed] in Ht.
  cbn [load l_begin_tuple l_end_tuple the_reader json_reader to_json canon]. unfold rbegin_tuple.
  erewrite rbind_ok; [|rewrite (rbind_ok _ _ _ _ _ (rbegin_sequence_ok _ _ _ _ _ _ _)), !length_map,
    <- (Forall2_length _ _ _ Ht), Nat.eqb_refl; reflexivity].
  rewrite (rbind_ok _ _ _ _ _ (elements_read k _ inside ds _ ro f e Hr Ht Hf)).
  by rewrite (rbind_ok _ _ _ _ _ (rend_sequence_ok _ _ _ _ _ _ _)).
Qed.

(** *** Maps *)

Lemma key_fresh (k : doc) (xs : list (doc * doc)) x :
  k = DStr x -> k ∉ map fst xs -> existsb (fun kv => key_eqb k kv.1) xs = false.
Proof.
  intros -> Hk. induction xs as [|[k' v] xs IH]; [done|]. cbn [map fst] in Hk. apply not_elem_of_cons in Hk as [Hne Hk].
  cbn [existsb fst]. rewrite (IH Hk), orb_false_r. destruct k'; try done. cbn [key_eqb].
  apply bool_decide_eq_false_2. by intros ->.
Qed.

Definition map_json (l : list (doc * doc)) : list (list Z * json) :=
  map (fun kv => (kv.1, canon kv.2)) (map (fun kv => (key_of kv.1, to_json cfg true kv.2)) l).

Lemma pairs_read k t l xs s ro f e :
  Forall (fun kv => reads_back kv.2) l ->
  Forall (fun kv => (exists x, kv.1 = DStr x /\ all_bytes x) /\ typed k t kv.2) l ->
  forallb (fun kv => fits false kv.2) l = true -> NoDup (map fst (xs ++ l)) ->
  load_map (length l) (load TStr) (load t) xs (Rd (Some (FMembers (map_json l) :: s)) ro f e)
    = (Some (xs ++ l), Rd (Some (FMembers [] :: s)) ro f e).
Proof.
  intros Hr. revert xs; induction Hr as [|[kd d] l Hd _ IH]; intros xs Ht Hf Hn.
  - by rewrite app_nil_r.
  - apply Forall_cons in Ht as [[(x & Hx & _) Ht1] Ht2]. cbn [forallb fst snd] in *. apply andb_prop in Hf as [Hf1 Hf2].
    cbn [length load_map l_begin_key_value_pair l_end_key_value_pair the_reader json_reader]. subst kd.
    unfold map_json. cbn [map fst snd key_of].
    erewrite rbind_ok; [|unfold rbegin_key_value_pair; cbn [st]; reflexivity].
    unfold rpush, set_st; cbn [st root field rerr].
    erewrite rbind_ok; [|reflexivity]. cbn [rpop st set_st root field rerr].
    erewrite rbind_ok; [|apply (Hd k t false true [] _ ro f e Ht1 Hf1)]. cbn [behind].
    erewrite rbind_ok; [|unfold rend_key_value_pair; cbn [st]; reflexivity]. cbn [tl].
    rewrite (key_fresh _ _ x); [|done|].
    + unfold set_st; cbn [root field rerr]. fold (map_json l). rewrite IH; [by rewrite <- app_assoc|done|done|].
      by rewrite <- app_assoc.
    + rewrite map_app in Hn. cbn [map fst] in Hn. apply NoDup_app in Hn as (_ & Hn & _). intros Hin. apply (Hn _ Hin). left.
Qed.

Lemma map_reads_back l : Forall (fun kv => reads_back kv.2) l -> reads_back (DMap l).
Proof.
  intros Hr k t in_seq inside xs s ro f e Ht Hf. destruct k as [|k], t as [| | | | | |[] t|]; try done. cbn [typed] in Ht.
  destruct Ht as [Hn Ht]. cbn [fits] in Hf. apply andb_prop in Hf as [Hs Hf]. destruct in_seq; [done|].
  cbn [load l_begin_associative_array l_end_associative_array the_reader json_reader to_json canon].
  unfold rbegin_associative_array. erewrite rbind_ok; [|rewrite consume_peek; reflexivity].
  rewrite !length_map. cbn [before rpop st set_st rpush root field rerr].
  rewrite (rbind_ok _ _ _ _ _ (pairs_read k t l [] s ro f e Hr Ht Hf Hn)).
  by erewrite rbind_ok; [|reflexivity].
Qed.

(** *** Objects *)

Definition canon_members (ms : list (list Z * json)) : list (list Z * json) := map (fun kv => (kv.1, canon kv.2)) ms.

(** The members of a field, as the reader finds them. *)
Definition own (f : list Z * fval doc) : list (list Z * json) :=
  canon_members (field_json cfg (to_json cfg true) f.1 f.2).

Lemma find_member_mid P Q R k :
  k ∉ map fst P -> k ∉ map fst R -> find_member (P ++ Q ++ R) k = find_member Q k.
Proof.
  intros HP HR. induction P as [|[k' v] P IH].
  - cbn [app]. induction Q as [|[k' v] Q IH]; cbn [app find_member].
    + induction R as [|[k' v] R IH]; [done|]. cbn [map fst find_member] in *. apply not_elem_of_cons in HR as [Hne HR].
      by rewrite bool_decide_eq_false_2, IH.
    + case_bool_decide; [done|exact IH].
  - cbn [map fst app find_member] in *. apply not_elem_of_cons in HP as [Hne HP]. by rewrite bool_decide_eq_false_2, IH.
Qed.

Lemma field_type_mid P Q R name suffix :
  (chr "@" :: name ++ suffix) ∉ map fst P -> (chr "@" :: name ++ suffix) ∉ map fst R ->
  field_type (P ++ Q ++ R) name suffix = field_type Q name suffix.
Proof.
  intros HP HR. induction P as [|[k' v] P IH].
  - cbn [app]. induction Q as [|[k' v] Q IH]; cbn [app field_type].
    + induction R as [|[k' v] R IH]; [done|]. cbn [map fst field_type] in *. apply not_elem_of_cons in HR as [Hne HR].
      destruct v; try (by apply IH). rewrite bool_decide_eq_false_2 by done. by apply IH.
    + destruct v; try exact IH. case_bool_decide; [done|exact IH].
  - cbn [map fst app field_type] in *. apply not_elem_of_cons in HP as [Hne HP].
    destruct v; try (by apply IH). rewrite bool_decide_eq_false_2 by done. by apply IH.
Qed.

(** In the object, a field is found where it was written. *)
Definition field_found (ms : list (list Z * json)) (f : list Z * fval doc) : Prop :=
  find_member ms f.1 = find_member (own f) f.1 /\
  match f.2 with
  | VVar _ _ _ | VOptVar _ _ => field_type ms f.1 (field_type_suffix cfg) = field_type (own f) f.1 (field_type_suffix cfg)
  | _ => True
  end.

Lemma canon_members_keys ms : map fst (canon_members ms) = map fst ms.
Proof. unfold canon_members. by rewrite map_map. Qed.

Lemma own_keys f : map fst (own f) ⊆ fkeys f.
Proof.
  unfold own. rewrite canon_members_keys. destruct f as [name [d|[d|]|ts i d|ts [[i d]|]]]; cbn [fkeys field_json fst snd map];
    try case_match; unfold annot_key; set_solver.
Qed.

Lemma owns_keys fs : map fst (flat_map own fs) ⊆ flat_map fkeys fs.
Proof.
  induction fs as [|f fs IH]; [done|]. cbn [flat_map]. rewrite map_app. intros k [Hk|Hk]%elem_of_app; apply elem_of_app;
    [left; by apply own_keys|right; by apply IH].
Qed.

Lemma object_members inside id name fs :
  canon (to_json cfg inside (DObj id name fs)) = JObject (canon_members (annotation cfg inside id name) ++ flat_map own fs).
Proof.
  cbn [to_json canon]. rewrite map_app. do 2 f_equal.
  induction fs as [|f fs IH]; [done|]. cbn [flat_map]. by rewrite map_app, IH.
Qed.

Lemma annotation_keys inside id name : map fst (canon_members (annotation cfg inside id name)) ⊆ [chars "@type"].
Proof. rewrite canon_members_keys. unfold annotation. case_match; [apply list_subseteq_nil|done]. Qed.

Lemma fields_found inside id name fs :
  NoDup (chars "@type" :: flat_map fkeys fs) ->
  Forall (field_found (canon_members (annotation cfg inside id name) ++ flat_map own fs)) fs.
Proof.
  intros Hn. apply List.Forall_forall. intros f Hin. apply list_elem_of_In, list_elem_of_split in Hin as (fs1 & fs2 & ->).
  assert (Hf : forall k, k ∈ fkeys f ->
    k ∉ map fst (canon_members (annotation cfg inside id name) ++ flat_map own fs1) /\ k ∉ map fst (flat_map own fs2)).
  { intros k Hk. rewrite flat_map_app in Hn. cbn [flat_map] in Hn. apply NoDup_cons in Hn as [Ht Hn].
    apply NoDup_app in Hn as (_ & Hn1 & Hn). apply NoDup_app in Hn as (_ & Hn2 & _).
    rewrite map_app. split; [intros [Hin%annotation_keys|Hin%owns_keys]%elem_of_app|intros Hin%owns_keys].
    - apply list_elem_of_singleton in Hin as ->. apply Ht, elem_of_app. right. apply elem_of_app. by left.
    - apply (Hn1 _ Hin), elem_of_app. by left.
    - by apply (Hn2 k). }
  rewrite flat_map_app. cbn [flat_map]. rewrite app_assoc. split.
  - destruct (Hf f.1) as [H1 H2]; [unfold fkeys; case_match; left|]. by apply find_member_mid.
  - destruct f.2 eqn:Hv; try done;
      (destruct (Hf (annot_key f.1)) as [H1 H2]; [unfold fkeys; rewrite Hv; right; left|]); by apply field_type_mid.
Qed.

Lemma canon_not_null inside d k t : typed k t d -> canon (to_json cfg inside d) <> JNull.
Proof.
  intros Ht. destruct d as [b|[] w z|x|x|x|x|x|l|l|l|id name fs], k, t as [| | | | | |[] ?|]; try done;
    cbn [to_json canon]; by try case_match.
Qed.

Lemma present_found ms name j : find_member ms name = Some j -> j <> JNull -> present_member ms name = Some j.
Proof. intros H Hj. unfold present_member. rewrite H. by destruct j. Qed.

(** *** Fields *)

Lemma annot_key_neq name : annot_key name <> name.
Proof. intros H%(f_equal length). unfold annot_key in H. cbn [length] in H. rewrite length_app in H. lia. Qed.

Lemma find_own name v j :
  (exists types i, v = VVar types i j \/ v = VOptVar types (Some (i, j))) \/ v = VReq j \/ v = VOpt (Some j) ->
  find_member (own (name, v)) name = Some (canon (to_json cfg true j)).
Proof.
  intros Hv. pose proof (annot_key_neq name) as Hne. unfold own.
  destruct Hv as [(types & i & [-> | ->])|[-> | ->]]; cbn [fst snd field_json canon_members map find_member];
    unfold annot_key in Hne; rewrite ?(bool_decide_eq_false_2 _ Hne); by rewrite bool_decide_eq_true_2.
Qed.

Lemma absent_own name v : v = VOpt None \/ (exists types, v = VOptVar types None) -> present_member (own (name, v)) name = None.
Proof.
  intros [-> | [types ->]]; unfold own, present_member; cbn [fst snd field_json]; destruct (skip_empty_fields cfg);
    cbn [canon_members map fst snd canon find_member]; try done; by rewrite bool_decide_eq_true_2.
Qed.

Lemma type_own name types i j v :
  v = VVar types i j \/ v = VOptVar types (Some (i, j)) ->
  field_type (own (name, v)) name (field_type_suffix cfg) = mapper cfg (List.nth i types 0).
Proof.
  intros [-> | ->]; unfold own; cbn [fst snd field_json canon_members map canon field_type];
    by rewrite bool_decide_eq_true_2.
Qed.

Lemma find_index_NoDup types i id : NoDup types -> types !! i = Some id -> find_index id types = Some i.
Proof.
  revert i; induction types as [|t types IH]; intros i Hn Hi; [done|]. apply NoDup_cons in Hn as [Ht Hn].
  destruct i as [|i]; cbn [find_index].
  - injection Hi as ->. by rewrite Z.eqb_refl.
  - change (types !! i = Some id) in Hi. destruct (Z.eqb_spec t id) as [-> |]; [|by rewrite (IH i)].
    exfalso. apply Ht. by apply list_elem_of_lookup_2 in Hi.
Qed.

Lemma find_alt_NoDup {A} (alts : list (Z * A)) i id a :
  NoDup (map fst alts) -> alts !! i = Some (id, a) -> find_alt id alts = Some (i, a).
Proof.
  revert i; induction alts as [|[t b] alts IH]; intros i Hn Hi; [done|]. cbn [map fst] in Hn. apply NoDup_cons in Hn as [Ht Hn].
  destruct i as [|i]; cbn [find_alt].
  - injection Hi as -> ->. by rewrite Z.eqb_refl.
  - change (alts !! i = Some (id, a)) in Hi. destruct (Z.eqb_spec t id) as [-> |]; [|by rewrite (IH i)].
    exfalso. apply Ht. apply list_elem_of_lookup_2, (list_elem_of_fmap_2 fst) in Hi. exact Hi.
Qed.

Lemma end_field_ok ms s ro f name e :
  rend_field (Rd (Some (FObject ms :: s)) ro (f ++ [name]) e) = (Some tt, Rd (Some (FObject ms :: s)) ro f e).
Proof. unfold rend_field. cbn [st]. unfold set_field. cbn [st root field rerr]. by rewrite removelast_last. Qed.

(** A value that is found under the name of a field, in a required field. *)
Lemma rbegin_field_ok ms name j s ro f e :
  find_member ms name = Some j ->
  rbegin_field name (Rd (Some (FObject ms :: s)) ro f e)
    = (Some tt, Rd (Some (FValue j :: FObject ms :: s)) ro (f ++ [name]) e).
Proof. intros H. unfold rbegin_field, in_object. cbn [st]. by rewrite H. Qed.

Lemma begin_opt_field_ok ms name s ro f e :
  rbegin_opt_field name (Rd (Some (FObject ms :: s)) ro f e)
    = match present_member ms name with
      | Some j => (Some true, Rd (Some (FValue j :: FObject ms :: s)) ro (f ++ [name]) e)
      | None => (Some false, Rd (Some (FObject ms :: s)) ro (f ++ [name]) e)
      end.
Proof. unfold rbegin_opt_field, in_object. cbn [st]. by destruct (present_member ms name). Qed.

Lemma begin_optvar_absent ms name types s ro f e :
  present_member ms name = None ->
  rbegin_optvar_field (field_type_suffix cfg) to_id name types (Rd (Some (FObject ms :: s)) ro f e)
    = (Some None, Rd (Some (FObject ms :: s)) ro (f ++ [name]) e).
Proof. intros H. unfold rbegin_optvar_field, in_object. cbn [st]. by rewrite H. Qed.

Lemma begin_optvar_ok ms name types i id j s ro f e :
  present_member ms name = Some j -> field_type ms name (field_type_suffix cfg) = mapper cfg id ->
  to_id (mapper cfg id) = id -> id <> invalid_type_id -> find_index id types = Some i ->
  rbegin_optvar_field (field_type_suffix cfg) to_id name types (Rd (Some (FObject ms :: s)) ro f e)
    = (Some (Some i), Rd (Some (FValue j :: FObject ms :: s)) ro (f ++ [name]) e).
Proof.
  intros Hp Hft Hid Hne Hi. unfold rbegin_optvar_field, in_object. cbn [st]. rewrite Hp, Hft, Hid.
  by rewrite (proj2 (Z.eqb_neq _ _) Hne), Hi.
Qed.

(** What the fields of a variant have in common. *)
Lemma variant_loaded k alts i id t d ms name v s ro f e :
  v = VVar (map fst alts) i d \/ v = VOptVar (map fst alts) (Some (i, d)) ->
  field_found ms (name, v) -> reads_back d ->
  NoDup (map fst alts) -> alts !! i = Some (id, t) -> typed k t d ->
  variant_fits (map fst alts) i = true -> fits false d = true ->
  rbegin_optvar_field (field_type_suffix cfg) to_id name (map fst alts) (Rd (Some (FObject ms :: s)) ro f e)
    = (Some (Some i), Rd (Some (FValue (canon (to_json cfg true d)) :: FObject ms :: s)) ro (f ++ [name]) e) /\
  load_variant_value (map (fun a => (a.1, load a.2)) alts) i
      (Rd (Some (FValue (canon (to_json cfg true d)) :: FObject ms :: s)) ro (f ++ [name]) e)
    = (Some (i, d), Rd (Some (FObject ms :: s)) ro (f ++ [name]) e).
Proof.
  intros Hv [Hfind Htype] Hd Hn Hi Ht Hvf Hf. cbn [fst snd] in *.
  assert (Hid : map fst alts !! i = Some id) by (rewrite list_lookup_fmap, Hi; done).
  unfold variant_fits in Hvf. rewrite Hid in Hvf. apply andb_prop in Hvf as [[_ Hback%Z.eqb_eq]%andb_prop Hinv%negb_true_iff%Z.eqb_neq].
  split.
  - apply (begin_optvar_ok _ _ _ _ id); [|..|done|done|by apply find_index_NoDup].
    + apply present_found; [|by eapply canon_not_null]. rewrite Hfind. apply find_own. left. eauto.
    + transitivity (field_type (own (name, v)) name (field_type_suffix cfg)); [by destruct Hv as [-> | ->]|].
      rewrite (type_own name _ _ _ _ Hv). f_equal. by apply nth_lookup_Some.
  - unfold load_variant_value. rewrite map_map. cbn [fst]. change (map (fun x => x.1) alts) with (map fst alts). rewrite Hid.
    rewrite (find_alt_NoDup _ i id (load t)); [|by rewrite map_map|by rewrite list_lookup_fmap, Hi].
    by erewrite rbind_ok; [|apply (Hd k t false true [] _ _ _ _ Ht Hf)].
Qed.

Lemma fty_map_fst (alts : list (Z * ty)) : map fst (map (fun a => (a.1, load a.2)) alts) = map fst alts.
Proof. by rewrite map_map. Qed.

Lemma field_loaded k ft name v ms s ro f e :
  field_found ms (name, v) -> fval_all reads_back v -> field_typed (typed k) ft (name, v) ->
  match ft.2 with FVar alts | FOptVar alts => NoDup (map fst alts) | _ => True end ->
  field_fits (fits false) v = true ->
  load_field ft.1 (fty_map load ft.2) (Rd (Some (FObject ms :: s)) ro f e)
    = (Some (name, v), Rd (Some (FObject ms :: s)) ro f e).
Proof.
  intros Hfound Hr Ht Hn Hf. destruct ft as [name' ft]. destruct Ht as [Hname Ht]. cbn [fst snd] in *. subst name'.
  pose proof (proj1 Hfound) as Hfind. cbn [fst] in Hfind.
  destruct ft as [t|t|alts|alts], v as [d|o|types i d|types o]; try done;
    cbn [fty_map load_field l_begin_field l_begin_opt_field l_begin_var_field l_begin_optvar_field l_end_field the_reader json_reader].
  - cbn [fval_all field_fits] in *.
    rewrite (rbind_ok _ _ _ _ _ (rbegin_field_ok ms name (canon (to_json cfg true d)) s ro f e
      ltac:(rewrite Hfind; apply find_own; eauto))).
    erewrite rbind_ok; [|apply (Hr k t false true [] _ _ _ _ Ht Hf)]. cbn [behind].
    by rewrite (rbind_ok _ _ _ _ _ (end_field_ok _ _ _ _ _ _)).
  - unfold rbind at 1. rewrite begin_opt_field_ok. destruct o as [d|]; cbn [fval_all field_fits] in *.
    + rewrite (present_found _ _ (canon (to_json cfg true d)));
        [|rewrite Hfind; apply find_own; eauto|by eapply canon_not_null].
      erewrite rbind_ok; [|apply (Hr k t false true [] _ _ _ _ Ht Hf)]. cbn [behind].
      by rewrite (rbind_ok _ _ _ _ _ (end_field_ok _ _ _ _ _ _)).
    + unfold present_member. rewrite Hfind. fold (present_member (own (name, VOpt None)) name).
      rewrite absent_own by (by left). cbn match. by rewrite (rbind_ok _ _ _ _ _ (end_field_ok _ _ _ _ _ _)).
  - destruct Ht as (-> & id & t & Hi & Ht). cbn [fval_all field_fits] in *. apply andb_prop in Hf as [Hvf Hf].
    destruct (variant_loaded k alts i id t d ms name _ s ro f e ltac:(by left) Hfound Hr Hn Hi Ht Hvf Hf) as [H1 H2].
    rewrite !fty_map_fst. unfold rbegin_var_field. unfold rbind at 1. rewrite (rbind_ok _ _ _ _ _ H1). cbn [rret].
    rewrite (rbind_ok _ _ _ _ _ H2). by rewrite (rbind_ok _ _ _ _ _ (end_field_ok _ _ _ _ _ _)).
  - destruct Ht as [-> Ht]. rewrite !fty_map_fst. destruct o as [[i d]|].
    + destruct Ht as (id & t & Hi & Ht). cbn [fval_all field_fits] in *. apply andb_prop in Hf as [Hvf Hf].
      destruct (variant_loaded k alts i id t d ms name _ s ro f e ltac:(by right) Hfound Hr Hn Hi Ht Hvf Hf) as [H1 H2].
      rewrite (rbind_ok _ _ _ _ _ H1), (rbind_ok _ _ _ _ _ H2). by rewrite (rbind_ok _ _ _ _ _ (end_field_ok _ _ _ _ _ _)).
    + erewrite rbind_ok; [|apply begin_optvar_absent; unfold present_member; rewrite Hfind; apply absent_own; eauto].
      cbn match. by rewrite (rbind_ok _ _ _ _ _ (end_field_ok _ _ _ _ _ _)).
Qed.

Lemma fields_loaded k fts fs ms s ro f e :
  Forall (field_found ms) fs -> Forall (fun f => fval_all reads_back f.2) fs ->
  Forall2 (field_typed (typed k)) fts fs ->
  Forall (fun f => match f.2 with FVar alts | FOptVar alts => NoDup (map fst alts) | _ => True end) fts ->
  forallb (fun f => field_fits (fits false) f.2) fs = true ->
  load_seq (map (fun f => load_field f.1 (fty_map load f.2)) fts) (Rd (Some (FObject ms :: s)) ro f e)
    = (Some fs, Rd (Some (FObject ms :: s)) ro f e).
Proof.
  intros Hfound Hr Ht Hn Hf. induction Ht as [|ft [name v] fts fs Ht1 _ IH]; [done|].
  apply Forall_cons in Hfound as [Hfd Hfound]. apply Forall_cons in Hr as [Hr1 Hr]. apply Forall_cons in Hn as [Hn1 Hn].
  cbn [forallb] in Hf. apply andb_prop in Hf as [Hf1 Hf]. cbn [map load_seq].
  rewrite (rbind_ok _ _ _ _ _ (field_loaded k ft name v ms s ro f e Hfd Hr1 Ht1 Hn1 Hf1)).
  by rewrite (rbind_ok _ _ _ _ _ (IH Hfound Hr Hn Hf)).
Qed.

Lemma end_object_ok ms in_seq j l s ro f e :
  rend_object (Rd (Some (FObject ms :: before in_seq j l s)) ro f e) = (Some tt, Rd (Some (behind in_seq l s)) ro f e).
Proof. by destruct in_seq. Qed.

Lemma object_reads_back id name fs : Forall (fun f => fval_all reads_back f.2) fs -> reads_back (DObj id name fs).
Proof.
  intros Hr k t in_seq inside l s ro f e Ht Hf. destruct k as [|k], t as [| | | | | |[] ?|]; try done.
  destruct Ht as (-> & -> & Ht & Hn). cbn [fits] in Hf.
  apply andb_prop in Hf as [[Hkeys%bool_decide_eq_true_1 _]%andb_prop Hf].
  rewrite object_members. cbn [load l_begin_object l_end_object the_reader json_reader].
  unfold rbegin_object. erewrite rbind_ok; [|rewrite consume_peek; unfold rpush; cbn [st set_st root field rerr]; reflexivity].
  unfold set_st. cbn [root field rerr].
  rewrite (rbind_ok _ _ _ _ _ (fields_loaded k _ fs _ _ ro f e (fields_found inside id name fs Hkeys) Hr Ht Hn Hf)).
  by rewrite (rbind_ok _ _ _ _ _ (end_object_ok _ _ _ _ _ _ _ _)).
Qed.

Lemma doc_reads_back d : reads_back d.
Proof.
  apply (doc_ind' reads_back);
    [apply scalar_reads_back|apply list_reads_back|apply tuple_reads_back|apply map_reads_back|apply object_reads_back].
Qed.

(** *** The JSON form is a value that the parser reads back *)

Definition json_fine (k : nat) (j : json) : Prop := json_ok k j /\ whole j = true.

Lemma forallb_of_Forall {A} (p : A -> bool) l : Forall (fun x => p x = true) l -> forallb p l = true.
Proof. intros H. apply forallb_forall. by apply List.Forall_forall. Qed.

Lemma array_fine k js : Forall (json_fine k) js -> json_fine (S k) (JArray js).
Proof.
  intros H. split; cbn [json_form whole].
  - by eapply Forall_impl; [exact H|intros ? []].
  - apply forallb_of_Forall. eapply Forall_impl; [exact H|]. by intros j [_ Hj].
Qed.

Lemma object_fine k ms : Forall (fun kv => all_bytes kv.1 /\ json_fine k kv.2) ms -> json_fine (S k) (JObject ms).
Proof.
  intros H. split; cbn [json_form whole].
  - eapply Forall_impl; [exact H|]. by intros kv (? & ? & _).
  - apply forallb_of_Forall. eapply Forall_impl; [exact H|]. by intros kv (_ & _ & Hj).
Qed.

Lemma variant_name_bytes types i : variant_fits types i = true -> all_bytes (mapper cfg (List.nth i types 0)).
Proof.
  unfold variant_fits. destruct (types !! i) as [id|] eqn:Hi; [|done]. rewrite (nth_lookup_Some _ _ _ _ Hi).
  intros [[Hv%bool_decide_eq_true_1 _]%andb_prop _]%andb_prop. exact Hv.
Qed.

Lemma string_fine k x : all_bytes x -> json_fine k (JString x).
Proof. intros Hx. split; [by destruct k|done]. Qed.

Lemma field_fine k ft name v :
  Forall all_bytes (fkeys (name, v)) -> field_fits (fits false) v = true -> field_typed (typed k) ft (name, v) ->
  (forall d t, typed k t d -> fits false d = true -> json_fine k (to_json cfg true d)) ->
  Forall (fun kv => all_bytes kv.1 /\ json_fine k kv.2) (field_json cfg (to_json cfg true) name v).
Proof.
  intros Hk Hf [Hname Ht] IH. destruct ft as [name' ft]. cbn [fst snd] in *. subst name'.
  pose proof variant_name_bytes. pose proof string_fine.
  assert (Hnull : all_bytes name -> Forall (fun kv => all_bytes kv.1 /\ json_fine k kv.2)
    (if skip_empty_fields cfg then [] else [(name, JNull)])).
  { intros Hb. destruct (skip_empty_fields cfg); repeat constructor; [done|by destruct k]. }
  destruct ft as [t|t|alts|alts], v as [d|[d|]|types i d|types [[i d]|]]; try done; cbn [fkeys field_fits field_json fst snd] in *;
    repeat match goal with
    | H : Forall all_bytes (_ :: _) |- _ => apply Forall_cons in H as [? H]
    | H : _ && _ = true |- _ => apply andb_prop in H as [? H]
    | H : _ /\ exists _, _ |- _ => destruct H as (? & ? & ? & ? & ?)
    end; try (by apply Hnull); repeat apply Forall_cons_2; try apply Forall_nil_2; cbn [fst snd]; split; eauto.
Qed.

Lemma scalar_fine k t d inside :
  match d with
  | DList _ | DTuple _ | DMap _ | DObj _ _ _ => True
  | _ => typed k t d -> json_fine k (to_json cfg inside d)
  end.
Proof.
  destruct d as [b|sg w z|x|x|x|x|x|l|l|l|id name fs]; try exact I; intros Ht; destruct k, t as [| | | | | |[] ?|]; try done;
    destruct Ht as (-> & -> & Hw & Hz); destruct sg; split; try done; cbn [to_json json_ok];
    first [by apply (sint_64 w)|by apply (uint_64 w)].
Qed.

Lemma to_json_fine k t d inside in_seq :
  typed k t d -> fits in_seq d = true -> json_fine k (to_json cfg inside d).
Proof.
  revert t d inside in_seq; induction k as [|k IH]; intros t d inside in_seq Ht Hf;
    pose proof (fun k => scalar_fine k t d inside) as Hs;
    (destruct d as [b|sg w z|x|x|x|x|x|l|l|l|id name fs]; try exact (Hs _ Ht)); clear Hs; destruct t as [| | | | | |[] ?|]; try done;
    cbn [typed fits to_json] in *.
  - apply array_fine, Forall_map. rewrite forallb_forall in Hf. rewrite List.Forall_forall in *. intros d Hd. eauto.
  - apply array_fine, Forall_map. rewrite forallb_forall in Hf. apply List.Forall_forall. intros d Hd.
    apply list_elem_of_In, list_elem_of_lookup in Hd as [i Hi]. destruct (Forall2_lookup_r _ _ _ _ _ Ht Hi) as (t & _ & Htd).
    eapply IH; [exact Htd|]. apply Hf, list_elem_of_In. by eapply list_elem_of_lookup_2.
  - destruct Ht as [_ Ht]. apply andb_prop in Hf as [_ Hf]. rewrite forallb_forall in Hf.
    apply object_fine, Forall_map. rewrite List.Forall_forall in *. intros kv Hkv. specialize (Ht kv Hkv) as [(x & -> & Hx) Ht].
    cbn [fst snd key_of]. eauto.
  - destruct Ht as (-> & -> & Ht & _). apply andb_prop in Hf as [[_ Hb%bool_decide_eq_true_1]%andb_prop Hf].
    apply Forall_cons in Hb as [Hname Hb]. apply Forall_cons in Hb as [Htype Hb].
    apply object_fine, Forall_app. split.
    + unfold annotation. case_match; [apply Forall_nil_2|]. apply Forall_cons_2; [|apply Forall_nil_2].
      split; [exact Htype|]. by apply string_fine.
    + clear Htype Hname. induction Ht as [|ft [n v] fts fs Ht1 _ IHf]; [apply Forall_nil_2|]. cbn [flat_map forallb fst snd] in *.
      apply Forall_app in Hb as [Hb1 Hb]. apply andb_prop in Hf as [Hf1 Hf]. apply Forall_app. split; [|by apply IHf].
      eapply field_fine; eauto.
Qed.

(** C25. What the JSON writer saves, the JSON reader loads: the text that the writer
    leaves in its buffer is parsed, loading the type from it succeeds with the same
    value, and nothing of the text remains.  This is for values of at most 128
    levels made of booleans, integers, strings, lists, tuples, maps with strings as
    keys, and objects with required, optional and variant fields, but without
    floating point numbers.  The names of types and fields need no escapes, the keys
    of an object, annotations included, are different from each other, and the name
    of each alternative of a variant leads back to its type ID.  No map is an element of a list
    or a tuple: the writer saves such values, but the reader fails to load them,
    see [list_of_maps_not_loaded]. *)
Theorem json_inspect_roundtrip k t d :
  (k <= max_nesting_level)%nat -> typed k t d -> writable cfg d = true -> fits false d = true ->
  exists text r,
    save (SaveInspector0 := json_writer cfg) d fresh = Some (true, Wr text [] 0 None) /\
    load_text text new_reader = Some (true, r) /\
    load t r = (Some d, Rd (Some []) (root r) [] None).
Proof.
  intros Hk Ht Hw Hf. eexists _, _. split_and!; [by apply saved_text|..].
  - destruct (to_json_fine k t d false false Ht Hf) as [Hok Hwh]. unfold load_text.
    rewrite parse_print; [reflexivity|by apply (json_form_mono false k)|done].
  - apply (doc_reads_back d k t false false [] [] _ [] None Ht Hf).
Qed.

(** The type of an object that was written with its annotation is known before it
    is loaded. *)
Lemma object_type_announced id name fs in_seq l s ro f e :
  skip_object_type_annotation cfg = false -> to_id (obj_name id name) <> invalid_type_id ->
  let r := Rd (Some (before in_seq (canon (to_json cfg false (DObj id name fs))) l s)) ro f e in
  fetch_next_object_type to_id r = (Some (to_id (obj_name id name)), r).
Proof.
  intros Hskip Hid r. unfold fetch_next_object_type, fetch_next_object_name, rbind. unfold r at 1. rewrite consume_peek.
  fold r. generalize r. clear r. intros r. rewrite object_members. unfold annotation. rewrite Hskip.
  cbn [orb canon_members map fst snd canon app find_member]. rewrite bool_decide_eq_true_2 by done. cbn [rret].
  fold (obj_name id name). by rewrite (proj2 (Z.eqb_neq _ _) Hid).
Qed.

End Roundtrip.

(** ** A concrete value *)

Definition demo_ids (s : list Z) : Z :=
  if bool_decide (s = chars "string") then 1 else if bool_decide (s = chars "list") then 2 else invalid_type_id.

Definition demo_type : ty :=
  TObj 42 (chars "point") [
    (chars "x", FReq (TInt true 32));
    (chars "note", FOpt TStr);
    (chars "tags", FVar [(1, TStr); (2, TList TStr)]);
    (chars "sizes", FReq (TMap TStr (TTuple [TBool; TInt false 8])))].

Lemma demo_typed : typed 3 demo_type demo_doc.
Proof.
  cbn [typed demo_type demo_doc]. split_and!; [done|done| |by repeat constructor; apply (bool_decide_unpack _); vm_compute].
  repeat apply Forall2_cons_2; try apply Forall2_nil_2; (split; [reflexivity|]); cbn [fst snd typed].
  - split_and!; [done|done|by right; right; left|by vm_compute].
  - exact I.
  - split; [done|]. exists 2, (TList TStr). split; [done|]. cbn [typed].
    repeat apply Forall_cons_2; try apply Forall_nil_2; apply (bool_decide_unpack _); by vm_compute.
  - split; [apply NoDup_singleton|]. apply Forall_cons_2; [|apply Forall_nil_2]. cbn [fst snd typed]. split.
    + exists (chars "k"). split; [done|]. apply (bool_decide_unpack _); by vm_compute.
    + repeat apply Forall2_cons_2; try apply Forall2_nil_2; cbn [typed]; [exact I|]. split_and!; [done|done|by left|by vm_compute].
Qed.

Lemma json_inspect_roundtrip_witness :
  exists text r,
    save (SaveInspector0 := json_writer demo_config) demo_doc fresh = Some (true, Wr text [] 0 None) /\
    load_text text new_reader = Some (true, r) /\
    load (LoadInspector0 := json_reader (chars "-type") demo_ids) demo_type r = (Some demo_doc, Rd (Some []) (root r) [] None).
Proof.
  apply (json_inspect_roundtrip demo_config demo_ids 3 demo_type demo_doc).
  - apply (bool_decide_unpack _). by vm_compute.
  - exact demo_typed.
  - by vm_compute.
  - by vm_compute.
Defined.

(** ** Behaviour that the code does not intend *)

(** A list of maps is written, and the text is valid, but it cannot be loaded:
    beginning a map pops the position in the list that contains it. *)
Lemma list_of_maps_not_loaded :
  let d := DList [DMap [(DStr (chars "k"), DBool true)]] in
  exists text r r',
    save (SaveInspector0 := json_writer demo_config) d fresh = Some (true, Wr text [] 0 None) /\
    load_text text new_reader = Some (true, r) /\
    load (LoadInspector0 := json_reader (chars "-type") demo_ids) (TList (TMap TStr TBool)) r = (None, r').
Proof. eexists _, _, _. split_and!; [by vm_compute|by vm_compute|by vm_compute]. Qed.

End JsonReader.
