(* ===== verification/FlowMerge.v ===== *)
(** * Merging observables (libcaf_core/caf/flow/op/merge.hpp)

    The operator behind [merge] and [flat_map]: it subscribes to the observables
    that a source emits and interleaves their items, with a buffer per input,
    and with [pullable.{hpp,cpp}] and the forwarders of [observer.hpp].  The
    observer may request more items, cancel, and make other inputs emit items
    from within [on_next]. *)

From stdpp Require Import prelude.
From S2P Require Import Prelude Effects FlowSteps FlowGenerator.

Module FlowMerge.

Import Effects FlowSteps(error).
Import FlowGenerator(signal, s_next, s_complete, s_error, item, items, items_snoc, items_next, sec_disposed, add_size, add_size_exact).

Section Operator.

Context {T : Type}.

(** ** State *)

(** [merge_input]: whether there is a subscription, and the buffer.  [asked],
    the number of items that the input may still send, is for the
    specification. *)
Record merge_input := Input { sub : bool; buf : list T; asked : nat }.

(** [in_flight_demand_] is the member of [pullable], which has a call of [do_pull]
    scheduled while it is not zero.  [targets] are the keys of the forwarders that
    still have a target.  The rest is for the specification: the signals to the
    observer, the items with the keys of their inputs in the order in which they
    arrived and in which they were passed on, how many items were requested, how
    many inputs the source may still send, and whether the source completed. *)
Record state := St {
  err_ : option error;
  sub_ : bool;
  demand_ : nat;
  out_ : bool;
  inputs_ : list (nat * merge_input);
  next_key_ : nat;
  pos_ : nat;
  buffered_ : nat;
  in_flight_demand_ : nat;
  targets : list nat;
  trace : list (signal T);
  taken : list (nat * T);
  passed : list (nat * T);
  requested : nat;
  outer_asked : nat;
  outer_done : bool;
}.

Definition set_err x s := St x (sub_ s) (demand_ s) (out_ s) (inputs_ s) (next_key_ s) (pos_ s) (buffered_ s) (in_flight_demand_ s) (targets s) (trace s) (taken s) (passed s) (requested s) (outer_asked s) (outer_done s).
Definition set_sub x s := St (err_ s) x (demand_ s) (out_ s) (inputs_ s) (next_key_ s) (pos_ s) (buffered_ s) (in_flight_demand_ s) (targets s) (trace s) (taken s) (passed s) (requested s) (outer_asked s) (outer_done s).
Definition set_demand x s := St (err_ s) (sub_ s) x (out_ s) (inputs_ s) (next_key_ s) (pos_ s) (buffered_ s) (in_flight_demand_ s) (targets s) (trace s) (taken s) (passed s) (requested s) (outer_asked s) (outer_done s).
Definition set_out x s := St (err_ s) (sub_ s) (demand_ s) x (inputs_ s) (next_key_ s) (pos_ s) (buffered_ s) (in_flight_demand_ s) (targets s) (trace s) (taken s) (passed s) (requested s) (outer_asked s) (outer_done s).
Definition set_inputs x s := St (err_ s) (sub_ s) (demand_ s) (out_ s) x (next_key_ s) (pos_ s) (buffered_ s) (in_flight_demand_ s) (targets s) (trace s) (taken s) (passed s) (requested s) (outer_asked s) (outer_done s).
Definition set_next_key x s := St (err_ s) (sub_ s) (demand_ s) (out_ s) (inputs_ s) x (pos_ s) (buffered_ s) (in_flight_demand_ s) (targets s) (trace s) (taken s) (passed s) (requested s) (outer_asked s) (outer_done s).
Definition set_pos x s := St (err_ s) (sub_ s) (demand_ s) (out_ s) (inputs_ s) (next_key_ s) x (buffered_ s) (in_flight_demand_ s) (targets s) (trace s) (taken s) (passed s) (requested s) (outer_asked s) (outer_done s).
Definition set_buffered x s := St (err_ s) (sub_ s) (demand_ s) (out_ s) (inputs_ s) (next_key_ s) (pos_ s) x (in_flight_demand_ s) (targets s) (trace s) (taken s) (passed s) (requested s) (outer_asked s) (outer_done s).
Definition set_in_flight x s := St (err_ s) (sub_ s) (demand_ s) (out_ s) (inputs_ s) (next_key_ s) (pos_ s) (buffered_ s) x (targets s) (trace s) (taken s) (passed s) (requested s) (outer_asked s) (outer_done s).
Definition set_targets x s := St (err_ s) (sub_ s) (demand_ s) (out_ s) (inputs_ s) (next_key_ s) (pos_ s) (buffered_ s) (in_flight_demand_ s) x (trace s) (taken s) (passed s) (requested s) (outer_asked s) (outer_done s).
Definition send x s := St (err_ s) (sub_ s) (demand_ s) (out_ s) (inputs_ s) (next_key_ s) (pos_ s) (buffered_ s) (in_flight_demand_ s) (targets s) (trace s ++ [x]) (taken s) (passed s) (requested s) (outer_asked s) (outer_done s).
Definition note_taken x s := St (err_ s) (sub_ s) (demand_ s) (out_ s) (inputs_ s) (next_key_ s) (pos_ s) (buffered_ s) (in_flight_demand_ s) (targets s) (trace s) (taken s ++ [x]) (passed s) (requested s) (outer_asked s) (outer_done s).
Definition note_passed x s := St (err_ s) (sub_ s) (demand_ s) (out_ s) (inputs_ s) (next_key_ s) (pos_ s) (buffered_ s) (in_flight_demand_ s) (targets s) (trace s) (taken s) (passed s ++ [x]) (requested s) (outer_asked s) (outer_done s).
Definition note_requested n s := St (err_ s) (sub_ s) (demand_ s) (out_ s) (inputs_ s) (next_key_ s) (pos_ s) (buffered_ s) (in_flight_demand_ s) (targets s) (trace s) (taken s) (passed s) (requested s + n) (outer_asked s) (outer_done s).
Definition note_asked n s := St (err_ s) (sub_ s) (demand_ s) (out_ s) (inputs_ s) (next_key_ s) (pos_ s) (buffered_ s) (in_flight_demand_ s) (targets s) (trace s) (taken s) (passed s) (requested s) n (outer_done s).
Definition note_done s := St (err_ s) (sub_ s) (demand_ s) (out_ s) (inputs_ s) (next_key_ s) (pos_ s) (buffered_ s) (in_flight_demand_ s) (targets s) (trace s) (taken s) (passed s) (requested s) (outer_asked s) true.

(** ** The map of inputs, in the order of their keys *)

Definition input_map : Type := list (nat * merge_input).

Fixpoint get (key : nat) (l : input_map) : option merge_input :=
  match l with
  | [] => None
  | (k, i) :: r => if (k =? key)%nat then Some i else get key r
  end.

Fixpoint put (key : nat) (x : merge_input) (l : input_map) : input_map :=
  match l with
  | [] => []
  | (k, i) :: r => if (k =? key)%nat then (k, x) :: r else (k, i) :: put key x r
  end.

Fixpoint erase (key : nat) (l : input_map) : input_map :=
  match l with
  | [] => []
  | (k, i) :: r => if (k =? key)%nat then r else (k, i) :: erase key r
  end.

(** The iterator behind an element, as the key it points to. *)
Fixpoint following (key : nat) (l : input_map) : option nat :=
  match l with
  | [] => None
  | (k, _) :: r => if (k =? key)%nat then fst <$> head r else following key r
  end.

Definition non_empty (kvp : nat * merge_input) : bool := match buf kvp.2 with [] => false | _ => true end.

(** [select_non_empty], on the elements of a range. *)
Definition select_non_empty (l : input_map) : option nat := fst <$> List.find non_empty l.

(** [next] without the assignment: first the inputs from [pos_] on, then the ones
    before it. *)
Definition next_input (pos : nat) (l : input_map) : option nat :=
  let last := filter (fun kvp => (pos <= kvp.1)%nat) l in
  let first := filter (fun kvp => (kvp.1 < pos)%nat) l in
  match select_non_empty last with
  | Some k => Some k
  | None => select_non_empty first
  end.

#[local] Abbreviation comp := (comp state).

Definition next : comp (option nat) :=
  s ← gets (fun s => s);
  match next_input (pos_ s) (inputs_ s) with
  | Some k => modify (set_pos k);; mret (Some k)
  | None => mret None
  end.

(** ** Operations *)

(** What the observer does within [on_next]. *)
Inductive reaction := r_request (n : nat) | r_cancel | r_push (key : nat) (x : T).

Context (max_concurrent_ max_pending_per_input_ : nat) (react : list (signal T) -> list reaction).

(** [sub_.request(n)] and [sub.request(n)] of an input. *)
Definition request_outer (n : nat) : comp unit := modify (fun s => note_asked (outer_asked s + n) s).

Definition request_input (key n : nat) : comp unit :=
  modify (fun s => match get key (inputs_ s) with
    | Some i => set_inputs (put key (Input (sub i) (buf i) (asked i + n)) (inputs_ s)) s
    | None => s
    end).

(** [pullable::pull].  The counters are of type [size_t]: sums wrap around. *)
Definition pull (n : nat) : comp unit :=
  if (n =? 0)%nat then stuck else modify (fun s => set_in_flight (add_size (in_flight_demand_ s) n) s).

Definition request (n : nat) : comp unit :=
  s ← gets (fun s => s);
  if negb (out_ s) then mret tt else
  modify (note_requested n);;
  if (buffered_ s =? 0)%nat then modify (set_demand (add_size (demand_ s) n)) else pull n.

(** The observer calls [request]; observers keep their total demand below 2^64. *)
Definition observer_request (n : nat) : comp unit :=
  s ← gets (fun s => s);
  if Z.of_nat (requested s + n) <? 2 ^ 64 then request n else mret tt.

(** [out_.on_error] and [out_.on_complete]. *)
Definition finish (x : signal T) : comp unit :=
  o ← gets out_;
  if (o : bool) then modify (send x);; modify (set_out false) else stuck.

Definition do_dispose (from_external : bool) : comp unit :=
  o ← gets out_;
  if negb o then mret tt else
  modify (set_inputs []);;
  modify (set_sub false);;
  if from_external then finish (s_error sec_disposed) else modify (set_out false).

(** The loop of [stop_inputs]: the inputs that stay have lost their subscription. *)
Definition cancelled (l : input_map) : input_map :=
  map (fun kvp => (kvp.1, Input false (buf kvp.2) (asked kvp.2))) (filter (fun kvp => non_empty kvp = true) l).

Definition stop_inputs : comp unit :=
  modify (fun s => set_sub false (set_inputs (cancelled (inputs_ s)) s)).

(** [fwd_on_next] and [out_.on_next].  The fuel bounds how often an item that the
    observer makes an input emit leads to another call of the observer. *)
Fixpoint fwd_on_next (nesting : nat) (key : nat) (x : T) : comp unit :=
  s ← gets (fun s => s);
  match get key (inputs_ s) with
  | None => mret tt
  | Some i =>
      modify (note_taken (key, x));;
      if (in_flight_demand_ s =? 0)%nat && (0 <? demand_ s)%nat then
        if negb (out_ s) then stuck else
        modify (set_demand (demand_ s - 1));;
        modify (set_inputs (put key (Input (sub i) (buf i) (asked i - 1)) (inputs_ s)));;
        (if sub i then request_input key 1 else mret tt);;
        modify (note_passed (key, x));;
        modify (send (s_next x));;
        tr ← gets trace;
        for_each (fun r =>
          match r with
          | r_request n => observer_request n
          | r_cancel => do_dispose false
          | r_push k y => match nesting with O => stuck | S n' => fwd_on_next n' k y end
          end) (react tr)
      else
        modify (fun s => set_buffered (S (buffered_ s)) s);;
        modify (set_inputs (put key (Input (sub i) (buf i ++ [x]) (asked i - 1)) (inputs_ s)))
  end.

Definition perform (nesting : nat) (r : reaction) : comp unit :=
  match r with
  | r_request n => observer_request n
  | r_cancel => do_dispose false
  | r_push k y => fwd_on_next nesting k y
  end.

Definition on_next_out (nesting : nat) (key : nat) (x : T) : comp unit :=
  modify (note_passed (key, x));;
  modify (send (s_next x));;
  tr ← gets trace;
  for_each (perform nesting) (react tr).

Definition done (s : state) : bool := negb (sub_ s) && bool_decide (inputs_ s = []).

(** One round of the loop of [do_pull]: the item of the input under the iterator,
    and the iterator afterwards. *)
Definition fetch (key : nat) : comp (T * option nat) :=
  s ← gets (fun s => s);
  match get key (inputs_ s) with
  | Some (Input b (x :: rest) a) =>
      modify (fun s => set_buffered (buffered_ s - 1) (set_demand (demand_ s - 1) (set_inputs (put key (Input b rest a) (inputs_ s)) s)));;
      if b then
        request_input key 1;;
        n ← gets buffered_;
        if bool_decide (rest = []) && (0 <? n)%nat then i ← next; mret (x, i) else mret (x, Some key)
      else if bool_decide (rest = []) then
        modify (set_inputs (erase key (inputs_ s)));;
        (if sub_ s then request_outer 1 else mret tt);;
        n ← gets buffered_;
        if (0 <? n)%nat then i ← next; mret (x, i) else mret (x, following key (inputs_ s))
      else mret (x, Some key)
  | _ => stuck
  end.

Fixpoint pull_loop (fuel nesting : nat) (i : option nat) : comp unit :=
  s ← gets (fun s => s);
  if out_ s && (0 <? demand_ s)%nat && (0 <? buffered_ s)%nat then
    match fuel, i with
    | S fuel', Some key =>
        '(x, i') ← fetch key;
        on_next_out nesting key x;;
        pull_loop fuel' nesting i'
    | _, _ => stuck
    end
  else mret tt.

Definition do_pull (fuel nesting n : nat) : comp unit :=
  modify (fun s => set_demand (add_size (demand_ s) n) s);;
  i ← next;
  match i with
  | None => mret tt
  | Some _ =>
      old_pos ← gets pos_;
      pull_loop fuel nesting i;;
      modify (fun s => if (pos_ s =? old_pos)%nat then set_pos (S (pos_ s)) s else s);;
      s ← gets (fun s => s);
      if out_ s && done s then finish (match err_ s with None => s_complete | Some e => s_error e end) else mret tt
  end.

(** The action of [pullable]. *)
Fixpoint pull_cb (rounds fuel nesting : nat) : comp unit :=
  match rounds with
  | O => stuck
  | S rounds' =>
      val ← gets in_flight_demand_;
      do_pull fuel nesting val;;
      modify (fun s => set_in_flight (in_flight_demand_ s - val) s);;
      more ← gets in_flight_demand_;
      if (0 <? more)%nat then pull_cb rounds' fuel nesting else mret tt
  end.

(** ** Signals of the source *)

Definition on_subscribe : comp unit :=
  s ← gets (fun s => s);
  if negb (sub_ s) && out_ s then modify (set_sub true);; request_outer max_concurrent_ else mret tt.

(** The new input subscribes later. *)
Definition on_next : comp unit :=
  s ← gets (fun s => s);
  if negb (sub_ s) then mret tt else
  modify (note_asked (outer_asked s - 1));;
  modify (set_next_key (S (next_key_ s)));;
  modify (set_inputs (inputs_ s ++ [(next_key_ s, Input false [] 0)]));;
  modify (set_targets (targets s ++ [next_key_ s])).

Definition on_error (e : error) : comp unit :=
  modify (set_sub false);;
  modify (set_err (Some e));;
  stop_inputs;;
  s ← gets (fun s => s);
  if out_ s && bool_decide (inputs_ s = []) then finish (s_error e) else mret tt.

Definition on_complete : comp unit :=
  modify (set_sub false);;
  modify note_done;;
  s ← gets (fun s => s);
  if out_ s && bool_decide (inputs_ s = []) && (buffered_ s =? 0)%nat then finish s_complete else mret tt.

(** ** Signals of the inputs *)

Definition fwd_on_subscribe (key : nat) : comp unit :=
  s ← gets (fun s => s);
  match get key (inputs_ s) with
  | Some i =>
      if sub i then mret tt
      else modify (set_inputs (put key (Input true (buf i) (asked i)) (inputs_ s)));;
           request_input key max_pending_per_input_
  | None => mret tt
  end.

Definition fwd_on_complete (key : nat) : comp unit :=
  s ← gets (fun s => s);
  match get key (inputs_ s) with
  | None => mret tt
  | Some i =>
      if negb (bool_decide (buf i = [])) then modify (set_inputs (put key (Input false (buf i) (asked i)) (inputs_ s)))
      else
        modify (set_inputs (erase key (inputs_ s)));;
        if sub_ s then request_outer 1
        else if bool_decide (erase key (inputs_ s) = []) then finish s_complete else mret tt
  end.

Definition fwd_on_error (key : nat) (e : error) : comp unit :=
  s ← gets (fun s => s);
  match err_ s, get key (inputs_ s) with
  | None, Some _ =>
      modify (set_err (Some e));;
      stop_inputs;;
      s ← gets (fun s => s);
      if bool_decide (inputs_ s = []) then finish (s_error e) else mret tt
  | _, _ => mret tt
  end.

(** The forwarder of an input. *)
Definition forward (key : nat) (m : comp unit) : comp unit :=
  ts ← gets targets;
  if bool_decide (key ∈ ts) then m else mret tt.

Definition forward_last (key : nat) (m : comp unit) : comp unit :=
  forward key (m;; modify (fun s => set_targets (filter (fun k => k <> key) (targets s)) s)).

(** A new subscription. *)
Definition make : state := St None false 0 true [] 1 1 0 0 [] [] [] [] 0 0 false.

End Operator.

(** ** The map of inputs *)

Section Inputs.

Context {T : Type}.

#[local] Abbreviation input_map := (@input_map T).

Definition keys (l : input_map) : list nat := map fst l.

(** The number of items in all buffers. *)
Fixpoint total (l : input_map) : nat :=
  match l with [] => 0 | (_, i) :: r => length (buf i) + total r end.

Definition buf_at (key : nat) (l : input_map) : list T := match get key l with Some i => buf i | None => [] end.

Lemma get_elem key i (l : input_map) : get key l = Some i -> (key, i) ∈ l.
Proof.
  induction l as [|[k j] l IH]; [done|]. cbn [get]. destruct (Nat.eqb_spec k key) as [-> |]; intros H.
  - injection H as ->. left.
  - right. by apply IH.
Qed.

Lemma elem_get key i (l : input_map) : NoDup (keys l) -> (key, i) ∈ l -> get key l = Some i.
Proof.
  induction l as [|[k j] l IH]; intros Hn Hin; [by apply elem_of_nil in Hin|]. cbn [keys map fst] in Hn.
  apply NoDup_cons in Hn as [Hk Hn]. cbn [get]. apply elem_of_cons in Hin as [E|Hin].
  - injection E as -> ->. by rewrite Nat.eqb_refl.
  - rewrite (proj2 (Nat.eqb_neq _ _)); [by apply IH|]. intros ->. apply Hk. by apply (list_elem_of_fmap_2 fst) in Hin.
Qed.

Lemma get_keys key i (l : input_map) : get key l = Some i -> key ∈ keys l.
Proof. intros H%get_elem. by apply (list_elem_of_fmap_2 fst) in H. Qed.

Lemma keys_get key (l : input_map) : key ∈ keys l -> exists i, get key l = Some i.
Proof.
  induction l as [|[k j] l IH]; intros Hin; [by apply elem_of_nil in Hin|]. cbn [get].
  destruct (Nat.eqb_spec k key) as [-> |Hne]; [eauto|]. apply elem_of_cons in Hin as [->|Hin]; [done|by apply IH].
Qed.

Lemma get_put key x k (l : input_map) : get k (put key x l) = if (k =? key)%nat && bool_decide (is_Some (get key l)) then Some x else get k l.
Proof.
  induction l as [|[k' j] l IH]; cbn [put get]; [by rewrite andb_false_r|].
  destruct (Nat.eqb_spec k' key) as [-> |Hne]; cbn [get].
  - rewrite (Nat.eqb_sym key k). destruct (Nat.eqb_spec k key); cbn; [done|done].
  - rewrite IH. destruct (Nat.eqb_spec k' k) as [-> |]; [|done]. by rewrite (proj2 (Nat.eqb_neq _ _) Hne).
Qed.

Lemma keys_put key x (l : input_map) : keys (put key x l) = keys l.
Proof. induction l as [|[k i] l IH]; [done|]. cbn [put]. destruct (k =? key)%nat; [done|]. unfold keys in *. cbn [map]. by rewrite IH. Qed.

Lemma total_put key x i (l : input_map) :
  get key l = Some i -> (total (put key x l) + length (buf i) = total l + length (buf x))%nat.
Proof.
  induction l as [|[k j] l IH]; [done|]. cbn [get put]. destruct (Nat.eqb_spec k key); intros H; cbn [total].
  - injection H as ->. lia.
  - specialize (IH H). lia.
Qed.

Lemma total_get key i (l : input_map) : get key l = Some i -> (length (buf i) <= total l)%nat.
Proof.
  induction l as [|[k j] l IH]; [done|]. cbn [get total]. destruct (k =? key)%nat; intros H; [injection H as ->; lia|].
  specialize (IH H). lia.
Qed.

Lemma total_erase key i (l : input_map) : get key l = Some i -> (total (erase key l) + length (buf i) = total l)%nat.
Proof.
  induction l as [|[k j] l IH]; [done|]. cbn [get erase]. destruct (Nat.eqb_spec k key); intros H; cbn [total].
  - injection H as ->. lia.
  - specialize (IH H). lia.
Qed.

Lemma length_erase key i (l : input_map) : get key l = Some i -> length l = S (length (erase key l)).
Proof.
  induction l as [|[k j] l IH]; [done|]. cbn [get erase]. destruct (k =? key)%nat; intros H; [done|]. cbn [length]. by rewrite (IH H).
Qed.

Lemma keys_erase key (l : input_map) k : NoDup (keys l) -> k ∈ keys (erase key l) <-> k ∈ keys l /\ k <> key.
Proof.
  induction l as [|[k' i] l IH]; intros Hn; cbn [erase keys map fst] in *.
  - split; [intros H; by apply elem_of_nil in H|by intros [H _]].
  - apply NoDup_cons in Hn as [Hk Hn]. destruct (Nat.eqb_spec k' key) as [-> |Hne].
    + rewrite elem_of_cons. split; [intros H; split; [by right|by intros ->]|]. by intros [[->|H] ?].
    + cbn [map fst]. rewrite !elem_of_cons. fold (keys (erase key l)). rewrite (IH Hn).
      split; [intros [->|[H H']]; [by split; [left|]|by split; [right|]]|]. intros [[->|H] H']; [by left|by right].
Qed.

Lemma NoDup_erase key (l : input_map) : NoDup (keys l) -> NoDup (keys (erase key l)).
Proof.
  induction l as [|[k i] l IH]; intros Hn; [done|]. pose proof Hn as Hn'. cbn [erase keys map fst] in *.
  apply NoDup_cons in Hn as [Hk Hn]. destruct (k =? key)%nat; [done|]. cbn [map fst]. apply NoDup_cons. split; [|by apply IH].
  intros H. apply Hk. by apply (keys_erase key l k Hn).
Qed.

Lemma get_erase key k (l : input_map) : NoDup (keys l) -> get k (erase key l) = if (k =? key)%nat then None else get k l.
Proof.
  intros Hn. destruct (get k (erase key l)) as [i|] eqn:E.
  - pose proof (get_keys _ _ _ E) as Hk. apply keys_erase in Hk as [Hk Hne]; [|done]. rewrite (proj2 (Nat.eqb_neq _ _) Hne).
    symmetry. apply elem_get; [done|]. apply get_elem in E. clear Hn Hk. induction l as [|[k' j] l IH]; [done|].
    cbn [erase] in E. destruct (k' =? key)%nat; [by right|]. apply elem_of_cons in E as [->|E]; [left|right; by apply IH].
  - destruct (Nat.eqb_spec k key) as [|Hne]; [done|]. destruct (get k l) as [i|] eqn:E'; [|done]. exfalso.
    assert (k ∈ keys (erase key l)) as H by (apply keys_erase; [done|split; [by eapply get_keys|done]]).
    apply keys_get in H as [j H]. congruence.
Qed.

Lemma Forall_put (P : nat * merge_input -> Prop) key x (l : input_map) : Forall P l -> P (key, x) -> Forall P (put key x l).
Proof.
  intros H Hx. induction H as [|[k i] l Hi H IH]; [constructor|]. cbn [put]. destruct (Nat.eqb_spec k key) as [-> |]; by constructor.
Qed.

Lemma Forall_erase (P : nat * merge_input -> Prop) key (l : input_map) : Forall P l -> Forall P (erase key l).
Proof. intros H. induction H as [|[k i] l Hi H IH]; [constructor|]. cbn [erase]. destruct (k =? key)%nat; [done|by constructor]. Qed.

Lemma Forall_get (P : nat * merge_input -> Prop) key i (l : input_map) : Forall P l -> get key l = Some i -> P (key, i).
Proof. intros H Hg. rewrite Forall_forall in H. by apply H, get_elem. Qed.

(** *** The next input *)

Lemma select_elem (l : input_map) k : select_non_empty l = Some k -> exists i, (k, i) ∈ l /\ buf i <> [].
Proof.
  unfold select_non_empty. destruct (List.find non_empty l) as [[k' i]|] eqn:E; [|done]. intros [= <-].
  apply List.find_some in E as [Hin Hb]. exists i. split; [by apply list_elem_of_In|]. unfold non_empty in Hb. cbn in Hb. by destruct (buf i).
Qed.

Lemma select_none (l : input_map) : select_non_empty l = None -> Forall (fun kvp => buf kvp.2 = []) l.
Proof.
  unfold select_non_empty. destruct (List.find non_empty l) eqn:E; [done|]. intros _. apply List.Forall_forall. intros kvp Hin.
  pose proof (List.find_none _ _ E kvp Hin) as Hb. unfold non_empty in Hb. by destruct (buf kvp.2).
Qed.

Lemma total_zero (l : input_map) : Forall (fun kvp => buf kvp.2 = []) l -> total l = 0%nat.
Proof. intros H. induction H as [|[k i] l Hi H IH]; [done|]. cbn [total snd] in *. by rewrite Hi, IH. Qed.

Lemma next_input_some pos (l : input_map) k :
  NoDup (keys l) -> next_input pos l = Some k -> exists i, get k l = Some i /\ buf i <> [].
Proof.
  intros Hn H. unfold next_input in H. destruct (select_non_empty (filter _ l)) as [k'|] eqn:E.
  - injection H as ->. apply select_elem in E as (i & [_ Hin]%list_elem_of_filter & Hb). exists i. by split; [apply elem_get|].
  - apply select_elem in H as (i & [_ Hin]%list_elem_of_filter & Hb). exists i. by split; [apply elem_get|].
Qed.

Lemma next_input_none pos (l : input_map) : next_input pos l = None -> total l = 0%nat.
Proof.
  unfold next_input. destruct (select_non_empty (filter _ l)) eqn:E1; [done|]. intros E2. apply total_zero.
  apply select_none in E1, E2. rewrite Forall_forall in *. intros kvp Hin.
  destruct (decide (pos <= kvp.1)%nat); [apply E1|apply E2]; apply list_elem_of_filter; split; [done|done|lia|done].
Qed.

(** *** Items of an input *)

Definition proj (key : nat) (l : list (nat * T)) : list T := omap (fun p => if (p.1 =? key)%nat then Some p.2 else None) l.

Lemma proj_snoc key l k x : proj key (l ++ [(k, x)]) = proj key l ++ (if (k =? key)%nat then [x] else []).
Proof. unfold proj. rewrite omap_app. cbn. by destruct (k =? key)%nat. Qed.

End Inputs.

(** ** Correctness *)

Section Correctness.

Context {T : Type} (mc mp : nat) (react : list (signal T) -> list (@reaction T)).

#[local] Abbreviation state := (@state T).

(** The observer requests items and cancels, but makes no input emit items. *)
Definition polite_reaction (r : @reaction T) : Prop :=
  match r with r_request n => (0 < n)%nat | r_cancel => True | r_push _ _ => False end.

Context (Hpolite : forall tr, Forall polite_reaction (react tr)).

(** An input while there is no error: it is subscribed and has been asked for all
    items there is room for, or it did not subscribe yet, or it is complete and
    its items wait. *)
Definition fine (ts : list nat) (kvp : nat * @merge_input T) : Prop :=
  if sub kvp.2 then kvp.1 ∈ ts /\ (asked kvp.2 + length (buf kvp.2) = mp)%nat
  else kvp.1 ∈ ts /\ buf kvp.2 = [] /\ asked kvp.2 = 0%nat \/ kvp.1 ∉ ts /\ buf kvp.2 <> [].

(** While there is an observer. *)
Record active (s : state) : Prop := {
  a_out : out_ s = true;
  a_nodup : NoDup (keys (inputs_ s));
  a_bound : Forall (fun kvp => kvp.1 < next_key_ s)%nat (inputs_ s);
  a_buffered : buffered_ s = total (inputs_ s);
  a_order : forall k, proj k (passed s) ++ buf_at k (inputs_ s) = proj k (taken s);
  a_trace : trace s = map s_next (map snd (passed s));
  a_inputs : match err_ s with
    | Some _ => sub_ s = false /\ Forall (fun kvp => sub kvp.2 = false /\ buf kvp.2 <> []) (inputs_ s)
    | None => Forall (fine (targets s)) (inputs_ s) /\ (forall k, k ∈ targets s -> k ∈ keys (inputs_ s)) /\
        if sub_ s then (outer_asked s + length (inputs_ s) = mc)%nat else outer_done s = true
    end;
}.

(** When the observer is gone: it has cancelled or got the last signal, which is the
    error if there was one, and otherwise comes when the source and all inputs
    are complete. *)
Record gone (s : state) : Prop := {
  g_out : out_ s = false;
  g_sub : sub_ s = false;
  g_inputs : inputs_ s = [];
  g_order : forall k, proj k (passed s) `prefix_of` proj k (taken s);
  g_demand : (length (passed s) <= requested s)%nat;
  g_trace : exists tail, trace s = map s_next (map snd (passed s)) ++ tail /\
    (tail = [] \/ tail = [s_error sec_disposed] \/
     (forall k, proj k (passed s) = proj k (taken s)) /\
     match err_ s with Some e => tail = [s_error e] | None => tail = [s_complete] /\ outer_done s = true end);
}.

(** [v] items of the demand are counted twice while [do_pull v] runs. *)
Definition balanced (v : nat) (s : state) : Prop :=
  (length (passed s) + demand_ s + in_flight_demand_ s = requested s + v)%nat /\
  (v <= in_flight_demand_ s)%nat /\ (v <= length (passed s) + demand_ s)%nat /\ Z.of_nat (requested s) < 2 ^ 64.

(** The part of the state that requests change. *)
Definition upd (d f r : nat) (s : state) : state :=
  St (err_ s) (sub_ s) d (out_ s) (inputs_ s) (next_key_ s) (pos_ s) (buffered_ s) f (targets s) (trace s) (taken s)
    (passed s) r (outer_asked s) (outer_done s).

Lemma upd_id s : upd (demand_ s) (in_flight_demand_ s) (requested s) s = s.
Proof. by destruct s. Qed.

Lemma active_upd d f r s : active s -> active (upd d f r s).
Proof. by intros []. Qed.

(** What requests do: the demand grows at once, or the operator will pull. *)
Definition more (v : nat) (s s' : state) : Prop :=
  exists d f r, s' = upd d f r s /\ balanced v s' /\ (demand_ s <= d)%nat /\ (in_flight_demand_ s <= f)%nat /\
    (buffered_ s = 0%nat -> f = in_flight_demand_ s) /\ ((0 < buffered_ s)%nat -> d = demand_ s).

Lemma more_refl v s : balanced v s -> more v s s.
Proof. intros H. exists (demand_ s), (in_flight_demand_ s), (requested s). by rewrite upd_id. Qed.

Lemma more_trans v s1 s2 s3 : more v s1 s2 -> more v s2 s3 -> more v s1 s3.
Proof.
  intros (d & f & r & -> & _ & H1 & H2 & H3 & H4) (d' & f' & r' & -> & Hb & H1' & H2' & H3' & H4').
  exists d', f', r'. cbn in *. split_and!; [done|done|lia|lia| |]; intros; [rewrite H3', H3; done|rewrite H4', H4; done].
Qed.

Lemma merge_request_ok n v s :
  out_ s = true -> (0 < n)%nat -> Z.of_nat (requested s + n) < 2 ^ 64 -> balanced v s ->
  exists s', request n s = Value tt s' /\ more v s s'.
Proof.
  intros Ho Hn Hlt Hb. unfold request. rewrite run_gets, Ho. cbn [negb]. rewrite run_modify.
  destruct (Nat.eqb_spec (buffered_ s) 0) as [E|E]; unfold pull; [|rewrite (proj2 (Nat.eqb_neq n 0)) by lia];
    (eexists; split; [reflexivity|]); unfold balanced in *.
  - exists (demand_ s + n)%nat, (in_flight_demand_ s), (requested s + n)%nat. rewrite add_size_exact by lia.
    unfold balanced. cbn [passed demand_ in_flight_demand_ requested upd buffered_ set_demand set_in_flight note_requested]. split_and!; [done|lia..].
  - exists (demand_ s), (in_flight_demand_ s + n)%nat, (requested s + n)%nat.
    cbn [in_flight_demand_ note_requested]. rewrite add_size_exact by lia.
    unfold balanced. cbn [passed demand_ in_flight_demand_ requested upd buffered_ set_demand set_in_flight note_requested]. split_and!; [done|lia..].
Qed.

Lemma merge_dispose_ok b v s : active s -> balanced v s ->
  exists s', do_dispose b s = Value tt s' /\ gone s' /\ in_flight_demand_ s' = in_flight_demand_ s.
Proof.
  intros [] [Hb Hv]. unfold do_dispose. rewrite run_gets, a_out0. cbn [negb]. rewrite !run_modify.
  assert (Hpre : forall k, proj k (passed s) `prefix_of` proj k (taken s)) by (intros k; rewrite <- a_order0; by eexists).
  destruct b; [unfold finish; rewrite run_gets; cbn [out_ set_sub set_inputs]; rewrite a_out0, run_modify|];
    (eexists; split; [reflexivity|]); (split; [|done]); split; cbn; try done; try lia.
  - exists [s_error sec_disposed]. rewrite a_trace0. split; [done|by right; left].
  - exists []. rewrite a_trace0, app_nil_r. split; [done|by left].
Qed.

(** An observer that is gone does not react any more. *)
Lemma gone_reacts nest rs s : Forall polite_reaction rs -> out_ s = false -> for_each (perform react nest) rs s = Value tt s.
Proof.
  intros Hp Ho. induction Hp as [|[n| |k x] rs Hr _ IH]; [done|..|done]; cbn [for_each perform].
  - rewrite (run_value _ _ s tt s); [exact IH|]. unfold observer_request. rewrite run_gets. destruct (_ <? _); [|done].
    unfold request. by rewrite run_gets, Ho.
  - unfold do_dispose. rewrite (run_value _ _ s tt s); [exact IH|]. by rewrite run_gets, Ho.
Qed.

Lemma reactions_ok nest rs v s : Forall polite_reaction rs -> active s -> balanced v s ->
  exists s', for_each (perform react nest) rs s = Value tt s' /\
    (active s' /\ more v s s' \/ gone s' /\ (v <= in_flight_demand_ s')%nat).
Proof.
  intros Hp. revert s. induction Hp as [|[n| |k x] rs Hr Hp IH]; intros s Ha Hb; [|..|done]; cbn [for_each perform].
  - exists s. split; [done|]. left. split; [done|by apply more_refl].
  - assert (exists s1, observer_request n s = Value tt s1 /\ more v s s1) as (s1 & E & Hm).
    { unfold observer_request. rewrite run_gets. destruct (Z.ltb_spec (Z.of_nat (requested s + n)) (2 ^ 64)).
      - by apply merge_request_ok; [apply Ha|..].
      - exists s. split; [done|by apply more_refl]. }
    rewrite (run_value _ _ _ _ _ E). pose proof Hm as (d & f & r & -> & Hb1 & _). destruct (IH _ (active_upd d f r s Ha) Hb1) as (s2 & E2 & [[Ha2 Hm2]|Hg]).
    + exists s2. split; [done|]. left. split; [done|by eapply more_trans].
    + exists s2. split; [done|by right].
  - destruct (merge_dispose_ok false v s Ha Hb) as (s1 & E & Hg & Hf). rewrite (run_value _ _ _ _ _ E).
    exists s1. rewrite (gone_reacts nest rs s1 Hp (g_out _ Hg)). split; [done|]. right. split; [done|]. rewrite Hf. apply Hb.
Qed.

(** *** Passing on a buffered item *)

(** The state after an item of an input was passed on, with the new inputs. *)
Definition after (key : nat) (x : T) (l : input_map) (o p : nat) (s : state) : state :=
  St (err_ s) (sub_ s) (demand_ s - 1) (out_ s) l (next_key_ s) p (buffered_ s - 1) (in_flight_demand_ s) (targets s)
    (trace s ++ [s_next x]) (taken s) (passed s ++ [(key, x)]) (requested s) o (outer_done s).

Lemma buf_at_put key j k (l : @input_map T) : is_Some (get key l) -> buf_at k (put key j l) = if (k =? key)%nat then buf j else buf_at k l.
Proof.
  intros H. unfold buf_at. rewrite get_put. rewrite bool_decide_eq_true_2 by done. rewrite andb_true_r. by destruct (k =? key)%nat.
Qed.

Lemma buf_at_erase key k (l : @input_map T) : NoDup (keys l) -> buf_at k (erase key l) = if (k =? key)%nat then [] else buf_at k l.
Proof. intros H. unfold buf_at. rewrite get_erase by done. by destruct (k =? key)%nat. Qed.

Lemma order_passed key x rest s l :
  active s -> buf_at key (inputs_ s) = x :: rest ->
  (forall k, buf_at k l = if (k =? key)%nat then rest else buf_at k (inputs_ s)) ->
  forall k, proj k (passed s ++ [(key, x)]) ++ buf_at k l = proj k (taken s).
Proof.
  intros [] Hb Hl k. rewrite proj_snoc, Hl, (Nat.eqb_sym k key), <- a_order0, <- app_assoc.
  destruct (Nat.eqb_spec key k) as [<-|]; [by rewrite Hb|done].
Qed.

Lemma trace_passed (s : state) key x :
  trace s = map s_next (map snd (passed s)) -> trace s ++ [s_next x] = map s_next (map snd (passed s ++ [(key, x)])).
Proof. intros ->. by rewrite !map_app. Qed.

Lemma after_put key x rest b a a' p s :
  active s -> get key (inputs_ s) = Some (Input b (x :: rest) a) ->
  b = true /\ a' = S a \/ b = false /\ rest <> [] /\ a' = a ->
  active (after key x (put key (Input b rest a') (inputs_ s)) (outer_asked s) p s).
Proof.
  intros Ha Hg Hc. pose proof Ha as []. pose proof (total_put key (Input b rest a') _ _ Hg) as Ht. cbn [buf length] in Ht.
  split; cbn [out_ inputs_ next_key_ buffered_ passed taken trace err_ sub_ targets outer_asked outer_done after].
  - done.
  - by rewrite keys_put.
  - apply Forall_put; [done|]. by apply (Forall_get _ _ _ _ a_bound0 Hg).
  - lia.
  - apply (order_passed key x rest); [done|unfold buf_at; by rewrite Hg|]. intros k. apply buf_at_put. by eexists.
  - by apply trace_passed.
  - destruct (err_ s); [destruct a_inputs0 as [H1 H2]|destruct a_inputs0 as (H1 & H2 & H3)].
    + split; [done|]. apply Forall_put; [done|]. destruct (Forall_get _ _ _ _ H2 Hg) as [H4 H5]. cbn in *. subst b.
      by destruct Hc as [[? _]|(_ & ? & _)].
    + rewrite keys_put. split_and!; [|done|].
      * apply Forall_put; [done|]. pose proof (Forall_get _ _ _ _ H1 Hg) as H4. unfold fine in *. cbn in *.
        destruct Hc as [[-> ->]|(-> & Hr & ->)]; [destruct H4; split; [done|lia]|].
        destruct H4 as [(_ & ? & _)|[? _]]; [done|by right].
      * destruct (sub_ s); [|done]. rewrite <- H3. f_equal. unfold keys in *.
        pose proof (f_equal length (keys_put key (Input b rest a') (inputs_ s))) as Hl. unfold keys in Hl. by rewrite !length_map in Hl.
Qed.

Lemma after_erase key x a p s :
  active s -> get key (inputs_ s) = Some (Input false [x] a) ->
  active (after key x (erase key (inputs_ s)) (if sub_ s then outer_asked s + 1 else outer_asked s) p s).
Proof.
  intros Ha Hg. pose proof Ha as []. pose proof (total_erase key _ _ Hg) as Ht. pose proof (length_erase key _ _ Hg) as Hl.
  cbn [buf length] in Ht. split; cbn [out_ inputs_ next_key_ buffered_ passed taken trace err_ sub_ targets outer_asked outer_done after].
  - done.
  - by apply NoDup_erase.
  - by apply Forall_erase.
  - lia.
  - apply (order_passed key x []); [done|unfold buf_at; by rewrite Hg|]. intros k. by apply buf_at_erase.
  - by apply trace_passed.
  - destruct (err_ s); [destruct a_inputs0 as [H1 H2]; split; [done|by apply Forall_erase]|].
    destruct a_inputs0 as (H1 & H2 & H3). split_and!; [by apply Forall_erase| |destruct (sub_ s); [lia|done]].
    intros k Hk. apply keys_erase; [done|]. split; [by apply H2|]. intros ->.
    pose proof (Forall_get _ _ _ _ H1 Hg) as H4. unfold fine in H4. cbn in H4. by destruct H4 as [(_ & ? & _)|[? _]].
Qed.

Lemma next_run s : exists p, next s = Value (next_input (pos_ s) (inputs_ s)) (@set_pos T p s).
Proof.
  unfold next. rewrite run_gets. destruct (next_input (pos_ s) (inputs_ s)) as [k|]; [by exists k|]. exists (pos_ s). by destruct s.
Qed.

(** The iterator that [next] selects if there are items. *)
Definition points (i : option nat) (l : @input_map T) : Prop := exists k j, i = Some k /\ get k l = Some j /\ buf j <> [].

Lemma next_points pos (l : @input_map T) : NoDup (keys l) -> (0 < total l)%nat -> points (next_input pos l) l.
Proof.
  intros Hn Ht. destruct (next_input pos l) as [k|] eqn:E; [|apply next_input_none in E; lia].
  destruct (next_input_some _ _ _ Hn E) as (j & H1 & H2). by exists k, j.
Qed.

Lemma get_put_same key x (l : @input_map T) : is_Some (get key l) -> get key (put key x l) = Some x.
Proof. intros H. by rewrite get_put, Nat.eqb_refl, bool_decide_eq_true_2. Qed.

Lemma put_put key x y (l : @input_map T) : put key x (put key y l) = put key x l.
Proof. induction l as [|[k i] l IH]; [done|]. cbn [put]. destruct (k =? key)%nat eqn:E; cbn [put]; rewrite E; [done|by rewrite IH]. Qed.

Lemma request_input_run key n i (s : state) : get key (inputs_ s) = Some i ->
  request_input key n s = Value tt (set_inputs (put key (Input (sub i) (buf i) (asked i + n)) (inputs_ s)) s).
Proof. intros H. unfold request_input, modify. by rewrite H. Qed.

(** A round of the loop: the item is passed on from a consistent state, and the
    iterator afterwards points to an item if there is one. *)
Definition fetched (key : nat) (s : state) : Prop :=
  exists x i' s1 l o p, fetch key s = Value (x, i') s1 /\ send (s_next x) (note_passed (key, x) s1) = after key x l o p s /\
    active (after key x l o p s) /\ ((0 < buffered_ s - 1)%nat -> points i' l).

Lemma after_points key x l o p q s :
  active (after key x l o p s) -> (0 < buffered_ s - 1)%nat -> points (next_input q l) l.
Proof.
  intros Hl Ht. apply next_points; [apply (a_nodup _ Hl)|]. pose proof (a_buffered _ Hl) as E. cbn in E. lia.
Qed.

Lemma fetch_subscribed key x rest a s :
  active s -> get key (inputs_ s) = Some (Input true (x :: rest) a) -> fetched key s.
Proof.
  intros Ha Hg. pose proof (fun p => after_put key x rest true a (S a) p s Ha Hg ltac:(by left)) as Hl.
  unfold fetched, fetch. rewrite run_gets, Hg, run_modify.
  erewrite run_value; [|apply request_input_run; cbn [inputs_ set_buffered set_demand set_inputs]; apply get_put_same; by eexists].
  cbn [inputs_ set_buffered set_demand set_inputs sub buf asked]. rewrite put_put, Nat.add_1_r, run_gets. cbn [buffered_ set_inputs set_buffered].
  destruct (bool_decide_reflect (rest = [])) as [-> |Hr]; cbn [andb].
  - destruct (Nat.ltb_spec 0 (buffered_ s - 1)) as [Hn|Hn].
    + match goal with |- context [(next ≫= _) ?s1] => destruct (next_run s1) as [p Hp] end.
      rewrite (run_value _ _ _ _ _ Hp). eexists _, _, _, _, _, p. split_and!; [reflexivity|reflexivity|exact (Hl p)|].
      by apply (after_points _ _ _ _ p _ _ (Hl p)).
    + eexists _, _, _, _, _, (pos_ s). split_and!; [reflexivity|reflexivity|exact (Hl _)|lia].
  - eexists _, _, _, _, _, (pos_ s). split_and!; [reflexivity|reflexivity|exact (Hl _)|].
    intros _. eexists key, _. split_and!; [done|apply get_put_same; by eexists|exact Hr].
Qed.

Lemma fetch_last key x a s :
  active s -> get key (inputs_ s) = Some (Input false [x] a) -> fetched key s.
Proof.
  intros Ha Hg. pose proof (fun p => after_erase key x a p s Ha Hg) as Hl.
  unfold fetched, fetch. rewrite run_gets, Hg, run_modify, bool_decide_eq_true_2 by done. rewrite run_modify.
  set (s1 := set_inputs (erase key (inputs_ s)) _).
  assert (exists o, o = (if sub_ s then outer_asked s + 1 else outer_asked s)%nat /\
    (if sub_ s then request_outer 1 else mret tt) s1 = Value tt (note_asked o s1)) as (o & Ho & E).
  { unfold request_outer, modify. destruct (sub_ s); [by eexists|]. eexists. split; [done|]. by subst s1. }
  rewrite (run_value _ _ _ _ _ E), run_gets. cbn [buffered_ note_asked set_inputs s1 set_buffered]. rewrite <- Ho in Hl.
  destruct (Nat.ltb_spec 0 (buffered_ s - 1)) as [Hn|Hn].
  - destruct (next_run (note_asked o s1)) as [p Hp]. rewrite (run_value _ _ _ _ _ Hp).
    eexists _, _, _, _, _, p. split_and!; [reflexivity|reflexivity|exact (Hl p)|]. by apply (after_points _ _ _ _ p _ _ (Hl p)).
  - eexists _, _, _, _, _, (pos_ s). split_and!; [reflexivity|reflexivity|exact (Hl _)|lia].
Qed.

Lemma fetch_complete key x rest a s :
  active s -> get key (inputs_ s) = Some (Input false (x :: rest) a) -> rest <> [] -> fetched key s.
Proof.
  intros Ha Hg Hr. pose proof (fun p => after_put key x rest false a a p s Ha Hg ltac:(by right)) as Hl.
  unfold fetched, fetch. rewrite run_gets, Hg, run_modify, bool_decide_eq_false_2 by done.
  eexists _, _, _, _, _, (pos_ s). split_and!; [reflexivity|reflexivity|exact (Hl _)|].
  intros _. eexists key, _. split_and!; [done|apply get_put_same; by eexists|exact Hr].
Qed.

Lemma fetch_ok key i s : active s -> get key (inputs_ s) = Some i -> buf i <> [] -> fetched key s.
Proof.
  destruct i as [[] [|x rest] a]; intros Ha Hg Hb; try done; [by eapply fetch_subscribed|].
  destruct rest; [by eapply fetch_last|by eapply fetch_complete].
Qed.

(** *** Pulling *)

Definition drained (s : state) : Prop := demand_ s = 0%nat \/ buffered_ s = 0%nat.

(** If requests are in flight afterwards, then items were passed on. *)
Definition consumed (s s' : state) : Prop :=
  (buffered_ s' <= buffered_ s)%nat /\ (in_flight_demand_ s' <> in_flight_demand_ s -> (buffered_ s' < buffered_ s)%nat).

Lemma pull_loop_ok v nest fuel : forall i s,
  active s -> balanced v s -> (buffered_ s <= fuel)%nat -> ((0 < buffered_ s)%nat -> points i (inputs_ s)) ->
  exists s', pull_loop react fuel nest i s = Value tt s' /\ (v <= in_flight_demand_ s')%nat /\
    (active s' /\ balanced v s' /\ drained s' /\ consumed s s' \/ gone s').
Proof.
  induction fuel as [|fuel IH]; intros i s Ha Hb Hf Hi; cbn [pull_loop]; rewrite run_gets, (a_out _ Ha); cbn [andb].
  { rewrite (proj2 (Nat.ltb_ge 0 (buffered_ s))), andb_false_r by lia. exists s. split_and!; [done|apply Hb|]. left.
    split_and!; [done|done|right; lia|split; [lia|done]]. }
  destruct (Nat.ltb_spec 0 (demand_ s)) as [Hd|Hd]; cbn [andb].
  2: { exists s. split_and!; [done|apply Hb|]. left. split_and!; [done|done|left; lia|split; [lia|done]]. }
  destruct (Nat.ltb_spec 0 (buffered_ s)) as [Hn|Hn].
  2: { exists s. split_and!; [done|apply Hb|]. left. split_and!; [done|done|right; lia|split; [lia|done]]. }
  destruct (Hi Hn) as (key & j & -> & Hg & Hj).
  destruct (fetch_ok key j s Ha Hg Hj) as (x & i' & s1 & l & o & p & E & Es & Ha1 & Hp). rewrite (run_value _ _ _ _ _ E).
  assert (Hb1 : balanced v (after key x l o p s)).
  { destruct Hb as [Hb Hv]. unfold balanced. cbn. rewrite length_app. cbn. lia. }
  destruct (reactions_ok nest (react (trace (after key x l o p s))) v _ (Hpolite _) Ha1 Hb1) as (s2 & E2 & H2).
  assert (Eo : on_next_out react nest key x s1 = Value tt s2) by (unfold on_next_out; rewrite !run_modify, run_gets, Es; exact E2).
  rewrite (run_value _ _ _ _ _ Eo). destruct H2 as [[Ha2 Hm]|[Hg2 Hv]].
  - destruct Hm as (d & f & r & -> & Hb2 & _ & Hf2 & Hz & _). cbn in Hf2, Hz.
    destruct (IH i' _ Ha2 Hb2) as (s3 & E3 & Hv3 & H3); [cbn; lia|cbn; exact Hp|]. exists s3. split_and!; [done|done|].
    destruct H3 as [(Ha3 & Hb3 & Hd3 & Hc1 & Hc2)|Hg3]; [left|by right]. cbn in Hc1, Hc2.
    split_and!; [done|done|done|]. split; lia.
  - exists s2. split_and!; [|done|by right].
    destruct fuel; cbn [pull_loop]; by rewrite run_gets, (g_out _ Hg2).
Qed.

Definition last_signal (s : state) : signal T := match err_ s with None => s_complete | Some e => s_error e end.

Lemma finish_ok v s : active s -> balanced v s -> done s = true ->
  exists s', finish (last_signal s) s = Value tt s' /\ gone s' /\ in_flight_demand_ s' = in_flight_demand_ s.
Proof.
  intros [] [Hb Hv] Hd. unfold done in Hd. apply andb_prop in Hd as [Hs%negb_true_iff Hi%bool_decide_eq_true_1].
  unfold finish. rewrite run_gets, a_out0, run_modify. eexists. split; [reflexivity|]. split; [|done].
  assert (Hall : forall k, proj k (passed s) = proj k (taken s)).
  { intros k. rewrite <- a_order0, Hi. by rewrite app_nil_r. }
  split; cbn -[proj map]; try done; [intros k; by rewrite Hall|lia|].
  exists [last_signal s]. rewrite a_trace0. split; [done|]. right. right. split; [done|]. unfold last_signal.
  destruct (err_ s); [done|]. rewrite Hs in a_inputs0. split; [done|apply a_inputs0].
Qed.

Lemma gone_fields s s' :
  gone s -> out_ s' = out_ s -> sub_ s' = sub_ s -> inputs_ s' = inputs_ s -> passed s' = passed s -> taken s' = taken s ->
  requested s' = requested s -> trace s' = trace s -> err_ s' = err_ s -> outer_done s' = outer_done s -> gone s'.
Proof. intros [] H1 H2 H3 H4 H5 H6 H7 H8 H9. split; rewrite ?H1, ?H2, ?H3, ?H4, ?H5, ?H6, ?H7, ?H8, ?H9; done. Qed.

Lemma set_pos_active p s : active s -> active (set_pos p s).
Proof. by intros []. Qed.

Lemma do_pull_ok nest fuel s :
  active s -> balanced 0 s -> done s = false -> (buffered_ s <= fuel)%nat ->
  let v := in_flight_demand_ s in
  exists s', do_pull react fuel nest v s = Value tt s' /\ (v <= in_flight_demand_ s')%nat /\
    (active s' /\ balanced v s' /\ drained s' /\ done s' = false /\ consumed s s' \/ gone s').
Proof.
  intros Ha Hb Hd Hf v. unfold do_pull. rewrite run_modify.
  rewrite (add_size_exact (demand_ s) v) by (unfold balanced, v in *; lia). set (s0 := set_demand (demand_ s + v) s).
  assert (Ha0 : active s0) by (by destruct Ha).
  assert (Hb0 : balanced v s0) by (unfold balanced, v in *; cbn; lia).
  destruct (next_run s0) as [p Hp]. rewrite (run_value _ _ _ _ _ Hp). cbn [pos_ inputs_ s0 set_demand].
  destruct (next_input (pos_ s) (inputs_ s)) as [k|] eqn:E.
  2: { eexists. split_and!; [reflexivity|done|]. left. split_and!; [by apply set_pos_active|done| |done|split; [done|done]].
       right. cbn. rewrite (a_buffered _ Ha). by eapply next_input_none. }
  rewrite run_gets. destruct (next_input_some _ _ _ (a_nodup _ Ha) E) as (j & Hj1 & Hj2).
  destruct (pull_loop_ok v nest fuel (Some k) (set_pos p s0) (set_pos_active p s0 Ha0) Hb0 Hf ltac:(intros _; by exists k, j))
    as (s1 & E1 & Hv1 & H1).
  rewrite (run_value _ _ _ _ _ E1), run_modify, run_gets. set (s2 := if (pos_ s1 =? _)%nat then _ else s1).
  assert (Hs2 : exists q, s2 = set_pos q s1) by (unfold s2; destruct (_ =? _)%nat; [by eexists|exists (pos_ s1); by destruct s1]).
  destruct Hs2 as [q Hq]. rewrite Hq. cbn [out_ set_pos]. destruct H1 as [(Ha1 & Hb1 & Hd1 & Hc1)|Hg1].
  - rewrite (a_out _ Ha1). cbn [andb]. destruct (done (set_pos q s1)) eqn:Edone.
    + destruct (finish_ok v (set_pos q s1) (set_pos_active q s1 Ha1) Hb1 Edone) as (s3 & E3 & Hg3 & Hf3).
      exists s3. split_and!; [exact E3|rewrite Hf3; exact Hv1|by right].
    + eexists. split_and!; [reflexivity|done|]. left. split_and!; [by apply set_pos_active|done|done|done|done].
  - rewrite (g_out _ Hg1). eexists. split_and!; [reflexivity|done|]. right. by eapply gone_fields.
Qed.

Definition settled (s : state) : Prop :=
  active s /\ done s = false /\ balanced 0 s /\ (in_flight_demand_ s = 0%nat -> drained s) \/ gone s.

Lemma pull_cb_gone rounds fuel nest s : gone s -> (1 <= rounds)%nat ->
  exists s', pull_cb react rounds fuel nest s = Value tt s' /\ gone s'.
Proof.
  intros Hg Hr. destruct rounds as [|rounds]; [lia|]. cbn [pull_cb]. rewrite run_gets. unfold do_pull.
  destruct (next_run (set_demand (add_size (demand_ s) (in_flight_demand_ s)) s)) as [p Hp]. cbn [inputs_ set_demand] in Hp.
  rewrite (g_inputs _ Hg) in Hp.
  erewrite run_value; [|rewrite run_modify, (run_value _ _ _ _ _ Hp); reflexivity].
  rewrite run_modify, run_gets. cbn [in_flight_demand_ set_in_flight set_pos set_demand]. rewrite Nat.sub_diag.
  eexists. split; [reflexivity|]. by eapply gone_fields.
Qed.

Lemma pull_cb_ok nest fuel rounds : forall s,
  active s -> done s = false -> balanced 0 s -> (buffered_ s <= fuel)%nat -> (buffered_ s + 2 <= rounds)%nat ->
  exists s', pull_cb react rounds fuel nest s = Value tt s' /\ settled s'.
Proof.
  induction rounds as [|rounds IH]; intros s Ha Hd Hb Hf Hr; [lia|]. cbn [pull_cb]. rewrite run_gets.
  destruct (do_pull_ok nest fuel s Ha Hb Hd Hf) as (s1 & E1 & Hv1 & H1). rewrite (run_value _ _ _ _ _ E1), run_modify, run_gets.
  cbn [in_flight_demand_ set_in_flight]. destruct H1 as [(Ha1 & Hb1 & Hdr & Hd1 & Hc1 & Hc2)|Hg1].
  - set (s2 := set_in_flight (in_flight_demand_ s1 - in_flight_demand_ s) s1).
    assert (Ha2 : active s2) by (by destruct Ha1).
    assert (Hb2 : balanced 0 s2) by (destruct Hb1; unfold balanced; cbn; lia).
    destruct (Nat.ltb_spec 0 (in_flight_demand_ s1 - in_flight_demand_ s)) as [Hm|Hm].
    + apply IH; [done|done|done|cbn; lia|]. cbn. specialize (Hc2 ltac:(lia)). lia.
    + exists s2. split; [done|]. left. by split_and!.
  - assert (Hg2 : gone (set_in_flight (in_flight_demand_ s1 - in_flight_demand_ s) s1)) by (by eapply gone_fields).
    destruct (0 <? _)%nat; [|by eexists; split; [reflexivity|right]].
    destruct (pull_cb_gone rounds fuel nest _ Hg2) as (s3 & E3 & Hg3); [lia|]. exists s3. split; [done|by right].
Qed.

(** *** Every run *)

Inductive event :=
  | ev_request (n : nat) | ev_dispose (from_external : bool) | ev_pull
  | ev_input | ev_complete | ev_error (e : error)
  | ev_in_subscribe (key : nat) | ev_in_next (key : nat) (x : T) | ev_in_complete (key : nat) | ev_in_error (key : nat) (e : error).

Definition handle (e : event) : comp state unit :=
  match e with
  | ev_request n => request n
  | ev_dispose b => do_dispose b
  | ev_pull => n ← gets buffered_; pull_cb react (n + 2) n 0
  | ev_input => on_next
  | ev_complete => on_complete
  | ev_error e => on_error e
  | ev_in_subscribe k => forward k (fwd_on_subscribe mp k)
  | ev_in_next k x => forward k (fwd_on_next react 0 k x)
  | ev_in_complete k => forward_last k (fwd_on_complete k)
  | ev_in_error k e => forward_last k (fwd_on_error k e)
  end.

(** A request is for at least one item and fewer than 2^64 in total, a source and
    an input send no more items than they were asked for, an input
    subscribes once before it sends items, and a source that was cancelled does
    not end. *)
Definition allowed (e : event) (s : state) : bool :=
  match e with
  | ev_request n => (0 <? n)%nat && (Z.of_nat (requested s + n) <? 2 ^ 64)
  | ev_pull => (0 <? in_flight_demand_ s)%nat
  | ev_input => negb (sub_ s) || (0 <? outer_asked s)%nat
  | ev_complete | ev_error _ => sub_ s
  | ev_in_subscribe k => match get k (inputs_ s) with Some i => negb (sub i) && bool_decide (buf i = []) | None => true end
  | ev_in_next k _ => match get k (inputs_ s) with Some i => (0 <? asked i)%nat | None => true end
  | _ => true
  end.

Lemma cancelled_elem k i (l : @input_map T) : (k, i) ∈ cancelled l -> exists b, (k, Input b (buf i) (asked i)) ∈ l /\ buf i <> [] /\ sub i = false.
Proof.
  unfold cancelled. intros H. apply list_elem_of_fmap in H as ([k' j] & E & [Hb Hin]%list_elem_of_filter). cbn in E.
  injection E as -> ->. cbn. exists (sub j). destruct j as [b u a]. split_and!; [done| |done].
  unfold non_empty in Hb. cbn in *. by destruct u.
Qed.

Lemma cancelled_keys (l : @input_map T) : NoDup (keys l) -> NoDup (keys (cancelled l)).
Proof.
  intros H. assert (E : keys (cancelled l) = keys (filter (fun kvp => non_empty kvp = true) l)) by (unfold keys, cancelled; by rewrite map_map).
  rewrite E. clear E. unfold input_map in *. induction l as [|[k i] l IH]; [done|]. cbn [keys map fst] in H. apply NoDup_cons in H as [Hk H].
  rewrite filter_cons. case_decide; [|by apply IH]. cbn [keys map fst]. apply NoDup_cons. split; [|by apply IH].
  intros Hin. apply Hk. apply list_elem_of_fmap in Hin as ([k' j] & -> & [_ Hin]%list_elem_of_filter).
  by apply (list_elem_of_fmap_2 fst) in Hin.
Qed.

Lemma cancelled_total (l : @input_map T) : total (cancelled l) = total l.
Proof.
  unfold cancelled, input_map in *. induction l as [|[k i] l IH]; [done|]. rewrite filter_cons. cbn [total].
  case_decide as H; unfold non_empty in H; cbn [snd] in H; [cbn [map total fst snd buf]; by rewrite IH|].
  by destruct (buf i).
Qed.

Lemma cancelled_buf k (l : @input_map T) : NoDup (keys l) -> buf_at k (cancelled l) = buf_at k l.
Proof.
  intros Hn. unfold buf_at. destruct (get k l) as [i|] eqn:E.
  - destruct (get k (cancelled l)) as [j|] eqn:E'.
    + apply get_elem, cancelled_elem in E' as (b & Hin & _). apply elem_get in Hin; [|done]. rewrite E in Hin. by injection Hin as ->.
    + destruct (buf i) as [|x u] eqn:Hb; [done|]. exfalso.
      assert (Hin : (k, Input false (buf i) (asked i)) ∈ cancelled l).
      { unfold cancelled. apply list_elem_of_fmap. exists (k, i). split; [done|]. apply list_elem_of_filter. split; [|by apply get_elem].
        unfold non_empty. cbn. by rewrite Hb. }
      apply elem_get in Hin; [congruence|by apply cancelled_keys].
  - destruct (get k (cancelled l)) as [j|] eqn:E'; [|done]. apply get_elem, cancelled_elem in E' as (b & Hin & _).
    apply elem_get in Hin; [congruence|done].
Qed.

(** An error stops the source and all inputs; the items that wait will come first. *)
Definition stopped (e : error) (ts : list nat) (s : state) : state :=
  St (Some e) false (demand_ s) (out_ s) (cancelled (inputs_ s)) (next_key_ s) (pos_ s) (buffered_ s) (in_flight_demand_ s) ts
    (trace s) (taken s) (passed s) (requested s) (outer_asked s) (outer_done s).

Lemma stopped_active e ts s : active s -> active (stopped e ts s).
Proof.
  intros []. split; cbn [out_ inputs_ next_key_ buffered_ passed taken trace err_ sub_ targets outer_asked outer_done stopped]; try done.
  - by apply cancelled_keys.
  - apply Forall_forall. intros [k i] (b & Hin & _)%cancelled_elem. rewrite Forall_forall in a_bound0. exact (a_bound0 _ Hin).
  - by rewrite cancelled_total.
  - intros k. by rewrite cancelled_buf.
  - split; [done|]. apply Forall_forall. intros [k i] (b & _ & Hb & Hs)%cancelled_elem. done.
Qed.

Lemma settled_targets ts s : (forall e, err_ s = Some e -> settled s) -> err_ s <> None -> settled (set_targets ts s).
Proof.
  intros H He. destruct (err_ s) as [e|] eqn:E; [|done]. destruct (H e eq_refl) as [(Ha & Hd & Hb & Hdr)|Hg].
  - left. split_and!; [|done|done|done]. destruct Ha. split; try done. cbn. by rewrite E in *.
  - right. by eapply gone_fields.
Qed.

Lemma finish_err e s s' : finish (s_error e) s = Value tt s' -> @err_ T s' = err_ s.
Proof. unfold finish. rewrite run_gets. destruct (out_ s); [|done]. rewrite run_modify. by intros [= <-]. Qed.

Lemma stopped_ok e s : active s -> balanced 0 s -> (in_flight_demand_ s = 0%nat -> drained s) ->
  let s1 := stopped e (targets s) s in
  exists s', (if bool_decide (inputs_ s1 = []) then finish (s_error e) else mret tt) s1 = Value tt s' /\ settled s' /\ err_ s' = Some e.
Proof.
  intros Ha Hb Hd s1. pose proof (stopped_active e (targets s) s Ha) as Ha1. fold s1 in Ha1.
  assert (Hdone : done s1 = bool_decide (inputs_ s1 = [])) by done.
  destruct (bool_decide (inputs_ s1 = [])) eqn:E.
  - destruct (finish_ok 0 s1 Ha1 Hb Hdone) as (s' & E' & Hg & _). exists s'. split_and!; [exact E'|by right|].
    exact (finish_err e s1 s' E').
  - exists s1. split_and!; [done|left; by split_and!|done].
Qed.

Lemma on_error_ok e s : settled s -> sub_ s = true -> exists s', on_error e s = Value tt s' /\ settled s'.
Proof.
  intros [(Ha & _ & Hb & Hd)|Hg] Hs; [|rewrite (g_sub _ Hg) in Hs; done].
  destruct (stopped_ok e s Ha Hb Hd) as (s' & E & Hset & _). exists s'. split; [|done].
  unfold on_error. rewrite !run_modify. unfold stop_inputs. rewrite run_modify, run_gets. cbn [out_ set_sub set_inputs set_err].
  rewrite (a_out _ Ha). exact E.
Qed.

Lemma on_complete_ok s : settled s -> sub_ s = true -> exists s', on_complete s = Value tt s' /\ settled s'.
Proof.
  intros [(Ha & Hdone & Hb & Hd)|Hg] Hs; [|rewrite (g_sub _ Hg) in Hs; done]. pose proof Ha as [].
  assert (He : err_ s = None) by (destruct (err_ s); [destruct a_inputs0; congruence|done]). rewrite He in a_inputs0.
  unfold on_complete. rewrite !run_modify, run_gets. set (s1 := note_done (set_sub false s)).
  assert (Ha1 : active s1).
  { split; try done. cbn. rewrite He. by destruct a_inputs0 as (H1 & H2 & _). }
  cbn [out_ s1 note_done set_sub inputs_ buffered_]. rewrite a_out0. cbn [andb].
  destruct (bool_decide (inputs_ s = [])) eqn:E; cbn [andb].
  - apply bool_decide_eq_true_1 in E. rewrite a_buffered0, E. cbn [total Nat.eqb].
    destruct (finish_ok 0 s1 Ha1 Hb) as (s' & E' & Hg & _); [unfold done; cbn; by rewrite E|].
    exists s'. split; [|by right]. revert E'. unfold last_signal. cbn [err_ s1 note_done set_sub]. by rewrite He.
  - exists s1. split; [done|]. left. by split_and!.
Qed.

Lemma get_app key (l : @input_map T) x : get key l = None -> forall k, get k (l ++ [(key, x)]) = if (k =? key)%nat then Some x else get k l.
Proof.
  induction l as [|[k' i] l IH]; intros Hg k; cbn [get app] in *; [by rewrite (Nat.eqb_sym key k)|].
  destruct (Nat.eqb_spec k' key) as [|Hne]; [done|]. rewrite (IH Hg). destruct (Nat.eqb_spec k' k) as [-> |]; [|done].
  by rewrite (proj2 (Nat.eqb_neq _ _) Hne).
Qed.

Lemma total_app (l : @input_map T) l' : total (l ++ l') = (total l + total l')%nat.
Proof. induction l as [|[k i] l IH]; [done|]. cbn [total app]. rewrite IH. lia. Qed.

Lemma on_input_ok s : settled s -> allowed ev_input s = true -> exists s', on_next s = Value tt s' /\ settled s'.
Proof.
  intros Hset Hal. unfold on_next. rewrite run_gets. destruct (sub_ s) eqn:Hs; cbn [negb]; [|by exists s].
  destruct Hset as [(Ha & _ & Hb & Hd)|Hg]; [|rewrite (g_sub _ Hg) in Hs; done]. pose proof Ha as [].
  assert (He : err_ s = None) by (destruct (err_ s); [destruct a_inputs0; congruence|done]). rewrite He, Hs in a_inputs0.
  destruct a_inputs0 as (H1 & H2 & H3). cbn [allowed] in Hal. rewrite Hs in Hal. cbn [negb orb] in Hal. apply Nat.ltb_lt in Hal.
  assert (Hfresh : next_key_ s ∉ keys (inputs_ s)).
  { intros Hin. apply list_elem_of_fmap in Hin as ([k i] & E & Hin). rewrite Forall_forall in a_bound0. specialize (a_bound0 _ Hin). cbn in *. lia. }
  assert (Hnone : get (next_key_ s) (inputs_ s) = None).
  { destruct (get _ _) eqn:E; [|done]. by apply get_keys in E. }
  rewrite !run_modify. eexists. split; [reflexivity|]. left. cbn. split_and!; [|by unfold done; cbn; rewrite Hs|done|done].
  split; cbn [out_ inputs_ next_key_ buffered_ passed taken trace err_ sub_ targets outer_asked outer_done set_targets set_inputs set_next_key note_asked]; try done.
  - unfold keys. rewrite map_app. apply NoDup_app. split_and!; [done| |apply NoDup_singleton]. cbn. intros k Hk Hin.
    apply list_elem_of_singleton in Hin as ->. done.
  - apply Forall_app. split; [|by repeat constructor]. eapply Forall_impl; [exact a_bound0|]. cbn. lia.
  - rewrite total_app. cbn. lia.
  - intros k. rewrite <- a_order0. f_equal. unfold buf_at. rewrite get_app by done.
    destruct (Nat.eqb_spec k (next_key_ s)) as [-> |]; [by rewrite Hnone|done].
  - rewrite He, Hs. split_and!.
    + apply Forall_app. split.
      * rewrite Forall_forall in *. intros [k i] Hin. specialize (H1 _ Hin). specialize (a_bound0 _ Hin). unfold fine in *. cbn in *.
        destruct (sub i); [destruct H1; split; [apply elem_of_app; by left|done]|].
        destruct H1 as [(? & ? & ?)|[Hn ?]]; [left; split_and!; [apply elem_of_app; by left|done|done]|right]. split; [|done].
        intros [?|E%list_elem_of_singleton]%elem_of_app; [done|lia].
      * apply Forall_cons_2; [|apply Forall_nil_2]. left. cbn. split_and!; [|done|done]. apply elem_of_app. right. by apply list_elem_of_singleton.
    + intros k Hk. unfold keys. rewrite map_app, elem_of_app. apply elem_of_app in Hk as [Hk|Hk]; [left; by apply H2|by right].
    + rewrite length_app. cbn. lia.
Qed.

Lemma length_put key x (l : @input_map T) : length (put key x l) = length l.
Proof. pose proof (f_equal length (keys_put key x l)) as H. unfold keys in H. by rewrite !length_map in H. Qed.

(** The state after an input has changed. *)
Definition replaced (key : nat) (j : merge_input) (tk : list (nat * T)) (b : nat) (s : state) : state :=
  St (err_ s) (sub_ s) (demand_ s) (out_ s) (put key j (inputs_ s)) (next_key_ s) (pos_ s) b (in_flight_demand_ s) (targets s)
    (trace s) tk (passed s) (requested s) (outer_asked s) (outer_done s).

Lemma replaced_active key i j us s :
  active s -> get key (inputs_ s) = Some i -> buf j = buf i ++ us ->
  (match err_ s with Some _ => sub j = false /\ buf j <> [] | None => fine (targets s) (key, j) end) ->
  active (replaced key j (taken s ++ map (pair key) us) (buffered_ s + length us) s).
Proof.
  intros Ha Hg Hj Hok. pose proof Ha as []. pose proof (total_put key j _ _ Hg) as Ht. rewrite Hj, length_app in Ht.
  split; cbn [out_ inputs_ next_key_ buffered_ passed taken trace err_ sub_ targets outer_asked outer_done replaced]; try done.
  - by rewrite keys_put.
  - apply Forall_put; [done|]. exact (Forall_get _ _ _ _ a_bound0 Hg).
  - lia.
  - intros k. rewrite buf_at_put by (by eexists). unfold proj. rewrite omap_app. fold (proj k (taken s)). rewrite <- a_order0.
    assert (E : omap (fun p => if (p.1 =? k)%nat then Some p.2 else None) (map (pair key) us) = if (k =? key)%nat then us else []).
    { rewrite (Nat.eqb_sym k key). clear. induction us as [|u us IH]; [by destruct (key =? k)%nat|]. cbn. rewrite IH. by destruct (key =? k)%nat. }
    rewrite E, <- app_assoc. f_equal. destruct (Nat.eqb_spec k key) as [Ek|]; [|by rewrite app_nil_r]. rewrite Ek. unfold buf_at. by rewrite Hg, Hj.
  - destruct (err_ s); [destruct a_inputs0 as [H1 H2]; split; [done|by apply Forall_put]|].
    destruct a_inputs0 as (H1 & H2 & H3). rewrite keys_put, length_put. split_and!; [by apply Forall_put|done|done].
Qed.

Lemma forward_run key m s : forward key m s = if bool_decide (key ∈ targets s) then m s else Value tt (s : state).
Proof. unfold forward. rewrite run_gets. by case_bool_decide. Qed.

Lemma in_subscribe_ok key s : settled s -> allowed (ev_in_subscribe key) s = true -> key ∈ targets s ->
  exists s', fwd_on_subscribe mp key s = Value tt s' /\ settled s'.
Proof.
  intros Hset Hal Hts. unfold fwd_on_subscribe. rewrite run_gets. cbn [allowed] in Hal.
  destruct (get key (inputs_ s)) as [i|] eqn:Hg; [|by exists s]. apply andb_prop in Hal as [Hi%negb_true_iff Hb%bool_decide_eq_true_1].
  rewrite Hi. destruct Hset as [(Ha & Hdone & Hbal & Hd)|Hgo]; [|rewrite (g_inputs _ Hgo) in Hg; done]. pose proof Ha as [].
  destruct (err_ s) as [e|] eqn:He.
  { destruct a_inputs0 as [_ H]. destruct (Forall_get _ _ _ _ H Hg) as [_ H']. by cbn in H'. }
  destruct a_inputs0 as (H1 & _). pose proof (Forall_get _ _ _ _ H1 Hg) as Hf. unfold fine in Hf. cbn in Hf. rewrite Hi in Hf.
  destruct Hf as [(_ & _ & Hz)|[H _]]; [|done]. rewrite run_modify.
  erewrite request_input_run by (cbn [inputs_ set_inputs]; apply get_put_same; by eexists). cbn [inputs_ set_inputs sub buf asked].
  rewrite put_put. eexists. split; [reflexivity|]. left.
  pose proof (replaced_active key i (Input true (buf i) (asked i + mp)) [] s Ha Hg) as Hr. cbn [map length] in Hr.
  rewrite !app_nil_r, Nat.add_0_r in Hr. split_and!; [apply Hr; [done|]| |done|done].
  - rewrite He. split; [done|]. cbn. rewrite Hb, Hz. cbn. lia.
  - unfold done in *. cbn in *. apply andb_false_iff in Hdone as [->|Hn]; [done|]. apply andb_false_iff. right.
    apply bool_decide_eq_false in Hn. apply bool_decide_eq_false. intros E. apply Hn.
    apply (f_equal length) in E. rewrite length_put in E. by destruct (inputs_ s).
Qed.

Lemma polite_same rs s : Forall polite_reaction rs ->
  for_each (fun r => match r with r_request n => observer_request n | r_cancel => do_dispose false | r_push k y => stuck end) rs s
    = for_each (perform react 0) rs s.
Proof.
  intros Hp. revert s. induction Hp as [|[n| |k x] rs Hr _ IH]; intros s; [done|..|done]; cbn [for_each perform];
    unfold mbind, comp_bind; [destruct (observer_request n s)|destruct (do_dispose false s)]; try done; apply IH.
Qed.

Lemma done_put key (j : merge_input) (s : state) i s' :
  get key (inputs_ s) = Some i -> inputs_ s' = put key j (inputs_ s) -> @done T s' = false.
Proof.
  intros Hg E. unfold done. apply andb_false_iff. right. apply bool_decide_eq_false. rewrite E. intros E'.
  apply (f_equal length) in E'. rewrite length_put in E'. by destruct (inputs_ s).
Qed.

(** An input that may still send items. *)
Lemma sending_input key i s : active s -> get key (inputs_ s) = Some i -> key ∈ targets s -> (0 < asked i)%nat ->
  match err_ s with Some _ => sub i = false /\ buf i <> [] | None => sub i = true /\ (asked i + length (buf i) = mp)%nat end.
Proof.
  intros [] Hg Hts Hal. destruct (err_ s); [destruct a_inputs0 as [_ H]; exact (Forall_get _ _ _ _ H Hg)|].
  destruct a_inputs0 as [H _]. pose proof (Forall_get _ _ _ _ H Hg) as Hf. unfold fine in Hf. cbn in Hf.
  destruct (sub i); [by split; [|apply Hf]|]. by destruct Hf as [(_ & _ & ?)|[? _]]; [lia|].
Qed.

Lemma buffered_settled key i x s :
  active s -> balanced 0 s -> get key (inputs_ s) = Some i -> key ∈ targets s -> (0 < asked i)%nat ->
  (in_flight_demand_ s = 0 -> demand_ s = 0)%nat ->
  settled (replaced key (Input (sub i) (buf i ++ [x]) (asked i - 1)) (taken s ++ [(key, x)]) (S (buffered_ s)) s).
Proof.
  intros Ha Hb Hg Hts Hal Hd. pose proof (sending_input key i s Ha Hg Hts Hal) as Hi. left.
  pose proof (replaced_active key i (Input (sub i) (buf i ++ [x]) (asked i - 1)) [x] s Ha Hg eq_refl) as Hr. cbn [map length] in Hr.
  rewrite Nat.add_1_r in Hr. split_and!; [apply Hr|by eapply (done_put key _ s)|done|intros H0; left; by apply Hd].
  destruct (err_ s); [by destruct Hi; split; [|cbn; destruct (buf i)]|]. destruct Hi as [Hs Hk]. unfold fine. cbn. rewrite Hs, length_app. cbn. split; [done|lia].
Qed.

(** The state in which the observer gets an item that need not wait. *)
Definition passing (key : nat) (x : T) (j : merge_input) (s : state) : state :=
  send (s_next x) (note_passed (key, x) (set_inputs (put key j (inputs_ s)) (set_demand (demand_ s - 1) (note_taken (key, x) s)))).

Lemma passing_active key i x s :
  active s -> get key (inputs_ s) = Some i -> err_ s = None -> fine (targets s) (key, i) -> sub i = true -> buf i = [] -> (0 < asked i)%nat ->
  active (passing key x (Input true (buf i) (asked i - 1 + 1)) s).
Proof.
  intros Ha Hg He Hf Hs Hbi Hal. pose proof (replaced_active key i (Input true (buf i) (asked i - 1 + 1)) [] s Ha Hg) as Hr.
  cbn [map length] in Hr. rewrite !app_nil_r, Nat.add_0_r, He in Hr. unfold fine in Hf. cbn in Hf. rewrite Hs in Hf. destruct Hf.
  destruct (Hr eq_refl ltac:(split; [done|cbn; lia])). pose proof (a_trace _ Ha).
  split; try done; cbn [trace passed taken send note_passed set_inputs set_demand note_taken inputs_ passing].
  - intros k. rewrite !proj_snoc. cbn [passed taken inputs_ replaced] in *. rewrite <- a_order0, <- !app_assoc. f_equal.
    rewrite buf_at_put by (by eexists). cbn [buf]. rewrite Hbi, (Nat.eqb_sym k key). destruct (Nat.eqb_spec key k) as [Ek|]; [done|].
    by rewrite app_nil_r.
  - by apply trace_passed.
Qed.

Lemma in_next_ok key x s : settled s -> allowed (ev_in_next key x) s = true -> key ∈ targets s ->
  exists s', fwd_on_next react 0 key x s = Value tt s' /\ settled s'.
Proof.
  intros Hset Hal Hts. cbn [fwd_on_next allowed] in *. rewrite run_gets.
  destruct (get key (inputs_ s)) as [i|] eqn:Hg; [|by exists s]. apply Nat.ltb_lt in Hal.
  destruct Hset as [(Ha & _ & Hbal & Hd)|Hgo]; [|rewrite (g_inputs _ Hgo) in Hg; done].
  rewrite run_modify. destruct (Nat.eqb_spec (in_flight_demand_ s) 0) as [Hf0|Hf0]; cbn [andb];
    [destruct (Nat.ltb_spec 0 (demand_ s)) as [Hd0|Hd0]|].
  2: { rewrite run_modify. eexists. split; [reflexivity|]. by apply (buffered_settled key i x s); [..|lia]. }
  2: { rewrite run_modify. eexists. split; [reflexivity|]. by apply (buffered_settled key i x s). }
  pose proof (sending_input key i s Ha Hg Hts Hal) as Hi. pose proof Ha as [].
  destruct (Hd Hf0) as [?|Hz]; [lia|]. pose proof (total_get _ _ _ Hg) as Ht. assert (Hbi : buf i = []) by (destruct (buf i); [done|cbn in Ht; lia]).
  destruct (err_ s) eqn:He; [by destruct Hi|]. destruct Hi as [Hs Hk]. rewrite a_out0. cbn [negb]. rewrite !run_modify, Hs.
  erewrite run_value; [|apply request_input_run; cbn [inputs_ set_inputs]; apply get_put_same; by eexists].
  cbn [sub buf asked inputs_ set_inputs]. rewrite put_put, !run_modify, run_gets, polite_same by done.
  pose proof (passing_active key i x s Ha Hg He (Forall_get _ _ _ _ (proj1 a_inputs0) Hg) Hs Hbi Hal) as Ha1.
  set (s1 := passing _ _ _ _) in Ha1.
  assert (Hb1 : balanced 0 s1) by (destruct Hbal; unfold balanced; cbn; rewrite length_app; cbn; lia).
  destruct (reactions_ok 0 (react (trace s1)) 0 s1 (Hpolite _) Ha1 Hb1) as (s2 & E2 & [[Ha2 (d & f & r & -> & Hb2 & _)]|[Hg2 _]]).
  - eexists. split; [exact E2|]. left. split_and!; [done|by eapply (done_put key _ s)|done|]. intros _. right. exact Hz.
  - eexists. split; [exact E2|by right].
Qed.

(** *** The last signal of an input *)

Definition without (key : nat) (ts : list nat) : list nat := filter (fun k => k <> key) ts.

Lemma fine_without key ts k i : k <> key -> fine ts (k, i) -> fine (without key ts) (k, i).
Proof.
  intros Hne. unfold fine, without. cbn. assert (E : k ∈ filter (fun k => k <> key) ts <-> k ∈ ts) by (rewrite list_elem_of_filter; naive_solver).
  destruct (sub i); [intros [? ?]; split; [by apply E|done]|]. intros [(? & ? & ?)|[Hn ?]]; [left; split_and!; [by apply E|done|done]|right].
  split; [|done]. intros Hin. by apply Hn, E.
Qed.

Lemma put_elem key j k i (l : @input_map T) : NoDup (keys l) -> (k, i) ∈ put key j l -> k = key /\ i = j \/ k <> key /\ (k, i) ∈ l.
Proof.
  intros Hn Hin. apply elem_get in Hin; [|by rewrite keys_put]. rewrite get_put in Hin.
  destruct (Nat.eqb_spec k key) as [-> |Hne]; cbn [andb] in Hin; [|right; split; [done|by apply get_elem]].
  case_bool_decide as Hs; [injection Hin as <-; by left|]. exfalso. apply Hs. by eexists.
Qed.

Lemma erase_elem key k i (l : @input_map T) : NoDup (keys l) -> (k, i) ∈ erase key l -> k <> key /\ (k, i) ∈ l.
Proof.
  intros Hn Hin. apply elem_get in Hin; [|by apply NoDup_erase]. rewrite get_erase in Hin by done.
  destruct (Nat.eqb_spec k key); [done|]. split; [done|by apply get_elem].
Qed.

(** The state after an input has completed. *)
Definition closing (key : nat) (l : input_map) (o : nat) (s : state) : state :=
  St (err_ s) (sub_ s) (demand_ s) (out_ s) l (next_key_ s) (pos_ s) (buffered_ s) (in_flight_demand_ s) (without key (targets s))
    (trace s) (taken s) (passed s) (requested s) o (outer_done s).

Lemma closing_put key i s : active s -> get key (inputs_ s) = Some i -> buf i <> [] ->
  active (closing key (put key (Input false (buf i) (asked i)) (inputs_ s)) (outer_asked s) s).
Proof.
  intros Ha Hg Hb. pose proof Ha as []. pose proof (total_put key (Input false (buf i) (asked i)) _ _ Hg) as Ht. cbn [buf] in Ht.
  split; cbn [out_ inputs_ next_key_ buffered_ passed taken trace err_ sub_ targets outer_asked outer_done closing]; try done.
  - by rewrite keys_put.
  - apply Forall_put; [done|]. exact (Forall_get _ _ _ _ a_bound0 Hg).
  - lia.
  - intros k. rewrite buf_at_put, <- a_order0 by (by eexists). f_equal. destruct (Nat.eqb_spec k key) as [Ek|]; [|done]. rewrite Ek. unfold buf_at. by rewrite Hg.
  - destruct (err_ s); [destruct a_inputs0 as [H1 H2]; split; [done|by apply Forall_put]|].
    destruct a_inputs0 as (H1 & H2 & H3). rewrite keys_put, length_put. split_and!; [| |done].
    + apply Forall_forall. intros [k j] [[-> ->]|[Hne Hin]]%put_elem; [|rewrite Forall_forall in H1; by apply fine_without, H1|done].
      right. split; [|done]. cbn. by intros [? _]%list_elem_of_filter.
    + intros k [_ Hk]%list_elem_of_filter. by apply H2.
Qed.

Lemma closing_erase key i s : active s -> get key (inputs_ s) = Some i -> err_ s = None -> buf i = [] ->
  active (closing key (erase key (inputs_ s)) (if sub_ s then outer_asked s + 1 else outer_asked s) s).
Proof.
  intros Ha Hg He Hb. pose proof Ha as []. pose proof (total_erase key _ _ Hg) as Ht. pose proof (length_erase key _ _ Hg) as Hl.
  rewrite Hb in Ht. cbn [length] in Ht.
  split; cbn [out_ inputs_ next_key_ buffered_ passed taken trace err_ sub_ targets outer_asked outer_done closing]; try done.
  - by apply NoDup_erase.
  - by apply Forall_erase.
  - lia.
  - intros k. rewrite buf_at_erase, <- a_order0 by done. f_equal. destruct (Nat.eqb_spec k key) as [Ek|]; [|done]. rewrite Ek. unfold buf_at. by rewrite Hg.
  - rewrite He in *. destruct a_inputs0 as (H1 & H2 & H3). split_and!.
    + apply Forall_forall. intros [k j] [Hne Hin]%erase_elem; [|done]. rewrite Forall_forall in H1. by apply fine_without, H1.
    + intros k [Hne Hk]%list_elem_of_filter. apply keys_erase; [done|]. split; [by apply H2|done].
    + destruct (sub_ s); [lia|done].
Qed.

Lemma targets_settled ts s : settled s -> (err_ s = None -> out_ s = false) -> settled (set_targets ts s).
Proof.
  intros Hset He. destruct (err_ s) as [e|] eqn:E; [apply settled_targets; [done|by rewrite E]|].
  destruct Hset as [(Ha & _)|Hg]; [pose proof (a_out _ Ha); rewrite He in *; done|]. right. by eapply gone_fields.
Qed.

Lemma in_complete_ok key s : settled s -> key ∈ targets s ->
  exists s', (fwd_on_complete key;; modify (fun s => set_targets (without key (targets s)) s)) s = Value tt s' /\ settled s'.
Proof.
  intros Hset Hts. unfold fwd_on_complete, mbind at 1, comp_bind at 1. rewrite run_gets. destruct (get key (inputs_ s)) as [i|] eqn:Hg.
  2: { eexists. split; [reflexivity|]. apply targets_settled; [done|]. intros He. destruct Hset as [(Ha & _)|Hgo]; [|apply Hgo].
       pose proof (a_inputs _ Ha) as H. rewrite He in H. destruct H as (_ & H & _). destruct (keys_get _ _ (H _ Hts)). congruence. }
  destruct Hset as [(Ha & _ & Hb & Hd)|Hgo]; [|rewrite (g_inputs _ Hgo) in Hg; done]. case_bool_decide as Hbi; cbn [negb].
  2: { eexists. split; [reflexivity|]. left. split_and!; [by apply (closing_put key i s)|by eapply (done_put key _ s)|done|done]. }
  assert (He : err_ s = None).
  { pose proof (a_inputs _ Ha) as H. destruct (err_ s); [|done]. destruct H as [_ H]. by destruct (Forall_get _ _ _ _ H Hg). }
  pose proof (closing_erase key i s Ha Hg He Hbi) as Hc. rewrite run_modify. destruct (sub_ s) eqn:Hs.
  - eexists. split; [reflexivity|]. left. split_and!; [exact Hc|unfold done; cbn; by rewrite Hs|done|done].
  - case_bool_decide as Hn.
    + destruct (finish_ok 0 _ Hc Hb) as (s' & E & Hgo & _); [unfold done; cbn; by rewrite Hs, Hn|].
      unfold finish in *. rewrite run_gets in *. cbn [out_ set_inputs closing] in *. rewrite (a_out _ Ha) in *. rewrite run_modify in *.
      unfold last_signal in E. cbn [err_ closing] in E. rewrite He in E. injection E as <-.
      eexists. split; [reflexivity|]. right. exact Hgo.
    + eexists. split; [reflexivity|]. left. split_and!; [exact Hc| |done|done]. unfold done. cbn. by rewrite bool_decide_eq_false_2, andb_false_r.
Qed.

Lemma in_error_ok key e s : settled s -> key ∈ targets s ->
  exists s', (fwd_on_error key e;; modify (fun s => set_targets (without key (targets s)) s)) s = Value tt s' /\ settled s'.
Proof.
  intros Hset Hts. unfold fwd_on_error, mbind at 1, comp_bind at 1. rewrite run_gets. destruct (err_ s) as [e'|] eqn:He.
  { eexists. split; [reflexivity|]. apply targets_settled; [done|by rewrite He]. }
  destruct (get key (inputs_ s)) as [i|] eqn:Hg.
  2: { eexists. split; [reflexivity|]. apply targets_settled; [done|]. intros _. destruct Hset as [(Ha & _)|Hgo]; [|apply Hgo].
       pose proof (a_inputs _ Ha) as H. rewrite He in H. destruct H as (_ & H & _). destruct (keys_get _ _ (H _ Hts)). congruence. }
  destruct Hset as [(Ha & _ & Hb & Hd)|Hgo]; [|rewrite (g_inputs _ Hgo) in Hg; done].
  destruct (stopped_ok e s Ha Hb Hd) as (s' & E & Hset & He'). unfold stop_inputs. rewrite !run_modify, run_gets.
  match goal with |- context [match ?o with Value _ _ => _ | _ => _ end] => assert (o = Value tt s') as -> by exact E end.
  eexists. split; [reflexivity|]. apply targets_settled; [done|congruence].
Qed.

Lemma merge_handle_ok e s : settled s -> allowed e s = true -> exists s', handle e s = Value tt s' /\ settled s'.
Proof.
  intros Hset Hal. destruct e as [n|b| | | |e|k|k x|k|k e]; cbn [handle]; rewrite ?forward_run; unfold forward_last; rewrite ?forward_run;
    try (case_bool_decide as Hts; [|by exists s]).
  - destruct Hset as [(Ha & Hdone & Hb & Hd)|Hg].
    2: { exists s. split; [|by right]. unfold request. by rewrite run_gets, (g_out _ Hg). }
    cbn [allowed] in Hal. apply andb_prop in Hal as [Hal%Nat.ltb_lt Hlt%Z.ltb_lt].
    destruct (merge_request_ok n 0 s (a_out _ Ha) Hal Hlt Hb) as (s' & E & d & f & r & -> & Hb' & H1 & H2 & H3 & H4).
    eexists. split; [exact E|]. left. split_and!; [by apply active_upd|done|done|]. cbn. intros ->.
    destruct (buffered_ s) eqn:Ebuf; [by right|]. left. cbn. rewrite H4 by lia. destruct (Hd ltac:(lia)) as [?|?]; [done|lia].
  - destruct Hset as [(Ha & _ & Hb & _)|Hg].
    + destruct (merge_dispose_ok b 0 s Ha Hb) as (s' & E & Hg & _). exists s'. split; [exact E|by right].
    + exists s. split; [|by right]. unfold do_dispose. by rewrite run_gets, (g_out _ Hg).
  - rewrite run_gets. destruct Hset as [(Ha & Hdone & Hb & _)|Hg]; [by apply pull_cb_ok|].
    destruct (pull_cb_gone (buffered_ s + 2) (buffered_ s) 0 s Hg) as (s' & E & Hg'); [lia|]. exists s'. split; [exact E|by right].
  - by apply on_input_ok.
  - by apply on_complete_ok.
  - by apply on_error_ok.
  - by apply in_subscribe_ok.
  - by apply in_next_ok.
  - by apply in_complete_ok.
  - by apply in_error_ok.
Qed.

Definition merge_step (s s' : state) : Prop := exists e, allowed e s = true /\ handle e s = Value tt s'.

Definition started : outcome state unit := on_subscribe mc make.

Lemma started_ok s : started = Value tt s -> settled s.
Proof.
  unfold started, on_subscribe. rewrite run_gets. cbn. intros [= <-]. left. split_and!; [|done|done|by left].
  split; cbn; try done. apply NoDup_nil_2.
Qed.

Lemma reachable_settled s0 s : started = Value tt s0 -> rtc merge_step s0 s -> settled s.
Proof.
  intros H0 H. apply started_ok in H0. induction H as [|s1 s2 s3 (e & Hal & E) _ IH]; [done|]. apply IH.
  destruct (merge_handle_ok e s1 H0 Hal) as (s' & E' & Hok). congruence.
Qed.

(** The items of all inputs were passed on if no buffer holds one. *)
Lemma drained_all s : active s -> buffered_ s = 0%nat -> forall k, proj k (passed s) = proj k (taken s).
Proof.
  intros [] Hz k. rewrite <- a_order0. unfold buf_at. destruct (get k (inputs_ s)) as [i|] eqn:E; [|by rewrite app_nil_r].
  pose proof (total_get _ _ _ E). destruct (buf i); [by rewrite app_nil_r|cbn in *; lia].
Qed.

End Correctness.

(** C21. Merged observables interleave the items of their inputs, for observers
    that request items and cancel from within [on_next], but do not make an input
    emit an item there, and whose requests sum up to less than 2^64.  However
    the signals of the source and the inputs interleave, as long as they send no
    more items than they were asked for, and whenever the observer cancels or is
    disposed of: no event leads to undefined behaviour; the items of each input
    arrive in their order, none lost or duplicated, and never more than requested;
    whenever nothing is scheduled, everything requested or everything taken from
    the inputs was delivered; the last signal comes as soon as the source and all
    inputs have ended, after all items, and is an error exactly if there was
    one; and the operator keeps as many inputs and items on their way as
    configured, never more. *)
Theorem merge_delivers {T} (mc mp : nat) (react : list (signal T) -> list reaction) s0 s :
  (forall tr, Forall polite_reaction (react tr)) ->
  started mc = Value tt s0 -> rtc (merge_step mp react) s0 s ->
  (exists tail, trace s = map s_next (map snd (passed s)) ++ tail /\
    (tail = [] \/ tail = [s_error sec_disposed] \/
     (forall k, proj k (passed s) = proj k (taken s)) /\
     match err_ s with Some e => tail = [s_error e] | None => tail = [s_complete] /\ outer_done s = true end)) /\
  (forall k, proj k (passed s) `prefix_of` proj k (taken s)) /\
  (length (passed s) <= requested s)%nat /\
  (out_ s = true -> in_flight_demand_ s = 0%nat ->
    length (passed s) = requested s \/ forall k, proj k (passed s) = proj k (taken s)) /\
  (out_ s = true -> sub_ s = true \/ inputs_ s <> []) /\
  (out_ s = true -> sub_ s = true -> (outer_asked s + length (inputs_ s) = mc)%nat) /\
  (out_ s = true -> sub_ s = true -> Forall (fun kvp => sub kvp.2 = true -> (asked kvp.2 + length (buf kvp.2) = mp)%nat) (inputs_ s)) /\
  (forall e, allowed e s = true -> exists s', handle mp react e s = Value tt s').
Proof.
  intros Hp H0 H. pose proof (reachable_settled mc mp react Hp s0 s H0 H) as Hs.
  assert (forall e, allowed e s = true -> exists s', handle mp react e s = Value tt s') as Htot.
  { intros e Hal. destruct (merge_handle_ok mc mp react Hp e s Hs Hal) as (s' & E & _). by exists s'. }
  destruct Hs as [(Ha & Hdone & [Hb Hv] & Hd)|Hg].
  - pose proof Ha as [].
    assert (Hi : sub_ s = true -> Forall (fine mp (targets s)) (inputs_ s) /\ (outer_asked s + length (inputs_ s) = mc)%nat).
    { intros Hs. rewrite Hs in a_inputs0. destruct (err_ s); [by destruct a_inputs0|]. by destruct a_inputs0 as (? & _ & ?). }
    split_and!; try done.
    + exists []. rewrite app_nil_r. split; [done|by left].
    + intros k. rewrite <- a_order0. by eexists.
    + lia.
    + intros _ Hf. destruct (Hd Hf) as [Hz|Hz]; [left; lia|right]. by apply (drained_all mc mp).
    + intros _. unfold done in Hdone. apply andb_false_iff in Hdone as [Hn|Hn]; [left; by apply negb_false_iff|right; by apply bool_decide_eq_false in Hn].
    + intros _ Hs. by apply Hi.
    + intros _ Hs. eapply Forall_impl; [apply (Hi Hs)|]. intros kvp Hf Hsub. unfold fine in Hf. rewrite Hsub in Hf. apply Hf.
  - pose proof Hg as []. split_and!; try done; congruence.
Qed.

(** Two inputs; the observer requests two items and another one for each it gets. *)
Definition demo_react (tr : list (signal Z)) : list (@reaction Z) := [r_request 1].

Definition demo_state (o : outcome (@state Z) unit) : @state Z := match o with Value _ s | Raised _ s => s | Stuck => make end.

Definition demo_start : @state Z := demo_state (started 8).

Definition demo_run (es : list (@event Z)) : @state Z := demo_state (for_each (handle 8 demo_react) es demo_start).

Definition demo_events : list (@event Z) :=
  [ev_input; ev_input; ev_in_subscribe 1; ev_in_subscribe 2; ev_in_next 1 10; ev_in_next 2 20; ev_in_next 1 11; ev_complete;
   ev_request 2; ev_pull; ev_in_complete 1; ev_in_complete 2].

Fixpoint run_ok (es : list (@event Z)) (s : @state Z) : bool :=
  match es with
  | [] => true
  | e :: r => allowed e s && match handle 8 demo_react e s with Value _ s' => run_ok r s' | _ => false end
  end.

Lemma run_ok_steps es s : run_ok es s = true ->
  rtc (merge_step 8 demo_react) s (demo_state (for_each (handle 8 demo_react) es s)).
Proof.
  revert s. induction es as [|e es IH]; intros s; cbn [run_ok for_each]; [intros _; apply rtc_refl|].
  intros [Hal H]%andb_prop. unfold mbind, comp_bind. destruct (handle 8 demo_react e s) as [[] s'| |] eqn:E; try done.
  eapply rtc_l; [by exists e|]. by apply IH.
Qed.

Lemma merge_delivers_witness :
  rtc (merge_step 8 demo_react) demo_start (demo_run demo_events) /\
  trace (demo_run demo_events) = [s_next 10; s_next 11; s_next 20; s_complete] /\
  (length (passed (demo_run demo_events)) <= requested (demo_run demo_events))%nat.
Proof.
  assert (H : rtc (merge_step 8 demo_react) demo_start (demo_run demo_events)) by (apply run_ok_steps; vm_compute; reflexivity).
  split; [exact H|]. split; [vm_compute; reflexivity|].
  assert (Hp : forall tr, Forall polite_reaction (demo_react tr)) by (intros tr; apply Forall_cons_2; [cbn; lia|apply Forall_nil_2]).
  assert (H0 : started 8 = Value tt demo_start) by (vm_compute; reflexivity).
  apply (merge_delivers 8 8 demo_react demo_start _ Hp H0 H).
Defined.

(** ** Behaviour that the code does not intend *)

(** If the observer makes another input emit an item when it gets the last one that
    was buffered, then the loop of [do_pull] takes an item from an empty buffer:
    it does not select an input again. *)
Lemma pull_from_empty_buffer :
  let s := demo_run [ev_input; ev_input; ev_in_subscribe 1; ev_in_subscribe 2; ev_in_next 1 10; ev_request 2] in
  rtc (merge_step 8 demo_react) demo_start s /\
  forall rounds fuel nesting, pull_cb (fun tr => if (length tr =? 1)%nat then [r_push 2 20] else []) (S rounds) (S (S fuel)) nesting s = Stuck.
Proof.
  split; [apply run_ok_steps; vm_compute; reflexivity|]. intros rounds fuel nesting. destruct nesting; reflexivity.
Qed.

End FlowMerge.
