(* ===== verification/FsmExit.v ===== *)
(** Terminal states with an exit statement ([CAF_TERM_STATE_IMPL2] of
    [detail/parser/fsm.hpp]), on top of the machines of [Fsm].

    The generated code runs the statement of the state it leaves with
    [pec::success] or [pec::trailing_character].  [tracked] is a machine that
    keeps its state among its locals, so that [run_fsm_exit] knows which
    statement to run.  A statement that returns a [pec] decides the code at the
    end of the input; after a trailing character its result is ignored. *)
From S2P Require Import Prelude.
From S2P Require Import Fsm.
#[local] Open Scope Z_scope.

Import Fsm.

Module FsmExit.

Section Exit.
  Context {S L : Type}.

Definition track_move (s : S) (mv : move S L) : move S (S * L) :=
  match mv with
  | Take s' l => Take s' (s', l)
  | Mark s' act => Mark s' (fun i => (s', act i))
  | Eps s' l => Eps s' (s', l)
  | Sub f s' =>
      Sub (fun sl ps =>
             match f sl.2 ps with
             | Some (ps', l') => Some (ps', (if accepted (code ps') then s' else s, l'))
             | None => None
             end) s'
  | Stop c l => Stop c (s, l)
  | Stay => Stay
  end.

Definition tracked (m : fsm S L) : fsm S (S * L) :=
  Fsm (kind m) (fun s ch sl => track_move s (body m s ch sl.2)).

(** What the exit statement of state [s] makes of the code and the locals. *)
Definition leave (exit : S -> L -> pec * L) (c : pec) (s : S) (l : L) : pec * L :=
  if accepted c then
    let '(e, l') := exit s l in
    (if bool_decide (c = success) && negb (accepted e) then e else c, l')
  else (c, l).

Definition run_fsm_exit (m : fsm S L) (exit : S -> L -> pec * L) (s : S) (l : L)
    (ps : parser_state) : option (parser_state * L) :=
  match run_fsm (tracked m) s (s, l) ps with
  | Some (ps', (s', l')) => let '(c, l2) := leave exit (code ps') s' l' in Some (set_code ps' c, l2)
  | None => None
  end.

(** ** The tracked machine follows the machine *)

Definition track_outcome (s : S) (o : outcome S L) : outcome S (S * L) :=
  match o with
  | Go s' l ps => Go s' (s', l) ps
  | Done l ps => Done (s, l) ps
  | Crash => Crash
  end.

Lemma tracked_step (m : fsm S L) s l ps :
  step (tracked m) s (s, l) ps = track_outcome s (step m s l ps).
Proof.
  assert (He : enter (tracked m) s (s, l) ps = track_outcome s (enter m s l ps)).
  { unfold enter, tracked. cbn [body snd].
    destruct (body m s (current ps) l) as [| | |f ?| |]; cbn [track_move]; try (by destruct (next ps) as [[]|]); try done.
    - cbn [snd]. destruct (f l ps) as [[ps' l']|]; [|done]. by destruct (accepted (code ps')).
    - unfold fall_through. cbn [kind]. by destruct (kind m s). }
  unfold step. rewrite He. cbn [kind tracked]. destruct (current ps =? 0); [|done]. by destruct (kind m s).
Qed.

(** How a run of a well-behaved machine ends: in a state that the invariant
    knows, which is terminal if the machine accepts. *)
Lemma run_tracked (m : fsm S L) inv rank `{!FsmRuns m inv rank} n s l ps ps' l' :
  inv s l (rest ps) -> run m n s l ps = Some (ps', l') ->
  exists s', run (tracked m) n s (s, l) ps = Some (ps', (s', l'))
    /\ (accepted (code ps') = true -> kind m s' = term /\ inv s' l' (rest ps')
        /\ (code ps' = success -> current ps' = 0)).
Proof.
  revert s l ps. induction n as [|n IH]; intros s l ps Hi; [done|]. cbn [run]. rewrite tracked_step.
  pose proof (step_ok m inv rank s l ps Hi) as Hok.
  destruct (step m s l ps) as [s2 l2 ps2|l2 ps2|] eqn:Hs; cbn [track_outcome]; [| |done].
  { intros Hr. destruct Hok as (Hi2 & _). by apply IH. }
  intros [= -> ->]. exists s. split; [done|]. intros Ha.
  unfold step, enter in Hs. destruct (Z.eqb_spec (current ps) 0) as [E|E].
  - destruct (kind m s) eqn:Hk; [by injection Hs as <- <-|by injection Hs as <- <-|].
    destruct (body m s (current ps) l) as [| | |f ?|c ?|] eqn:Hb.
    1,2: by destruct (next ps) as [[]|]. 1: done.
    + destruct (f l ps) as [[p2 l3]|]; [|done].
      destruct (accepted (code p2)) eqn:Ha2; [done|]. injection Hs as -> ->. congruence.
    + injection Hs as -> <-. eapply stop_ok_at in Hb as [Hb _]; [|done]. cbn in Ha. congruence.
    + unfold fall_through in Hs. by rewrite Hk in Hs.
  - destruct (body m s (current ps) l) as [| | |f ?|c ?|] eqn:Hb.
    1,2: by destruct (next ps) as [[]|]. 1: done.
    + destruct (f l ps) as [[p2 l3]|]; [|done].
      destruct (accepted (code p2)) eqn:Ha2; [done|]. injection Hs as -> ->. congruence.
    + injection Hs as -> <-. eapply stop_ok_at in Hb as [Hb _]; [|done]. cbn in Ha. congruence.
    + unfold fall_through, mismatch in Hs.
      destruct (kind m s) eqn:Hk; [|by injection Hs as <- <-|done]. injection Hs as <- <-. cbn in Ha.
      by destruct (current ps =? 10).
Qed.

(** A machine with exit statements stops on every input; if the code it left its
    last state with is accepted, that state was terminal. *)
Lemma run_fsm_exit_total (m : fsm S L) exit inv rank `{!FsmRuns m inv rank} s l ps :
  inv s l (rest ps) ->
  exists ps' c s' l1 l', run_fsm_exit m exit s l ps = Some (ps', l') /\ suffix (rest ps') (rest ps)
    /\ leave exit c s' l1 = (code ps', l') /\ (exists s1, inv s1 l1 (rest ps'))
    /\ (accepted c = true -> kind m s' = term /\ inv s' l1 (rest ps')
        /\ (c = success -> current ps' = 0)).
Proof.
  intros Hi. destruct (run_fsm_total_at m inv rank s l ps Hi) as (ps1 & l1 & Hr & Hs & s1 & Hs1 & _).
  destruct (run_tracked m inv rank _ s l ps ps1 l1 Hi Hr) as (s' & Ht & Hf).
  unfold run_fsm_exit, run_fsm. rewrite Ht. destruct (leave exit (code ps1) s' l1) as [c l'] eqn:Hl.
  exists (set_code ps1 c), (code ps1), s', l1, l'. by split_and!; [..|exists s1|].
Qed.

(** ** Runs, step by step *)

Definition ends_exit (m : fsm S L) (exit : S -> L -> pec * L) (s : S) (l : L) (t : list Z)
    (c : pec) (l' : L) (r : list Z) : Prop :=
  exists c1 s1 l1, ends (tracked m) s (s, l) t c1 (s1, l1) r /\ leave exit c1 s1 l1 = (c, l').

Context (m : fsm S L) (exit : S -> L -> pec * L).

Lemma exit_take s l x t s' l1 c l' r :
  x <> 0 -> body m s x l = Take s' l1 -> ends_exit m exit s' l1 t c l' r ->
  ends_exit m exit s l (x :: t) c l' r.
Proof.
  intros Hx Hb (c1 & s1 & l2 & He & Hl). exists c1, s1, l2. split; [|done].
  eapply ends_take; [done| |exact He]. cbn. by rewrite Hb.
Qed.

Lemma exit_eps s l x t s' l1 c l' r :
  x <> 0 -> body m s x l = Eps s' l1 -> ends_exit m exit s' l1 (x :: t) c l' r ->
  ends_exit m exit s l (x :: t) c l' r.
Proof.
  intros Hx Hb (c1 & s1 & l2 & He & Hl). exists c1, s1, l2. split; [|done].
  eapply ends_eps; [done| |exact He]. cbn. by rewrite Hb.
Qed.

Lemma exit_eps_unstable s l t s' l1 c l' r :
  kind m s = unstable -> body m s (hd 0 t) l = Eps s' l1 -> ends_exit m exit s' l1 t c l' r ->
  ends_exit m exit s l t c l' r.
Proof.
  intros Hk Hb (c1 & s1 & l2 & He & Hl). exists c1, s1, l2. split; [|done].
  eapply ends_eps_unstable; [done| |exact He]. cbn. by rewrite Hb.
Qed.

Lemma exit_sub s l x t f s' c1 l1 t1 c l' r :
  x <> 0 -> body m s x l = Sub f s' -> reads (f l) (x :: t) c1 l1 t1 -> accepted c1 = true ->
  ends_exit m exit s' l1 t1 c l' r -> ends_exit m exit s l (x :: t) c l' r.
Proof.
  intros Hx Hb Hf Ha (c2 & s1 & l2 & He & Hl). exists c2, s1, l2. split; [|done].
  eapply ends_sub; [done| | |exact Ha|exact He]; [cbn; by rewrite Hb|].
  intros co ln col. destruct (Hf co ln col) as (ln' & col' & Hr). exists ln', col'. cbn [snd].
  rewrite Hr. cbn [code]. by rewrite Ha.
Qed.

(** Leaving a terminal state at the end of the input. *)
Lemma exit_end s l e l' :
  kind m s = term -> exit s l = (e, l') ->
  ends_exit m exit s l [] (if accepted e then success else e) l' [].
Proof.
  intros Hk He. exists success, s, l. split; [by apply ends_term|].
  unfold leave. cbn. rewrite He. by destruct (accepted e).
Qed.

(** Leaving it because of a character that has no transition. *)
Lemma exit_trailing s l x t e l' :
  kind m s = term -> x <> 0 -> body m s x l = Stay -> exit s l = (e, l') ->
  ends_exit m exit s l (x :: t) trailing_character l' (x :: t).
Proof.
  intros Hk Hx Hb He. exists trailing_character, s, l. split.
  - replace trailing_character with (end_code (x :: t)) by (cbn; by rewrite (proj2 (Z.eqb_neq x 0) Hx)).
    apply ends_term; [done|]. intros y t' [= <- <-] _. cbn. by rewrite Hb.
  - unfold leave. cbn. by rewrite He.
Qed.

Lemma exit_reads inv rank `{!FsmRuns m inv rank} s l t c l' r :
  inv s l t -> ends_exit m exit s l t c l' r -> reads (run_fsm_exit m exit s l) t c l' r.
Proof.
  intros Hi (c1 & s1 & l1 & He & Hl) co ln col.
  destruct (He co ln col) as (ln' & col' & n & Hn).
  destruct (run_fsm_total_at m inv rank s l (PS t co ln col) Hi) as (ps2 & l2 & Hr & _).
  destruct (run_tracked m inv rank _ s l (PS t co ln col) ps2 l2 Hi Hr) as (s2 & Ht & _).
  exists ln', col'. unfold run_fsm_exit, run_fsm. rewrite Ht.
  apply (run_mono (tracked m) _ (n `max` fsm_fuel (PS t co ln col))) in Hn; [|lia].
  apply (run_mono (tracked m) _ (n `max` fsm_fuel (PS t co ln col))) in Ht; [|lia].
  rewrite Ht in Hn. injection Hn as -> -> ->. cbn [code]. by rewrite Hl.
Qed.

End Exit.

(** ** Machines that differ in their locals only *)

Section Related.
  Context {S L1 L2 : Type} (R : L1 -> L2 -> Prop).

Definition same_result (x : option (parser_state * L1)) (y : option (parser_state * L2)) : Prop :=
  match x, y with
  | Some (ps, l), Some (ps', l') => ps = ps' /\ R l l'
  | None, None => True
  | _, _ => False
  end.

Definition same_move (a : move S L1) (b : move S L2) : Prop :=
  match a, b with
  | Take s l, Take s' l' | Eps s l, Eps s' l' => s = s' /\ R l l'
  | Mark s f, Mark s' g => s = s' /\ forall i, R (f i) (g i)
  | Sub f s, Sub g s' => s = s' /\ forall l l' ps, R l l' -> same_result (f l ps) (g l' ps)
  | Stop c l, Stop c' l' => c = c' /\ R l l'
  | Stay, Stay => True
  | _, _ => False
  end.

(** The relation is kept by every state, so the machines take the same way. *)
Record SameMachine (m1 : fsm S L1) (m2 : fsm S L2) : Prop := {
  same_kind s : kind m1 s = kind m2 s;
  same_body s ch l l' : R l l' -> same_move (body m1 s ch l) (body m2 s ch l');
}.

End Related.

Section Simulation.
  Context {S L1 L2 : Type} (R : L1 -> L2 -> Prop) (m1 : fsm S L1) (m2 : fsm S L2).

Lemma run_same n s l l' ps :
  SameMachine R m1 m2 -> R l l' -> same_result R (run m1 n s l ps) (run m2 n s l' ps).
Proof.
  intros [Hk Hb]. revert s l l' ps. induction n as [|n IH]; intros s l l' ps HR; [done|].
  cbn [run]. unfold step, enter, fall_through. rewrite <- Hk. specialize (Hb s (current ps) l l' HR).
  destruct (current ps =? 0), (kind m1 s); cbn; try done;
    destruct (body m1 s (current ps) l), (body m2 s (current ps) l'); cbn in Hb; try done;
    try destruct Hb as [<- Hb]; try (by destruct (next ps) as [[]|]; cbn; auto); try (by auto);
    specialize (Hb l l' ps HR); unfold same_result in Hb;
    repeat case_match; simplify_eq; try done; destruct Hb as [<- Hb]; simplify_eq; auto; congruence.
Qed.

End Simulation.

Lemma tracked_same {S L1 L2} (R : L1 -> L2 -> Prop) (m1 : fsm S L1) (m2 : fsm S L2) :
  SameMachine R m1 m2 -> SameMachine (fun a b => a.1 = b.1 /\ R a.2 b.2) (tracked m1) (tracked m2).
Proof.
  intros [Hk Hb]. split; [done|]. intros s ch [s1 l] [s2 l'] [Hs HR]. cbn in Hs, HR. cbn. subst s2.
  specialize (Hb s ch l l' HR).
  destruct (body m1 s ch l), (body m2 s ch l'); cbn in Hb; try done; cbn;
    try destruct Hb as [<- Hb]; try (by repeat split; cbn; auto).
  split; [done|]. intros [s3 l3] [s4 l4] ps [Hs34 HR34]. cbn in Hs34, HR34. cbn. subst s4.
  specialize (Hb l3 l4 ps HR34). unfold same_result in *. repeat case_match; simplify_eq; try done.
  all: destruct Hb as [<- Hb]. all: split; [done|]. all: split; cbn; [congruence|done].
Qed.

Lemma run_fsm_exit_same {S L1 L2} (R : L1 -> L2 -> Prop) (m1 : fsm S L1) (m2 : fsm S L2) exit1 exit2 s l l' ps :
  SameMachine R m1 m2 ->
  (forall s l l', R l l' -> (exit1 s l).1 = (exit2 s l').1 /\ R (exit1 s l).2 (exit2 s l').2) ->
  R l l' -> same_result R (run_fsm_exit m1 exit1 s l ps) (run_fsm_exit m2 exit2 s l' ps).
Proof.
  intros Hm He HR. pose proof (run_same _ _ _ (fsm_fuel ps) s (s, l) (s, l') ps (tracked_same R m1 m2 Hm)) as Hr.
  unfold run_fsm_exit, run_fsm. specialize (Hr ltac:(by split)).
  destruct (run (tracked m1) _ s (s, l) ps) as [[p1 [s1 l1]]|], (run (tracked m2) _ s (s, l') ps) as [[p2 [s2 l2]]|]; try done.
  destruct Hr as [<- [Hs HR2]]. cbn in Hs, HR2. subst s2. unfold leave. specialize (He s1 l1 l2 HR2).
  destruct (exit1 s1 l1) as [e1 l3], (exit2 s1 l2) as [e2 l4]. cbn in He. destruct He as [<- He].
  by destruct (accepted (code p1)).
Qed.

End FsmExit.
