(* ===== verification/Uri.v ===== *)
(** URIs of libcaf_core: [uri.{hpp,cpp}], [uri_builder.cpp], the parser of
    [detail/parser/read_uri.hpp] and its entry point in [detail/parse.cpp].

    The parser is a template over its consumer, which is an interface here
    ([consumer]) with the two classes of the source as instances: [uri_builder]
    and the [nop_builder] of [uri::can_parse].  [thrown] records a call of
    [substr] or [erase] with a position behind the end of the string, which
    throws [std::out_of_range].  [assemble_str] returns [None] where its
    assertion fails.  [isprint] is the one of the C locale. *)
From Stdlib Require Import Strings.Ascii Strings.String.
From S2P Require Import Prelude.
From S2P Require Import Fsm.
From S2P Require Import FsmExit.
From S2P Require Import ReadInteger.
From S2P Require Import Printer.
From S2P Require Import Ipv4Address.
From S2P Require Import Ipv6Address.
From S2P Require Import JsonWriter.
#[local] Open Scope Z_scope.

Import Fsm FsmExit ReadInteger Printer Ipv4Address Ipv6Address.

Module Uri.

Definition append_hex := JsonWriter.append_hex.

(** ** Data *)

(** [std::variant<std::string, ip_address>]. *)
Inductive host_type :=
  | HostName (s : list Z)
  | HostIp (addr : ipv6_address).

Record userinfo_type := Userinfo {
  name : list Z;
  password : option (list Z);
}.

Record authority_type := Authority {
  userinfo : option userinfo_type;
  host : host_type;
  port : Z;
}.

Definition authority_empty (a : authority_type) : bool :=
  match host a with HostName [] => true | _ => false end.

(** [unordered_flat_map]: a vector of pairs. *)
Definition query_map : Type := list (list Z * list Z).

Fixpoint emplace (key val : list Z) (xs : query_map) : query_map :=
  match xs with
  | [] => [(key, val)]
  | kv :: xs' => if bool_decide (kv.1 = key) then xs else kv :: emplace key val xs'
  end.

(** [uri::impl_type]; [text] is its member [str]. *)
Record uri := Impl {
  text : list Z;
  scheme : list Z;
  authority : authority_type;
  path : list Z;
  query : query_map;
  fragment : list Z;
  path_offset : nat;
}.

Definition default_instance : uri :=
  Impl [] [] (Authority None (HostName []) 0) [] [] [] 0.

(** ** Percent encoding *)

Definition reserved : list Z := [32; 63; 35; 91; 93; 64; 33; 36; 38; 39; 34; 40; 41; 42; 43; 44; 59; 61].

Definition encode_char (is_path : bool) (ch : Z) : list Z :=
  if (ch =? chr ":") || (ch =? chr "/") then
    if is_path then [ch] else chr "%" :: append_hex [ch]
  else if in_whitelist reserved ch then chr "%" :: append_hex [ch]
  else [ch].

Definition encode (x : list Z) (is_path : bool) : list Z := flat_map (encode_char is_path) x.

(** The value of [hex_buf]: a string view ends before the first null byte. *)
Definition hex_value (a b : Z) : option (option Z) :=
  match read_unsigned_integer 255 (init_state (c_str [chr "0"; chr "x"; a; b; 0])) with
  | Some (ps, x) => Some (if bool_decide (code ps = success) then x else None)
  | None => None
  end.

(** The loop of [uri::decode]: the string, the two positions. *)
Fixpoint decode_loop (fuel : nat) (str : list Z) (read_index write_index : nat) : option (list Z) :=
  match fuel with
  | O => None
  | S n =>
      if (read_index <? length str)%nat then
        match str !! read_index with
        | None => None
        | Some ch =>
            if (ch =? chr "%") && (read_index + 2 <? length str)%nat then
              match str !! (read_index + 1)%nat, str !! (read_index + 2)%nat with
              | Some a, Some b =>
                  match hex_value a b with
                  | Some (Some val) => decode_loop n (<[write_index := val]> str) (read_index + 3) (write_index + 1)
                  | Some None => decode_loop n (<[write_index := chr "?"]> str) (read_index + 3) (write_index + 1)
                  | None => None
                  end
              | _, _ => None
              end
            else if negb (write_index =? read_index)%nat then
              decode_loop n (<[write_index := ch]> str) (read_index + 1) (write_index + 1)
            else decode_loop n str (read_index + 1) (write_index + 1)
        end
      else Some (take write_index str)
  end.

Definition decode (str : list Z) : option (list Z) := decode_loop (S (length str)) str 0 0.

(** ** Printing *)

Definition host_str (a : authority_type) : list Z :=
  match host a with HostName s => s | HostIp addr => v6_to_string addr end.

(** [to_string(const uri::authority_type&)]. *)
Definition print_authority (x : authority_type) : list Z :=
  match userinfo x with
  | Some u =>
      encode (name u) false
        ++ match password u with Some pw => chr ":" :: encode pw false | None => [] end
        ++ [chr "@"]
  | None => []
  end
  ++ match host x with
     | HostIp addr =>
         if v6_embeds_v4 addr then v6_to_string addr else [chr "["] ++ v6_to_string addr ++ [chr "]"]
     | HostName s => encode s false
     end
  ++ if negb (port x =? 0) then chr ":" :: print_unsigned (port x) else [].

Definition print_kvp (kvp : list Z * list Z) : list Z :=
  encode kvp.1 false ++ [chr "="] ++ encode kvp.2 false.

Definition print_query (q : query_map) : list Z :=
  match q with
  | [] => []
  | kvp :: q' => chr "?" :: print_kvp kvp ++ flat_map (fun kvp => chr "&" :: print_kvp kvp) q'
  end.

Definition print_fragment (f : list Z) : list Z :=
  match f with [] => [] | _ => chr "#" :: encode f false end.

(** [impl_type::assemble_str]. *)
Definition assemble_str (x : uri) : option uri :=
  let str := encode (scheme x) false ++ [chr ":"] in
  let finish str offset :=
    Impl (str ++ print_query (query x) ++ print_fragment (fragment x))
      (scheme x) (authority x) (path x) (query x) (fragment x) offset in
  if authority_empty (authority x) then
    match path x with
    | [] => None
    | p => Some (finish (str ++ encode p true) (length str))
    end
  else
    let str := str ++ chars "//" ++ print_authority (authority x) in
    Some (finish (str ++ match path x with [] => [] | p => chr "/" :: encode p true end) (length str)).

(** ** The builder *)

(** What [read_uri] asks of its consumer. *)
Record consumer (C : Type) := Consumer {
  on_scheme : list Z -> C -> option C;
  on_userinfo : list Z -> option (list Z) -> C -> option C;
  on_host : list Z -> C -> option C;
  on_ip : ipv6_address -> C -> option C;
  on_port : Z -> C -> option C;
  on_path : list Z -> C -> option C;
  on_query : query_map -> C -> option C;
  on_fragment : list Z -> C -> option C;
}.
Arguments Consumer {C}. Arguments on_scheme {C}. Arguments on_userinfo {C}. Arguments on_host {C}.
Arguments on_ip {C}. Arguments on_port {C}. Arguments on_path {C}. Arguments on_query {C}.
Arguments on_fragment {C}.

Definition set_authority (a : authority_type) (x : uri) : uri :=
  Impl (text x) (scheme x) a (path x) (query x) (fragment x) (path_offset x).

Definition set_scheme (str : list Z) (x : uri) : uri :=
  Impl (text x) str (authority x) (path x) (query x) (fragment x) (path_offset x).

Definition set_userinfo (n : list Z) (pw : option (list Z)) (x : uri) : uri :=
  set_authority (Authority (Some (Userinfo n pw)) (host (authority x)) (port (authority x))) x.

Definition set_host_type (h : host_type) (x : uri) : uri :=
  set_authority (Authority (userinfo (authority x)) h (port (authority x))) x.

Definition set_port (p : Z) (x : uri) : uri :=
  set_authority (Authority (userinfo (authority x)) (host (authority x)) p) x.

Definition set_path (p : list Z) (x : uri) : uri :=
  Impl (text x) (scheme x) (authority x) p (query x) (fragment x) (path_offset x).

Definition set_query (q : query_map) (x : uri) : uri :=
  Impl (text x) (scheme x) (authority x) (path x) q (fragment x) (path_offset x).

Definition set_fragment (f : list Z) (x : uri) : uri :=
  Impl (text x) (scheme x) (authority x) (path x) (query x) f (path_offset x).

Definition builder_host (str : list Z) (x : uri) : option uri :=
  match v4_parse str with
  | Some (_, Some addr) => Some (set_host_type (HostIp (v6_of_v4 addr)) x)
  | Some (_, None) => Some (set_host_type (HostName str) x)
  | None => None
  end.

Definition builder_path (str : list Z) (x : uri) : option uri :=
  s ← decode str; Some (set_path s x).

Fixpoint builder_query (map : query_map) (x : uri) : option uri :=
  match map with
  | [] => Some x
  | (key, val) :: map' =>
      k ← decode key; v ← decode val;
      builder_query map' (set_query (emplace k v (query x)) x)
  end.

Definition builder_fragment (str : list Z) (x : uri) : option uri :=
  s ← decode str; Some (set_fragment s x).

Definition uri_builder : consumer uri := {|
  on_scheme str x := Some (set_scheme str x);
  on_userinfo str pw x := Some (set_userinfo str pw x);
  on_host := builder_host;
  on_ip addr x := Some (set_host_type (HostIp addr) x);
  on_port p x := Some (set_port p x);
  on_path := builder_path;
  on_query := builder_query;
  on_fragment := builder_fragment;
|}.

Definition nop_builder : consumer unit :=
  Consumer (fun _ => Some) (fun _ _ => Some) (fun _ => Some) (fun _ => Some) (fun _ => Some)
    (fun _ => Some) (fun _ => Some) (fun _ => Some).

Definition make (x : uri) : option uri := assemble_str x.

(** ** The parser *)

Definition isprint (c : Z) : bool := (32 <=? c) && (c <=? 126).

(** The parser passes a plain [char] to [isprint].  Where [char] is signed, a byte
    of 128 or more is a negative number, for which [isprint] is undefined: a
    transition that asks [isprint] for such a byte crashes the machine. *)
Definition classified {S L} (ch : Z) (target : S) (m : move S L) : move S L :=
  if ch <? 128 then m else Sub (fun _ _ => None) target.

Definition uri_unprotected_char (c : Z) : bool :=
  isprint c && negb (in_whitelist (chars ":/?#[]@!$&'()*+,;=<>") c).

(** *** [read_uri_percent_encoded] *)

Inductive pstate := p_init | p_read_nibble | p_done.

Definition p_kind (s : pstate) : state_kind := match s with p_done => term | _ => nonterm end.

Definition p_body (s : pstate) (ch : Z) (char_code : Z) : move pstate Z :=
  match s with
  | p_init =>
      if in_whitelist hexadecimal_chars ch then Take p_read_nibble (add_ascii 16 255 char_code ch).2 else Stay
  | p_read_nibble =>
      if in_whitelist hexadecimal_chars ch then Take p_done (add_ascii 16 255 char_code ch).2 else Stay
  | p_done => Stay
  end.

Definition p_fsm : fsm pstate Z := Fsm p_kind p_body.

Definition read_uri_percent_encoded (str : list Z) (ps : parser_state) : option (parser_state * list Z) :=
  match run_fsm p_fsm p_init 0 ps with
  | Some (ps', c) => Some (ps', if accepted (code ps') then str ++ [c] else str)
  | None => None
  end.

(** *** [read_uri_query] *)

Record qlocals := QL { q_result : query_map; q_key : list Z; q_value : list Z }.

Definition is_valid_query_char (c : Z) : bool :=
  isprint c && negb (in_whitelist (chars "=&%#<>[]") c).

Definition push (l : qlocals) : qlocals := QL (emplace (q_key l) (q_value l) (q_result l)) [] [].

Definition add_key (l : qlocals) (ch : Z) : qlocals := QL (q_result l) (q_key l ++ [ch]) (q_value l).
Definition add_value (l : qlocals) (ch : Z) : qlocals := QL (q_result l) (q_key l) (q_value l ++ [ch]).

Definition encoded_key (l : qlocals) (ps : parser_state) : option (parser_state * qlocals) :=
  r ← read_uri_percent_encoded (q_key l) ps; Some (r.1, QL (q_result l) r.2 (q_value l)).

Definition encoded_value (l : qlocals) (ps : parser_state) : option (parser_state * qlocals) :=
  r ← read_uri_percent_encoded (q_value l) ps; Some (r.1, QL (q_result l) (q_key l) r.2).

Inductive qstate := q_init | q_read_key | q_read_value.

Definition q_kind (s : qstate) : state_kind := match s with q_read_key => nonterm | _ => term end.

Definition q_body (s : qstate) (ch : Z) (l : qlocals) : move qstate qlocals :=
  match s with
  | q_init =>
      classified ch q_read_key
        (if is_valid_query_char ch then Take q_read_key (add_key l ch)
         else if ch =? chr "%" then Sub (behind encoded_key) q_read_key
         else Stay)
  | q_read_key =>
      classified ch q_read_key
        (if is_valid_query_char ch then Take q_read_key (add_key l ch)
         else if ch =? chr "%" then Sub (behind encoded_key) q_read_key
         else if ch =? chr "=" then Take q_read_value l
         else Stay)
  | q_read_value =>
      classified ch q_read_value
        (if is_valid_query_char ch then Take q_read_value (add_value l ch)
         else if ch =? chr "%" then Sub (behind encoded_value) q_read_value
         else if ch =? chr "&" then Take q_init (push l)
         else Stay)
  end.

Definition q_exit (s : qstate) (l : qlocals) : pec * qlocals :=
  match s with q_read_value => (success, push l) | _ => (success, l) end.

Definition q_fsm : fsm qstate qlocals := Fsm q_kind q_body.

(** The result map, if the query is accepted. *)
Definition read_uri_query (ps : parser_state) : option (parser_state * option query_map) :=
  match run_fsm_exit q_fsm q_exit q_init (QL [] [] []) ps with
  | Some (ps', l) => Some (ps', if accepted (code ps') then Some (q_result l) else None)
  | None => None
  end.

(** *** [read_uri] *)

Inductive rstate :=
  | r_init | read_scheme | have_scheme | disambiguate_path | start_authority
  | await_end_of_ipv6 | end_of_ipv6_host | read_authority | start_host | read_host
  | start_port | read_port | read_host_or_port | end_of_authority | read_path
  | start_query | end_of_query | read_fragment | r_done.

#[export] Instance rstate_eq_dec : EqDecision rstate.
Proof. solve_decision. Defined.

Section Parser.
  Context {C : Type} (consumer : consumer C).

(** [colon_position] is [None] for [npos].  An action of an [epsilon] that
    returns a [pec] stops the machine with that code, even if it is
    [trailing_character]: [failed] keeps the code. *)
Record rlocals := RL {
  str : list Z;
  colon_position : option nat;
  port_var : Z;
  sink : C;
  thrown : bool;
  failed : option pec;
}.

Definition add (l : rlocals) (ch : Z) : rlocals :=
  RL (str l ++ [ch]) (colon_position l) (port_var l) (sink l) (thrown l) (failed l).

Definition throw (l : rlocals) : rlocals :=
  RL (str l) (colon_position l) (port_var l) (sink l) true (failed l).

(** A call of the consumer. *)
Definition tell (f : C -> option C) (l : rlocals) : rlocals :=
  match f (sink l) with
  | Some c => RL (str l) (colon_position l) (port_var l) c (thrown l) (failed l)
  | None => throw l
  end.

(** [take_str]: [str] is empty afterwards. *)
Definition clear_str (l : rlocals) : rlocals :=
  RL [] (colon_position l) (port_var l) (sink l) (thrown l) (failed l).

(** [substr] and [erase] up to the end. *)
Definition substr (pos : nat) (s : list Z) : option (list Z) :=
  if (pos <=? length s)%nat then Some (drop pos s) else None.

Definition erase (pos : option nat) (s : list Z) : option (list Z) :=
  match pos with
  | Some p => if (p <=? length s)%nat then Some (take p s) else None
  | None => None
  end.

(** [colon_position + 1] wraps around for [npos]. *)
Definition behind_colon (l : rlocals) : nat :=
  match colon_position l with Some p => S p | None => O end.

Definition path_char (c : Z) : bool := uri_unprotected_char c || (c =? chr "/") || (c =? chr ":").

Definition do_set_path (l : rlocals) : rlocals := tell (on_path consumer (str l)) (clear_str l).

Definition do_set_host (l : rlocals) : rlocals := tell (on_host consumer (str l)) (clear_str l).

Definition do_set_userinfo (l : rlocals) : rlocals :=
  match colon_position l with
  | None => tell (on_userinfo consumer (str l) None) (clear_str l)
  | Some _ =>
      match substr (behind_colon l) (str l), erase (colon_position l) (str l) with
      | Some password_part, Some s => tell (on_userinfo consumer s (Some password_part)) (clear_str l)
      | _, _ => throw (clear_str l)
      end
  end.

Definition on_colon (l : rlocals) : rlocals :=
  RL (str l ++ [chr ":"]) (Some (length (str l))) (port_var l) (sink l) (thrown l) (failed l).

Definition set_port_var (p : Z) (l : rlocals) : rlocals :=
  RL (str l) (colon_position l) p (sink l) (thrown l) (failed l).

Definition set_host_and_port (l : rlocals) : pec * rlocals :=
  match substr (behind_colon l) (str l) with
  | None => (success, throw (clear_str l))
  | Some port_str =>
      match read_unsigned_integer 65535 (init_state port_str) with
      | None => (success, throw (clear_str l))
      | Some (port_ps, x) =>
          let p := default (port_var l) x in
          let l1 := set_port_var p (clear_str l) in
          if bool_decide (code port_ps = success) then
            let l2 := tell (on_port consumer p) l1 in
            match erase (colon_position l) (str l) with
            | Some s => (success, tell (on_host consumer s) l2)
            | None => (success, throw l2)
            end
          else (code port_ps, l1)
      end
  end.

Definition encoded (l : rlocals) (ps : parser_state) : option (parser_state * rlocals) :=
  r ← read_uri_percent_encoded (str l) ps;
  Some (r.1, RL r.2 (colon_position l) (port_var l) (sink l) (thrown l) (failed l)).

(** [read_ipv6_address(ps, ip_consumer)]. *)
Definition ip_host (l : rlocals) (ps : parser_state) : option (parser_state * rlocals) :=
  r ← read_ipv6_address ps;
  Some (r.1, match r.2 with Some addr => tell (on_ip consumer addr) l | None => l end).

Definition query_call (l : rlocals) (ps : parser_state) : option (parser_state * rlocals) :=
  r ← read_uri_query ps;
  Some (r.1, match r.2 with Some q => tell (on_query consumer q) l | None => l end).

(** [read_next_char(next_state, str)], with what follows it. *)
Definition read_next_char (next_state : rstate) (ch : Z) (l : rlocals) (other : move rstate rlocals)
    : move rstate rlocals :=
  classified ch next_state
    (if uri_unprotected_char ch then Take next_state (add l ch)
     else if ch =? chr "%" then Sub (behind encoded) next_state
     else other).

Definition fail_with (c : pec) (l : rlocals) : rlocals :=
  RL (str l) (colon_position l) (port_var l) (sink l) (thrown l) (Some c).

(** An [epsilon] whose action returns a [pec]. *)
Definition eps_action (target : rstate) (act : pec * rlocals) : move rstate rlocals :=
  if bool_decide (act.1 = success) then Eps target act.2 else Stop invalid_state (fail_with act.1 act.2).

Definition r_kind (s : rstate) : state_kind :=
  match s with
  | disambiguate_path | end_of_ipv6_host | read_authority | read_host | read_port
  | read_host_or_port | end_of_authority | read_path | start_query | read_fragment | r_done => term
  | end_of_query => unstable
  | _ => nonterm
  end.

Definition r_body (s : rstate) (ch : Z) (l : rlocals) : move rstate rlocals :=
  let delimiter := in_whitelist (chars "/?#") ch in
  match s with
  | r_init => Eps read_scheme l
  | read_scheme =>
      read_next_char read_scheme ch l
        (if ch =? chr ":" then Take have_scheme (tell (on_scheme consumer (str l)) (clear_str l)) else Stay)
  | have_scheme =>
      if ch =? chr "/" then Take disambiguate_path l
      else read_next_char read_path ch l (if ch =? chr "%" then Sub (behind encoded) read_path else Stay)
  | disambiguate_path =>
      if ch =? chr "/" then Take start_authority l else Eps read_path (add l (chr "/"))
  | start_authority =>
      if ch =? chr "/" then Take read_path (add l (chr "/"))
      else read_next_char read_authority ch l
        (if ch =? chr ":" then Take read_authority (on_colon l)
         else if ch =? chr "@" then Take start_host l
         else if ch =? chr "[" then Sub (behind ip_host) await_end_of_ipv6
         else Stay)
  | await_end_of_ipv6 => if ch =? chr "]" then Take end_of_ipv6_host l else Stay
  | end_of_ipv6_host => if ch =? chr ":" then Take start_port l else Eps end_of_authority l
  | read_authority =>
      read_next_char read_authority ch l
        (if ch =? chr "@" then Take start_host (do_set_userinfo l)
         else if ch =? chr ":" then Take read_host_or_port (on_colon l)
         else if delimiter then Eps end_of_authority (do_set_host l)
         else Stay)
  | start_host =>
      read_next_char read_host ch l
        (if ch =? chr "[" then Sub (behind ip_host) await_end_of_ipv6 else Stay)
  | read_host =>
      read_next_char read_host ch l
        (if ch =? chr ":" then Take start_port (do_set_host l)
         else if delimiter then Eps end_of_authority (do_set_host l)
         else Stay)
  | start_port =>
      if in_whitelist decimal_chars ch
      then Take read_port (set_port_var (add_ascii 10 65535 (port_var l) ch).2 l) else Stay
  | read_port =>
      if in_whitelist decimal_chars ch then
        let r := add_ascii 10 65535 (port_var l) ch in
        checked (r.1, set_port_var r.2 l) read_port integer_overflow
      else if delimiter then Eps end_of_authority (tell (on_port consumer (port_var l)) l)
      else Stay
  | read_host_or_port =>
      read_next_char read_host_or_port ch l
        (if ch =? chr "@" then Take start_host (do_set_userinfo l)
         else if delimiter then eps_action end_of_authority (set_host_and_port l)
         else Stay)
  | end_of_authority =>
      if ch =? chr "/" then Take read_path l
      else if ch =? chr "?" then Take start_query l
      else if ch =? chr "#" then Take read_fragment l
      else Stay
  | read_path =>
      classified ch read_path
        (if path_char ch then Take read_path (add l ch)
         else if ch =? chr "%" then Sub (behind encoded) read_path
         else if ch =? chr "?" then Take start_query (do_set_path l)
         else if ch =? chr "#" then Take read_fragment (do_set_path l)
         else Stay)
  | start_query => Sub query_call end_of_query
  | end_of_query => if ch =? chr "#" then Take read_fragment l else Eps r_done l
  | read_fragment => read_next_char read_fragment ch l Stay
  | r_done => Stay
  end.

Definition r_exit (s : rstate) (l : rlocals) : pec * rlocals :=
  match s with
  | disambiguate_path => (success, tell (on_path consumer (chars "/")) l)
  | read_authority | read_host => (success, do_set_host l)
  | read_port => (success, tell (on_port consumer (port_var l)) l)
  | read_host_or_port => set_host_and_port l
  | read_path => (success, do_set_path l)
  | read_fragment => (success, tell (on_fragment consumer (str l)) (clear_str l))
  | _ => (success, l)
  end.

Definition r_fsm : fsm rstate rlocals := Fsm r_kind r_body.

Definition read_uri (c : C) (ps : parser_state) : option (parser_state * C) :=
  match run_fsm_exit r_fsm r_exit r_init (RL [] None 0 c false None) ps with
  | Some (ps', l) =>
      if thrown l then None
      else Some (match failed l with Some c => set_code ps' c | None => ps' end, sink l)
  | None => None
  end.

End Parser.
Arguments RL {C}. Arguments str {C}. Arguments sink {C}. Arguments thrown {C}.
Arguments colon_position {C}. Arguments port_var {C}. Arguments failed {C}.

(** ** Entry points *)

(** [parse(string_parser_state&, uri&)]: the new value of [x], if it is assigned. *)
Definition parse_ps (ps : parser_state) : option (parser_state * option uri) :=
  let finish (r : parser_state * uri) :=
    if accepted (code r.1) then u ← make r.2; Some (r.1, Some u) else Some (r.1, None) in
  match consume (chr "<") ps with
  | None => None
  | Some (true, ps1) =>
      r ← read_uri uri_builder default_instance ps1;
      if accepted (code r.1) then
        match consume (chr ">") r.1 with
        | None => None
        | Some (true, ps2) => finish (ps2, r.2)
        | Some (false, ps2) => Some (set_code ps2 unexpected_character, None)
        end
      else Some (r.1, None)
  | Some (false, ps1) => r ← read_uri uri_builder default_instance ps1; finish r
  end.

(** [make_uri]: an error code or a URI. *)
Definition make_uri (s : list Z) : option (pec + uri) :=
  match parse_ps (init_state s) with
  | Some (ps, x) =>
      Some (if bool_decide (code ps = success) then inr (default default_instance x) else inl (code ps))
  | None => None
  end.

Definition can_parse (s : list Z) : option bool :=
  match consume (chr "<") (init_state s) with
  | None => None
  | Some (true, ps1) =>
      r ← read_uri nop_builder tt ps1;
      if accepted (code r.1) then
        match consume (chr ">") r.1 with
        | None => None
        | Some (b, ps2) => Some (b && bool_decide (code ps2 = success))
        end
      else Some false
  | Some (false, ps1) => r ← read_uri nop_builder tt ps1; Some (bool_decide (code r.1 = success))
  end.

(** ** Derived URIs *)

Definition uri_empty (x : uri) : bool := bool_decide (text x = []).

(** [str_after_path_offset] and [path_query_fragment]. *)
Definition str_after_path_offset (x : uri) : list Z := drop (path_offset x) (text x).

Definition path_query_fragment (x : uri) : list Z :=
  let sub_str := str_after_path_offset x in
  sub_str ++ if hd 0 sub_str =? chr "/" then [] else [chr "/"].

Definition authority_only (x : uri) : option uri :=
  if uri_empty x || authority_empty (authority x) then None
  else Some (Impl (scheme x ++ chars "://" ++ print_authority (authority x)) (scheme x) (authority x) [] [] [] 0).

(** [with_userinfo], with and without a password; the outer option is the
    assertion of [assemble_str]. *)
Definition with_userinfo (n : list Z) (pw : option (list Z)) (x : uri) : option (option uri) :=
  if uri_empty x || authority_empty (authority x) then Some None
  else u ← assemble_str (set_userinfo n pw x); Some (Some u).

(** ** Decoding in place computes a function on strings *)

(** Two digits make a character, anything else becomes a question mark; a percent
    sign without two characters behind it is copied. *)
Fixpoint decode_ref (s : list Z) : list Z :=
  match s with
  | [] => []
  | c :: s' =>
      if c =? chr "%" then
        match s' with
        | a :: b :: r => default (chr "?") (default None (hex_value a b)) :: decode_ref r
        | _ => c :: decode_ref s'
        end
      else c :: decode_ref s'
  end.

Lemma unsigned_returns max ps : exists ps' x, read_unsigned_integer max ps = Some (ps', x).
Proof.
  destruct (run_fsm_is_total (u_fsm max) u_rank u_init 0 ps) as (ps' & x & Hr & _).
  unfold read_unsigned_integer. rewrite Hr. eexists _, _. done.
Qed.

Lemma hex_value_returns a b : exists v, hex_value a b = Some v.
Proof.
  unfold hex_value. destruct (unsigned_returns 255 (init_state (c_str [chr "0"; chr "x"; a; b; 0]))) as (ps & x & ->).
  eauto.
Qed.

Lemma take_write (s : list Z) w v : (w < length s)%nat -> take (w + 1) (<[w := v]> s) = take w s ++ [v].
Proof.
  intros Hw. rewrite Nat.add_1_r, (take_S_r _ w v) by (by apply list_lookup_insert_eq).
  by rewrite take_insert_ge.
Qed.

Lemma drop_write (s : list Z) w r v : (w < r)%nat -> drop r (<[w := v]> s) = drop r s.
Proof. intros Hw. by rewrite drop_insert_lt. Qed.

Lemma decode_ref_plain c s : (c =? chr "%") = false -> decode_ref (c :: s) = c :: decode_ref s.
Proof. intros Hc. cbn. by rewrite Hc. Qed.

Lemma decode_loop_ref n s r w :
  (w <= r <= length s)%nat -> (length s - r < n)%nat ->
  decode_loop n s r w = Some (take w s ++ decode_ref (drop r s)).
Proof.
  revert s r w. induction n as [|n IH]; intros s r w Hw Hn; [lia|]. cbn [decode_loop].
  destruct (Nat.ltb_spec r (length s)) as [Hr|Hr]; cycle 1.
  { rewrite drop_ge by lia. cbn. by rewrite app_nil_r. }
  destruct (lookup_lt_is_Some_2 s r Hr) as [ch Hch]. rewrite Hch, (drop_S _ _ _ Hch).
  assert (Hstep : decode_loop n (<[w := ch]> s) (r + 1) (w + 1) = Some (take w s ++ ch :: decode_ref (drop (S r) s))).
  { rewrite IH by (rewrite ?length_insert; lia).
    rewrite take_write, drop_write, <- app_assoc, Nat.add_1_r by lia. done. }
  assert (Hcopy : (if negb (w =? r)%nat then decode_loop n (<[w := ch]> s) (r + 1) (w + 1)
                   else decode_loop n s (r + 1) (w + 1)) = Some (take w s ++ ch :: decode_ref (drop (S r) s))).
  { destruct (Nat.eqb_spec w r) as [->|Hne]; [|done]. cbn [negb]. rewrite IH by lia.
    by rewrite !Nat.add_1_r, (take_S_r _ _ _ Hch), <- app_assoc. }
  destruct (Z.eqb_spec ch (chr "%")) as [->|Hne]; [|by rewrite Hcopy, decode_ref_plain by by apply Z.eqb_neq].
  destruct (Nat.ltb_spec (r + 2) (length s)) as [H2|H2]; cycle 1.
  { cbn [andb]. rewrite Hcopy. f_equal. f_equal.
    assert (length (drop (S r) s) <= 1)%nat by (rewrite length_drop; lia).
    by destruct (drop (S r) s) as [|x [|y l]]; [|cbn; by destruct (x =? 37)|cbn in *; lia]. }
  destruct (lookup_lt_is_Some_2 s (r + 1) ltac:(lia)) as [a Ha].
  destruct (lookup_lt_is_Some_2 s (r + 2) ltac:(lia)) as [b Hb]. rewrite Ha, Hb.
  rewrite Nat.add_1_r in Ha. replace (r + 2)%nat with (S (S r)) in Hb by lia.
  rewrite (drop_S _ _ _ Ha), (drop_S _ _ _ Hb). cbn [andb].
  destruct (hex_value_returns a b) as [v Hv]. rewrite Hv. cbn [decode_ref Z.eqb]. rewrite Hv, Z.eqb_refl.
  assert (Hwrite : forall x, decode_loop n (<[w := x]> s) (r + 3) (w + 1)
                             = Some (take w s ++ x :: decode_ref (drop (S (S (S r))) s))).
  { intros x. rewrite IH by (rewrite ?length_insert; lia).
    rewrite take_write, drop_write, <- app_assoc by lia. by replace (r + 3)%nat with (S (S (S r))) by lia. }
  by destruct v; rewrite Hwrite.
Qed.

Lemma decode_is_ref s : decode s = Some (decode_ref s).
Proof. unfold decode. rewrite decode_loop_ref by lia. by rewrite drop_0. Qed.

Lemma decode_ref_nonempty s : s <> [] -> decode_ref s <> [].
Proof.
  destruct s as [|c s]; [done|]. intros _. cbn. destruct (c =? chr "%"); [|done].
  by destruct s as [|a [|b r]].
Qed.

(** ** The machines run to their end *)

(** A call behind the current character moves the cursor. *)
Lemma behind_moves {L} (f : L -> parser_state -> option (parser_state * L)) l ps :
  total (f l) -> current ps <> 0 ->
  exists ps1 ps' l', f l ps1 = Some (ps', l') /\ behind f l ps = Some (ps', l')
    /\ list.suffix (rest ps') (rest ps) /\ (length (rest ps') < length (rest ps))%nat.
Proof.
  intros Hf Hc. unfold behind. destruct (next_some ps Hc) as (c & ps1 & Hn). rewrite Hn.
  destruct (Hf ps1) as (ps' & l' & Hr & Hs). exists ps1, ps', l'. apply next_rest in Hn as [-> _].
  split_and!; [done..|by apply suffix_cons_r|]. apply suffix_length in Hs. cbn. lia.
Qed.

#[export] Instance p_fsm_ok : FsmOk p_fsm (fun _ _ => True) (fun _ => 0%nat).
Proof.
  split.
  - intros; lia.
  - intros s ch l s' l' _ Hat Hb. split; [|done]. apply Hat. by destruct s.
  - intros [] ch l s' act _ _ Hb; cbn in Hb; split_body; done.
  - intros [] ch l s' l' _ Hb; cbn in Hb; split_body; done.
  - intros [] l ps f s' _ Hb; cbn in Hb; split_body; done.
  - intros [] ch l c l' _ Hb; cbn in Hb; split_body; done.
  - intros [] ch l _ Hk; done.
Qed.

Lemma percent_encoded_total str : total (read_uri_percent_encoded str).
Proof.
  intros ps. destruct (run_fsm_is_total p_fsm _ p_init 0 ps) as (ps' & c & Hr & Hs).
  unfold read_uri_percent_encoded. rewrite Hr. eauto.
Qed.

Lemma encoded_key_total l : total (encoded_key l).
Proof.
  intros ps. destruct (percent_encoded_total (q_key l) ps) as (ps' & k & Hr & Hs).
  unfold encoded_key. rewrite Hr. eexists _, _. done.
Qed.

Lemma encoded_value_total l : total (encoded_value l).
Proof.
  intros ps. destruct (percent_encoded_total (q_value l) ps) as (ps' & k & Hr & Hs).
  unfold encoded_value. rewrite Hr. eexists _, _. done.
Qed.

(** Texts for which [isprint] is defined. *)
Definition ascii_text (r : list Z) : Prop := Forall (fun c => c < 128) r.

Lemma ascii_suffix r t : list.suffix t r -> ascii_text r -> ascii_text t.
Proof. intros [k ->]. by intros [_ H]%Forall_app. Qed.

Lemma ascii_tl r : ascii_text r -> ascii_text (tl r).
Proof. intros H. destruct r; [done|]. by apply Forall_cons in H as [_ H]. Qed.

Lemma ascii_hd r : ascii_text r -> (hd 0 r <? 128) = true.
Proof. intros H. apply Z.ltb_lt. destruct H; cbn; lia. Qed.

#[export] Instance q_fsm_ok : FsmRuns q_fsm (fun _ _ r => ascii_text r) (fun _ => 0%nat).
Proof.
  assert (forall s l r, ascii_text r -> body q_fsm s (hd 0 r) l = match s with
    | q_init => if is_valid_query_char (hd 0 r) then Take q_read_key (add_key l (hd 0 r))
        else if hd 0 r =? chr "%" then Sub (behind encoded_key) q_read_key else Stay
    | q_read_key => if is_valid_query_char (hd 0 r) then Take q_read_key (add_key l (hd 0 r))
        else if hd 0 r =? chr "%" then Sub (behind encoded_key) q_read_key
        else if hd 0 r =? chr "=" then Take q_read_value l else Stay
    | q_read_value => if is_valid_query_char (hd 0 r) then Take q_read_value (add_value l (hd 0 r))
        else if hd 0 r =? chr "%" then Sub (behind encoded_value) q_read_value
        else if hd 0 r =? chr "&" then Take q_init (push l) else Stay
    end) as Hq.
  { intros s l r Hr. cbn [body q_fsm]. unfold q_body, classified. rewrite (ascii_hd r Hr). by destruct s. }
  split.
  - intros; lia.
  - intros s l r s' l' Hi Hat Hb. split; [apply Hat; by destruct s|]. by apply ascii_tl.
  - intros [] l r s' act Hi _ Hb; rewrite Hq in Hb by done; cbn in Hb; split_body; done.
  - intros [] l r s' l' Hi Hb; rewrite Hq in Hb by done; cbn in Hb; split_body; done.
  - intros s l ps f s' Hi Hat Hb. assert (Hc : current ps <> 0) by (apply Hat; by destruct s).
    assert (exists g, f = behind g /\ total (g l)) as (g & -> & Hg).
    { rewrite current_hd, Hq in Hb by done. destruct s; cbn in Hb; split_body; try done; injection Hb as <- <-;
        eexists; (split; [reflexivity|]); auto using encoded_key_total, encoded_value_total. }
    destruct (behind_moves g l ps Hg Hc) as (_ & ps' & l' & _ & Hr & Hs & Hlt).
    assert (ascii_text (rest ps')) by (by eapply ascii_suffix).
    exists ps', l'. split_and!; [done..|auto|by exists s].
  - intros [] l r c l' Hi Hb; rewrite Hq in Hb by done; cbn in Hb; split_body; done.
  - intros [] l r _ Hk; done.
Qed.

Lemma query_returns ps : ascii_text (rest ps) ->
  exists ps' x, read_uri_query ps = Some (ps', x) /\ list.suffix (rest ps') (rest ps).
Proof.
  intros Hi. unfold read_uri_query.
  destruct (run_fsm_exit_total q_fsm q_exit _ _ q_init (QL [] [] []) ps Hi) as (ps' & c & s' & l1 & l' & Hr & Hs & _).
  rewrite Hr. eexists _, _. done.
Qed.

(** What [read_uri] needs to know about a consumer: its operations return, and
    it remembers that it got a host or a path. *)
Class ConsumerOk {C} (f : consumer C) (hosted pathed : C -> Prop) : Prop := {
  scheme_ok str x : exists y, on_scheme f str x = Some y;
  userinfo_ok str pw x : exists y, on_userinfo f str pw x = Some y;
  host_ok str x : exists y, on_host f str x = Some y /\ (str <> [] -> hosted y);
  ip_ok addr x : exists y, on_ip f addr x = Some y /\ (length addr = 16%nat -> hosted y);
  port_ok p x : exists y, on_port f p x = Some y /\ (hosted x -> hosted y);
  path_ok str x : exists y, on_path f str x = Some y /\ (hosted x -> hosted y) /\ (str <> [] -> pathed y);
  query_ok q x : exists y, on_query f q x = Some y /\ (hosted x -> hosted y) /\ (pathed x -> pathed y);
  fragment_ok str x : exists y, on_fragment f str x = Some y /\ (hosted x -> hosted y) /\ (pathed x -> pathed y);
}.

Definition has_host (x : uri) : Prop := authority_empty (authority x) = false.
Definition has_path (x : uri) : Prop := path x <> [].

Lemma v4_parse_returns s : exists c x, v4_parse s = Some (c, x).
Proof.
  unfold v4_parse, read_ipv4_address.
  destruct (run_fsm_total a_fsm a_inv a_rank a_init [] (init_state s)) as (ps & f & Hr & _); [done|].
  rewrite Hr. cbn. eauto.
Qed.

#[export] Instance uri_builder_ok : ConsumerOk uri_builder has_host has_path.
Proof.
  split; cbn [uri_builder on_scheme on_userinfo on_host on_ip on_port on_path on_query on_fragment].
  - eauto.
  - eauto.
  - intros s x. unfold builder_host. destruct (v4_parse_returns s) as (c & [a|] & ->); eexists; (split; [done|]); [done|].
    intros Hs. by destruct s.
  - intros addr x. eexists. by split.
  - intros p x. eexists. split; [done|]. done.
  - intros s x. unfold builder_path. rewrite decode_is_ref. eexists. split; [reflexivity|].
    split; [done|]. intros Hs. by apply decode_ref_nonempty.
  - intros q. induction q as [|[k v] q IH]; intros x; cbn [builder_query]; [by eauto|].
    rewrite !decode_is_ref. cbn. destruct (IH (set_query (emplace (decode_ref k) (decode_ref v) (query x)) x)) as (y & Hy & H1 & H2).
    eexists. split; [exact Hy|]. done.
  - intros s x. unfold builder_fragment. rewrite decode_is_ref. eexists. by split.
Qed.

#[export] Instance nop_builder_ok : ConsumerOk nop_builder (fun _ => True) (fun _ => True).
Proof. split; eauto. Qed.

Section Safety.
  Context {C : Type} (T : list Z) (HT : ascii_text T) (f : consumer C) (hosted pathed : C -> Prop) `{!ConsumerOk f hosted pathed}.

(** The colon that [on_colon] has stored lies within [str]. *)
Definition colon_inside (l : @rlocals C) : Prop :=
  forall p, colon_position l = Some p -> (p < length (str l))%nat.

(** What holds when the machine enters a state.  A code of [set_host_and_port]
    ends the run, for which [r_done] stands. *)
Definition r_here (s : rstate) (l : @rlocals C) : Prop :=
  match s with
  | r_init | read_scheme => colon_position l = None
  | have_scheme | disambiguate_path | start_authority => colon_position l = None /\ str l = []
  | read_authority => str l <> [] /\ colon_inside l
  | start_host => True
  | read_host => str l <> []
  | read_host_or_port => exists p, colon_position l = Some p /\ (0 < p)%nat /\ str l !! p = Some (chr ":")
  | await_end_of_ipv6 | end_of_ipv6_host | start_port | read_port | end_of_authority => hosted (sink l)
  | read_path => str l <> [] \/ hosted (sink l)
  | start_query | end_of_query | read_fragment | r_done => hosted (sink l) \/ pathed (sink l)
  end.

(** While it is not clear whether a host or a user comes first, [str] is a piece
    of the text [T] right before the cursor. *)
Definition pending (s : rstate) (l : @rlocals C) : list Z :=
  match s with read_authority | read_host_or_port => str l | _ => [] end.

Definition r_inv (s : rstate) (l : @rlocals C) (r : list Z) : Prop :=
  thrown l = false /\ list.suffix (pending s l ++ r) T
  /\ ((failed l = None /\ r_here s l) \/ (s = r_done /\ exists c, failed l = Some c /\ c <> success)).

Definition r_rank (s : rstate) : nat :=
  match s with
  | start_query => 2
  | r_init | disambiguate_path | end_of_ipv6_host | read_authority | read_host | read_port
  | read_host_or_port | end_of_query => 1
  | _ => 0
  end.

(** A call of the consumer that returns. *)
Lemma tell_some g (l : @rlocals C) c : g (sink l) = Some c ->
  tell g l = RL (str l) (colon_position l) (port_var l) c (thrown l) (failed l).
Proof. unfold tell. by intros ->. Qed.

(** [l] with the members that only the consumer changes. *)
Definition told (l l' : @rlocals C) : Prop :=
  thrown l' = thrown l /\ failed l' = failed l /\ colon_position l' = colon_position l.

Lemma set_host_told l : str l <> [] -> told l (do_set_host f l) /\ hosted (sink (do_set_host f l)).
Proof using ConsumerOk0.
  intros Hs. destruct (host_ok (str l) (sink l)) as (y & Hy & Hh). unfold do_set_host.
  rewrite (tell_some _ _ y) by done. split; [done|]. by apply Hh.
Qed.

Lemma set_path_told l :
  str l <> [] \/ hosted (sink l) ->
  told l (do_set_path f l) /\ (hosted (sink (do_set_path f l)) \/ pathed (sink (do_set_path f l))).
Proof using ConsumerOk0.
  intros Hs. destruct (path_ok (str l) (sink l)) as (y & Hy & Hh & Hp). unfold do_set_path.
  rewrite (tell_some _ _ y) by done. split; [done|]. cbn. destruct Hs; auto.
Qed.

Lemma set_userinfo_told l : colon_inside l -> told l (do_set_userinfo f l).
Proof using ConsumerOk0.
  intros Hc. unfold do_set_userinfo, substr, erase, behind_colon, colon_inside in *.
  destruct (colon_position l) as [p|] eqn:Hp.
  - specialize (Hc p eq_refl). rewrite !(proj2 (Nat.leb_le _ _)) by lia.
    destruct (userinfo_ok (take p (str l)) (Some (drop (S p) (str l))) (sink l)) as (y & Hy).
    by rewrite (tell_some _ _ y).
  - destruct (userinfo_ok (str l) None (sink l)) as (y & Hy). by rewrite (tell_some _ _ y).
Qed.

Lemma set_host_and_port_told l p :
  colon_position l = Some p -> (0 < p)%nat -> str l !! p = Some (chr ":") ->
  told l (set_host_and_port f l).2
  /\ ((set_host_and_port f l).1 = success -> hosted (sink (set_host_and_port f l).2)).
Proof using ConsumerOk0.
  intros Hp H0 Hlt. apply lookup_lt_Some in Hlt. unfold set_host_and_port, substr, erase, behind_colon. rewrite Hp.
  rewrite !(proj2 (Nat.leb_le _ _)) by lia.
  destruct (unsigned_returns 65535 (init_state (drop (S p) (str l)))) as (ps & x & ->).
  case_bool_decide as Hc; cbn [fst snd]; [|by split].
  destruct (port_ok (default (port_var l) x) (sink l)) as (y & Hy & _).
  destruct (host_ok (take p (str l)) y) as (z & Hz & Hh).
  rewrite (tell_some (on_port f (default (port_var l) x)) _ y), (tell_some _ _ z) by done.
  split; [by unfold told|]. intros _. apply Hh. destruct (str l); [cbn in Hlt; lia|]. by destruct p; [lia|].
Qed.

Lemma percent_is_unprotected ch : uri_unprotected_char ch = false -> (ch =? chr "%") = true -> False.
Proof. intros Hu Hc. apply Z.eqb_eq in Hc as ->. done. Qed.

Lemma percent_is_path ch : path_char ch = false -> (ch =? chr "%") = true -> False.
Proof. intros Hu Hc. apply Z.eqb_eq in Hc as ->. done. Qed.

Lemma ip_host_total l : total (ip_host f l).
Proof.
  intros ps. destruct (ipv6_reads_within ps) as (ps' & x & Hr & Hs & _). unfold ip_host. rewrite Hr. eexists _, _. done.
Qed.

Lemma ip_host_ok l ps ps' l' :
  ip_host f l ps = Some (ps', l') -> told l l' /\ (accepted (code ps') = true -> hosted (sink l')).
Proof using ConsumerOk0.
  unfold ip_host. destruct (ipv6_reads_within ps) as (ps1 & x & Hr & _ & Hx). rewrite Hr. cbn. intros [= <- <-].
  unfold read_ipv6_address in Hr. destruct (run_fsm v_fsm v_init v6_start ps) as [[ps2 p]|]; [|done].
  destruct (oob p); [done|]. injection Hr as -> Hd. destruct x as [a|]; cycle 1.
  { split; [done|]. intros Ha. by rewrite Ha in Hd. }
  destruct (ip_ok a (sink l)) as (y & Hy & Hh). rewrite (tell_some _ _ y) by done.
  split; [done|]. intros _. apply Hh. by apply Hx.
Qed.

Lemma query_call_ok l ps :
  ascii_text (rest ps) ->
  exists ps' l', query_call f l ps = Some (ps', l') /\ list.suffix (rest ps') (rest ps) /\ told l l'
    /\ (hosted (sink l) -> hosted (sink l')) /\ (pathed (sink l) -> pathed (sink l')).
Proof using ConsumerOk0.
  intros Hps. destruct (query_returns ps Hps) as (ps' & [q|] & Hr & Hs); unfold query_call; rewrite Hr; cbn.
  - destruct (query_ok q (sink l)) as (y & Hy & H1 & H2). rewrite (tell_some _ _ y) by done. by eexists _, _.
  - by eexists _, _.
Qed.

Lemma r_inv_live s l r ch :
  r_inv s l r -> body (r_fsm f) s ch l <> Stay -> thrown l = false /\ failed l = None /\ r_here s l.
Proof. intros (Ht & _ & [[Hf Hh]|[-> _]]) Hb; [by split_and!|by destruct Hb]. Qed.

Lemma r_inv_told s l l' r :
  list.suffix (pending s l' ++ r) T -> thrown l = false -> failed l = None -> told l l' -> r_here s l' -> r_inv s l' r.
Proof. intros Hr Ht Hf (H1 & H2 & _) Hh. split_and!; [congruence|done|]. left. split; [congruence|done]. Qed.

Lemma pending_drop s l r : list.suffix (pending s l ++ r) T -> list.suffix r T.
Proof. intros H. etrans; [|exact H]. by exists (pending s l). Qed.

(** A character moves from the text to [str]. *)
Lemma pending_take s l r s' l' :
  r <> [] -> list.suffix (pending s l ++ r) T ->
  pending s' l' = [] \/ pending s' l' = pending s l ++ [hd 0 r] -> list.suffix (pending s' l' ++ tl r) T.
Proof.
  destruct r as [|c r]; [done|]. intros _ H. cbn [hd tl].
  intros [-> | ->]; [apply pending_drop in H; etrans; [|exact H]; by exists [c]|]. by rewrite <- app_assoc.
Qed.

Lemma snoc_not_nil (s : list Z) c : s ++ [c] <> [].
Proof. by destruct s. Qed.

Lemma colon_inside_add l ch : colon_inside l -> colon_inside (add l ch).
Proof. intros Hc p Hp. specialize (Hc p Hp). cbn. rewrite length_app. cbn. lia. Qed.

Lemma colon_here l : colon_inside (on_colon l).
Proof. intros p [= <-]. cbn. rewrite length_app. cbn. lia. Qed.

Lemma colon_none l : colon_position l = None -> colon_inside l.
Proof. unfold colon_inside. congruence. Qed.

(** The moves of one state keep the invariant. *)
Lemma r_take s ch l r s' l' :
  r_inv s l r -> ch = hd 0 r -> ch <> 0 -> body (r_fsm f) s ch l = Take s' l' -> r_inv s' l' (tl r).
Proof using ConsumerOk0.
  intros Hi Hch Hc Hb. destruct (r_inv_live s l r ch Hi) as (Ht & Hf & Hh); [by rewrite Hb|].
  destruct Hi as (_ & Hr & _). assert (Hne : r <> []) by (by destruct r).
  destruct (scheme_ok (str l) (sink l)) as (y & Hy).
  destruct s; cbn [body r_fsm r_body r_here] in Hb, Hh; unfold read_next_char, classified, eps_action, checked in Hb; split_body; try done;
    injection Hb as <- <-; pose proof (fun s' l' => pending_take _ l r s' l' Hne Hr) as Hp;
    try (apply (r_inv_told _ l); [by apply Hp; left|done..|]; cbn; solve [eauto using snoc_not_nil | tauto]).
  - rewrite (tell_some _ _ y) by done. apply (r_inv_told _ l); [by apply Hp; left|done..].
  - destruct Hh as [Hh Hs]. apply (r_inv_told _ l); [apply Hp; right; cbn; by rewrite Hs, Hch|done..|].
    split; [apply snoc_not_nil|]. by apply colon_inside_add, colon_none.
  - destruct Hh as [Hh Hs]. match goal with H : (ch =? chr ":") = true |- _ => apply Z.eqb_eq in H as Hcolon end. rewrite Hcolon in Hch.
    split_and!; [done|apply Hp; right; cbn; by rewrite Hs, <- Hch|]. left. split; [done|]. split; [apply snoc_not_nil|apply colon_here].
  - apply (r_inv_told _ l); [apply Hp; right; by rewrite <- Hch|done..|].
    destruct Hh as [_ Hh]. split; [apply snoc_not_nil|by apply colon_inside_add].
  - apply (r_inv_told _ l); [by apply Hp; left|done..|by apply set_userinfo_told, Hh|done].
  - match goal with H : (ch =? chr ":") = true |- _ => apply Z.eqb_eq in H as Hcolon end. rewrite Hcolon in Hch.
    split_and!; [done|apply Hp; right; cbn; by rewrite <- Hch|]. left. split; [done|]. eexists. split; [done|].
    split; [|by apply list_lookup_middle]. destruct (str l); [by destruct Hh|]. cbn. lia.
  - destruct (set_host_told l Hh) as [H1 H2]. apply (r_inv_told _ l); [by apply Hp; left|done..].
  - apply (r_inv_told _ l); [apply Hp; right; by rewrite <- Hch|done..|].
    destruct Hh as (p & Hp' & H0 & Hlt). exists p. split_and!; [done..|]. by apply lookup_app_l_Some.
  - apply (r_inv_told _ l); [by apply Hp; left|done..| |done]. apply set_userinfo_told. destruct Hh as (p & Hp' & _ & Hlt).
    intros q Hq. rewrite Hp' in Hq. injection Hq as <-. by apply lookup_lt_Some in Hlt.
  - destruct (set_path_told l Hh) as [H1 H2]. apply (r_inv_told _ l); [by apply Hp; left|done..].
  - destruct (set_path_told l Hh) as [H1 H2]. apply (r_inv_told _ l); [by apply Hp; left|done..].
Qed.

Lemma r_eps s ch l r s' l' :
  r_inv s l r -> body (r_fsm f) s ch l = Eps s' l' -> (r_rank s' < r_rank s)%nat /\ r_inv s' l' r.
Proof using ConsumerOk0.
  intros Hi Hb. destruct (r_inv_live s l r ch Hi) as (Ht & Hf & Hh); [by rewrite Hb|].
  destruct Hi as (_ & Hr & _). apply pending_drop in Hr as Hr'.
  destruct s; cbn [body r_fsm r_body r_here] in Hb, Hh; unfold read_next_char, classified, eps_action, checked in Hb; split_body; try done;
    injection Hb as <- <-; (split; [cbn; lia|]);
    try (apply (r_inv_told _ l); [done..|]; cbn; solve [eauto using snoc_not_nil | tauto]).
  - destruct Hh as [Hh _]. destruct (set_host_told l Hh) as [H1 H2]. by apply (r_inv_told _ l).
  - destruct (set_host_told l Hh) as [H1 H2]. by apply (r_inv_told _ l).
  - destruct (port_ok (port_var l) (sink l)) as (y & Hy & H). rewrite (tell_some _ _ y) by done.
    apply (r_inv_told _ l); [done..|]. by apply H.
  - destruct Hh as (p & Hp & H0 & Hlt). destruct (set_host_and_port_told l p Hp H0 Hlt) as [H1 H2].
    apply (r_inv_told _ l); [done..|]. apply H2. by eapply bool_decide_eq_true.
Qed.

Lemma r_stop s ch l r c l' :
  r_inv s l r -> body (r_fsm f) s ch l = Stop c l' -> accepted c = false /\ exists s1, r_inv s1 l' r.
Proof using ConsumerOk0.
  intros Hi Hb. destruct (r_inv_live s l r ch Hi) as (Ht & Hf & Hh); [by rewrite Hb|].
  destruct Hi as (_ & Hr & _). apply pending_drop in Hr as Hr'.
  destruct s; cbn [body r_fsm r_body r_here] in Hb, Hh; unfold read_next_char, classified, eps_action, checked in Hb; split_body; try done;
    injection Hb as <- <-; (split; [done|]).
  - exists read_port. by apply (r_inv_told _ l).
  - exists r_done. destruct Hh as (p & Hp & H0 & Hlt). destruct (set_host_and_port_told l p Hp H0 Hlt) as [(H1 & _ & _) _].
    split_and!; [cbn; congruence|done|]. right. split; [done|]. eexists. split; [done|]. by eapply bool_decide_eq_false.
Qed.

Lemma r_sub s l ps g s' :
  r_inv s l (rest ps) -> current ps <> 0 -> body (r_fsm f) s (current ps) l = Sub g s' ->
  exists ps' l', g l ps = Some (ps', l') /\ list.suffix (rest ps') (rest ps)
    /\ (accepted (code ps') = true ->
        r_inv s' l' (rest ps') /\ ((r_rank s' < r_rank s)%nat \/ (length (rest ps') < length (rest ps))%nat))
    /\ exists s1, r_inv s1 l' (rest ps').
Proof using ConsumerOk0 HT.
  intros Hi Hc Hb. destruct (r_inv_live s l _ (current ps) Hi) as (Ht & Hf & Hh); [by rewrite Hb|].
  destruct Hi as (_ & Hr & _). apply pending_drop in Hr as Hr'.
  assert (Hps : ascii_text (rest ps)) by (by eapply ascii_suffix). pose proof (ascii_hd _ Hps) as Hascii. rewrite <- current_hd in Hascii.
  assert ((s' = await_end_of_ipv6 /\ g = behind (ip_host f)) \/ (s = start_query /\ s' = end_of_query /\ g = query_call f)) as [[-> ->]|(-> & -> & ->)].
  { destruct s; cbn [body r_fsm r_body] in Hb; unfold read_next_char, classified, eps_action, checked in Hb; split_body; try done;
      try (exfalso; eauto using percent_is_unprotected, percent_is_path; done); injection Hb as <- <-; auto. }
  - destruct (behind_moves (ip_host f) l ps (ip_host_total l) Hc) as (ps1 & ps' & l' & Hr1 & Hcall & Hs & Hlt).
    assert (list.suffix (rest ps') T) by (by trans (rest ps)).
    destruct (ip_host_ok l ps1 ps' l' Hr1) as [Htold Hh']. exists ps', l'. split_and!; [done..| |].
    + intros Ha. split; [|by right]. apply (r_inv_told _ l); [done..|]. by apply Hh'.
    + exists start_host. by apply (r_inv_told _ l).
  - destruct (query_call_ok l ps Hps) as (ps' & l' & Hcall & Hs & Htold & H1 & H2). cbn in Hh.
    assert (list.suffix (rest ps') T) by (by trans (rest ps)). exists ps', l'. split_and!; [done..| |].
    + intros _. split; [|left; cbn; lia]. apply (r_inv_told _ l); [done..|]. cbn. tauto.
    + exists start_query. apply (r_inv_told _ l); [done..|]. cbn. tauto.
Qed.

#[export] Instance read_uri_fsm_ok : FsmRuns (r_fsm f) r_inv r_rank.
Proof using ConsumerOk0 HT.
  split.
  - intros []; cbn; lia.
  - intros s l r s' l' Hi Hat Hb. assert (hd 0 r <> 0); [|by split; [|eapply r_take]].
    destruct (decide (s = end_of_query)) as [->|]; [|apply Hat; by destruct s].
    cbn in Hb. destruct (Z.eqb_spec (hd 0 r) (chr "#")) as [E|]; [|done]. by rewrite E.
  - intros [] l r s' act _ _ Hb; cbn [body r_fsm r_body] in Hb; unfold read_next_char, classified, eps_action, checked in Hb; split_body; done.
  - intros s l r s' l' Hi Hb. by eapply r_eps.
  - intros s l ps g s' Hi Hat Hb. eapply r_sub; [done| |done]. apply Hat. intros Hk.
    destruct s; try done. cbn in Hb. by case_match.
  - intros s l r c l' Hi Hb. by eapply r_stop.
  - intros [] l r _ Hk; try done. cbn. by case_match.
Qed.

(** The text ends with a colon and a port number that has something behind it. *)
Definition bad_port (t r : list Z) : Prop :=
  exists pre port_str ps x, t = pre ++ chr ":" :: port_str ++ r
    /\ read_unsigned_integer 65535 (init_state port_str) = Some (ps, x) /\ code ps = trailing_character.

Lemma drop_colon (s : list Z) p : s !! p = Some (chr ":") -> s = take p s ++ chr ":" :: drop (S p) s.
Proof. intros Hp. by rewrite <- (drop_S _ _ _ Hp), take_drop. Qed.

(** What the exit statements leave to the caller. *)
Lemma r_exit_ok s l r e l' :
  r_inv s l r -> failed l = None -> r_kind s = term -> r_exit f s l = (e, l') ->
  thrown l' = false /\ failed l' = None
  /\ (accepted e = true -> hosted (sink l') \/ pathed (sink l') \/ bad_port T r).
Proof using ConsumerOk0.
  intros (Ht & Hr & [[_ Hh]|[_ (c & Hc & _)]]) Hf Hk He; [|congruence].
  destruct s; try done; cbn [r_exit r_here] in He, Hh; try (injection He as <- <-).
  - destruct (path_ok (chars "/") (sink l)) as (y & Hy & _ & Hp). rewrite (tell_some _ _ y) by done.
    split_and!; [done..|]. intros _. right. left. by apply Hp.
  - by split_and!; auto.
  - destruct Hh as [Hh _]. destruct (set_host_told l Hh) as [(H1 & H2 & _) H3]. split_and!; [congruence..|auto].
  - destruct (set_host_told l Hh) as [(H1 & H2 & _) H3]. split_and!; [congruence..|auto].
  - destruct (port_ok (port_var l) (sink l)) as (y & Hy & H). rewrite (tell_some _ _ y) by done.
    split_and!; [done..|]. intros _. left. by apply H.
  - destruct Hh as (p & Hp & H0 & Hlt). destruct (set_host_and_port_told l p Hp H0 Hlt) as [(H1 & H2 & _) H3].
    rewrite He in *. cbn [fst snd] in *. split_and!; [congruence..|]. intros Ha.
    destruct (decide (e = success)) as [->|Hne]; [by left; apply H3|]. do 2 right.
    destruct Hr as [pre Hr]. cbn [pending] in Hr. rewrite (drop_colon _ _ Hlt) in Hr. clear H1 H2 H3.
    unfold set_host_and_port, substr, behind_colon in He. rewrite Hp in He. apply lookup_lt_Some in Hlt.
    rewrite (proj2 (Nat.leb_le _ _)) in He by lia.
    destruct (unsigned_returns 65535 (init_state (drop (S p) (str l)))) as (ps & x & Hx). rewrite Hx in He.
    exists (pre ++ take p (str l)), (drop (S p) (str l)), ps, x. split_and!; [|done|].
    { rewrite Hr, <- !app_assoc. done. }
    case_bool_decide as Hc; [|injection He as <- _; destruct (code ps); done].
    destruct (erase _ _); by injection He as <- _.
  - by split_and!; auto.
  - destruct (set_path_told l Hh) as [(H1 & H2 & _) H3]. split_and!; [congruence..|tauto].
  - by split_and!; tauto.
  - destruct (fragment_ok (str l) (sink l)) as (y & Hy & H1 & H2). rewrite (tell_some _ _ y) by done.
    split_and!; [done..|]. cbn. tauto.
  - by split_and!; tauto.
Qed.

Lemma read_uri_total c ps :
  rest ps = T ->
  exists ps' x, read_uri f c ps = Some (ps', x) /\ list.suffix (rest ps') T
    /\ (code ps' = success -> current ps' = 0 /\ (hosted x \/ pathed x \/ bad_port T (rest ps'))).
Proof using ConsumerOk0 HT.
  intros Heq. assert (r_inv r_init (RL [] None 0 c false None) (rest ps)) as Hi by (rewrite Heq; split_and!; [done..|by left]).
  destruct (run_fsm_exit_total (r_fsm f) (r_exit f) r_inv r_rank r_init _ ps Hi)
    as (ps' & c1 & s' & l1 & l' & Hr & Hs & Hl & [s1 Hs1] & Hok).
  unfold read_uri. rewrite Hr. rewrite Heq in Hs. clear Hr Hi. unfold leave in Hl.
  assert (Hend : thrown l' = false /\ (forall e, failed l' = Some e -> e <> success)
    /\ (failed l' = None -> code ps' = success -> current ps' = 0 /\ (hosted (sink l') \/ pathed (sink l') \/ bad_port T (rest ps')))).
  { destruct (accepted c1) eqn:Ha; cycle 1.
    { injection Hl as -> ->. destruct Hs1 as (Ht & _ & Hs1). split_and!; [done| |].
      - intros e He. destruct Hs1 as [[Hf _]|(_ & e' & He' & Hne)]; congruence.
      - intros _ Hsucc. by rewrite Hsucc in Ha. }
    destruct (Hok eq_refl) as (Hk & Hi & Hcur). destruct (r_exit f s' l1) as [e l2] eqn:He. injection Hl as Hcode ->.
    destruct (failed l1) as [e1|] eqn:Hf1.
    - destruct Hi as (Ht & _ & [[Hf _]|(-> & e' & He' & Hne)]); [congruence|]. injection He as <- <-.
      split_and!; [done|intros; congruence|intros; congruence].
    - destruct (r_exit_ok s' l1 _ e l' Hi Hf1 Hk He) as (H1 & H2 & H3). split_and!; [done|intros; congruence|].
      intros _ Hsucc. rewrite Hsucc in Hcode. destruct (accepted e) eqn:Hae.
      + cbn in Hcode. rewrite andb_false_r in Hcode. auto.
      + case_bool_decide; cbn in Hcode; subst; done. }
  destruct Hend as (-> & Hf1 & Hf2). eexists _, _. split; [reflexivity|].
  destruct (failed l') as [e|]; split; [done| |done|]; intros Hc.
  - by destruct (Hf1 e).
  - by apply Hf2.
Qed.

End Safety.

(** ** The parser does not depend on its consumer *)

Section Consumers.
  Context {C D : Type} (f : consumer C) (g : consumer D) (hf pf : C -> Prop) (hg pg : D -> Prop).
  Context `{!ConsumerOk f hf pf} `{!ConsumerOk g hg pg}.

Definition same_but_sink (l : @rlocals C) (l' : @rlocals D) : Prop :=
  str l = str l' /\ colon_position l = colon_position l' /\ port_var l = port_var l'
  /\ thrown l = thrown l' /\ failed l = failed l'.

Lemma tell_same u v l l' :
  (exists x, u (sink l) = Some x) -> (exists y, v (sink l') = Some y) ->
  same_but_sink l l' -> same_but_sink (tell u l) (tell v l').
Proof. intros [x Hx] [y Hy] H. unfold tell. by rewrite Hx, Hy. Qed.

Lemma clear_same l l' : same_but_sink l l' -> same_but_sink (clear_str l) (clear_str l').
Proof. by intros (_ & H). Qed.

Lemma add_same l l' ch : same_but_sink l l' -> same_but_sink (add l ch) (add l' ch).
Proof. intros (H1 & H2 & H3 & H4 & H5). unfold same_but_sink. cbn. by rewrite H1. Qed.

Lemma on_colon_same l l' : same_but_sink l l' -> same_but_sink (on_colon l) (on_colon l').
Proof. intros (H1 & H2 & H3 & H4 & H5). unfold same_but_sink. cbn. by rewrite H1. Qed.

Lemma set_port_var_same l l' p : same_but_sink l l' -> same_but_sink (set_port_var p l) (set_port_var p l').
Proof. by intros (H1 & H2 & H3 & H4 & H5). Qed.

Lemma throw_same l l' : same_but_sink l l' -> same_but_sink (throw l) (throw l').
Proof. by intros (H1 & H2 & H3 & H4 & H5). Qed.

Lemma fail_with_same l l' c : same_but_sink l l' -> same_but_sink (fail_with c l) (fail_with c l').
Proof. by intros (H1 & H2 & H3 & H4 & H5). Qed.

(** The operations of a consumer return. *)
Ltac returns :=
  match goal with
  | |- exists x, on_userinfo ?f ?s ?pw ?c = Some x => exact (userinfo_ok (f := f) s pw c)
  | |- exists x, on_host ?f ?s ?c = Some x => destruct (host_ok (f := f) s c) as (y & Hy & _); by exists y
  | |- exists x, on_port ?f ?s ?c = Some x => destruct (port_ok (f := f) s c) as (y & Hy & _); by exists y
  | |- exists x, on_path ?f ?s ?c = Some x => destruct (path_ok (f := f) s c) as (y & Hy & _); by exists y
  | |- exists x, on_ip ?f ?s ?c = Some x => destruct (ip_ok (f := f) s c) as (y & Hy & _); by exists y
  | |- exists x, on_query ?f ?s ?c = Some x => destruct (query_ok (f := f) s c) as (y & Hy & _); by exists y
  | |- exists x, on_fragment ?f ?s ?c = Some x => destruct (fragment_ok (f := f) s c) as (y & Hy & _); by exists y
  | |- exists x, on_scheme ?f ?s ?c = Some x => exact (scheme_ok (f := f) s c)
  end.

Lemma set_host_same l l' : same_but_sink l l' -> same_but_sink (do_set_host f l) (do_set_host g l').
Proof using All. intros H. pose proof H as (H1 & _). apply tell_same; [returns..|by apply clear_same]. Qed.

Lemma set_path_same l l' : same_but_sink l l' -> same_but_sink (do_set_path f l) (do_set_path g l').
Proof using All. intros H. pose proof H as (H1 & _). apply tell_same; [returns..|by apply clear_same]. Qed.

Lemma set_userinfo_same l l' : same_but_sink l l' -> same_but_sink (do_set_userinfo f l) (do_set_userinfo g l').
Proof using All.
  intros H. pose proof H as (H1 & H2 & _). unfold do_set_userinfo, behind_colon. rewrite <- H1, <- H2.
  apply clear_same in H.
  destruct (colon_position l); [|apply tell_same; [returns..|done]].
  destruct (substr _ _); [|by apply throw_same]. destruct (erase _ _); [|by apply throw_same].
  apply tell_same; [returns..|done].
Qed.

Lemma set_host_and_port_same l l' :
  same_but_sink l l' ->
  (set_host_and_port f l).1 = (set_host_and_port g l').1
  /\ same_but_sink (set_host_and_port f l).2 (set_host_and_port g l').2.
Proof using All.
  intros H. pose proof H as (H1 & H2 & H3 & _). unfold set_host_and_port, behind_colon. rewrite <- H1, <- H2, <- H3.
  apply clear_same in H. destruct (substr _ _) as [s|]; [|by split; [|apply throw_same]].
  destruct (read_unsigned_integer 65535 (init_state s)) as [[ps x]|]; [|by split; [|apply throw_same]].
  apply (set_port_var_same _ _ (default (port_var l) x)) in H. case_bool_decide; [|done].
  assert (H' : same_but_sink (tell (on_port f (default (port_var l) x)) (set_port_var (default (port_var l) x) (clear_str l)))
                 (tell (on_port g (default (port_var l) x)) (set_port_var (default (port_var l) x) (clear_str l'))))
    by (apply tell_same; [returns..|done]).
  destruct (erase _ _); (split; [done|]); [|by apply throw_same]. apply tell_same; [returns..|done].
Qed.

Lemma call_same (u : @rlocals C -> parser_state -> option (parser_state * @rlocals C))
    (v : @rlocals D -> parser_state -> option (parser_state * @rlocals D)) :
  (forall l l' ps, same_but_sink l l' -> same_result same_but_sink (u l ps) (v l' ps)) ->
  forall l l' ps, same_but_sink l l' -> same_result same_but_sink (behind u l ps) (behind v l' ps).
Proof. intros H l l' ps HR. unfold behind. destruct (next ps) as [[c ps']|]; [by apply H|done]. Qed.

Lemma encoded_same l l' ps : same_but_sink l l' -> same_result same_but_sink (encoded l ps) (encoded l' ps).
Proof.
  intros (H1 & H). unfold encoded. rewrite <- H1. destruct (read_uri_percent_encoded (str l) ps) as [[ps' s]|]; [|done].
  done.
Qed.

Lemma ip_host_same l l' ps : same_but_sink l l' -> same_result same_but_sink (ip_host f l ps) (ip_host g l' ps).
Proof using All.
  intros H. unfold ip_host. destruct (read_ipv6_address ps) as [[ps' [a|]]|]; cbn; [|done..].
  split; [done|]. apply tell_same; [returns..|done].
Qed.

Lemma query_call_same l l' ps : same_but_sink l l' -> same_result same_but_sink (query_call f l ps) (query_call g l' ps).
Proof using All.
  intros H. unfold query_call. destruct (read_uri_query ps) as [[ps' [a|]]|]; cbn; [|done..].
  split; [done|]. apply tell_same; [returns..|done].
Qed.

Lemma next_char_same s ch l l' other other' :
  same_but_sink l l' -> same_move same_but_sink other other' ->
  same_move same_but_sink (read_next_char s ch l other) (read_next_char s ch l' other').
Proof.
  intros H Ho. unfold read_next_char, classified. destruct (ch <? 128); [|done]. destruct (uri_unprotected_char ch); [by split; [|apply add_same]|].
  destruct (ch =? chr "%"); [|done]. split; [done|]. apply call_same, encoded_same.
Qed.

Hint Resolve set_host_same set_path_same set_userinfo_same on_colon_same add_same set_port_var_same clear_same : same.

Lemma r_fsm_same : SameMachine same_but_sink (r_fsm f) (r_fsm g).
Proof using All.
  split; [done|]. intros s ch l l' H. pose proof H as (H1 & H2 & H3 & _).
  pose proof (set_host_and_port_same l l' H) as [Hp1 Hp2].
  pose proof (call_same (ip_host f) (ip_host g) (fun l l' ps => ip_host_same l l' ps)) as Hip.
  pose proof (call_same encoded encoded (fun l l' ps => encoded_same l l' ps)) as Henc.
  destruct s; cbn [body r_fsm r_body]; rewrite <- ?H3; try (apply next_char_same; [done|]);
    unfold checked, eps_action, classified; cbn [fst snd]; rewrite <- ?Hp1;
    repeat match goal with |- context [if ?b then _ else _] => destruct b end;
    try (apply next_char_same; [done|]); try (by split; auto with same).
  - split; [done|]. apply tell_same; [returns..|by apply clear_same].
  - split; [done|]. apply tell_same; [returns..|done].
  - split; [done|]. by apply fail_with_same.
  - split; [done|]. apply query_call_same.
Qed.

Lemma r_exit_same s l l' :
  same_but_sink l l' -> (r_exit f s l).1 = (r_exit g s l').1 /\ same_but_sink (r_exit f s l).2 (r_exit g s l').2.
Proof using All.
  intros H. pose proof H as (H1 & H2 & H3 & _).
  destruct s; cbn [r_exit]; try (by split; auto with same); try (by apply set_host_and_port_same); (split; [done|]);
    apply tell_same; auto with same; returns.
Qed.

Lemma read_uri_same c d ps :
  match read_uri f c ps, read_uri g d ps with
  | Some (ps1, _), Some (ps2, _) => ps1 = ps2
  | None, None => True
  | _, _ => False
  end.
Proof using All.
  pose proof (run_fsm_exit_same same_but_sink (r_fsm f) (r_fsm g) (r_exit f) (r_exit g) r_init
    (RL [] None 0 c false None) (RL [] None 0 d false None) ps r_fsm_same r_exit_same ltac:(done)) as H.
  unfold read_uri. destruct (run_fsm_exit (r_fsm f) _ _ _ _) as [[ps1 l1]|], (run_fsm_exit (r_fsm g) _ _ _ _) as [[ps2 l2]|]; try done.
  destruct H as [<- (_ & _ & _ & <- & <-)]. by destruct (thrown l1).
Qed.

End Consumers.

(** ** Theorems *)

Lemma make_some x : has_host x \/ has_path x -> exists u, make x = Some u.
Proof.
  unfold make, assemble_str, has_host, has_path. intros H.
  destruct (authority_empty (authority x)), (path x); destruct H; by eauto.
Qed.



(** A byte that is not an ASCII character. *)
Lemma uri_isprint_undefined : make_uri (chars "file:/" ++ [195; 164]) = None.
Proof. vm_compute. reflexivity. Qed.

(** The exception is an unchecked code: at the end of the input the result
    [trailing_character] of [set_host_and_port] counts as success, although host and
    port are not stored. *)
Lemma trailing_port_accepted :
  can_parse (chars "http://foo:80x") = Some true /\ make_uri (chars "http://foo:80x") = None.
Proof. split; vm_compute; reflexivity. Qed.

Lemma skip_whitespaces_suffix ps : list.suffix (rest (skip_whitespaces ps)) (rest ps).
Proof.
  unfold skip_whitespaces. generalize (code ps) (line ps) (column ps). induction (rest ps) as [|c r IH]; intros k m n; [done|].
  cbn [skip_blanks]. repeat case_match; try done; by apply suffix_cons_r.
Qed.

Lemma consume_suffix x ps b ps' : consume x ps = Some (b, ps') -> list.suffix (rest ps') (rest ps).
Proof.
  pose proof (skip_whitespaces_suffix ps) as Hs. unfold consume, consume_strict.
  destruct (_ =? x); [|by intros [= _ <-]]. destruct (next (skip_whitespaces ps)) as [[c ps1]|] eqn:Hn; [|done].
  intros [= _ <-]. apply next_rest in Hn as [Hn _]. etrans; [|exact Hs]. rewrite Hn. by apply suffix_cons_r.
Qed.

Lemma consume_returns x ps : x <> 0 -> exists b ps', consume x ps = Some (b, ps').
Proof.
  intros Hx. unfold consume, consume_strict. destruct (Z.eqb_spec (current (skip_whitespaces ps)) x) as [E|]; [|eauto].
  destruct (next_some (skip_whitespaces ps)) as (c & ps' & ->); [congruence|eauto].
Qed.

(** [can_parse] answers for every text of ASCII characters, and says yes exactly if [make_uri]
    produces a URI, no if it produces an error, whichever consumer does the work. *)
Theorem can_parse_agrees s :
  ascii_text s ->
  exists b, can_parse s = Some b
    /\ (forall u, make_uri s = Some (inr u) -> b = true) /\ (forall c, make_uri s = Some (inl c) -> b = false).
Proof.
  intros Hascii. unfold can_parse, make_uri, parse_ps.
  destruct (consume_returns (chr "<") (init_state s)) as (b & ps1 & Hcons); [done|]. rewrite Hcons.
  assert (ascii_text (rest ps1)) as Hps by (eapply ascii_suffix, Hascii; exact (consume_suffix _ _ _ _ Hcons)).
  destruct (read_uri_total (rest ps1) Hps uri_builder has_host has_path default_instance ps1 eq_refl) as (ps' & x & Hr & _).
  pose proof (read_uri_same uri_builder nop_builder has_host has_path _ _ default_instance tt ps1) as Hsame.
  rewrite Hr in *. destruct (read_uri nop_builder tt ps1) as [[ps2 []]|]; [subst ps2|done].
  destruct b; cbn [mbind option_bind fst snd].
  - destruct (accepted (code ps')) eqn:Ha; cycle 1.
    { exists false. split; [done|]. rewrite bool_decide_eq_false_2 by (by intros E; rewrite E in Ha). by split. }
    destruct (consume_returns (chr ">") ps') as (b2 & ps3 & Hc); [done|]. rewrite Hc. eexists. split; [reflexivity|].
    destruct b2; cbn [andb fst snd]; [|by split]. destruct (accepted (code ps3)).
    + destruct (make x); cbn; [|by split]. case_bool_decide; by split.
    + case_bool_decide; by split.
  - eexists. split; [reflexivity|]. destruct (accepted (code ps')).
    + destruct (make x); cbn; [|by split]. case_bool_decide; by split.
    + case_bool_decide; by split.
Qed.

End Uri.
