(* ===== verification/UriRoundtrip.v ===== *)
(** The text of a URI is read back: [make_uri] on what [assemble_str] prints.

    [uri_ok] says which URIs have this property.  The exceptions come from the
    code: the parser decodes path, query and fragment only, although
    [assemble_str] encodes all parts; [encode] leaves percent signs alone. *)
From Stdlib Require Import Strings.Ascii Strings.String.
From S2P Require Import Prelude.
From S2P Require Import Fsm.
From S2P Require Import FsmExit.
From S2P Require Import ReadInteger.
From S2P Require Import Printer.
From S2P Require Import Ipv4Address.
From S2P Require Import Ipv6Address.
From S2P Require Import Uri.
#[local] Open Scope Z_scope.

Import Fsm FsmExit ReadInteger Printer Ipv4Address Ipv6Address Uri.

Module UriRoundtrip.

(** ** Which URIs *)

(** Characters that stand for themselves in every part. *)
Definition raw_char (c : Z) : bool := uri_unprotected_char c && negb (in_whitelist [32; 34] c).

(** Characters that survive encoding and decoding. *)
Definition text_char (c : Z) : bool := isprint c && negb (in_whitelist (chars "%<>") c).

Definition raw (s : list Z) : Prop := Forall (fun c => raw_char c = true) s.
Definition plain (s : list Z) : Prop := Forall (fun c => text_char c = true) s.

Definition host_ok (h : host_type) : Prop :=
  match h with
  | HostName s => s <> [] /\ raw s /\ exists c, v4_parse s = Some (c, None)
  | HostIp addr => is_ipv6 addr
  end.

Definition userinfo_ok (u : option userinfo_type) : Prop :=
  match u with
  | None => True
  | Some (Userinfo n None) => n <> [] /\ raw n
  | Some (Userinfo n (Some pw)) => raw n /\ raw pw
  end.

Definition query_ok (q : query_map) : Prop :=
  NoDup (map fst q) /\ Forall (fun kv => kv.1 <> [] /\ plain kv.1 /\ plain kv.2) q.

(** A path without authority must not look like an authority. *)
Definition lone_path (p : list Z) : Prop :=
  p <> [] /\ hd 0 p <> chr ":" /\ (hd 0 p = chr "/" -> hd 0 (tl p) <> chr "/").

Definition uri_ok (x : uri) : Prop :=
  raw (scheme x) /\ plain (path x) /\ query_ok (query x) /\ plain (fragment x)
  /\ (authority x = Authority None (HostName []) 0 /\ lone_path (path x)
      \/ userinfo_ok (userinfo (authority x)) /\ host_ok (host (authority x)) /\ is_uint 16 (port (authority x))).

(** ** Characters, one by one *)

Lemma isprint_range c : isprint c = true -> 32 <= c <= 126.
Proof. unfold isprint. intros H. apply andb_prop in H as [H1 H2]. lia. Qed.

Definition printable : list Z := seqZ 32 95.

Lemma printable_check (P : Z -> bool) c : forallb P printable = true -> isprint c = true -> P c = true.
Proof.
  intros HP Hc. apply isprint_range in Hc. rewrite forallb_forall in HP. apply HP.
  apply list_elem_of_In, elem_of_seqZ. lia.
Qed.

Lemma raw_print c : raw_char c = true -> isprint c = true.
Proof. unfold raw_char, uri_unprotected_char. by destruct (isprint c). Qed.

Lemma text_print c : text_char c = true -> isprint c = true.
Proof. unfold text_char. by destruct (isprint c). Qed.

Lemma raw_check (P : Z -> bool) c :
  forallb (fun c => negb (raw_char c) || P c) printable = true -> raw_char c = true -> P c = true.
Proof. intros HP Hc. pose proof (printable_check _ c HP (raw_print c Hc)) as H. cbn in H. by rewrite Hc in H. Qed.

Lemma text_check (P : Z -> bool) c :
  forallb (fun c => negb (text_char c) || P c) printable = true -> text_char c = true -> P c = true.
Proof. intros HP Hc. pose proof (printable_check _ c HP (text_print c Hc)) as H. cbn in H. by rewrite Hc in H. Qed.

Lemma raw_encoded c b : raw_char c = true -> encode_char b c = [c].
Proof.
  intros Hc. pose (P c := bool_decide (encode_char b c = [c])).
  assert (HP : P c = true) by (apply (raw_check P); [subst P; by destruct b; vm_compute|done]).
  by apply bool_decide_eq_true in HP.
Qed.

Lemma encode_raw s b : raw s -> encode s b = s.
Proof. induction 1 as [|c s Hc Hs IH]; [done|]. unfold encode in *. cbn [flat_map]. by rewrite IH, raw_encoded. Qed.

(** A character is copied, or becomes a percent sign and two digits. *)
Definition digits_of (c : Z) : Z * Z := (List.nth 0 (append_hex [c]) 0, List.nth 1 (append_hex [c]) 0).

Lemma text_encoded c b :
  text_char c = true ->
  (encode_char b c = [c] /\ (c =? chr "%") = false)
  \/ (encode_char b c = [chr "%"; (digits_of c).1; (digits_of c).2]
      /\ hex_value (digits_of c).1 (digits_of c).2 = Some (Some c)).
Proof.
  intros Hc. pose (P c := bool_decide (encode_char b c = [c] /\ (c =? chr "%") = false)
    || bool_decide (encode_char b c = [chr "%"; (digits_of c).1; (digits_of c).2]
      /\ hex_value (digits_of c).1 (digits_of c).2 = Some (Some c))).
  assert (HP : P c = true) by (apply (text_check P); [subst P; by destruct b; vm_compute|done]).
  subst P. cbn beta in HP. apply orb_prop in HP as [HP|HP]; apply bool_decide_eq_true in HP; auto.
Qed.

Lemma decode_encoded s b r : plain s -> decode_ref (encode s b ++ r) = s ++ decode_ref r.
Proof.
  induction 1 as [|c s Hc Hs IH]; [done|]. unfold encode in *. cbn [flat_map]. rewrite <- app_assoc.
  destruct (text_encoded c b Hc) as [[-> Hp]|[-> Hv]]; cbn [app].
  - rewrite decode_ref_plain by done. by rewrite IH.
  - cbn [decode_ref]. rewrite Z.eqb_refl, Hv, IH. done.
Qed.

Lemma decode_encode s b : plain s -> decode (encode s b) = Some s.
Proof. intros Hs. rewrite decode_is_ref, <- (app_nil_r (encode s b)), decode_encoded by done. by rewrite app_nil_r. Qed.

Lemma encoded_class (P : Z -> bool) s b :
  forallb (fun c => negb (text_char c) || forallb P (encode_char b c)) printable = true ->
  plain s -> Forall (fun c => P c = true) (encode s b).
Proof.
  intros HP. induction 1 as [|c s Hc Hs IH]; [constructor|]. unfold encode in *. cbn [flat_map]. apply Forall_app. split; [|done].
  pose proof (text_check _ c HP Hc) as H. cbn in H. rewrite forallb_forall in H. by apply List.Forall_forall.
Qed.

Lemma encode_path_chars s : plain s -> Forall (fun c => path_char c = true) (encode s true).
Proof. apply encoded_class. vm_compute. reflexivity. Qed.

Lemma encode_unprotected s : plain s -> Forall (fun c => uri_unprotected_char c = true) (encode s false).
Proof. apply encoded_class. vm_compute. reflexivity. Qed.

Lemma raw_unprotected s : raw s -> Forall (fun c => uri_unprotected_char c = true) s.
Proof.
  intros H. eapply Forall_impl; [exact H|]. intros c Hc. unfold raw_char in Hc. by destruct (uri_unprotected_char c).
Qed.

Lemma encode_cons c s b : exists x t, encode (c :: s) b = x :: t.
Proof.
  unfold encode. cbn [flat_map]. assert (exists x t, encode_char b c = x :: t) as (x & t & ->).
  { unfold encode_char. destruct (_ || _); [destruct b; eauto|]. destruct (in_whitelist reserved c); eauto. }
  cbn [app]. eauto.
Qed.

(** *** What is printed is ASCII text *)

Lemma ascii_app a b : ascii_text a -> ascii_text b -> ascii_text (a ++ b).
Proof. intros. by apply Forall_app. Qed.

Lemma ascii_cons c t : c < 128 -> ascii_text t -> ascii_text (c :: t).
Proof. intros. by apply Forall_cons. Qed.

Lemma ascii_nil : ascii_text [].
Proof. by constructor. Qed.

Lemma class_ascii (P : Z -> bool) t :
  (forall c, P c = true -> (c <? 128) = true) -> Forall (fun c => P c = true) t -> ascii_text t.
Proof. intros HP H. eapply Forall_impl; [exact H|]. intros c Hc. apply HP in Hc. lia. Qed.

Lemma isprint_ascii c : isprint c = true -> (c <? 128) = true.
Proof. unfold isprint. lia. Qed.

Lemma raw_ascii s : raw s -> ascii_text s.
Proof. apply class_ascii. intros c Hc. by apply isprint_ascii, raw_print. Qed.

Lemma encode_ascii s b : plain s -> ascii_text (encode s b).
Proof.
  intros Hs. apply (class_ascii (fun c => c <? 128)); [done|]. apply encoded_class; [|done]. by destruct b; vm_compute.
Qed.

Lemma to_hex_ascii x : to_hex x < 128.
Proof. unfold to_hex. generalize (Z.to_nat x) as n. intros n. do 17 (destruct n as [|n]; [done|]). by destruct n. Qed.

Lemma c_str_ascii t : ascii_text t -> ascii_text (c_str t).
Proof. induction 1 as [|c t Hc Ht IH]; cbn; [constructor|]. destruct (c =? 0); [constructor|by apply ascii_cons]. Qed.

Lemma find_not_ascii v t : ascii_text t -> ascii_text (find_not v t).
Proof. induction 1 as [|c t Hc Ht IH]; cbn; [constructor|]. destruct (c =? v); [done|by apply ascii_cons]. Qed.

Create HintDb ascii.
#[local] Hint Resolve ascii_app ascii_cons ascii_nil encode_ascii raw_ascii to_hex_ascii c_str_ascii find_not_ascii : ascii.
#[local] Hint Extern 2 (_ < 128) => reflexivity : ascii.

Lemma flat_map_ascii {A} (f : A -> list Z) l : Forall (fun x => ascii_text (f x)) l -> ascii_text (flat_map f l).
Proof. induction 1; cbn [flat_map]; auto with ascii. Qed.

Lemma query_ascii q : query_ok q -> ascii_text (print_query q).
Proof.
  intros [_ Hq]. assert (Hkv : Forall (fun kv => ascii_text (print_kvp kv)) q).
  { eapply Forall_impl; [exact Hq|]. intros kv (_ & Hk & Hv). unfold print_kvp. cbn [app]. auto with ascii. }
  destruct Hkv as [|kv q' Hkv Hq']; cbn [print_query]; auto with ascii. apply ascii_cons; [done|]. apply ascii_app; [done|].
  apply flat_map_ascii. eapply Forall_impl; [exact Hq'|]. auto with ascii.
Qed.

Lemma fragment_ascii f : plain f -> ascii_text (print_fragment f).
Proof. intros Hf. unfold print_fragment. destruct f; auto with ascii. Qed.

Lemma add_chunks_ascii l : ascii_text (add_chunks l).
Proof.
  assert (Hc : forall c, ascii_text (add_chunk c)).
  { intros c. unfold add_chunk, append_v6_hex. case_match; [auto with ascii|]. apply c_str_ascii, find_not_ascii.
    apply ascii_app; [apply flat_map_ascii, Forall_forall|]; auto with ascii. }
  destruct l as [|c l]; cbn [add_chunks]; [auto with ascii|]. apply ascii_app; [done|]. apply flat_map_ascii.
  apply Forall_forall. auto with ascii.
Qed.

Lemma v6_ascii x : v6_embeds_v4 x = false -> ascii_text (v6_to_string x).
Proof.
  intros He. unfold v6_to_string. rewrite He. destruct (v6_zero x); [by repeat constructor|].
  destruct (longest_streak 8 (oct_segments x)) as [f s]. case_match; [apply add_chunks_ascii|].
  apply ascii_app; [apply add_chunks_ascii|]. apply ascii_app; [by repeat constructor|apply add_chunks_ascii].
Qed.

(** ** Queries *)

Lemma hex_step_byte x c :
  0 <= x <= 15 -> in_whitelist hexadecimal_chars c = true ->
  (add_ascii 16 255 x c).2 = x * 16 + ascii_to_int 16 c.
Proof.
  intros Hx Hc. pose proof (digit_range 16 c is_base_16 Hc).
  rewrite add_ascii_fits; [done|apply is_base_16|lia..|done|lia].
Qed.

Lemma percent_reads str a b t :
  in_whitelist hexadecimal_chars a = true -> in_whitelist hexadecimal_chars b = true ->
  reads (read_uri_percent_encoded str) (a :: b :: t) (end_code t)
    (str ++ [ascii_to_int 16 a * 16 + ascii_to_int 16 b]) t.
Proof.
  intros Ha Hb. pose proof (digit_range 16 a is_base_16 Ha) as Ra.
  assert (He : ends p_fsm p_init 0 (a :: b :: t) (end_code t) (ascii_to_int 16 a * 16 + ascii_to_int 16 b) t).
  { eapply ends_take; [by apply (digit_nonzero 16 a is_base_16)|cbn [body p_fsm p_body]; by rewrite Ha|].
    rewrite hex_step_byte by (done || lia).
    eapply ends_take; [by apply (digit_nonzero 16 b is_base_16)|cbn [body p_fsm p_body]; by rewrite Hb|].
    rewrite hex_step_byte by (done || lia). by apply ends_term. }
  apply (ends_reads _ (fun _ _ => True) (fun _ => 0%nat)) in He; [|done].
  intros co ln col. destruct (He co ln col) as (ln' & col' & Hr). exists ln', col'.
  unfold read_uri_percent_encoded. rewrite Hr. cbn [code].
  destruct t as [|x t]; [done|]. cbn [end_code]. by destruct (x =? 0).
Qed.

(** What the two digits of a character say. *)
Lemma text_encoded_query c :
  text_char c = true ->
  (encode_char false c = [c] /\ is_valid_query_char c = true)
  \/ (encode_char false c = [chr "%"; (digits_of c).1; (digits_of c).2]
      /\ in_whitelist hexadecimal_chars (digits_of c).1 = true /\ in_whitelist hexadecimal_chars (digits_of c).2 = true
      /\ ascii_to_int 16 (digits_of c).1 * 16 + ascii_to_int 16 (digits_of c).2 = c).
Proof.
  intros Hc. pose (P c := bool_decide (encode_char false c = [c] /\ is_valid_query_char c = true)
    || bool_decide (encode_char false c = [chr "%"; (digits_of c).1; (digits_of c).2]
      /\ in_whitelist hexadecimal_chars (digits_of c).1 = true /\ in_whitelist hexadecimal_chars (digits_of c).2 = true
      /\ ascii_to_int 16 (digits_of c).1 * 16 + ascii_to_int 16 (digits_of c).2 = c)).
  assert (HP : P c = true) by (apply (text_check P); [by vm_compute|done]).
  subst P. cbn beta in HP. apply orb_prop in HP as [HP|HP]; apply bool_decide_eq_true in HP; auto.
Qed.

(** The classes of the parser hold no byte that [isprint] could not be asked about. *)
Lemma valid_ascii c : is_valid_query_char c = true -> (c <? 128) = true.
Proof. unfold is_valid_query_char. intros [H _]%andb_prop. by apply isprint_ascii. Qed.

Lemma unprotected_ascii c : uri_unprotected_char c = true -> (c <? 128) = true.
Proof. unfold uri_unprotected_char. intros [H _]%andb_prop. by apply isprint_ascii. Qed.

Lemma path_ascii c : path_char c = true -> (c <? 128) = true.
Proof.
  unfold path_char. intros [[H| ->%Z.eqb_eq]%orb_prop| ->%Z.eqb_eq]%orb_prop; [by apply unprotected_ascii|done..].
Qed.

Lemma valid_nonzero c : is_valid_query_char c = true -> c <> 0.
Proof. intros H ->. done. Qed.

Abbreviation qends := (ends_exit q_fsm q_exit).

Lemma read_key_text k s l c1 l1 t r :
  s <> q_read_value -> plain k -> k <> [] ->
  qends q_read_key (QL (q_result l) (q_key l ++ k) (q_value l)) t c1 l1 r -> qends s l (encode k false ++ t) c1 l1 r.
Proof.
  intros Hs Hk. revert s l Hs. induction Hk as [|c k Hc Hk IH]; [done|]. intros s l Hs _ He.
  unfold encode in *. cbn [flat_map]. rewrite <- app_assoc.
  assert (Hgo : qends q_read_key (add_key l c) (flat_map (encode_char false) k ++ t) c1 l1 r).
  { destruct k as [|c' k]; [exact He|]. apply IH; [done..|]. cbn [q_result q_key q_value add_key].
    by rewrite <- app_assoc. }
  destruct (text_encoded_query c Hc) as [[-> Hv]|(-> & Ha & Hb & Hv)]; cbn [app].
  - eapply exit_take; [by apply valid_nonzero| |exact Hgo]. destruct s; [..|done]; cbn [body q_fsm q_body]; unfold classified; by rewrite (valid_ascii c Hv), Hv.
  - eapply exit_sub with (s' := q_read_key) (c1 := end_code (flat_map (encode_char false) k ++ t));
      [done|by destruct s| | |exact Hgo].
    + apply reads_behind. pose proof (percent_reads (q_key l) _ _ (flat_map (encode_char false) k ++ t) Ha Hb) as R.
      rewrite Hv in R. intros co ln col. destruct (R co ln col) as (ln' & col' & Hr). exists ln', col'.
      unfold encoded_key. by rewrite Hr.
    + destruct (flat_map (encode_char false) k ++ t) as [|x t']; [done|]. cbn [end_code]. by destruct (x =? 0).
Qed.

Lemma read_value_text v l c1 l1 t r :
  plain v -> qends q_read_value (QL (q_result l) (q_key l) (q_value l ++ v)) t c1 l1 r ->
  qends q_read_value l (encode v false ++ t) c1 l1 r.
Proof.
  intros Hk. revert l. induction Hk as [|c k Hc Hk IH]; intros l He.
  { rewrite app_nil_r in He. by destruct l. }
  unfold encode in *. cbn [flat_map]. rewrite <- app_assoc.
  assert (Hgo : qends q_read_value (add_value l c) (flat_map (encode_char false) k ++ t) c1 l1 r).
  { apply IH. cbn [q_result q_key q_value add_value]. by rewrite <- app_assoc. }
  destruct (text_encoded_query c Hc) as [[-> Hv]|(-> & Ha & Hb & Hv)]; cbn [app].
  - eapply exit_take; [by apply valid_nonzero| |exact Hgo]. cbn [body q_fsm q_body]; unfold classified; by rewrite (valid_ascii c Hv), Hv.
  - eapply exit_sub with (s' := q_read_value) (c1 := end_code (flat_map (encode_char false) k ++ t));
      [done|done| | |exact Hgo].
    + apply reads_behind. pose proof (percent_reads (q_value l) _ _ (flat_map (encode_char false) k ++ t) Ha Hb) as R.
      rewrite Hv in R. intros co ln col. destruct (R co ln col) as (ln' & col' & Hr). exists ln', col'.
      unfold encoded_value. by rewrite Hr.
    + destruct (flat_map (encode_char false) k ++ t) as [|x t']; [done|]. cbn [end_code]. by destruct (x =? 0).
Qed.

Lemma emplace_new k v q : k ∉ map fst q -> emplace k v q = q ++ [(k, v)].
Proof.
  induction q as [|[k' v'] q IH]; [done|]. cbn [map fst]. rewrite not_elem_of_cons. intros [Hne Hk].
  cbn [emplace fst]. rewrite bool_decide_eq_false_2 by congruence. by rewrite IH.
Qed.

(** Behind the query comes the fragment or the end. *)
Definition query_end (r : list Z) : Prop := r = [] \/ exists r', r = chr "#" :: r'.

Lemma query_end_exit l r :
  query_end r -> qends q_read_value l r (end_code r) (push l) r.
Proof.
  intros [-> | [r' ->]]; [by apply (exit_end q_fsm q_exit q_read_value l success)|].
  by apply (exit_trailing q_fsm q_exit q_read_value l _ _ success).
Qed.

Lemma query_text kv q acc r :
  query_end r -> query_ok (acc ++ kv :: q) ->
  qends q_init (QL acc [] []) (print_kvp kv ++ flat_map (fun kvp => chr "&" :: print_kvp kvp) q ++ r)
    (end_code r) (QL (acc ++ kv :: q) [] []) r.
Proof.
  intros Hr. revert kv acc. induction q as [|kv' q IH]; intros kv acc [Hnd Hok];
    pose proof Hnd as Hnd'; rewrite map_app in Hnd; cbn [map] in Hnd; rewrite NoDup_app in Hnd; destruct Hnd as (_ & Hnew & _);
    assert (kv.1 ∉ map fst acc) by (intros Hin; by apply (Hnew _ Hin), list_elem_of_here);
    pose proof Hok as Hok'; apply Forall_app in Hok as [_ Hok]; apply Forall_cons in Hok as [(Hne & Hk & Hv) _];
    unfold print_kvp at 1; rewrite <- !app_assoc;
    (apply read_key_text; [done..|]); (eapply exit_take; [done|reflexivity|]); (apply read_value_text; [done|]);
    cbn [flat_map app q_result q_key q_value].
  - replace (QL (acc ++ [kv]) [] []) with (push (QL acc kv.1 kv.2)); [by apply query_end_exit|].
    unfold push. cbn. rewrite emplace_new by done. by destruct kv.
  - eapply exit_take; [done|reflexivity|]. rewrite <- app_assoc.
    replace (push (QL acc kv.1 kv.2)) with (QL (acc ++ [kv]) [] []).
    2: { unfold push. cbn. rewrite emplace_new by done. by destruct kv. }
    replace (acc ++ kv :: kv' :: q) with ((acc ++ [kv]) ++ kv' :: q) in * by (by rewrite <- app_assoc).
    by apply IH.
Qed.

Lemma reads_query kv q r :
  query_end r -> ascii_text r -> query_ok (kv :: q) ->
  reads read_uri_query (tl (print_query (kv :: q)) ++ r) (end_code r) (Some (kv :: q)) r.
Proof.
  intros Hr Hra Hq. pose proof (query_text kv q [] r Hr Hq) as He.
  pose proof (ascii_tl _ (query_ascii _ Hq)) as Ha. cbn [print_query tl] in *. rewrite <- app_assoc in *.
  apply (exit_reads q_fsm q_exit (fun _ _ r => ascii_text r) (fun _ => 0%nat)) in He; [|rewrite app_assoc in *; by apply ascii_app].
  intros co ln col. destruct (He co ln col) as (ln' & col' & Hrun). exists ln', col'. unfold read_uri_query.
  rewrite Hrun. cbn [code]. by destruct Hr as [-> | [r' ->]].
Qed.

Lemma decode_plain k : plain k -> decode k = Some k.
Proof.
  intros Hk. rewrite decode_is_ref. f_equal. induction Hk as [|c k Hc Hk IH]; [done|].
  rewrite decode_ref_plain; [by rewrite IH|]. destruct (text_encoded c true Hc) as [[_ H]|[_ H]]; [done|].
  destruct (Z.eqb_spec c (chr "%")) as [->|]; done.
Qed.

Lemma builder_query_plain q x :
  query_ok (query x ++ q) -> builder_query q x = Some (set_query (query x ++ q) x).
Proof.
  revert x. induction q as [|[k v] q IH]; intros x [Hnd Hok]; cbn [builder_query].
  { rewrite app_nil_r. by destruct x. }
  pose proof Hok as Hok'. apply Forall_app in Hok' as [_ Hok']. apply Forall_cons in Hok' as [(_ & Hk & Hv) _]. cbn in Hk, Hv.
  rewrite (decode_plain k Hk), (decode_plain v Hv). cbn [mbind option_bind].
  pose proof Hnd as Hnd'. rewrite map_app in Hnd. cbn [map fst] in Hnd. rewrite NoDup_app in Hnd. destruct Hnd as (_ & Hnew & _).
  rewrite emplace_new by (intros Hin; by apply (Hnew _ Hin), list_elem_of_here).
  replace (query x ++ (k, v) :: q) with ((query x ++ [(k, v)]) ++ q) in * by (by rewrite <- app_assoc).
  rewrite IH by done. by destruct x.
Qed.

(** ** Runs of [read_uri] that end well *)

Abbreviation rl := (@rlocals uri).

(** The locals while nothing has gone wrong. *)
Definition live (w : list Z) (c : option nat) (p : Z) (x : uri) : rl := RL w c p x false None.

Definition fins (s : rstate) (l : rl) (t : list Z) (x : uri) : Prop :=
  exists l', ends_exit (r_fsm uri_builder) (r_exit uri_builder) s l t success l' []
    /\ thrown l' = false /\ failed l' = None /\ sink l' = x.

Lemma fins_take s l ch t s' l1 x :
  ch <> 0 -> r_body uri_builder s ch l = Take s' l1 -> fins s' l1 t x -> fins s l (ch :: t) x.
Proof. intros Hc Hb (l' & He & H). exists l'. split; [by eapply exit_take|done]. Qed.

Lemma fins_eps s l ch t s' l1 x :
  ch <> 0 -> r_body uri_builder s ch l = Eps s' l1 -> fins s' l1 (ch :: t) x -> fins s l (ch :: t) x.
Proof. intros Hc Hb (l' & He & H). exists l'. split; [by eapply exit_eps|done]. Qed.

Lemma fins_sub s l ch t f s' c1 l1 t1 x :
  ch <> 0 -> r_body uri_builder s ch l = Sub f s' -> reads (f l) (ch :: t) c1 l1 t1 -> accepted c1 = true ->
  fins s' l1 t1 x -> fins s l (ch :: t) x.
Proof. intros Hc Hb Hf Ha (l' & He & H). exists l'. split; [by eapply exit_sub|done]. Qed.

Lemma fins_end s l w c p x :
  r_kind s = term -> r_exit uri_builder s l = (success, live w c p x) -> fins s l [] x.
Proof. intros Hk He. eexists. split; [by apply (exit_end (r_fsm uri_builder) _ s l success)|done]. Qed.

Lemma unprotected_nonzero ch : uri_unprotected_char ch = true -> ch <> 0.
Proof. intros H ->. done. Qed.

(** The states that collect characters in [str]. *)
Lemma fins_chars s (P : Z -> bool) w W c p x t y :
  (forall ch l, P ch = true -> r_body uri_builder s ch l = Take s (add l ch)) -> P 0 = false ->
  Forall (fun c => P c = true) w ->
  fins s (live (W ++ w) c p x) t y -> fins s (live W c p x) (w ++ t) y.
Proof.
  intros Hs H0 Hw. revert W. induction Hw as [|ch w Hc Hw IH]; intros W H.
  { by rewrite app_nil_r in H. }
  cbn [app]. eapply fins_take; [intros ->; congruence|by apply Hs|]. apply IH. cbn. by rewrite <- app_assoc.
Qed.

Lemma next_char_taken s ch (l : rl) other :
  uri_unprotected_char ch = true -> read_next_char s ch l other = Take s (add l ch).
Proof. intros H. unfold read_next_char, classified. by rewrite (unprotected_ascii ch H), H. Qed.

Lemma unprotected_not x ch :
  in_whitelist (chars ":/?#[]@!$&'()*+,;=<>") x = true -> uri_unprotected_char ch = true -> (ch =? x) = false.
Proof.
  intros Hx Hc. destruct (Z.eqb_spec ch x) as [->|]; [|done]. unfold uri_unprotected_char in Hc.
  rewrite Hx, andb_false_r in Hc. done.
Qed.

(** *** Fragment and query *)

Lemma fins_fragment f c p x :
  plain f -> fins read_fragment (live [] c p x) (encode f false) (set_fragment f x).
Proof.
  intros Hf. rewrite <- (app_nil_r (encode f false)).
  apply fins_chars with (P := uri_unprotected_char); [|done|by apply encode_unprotected|].
  { intros ch l Hc. by apply next_char_taken. }
  cbn [app]. eapply (fins_end _ _ [] c p). { done. }
  cbn [r_exit uri_builder on_fragment str live clear_str]. unfold tell, builder_fragment. cbn [sink].
  by rewrite decode_encode.
Qed.

(** What is left of the URI behind the authority or the path. *)
Definition finish (q : query_map) (f : list Z) (x : uri) : uri := set_fragment f (set_query q x).

Lemma finish_id x : query x = [] -> fragment x = [] -> finish [] [] x = x.
Proof. destruct x. cbn. by intros -> ->. Qed.

(** A state that leaves for the fragment. *)
Lemma fins_to_fragment s l l1 f c p x :
  r_kind s = term -> l1 = live [] c p x -> r_exit uri_builder s l = (success, l1) ->
  r_body uri_builder s (chr "#") l = Take read_fragment l1 ->
  plain f -> fragment x = [] -> fins s l (print_fragment f) (set_fragment f x).
Proof.
  intros Hk -> He Hb Hf Hx. destruct f as [|ch f].
  - replace (set_fragment [] x) with x by (destruct x; cbn in *; by subst). by eapply fins_end.
  - eapply fins_take; [done|exact Hb|]. by apply fins_fragment.
Qed.

Lemma print_fragment_end f : query_end (print_fragment f).
Proof. destruct f; [by left|right; by eexists]. Qed.

Lemma end_code_accepted r : query_end r -> accepted (end_code r) = true.
Proof. by intros [-> | [r' ->]]. Qed.

Lemma fins_query kv q f c p x :
  query_ok (kv :: q) -> plain f -> query x = [] -> fragment x = [] ->
  fins start_query (live [] c p x) (tl (print_query (kv :: q)) ++ print_fragment f) (finish (kv :: q) f x).
Proof.
  intros Hq Hf Hqx Hfx.
  pose proof (reads_query kv q (print_fragment f) (print_fragment_end f) (fragment_ascii f Hf) Hq) as R.
  pose proof Hq as [_ Hk]. apply Forall_cons in Hk as [(Hne & _) _].
  assert (exists ch t, tl (print_query (kv :: q)) ++ print_fragment f = ch :: t /\ ch <> 0) as (ch & t & Ht & Hch).
  { cbn [print_query tl]. unfold print_kvp. pose proof Hq as [_ Hk]. apply Forall_cons in Hk as [(_ & Hk & _) _].
    destruct kv as [[|k0 k] v]; [done|]. destruct (encode_cons k0 k false) as (ch & t & Hc). cbn [fst]. pose proof (encode_unprotected _ Hk) as Hu.
    cbn [fst] in Hu. rewrite Hc in *. apply Forall_cons in Hu as [Hu _]. cbn [app]. eexists _, _. split; [reflexivity|]. by apply unprotected_nonzero. }
  rewrite Ht in *. eapply fins_sub with (f := query_call uri_builder) (s' := end_of_query) (l1 := live [] c p (set_query (kv :: q) x));
    [done|done| |by apply end_code_accepted, print_fragment_end|].
  - intros co ln col. destruct (R co ln col) as (ln' & col' & Hr). exists ln', col'. unfold query_call. rewrite Hr.
    cbn [mbind option_bind fst snd]. unfold tell. cbn [uri_builder on_query sink live].
    rewrite builder_query_plain by (rewrite Hqx; done). by rewrite Hqx.
  - unfold finish. destruct f as [|f0 f].
    + exists (live [] c p (set_query (kv :: q) x)). split; [|split_and!; [reflexivity..|cbn; by rewrite <- Hfx]].
      eapply exit_eps_unstable; [done|done|]. by apply (exit_end (r_fsm uri_builder) _ r_done _ success).
    + eapply fins_take; [done|done|]. by apply fins_fragment.
Qed.

(** From a state with transitions for both. *)
Lemma fins_rest s l c p x q f :
  r_kind s = term -> r_exit uri_builder s l = (success, live [] c p x) ->
  r_body uri_builder s (chr "#") l = Take read_fragment (live [] c p x) ->
  r_body uri_builder s (chr "?") l = Take start_query (live [] c p x) ->
  query_ok q -> plain f -> query x = [] -> fragment x = [] ->
  fins s l (print_query q ++ print_fragment f) (finish q f x).
Proof.
  intros Hk He Hfr Hqu Hq Hf Hqx Hfx. destruct q as [|kv q].
  - cbn [print_query app]. replace (finish [] f x) with (set_fragment f x).
    + by eapply fins_to_fragment.
    + unfold finish. f_equal. destruct x; cbn in *; by subst.
  - cbn [print_query]. rewrite <- app_comm_cons. eapply fins_take; [done|exact Hqu|].
    by apply (fins_query kv q f c p x).
Qed.

(** *** The path *)

Lemma fins_path pa W w c p x q f :
  plain pa -> W ++ w = encode pa true -> query_ok q -> plain f -> query x = [] -> fragment x = [] ->
  fins read_path (live W c p x) (w ++ print_query q ++ print_fragment f) (finish q f (set_path pa x)).
Proof.
  intros Hp Hw Hq Hf Hqx Hfx. pose proof (encode_path_chars pa Hp) as Hc. rewrite <- Hw, Forall_app in Hc.
  apply fins_chars with (P := path_char); [intros ch l H; cbn [r_body]; unfold classified; by rewrite (path_ascii ch H), H|done|by apply Hc|].
  rewrite Hw.
  assert (Hset : do_set_path uri_builder (live (encode pa true) c p x) = live [] c p (set_path pa x)).
  { unfold do_set_path, tell, clear_str. cbn [str live sink uri_builder on_path]. unfold builder_path. by rewrite decode_encode. }
  apply (fins_rest read_path _ c p); cbn [r_kind r_exit r_body]; try done.
  - by rewrite Hset.
  - change (path_char (chr "#")) with false. cbn. by rewrite Hset.
  - change (path_char (chr "?")) with false. cbn. by rewrite Hset.
Qed.

Definition print_path (pa : list Z) : list Z := match pa with [] => [] | _ => chr "/" :: encode pa true end.

(** *** Behind the authority *)

Lemma fins_end_of_authority pa c p x q f :
  plain pa -> query_ok q -> plain f -> path x = [] -> query x = [] -> fragment x = [] ->
  fins end_of_authority (live [] c p x) (print_path pa ++ print_query q ++ print_fragment f)
    (finish q f (set_path pa x)).
Proof.
  intros Hp Hq Hf Hpx Hqx Hfx. destruct pa as [|a pa].
  - replace (set_path [] x) with x by (destruct x; cbn in *; by subst). by apply (fins_rest end_of_authority _ c p).
  - cbn [print_path]. rewrite <- app_comm_cons. eapply fins_take; [done|done|]. by apply fins_path.
Qed.

(** The end of the authority, where a host or a port is complete. *)
Section Tail.
  Context (pa f : list Z) (q : query_map).
  Hypothesis (Hpa : plain pa) (Hq : query_ok q) (Hf : plain f).

Definition tail_text : list Z := print_path pa ++ print_query q ++ print_fragment f.

Definition tail_uri (x : uri) : uri := finish q f (set_path pa x).

Definition fresh (x : uri) : Prop := path x = [] /\ query x = [] /\ fragment x = [].

Lemma tail_cases :
  (tail_text = [] /\ pa = [] /\ q = [] /\ f = [])
  \/ (exists ch t, tail_text = ch :: t /\ in_whitelist (chars "/?#") ch = true).
Proof.
  unfold tail_text. destruct pa; [|right; by eexists _, _]. destruct q; [|right; by eexists _, _].
  destruct f; [by left|right; by eexists _, _].
Qed.

Lemma fins_tail s l c p x :
  r_kind s = term -> r_exit uri_builder s l = (success, live [] c p x) ->
  (forall ch, in_whitelist (chars "/?#") ch = true -> r_body uri_builder s ch l = Eps end_of_authority (live [] c p x)) ->
  fresh x -> fins s l tail_text (tail_uri x).
Proof using Hpa Hq Hf.
  intros Hk He Hb (Hpx & Hqx & Hfx). destruct tail_cases as [(-> & Hp0 & Hq0 & Hf0)|(ch & t & Ht & Hc)].
  - unfold tail_uri. rewrite Hp0, Hq0, Hf0. replace (finish [] [] (set_path [] x)) with x by (destruct x; cbn in *; by subst).
    by eapply fins_end.
  - pose proof (fins_end_of_authority pa c p x q f Hpa Hq Hf Hpx Hqx Hfx) as H. fold tail_text in H.
    rewrite Ht in *. eapply fins_eps; [intros ->; done|by apply Hb|exact H].
Qed.

(** *** Ports *)

Definition port_text (n : Z) : list Z := if negb (n =? 0) then chr ":" :: print_unsigned n else [].

Lemma delimiter_class (P : Z -> bool) ch :
  forallb P (chars "/?#") = true -> in_whitelist (chars "/?#") ch = true -> P ch = true.
Proof. intros HP Hc. rewrite forallb_forall in HP. apply HP, list_elem_of_In. by apply in_whitelist_elem. Qed.

Lemma port_digits ds v c x n :
  decimal ds -> 0 <= v -> value_onto 10 v ds = n -> n <= 65535 -> fresh x ->
  fins read_port (live [] c v x) (ds ++ tail_text) (tail_uri (set_port n x)).
Proof using Hpa Hq Hf.
  intros Hds. revert v. induction Hds as [|d ds Hd Hds IH]; intros v Hv Hn Hmax Hx.
  - cbn in Hn. subst v. apply (fins_tail read_port _ c n); [done..| |done]. intros ch Hc. cbn [r_body].
    pose proof (delimiter_class (fun ch => negb (in_whitelist decimal_chars ch)) ch eq_refl Hc) as Hd. apply negb_true_iff in Hd.
    by rewrite Hd, Hc.
  - destruct (dec_step 65535 v d ds Hv ltac:(lia)) as [Ha Hpos]; [by constructor|lia|].
    cbn [app]. eapply fins_take; [by apply (digit_nonzero 10 d is_base_10)| |].
    { cbn [r_body]. rewrite Hd. cbn [port_var live]. rewrite Ha. reflexivity. }
    by apply IH.
Qed.

Lemma printed_port n :
  1 <= n <= 65535 ->
  exists d ds, print_unsigned n = d :: ds /\ decimal (d :: ds) /\ value_onto 10 0 (d :: ds) = n.
Proof.
  intros Hn. destruct (printed_numeral n) as (H1 & H2 & H3 & H4); [lia|].
  unfold print_unsigned. destruct (rev (stack_digits 24 n)) as [|d ds]; [done|]. by exists d, ds.
Qed.

Lemma fins_start_port n c x :
  1 <= n <= 65535 -> fresh x ->
  fins start_port (live [] c 0 x) (print_unsigned n ++ tail_text) (tail_uri (set_port n x)).
Proof using Hpa Hq Hf.
  intros Hn Hx. destruct (printed_port n Hn) as (d & ds & -> & Hd & Hv).
  destruct (dec_step 65535 0 d ds ltac:(lia) ltac:(lia) Hd ltac:(lia)) as [Ha Hpos]. apply Forall_cons in Hd as [Hd Hds].
  cbn [app]. eapply fins_take; [by apply (digit_nonzero 10 d is_base_10)| |].
  { cbn [r_body]. rewrite Hd. cbn [port_var live]. rewrite Ha. reflexivity. }
  apply port_digits; [done..|lia|done].
Qed.

(** *** Hosts *)

Lemma port_unset x : port (authority x) = 0 -> set_port 0 x = x.
Proof. destruct x as [? ? [] ? ? ? ?]. cbn. by intros ->. Qed.

(** A host that is written without brackets. *)
Definition names (w : list Z) (h : host_type) : Prop :=
  w <> [] /\ raw w /\ forall x, builder_host w x = Some (set_host_type h x).

Lemma set_host_named w h c p x :
  names w h -> do_set_host uri_builder (live w c p x) = live [] c p (set_host_type h x).
Proof.
  intros (_ & _ & Hb). unfold do_set_host, tell, clear_str. cbn [str live sink uri_builder on_host]. by rewrite Hb.
Qed.

Lemma delimiter_next s ch (l : rl) other :
  in_whitelist (chars "/?#") ch = true -> read_next_char s ch l other = other.
Proof.
  intros Hc. unfold read_next_char, classified. rewrite (delimiter_class (fun ch => ch <? 128) ch eq_refl Hc).
  pose proof (delimiter_class (fun ch => negb (uri_unprotected_char ch)) ch eq_refl Hc) as Hu. apply negb_true_iff in Hu. rewrite Hu.
  pose proof (delimiter_class (fun ch => negb (ch =? chr "%")) ch eq_refl Hc) as Hp. apply negb_true_iff in Hp. by rewrite Hp.
Qed.

Lemma delimiter_not ch x :
  in_whitelist (chars "/?#") ch = true -> in_whitelist (chars "/?#") x = false -> (ch =? x) = false.
Proof. intros Hc Hx. destruct (Z.eqb_spec ch x) as [->|]; congruence. Qed.

Lemma fins_read_host w h c n x :
  names w h -> is_uint 16 n -> fresh x -> port (authority x) = 0 ->
  fins read_host (live w c 0 x) (port_text n ++ tail_text) (tail_uri (set_port n (set_host_type h x))).
Proof using Hpa Hq Hf.
  intros Hw Hn Hx Hport. unfold is_uint in Hn. unfold port_text. destruct (Z.eqb_spec n 0) as [->|Hn0]; cbn [negb app].
  - rewrite port_unset by done. apply (fins_tail read_host _ c 0); [done|cbn [r_exit]; by rewrite (set_host_named w h)| |done].
    intros ch Hc. cbn [r_body]. rewrite delimiter_next by done. rewrite (delimiter_not ch (chr ":")) by done.
    by rewrite Hc, (set_host_named w h).
  - eapply fins_take; [done|cbn [r_body]; unfold read_next_char; cbn; by rewrite (set_host_named w h)|].
    apply fins_start_port; [lia|done].
Qed.

Lemma set_host_and_port_named w h n x :
  names w h -> 1 <= n <= 65535 ->
  set_host_and_port uri_builder (live (w ++ chr ":" :: print_unsigned n) (Some (length w)) 0 x)
  = (success, live [] (Some (length w)) n (set_port n (set_host_type h x))).
Proof.
  intros (_ & _ & Hb) Hn. unfold set_host_and_port, substr, erase, behind_colon. cbn [str colon_position live].
  rewrite !(proj2 (Nat.leb_le _ _)) by (rewrite length_app; cbn; lia).
  assert (drop (S (length w)) (w ++ chr ":" :: print_unsigned n) = print_unsigned n) as ->.
  { rewrite drop_app_ge by lia. by replace (S (length w) - length w)%nat with 1%nat by lia. }
  destruct (print_read_integer 16 n) as [_ Hr]; [by unfold is_width; tauto|].
  destruct Hr as (ps & Hr & Hc & _); [unfold is_uint; lia|]. change (2 ^ 16 - 1) with 65535 in Hr. rewrite Hr, Hc.
  cbn [default bool_decide decide_rel decide]. rewrite bool_decide_eq_true_2 by done. rewrite take_app_length.
  unfold tell. cbn [uri_builder on_port on_host sink set_port_var clear_str]. by rewrite Hb.
Qed.

Lemma decimal_unprotected ds : decimal ds -> Forall (fun c => uri_unprotected_char c = true) ds.
Proof. intros H. eapply Forall_impl; [exact H|]. intros c Hc. by apply (class_check decimal_chars uri_unprotected_char). Qed.

Lemma fins_read_authority w h c n x :
  names w h -> is_uint 16 n -> fresh x -> port (authority x) = 0 ->
  fins read_authority (live w c 0 x) (port_text n ++ tail_text) (tail_uri (set_port n (set_host_type h x))).
Proof using Hpa Hq Hf.
  intros Hw Hn Hx Hport. unfold is_uint in Hn. unfold port_text. destruct (Z.eqb_spec n 0) as [->|Hn0]; cbn [negb app].
  - rewrite port_unset by done. apply (fins_tail read_authority _ c 0); [done|cbn [r_exit]; by rewrite (set_host_named w h)| |done].
    intros ch Hc. cbn [r_body]. rewrite delimiter_next by done. rewrite (delimiter_not ch (chr ":")), (delimiter_not ch (chr "@")) by done.
    by rewrite Hc, (set_host_named w h).
  - eapply fins_take; [done|done|]. destruct (printed_port n ltac:(lia)) as (d & ds & Ht & Hd & _).
    change (on_colon (live w c 0 x)) with (live (w ++ [chr ":"]) (Some (length w)) 0 x).
    apply fins_chars with (P := uri_unprotected_char);
      [intros ch l Hc; by apply next_char_taken|done|rewrite Ht; by apply decimal_unprotected|].
    rewrite <- app_assoc. cbn [app].
    apply (fins_tail read_host_or_port _ (Some (length w)) n); [done|cbn [r_exit]; by rewrite (set_host_and_port_named w h) by (done || lia)| |done].
    intros ch Hc. cbn [r_body]. rewrite delimiter_next by done. rewrite (delimiter_not ch (chr "@")) by done.
    rewrite Hc, (set_host_and_port_named w h) by (done || lia). done.
Qed.

(** An address in brackets, from the states that expect a host. *)
Lemma fins_brackets s addr c n x :
  s = start_authority \/ s = start_host ->
  is_ipv6 addr -> v6_embeds_v4 addr = false -> is_uint 16 n -> fresh x -> port (authority x) = 0 ->
  fins s (live [] c 0 x) (chr "[" :: v6_to_string addr ++ chr "]" :: port_text n ++ tail_text)
    (tail_uri (set_port n (set_host_type (HostIp addr) x))).
Proof using Hpa Hq Hf.
  intros Hs Ha He Hn Hx Hport. unfold is_uint in Hn.
  pose proof (printed_v6_reads addr (chr "]" :: port_text n ++ tail_text) Ha He ltac:(right; by eexists)) as R.
  eapply fins_sub with (s' := await_end_of_ipv6) (c1 := trailing_character)
    (l1 := live [] c 0 (set_host_type (HostIp addr) x)) (f := behind (ip_host uri_builder));
    [done|destruct Hs as [-> | ->]; reflexivity| |done|].
  { apply reads_behind. intros co ln col. destruct (R co ln col) as (ln' & col' & Hr). exists ln', col'.
    unfold ip_host. by rewrite Hr. }
  eapply fins_take; [done|done|]. unfold port_text. destruct (Z.eqb_spec n 0) as [->|Hn0]; cbn [negb app].
  - rewrite port_unset by done. apply (fins_tail end_of_ipv6_host _ c 0); [done..| |done].
    intros ch Hc. cbn [r_body]. by rewrite (delimiter_not ch (chr ":")).
  - eapply fins_take; [done|done|]. apply fins_start_port; [lia|done].
Qed.

(** *** Either kind of host *)

Definition host_text (h : host_type) : list Z :=
  match h with
  | HostIp addr => if v6_embeds_v4 addr then v6_to_string addr else [chr "["] ++ v6_to_string addr ++ [chr "]"]
  | HostName s => encode s false
  end.

Lemma decimal_raw ds : decimal ds -> raw ds.
Proof. intros H. eapply Forall_impl; [exact H|]. intros c Hc. by apply (class_check decimal_chars raw_char). Qed.

Lemma v4_raw a b c d :
  is_byte a -> is_byte b -> is_byte c -> is_byte d ->
  v4_to_string [a; b; c; d] <> [] /\ raw (v4_to_string [a; b; c; d]).
Proof.
  intros Ha Hb Hc Hd. destruct (octet_text a Ha) as (A & La & _). destruct (octet_text b Hb) as (B & _).
  destruct (octet_text c Hc) as (E & _). destruct (octet_text d Hd) as (D & _).
  apply decimal_raw in A, B, E, D. unfold v4_to_string. cbn [List.nth length seq Nat.sub flat_map]. split.
  - destruct (print_unsigned a); [cbn in La; lia|done].
  - revert A B E D. generalize (print_unsigned a), (print_unsigned b), (print_unsigned c), (print_unsigned d).
    intros wa wb wc wd A B E D. unfold raw. repeat first [apply Forall_app; split | apply Forall_cons; split]; try done; by constructor.
Qed.

Lemma host_cases h :
  host_ok h ->
  names (host_text h) h
  \/ exists a, h = HostIp a /\ is_ipv6 a /\ v6_embeds_v4 a = false
       /\ host_text h = chr "[" :: v6_to_string a ++ [chr "]"].
Proof.
  destruct h as [s|a]; cbn [host_ok host_text].
  - intros (Hne & Hr & c & Hc). left. rewrite encode_raw by done. split_and!; [done..|]. intros x.
    unfold builder_host. by rewrite Hc.
  - intros Ha. destruct (v6_embeds_v4 a) eqn:He; [left|right; by exists a].
    destruct (embeds_v4_bytes a Ha He) as (b0 & b1 & b2 & b3 & H0 & H1 & H2 & H3 & E & ->).
    unfold v6_to_string. rewrite He, E. destruct (v4_raw b0 b1 b2 b3) as [Hne Hr]; [done..|]. split_and!; [done..|].
    intros x. unfold builder_host. rewrite ipv4_roundtrip; [done|]. split; [done|]. by repeat constructor; apply H0 || apply H1 || apply H2 || apply H3.
Qed.

Lemma fins_start_host h c n x :
  host_ok h -> is_uint 16 n -> fresh x -> port (authority x) = 0 ->
  fins start_host (live [] c 0 x) (host_text h ++ port_text n ++ tail_text)
    (tail_uri (set_port n (set_host_type h x))).
Proof using Hpa Hq Hf.
  intros Hh Hn Hx Hport. destruct (host_cases h Hh) as [Hw|(a & -> & Ha & He & ->)].
  - pose proof Hw as (Hne & Hr & _). apply raw_unprotected in Hr. remember (host_text h) as w eqn:E. destruct w as [|ch w]; [done|].
    apply Forall_cons in Hr as [Hc Hr]. cbn [app]. eapply fins_take; [by apply unprotected_nonzero|by apply next_char_taken|].
    apply fins_chars with (P := uri_unprotected_char); [intros; by apply next_char_taken|done|done|]. cbn [str live app].
    by apply fins_read_host.
  - rewrite <- app_comm_cons, <- app_assoc. cbn [app]. apply fins_brackets; auto.
Qed.

Lemma fins_only_host h n x :
  host_ok h -> is_uint 16 n -> fresh x -> port (authority x) = 0 ->
  fins start_authority (live [] None 0 x) (host_text h ++ port_text n ++ tail_text)
    (tail_uri (set_port n (set_host_type h x))).
Proof using Hpa Hq Hf.
  intros Hh Hn Hx Hport. destruct (host_cases h Hh) as [Hw|(a & -> & Ha & He & ->)].
  - pose proof Hw as (Hne & Hr & _). apply raw_unprotected in Hr. remember (host_text h) as w eqn:E. destruct w as [|ch w]; [done|].
    apply Forall_cons in Hr as [Hc Hr]. cbn [app]. eapply fins_take; [by apply unprotected_nonzero| |].
    { cbn [r_body]. rewrite (unprotected_not (chr "/") ch) by done. by apply next_char_taken. }
    apply fins_chars with (P := uri_unprotected_char); [intros; by apply next_char_taken|done|done|]. cbn [str live app].
    by apply fins_read_authority.
  - rewrite <- app_comm_cons, <- app_assoc. cbn [app]. apply fins_brackets; auto.
Qed.

(** *** User information *)

Definition userinfo_text (u : option userinfo_type) : list Z :=
  match u with
  | Some u => encode (name u) false ++ match password u with Some pw => chr ":" :: encode pw false | None => [] end ++ [chr "@"]
  | None => []
  end.

Definition put_userinfo (u : option userinfo_type) (x : uri) : uri :=
  match u with Some u => set_userinfo (name u) (password u) x | None => x end.

(** The colon separates the name from the password. *)
Lemma set_userinfo_split n pw x :
  do_set_userinfo uri_builder (live (n ++ chr ":" :: pw) (Some (length n)) 0 x)
  = live [] (Some (length n)) 0 (set_userinfo n (Some pw) x).
Proof.
  unfold do_set_userinfo, substr, erase, behind_colon. cbn [colon_position live str].
  rewrite !(proj2 (Nat.leb_le _ _)) by (rewrite length_app; cbn; lia). rewrite take_app_length.
  rewrite drop_app_ge by lia. by replace (S (length n) - length n)%nat with 1%nat by lia.
Qed.

Lemma fins_at s n pw x t y :
  s = read_authority \/ s = read_host_or_port ->
  fins start_host (live [] (Some (length n)) 0 (set_userinfo n (Some pw) x)) t y ->
  fins s (live (n ++ chr ":" :: pw) (Some (length n)) 0 x) (chr "@" :: t) y.
Proof.
  intros Hs H. rewrite <- set_userinfo_split in H. eapply fins_take; [done| |exact H]. by destruct Hs as [-> | ->].
Qed.

Lemma fins_userinfo u x t y :
  userinfo_ok u -> u <> None ->
  (forall c, fins start_host (live [] c 0 (put_userinfo u x)) t y) ->
  fins start_authority (live [] None 0 x) (userinfo_text u ++ t) y.
Proof.
  intros Hu Hne Ht. destruct u as [[n [pw|]]|]; [..|done]; cbn [userinfo_ok userinfo_text name password] in *; cbn [put_userinfo name password] in Ht.
  - destruct Hu as [Hn Hpw]. rewrite !encode_raw by done. apply raw_unprotected in Hn, Hpw. rewrite <- !app_assoc. cbn [app].
    destruct n as [|ch n].
    + cbn [app]. eapply fins_take; [done|done|].
      change (on_colon (live [] None 0 x)) with (live [chr ":"] (Some (length ([] : list Z))) 0 x).
      apply fins_chars with (P := uri_unprotected_char); [intros; by apply next_char_taken|done|done|]. 
      apply (fins_at read_authority [] pw); [by left|]. apply Ht.
    + apply Forall_cons in Hn as [Hc Hn]. cbn [app]. eapply fins_take; [by apply unprotected_nonzero| |].
      { cbn [r_body]. rewrite (unprotected_not (chr "/") ch) by done. by apply next_char_taken. }
      apply fins_chars with (P := uri_unprotected_char); [intros; by apply next_char_taken|done|done|]. cbn [str live app].
      eapply fins_take; [done|done|].
      change (on_colon (live (ch :: n) None 0 x)) with (live ((ch :: n) ++ [chr ":"]) (Some (length (ch :: n))) 0 x).
      apply fins_chars with (P := uri_unprotected_char); [intros; by apply next_char_taken|done|done|].
      rewrite <- (app_assoc (ch :: n)). apply (fins_at read_host_or_port (ch :: n) pw); [by right|]. apply Ht.
  - destruct Hu as [Hn0 Hn]. rewrite encode_raw by done. apply raw_unprotected in Hn. cbn [app]. rewrite <- app_assoc. cbn [app].
    destruct n as [|ch n]; [done|]. apply Forall_cons in Hn as [Hc Hn]. cbn [app]. eapply fins_take; [by apply unprotected_nonzero| |].
    { cbn [r_body]. rewrite (unprotected_not (chr "/") ch) by done. by apply next_char_taken. }
    apply fins_chars with (P := uri_unprotected_char); [intros; by apply next_char_taken|done|done|]. cbn [str live app].
    eapply fins_take; [done|done|]. apply Ht.
Qed.

Lemma fins_authority a x :
  userinfo_ok (userinfo a) -> host_ok (host a) -> is_uint 16 (port a) ->
  fresh x -> port (authority x) = 0 -> userinfo (authority x) = None ->
  fins start_authority (live [] None 0 x) (print_authority a ++ tail_text) (tail_uri (set_authority a x)).
Proof using Hpa Hq Hf.
  intros Hu Hh Hn Hx Hport Hnone. destruct a as [u h n]. cbn [userinfo host port] in *.
  change (print_authority (Authority u h n)) with (userinfo_text u ++ host_text h ++ port_text n). rewrite <- !app_assoc.
  destruct u as [u|].
  - apply fins_userinfo; [done..|]. intros c. pose proof (fins_start_host h c n (put_userinfo (Some u) x) Hh Hn) as H.
    replace (set_authority (Authority (Some u) h n) x) with (set_port n (set_host_type h (put_userinfo (Some u) x))) by (by destruct u).
    by apply H.
  - cbn [userinfo_text app]. replace (set_authority (Authority None h n) x) with (set_port n (set_host_type h x)).
    + by apply fins_only_host.
    + unfold set_port, set_host_type, set_authority. cbn. by rewrite Hnone.
Qed.

End Tail.

(** ** The whole text *)

(** The first character of an encoded path that starts neither with a slash nor
    with a colon. *)
Lemma encoded_head c s :
  text_char c = true -> c <> chr ":" -> c <> chr "/" ->
  exists ch t, encode (c :: s) true = ch :: t /\ uri_unprotected_char ch = true.
Proof.
  intros Hc H1 H2. destruct (encode_cons c s true) as (ch & t & Ht). exists ch, t. split; [done|].
  pose (P c := (c =? chr ":") || (c =? chr "/") || uri_unprotected_char (hd 0 (encode_char true c))).
  assert (HP : P c = true) by (apply (text_check P); [by vm_compute|done]). subst P. cbn beta in HP.
  rewrite (proj2 (Z.eqb_neq _ _) H1), (proj2 (Z.eqb_neq _ _) H2) in HP. cbn [orb] in HP.
  unfold encode in Ht. cbn [flat_map] in Ht.
  destruct (encode_char true c) as [|y w]; [done|]. injection Ht as -> _. done.
Qed.

Lemma encode_slash s : encode (chr "/" :: s) true = chr "/" :: encode s true.
Proof. done. Qed.

Lemma fins_lone_path pa q f x :
  plain pa -> query_ok q -> plain f -> fresh x -> lone_path pa ->
  fins have_scheme (live [] None 0 x) (encode pa true ++ print_query q ++ print_fragment f) (finish q f (set_path pa x)).
Proof.
  intros Hp Hq Hf (Hpx & Hqx & Hfx) (Hne & Hcolon & Hslash). destruct pa as [|c pa]; [done|]. cbn [hd tl] in *.
  pose proof Hp as Hp'. apply Forall_cons in Hp' as [Hc Hpa].
  destruct (decide (c = chr "/")) as [->|Hns]; cycle 1.
  - destruct (encoded_head c pa Hc Hcolon Hns) as (ch & t & Ht & Hu). pose proof Ht as Ht'. rewrite Ht. cbn [app].
    eapply fins_take; [by apply unprotected_nonzero| |].
    { cbn [r_body]. rewrite (unprotected_not (chr "/") ch) by done. by apply next_char_taken. }
    by apply (fins_path (c :: pa) [ch] t).
  - specialize (Hslash eq_refl). rewrite encode_slash. cbn [app]. eapply fins_take; [done|done|].
    destruct (encode pa true ++ print_query q ++ print_fragment f) as [|ch t] eqn:Ht.
    + apply app_eq_nil in Ht as [Hnil Ht]. apply app_eq_nil in Ht as [Hq0 Hf0].
      assert (pa = []) as -> by (destruct pa as [|y pa]; [done|]; destruct (encode_cons y pa true) as (? & ? & E); congruence).
      assert (q = []) as -> by (by destruct q). assert (f = []) as -> by (by destruct f).
      replace (finish [] [] (set_path [chr "/"] x)) with (set_path [chr "/"] x) by (destruct x; cbn in *; by subst).
      by apply (fins_end disambiguate_path _ [] None 0).
    + assert (ch <> 0 /\ (ch =? chr "/") = false) as [H0 Hns].
      { destruct pa as [|y pa].
        - cbn [encode flat_map app] in Ht. destruct q; [|by injection Ht as <- _]. destruct f; [done|by injection Ht as <- _].
        - apply Forall_cons in Hpa as [Hy _]. cbn [hd] in Hslash. destruct (decide (y = chr ":")) as [->|Hyc].
          + cbn in Ht. injection Ht as <- _. done.
          + destruct (encoded_head y pa Hy Hyc Hslash) as (ch' & t' & Ht' & Hu). rewrite Ht' in Ht. injection Ht as <- _.
            split; [by apply unprotected_nonzero|by apply unprotected_not]. }
      eapply fins_eps; [done|cbn [r_body]; by rewrite Hns|]. rewrite <- Ht.
      by apply (fins_path (chr "/" :: pa) [chr "/"] (encode pa true)).
Qed.

Lemma host_ascii h : host_ok h -> ascii_text (host_text h).
Proof.
  intros Hh. destruct (host_cases h Hh) as [(_ & Hr & _)|(a & -> & _ & He & ->)]; [auto with ascii|].
  apply ascii_cons; [done|]. apply ascii_app; [by apply v6_ascii|auto with ascii].
Qed.

Lemma port_ascii n : is_uint 16 n -> ascii_text (port_text n).
Proof.
  unfold is_uint, port_text. intros Hn. destruct (Z.eqb_spec n 0) as [->|]; cbn [negb]; [auto with ascii|].
  destruct (printed_port n ltac:(lia)) as (d & ds & -> & Hd & _). apply ascii_cons; [done|]. by apply raw_ascii, decimal_raw.
Qed.

Lemma authority_ascii a :
  userinfo_ok (userinfo a) /\ host_ok (host a) /\ is_uint 16 (port a) -> ascii_text (print_authority a).
Proof.
  intros (Hu & Hh & Hn). destruct a as [u h n].
  change (print_authority (Authority u h n)) with (userinfo_text u ++ host_text h ++ port_text n).
  apply ascii_app; [|apply ascii_app; [by apply host_ascii|by apply port_ascii]].
  destruct u as [[m [pw|]]|]; cbn [userinfo userinfo_ok userinfo_text name password] in *; [..|auto with ascii];
    destruct Hu as [H1 H2]; rewrite !encode_raw by done; cbn [app]; auto with ascii.
Qed.

Definition uri_text (x : uri) : list Z :=
  encode (scheme x) false ++ chr ":" ::
  (if authority_empty (authority x) then encode (path x) true
   else chars "//" ++ print_authority (authority x) ++ print_path (path x))
  ++ print_query (query x) ++ print_fragment (fragment x).

Lemma assembled_text x u : assemble_str x = Some u -> text u = uri_text x.
Proof.
  unfold assemble_str, uri_text. destruct (authority_empty (authority x)).
  - destruct (path x) as [|c p]; [done|]. intros Hu. apply (inj Some) in Hu as <-. cbn [text].
    generalize (encode (c :: p) true) as e. intros e. by rewrite <- !app_assoc.
  - intros Hu. apply (inj Some) in Hu as <-. cbn [text]. rewrite <- !app_assoc. by destruct (path x).
Qed.

(** The URI before [assemble_str]. *)
Definition parts (x : uri) : uri := Impl [] (scheme x) (authority x) (path x) (query x) (fragment x) 0.

Lemma host_not_empty a : host_ok (host a) -> authority_empty a = false.
Proof. unfold authority_empty. destruct (host a) as [[|]|]; [|done..]. by intros [H _]. Qed.

Lemma fins_uri x : uri_ok x -> fins r_init (live [] None 0 default_instance) (uri_text x) (parts x).
Proof.
  intros (Hs & Hp & Hq & Hf & Ha). unfold uri_text. rewrite encode_raw by done. apply raw_unprotected in Hs.
  set (r := (if authority_empty (authority x) then encode (path x) true
    else chars "//" ++ print_authority (authority x) ++ print_path (path x)) ++ print_query (query x) ++ print_fragment (fragment x)).
  assert (Hr : fins have_scheme (live [] None 0 (set_scheme (scheme x) default_instance)) r (parts x)).
  { subst r. destruct Ha as [[Ha Hlone]|(Hu & Hh & Hn)].
    - rewrite Ha. cbn [authority_empty host]. unfold parts. rewrite Ha. by apply fins_lone_path.
    - rewrite host_not_empty by done. cbn [chars list_ascii_of_string map app]. eapply fins_take; [done|done|]. eapply fins_take; [done|done|].
      rewrite <- !app_assoc.
      by apply (fins_authority (path x) (fragment x) (query x) Hp Hq Hf (authority x)). }
  assert (Hread : forall W w, W ++ w = scheme x -> Forall (fun c => uri_unprotected_char c = true) w ->
    fins read_scheme (live W None 0 default_instance) (w ++ chr ":" :: r) (parts x)).
  { intros W w HW Hw. apply fins_chars with (P := uri_unprotected_char); [intros; by apply next_char_taken|done|done|].
    rewrite HW. eapply fins_take; [done|done|]. exact Hr. }
  specialize (Hread [] (scheme x) eq_refl Hs).
  destruct (scheme x) as [|ch s] eqn:E; cbn [app] in *; (eapply fins_eps; [|done|exact Hread]); [done|].
  apply Forall_cons in Hs as [Hs _]. by apply unprotected_nonzero.
Qed.

Lemma uri_ascii x : uri_ok x -> ascii_text (uri_text x).
Proof.
  intros (Hs & Hp & Hq & Hf & Ha). unfold uri_text. rewrite encode_raw by done. apply ascii_app; [auto with ascii|].
  apply ascii_cons; [done|]. apply ascii_app; [|apply ascii_app; [by apply query_ascii|by apply fragment_ascii]].
  destruct Ha as [[Ha _]|Ha]; [rewrite Ha; cbn [authority_empty host]; auto with ascii|].
  case_match; [auto with ascii|]. apply ascii_app; [by repeat constructor|].
  apply ascii_app; [by apply authority_ascii|]. unfold print_path. destruct (path x); auto with ascii.
Qed.

Lemma no_bracket x : uri_ok x -> consume (chr "<") (init_state (uri_text x)) = Some (false, init_state (uri_text x)).
Proof.
  intros (Hs & _). unfold uri_text. rewrite encode_raw by done. unfold consume, consume_strict, skip_whitespaces.
  destruct (scheme x) as [|c s]; cbn [app init_state rest skip_blanks].
  - done.
  - apply Forall_cons in Hs as [Hc _].
    pose proof (raw_check (fun c => negb (isspace c) && negb (c =? chr "<")) c eq_refl Hc) as H.
    apply andb_prop in H as [H1 H2]. apply negb_true_iff in H1, H2. rewrite H1. cbn [current rest]. by rewrite H2.
Qed.

(** C28. A URI is read back from the text that [assemble_str] prints for it, with
    scheme, user name and password, host or IP address of either version, port,
    path, query and fragment.  The path, the query and the fragment consist of
    printable ASCII characters other than percent signs and angle brackets; they may contain
    reserved characters, which are written in percent encoding.  Scheme, user name,
    password and host name contain only characters that need no encoding, since
    the parser does not decode them.  The keys of the query are not empty and
    different from each other; a host name is not empty and does not read as an IPv4
    address; there is a user name or a password if there is user information; the
    port fits into 16 bits.  Without an authority, the path is not empty and starts
    with neither a colon nor two slashes. *)
Theorem uri_roundtrip x u :
  uri_ok x -> assemble_str x = Some u -> make_uri (text u) = Some (inr u).
Proof.
  intros Hx Hu. rewrite (assembled_text x u Hu). destruct (fins_uri x Hx) as (l & He & Ht & Hf & Hsink).
  pose proof (uri_ascii x Hx) as Hascii.
  pose proof (read_uri_fsm_ok (uri_text x) Hascii uri_builder has_host has_path) as Hok.
  apply (exit_reads _ _ (r_inv (uri_text x) has_host has_path) r_rank) in He; [|split_and!; [done..|by left]].
  destruct (He success 1 1) as (ln & col & Hr).
  unfold make_uri, parse_ps. rewrite no_bracket by done. unfold read_uri. change (RL [] None 0 default_instance false None) with (live [] None 0 default_instance).
  unfold init_state. rewrite Hr, Ht, Hf, Hsink. cbn [mbind option_bind fst snd code accepted pec_value Z.leb].
  assert (make (parts x) = Some u) as ->.
  { rewrite <- Hu. unfold make, assemble_str, parts. cbn. done. }
  done.
Qed.

Definition demo_uri : uri :=
  Impl [] (chars "https") (Authority (Some (Userinfo (chars "me") (Some (chars "secret")))) (HostIp (v6_make [0x2001; 0xdb8] [1])) 8080)
    (chars "a b/c:d") [(chars "q&a", chars "x=y"); (chars "z", [])] (chars "top!") 0.

Lemma uri_roundtrip_witness :
  exists u, assemble_str demo_uri = Some u /\ make_uri (text u) = Some (inr u)
    /\ text u = chars "https://me:secret@[2001:db8::1]:8080/a%20b/c:d?q%26a=x%3Dy&z=#top%21".
Proof.
  eexists. split; [vm_compute; reflexivity|]. split; [|vm_compute; reflexivity]. apply (uri_roundtrip demo_uri).
  - repeat split; try (apply (bool_decide_eq_true_1 _); vm_compute; reflexivity). right. repeat split;
      try (apply (bool_decide_eq_true_1 _); vm_compute; reflexivity).
  - vm_compute. reflexivity.
Defined.

(** ** Where reading back fails *)

(** A query is decoded twice, by the parser and by the builder. *)
Lemma query_decoded_twice :
  exists u, make_uri (chars "http://host?a=%2541") = Some (inr u) /\ query u = [(chars "a", chars "A")].
Proof. eexists. split; vm_compute; reflexivity. Qed.

(** A user name is encoded by [assemble_str], but never decoded. *)
Lemma userinfo_not_decoded :
  exists u v, make_uri (chars "http://host/x") = Some (inr u) /\ with_userinfo (chars "a b") None u = Some (Some v)
    /\ exists w, make_uri (text v) = Some (inr w) /\ userinfo (authority w) = Some (Userinfo (chars "a%20b") None).
Proof. eexists _, _. split; [vm_compute; reflexivity|]. split; [vm_compute; reflexivity|]. eexists. split; vm_compute; reflexivity. Qed.

(** Angle brackets are supported by [parse], but it never reports success then. *)
Lemma brackets_refused : make_uri (chars "<http://host/x>") = Some (inl trailing_character).
Proof. vm_compute. reflexivity. Qed.

(** [path_query_fragment] appends the slash that it should put in front. *)
Lemma slash_at_the_end :
  exists u, make_uri (chars "http://host?a=b") = Some (inr u) /\ path_query_fragment u = chars "?a=b/".
Proof. eexists. split; vm_compute; reflexivity. Qed.

(** [authority_only] does not set the offset of the path. *)
Lemma authority_only_offset :
  exists u v, make_uri (chars "http://host/x") = Some (inr u) /\ authority_only u = Some v
    /\ path_query_fragment v = chars "http://host/".
Proof. eexists _, _. split; [vm_compute; reflexivity|]. split; vm_compute; reflexivity. Qed.

End UriRoundtrip.
