(* ===== verification/Http.v ===== *)
(** HTTP messages of libcaf_net: [net/http/v1.cpp], [header.{hpp,cpp}],
    [request_header.cpp], [response_header.cpp], [method.cpp], [status.cpp], with
    the functions of [caf/string_algorithms.cpp] and [config_value.cpp] they use.

    Texts are lists of character codes.  The string views of a header point into
    its buffer [raw_]; here they are the texts themselves.  An outer [None] stands
    for undefined behaviour and failed assertions in code that is called. *)
From Stdlib Require Import Strings.Ascii Strings.String Floats.SpecFloat.
From S2P Require Import Prelude.
From S2P Require Import Fsm.
From S2P Require Import ReadInteger.
From S2P Require Import ReadNumber.
From S2P Require Import Printer.
From S2P Require Import Uri.
#[local] Open Scope Z_scope.
#[local] Open Scope caf_scope.

Import Fsm ReadInteger Printer.

Module Http.

(** ** String algorithms *)

Fixpoint starts_with (str pre : list Z) {struct pre} : bool :=
  match pre, str with
  | [], _ => true
  | c :: pre', d :: str' => (c =? d) && starts_with str' pre'
  | _ :: _, [] => false
  end.

(** [std::search] and [find]: where [sep] occurs first. *)
Fixpoint search (str sep : list Z) : option nat :=
  if starts_with str sep then Some O
  else match str with [] => None | _ :: str' => S <$> search str' sep end.

Definition split_by (str sep : list Z) : list Z * list Z :=
  match search str sep with
  | Some i => (take i str, drop (i + length sep) str)
  | None => (str, [])
  end.

Fixpoint trim_front (str : list Z) : list Z :=
  match str with c :: str' => if isspace c then trim_front str' else str | [] => [] end.

(** Before it trims, the code asks [isspace] about plain characters; the model
    takes the answer of the C locale for every byte. *)
Definition trim (str : list Z) : list Z :=
  if existsb (fun c => negb (isspace c)) str then rev (trim_front (rev (trim_front str))) else [].

(** [tolower] of the C locale. *)
Definition tolower (c : Z) : Z := if (65 <=? c) && (c <=? 90) then c + 32 else c.

Fixpoint icase_equal (x y : list Z) : bool :=
  match x, y with
  | [], [] => true
  | a :: x', b :: y' => (tolower a =? tolower b) && icase_equal x' y'
  | _, _ => false
  end.

(** ** Conversions of [config_value] *)

(** A whole [double] as an integer. *)
Definition whole (x : ReadNumber.double) : option Z :=
  match x with
  | S754_zero _ => Some 0
  | S754_finite s m e =>
      let sign v := if s then - v else v in
      if 0 <=? e then Some (sign (Z.pos m * 2 ^ e))
      else if Z.pos m mod 2 ^ (- e) =? 0 then Some (sign (Z.pos m / 2 ^ (- e)))
      else None
  | _ => None
  end.

(** [to_integer] of a real: the limit [limits::max()] is rounded to [2 ^ 63] as a
    [double], so that a cast of [2 ^ 63] itself, which is undefined, may happen. *)
Definition real_to_integer (x : ReadNumber.double) : option (option Z) :=
  match whole x with
  | Some z =>
      if (z <=? 2 ^ 63) && (- 2 ^ 63 <=? z) then if z <? 2 ^ 63 then Some (Some z) else None
      else Some None
  | None => Some None
  end.

(** [to_integer] of a string; an overflow in the parser is undefined. *)
Definition to_integer (x : list Z) : option (option Z) :=
  match read_signed_integer (- 2 ^ 63) (2 ^ 63 - 1) (init_state x) with
  | None => None
  | Some (ps, v) =>
      if bool_decide (code ps = success) then Some v
      else
        match ReadNumber.read_floating_point None false (init_state x) with
        | None => None
        | Some (ps, v) =>
            match v with
            | Some (ReadNumber.Real d) => if bool_decide (code ps = success) then real_to_integer d else Some None
            | Some ReadNumber.Overflowed => None
            | None => Some None
            end
        end
  end.

(** [get_as<T>] for an unsigned type of [w] bits, with [bounds_checker]. *)
Definition get_as_unsigned (w : Z) (x : list Z) : option (option Z) :=
  match to_integer x with
  | None => None
  | Some (Some v) => Some (if (0 <=? v) && (uwrap w v =? v) then Some (uwrap w v) else None)
  | Some None => Some None
  end.

(** ** Methods and status codes *)

Inductive method := get | head | post | put | del | connect | options | trace.

#[export] Instance method_eq_dec : EqDecision method.
Proof. solve_decision. Defined.

Definition to_rfc_string (x : method) : list Z :=
  match x with
  | get => chars "GET" | head => chars "HEAD" | post => chars "POST" | put => chars "PUT"
  | del => chars "DELETE" | connect => chars "CONNECT" | options => chars "OPTIONS" | trace => chars "TRACE"
  end.

Inductive status :=
  | continue_request
  | switching_protocols
  | status_ok
  | created
  | status_accepted
  | non_authoritative_information
  | no_content
  | reset_content
  | partial_content
  | multiple_choices
  | moved_permanently
  | status_found
  | see_other
  | not_modified
  | use_proxy
  | temporary_redirect
  | bad_request
  | unauthorized
  | payment_required
  | forbidden
  | not_found
  | method_not_allowed
  | not_acceptable
  | proxy_authentication_required
  | request_timeout
  | conflict
  | gone
  | length_required
  | precondition_failed
  | payload_too_large
  | uri_too_long
  | unsupported_media_type
  | range_not_satisfiable
  | expectation_failed
  | upgrade_required
  | precondition_required
  | too_many_requests
  | request_header_fields_too_large
  | internal_server_error
  | not_implemented
  | bad_gateway
  | service_unavailable
  | gateway_timeout
  | http_version_not_supported
  | network_authentication_required.

Definition status_value (x : status) : Z :=
  match x with
  | continue_request => 100
  | switching_protocols => 101
  | status_ok => 200
  | created => 201
  | status_accepted => 202
  | non_authoritative_information => 203
  | no_content => 204
  | reset_content => 205
  | partial_content => 206
  | multiple_choices => 300
  | moved_permanently => 301
  | status_found => 302
  | see_other => 303
  | not_modified => 304
  | use_proxy => 305
  | temporary_redirect => 307
  | bad_request => 400
  | unauthorized => 401
  | payment_required => 402
  | forbidden => 403
  | not_found => 404
  | method_not_allowed => 405
  | not_acceptable => 406
  | proxy_authentication_required => 407
  | request_timeout => 408
  | conflict => 409
  | gone => 410
  | length_required => 411
  | precondition_failed => 412
  | payload_too_large => 413
  | uri_too_long => 414
  | unsupported_media_type => 415
  | range_not_satisfiable => 416
  | expectation_failed => 417
  | upgrade_required => 426
  | precondition_required => 428
  | too_many_requests => 429
  | request_header_fields_too_large => 431
  | internal_server_error => 500
  | not_implemented => 501
  | bad_gateway => 502
  | service_unavailable => 503
  | gateway_timeout => 504
  | http_version_not_supported => 505
  | network_authentication_required => 511
  end.

Definition phrase (code : status) : list Z :=
  match code with
  | continue_request => chars "Continue"
  | switching_protocols => chars "Switching Protocols"
  | status_ok => chars "OK"
  | created => chars "Created"
  | status_accepted => chars "Accepted"
  | non_authoritative_information => chars "Non-Authoritative Information"
  | no_content => chars "No Content"
  | reset_content => chars "Reset Content"
  | partial_content => chars "Partial Content"
  | multiple_choices => chars "Multiple Choices"
  | moved_permanently => chars "Moved Permanently"
  | status_found => chars "Found"
  | see_other => chars "See Other"
  | not_modified => chars "Not Modified"
  | use_proxy => chars "Use Proxy"
  | temporary_redirect => chars "Temporary Redirect"
  | bad_request => chars "Bad Request"
  | unauthorized => chars "Unauthorized"
  | payment_required => chars "Payment Required"
  | forbidden => chars "Forbidden"
  | not_found => chars "Not Found"
  | method_not_allowed => chars "Method Not Allowed"
  | not_acceptable => chars "Not Acceptable"
  | proxy_authentication_required => chars "Proxy Authentication Required"
  | request_timeout => chars "Request Timeout"
  | conflict => chars "Conflict"
  | gone => chars "Gone"
  | length_required => chars "Length Required"
  | precondition_failed => chars "Precondition Failed"
  | payload_too_large => chars "Payload Too Large"
  | uri_too_long => chars "URI Too Long"
  | unsupported_media_type => chars "Unsupported Media Type"
  | range_not_satisfiable => chars "Range Not Satisfiable"
  | expectation_failed => chars "Expectation Failed"
  | upgrade_required => chars "Upgrade Required"
  | precondition_required => chars "Precondition Required"
  | too_many_requests => chars "Too Many Requests"
  | request_header_fields_too_large => chars "Request Header Fields Too Large"
  | internal_server_error => chars "Internal Server Error"
  | not_implemented => chars "Not Implemented"
  | bad_gateway => chars "Bad Gateway"
  | service_unavailable => chars "Service Unavailable"
  | gateway_timeout => chars "Gateway Timeout"
  | http_version_not_supported => chars "HTTP Version Not Supported"
  | network_authentication_required => chars "Network Authentication Required"
  end.
#[export] Instance status_eq_dec : EqDecision status.
Proof. solve_decision. Defined.

(** ** Reading and writing of messages: [v1.cpp] *)

Definition crlf : list Z := [13; 10].

(** The header, empty if it is not complete, and the remainder. *)
Definition split_header (bytes : list Z) : list Z * list Z :=
  match search bytes (crlf ++ crlf) with
  | None => ([], bytes)
  | Some i => (take (i + 4) bytes, drop (i + 4) bytes)
  end.

Inductive chunk_error := incomplete | too_long | extension | not_a_number | overflow.

(** [isxdigit] is the class of hexadecimal digits. *)
Definition parse_chunk (input : list Z) : chunk_error + (Z * list Z) :=
  let '(chunk, remainder) := split_by input crlf in
  if (length chunk =? length input)%nat then
    if 10 <=? zlen input then inl too_long else inl incomplete
  else if existsb (fun c => c =? chr ";") chunk then inl extension
  else if negb (forallb (in_whitelist hexadecimal_chars) chunk) then inl not_a_number
  else if 8 <? zlen chunk then inl overflow
  else
    let chunk_size := fold_left (fun a c => uwrap 64 (a * 16 + ascii_to_int 16 c)) chunk 0 in
    inr (chunk_size, drop (length input - length remainder) input).

Definition field_line (kv : list Z * list Z) : list Z := kv.1 ++ chars ": " ++ kv.2 ++ crlf.

Definition begin_response_header (code : status) : list Z :=
  chars "HTTP/1.1 " ++ print_unsigned (status_value code) ++ chars " " ++ phrase code ++ crlf.

Definition write_response_header (code : status) (fields : list (list Z * list Z)) : list Z :=
  begin_response_header code ++ flat_map field_line fields ++ crlf.

Definition begin_request_header (m : method) (path : list Z) : list Z :=
  to_rfc_string m ++ chars " " ++ path ++ chars " HTTP/1.1" ++ crlf.

Definition add_header_field (key val : list Z) : list Z := field_line (key, val).

Definition end_header : list Z := crlf.

(** The two overloads of [write_response]. *)
Definition write_response_fields (code : status) (content_type content : list Z)
    (fields : list (list Z * list Z)) : list Z :=
  begin_response_header code
    ++ field_line (chars "Content-Type", content_type)
    ++ field_line (chars "Content-Length", print_unsigned (zlen content))
    ++ flat_map field_line fields ++ crlf ++ content.

Definition write_response (code : status) (content_type content : list Z) : list Z :=
  write_response_fields code content_type content [] ++ content.

(** ** Headers *)

Definition fields_map : Type := list (list Z * list Z).

(** [find_by_key_icase] and [field]. *)
Fixpoint find_by_key_icase (key : list Z) (fields : fields_map) : option (list Z) :=
  match fields with
  | [] => None
  | (k, v) :: fields' => if icase_equal k key then Some v else find_by_key_icase key fields'
  end.

Definition has_field (key : list Z) (fields : fields_map) : bool :=
  bool_decide (find_by_key_icase key fields <> None).

Definition field (key : list Z) (fields : fields_map) : list Z :=
  default [] (find_by_key_icase key fields).

Definition chunked_transfer_encoding (fields : fields_map) : bool :=
  match search (field (chars "Transfer-Encoding") fields) (chars "chunked") with Some _ => true | None => false end.

(** [field_as<size_t>("Content-Length")]. *)
Definition content_length (fields : fields_map) : option (option Z) :=
  match find_by_key_icase (chars "Content-Length") fields with
  | Some v => get_as_unsigned 64 v
  | None => Some None
  end.

(** The callback of [parse_fields]: a line with a key. *)
Definition parse_field (line : list Z) : option (list Z * list Z) :=
  match search line [chr ":"] with
  | Some n =>
      let key := trim (take n line) in
      let val := trim (drop (n + 1) line) in
      if bool_decide (key = []) then None else Some (key, val)
  | None => None
  end.

(** [process_lines] with that callback; the fields are appended to [acc]. *)
Fixpoint process_lines (fuel : nat) (acc : fields_map) (input : list Z) : option (fields_map * option (list Z)) :=
  match fuel with
  | O => None
  | S n =>
      match search input crlf with
      | None => Some (acc, None)
      | Some O => Some (acc, Some (drop 2 input))
      | Some pos =>
          match parse_field (take pos input) with
          | None => Some (acc, None)
          | Some kv => process_lines n (acc ++ [kv]) (drop (pos + 2) input)
          end
      end
  end.

(** [parse_fields]: the new fields and the unprocessed input. *)
Definition parse_fields (fields : fields_map) (data : list Z) : option (fields_map * option (list Z)) :=
  match process_lines (S (length data)) fields data with
  | Some (f, Some r) => Some (f, Some r)
  | Some (_, None) => Some ([], None)
  | None => None
  end.

(** ** Request headers *)

Record request_header := RequestHeader {
  req_raw : list Z;
  req_fields : fields_map;
  req_method : method;
  req_uri : Uri.uri;
  req_version : list Z;
}.

Definition req_clear (h : request_header) : request_header :=
  RequestHeader [] [] (req_method h) (req_uri h) [].

Definition parse_method (s : list Z) : option method :=
  if icase_equal s (chars "get") then Some get
  else if icase_equal s (chars "head") then Some head
  else if icase_equal s (chars "post") then Some post
  else if icase_equal s (chars "put") then Some put
  else if icase_equal s (chars "delete") then Some del
  else if icase_equal s (chars "connect") then Some connect
  else if icase_equal s (chars "options") then Some options
  else if icase_equal s (chars "trace") then Some trace
  else None.

Definition value_of (r : option (pec + Uri.uri)) : option (option Uri.uri) :=
  match r with Some (inr u) => Some (Some u) | Some (inl _) => Some None | None => None end.

Definition parse_request_target (m : method) (target : list Z) : option (option Uri.uri) :=
  match target with
  | [] => Some None
  | c :: _ =>
      if bool_decide (m = connect) then
        match value_of (Uri.make_uri (chars "nil://" ++ target)) with
        | Some (Some u) => Some (if Uri.authority_empty (Uri.authority u) then None else Some u)
        | r => r
        end
      else if c =? chr "/" then value_of (Uri.make_uri (chars "nil:" ++ target))
      else if starts_with target (chars "http") then value_of (Uri.make_uri target)
      else if bool_decide (m = options) && bool_decide (target = chars "*") then value_of (Uri.make_uri (chars "nil:/"))
      else Some None
  end.

(** [request_header::parse]: the status, its message and the header. *)
Definition req_parse (h : request_header) (raw : list Z) : option (status * list Z * request_header) :=
  let h := req_clear h in
  match raw with
  | [] => Some (bad_request, chars "Empty header.", h)
  | _ =>
      let '(first_line, remainder) := split_by raw crlf in
      let '(method_str, first_line_remainder) := split_by first_line (chars " ") in
      match parse_method method_str with
      | None => Some (bad_request, chars "Invalid HTTP method.", h)
      | Some m =>
          let '(uri_str, version) := split_by first_line_remainder (chars " ") in
          match parse_request_target m uri_str with
          | None => None
          | Some None =>
              Some (bad_request, chars "Malformed Request-URI.", RequestHeader [] [] m (req_uri h) [])
          | Some (Some u) =>
              match parse_fields [] remainder with
              | None => None
              | Some (f, Some _) => Some (status_ok, chars "OK", RequestHeader raw f m u version)
              | Some (_, None) => Some (bad_request, chars "Malformed header fields.", RequestHeader [] [] m u [])
              end
          end
      end
  end.

(** ** Response headers *)

Record response_header := ResponseHeader {
  res_raw : list Z;
  res_fields : fields_map;
  res_version : list Z;
  res_status : Z;
  res_status_text : list Z;
}.

Definition res_clear (h : response_header) : response_header :=
  ResponseHeader [] [] [] (res_status h) [].

Definition validate_http_version (str : list Z) : bool :=
  starts_with str (chars "HTTP/")
    && (let v := drop 5 str in
        bool_decide (v = chars "1") || bool_decide (v = chars "1.0") || bool_decide (v = chars "1.1")).

(** [response_header::parse]. *)
Definition res_parse (h : response_header) (raw : list Z) : option (status * list Z * response_header) :=
  let h := res_clear h in
  match raw with
  | [] => Some (bad_request, chars "Empty header.", h)
  | _ =>
      let '(first_line, remainder) := split_by raw crlf in
      let '(version_str, first_line_remainder) := split_by first_line (chars " ") in
      let '(status_str, status_text) := split_by first_line_remainder (chars " ") in
      if negb (validate_http_version version_str) then Some (bad_request, chars "Invalid HTTP version.", h)
      else
        match get_as_unsigned 16 status_str with
        | None => None
        | Some None =>
            Some (bad_request, chars "Invalid HTTP status.", ResponseHeader [] [] version_str (res_status h) [])
        | Some (Some st) =>
            let text := trim status_text in
            if bool_decide (text = []) then
              Some (bad_request, chars "Invalid HTTP status text.", ResponseHeader [] [] version_str st [])
            else
              match parse_fields [] remainder with
              | None => None
              | Some (f, Some _) => Some (status_ok, chars "OK", ResponseHeader raw f version_str st text)
              | Some (_, None) => Some (bad_request, chars "Malformed header fields.", ResponseHeader [] [] [] st [])
              end
        end
  end.

(** ** Searching *)

Lemma starts_with_app s p r : starts_with s p = true -> starts_with (s ++ r) p = true.
Proof.
  revert s. induction p as [|c p IH]; intros [|d s]; try done. cbn. intros H. apply andb_prop in H as [-> H]. by apply IH.
Qed.

Lemma starts_with_long s p r :
  (length p <= length s)%nat -> starts_with (s ++ r) p = true -> starts_with s p = true.
Proof.
  revert s. induction p as [|c p IH]; intros [|d s] Hl; try done; cbn in *; [lia|].
  intros H. apply andb_prop in H as [-> H]. apply IH; [lia|done].
Qed.

Lemma starts_with_length s p : starts_with s p = true -> (length p <= length s)%nat.
Proof.
  revert s. induction p as [|c p IH]; intros [|d s]; cbn; try done; [lia|].
  intros H. apply andb_prop in H as [_ H]. apply IH in H. lia.
Qed.

Lemma search_bound s sep i : search s sep = Some i -> (i + length sep <= length s)%nat.
Proof.
  revert i. induction s as [|c s IH]; intros i; cbn [search].
  - destruct (starts_with [] sep) eqn:E; [|done]. intros [= <-]. by apply starts_with_length in E.
  - destruct (starts_with (c :: s) sep) eqn:E.
    + intros [= <-]. by apply starts_with_length in E.
    + destruct (search s sep) as [j|]; [|done]. intros [= <-]. specialize (IH j eq_refl). cbn. lia.
Qed.

(** What is found first stays first when more text follows. *)
Lemma search_app s sep r i : search s sep = Some i -> search (s ++ r) sep = Some i.
Proof.
  revert i. induction s as [|c s IH]; intros i; cbn [search app].
  - destruct (starts_with [] sep) eqn:E; [|done]. intros [= <-]. destruct sep; [|done]. by destruct r.
  - destruct (starts_with (c :: s) sep) eqn:E.
    + intros [= <-]. apply (starts_with_app _ _ r) in E. cbn [app] in E. by rewrite E.
    + destruct (search s sep) as [j|] eqn:Hj; [|done]. intros [= <-]. rewrite (IH j eq_refl).
      destruct (starts_with (c :: s ++ r) sep) eqn:E2; [|done].
      apply search_bound in Hj. apply (starts_with_long (c :: s)) in E2; [congruence|]. cbn. lia.
Qed.

(** A text that is cut before the end of what is found has no match. *)
Lemma search_cut b r sep i :
  search (b ++ r) sep = Some i -> (length b < i + length sep)%nat -> search b sep = None.
Proof.
  intros Hs Hl. destruct (search b sep) as [j|] eqn:Hb; [|done].
  pose proof (search_app b sep r j Hb) as Hj. apply search_bound in Hb. rewrite Hj in Hs. injection Hs as ->. lia.
Qed.

Definition lacks (c : Z) (s : list Z) : Prop := c ∉ s.

#[export] Instance lacks_dec c s : Decision (lacks c s).
Proof. unfold lacks. apply _. Defined.

Lemma search_skip l t c sep :
  lacks c l -> search (l ++ t) (c :: sep) = (Nat.add (length l)) <$> search t (c :: sep).
Proof.
  unfold lacks. induction l as [|d l IH]; intros Hl; cbn [app].
  - by destruct (search t (c :: sep)).
  - apply not_elem_of_cons in Hl as [Hne Hl]. cbn [search starts_with]. rewrite (proj2 (Z.eqb_neq c d)) by done.
    cbn [andb]. rewrite (IH Hl). by destruct (search t (c :: sep)).
Qed.

Lemma search_here t sep : starts_with t sep = true -> search t sep = Some O.
Proof. intros H. destruct t; cbn [search]; by rewrite H. Qed.

Lemma search_char l c t : lacks c l -> search (l ++ c :: t) [c] = Some (length l).
Proof. intros Hl. rewrite search_skip by done. rewrite search_here by (cbn; by rewrite Z.eqb_refl). cbn. by rewrite Nat.add_0_r. Qed.

Lemma search_line l t : lacks 13 l -> search (l ++ crlf ++ t) crlf = Some (length l).
Proof. intros Hl. unfold crlf at 2. rewrite search_skip by done. rewrite search_here by done. cbn. by rewrite Nat.add_0_r. Qed.

Lemma split_line l t : lacks 13 l -> split_by (l ++ crlf ++ t) crlf = (l, t).
Proof.
  intros Hl. unfold split_by. rewrite search_line by done. f_equal; [by rewrite take_app_length|].
  rewrite drop_app_ge by (cbn; lia). by replace (length l + length crlf - length l)%nat with 2%nat by (cbn; lia).
Qed.

Lemma split_char l c t : lacks c l -> split_by (l ++ c :: t) [c] = (l, t).
Proof.
  intros Hl. unfold split_by. rewrite search_char by done. f_equal; [by rewrite take_app_length|].
  rewrite drop_app_ge by (cbn; lia). by replace (length l + length [c] - length l)%nat with 1%nat by (cbn; lia).
Qed.

(** ** Lines *)

(** A line of a header is not empty and contains no carriage return. *)
Definition ok_line (l : list Z) : Prop := l <> [] /\ lacks 13 l.

Definition lines_text (ls : list (list Z)) : list Z := flat_map (fun l => l ++ crlf) ls.

Lemma lines_length l ls : (2 <= length (lines_text (l :: ls)))%nat.
Proof. cbn [lines_text flat_map]. rewrite !length_app. cbn. lia. Qed.

Lemma search_gap c t :
  c <> 13 -> search (crlf ++ c :: t) (crlf ++ crlf) = (Nat.add 2) <$> search (c :: t) (crlf ++ crlf).
Proof.
  intros Hc. change (search (crlf ++ c :: t) (crlf ++ crlf)) with
    (if (13 =? 13) && ((10 =? 10) && ((13 =? c) && starts_with t [10])) then Some O
     else S <$> (if (13 =? 10) && starts_with (c :: t) [10; 13; 10] then Some O else S <$> search (c :: t) (crlf ++ crlf))).
  rewrite (proj2 (Z.eqb_neq 13 c)) by done. cbn [Z.eqb Pos.eqb andb]. by destruct (search (c :: t) (crlf ++ crlf)).
Qed.

Lemma search_end_of_header l ls t :
  Forall ok_line (l :: ls) ->
  search (lines_text (l :: ls) ++ crlf ++ t) (crlf ++ crlf) = Some (length (lines_text (l :: ls)) - 2)%nat.
Proof.
  revert l. induction ls as [|l' ls IH]; intros l Hls; apply Forall_cons in Hls as [[Hne Hl] Hls].
  - cbn [lines_text flat_map]. rewrite app_nil_r, <- !app_assoc. change (search (l ++ crlf ++ crlf ++ t) (crlf ++ crlf)) with (search (l ++ crlf ++ crlf ++ t) (13 :: [10; 13; 10])).
    rewrite search_skip by done. rewrite search_here by done. rewrite length_app. cbn. f_equal. lia.
  - change (lines_text (l :: l' :: ls)) with ((l ++ crlf) ++ lines_text (l' :: ls)). rewrite <- !app_assoc.
    change (crlf ++ crlf) with (13 :: [10; 13; 10]). rewrite search_skip by done. change (13 :: [10; 13; 10]) with (crlf ++ crlf).
    specialize (IH l' Hls). apply Forall_cons in Hls as [[Hne' Hl'] _]. pose proof (lines_length l' ls) as Hlen.
    assert (exists c w, lines_text (l' :: ls) ++ crlf ++ t = c :: w /\ c <> 13) as (c & w & Hw & Hc).
    { destruct l' as [|c l']; [done|]. unfold lacks in Hl'. apply not_elem_of_cons in Hl' as [Hc _].
      cbn [lines_text flat_map app]. eexists _, _. split; [reflexivity|congruence]. }
    rewrite Hw in *. rewrite search_gap, IH by done. cbn [fmap option_fmap option_map]. f_equal. rewrite !length_app. change (length crlf) with 2%nat. lia.
Qed.

(** A complete header is split off, and not before it is complete. *)
Lemma split_header_text l ls t :
  Forall ok_line (l :: ls) ->
  split_header (lines_text (l :: ls) ++ crlf ++ t) = (lines_text (l :: ls) ++ crlf, t).
Proof.
  intros Hls. unfold split_header. rewrite search_end_of_header by done. pose proof (lines_length l ls).
  replace (length (lines_text (l :: ls)) - 2 + 4)%nat with (length (lines_text (l :: ls) ++ crlf))
    by (rewrite length_app; change (length crlf) with 2%nat; lia).
  rewrite app_assoc. by rewrite take_app_length, drop_app_length.
Qed.

Lemma split_header_cut l ls t b r :
  Forall ok_line (l :: ls) -> lines_text (l :: ls) ++ crlf ++ t = b ++ r ->
  (length b < length (lines_text (l :: ls) ++ crlf))%nat -> split_header b = ([], b).
Proof.
  intros Hls Ht Hb. pose proof (search_end_of_header l ls t Hls) as Hs. rewrite Ht in Hs. pose proof (lines_length l ls).
  unfold split_header. rewrite (search_cut _ _ _ _ Hs); [done|].
  rewrite length_app in Hb. change (length crlf) with 2%nat in Hb. change (length (crlf ++ crlf)) with 4%nat. lia.
Qed.

(** ** Header fields *)

(** A field that survives [trim]. *)
Definition ok_field (kv : list Z * list Z) : Prop :=
  kv.1 <> [] /\ trim kv.1 = kv.1 /\ lacks (chr ":") kv.1 /\ lacks 13 kv.1 /\ trim kv.2 = kv.2 /\ lacks 13 kv.2.

Lemma trim_blank v : trim (32 :: v) = trim v.
Proof. done. Qed.

Definition field_text (kv : list Z * list Z) : list Z := kv.1 ++ chars ": " ++ kv.2.

Lemma field_line_text kv : field_line kv = field_text kv ++ crlf.
Proof. unfold field_line, field_text. by rewrite <- !app_assoc. Qed.

Lemma field_text_ok kv : ok_field kv -> ok_line (field_text kv).
Proof.
  intros (Hne & _ & _ & Hk & _ & Hv). unfold ok_line, field_text, lacks in *. split.
  - by destruct kv.1.
  - rewrite !not_elem_of_app. split_and!; [done| |done]. intros H. apply list_elem_of_In in H. cbn in H. destruct H as [H|[H|[]]]; discriminate.
Qed.

Lemma parse_field_text kv : ok_field kv -> parse_field (field_text kv) = Some kv.
Proof.
  intros (Hne & Hk & Hc & _ & Hv & _). unfold parse_field, field_text. destruct kv as [k v]. cbn [fst snd] in *.
  change (k ++ chars ": " ++ v) with (k ++ chr ":" :: 32 :: v). rewrite search_char by done.
  rewrite take_app_length, Hk. rewrite bool_decide_eq_false_2 by done.
  rewrite drop_app_ge by lia. replace (length k + 1 - length k)%nat with 1%nat by lia. cbn [drop]. by rewrite trim_blank, Hv.
Qed.

Lemma process_fields fs acc t n :
  Forall ok_field fs -> (length fs < n)%nat ->
  process_lines n acc (flat_map field_line fs ++ crlf ++ t) = Some (acc ++ fs, Some t).
Proof.
  intros Hfs. revert acc n. induction Hfs as [|kv fs Hkv Hfs IH]; intros acc [|n] Hn; cbn [length] in Hn; try lia.
  - cbn [flat_map app process_lines]. rewrite search_here by done. cbn. by rewrite app_nil_r.
  - cbn [flat_map]. rewrite field_line_text, <- !app_assoc. cbn [process_lines].
    destruct (field_text_ok kv Hkv) as [Hne Hl]. rewrite search_line by done.
    remember (length (field_text kv)) as p eqn:Hp. destruct p as [|p]; [by destruct (field_text kv)|].
    rewrite Hp, take_app_length, parse_field_text by done.
    rewrite drop_app_ge by lia. replace (length (field_text kv) + 2 - length (field_text kv))%nat with 2%nat by lia.
    change (drop 2 (crlf ++ flat_map field_line fs ++ crlf ++ t)) with (flat_map field_line fs ++ crlf ++ t).
    rewrite (IH (acc ++ [kv]) n) by lia. by rewrite <- app_assoc.
Qed.

Lemma fields_length fs : (length fs <= length (flat_map field_line fs))%nat.
Proof. induction fs as [|kv fs IH]; [done|]. cbn [flat_map length]. rewrite field_line_text, !length_app. cbn. lia. Qed.

Lemma parse_fields_text fs t :
  Forall ok_field fs -> parse_fields [] (flat_map field_line fs ++ crlf ++ t) = Some (fs, Some t).
Proof.
  intros Hfs. unfold parse_fields. rewrite process_fields; [done|done|]. rewrite length_app. pose proof (fields_length fs). cbn. lia.
Qed.

(** ** Numbers in headers *)

Lemma to_integer_printed n : 0 <= n < 2 ^ 63 -> to_integer (print_unsigned n) = Some (Some n).
Proof.
  intros Hn. destruct (print_read_integer 64 n) as [Hr _]; [by unfold is_width; tauto|].
  destruct Hr as (ps & Hr & Hc & _); [unfold is_sint; lia|]. change (- 2 ^ (64 - 1)) with (- 2 ^ 63) in Hr.
  change (2 ^ (64 - 1) - 1) with (2 ^ 63 - 1) in Hr. unfold to_integer.
  assert (print_signed 64 n = print_unsigned n) as E.
  { unfold print_signed, print_unsigned. rewrite (proj2 (Z.eqb_neq n (- 2 ^ (64 - 1)))) by lia.
    by rewrite (proj2 (Z.ltb_ge n 0)) by lia. }
  rewrite E in Hr. rewrite Hr, bool_decide_eq_true_2 by done. done.
Qed.

Lemma get_as_printed w n :
  0 < w <= 64 -> 0 <= n < 2 ^ w -> n < 2 ^ 63 -> get_as_unsigned w (print_unsigned n) = Some (Some n).
Proof.
  intros Hw Hn Hm. unfold get_as_unsigned. rewrite to_integer_printed by lia. unfold uwrap. rewrite Z.mod_small by lia.
  rewrite Z.eqb_refl. by rewrite (proj2 (Z.leb_le 0 n)) by lia.
Qed.

(** ** What the writers produce is parsed *)

Definition request_text (m : method) (path : list Z) (fs : fields_map) : list Z :=
  begin_request_header m path ++ flat_map field_line fs ++ end_header.

Definition request_line (m : method) (path : list Z) : list Z :=
  to_rfc_string m ++ 32 :: path ++ 32 :: chars "HTTP/1.1".

Lemma request_text_lines m path fs :
  request_text m path fs = lines_text (request_line m path :: map field_text fs) ++ crlf.
Proof.
  unfold request_text, begin_request_header, request_line, end_header. cbn [lines_text flat_map].
  assert (flat_map field_line fs = flat_map (fun l => l ++ crlf) (map field_text fs)) as ->.
  { induction fs as [|kv fs IH]; [done|]. cbn [flat_map map]. by rewrite IH, field_line_text. }
  rewrite <- !app_assoc. cbn [app chars list_ascii_of_string map]. rewrite <- !app_assoc. done.
Qed.

Lemma rfc_string_lacks m c : c = 32 \/ c = 13 -> lacks c (to_rfc_string m).
Proof. intros [-> | ->]; apply (bool_decide_eq_true_1 _); by destruct m. Qed.

Lemma request_line_ok m path : lacks 13 path -> ok_line (request_line m path).
Proof.
  intros Hp. unfold ok_line, request_line. split; [by destruct m|]. pose proof (rfc_string_lacks m 13 ltac:(by right)) as Hm.
  unfold lacks in *. rewrite !not_elem_of_app, !not_elem_of_cons, !not_elem_of_app, !not_elem_of_cons.
  split_and!; try done. apply (bool_decide_eq_true_1 _). vm_compute. reflexivity.
Qed.

Lemma fields_lines fs : Forall ok_field fs -> Forall ok_line (map field_text fs).
Proof. intros H. apply Forall_map. eapply Forall_impl; [exact H|]. intros kv. apply field_text_ok. Qed.

(** Every request with well-formed fields and a target without blanks. *)
Lemma req_parse_text h m path fs u :
  lacks 32 path -> lacks 13 path -> Forall ok_field fs -> parse_request_target m path = Some (Some u) ->
  req_parse h (request_text m path fs)
  = Some (status_ok, chars "OK", RequestHeader (request_text m path fs) fs m u (chars "HTTP/1.1")).
Proof.
  intros Hb Hp Hfs Hu. assert (Hraw : exists c t, request_text m path fs = c :: t) by (destruct m; by eexists _, _).
  assert (Hsplit : split_by (request_text m path fs) crlf = (request_line m path, flat_map field_line fs ++ crlf ++ [])).
  { rewrite app_nil_r. unfold request_text, begin_request_header, end_header.
    rewrite <- (split_line (request_line m path)) by (by apply request_line_ok). f_equal. unfold request_line.
    rewrite <- !app_assoc. cbn [app chars list_ascii_of_string map]. by rewrite <- !app_assoc. }
  unfold req_parse. destruct Hraw as (c & t & Hraw). rewrite Hraw. rewrite <- Hraw, Hsplit.
  change (chars " ") with [32]. unfold request_line at 1. rewrite split_char by (apply rfc_string_lacks; by left).
  assert (parse_method (to_rfc_string m) = Some m) as -> by (by destruct m).
  rewrite split_char by done. rewrite Hu, parse_fields_text by done. done.
Qed.

Definition response_text (code : status) (fs : fields_map) : list Z := write_response_header code fs.

Definition response_line (code : status) : list Z :=
  chars "HTTP/1.1" ++ 32 :: print_unsigned (status_value code) ++ 32 :: phrase code.

Lemma response_text_lines code fs :
  response_text code fs = lines_text (response_line code :: map field_text fs) ++ crlf.
Proof.
  unfold response_text, write_response_header, begin_response_header, response_line. cbn [lines_text flat_map].
  assert (flat_map field_line fs = flat_map (fun l => l ++ crlf) (map field_text fs)) as ->.
  { induction fs as [|kv fs IH]; [done|]. cbn [flat_map map]. by rewrite IH, field_line_text. }
  rewrite <- !app_assoc. cbn [app chars list_ascii_of_string map]. rewrite <- !app_assoc. done.
Qed.

(** The facts about the status line that are checked for every code. *)
Definition status_line_ok (code : status) : bool :=
  bool_decide (lacks 13 (response_line code)) && bool_decide (lacks 32 (print_unsigned (status_value code)))
    && bool_decide (trim (phrase code) = phrase code) && bool_decide (phrase code <> []).

Lemma status_lines code : status_line_ok code = true.
Proof. destruct code; vm_compute; reflexivity. Qed.

Lemma status_range code : 0 <= status_value code < 2 ^ 16.
Proof. destruct code; cbn; lia. Qed.

Lemma res_parse_text h code fs :
  Forall ok_field fs ->
  res_parse h (response_text code fs)
  = Some (status_ok, chars "OK",
          ResponseHeader (response_text code fs) fs (chars "HTTP/1.1") (status_value code) (phrase code)).
Proof.
  intros Hfs. pose proof (status_lines code) as H. unfold status_line_ok in H.
  apply andb_prop in H as [H H4]. apply andb_prop in H as [H H3]. apply andb_prop in H as [H1 H2].
  apply bool_decide_eq_true in H1, H2, H3, H4. pose proof (status_range code) as Hst.
  assert (Hraw : exists c t, response_text code fs = c :: t) by (by eexists _, _).
  assert (Hsplit : split_by (response_text code fs) crlf = (response_line code, flat_map field_line fs ++ crlf ++ [])).
  { rewrite app_nil_r. unfold response_text, write_response_header, begin_response_header.
    rewrite <- (split_line (response_line code)) by done. f_equal. unfold response_line.
    rewrite <- !app_assoc. cbn [app chars list_ascii_of_string map]. by rewrite <- !app_assoc. }
  unfold res_parse. destruct Hraw as (c & t & Hraw). rewrite Hraw. rewrite <- Hraw, Hsplit.
  change (chars " ") with [32]. unfold response_line at 1.
  rewrite split_char by (apply (bool_decide_eq_true_1 _); vm_compute; reflexivity).
  rewrite split_char by done. change (validate_http_version (chars "HTTP/1.1")) with true. cbn [negb].
  rewrite get_as_printed by lia. rewrite H3, bool_decide_eq_false_2 by done. rewrite parse_fields_text by done. done.
Qed.

End Http.
