(* ===== verification/StreamLayer.v ===== *)
(** Protocols on top of an octet stream: how [handle_buffered_data] of
    [net/octet_stream/transport.cpp] calls the layer above it, as long as that
    does not switch protocols.

    A layer is a state with [consume], the limits of its receive policy and
    [abort].  [Expects] is what a layer has to show in order to receive a text
    completely for every way to cut it into reads. *)
From S2P Require Import Prelude.
#[local] Open Scope Z_scope.

Module StreamLayer.

(** [min_size] and [max_size] of a [receive_policy]. *)
Record receive_policy := Policy { min_size : nat; max_size : nat }.

Definition up_to (n : nat) : receive_policy := Policy 1 n.
Definition exactly (n : nat) : receive_policy := Policy n n.
Definition stop : receive_policy := Policy 0 0.

Record layer (S : Type) := Layer {
  consume : S -> list Z -> option (Z * S);
  policy : S -> receive_policy;
  abort : S -> S;
}.
Arguments Layer {S}. Arguments consume {S}. Arguments policy {S}. Arguments abort {S}.

(** The layer waits for more data, or reading has ended after an error. *)
Inductive reading (S : Type) :=
  | Waits (s : S) (buf : list Z)
  | Ended (s : S).
Arguments Waits {S}. Arguments Ended {S}.

Section Layer.
  Context {S : Type} (L : layer S).

(** The loop of [handle_buffered_data]. *)
Fixpoint buffered_loop (fuel : nat) (s : S) (buf : list Z) : option (reading S) :=
  match fuel with
  | O => None
  | Datatypes.S k =>
      let p := policy L s in
      if (0 <? max_size p)%nat && (min_size p <=? length buf)%nat then
        let n := (length buf `min` max_size p)%nat in
        match consume L s (take n buf) with
        | None => None
        | Some (consumed, s') =>
            if (consumed <? 0) || (Z.of_nat n <? consumed) then Some (Ended (abort L s'))
            else if consumed =? 0 then
              if (n =? length buf `min` max_size (policy L s'))%nat then Some (Waits s' buf)
              else buffered_loop k s' buf
            else buffered_loop k s' (drop (Z.to_nat consumed) buf)
        end
      else Some (Waits s buf)
  end.

Definition handle_buffered_data (s : S) (buf : list Z) : option (reading S) :=
  buffered_loop (Datatypes.S (Datatypes.S (length buf) * Datatypes.S (length buf))) s buf.

(** Any number of reads. *)
Fixpoint receive (s : S) (buf : list Z) (reads : list (list Z)) : option (reading S) :=
  match reads with
  | [] => Some (Waits s buf)
  | bytes :: reads' =>
      match handle_buffered_data s (buf ++ bytes) with
      | Some (Waits s' buf') => receive s' buf' reads'
      | r => r
      end
  end.

(** [J s t]: in state [s] the layer can read [t] completely. *)
Class Expects (J : S -> list Z -> Prop) : Prop := {
  expects_policy s t :
    J s t -> (1 <= min_size (policy L s) <= max_size (policy L s))%nat
      /\ (t <> [] -> (min_size (policy L s) <= length t)%nat);
  expects_step s b r :
    J s (b ++ r) -> (min_size (policy L s) <= length b)%nat ->
    let n := (length b `min` max_size (policy L s))%nat in
    exists consumed s', consume L s (take n b) = Some (Z.of_nat consumed, s')
      /\ (consumed <= n)%nat /\ J s' (drop consumed (b ++ r))
      /\ (consumed = O -> let n' := (length b `min` max_size (policy L s'))%nat in
            (n <= n')%nat /\ (r = [] -> (n < n')%nat));
}.

Context (J : S -> list Z -> Prop) `{!Expects J}.

Lemma loop_reads fuel s b r :
  J s (b ++ r) ->
  (length b * Datatypes.S (length b) + (length b - length b `min` max_size (policy L s)) < fuel)%nat ->
  exists s' b', buffered_loop fuel s b = Some (Waits s' b') /\ J s' (b' ++ r) /\ (r = [] -> b' = []).
Proof using Expects0.
  revert s b. induction fuel as [|k IH]; intros s b HJ Hf; [lia|]. cbn [buffered_loop].
  destruct (expects_policy s (b ++ r) HJ) as [Hp Ht]. rewrite (proj2 (Nat.ltb_lt 0 _)) by lia. cbn [andb].
  destruct (Nat.leb_spec (min_size (policy L s)) (length b)) as [Hmin|Hmin]; cycle 1.
  { exists s, b. split_and!; [done..|]. intros ->. rewrite app_nil_r in Ht. destruct b; [done|]. specialize (Ht ltac:(done)). lia. }
  destruct (expects_step s b r HJ Hmin) as (c & s' & -> & Hc & HJ' & Hz).
  set (n := (length b `min` max_size (policy L s))%nat) in *.
  rewrite (proj2 (Z.ltb_ge _ _)), (proj2 (Z.ltb_ge (Z.of_nat n) _)) by lia. cbn [orb].
  destruct c as [|c].
  - destruct (Hz eq_refl) as [Hle Hr]. cbn [Z.of_nat Z.eqb]. rewrite drop_0 in HJ'.
    destruct (Nat.eqb_spec n (length b `min` max_size (policy L s'))) as [E|E].
    + exists s', b. split_and!; [done..|]. intros ->. specialize (Hr eq_refl). lia.
    + apply IH; [done|]. lia.
  - rewrite (proj2 (Z.eqb_neq _ 0)) by lia. rewrite Nat2Z.id.
    assert (Hd : drop (Datatypes.S c) (b ++ r) = drop (Datatypes.S c) b ++ r) by (rewrite drop_app_le; [done|lia]).
    rewrite Hd in HJ'. apply IH; [done|]. assert (length (drop (Datatypes.S c) b) < length b)%nat by (rewrite length_drop; lia).
    nia.
Qed.

(** However a text is cut into reads, the layer gets to its end. *)
Lemma receive_text s buf reads :
  J s (buf ++ concat reads) -> (reads = [] -> buf = []) ->
  exists s', receive s buf reads = Some (Waits s' []) /\ J s' [].
Proof using Expects0.
  revert s buf. induction reads as [|bytes reads IH]; intros s buf HJ Hb.
  { rewrite (Hb eq_refl) in *. exists s. done. }
  cbn [receive concat] in *. rewrite app_assoc in HJ. unfold handle_buffered_data.
  destruct (loop_reads (Datatypes.S (Datatypes.S (length (buf ++ bytes)) * Datatypes.S (length (buf ++ bytes)))) s (buf ++ bytes) (concat reads) HJ)
    as (s' & b' & -> & HJ' & Hend); [nia|].
  apply IH; [done|]. intros ->. by apply Hend.
Qed.

End Layer.

End StreamLayer.
