(* ===== verification/HttpServer.v ===== *)
(** The HTTP server of libcaf_net: [server_impl] of [net/http/server.cpp].

    The upper layer is user code: [up_consume] answers with its result, the calls
    it makes on the lower layer in between ([action]), and its new state.
    [down_] is the buffer for output and the receive policy; the loop that calls
    [consume] is the one of [StreamLayer]. *)
From Stdlib Require Import Strings.Ascii Strings.String.
From S2P Require Import Prelude.
From S2P Require Import Fsm.
From S2P Require Import ReadInteger.
From S2P Require Import Printer.
From S2P Require Import Uri.
From S2P Require Import Http.
From S2P Require Import StreamLayer.
#[local] Open Scope Z_scope.
#[local] Open Scope caf_scope.

Import Fsm Http.

Module HttpServer.

Inductive mode_t := read_header | read_payload | read_chunks.

(** ** What the upper layer may do *)

Inductive action :=
  | BeginHeader (code : status)
  | AddHeaderField (key val : list Z)
  | EndHeader
  | SendPayload (bytes : list Z)
  | SendChunk (bytes : list Z)
  | SendEndOfChunks
  | RequestMessages
  | SuspendReading.

(** The format specification [{:X}]. *)
Fixpoint hex_digits (fuel : nat) (n : Z) (acc : list Z) : list Z :=
  match fuel with
  | O => acc
  | S k =>
      let acc := List.nth (Z.to_nat (n mod 16)) (chars "0123456789ABCDEF") 0 :: acc in
      if n / 16 =? 0 then acc else hex_digits k (n / 16) acc
  end.

Definition format_hex (n : Z) : list Z := hex_digits 16 n [].

Definition chunk_text (bytes : list Z) : list Z := format_hex (zlen bytes) ++ crlf ++ bytes ++ crlf.

(** What an action appends to the output buffer. *)
Definition action_text (a : action) : list Z :=
  match a with
  | BeginHeader code => begin_response_header code
  | AddHeaderField key val => add_header_field key val
  | EndHeader => end_header
  | SendPayload bytes => bytes
  | SendChunk bytes => chunk_text bytes
  | SendEndOfChunks => chars "0" ++ crlf ++ crlf
  | RequestMessages | SuspendReading => []
  end.

Record upper (U : Type) := Upper {
  up_consume : request_header -> list Z -> U -> Z * list action * U;
  up_abort : list Z -> U -> U;
}.
Arguments Upper {U}. Arguments up_consume {U}. Arguments up_abort {U}.

Section Server.
  Context {U : Type} (app : upper U).

Record server := Server {
  mode_ : mode_t;
  hdr_ : request_header;
  payload_len_ : Z;
  max_request_size_ : Z;
  policy_ : StreamLayer.receive_policy;
  output : list Z;
  up_ : U;
}.

Definition set_mode (m : mode_t) (s : server) : server :=
  Server m (hdr_ s) (payload_len_ s) (max_request_size_ s) (policy_ s) (output s) (up_ s).

Definition set_hdr (h : request_header) (s : server) : server :=
  Server (mode_ s) h (payload_len_ s) (max_request_size_ s) (policy_ s) (output s) (up_ s).

Definition set_payload_len (n : Z) (s : server) : server :=
  Server (mode_ s) (hdr_ s) n (max_request_size_ s) (policy_ s) (output s) (up_ s).

Definition set_policy (p : StreamLayer.receive_policy) (s : server) : server :=
  Server (mode_ s) (hdr_ s) (payload_len_ s) (max_request_size_ s) p (output s) (up_ s).

Definition write (t : list Z) (s : server) : server :=
  Server (mode_ s) (hdr_ s) (payload_len_ s) (max_request_size_ s) (policy_ s) (output s ++ t) (up_ s).

Definition set_up (u : U) (s : server) : server :=
  Server (mode_ s) (hdr_ s) (payload_len_ s) (max_request_size_ s) (policy_ s) (output s) u.

Definition set_max_request_size (value : Z) (s : server) : server :=
  if 0 <? value then
    Server (mode_ s) (hdr_ s) (payload_len_ s) value (policy_ s) (output s) (up_ s)
  else s.

(** [down_->is_reading()]. *)
Definition is_reading (s : server) : bool := (0 <? StreamLayer.max_size (policy_ s))%nat.

Definition request_messages (s : server) : server :=
  if is_reading s then s else set_policy (StreamLayer.up_to (Z.to_nat (max_request_size_ s))) s.

Definition suspend_reading (s : server) : server := set_policy StreamLayer.stop s.

Definition perform (a : action) (s : server) : server :=
  match a with
  | RequestMessages => request_messages s
  | SuspendReading => suspend_reading s
  | _ => write (action_text a) s
  end.

Definition perform_all (acts : list action) (s : server) : server := fold_left (fun s a => perform a s) acts s.

(** [abort], which the transport calls too. *)
Definition abort (reason : list Z) (s : server) : server := set_up (up_abort app reason (up_ s)) s.

(** The private [write_response]. *)
Definition respond (code : status) (content : list Z) (s : server) : server :=
  write (write_response code (chars "text/plain") content) s.

Definition invoke_upper_layer (payload : list Z) (s : server) : bool * server :=
  let '(res, acts, u) := up_consume app (hdr_ s) payload (up_ s) in
  (0 <=? res, perform_all acts (set_up u s)).

Definition handle_header (http : list Z) (s : server) : option (bool * server) :=
  match req_parse (hdr_ s) http with
  | None => None
  | Some (code, msg, h) =>
      let s := set_hdr h s in
      if bool_decide (code = status_ok) then Some (true, s)
      else Some (false, respond code msg (abort (chars "received malformed header") s))
  end.

(** The loop of [consume]: [None] is running out of fuel, [Some None] what is
    undefined in called functions. *)
Fixpoint consume_loop (fuel : nat) (s : server) (input : list Z) (consumed : Z) : option (option (Z * server)) :=
  match fuel with
  | O => None
  | S k =>
      match mode_ s with
      | read_header =>
          let '(hdr, remainder) := split_header input in
          if bool_decide (hdr = []) then
            if max_request_size_ s <=? zlen input then
              Some (Some (-1, respond request_header_fields_too_large (chars "Header exceeds maximum size.")
                                (abort (chars "header exceeds maximum size") s)))
            else Some (Some (consumed, s))
          else
            match handle_header hdr s with
            | None => Some None
            | Some (false, s1) => Some (Some (-1, s1))
            | Some (true, s1) =>
                let consumed := consumed + zlen hdr in
                if chunked_transfer_encoding (req_fields (hdr_ s1))
                then consume_loop k (set_mode read_chunks s1) remainder consumed
                else
                  match content_length (req_fields (hdr_ s1)) with
                  | None => Some None
                  | Some (Some len) =>
                      if max_request_size_ s <=? len then
                        Some (Some (-1, respond payload_too_large (chars "Payload exceeds maximum size.")
                                          (abort (chars "payload exceeds maximum size") s1)))
                      else consume_loop k (set_mode read_payload (set_payload_len len s1)) remainder consumed
                  | Some None =>
                      let '(ok, s2) := invoke_upper_layer [] s1 in
                      if ok then consume_loop k s2 remainder consumed else Some (Some (-1, s2))
                  end
            end
      | read_payload =>
          if payload_len_ s <=? zlen input then
            let '(ok, s1) := invoke_upper_layer (take (Z.to_nat (payload_len_ s)) input) s in
            if ok then
              consume_loop k (set_mode read_header s1) (drop (Z.to_nat (payload_len_ s)) input)
                (consumed + payload_len_ s)
            else Some (Some (-1, s1))
          else Some (Some (consumed, s))
      | read_chunks =>
          Some (Some (-1, respond not_implemented (chars "Chunked transfer not implemented yet.") s))
      end
  end.

(** Every round but the last takes a header or ends a payload. *)
Definition consume_fuel (input : list Z) : nat := 2 * length input + 3.

Definition consume (s : server) (input : list Z) : option (Z * server) :=
  default None (consume_loop (consume_fuel input) s input 0).

Definition server_layer : StreamLayer.layer server :=
  StreamLayer.Layer consume policy_ (abort (chars "consumed < 0")).

(** ** Termination and the reaction to errors *)

(** How often the loop may run. *)
Definition rounds (s : server) (input : list Z) : nat :=
  (2 * length input + match mode_ s with read_payload => 2 | _ => 1 end)%nat.

Lemma perform_keeps a s :
  mode_ (perform a s) = mode_ s /\ hdr_ (perform a s) = hdr_ s /\ payload_len_ (perform a s) = payload_len_ s
  /\ max_request_size_ (perform a s) = max_request_size_ s /\ up_ (perform a s) = up_ s
  /\ output (perform a s) = output s ++ action_text a.
Proof. destruct a; cbn; rewrite ?app_nil_r; try done. unfold request_messages. by destruct (is_reading s). Qed.

Lemma perform_all_keeps acts s :
  mode_ (perform_all acts s) = mode_ s /\ hdr_ (perform_all acts s) = hdr_ s
  /\ payload_len_ (perform_all acts s) = payload_len_ s
  /\ max_request_size_ (perform_all acts s) = max_request_size_ s /\ up_ (perform_all acts s) = up_ s
  /\ output (perform_all acts s) = output s ++ flat_map action_text acts.
Proof.
  revert s. induction acts as [|a acts IH]; intros s; cbn [perform_all fold_left flat_map]; [by rewrite app_nil_r|].
  destruct (IH (perform a s)) as (H1 & H2 & H3 & H4 & H5 & H6). fold (perform_all acts (perform a s)) in *.
  destruct (perform_keeps a s) as (P1 & P2 & P3 & P4 & P5 & P6).
  rewrite H1, H2, H3, H4, H5, H6, P1, P2, P3, P4, P5, P6, app_assoc. done.
Qed.

Lemma split_header_shorter input hdr remainder :
  split_header input = (hdr, remainder) -> hdr <> [] ->
  input = hdr ++ remainder /\ (4 <= length hdr)%nat.
Proof.
  unfold split_header. destruct (search input (crlf ++ crlf)) as [i|] eqn:Hs; [|by intros [= <- _]].
  intros [= <- <-] _. apply search_bound in Hs. cbn in Hs. split; [by rewrite take_drop|]. rewrite length_take. lia.
Qed.

Lemma content_length_nonneg fs n : content_length fs = Some (Some n) -> 0 <= n.
Proof.
  unfold content_length, get_as_unsigned. destruct (find_by_key_icase _ fs) as [v|]; [|done].
  destruct (to_integer v) as [[z|]|]; [|done..]. case_match; [|done]. intros [= <-]. unfold uwrap. apply Z.mod_pos_bound. lia.
Qed.

Lemma invoke_keeps payload s ok s' :
  invoke_upper_layer payload s = (ok, s') ->
  mode_ s' = mode_ s /\ payload_len_ s' = payload_len_ s /\ max_request_size_ s' = max_request_size_ s.
Proof.
  unfold invoke_upper_layer. destruct (up_consume app (hdr_ s) payload (up_ s)) as [[res acts] u]. intros [= _ <-].
  destruct (perform_all_keeps acts (set_up u s)) as (H1 & _ & H2 & H3 & _). by rewrite H1, H2, H3.
Qed.

Lemma handle_header_keeps http s ok s' :
  handle_header http s = Some (ok, s') ->
  mode_ s' = mode_ s /\ payload_len_ s' = payload_len_ s /\ max_request_size_ s' = max_request_size_ s.
Proof.
  unfold handle_header. destruct (req_parse (hdr_ s) http) as [[[code msg] h]|]; [|done]. case_bool_decide; by intros [= _ <-].
Qed.

(** Why [consume] gives up: the upper layer refuses the request, the request is
    rejected (the upper layer is told once and the client gets a response), or it
    is chunked. *)
Inductive gave_up (s' : server) : Prop :=
  | app_refused s payload : invoke_upper_layer payload s = (false, s') -> gave_up s'
  | rejected s reason code msg : s' = respond code msg (abort reason s) -> gave_up s'
  | unsupported s : s' = respond not_implemented (chars "Chunked transfer not implemented yet.") s -> gave_up s'.

Lemma header_rejected http s s' :
  handle_header http s = Some (false, s') -> gave_up s'.
Proof.
  unfold handle_header. destruct (req_parse (hdr_ s) http) as [[[code msg] h]|]; [|done].
  case_bool_decide; [done|]. intros [= <-]. by eapply rejected.
Qed.

(** What a call may return. *)
Definition returns (s : server) (input : list Z) (k : Z) (r : option (Z * server)) : Prop :=
  forall z s', r = Some (z, s') ->
    (z = -1 /\ gave_up s')
    \/ (k <= z <= k + zlen input /\ mode_ s' <> read_chunks /\ 0 <= payload_len_ s'
        /\ max_request_size_ s' = max_request_size_ s).

Lemma loop_returns fuel s input k :
  0 <= payload_len_ s -> 0 <= k -> (rounds s input < fuel)%nat ->
  exists r, consume_loop fuel s input k = Some r /\ returns s input k r.
Proof.
  revert s input k. induction fuel as [|n IH]; intros s input k Hp Hk Hf; [lia|]. cbn [consume_loop].
  unfold rounds in Hf. destruct (mode_ s) eqn:Hm.
  - destruct (split_header input) as [hdr remainder] eqn:Hsplit. case_bool_decide as Hne.
    { destruct (max_request_size_ s <=? zlen input); (eexists; split; [reflexivity|]); intros z s' [= <- <-].
      - left. split; [done|]. by eapply rejected.
      - right. unfold zlen. rewrite Hm. split_and!; [lia..|done|done|done]. }
    destruct (split_header_shorter _ _ _ Hsplit Hne) as [-> Hlen]. rewrite length_app in Hf.
    destruct (handle_header hdr s) as [[[|] s1]|] eqn:Hh.
    2: { eexists. split; [done|]. intros z s' [= <- <-]. left. split; [done|]. by eapply header_rejected. }
    2: { eexists. by split. }
    destruct (handle_header_keeps _ _ _ _ Hh) as (H1 & H2 & H3).
    assert (Hgo : forall s2, 0 <= payload_len_ s2 -> max_request_size_ s2 = max_request_size_ s ->
      exists r, consume_loop n s2 remainder (k + zlen hdr) = Some r /\ returns s (hdr ++ remainder) k r).
    { intros s2 Hp2 Hmax. destruct (IH s2 remainder (k + zlen hdr) Hp2) as (r & Hr & Hret).
      { unfold zlen. lia. } { unfold rounds. destruct (mode_ s2); lia. }
      exists r. split; [done|]. intros z s' Hz. destruct (Hret z s' Hz) as [H|(Ha & Hb & Hc & Hd)]; [by left|].
      right. unfold zlen in *. rewrite length_app. split_and!; [lia..|done|done|congruence]. }
    destruct (chunked_transfer_encoding (req_fields (hdr_ s1))); [apply Hgo; cbn; congruence|].
    destruct (content_length (req_fields (hdr_ s1))) as [[len|]|] eqn:Hc.
    + destruct (max_request_size_ s <=? len).
      * eexists. split; [done|]. intros z s' [= <- <-]. left. split; [done|]. by eapply rejected.
      * apply Hgo; [by eapply content_length_nonneg|done].
    + destruct (invoke_upper_layer [] s1) as [ok s2] eqn:Hi. destruct (invoke_keeps _ _ _ _ Hi) as (I1 & I2 & I3). destruct ok.
      * apply Hgo; congruence.
      * eexists. split; [done|]. intros z s' [= <- <-]. left. split; [done|]. by eapply app_refused.
    + eexists. by split.
  - destruct (Z.leb_spec (payload_len_ s) (zlen input)) as [Hle|Hle]; cycle 1.
    { eexists. split; [done|]. intros z s' [= <- <-]. right. unfold zlen. rewrite Hm. split_and!; [lia..|done|done|done]. }
    destruct (invoke_upper_layer (take (Z.to_nat (payload_len_ s)) input) s) as [ok s1] eqn:Hi.
    destruct (invoke_keeps _ _ _ _ Hi) as (I1 & I2 & I3). destruct ok; cycle 1.
    { eexists. split; [done|]. intros z s' [= <- <-]. left. split; [done|]. by eapply app_refused. }
    destruct (IH (set_mode read_header s1) (drop (Z.to_nat (payload_len_ s)) input) (k + payload_len_ s)) as (r & Hr & Hret).
    { cbn. lia. } { lia. } { unfold rounds. cbn. rewrite length_drop. lia. }
    exists r. split; [done|]. intros z s' Hz. destruct (Hret z s' Hz) as [H|(Ha & Hb & Hc & Hd)]; [by left|].
    right. unfold zlen in *. rewrite length_drop in Ha. cbn in Hd. split_and!; [lia..|done|done|congruence].
  - eexists. split; [done|]. intros z s' [= <- <-]. left. split; [done|]. by eapply unsupported.
Qed.

End Server.
Arguments Server {U}. Arguments mode_ {U}. Arguments hdr_ {U}. Arguments payload_len_ {U}.
Arguments max_request_size_ {U}. Arguments policy_ {U}. Arguments output {U}. Arguments up_ {U}.

(** On every input [consume] returns, whatever the sizes in the headers and
    whatever the upper layer does; unless something that it calls is undefined, it
    reports how much of the input it has taken, or gives up for one of three
    reasons: the upper layer refuses a request, a request is rejected with one
    notice to the upper layer and one response, or a request is chunked. *)
Theorem http_server_returns {U} (app : upper U) (s : server) input :
  0 <= payload_len_ s ->
  exists r, consume_loop app (consume_fuel input) s input 0 = Some r /\ returns app s input 0 r.
Proof. intros Hp. apply loop_returns; [done|lia|]. unfold rounds, consume_fuel. destruct (mode_ s); lia. Qed.

(** ** Requests *)

Record request := Request {
  rq_method : method;
  rq_path : list Z;
  rq_uri : Uri.uri;
  rq_fields : fields_map;
  rq_payload : list Z;
}.

(** What a client sends with the functions of [v1.cpp]. *)
Definition header_bytes (r : request) : list Z := request_text (rq_method r) (rq_path r) (rq_fields r).

Definition stream (rs : list request) : list Z := flat_map (fun r => header_bytes r ++ rq_payload r) rs.

(** The header that the upper layer sees. *)
Definition header_of (r : request) : request_header :=
  RequestHeader (header_bytes r) (rq_fields r) (rq_method r) (rq_uri r) (chars "HTTP/1.1").

Definition ok_request (max : Z) (r : request) : Prop :=
  lacks 32 (rq_path r) /\ lacks 13 (rq_path r) /\ Forall ok_field (rq_fields r)
  /\ parse_request_target (rq_method r) (rq_path r) = Some (Some (rq_uri r))
  /\ chunked_transfer_encoding (rq_fields r) = false
  /\ zlen (header_bytes r) <= max
  /\ (content_length (rq_fields r) = Some (Some (zlen (rq_payload r))) /\ zlen (rq_payload r) < max
      \/ content_length (rq_fields r) = Some None /\ rq_payload r = []).

Section Delivery.
  Context {U : Type} (app : upper U) (max : Z).
  Hypothesis (Hmax : 0 < max).

(** The upper layer takes every request and does not stop reading. *)
Hypothesis (accepts : forall h p u, 0 <= (up_consume app h p u).1.1).
Hypothesis (keeps_reading : forall h p u, SuspendReading ∉ (up_consume app h p u).1.2).

(** The effect of a request on the upper layer and on the output. *)
Definition serve (x : U * list Z) (r : request) : U * list Z :=
  let '(_, acts, u) := up_consume app (header_of r) (rq_payload r) x.1 in
  (u, x.2 ++ flat_map action_text acts).

Definition serve_all (rs : list request) (x : U * list Z) : U * list Z := fold_left serve rs x.

Definition observed (s : @server U) : U * list Z := (up_ s, output s).

(** [goal] is what will be observed in the end. *)
Context (goal : U * list Z).

(** In the state [s] the requests [rs] are still to come, the first one possibly
    without its header. *)
Definition awaits (s : @server U) (t : list Z) : Prop :=
  policy_ s = StreamLayer.up_to (Z.to_nat max) /\ max_request_size_ s = max
  /\ exists rs, Forall (ok_request max) rs /\ serve_all rs (observed s) = goal
     /\ match mode_ s with
        | read_header => t = stream rs
        | read_payload => exists r rs', rs = r :: rs' /\ hdr_ s = header_of r
            /\ payload_len_ s = zlen (rq_payload r) /\ payload_len_ s < max /\ t = rq_payload r ++ stream rs'
        | read_chunks => False
        end.

(** Between two calls an empty payload is never awaited. *)
Definition expecting (s : @server U) (t : list Z) : Prop :=
  awaits s t /\ (mode_ s = read_payload -> 0 < payload_len_ s).

Lemma perform_policy acts (s : @server U) :
  SuspendReading ∉ acts -> policy_ s = StreamLayer.up_to (Z.to_nat max) -> policy_ (perform_all acts s) = policy_ s.
Proof using Hmax.
  revert s. induction acts as [|a acts IH]; intros s Hn Hp; [done|]. apply not_elem_of_cons in Hn as [Ha Hn].
  cbn [perform_all fold_left]. assert (policy_ (perform a s) = policy_ s) as E.
  { destruct a; try done. cbn. unfold request_messages, is_reading. rewrite Hp. cbn [StreamLayer.up_to StreamLayer.max_size].
    by rewrite (proj2 (Nat.ltb_lt 0 (Z.to_nat max))) by lia. }
  unfold perform_all in IH. rewrite IH; [done|done|]. by rewrite E.
Qed.

(** The upper layer gets a request. *)
Lemma invoke_request r s :
  hdr_ s = header_of r -> policy_ s = StreamLayer.up_to (Z.to_nat max) ->
  exists s', invoke_upper_layer app (rq_payload r) s = (true, s') /\ observed s' = serve (observed s) r
    /\ mode_ s' = mode_ s /\ policy_ s' = policy_ s /\ max_request_size_ s' = max_request_size_ s.
Proof using Hmax accepts keeps_reading.
  intros Hh Hp. unfold invoke_upper_layer, serve, observed. cbn [fst snd]. rewrite Hh.
  pose proof (accepts (header_of r) (rq_payload r) (up_ s)) as Ha.
  pose proof (keeps_reading (header_of r) (rq_payload r) (up_ s)) as Hk.
  destruct (up_consume app (header_of r) (rq_payload r) (up_ s)) as [[res acts] u]. cbn [fst snd] in *.
  rewrite (proj2 (Z.leb_le 0 res)) by done. eexists. split; [reflexivity|].
  destruct (perform_all_keeps acts (set_up u s)) as (H1 & _ & _ & H4 & H5 & H6).
  rewrite H1, H4, H5, H6, perform_policy by done. done.
Qed.

Lemma request_lines r : header_bytes r = lines_text (request_line (rq_method r) (rq_path r) :: map field_text (rq_fields r)) ++ crlf.
Proof. apply request_text_lines. Qed.

Lemma request_ok_lines r : ok_request max r -> Forall ok_line (request_line (rq_method r) (rq_path r) :: map field_text (rq_fields r)).
Proof. intros (_ & H & Hf & _). constructor; [by apply request_line_ok|by apply fields_lines]. Qed.

Lemma handle_request r s :
  ok_request max r -> handle_header app (header_bytes r) s = Some (true, set_hdr (header_of r) s).
Proof.
  intros (H1 & H2 & H3 & H4 & _). unfold handle_header, header_bytes. rewrite (req_parse_text _ _ _ _ (rq_uri r)) by done.
  by rewrite bool_decide_eq_true_2.
Qed.

Lemma request_header_length r : (4 <= length (header_bytes r))%nat.
Proof.
  rewrite request_lines, length_app. pose proof (lines_length (request_line (rq_method r) (rq_path r)) (map field_text (rq_fields r))).
  change (length crlf) with 2%nat. lia.
Qed.

(** The part of the text that a call sees either ends within a header or a
    payload, or is taken completely. *)
Definition taken (c : nat) (w r : list Z) : Prop := drop c w = [] \/ (zlen (drop c w) < max /\ r <> []).

Lemma loop_delivers fuel s w r k :
  awaits s (w ++ r) -> zlen w <= max -> (rounds s w < fuel)%nat ->
  exists c s', consume_loop app fuel s w k = Some (Some (k + Z.of_nat c, s')) /\ (c <= length w)%nat
    /\ expecting s' (drop c (w ++ r)) /\ taken c w r.
Proof using Hmax accepts keeps_reading.
  revert s w k. induction fuel as [|n IH]; intros s w k Hs Hw Hf; [lia|]. cbn [consume_loop].
  pose proof Hs as Hs'. destruct Hs as (Hpol & Hms & rs & Hrs & Hgoal & Hmode). unfold rounds in Hf. destruct (mode_ s) eqn:Hm; [| |done].
  - destruct rs as [|q rs].
    { cbn in Hmode. apply app_eq_nil in Hmode as [-> ->]. exists 0%nat, s. change (split_header []) with (([] : list Z), ([] : list Z)).
      cbv beta iota. rewrite bool_decide_eq_true_2 by done. rewrite Hms. change (zlen ([] : list Z)) with 0. rewrite (proj2 (Z.leb_gt _ _)) by done.
      split_and!; [by rewrite Z.add_0_r|done| |by left]. split; [done|congruence]. }
    apply Forall_cons in Hrs as [Hq Hrs]. cbn [stream flat_map] in Hmode. fold (stream rs) in Hmode. rewrite <- app_assoc in Hmode.
    destruct (decide (length w < length (header_bytes q))%nat) as [Hcut|Hfull].
    { pose proof Hmode as Htext. rewrite request_lines, <- app_assoc in Htext. symmetry in Htext.
      assert (Hhl : zlen (header_bytes q) <= max) by apply Hq.
      pose proof (split_header_cut _ _ _ _ _ (request_ok_lines q Hq) Htext) as Hsplit. rewrite <- request_lines in Hsplit.
      rewrite (Hsplit Hcut), bool_decide_eq_true_2 by done. rewrite Hms.
      rewrite (proj2 (Z.leb_gt _ _)) by (unfold zlen in *; lia). exists 0%nat, s.
      split_and!; [by rewrite Z.add_0_r|lia|split; [done|congruence]|]. right. rewrite drop_0. split; [unfold zlen in *; lia|].
      intros ->. rewrite app_nil_r in Hmode. apply (f_equal length) in Hmode. rewrite length_app in Hmode. lia. }
    assert (exists w2, w = header_bytes q ++ w2) as [w2 ->].
    { exists (drop (length (header_bytes q)) w). apply (f_equal (take (length (header_bytes q)))) in Hmode.
      rewrite take_app_length, take_app_le in Hmode by lia. rewrite <- (take_drop (length (header_bytes q)) w) at 1. by rewrite Hmode. }
    rewrite <- app_assoc in Hmode. apply app_inv_head in Hmode.
    assert (split_header (header_bytes q ++ w2) = (header_bytes q, w2)) as ->.
    { rewrite request_lines, <- app_assoc. by apply split_header_text, request_ok_lines. }
    pose proof (request_header_length q) as Hlen. rewrite bool_decide_eq_false_2 by (destruct (header_bytes q); [cbn in Hlen; lia|done]).
    rewrite (handle_request q s Hq). cbn [hdr_ set_hdr req_fields header_of].
    pose proof Hq as (_ & _ & _ & _ & Hch & _ & Hcl). rewrite Hch. rewrite length_app in Hf.
    assert (Hgo : forall s1, awaits s1 (w2 ++ r) -> exists c s',
      consume_loop app n s1 w2 (k + zlen (header_bytes q)) = Some (Some (k + Z.of_nat c, s'))
      /\ (c <= length (header_bytes q ++ w2))%nat /\ expecting s' (drop c ((header_bytes q ++ w2) ++ r))
      /\ taken c (header_bytes q ++ w2) r).
    { intros s1 H1. destruct (IH s1 w2 (k + zlen (header_bytes q)) H1) as (c & s' & Hr & Hc & He & Ht).
      { unfold zlen in *. rewrite length_app in Hw. lia. } { unfold rounds. destruct (mode_ s1); lia. }
      exists (length (header_bytes q) + c)%nat, s'. rewrite Hr. unfold zlen. split_and!; [do 3 f_equal; lia|rewrite length_app; lia| |].
      - rewrite <- app_assoc, drop_app_add'; done.
      - unfold taken. by rewrite drop_app_add'. }
    destruct Hcl as [[Hcl Hpl]|[Hcl Hpl]]; rewrite Hcl.
    + rewrite Hms, (proj2 (Z.leb_gt _ _)) by done. apply Hgo. split_and!; [done..|]. exists (q :: rs).
      split_and!; [by constructor|done|]. cbn [mode_ set_mode]. by exists q, rs.
    + destruct (invoke_request q (set_hdr (header_of q) s)) as (s2 & Hi & Ho & H1 & H2 & H3); [done..|].
      rewrite Hpl in Hi. rewrite Hi. apply Hgo. split_and!; [by rewrite H2|by rewrite H3|]. exists rs.
      split_and!; [done|by rewrite Ho|]. rewrite H1. cbn [mode_ set_hdr]. rewrite Hm. by rewrite Hmode, Hpl.
  - destruct Hmode as (q & rs' & -> & Hh & Hlen & Hlt & Htext). apply Forall_cons in Hrs as [Hq Hrs].
    destruct (Z.leb_spec (payload_len_ s) (zlen w)) as [Hle|Hgt]; cycle 1.
    { exists 0%nat, s. split_and!; [by rewrite Z.add_0_r|lia|split; [done|unfold zlen in *; intros; lia]|].
      right. rewrite drop_0. split; [lia|]. intros ->. rewrite app_nil_r in Htext. apply (f_equal length) in Htext.
      rewrite length_app in Htext. unfold zlen in *. lia. }
    rewrite Hlen in *. unfold zlen in Hle |- *. rewrite Nat2Z.id.
    assert (exists w2, w = rq_payload q ++ w2) as [w2 ->].
    { exists (drop (length (rq_payload q)) w). apply (f_equal (take (length (rq_payload q)))) in Htext.
      rewrite take_app_length, take_app_le in Htext by lia. rewrite <- (take_drop (length (rq_payload q)) w) at 1. by rewrite Htext. }
    rewrite <- app_assoc in Htext. apply app_inv_head in Htext. rewrite take_app_length, drop_app_length.
    destruct (invoke_request q s) as (s2 & Hi & Ho & H1 & H2 & H3); [done..|]. rewrite Hi. rewrite length_app in Hf.
    destruct (IH (set_mode read_header s2) w2 (k + Z.of_nat (length (rq_payload q)))) as (c & s' & Hr & Hc & He & Ht).
    { split_and!; [cbn; by rewrite H2|cbn; by rewrite H3|]. exists rs'. cbn [mode_ set_mode]. split_and!; [done| |done].
      unfold observed in *. cbn. by rewrite Ho. }
    { unfold zlen in *. rewrite length_app in Hw. lia. } { unfold rounds. cbn. lia. }
    exists (length (rq_payload q) + c)%nat, s'. rewrite Hr. split_and!; [do 3 f_equal; lia|rewrite length_app; lia| |].
    + rewrite <- app_assoc, drop_app_add'; done.
    + unfold taken. by rewrite drop_app_add'.
Qed.

#[export] Instance server_expects : StreamLayer.Expects (server_layer app) expecting.
Proof using Hmax accepts keeps_reading.
  split.
  - intros s t [(Hp & _) _]. cbn [StreamLayer.policy server_layer]. rewrite Hp. cbn. split; [lia|].
    destruct t; [done|]. cbn. lia.
  - intros s b r [Ha _] Hmin. pose proof Ha as (Hp & _). cbn [StreamLayer.policy StreamLayer.consume server_layer] in *.
    rewrite Hp in *. cbn [StreamLayer.up_to StreamLayer.max_size StreamLayer.min_size] in *.
    set (n := (length b `min` Z.to_nat max)%nat).
    assert (Hb : b ++ r = take n b ++ drop n b ++ r) by (by rewrite app_assoc, take_drop). rewrite Hb in Ha.
    destruct (loop_delivers (consume_fuel (take n b)) s (take n b) (drop n b ++ r) 0 Ha) as (c & s' & Hr & Hc & He & Ht).
    { unfold zlen. rewrite length_take. lia. } { unfold rounds, consume_fuel. destruct (mode_ s); lia. }
    rewrite length_take in Hc. exists c, s'. unfold consume. rewrite Hr. split_and!; [done|lia|by rewrite Hb|]. intros ->. cbn zeta.
    destruct He as [(Hp' & _) _]. rewrite Hp'. cbn [StreamLayer.up_to StreamLayer.max_size]. fold n. split; [lia|].
    intros ->. unfold taken in Ht. rewrite drop_0 in Ht. destruct Ht as [Ht|[Ht Hne]].
    + apply (f_equal length) in Ht. rewrite length_take in Ht. cbn in Ht. lia.
    + unfold zlen in Ht. rewrite length_take in Ht. destruct Hne. rewrite app_nil_r. apply drop_ge. lia.
Qed.

Lemma requests_end s : expecting s [] -> observed s = goal.
Proof.
  intros [(_ & _ & rs & _ & Hgoal & Hmode) Hlen]. destruct (mode_ s); [| |done].
  - destruct rs as [|q rs]; [done|]. exfalso. pose proof (request_header_length q) as H. cbn in Hmode.
    apply (f_equal length) in Hmode. rewrite !length_app in Hmode. cbn in Hmode. lia.
  - destruct Hmode as (q & rs' & -> & _ & Hl & _ & Ht). specialize (Hlen eq_refl).
    apply (f_equal length) in Ht. rewrite length_app in Ht. unfold zlen in Hl. cbn in Ht. lia.
Qed.

End Delivery.

(** A server that waits for its first request. *)
Definition ready {U} (max : Z) (s : server (U := U)) : Prop :=
  mode_ s = read_header /\ policy_ s = StreamLayer.up_to (Z.to_nat max) /\ max_request_size_ s = max.


(** An upper layer that remembers what it gets and answers with a status. *)
Definition demo_app : upper (list (list Z * list Z)) :=
  Upper (fun h p u => (0, [BeginHeader no_content; EndHeader], u ++ [(Uri.path (req_uri h), p)])) (fun _ u => u).

Definition demo_server : @server (list (list Z * list Z)) :=
  Server read_header (RequestHeader [] [] get Uri.default_instance []) 0 128 (StreamLayer.up_to 128) [] [].

Definition demo_uri (t : string) : Uri.uri :=
  match Uri.make_uri (chars t) with Some (inr u) => u | _ => Uri.default_instance end.

Definition demo_requests : list request :=
  [Request get (chars "/a%20b") (demo_uri "nil:/a%20b") [(chars "Host", chars "x")] [];
   Request post (chars "/c") (demo_uri "nil:/c") [(chars "Content-Length", chars "3")] (chars "abc")].


Lemma http_server_returns_witness :
  exists r, consume_loop demo_app (consume_fuel (chars "GET / HTTP/1.1")) demo_server (chars "GET / HTTP/1.1") 0 = Some r
    /\ returns demo_app demo_server (chars "GET / HTTP/1.1") 0 r.
Proof. apply (http_server_returns demo_app demo_server). cbn. lia. Defined.

(** ** Findings *)

(** [write_response] without fields writes the content twice. *)
Lemma content_written_twice :
  write_response bad_request (chars "text/plain") (chars "no")
  = write_response_fields bad_request (chars "text/plain") (chars "no") [] ++ chars "no".
Proof. reflexivity. Qed.

(** A target that looks like a host with a bad port makes [make_uri] fail an
    assertion. *)
Lemma target_asserts :
  consume demo_app demo_server (chars "GET //a:1x HTTP/1.1" ++ crlf ++ crlf) = None.
Proof. vm_compute. reflexivity. Qed.

(** A negative or unreadable length counts as no length: the payload is taken for
    the next request. *)
Lemma bad_length_ignored :
  content_length [(chars "Content-Length", chars "-1")] = Some None
  /\ content_length [(chars "Content-Length", chars "12 34")] = Some None.
Proof. split; vm_compute; reflexivity. Qed.

(** The conversion of [2 ^ 63] passes the check of [to_integer]. *)
Lemma length_cast_undefined : content_length [(chars "Content-Length", chars "9.223372036854775e18")] = None.
Proof. vm_compute. reflexivity. Qed.

(** An upper layer that counts the calls of [abort]: the server calls it, and the
    transport again when [consume] returns a negative value. *)
Definition counting_app : upper nat := Upper (fun _ _ n => (0, [], n)) (fun _ n => S n).

Definition counting_server : server :=
  Server read_header (RequestHeader [] [] get Uri.default_instance []) 0 128 (StreamLayer.up_to 128) [] 0%nat.

Lemma aborted_twice :
  exists s, StreamLayer.receive (server_layer counting_app) counting_server [] [chars "FOO / HTTP/1.1" ++ crlf ++ crlf]
    = Some (StreamLayer.Ended s) /\ up_ s = 2%nat.
Proof. eexists. split; vm_compute; reflexivity. Qed.

End HttpServer.
