(* ===== verification/HttpClient.v ===== *)
(** The HTTP client of libcaf_net: [client_impl] of [net/http/client.cpp].

    As for the server, the upper layer is user code that answers with its result
    and the calls it makes on the client.  [shut_] records [down_->shutdown]. *)
From Stdlib Require Import Strings.Ascii Strings.String.
From S2P Require Import Prelude.
From S2P Require Import Fsm.
From S2P Require Import ReadInteger.
From S2P Require Import Printer.
From S2P Require Import Http.
From S2P Require Import StreamLayer.
From S2P Require Import HttpServer.
#[local] Open Scope Z_scope.
#[local] Open Scope caf_scope.

Import Fsm ReadInteger Http.
Import HttpServer(format_hex, hex_digits, chunk_text, mode_t(..), read_header, read_payload, read_chunks).

Module HttpClient.

Inductive action :=
  | BeginHeader (m : method) (path : list Z)
  | AddHeaderField (key val : list Z)
  | EndHeader
  | SendPayload (bytes : list Z)
  | SendChunk (bytes : list Z)
  | SendEndOfChunks
  | RequestMessages
  | SuspendReading.

Definition action_text (a : action) : list Z :=
  match a with
  | BeginHeader m path => begin_request_header m path
  | AddHeaderField key val => add_header_field key val
  | EndHeader => end_header
  | SendPayload bytes => bytes
  | SendChunk bytes => chunk_text bytes
  | SendEndOfChunks => chars "0" ++ crlf ++ crlf
  | RequestMessages | SuspendReading => []
  end.

Record upper (U : Type) := Upper {
  up_consume : response_header -> list Z -> U -> Z * list action * U;
  up_abort : list Z -> U -> U;
}.
Arguments Upper {U}. Arguments up_consume {U}. Arguments up_abort {U}.

Section Client.
  Context {U : Type} (app : upper U).

Record client := Client {
  mode_ : mode_t;
  hdr_ : response_header;
  buffer_ : list Z;
  payload_len_ : Z;
  max_response_size_ : Z;
  policy_ : StreamLayer.receive_policy;
  output : list Z;
  shut_ : bool;
  up_ : U;
}.

Definition set_mode (m : mode_t) (s : client) : client :=
  Client m (hdr_ s) (buffer_ s) (payload_len_ s) (max_response_size_ s) (policy_ s) (output s) (shut_ s) (up_ s).

Definition set_hdr (h : response_header) (s : client) : client :=
  Client (mode_ s) h (buffer_ s) (payload_len_ s) (max_response_size_ s) (policy_ s) (output s) (shut_ s) (up_ s).

Definition set_buffer (b : list Z) (s : client) : client :=
  Client (mode_ s) (hdr_ s) b (payload_len_ s) (max_response_size_ s) (policy_ s) (output s) (shut_ s) (up_ s).

Definition set_payload_len (n : Z) (s : client) : client :=
  Client (mode_ s) (hdr_ s) (buffer_ s) n (max_response_size_ s) (policy_ s) (output s) (shut_ s) (up_ s).

Definition configure_read (p : StreamLayer.receive_policy) (s : client) : client :=
  Client (mode_ s) (hdr_ s) (buffer_ s) (payload_len_ s) (max_response_size_ s) p (output s) (shut_ s) (up_ s).

Definition write (t : list Z) (s : client) : client :=
  Client (mode_ s) (hdr_ s) (buffer_ s) (payload_len_ s) (max_response_size_ s) (policy_ s) (output s ++ t) (shut_ s) (up_ s).

Definition set_up (u : U) (s : client) : client :=
  Client (mode_ s) (hdr_ s) (buffer_ s) (payload_len_ s) (max_response_size_ s) (policy_ s) (output s) (shut_ s) u.

Definition shutdown (s : client) : client :=
  Client (mode_ s) (hdr_ s) (buffer_ s) (payload_len_ s) (max_response_size_ s) (policy_ s) (output s) true (up_ s).

Definition is_reading (s : client) : bool := (0 <? StreamLayer.max_size (policy_ s))%nat.

Definition default_policy (s : client) : StreamLayer.receive_policy :=
  StreamLayer.up_to (Z.to_nat (max_response_size_ s)).

Definition request_messages (s : client) : client :=
  if is_reading s then s else configure_read (default_policy s) s.

Definition suspend_reading (s : client) : client := configure_read StreamLayer.stop s.

Definition perform (a : action) (s : client) : client :=
  match a with
  | RequestMessages => request_messages s
  | SuspendReading => suspend_reading s
  | _ => write (action_text a) s
  end.

Definition perform_all (acts : list action) (s : client) : client := fold_left (fun s a => perform a s) acts s.

Definition abort (reason : list Z) (s : client) : client := set_up (up_abort app reason (up_ s)) s.

Definition abort_and_shutdown (message : list Z) (s : client) : client := shutdown (abort message s).

Definition invoke_upper_layer (payload : list Z) (s : client) : bool * client :=
  let '(res, acts, u) := up_consume app (hdr_ s) payload (up_ s) in
  (0 <=? res, perform_all acts (set_up u s)).

Definition handle_header (http : list Z) (s : client) : option (bool * client) :=
  match res_parse (hdr_ s) http with
  | None => None
  | Some (code, msg, h) =>
      let s := set_hdr h s in
      if bool_decide (code = status_ok) then Some (true, s) else Some (false, abort_and_shutdown msg s)
  end.

Definition chunk_message (e : chunk_error) : list Z :=
  match e with
  | incomplete => []
  | too_long => chars "Chunk size part is too long."
  | extension => chars "Chunk extensions not supported."
  | not_a_number => chars "Chunk size decoding error."
  | overflow => chars "Integer overflow while parsing chunk size."
  end.

(** The part of [consume] for the payload. *)
Definition consume_payload (s : client) (input : list Z) (consumed : Z) : option (Z * client) :=
  if zlen input <? payload_len_ s then Some (consumed, s)
  else
    let '(ok, s1) := invoke_upper_layer (take (Z.to_nat (payload_len_ s)) input) s in
    if ok then Some (consumed + payload_len_ s, set_mode read_header s1) else Some (-1, s1).

(** The part for chunks. *)
Definition consume_chunk (s : client) (input : list Z) (consumed : Z) : option (Z * client) :=
  match parse_chunk input with
  | inl incomplete => Some (consumed, s)
  | inl e => Some (-1, abort_and_shutdown (chunk_message e) s)
  | inr (chunk_size, remainder) =>
      if max_response_size_ s <? uwrap 64 (chunk_size + zlen (buffer_ s)) then
        Some (-1, abort_and_shutdown (chars "Payload exceeds maximum size.") s)
      else if zlen remainder <? uwrap 64 (chunk_size + 2) then
        let awaited := zlen input - zlen remainder + chunk_size + 2 in
        Some (consumed, configure_read (StreamLayer.exactly (Z.to_nat awaited)) s)
      else
        let s1 := configure_read (default_policy s) s in
        let consumed := consumed + (zlen input - zlen remainder + chunk_size + 2) in
        match remainder !! Z.to_nat chunk_size, remainder !! (Z.to_nat chunk_size + 1)%nat with
        | Some a, Some b =>
            if negb (a =? 13) || negb (b =? 10) then
              Some (-1, abort_and_shutdown (chars "Missing CRLF sequence at the end of the chunk.") s1)
            else if chunk_size =? 0 then
              let '(ok, s2) := invoke_upper_layer (buffer_ s1) s1 in
              if ok then Some (consumed, set_buffer [] (set_mode read_header s2)) else Some (-1, s2)
            else Some (consumed, set_buffer (buffer_ s1 ++ take (Z.to_nat chunk_size) remainder) s1)
        | _, _ => None
        end
  end.

Definition consume (s : client) (input : list Z) : option (Z * client) :=
  match mode_ s with
  | read_header =>
      if max_response_size_ s <? zlen input then
        Some (-1, abort_and_shutdown (chars "Header exceeds maximum size.") s)
      else
        let '(hdr, remainder) := split_header input in
        if bool_decide (hdr = []) then Some (0, s)
        else
          match handle_header hdr s with
          | None => None
          | Some (false, s1) => Some (-1, s1)
          | Some (true, s1) =>
              if chunked_transfer_encoding (res_fields (hdr_ s1))
              then consume_chunk (set_mode read_chunks s1) remainder (zlen hdr)
              else
                match content_length (res_fields (hdr_ s1)) with
                | None => None
                | Some (Some len) =>
                    if max_response_size_ s <? len then
                      Some (-1, abort_and_shutdown (chars "Payload exceeds maximum size.") s1)
                    else consume_payload (set_mode read_payload (set_payload_len len s1)) remainder (zlen hdr)
                | Some None =>
                    let '(ok, s2) := invoke_upper_layer [] s1 in
                    if ok then Some (zlen hdr, s2) else Some (-1, s2)
                end
          end
  | read_payload => consume_payload s input 0
  | read_chunks => consume_chunk s input 0
  end.

Definition client_layer : StreamLayer.layer client :=
  StreamLayer.Layer consume policy_ (abort (chars "consumed < 0")).

End Client.
Arguments Client {U}. Arguments mode_ {U}. Arguments hdr_ {U}. Arguments buffer_ {U}. Arguments payload_len_ {U}.
Arguments max_response_size_ {U}. Arguments policy_ {U}. Arguments output {U}. Arguments shut_ {U}. Arguments up_ {U}.

(** ** Chunk sizes *)

Definition upper_digit (d : Z) : Z := List.nth (Z.to_nat d) (chars "0123456789ABCDEF") 0.

Lemma upper_digit_ok d :
  0 <= d < 16 -> in_whitelist hexadecimal_chars (upper_digit d) = true /\ ascii_to_int 16 (upper_digit d) = d.
Proof.
  intros Hd. assert (d ∈ seqZ 0 16) as Hin by (apply elem_of_seqZ; lia).
  assert (H : forallb (fun d => in_whitelist hexadecimal_chars (upper_digit d) && (ascii_to_int 16 (upper_digit d) =? d)) (seqZ 0 16) = true)
    by (vm_compute; reflexivity).
  rewrite forallb_forall in H. apply list_elem_of_In, H in Hin. apply andb_prop in Hin as [H1 H2]. split; [done|lia].
Qed.

Lemma hex_digits_ok fuel n acc :
  0 <= n < 16 ^ Z.of_nat fuel -> (0 < fuel)%nat ->
  exists ds, hex_digits fuel n acc = ds ++ acc /\ Forall (fun c => in_whitelist hexadecimal_chars c = true) ds
    /\ ds <> [] /\ value 16 ds = n /\ forall k, (0 < k)%nat -> n < 16 ^ Z.of_nat k -> (length ds <= k)%nat.
Proof.
  revert n acc. induction fuel as [|fuel IH]; intros n acc Hn Hf; [lia|]. cbn [hex_digits].
  pose proof (Z.mod_pos_bound n 16 ltac:(lia)) as Hm. destruct (upper_digit_ok _ Hm) as [Hd Hv].
  pose proof (Z.div_mod n 16 ltac:(lia)) as Hdm. fold (upper_digit (n mod 16)).
  destruct (Z.eqb_spec (n / 16) 0) as [E|E].
  - exists [upper_digit (n mod 16)]. split_and!; [done|by constructor|done| |].
    + unfold value. cbn [fold_left]. rewrite Hv. lia.
    + intros k Hk _. cbn. lia.
  - assert (0 <= n / 16) by (apply Z.div_pos; lia).
    assert (fuel <> O). { intros ->. change (16 ^ Z.of_nat 1) with 16 in Hn. apply E. apply Z.div_small. lia. }
    destruct (IH (n / 16) (upper_digit (n mod 16) :: acc)) as (ds & Hds & Hhex & Hne & Hval & Hlen).
    { rewrite Nat2Z.inj_succ, Z.pow_succ_r in Hn by lia. split; [done|]. apply Z.div_lt_upper_bound; lia. } { lia. }
    exists (ds ++ [upper_digit (n mod 16)]). split_and!.
    + by rewrite Hds, <- app_assoc.
    + apply Forall_app. split; [done|by constructor].
    + by destruct ds.
    + unfold value in *. rewrite fold_left_app. cbn [fold_left]. rewrite Hval, Hv. lia.
    + intros k Hk Hkn. destruct k as [|k]; [lia|]. rewrite length_app. cbn [length].
      destruct k as [|k]. { change (16 ^ Z.of_nat 1) with 16 in Hkn. destruct E. apply Z.div_small. lia. }
      specialize (Hlen (S k) ltac:(lia)). rewrite (Nat2Z.inj_succ (S k)), Z.pow_succ_r in Hkn by lia.
      assert (n / 16 < 16 ^ Z.of_nat (S k)) as Hl by (apply Z.div_lt_upper_bound; lia). specialize (Hlen Hl). lia.
Qed.

Lemma wrapped_value ds x :
  fold_left (fun a c => uwrap 64 (a * 16 + ascii_to_int 16 c)) ds (uwrap 64 x)
  = uwrap 64 (fold_left (fun a c => a * 16 + ascii_to_int 16 c) ds x).
Proof.
  revert x. induction ds as [|c ds IH]; intros x; [done|]. cbn [fold_left]. rewrite <- IH. f_equal. unfold uwrap.
  rewrite <- (Z.add_mod_idemp_l (x * 16)), <- (Z.mul_mod_idemp_l x), Z.add_mod_idemp_l by lia. done.
Qed.

Lemma format_hex_ok n :
  0 <= n < 2 ^ 32 ->
  Forall (fun c => in_whitelist hexadecimal_chars c = true) (format_hex n) /\ value 16 (format_hex n) = n
  /\ (0 < length (format_hex n) <= 8)%nat /\ lacks 13 (format_hex n).
Proof.
  intros Hn. destruct (hex_digits_ok 16 n []) as (ds & Hds & Hhex & Hne & Hval & Hlen).
  { change (16 ^ Z.of_nat 16) with (2 ^ 64). lia. } { lia. }
  unfold format_hex. rewrite Hds, app_nil_r. split_and!; [done..| | |].
  - destruct ds; [done|cbn; lia].
  - apply Hlen; [lia|]. change (16 ^ Z.of_nat 8) with (2 ^ 32). lia.
  - unfold lacks. intros Hin. rewrite Forall_forall in Hhex. by apply Hhex in Hin.
Qed.

(** A chunk line is read back, and not before it is complete. *)
Lemma parse_chunk_text n t :
  0 <= n < 2 ^ 32 -> parse_chunk (format_hex n ++ crlf ++ t) = inr (n, t).
Proof.
  intros Hn. destruct (format_hex_ok n Hn) as (Hhex & Hval & Hlen & Hcr). unfold parse_chunk.
  rewrite split_line by done. rewrite (proj2 (Nat.eqb_neq _ _)) by (rewrite !length_app; change (length crlf) with 2%nat; lia).
  assert (existsb (fun c => c =? chr ";") (format_hex n) = false) as ->.
  { apply not_true_is_false. intros H. apply existsb_exists in H as (c & Hin & Hc). apply Z.eqb_eq in Hc as ->.
    apply list_elem_of_In in Hin. rewrite Forall_forall in Hhex. by apply Hhex in Hin. }
  assert (forallb (in_whitelist hexadecimal_chars) (format_hex n) = true) as ->.
  { apply forallb_forall. intros c Hin. apply list_elem_of_In in Hin. rewrite Forall_forall in Hhex. by apply Hhex. }
  cbn [negb]. rewrite (proj2 (Z.ltb_ge 8 _)) by (unfold zlen; lia).
  pose proof (wrapped_value (format_hex n) 0) as Hw. change (uwrap 64 0) with 0 in Hw.
  rewrite Hw. fold (value 16 (format_hex n)). rewrite Hval. unfold uwrap. rewrite Z.mod_small by lia.
  rewrite app_assoc, length_app. replace (length (format_hex n ++ crlf) + length t - length t)%nat with (length (format_hex n ++ crlf)) by lia.
  by rewrite drop_app_length.
Qed.

Lemma parse_chunk_cut n t b r :
  0 <= n < 2 ^ 32 -> format_hex n ++ crlf ++ t = b ++ r -> (length b < length (format_hex n ++ crlf))%nat ->
  parse_chunk b = inl incomplete.
Proof.
  intros Hn Ht Hb. destruct (format_hex_ok n Hn) as (_ & _ & Hlen & Hcr). unfold parse_chunk, split_by.
  pose proof (search_line (format_hex n) t Hcr) as Hs. rewrite Ht in Hs. rewrite length_app in Hb. change (length crlf) with 2%nat in Hb.
  rewrite (search_cut _ _ _ _ Hs) by (change (length crlf) with 2%nat; lia). rewrite Nat.eqb_refl.
  by rewrite (proj2 (Z.leb_gt 10 _)) by (unfold zlen; lia).
Qed.

(** ** Responses *)

Inductive body := Plain (payload : list Z) | Chunks (chunks : list (list Z)).

Record response := Response {
  rp_status : status;
  rp_fields : fields_map;
  rp_body : body;
}.

Definition header_bytes (r : response) : list Z := write_response_header (rp_status r) (rp_fields r).

(** [send_end_of_chunks] sends an empty chunk. *)
Definition chunks_text (cs : list (list Z)) : list Z := flat_map chunk_text (cs ++ [[]]).

Definition body_bytes (b : body) : list Z :=
  match b with Plain p => p | Chunks cs => chunks_text cs end.

Definition body_payload (b : body) : list Z :=
  match b with Plain p => p | Chunks cs => concat cs end.

Definition stream (rs : list response) : list Z := flat_map (fun r => header_bytes r ++ body_bytes (rp_body r)) rs.

Definition header_of (r : response) : response_header :=
  ResponseHeader (header_bytes r) (rp_fields r) (chars "HTTP/1.1") (status_value (rp_status r)) (phrase (rp_status r)).

Definition ok_body (max : Z) (fs : fields_map) (b : body) : Prop :=
  match b with
  | Plain p =>
      chunked_transfer_encoding fs = false
      /\ (content_length fs = Some (Some (zlen p)) /\ zlen p <= max \/ content_length fs = Some None /\ p = [])
  | Chunks cs =>
      chunked_transfer_encoding fs = true /\ Forall (fun c => c <> []) cs /\ zlen (concat cs) <= max
  end.

Definition ok_response (max : Z) (r : response) : Prop :=
  Forall ok_field (rp_fields r) /\ zlen (header_bytes r) <= max /\ ok_body max (rp_fields r) (rp_body r).

Lemma end_of_chunks_text : action_text SendEndOfChunks = chunk_text [].
Proof. reflexivity. Qed.

Section Delivery.
  Context {U : Type} (app : upper U) (max : Z).
  Hypothesis (Hmax : 10 <= max < 2 ^ 32).
  Hypothesis (accepts : forall h p u, 0 <= (up_consume app h p u).1.1).
  Hypothesis (keeps_reading : forall h p u, SuspendReading ∉ (up_consume app h p u).1.2).

Definition serve (x : U * list Z) (r : response) : U * list Z :=
  let '(_, acts, u) := up_consume app (header_of r) (body_payload (rp_body r)) x.1 in
  (u, x.2 ++ flat_map action_text acts).

Definition serve_all (rs : list response) (x : U * list Z) : U * list Z := fold_left serve rs x.

Definition observed (s : @client U) : U * list Z := (up_ s, output s).

Context (goal : U * list Z).

Definition usual : StreamLayer.receive_policy := StreamLayer.up_to (Z.to_nat max).

(** The responses [rs] are still to come, the first one possibly in part. *)
Definition awaiting (s : @client U) (rs : list response) (t : list Z) : Prop :=
  match mode_ s with
  | read_header => policy_ s = usual /\ buffer_ s = [] /\ t = stream rs
  | read_payload =>
      policy_ s = usual /\ buffer_ s = [] /\ exists q rs' p, rs = q :: rs' /\ hdr_ s = header_of q
        /\ rp_body q = Plain p /\ payload_len_ s = zlen p /\ 0 < payload_len_ s <= max /\ t = p ++ stream rs'
  | read_chunks =>
      exists q rs' sofar todo, rs = q :: rs' /\ hdr_ s = header_of q /\ rp_body q = Chunks (sofar ++ todo)
        /\ buffer_ s = concat sofar /\ t = chunks_text todo ++ stream rs'
        /\ (policy_ s = usual \/ policy_ s = StreamLayer.exactly (length (chunk_text (hd [] todo))))
  end.

Definition expecting (s : @client U) (t : list Z) : Prop :=
  max_response_size_ s = max
  /\ exists rs, Forall (ok_response max) rs /\ serve_all rs (observed s) = goal /\ awaiting s rs t.

Lemma client_perform_keeps a (s : @client U) :
  mode_ (perform a s) = mode_ s /\ hdr_ (perform a s) = hdr_ s /\ buffer_ (perform a s) = buffer_ s
  /\ max_response_size_ (perform a s) = max_response_size_ s /\ up_ (perform a s) = up_ s
  /\ output (perform a s) = output s ++ action_text a
  /\ (a <> SuspendReading -> policy_ s = usual -> policy_ (perform a s) = usual).
Proof using Hmax.
  destruct a; cbn; rewrite ?app_nil_r; try done. unfold request_messages. destruct (is_reading s) eqn:E; [done|].
  split_and!; try done. cbn. unfold is_reading. intros _ Hp. unfold is_reading in E. rewrite Hp in E. cbn in E.
  destruct (Z.to_nat max) eqn:Em; [lia|done].
Qed.

Lemma client_perform_all_keeps acts (s : @client U) :
  SuspendReading ∉ acts -> policy_ s = usual ->
  mode_ (perform_all acts s) = mode_ s /\ hdr_ (perform_all acts s) = hdr_ s /\ buffer_ (perform_all acts s) = buffer_ s
  /\ max_response_size_ (perform_all acts s) = max_response_size_ s /\ up_ (perform_all acts s) = up_ s
  /\ output (perform_all acts s) = output s ++ flat_map action_text acts /\ policy_ (perform_all acts s) = usual.
Proof using Hmax.
  revert s. induction acts as [|a acts IH]; intros s Hn Hp; cbn [perform_all fold_left flat_map]; [by rewrite app_nil_r|].
  apply not_elem_of_cons in Hn as [Ha Hn]. destruct (client_perform_keeps a s) as (P1 & P2 & P3 & P4 & P5 & P6 & P7).
  specialize (P7 ltac:(congruence) Hp).
  destruct (IH (perform a s) Hn P7) as (H1 & H2 & H3 & H4 & H5 & H6 & H7). fold (perform_all acts (perform a s)) in *.
  rewrite H1, H2, H3, H4, H5, H6, H7, P1, P2, P3, P4, P5, P6, app_assoc. done.
Qed.

Lemma response_invoked q s :
  hdr_ s = header_of q -> policy_ s = usual ->
  exists s', invoke_upper_layer app (body_payload (rp_body q)) s = (true, s') /\ observed s' = serve (observed s) q
    /\ mode_ s' = mode_ s /\ buffer_ s' = buffer_ s /\ policy_ s' = usual /\ max_response_size_ s' = max_response_size_ s.
Proof using Hmax accepts keeps_reading.
  intros Hh Hp. unfold invoke_upper_layer, serve, observed. cbn [fst snd]. rewrite Hh.
  pose proof (accepts (header_of q) (body_payload (rp_body q)) (up_ s)) as Ha.
  pose proof (keeps_reading (header_of q) (body_payload (rp_body q)) (up_ s)) as Hk.
  destruct (up_consume app (header_of q) (body_payload (rp_body q)) (up_ s)) as [[res acts] u]. cbn [fst snd] in *.
  rewrite (proj2 (Z.leb_le 0 res)) by done. eexists. split; [reflexivity|].
  destruct (client_perform_all_keeps acts (set_up u s) Hk Hp) as (H1 & _ & H3 & H4 & H5 & H6 & H7).
  rewrite H1, H3, H4, H5, H6, H7. done.
Qed.

Lemma response_lines q : header_bytes q = lines_text (response_line (rp_status q) :: map field_text (rp_fields q)) ++ crlf.
Proof. apply response_text_lines. Qed.

Lemma response_ok_lines q : ok_response max q -> Forall ok_line (response_line (rp_status q) :: map field_text (rp_fields q)).
Proof.
  intros (Hf & _). constructor; [|by apply fields_lines]. pose proof (status_lines (rp_status q)) as H. unfold status_line_ok in H.
  apply andb_prop in H as [H _]. apply andb_prop in H as [H _]. apply andb_prop in H as [H _]. apply bool_decide_eq_true in H. by split.
Qed.

Lemma handle_response q s :
  ok_response max q -> handle_header app (header_bytes q) s = Some (true, set_hdr (header_of q) s).
Proof.
  intros (Hf & _). unfold handle_header, header_bytes. change (write_response_header (rp_status q) (rp_fields q))
    with (response_text (rp_status q) (rp_fields q)). rewrite res_parse_text by done. by rewrite bool_decide_eq_true_2.
Qed.

Lemma response_header_length q : (4 <= length (header_bytes q))%nat.
Proof.
  rewrite response_lines, length_app. pose proof (lines_length (response_line (rp_status q)) (map field_text (rp_fields q))).
  change (length crlf) with 2%nat. lia.
Qed.

(** Why a call takes nothing: more has to arrive, or more of what has arrived has
    to be shown. *)
Definition starved (s s' : @client U) (w r : list Z) : Prop :=
  (policy_ s' = policy_ s /\ (length w < StreamLayer.max_size (policy_ s))%nat /\ r <> [])
  \/ (length w < StreamLayer.max_size (policy_ s') <= length (w ++ r))%nat.

Lemma chunk_text_length c : length (chunk_text c) = (length (format_hex (zlen c) ++ crlf) + length c + 2)%nat.
Proof. unfold chunk_text. rewrite !length_app. change (length crlf) with 2%nat. lia. Qed.

Lemma split_prefix (a b w r : list Z) :
  w ++ r = a ++ b -> (length a <= length w)%nat -> exists w2, w = a ++ w2 /\ w2 ++ r = b.
Proof.
  intros H Hl. exists (drop (length a) w). assert (w = a ++ drop (length a) w) as E.
  { apply (f_equal (take (length a))) in H. rewrite take_app_length, take_app_le in H by lia.
    rewrite <- (take_drop (length a) w) at 1. by rewrite H. }
  split; [done|]. rewrite E, <- app_assoc in H. by apply app_inv_head in H.
Qed.

Lemma chunks_text_cons todo : chunks_text todo = chunk_text (hd [] todo) ++ match todo with [] => [] | _ :: todo' => chunks_text todo' end.
Proof. destruct todo; [by rewrite app_nil_r|done]. Qed.

(** One round in [read_chunks]. *)
Lemma chunk_delivers s w r k :
  mode_ s = read_chunks -> expecting s (w ++ r) ->
  exists c s', consume_chunk app s w k = Some (k + Z.of_nat c, s') /\ (c <= length w)%nat
    /\ expecting s' (drop c (w ++ r)) /\ (c = O -> starved s s' w r).
Proof using Hmax accepts keeps_reading.
  intros Hm HE. pose proof HE as (Hms & rs & Hrs & Hgoal & Haw). unfold awaiting in Haw. rewrite Hm in Haw.
  destruct Haw as (q & rs' & sofar & todo & -> & Hh & Hbody & Hbuf & Ht & Hpol). apply Forall_cons in Hrs as [Hq Hrs].
  pose proof Hq as (_ & _ & Hok). rewrite Hbody in Hok. destruct Hok as (_ & Hne & Hsize). rewrite concat_app in Hsize.
  rewrite chunks_text_cons, <- app_assoc in Ht. set (x := hd [] todo) in *.
  assert (Hx : zlen x + zlen (concat sofar) <= max).
  { unfold zlen in *. rewrite length_app in Hsize. destruct todo as [|y todo]; cbn in *; [lia|]. rewrite length_app in Hsize. lia. }
  assert (Hx32 : 0 <= zlen x < 2 ^ 32) by (unfold zlen in *; lia).
  destruct (format_hex_ok (zlen x) Hx32) as (_ & _ & Hfl & _). pose proof (chunk_text_length x) as Hcl.
  set (rest := match todo with [] => [] | _ :: todo' => chunks_text todo' end ++ stream rs') in *.
  assert (Hline : chunk_text x ++ rest = format_hex (zlen x) ++ crlf ++ (x ++ crlf ++ rest)) by (unfold chunk_text; by rewrite <- !app_assoc).
  assert (Htl : (length (chunk_text x) <= length (w ++ r))%nat) by (rewrite Ht, length_app; lia).
  unfold consume_chunk. destruct (decide (length w < length (format_hex (zlen x) ++ crlf))%nat) as [Hcut|Hfull].
  { pose proof Ht as Ht'. rewrite Hline in Ht'. symmetry in Ht'. rewrite (parse_chunk_cut _ _ _ _ Hx32 Ht' Hcut).
    exists 0%nat, s. split_and!; [by rewrite Z.add_0_r|lia|done|]. intros _. left. split; [done|].
    rewrite length_app in Hcut. change (length crlf) with 2%nat in Hcut. split.
    - unfold usual in Hpol. destruct Hpol as [-> | ->]; cbn [StreamLayer.exactly StreamLayer.up_to StreamLayer.max_size]; [lia|].
      fold x. rewrite Hcl, length_app. change (length crlf) with 2%nat. lia.
    - intros ->. rewrite app_nil_r in Htl. rewrite Hcl, length_app in Htl. change (length crlf) with 2%nat in Htl. lia. }
  rewrite Hline, app_assoc in Ht. destruct (split_prefix _ _ _ _ Ht ltac:(lia)) as (w2 & -> & Hw2).
  rewrite <- (app_assoc (format_hex (zlen x))), parse_chunk_text by done. rewrite Hms, Hbuf.
  unfold uwrap. rewrite !Z.mod_small by (unfold zlen in *; lia). rewrite (proj2 (Z.ltb_ge max _)) by lia.
  assert (Hdiff : zlen (format_hex (zlen x) ++ crlf ++ w2) - zlen w2 + zlen x + 2 = Z.of_nat (length (chunk_text x))).
  { rewrite Hcl. unfold zlen. rewrite !length_app. change (length crlf) with 2%nat. lia. }
  rewrite Hdiff. destruct (Z.ltb_spec (zlen w2) (zlen x + 2)) as [Hshort|Hlong].
  { exists 0%nat, (configure_read (StreamLayer.exactly (length (chunk_text x))) s). rewrite Nat2Z.id.
    split_and!; [by rewrite Z.add_0_r|lia| |].
    - rewrite drop_0. split; [done|]. exists (q :: rs'). split_and!; [by constructor|done|]. unfold awaiting. cbn [mode_ configure_read]. rewrite Hm.
      exists q, rs', sofar, todo. split_and!; [done..| |by right]. rewrite chunks_text_cons. fold x. rewrite <- (app_assoc (chunk_text x)). fold rest.
      rewrite Hline, (app_assoc (format_hex (zlen x)) crlf (x ++ crlf ++ rest)), <- Ht. by rewrite <- !app_assoc.
    - intros _. right. cbn [policy_ configure_read StreamLayer.exactly StreamLayer.max_size]. split; [|rewrite !length_app in Htl |- *; lia].
      rewrite Hcl, !length_app. unfold zlen in *. lia. }
  rewrite app_assoc in Hw2. destruct (split_prefix _ _ _ _ Hw2) as (w3 & -> & Hw3).
  { rewrite length_app. change (length crlf) with 2%nat. unfold zlen in *. lia. }
  rewrite <- (app_assoc x) in *.
  assert (L1 : (x ++ crlf ++ w3) !! Z.to_nat (zlen x) = Some 13) by (unfold zlen; rewrite Nat2Z.id; by apply list_lookup_middle).
  assert (L2 : (x ++ crlf ++ w3) !! (Z.to_nat (zlen x) + 1)%nat = Some 10).
  { unfold zlen. rewrite Nat2Z.id, lookup_app_r by lia. by replace (length x + 1 - length x)%nat with 1%nat by lia. }
  assert (L3 : take (Z.to_nat (zlen x)) (x ++ crlf ++ w3) = x) by (unfold zlen; by rewrite Nat2Z.id, take_app_length).
  rewrite L1, L2, L3. cbn [Z.eqb Pos.eqb negb orb]. cbv iota.
  assert (Htext : chunk_text x ++ rest = format_hex (zlen x) ++ crlf ++ x ++ crlf ++ w3 ++ r) by (by rewrite Hline, <- Hw3).
  assert (Hin : (length (chunk_text x) <= length ((format_hex (zlen x) ++ crlf) ++ x ++ crlf ++ w3))%nat)
    by (rewrite Hcl, !length_app; change (length crlf) with 2%nat; lia).
  assert (Hpos : length (chunk_text x) <> O) by lia.
  exists (length (chunk_text x)). destruct (Z.eqb_spec (zlen x) 0) as [Hx0|Hx0].
  - assert (x = []) as Hnil by (unfold zlen in Hx0; by destruct x).
    assert (todo = []) as ->. { destruct todo as [|y todo]; [done|]. apply Forall_app in Hne as [_ Hne]. by apply Forall_cons in Hne as [Hne _]. }
    rewrite app_nil_r in Hbody. cbn [buffer_ configure_read]. rewrite Hbuf. pose proof (response_invoked q (configure_read (default_policy s) s)) as Hi.
    rewrite Hbody in Hi. cbn [body_payload] in Hi. destruct Hi as (s' & -> & Ho & H1 & H2 & H3 & H4);
      [done|cbn [policy_ configure_read]; unfold default_policy; by rewrite Hms|].
    eexists. split_and!; [reflexivity| | |done]; [rewrite !length_app in Hin |- *; lia|].
    rewrite <- !app_assoc, <- Htext, drop_app_length. split; [cbn; by rewrite H4|]. exists rs'.
    split_and!; [done| |].
    + unfold observed in *. cbn. by rewrite Ho.
    + unfold awaiting. cbn [mode_ set_mode set_buffer policy_ buffer_]. by split_and!.
  - eexists. split_and!; [reflexivity| | |done]; [rewrite !length_app in Hin |- *; lia|].
    rewrite <- !app_assoc, <- Htext, drop_app_length. split; [done|]. exists (q :: rs').
    split_and!; [by constructor|done|]. unfold awaiting. cbn [mode_ set_buffer configure_read hdr_ buffer_ policy_]. rewrite Hm.
    destruct todo as [|y todo]; [done|]. exists q, rs', (sofar ++ [y]), todo.
    split_and!; [done|done|by rewrite <- app_assoc| |done|].
    + rewrite Hbuf, concat_app. cbn. by rewrite app_nil_r.
    + left. unfold default_policy. by rewrite Hms.
Qed.

(** One round for a payload. *)
Lemma payload_delivers s w r k q rs p :
  max_response_size_ s = max -> Forall (ok_response max) (q :: rs) -> serve_all (q :: rs) (observed s) = goal ->
  mode_ s = read_payload -> policy_ s = usual -> buffer_ s = [] -> hdr_ s = header_of q -> rp_body q = Plain p ->
  payload_len_ s = zlen p -> zlen p <= max -> w ++ r = p ++ stream rs ->
  exists c s', consume_payload app s w k = Some (k + Z.of_nat c, s') /\ (c <= length w)%nat
    /\ expecting s' (drop c (w ++ r)) /\ (c = O -> p <> [] -> starved s s' w r).
Proof using Hmax accepts keeps_reading.
  intros Hms Hrs Hgoal Hm Hpol Hbuf Hh Hbody Hlen Hle Ht. unfold consume_payload. rewrite Hlen.
  destruct (Z.ltb_spec (zlen w) (zlen p)) as [Hshort|Hlong].
  - exists 0%nat, s. split_and!; [by rewrite Z.add_0_r|lia| |].
    + split; [done|]. exists (q :: rs). split_and!; [done..|]. unfold awaiting. rewrite Hm. split_and!; [done..|].
      exists q, rs, p. split_and!; [done..|unfold zlen in *; lia|lia|done].
    + intros _ _. left. split; [done|]. rewrite Hpol. cbn. unfold zlen in *. split; [lia|].
      intros ->. rewrite app_nil_r in Ht. apply (f_equal length) in Ht. rewrite length_app in Ht. lia.
  - destruct (split_prefix _ _ _ _ Ht) as (w2 & -> & Hw2); [unfold zlen in *; lia|].
    unfold zlen at 1. rewrite Nat2Z.id, take_app_length.
    pose proof (response_invoked q s Hh Hpol) as Hi. rewrite Hbody in Hi. cbn [body_payload] in Hi.
    destruct Hi as (s' & -> & Ho & H1 & H2 & H3 & H4). exists (length p). eexists.
    split_and!; [reflexivity|rewrite length_app; lia| |by intros Hp0 Hp; destruct p].
    rewrite <- app_assoc, drop_app_length. apply Forall_cons in Hrs as [_ Hrs]. split; [cbn; by rewrite H4|]. exists rs.
    split_and!; [done|unfold observed in *; cbn; by rewrite Ho|]. unfold awaiting. cbn [mode_ set_mode policy_ buffer_].
    split_and!; [done|congruence|done].
Qed.

(** One call of [consume]. *)
Lemma consume_delivers s w r :
  expecting s (w ++ r) -> w <> [] -> zlen w <= max \/ mode_ s = read_chunks ->
  exists c s', consume app s w = Some (Z.of_nat c, s') /\ (c <= length w)%nat
    /\ expecting s' (drop c (w ++ r)) /\ (c = O -> starved s s' w r).
Proof using Hmax accepts keeps_reading.
  intros HE Hne Hw. pose proof HE as (Hms & rs & Hrs & Hgoal & Haw). unfold awaiting in Haw. unfold consume.
  destruct (mode_ s) eqn:Hm.
  - destruct Hw as [Hw|]; [|done]. destruct Haw as (Hpol & Hbuf & Ht). rewrite Hms, (proj2 (Z.ltb_ge max _)) by done.
    destruct rs as [|q rs]. { by destruct w. }
    pose proof Hrs as Hrs'. apply Forall_cons in Hrs as [Hq Hrs]. cbn [stream flat_map] in Ht. fold (stream rs) in Ht. rewrite <- app_assoc in Ht.
    pose proof Hq as (_ & Hhl & Hok). pose proof (response_header_length q) as Hlen.
    destruct (decide (length w < length (header_bytes q))%nat) as [Hcut|Hfull].
    { pose proof Ht as Htext. rewrite response_lines, <- app_assoc in Htext. symmetry in Htext.
      pose proof (split_header_cut _ _ _ _ _ (response_ok_lines q Hq) Htext) as Hsplit. rewrite <- response_lines in Hsplit.
      rewrite (Hsplit Hcut), bool_decide_eq_true_2 by done. exists 0%nat, s. split_and!; [done|lia|done|].
      intros _. left. split; [done|]. rewrite Hpol. cbn. unfold zlen in *. split; [lia|].
      intros ->. rewrite app_nil_r in Ht. apply (f_equal length) in Ht. rewrite !length_app in Ht. lia. }
    destruct (split_prefix _ _ _ _ Ht ltac:(lia)) as (w2 & -> & Hw2).
    assert (split_header (header_bytes q ++ w2) = (header_bytes q, w2)) as ->.
    { rewrite response_lines, <- app_assoc. by apply split_header_text, response_ok_lines. }
    rewrite bool_decide_eq_false_2 by (destruct (header_bytes q); [cbn in Hlen; lia|done]).
    rewrite (handle_response q s Hq). cbn [hdr_ set_hdr res_fields header_of].
    assert (Hgo : forall c s', (c <= length w2)%nat -> expecting s' (drop c (w2 ++ r)) ->
      (length (header_bytes q) + c <= length (header_bytes q ++ w2))%nat
      /\ expecting s' (drop (length (header_bytes q) + c) ((header_bytes q ++ w2) ++ r))
      /\ ((length (header_bytes q) + c)%nat = O -> starved s s' (header_bytes q ++ w2) r)).
    { intros c s' Hc He. split_and!; [rewrite length_app; lia| |lia]. by rewrite <- app_assoc, drop_app_add'. }
    destruct (rp_body q) as [p|cs] eqn:Hbody.
    + destruct Hok as [-> Hcl]. destruct Hcl as [[-> Hpl]|[-> ->]].
      * rewrite (proj2 (Z.ltb_ge max _)) by done.
        destruct (payload_delivers (set_mode read_payload (set_payload_len (zlen p) (set_hdr (header_of q) s))) w2 r (zlen (header_bytes q)) q rs p)
          as (c & s' & -> & Hc & He & _); [done..|]. destruct (Hgo c s' Hc He) as (G1 & G2 & G3).
        exists (length (header_bytes q) + c)%nat, s'. unfold zlen. by split_and!; [do 2 f_equal; lia|..].
      * pose proof (response_invoked q (set_hdr (header_of q) s) eq_refl Hpol) as Hi. rewrite Hbody in Hi. cbn [body_payload] in Hi.
        destruct Hi as (s' & -> & Ho & H1 & H2 & H3 & H4). cbn [body_bytes] in Hw2.
        destruct (Hgo 0%nat s') as (G1 & G2 & G3); [lia| |].
        { rewrite drop_0. split; [by rewrite H4|]. exists rs. split_and!; [done|by rewrite Ho|]. unfold awaiting. rewrite H1, H2.
          cbn [mode_ set_hdr]. rewrite Hm. by split_and!. }
        exists (length (header_bytes q) + 0)%nat, s'. unfold zlen. by split_and!; [do 2 f_equal; lia|..].
    + destruct Hok as (-> & Hcs). cbn [body_bytes] in Hw2.
      destruct (chunk_delivers (set_mode read_chunks (set_hdr (header_of q) s)) w2 r (zlen (header_bytes q))) as (c & s' & -> & Hc & He & _); [done| |].
      { split; [done|]. exists (q :: rs). split_and!; [done..|]. unfold awaiting. cbn [mode_ set_mode hdr_ set_hdr buffer_ policy_].
        exists q, rs, [], cs. split_and!; try done. by left. }
      destruct (Hgo c s' Hc He) as (G1 & G2 & G3). exists (length (header_bytes q) + c)%nat, s'. unfold zlen. by split_and!; [do 2 f_equal; lia|..].
  - destruct Haw as (Hpol & Hbuf & q & rs' & p & -> & Hh & Hbody & Hpl & Hpos & Ht).
    destruct (payload_delivers s w r 0 q rs' p) as (c & s' & -> & Hc & He & Hst); [done..|lia|done|].
    exists c, s'. split_and!; [done..|]. intros Hc0. apply Hst; [done|]. intros ->. unfold zlen in *. cbn in *. lia.
  - destruct (chunk_delivers s w r 0 Hm HE) as (c & s' & -> & Hc & He & Hst). by exists c, s'.
Qed.

#[export] Instance client_expects : StreamLayer.Expects (client_layer app) expecting.
Proof using Hmax accepts keeps_reading.
  split.
  - intros s t (Hms & rs & _ & _ & Haw). cbn [StreamLayer.policy client_layer]. unfold awaiting in Haw.
    assert (Husual : policy_ s = usual -> (1 <= StreamLayer.min_size (policy_ s) <= StreamLayer.max_size (policy_ s))%nat
      /\ (t <> [] -> (StreamLayer.min_size (policy_ s) <= length t)%nat)).
    { intros ->. cbn. split; [lia|]. destruct t; [done|]. cbn. lia. }
    destruct (mode_ s); [apply Husual, Haw..|].
    destruct Haw as (q & rs' & sofar & todo & _ & _ & _ & _ & Ht & [Hp|Hp]); [by apply Husual|].
    rewrite Hp. cbn [StreamLayer.exactly StreamLayer.min_size StreamLayer.max_size]. pose proof (chunk_text_length (hd [] todo)).
    split; [lia|]. intros _. rewrite Ht, chunks_text_cons, !length_app. lia.
  - intros s b r HE Hmin. cbn [StreamLayer.policy StreamLayer.consume client_layer] in *. set (n := (length b `min` StreamLayer.max_size (policy_ s))%nat).
    assert (Hb : b ++ r = take n b ++ drop n b ++ r) by (by rewrite app_assoc, take_drop).
    assert (Hpol : (1 <= StreamLayer.min_size (policy_ s) <= StreamLayer.max_size (policy_ s))%nat
      /\ (mode_ s <> read_chunks -> StreamLayer.max_size (policy_ s) = Z.to_nat max)).
    { destruct HE as (_ & rs & _ & _ & Haw). unfold awaiting in Haw.
      assert (Hu : policy_ s = usual -> (1 <= StreamLayer.min_size (policy_ s) <= StreamLayer.max_size (policy_ s))%nat
        /\ (mode_ s <> read_chunks -> StreamLayer.max_size (policy_ s) = Z.to_nat max)) by (intros ->; cbn; split; [lia|done]).
      destruct (mode_ s); [apply Hu, Haw..|]. destruct Haw as (q & rs' & sofar & todo & _ & _ & _ & _ & _ & [Hp|Hp]); [by apply Hu|].
      rewrite Hp. cbn [StreamLayer.exactly StreamLayer.min_size StreamLayer.max_size]. pose proof (chunk_text_length (hd [] todo)). split; [lia|done]. }
    destruct Hpol as [Hp1 Hp2]. rewrite Hb in HE.
    destruct (consume_delivers s (take n b) (drop n b ++ r) HE) as (c & s' & Hc & Hle & He & Hst).
    { intros E. apply (f_equal length) in E. rewrite length_take in E. cbn in E. lia. }
    { destruct (mode_ s) eqn:Hm; [left|left|by right]; unfold zlen; rewrite length_take; specialize (Hp2 ltac:(done)); lia. }
    rewrite length_take in Hle. exists c, s'. rewrite Hc. split_and!; [done|lia|by rewrite Hb|]. intros ->. cbn zeta.
    assert (Hlw : length (take n b) = n) by (rewrite length_take; lia).
    destruct (Hst eq_refl) as [(Hsame & Hlt & Hr)|Hlt].
    + rewrite Hsame. fold n. split; [lia|]. intros ->. destruct Hr. rewrite app_nil_r. apply drop_ge. lia.
    + rewrite <- Hb, length_app in Hlt. split; [lia|]. intros ->. cbn in Hlt. lia.
Qed.

Lemma responses_end s : expecting s [] -> observed s = goal.
Proof.
  intros (_ & rs & _ & Hgoal & Haw). unfold awaiting in Haw. destruct (mode_ s).
  - destruct Haw as (_ & _ & Ht). destruct rs as [|q rs]; [done|]. exfalso. pose proof (response_header_length q) as H.
    apply (f_equal length) in Ht. cbn [stream flat_map] in Ht. rewrite !length_app in Ht. cbn [length] in Ht. lia.
  - destruct Haw as (_ & _ & q & rs' & p & _ & _ & _ & Hl & Hpos & Ht).
    apply (f_equal length) in Ht. rewrite length_app in Ht. unfold zlen in Hl. cbn in Ht. lia.
  - destruct Haw as (q & rs' & sofar & todo & _ & _ & _ & _ & Ht & _). exfalso. apply (f_equal length) in Ht.
    rewrite chunks_text_cons, !length_app in Ht. pose proof (chunk_text_length (hd [] todo)). cbn [length] in Ht. lia.
Qed.

End Delivery.

(** A client that waits for its first response. *)
Definition ready {U} (max : Z) (s : @client U) : Prop :=
  mode_ s = read_header /\ policy_ s = usual max /\ max_response_size_ s = max /\ buffer_ s = [].


Definition demo_app : upper (list (Z * list Z)) :=
  Upper (fun h p u => (0, [], u ++ [(res_status h, p)])) (fun _ u => u).

Definition demo_client : @client (list (Z * list Z)) :=
  Client read_header (ResponseHeader [] [] [] 0 []) [] 0 80 (StreamLayer.up_to 80) [] false [].

Definition demo_responses : list response :=
  [Response status_ok [(chars "Transfer-Encoding", chars "chunked")] (Chunks [chars "hello "; chars "world, this is me"]);
   Response not_found [(chars "Content-Length", chars "4")] (Plain (chars "gone"))].


(** ** Limits *)

(** The check against overflow compares the number of digits with the number of
    bytes of [size_t]: nine digits are refused, although the size fits. *)
Lemma nine_digits_refused : parse_chunk (chars "000000001" ++ crlf) = inl overflow.
Proof. reflexivity. Qed.

(** An empty line counts as the size zero, the end of the payload. *)
Lemma empty_size_accepted t : parse_chunk (crlf ++ t) = inr (0, t).
Proof.
  unfold parse_chunk, split_by. rewrite search_here by done. cbn [take drop length Nat.add crlf app].
  rewrite drop_0. replace (S (S (length t)) - length t)%nat with 2%nat by lia. done.
Qed.

End HttpClient.
