(* ===== verification/Multipart.v ===== *)
(** Multipart messages of HTTP: [net/http/multipart_reader.cpp] and
    [multipart_writer.cpp].

    The reader calls a function for each part; the model returns the parts for
    which it was called together with the result.  What the writer produces is
    read back unless a content contains the boundary. *)
From Stdlib Require Import Strings.Ascii Strings.String.
From S2P Require Import Prelude.
From S2P Require Import Fsm.
From S2P Require Import Http.
#[local] Open Scope Z_scope.
#[local] Open Scope list_scope.

Import Fsm Http.

Module Multipart.

(** ** The writer *)

Record writer := Writer { boundary_ : list Z; buf_ : list Z }.

Definition default_boundary : list Z := chars "gc0p4Jq0M2Yt08j34c0p".

Definition new_writer (boundary : list Z) : writer := Writer boundary [].

Definition reset (w : writer) : writer := Writer (boundary_ w) [].

Definition reset_to (boundary : list Z) (w : writer) : writer := Writer boundary [].

Definition write_string (str : list Z) (w : writer) : writer := Writer (boundary_ w) (buf_ w ++ str).

(** [header_builder::add] *)
Definition add (w : writer) (kv : list Z * list Z) : writer :=
  write_string crlf (write_string kv.2 (write_string (chars ": ") (write_string kv.1 w))).

(** [do_append] with a function that adds the fields of a part. *)
Definition append (w : writer) (part : fields_map * list Z) : writer :=
  let w := write_string crlf (write_string (boundary_ w) (write_string (chars "--") w)) in
  let w := write_string crlf (fold_left add part.1 w) in
  write_string crlf (write_string part.2 w).

Definition finalize (w : writer) : writer :=
  write_string (chars "--" ++ crlf) (write_string (boundary_ w) (write_string (chars "--") w)).

(** ** The reader *)

Definition unquoted (separator : list Z) : list Z :=
  if (2 <=? length separator)%nat && (hd 0 separator =? 34) && (List.last separator 0 =? 34)
  then take (length separator - 2) (drop 1 separator) else separator.

(** The boundary of a MIME type. *)
Definition separator (mime_type_ : list Z) : option (list Z) :=
  match search mime_type_ (chars "multipart/") with
  | Some O =>
      match search mime_type_ (chars "boundary=") with
      | None => None
      | Some boundary_pos =>
          let text := drop (boundary_pos + 9) mime_type_ in
          let sep := match search text [chr ";"] with Some n => take n text | None => text end in
          let sep := unquoted sep in
          if bool_decide (sep = []) then None else Some sep
      end
  | _ => None
  end.

(** [find_boundary]; the outer [None] is the end of the fuel. *)
Fixpoint find_loop (fuel : nat) (sep payload : list Z) (offset : nat) : option (option nat) :=
  match fuel with
  | O => None
  | S n =>
      if (offset <? length payload)%nat then
        match search (drop offset payload) (chars "--") with
        | None => Some None
        | Some i =>
            let pos := (offset + i)%nat in
            let candidate := drop (pos + 2) payload in
            if bool_decide (take (length sep) candidate = sep) then Some (Some pos)
            else find_loop n sep payload (pos + 2)
        end
      else Some None
  end.

Definition find_boundary (sep payload : list Z) : option (option nat) :=
  find_loop (S (length payload)) sep payload 0.

Definition drop_crlf (content_view : list Z) : list Z :=
  if (2 <=? length content_view)%nat && bool_decide (drop (length content_view - 2) content_view = crlf)
  then take (length content_view - 2) content_view else content_view.

Definition part : Type := fields_map * list Z.

(** The loop over the parts. *)
Fixpoint parts_loop (fuel : nat) (sep payload : list Z) (acc : list part) : option (bool * list part) :=
  match fuel with
  | O => None
  | S n =>
      if starts_with payload (chars "--") then Some (true, acc)
      else
        let payload := if starts_with payload crlf then drop 2 payload else payload in
        match parse_fields [] payload with
        | None => None
        | Some (_, None) => Some (false, acc)
        | Some (hdr, Some remainder) =>
            match find_boundary sep remainder with
            | None => None
            | Some None => Some (true, acc)
            | Some (Some next_boundary) =>
                let content := drop_crlf (take next_boundary remainder) in
                parts_loop n sep (drop (next_boundary + (length sep + 2)) remainder) (acc ++ [(hdr, content)])
            end
        end
  end.

Definition do_parse (mime_type_ body : list Z) : option (bool * list part) :=
  match separator mime_type_ with
  | None => Some (false, [])
  | Some sep =>
      match find_boundary sep body with
      | None => None
      | Some None => Some (false, [])
      | Some (Some pos) => parts_loop (S (length body)) sep (drop (pos + (length sep + 2)) body) []
      end
  end.

(** A copy of a [header]: without raw text, which the parts do not have, there is
    nothing to copy. *)
Definition copy_fields (raw : list Z) (fields : fields_map) : fields_map :=
  if bool_decide (raw = []) then [] else fields.

(** ** Searching *)

Lemma starts_with_spec s p : starts_with s p = true <-> exists r, s = p ++ r.
Proof.
  revert s. induction p as [|c p IH]; intros s; cbn; [by split; [exists s|]|]. destruct s as [|d s].
  - split; [done|]. by intros [r Hr].
  - rewrite andb_true_iff, IH, Z.eqb_eq. split.
    + intros [-> [r ->]]. by exists r.
    + intros [r [= -> ->]]. by split; [|exists r].
Qed.

Lemma search_at s sep i : search s sep = Some i -> starts_with (drop i s) sep = true.
Proof.
  revert i. induction s as [|c s IH]; intros i; cbn [search].
  - destruct (starts_with [] sep) eqn:E; [|done]. by intros [= <-].
  - destruct (starts_with (c :: s) sep) eqn:E; [by intros [= <-]|].
    destruct (search s sep) as [j|] eqn:Hj; [|done]. intros [= <-]. by apply IH.
Qed.

Lemma search_first s sep k : starts_with (drop k s) sep = true -> exists j, search s sep = Some j /\ (j <= k)%nat.
Proof.
  revert k. induction s as [|c s IH]; intros k Hk; cbn [search].
  - rewrite drop_nil in Hk. rewrite Hk. exists 0%nat. split; [done|lia].
  - destruct (starts_with (c :: s) sep) eqn:E; [exists 0%nat; split; [done|lia]|]. destruct k as [|k]; [cbn in Hk; congruence|].
    destruct (IH k Hk) as (j & -> & Hj). exists (S j). split; [done|lia].
Qed.

Lemma search_none s sep k : search s sep = None -> starts_with (drop k s) sep = false.
Proof.
  intros Hs. destruct (starts_with (drop k s) sep) eqn:E; [|done]. apply search_first in E as (j & Hj & _). congruence.
Qed.

(** ** Termination *)

Lemma process_lines_returns n acc input :
  (length input < n)%nat -> exists f r, process_lines n acc input = Some (f, r)
    /\ forall rest, r = Some rest -> (length rest < length input)%nat.
Proof.
  revert acc input. induction n as [|n IH]; intros acc input Hn; [lia|]. cbn [process_lines].
  destruct (search input crlf) as [[|pos]|] eqn:Hs; [| |by eexists _, None].
  - apply search_bound in Hs. cbn in Hs. eexists _, _. split; [reflexivity|]. intros rest [= <-]. rewrite length_drop. lia.
  - apply search_bound in Hs. cbn [length crlf] in Hs. destruct (parse_field (take (S pos) input)); [|by eexists _, None].
    destruct (IH (acc ++ [p]) (drop (S pos + 2) input)) as (f & r & -> & Hr); [rewrite length_drop; lia|].
    eexists _, _. split; [reflexivity|]. intros rest Hrest. specialize (Hr rest Hrest). rewrite length_drop in Hr. lia.
Qed.

Lemma parse_fields_returns fields input :
  exists f r, parse_fields fields input = Some (f, r) /\ forall rest, r = Some rest -> (length rest < length input)%nat.
Proof.
  unfold parse_fields. destruct (process_lines_returns (S (length input)) fields input) as (f & r & -> & Hr); [lia|].
  destruct r as [rest|]; eexists _, _; (split; [reflexivity|done]).
Qed.

Lemma find_loop_returns n sep payload offset :
  (0 < n)%nat -> (length payload < n + offset)%nat -> exists r, find_loop n sep payload offset = Some r
    /\ forall pos, r = Some pos -> (pos + 2 + length sep <= length payload)%nat.
Proof.
  revert offset. induction n as [|n IH]; intros offset H0 Hn; [lia|]. cbn [find_loop].
  destruct (Nat.ltb_spec offset (length payload)) as [Hlt|]; [|by exists None].
  destruct (search (drop offset payload) (chars "--")) as [i|] eqn:Hs; [|by exists None].
  apply search_bound in Hs. rewrite length_drop in Hs. change (length (chars "--")) with 2%nat in Hs.
  case_bool_decide as Ht; [|apply IH; lia]. eexists. split; [reflexivity|]. intros pos [= <-].
  apply (f_equal length) in Ht. rewrite length_take, length_drop in Ht. lia.
Qed.

Lemma find_boundary_returns sep payload :
  exists r, find_boundary sep payload = Some r /\ forall pos, r = Some pos -> (pos + 2 + length sep <= length payload)%nat.
Proof. apply find_loop_returns; lia. Qed.

Lemma parts_loop_returns n sep payload acc :
  (length payload < n)%nat -> exists ok parts, parts_loop n sep payload acc = Some (ok, acc ++ parts).
Proof.
  revert payload acc. induction n as [|n IH]; intros payload acc Hn; [lia|]. cbn [parts_loop].
  assert (Hstop : forall ok : bool, exists ok' parts, Some (ok, acc) = Some (ok', acc ++ parts)) by (intros ok; exists ok, []; by rewrite app_nil_r).
  destruct (starts_with payload (chars "--")); [apply Hstop|].
  set (p := if starts_with payload crlf then drop 2 payload else payload).
  assert (Hp : (length p <= length payload)%nat) by (subst p; destruct (starts_with payload crlf); rewrite ?length_drop; lia).
  destruct (parse_fields_returns [] p) as (f & r & -> & Hr). destruct r as [rest|]; [|apply Hstop]. specialize (Hr rest eq_refl).
  destruct (find_boundary_returns sep rest) as (b & -> & Hb). destruct b as [pos|]; [|apply Hstop]. specialize (Hb pos eq_refl).
  destruct (IH (drop (pos + (length sep + 2)) rest) (acc ++ [(f, drop_crlf (take pos rest))])) as (ok & parts & ->).
  { rewrite length_drop. lia. }
  exists ok, ((f, drop_crlf (take pos rest)) :: parts). by rewrite <- app_assoc.
Qed.

(** The reader returns on every input. *)
Lemma multipart_returns mime_type_ body : exists ok parts, do_parse mime_type_ body = Some (ok, parts).
Proof.
  unfold do_parse. destruct (separator mime_type_) as [sep|]; [|by eexists _, _].
  destruct (find_boundary_returns sep body) as (b & -> & Hb). destruct b as [pos|]; [|by eexists _, _].
  apply (parts_loop_returns (S (length body)) sep _ []). rewrite length_drop. lia.
Qed.

(** ** The text of the writer *)

Definition part_text (boundary : list Z) (p : part) : list Z :=
  chars "--" ++ boundary ++ crlf ++ flat_map field_line p.1 ++ crlf ++ p.2 ++ crlf.

Definition end_text (boundary : list Z) : list Z := chars "--" ++ boundary ++ chars "--" ++ crlf.

Lemma add_text fs w : boundary_ (fold_left add fs w) = boundary_ w /\ buf_ (fold_left add fs w) = buf_ w ++ flat_map field_line fs.
Proof.
  revert w. induction fs as [|kv fs IH]; intros w; cbn [fold_left flat_map]; [by rewrite app_nil_r|].
  destruct (IH (add w kv)) as [-> ->]. unfold add, field_line, write_string. cbn [boundary_ buf_]. by rewrite <- !app_assoc.
Qed.

Lemma append_text w p : boundary_ (append w p) = boundary_ w /\ buf_ (append w p) = buf_ w ++ part_text (boundary_ w) p.
Proof.
  unfold append. set (w1 := write_string crlf (write_string (boundary_ w) (write_string (chars "--") w))).
  destruct (add_text p.1 w1) as [E1 E2]. split; [exact E1|]. unfold write_string at 1 2 3. cbn [buf_]. rewrite E2.
  subst w1. unfold write_string, part_text. cbn [buf_ boundary_]. by rewrite <- !app_assoc.
Qed.

Lemma written_text b ps : buf_ (finalize (fold_left append ps (new_writer b))) = flat_map (part_text b) ps ++ end_text b.
Proof.
  assert (H : forall w, boundary_ (fold_left append ps w) = boundary_ w
    /\ buf_ (fold_left append ps w) = buf_ w ++ flat_map (part_text (boundary_ w)) ps).
  { induction ps as [|p ps IH]; intros w; cbn [fold_left flat_map]; [by rewrite app_nil_r|].
    destruct (IH (append w p)) as [-> ->]. destruct (append_text w p) as [-> ->]. by rewrite <- app_assoc. }
  destruct (H (new_writer b)) as [E1 E2]. unfold finalize, write_string. cbn [buf_ boundary_]. rewrite E1, E2. unfold end_text.
  cbn [new_writer buf_ boundary_ app]. by rewrite <- !app_assoc.
Qed.

(** ** Reading back *)

Lemma dashes_lookup s k : starts_with (drop k s) (chars "--") = true -> s !! k = Some 45 /\ s !! (k + 1)%nat = Some 45.
Proof.
  intros H. apply starts_with_spec in H as [r Hr]. rewrite <- (Nat.add_0_r k) at 1. rewrite <- !lookup_drop, Hr. done.
Qed.

(** An earlier match of the boundary lies within the content. *)
Lemma earlier_match sep c t pos :
  lacks 13 sep -> (pos + 2 <= length c)%nat -> starts_with (drop pos (c ++ crlf ++ t)) (chars "--") = true ->
  take (length sep) (drop (pos + 2) (c ++ crlf ++ t)) = sep -> starts_with (drop pos c) (chars "--" ++ sep) = true.
Proof.
  intros Hsep Hpos Hd Ht. apply starts_with_spec in Hd as [r Hr].
  assert (Hdrop : drop (pos + 2) (c ++ crlf ++ t) = r) by (rewrite <- drop_drop, Hr; done). rewrite Hdrop in Ht.
  assert (Hin : (pos + 2 + length sep <= length c)%nat).
  { destruct (decide (length c < pos + 2 + length sep)%nat) as [Hlt|]; [|lia]. exfalso. apply Hsep.
    apply list_elem_of_lookup. exists (length c - (pos + 2))%nat. rewrite <- Ht, lookup_take_lt by lia.
    rewrite <- Hdrop, lookup_drop, lookup_app_r by lia. by replace (pos + 2 + (length c - (pos + 2)) - length c)%nat with 0%nat by lia. }
  apply (starts_with_long _ _ (crlf ++ t)). { rewrite length_drop, length_app. cbn. lia. }
  rewrite <- drop_app_le by lia. apply starts_with_spec. exists (drop (length sep) r). rewrite Hr, <- app_assoc, <- Ht at 1. rewrite Ht.
  f_equal. by rewrite <- Ht at 1; rewrite take_drop.
Qed.

Lemma find_loop_content n sep c t offset :
  search c (chars "--" ++ sep) = None -> lacks 13 sep -> (offset <= length c + 2)%nat ->
  (length c + 4 < n + offset)%nat ->
  find_loop n sep (c ++ crlf ++ chars "--" ++ sep ++ t) offset = Some (Some (length c + 2)%nat).
Proof.
  intros Hc Hsep. set (T := c ++ crlf ++ chars "--" ++ sep ++ t).
  assert (HT : drop (length c + 2) T = chars "--" ++ sep ++ t).
  { subst T. rewrite drop_app_ge by lia. by replace (length c + 2 - length c)%nat with 2%nat by lia. }
  assert (Hlen : (length c + 4 <= length T)%nat) by (subst T; rewrite !length_app; cbn; lia).
  revert offset. induction n as [|n IH]; intros offset Ho Hn; [lia|]. cbn [find_loop].
  rewrite (proj2 (Nat.ltb_lt _ _)) by lia.
  destruct (search_first (drop offset T) (chars "--") (length c + 2 - offset)) as (i & Hi & Hle).
  { rewrite drop_drop. replace (offset + (length c + 2 - offset))%nat with (length c + 2)%nat by lia. by rewrite HT. }
  rewrite Hi. apply search_at in Hi. rewrite drop_drop in Hi. set (pos := (offset + i)%nat) in *.
  destruct (decide (pos = length c + 2)%nat) as [->|Hne].
  { rewrite <- drop_drop, HT. change (drop 2 (chars "--" ++ sep ++ t)) with (sep ++ t). by rewrite take_app_length, bool_decide_eq_true_2. }
  destruct (dashes_lookup _ _ Hi) as [L1 L2].
  assert (LC : T !! length c = Some 13) by (subst T; rewrite lookup_app_r, Nat.sub_diag by lia; done).
  assert (LL : T !! (length c + 1)%nat = Some 10).
  { subst T. rewrite lookup_app_r by lia. by replace (length c + 1 - length c)%nat with 1%nat by lia. }
  assert (pos <> length c /\ pos <> length c + 1 /\ pos + 1 <> length c)%nat as (N1 & N2 & N3) by (split_and!; intros E; rewrite E in *; congruence).
  rewrite bool_decide_eq_false_2; [apply IH; lia|]. intros Ht. apply (search_none _ _ pos) in Hc.
  rewrite (earlier_match sep c (chars "--" ++ sep ++ t) pos) in Hc; [done|done|lia|done|done].
Qed.

Lemma find_content sep c t :
  search c (chars "--" ++ sep) = None -> lacks 13 sep ->
  find_boundary sep (c ++ crlf ++ chars "--" ++ sep ++ t) = Some (Some (length c + 2)%nat).
Proof. intros Hc Hs. apply find_loop_content; [done|done|lia|]. rewrite !length_app. cbn. lia. Qed.

Lemma find_here sep t : find_boundary sep (chars "--" ++ sep ++ t) = Some (Some 0%nat).
Proof.
  unfold find_boundary. cbn [find_loop]. rewrite (proj2 (Nat.ltb_lt _ _)) by (cbn; lia). cbn [drop].
  rewrite search_here by done. cbn [Nat.add]. change (drop 2 (chars "--" ++ sep ++ t)) with (sep ++ t).
  by rewrite take_app_length, bool_decide_eq_true_2.
Qed.

(** What follows a boundary. *)
Fixpoint behind (b : list Z) (ps : list part) : list Z :=
  match ps with
  | [] => chars "--" ++ crlf
  | p :: ps' => crlf ++ flat_map field_line p.1 ++ crlf ++ p.2 ++ crlf ++ chars "--" ++ b ++ behind b ps'
  end.

Lemma text_behind b ps : flat_map (part_text b) ps ++ end_text b = chars "--" ++ b ++ behind b ps.
Proof.
  induction ps as [|p ps IH]; [done|]. cbn [flat_map behind]. rewrite <- app_assoc, IH. unfold part_text. by rewrite <- !app_assoc.
Qed.

Definition ok_part (b : list Z) (p : part) : Prop :=
  Forall ok_field p.1 /\ search p.2 (chars "--" ++ b) = None.

Lemma drop_crlf_content c t : drop_crlf (take (length c + 2) (c ++ crlf ++ t)) = c.
Proof.
  assert (take (length c + 2) (c ++ crlf ++ t) = c ++ crlf) as ->.
  { rewrite take_app_ge by lia. by replace (length c + 2 - length c)%nat with 2%nat by lia. }
  unfold drop_crlf. rewrite length_app. change (length crlf) with 2%nat. rewrite (proj2 (Nat.leb_le 2 _)) by lia.
  replace (length c + 2 - 2)%nat with (length c) by lia. by rewrite drop_app_length, bool_decide_eq_true_2, take_app_length.
Qed.

Lemma parts_behind b ps n acc :
  lacks 13 b -> Forall (ok_part b) ps -> (length (behind b ps) < n)%nat ->
  parts_loop n b (behind b ps) acc = Some (true, acc ++ ps).
Proof.
  intros Hb Hps. revert n acc. induction Hps as [|p ps [Hf Hc] Hps IH]; intros [|n] acc Hn; try lia.
  - cbn. by rewrite app_nil_r.
  - cbn [parts_loop behind]. change (starts_with (crlf ++ ?t) (chars "--")) with false. cbn iota.
    change (starts_with (crlf ++ ?t) crlf) with true. cbn iota zeta. change (drop 2 (crlf ++ ?t)) with t.
    rewrite parse_fields_text by done. rewrite find_content by done. rewrite drop_crlf_content.
    assert (drop (length p.2 + 2 + (length b + 2)) (p.2 ++ crlf ++ chars "--" ++ b ++ behind b ps) = behind b ps) as ->.
    { rewrite !app_assoc. apply drop_app_length'. rewrite !length_app. cbn. lia. }
    rewrite IH; [rewrite <- app_assoc; by destruct p|]. cbn [behind] in Hn. rewrite !length_app in Hn. cbn in Hn. lia.
Qed.

(** What [multipart_writer] produces for any number of parts,
    [multipart_reader] reads back: the same fields and contents in the same order,
    for every MIME type that names the boundary, as long as no content contains
    the boundary. *)
Theorem multipart_roundtrip mime_type_ b ps :
  separator mime_type_ = Some b -> lacks 13 b -> Forall (ok_part b) ps ->
  do_parse mime_type_ (buf_ (finalize (fold_left append ps (new_writer b)))) = Some (true, ps).
Proof.
  intros Hm Hb Hps. unfold do_parse. rewrite Hm, written_text, text_behind, find_here. cbn [Nat.add].
  assert (drop (length b + 2) (chars "--" ++ b ++ behind b ps) = behind b ps) as ->.
  { rewrite app_assoc. apply drop_app_length'. rewrite length_app. cbn. lia. }
  apply parts_behind; [done..|]. rewrite !length_app. cbn. lia.
Qed.

Lemma multipart_roundtrip_witness :
  do_parse (chars "multipart/form-data; boundary=xyz; charset=utf-8")
    (buf_ (finalize (fold_left append [([(chars "Name", chars "a")], chars "1--2--xy"); ([], [])] (new_writer (chars "xyz")))))
  = Some (true, [([(chars "Name", chars "a")], chars "1--2--xy"); ([], [])]).
Proof.
  apply (multipart_roundtrip _ (chars "xyz")).
  - vm_compute. reflexivity.
  - apply (bool_decide_eq_true_1 _). vm_compute. reflexivity.
  - repeat constructor; cbn; try (apply (bool_decide_eq_true_1 _); vm_compute; reflexivity); discriminate.
Defined.

(** ** Limits *)

(** A message that is cut within its last part counts as complete, without that
    part. *)
Lemma cut_message_accepted :
  do_parse (chars "multipart/mixed; boundary=b")
    (chars "--b" ++ crlf ++ crlf ++ chars "one" ++ crlf ++ chars "--b" ++ crlf ++ crlf ++ chars "tw")
  = Some (true, [([], chars "one")]).
Proof. vm_compute. reflexivity. Qed.

(** [parse] returns the parts it has found, although the message is malformed. *)
Lemma parts_of_malformed :
  do_parse (chars "multipart/mixed; boundary=b")
    (chars "--b" ++ crlf ++ crlf ++ chars "one" ++ crlf ++ chars "--b" ++ crlf ++ chars "no field" ++ crlf ++ crlf)
  = Some (false, [([], chars "one")]).
Proof. vm_compute. reflexivity. Qed.

(** A line that only begins with the boundary ends a part. *)
Lemma boundary_prefix :
  do_parse (chars "multipart/mixed; boundary=b")
    (chars "--b" ++ crlf ++ crlf ++ chars "x--by" ++ crlf ++ chars "--b--" ++ crlf) = Some (false, [([], chars "x")]).
Proof. vm_compute. reflexivity. Qed.

(** A copy of a part has no fields. *)
Lemma copied_part_empty fields : copy_fields [] fields = [].
Proof. reflexivity. Qed.

End Multipart.
