(* ===== verification/Uuid.v ===== *)
(** UUIDs: [uuid.hpp] and [uuid.cpp].

    A UUID is its sixteen bytes.  The parser accepts exactly the texts of
    [uuid_text], surrounded by blanks, whose version is one of RFC 4122; but [parse]
    turns the verdict on other texts into an error that counts as none. *)
From Stdlib Require Import Strings.Ascii Strings.String.
From S2P Require Import Prelude.
From S2P Require Import NetworkOrder.
From S2P Require Import Fsm.
From S2P Require Import ReadInteger.
#[local] Open Scope Z_scope.
#[local] Open Scope list_scope.
#[local] Open Scope caf_scope.

Import Fsm ReadInteger.

Module Uuid.

Definition uuid : Type := list Z.

Definition nil_bytes : uuid := repeat 0 16.

(** [operator bool] *)
Definition not_nil (x : uuid) : bool := negb (bool_decide (x = nil_bytes)).

Definition byte_at (i : nat) (x : uuid) : Z := List.nth i x 0.

Inductive variant_field := reserved | rfc4122 | microsoft.

Definition variant_table : list variant_field :=
  [reserved; reserved; reserved; reserved; rfc4122; rfc4122; microsoft; reserved].

Definition variant (x : uuid) : variant_field := List.nth (Z.to_nat (byte_at 8 x .>> 5)) variant_table reserved.

(** The value of [version_field]. *)
Definition version (x : uuid) : Z := byte_at 6 x .>> 4.

(** [memcpy] between the octets and an integer of the host. *)
Definition timestamp (x : uuid) : Z :=
  let ts := take 2 (drop 6 x) ++ take 2 (drop 4 x) ++ take 4 x in
  from_network_order 8 (le_val (<[0%nat := byte_at 0 ts .& 15]> ts)).

Definition clock_sequence (x : uuid) : Z :=
  let cs := take 2 (drop 8 x) in
  from_network_order 2 (le_val (<[0%nat := byte_at 0 cs .& 63]> cs)).

Definition node (x : uuid) : Z := from_network_order 8 (le_val ([0; 0] ++ take 6 (drop 10 x))).

(** [random], with the sixteen numbers that the generator yields. *)
Definition random (rng : list Z) : uuid :=
  let x := <[6%nat := (byte_at 6 rng .& 15) .| 80]> rng in
  <[8%nat := (byte_at 8 x .& 63) .| 128]> x.

(** ** Parsing *)

Inductive parse_result := valid_uuid | malformed_uuid | invalid_variant | invalid_version.

#[export] Instance parse_result_eq_dec : EqDecision parse_result.
Proof. solve_decision. Defined.

Definition isxdigit (c : Z) : bool := in_whitelist hexadecimal_chars c.

(** [read_byte]: the byte, if there are two digits. *)
Definition read_byte (ps : parser_state) : option (option Z * parser_state) :=
  let c1 := current ps in
  if negb (isxdigit c1) then Some (None, ps)
  else
    let '(ok, value) := add_ascii 16 255 0 c1 in
    if negb ok then Some (None, ps)
    else
      match next ps with
      | None => None
      | Some (c2, ps1) =>
          if negb (isxdigit c2) then Some (None, ps1)
          else
            let '(ok, value) := add_ascii 16 255 value c2 in
            if negb ok then Some (None, ps1)
            else match next ps1 with Some (_, ps2) => Some (Some value, ps2) | None => None end
      end.

(** [n] bytes, which are stored one after the other. *)
Fixpoint read_bytes (n : nat) (ps : parser_state) (acc : list Z) : option (bool * parser_state * list Z) :=
  match n with
  | O => Some (true, ps, acc)
  | S n' =>
      match read_byte ps with
      | None => None
      | Some (None, ps') => Some (false, ps', acc)
      | Some (Some v, ps') => read_bytes n' ps' (acc ++ [v])
      end
  end.

Fixpoint read_blocks (sizes : list nat) (ps : parser_state) (acc : list Z) : option (bool * parser_state * list Z) :=
  match sizes with
  | [] => Some (true, ps, acc)
  | n :: sizes' =>
      match consume_strict (chr "-") ps with
      | None => None
      | Some (false, ps') => Some (false, ps', acc)
      | Some (true, ps') =>
          match read_bytes n ps' acc with
          | Some (true, ps'', acc') => read_blocks sizes' ps'' acc'
          | r => r
          end
      end
  end.

(** The verdict on the bytes. *)
Definition check_bytes (x : list Z) : parse_result :=
  if bool_decide (x = nil_bytes) then valid_uuid
  else
    let subtype := byte_at 6 x .>> 4 in
    if (subtype =? 0) || (5 <? subtype) then invalid_version else valid_uuid.

(** [parse_impl] on the array [x]: what was read overwrites its beginning. *)
Definition parse_impl (ps : parser_state) (x : uuid) : option (parse_result * parser_state * uuid) :=
  let stored acc := acc ++ drop (length acc) x in
  match read_bytes 4 (skip_whitespaces ps) [] with
  | None => None
  | Some (false, ps, acc) => Some (malformed_uuid, ps, stored acc)
  | Some (true, ps, acc) =>
      match read_blocks [2; 2; 2; 6]%nat ps acc with
      | None => None
      | Some (false, ps, acc) => Some (malformed_uuid, ps, stored acc)
      | Some (true, ps, acc) =>
          let ps := skip_whitespaces ps in
          if negb (at_end ps) then Some (malformed_uuid, ps, stored acc)
          else Some (check_bytes (stored acc), ps, stored acc)
      end
  end.

Definition can_parse (str : list Z) : option bool :=
  match parse_impl (init_state str) nil_bytes with
  | Some (r, _, _) => Some (bool_decide (r = valid_uuid))
  | None => None
  end.

(** [make_error]: the code zero makes no error. *)
Definition make_error (c : pec) : option pec := if pec_value c =? 0 then None else Some c.

(** [parse]: the error, if any, and the destination. *)
Definition parse (str : list Z) (dest : uuid) : option (option pec * uuid) :=
  match parse_impl (init_state str) dest with
  | None => None
  | Some (valid_uuid, _, x) => Some (None, x)
  | Some (invalid_version, _, x) => Some (make_error invalid_argument, x)
  | Some (_, ps, x) => Some (make_error (code ps), x)
  end.

Definition make_uuid (str : list Z) : option (pec + uuid) :=
  match parse str nil_bytes with
  | None => None
  | Some (Some e, _) => Some (inl e)
  | Some (None, x) => Some (inr x)
  end.

(** ** Printing *)

(** [append_hex] in lower case. *)
Definition append_hex (x : list Z) : list Z :=
  let digit d := List.nth (Z.to_nat d) (chars "0123456789abcdef") 0 in
  flat_map (fun c => [digit (c .>> 4); digit (c .& 15)]) x.

Definition to_string (x : uuid) : list Z :=
  append_hex (take 4 x) ++ chars "-" ++ append_hex (take 2 (drop 4 x)) ++ chars "-"
  ++ append_hex (take 2 (drop 6 x)) ++ chars "-" ++ append_hex (take 2 (drop 8 x)) ++ chars "-"
  ++ append_hex (take 6 (drop 10 x)).

(** ** The texts of UUIDs *)

Definition blank (s : list Z) : Prop := Forall (fun c => isspace c = true) s.

(** [t] spells the bytes [x] with two digits each, in upper or lower case. *)
Inductive spells : list Z -> list Z -> Prop :=
  | spells_nil : spells [] []
  | spells_cons c1 c2 t x :
      isxdigit c1 = true -> isxdigit c2 = true -> spells t x ->
      spells (c1 :: c2 :: t) (16 * ascii_to_int 16 c1 + ascii_to_int 16 c2 :: x).

Inductive blocks : list nat -> list Z -> list Z -> Prop :=
  | blocks_nil : blocks [] [] []
  | blocks_cons n ns t x t' x' :
      spells t x -> length x = n -> blocks ns t' x' -> blocks (n :: ns) (chr "-" :: t ++ t') (x ++ x').

Definition uuid_text (t x : list Z) : Prop :=
  exists t0 x0 t1 x1, t = t0 ++ t1 /\ x = x0 ++ x1 /\ spells t0 x0 /\ length x0 = 4%nat /\ blocks [2; 2; 2; 6]%nat t1 x1.

Definition version_ok (x : uuid) : Prop := x = nil_bytes \/ 1 <= version x <= 5.

(** [s] is the text of [x], with blanks around it. *)
Definition reads_as (s : list Z) (x : uuid) : Prop :=
  exists l t r, s = l ++ t ++ r /\ blank l /\ blank r /\ uuid_text t x.

(** ** Digits *)

Lemma digit_value c : isxdigit c = true -> c <> 0 /\ isspace c = false /\ 0 <= ascii_to_int 16 c <= 15.
Proof.
  intros H. assert (In c hexadecimal_chars) as Hin.
  { unfold isxdigit in H. revert H. generalize hexadecimal_chars. intros w. induction w as [|d w IH]; cbn; [done|].
    destruct (Z.eqb_spec d c) as [->|]; [by left|]. intros H. right. by apply IH. }
  assert (forallb (fun c => negb (c =? 0) && negb (isspace c) && (0 <=? ascii_to_int 16 c) && (ascii_to_int 16 c <=? 15)) hexadecimal_chars = true) as Hall by done.
  rewrite forallb_forall in Hall. specialize (Hall c Hin). rewrite !andb_true_iff, !negb_true_iff in Hall.
  destruct Hall as (((H0 & Hs) & Hl) & Hh). split_and!; [by apply Z.eqb_neq|done|lia|lia].
Qed.

Lemma two_digits c1 c2 :
  isxdigit c1 = true -> isxdigit c2 = true ->
  add_ascii 16 255 0 c1 = (true, ascii_to_int 16 c1)
  /\ add_ascii 16 255 (ascii_to_int 16 c1) c2 = (true, 16 * ascii_to_int 16 c1 + ascii_to_int 16 c2).
Proof.
  intros H1 H2. apply digit_value in H1 as (_ & _ & H1), H2 as (_ & _ & H2). unfold add_ascii.
  change (Z.quot 255 16) with 15. change (255 + 1) with 256.
  rewrite (proj2 (Z.ltb_ge 15 0)), (proj2 (Z.ltb_ge 15 (ascii_to_int 16 c1))) by lia.
  rewrite !(Z.mod_small (_ * 16)), !(proj2 (Z.ltb_ge _ _)) by lia.
  rewrite !Z.mod_small by lia. split; f_equal; lia.
Qed.

Lemma spells_length t x : spells t x -> length t = (2 * length x)%nat.
Proof. induction 1; cbn; lia. Qed.

(** ** What the reader does *)

Lemma next_state c t ps :
  rest ps = c :: t -> exists x ps', next ps = Some (x, ps') /\ rest ps' = t /\ code ps' = code ps /\ x = current ps'.
Proof.
  intros H. unfold next, current. rewrite H. destruct t as [|y t]; [by eexists _, _|].
  destruct (y =? 10); by eexists _, _.
Qed.

Lemma digit_here ps : isxdigit (current ps) = true -> exists t, rest ps = current ps :: t.
Proof. unfold current. destruct (rest ps) as [|c t]; [done|]. intros _. by exists t. Qed.

Lemma read_byte_spec ps :
  exists r ps', read_byte ps = Some (r, ps') /\ code ps' = code ps
    /\ match r with
       | Some v => exists c1 c2, isxdigit c1 = true /\ isxdigit c2 = true /\ rest ps = c1 :: c2 :: rest ps'
           /\ v = 16 * ascii_to_int 16 c1 + ascii_to_int 16 c2
       | None => forall c1 c2 t, isxdigit c1 = true -> isxdigit c2 = true -> rest ps <> c1 :: c2 :: t
       end.
Proof.
  unfold read_byte. destruct (isxdigit (current ps)) eqn:H1; cbn [negb]; cycle 1.
  { exists None, ps. split_and!; [done..|]. intros c1 c2 t Hc1 _ E. unfold current in H1. rewrite E in H1. congruence. }
  destruct (digit_here ps H1) as [t Ht]. destruct (two_digits _ _ H1 H1) as [-> _]. cbn [negb].
  destruct (next_state _ _ _ Ht) as (c2 & ps1 & -> & Hr1 & Hc1 & ->). destruct (isxdigit (current ps1)) eqn:H2; cbn [negb]; cycle 1.
  { exists None, ps1. split_and!; [done..|]. intros d1 d2 t' _ Hd E. rewrite E in Ht. injection Ht as _ <-.
    unfold current in H2. rewrite Hr1 in H2. congruence. }
  destruct (digit_here ps1 H2) as [t2 Ht2]. destruct (two_digits _ _ H1 H2) as [_ ->]. cbn [negb].
  destruct (next_state _ _ _ Ht2) as (c3 & ps2 & -> & Hr2 & Hc2 & _). eexists _, ps2. split_and!; [done|congruence|].
  eexists _, _. split_and!; [exact H1|exact H2| |done]. rewrite Ht, <- Hr1, Ht2, Hr2. done.
Qed.

Lemma read_bytes_spec n ps acc :
  exists ok ps' acc', read_bytes n ps acc = Some (ok, ps', acc') /\ code ps' = code ps
    /\ if ok : bool then exists t x, spells t x /\ length x = n /\ rest ps = t ++ rest ps' /\ acc' = acc ++ x
       else forall t x r, spells t x -> length x = n -> rest ps <> t ++ r.
Proof.
  revert ps acc. induction n as [|n IH]; intros ps acc; cbn [read_bytes].
  - exists true, ps, acc. split_and!; [done..|]. exists [], []. rewrite app_nil_r. by repeat constructor.
  - destruct (read_byte_spec ps) as (r & ps1 & -> & Hc & Hr). destruct r as [v|].
    + destruct Hr as (c1 & c2 & H1 & H2 & Hps & ->). destruct (IH ps1 (acc ++ [16 * ascii_to_int 16 c1 + ascii_to_int 16 c2])) as (ok & ps' & acc' & -> & Hc' & Hok).
      eexists ok, ps', acc'. split_and!; [done|congruence|]. destruct ok.
      * destruct Hok as (t & x & Hs & Hl & Hrest & ->). exists (c1 :: c2 :: t), (16 * ascii_to_int 16 c1 + ascii_to_int 16 c2 :: x).
        split_and!; [by constructor|cbn; by rewrite Hl|rewrite Hps, Hrest; reflexivity|by rewrite <- app_assoc].
      * intros t x r Hs Hl E. destruct Hs as [|d1 d2 t x D1 D2 Hs]; [done|]. rewrite Hps in E. injection E as -> -> E.
        by apply (Hok t x r Hs); [injection Hl as ->|].
    + exists false, ps1, acc. split_and!; [done..|]. intros t x r Hs Hl E. destruct Hs as [|d1 d2 t x D1 D2 Hs]; [done|].
      by apply (Hr d1 d2 (t ++ r)).
Qed.

(** Two ways to begin with the same number of bytes are the same. *)
Lemma spells_prefix t x t' x' r r' :
  spells t x -> spells t' x' -> length x = length x' -> t ++ r = t' ++ r' -> t = t' /\ x = x' /\ r = r'.
Proof.
  intros Hs. revert t' x'. induction Hs as [|c1 c2 t x H1 H2 Hs IH]; intros t' x' Hs' Hl E.
  - destruct Hs'; [|done]. by cbn in E.
  - destruct Hs' as [|d1 d2 t' x' D1 D2 Hs']; [done|]. injection E as -> -> E. injection Hl as Hl.
    destruct (IH _ _ Hs' Hl E) as (-> & -> & ->). done.
Qed.

Lemma read_blocks_spec sizes ps acc :
  exists ok ps' acc', read_blocks sizes ps acc = Some (ok, ps', acc') /\ code ps' = code ps
    /\ if ok : bool then exists t x, blocks sizes t x /\ rest ps = t ++ rest ps' /\ acc' = acc ++ x
       else forall t x r, blocks sizes t x -> rest ps <> t ++ r.
Proof.
  revert ps acc. induction sizes as [|n sizes IH]; intros ps acc; cbn [read_blocks].
  - exists true, ps, acc. split_and!; [done..|]. exists [], []. rewrite app_nil_r. by repeat constructor.
  - unfold consume_strict. destruct (Z.eqb_spec (current ps) (chr "-")) as [E|E]; cycle 1.
    { exists false, ps, acc. split_and!; [done..|]. intros t x r Hb Hr. apply E. unfold current. rewrite Hr. by inversion Hb. }
    assert (exists u, rest ps = chr "-" :: u) as [u Hu].
    { unfold current in E. destruct (rest ps) as [|c u]; [done|]. exists u. by rewrite E. }
    destruct (next_state _ _ _ Hu) as (c & ps1 & -> & Hr1 & Hc1 & _).
    destruct (read_bytes_spec n ps1 acc) as (ok & ps2 & acc2 & -> & Hc2 & Hok). destruct ok; cycle 1.
    { exists false, ps2, acc2. split_and!; [done|congruence|]. intros t x r Hb Hr. inversion Hb as [|? ? t0 x0 t' x' Hs Hl Hb']; subst.
      rewrite Hr in Hu. injection Hu as Hu. rewrite <- app_assoc in Hu. by eapply Hok. }
    destruct Hok as (t & x & Hs & Hl & Hrest & ->). destruct (IH ps2 (acc ++ x)) as (ok & ps3 & acc3 & -> & Hc3 & Hok).
    exists ok, ps3, acc3. split_and!; [done|congruence|]. destruct ok.
    + destruct Hok as (t' & x' & Hb & Hrest' & ->). eexists _, _. split_and!; [by constructor| |by rewrite <- app_assoc].
      rewrite Hu, <- Hr1, Hrest, Hrest'. cbn. by rewrite <- app_assoc.
    + intros u' x' r Hb Hr. inversion Hb as [|? ? t0 x0 t' y' Hs' Hl' Hb']; subst. rewrite Hr in Hu. injection Hu as Hu.
      rewrite <- app_assoc, Hrest in Hu. destruct (spells_prefix _ _ _ _ _ _ Hs' Hs Hl' Hu) as (_ & _ & Hu'). by eapply Hok.
Qed.

Lemma blocks_prefix ns t x t' x' r r' :
  blocks ns t x -> blocks ns t' x' -> t ++ r = t' ++ r' -> t = t' /\ x = x' /\ r = r'.
Proof.
  intros Hb. revert t' x'. induction Hb as [|n ns t x u y Hs Hl Hb IH]; intros t' x' Hb' E.
  - inversion Hb'; subst. done.
  - inversion Hb' as [|? ? t1 x1 u1 y1 Hs1 Hl1 Hb1]; subst. cbn in E. injection E as E. rewrite <- !app_assoc in E.
    destruct (spells_prefix _ _ _ _ _ _ Hs Hs1 (eq_sym Hl1) E) as (-> & -> & E'). destruct (IH _ _ Hb1 E') as (-> & -> & ->). done.
Qed.

Lemma text_prefix t x t' x' r r' :
  uuid_text t x -> uuid_text t' x' -> t ++ r = t' ++ r' -> t = t' /\ x = x' /\ r = r'.
Proof.
  intros (t0 & x0 & t1 & x1 & -> & -> & Hs & Hl & Hb) (t0' & x0' & t1' & x1' & -> & -> & Hs' & Hl' & Hb') E.
  rewrite <- !app_assoc in E. destruct (spells_prefix _ _ _ _ _ _ Hs Hs' ltac:(congruence) E) as (-> & -> & E').
  destruct (blocks_prefix _ _ _ _ _ _ _ Hb Hb' E') as (-> & -> & ->). done.
Qed.

Lemma text_head t x : uuid_text t x -> exists c u, t = c :: u /\ isspace c = false.
Proof.
  intros (t0 & x0 & t1 & x1 & -> & _ & Hs & Hl & _). destruct Hs as [|c1 c2 t x' H1 _ _]; [done|].
  eexists _, _. split; [reflexivity|]. by apply digit_value.
Qed.

Lemma text_length t x : uuid_text t x -> length x = 16%nat.
Proof.
  intros (t0 & x0 & t1 & x1 & _ & -> & _ & Hl & Hb). rewrite length_app, Hl. clear Hl.
  assert (H : forall ns u y, blocks ns u y -> length y = sum_list ns).
  { intros ns u y. induction 1 as [|n ns' u' y' v z _ Hl _ IH]; [done|]. rewrite length_app, Hl, IH. done. }
  by rewrite (H _ _ _ Hb).
Qed.

(** ** Blanks *)

Lemma skip_spec ps :
  exists l, rest ps = l ++ rest (skip_whitespaces ps) /\ blank l /\ code (skip_whitespaces ps) = code ps
    /\ (rest (skip_whitespaces ps) = [] \/ exists c u, rest (skip_whitespaces ps) = c :: u /\ isspace c = false).
Proof.
  unfold skip_whitespaces. generalize (line ps) (column ps). induction (rest ps) as [|c r IH]; intros ln col.
  - exists []. cbn. split_and!; [done|constructor|done|by left].
  - cbn [skip_blanks]. destruct (isspace c) eqn:Hc; cycle 1.
    { exists []. cbn. split_and!; [done|constructor|done|right]. by exists c, r. }
    assert (Hgo : forall ln' col', exists l, c :: r = l ++ rest (skip_blanks r (code ps) ln' col') /\ blank l
      /\ code (skip_blanks r (code ps) ln' col') = code ps
      /\ (rest (skip_blanks r (code ps) ln' col') = [] \/ exists d u, rest (skip_blanks r (code ps) ln' col') = d :: u /\ isspace d = false)).
    { intros ln' col'. destruct (IH ln' col') as (l & Hl & Hb & Hcode & Hend). exists (c :: l).
      split_and!; [cbn; by rewrite <- Hl|by constructor|done|done]. }
    destruct r as [|d r]; [apply Hgo|]. destruct (d =? 10); apply Hgo.
Qed.

Lemma blank_prefix l l' u v :
  blank l -> blank l' -> (u = [] \/ exists c w, u = c :: w /\ isspace c = false) ->
  (exists c w, v = c :: w /\ isspace c = false) -> l ++ u = l' ++ v -> u = v.
Proof.
  intros Hl. revert l'. induction Hl as [|c l Hc Hl IH]; intros l' Hl' Hu Hv E.
  - destruct l' as [|d l']; [done|]. apply Forall_cons in Hl' as [Hd _]. cbn in E. destruct Hu as [->|(x & w & -> & Hx)]; [done|].
    injection E as -> _. congruence.
  - destruct Hl' as [|d l' Hd Hl'].
    + destruct Hv as (x & w & -> & Hx). cbn in E. injection E as -> _. congruence.
    + injection E as _ E. by apply (IH l').
Qed.

Lemma at_end_blank ps : at_end (skip_whitespaces ps) = true <-> blank (rest ps).
Proof.
  destruct (skip_spec ps) as (l & Hr & Hl & _ & Hend). unfold at_end. rewrite Hr. destruct Hend as [->|(c & u & -> & Hc)].
  - rewrite app_nil_r. done.
  - split; [done|]. unfold blank. rewrite Forall_app, Forall_cons. intros (_ & H & _). congruence.
Qed.

(** ** The verdict *)

Lemma spells_bytes t x : spells t x -> all_bytes x.
Proof.
  induction 1 as [|c1 c2 t x H1 H2 Hs IH]; constructor; [|done]. apply digit_value in H1, H2. unfold is_byte. lia.
Qed.

Lemma text_bytes t x : uuid_text t x -> all_bytes x.
Proof.
  intros (t0 & x0 & t1 & x1 & _ & -> & Hs & _ & Hb). apply Forall_app. split; [by eapply spells_bytes|].
  induction Hb as [|n ns t2 x2 u y Hs' _ _ IH]; [constructor|]. apply Forall_app. split; [by eapply spells_bytes|done].
Qed.

Lemma byte_at_range i x : all_bytes x -> 0 <= byte_at i x < 256.
Proof.
  intros Hx. unfold byte_at. destruct (Nat.lt_ge_cases i (length x)) as [Hi|Hi].
  - unfold all_bytes in Hx. rewrite List.Forall_forall in Hx. apply Hx. by apply nth_In.
  - rewrite nth_overflow by done. lia.
Qed.

Lemma check_spec x :
  all_bytes x -> (check_bytes x = valid_uuid /\ version_ok x) \/ (check_bytes x = invalid_version /\ ~ version_ok x).
Proof.
  intros Hx. pose proof (byte_at_range 6 x Hx) as Hb. unfold check_bytes, version_ok, version. rewrite Z.shiftr_div_pow2 by lia.
  change (2 ^ 4) with 16. pose proof (Z.div_pos (byte_at 6 x) 16 ltac:(lia) ltac:(lia)) as Hpos.
  case_bool_decide as Hn; [by left; split; [|left]|].
  destruct (Z.eqb_spec (byte_at 6 x / 16) 0), (Z.ltb_spec 5 (byte_at 6 x / 16)); cbn [orb];
    first [left; split; [done|right; lia] | right; split; [done|]; intros [|]; [done|lia]].
Qed.

Lemma parse_spec s dest :
  length dest = 16%nat ->
  exists r ps x, parse_impl (init_state s) dest = Some (r, ps, x) /\ code ps = success
    /\ match r with
       | valid_uuid => reads_as s x /\ version_ok x
       | invalid_version => reads_as s x /\ ~ version_ok x
       | malformed_uuid => forall y, ~ reads_as s y
       | invalid_variant => False
       end.
Proof.
  intros Hd. unfold parse_impl. destruct (skip_spec (init_state s)) as (l & Hl & Hbl & Hcode & Hend). cbn [init_state rest code] in Hl, Hcode.
  set (p := skip_whitespaces (init_state s)) in *.
  assert (Hsplit : forall y, reads_as s y -> exists t r, rest p = t ++ r /\ uuid_text t y /\ blank r).
  { intros y (l' & t & r & Hs & Hbl' & Hbr & Ht). exists t, r. split_and!; [|done..]. rewrite Hl in Hs.
    destruct (text_head t y Ht) as (c & u & -> & Hc). cbn [app] in *. apply (blank_prefix l l'); [done..| |done]. by exists c, (u ++ r). }
  destruct (read_bytes_spec 4 p []) as (ok & p1 & acc1 & -> & Hc1 & Hok1). destruct ok; cycle 1.
  { eexists _, _, _. split_and!; [reflexivity|congruence|]. intros y Hy. destruct (Hsplit y Hy) as (t & r & Hp & (t0 & x0 & t1 & x1 & -> & _ & Hs & Hlen & _) & _).
    rewrite <- app_assoc in Hp. by eapply Hok1. }
  destruct Hok1 as (t0 & x0 & Hs0 & Hl0 & Hr0 & ->). cbn [app].
  destruct (read_blocks_spec [2; 2; 2; 6]%nat p1 x0) as (ok & p2 & acc2 & -> & Hc2 & Hok2). destruct ok; cycle 1.
  { eexists _, _, _. split_and!; [reflexivity|congruence|]. intros y Hy. destruct (Hsplit y Hy) as (t & r & Hp & (t0' & x0' & t1 & x1 & -> & _ & Hs & Hlen & Hb) & _).
    rewrite <- app_assoc, Hr0 in Hp. destruct (spells_prefix _ _ _ _ _ _ Hs0 Hs ltac:(congruence) Hp) as (_ & _ & Hp'). by eapply Hok2. }
  destruct Hok2 as (t1 & x1 & Hb1 & Hr1 & ->).
  assert (Ht : uuid_text (t0 ++ t1) (x0 ++ x1)) by (by exists t0, x0, t1, x1).
  rewrite (text_length _ _ Ht), drop_ge, app_nil_r by lia. destruct (skip_spec p2) as (_ & _ & _ & Hc3 & _).
  destruct (at_end (skip_whitespaces p2)) eqn:Hend2; cbn [negb].
  - apply at_end_blank in Hend2.
    assert (Hreads : reads_as s (x0 ++ x1)).
    { exists l, (t0 ++ t1), (rest p2). split_and!; [|done..]. by rewrite Hl, Hr0, Hr1, <- app_assoc. }
    destruct (check_spec _ (text_bytes _ _ Ht)) as [[-> Hv]|[-> Hv]]; eexists _, _, _; (split; [reflexivity|]; split; [congruence|done]).
  - eexists _, _, _. split_and!; [reflexivity|congruence|]. intros y Hy. destruct (Hsplit y Hy) as (t & r & Hp & Ht' & Hbr).
    rewrite Hr0, Hr1, app_assoc in Hp. destruct (text_prefix _ _ _ _ _ _ Ht Ht' Hp) as (_ & _ & <-).
    apply at_end_blank in Hbr. congruence.
Qed.

Lemma reads_unique s x y : reads_as s x -> reads_as s y -> x = y.
Proof.
  intros (l & t & r & -> & Hl & _ & Ht) (l' & t' & r' & E & Hl' & _ & Ht').
  assert (Hh : forall u z q, uuid_text u z -> exists c w, u ++ q = c :: w /\ isspace c = false).
  { intros u z q Hu. destruct (text_head u z Hu) as (c & w & -> & Hc). by exists c, (w ++ q). }
  apply blank_prefix in E; [|done|done|right; by eapply Hh|by eapply Hh]. by destruct (text_prefix _ _ _ _ _ _ Ht Ht' E) as (_ & -> & _).
Qed.

(** [can_parse] accepts exactly the texts of UUIDs: five groups of
    hexadecimal digits in either case, separated by dashes and surrounded by any
    blanks, that spell the nil UUID or a version from one to five; and [make_uuid]
    yields the bytes that such a text spells. *)
Theorem uuid_parse_exact s :
  exists b, can_parse s = Some b /\ (b = true <-> exists x, reads_as s x /\ version_ok x)
    /\ (forall x, reads_as s x -> version_ok x -> make_uuid s = Some (inr x)).
Proof.
  unfold can_parse, make_uuid, parse. destruct (parse_spec s nil_bytes eq_refl) as (r & ps & x & -> & _ & Hr).
  eexists. split; [reflexivity|]. rewrite bool_decide_eq_true. destruct r; try done.
  - destruct Hr as [Hr Hv]. split; [split; [eauto|done]|]. intros y Hy _. by rewrite (reads_unique s x y Hr Hy).
  - split; [split; [done|intros (y & Hy & _); by destruct (Hr y)]|]. intros y Hy _. by destruct (Hr y).
  - destruct Hr as [Hr Hv]. split; [split; [done|]|].
    + intros (y & Hy & Hvy). by rewrite (reads_unique s x y Hr Hy) in Hv.
    + intros y Hy Hvy. by rewrite (reads_unique s x y Hr Hy) in Hv.
Qed.

(** ** Printing *)

Lemma hex_byte c : is_byte c -> exists c1 c2, append_hex [c] = [c1; c2] /\ isxdigit c1 = true /\ isxdigit c2 = true
  /\ 16 * ascii_to_int 16 c1 + ascii_to_int 16 c2 = c.
Proof.
  intros Hc. eexists _, _. split; [reflexivity|].
  assert (H : forall_byteb (fun c => match append_hex [c] with
    | [c1; c2] => isxdigit c1 && isxdigit c2 && (16 * ascii_to_int 16 c1 + ascii_to_int 16 c2 =? c) | _ => false end) = true) by (vm_compute; reflexivity).
  apply (forall_byteb_spec _ c H) in Hc. cbn [append_hex flat_map app] in Hc. rewrite !andb_true_iff, Z.eqb_eq in Hc. tauto.
Qed.

Lemma hex_spells x : all_bytes x -> spells (append_hex x) x.
Proof.
  induction 1 as [|c x Hc Hx IH]; [constructor|]. destruct (hex_byte c Hc) as (c1 & c2 & E & H1 & H2 & Hv).
  change (append_hex (c :: x)) with (append_hex [c] ++ append_hex x). rewrite E. cbn [app]. rewrite <- Hv. by constructor.
Qed.

Lemma to_string_text x : all_bytes x -> length x = 16%nat -> uuid_text (to_string x) x.
Proof.
  intros Hx Hl. unfold to_string. rewrite <- (app_nil_r (append_hex (take 6 (drop 10 x)))).
  assert (Hsp : forall n k, spells (append_hex (take n (drop k x))) (take n (drop k x))) by (intros n k; by apply hex_spells, Forall_take, Forall_drop).
  assert (Hlen : forall n k, (k + n <= 16)%nat -> length (take n (drop k x)) = n) by (intros n k Hk; rewrite length_take, length_drop; lia).
  assert (x = take 4 x ++ take 2 (drop 4 x) ++ take 2 (drop 6 x) ++ take 2 (drop 8 x) ++ take 6 (drop 10 x) ++ []) as Hparts.
  { clear Hsp Hlen. do 16 (destruct x as [|? x]; [done|]). destruct x; [|done]. reflexivity. }
  eexists (append_hex (take 4 x)), (take 4 x), _, _. split_and!; [reflexivity|exact Hparts|exact (Hsp 4%nat 0%nat)|exact (Hlen 4%nat 0%nat ltac:(lia))|].
  cbn [chars list_ascii_of_string map app]. repeat (apply blocks_cons; [apply Hsp|apply Hlen; lia|]). constructor.
Qed.

(** The text that [to_string] prints for a UUID is read back as the same
    UUID, if it is nil or its version is known; this holds in particular for the
    UUIDs that [random] creates. *)
Theorem uuid_roundtrip x :
  all_bytes x -> length x = 16%nat -> version_ok x -> make_uuid (to_string x) = Some (inr x).
Proof.
  intros Hx Hl Hv. destruct (uuid_parse_exact (to_string x)) as (b & _ & _ & Hm). apply Hm; [|done].
  exists [], (to_string x), []. rewrite app_nil_r. split_and!; [done|constructor|constructor|by apply to_string_text].
Qed.

Lemma uuid_roundtrip_witness :
  make_uuid (to_string [0xcb; 0xba; 0x34; 0x1a; 0x6c; 0xeb; 0x11; 0xea; 0xbc; 0x55; 2; 0x42; 0xac; 0x13; 0; 3])
  = Some (inr [0xcb; 0xba; 0x34; 0x1a; 0x6c; 0xeb; 0x11; 0xea; 0xbc; 0x55; 2; 0x42; 0xac; 0x13; 0; 3]).
Proof.
  apply uuid_roundtrip.
  - repeat constructor; unfold is_byte; lia.
  - reflexivity.
  - right. vm_compute. split; discriminate.
Defined.

(** ** Fields *)

Ltac each_byte := repeat first [apply Forall_nil_2 | apply Forall_cons_2]; first [done | unfold is_byte; lia].

Lemma land_ones_byte b k : 0 <= k <= 8 -> is_byte (b .& Z.ones k).
Proof.
  intros Hk. rewrite Z.land_ones by lia. unfold is_byte. pose proof (Z.mod_pos_bound b (2 ^ k) ltac:(apply Z.pow_pos_nonneg; lia)).
  pose proof (Z.pow_le_mono_r 2 k 8 ltac:(lia) ltac:(lia)). change (2 ^ 8) with 256 in *. lia.
Qed.

(** The octets of the integers, in network byte order. *)
Lemma uuid_fields x :
  all_bytes x -> length x = 16%nat ->
  timestamp x = be_val ([byte_at 6 x .& 15; byte_at 7 x] ++ take 2 (drop 4 x) ++ take 4 x)
  /\ clock_sequence x = be_val [byte_at 8 x .& 63; byte_at 9 x]
  /\ node x = be_val (take 6 (drop 10 x)).
Proof.
  intros Hx Hl. do 16 (destruct x as [|? x]; [done|]). destruct x; [|done]. unfold all_bytes in Hx. rewrite !Forall_cons in Hx. destruct_and! Hx.
  unfold timestamp, clock_sequence, node. cbn [take drop app byte_at List.nth insert list_insert]. split_and!.
  - apply (network_order_val [_; _; _; _; _; _; _; _]). constructor; [apply (land_ones_byte _ 4); lia|each_byte].
  - apply (network_order_val [_; _]). constructor; [apply (land_ones_byte _ 6); lia|each_byte].
  - etransitivity; [apply (network_order_val [_; _; _; _; _; _; _; _]); each_byte|].
    unfold be_val. cbn. lia.
Qed.

(** ** Random UUIDs *)

Lemma random_fields rng :
  all_bytes rng -> length rng = 16%nat ->
  all_bytes (random rng) /\ length (random rng) = 16%nat /\ variant (random rng) = rfc4122 /\ version (random rng) = 5.
Proof.
  intros Hx Hl. do 16 (destruct rng as [|? rng]; [done|]). destruct rng; [|done]. unfold all_bytes in Hx. rewrite !Forall_cons in Hx. destruct_and! Hx.
  unfold random, variant, version. cbn [byte_at List.nth insert list_insert].
  match goal with H6 : is_byte ?b6, H8 : is_byte ?b8 |- context [[_; _; _; _; _; _; (?b6 .& 15) .| 80; _; (?b8 .& 63) .| 128; _; _; _; _; _; _; _]] =>
    assert (C6 : forall_byteb (fun b => is_byteb ((b .& 15) .| 80) && (((b .& 15) .| 80) .>> 4 =? 5)) = true) by (vm_compute; reflexivity);
    assert (C8 : forall_byteb (fun b => is_byteb ((b .& 63) .| 128) && (Z.to_nat (((b .& 63) .| 128) .>> 5) <=? 5)%nat
      && (4 <=? Z.to_nat (((b .& 63) .| 128) .>> 5))%nat) = true) by (vm_compute; reflexivity);
    apply (forall_byteb_spec _ b6 C6) in H6 as R6; apply (forall_byteb_spec _ b8 C8) in H8 as R8
  end.
  rewrite !andb_true_iff, is_byteb_spec in R6. rewrite !andb_true_iff in R8. rewrite is_byteb_spec in R8. destruct R6 as [R6 V6], R8 as [[R8 V8] V8']. split_and!; [each_byte|done| |by apply Z.eqb_eq].
  apply Nat.leb_le in V8, V8'. match goal with |- context [Z.to_nat ?z] => assert (Z.to_nat z = 4 \/ Z.to_nat z = 5)%nat as [-> | ->] by lia end; done.
Qed.

(** ** Findings *)

(** [parse_impl] does not set the code of the parser state, so that [parse] makes
    an error of the code [success], which is none: [make_uuid] succeeds for every
    malformed text. *)
Lemma malformed_accepted s : (forall y, ~ reads_as s y) -> exists x, make_uuid s = Some (inr x).
Proof.
  intros Hs. unfold make_uuid, parse. destruct (parse_spec s nil_bytes eq_refl) as (r & ps & x & -> & Hc & Hr).
  destruct r; [by destruct (Hs x), Hr| |done|by destruct (Hs x), Hr]. exists x. by rewrite Hc.
Qed.

Lemma nonsense_accepted : make_uuid (chars "12nonsense") = Some (inr (0x12 :: repeat 0 15)) /\ can_parse (chars "12nonsense") = Some false.
Proof. split; vm_compute; reflexivity. Qed.

End Uuid.
