(* ===== verification/WorkerHub.v ===== *)
(** The pool of idle workers: [detail/abstract_worker_hub.cpp] with
    [worker_hub.hpp], which the BASP instance takes its workers from.

    The hub is a lock-free stack with one consumer, the thread of the broker, and
    any number of producers, the threads that have run a worker.  [running_] counts
    the workers that are away; [await_workers] waits on a condition variable until
    it drops to zero.  All threads interleave between any two atomic operations. *)
From stdpp Require Import gmap.
From S2P Require Import Prelude.
#[local] Open Scope Z_scope.

Module WorkerHub.

(** [head_], the [next_] of each worker and [running_], a [size_t]; null is zero. *)
Record hub := Hub {
  head_ : Z;
  next_ : gmap Z Z;
  running_ : Z;
}.

Definition set_head (w : Z) (h : hub) : hub := Hub w (next_ h) (running_ h).
Definition set_next (w n : Z) (h : hub) : hub := Hub (head_ h) (<[w := n]> (next_ h)) (running_ h).
Definition add_running (k : Z) (h : hub) : hub := Hub (head_ h) (next_ h) (uwrap 64 (running_ h + k)).

(** Where a thread is in [push_new] or, if [ret], in [push_returning]. *)
Inductive push_pc :=
  | Load (w : Z) (ret : bool)
  | Store (w next : Z) (ret : bool)
  | Cas (w next : Z) (ret : bool)
  | Decr
  | Notify.

(** The next atomic operation; [None] when the function returns. *)
Definition push_step (p : push_pc) (h : hub) : option push_pc * hub :=
  match p with
  | Load w ret => (Some (Store w (head_ h) ret), h)
  | Store w next ret => (Some (Cas w next ret), set_next w next h)
  | Cas w next ret =>
      if head_ h =? next then (if ret then Some Decr else None, set_head w h)
      else (Some (Store w (head_ h) ret), h)
  | Decr =>
      let h' := add_running (-1) h in
      (if running_ h' =? 0 then Some Notify else None, h')
  | Notify => (None, h)
  end.

(** Where the consumer is: in [pop_impl], in [await_workers], or in neither.
    The mutex is held before [running_] is read ([Checking]) and, when workers are
    away, until [cv_.wait] has put the thread to sleep ([Entering]). *)
Inductive owner_pc :=
  | Free
  | PopLoaded (result : Z)
  | PopCas (result next : Z)
  | PopTaken (result : Z)
  | Checking
  | Entering
  | Waiting
  | Awake.

Definition holds_mutex (o : owner_pc) : bool := match o with Checking | Entering => true | _ => false end.

Definition pop_begin (h : hub) : owner_pc := if head_ h =? 0 then Free else PopLoaded (head_ h).

(** The next atomic operation of [pop_impl], with the worker that it returns;
    [None] if it follows an invalid pointer. *)
Definition pop_step (o : owner_pc) (h : hub) : option (owner_pc * hub * list Z) :=
  match o with
  | PopLoaded result =>
      match next_ h !! result with
      | Some next => Some (PopCas result next, h, [])
      | None => None
      end
  | PopCas result next =>
      if head_ h =? result then
        Some (if result =? 0 then Free else PopTaken result, set_head next h, [])
      else Some (PopLoaded (head_ h), h, [])
  | PopTaken result => Some (Free, add_running 1 h, [result])
  | _ => Some (o, h, [])
  end.

Definition in_pop (o : owner_pc) : bool :=
  match o with PopLoaded _ | PopCas _ _ | PopTaken _ => true | _ => false end.

(** The hub, its consumer, the threads that push, the workers that run, and all
    workers that were ever created. *)
Record system := System {
  the_hub : hub;
  owner : owner_pc;
  threads : list push_pc;
  busy : list Z;
  workers : list Z;
}.

(** The loop of [await_workers]: reading [running_] and falling asleep are two
    operations under the mutex, and the notification takes the mutex as well;
    [cv_.wait] gives up the mutex when the thread sleeps and may wake up by itself. *)
Inductive step : system -> system -> Prop :=
  | step_new w h o ts b ws :
      w <> 0 -> w ∉ ws -> step (System h o ts b ws) (System h o (Load w false :: ts) b (w :: ws))
  | step_return w h o ts b1 b2 ws :
      step (System h o ts (b1 ++ w :: b2) ws) (System h o (Load w true :: ts) (b1 ++ b2) ws)
  | step_push p h o t1 t2 b ws :
      p <> Notify ->
      step (System h o (t1 ++ p :: t2) b ws)
        (System (push_step p h).2 o (t1 ++ option_list (push_step p h).1 ++ t2) b ws)
  | step_notify h o t1 t2 b ws :
      holds_mutex o = false ->
      step (System h o (t1 ++ Notify :: t2) b ws)
        (System h (match o with Waiting => Awake | _ => o end) (t1 ++ t2) b ws)
  | step_pop_begin h ts b ws : step (System h Free ts b ws) (System h (pop_begin h) ts b ws)
  | step_pop h o ts b ws o' h' r :
      in_pop o = true -> pop_step o h = Some (o', h', r) ->
      step (System h o ts b ws) (System h' o' ts (r ++ b) ws)
  | step_lock h o ts b ws :
      o = Free \/ o = Awake -> step (System h o ts b ws) (System h Checking ts b ws)
  | step_check h ts b ws :
      step (System h Checking ts b ws) (System h (if running_ h =? 0 then Free else Entering) ts b ws)
  | step_sleep h ts b ws : step (System h Entering ts b ws) (System h Waiting ts b ws)
  | step_spurious h ts b ws : step (System h Waiting ts b ws) (System h Awake ts b ws).

Definition initial : system := System (Hub 0 ∅ 0) Free [] [] [].

Definition reachable (s : system) : Prop := rtc step initial s.

(** ** The invariant *)

(** The workers in the stack, from the top. *)
Fixpoint chain (next : gmap Z Z) (h : Z) (idle : list Z) : Prop :=
  match idle with
  | [] => h = 0
  | w :: idle' => h = w /\ w <> 0 /\ exists n, next !! w = Some n /\ chain next n idle'
  end.

(** The worker that a thread is about to push. *)
Definition held (p : push_pc) : list Z :=
  match p with Load w _ | Store w _ _ | Cas w _ _ => [w] | _ => [] end.

(** Whether a thread still has to decrement [running_]. *)
Definition counted (p : push_pc) : nat :=
  match p with Load _ true | Store _ _ true | Cas _ _ true | Decr => 1 | _ => 0 end.

Definition taken (o : owner_pc) : list Z := match o with PopTaken w => [w] | _ => [] end.

Definition away (s : system) : nat := (length (busy s) + sum_list_with counted (threads s))%nat.

(** Each worker is at one place: in the stack, on its way to the broker, at work,
    or on its way back. *)
Definition placed (s : system) (idle : list Z) : Prop :=
  workers s ≡ₚ idle ++ taken (owner s) ++ busy s ++ flat_map held (threads s).

Definition pop_ok (next : gmap Z Z) (idle : list Z) (o : owner_pc) : Prop :=
  match o with
  | PopLoaded r => r ∈ idle
  | PopCas r n => r ∈ idle /\ next !! r = Some n
  | _ => True
  end.

Definition stored (next : gmap Z Z) (p : push_pc) : Prop :=
  match p with Cas w n _ => next !! w = Some n | _ => True end.

(** The consumer has seen that workers are away and relies on a notification. *)
Definition asleep (o : owner_pc) : bool := match o with Entering | Waiting => true | _ => false end.

Record inv (s : system) (idle : list Z) : Prop := {
  inv_chain : chain (next_ (the_hub s)) (head_ (the_hub s)) idle;
  inv_placed : placed s idle;
  inv_nodup : NoDup (workers s);
  inv_nonzero : Forall (fun w => w <> 0) (workers s);
  inv_running : running_ (the_hub s) = uwrap 64 (Z.of_nat (away s));
  inv_pop : pop_ok (next_ (the_hub s)) idle (owner s);
  inv_stored : Forall (stored (next_ (the_hub s))) (threads s);
  inv_wakeup : asleep (owner s) = true -> running_ (the_hub s) <> 0 \/ Notify ∈ threads s;
}.

Lemma hub_chain_frame next h idle w n : w ∉ idle -> chain next h idle -> chain (<[w := n]> next) h idle.
Proof.
  revert h. induction idle as [|v idle IH]; intros h Hw; [done|]. cbn. apply not_elem_of_cons in Hw as [Hv Hw].
  intros (-> & Hz & m & Hm & Hc). split_and!; [done..|]. exists m. by rewrite lookup_insert_ne by done; auto.
Qed.

Lemma chain_next next h idle w : chain next h idle -> w ∈ idle -> exists n, next !! w = Some n.
Proof.
  revert h. induction idle as [|v idle IH]; intros h; [by intros _ ?%elem_of_nil|]. cbn.
  intros (_ & _ & n & Hn & Hc) [->|Hw]%elem_of_cons; eauto.
Qed.

Lemma chain_head next h idle : chain next h idle -> h <> 0 -> h ∈ idle.
Proof. destruct idle; cbn; [done|]. intros (-> & _) _. apply elem_of_cons. by left. Qed.

(** The place of the worker that a thread holds. *)
Lemma held_apart s idle w p t1 t2 :
  inv s idle -> threads s = t1 ++ p :: t2 -> held p = [w] ->
  w <> 0 /\ w ∉ idle /\ Forall (fun q => w ∉ held q) (t1 ++ t2).
Proof.
  intros [_ Hp Hnd Hnz _ _ _ _] Ht Hw. unfold placed in Hp. rewrite Ht, flat_map_app in Hp. cbn [flat_map] in Hp. rewrite Hw in Hp.
  assert (Hin : w ∈ workers s).
  { rewrite Hp, !elem_of_app. cbn. rewrite elem_of_cons. tauto. }
  split; [by eapply Forall_forall in Hnz|]. rewrite Hp in Hnd.
  assert (Hperm : idle ++ taken (owner s) ++ busy s ++ flat_map held t1 ++ [w] ++ flat_map held t2
    ≡ₚ w :: idle ++ taken (owner s) ++ busy s ++ flat_map held (t1 ++ t2)) by (rewrite flat_map_app; solve_Permutation).
  rewrite Hperm, NoDup_cons, !not_elem_of_app in Hnd. destruct Hnd as [(Hi & _ & _ & Ht') _]. split; [done|].
  apply Forall_forall. intros q Hq Hwq. apply Ht'. apply list_elem_of_In, in_flat_map. exists q. by rewrite <- !list_elem_of_In.
Qed.

Lemma stored_frame next w n p : w ∉ held p -> stored next p -> stored (<[w := n]> next) p.
Proof. destruct p; cbn; try done. intros Hw Hs. by rewrite lookup_insert_ne by (intros ->; by apply Hw, list_elem_of_singleton). Qed.

Lemma pop_frame next idle w n o : w ∉ idle -> pop_ok next idle o -> pop_ok (<[w := n]> next) idle o.
Proof. destruct o; cbn; try done. intros Hw [Hr Hn]. split; [done|]. by rewrite lookup_insert_ne by (intros ->; contradiction). Qed.

Lemma pop_push next idle w o : pop_ok next idle o -> pop_ok next (w :: idle) o.
Proof. destruct o; cbn; try done; rewrite elem_of_cons; tauto. Qed.

Lemma add_running_wrap h k n : running_ h = uwrap 64 n -> running_ (add_running k h) = uwrap 64 (n + k).
Proof. intros H. cbn. rewrite H. unfold uwrap. apply Zplus_mod_idemp_l. Qed.

Lemma counted_app t1 p t2 :
  sum_list_with counted (t1 ++ p :: t2) = (counted p + sum_list_with counted (t1 ++ t2))%nat.
Proof. rewrite !sum_list_with_app. cbn. lia. Qed.

Lemma held_app t1 p t2 : flat_map held (t1 ++ p :: t2) ≡ₚ held p ++ flat_map held (t1 ++ t2).
Proof. rewrite !flat_map_app. cbn. solve_Permutation. Qed.

(** A thread moves on: what has to be shown beyond the accounts. *)
Lemma inv_move h h' o t1 p p' t2 b ws idle idle' :
  inv (System h o (t1 ++ p :: t2) b ws) idle ->
  chain (next_ h') (head_ h') idle' -> pop_ok (next_ h') idle' o ->
  idle' ++ flat_map held (option_list p') ≡ₚ idle ++ held p ->
  running_ h' = uwrap 64 (Z.of_nat (length b + sum_list_with counted (option_list p') + sum_list_with counted (t1 ++ t2))) ->
  Forall (stored (next_ h')) (option_list p' ++ t1 ++ t2) ->
  (running_ h <> 0 -> running_ h' <> 0 \/ p' = Some Notify) -> p <> Notify ->
  inv (System h' o (t1 ++ option_list p' ++ t2) b ws) idle'.
Proof.
  intros [_ Hp Hnd Hnz _ _ _ Hw] Hc Hpop Hplace Hrun Hst Hwake Hnot. split; cbn in *; try done.
  - unfold placed in *. cbn in *. rewrite held_app in Hp. rewrite Hp, !flat_map_app.
    transitivity ((idle ++ held p) ++ taken o ++ b ++ flat_map held t1 ++ flat_map held t2); [solve_Permutation|].
    rewrite <- Hplace. solve_Permutation.
  - rewrite Hrun. f_equal. unfold away. cbn. rewrite !sum_list_with_app. lia.
  - rewrite !Forall_app in *. tauto.
  - intros Ho. destruct (Hw Ho) as [H|H].
    + destruct (Hwake H) as [?| ->]; [by left|right]. rewrite !elem_of_app. cbn. rewrite list_elem_of_singleton. tauto.
    + right. rewrite elem_of_app, elem_of_cons in H. rewrite !elem_of_app. destruct H as [H|[H|H]]; [tauto|done|tauto].
Qed.

Lemma hub_push h o t1 p t2 b ws idle :
  inv (System h o (t1 ++ p :: t2) b ws) idle -> p <> Notify ->
  exists idle', inv (System (push_step p h).2 o (t1 ++ option_list (push_step p h).1 ++ t2) b ws) idle'.
Proof.
  intros Hi Hn. pose proof Hi as [Hc _ _ _ Hr Hpop Hst _]. cbn in Hc, Hr, Hpop, Hst. unfold away in Hr. cbn in Hr.
  rewrite counted_app in Hr. apply Forall_app in Hst as [Hst1 Hst2]. apply Forall_cons in Hst2 as [Hsp Hst2].
  assert (Hst : Forall (stored (next_ h)) (t1 ++ t2)) by (by apply Forall_app).
  destruct p as [w ret|w n ret|w n ret| |]; [..|done]; cbn [push_step].
  - exists idle. eapply inv_move; [exact Hi|done|done|by cbn| |by constructor|by left|done].
    cbn. rewrite Hr. f_equal. destruct ret; cbn; lia.
  - exists idle. destruct (held_apart _ _ w _ _ _ Hi eq_refl eq_refl) as (Hz & Hw & Hothers).
    eapply inv_move; [exact Hi|by apply hub_chain_frame|by apply pop_frame|by cbn| | |by left|done].
    + cbn. rewrite Hr. f_equal. destruct ret; cbn; lia.
    + constructor; [cbn; by rewrite lookup_insert_eq|]. eapply Forall_impl; [apply Forall_and; exact (conj Hothers Hst)|].
      intros q [H1 H2]. by apply stored_frame.
  - destruct (held_apart _ _ w _ _ _ Hi eq_refl eq_refl) as (Hz & Hw & _). cbn in Hsp.
    destruct (Z.eqb_spec (head_ h) n) as [E|E]; cbn [fst snd].
    + exists (w :: idle). eapply inv_move; [exact Hi| |by apply pop_push| | | |by left|done].
      * cbn. split_and!; [done..|]. exists n. by rewrite <- E in *.
      * destruct ret; cbn; solve_Permutation.
      * cbn. rewrite Hr. f_equal. destruct ret; cbn; lia.
      * destruct ret; [by constructor|done].
    + exists idle. eapply inv_move; [exact Hi|done|done|by cbn| |by constructor|by left|done].
      cbn. rewrite Hr. f_equal. destruct ret; cbn; lia.
  - exists idle. pose proof (add_running_wrap h (-1) _ Hr) as Hr'. cbn [counted] in Hr'.
    destruct (Z.eqb_spec (running_ (add_running (-1) h)) 0) as [E|E]; cbn [fst snd];
      (eapply inv_move; [exact Hi|done|done|by cbn| | | |done]).
    1, 4: rewrite Hr'; f_equal; cbn; lia.
    + by constructor.
    + by right.
    + done.
    + by left.
Qed.

Lemma inv_pop_step h o ts b ws idle o' h' r :
  inv (System h o ts b ws) idle -> in_pop o = true -> pop_step o h = Some (o', h', r) ->
  exists idle', inv (System h' o' ts (r ++ b) ws) idle'.
Proof.
  intros [Hc Hp Hnd Hnz Hr Hpop Hst Hw] Ho Hs. unfold placed, away in *. cbn in *.
  destruct o as [|x|x n|x| | | |]; try done; cbn in Hs.
  - destruct (next_ h !! x) as [n|] eqn:Hn; [|done]. injection Hs as <- <- <-. exists idle. by split.
  - destruct Hpop as [Hin Hn]. destruct (Z.eqb_spec (head_ h) x) as [E|E]; injection Hs as <- <- <-.
    + destruct idle as [|v idle]; [by apply elem_of_nil in Hin|]. cbn in Hc. destruct Hc as (E' & Hz & m & Hm & Hc).
      rewrite (proj2 (Z.eqb_neq x 0)) by congruence. exists idle. split; cbn; try done.
      * replace n with m by congruence. done.
      * unfold placed. cbn. rewrite Hp. replace v with x by congruence. cbn. solve_Permutation.
    + exists idle. split; cbn; try done. apply (chain_head _ _ _ Hc). destruct idle; [by apply elem_of_nil in Hin|].
      destruct Hc as (-> & Hz & _). done.
  - injection Hs as <- <- <-. exists idle. split; try done.
    change (running_ (add_running 1 h) = uwrap 64 (Z.of_nat (S (length b) + sum_list_with counted ts))). rewrite (add_running_wrap h 1 _ Hr). f_equal. lia.
Qed.

(** The consumer goes from one operation to another. *)
Lemma inv_owner h o o' ts b ws idle :
  inv (System h o ts b ws) idle -> taken o = [] -> taken o' = [] -> pop_ok (next_ h) idle o' ->
  (asleep o' = true -> running_ h <> 0 \/ Notify ∈ ts) -> inv (System h o' ts b ws) idle.
Proof.
  intros [Hc Hp Hnd Hnz Hr Hpop Hst Hw] Ht Ht' Hpop' Hw'. unfold placed, away in *. cbn in *. split; try done.
  - unfold placed. cbn. by rewrite Ht', Hp, Ht.
Qed.

Lemma hub_step s s' idle : inv s idle -> step s s' -> exists idle', inv s' idle'.
Proof.
  intros Hi Hs. destruct Hs as [w h o ts b ws Hz Hw|w h o ts b1 b2 ws|p h o t1 t2 b ws Hn|h o t1 t2 b ws Ho|h ts b ws
    |h o ts b ws o' h' r Ho Hp|h o ts b ws Ho|h ts b ws|h ts b ws|h ts b ws].
  - exists idle. destruct Hi as [Hc Hp Hnd Hnz Hr Hpop Hst Hwk]. unfold placed, away in *. cbn in *. split; cbn; try done.
    + unfold placed. cbn. rewrite Hp. solve_Permutation.
    + by constructor.
    + by constructor.
    + by constructor.
    + intros H. rewrite elem_of_cons. destruct (Hwk H); tauto.
  - exists idle. destruct Hi as [Hc Hp Hnd Hnz Hr Hpop Hst Hwk]. unfold placed, away in *. cbn in *. split; cbn; try done.
    + unfold placed. cbn. rewrite Hp. solve_Permutation.
    + rewrite Hr. f_equal. unfold away. cbn. rewrite !length_app. cbn. lia.
    + by constructor.
    + intros H. rewrite elem_of_cons. destruct (Hwk H); tauto.
  - by apply (hub_push _ _ _ _ _ _ _ idle).
  - exists idle. destruct Hi as [Hc Hp Hnd Hnz Hr Hpop Hst Hwk]. unfold placed, away in *. cbn in *. split; cbn; try done.
    + unfold placed. cbn. rewrite Hp, held_app. destruct o; cbn; solve_Permutation.
    + rewrite Hr. f_equal. unfold away. cbn. by rewrite counted_app.
    + by destruct o.
    + rewrite Forall_app, Forall_cons in Hst. rewrite Forall_app. tauto.
    + by destruct o.
  - exists idle. unfold pop_begin. eapply inv_owner; [exact Hi|done|by destruct (_ =? _)| |by destruct (_ =? _)].
    destruct (Z.eqb_spec (head_ h) 0); [done|]. cbn. eapply chain_head; [exact (inv_chain _ _ Hi)|done].
  - by apply (inv_pop_step h o ts b ws idle).
  - exists idle. eapply inv_owner; [exact Hi|by destruct Ho as [->| ->]|done..].
  - exists idle. eapply inv_owner; [exact Hi|done|by destruct (_ =? _)|by destruct (_ =? _)|].
    destruct (Z.eqb_spec (running_ h) 0); [done|by left].
  - exists idle. eapply inv_owner; [exact Hi|done..|]. intros _. by apply (inv_wakeup _ _ Hi).
  - exists idle. by eapply inv_owner; [exact Hi|..].
Qed.

Lemma hub_reachable s : reachable s -> exists idle, inv s idle.
Proof.
  intros H. assert (Hgen : forall x, rtc step x s -> (exists idle, inv x idle) -> exists idle, inv s idle).
  { clear H. intros x H. induction H as [|x y z Hxy _ IH]; [done|]. intros [idle Hi]. apply IH. by eapply hub_step. }
  apply (Hgen initial H). exists []. split; cbn; try done; constructor.
Qed.

(** C35. For one consumer, the only thread that calls [pop_impl] and
    [await_workers], and any number of threads in [push_new] and
    [push_returning], however their operations interleave: each worker is at
    exactly one place: in the stack, on its way to the consumer, at work, or on its
    way back. [running_] counts those that are at work or on their way back,
    modulo 2^64, [pop_impl] never follows an invalid pointer, no wake-up is lost (as
    long as the consumer sleeps, or holds the mutex in order to sleep, the count is
    not zero or a notification is still to come), and [await_workers] returns only
    if all workers, fewer than 2^64, are back. *)
Theorem hub_keeps_workers s :
  reachable s ->
  (exists idle, chain (next_ (the_hub s)) (head_ (the_hub s)) idle /\ placed s idle /\ NoDup (workers s)
    /\ (owner s = Checking -> running_ (the_hub s) = 0 -> Z.of_nat (away s) < 2 ^ 64 ->
        busy s = [] /\ Forall (fun p => counted p = O) (threads s)))
  /\ running_ (the_hub s) = uwrap 64 (Z.of_nat (away s))
  /\ is_Some (pop_step (owner s) (the_hub s))
  /\ (asleep (owner s) = true -> running_ (the_hub s) <> 0 \/ Notify ∈ threads s).
Proof.
  intros Hs. destruct (hub_reachable s Hs) as (idle & [Hc Hp Hnd Hnz Hr Hpop Hst Hw]). split_and!; [|done| |done].
  - exists idle. split_and!; [done..|]. intros _ H0 Hlt. rewrite Hr, uwrap_id in H0 by (split; lia).
    unfold away in H0. split; [destruct (busy s); [done|cbn in H0; lia]|]. apply Forall_forall. intros p Hp'.
    apply list_elem_of_split in Hp' as (t1 & t2 & E). rewrite E, counted_app in H0. lia.
  - destruct (owner s) as [|x|x n|x| | | |]; cbn in *; eauto; [|by destruct (_ =? _); eauto].
    destruct (chain_next _ _ _ _ Hc Hpop) as [n ->]. eauto.
Qed.

(** ** A run *)

(** The states of a hub with one worker: new, at work, and on its way back with
    [running_] already decremented. *)
Definition demo_hub (head running : Z) : hub := Hub head {[7 := 0]} running.

Definition demo_busy : system := System (demo_hub 0 1) Free [] [7] [7].

Definition demo_back : system := System (demo_hub 7 0) Free [Notify] [] [7].

Lemma demo_busy_reachable : reachable demo_busy.
Proof.
  unfold reachable, initial. eapply rtc_l; [apply (step_new 7); [done|set_solver]|].
  do 3 (eapply rtc_l; [apply (step_push _ _ _ [] []); done|cbn]).
  eapply rtc_l; [apply step_pop_begin|cbn].
  do 3 (eapply rtc_l; [eapply step_pop; [done|cbn; reflexivity]|cbn]). apply rtc_refl.
Qed.

Lemma demo_back_reachable : reachable demo_back.
Proof.
  unfold reachable. etransitivity; [exact demo_busy_reachable|]. unfold demo_busy, demo_back.
  eapply rtc_l; [apply (step_return 7 _ _ _ [] [])|cbn].
  do 4 (eapply rtc_l; [apply (step_push _ _ _ [] []); done|cbn]). apply rtc_refl.
Qed.

Lemma hub_keeps_workers_witness :
  reachable demo_busy /\ running_ (the_hub demo_busy) = uwrap 64 (Z.of_nat (away demo_busy)) /\ away demo_busy = 1%nat.
Proof.
  split; [exact demo_busy_reachable|]. split; [|reflexivity].
  exact (proj1 (proj2 (hub_keeps_workers demo_busy demo_busy_reachable))).
Defined.

(** [await_workers] may return while the last worker is about to lock the mutex in
    order to notify: the destructor of the hub does not wait for it. *)
Lemma await_returns_early :
  exists s s', reachable s /\ owner s = Checking /\ step s s' /\ owner s' = Free /\ Notify ∈ threads s'.
Proof.
  exists (System (demo_hub 7 0) Checking [Notify] [] [7]), (System (demo_hub 7 0) Free [Notify] [] [7]).
  split_and!; [|done|apply step_check|done|by apply list_elem_of_singleton].
  eapply rtc_r; [exact demo_back_reachable|]. apply step_lock. by left.
Qed.

End WorkerHub.
