(* ===== verification/FlowConcat.v ===== *)
(** Concatenating observables: [flow/op/concat.hpp], the operator behind [concat]
    and [concat_map].

    The operator asks a source for one observable at a time, passes on the items
    of that input, and hands the demand that an input has left over to the next one.
    The observer may request more items and cancel from within [on_next]; inputs
    call [on_subscribe] from within [subscribe] and answer requests later, as the
    operators of the library do. *)
From stdpp Require Import prelude sorting.
From S2P Require Import Prelude FlowSteps FlowGenerator.

Module FlowConcat.

Import FlowSteps(error).
Import FlowGenerator(signal, s_next, s_complete, s_error, item, items, items_snoc, items_next, sec_disposed, add_size, add_size_exact).

Section Operator.

Context {T : Type}.

(** The members of [concat_sub]; a handle is whether it is valid.  The rest is for
    the specification: the signals to the observer, how many items it has requested,
    how many items the current input and how many inputs the source may still
    send, the inputs whose forwarder has its target, the items that inputs have
    sent while the observer was there, and whether the source has ended. *)
Record state := St {
  out_ : bool;
  sub_ : bool;
  fwd_sub_ : bool;
  err_ : option error;
  key_ : nat;
  in_flight_ : nat;
  trace : list (signal T);
  requested : nat;
  asked : nat;
  outer_asked : nat;
  alive : list nat;
  emitted : list (nat * T);
  source_done : bool;
}.

Definition set_out x s := St x (sub_ s) (fwd_sub_ s) (err_ s) (key_ s) (in_flight_ s) (trace s) (requested s) (asked s) (outer_asked s) (alive s) (emitted s) (source_done s).
Definition set_sub x s := St (out_ s) x (fwd_sub_ s) (err_ s) (key_ s) (in_flight_ s) (trace s) (requested s) (asked s) (outer_asked s) (alive s) (emitted s) (source_done s).
Definition set_fwd x s := St (out_ s) (sub_ s) x (err_ s) (key_ s) (in_flight_ s) (trace s) (requested s) (asked s) (outer_asked s) (alive s) (emitted s) (source_done s).
Definition set_err x s := St (out_ s) (sub_ s) (fwd_sub_ s) x (key_ s) (in_flight_ s) (trace s) (requested s) (asked s) (outer_asked s) (alive s) (emitted s) (source_done s).
Definition next_key s := St (out_ s) (sub_ s) (fwd_sub_ s) (err_ s) (S (key_ s)) (in_flight_ s) (trace s) (requested s) (asked s) (outer_asked s) (alive s) (emitted s) (source_done s).
Definition set_in_flight x s := St (out_ s) (sub_ s) (fwd_sub_ s) (err_ s) (key_ s) x (trace s) (requested s) (asked s) (outer_asked s) (alive s) (emitted s) (source_done s).
Definition send x s := St (out_ s) (sub_ s) (fwd_sub_ s) (err_ s) (key_ s) (in_flight_ s) (trace s ++ [x]) (requested s) (asked s) (outer_asked s) (alive s) (emitted s) (source_done s).
Definition note_requested n s := St (out_ s) (sub_ s) (fwd_sub_ s) (err_ s) (key_ s) (in_flight_ s) (trace s) (requested s + n) (asked s) (outer_asked s) (alive s) (emitted s) (source_done s).
Definition set_asked n s := St (out_ s) (sub_ s) (fwd_sub_ s) (err_ s) (key_ s) (in_flight_ s) (trace s) (requested s) n (outer_asked s) (alive s) (emitted s) (source_done s).
Definition set_outer_asked n s := St (out_ s) (sub_ s) (fwd_sub_ s) (err_ s) (key_ s) (in_flight_ s) (trace s) (requested s) (asked s) n (alive s) (emitted s) (source_done s).
Definition set_alive x s := St (out_ s) (sub_ s) (fwd_sub_ s) (err_ s) (key_ s) (in_flight_ s) (trace s) (requested s) (asked s) (outer_asked s) x (emitted s) (source_done s).
Definition note_emitted x s := St (out_ s) (sub_ s) (fwd_sub_ s) (err_ s) (key_ s) (in_flight_ s) (trace s) (requested s) (asked s) (outer_asked s) (alive s) (emitted s ++ [x]) (source_done s).
Definition note_done s := St (out_ s) (sub_ s) (fwd_sub_ s) (err_ s) (key_ s) (in_flight_ s) (trace s) (requested s) (asked s) (outer_asked s) (alive s) (emitted s) true.

(** What the observer does within [on_next]; after it has cancelled, it does not
    use its subscription again, and it requests fewer than 2^64 items in total. *)
Inductive reaction := r_request (n : nat) | r_cancel.

Context (react : list (signal T) -> list reaction).

(** ** Operations

    [None] is a failed assertion. *)

(** [out_.on_complete] and [out_.on_error]. *)
Definition finish (x : signal T) (s : state) : option state :=
  if out_ s then Some (set_out false (send x s)) else None.

(** [in_flight_] is a [size_t]: the sum wraps around. *)
Definition request (n : nat) (s : state) : option state :=
  if negb (out_ s) then None
  else
    let s := if fwd_sub_ s then set_asked (asked s + n) s else s in
    Some (note_requested n (set_in_flight (add_size (in_flight_ s) n) s)).

(** The requests that an observer makes. *)
Definition may_request (n : nat) (s : state) : bool := out_ s && (Z.of_nat (requested s + n) <? 2 ^ 64)%Z.

Definition do_dispose (from_external : bool) (s : state) : option state :=
  if negb (out_ s) then Some s
  else
    let s := set_fwd false (set_sub false (next_key s)) in
    if from_external then finish (s_error sec_disposed) s else Some (set_out false s).

Definition perform (s : option state) (r : reaction) : option state :=
  match s with
  | None => None
  | Some s => match r with r_request n => if may_request n s then request n s else Some s | r_cancel => do_dispose false s end
  end.

(** *** Signals of the source *)

Definition on_subscribe (s : state) : state :=
  if negb (sub_ s) && out_ s then set_outer_asked (outer_asked s + 1) (set_sub true s) else s.

(** The input that a forwarder observes subscribes with it. *)
Definition fwd_on_subscribe (key : nat) (s : state) : state :=
  if negb (key =? key_ s)%nat || fwd_sub_ s then s else set_asked (in_flight_ s) (set_fwd true s).

Definition on_next (s : state) : state :=
  if negb (sub_ s) then s
  else
    let s := next_key (set_outer_asked (outer_asked s - 1) s) in
    let s := set_alive (key_ s :: alive s) s in
    fwd_on_subscribe (key_ s) s.

Definition on_error (what : error) (s : state) : option state :=
  let s := set_err (Some what) (set_sub false s) in
  if negb (fwd_sub_ s) && out_ s then finish (s_error what) (next_key s) else Some s.

Definition on_complete (s : state) : option state :=
  let s := set_sub false s in
  if negb (fwd_sub_ s) && out_ s then finish s_complete (next_key s) else Some s.

(** *** Signals of the inputs *)

Definition fwd_on_complete (key : nat) (s : state) : option state :=
  if negb (key =? key_ s)%nat then Some s
  else
    let s := set_fwd false s in
    if sub_ s then Some (set_outer_asked (outer_asked s + 1) s)
    else finish (match err_ s with None => s_complete | Some e => s_error e end) (next_key s).

Definition fwd_on_error (key : nat) (what : error) (s : state) : option state :=
  if negb (key =? key_ s)%nat then Some s
  else finish (s_error what) (set_fwd false (set_sub false (next_key s))).

Definition fwd_on_next (key : nat) (x : T) (s : state) : option state :=
  if negb (key =? key_ s)%nat then Some s
  else if (in_flight_ s =? 0)%nat || negb (out_ s) then None
  else
    let s := send (s_next x) (set_asked (asked s - 1) (set_in_flight (in_flight_ s - 1) s)) in
    fold_left perform (react (trace s)) (Some s).

(** ** Runs *)

Inductive event :=
  | e_request (n : nat)
  | e_dispose (from_external : bool)
  | e_next
  | e_complete
  | e_error (e : error)
  | e_item (key : nat) (x : T)
  | e_input_complete (key : nat)
  | e_input_error (key : nat) (e : error).

(** What the others may do: the observer requests items as long as it is there and
    fewer than 2^64 in total, the source sends as many inputs as it was asked for and ends once, inputs
    send as many items as they were asked for and end once. *)
Definition allowed (ev : event) (s : state) : Prop :=
  match ev with
  | e_request n => may_request n s = true
  | e_dispose _ => True
  | e_next => source_done s = false /\ (sub_ s = true -> (0 < outer_asked s)%nat)
  | e_complete | e_error _ => source_done s = false
  | e_item key _ => key ∈ alive s /\ (key = key_ s -> (0 < asked s)%nat)
  | e_input_complete key | e_input_error key _ => key ∈ alive s
  end.

Definition drop_target (key : nat) (s : state) : state := set_alive (filter (fun k => k <> key) (alive s)) s.

Definition handle (ev : event) (s : state) : option state :=
  match ev with
  | e_request n => request n s
  | e_dispose b => do_dispose b s
  | e_next => Some (on_next s)
  | e_complete => on_complete (note_done s)
  | e_error e => on_error e (note_done s)
  | e_item key x => fwd_on_next key x (if out_ s then note_emitted (key, x) s else s)
  | e_input_complete key => drop_target key <$> fwd_on_complete key s
  | e_input_error key e => drop_target key <$> fwd_on_error key e s
  end.

(** [subscribe]: a new subscription that the source accepts. *)
Definition make : state := St true false false None 0 0 [] 0 0 0 [] [] false.

Definition subscribed : state := on_subscribe make.

Inductive reachable : state -> Prop :=
  | reach_start : reachable subscribed
  | reach_step s ev s' : reachable s -> allowed ev s -> handle ev s = Some s' -> reachable s'.

(** ** The invariant *)

#[local] Arguments items : simpl never.

(** While the observer is there: all inputs but the current one have ended, the
    current one was asked for what the observer is waiting for, and without one the
    source was asked for one. *)
Record active (s : state) : Prop := {
  a_trace : trace s = map s_next (items (trace s));
  a_fwd : fwd_sub_ s = true <-> key_ s ∈ alive s;
  a_only k : k ∈ alive s -> k = key_ s;
  a_asked : fwd_sub_ s = true -> asked s = in_flight_ s;
  a_outer : sub_ s = true -> source_done s = false /\ err_ s = None /\ outer_asked s = if fwd_sub_ s then 0%nat else 1%nat;
  a_last : sub_ s = false -> source_done s = true /\ fwd_sub_ s = true;
}.

(** How the signals may end. *)
Definition ending (s : state) (tail : list (signal T)) : Prop :=
  tail = [] \/ (exists e, tail = [s_error e]) \/ (tail = [s_complete] /\ source_done s = true /\ err_ s = None /\ alive s = []).

Record gone (s : state) : Prop := {
  g_trace : exists tail, trace s = map s_next (items (trace s)) ++ tail /\ ending s tail;
  g_sub : sub_ s = false;
  g_fwd : fwd_sub_ s = false;
  g_key k : k ∈ alive s -> (k < key_ s)%nat;
}.

Record inv (s : state) : Prop := {
  i_items : items (trace s) = map snd (emitted s);
  i_sorted : StronglySorted le (map fst (emitted s));
  i_keys : Forall (fun kx => kx.1 <= key_ s)%nat (emitted s);
  i_count : (length (items (trace s)) + in_flight_ s)%nat = requested s;
  i_bound : (Z.of_nat (requested s) < 2 ^ 64)%Z;
  i_phase : if out_ s then active s else gone s;
}.

Lemma inv_active s : inv s -> out_ s = true -> active s.
Proof. intros H Ho. pose proof (i_phase s H) as Hp. by rewrite Ho in Hp. Qed.

Lemma inv_gone s : inv s -> out_ s = false -> gone s.
Proof. intros H Ho. pose proof (i_phase s H) as Hp. by rewrite Ho in Hp. Qed.

Lemma keys_later s : Forall (fun kx => kx.1 <= key_ s)%nat (emitted s) -> Forall (fun kx => kx.1 <= S (key_ s))%nat (emitted s).
Proof. intros H. eapply Forall_impl; [exact H|]. cbn. lia. Qed.

Lemma request_inv n s : inv s -> may_request n s = true -> exists s', request n s = Some s' /\ inv s'.
Proof.
  intros H [Ho Hlt%Z.ltb_lt]%andb_prop. pose proof (inv_active s H Ho) as [A1 A2 A3 A4 A5 A6].
  destruct H as [I1 I2 I3 I4 I6 _]. unfold request. rewrite Ho. cbn [negb].
  eexists. split; [reflexivity|]. destruct (fwd_sub_ s) eqn:Hf; cbn [in_flight_ set_asked]; rewrite add_size_exact by lia.
  - split; cbn; [done..|lia|done|]. rewrite Ho. split; cbn; rewrite ?Hf; try done. intros _. by rewrite A4.
  - split; cbn; [done..|lia|done|]. rewrite Ho. split; cbn; rewrite ?Hf; done.
Qed.

(** Ends the subscription: nobody is the current input any more. *)
Lemma gone_inv s s' tail :
  inv s -> out_ s = true -> out_ s' = false -> sub_ s' = false -> fwd_sub_ s' = false -> key_ s' = S (key_ s) ->
  trace s' = trace s ++ tail -> items tail = [] -> in_flight_ s' = in_flight_ s -> requested s' = requested s -> emitted s' = emitted s ->
  (forall k, k ∈ alive s' -> k ∈ alive s) -> ending s' tail -> inv s'.
Proof.
  intros H Ho Ho' Hs Hf Hk Ht Hi Hfl Hr He Ha Hend. pose proof (inv_active s H Ho) as [A1 A2 A3 _ _ _]. destruct H as [I1 I2 I3 I4 I6 _].
  assert (E : items (trace s') = items (trace s)) by (rewrite Ht; unfold items in *; rewrite flat_map_app, Hi; by rewrite app_nil_r).
  split; rewrite ?E, ?He, ?Hk, ?Hfl, ?Hr; try done.
  - by apply keys_later.
  - rewrite Ho'. split; [|done|done|].
    + exists tail. rewrite E, Ht, <- A1. done.
    + intros k Hin. rewrite Hk. apply Ha, A3 in Hin. lia.
Qed.

Lemma dispose_inv b s : inv s -> exists s', do_dispose b s = Some s' /\ inv s' /\ out_ s' = false.
Proof.
  intros H. unfold do_dispose. destruct (out_ s) eqn:Ho; cbn [negb]; [|by exists s].
  destruct b; unfold finish; cbn [out_ set_fwd set_sub next_key]; rewrite ?Ho; (eexists; split; [reflexivity|]; split; [|done]).
  - apply (gone_inv s _ [s_error sec_disposed]); try done. right. left. by eexists.
  - apply (gone_inv s _ []); try done. cbn. by rewrite app_nil_r. by left.
Qed.

Lemma reactions_inv rs s : inv s -> exists s', fold_left perform rs (Some s) = Some s' /\ inv s'.
Proof.
  revert s. induction rs as [|r rs IH]; intros s H; cbn [fold_left]; [by exists s|]. destruct r as [n|]; cbn [perform].
  - destruct (may_request n s) eqn:Ho; [|by apply IH]. destruct (request_inv n s H Ho) as (s' & -> & H'). by apply IH.
  - destruct (dispose_inv false s H) as (s' & -> & H' & _). by apply IH.
Qed.

Lemma item_inv key x s :
  inv s -> allowed (e_item key x) s -> exists s', handle (e_item key x) s = Some s' /\ inv s'.
Proof.
  intros H [Hin Hasked]. cbn [handle]. destruct (out_ s) eqn:Ho.
  - pose proof (inv_active s H Ho) as [A1 A2 A3 A4 A5 A6]. pose proof (A3 _ Hin) as ->. destruct H as [I1 I2 I3 I4 I6 _].
    assert (Hf : fwd_sub_ s = true) by (by apply A2). pose proof (A4 Hf) as Ha. specialize (Hasked eq_refl).
    unfold fwd_on_next. cbn [key_ in_flight_ out_ note_emitted]. rewrite Nat.eqb_refl, (proj2 (Nat.eqb_neq _ 0)), Ho by lia. cbn [negb orb].
    apply reactions_inv. split; cbn; rewrite ?items_snoc, ?map_app; cbn.
    + by rewrite I1.
    + apply StronglySorted_app. split_and!; [|done|by repeat constructor]. intros k k' Hk ->%list_elem_of_singleton.
      apply list_elem_of_fmap in Hk as (kx & -> & Hkx). rewrite Forall_forall in I3. by apply I3.
    + apply Forall_app. split; [done|]. by repeat constructor.
    + rewrite length_app. cbn. lia.
    + exact I6.
    + rewrite Ho. split; cbn; try done; [|intros _; lia]. rewrite items_snoc, map_app. cbn. by rewrite <- A1.
  - pose proof (inv_gone s H Ho) as [_ _ _ G]. unfold fwd_on_next. specialize (G _ Hin). rewrite (proj2 (Nat.eqb_neq _ _)) by lia. by exists s.
Qed.

Lemma next_inv s : inv s -> allowed e_next s -> inv (on_next s).
Proof.
  intros H [Hd Hn]. unfold on_next. destruct (sub_ s) eqn:Hs; [|done]. cbn [negb]. destruct (out_ s) eqn:Ho.
  2: { pose proof (inv_gone s H Ho) as [_ G _ _]. congruence. }
  pose proof (inv_active s H Ho) as [A1 A2 A3 A4 A5 A6]. destruct H as [I1 I2 I3 I4 I6 _].
  destruct (A5 Hs) as (_ & He & Hout). specialize (Hn eq_refl). destruct (fwd_sub_ s) eqn:Hf; [lia|].
  assert (Hnone : forall k, k ∉ alive s) by (intros k Hk; rewrite (A3 _ Hk) in Hk; apply A2 in Hk; done).
  unfold fwd_on_subscribe. cbn. rewrite Nat.eqb_refl, Hf. cbn [negb orb]. split; cbn; try done; [by apply keys_later|].
  rewrite Ho. split; cbn; try done.
  - split; [|done]. intros _. apply elem_of_cons. by left.
  - intros k [Hk|Hk]%elem_of_cons; [done|by destruct (Hnone k)].
  - intros _. by rewrite Hout.
  - by rewrite Hs.
Qed.

Lemma source_inv ev s :
  inv s -> allowed ev s -> ev = e_complete \/ (exists e, ev = e_error e) -> exists s', handle ev s = Some s' /\ inv s'.
Proof.
  intros H Ha Hev. assert (Hd : source_done s = false) by (destruct Hev as [->|(e & ->)]; exact Ha). destruct (out_ s) eqn:Ho.
  - pose proof (inv_active s H Ho) as [A1 A2 A3 A4 A5 A6]. pose proof H as [I1 I2 I3 I4 I6 _]. destruct (fwd_sub_ s) eqn:Hf.
    + destruct Hev as [->|(e & ->)]; cbn [handle]; unfold on_complete, on_error; cbn; rewrite Hf; cbn [negb andb];
        (eexists; split; [reflexivity|]); (split; cbn; try done; rewrite Ho; split; cbn; rewrite ?Hf; done).
    + assert (Hnone : alive s = []).
      { destruct (alive s) as [|k l] eqn:E; [done|]. assert (Hk : k ∈ k :: l) by (apply elem_of_cons; by left).
        assert (Hk' : key_ s ∈ k :: l) by (rewrite <- (A3 k Hk); exact Hk). apply A2 in Hk'. done. }
      assert (Hs : sub_ s = true) by (destruct (sub_ s) eqn:Hs; [done|]; destruct (A6 eq_refl); done).
      destruct (A5 Hs) as (_ & He & _).
      destruct Hev as [->|(e & ->)]; cbn [handle]; unfold on_complete, on_error, finish; cbn; rewrite Hf, Ho; cbn; rewrite ?Ho;
        (eexists; split; [reflexivity|]); eapply (gone_inv s); try done; cbn; try done.
      * right. right. done.
      * right. left. by eexists.
  - pose proof (inv_gone s H Ho) as [(tail & Ht & Hend) G2 G3 G4]. pose proof H as [I1 I2 I3 I4 I6 _].
    assert (Hend' : forall s', source_done s' = true -> alive s' = alive s -> (tail = [s_complete] -> err_ s' = err_ s) -> ending s' tail).
    { intros s' Hs' Ha' He'. destruct Hend as [->|[(e & ->)|(-> & Hds & _)]]; [by left|right; left; by eexists|congruence]. }
    destruct Hev as [->|(e & ->)]; cbn [handle]; unfold on_complete, on_error; cbn; rewrite Ho, andb_false_r;
      (eexists; split; [reflexivity|]); (split; cbn; try done; rewrite Ho; split; cbn; try done; exists tail; split; [done|]).
    + by apply Hend'.
    + destruct Hend as [->|[(e' & ->)|(-> & Hds & _)]]; [by left|right; left; by eexists|congruence].
Qed.

Lemma drop_target_alive key s k : k ∈ alive (drop_target key s) <-> k <> key /\ k ∈ alive s.
Proof. cbn. by rewrite list_elem_of_filter. Qed.

Lemma all_dropped key s : (forall k, k ∈ alive s -> k = key) -> alive (drop_target key s) = [].
Proof.
  intros H. destruct (alive (drop_target key s)) as [|k l] eqn:E; [done|].
  assert (Hk : k ∈ alive (drop_target key s)) by (rewrite E; apply elem_of_cons; by left).
  apply drop_target_alive in Hk as [Hne Hk]. by destruct Hne, (H k Hk).
Qed.

Lemma stale_inv key s : inv s -> out_ s = false -> inv (drop_target key s).
Proof.
  intros H Ho. pose proof (inv_gone s H Ho) as [(tail & Ht & Hend) G2 G3 G4]. destruct H as [I1 I2 I3 I4 I6 _].
  split; cbn; try done. rewrite Ho. split; try done.
  - exists tail. split; [done|]. destruct Hend as [->|[(e & ->)|(-> & Hd & He & Ha)]]; [by left|right; left; by eexists|].
    right. right. cbn. by rewrite Ha.
  - intros k [_ Hk]%drop_target_alive. by apply G4.
Qed.

Lemma input_end_inv ev key s :
  inv s -> allowed ev s -> ev = e_input_complete key \/ (exists e, ev = e_input_error key e) -> exists s', handle ev s = Some s' /\ inv s'.
Proof.
  intros H Ha Hev. assert (Hin : key ∈ alive s) by (destruct Hev as [->|(e & ->)]; exact Ha). destruct (out_ s) eqn:Ho; cycle 1.
  { pose proof (inv_gone s H Ho) as [_ _ _ G]. specialize (G _ Hin). exists (drop_target key s). split; [|by apply stale_inv].
    destruct Hev as [->|(e & ->)]; cbn [handle]; unfold fwd_on_complete, fwd_on_error; by rewrite (proj2 (Nat.eqb_neq _ _)) by lia. }
  pose proof (inv_active s H Ho) as [A1 A2 A3 A4 A5 A6]. pose proof (A3 _ Hin) as Ek. assert (Hf : fwd_sub_ s = true) by (apply A2; by rewrite <- Ek).
  assert (Hall : forall k, k ∈ alive s -> k = key) by (intros k Hk; by rewrite Ek, (A3 k Hk)).
  destruct Hev as [->|(e & ->)]; cbn [handle]; unfold fwd_on_complete, fwd_on_error, finish; rewrite Ek, Nat.eqb_refl; cbn [negb].
  - cbn. destruct (sub_ s) eqn:Hs.
    + destruct (A5 eq_refl) as (Hd & He & Hout). rewrite Hf in Hout. pose proof H as [I1 I2 I3 I4 I6 _].
      eexists. split; [reflexivity|]. split; cbn; try done. rewrite Ho. pose proof (all_dropped key s Hall) as Hnil. rewrite Ek in Hnil. cbn in Hnil.
      split; cbn; rewrite ?Hnil; try done.
      * split; [done|]. by intros ?%elem_of_nil.
      * by intros k ?%elem_of_nil.
      * intros _. by rewrite Hout.
      * by rewrite Hs.
    + destruct (A6 eq_refl) as (Hd & _). cbn. rewrite Ho. eexists. split; [reflexivity|]. pose proof (all_dropped key s Hall) as Hnil. rewrite Ek in Hnil.
      eapply (gone_inv s); try done; cbn; try done.
      * by destruct (err_ s).
      * intros k Hk. apply list_elem_of_filter in Hk. by destruct Hk.
      * destruct (err_ s) as [e|] eqn:He; [right; left; by eexists|]. right. right. done.
  - cbn. rewrite Ho. eexists. split; [reflexivity|]. eapply (gone_inv s); try done; cbn; try done.
    + intros k Hk. apply list_elem_of_filter in Hk. by destruct Hk.
    + right. left. by eexists.
Qed.

Lemma handle_inv ev s : inv s -> allowed ev s -> exists s', handle ev s = Some s' /\ inv s'.
Proof.
  intros H Ha. destruct ev as [n|b| | |e|key x|key|key e].
  - by apply request_inv.
  - destruct (dispose_inv b s H) as (s' & Hs & Hi & _). by exists s'.
  - exists (on_next s). split; [done|by apply next_inv].
  - apply source_inv; [done|done|by left].
  - apply source_inv; [done|done|right; by eexists].
  - by apply item_inv.
  - apply (input_end_inv _ key); [done|done|by left].
  - apply (input_end_inv _ key); [done|done|right; by eexists].
Qed.

Lemma concat_reachable s : reachable s -> inv s.
Proof.
  induction 1 as [|s ev s' _ IH Ha Hs].
  - split; cbn; try done; [constructor|]. split; cbn; try done. by split; [|intros ?%elem_of_nil]. by intros k ?%elem_of_nil.
  - destruct (handle_inv ev s IH Ha) as (s'' & Hs' & Hi). congruence.
Qed.

End Operator.
Arguments state : clear implicits.
Arguments event : clear implicits.

(** C22. However source, inputs and observer interleave, as long as the observer
    calls [request] only while it is there (not after its last signal or after it
    has cancelled) and for fewer than 2^64 items in total, and source and inputs send
    no more than they were asked for, inputs not before [subscribe] has returned:
    no assertion fails, and the observer gets all items of the first input, then all items of the second
    one, and so on, never more than it has requested. As long as it is there, the
    current input has been asked for exactly the items that the observer waits
    for, or the source has been asked for the next input; completion comes only
    after the source and all inputs have completed. *)
Theorem concat_delivers {T} (react : list (signal T) -> list reaction) s :
  reachable react s ->
  (forall ev, allowed ev s -> is_Some (handle react ev s))
  /\ items (trace s) = map snd (emitted s) /\ StronglySorted le (map fst (emitted s))
  /\ (length (items (trace s)) + in_flight_ s)%nat = requested s
  /\ (out_ s = true -> trace s = map s_next (items (trace s))
      /\ if fwd_sub_ s then asked s = in_flight_ s else sub_ s = true /\ outer_asked s = 1%nat)
  /\ (s_complete ∈ trace s -> source_done s = true /\ err_ s = None /\ alive s = []).
Proof.
  intros Hs. apply concat_reachable in Hs. pose proof Hs as [I1 I2 I3 I4 I6 I5]. split_and!; [|done..| |].
  - intros ev Ha. destruct (handle_inv react ev s Hs Ha) as (s' & -> & _). by eexists.
  - intros Ho. rewrite Ho in I5. destruct I5 as [A1 A2 A3 A4 A5 A6]. split; [done|]. destruct (fwd_sub_ s) eqn:Hf; [by apply A4|].
    destruct (sub_ s) eqn:E; [by destruct (A5 eq_refl) as (_ & _ & ->)|by destruct (A6 eq_refl)].
  - intros Hc. assert (Hno : s_complete ∉ map s_next (items (trace s))) by (intros (x & ? & _)%list_elem_of_fmap; done).
    destruct (out_ s) eqn:Ho.
    + destruct I5 as [A1 _ _ _ _ _]. rewrite A1 in Hc. done.
    + destruct I5 as [(tail & Ht & Hend) _ _ _]. rewrite Ht, elem_of_app in Hc. destruct Hc as [Hc|Hc]; [done|].
      destruct Hend as [->|[(e & ->)|(-> & Hd & He & Ha)]]; [by apply elem_of_nil in Hc|by apply list_elem_of_singleton in Hc|done].
Qed.

(** ** A run *)

Definition demo_react (tr : list (signal nat)) : list reaction := [r_request 1].

Definition demo_events : list (event nat) :=
  [e_request 1; e_next; e_item 1 10; e_item 1 11; e_input_complete 1; e_next; e_complete; e_item 2 12; e_input_complete 2]%nat.

Fixpoint run (evs : list (event nat)) (s : state nat) : option (state nat) :=
  match evs with
  | [] => Some s
  | ev :: evs' => match handle demo_react ev s with Some s' => run evs' s' | None => None end
  end.

Definition demo_end : state nat :=
  match run demo_events subscribed with Some s => s | None => subscribed end.

Lemma demo_end_reachable : reachable demo_react demo_end.
Proof.
  assert (H : forall evs s s', reachable demo_react s -> run evs s = Some s' ->
    (forall pre ev post x, evs = pre ++ ev :: post -> run pre s = Some x -> allowed ev x) -> reachable demo_react s').
  { induction evs as [|ev evs IH]; intros s s' Hs Hr Ha; cbn in Hr; [by injection Hr as <-|].
    destruct (handle demo_react ev s) as [x|] eqn:Hx; [|done]. apply (IH x); [|done|].
    - apply (reach_step _ s ev); [done|by apply (Ha [] ev evs)|done].
    - intros pre ev' post y -> Hy. apply (Ha (ev :: pre) ev' post); [done|]. cbn. by rewrite Hx. }
  apply (H demo_events subscribed); [constructor|vm_compute; reflexivity|].
  intros pre ev post x E Hx. unfold demo_events in E.
  do 9 (destruct pre as [|? pre]; [injection E as <- _; vm_compute in Hx; injection Hx as <-; cbn; repeat split; try set_solver; try lia|injection E as <- E]).
  by destruct pre.
Qed.

Lemma concat_delivers_witness :
  items (trace demo_end) = map snd (emitted demo_end)
  /\ trace demo_end = [s_next 10; s_next 11; s_next 12; s_complete]%nat /\ map fst (emitted demo_end) = [1; 1; 2]%nat.
Proof.
  split; [|split; vm_compute; reflexivity].
  exact (proj1 (proj2 (concat_delivers demo_react demo_end demo_end_reachable))).
Defined.

(** ** Findings *)

(** [subscribe] subscribes to the source before it calls [on_subscribe] of the
    observer.  A source without any input completes within that call: the observer
    gets [on_complete] first, and then a subscription on which [request] fails an
    assertion. *)
Lemma empty_source_asserts n :
  exists s, on_complete (T := nat) subscribed = Some s /\ trace s = [s_complete] /\ request n s = None.
Proof. eexists. split; [reflexivity|]. done. Qed.

End FlowConcat.
