(* ===== verification/Sha1.v ===== *)
(** SHA-1: [hash/sha1.hpp] and [hash/sha1.cpp], which the WebSocket handshake uses.

    The context collects bytes in a block of 64 and folds each full block into
    the intermediate hash.  The reference is the algorithm of RFC 3174: padding,
    blocks, and one loop of eighty rounds per block. *)
From Stdlib Require Import Strings.Ascii Strings.String.
From S2P Require Import Prelude.
From S2P Require Import NetworkOrder.
From S2P Require Import Fsm.
#[local] Open Scope Z_scope.
#[local] Open Scope list_scope.
#[local] Open Scope caf_scope.

Module Sha1.

Record sha1 := Context {
  sealed_ : bool;
  intermediate_ : list Z;
  length_ : Z;
  message_block_index_ : nat;
  message_block_ : list Z;
}.

Definition new_sha1 : sha1 :=
  Context false [0x67452301; 0xEFCDAB89; 0x98BADCFE; 0x10325476; 0xC3D2E1F0] 0 0 (repeat 0 64).

(** ** The code *)

(** [SHA1CircularShift] on [uint32_t]. *)
Definition rotl (bits word : Z) : Z := uwrap 32 (word .<< bits) .| (word .>> (32 - bits)).

Definition word (l : list Z) (i : nat) : Z := List.nth i l 0.

(** [W[t]] for [t] below 16. *)
Definition load (block : list Z) (t : nat) : Z :=
  (((word block (t * 4) .<< 24) .| (word block (t * 4 + 1) .<< 16)) .| (word block (t * 4 + 2) .<< 8)) .| word block (t * 4 + 3).

Definition extend (w : list Z) (t : nat) : list Z :=
  w ++ [rotl 1 (word w (t - 3) .^ word w (t - 8) .^ word w (t - 14) .^ word w (t - 16))].

Definition schedule (block : list Z) : list Z := fold_left extend (seq 16 64) (map (load block) (seq 0 16)).

(** The word buffers [A] to [E]. *)
Record buffers := Buffers { bA : Z; bB : Z; bC : Z; bD : Z; bE : Z }.

(** One round, with the function of [B], [C] and [D] and the constant. *)
Definition round (f : Z -> Z -> Z -> Z) (k : Z) (w : list Z) (x : buffers) (t : nat) : buffers :=
  let tmp := uwrap 32 (rotl 5 (bA x) + f (bB x) (bC x) (bD x) + bE x + word w t + k) in
  Buffers tmp (bA x) (rotl 30 (bB x)) (bC x) (bD x).

Definition not32 (x : Z) : Z := 2 ^ 32 - 1 - x.

Definition process_words (w : list Z) (x : buffers) : buffers :=
  let x := fold_left (round (fun b c d => (b .& c) .| (not32 b .& d)) 0x5A827999 w) (seq 0 20) x in
  let x := fold_left (round (fun b c d => b .^ c .^ d) 0x6ED9EBA1 w) (seq 20 20) x in
  let x := fold_left (round (fun b c d => ((b .& c) .| (b .& d)) .| (c .& d)) 0x8F1BBCDC w) (seq 40 20) x in
  fold_left (round (fun b c d => b .^ c .^ d) 0xCA62C1D6 w) (seq 60 20) x.

Definition add_words (h : list Z) (x : buffers) : list Z :=
  [uwrap 32 (word h 0 + bA x); uwrap 32 (word h 1 + bB x); uwrap 32 (word h 2 + bC x);
   uwrap 32 (word h 3 + bD x); uwrap 32 (word h 4 + bE x)].

Definition process_message_block (s : sha1) : sha1 :=
  let h := intermediate_ s in
  let x := process_words (schedule (message_block_ s)) (Buffers (word h 0) (word h 1) (word h 2) (word h 3) (word h 4)) in
  Context (sealed_ s) (add_words h x) (length_ s) 0 (message_block_ s).

(** [message_block_[message_block_index_++] = b] *)
Definition store (b : Z) (s : sha1) : sha1 :=
  Context (sealed_ s) (intermediate_ s) (length_ s) (S (message_block_index_ s))
    (<[message_block_index_ s := b]> (message_block_ s)).

(** The loop of [append]; the result is false if the message is too long. *)
Fixpoint append_loop (bytes : list Z) (s : sha1) : bool * sha1 :=
  match bytes with
  | [] => (true, s)
  | b :: bytes' =>
      if 2 ^ 64 - 1 - 8 <=? length_ s then (false, s)
      else
        let s := store b s in
        let s := Context (sealed_ s) (intermediate_ s) (length_ s + 8) (message_block_index_ s) (message_block_ s) in
        append_loop bytes' (if (message_block_index_ s =? 64)%nat then process_message_block s else s)
  end.

Definition append (bytes : list Z) (s : sha1) : bool * sha1 :=
  if sealed_ s then (false, s) else append_loop bytes s.

(** [while (message_block_index_ < limit)] *)
Definition fill (limit : nat) (s : sha1) : sha1 :=
  Nat.iter (limit - message_block_index_ s) (store 0) s.

Definition put_length (s : sha1) : sha1 :=
  let bytes := map (fun k => uwrap 8 (length_ s .>> k)) [56; 48; 40; 32; 24; 16; 8; 0] in
  Context (sealed_ s) (intermediate_ s) (length_ s) (message_block_index_ s) (take 56 (message_block_ s) ++ bytes).

Definition pad_message (s : sha1) : sha1 :=
  let s :=
    if (55 <? message_block_index_ s)%nat then fill 56 (process_message_block (fill 64 (store 0x80 s)))
    else fill 56 (store 0x80 s) in
  process_message_block (put_length s).

(** The bytes of the hash. *)
Definition digest (h : list Z) : list Z :=
  map (fun i => uwrap 8 (word h (i / 4) .>> (8 * (3 - Z.of_nat (i mod 4))))) (seq 0 20).

Definition result (s : sha1) : list Z * sha1 :=
  let s :=
    if sealed_ s then s
    else let s := pad_message s in Context true (intermediate_ s) 0 (message_block_index_ s) (repeat 0 64) in
  (digest (intermediate_ s), s).

(** [compute] of a string: the result of [append] is ignored. *)
Definition compute (bytes : list Z) : list Z := (result (append bytes new_sha1).2).1.

(** ** RFC 3174 *)

Definition f (t : nat) (b c d : Z) : Z :=
  if (t <? 20)%nat then (b .& c) .| (not32 b .& d)
  else if (t <? 40)%nat then b .^ c .^ d
  else if (t <? 60)%nat then ((b .& c) .| (b .& d)) .| (c .& d)
  else b .^ c .^ d.

Definition K (t : nat) : Z :=
  if (t <? 20)%nat then 0x5A827999 else if (t <? 40)%nat then 0x6ED9EBA1 else if (t <? 60)%nat then 0x8F1BBCDC else 0xCA62C1D6.

(** The words of a block are integers in network byte order. *)
Definition compress (h block : list Z) : list Z :=
  let w := fold_left extend (seq 16 64) (map (fun t => be_val (take 4 (drop (t * 4) block))) (seq 0 16)) in
  let x := fold_left (fun x t => round (f t) (K t) w x t) (seq 0 80) (Buffers (word h 0) (word h 1) (word h 2) (word h 3) (word h 4)) in
  add_words h x.

(** A one, zeros, and the number of bits in eight bytes. *)
Definition padded (msg : list Z) : list Z :=
  msg ++ [0x80] ++ repeat 0 ((119 - length msg mod 64) mod 64) ++ be_bytes 8 (8 * zlen msg).

Fixpoint hash_blocks (n : nat) (h text : list Z) : list Z :=
  match n with
  | O => h
  | S n' => hash_blocks n' (compress h (take 64 text)) (drop 64 text)
  end.

Definition sha1_reference (msg : list Z) : list Z :=
  flat_map (be_bytes 4) (hash_blocks (length (padded msg) / 64) (intermediate_ new_sha1) (padded msg)).

(** The first test case of the RFC. *)
Example sha1_abc : sha1_reference (Fsm.chars "abc")
  = [0xA9; 0x99; 0x3E; 0x36; 0x47; 0x06; 0x81; 0x6A; 0xBA; 0x3E; 0x25; 0x71; 0x78; 0x50; 0xC2; 0x6C; 0x9C; 0xD0; 0xD8; 0x9D].
Proof. vm_compute. reflexivity. Qed.

(** ** Blocks *)

Lemma fold_ext {A B} (g1 g2 : A -> B -> A) l x :
  (forall x t, In t l -> g1 x t = g2 x t) -> fold_left g1 l x = fold_left g2 l x.
Proof.
  revert x. induction l as [|t l IH]; intros x H; [done|]. cbn. rewrite H by (by left). apply IH. intros y u Hu. apply H. by right.
Qed.

Lemma rounds_80 w x : fold_left (fun x t => round (f t) (K t) w x t) (seq 0 80) x = process_words w x.
Proof.
  change (seq 0 80) with (seq 0 20 ++ seq 20 20 ++ seq 40 20 ++ seq 60 20). rewrite !fold_left_app. unfold process_words. cbv zeta.
  assert (H : forall a g k y, (forall t, (a <= t < a + 20)%nat -> K t = k /\ forall b c d, f t b c d = g b c d) ->
    fold_left (fun x t => round (f t) (K t) w x t) (seq a 20) y = fold_left (round g k w) (seq a 20) y).
  { intros a g k y Hg. apply fold_ext. intros z t Ht. apply in_seq in Ht. destruct (Hg t ltac:(lia)) as [-> Hf]. unfold round. by rewrite Hf. }
  rewrite (H 0%nat (fun b c d => (b .& c) .| (not32 b .& d)) 0x5A827999), (H 20%nat (fun b c d => b .^ c .^ d) 0x6ED9EBA1),
    (H 40%nat (fun b c d => ((b .& c) .| (b .& d)) .| (c .& d)) 0x8F1BBCDC), (H 60%nat (fun b c d => b .^ c .^ d) 0xCA62C1D6); [done|..];
    intros t Ht; unfold K, f; split; intros;
    repeat match goal with |- context [(t <? ?n)%nat] => destruct (Nat.ltb_spec t n); [try lia|try lia] end; done.
Qed.

Lemma load_be block t :
  all_bytes block -> length block = 64%nat -> (t < 16)%nat -> load block t = be_val (take 4 (drop (t * 4) block)).
Proof.
  intros Hb Hl Ht.
  assert (exists a b c d, take 4 (drop (t * 4) block) = [a; b; c; d]) as (a & b & c & d & E).
  { assert (length (take 4 (drop (t * 4) block)) = 4%nat) as H by (rewrite length_take, length_drop; lia).
    destruct (take 4 (drop (t * 4) block)) as [|a [|b [|c [|d [|]]]]]; try done. by exists a, b, c, d. }
  assert (Hn : forall i, (i < 4)%nat -> word block (t * 4 + i) = word [a; b; c; d] i).
  { intros i Hi. unfold word. rewrite <- E, !nth_lookup, lookup_take_lt, lookup_drop by lia. done. }
  pose proof (Hn 0%nat ltac:(lia)) as H0. rewrite Nat.add_0_r in H0. unfold load. rewrite H0, !Hn by lia. rewrite E. cbn [word List.nth].
  assert (all_bytes [a; b; c; d]) as Hbs by (rewrite <- E; by apply Forall_take, Forall_drop). unfold all_bytes, is_byte in Hbs.
  rewrite !Forall_cons in Hbs. destruct Hbs as (Ha & Hb' & Hc & Hd & _).
  rewrite <- !Z.lor_assoc. rewrite (lor_shiftl_add c d 8) by lia. rewrite (lor_shiftl_add b (c * 2 ^ 8 + d) 16) by lia.
  rewrite (lor_shiftl_add a _ 24) by lia. unfold be_val. cbn. lia.
Qed.

Lemma compress_block h block :
  all_bytes block -> length block = 64%nat ->
  add_words h (process_words (schedule block) (Buffers (word h 0) (word h 1) (word h 2) (word h 3) (word h 4))) = compress h block.
Proof.
  intros Hb Hl. unfold compress. rewrite rounds_80. unfold schedule. do 3 f_equal. apply map_ext_in. intros t Ht. apply in_seq in Ht.
  apply load_be; [done|done|lia].
Qed.

#[local] Opaque compress process_words schedule add_words.

(** ** The state of a context *)

(** The hash so far, the bytes in the block and the number of bits. *)
Record holds (s : sha1) (h rest : list Z) (n : Z) : Prop := {
  h_sealed : sealed_ s = false;
  h_inter : intermediate_ s = h;
  h_len : length_ s = n;
  h_index : message_block_index_ s = length rest;
  h_rest : take (length rest) (message_block_ s) = rest;
  h_size : length (message_block_ s) = 64%nat;
  h_bytes : all_bytes (message_block_ s);
}.

Lemma store_holds b s h rest n :
  holds s h rest n -> (length rest < 64)%nat -> is_byte b -> holds (store b s) h (rest ++ [b]) n.
Proof.
  intros [H1 H2 H3 H4 H5 H6 H7] Hl Hb. split; cbn; try done.
  - rewrite length_app, H4. cbn. lia.
  - rewrite H4, insert_take_drop by lia. rewrite H5, (cons_middle b rest (drop _ _)), app_assoc. by apply take_app_length'.
  - by rewrite length_insert.
  - by apply Forall_insert.
Qed.

Lemma stores_holds k s h rest n :
  holds s h rest n -> (length rest + k <= 64)%nat -> holds (Nat.iter k (store 0) s) h (rest ++ repeat 0 k) n.
Proof.
  intros H. induction k as [|k IH]; intros Hk; [by rewrite app_nil_r|].
  replace (repeat 0 (S k)) with (repeat 0 k ++ [0]) by (by rewrite <- repeat_cons). rewrite app_assoc. cbn.
  apply store_holds; [apply IH; lia| |by vm_compute]. rewrite length_app, repeat_length. lia.
Qed.

Lemma fill_holds limit s h rest n :
  holds s h rest n -> (length rest <= limit <= 64)%nat -> holds (fill limit s) h (rest ++ repeat 0 (limit - length rest)) n.
Proof. intros H Hl. unfold fill. rewrite (h_index _ _ _ _ H). apply stores_holds; [done|lia]. Qed.

Lemma process_holds s h rest n :
  holds s h rest n -> length rest = 64%nat -> holds (process_message_block s) (compress h rest) [] n.
Proof.
  intros [H1 H2 H3 H4 H5 H6 H7] Hl. assert (message_block_ s = rest) as E by (rewrite <- H5, take_ge; [done|lia]).
  split; cbn; try done. rewrite H2, E. apply compress_block; [by rewrite <- E|done].
Qed.

(** ** The blocks of a text *)

Lemma hash_blocks_app k j h full more :
  length full = (64 * k)%nat -> hash_blocks (k + j) h (full ++ more) = hash_blocks j (hash_blocks k h full) more.
Proof.
  revert h full. induction k as [|k IH]; intros h full Hl; [by destruct full|].
  cbn [hash_blocks Nat.add]. rewrite take_app_le, drop_app_le by lia. apply IH. rewrite length_drop. lia.
Qed.

(** Splitting a text in full blocks and the bytes after them. *)
Definition absorbed (text h rest : list Z) : Prop :=
  exists k full, text = full ++ rest /\ length full = (64 * k)%nat /\ h = hash_blocks k (intermediate_ new_sha1) full
    /\ (length rest < 64)%nat.

Lemma absorbed_byte text h rest b :
  absorbed text h rest ->
  if (length (rest ++ [b]) =? 64)%nat then absorbed (text ++ [b]) (compress h (rest ++ [b])) []
  else absorbed (text ++ [b]) h (rest ++ [b]).
Proof.
  intros (k & full & -> & Hf & -> & Hr). destruct (Nat.eqb_spec (length (rest ++ [b])) 64) as [E|E].
  - exists (S k), (full ++ rest ++ [b]). rewrite app_nil_r, <- app_assoc, length_app.
    split; [done|]. split; [lia|]. split; [|cbn; lia].
    rewrite <- (Nat.add_1_r k), hash_blocks_app by done.
    cbn [hash_blocks]. by rewrite take_ge by lia.
  - exists k, full. rewrite <- app_assoc. repeat split; try done. rewrite length_app in *. cbn in *. lia.
Qed.

Lemma append_loop_absorbs bytes text s h rest :
  holds s h rest (8 * zlen text) -> absorbed text h rest -> all_bytes bytes -> 8 * zlen (text ++ bytes) < 2 ^ 64 - 8 ->
  exists s' h' rest', append_loop bytes s = (true, s')
    /\ holds s' h' rest' (8 * zlen (text ++ bytes)) /\ absorbed (text ++ bytes) h' rest'.
Proof.
  revert text s h rest. induction bytes as [|b bytes IH]; intros text s h rest Hs Ha Hb Hl.
  { rewrite app_nil_r. by exists s, h, rest. }
  inversion Hb; subst. cbn [append_loop]. rewrite (cons_middle b), app_assoc in Hl |- *.
  assert (8 * zlen text + 8 < 2 ^ 64 - 8) by (unfold zlen in *; rewrite !length_app in Hl; cbn in Hl; lia).
  rewrite (h_len _ _ _ _ Hs). destruct (Z.leb_spec (2 ^ 64 - 1 - 8) (8 * zlen text)); [lia|].
  pose proof Ha as (k & full & _ & _ & _ & Hr). pose proof (absorbed_byte _ _ _ b Ha) as Ha'.
  pose proof (store_holds b _ _ _ _ Hs ltac:(lia) ltac:(done)) as Hst.
  assert (Hs' : holds (Context (sealed_ (store b s)) (intermediate_ (store b s)) (length_ (store b s) + 8)
    (message_block_index_ (store b s)) (message_block_ (store b s))) h (rest ++ [b]) (8 * zlen (text ++ [b]))).
  { destruct Hst as [H1' H2' H3' H4' H5' H6' H7']. split; try done. cbn [length_] in *. rewrite H3'. unfold zlen. rewrite length_app. cbn. lia. }
  cbv zeta. rewrite (h_index _ _ _ _ Hs'). destruct (Nat.eqb_spec (length (rest ++ [b])) 64) as [E|E].
  - eapply IH; [by apply process_holds|done|done|done].
  - by eapply IH.
Qed.

Lemma new_holds : holds new_sha1 (intermediate_ new_sha1) [] 0.
Proof. split; try done. apply Forall_forall. intros x Hx. apply list_elem_of_In, repeat_spec in Hx. by subst. Qed.

(** ** Padding *)

Lemma length_bytes n : map (fun k => uwrap 8 (n .>> k)) [56; 48; 40; 32; 24; 16; 8; 0] = be_bytes 8 n.
Proof.
  unfold be_bytes, uwrap. cbn [le_bytes]. cbn -[Z.pow Z.modulo Z.div Z.shiftr]. rewrite !Z.div_div by lia.
  rewrite !Z.shiftr_div_pow2 by lia. rewrite Z.pow_0_r, Z.div_1_r. done.
Qed.

Lemma digest_words h : length h = 5%nat -> digest h = flat_map (be_bytes 4) h.
Proof.
  destruct h as [|a [|b [|c [|d [|e [|]]]]]]; try done. intros _. unfold digest, be_bytes, uwrap.
  cbn -[Z.pow Z.modulo Z.div Z.shiftr]. rewrite !Z.div_div by lia. rewrite !Z.shiftr_div_pow2 by lia. rewrite !Z.pow_0_r, !Z.div_1_r. done.
Qed.

Lemma last_block s h rest n :
  holds s h rest n -> length rest = 56%nat ->
  intermediate_ (process_message_block (put_length s)) = compress h (rest ++ be_bytes 8 n).
Proof.
  intros [H1 H2 H3 H4 H5 H6 H7] Hl. unfold process_message_block, put_length. cbn [intermediate_ message_block_ length_].
  rewrite length_bytes, H3, H2. replace (take 56 (message_block_ s)) with rest by (rewrite <- Hl; done).
  apply compress_block; [|rewrite length_app, be_bytes_length; lia].
  apply Forall_app. split; [|apply be_bytes_all]. rewrite <- H5. by apply Forall_take.
Qed.

(** The padding of a text, by what its last block holds. *)
Lemma padded_absorbed full rest k :
  length full = (64 * k)%nat -> (length rest < 64)%nat ->
  padded (full ++ rest) = full ++
    (if (55 <? length rest)%nat then
       ((rest ++ [0x80]) ++ repeat 0 (63 - length rest)) ++ repeat 0 56 ++ be_bytes 8 (8 * zlen (full ++ rest))
     else ((rest ++ [0x80]) ++ repeat 0 (55 - length rest)) ++ be_bytes 8 (8 * zlen (full ++ rest))).
Proof.
  intros Hf Hr. unfold padded. assert (length (full ++ rest) mod 64 = length rest)%nat as ->.
  { rewrite length_app, Hf, Nat.add_comm, Nat.mul_comm, Nat.Div0.mod_add. by apply Nat.mod_small. }
  destruct (Nat.ltb_spec 55 (length rest)).
  - rewrite (Nat.mod_small (119 - length rest)) by lia.
    replace (119 - length rest)%nat with (63 - length rest + 56)%nat by lia. by rewrite repeat_app, <- !app_assoc.
  - replace (119 - length rest)%nat with (55 - length rest + 1 * 64)%nat by lia.
    rewrite Nat.Div0.mod_add, Nat.mod_small by lia. by rewrite <- !app_assoc.
Qed.

Lemma pad_message_reference text s h rest :
  holds s h rest (8 * zlen text) -> absorbed text h rest ->
  intermediate_ (pad_message s) = hash_blocks (length (padded text) / 64) (intermediate_ new_sha1) (padded text).
Proof.
  intros Hs (k & full & -> & Hf & -> & Hr). unfold pad_message. rewrite (h_index _ _ _ _ Hs), (padded_absorbed full rest k) by done.
  pose proof (store_holds 0x80 _ _ _ _ Hs Hr ltac:(by vm_compute)) as H1.
  assert (length (rest ++ [0x80]) = S (length rest)) as L1 by (rewrite length_app; cbn; lia).
  destruct (Nat.ltb_spec 55 (length rest)) as [Hc|Hc].
  - pose proof (fill_holds 64 _ _ _ _ H1 ltac:(lia)) as H2. rewrite L1 in H2. change (64 - S (length rest))%nat with (63 - length rest)%nat in H2.
    apply process_holds in H2; [|rewrite length_app, repeat_length; lia].
    pose proof (fill_holds 56 _ _ _ _ H2 ltac:(cbn; lia)) as H3. rewrite (last_block _ _ _ _ H3 eq_refl). cbn [length app Nat.sub].
    set (b1 := (rest ++ [0x80]) ++ repeat 0 (63 - length rest)) in *. assert (length b1 = 64%nat) as Lb by (unfold b1; rewrite length_app, repeat_length; lia).
    rewrite !length_app, Hf, Lb, be_bytes_length, repeat_length. replace (64 * k + (64 + (56 + 8)))%nat with ((k + 2) * 64)%nat by lia.
    rewrite Nat.div_mul, hash_blocks_app by done. cbn [hash_blocks]. rewrite take_app_length', drop_app_length' by done.
    by rewrite (take_ge (repeat 0 56 ++ _)) by (rewrite length_app, be_bytes_length; cbn; lia).
  - pose proof (fill_holds 56 _ _ _ _ H1 ltac:(lia)) as H2. rewrite L1 in H2. change (56 - S (length rest))%nat with (55 - length rest)%nat in H2.
    assert (length ((rest ++ [0x80]) ++ repeat 0 (55 - length rest)) = 56%nat) as Lb by (rewrite length_app, repeat_length; lia).
    rewrite (last_block _ _ _ _ H2 Lb), !(length_app full), (length_app _ (be_bytes _ _)), Lb, be_bytes_length, Hf.
    replace (64 * k + (56 + 8))%nat with ((k + 1) * 64)%nat by lia. rewrite Nat.div_mul, hash_blocks_app by done. cbn [hash_blocks].
    by rewrite (take_ge (_ ++ be_bytes 8 _)) by (rewrite length_app, Lb, be_bytes_length; lia).
Qed.

Lemma compress_length h block : length (compress h block) = 5%nat.
Proof. done. Qed.

Lemma hash_blocks_length k h text : length h = 5%nat -> length (hash_blocks k h text) = 5%nat.
Proof. revert h text. induction k as [|k IH]; intros h text H; [done|]. apply IH, compress_length. Qed.

(** Any number of calls to [append]. *)
Fixpoint appends (parts : list (list Z)) (s : sha1) : sha1 :=
  match parts with
  | [] => s
  | p :: parts' => appends parts' (append p s).2
  end.

Lemma appends_absorb parts text s h rest :
  holds s h rest (8 * zlen text) -> absorbed text h rest -> all_bytes (concat parts) -> 8 * zlen (text ++ concat parts) < 2 ^ 64 - 8 ->
  exists h' rest', holds (appends parts s) h' rest' (8 * zlen (text ++ concat parts)) /\ absorbed (text ++ concat parts) h' rest'.
Proof.
  revert text s h rest. induction parts as [|p parts IH]; intros text s h rest Hs Ha Hb Hl; cbn [concat appends] in *.
  { rewrite app_nil_r. by exists h, rest. }
  apply Forall_app in Hb as [Hb1 Hb2]. rewrite app_assoc in Hl |- *.
  destruct (append_loop_absorbs p text s h rest Hs Ha Hb1) as (s' & h' & rest' & E & Hs' & Ha').
  { unfold zlen in *. rewrite length_app in Hl. lia. }
  unfold append. rewrite (h_sealed _ _ _ _ Hs), E. by eapply IH.
Qed.

(** A digest has 20 bytes. *)
Lemma compute_bytes m : all_bytes (compute m) /\ length (compute m) = 20%nat.
Proof.
  unfold compute, result. cbn [fst]. unfold digest. split; [|by rewrite length_map, length_seq].
  apply Forall_map, Forall_true. intros i. apply (uwrap_range 8). lia.
Qed.

(** The digest of a message of less than 2^61 - 1 bytes, appended in any number of
    parts, is the SHA-1 hash of RFC 3174, and asking for it again gives the same digest. *)
Theorem sha1_computes parts :
  all_bytes (concat parts) -> 8 * zlen (concat parts) < 2 ^ 64 - 8 ->
  (result (appends parts new_sha1)).1 = sha1_reference (concat parts)
  /\ (result (result (appends parts new_sha1)).2).1 = sha1_reference (concat parts).
Proof.
  intros Hb Hl. destruct (appends_absorb parts [] new_sha1 (intermediate_ new_sha1) [] new_holds) as (h & rest & Hs & Ha); [|done|done|].
  { exists 0%nat, []. repeat split; cbn; lia. }
  cbn [app] in Hs, Ha. unfold result. rewrite (h_sealed _ _ _ _ Hs). cbn [sealed_ intermediate_ fst snd].
  rewrite (pad_message_reference _ _ _ _ Hs Ha), digest_words by (by apply hash_blocks_length). done.
Qed.

Lemma sha1_computes_witness :
  (result (appends [Fsm.chars "a"; Fsm.chars "bc"] new_sha1)).1 = sha1_reference (Fsm.chars "abc").
Proof.
  apply (sha1_computes [Fsm.chars "a"; Fsm.chars "bc"]); [|by vm_compute].
  change (all_bytes [97; 98; 99]). unfold all_bytes, is_byte. repeat constructor; lia.
Defined.

End Sha1.
