(* ===== verification/Dictionary.v ===== *)
(** Dictionaries: [dictionary.hpp], the string-keyed map of settings, JSON-like
    configuration and header fields.

    The underlying [std::map<std::string, V>] is a list of pairs with strictly
    ascending keys, and an iterator is an index into it.  The theorems show
    that the operations on it implement a finite map. *)
From stdpp Require Import gmap.
From S2P Require Import Prelude.
#[local] Open Scope Z_scope.

Module Dictionary.

(** [operator<] of [std::string_view]. *)
Fixpoint less (x y : list Z) : bool :=
  match x, y with
  | _, [] => false
  | [], _ :: _ => true
  | a :: x', b :: y' => (a <? b) || ((a =? b) && less x' y')
  end.

(** How far a search gets in a range whose first elements satisfy [p]. *)
Fixpoint partition_point {A} (p : A -> bool) (l : list A) : nat :=
  match l with
  | [] => O
  | x :: l' => if p x then S (partition_point p l') else O
  end.

Section Operations.
  Context {V : Type}.
  Implicit Types xs : list (list Z * V).

(** ** The code *)

Definition lower_bound_from (from : nat) (key : list Z) xs : nat :=
  (from + partition_point (fun kv => less kv.1 key) (drop from xs))%nat.

Definition lower_bound (key : list Z) xs : nat := lower_bound_from 0 key xs.

Definition upper_bound (key : list Z) xs : nat := partition_point (fun kv => negb (less key kv.1)) xs.

(** [xs_.emplace] of [std::map]; a hint does not change what [xs_.emplace_hint] does. *)
Definition map_emplace (key : list Z) (value : V) xs : nat * bool * list (list Z * V) :=
  let i := partition_point (fun kv => less kv.1 key) xs in
  match xs !! i with
  | Some kv => if less key kv.1 then (i, true, take i xs ++ (key, value) :: drop i xs) else (i, false, xs)
  | None => (i, true, take i xs ++ [(key, value)])
  end.

Definition emplace (key : list Z) (value : V) xs : nat * bool * list (list Z * V) :=
  let i := lower_bound key xs in
  match xs !! i with
  | None => map_emplace key value xs
  | Some kv =>
      if bool_decide (kv.1 = key) then (i, false, xs)
      else let '(j, _, ys) := map_emplace key value xs in (j, true, ys)
  end.

Definition insert (key : list Z) (value : V) xs : nat * bool * list (list Z * V) := emplace key value xs.

Definition emplace_hint (hint : nat) (key : list Z) (value : V) xs : nat * list (list Z * V) :=
  let unhinted := let '(j, _, ys) := map_emplace key value xs in (j, ys) in
  match xs !! hint with
  | None => unhinted
  | Some kv =>
      if less key kv.1 then unhinted
      else if bool_decide (kv.1 = key) then (hint, xs)
      else unhinted
  end.

Definition insert_hint (hint : nat) (key : list Z) (value : V) xs : nat * list (list Z * V) := emplace_hint hint key value xs.

(** [xs_.insert(first, last)] *)
Definition insert_range (range : list (list Z * V)) xs : list (list Z * V) :=
  fold_left (fun xs kv => (map_emplace kv.1 kv.2 xs).2) range xs.

Definition insert_or_assign (key : list Z) (value : V) xs : nat * bool * list (list Z * V) :=
  let i := lower_bound key xs in
  match xs !! i with
  | None => map_emplace key value xs
  | Some kv =>
      if bool_decide (kv.1 = key) then (i, false, <[i := (kv.1, value)]> xs)
      else let '(j, _, ys) := map_emplace key value xs in (j, true, ys)
  end.

Definition insert_or_assign_hint (hint : nat) (key : list Z) (value : V) xs : nat * list (list Z * V) :=
  let unhinted := let '(j, _, ys) := insert_or_assign key value xs in (j, ys) in
  match xs !! hint with
  | None => unhinted
  | Some kv =>
      if less key kv.1 then unhinted
      else
        let hint := lower_bound_from hint key xs in
        match xs !! hint with
        | Some kv' =>
            if bool_decide (kv'.1 = key) then (hint, <[hint := (kv'.1, value)]> xs)
            else let '(j, _, ys) := map_emplace key value xs in (j, ys)
        | None => let '(j, _, ys) := map_emplace key value xs in (j, ys)
        end
  end.

Definition contains (key : list Z) xs : bool :=
  match xs !! lower_bound key xs with
  | None => false
  | Some kv => bool_decide (kv.1 = key)
  end.

Definition count (key : list Z) xs : nat := if contains key xs then 1 else 0.

(** The index of the element, or the size. *)
Definition find (key : list Z) xs : nat :=
  match xs !! lower_bound key xs with
  | Some kv => if bool_decide (kv.1 = key) then lower_bound key xs else length xs
  | None => length xs
  end.

(** Erasing of iterators, with the iterator behind the removed elements. *)
Definition erase_at (i : nat) xs : nat * list (list Z * V) := (i, take i xs ++ drop (S i) xs).

Definition erase_range (first last : nat) xs : nat * list (list Z * V) := (first, take first xs ++ drop last xs).

Definition erase (key : list Z) xs : nat * list (list Z * V) :=
  let i := lower_bound key xs in
  match xs !! i with
  | Some kv => if bool_decide (kv.1 = key) then (1%nat, (erase_at i xs).2) else (0%nat, xs)
  | None => (0%nat, xs)
  end.

(** [operator[]]: the element it refers to. *)
Definition at_ (default : V) (key : list Z) xs : nat * list (list Z * V) :=
  let '(i, _, ys) := insert key default xs in (i, ys).

(** ** Ordered keys *)

Fixpoint ascending xs : Prop :=
  match xs with
  | [] => True
  | kv :: xs' => Forall (fun kv' => less kv.1 kv'.1 = true) xs' /\ ascending xs'
  end.

End Operations.

Lemma less_irrefl x : less x x = false.
Proof. induction x as [|a x IH]; [done|]. cbn. by rewrite Z.ltb_irrefl, Z.eqb_refl, IH. Qed.

Lemma less_trans x y z : less x y = true -> less y z = true -> less x z = true.
Proof.
  revert y z. induction x as [|a x IH]; intros [|b y] [|c z]; cbn; try done.
  rewrite !orb_true_iff, !andb_true_iff, !Z.ltb_lt, !Z.eqb_eq. intros [H1|[-> H1]] [H2|[-> H2]]; [left; lia|by left|by left|right; eauto].
Qed.

Lemma less_total x y : less x y = false -> less y x = false -> x = y.
Proof.
  revert y. induction x as [|a x IH]; intros [|b y]; cbn; try done.
  rewrite !orb_false_iff, !andb_false_iff, !Z.ltb_ge, !Z.eqb_neq. intros [H1 H2] [H3 H4].
  assert (a = b) as -> by lia. f_equal. apply IH; [by destruct H2|by destruct H4].
Qed.

Lemma less_asym x y : less x y = true -> less y x = false.
Proof. intros H. destruct (less y x) eqn:E; [|done]. pose proof (less_trans _ _ _ H E) as C. by rewrite less_irrefl in C. Qed.

Section Refinement.
  Context {V : Type}.
  Implicit Types xs l r : list (list Z * V).
  Implicit Types v : V.

Definition to_map xs : gmap (list Z) V := list_to_map xs.

(** What a search for [key] sees: smaller keys, then the key or none, then greater keys. *)
Inductive parts (key : list Z) : list (list Z * V) -> nat -> Prop :=
  | Found l v r :
      Forall (fun kv => less kv.1 key = true) l -> Forall (fun kv => less key kv.1 = true) r ->
      parts key (l ++ (key, v) :: r) (length l)
  | Missing l r :
      Forall (fun kv => less kv.1 key = true) l -> Forall (fun kv => less key kv.1 = true) r ->
      parts key (l ++ r) (length l).

Lemma search_parts key xs : ascending xs -> parts key xs (partition_point (fun kv => less kv.1 key) xs).
Proof.
  induction xs as [|[k v] xs IH]; intros Ha; [by apply (Missing key [] [])|]. cbn in Ha. destruct Ha as [Hk Ha]. cbn.
  destruct (less k key) eqn:E.
  - destruct (IH Ha) as [l v' r Hl Hr|l r Hl Hr].
    + apply (Found key ((k, v) :: l)); [by constructor|done].
    + apply (Missing key ((k, v) :: l)); [by constructor|done].
  - destruct (less key k) eqn:E'.
    + apply (Missing key [] ((k, v) :: xs)); [done|]. constructor; [done|]. eapply Forall_impl; [exact Hk|]. intros kv H. by eapply less_trans.
    + rewrite (less_total _ _ E E') in *. apply (Found key [] v xs); done.
Qed.

Lemma lower_bound_search key xs : lower_bound key xs = partition_point (fun kv => less kv.1 key) xs.
Proof. done. Qed.

Lemma smaller_absent key l : Forall (fun kv => less kv.1 key = true) l -> to_map l !! key = None.
Proof.
  intros H. apply not_elem_of_list_to_map_1. intros Hin. apply list_elem_of_fmap in Hin as ([k v] & -> & Hin).
  rewrite Forall_forall in H. specialize (H _ Hin). by rewrite less_irrefl in H.
Qed.

Lemma greater_absent key r : Forall (fun kv => less key kv.1 = true) r -> to_map r !! key = None.
Proof.
  intros H. apply not_elem_of_list_to_map_1. intros Hin. apply list_elem_of_fmap in Hin as ([k v] & -> & Hin).
  rewrite Forall_forall in H. specialize (H _ Hin). by rewrite less_irrefl in H.
Qed.

Lemma to_map_app l r : to_map (l ++ r) = to_map l ∪ to_map r.
Proof. apply list_to_map_app. Qed.

Lemma to_map_middle key v l r :
  Forall (fun kv => less kv.1 key = true) l -> to_map (l ++ (key, v) :: r) = <[key := v]> (to_map (l ++ r)).
Proof.
  intros H. rewrite !to_map_app. change (to_map ((key, v) :: r)) with (<[key := v]> (to_map r)).
  symmetry. by apply insert_union_r, smaller_absent.
Qed.

Lemma ascending_middle key v l r :
  ascending (l ++ r) -> Forall (fun kv => less kv.1 key = true) l -> Forall (fun kv => less key kv.1 = true) r ->
  ascending (l ++ (key, v) :: r).
Proof.
  induction l as [|kv l IH]; intros Ha Hl Hr; [by split|]. cbn in *. destruct Ha as [Hk Ha]. inversion Hl; subst.
  split; [|by apply IH]. apply Forall_app in Hk as [H3 H4]. apply Forall_app. split; [done|]. by constructor.
Qed.

Lemma ascending_skip kv l r : ascending (l ++ kv :: r) -> ascending (l ++ r).
Proof.
  induction l as [|kv' l IH]; cbn; intros [H1 H2]; [done|]. split; [|by apply IH]. rewrite Forall_app, Forall_cons in *. naive_solver.
Qed.

Lemma ascending_nodup xs : ascending xs -> NoDup xs.*1.
Proof.
  induction xs as [|x xs IH]; cbn; [constructor|]. intros [Hx Ha]. constructor; [|by apply IH]. intros Hin.
  apply list_elem_of_fmap in Hin as (kv & Ek & Hin). rewrite Forall_forall in Hx. specialize (Hx _ Hin). by rewrite Ek, less_irrefl in Hx.
Qed.

Lemma lookup_to_map xs i k v : ascending xs -> xs !! i = Some (k, v) -> to_map xs !! k = Some v.
Proof. intros Ha Hi. apply elem_of_list_to_map_1; [by apply ascending_nodup|by eapply list_elem_of_lookup_2]. Qed.

Lemma missing_lookup key l r kv :
  Forall (fun kv => less key kv.1 = true) r -> (l ++ r) !! length l = Some kv -> kv.1 <> key.
Proof.
  intros Hr E <-. rewrite lookup_app_r, Nat.sub_diag in E by done. destruct r as [|kv' r]; [done|]. injection E as ->.
  inversion Hr as [|? ? H1 H2]; subst. by rewrite less_irrefl in H1.
Qed.

Lemma missing_to_map key l r :
  Forall (fun kv => less kv.1 key = true) l -> Forall (fun kv => less key kv.1 = true) r -> to_map (l ++ r) !! key = None.
Proof. intros Hl Hr. rewrite to_map_app. apply lookup_union_None. split; [by apply smaller_absent|by apply greater_absent]. Qed.

Lemma lookup_middle l kv r : (l ++ kv :: r) !! length l = Some kv.
Proof. by rewrite list_lookup_middle. Qed.

(** What a finite map with an insertion of a new key does. *)
Definition emplaced (key : list Z) (value : V) xs (res : nat * bool * list (list Z * V)) : Prop :=
  let '(i, fresh, ys) := res in
  ascending ys /\ fresh = bool_decide (to_map xs !! key = None)
  /\ to_map ys = (if fresh then <[key := value]> (to_map xs) else to_map xs)
  /\ ((fun kv => kv.1) <$> ys !! i) = Some key.

Lemma map_emplace_ok key value xs : ascending xs -> emplaced key value xs (map_emplace key value xs).
Proof.
  intros Ha. unfold map_emplace. destruct (search_parts key xs Ha) as [l v r Hl Hr|l r Hl Hr].
  - rewrite lookup_middle. cbn [fst]. rewrite less_irrefl. split_and!; [done| |done|by rewrite lookup_middle].
    rewrite bool_decide_eq_false_2; [done|]. rewrite to_map_middle by done. by rewrite lookup_insert_eq.
  - pose proof (missing_to_map key l r Hl Hr) as E.
    rewrite take_app_length, drop_app_length. destruct r as [|kv r].
    + rewrite lookup_app_r, Nat.sub_diag by done. cbn [lookup]. split_and!.
      * by apply ascending_middle.
      * by rewrite bool_decide_eq_true_2.
      * by apply to_map_middle.
      * by rewrite lookup_middle.
    + rewrite lookup_middle. inversion Hr as [|? ? H1 H2]; subst. rewrite H1. split_and!.
      * by apply ascending_middle.
      * by rewrite bool_decide_eq_true_2.
      * by apply to_map_middle.
      * by rewrite lookup_middle.
Qed.

(** The search of the code agrees with the map. *)
Lemma lower_bound_lookup key xs :
  ascending xs ->
  match xs !! lower_bound key xs with
  | Some kv => if bool_decide (kv.1 = key) then to_map xs !! key = Some kv.2 else to_map xs !! key = None
  | None => to_map xs !! key = None
  end.
Proof.
  intros Ha. rewrite lower_bound_search. destruct (search_parts key xs Ha) as [l v r Hl Hr|l r Hl Hr].
  - rewrite lookup_middle. cbn [fst snd]. rewrite bool_decide_eq_true_2 by done. rewrite to_map_middle by done. by rewrite lookup_insert_eq.
  - pose proof (missing_to_map key l r Hl Hr) as E.
    destruct ((l ++ r) !! length l) as [kv|] eqn:El; [|done]. rewrite bool_decide_eq_false_2; [done|]. by eapply missing_lookup.
Qed.

Lemma emplace_ok key value xs : ascending xs -> emplaced key value xs (emplace key value xs).
Proof.
  intros Ha. pose proof (lower_bound_lookup key xs Ha) as Hlk. pose proof (map_emplace_ok key value xs Ha) as Hm. unfold emplace.
  destruct (xs !! lower_bound key xs) as [kv|] eqn:E; [|done]. case_bool_decide as Ek.
  - split_and!; [done| |done|by rewrite E, <- Ek]. by rewrite bool_decide_eq_false_2 by (by rewrite Hlk).
  - destruct (map_emplace key value xs) as [[j b] ys]. destruct Hm as (H1 & -> & H3 & H4).
    rewrite bool_decide_eq_true_2 in H3 by done. split_and!; [done|by rewrite bool_decide_eq_true_2|done|done].
Qed.

Lemma insert_middle l kv kv' r : <[length l := kv']> (l ++ kv :: r) = l ++ kv' :: r.
Proof. rewrite insert_app_r_alt, Nat.sub_diag by done. done. Qed.

Lemma ascending_replace key v v' l r : ascending (l ++ (key, v) :: r) -> ascending (l ++ (key, v') :: r).
Proof.
  induction l as [|kv l IH]; cbn; intros [H1 H2]; [done|]. split; [|by apply IH]. rewrite Forall_app, Forall_cons in *. naive_solver.
Qed.

(** What a finite map with an overwriting insertion does. *)
Definition assigned (key : list Z) (value : V) xs (i : nat) (ys : list (list Z * V)) : Prop :=
  ascending ys /\ to_map ys = <[key := value]> (to_map xs) /\ ys !! i = Some (key, value).

Lemma assign_middle key v value l r :
  Forall (fun kv => less kv.1 key = true) l -> ascending (l ++ (key, v) :: r) ->
  assigned key value (l ++ (key, v) :: r) (length l) (<[length l := (key, value)]> (l ++ (key, v) :: r)).
Proof.
  intros Hl Ha. rewrite insert_middle. split_and!; [by eapply ascending_replace| |by rewrite lookup_middle].
  rewrite !to_map_middle by done. by rewrite insert_insert_eq.
Qed.

Lemma fresh_assigned key value xs i ys :
  emplaced key value xs (i, true, ys) -> ascending xs -> assigned key value xs i ys.
Proof.
  intros (H1 & H2 & H3 & H4) Ha. split_and!; [done|done|]. destruct (ys !! i) as [[k v]|] eqn:E; [|done]. cbn in H4. injection H4 as ->.
  pose proof (lookup_to_map _ _ _ _ H1 E) as Hv. rewrite H3, lookup_insert_eq in Hv. by injection Hv as ->.
Qed.

Lemma insert_or_assign_ok key value xs :
  ascending xs ->
  let '(i, fresh, ys) := insert_or_assign key value xs in
  assigned key value xs i ys /\ fresh = bool_decide (to_map xs !! key = None).
Proof.
  intros Ha. pose proof (map_emplace_ok key value xs Ha) as Hm. pose proof (lower_bound_lookup key xs Ha) as Hlk.
  unfold insert_or_assign. destruct (xs !! lower_bound key xs) as [[k v]|] eqn:E.
  - cbn [fst snd] in *. case_bool_decide as Ek.
    + subst k. split; [|by rewrite bool_decide_eq_false_2 by (by rewrite Hlk)]. rewrite lower_bound_search in *.
      destruct (search_parts key xs Ha) as [l v' r Hl Hr|l r Hl Hr]; [by apply assign_middle|].
      by destruct (missing_lookup _ _ _ _ Hr E).
    + destruct (map_emplace key value xs) as [[j b] ys]. pose proof Hm as (_ & -> & _).
      rewrite bool_decide_eq_true_2 in Hm |- * by done. split; [|done]. by apply fresh_assigned.
  - destruct (map_emplace key value xs) as [[j b] ys]. pose proof Hm as (_ & -> & _).
    rewrite bool_decide_eq_true_2 in Hm |- * by done. split; [|done]. by apply fresh_assigned.
Qed.

(** A range adds the keys that are missing; of equal keys in it the first counts. *)
Lemma insert_range_union range xs :
  ascending xs -> ascending (insert_range range xs) /\ to_map (insert_range range xs) = to_map xs ∪ to_map range.
Proof.
  revert xs. induction range as [|[k v] range IH]; intros xs Ha.
  { split; [done|]. change (to_map []) with (∅ : gmap (list Z) V). by rewrite map_union_empty. }
  pose proof (map_emplace_ok k v xs Ha) as H. cbn [insert_range fold_left fst snd]. fold (insert_range range).
  destruct (map_emplace k v xs) as [[i fresh] ys]. destruct H as (H1 & H2 & H3 & _). cbn [snd]. destruct (IH ys H1) as [H4 H5].
  split; [done|]. change (fold_left _ range ys) with (insert_range range ys). rewrite H5, H3.
  change (to_map ((k, v) :: range)) with (<[k := v]> (to_map range)). destruct (to_map xs !! k) as [w|] eqn:E.
  - rewrite bool_decide_eq_false_2 in H2 by done. subst fresh. apply map_eq. intros j. rewrite !lookup_union.
    destruct (decide (j = k)) as [->|Hj]; [|by rewrite lookup_insert_ne by done].
    rewrite E, lookup_insert_eq. by destruct (to_map range !! k).
  - rewrite bool_decide_eq_true_2 in H2 by done. subst fresh. by rewrite <- insert_union_l, <- insert_union_r by done.
Qed.

(** ** Hints *)

Lemma less_le_trans x y z : less x y = true -> less z y = false -> less x z = true.
Proof.
  intros H1 H2. destruct (less x z) eqn:E1; [done|]. destruct (less z x) eqn:E2.
  - by rewrite (less_trans _ _ _ E2 H1) in H2.
  - rewrite (less_total _ _ E1 E2) in H1. congruence.
Qed.

Lemma hint_lower_bound hint key xs kv :
  ascending xs -> xs !! hint = Some kv -> less key kv.1 = false -> lower_bound_from hint key xs = lower_bound key xs.
Proof.
  unfold lower_bound, lower_bound_from. rewrite drop_0. revert hint. induction xs as [|x xs IH]; intros hint Ha Hh Hk; [done|].
  destruct hint as [|hint]; [done|]. cbn in Ha, Hh. destruct Ha as [Hx Ha]. cbn.
  rewrite Forall_forall in Hx. specialize (Hx kv (list_elem_of_lookup_2 _ _ _ Hh)). rewrite (less_le_trans _ _ _ Hx Hk).
  f_equal. by apply IH.
Qed.

Lemma map_emplace_emplace key value xs :
  ascending xs -> (let '(j, _, ys) := map_emplace key value xs in (j, ys)) = (let '(j, _, ys) := emplace key value xs in (j, ys)).
Proof.
  intros Ha. unfold emplace. rewrite lower_bound_search. destruct (xs !! _) as [kv|] eqn:E; [|done]. case_bool_decide as Ek.
  - unfold map_emplace. by rewrite E, Ek, less_irrefl.
  - by destruct (map_emplace key value xs) as [[j b] ys].
Qed.

Lemma lookup_index key xs i j kv kv' :
  ascending xs -> xs !! i = Some kv -> xs !! j = Some kv' -> kv.1 = key -> kv'.1 = key -> i = j.
Proof.
  revert i j. induction xs as [|x xs IH]; intros i j Ha Hi Hj Hk Hk'; [done|]. cbn in Ha. destruct Ha as [Hx Ha].
  rewrite Forall_forall in Hx. destruct i as [|i], j as [|j]; cbn in Hi, Hj; [done|..].
  - injection Hi as ->. specialize (Hx _ (list_elem_of_lookup_2 _ _ _ Hj)). rewrite Hk, Hk', less_irrefl in Hx. done.
  - injection Hj as ->. specialize (Hx _ (list_elem_of_lookup_2 _ _ _ Hi)). rewrite Hk, Hk', less_irrefl in Hx. done.
  - f_equal. by eapply IH.
Qed.

Lemma emplace_hint_ok hint key value xs :
  ascending xs -> emplace_hint hint key value xs = (let '(j, _, ys) := emplace key value xs in (j, ys)).
Proof.
  intros Ha. unfold emplace_hint. cbv zeta. rewrite (map_emplace_emplace key value xs Ha).
  destruct (xs !! hint) as [kv|] eqn:E; [|done]. destruct (less key kv.1); [done|]. case_bool_decide as Ek; [|done].
  pose proof (lower_bound_lookup key xs Ha) as Hlk. destruct kv as [k v]. cbn in Ek. subst k. rewrite (lookup_to_map _ _ _ _ Ha E) in Hlk.
  unfold emplace. destruct (xs !! lower_bound key xs) as [kv'|] eqn:E'; [|done].
  case_bool_decide as Ek'; [|done]. f_equal. by eapply lookup_index.
Qed.

Lemma insert_or_assign_hint_ok hint key value xs :
  ascending xs -> insert_or_assign_hint hint key value xs = (let '(j, _, ys) := insert_or_assign key value xs in (j, ys)).
Proof.
  intros Ha. unfold insert_or_assign_hint. cbv zeta. destruct (xs !! hint) as [kv|] eqn:E; [|done]. destruct (less key kv.1) eqn:El; [done|].
  rewrite (hint_lower_bound _ _ _ _ Ha E El). unfold insert_or_assign. destruct (xs !! lower_bound key xs) as [kv'|]; [|done].
  case_bool_decide; [done|]. by destruct (map_emplace key value xs) as [[j b] ys].
Qed.

(** ** Lookups and removal *)

Lemma contains_ok key xs : ascending xs -> contains key xs = bool_decide (is_Some (to_map xs !! key)).
Proof.
  intros Ha. pose proof (lower_bound_lookup key xs Ha) as H. unfold contains. destruct (xs !! lower_bound key xs) as [kv|].
  - case_bool_decide; rewrite H; done.
  - by rewrite H.
Qed.

Lemma find_ok key xs : ascending xs -> snd <$> xs !! find key xs = to_map xs !! key.
Proof.
  intros Ha. pose proof (lower_bound_lookup key xs Ha) as H. unfold find. destruct (xs !! lower_bound key xs) as [kv|] eqn:E.
  - case_bool_decide; [by rewrite E, H|]. by rewrite H, lookup_ge_None_2.
  - by rewrite H, lookup_ge_None_2.
Qed.

Lemma erase_ok key xs :
  ascending xs -> let '(n, ys) := erase key xs in
  ascending ys /\ to_map ys = delete key (to_map xs) /\ n = count key xs.
Proof.
  intros Ha. pose proof (lower_bound_lookup key xs Ha) as H. unfold erase, count, contains.
  destruct (xs !! lower_bound key xs) as [kv|] eqn:E; [|split_and!; [done|by rewrite delete_id|done]].
  case_bool_decide as Ek; [|split_and!; [done|by rewrite delete_id|done]]. subst key.
  rewrite lower_bound_search in *. destruct (search_parts kv.1 xs Ha) as [l v r Hl Hr|l r Hl Hr].
  - unfold erase_at. cbn [snd]. rewrite take_app_length, drop_app_ge by lia. replace (S (length l) - length l)%nat with 1%nat by lia. cbn [drop].
    split_and!; [by eapply ascending_skip| |done]. rewrite to_map_middle, delete_insert_eq by done. symmetry. by apply delete_id, missing_to_map.
  - by destruct (missing_lookup _ _ _ _ Hr E).
Qed.

Lemma upper_bound_ok key xs :
  ascending xs -> let i := upper_bound key xs in
  Forall (fun kv => less key kv.1 = false) (take i xs) /\ Forall (fun kv => less key kv.1 = true) (drop i xs).
Proof.
  unfold upper_bound. induction xs as [|x xs IH]; intros Ha; [done|]. cbn in Ha. destruct Ha as [Hx Ha]. cbn.
  destruct (less key x.1) eqn:E; cbn.
  - split; [done|]. constructor; [done|]. eapply Forall_impl; [exact Hx|]. intros kv Hkv. by eapply less_trans.
  - destruct (IH Ha) as [H1 H2]. split; [by constructor|done].
Qed.

End Refinement.

(** The dictionary implements a finite map.  On ascending keys every operation
    keeps the keys ascending; [insert_or_assign] overwrites, [emplace] and
    [insert] add the value unless the key exists, both returning an iterator
    to the element of the key and whether it is new; a hint, good or bad,
    changes neither the contents nor the returned iterator; [find], [contains]
    and [count] look the key up; and [erase] removes it. *)
Theorem dictionary_refines_map {V} (xs : list (list Z * V)) key value hint :
  ascending xs ->
  (let '(i, fresh, ys) := insert_or_assign key value xs in
   ascending ys /\ to_map ys = <[key := value]> (to_map xs) /\ ys !! i = Some (key, value)
   /\ fresh = bool_decide (to_map xs !! key = None)
   /\ insert_or_assign_hint hint key value xs = (i, ys))
  /\ (let '(i, fresh, ys) := emplace key value xs in
      ascending ys /\ to_map ys = (if fresh then <[key := value]> (to_map xs) else to_map xs)
      /\ fresh = bool_decide (to_map xs !! key = None) /\ fst <$> ys !! i = Some key
      /\ emplace_hint hint key value xs = (i, ys))
  /\ snd <$> xs !! find key xs = to_map xs !! key
  /\ contains key xs = bool_decide (is_Some (to_map xs !! key))
  /\ (let '(n, ys) := erase key xs in
      ascending ys /\ to_map ys = delete key (to_map xs) /\ n = count key xs).
Proof.
  intros Ha. pose proof (insert_or_assign_ok key value xs Ha) as H1. pose proof (emplace_ok key value xs Ha) as H2.
  pose proof (insert_or_assign_hint_ok hint key value xs Ha) as H3. pose proof (emplace_hint_ok hint key value xs Ha) as H4.
  destruct (insert_or_assign key value xs) as [[i fresh] ys], (emplace key value xs) as [[j fresh'] zs].
  destruct H1 as [(H5 & H6 & H7) H8], H2 as (H9 & H10 & H11 & H12).
  split_and!; try done; [by apply find_ok|by apply contains_ok|by apply erase_ok].
Qed.

Lemma dictionary_refines_map_witness :
  to_map (insert_or_assign_hint 1 [98] 7 [([97], 1); ([98], 2)]).2 = <[[98] := 7]> (to_map [([97], 1); ([98], 2)]).
Proof.
  pose proof (dictionary_refines_map [([97], 1); ([98], 2)] [98] 7 1 ltac:(cbn; repeat constructor)) as [(_ & H & _) _]. exact H.
Defined.

(** A hint with a smaller key finds its way, one with a greater key is dropped. *)
Example hints_do_not_matter :
  map (fun hint => insert_or_assign_hint hint [99] 5 [([97], 1); ([98], 2); ([100], 3)]) [0%nat; 1%nat; 2%nat; 3%nat]
  = repeat (2%nat, [([97], 1); ([98], 2); ([99], 5); ([100], 3)]) 4.
Proof. vm_compute. reflexivity. Qed.

End Dictionary.
