(* ===== verification/WsHandshake.v ===== *)
(** The opening handshake of WebSocket connections: [net/web_socket/handshake.cpp],
    [server.cpp] and [client.cpp].

    A client writes an HTTP request with a random key and waits for a response
    that proves that the server has read it; a server answers such a request
    and both switch to the framing of [WebSocketFraming].  Random numbers and
    the layer above are parameters. *)
From Stdlib Require Import Strings.Ascii Strings.String.
From S2P Require Import Prelude.
From S2P Require Import NetworkOrder.
From S2P Require Import Base64.
From S2P Require Import Fsm.
From S2P Require Import Dictionary.
From S2P Require Import StreamLayer.
From S2P Require Import Uri.
From S2P Require Import Http.
From S2P Require Import Sha1.
#[local] Open Scope Z_scope.
#[local] Open Scope list_scope.
#[local] Open Scope caf_scope.

Import Fsm Http.

Module WsHandshake.

(** ** The handshake *)

Record handshake := Handshake { key_ : list Z; fields_ : list (list Z * list Z) }.

Definition max_http_size : Z := 2048.

Definition internal_key_prefix : Z := chr "$".
Definition endpoint_key : list Z := chars "$endpoint".
Definition host_key : list Z := chars "$host".
Definition protocol_key : list Z := chars "Sec-WebSocket-Protocol".
Definition origin_key : list Z := chars "Origin".

Definition new_handshake : handshake := Handshake (repeat 0 16) [].

Definition has_valid_key (hs : handshake) : bool := existsb (fun x => negb (x =? 0)) (key_ hs).

Definition ends_with (str suffix : list Z) : bool :=
  if (length suffix <=? length str)%nat then bool_decide (drop (length str - length suffix) str = suffix) else false.

(** [None] stands for a failed assertion. *)
Definition assign_key (base64_key : list Z) (hs : handshake) : option (bool * handshake) :=
  if (zlen base64_key =? 24) && ends_with base64_key (chars "==") then
    let '(ok, buf) := Base64.decode base64_key [] in
    if ok then if zlen buf =? 16 then Some (true, Handshake buf (fields_ hs)) else None
    else Some (false, hs)
  else Some (false, hs).

Definition guid : list Z := chars "258EAFA5-E914-47DA-95CA-C5AB0DC85B11".

Definition response_key (hs : handshake) : list Z :=
  Base64.encode (Sha1.compute (Base64.encode (key_ hs) [] ++ guid)) [].

Definition field (key value : list Z) (hs : handshake) : handshake :=
  Handshake (key_ hs) (Dictionary.insert_or_assign key value (fields_ hs)).2.

(** The random bytes are those of the generator. *)
Definition randomize_key (random : list Z) (hs : handshake) : handshake := Handshake random (fields_ hs).

Definition endpoint (value : list Z) (hs : handshake) : handshake := field endpoint_key value hs.

Definition has_endpoint (hs : handshake) : bool := Dictionary.contains endpoint_key (fields_ hs).

Definition host (value : list Z) (hs : handshake) : handshake := field host_key value hs.

Definition has_host (hs : handshake) : bool := Dictionary.contains host_key (fields_ hs).

Definition has_mandatory_fields (hs : handshake) : bool := has_endpoint hs && has_host hs.

Definition origin (value : list Z) (hs : handshake) : handshake := field origin_key value hs.

Definition protocols (value : list Z) (hs : handshake) : handshake := field protocol_key value hs.

Definition extensions (value : list Z) (hs : handshake) : handshake := field protocol_key value hs.

Definition lookup_field (field_name : list Z) (hs : handshake) : list Z :=
  match fields_ hs !! Dictionary.find field_name (fields_ hs) with
  | Some kv => kv.2
  | None => []
  end.

(** [key[0] != internal_key_prefix]: the first character of an empty string is NUL. *)
Definition is_public (kv : list Z * list Z) : bool := negb (hd 0 kv.1 =? internal_key_prefix).

Definition write_http_1_request (hs : handshake) : list Z :=
  chars "GET " ++ lookup_field endpoint_key hs ++ chars " HTTP/1.1" ++ crlf
  ++ chars "Host: " ++ lookup_field host_key hs ++ crlf
  ++ chars "Upgrade: websocket" ++ crlf
  ++ chars "Connection: Upgrade" ++ crlf
  ++ chars "Sec-WebSocket-Version: 13" ++ crlf
  ++ chars "Sec-WebSocket-Key: " ++ Base64.encode (key_ hs) [] ++ crlf
  ++ flat_map (fun kv => if is_public kv then kv.1 ++ chars ": " ++ kv.2 ++ crlf else []) (fields_ hs)
  ++ crlf.

Definition write_http_1_response (hs : handshake) : list Z :=
  chars "HTTP/1.1 101 Switching Protocols" ++ crlf
  ++ chars "Upgrade: websocket" ++ crlf
  ++ chars "Connection: Upgrade" ++ crlf
  ++ chars "Sec-WebSocket-Accept: " ++ response_key hs ++ crlf ++ crlf.

(** [write_response]: the same through the functions of [v1.cpp] that the lower
    layer of an HTTP server calls, with an empty payload. *)
Definition write_response (hs : handshake) : list Z :=
  begin_response_header switching_protocols
  ++ add_header_field (chars "Upgrade") (chars "websocket")
  ++ add_header_field (chars "Connection") (chars "Upgrade")
  ++ add_header_field (chars "Sec-WebSocket-Accept") (response_key hs)
  ++ end_header.

(** ** The check of the response *)

Fixpoint for_each_http_line {A} (fuel : nat) (f : list Z -> A -> A) (lines : list Z) (x : A) : option A :=
  match fuel with
  | O => None
  | S n =>
      match search lines crlf with
      | Some pos =>
          let line := take pos lines in
          let x := match line with [] => x | _ => f line x end in
          for_each_http_line n f (drop (pos + 2) lines) x
      | None => Some x
      end
  end.

Record response_checker := Checker {
  has_status_101 : bool;
  has_upgrade_field : bool;
  has_connection_field : bool;
  has_ws_accept_field : bool;
}.

Definition new_checker : response_checker := Checker false false false false.

Definition ok (c : response_checker) : bool :=
  has_status_101 c && has_upgrade_field c && has_connection_field c && has_ws_accept_field c.

Definition check_line (ws_key line : list Z) (c : response_checker) : response_checker :=
  if starts_with line (chars "HTTP/1") then
    let code := (split_by (split_by line (chars " ")).2 (chars " ")).1 in
    Checker (bool_decide (code = chars "101")) (has_upgrade_field c) (has_connection_field c) (has_ws_accept_field c)
  else
    let '(field, value) := split_by line (chars ":") in
    let field := trim field in
    let value := trim value in
    if bool_decide (field = chars "Upgrade") then
      Checker (has_status_101 c) (icase_equal value (chars "websocket")) (has_connection_field c) (has_ws_accept_field c)
    else if bool_decide (field = chars "Connection") then
      Checker (has_status_101 c) (has_upgrade_field c) (icase_equal value (chars "upgrade")) (has_ws_accept_field c)
    else if bool_decide (field = chars "Sec-WebSocket-Accept") then
      Checker (has_status_101 c) (has_upgrade_field c) (has_connection_field c) (bool_decide (value = ws_key))
    else c.

Definition is_valid_http_1_response (hs : handshake) (http_response : list Z) : option bool :=
  let response_key := Base64.encode (Sha1.compute (Base64.encode (key_ hs) [] ++ guid)) [] in
  ok <$> for_each_http_line (S (length http_response)) (check_line response_key) http_response new_checker.

(** ** Server *)

(** The layer above: [accept] returns the text of an error, if any. *)
Record upper (U : Type) := Upper {
  up_accept : request_header -> U -> option (list Z) * U;
  up_abort : list Z -> U -> U;
}.
Arguments Upper {U}. Arguments up_accept {U}. Arguments up_abort {U}.

(** A side of the connection: the layer above, the handshake of a client, the
    output, the receive policy, and whether it has switched to the framing. *)
Record side (U : Type) := Side {
  up_ : U;
  hs_ : option handshake;
  output : list Z;
  policy_ : StreamLayer.receive_policy;
  framing : bool;
}.
Arguments Side {U}. Arguments up_ {U}. Arguments hs_ {U}. Arguments output {U}. Arguments policy_ {U}. Arguments framing {U}.

Section Sides.
  Context {U : Type} (app : upper U).

Definition write (t : list Z) (s : side U) : side U := Side (up_ s) (hs_ s) (output s ++ t) (policy_ s) (framing s).

Definition set_up (u : U) (s : side U) : side U := Side u (hs_ s) (output s) (policy_ s) (framing s).

Definition configure_read (p : StreamLayer.receive_policy) (s : side U) : side U := Side (up_ s) (hs_ s) (output s) p (framing s).

Definition switch_protocol (s : side U) : side U := Side (up_ s) (hs_ s) (output s) (policy_ s) true.

Definition server_start (s : side U) : side U := configure_read (StreamLayer.up_to (Z.to_nat max_http_size)) s.

Definition server_respond (code : status) (msg : list Z) (s : side U) : side U :=
  write (Http.write_response code (chars "text/plain") msg) s.

Definition fresh_header : request_header := RequestHeader [] [] get Uri.default_instance [].

Definition server_handle_header (http : list Z) (s : side U) : option (bool * side U) :=
  match req_parse fresh_header http with
  | None => None
  | Some (code, msg, hdr) =>
      if negb (bool_decide (code = status_ok)) then Some (false, server_respond code msg s)
      else if negb (bool_decide (req_method hdr = get)) then
        Some (false, server_respond bad_request (chars "Expected a WebSocket handshake.") s)
      else
        let sec_key := Http.field (chars "Sec-WebSocket-Key") (req_fields hdr) in
        if bool_decide (sec_key = []) then
          Some (false, server_respond bad_request (chars "Mandatory field Sec-WebSocket-Key missing or invalid.") s)
        else
          match up_accept app hdr (up_ s) with
          | (Some err, u) => Some (false, server_respond bad_request err (set_up u s))
          | (None, u) =>
              let s := set_up u s in
              match assign_key sec_key new_handshake with
              | None => None
              | Some (false, _) => Some (false, s)
              | Some (true, hs) => Some (true, switch_protocol (write (write_http_1_response hs) s))
              end
          end
  end.

Definition server_consume (s : side U) (input : list Z) : option (Z * side U) :=
  match (split_header input).1 with
  | [] =>
      if max_http_size <=? zlen input then
        Some (-1, server_respond request_header_fields_too_large (chars "Header exceeds maximum size.") s)
      else Some (0, s)
  | hdr =>
      match server_handle_header hdr s with
      | None => None
      | Some (false, s') => Some (-1, s')
      | Some (true, s') => Some (zlen hdr, s')
      end
  end.

(** ** Client *)

(** [None] stands for a missing handshake, the text for an error. *)
Definition client_start (random : list Z) (s : side U) : option (list Z + side U) :=
  match hs_ s with
  | None => None
  | Some hs =>
      if negb (has_mandatory_fields hs) then Some (inl (chars "WebSocket client_impl received an incomplete handshake"))
      else
        let hs := if has_valid_key hs then hs else randomize_key random hs in
        let s := Side (up_ s) (Some hs) (output s ++ write_http_1_request hs) (policy_ s) (framing s) in
        Some (inr (configure_read (StreamLayer.up_to (Z.to_nat max_http_size)) s))
  end.

Definition client_handle_header (http : list Z) (s : side U) : option (bool * side U) :=
  match hs_ s with
  | None => None
  | Some hs =>
      match is_valid_http_1_response hs http with
      | None => None
      | Some http_ok =>
          let s := Side (up_ s) None (output s) (policy_ s) (framing s) in
          if http_ok then Some (true, switch_protocol s)
          else Some (false, set_up (up_abort app (chars "received an invalid WebSocket handshake") (up_ s)) s)
      end
  end.

Definition client_consume (s : side U) (buffer : list Z) : option (Z * side U) :=
  match (split_header buffer).1 with
  | [] =>
      if max_http_size <=? zlen buffer then
        Some (-1, set_up (up_abort app (chars "server response exceeded the maximum header size") (up_ s)) s)
      else Some (0, s)
  | hdr =>
      match client_handle_header hdr s with
      | None => None
      | Some (false, s') => Some (-1, s')
      | Some (true, s') => Some (zlen hdr, s')
      end
  end.

(** [abort] of both. *)
Definition abort (reason : list Z) (s : side U) : side U := set_up (up_abort app reason (up_ s)) s.

End Sides.

(** ** Keys *)

Lemma enc_text x : 0 <= x < 64 -> isspace (Base64.enc x) = false.
Proof.
  intros Hx. assert (H : forallb (fun n => negb (isspace (Base64.enc (Z.of_nat n)))) (seq 0 64) = true) by (vm_compute; reflexivity).
  rewrite forallb_forall in H. specialize (H (Z.to_nat x) ltac:(apply in_seq; lia)). rewrite Z2Nat.id in H by lia.
  by destruct (isspace (Base64.enc x)).
Qed.

Lemma reference_text input : all_bytes input -> Forall (fun c => isspace c = false) (Base64.reference input).
Proof.
  assert (Hs : forall a b c, is_byte a -> is_byte b -> is_byte c -> Forall (fun x => isspace x = false) (map Base64.enc (Base64.sextets a b c))).
  { intros a b c Ha Hb Hc. apply Forall_map. eapply Forall_impl; [by apply Base64.sextets_range|]. intros x. apply enc_text. }
  induction input as [|a|a b|a b c l IH] using Base64.list_ind3; intros Hb.
  - constructor.
  - apply Forall_cons in Hb as [Ha _]. apply Forall_app. split; [by apply Forall_take, Hs|by repeat constructor].
  - apply Forall_cons in Hb as [Ha Hb]. apply Forall_cons in Hb as [Hb _]. apply Forall_app.
    split; [by apply Forall_take, Hs|by repeat constructor].
  - apply Forall_cons in Hb as [Ha Hb]. apply Forall_cons in Hb as [Hb Hl]. apply Forall_cons in Hl as [Hc Hl].
    cbn [Base64.reference]. apply Forall_app. split; [by apply Hs|by apply IH].
Qed.

Lemma no_space_front l : Forall (fun c => isspace c = false) l -> trim_front l = l.
Proof. destruct l as [|c l]; [done|]. intros H. apply Forall_cons in H as [H _]. cbn. by rewrite H. Qed.

Lemma no_space_trim l : Forall (fun c => isspace c = false) l -> trim l = l.
Proof.
  intros H. unfold trim. destruct (existsb (fun c => negb (isspace c)) l) eqn:E.
  - rewrite (no_space_front l), no_space_front, rev_involutive; [done| |done]. by apply Forall_rev.
  - destruct l as [|c l]; [done|]. apply Forall_cons in H as [H _]. cbn in E. by rewrite H in E.
Qed.

Lemma no_space_lacks l : Forall (fun c => isspace c = false) l -> lacks 13 l.
Proof. intros H Hin. rewrite Forall_forall in H. by specialize (H _ Hin). Qed.

Definition ok_key (k : list Z) : Prop := all_bytes k /\ length k = 16%nat.

Lemma encoded_key k : all_bytes k -> Base64.encode k [] = Base64.reference k.
Proof. intros H. by rewrite Base64.encode_reference. Qed.

(** A key survives the way to the other side, whatever handshake reads it. *)
Lemma assign_encoded k hs : ok_key k -> assign_key (Base64.encode k []) hs = Some (true, Handshake k (fields_ hs)).
Proof.
  intros [Hb Hl]. destruct (Base64.base64_roundtrip k [] [] Hb) as (E & Hlen & Hd). rewrite E. cbn [app] in *.
  unfold assign_key. rewrite Hd. unfold zlen. rewrite Hlen, Hl. change (Z.of_nat (4 * ((16 + 2) / 3)) =? 24) with true.
  assert (ends_with (Base64.reference k) (chars "==") = true) as ->; [|done].
  do 17 (destruct k as [|? k]; try done).
Qed.

(** The assertion in [assign_key] never fails. *)
Lemma assign_key_defined t hs : exists r, assign_key t hs = Some r.
Proof.
  unfold assign_key. destruct (Z.eqb_spec (zlen t) 24) as [Hl|]; cbn [andb]; [|by eexists].
  destruct (ends_with t (chars "==")) eqn:E; [|by eexists]. unfold zlen in Hl. assert (length t = 24%nat) as Hl' by lia.
  unfold ends_with in E. rewrite Hl' in E. cbn [Nat.leb length chars list_ascii_of_string map Nat.sub] in E. apply bool_decide_eq_true_1 in E.
  do 25 (destruct t as [|? t]; try done). cbn in E. injection E as -> ->. by eexists.
Qed.

#[local] Opaque Sha1.compute.

Lemma response_key_text hs :
  Forall (fun c => isspace c = false) (response_key hs) /\ length (response_key hs) = 28%nat.
Proof.
  unfold response_key. destruct (Sha1.compute_bytes (Base64.encode (key_ hs) [] ++ guid)) as [Hb Hl]. rewrite encoded_key by done.
  split; [by apply reference_text|]. by rewrite Base64.reference_length, Hl.
Qed.

(** ** The request *)

(** The fields of the request a handshake writes. *)
Definition request_fields (hs : handshake) : fields_map :=
  [(chars "Host", lookup_field host_key hs); (chars "Upgrade", chars "websocket"); (chars "Connection", chars "Upgrade");
   (chars "Sec-WebSocket-Version", chars "13"); (chars "Sec-WebSocket-Key", Base64.encode (key_ hs) [])]
  ++ List.filter is_public (fields_ hs).

Lemma public_fields fs :
  flat_map (fun kv => if is_public kv then kv.1 ++ chars ": " ++ kv.2 ++ crlf else []) fs = flat_map field_line (List.filter is_public fs).
Proof. induction fs as [|kv fs IH]; [done|]. cbn [flat_map List.filter]. rewrite IH. by destruct (is_public kv). Qed.

Lemma request_written hs :
  write_http_1_request hs = request_text get (lookup_field endpoint_key hs) (request_fields hs).
Proof.
  unfold write_http_1_request, request_text, request_fields, begin_request_header, end_header. rewrite public_fields, flat_map_app.
  cbn [flat_map]. unfold field_line at 2 3 4 5 6. cbn [fst snd]. rewrite !app_nil_r, <- !app_assoc. reflexivity.
Qed.

(** A handshake whose request a server can read. *)
Record ok_handshake (hs : handshake) (u : Uri.uri) : Prop := {
  ok_mandatory : has_mandatory_fields hs = true;
  ok_endpoint : lacks 32 (lookup_field endpoint_key hs) /\ lacks 13 (lookup_field endpoint_key hs);
  ok_target : parse_request_target get (lookup_field endpoint_key hs) = Some (Some u);
  ok_host : trim (lookup_field host_key hs) = lookup_field host_key hs /\ lacks 13 (lookup_field host_key hs);
  ok_public : Forall ok_field (List.filter is_public (fields_ hs));
  ok_size : forall k, length k = 16%nat -> all_bytes k -> zlen (write_http_1_request (Handshake k (fields_ hs))) <= max_http_size;
}.

#[local] Instance ok_field_dec kv : Decision (ok_field kv).
Proof. unfold ok_field. apply _. Defined.

Lemma request_fields_ok hs u : ok_handshake hs u -> ok_key (key_ hs) -> Forall ok_field (request_fields hs).
Proof.
  intros [_ _ _ [Ht Hc] Hp _] [Hb Hl]. unfold request_fields. apply Forall_app. split; [|done].
  rewrite encoded_key by done. pose proof (reference_text _ Hb) as Hr.
  assert (Hk : forall k v, bool_decide (ok_field (k, [])) = true -> trim v = v -> lacks 13 v -> ok_field (k, v)).
  { intros k v H Hv Hlv. apply bool_decide_eq_true_1 in H. destruct H as (H1 & H2 & H3 & H4 & _). by split_and!. }
  repeat apply Forall_cons_2; [..|constructor]; apply Hk; try (vm_compute; reflexivity); try done.
  - apply (bool_decide_eq_true_1 _). vm_compute. reflexivity.
  - apply (bool_decide_eq_true_1 _). vm_compute. reflexivity.
  - apply (bool_decide_eq_true_1 _). vm_compute. reflexivity.
  - by apply no_space_trim.
  - by apply no_space_lacks.
Qed.

(** The header the server parses. *)
Definition request_of (hs : handshake) (u : Uri.uri) : request_header :=
  RequestHeader (write_http_1_request hs) (request_fields hs) get u (chars "HTTP/1.1").

Lemma key_found hs : Http.field (chars "Sec-WebSocket-Key") (request_fields hs) = Base64.encode (key_ hs) [].
Proof. reflexivity. Qed.

Lemma server_accepts {U} (app : upper U) hs u s u' :
  ok_handshake hs u -> ok_key (key_ hs) -> up_accept app (request_of hs u) (up_ s) = (None, u') ->
  server_handle_header app (write_http_1_request hs) s
  = Some (true, switch_protocol (write (write_http_1_response (Handshake (key_ hs) [])) (set_up u' s))).
Proof.
  intros Hok Hk Ha. pose proof (request_fields_ok _ _ Hok Hk) as Hf. destruct Hok as [_ [H1 H2] H3 _ _ _].
  unfold server_handle_header. unfold request_of in Ha. rewrite request_written in Ha |- *.
  rewrite (req_parse_text fresh_header get _ (request_fields hs) u) by done.
  cbn [req_method req_fields]. rewrite key_found, bool_decide_eq_true_2 by done. cbn [negb]. rewrite bool_decide_eq_true_2 by done. cbn [negb].
  rewrite bool_decide_eq_false_2, Ha.
  - cbv zeta. by rewrite assign_encoded by done.
  - destruct Hk as [Hb Hl]. rewrite encoded_key by done. intros E. pose proof (Base64.reference_length (key_ hs)) as L. by rewrite E, Hl in L.
Qed.

(** ** The response *)

Definition response_fields (hs : handshake) : fields_map :=
  [(chars "Upgrade", chars "websocket"); (chars "Connection", chars "Upgrade"); (chars "Sec-WebSocket-Accept", response_key hs)].

Definition response_lines (hs : handshake) : list (list Z) :=
  chars "HTTP/1.1 101 Switching Protocols" :: map field_text (response_fields hs).

Lemma response_written hs : write_http_1_response hs = lines_text (response_lines hs) ++ crlf.
Proof.
  unfold write_http_1_response, response_lines, lines_text. cbn [flat_map map response_fields]. unfold field_text. cbn [fst snd].
  rewrite !app_nil_r, <- !app_assoc. reflexivity.
Qed.

(** Both ways to write the response agree. *)
Lemma write_response_same hs : write_response hs = write_http_1_response hs.
Proof.
  unfold write_response, write_http_1_response, add_header_field, field_line, end_header, begin_response_header. cbn [fst snd].
  rewrite <- !app_assoc. reflexivity.
Qed.

Lemma response_lines_ok hs : Forall ok_line (response_lines hs).
Proof.
  destruct (response_key_text hs) as [Hk _]. assert (Hc : forall l, bool_decide (l <> []) && bool_decide (lacks 13 l) = true -> ok_line l).
  { intros l H. apply andb_true_iff in H as [H1 H2]. split; [by apply bool_decide_eq_true_1 in H1|by apply bool_decide_eq_true_1 in H2]. }
  unfold response_lines. cbn [map response_fields]. do 3 (apply Forall_cons_2; [apply Hc; vm_compute; reflexivity|]). apply Forall_cons_2; [|constructor].
  unfold field_text. cbn [fst snd]. split; [done|]. unfold lacks. rewrite !not_elem_of_app.
  split_and!; [by apply (bool_decide_eq_true_1 _)..|by apply no_space_lacks].
Qed.

Lemma each_line {A} (f : list Z -> A -> A) ls x fuel :
  Forall ok_line ls -> (length ls + 1 < fuel)%nat ->
  for_each_http_line fuel f (lines_text ls ++ crlf) x = Some (fold_left (fun x l => f l x) ls x).
Proof.
  revert x fuel. induction ls as [|l ls IH]; intros x fuel Hls Hf; (destruct fuel as [|fuel]; [lia|]).
  - destruct fuel; [lia|]. reflexivity.
  - apply Forall_cons in Hls as [[Hne Hl] Hls]. cbn [for_each_http_line lines_text flat_map]. rewrite <- !app_assoc. rewrite search_line by done.
    rewrite take_app_length. rewrite drop_app_ge by lia. replace (length l + 2 - length l)%nat with 2%nat by lia.
    change (drop 2 (crlf ++ ?t)) with t. cbn [fold_left]. fold (lines_text ls). cbn [length] in Hf. rewrite IH by (done || lia). by destruct l.
Qed.

Lemma check_accept k v c :
  Forall (fun x => isspace x = false) v ->
  check_line k (field_text (chars "Sec-WebSocket-Accept", v)) c
  = Checker (has_status_101 c) (has_upgrade_field c) (has_connection_field c) (bool_decide (v = k)).
Proof.
  intros Hv. unfold check_line, field_text. cbn [fst snd].
  change (starts_with (chars "Sec-WebSocket-Accept" ++ chars ": " ++ v) (chars "HTTP/1")) with false.
  change (split_by (chars "Sec-WebSocket-Accept" ++ chars ": " ++ v) (chars ":"))
    with (split_by (chars "Sec-WebSocket-Accept" ++ chr ":" :: 32 :: v) [chr ":"]).
  rewrite split_char by (apply (bool_decide_eq_true_1 _); vm_compute; reflexivity).
  change (trim (chars "Sec-WebSocket-Accept")) with (chars "Sec-WebSocket-Accept"). rewrite trim_blank, no_space_trim by done. reflexivity.
Qed.

(** A client accepts what a server writes if both computed the same response key. *)
Lemma response_checked hs hs' :
  is_valid_http_1_response hs (write_http_1_response hs') = Some (bool_decide (response_key hs' = response_key hs)).
Proof.
  unfold is_valid_http_1_response. fold (response_key hs). rewrite response_written.
  rewrite each_line; [|apply response_lines_ok|rewrite length_app; cbn [response_lines response_fields map lines_text flat_map]; rewrite !length_app; cbn; lia].
  cbn [fmap option_fmap option_map response_lines response_fields map fold_left]. f_equal.
  rewrite check_accept by apply response_key_text. generalize (response_key hs) as k. generalize (response_key hs') as v. intros v k.
  unfold ok. cbn [has_ws_accept_field]. reflexivity.
Qed.

Lemma response_size hs : zlen (write_http_1_response hs) <= max_http_size.
Proof.
  unfold write_http_1_response, zlen. rewrite !length_app. destruct (response_key_text hs) as [_ ->]. done.
Qed.

(** ** The theorem *)

(** A complete header that is accepted is consumed. *)
Lemma consume_header {U} (app : upper U) s s' b h t :
  split_header b = (h, t) -> h <> [] ->
  (server_handle_header app h s = Some (true, s') -> server_consume app s b = Some (zlen h, s'))
  /\ (client_handle_header app h s = Some (true, s') -> client_consume app s b = Some (zlen h, s')).
Proof. intros E Hne. unfold server_consume, client_consume. rewrite E. destruct h; [done|]. cbn [fst]. by split; intros ->. Qed.

(** Until its header is complete a side only waits. *)
Lemma server_waits {U} (app : upper U) l ls s b r :
  Forall ok_line (l :: ls) -> lines_text (l :: ls) ++ crlf = b ++ r -> r <> [] -> zlen (lines_text (l :: ls) ++ crlf) <= max_http_size ->
  server_consume app s b = Some (0, s) /\ client_consume app s b = Some (0, s).
Proof.
  intros Hls E Hr Hsz. assert (Hlen : (length b < length (lines_text (l :: ls) ++ crlf))%nat).
  { rewrite E, length_app. destruct r; [done|]. cbn. lia. }
  pose proof (split_header_cut l ls [] b r Hls ltac:(by rewrite app_nil_r) Hlen) as Hs.
  unfold server_consume, client_consume. rewrite Hs. cbn [fst]. rewrite (proj2 (Z.leb_gt _ _)); [done|]. unfold zlen in *. lia.
Qed.

(** C38. The opening handshake completes.  Let a client have a handshake with
    both mandatory fields, an endpoint that is a request target, well-formed
    header fields and a request of at most 2048 bytes, and let the layer above
    the server accept it.  The client starts and writes a request with its
    key, or with the random one if it has none.  The server waits on every
    proper prefix of the request; with all of it, and whatever follows, it
    consumes exactly the request, hands the parsed header to the layer above,
    and switches to the framing after writing its response.  The client waits
    on every proper prefix of the response, consumes exactly the response, and
    switches to the framing without an [abort]. *)
Theorem ws_handshake_completes {U S} (capp : upper U) (sapp : upper S) random hs u c s su :
  hs_ c = Some hs -> output c = [] -> ok_handshake hs u -> ok_key (key_ hs) -> ok_key random ->
  let hs' := Handshake (if has_valid_key hs then key_ hs else random) (fields_ hs) in
  up_accept sapp (request_of hs' u) (up_ s) = (None, su) ->
  exists c1 s1 c2 resp,
    client_start random c = Some (inr c1)
    /\ (forall b r, output c1 = b ++ r -> r <> [] -> server_consume sapp s b = Some (0, s))
    /\ (forall t, server_consume sapp s (output c1 ++ t) = Some (zlen (output c1), s1))
    /\ framing s1 = true /\ up_ s1 = su /\ output s1 = output s ++ resp
    /\ (forall b r, resp = b ++ r -> r <> [] -> client_consume capp c1 b = Some (0, c1))
    /\ (forall t, client_consume capp c1 (resp ++ t) = Some (zlen resp, c2))
    /\ framing c2 = true /\ up_ c2 = up_ c.
Proof.
  intros Hc Ho Hok Hk Hr hs' Ha. set (k := if has_valid_key hs then key_ hs else random) in hs'.
  assert (Hk' : ok_key k) by (unfold k; by destruct (has_valid_key hs)).
  assert (Hok' : ok_handshake hs' u) by (destruct Hok; by split).
  assert (Hsz : zlen (write_http_1_request hs') <= max_http_size) by (apply (ok_size hs u Hok); apply Hk').
  assert (Hst : client_start random c = Some (inr (Side (up_ c) (Some hs') (write_http_1_request hs') (StreamLayer.up_to (Z.to_nat max_http_size)) (framing c)))).
  { unfold client_start. rewrite Hc, (ok_mandatory _ _ Hok), Ho. unfold hs', k. destruct hs. by destruct (has_valid_key _). }
  pose proof (request_fields_ok _ _ Hok' Hk') as Hf. destruct (ok_endpoint _ _ Hok') as [_ Hcr].
  assert (Hreq : write_http_1_request hs' = lines_text (request_line get (lookup_field endpoint_key hs') :: map field_text (request_fields hs')) ++ crlf)
    by (by rewrite request_written, request_text_lines).
  assert (Hl1 : Forall ok_line (request_line get (lookup_field endpoint_key hs') :: map field_text (request_fields hs')))
    by (constructor; [by apply request_line_ok|by apply fields_lines]).
  set (resp := write_http_1_response (Handshake k [])). pose proof (response_lines_ok (Handshake k [])) as Hl2.
  assert (Hresp : resp = lines_text (response_lines (Handshake k [])) ++ crlf) by apply response_written.
  eexists _, _, _, resp. split; [exact Hst|]. cbn [output]. split_and!.
  - intros b r E Hne. eapply server_waits; [exact Hl1|by rewrite <- Hreq|done|by rewrite <- Hreq].
  - intros t. eapply (consume_header sapp _ _ _ _ t); [rewrite Hreq, <- app_assoc; by apply split_header_text|done|].
    by apply (server_accepts sapp hs' u s su).
  - done.
  - done.
  - done.
  - intros b r E Hne. unfold response_lines in Hl2, Hresp. eapply server_waits; [exact Hl2|by rewrite <- Hresp|done|].
    rewrite <- Hresp. apply response_size.
  - intros t. eapply (consume_header capp _ _ _ _ t); [rewrite Hresp, <- app_assoc; by apply split_header_text|done|].
    unfold client_handle_header. cbn [hs_]. unfold resp. by rewrite response_checked, bool_decide_eq_true_2.
  - done.
  - done.
Qed.

(** ** Examples *)

#[local] Transparent Sha1.compute.

(** The example of RFC 6455. *)
Example rfc6455_accept :
  (fun r => response_key r.2) <$> assign_key (chars "dGhlIHNhbXBsZSBub25jZQ==") new_handshake
  = Some (chars "s3pPLMBiTxaQ9kYGzzhZRbK+xOo=").
Proof. vm_compute. reflexivity. Qed.

Definition demo_handshake : handshake :=
  origin (chars "http://example.com") (host (chars "example.com") (endpoint (chars "/chat") new_handshake)).

Definition demo_uri : Uri.uri :=
  match parse_request_target get (chars "/chat") with Some (Some u) => u | _ => Uri.default_instance end.

Definition demo_app : upper nat := Upper (fun _ n => (None, S n)) (fun _ n => S n).

Definition demo_side (hs : option handshake) : side nat := Side 0%nat hs [] StreamLayer.stop false.

Lemma ws_handshake_completes_witness :
  exists c1 s1 c2 resp,
    client_start (repeat 7 16) (demo_side (Some demo_handshake)) = Some (inr c1)
    /\ server_consume demo_app (demo_side None) (output c1 ++ [1]) = Some (zlen (output c1), s1)
    /\ client_consume demo_app c1 (resp ++ [2]) = Some (zlen resp, c2) /\ framing s1 = true /\ framing c2 = true.
Proof.
  destruct (ws_handshake_completes demo_app demo_app (repeat 7 16) demo_handshake demo_uri (demo_side (Some demo_handshake)) (demo_side None) 1%nat)
    as (c1 & s1 & c2 & resp & H1 & _ & H2 & H3 & _ & _ & _ & H4 & H5 & _).
  - reflexivity.
  - reflexivity.
  - split.
    + reflexivity.
    + split; apply (bool_decide_eq_true_1 _); vm_compute; reflexivity.
    + vm_compute. reflexivity.
    + split; apply (bool_decide_eq_true_1 _); vm_compute; reflexivity.
    + apply (bool_decide_eq_true_1 _). vm_compute. reflexivity.
    + intros k Hl Hb. unfold write_http_1_request. rewrite encoded_key by done. cbn [key_ fields_]. unfold zlen. rewrite !length_app, Base64.reference_length.
      rewrite Hl. vm_compute. discriminate.
  - split; [|reflexivity]. change (all_bytes (repeat 0 16)). apply Forall_forall. intros x Hx. apply list_elem_of_In, repeat_spec in Hx. by subst.
  - split; [|reflexivity]. apply Forall_forall. intros x Hx. apply list_elem_of_In, repeat_spec in Hx. by subst.
  - reflexivity.
  - exists c1, s1, c2, resp. split; [exact H1|]. split; [apply H2|]. split; [apply H4|]. split; [exact H3|exact H5].
Defined.

(** [extensions] sets the field of the protocols. *)
Lemma extensions_replaces_protocols :
  fields_ (extensions (chars "permessage-deflate") (protocols (chars "chat") new_handshake))
  = [(chars "Sec-WebSocket-Protocol", chars "permessage-deflate")].
Proof. vm_compute. reflexivity. Qed.

(** The names of header fields are not case-insensitive for a client. *)
Lemma lower_case_refused :
  is_valid_http_1_response demo_handshake
    (write_response_header switching_protocols
      [(chars "upgrade", chars "websocket"); (chars "Connection", chars "Upgrade"); (chars "Sec-WebSocket-Accept", response_key demo_handshake)])
  = Some false.
Proof. vm_compute. reflexivity. Qed.

(** A malformed key ends the connection without a response, although the layer
    above has accepted the connection. *)
Lemma malformed_key_silent :
  server_consume demo_app (demo_side None)
    (request_text get (chars "/chat") [(chars "Host", chars "example.com"); (chars "Sec-WebSocket-Key", chars "short")])
  = Some (-1, Side 1%nat None [] StreamLayer.stop false).
Proof. vm_compute. reflexivity. Qed.

(** Any 22 characters before the padding are a key: also blanks or more padding. *)
Lemma padding_is_a_key : exists hs, assign_key (repeat (chr "=") 24) new_handshake = Some (true, hs) /\ has_valid_key hs = false.
Proof. eexists. split; vm_compute; reflexivity. Qed.

(** After an invalid response the client aborts the layer above, and the transport aborts it again. *)
Lemma client_aborts_twice :
  match client_consume demo_app (demo_side (Some demo_handshake)) (chars "HTTP/1.1 404 Not Found" ++ crlf ++ crlf) with
  | Some (n, s) => (n, up_ (abort demo_app [] s))
  | None => (0, 0%nat)
  end = (-1, 2%nat).
Proof. vm_compute. reflexivity. Qed.

End WsHandshake.
