(* ===== verification/Ieee754.v ===== *)
(** Packing of floating point numbers: [detail/ieee_754.hpp] and its use in the
    binary serializer and deserializer.

    A floating point number is a [spec_float] of the standard library, with the
    operations of IEEE 754 rounded to nearest; [float] has 24 bits of precision
    and [double] 53.  [pack754] computes the bits of a number arithmetically,
    and [unpack754] goes back. *)
From Stdlib Require Import Floats.SpecFloat.
From S2P Require Import Prelude NetworkOrder BinarySerializer BinaryDeserializer.
#[local] Open Scope Z_scope.
#[local] Open Scope caf_scope.

Module Ieee754.

(** [ieee_754_trait]; precision and largest exponent are those of the type. *)
Record trait := Trait {
  bits : Z;
  expbits : Z;
  prec : Z;
  emax : Z;
  packed_pzero : Z;
  packed_nzero : Z;
  packed_nan : Z;
  packed_pinf : Z;
  packed_ninf : Z;
}.

Definition float_trait : trait := Trait 32 8 24 128 0x00000000 0x80000000 0xFFFFFFFF 0xFF800000 0x7F800000.

Definition double_trait : trait :=
  Trait 64 11 53 1024 0x0000000000000000 0x8000000000000000 0xFFFFFFFFFFFFFFFF 0xFFF0000000000000 0x7FF0000000000000.

Section Code.
  Context (t : trait).

Definition fadd : spec_float -> spec_float -> spec_float := SFadd (prec t) (emax t).
Definition fsub : spec_float -> spec_float -> spec_float := SFsub (prec t) (emax t).
Definition fmul : spec_float -> spec_float -> spec_float := SFmul (prec t) (emax t).
Definition fdiv : spec_float -> spec_float -> spec_float := SFdiv (prec t) (emax t).

(** [static_cast<T>] of an integer. *)
Definition of_int (z : Z) : spec_float := binary_normalize (prec t) (emax t) z 0 false.

Definition p5 : spec_float := fdiv (of_int 1) (of_int 2).

(** [static_cast<result_type>] of a floating point number, undefined if the
    truncated value does not fit. *)
Definition to_unsigned (f : spec_float) : option Z :=
  match f with
  | S754_zero _ => Some 0
  | S754_finite s m e =>
      let x := Zpos m .<< e in
      if x =? 0 then Some 0 else if s || (2 ^ bits t <=? x) then None else Some x
  | _ => None
  end.

Definition signbit (f : spec_float) : bool :=
  match f with S754_zero s | S754_infinity s | S754_finite s _ _ => s | S754_nan => false end.

(** [while (fnorm >= 2)] *)
Fixpoint shrink (fuel : nat) (fnorm : spec_float) (shift : Z) : option (spec_float * Z) :=
  match fuel with
  | O => None
  | S n =>
      if SFleb (of_int 2) fnorm then shrink n (fdiv fnorm (of_int 2)) (uwrap (bits t) (shift + 1))
      else Some (fnorm, shift)
  end.

(** [while (fnorm < 1)] *)
Fixpoint grow (fuel : nat) (fnorm : spec_float) (shift : Z) : option (spec_float * Z) :=
  match fuel with
  | O => None
  | S n =>
      if SFltb fnorm (of_int 1) then grow n (fmul fnorm (of_int 2)) (uwrap (bits t) (shift - 1))
      else Some (fnorm, shift)
  end.

(** Enough rounds for every exponent. *)
Definition rounds : nat := Z.to_nat (emax t + prec t).

Definition significandbits : Z := bits t - expbits t - 1.

Definition pack754 (f : spec_float) : option Z :=
  match f with
  | S754_nan => Some (packed_nan t)
  | S754_infinity s => Some (if s then packed_ninf t else packed_pinf t)
  | S754_zero s => Some (if s then packed_nzero t else packed_pzero t)
  | S754_finite _ _ _ =>
      let '(sign, fnorm) := if SFltb f (S754_zero false) then (1, SFopp f) else (0, f) in
      r ← shrink rounds fnorm 0;
      r ← grow rounds r.1 r.2;
      let '(fnorm, shift) := r in
      let fnorm := fsub fnorm (of_int 1) in
      let pownum := of_int (1 .<< significandbits) in
      significand ← to_unsigned (fmul fnorm (fadd pownum p5));
      let exp := uwrap (bits t) (shift + ((1 .<< (expbits t - 1)) - 1)) in
      Some ((uwrap (bits t) (sign .<< (bits t - 1)) .| uwrap (bits t) (exp .<< significandbits)) .| significand)
  end.

(** [while (shift > 0)] *)
Fixpoint times (fuel : nat) (result : spec_float) (shift : Z) : option (spec_float * Z) :=
  match fuel with
  | O => None
  | S n => if 0 <? shift then times n (fmul result (of_int 2)) (shift - 1) else Some (result, shift)
  end.

(** [while (shift < 0)] *)
Fixpoint divide (fuel : nat) (result : spec_float) (shift : Z) : option (spec_float * Z) :=
  match fuel with
  | O => None
  | S n => if shift <? 0 then divide n (fdiv result (of_int 2)) (shift + 1) else Some (result, shift)
  end.

Definition unpack754 (i : Z) : option spec_float :=
  if i =? packed_pzero t then Some (S754_zero false)
  else if i =? packed_nzero t then Some (S754_zero true)
  else if i =? packed_pinf t then Some (S754_infinity false)
  else if i =? packed_ninf t then Some (S754_infinity true)
  else if i =? packed_nan t then Some S754_nan
  else
    let result := of_int (i .& ((1 .<< significandbits) - 1)) in
    let result := fdiv result (of_int (1 .<< significandbits)) in
    let result := fadd result (of_int 1) in
    let si := swrap (bits t) i in
    let bias := (1 .<< (expbits t - 1)) - 1 in
    let pownum := 1 .<< expbits t in
    let shift := ((si .>> significandbits) .& (pownum - 1)) - bias in
    r ← times rounds result shift;
    r ← divide rounds r.1 r.2;
    Some (fmul r.1 (of_int (if Z.testbit i (bits t - 1) then -1 else 1))).

(** ** Serialization *)

(** [value(float)] and [value(double)] of the serializer; [None] also stands for
    an undefined conversion. *)
Definition save_float (f : spec_float) (s : BinarySerializer.serializer) : option (bool * BinarySerializer.serializer) :=
  i ← pack754 f; BinarySerializer.int_value (Z.to_nat (bits t / 8)) i s.

(** [float_value] of the deserializer. *)
Definition load_float (s : BinaryDeserializer.deserializer) : option (BinaryDeserializer.outcome spec_float) :=
  match BinaryDeserializer.int_value (Z.to_nat (bits t / 8)) BinaryDeserializer.to_unsigned s with
  | BinaryDeserializer.Ok tmp s1 => x ← unpack754 tmp; Some (BinaryDeserializer.Ok x s1)
  | BinaryDeserializer.Failed s1 => Some (BinaryDeserializer.Failed s1)
  | BinaryDeserializer.Raised => Some BinaryDeserializer.Raised
  | BinaryDeserializer.Undefined => Some BinaryDeserializer.Undefined
  end.

End Code.

(** Some values. *)
Example pack_values :
  (pack754 double_trait (of_int double_trait (-3)), pack754 float_trait (p5 float_trait))
  = (Some 0xC008000000000000, Some 0x3F000000).
Proof. vm_compute. reflexivity. Qed.

(** The numbers below 2^-1023 lose everything: 2^-1024 is read as infinity, and
    the smallest positive number as a negative number around -10^293. *)
Lemma subnormals_corrupted :
  mbind (M := option) (unpack754 double_trait) (pack754 double_trait (S754_finite false (2 ^ 50) (-1074))) = Some (S754_infinity false)
  /\ mbind (M := option) (unpack754 float_trait) (pack754 float_trait (S754_finite false (2 ^ 21) (-149))) = Some (S754_infinity false)
  /\ mbind (M := option) (unpack754 double_trait) (pack754 double_trait (S754_finite false 1 (-1074))) = Some (S754_finite true (2 ^ 52) 922).
Proof. vm_compute. repeat split. Qed.

(** 2^-1023 is read as zero. *)
Lemma half_minimum_lost :
  mbind (M := option) (unpack754 double_trait) (pack754 double_trait (S754_finite false (2 ^ 51) (-1074))) = Some (S754_zero false).
Proof. vm_compute. reflexivity. Qed.

(** ** Rounding of representable numbers *)

Lemma digits_log m : Zpos (digits2_pos m) = Z.log2 (Zpos m) + 1.
Proof.
  induction m as [m IH|m IH|]; cbn [digits2_pos]; [..|done]; rewrite Pos2Z.inj_succ, IH.
  - rewrite Pos2Z.inj_xI, Z.log2_succ_double by lia. lia.
  - rewrite Pos2Z.inj_xO, Z.log2_double by lia. lia.
Qed.

(** [x] is [m] shifted by [n] bits. *)
Definition shifted (m : positive) (n : Z) (x : positive) : Prop := 0 <= n /\ Zpos x = Zpos m * 2 ^ n.

Lemma shifted_digits m n x : shifted m n x -> Zpos (digits2_pos x) = Zpos (digits2_pos m) + n.
Proof. intros [Hn E]. rewrite !digits_log, E, Z.log2_mul_pow2 by lia. lia. Qed.

Lemma iter_pos_nat {A} (f : A -> A) p x : SpecFloat.iter_pos f p x = Nat.iter (Pos.to_nat p) f x.
Proof.
  revert x. induction p as [p IH|p IH|]; intros x; cbn [SpecFloat.iter_pos].
  - rewrite !IH, <- Nat.iter_add, Pos2Nat.inj_xI. replace (S (2 * Pos.to_nat p))%nat with (Pos.to_nat p + Pos.to_nat p + 1)%nat by lia.
    by rewrite (Nat.iter_add (Pos.to_nat p + Pos.to_nat p) 1).
  - rewrite !IH, <- Nat.iter_add, Pos2Nat.inj_xO. f_equal. lia.
  - by rewrite Pos2Nat.inj_1.
Qed.

Lemma shr_exact n m : 0 <= n -> Nat.iter (Z.to_nat n) shr_1 (Build_shr_record (Zpos m * 2 ^ n) false false) = Build_shr_record (Zpos m) false false.
Proof.
  intros Hn. rewrite <- (Z2Nat.id n) at 2 by done. generalize (Z.to_nat n) as k. clear n Hn. induction k as [|k IH].
  - by rewrite Z.pow_0_r, Z.mul_1_r.
  - rewrite Nat.iter_succ_r. replace (Zpos m * 2 ^ Z.of_nat (S k)) with (2 * (Zpos m * 2 ^ Z.of_nat k)) by (rewrite Nat2Z.inj_succ, Z.pow_succ_r; lia).
    assert (0 < Zpos m * 2 ^ Z.of_nat k) by lia. rewrite <- IH. f_equal.
    destruct (Zpos m * 2 ^ Z.of_nat k) as [|q|q]; [lia|done|lia].
Qed.

Section Rounding.
  Context (p emax : Z).

Lemma canonical_fexp m e : canonical_mantissa p emax m e = true -> fexp p emax (Zpos (digits2_pos m) + e) = e.
Proof. unfold canonical_mantissa. apply Z.eqb_eq. Qed.

Lemma shr_fexp_exact m n x e :
  shifted m n x -> canonical_mantissa p emax m e = true ->
  shr_fexp p emax (Zpos x) (e - n) loc_Exact = (Build_shr_record (Zpos m) false false, e).
Proof.
  intros Hs Hc. unfold shr_fexp. cbn [Zdigits2 shr_record_of_loc]. rewrite (shifted_digits _ _ _ Hs).
  replace (Zpos (digits2_pos m) + n + (e - n)) with (Zpos (digits2_pos m) + e) by lia. rewrite canonical_fexp by done.
  replace (e - (e - n)) with n by lia. destruct Hs as [Hn E]. rewrite E. pose proof (shr_exact n m Hn) as H.
  unfold shr. destruct n as [|n|n]; [|rewrite iter_pos_nat|lia].
  - rewrite Z.pow_0_r, Z.mul_1_r. f_equal. lia.
  - rewrite Z2Nat.inj_pos in H. rewrite H. f_equal. lia.
Qed.

(** A product or sum that is representable is the result. *)
Lemma round_exact s m n x e :
  shifted m n x -> bounded p emax m e = true -> binary_round_aux p emax s (Zpos x) (e - n) loc_Exact = S754_finite s m e.
Proof.
  intros Hs Hb. apply andb_true_iff in Hb as [Hc He]. unfold binary_round_aux. rewrite (shr_fexp_exact m n x e Hs Hc).
  cbn [loc_of_shr_record shr_m round_nearest_even]. assert (H0 : shifted m 0 m) by (split; lia).
  pose proof (shr_fexp_exact m 0 m e H0 Hc) as H. rewrite Z.sub_0_r in H. rewrite H. cbn [shr_m]. by rewrite He.
Qed.

Lemma pos_iter_shifted m d : shifted m (Zpos d) (Pos.iter xO m d).
Proof.
  split; [lia|]. rewrite Pos2Nat.inj_iter. rewrite <- (positive_nat_Z d). generalize (Pos.to_nat d) as k. induction k as [|k IH]; [cbn; lia|].
  rewrite Nat2Z.inj_succ, Z.pow_succ_r by lia. cbn. cbn in IH. rewrite Pos2Z.inj_xO, IH. lia.
Qed.

(** Aligning to a smaller exponent. *)
Lemma shl_align_down m e e' : e' <= e -> shifted m (e - e') (fst (shl_align m e e')) /\ snd (shl_align m e e') = e'.
Proof.
  intros He. unfold shl_align. destruct (e' - e) as [|d|d] eqn:E; [|lia|].
  - cbn. split; [split; [lia|]|lia]. replace (e - e') with 0 by lia. lia.
  - cbn. split; [|done]. replace (e - e') with (Zpos d) by lia. apply pos_iter_shifted.
Qed.

Lemma shl_align_up m e e' : e <= e' -> shl_align m e e' = (m, e).
Proof. intros He. unfold shl_align. destruct (e' - e) as [|d|d] eqn:E; [done|done|lia]. Qed.

(** Also of an unnormalized number: [x * 2 ^ (e - n)], or [x] with [m] a multiple of it. *)
Lemma binary_round_exact s m n x e :
  (shifted m n x \/ (shifted x (- n) m /\ n <= 0)) -> bounded p emax m e = true -> binary_round p emax s x (e - n) = S754_finite s m e.
Proof.
  intros Hs Hb. pose proof Hb as Hb'. apply andb_true_iff in Hb' as [Hc He]. pose proof (canonical_fexp _ _ Hc) as Hf. unfold binary_round.
  destruct Hs as [Hs|[Hs Hn]]; rewrite ?(shifted_digits _ _ _ Hs).
  - replace (Zpos (digits2_pos m) + n + (e - n)) with (Zpos (digits2_pos m) + e) by lia. rewrite Hf. destruct Hs as [Hn E].
    rewrite shl_align_up by lia. by apply round_exact.
  - assert (Zpos (digits2_pos x) + (e - n) = Zpos (digits2_pos m) + e) as -> by (rewrite (shifted_digits _ _ _ Hs); lia).
    rewrite Hf. destruct (shl_align_down x (e - n) e ltac:(lia)) as [H1 H2].
    destruct (shl_align x (e - n) e) as [mz ez]. cbn [fst snd] in *. subst ez. replace e with (e - 0) at 1 by lia. apply round_exact; [|done].
    split; [lia|]. destruct H1 as [_ ->], Hs as [_ ->]. replace (e - n - e) with (- n) by lia. lia.
Qed.

End Rounding.

(** ** Traits *)

(** What the algorithm needs of a trait. *)
Class Lawful (t : trait) : Prop := {
  l_prec : 3 <= prec t;
  l_emax : prec t + 2 <= emax t;
  l_expbits : 1 <= expbits t;
  l_bias : emax t = 2 ^ (expbits t - 1);
  l_bits : bits t = prec t + expbits t;
  l_bytes : bits t = 8 * (bits t / 8);
  l_pzero : packed_pzero t = 0;
  l_nzero : packed_nzero t = 2 ^ (bits t - 1);
  l_nan : packed_nan t = 2 ^ bits t - 1;
  l_pinf : packed_pinf t = 2 ^ bits t - 2 ^ (prec t - 1);
  l_ninf : packed_ninf t = 2 ^ (bits t - 1) - 2 ^ (prec t - 1);
  l_half : fadd t (of_int t (1 .<< significandbits t)) (p5 t) = of_int t (1 .<< significandbits t);
}.

#[export] Instance float_lawful : Lawful float_trait.
Proof. split; vm_compute; (reflexivity || discriminate). Qed.

#[export] Instance double_lawful : Lawful double_trait.
Proof. split; vm_compute; (reflexivity || discriminate). Qed.

Section Packing.
  Context (t : trait) `{!Lawful t}.

(** The mantissa of a power of two. *)
Definition high : positive := Z.to_pos (2 ^ (prec t - 1)).

Lemma high_eq : Zpos high = 2 ^ (prec t - 1).
Proof using Lawful0. apply Z2Pos.id. pose proof l_prec. apply Z.pow_pos_nonneg; lia. Qed.

Lemma emin_eq : emin (prec t) (emax t) = 3 - emax t - prec t.
Proof. done. Qed.

(** Mantissas of full length. *)
Definition full (m : positive) : Prop := Zpos (digits2_pos m) = prec t.

Lemma full_range m : full m <-> 2 ^ (prec t - 1) <= Zpos m < 2 ^ prec t.
Proof using Lawful0.
  unfold full. rewrite digits_log. pose proof l_prec. split; intros H'.
  - pose proof (Z.log2_spec (Zpos m) ltac:(lia)) as Hl. replace (Z.log2 (Zpos m)) with (prec t - 1) in Hl by lia.
    by replace (Z.succ (prec t - 1)) with (prec t) in Hl by lia.
  - rewrite (Z.log2_unique (Zpos m) (prec t - 1)); [lia|lia|]. by replace (Z.succ (prec t - 1)) with (prec t) by lia.
Qed.

Lemma high_full : full high.
Proof using Lawful0. apply full_range. rewrite high_eq. pose proof l_prec. split; [lia|]. apply Z.pow_lt_mono_r; lia. Qed.

Lemma full_bounded m e : full m -> 3 - emax t - prec t <= e <= emax t - prec t -> bounded (prec t) (emax t) m e = true.
Proof.
  intros Hm He. unfold bounded, canonical_mantissa, fexp. rewrite emin_eq, Hm. apply andb_true_iff. split; [apply Z.eqb_eq|apply Z.leb_le]; lia.
Qed.

Lemma high_shifted m : shifted m (prec t - 1) (m * high).
Proof using Lawful0. pose proof l_prec. split; [lia|]. by rewrite Pos2Z.inj_mul, high_eq. Qed.

(** The conversion of an integer of at most [prec] bits. *)
Lemma of_int_exact (s : bool) x m d :
  shifted x (prec t - d) m -> full m -> d <= prec t -> 1 <= d ->
  of_int t (if s then Zneg x else Zpos x) = S754_finite s m (d - prec t).
Proof using Lawful0.
  intros Hs Hm Hd Hd'. pose proof l_emax. unfold of_int. assert (binary_round (prec t) (emax t) s x 0 = S754_finite s m (d - prec t)) as <-.
  { rewrite <- (binary_round_exact (prec t) (emax t) s m (d - prec t) x (d - prec t)).
    - f_equal. lia.
    - right. split; [|lia]. by replace (- (d - prec t)) with (prec t - d) by lia.
    - apply full_bounded; [done|lia]. }
  by destruct s.
Qed.

Lemma of_int_power k x : 0 <= k < prec t -> Zpos x = 2 ^ k -> of_int t (Zpos x) = S754_finite false high (k + 1 - prec t).
Proof using Lawful0.
  intros Hk Hx. apply (of_int_exact false x high (k + 1)); [|apply high_full|lia|lia]. split; [lia|].
  rewrite high_eq, Hx, <- Z.pow_add_r by lia. f_equal. lia.
Qed.

Lemma one_eq : of_int t 1 = S754_finite false high (1 - prec t).
Proof using Lawful0. pose proof l_prec. by rewrite (of_int_power 0 1) by (lia || done). Qed.

Lemma two_eq : of_int t 2 = S754_finite false high (2 - prec t).
Proof using Lawful0. pose proof l_prec. by rewrite (of_int_power 1 2) by (lia || done). Qed.

Lemma minus_one_eq : of_int t (-1) = S754_finite true high (1 - prec t).
Proof using Lawful0.
  pose proof l_prec. apply (of_int_exact true 1 high 1); [|apply high_full|lia|lia]. split; [lia|]. rewrite high_eq. lia.
Qed.

Lemma pownum_eq : of_int t (1 .<< significandbits t) = S754_finite false high 0.
Proof using Lawful0.
  pose proof l_prec as Hp. pose proof l_bits as Hb. unfold significandbits. rewrite Z.shiftl_1_l. replace (bits t - expbits t - 1) with (prec t - 1) by lia.
  rewrite <- high_eq. rewrite (of_int_power (prec t - 1)); [f_equal; lia|lia|apply high_eq].
Qed.

(** ** Scaling *)

Lemma fmul_exact s m e s' k m' n e' :
  shifted m' n (m * high) -> e + k = e' - n -> bounded (prec t) (emax t) m' e' = true ->
  fmul t (S754_finite s m e) (S754_finite s' high k) = S754_finite (xorb s s') m' e'.
Proof. intros Hs He Hb. unfold fmul, SFmul. rewrite He. by apply round_exact. Qed.

Lemma fmul_full s m e s' k :
  full m -> 3 - emax t - prec t <= e + k + (prec t - 1) <= emax t - prec t ->
  fmul t (S754_finite s m e) (S754_finite s' high k) = S754_finite (xorb s s') m (e + k + (prec t - 1)).
Proof using Lawful0. intros Hm He. apply (fmul_exact _ _ _ _ _ _ (prec t - 1)); [apply high_shifted|lia|by apply full_bounded]. Qed.

Lemma div_eucl_exact a b q : 0 < b -> a = q * b -> Z.div_eucl a b = (q, 0).
Proof.
  intros Hb ->. pose proof (Z.div_mul q b ltac:(lia)) as H1. pose proof (Z.mod_mul q b ltac:(lia)) as H2.
  unfold Z.div, Z.modulo in *. by destruct (Z.div_eucl (q * b) b); subst.
Qed.

(** Division of a number of full length by a power of two. *)
Lemma fdiv_exact s m e k m' n e' q :
  full m -> 3 - emax t - prec t <= e - k ->
  e' - n = Z.max (e - k - prec t) (3 - emax t - prec t) ->
  Zpos q * 2 ^ (prec t - 1) = Zpos m * 2 ^ (e - k - (e' - n)) -> shifted m' n q ->
  bounded (prec t) (emax t) m' e' = true ->
  fdiv t (S754_finite s m e) (S754_finite false high k) = S754_finite s m' e'.
Proof using Lawful0.
  intros Hm Hk He Hq Hs Hb. pose proof l_prec. unfold fdiv, SFdiv, SFdiv_core_binary. cbn [Zdigits2]. rewrite Hm, high_full.
  unfold fexp. rewrite emin_eq. replace (prec t + e - (prec t + k)) with (e - k) by lia. rewrite <- He.
  rewrite Z.min_l by lia. set (c := e - k - (e' - n)) in *. assert (Hc : 0 <= c) by lia.
  assert (match c with 0 => Zpos m | Zpos _ => Z.shiftl (Zpos m) c | Zneg _ => 0 end = Zpos m * 2 ^ c) as ->.
  { destruct c; [lia|by apply Z.shiftl_mul_pow2|lia]. }
  rewrite (div_eucl_exact _ _ (Zpos q)) by (rewrite ?high_eq; lia).
  assert (new_location (Zpos high) 0 = loc_Exact) as -> by (unfold new_location; by destruct (Z.even _)).
  rewrite xorb_false_r. by apply round_exact.
Qed.

Lemma fdiv_full s m e k :
  full m -> 3 - emax t - prec t <= e - k - (prec t - 1) <= emax t - prec t ->
  fdiv t (S754_finite s m e) (S754_finite false high k) = S754_finite s m (e - k - (prec t - 1)).
Proof using Lawful0.
  intros Hm He. pose proof l_prec. destruct (decide (3 - emax t - prec t <= e - k - prec t)).
  - apply (fdiv_exact s m e k m 1 _ (m~0)); [done|lia|lia| |split; lia|by apply full_bounded].
    replace (e - k - (e - k - (prec t - 1) - 1)) with (prec t - 1 + 1) by lia. rewrite Z.pow_add_r by lia. lia.
  - apply (fdiv_exact s m e k m 0 _ m); [done|lia|lia| |split; lia|by apply full_bounded].
    f_equal. f_equal. lia.
Qed.

(** ** Comparison *)

Lemma leb_high m e k :
  (full m \/ e < k) -> SFleb (S754_finite false high k) (S754_finite false m e) = (k <=? e).
Proof using Lawful0.
  intros Hm. unfold SFleb, SFcompare. destruct (Z.compare_spec k e) as [->|Hlt|Hgt].
  - destruct Hm as [Hm|]; [|lia]. apply full_range in Hm. change (Pos.compare_cont Eq high m) with (high ?= m)%positive. rewrite Z.leb_refl.
    destruct (Pos.compare_spec high m); [done|done|]. pose proof high_eq. lia.
  - by rewrite (proj2 (Z.leb_le _ _)) by lia.
  - by rewrite (proj2 (Z.leb_gt _ _)) by lia.
Qed.

Lemma ltb_high m e k :
  (full m \/ e < k) -> SFltb (S754_finite false m e) (S754_finite false high k) = (e <? k).
Proof using Lawful0.
  intros Hm. unfold SFltb, SFcompare. destruct (Z.compare_spec e k) as [->|Hlt|Hgt].
  - destruct Hm as [Hm|]; [|lia]. apply full_range in Hm. change (Pos.compare_cont Eq m high) with (m ?= high)%positive. rewrite Z.ltb_irrefl.
    destruct (Pos.compare_spec m high); [done| |done]. pose proof high_eq. lia.
  - by rewrite (proj2 (Z.ltb_lt _ _)) by lia.
  - by rewrite (proj2 (Z.ltb_ge _ _)) by lia.
Qed.

(** ** Normalization *)

Lemma digits_le m : Zpos (digits2_pos m) <= prec t -> full m \/ Zpos (digits2_pos m) < prec t.
Proof. unfold full. lia. Qed.

(** A valid number has full length, or the smallest exponent. *)
Lemma bounded_cases m e :
  bounded (prec t) (emax t) m e = true ->
  e <= emax t - prec t /\
  ((full m /\ 3 - emax t - prec t <= e) \/ (Zpos (digits2_pos m) < prec t /\ e = 3 - emax t - prec t)).
Proof.
  intros H. apply andb_true_iff in H as [Hc He]. apply Z.leb_le in He. split; [done|]. apply canonical_fexp in Hc. unfold fexp in Hc. rewrite emin_eq in Hc.
  unfold full. lia.
Qed.

(** The exponent of the leading bit. *)
Definition magnitude (m : positive) (e : Z) : Z := e + Zpos (digits2_pos m) - 1.

Lemma uwrap_add z k : uwrap (bits t) (uwrap (bits t) z + k) = uwrap (bits t) (z + k).
Proof. unfold uwrap. apply Zplus_mod_idemp_l. Qed.

Lemma shrink_ok fuel m e z :
  full m -> 1 - prec t <= e <= emax t - prec t -> e - (1 - prec t) < Z.of_nat fuel ->
  shrink t fuel (S754_finite false m e) (uwrap (bits t) z)
  = Some (S754_finite false m (1 - prec t), uwrap (bits t) (z + (e - (1 - prec t)))).
Proof using Lawful0.
  intros Hm. pose proof l_prec as Hp. pose proof l_emax as Hx. revert e z. induction fuel as [|fuel IH]; intros e z He Hf; [lia|]. cbn [shrink].
  rewrite two_eq, leb_high by (by left). destruct (Z.leb_spec (2 - prec t) e).
  - rewrite fdiv_full by (done || lia). rewrite uwrap_add. replace (e - (2 - prec t) - (prec t - 1)) with (e - 1) by lia.
    rewrite IH by lia. do 3 f_equal. lia.
  - replace e with (1 - prec t) by lia. do 3 f_equal. lia.
Qed.

Lemma double_digits m : Zpos (digits2_pos m~0) = Zpos (digits2_pos m) + 1.
Proof. cbn [digits2_pos]. lia. Qed.

Lemma double_step m e :
  bounded (prec t) (emax t) m e = true -> magnitude m e < 0 ->
  exists m' e', fmul t (S754_finite false m e) (of_int t 2) = S754_finite false m' e'
    /\ bounded (prec t) (emax t) m' e' = true /\ magnitude m' e' = magnitude m e + 1
    /\ (forall M, shifted m' (prec t - Zpos (digits2_pos m')) M -> shifted m (prec t - Zpos (digits2_pos m)) M).
Proof using Lawful0.
  intros Hb Hv. pose proof l_prec as Hp. pose proof l_emax as Hx. rewrite two_eq. unfold magnitude in *.
  destruct (bounded_cases _ _ Hb) as [He [[Hm Hmin]|[Hm ->]]].
  - unfold full in Hm. exists m, (e + 1). rewrite fmul_full by (done || lia). split; [f_equal; lia|]. split; [apply full_bounded; [done|lia]|]. split; [lia|done].
  - assert (Hb' : bounded (prec t) (emax t) (m~0) (3 - emax t - prec t) = true).
    { unfold bounded, canonical_mantissa, fexp. rewrite double_digits, emin_eq. apply andb_true_iff. split; [apply Z.eqb_eq|apply Z.leb_le]; lia. }
    exists (m~0)%positive, (3 - emax t - prec t). rewrite double_digits. split; [|split; [done|split; [lia|]]].
    + apply (fmul_exact false m _ false _ (m~0) (prec t - 2)); [|lia|done]. destruct (high_shifted m) as [_ E]. split; [lia|]. rewrite E.
      replace (prec t - 1) with (1 + (prec t - 2)) by lia. rewrite Z.pow_add_r by lia. lia.
    + intros M [H1 H2]. split; [lia|]. rewrite H2. replace (prec t - Zpos (digits2_pos m)) with (1 + (prec t - (Zpos (digits2_pos m) + 1))) by lia.
      rewrite Z.pow_add_r by lia. lia.
Qed.

Lemma grow_ok fuel m e z :
  bounded (prec t) (emax t) m e = true -> magnitude m e <= 0 -> - magnitude m e < Z.of_nat fuel ->
  exists M, shifted m (prec t - Zpos (digits2_pos m)) M /\ full M
    /\ grow t fuel (S754_finite false m e) (uwrap (bits t) z) = Some (S754_finite false M (1 - prec t), uwrap (bits t) (z + magnitude m e)).
Proof using Lawful0.
  pose proof l_prec as Hp. pose proof l_emax as Hx. revert m e z. induction fuel as [|fuel IH]; intros m e z Hb Hv Hf; [lia|]. cbn [grow].
  assert (Hc : full m \/ e < 1 - prec t) by (destruct (bounded_cases _ _ Hb) as [He [[Hm Hmin]|[Hm ->]]]; [by left|right; lia]).
  rewrite one_eq, ltb_high by done. destruct (decide (magnitude m e = 0)) as [E|E].
  - assert (full m) as Hm. { destruct (bounded_cases _ _ Hb) as [He [[Hm Hmin]|[Hm ->]]]; [done|]. unfold magnitude in E. lia. }
    unfold full, magnitude in *. exists m. rewrite (proj2 (Z.ltb_ge _ _)) by lia. split; [split; [lia|]|split; [done|]].
    + replace (prec t - Zpos (digits2_pos m)) with 0 by lia. lia.
    + do 3 f_equal; lia.
  - assert (e < 1 - prec t) as Hlt. { destruct (bounded_cases _ _ Hb) as [He [[Hm Hmin]|[Hm ->]]]; unfold full, magnitude in *; lia. }
    rewrite (proj2 (Z.ltb_lt _ _)) by lia. destruct (double_step m e Hb ltac:(lia)) as (m' & e' & -> & Hb' & Hv' & HM).
    destruct (IH m' e' (z + -1) Hb' ltac:(lia) ltac:(lia)) as (M & H1 & H2 & H3). exists M. split; [by apply HM|]. split; [done|].
    change (uwrap (bits t) z - 1) with (uwrap (bits t) z + -1). rewrite uwrap_add, H3. do 3 f_equal. lia.
Qed.

(** Both loops: the mantissa of full length and the exponent. *)
Lemma normalized m e :
  bounded (prec t) (emax t) m e = true ->
  exists M, shifted m (prec t - Zpos (digits2_pos m)) M /\ full M
    /\ (r ← shrink t (rounds t) (S754_finite false m e) 0; grow t (rounds t) r.1 r.2)
       = Some (S754_finite false M (1 - prec t), uwrap (bits t) (magnitude m e)).
Proof using Lawful0.
  intros Hb. pose proof l_prec as Hp. pose proof l_emax as Hx. assert (H0 : 0 = uwrap (bits t) 0) by (unfold uwrap; by rewrite Z.mod_0_l by (pose proof l_bits; pose proof l_expbits; lia)).
  assert (Hr : Z.of_nat (rounds t) = emax t + prec t) by (unfold rounds; lia). rewrite H0.
  destruct (bounded_cases _ _ Hb) as [He Hcase]. destruct (decide (1 <= magnitude m e)) as [Hv|Hv].
  - assert (full m) as Hm. { destruct Hcase as [[Hm Hmin]|[Hm ->]]; [done|]. unfold magnitude in Hv. lia. }
    unfold full, magnitude in *. rewrite shrink_ok by (done || lia). cbn [mbind option_bind fst snd].
    assert (bounded (prec t) (emax t) m (1 - prec t) = true) as Hb1 by (apply full_bounded; [done|lia]).
    destruct (grow_ok (rounds t) m (1 - prec t) (0 + (e - (1 - prec t))) Hb1) as (M & H1 & H2 & H3); [unfold magnitude; lia..|].
    exists M. split; [done|]. split; [done|]. rewrite H3. do 3 f_equal. unfold magnitude. lia.
  - destruct (grow_ok (rounds t) m e 0 Hb) as (M & H1 & H2 & H3); [lia| |].
    { destruct Hcase as [[Hm Hmin]|[Hm ->]]; unfold magnitude, full in *; lia. }
    exists M. split; [done|]. split; [done|]. destruct (rounds t) as [|r] eqn:Er; [lia|]. cbn [shrink].
    rewrite two_eq, leb_high, (proj2 (Z.leb_gt _ _)); [cbn [mbind option_bind fst snd]; by rewrite H3| |];
      destruct Hcase as [[Hm Hmin]|[Hm ->]]; unfold magnitude, full in *; lia.
Qed.

(** ** The significand *)

Lemma significandbits_eq : significandbits t = prec t - 1.
Proof using Lawful0. pose proof l_bits. unfold significandbits. lia. Qed.

(** An integer below [2 ^ (prec - 1)] with the mantissa of full length it has as a number. *)
Lemma lengthened x : Zpos x < 2 ^ (prec t - 1) ->
  exists X d, shifted x (prec t - d) X /\ full X /\ 1 <= d <= prec t - 1.
Proof using Lawful0.
  intros Hx. pose proof l_prec. assert (Hd : 1 <= Zpos (digits2_pos x) <= prec t - 1).
  { rewrite digits_log. assert (Z.log2 (Zpos x) < prec t - 1) by (apply Z.log2_lt_pow2; lia). pose proof (Z.log2_nonneg (Zpos x)). lia. }
  set (d := Zpos (digits2_pos x)) in *. exists (Z.to_pos (Zpos x * 2 ^ (prec t - d))), d.
  assert (Hs : shifted x (prec t - d) (Z.to_pos (Zpos x * 2 ^ (prec t - d)))) by (split; [lia|]; apply Z2Pos.id; nia).
  split; [done|]. split; [|lia]. unfold full. rewrite (shifted_digits _ _ _ Hs). fold d. lia.
Qed.

Lemma significand_ok M :
  full M ->
  to_unsigned t (fmul t (fsub t (S754_finite false M (1 - prec t)) (of_int t 1)) (fadd t (of_int t (1 .<< significandbits t)) (p5 t)))
  = Some (Zpos M - 2 ^ (prec t - 1)).
Proof using Lawful0.
  intros HM. pose proof l_prec as Hp. pose proof l_emax as Hx. pose proof l_bits as Hb. pose proof l_expbits as He.
  rewrite l_half, pownum_eq, one_eq. apply full_range in HM.
  unfold fsub, SFsub. cbv zeta. rewrite Z.min_id. rewrite !shl_align_up by lia. cbn [fst cond_Zopp]. rewrite high_eq.
  destruct (Zpos M - 2 ^ (prec t - 1)) as [|x|x] eqn:Ex; [done| |lia]. cbn [binary_normalize].
  assert (Hpow : 2 ^ prec t = 2 * 2 ^ (prec t - 1)) by (rewrite <- Z.pow_succ_r by lia; f_equal; lia).
  destruct (lengthened x ltac:(lia)) as (X & d & Hs & HX & Hd).
  replace (1 - prec t) with (1 - prec t - (prec t - d) - (- (prec t - d))) by lia.
  rewrite (binary_round_exact (prec t) (emax t) false X (- (prec t - d))); cycle 1.
  { right. split; [|lia]. by replace (- - (prec t - d)) with (prec t - d) by lia. }
  { apply full_bounded; [done|lia]. }
  rewrite fmul_full by (done || lia). cbn [xorb to_unsigned].
  replace (1 - prec t - (prec t - d) + 0 + (prec t - 1)) with (- (prec t - d)) by lia.
  rewrite Z.shiftl_opp_r, Z.shiftr_div_pow2 by lia. destruct Hs as [_ ->]. rewrite Z.div_mul by (apply Z.pow_nonzero; lia). cbn [Z.eqb orb].
  rewrite (proj2 (Z.leb_gt _ _)); [done|]. assert (2 ^ prec t <= 2 ^ bits t) by (apply Z.pow_le_mono_r; lia). lia.
Qed.

Definition bias : Z := emax t - 1.

Lemma bias_eq : (1 .<< (expbits t - 1)) - 1 = bias.
Proof using Lawful0. unfold bias. rewrite l_bias, Z.shiftl_1_l. done. Qed.

(** The result for every finite number, with [M] its mantissa of full length. *)
Definition packed (s : bool) (v M : Z) : Z :=
  (uwrap (bits t) (Z.b2z s .<< (bits t - 1)) .| uwrap (bits t) ((v + bias) .<< (prec t - 1))) .| (M - 2 ^ (prec t - 1)).

Lemma uwrap_shiftl z k : 0 <= k -> uwrap (bits t) (uwrap (bits t) z .<< k) = uwrap (bits t) (z .<< k).
Proof. intros Hk. unfold uwrap. rewrite !Z.shiftl_mul_pow2 by done. apply Zmult_mod_idemp_l. Qed.

Lemma pack754_finite s m e :
  bounded (prec t) (emax t) m e = true ->
  exists M, shifted m (prec t - Zpos (digits2_pos m)) M /\ full M
    /\ pack754 t (S754_finite s m e) = Some (packed s (magnitude m e) (Zpos M)).
Proof using Lawful0.
  intros Hb. destruct (normalized m e Hb) as (M & H1 & H2 & H3). exists M. split; [done|]. split; [done|].
  pose proof l_prec as Hp. cbn [pack754]. assert (SFltb (S754_finite s m e) (S754_zero false) = s) as -> by (by destruct s).
  assert (Hneg : (if s then (1, SFopp (S754_finite s m e)) else (0, S754_finite s m e)) = (Z.b2z s, S754_finite false m e)) by (by destruct s).
  rewrite Hneg. clear Hneg. revert H3. destruct (shrink t (rounds t) (S754_finite false m e) 0) as [r|]; [|done].
  cbn [mbind option_bind]. intros ->. cbn [mbind option_bind]. rewrite significand_ok by done. cbn [mbind option_bind].
  rewrite bias_eq, significandbits_eq. rewrite uwrap_add, uwrap_shiftl by lia. done.
Qed.

(** Packing always returns. *)
Lemma pack754_total f : valid_binary (prec t) (emax t) f = true -> exists i, pack754 t f = Some i.
Proof using Lawful0.
  destruct f as [s|s| |s m e]; intros Hf; try (by eexists). destruct (pack754_finite s m e Hf) as (M & _ & _ & ->). by eexists.
Qed.

(** ** Unpacking *)

(** The three fields of a code. *)
Definition code (s : bool) (w x : Z) : Z := Z.b2z s * (2 ^ (prec t - 1) * 2 ^ expbits t) + (w * 2 ^ (prec t - 1) + x).

Lemma pow_fields : 0 < 2 ^ (prec t - 1) /\ 2 ^ expbits t = 2 * emax t
  /\ 2 ^ (bits t - 1) = 2 ^ (prec t - 1) * 2 ^ expbits t /\ 2 ^ bits t = 2 * (2 ^ (prec t - 1) * 2 ^ expbits t).
Proof using Lawful0.
  pose proof l_prec as Hp. pose proof l_expbits as He. split; [apply Z.pow_pos_nonneg; lia|]. rewrite l_bias, l_bits. split; [|split].
  - rewrite <- Z.pow_succ_r by lia. f_equal. lia.
  - rewrite <- Z.pow_add_r by lia. f_equal. lia.
  - rewrite <- Z.pow_add_r, <- Z.pow_succ_r by lia. f_equal. lia.
Qed.

Lemma packed_code s v M :
  0 <= v + bias < 2 ^ expbits t -> full M -> packed s v (Zpos M) = code s (v + bias) (Zpos M - 2 ^ (prec t - 1)).
Proof using Lawful0.
  intros Hw HM. apply full_range in HM. destruct pow_fields as (HA & HB & HN & H2N). pose proof l_prec as Hp. pose proof l_expbits as He. pose proof l_bits as Hb.
  assert (Hpow : 2 ^ prec t = 2 * 2 ^ (prec t - 1)) by (rewrite <- Z.pow_succ_r by lia; f_equal; lia).
  unfold packed, code. rewrite (uwrap_id (bits t) (Z.b2z s .<< _)), (uwrap_id (bits t) ((v + bias) .<< _)).
  - rewrite <- Z.lor_assoc. rewrite (lor_shiftl_add (v + bias)) by lia. rewrite lor_shiftl_add; [by rewrite HN|lia|]. rewrite HN. nia.
  - unfold is_uint. rewrite Z.shiftl_mul_pow2 by lia. nia.
  - unfold is_uint. rewrite Z.shiftl_mul_pow2 by lia. destruct s; cbn [Z.b2z]; nia.
Qed.

Section Fields.
  Context (s : bool) (w x : Z) (Hw : 1 <= w < 2 ^ expbits t - 1) (Hx : 0 <= x < 2 ^ (prec t - 1)).

Lemma code_special :
  code s w x <> packed_pzero t /\ code s w x <> packed_nzero t /\ code s w x <> packed_pinf t
  /\ code s w x <> packed_ninf t /\ code s w x <> packed_nan t.
Proof using Lawful0 Hw Hx.
  destruct pow_fields as (HA & HB & HN & H2N). rewrite l_pzero, l_nzero, l_pinf, l_ninf, l_nan, H2N, HN. unfold code.
  set (A := 2 ^ (prec t - 1)) in *. set (B := 2 ^ expbits t) in *. destruct s; cbn [Z.b2z]; repeat split; intros E; nia.
Qed.

Lemma code_significand : code s w x .& ((1 .<< (prec t - 1)) - 1) = x.
Proof using Lawful0 Hw Hx.
  destruct pow_fields as (HA & HB & HN & H2N). pose proof l_prec. rewrite Z.shiftl_1_l.
  replace (2 ^ (prec t - 1) - 1) with (Z.ones (prec t - 1)) by (rewrite Z.ones_equiv; lia). rewrite Z.land_ones by lia. unfold code.
  replace (Z.b2z s * (2 ^ (prec t - 1) * 2 ^ expbits t) + (w * 2 ^ (prec t - 1) + x)) with (x + (Z.b2z s * 2 ^ expbits t + w) * 2 ^ (prec t - 1)) by lia.
  rewrite Z.mod_add by lia. by apply Z.mod_small.
Qed.

Lemma code_signed : swrap (bits t) (code s w x) = code s w x - Z.b2z s * 2 ^ bits t.
Proof using Lawful0 Hw Hx.
  destruct pow_fields as (HA & HB & HN & H2N). unfold swrap. rewrite HN, H2N. unfold code.
  set (A := 2 ^ (prec t - 1)) in *. set (B := 2 ^ expbits t) in *. assert (0 <= w * A + x < A * B) by nia. destruct s; cbn [Z.b2z].
  - replace (1 * (A * B) + (w * A + x) + A * B) with (w * A + x + 1 * (2 * (A * B))) by lia. rewrite Z.mod_add by nia. rewrite Z.mod_small by lia. lia.
  - rewrite Z.mod_small by lia. lia.
Qed.

Lemma code_exponent : (swrap (bits t) (code s w x) .>> (prec t - 1)) .& ((1 .<< expbits t) - 1) = w.
Proof using Lawful0 Hw Hx.
  destruct pow_fields as (HA & HB & HN & H2N). pose proof l_prec. pose proof l_expbits. rewrite code_signed, Z.shiftl_1_l.
  replace (2 ^ expbits t - 1) with (Z.ones (expbits t)) by (rewrite Z.ones_equiv; lia). rewrite Z.land_ones, Z.shiftr_div_pow2 by lia.
  unfold code. rewrite H2N.
  replace (Z.b2z s * (2 ^ (prec t - 1) * 2 ^ expbits t) + (w * 2 ^ (prec t - 1) + x) - Z.b2z s * (2 * (2 ^ (prec t - 1) * 2 ^ expbits t)))
    with (x + (w + - Z.b2z s * 2 ^ expbits t) * 2 ^ (prec t - 1)) by lia.
  rewrite Z.div_add, Z.div_small, Z.add_0_l by lia. rewrite Z.mod_add by lia. apply Z.mod_small. lia.
Qed.

Lemma code_sign : Z.testbit (code s w x) (bits t - 1) = s.
Proof using Lawful0 Hw Hx.
  destruct pow_fields as (HA & HB & HN & H2N). pose proof l_bits. pose proof l_prec. pose proof l_expbits.
  rewrite Z.testbit_odd, Z.shiftr_div_pow2, HN by lia. unfold code. set (A := 2 ^ (prec t - 1)) in *. set (B := 2 ^ expbits t) in *.
  assert (0 <= w * A + x < A * B) by nia. rewrite Z.add_comm, Z.div_add, Z.div_small by nia. by destruct s.
Qed.

End Fields.

Lemma code_range s w x : 0 <= w < 2 ^ expbits t -> 0 <= x < 2 ^ (prec t - 1) -> is_uint (bits t) (code s w x).
Proof using Lawful0.
  intros Hw Hx. destruct pow_fields as (HA & HB & HN & H2N). unfold is_uint, code. rewrite H2N.
  set (A := 2 ^ (prec t - 1)) in *. set (B := 2 ^ expbits t) in *. destruct s; cbn [Z.b2z]; nia.
Qed.

Lemma fraction_ok M :
  full M ->
  fadd t (fdiv t (of_int t (Zpos M - 2 ^ (prec t - 1))) (of_int t (1 .<< (prec t - 1)))) (of_int t 1) = S754_finite false M (1 - prec t).
Proof using Lawful0.
  intros HM. pose proof l_prec as Hp. pose proof l_emax as Hx. rewrite <- significandbits_eq at 2. rewrite pownum_eq, one_eq. pose proof HM as HM'. apply full_range in HM'.
  assert (Hpow : 2 ^ prec t = 2 * 2 ^ (prec t - 1)) by (rewrite <- Z.pow_succ_r by lia; f_equal; lia).
  destruct (Zpos M - 2 ^ (prec t - 1)) as [|x|x] eqn:Ex; [|..|lia].
  - cbn. f_equal. pose proof high_eq. lia.
  - destruct (lengthened x ltac:(lia)) as (X & d & Hs & HX & Hd). rewrite (of_int_exact false x X d) by (done || lia). rewrite fdiv_full by (done || lia).
    unfold fadd, SFadd. cbv zeta. set (e := d - prec t - 0 - (prec t - 1)). rewrite Z.min_l by lia. rewrite (shl_align_up X) by lia.
    destruct (shl_align_down high (1 - prec t) e ltac:(lia)) as [[_ H1] _]. cbn [fst cond_Zopp]. rewrite H1, high_eq.
    replace (1 - prec t - e) with (prec t - d) by lia. destruct Hs as [_ Hs]. rewrite Hs.
    replace (Zpos x * 2 ^ (prec t - d) + 2 ^ (prec t - 1) * 2 ^ (prec t - d)) with (Zpos M * 2 ^ (prec t - d)) by (rewrite <- Ex; lia).
    destruct (Zpos M * 2 ^ (prec t - d)) as [|y|y] eqn:Ey; [nia| |nia]. cbn [binary_normalize].
    replace e with (1 - prec t - (prec t - d)) by lia. apply binary_round_exact; [|apply full_bounded; [done|lia]]. left. split; [lia|done].
Qed.

Lemma times_ok fuel m e shift :
  full m -> 3 - emax t - prec t <= e -> e + shift <= emax t - prec t -> Z.max 0 shift < Z.of_nat fuel ->
  times t fuel (S754_finite false m e) shift
  = Some (S754_finite false m (e + Z.max 0 shift), Z.min 0 shift).
Proof using Lawful0.
  intros Hm. pose proof l_prec as Hp. revert e shift. induction fuel as [|fuel IH]; intros e shift He1 He2 Hf; [lia|]. cbn [times].
  destruct (Z.ltb_spec 0 shift).
  - rewrite two_eq, fmul_full by (done || lia). cbn [xorb]. rewrite IH by lia. f_equal. f_equal; [f_equal; lia|lia].
  - f_equal. f_equal; [f_equal; lia|lia].
Qed.

Lemma divide_ok fuel m e shift :
  full m -> e <= emax t - prec t -> 3 - emax t - prec t <= e + shift -> shift <= 0 -> - shift < Z.of_nat fuel ->
  divide t fuel (S754_finite false m e) shift = Some (S754_finite false m (e + shift), 0).
Proof using Lawful0.
  intros Hm. pose proof l_prec as Hp. revert e shift. induction fuel as [|fuel IH]; intros e shift He1 He2 Hs Hf; [lia|]. cbn [divide].
  destruct (Z.ltb_spec shift 0).
  - rewrite two_eq, fdiv_full by (done || lia). rewrite IH by lia. f_equal. f_equal. f_equal. lia.
  - f_equal. f_equal; [f_equal; lia|lia].
Qed.

Lemma unpack754_code s w M :
  1 <= w < 2 ^ expbits t - 1 -> full M ->
  unpack754 t (code s w (Zpos M - 2 ^ (prec t - 1))) = Some (S754_finite s M (w - bias + 1 - prec t)).
Proof using Lawful0.
  intros Hw HM. pose proof HM as HM'. apply full_range in HM'. pose proof l_prec as Hp. pose proof l_emax as Hx. destruct pow_fields as (HA & HB & HN & H2N).
  assert (Hpow : 2 ^ prec t = 2 * 2 ^ (prec t - 1)) by (rewrite <- Z.pow_succ_r by lia; f_equal; lia).
  assert (Hfr : 0 <= Zpos M - 2 ^ (prec t - 1) < 2 ^ (prec t - 1)) by lia.
  destruct (code_special s w _ Hw Hfr) as (H1 & H2 & H3 & H4 & H5). unfold unpack754.
  rewrite !(proj2 (Z.eqb_neq _ _)) by done. cbv zeta. rewrite bias_eq, significandbits_eq, code_significand, code_exponent, code_sign by done.
  rewrite fraction_ok by done. assert (Hr : Z.of_nat (rounds t) = emax t + prec t) by (unfold rounds; lia). unfold bias in *.
  rewrite times_ok by (done || lia). cbn [mbind option_bind fst snd]. rewrite divide_ok by (done || lia). cbn [mbind option_bind fst].
  assert (of_int t (if s then -1 else 1) = S754_finite s high (1 - prec t)) as -> by (destruct s; [apply minus_one_eq|apply one_eq]).
  rewrite fmul_full by (done || lia). cbn [xorb]. destruct s; f_equal; f_equal; lia.
Qed.

(** Normal numbers, zeros, infinities and NaN, as classified by [std::fpclassify]. *)
Definition not_subnormal (f : spec_float) : bool :=
  match SFclassify (prec t) f with FloatClass.PSubn | FloatClass.NSubn => false | _ => true end.

Lemma special_codes :
  unpack754 t (packed_pzero t) = Some (S754_zero false) /\ unpack754 t (packed_nzero t) = Some (S754_zero true)
  /\ unpack754 t (packed_pinf t) = Some (S754_infinity false) /\ unpack754 t (packed_ninf t) = Some (S754_infinity true)
  /\ unpack754 t (packed_nan t) = Some S754_nan.
Proof using Lawful0.
  destruct pow_fields as (HA & HB & HN & H2N). pose proof l_emax as Hx. pose proof l_prec as Hp. unfold unpack754. rewrite l_pzero, l_nzero, l_pinf, l_ninf, l_nan, H2N, HN.
  assert (1 < 2 ^ (prec t - 1)) by (apply Z.pow_gt_1; lia).
  set (A := 2 ^ (prec t - 1)) in *. assert (HAB : 4 * A <= A * 2 ^ expbits t) by nia. set (N := A * 2 ^ expbits t) in *. clearbody A N.
  repeat split; repeat (match goal with |- context [?a =? ?b] => destruct (Z.eqb_spec a b); [try lia|try lia] end; try reflexivity).
Qed.

Lemma pack_unpack f :
  valid_binary (prec t) (emax t) f = true -> not_subnormal f = true ->
  exists i, pack754 t f = Some i /\ is_uint (bits t) i /\ unpack754 t i = Some f.
Proof using Lawful0.
  intros Hv Hn. destruct special_codes as (S1 & S2 & S3 & S4 & S5). destruct pow_fields as (HA & HB & HN & H2N). pose proof l_emax as Hx. pose proof l_prec as Hp.
  assert (Hspec : forall i, i = packed_pzero t \/ i = packed_nzero t \/ i = packed_pinf t \/ i = packed_ninf t \/ i = packed_nan t -> is_uint (bits t) i).
  { intros i. rewrite l_pzero, l_nzero, l_pinf, l_ninf, l_nan. unfold is_uint. rewrite H2N, HN. intros [->|[->|[->|[->| ->]]]]; nia. }
  destruct f as [[]|[]| |s m e]; try (eexists; split; [reflexivity|]; split; [apply Hspec; tauto|done]).
  assert (Hm : full m). { unfold not_subnormal, SFclassify in Hn. destruct s, (Z.eqb_spec (Zpos (digits2_pos m)) (prec t)); done. }
  destruct (pack754_finite s m e Hv) as (M & Hs & HM & ->). assert (M = m) as ->.
  { destruct Hs as [_ Hs]. rewrite Hm, Z.sub_diag in Hs. lia. }
  destruct (bounded_cases _ _ Hv) as [He [[_ Hmin]|[Hc _]]]; [|unfold full in Hm; lia].
  assert (Hw : 1 <= magnitude m e + bias < 2 ^ expbits t - 1) by (unfold magnitude, bias; rewrite Hm, HB; lia).
  eexists. split; [done|]. rewrite packed_code by (done || lia). pose proof HM as HM'. apply full_range in HM'.
  assert (Hpow : 2 ^ prec t = 2 * 2 ^ (prec t - 1)) by (rewrite <- Z.pow_succ_r by lia; f_equal; lia).
  split; [apply code_range; lia|]. rewrite unpack754_code by done. do 2 f_equal. unfold magnitude. rewrite Hm. lia.
Qed.

(** ** Every code is read *)

Lemma times_total fuel r shift : Z.max 0 shift < Z.of_nat fuel -> exists r', times t fuel r shift = Some (r', Z.min 0 shift).
Proof.
  revert r shift. induction fuel as [|fuel IH]; intros r shift Hf; [lia|]. cbn [times]. destruct (Z.ltb_spec 0 shift).
  - destruct (IH (fmul t r (of_int t 2)) (shift - 1) ltac:(lia)) as [r' ->]. exists r'. f_equal. f_equal. lia.
  - exists r. f_equal. f_equal. lia.
Qed.

Lemma divide_total fuel r shift : Z.max 0 (- shift) < Z.of_nat fuel -> exists r', divide t fuel r shift = Some (r', Z.max 0 shift).
Proof.
  revert r shift. induction fuel as [|fuel IH]; intros r shift Hf; [lia|]. cbn [divide]. destruct (Z.ltb_spec shift 0).
  - destruct (IH (fdiv t r (of_int t 2)) (shift + 1) ltac:(lia)) as [r' ->]. exists r'. f_equal. f_equal. lia.
  - exists r. f_equal. f_equal. lia.
Qed.

Lemma unpack754_total i : exists f, unpack754 t i = Some f.
Proof using Lawful0.
  unfold unpack754. do 5 (destruct (_ =? _); [by eexists|]). cbv zeta. rewrite bias_eq. pose proof l_expbits as He. pose proof l_emax as Hx. pose proof l_prec as Hp.
  destruct pow_fields as (HA & HB & _). assert (Hr : Z.of_nat (rounds t) = emax t + prec t) by (unfold rounds; lia).
  set (r0 := fadd _ _ _). set (w := _ .& ((1 .<< expbits t) - 1)). assert (0 <= w < 2 ^ expbits t).
  { unfold w. rewrite Z.shiftl_1_l. replace (2 ^ expbits t - 1) with (Z.ones (expbits t)) by (rewrite Z.ones_equiv; lia).
    rewrite Z.land_ones by lia. apply Z.mod_pos_bound. lia. }
  unfold bias. destruct (times_total (rounds t) r0 (w - (emax t - 1)) ltac:(lia)) as [r1 ->]. cbn [mbind option_bind fst snd].
  destruct (divide_total (rounds t) r1 (Z.min 0 (w - (emax t - 1))) ltac:(lia)) as [r2 ->]. cbn [mbind option_bind]. by eexists.
Qed.

(** ** Numbers that are too small *)

(** With a negative biased exponent the sign is lost. *)
Lemma packed_sign_lost v M : - 2 ^ expbits t <= v + bias < 0 -> packed true v M = packed false v M.
Proof using Lawful0.
  intros Hw. destruct pow_fields as (HA & HB & HN & H2N). pose proof l_prec as Hp. pose proof l_expbits as He. pose proof l_bits as Hb. unfold packed. f_equal.
  cbn [Z.b2z]. rewrite Z.shiftl_0_l. change (uwrap (bits t) 0) with (0 mod 2 ^ bits t). rewrite Z.mod_0_l, Z.lor_0_l by nia.
  rewrite uwrap_id; [|unfold is_uint; rewrite Z.shiftl_1_l; nia].
  assert (uwrap (bits t) ((v + bias) .<< (prec t - 1)) = (1 .<< (bits t - 1)) .| ((v + bias + 2 ^ expbits t) * 2 ^ (prec t - 1))) as ->.
  { rewrite lor_shiftl_add by (rewrite ?HN; nia). unfold uwrap. rewrite Z.shiftl_mul_pow2, HN, H2N by lia. symmetry.
    apply (Z.mod_unique_pos _ _ (-1)); nia. }
  by rewrite Z.lor_assoc, Z.lor_diag.
Qed.

End Packing.

(** A number other than zero below 2^-1023 for [double] or 2^-127 for [float],
    one half of the smallest normal number, is packed wrongly: it and its
    negation have the same code. *)
Theorem tiny_floats_collide (t : trait) `{!Lawful t} s m e :
  bounded (prec t) (emax t) m e = true -> magnitude m e < - bias t ->
  pack754 t (S754_finite s m e) = pack754 t (SFopp (S754_finite s m e)).
Proof.
  intros Hb Hv. cbn [SFopp]. destruct (pack754_finite t s m e Hb) as (M & Hs & _ & ->), (pack754_finite t (negb s) m e Hb) as (M' & Hs' & _ & ->).
  assert (M' = M) as -> by (destruct Hs as [_ Hs], Hs' as [_ Hs']; rewrite <- Hs in Hs'; lia). f_equal.
  assert (Hl : - 2 ^ expbits t <= magnitude m e + bias t < 0).
  { split; [|lia]. destruct (pow_fields t) as (_ & -> & _). pose proof l_emax. pose proof l_prec. destruct (bounded_cases t m e Hb) as [_ [[Hm Hmin]|[Hm ->]]];
      unfold magnitude, bias, full in *; lia. }
  destruct s; cbn [negb]; [apply packed_sign_lost|symmetry; apply packed_sign_lost]; done.
Qed.

Lemma tiny_floats_collide_witness :
  pack754 double_trait (S754_finite false 1 (-1074)) = pack754 double_trait (S754_finite true 1 (-1074)).
Proof. apply (tiny_floats_collide double_trait false 1 (-1074)); vm_compute; reflexivity. Defined.

(** C32. A number that [std::fpclassify] does not call subnormal (normal numbers,
    zeros with their sign, infinities and NaN) is written by the
    serializer in [bits / 8] bytes after what the buffer holds, and the
    deserializer reads the same number back and stops behind it.  No input
    makes the deserializer fail in another way than for other integers: every
    code is some number. *)
Theorem float_serialization (t : trait) `{!Lawful t} f pre post e :
  valid_binary (prec t) (emax t) f = true -> not_subnormal t f = true ->
  (exists s', save_float t f (BinarySerializer.mk_serializer pre (zlen pre)) = Some (true, s')
    /\ zlen (BinarySerializer.buf_ s') = zlen pre + bits t / 8
    /\ load_float t (BinaryDeserializer.mk_deserializer (drop (length pre) (BinarySerializer.buf_ s') ++ post) e)
       = Some (BinaryDeserializer.Ok f (BinaryDeserializer.mk_deserializer post e)))
  /\ forall s, exists r, load_float t s = Some r.
Proof.
  intros Hv Hn. split; cycle 1.
  { intros s. unfold load_float. destruct (BinaryDeserializer.int_value _ _ s) as [x s1|s1| |]; try by eexists.
    destruct (unpack754_total t x) as [y ->]. by eexists. }
  destruct (pack_unpack t f Hv Hn) as (i & Hi & Hu & Hback). pose proof l_bytes as Hby. pose proof l_bits. pose proof l_prec. pose proof l_expbits.
  assert (Hn8 : 8 * Z.of_nat (Z.to_nat (bits t / 8)) = bits t) by lia.
  unfold save_float. rewrite Hi. cbn [mbind option_bind].
  rewrite BinarySerializer.int_value_write by (unfold BinarySerializer.wf; cbn; unfold zlen; lia). eexists. split; [done|].
  rewrite BinarySerializer.write_end by done. cbn [BinarySerializer.buf_]. rewrite Hn8, uwrap_id by done. split.
  - unfold zlen. rewrite length_app, be_bytes_length. lia.
  - rewrite drop_app_length. unfold load_float. rewrite BinaryDeserializer.int_value_be by (by rewrite Hn8). unfold BinaryDeserializer.to_unsigned. by rewrite Hback.
Qed.

Lemma float_serialization_witness :
  exists s', save_float double_trait (S754_finite true 6755399441055744 (-51)) (BinarySerializer.mk_serializer [] 0) = Some (true, s')
    /\ load_float double_trait (BinaryDeserializer.mk_deserializer (BinarySerializer.buf_ s' ++ [1]) None)
       = Some (BinaryDeserializer.Ok (S754_finite true 6755399441055744 (-51)) (BinaryDeserializer.mk_deserializer [1] None)).
Proof.
  destruct (float_serialization double_trait (S754_finite true 6755399441055744 (-51)) [] [1] None) as [(s' & H1 & _ & H2) _];
    [vm_compute; reflexivity..|]. by exists s'.
Defined.

End Ieee754.
