(* ===== verification/FlowUcast.v ===== *)
(** Hot observables with one observer: [flow/op/ucast.hpp] with [pullable.{hpp,cpp}].

    [ucast_sub_state] passes items on to its observer, or keeps them until the
    observer asks for them.  The observer may request more items and cancel from
    within [on_next].  Multicast operators have one such state per observer; of
    them only the subscription [mcast_sub] is here. *)
From stdpp Require Import prelude.
From S2P Require Import Prelude FlowSteps FlowGenerator.

Module FlowUcast.

Import FlowSteps(error).
Import FlowGenerator(signal, s_next, s_complete, s_error, item, items, items_snoc, items_next, sec_disposed).

(** What the listener of a state is told. *)
Inductive note := n_disposed (from_external : bool) | n_consumed.

Section State.

Context {T : Type}.

(** The members of [ucast_sub_state], with [in_flight_demand_] of [pullable] and
    handles as whether they are valid.  [notes] are the calls of the listener.  The
    rest is for the specification: the signals to the observer, the items that were
    pushed before the state was disposed, and how many items were requested. *)
Record state := St {
  buf : list T;
  demand : nat;
  out : bool;
  disposed : bool;
  closed : bool;
  err : option error;
  listener : bool;
  in_flight_demand_ : nat;
  notes : list note;
  trace : list (signal T);
  accepted : list T;
  requested : nat;
}.

Definition set_buf x s := St x (demand s) (out s) (disposed s) (closed s) (err s) (listener s) (in_flight_demand_ s) (notes s) (trace s) (accepted s) (requested s).
Definition set_demand x s := St (buf s) x (out s) (disposed s) (closed s) (err s) (listener s) (in_flight_demand_ s) (notes s) (trace s) (accepted s) (requested s).
Definition set_out x s := St (buf s) (demand s) x (disposed s) (closed s) (err s) (listener s) (in_flight_demand_ s) (notes s) (trace s) (accepted s) (requested s).
Definition set_disposed s := St (buf s) (demand s) (out s) true (closed s) (err s) (listener s) (in_flight_demand_ s) (notes s) (trace s) (accepted s) (requested s).
Definition set_closed s := St (buf s) (demand s) (out s) (disposed s) true (err s) (listener s) (in_flight_demand_ s) (notes s) (trace s) (accepted s) (requested s).
Definition set_err x s := St (buf s) (demand s) (out s) (disposed s) (closed s) x (listener s) (in_flight_demand_ s) (notes s) (trace s) (accepted s) (requested s).
Definition set_listener x s := St (buf s) (demand s) (out s) (disposed s) (closed s) (err s) x (in_flight_demand_ s) (notes s) (trace s) (accepted s) (requested s).
Definition set_in_flight x s := St (buf s) (demand s) (out s) (disposed s) (closed s) (err s) (listener s) x (notes s) (trace s) (accepted s) (requested s).
Definition set_notes x s := St (buf s) (demand s) (out s) (disposed s) (closed s) (err s) (listener s) (in_flight_demand_ s) x (trace s) (accepted s) (requested s).
Definition send x s := St (buf s) (demand s) (out s) (disposed s) (closed s) (err s) (listener s) (in_flight_demand_ s) (notes s) (trace s ++ [x]) (accepted s) (requested s).
Definition note_accepted x s := St (buf s) (demand s) (out s) (disposed s) (closed s) (err s) (listener s) (in_flight_demand_ s) (notes s) (trace s) (accepted s ++ [x]) (requested s).
Definition note_requested n s := St (buf s) (demand s) (out s) (disposed s) (closed s) (err s) (listener s) (in_flight_demand_ s) (notes s) (trace s) (accepted s) (requested s + n).

(** ** Operations

    [None] is a failed assertion. *)

Definition is_pulling (s : state) : bool := (0 <? in_flight_demand_ s)%nat.

Definition is_empty (l : list T) : bool := match l with [] => true | _ => false end.

(** [listener->...] if there is one. *)
Definition tell (n : note) (s : state) : state := if listener s then set_notes (notes s ++ [n]) s else s.

(** [out.on_complete] and [out.on_error]. *)
Definition finish (x : signal T) (s : state) : state := set_out false (send x s).

(** [pullable::pull]. *)
Definition pull (n : nat) (s : state) : option state :=
  if (n =? 0)%nat then None else Some (set_in_flight (in_flight_demand_ s + n) s).

Definition request (n : nat) (s : state) : option state :=
  let s := note_requested n s in
  if is_empty (buf s) then Some (set_demand (demand s + n) s) else pull n s.

Definition dispose (s : state) : state :=
  if disposed s then s
  else
    let s := tell (n_disposed true) (set_disposed (set_demand 0 (set_buf [] s))) in
    let s := set_listener false s in
    if out s then finish (s_error sec_disposed) s else s.

Definition cancel (s : state) : state :=
  if disposed s then s
  else
    let s := tell (n_disposed false) (set_disposed (set_demand 0 (set_buf [] s))) in
    set_out false (set_listener false s).

(** [do_dispose] of [ucast_sub] and of [mcast_sub], which ignores its argument. *)
Definition ucast_do_dispose (from_external : bool) (s : state) : state := if from_external then dispose s else cancel s.

Definition mcast_do_dispose (from_external : bool) (s : state) : state := dispose s.

(** What the observer does within [on_next]; after its subscription has ended, it
    does not use it again. *)
Inductive reaction := r_request (n : nat) | r_cancel.

Context (do_dispose : bool -> state -> state) (react : list (signal T) -> list reaction).

Definition perform (s : option state) (r : reaction) : option state :=
  match s with
  | None => None
  | Some s =>
      match r with
      | r_request n => if disposed s then Some s else request n s
      | r_cancel => Some (do_dispose false s)
      end
  end.

(** [out.on_next]. *)
Definition on_next (x : T) (s : state) : option state :=
  if negb (out s) then None
  else
    let s := send (s_next x) s in
    fold_left perform (react (trace s)) (Some s).

Definition push (x : T) (s : state) : option (bool * state) :=
  if disposed s then Some (true, s)
  else
    let s := note_accepted x s in
    if (0 <? demand s)%nat && negb (is_pulling s) then
      if negb (is_empty (buf s)) then None
      else pair true <$> on_next x (set_demand (demand s - 1) s)
    else Some (false, set_buf (buf s ++ [x]) s).

Definition close (s : state) : state :=
  if disposed s then s
  else
    let s := set_closed s in
    if negb (is_pulling s) && is_empty (buf s) then
      let s := set_listener false (set_disposed s) in
      if out s then finish s_complete s else s
    else s.

Definition abort (reason : error) (s : state) : state :=
  if disposed s || bool_decide (is_Some (err s)) then s
  else
    let s := set_err (Some reason) (set_closed s) in
    if negb (is_pulling s) && is_empty (buf s) then
      let s := set_listener false (set_disposed s) in
      if out s then finish (s_error reason) s else s
    else s.

(** The loop of [do_pull]; it returns early if the state was disposed. *)
Fixpoint pull_loop (fuel : nat) (s : state) : option state :=
  match fuel with
  | O => None
  | S k =>
      match buf s with
      | x :: _ =>
          if (0 <? demand s)%nat then
            match on_next x s with
            | None => None
            | Some s => if disposed s then Some s else pull_loop k (set_demand (demand s - 1) (set_buf (tail (buf s)) s))
            end
          else Some s
      | [] => Some s
      end
  end.

Definition do_pull (n : nat) (s : state) : option state :=
  if disposed s then Some s
  else
    let s := set_demand (demand s + n) s in
    let got_some := (0 <? demand s)%nat && negb (is_empty (buf s)) in
    match pull_loop (S (length (buf s))) s with
    | None => None
    | Some s =>
        if disposed s then Some s
        else if is_empty (buf s) && closed s then
          if negb (out s) then None
          else Some (dispose (finish (match err s with None => s_complete | Some e => s_error e end) s))
        else Some (if got_some then tell n_consumed s else s)
    end.

(** The scheduled action of [pullable]. *)
Fixpoint pull_cb (fuel : nat) (s : state) : option state :=
  match fuel with
  | O => None
  | S k =>
      let val := in_flight_demand_ s in
      match do_pull val s with
      | None => None
      | Some s =>
          let s := set_in_flight (in_flight_demand_ s - val) s in
          if (0 <? in_flight_demand_ s)%nat then pull_cb k s else Some s
      end
  end.

Definition run_pull (s : state) : option state := pull_cb (S (S (length (buf s)))) s.

(** ** Invariants *)

#[local] Arguments items : simpl never.

(** A state that is not disposed and has an observer.  [d] items at the front of
    the buffer were passed on already and [val] of the demand in flight was added to
    the demand; both are zero unless [do_pull] runs. *)
Record live (d val : nat) (s : state) : Prop := {
  l_disposed : disposed s = false;
  l_out : out s = true;
  l_trace : trace s = map s_next (items (trace s));
  l_items : items (trace s) ++ drop d (buf s) = accepted s;
  l_count : (length (items (trace s)) + demand s + in_flight_demand_ s = requested s + val + d)%nat;
  l_err : is_Some (err s) -> closed s = true;
}.

(** How the signals may end. *)
Definition ending (s : state) (e : list (signal T)) : Prop :=
  e = [] \/ (exists x, e = [s_error x]) \/ (e = [s_complete] /\ closed s = true /\ err s = None /\ items (trace s) = accepted s).

Record gone (s : state) : Prop := {
  g_disposed : disposed s = true;
  g_out : out s = false;
  g_buf : buf s = [];
  g_trace : exists e, trace s = map s_next (items (trace s)) ++ e /\ ending s e;
  g_items : items (trace s) `prefix_of` accepted s;
  g_count : (length (items (trace s)) <= requested s)%nat;
}.

(** Ends a live state with at most one signal. *)
Lemma live_gone d val s s' (e : list (signal T)) :
  live d val s -> disposed s' = true -> out s' = false -> buf s' = [] -> trace s' = trace s ++ e -> items e = [] ->
  accepted s' = accepted s -> requested s' = requested s -> (val <= in_flight_demand_ s)%nat -> (d <= demand s)%nat -> ending s' e -> gone s'.
Proof.
  intros [H1 H2 H3 H4 H5 _] D O B Tr He Ha Hr Hv Hd Hend.
  assert (E : items (trace s') = items (trace s)) by (rewrite Tr; unfold items in *; by rewrite flat_map_app, He, app_nil_r).
  split; try done.
  - exists e. rewrite E, Tr, <- H3. done.
  - rewrite E, Ha. eexists. symmetry. exact H4.
  - rewrite E, Hr. lia.
Qed.

Lemma ucast_dispose_gone d val s :
  live d val s -> (val <= in_flight_demand_ s)%nat -> (d <= demand s)%nat -> gone (dispose s) /\ gone (cancel s).
Proof.
  intros H Hv Hd. pose proof (l_disposed _ _ _ H) as D. pose proof (l_out _ _ _ H) as O. unfold dispose, cancel, tell. rewrite D. cbn.
  split.
  - destruct (listener s); cbn; rewrite O; (eapply (live_gone d val s _ [s_error sec_disposed]); try done; right; left; by eexists).
  - destruct (listener s); (eapply (live_gone d val s _ []); try done; [by rewrite app_nil_r|by left]).
Qed.

(** What reactions may change. *)
Record reacted (d val : nat) (s s' : state) : Prop := {
  re_gone : disposed s' = true -> gone s';
  re_live : disposed s' = false -> live d val s' /\ buf s' = buf s /\ closed s' = closed s /\ err s' = err s /\ listener s' = listener s /\ notes s' = notes s
    /\ accepted s' = accepted s /\ (demand s <= demand s')%nat
    /\ if is_empty (buf s) then in_flight_demand_ s' = in_flight_demand_ s else demand s' = demand s /\ (in_flight_demand_ s <= in_flight_demand_ s')%nat;
}.

Context (Hdispose : forall b s, do_dispose b s = dispose s \/ do_dispose b s = cancel s).
Context (Hreact : forall tr, Forall (fun r => match r with r_request n => (0 < n)%nat | r_cancel => True end) (react tr)).

Lemma ucast_reactions_ok d val rs s :
  live d val s -> (val <= in_flight_demand_ s)%nat -> (d <= demand s)%nat ->
  Forall (fun r => match r with r_request n => (0 < n)%nat | r_cancel => True end) rs ->
  exists s', fold_left perform rs (Some s) = Some s' /\ reacted d val s s'.
Proof using Hdispose.
  assert (Hgone : forall rs s, gone s -> fold_left perform rs (Some s) = Some s).
  { clear -Hdispose. induction rs as [|r rs IH]; intros s Hg; [done|]. cbn [fold_left perform]. pose proof (g_disposed s Hg) as D. rewrite D.
    destruct r; [by apply IH|]. destruct (Hdispose false s) as [-> | ->]; unfold dispose, cancel; rewrite D; by apply IH. }
  revert s. induction rs as [|r rs IH]; intros s H Hv Hd Hr; cbn [fold_left].
  { exists s. split; [done|]. split; [by rewrite (l_disposed _ _ _ H)|]. intros _. split_and!; try done. by destruct (is_empty (buf s)). }
  apply Forall_cons in Hr as [Hn Hr]. destruct r as [n|]; cbn [perform].
  - rewrite (l_disposed _ _ _ H). unfold request. cbn [buf note_requested]. pose proof H as [H1 H2 H3 H4 H5 H6].
    destruct (is_empty (buf s)) eqn:E.
    + destruct (IH (set_demand (demand s + n) (note_requested n s))) as (s' & Hs & [R1 R2]); [split; cbn; done || lia|done|cbn; lia|done|].
      exists s'. split; [exact Hs|]. split; [done|]. intros D. destruct (R2 D) as (L & B & C & Er & Li & No & A & De & F). cbn in *. rewrite E in *. split_and!; try done. lia.
    + unfold pull. rewrite (proj2 (Nat.eqb_neq n 0)) by lia. cbn [in_flight_demand_ note_requested].
      destruct (IH (set_in_flight (in_flight_demand_ s + n) (note_requested n s))) as (s' & Hs & [R1 R2]); [split; cbn; done || lia|cbn; lia|done|done|].
      exists s'. split; [exact Hs|]. split; [done|]. intros D. destruct (R2 D) as (L & B & C & Er & Li & No & A & De & F). cbn in *. rewrite E in *. split_and!; try done; lia.
  - destruct (ucast_dispose_gone d val s H Hv Hd) as [G1 G2].
    assert (G : gone (do_dispose false s)) by (by destruct (Hdispose false s) as [-> | ->]).
    rewrite (Hgone _ _ G). eexists. split; [done|]. split; [done|]. by rewrite (g_disposed _ G).
Qed.

Lemma ucast_on_next_ok d val x s s0 :
  s0 = send (s_next x) s -> out s = true -> live d val s0 -> (val <= in_flight_demand_ s)%nat -> (d <= demand s)%nat ->
  exists s', on_next x s = Some s' /\ reacted d val s0 s'.
Proof using Hdispose Hreact. intros -> O H Hv Hd. unfold on_next. rewrite O. cbn [negb]. by apply ucast_reactions_ok. Qed.

(** *** Pulling *)

(** Sending the first item of the buffer, which stays there for the moment. *)
Lemma live_front val x r s : live 0 val s -> buf s = x :: r -> live 1 val (send (s_next x) s).
Proof.
  intros [H1 H2 H3 H4 H5 H6] B. split; cbn; try done; rewrite items_snoc; cbn.
  - by rewrite map_app, <- H3.
  - rewrite <- H4, B, <- app_assoc. done.
  - rewrite length_app. cbn. lia.
Qed.

Lemma live_pop val s : live 1 val s -> (0 < demand s)%nat -> live 0 val (set_demand (demand s - 1) (set_buf (tail (buf s)) s)).
Proof.
  intros [H1 H2 H3 H4 H5 H6] Hd. split; cbn; try done. lia.
Qed.

(** What the loop leaves behind: it ends for want of items or of demand. *)
Record pulled (val : nat) (s s' : state) : Prop := {
  pu_gone : disposed s' = true -> gone s';
  pu_live : disposed s' = false -> live 0 val s' /\ (buf s' = [] \/ demand s' = 0%nat) /\ closed s' = closed s /\ err s' = err s
    /\ accepted s' = accepted s /\ (in_flight_demand_ s <= in_flight_demand_ s')%nat /\ (length (buf s') <= length (buf s))%nat
    /\ ((in_flight_demand_ s < in_flight_demand_ s')%nat -> (length (buf s') < length (buf s))%nat)
    /\ listener s' = listener s /\ notes s' = notes s;
}.

Lemma ucast_pull_loop_ok fuel val s :
  live 0 val s -> (val <= in_flight_demand_ s)%nat -> (length (buf s) < fuel)%nat ->
  exists s', pull_loop fuel s = Some s' /\ pulled val s s'.
Proof using Hdispose Hreact.
  revert s. induction fuel as [|fuel IH]; intros s H Hv Hf; [lia|]. cbn [pull_loop]. destruct (buf s) as [|x r] eqn:B.
  { exists s. split; [done|]. split; [by rewrite (l_disposed _ _ _ H)|]. intros _. rewrite B. split_and!; try done; try lia. by left. }
  destruct (Nat.ltb_spec 0 (demand s)) as [Hd|Hd]; cycle 1.
  { exists s. split; [done|]. split; [by rewrite (l_disposed _ _ _ H)|]. intros _. split_and!; try done; lia. }
  destruct (ucast_on_next_ok 1 val x s _ eq_refl (l_out _ _ _ H) (live_front val x r s H B) Hv ltac:(lia)) as (s1 & -> & [R1 R2]).
  destruct (disposed s1) eqn:D1; [exists s1; split; [done|]; split; [intros _; by apply R1|congruence]|].
  destruct (R2 eq_refl) as (L & B1 & C1 & E1 & Li & No & A1 & De & F). cbn in *. rewrite B in *. cbn in F. destruct F as [F1 F2].
  destruct (IH (set_demand (demand s1 - 1) (set_buf (tail (buf s1)) s1))) as (s' & Hs & [P1 P2]).
  - apply live_pop; [done|lia].
  - cbn. lia.
  - cbn. rewrite B1. cbn in *. lia.
  - rewrite B1 in Hs |- *. cbn in Hs |- *. exists s'. split; [exact Hs|]. split; [done|]. intros D. destruct (P2 D) as (L' & Q & C & Er & A & I1 & I2 & I3 & Li' & No').
    assert (length (buf s) = S (length r)) by (by rewrite B). cbn in *. rewrite B1 in *. cbn in *. split_and!; try done; try lia; congruence.
Qed.

(** A round of [do_pull] starts with a live state whose buffer is not empty if it is closed. *)
Record round_end (n : nat) (s s' : state) : Prop := {
  ro_gone : disposed s' = true -> gone s';
  ro_live : disposed s' = false -> live 0 n s' /\ (buf s' = [] \/ demand s' = 0%nat) /\ (closed s' = true -> buf s' <> [])
    /\ accepted s' = accepted s /\ (n <= in_flight_demand_ s')%nat /\ ((n < in_flight_demand_ s')%nat -> (length (buf s') < length (buf s))%nat);
}.

Lemma ucast_do_pull_ok s :
  live 0 0 s -> exists s', do_pull (in_flight_demand_ s) s = Some s' /\ round_end (in_flight_demand_ s) s s'.
Proof using Hdispose Hreact.
  intros H. unfold do_pull. rewrite (l_disposed _ _ _ H). set (n := in_flight_demand_ s).
  assert (H' : live 0 n (set_demand (demand s + n) s)) by (destruct H; split; cbn; try done; lia).
  destruct (ucast_pull_loop_ok (S (length (buf s))) n _ H') as (s1 & Hs1 & [P1 P2]); [cbn; lia|cbn; lia|]. cbn [buf set_demand] in *. rewrite Hs1.
  destruct (disposed s1) eqn:D; [exists s1; split; [done|]; split; [intros _; by apply P1|congruence]|].
  destruct (P2 eq_refl) as (L & Q & C & Er & A & I1 & I2 & I3 & Li & No). cbn in *.
  destruct (is_empty (buf s1) && closed s1) eqn:E.
  - apply andb_true_iff in E as [E1 E2]. destruct (buf s1) eqn:B; [|done]. rewrite (l_out _ _ _ L). cbn [negb].
    eexists. split; [reflexivity|]. assert (G : gone (dispose (finish (match err s1 with None => s_complete | Some e => s_error e end) s1))).
    { pose proof (l_items _ _ _ L) as Hi. rewrite B, app_nil_r in Hi.
      unfold dispose, finish, tell. cbn. rewrite D. destruct (listener s1); cbn; (eapply (live_gone 0 n s1); [exact L|..]); try done; try lia;
        try (by destruct (err s1)); (destruct (err s1) as [e|] eqn:Ee; [right; left; by eexists|right; right]); cbn; rewrite items_snoc; cbn; by rewrite app_nil_r. }
    split; [done|]. by rewrite (g_disposed _ G).
  - assert (Hc : closed s1 = true -> buf s1 <> []) by (intros Hc; rewrite Hc in E; by destruct (buf s1)).
    eexists. split; [reflexivity|]. set (b := _ && negb _). assert (Ht : forall x, x = s1 \/ x = tell n_consumed s1 -> round_end n s x).
    { intros x [->| ->]; unfold tell; [|destruct (listener s1)]; (split; [by cbn; rewrite D|]); intros _; cbn; split_and!; try done;
        try (destruct L; by split). }
    apply Ht. destruct b; [by right|by left].
Qed.

(** Between two events: the demand and the buffer are not both there, unless a
    call of [do_pull] is scheduled, and a closed state still has items. *)
Record steady (s : state) : Prop := {
  st_live : live 0 0 s;
  st_flow : if is_pulling s then demand s = 0%nat /\ buf s <> [] else buf s = [] \/ demand s = 0%nat;
  st_closed : closed s = true -> buf s <> [];
}.

(** Without an observer nothing happens. *)
Record idle (s : state) : Prop := {
  id_disposed : disposed s = false;
  id_out : out s = false;
  id_demand : demand s = 0%nat;
  id_in_flight : in_flight_demand_ s = 0%nat;
  id_trace : trace s = [];
  id_accepted : accepted s = buf s;
  id_requested : requested s = 0%nat;
  id_closed : closed s = true -> buf s <> [];
  id_err : is_Some (err s) -> closed s = true;
}.

Definition inv (s : state) : Prop := gone s \/ steady s \/ idle s.

Lemma gone_pull_cb fuel s : (1 <= fuel)%nat -> gone s -> exists s', pull_cb fuel s = Some s' /\ gone s'.
Proof.
  intros Hf G. destruct fuel as [|fuel]; [lia|]. cbn [pull_cb]. unfold do_pull. rewrite (g_disposed _ G), Nat.sub_diag. cbn.
  eexists. split; [done|]. destruct G; by split.
Qed.

Lemma gone_in_flight s n : gone s -> gone (set_in_flight n s).
Proof. intros []; by split. Qed.

Lemma ucast_pull_cb_ok fuel s :
  live 0 0 s -> (length (buf s) + 2 <= fuel)%nat ->
  exists s', pull_cb fuel s = Some s' /\ (gone s' \/ steady s').
Proof using Hdispose Hreact.
  revert s. induction fuel as [|fuel IH]; intros s H Hf; [lia|]. cbn [pull_cb].
  destruct (ucast_do_pull_ok s H) as (s1 & -> & [R1 R2]). destruct (disposed s1) eqn:D.
  - pose proof (gone_in_flight s1 (in_flight_demand_ s1 - in_flight_demand_ s) (R1 eq_refl)) as G.
    destruct (0 <? _)%nat; [|eexists; split; [done|by left]]. destruct (gone_pull_cb fuel _ ltac:(lia) G) as (s' & -> & G'). eexists. split; [done|by left].
  - destruct (R2 eq_refl) as (L & Q & C & A & I1 & I2). cbn [in_flight_demand_ set_in_flight].
    assert (L' : live 0 0 (set_in_flight (in_flight_demand_ s1 - in_flight_demand_ s) s1)) by (destruct L; split; cbn; done || lia).
    destruct (Nat.ltb_spec 0 (in_flight_demand_ s1 - in_flight_demand_ s)).
    + apply IH; [done|]. cbn. assert (length (buf s1) < length (buf s))%nat by (apply I2; lia). lia.
    + eexists. split; [done|]. right. split; [done| |done]. unfold is_pulling. cbn [in_flight_demand_ set_in_flight note_requested]. rewrite (proj2 (Nat.ltb_ge _ _)) by lia. done.
Qed.

Lemma run_pull_ok s : inv s -> is_pulling s = true -> exists s', run_pull s = Some s' /\ inv s'.
Proof using Hdispose Hreact.
  intros [G|[H|H]] Hp; unfold run_pull.
  - destruct (gone_pull_cb (S (S (length (buf s)))) s ltac:(lia) G) as (s' & -> & G'). eexists. split; [done|by left].
  - destruct (ucast_pull_cb_ok (S (S (length (buf s)))) s (st_live s H) ltac:(lia)) as (s' & -> & [G|S]); eexists; (split; [done|]); [by left|by right; left].
  - unfold is_pulling in Hp. by rewrite (id_in_flight _ H) in Hp.
Qed.

(** *** The other events *)

Lemma push_ok x s : inv s -> exists b s', push x s = Some (b, s') /\ inv s'.
Proof using Hdispose Hreact.
  intros [G|[[L F C]|H]]; unfold push.
  - rewrite (g_disposed _ G). eexists _, _. split; [done|by left].
  - pose proof L as [H1 H2 H3 H4 H5 H6]. rewrite H1. cbn [demand note_accepted is_pulling in_flight_demand_].
    change (is_pulling (note_accepted x s)) with (is_pulling s). destruct ((0 <? demand s)%nat && negb (is_pulling s)) eqn:E.
    + apply andb_true_iff in E as [E1 E2]. apply Nat.ltb_lt in E1. apply negb_true_iff in E2. rewrite E2 in F. destruct F as [B|]; [|lia].
      cbn [buf note_accepted]. rewrite B. cbn [is_empty negb].
      assert (L' : live 0 0 (send (s_next x) (set_demand (demand s - 1) (note_accepted x s)))).
      { split; cbn; try done; rewrite ?items_snoc; cbn; rewrite ?map_app, <- ?H3; try done.
        - rewrite <- H4, B. cbn. by rewrite !app_nil_r.
        - rewrite length_app. cbn. lia. }
      destruct (ucast_on_next_ok 0 0 x (set_demand (demand s - 1) (note_accepted x s)) _ eq_refl) as (s' & -> & [R1 R2]); [done|done|lia|lia|].
      eexists _, _. split; [done|]. destruct (disposed s') eqn:D; [left; by apply R1|right; left]. destruct (R2 eq_refl) as (L1 & B1 & C1 & _ & _ & _ & _ & De & F1).
      cbn [buf send set_demand note_accepted in_flight_demand_ closed demand] in *. rewrite B in *. cbn [is_empty] in F1.
      split; [done| |by rewrite C1, B1]. unfold is_pulling in *. rewrite F1, E2. by left.
    + eexists _, _. split; [done|]. right. left. split.
      * split; cbn; try done. by rewrite <- H4, <- app_assoc.
      * change (is_pulling (set_buf _ _)) with (is_pulling s). destruct (is_pulling s).
        -- destruct F as [F1 F2]. split; [done|]. cbn. by destruct (buf s).
        -- right. rewrite andb_true_r in E. apply Nat.ltb_ge in E. cbn. lia.
      * cbn. by destruct (buf s).
  - pose proof H as []. rewrite id_disposed0. cbn [demand note_accepted]. rewrite id_demand0. cbn. eexists _, _. split; [done|]. right. right.
    split; cbn; try done; [by rewrite id_accepted0|]. by destruct (buf s).
Qed.

Lemma ucast_request_ok n s : inv s -> out s = true -> (0 < n)%nat -> exists s', request n s = Some s' /\ inv s'.
Proof using.
  intros [G|[[L F C]|H]] O Hn; [by rewrite (g_out _ G) in O| |by rewrite (id_out _ H) in O]. pose proof L as [H1 H2 H3 H4 H5 H6].
  unfold request. cbn [buf note_requested]. destruct (is_empty (buf s)) eqn:E.
  - destruct (buf s) eqn:B; [|done]. eexists. split; [done|]. right. left. split.
    + split; cbn; rewrite ?B; try done. lia.
    + change (is_pulling (set_demand _ _)) with (is_pulling s). destruct (is_pulling s); [by destruct F|by left].
    + cbn. by rewrite B.
  - unfold pull. rewrite (proj2 (Nat.eqb_neq n 0)) by lia. eexists. split; [done|]. right. left. split; [| |done].
    + split; cbn; try done. lia.
    + unfold is_pulling at 1. cbn [in_flight_demand_ set_in_flight note_requested]. rewrite (proj2 (Nat.ltb_lt _ _)) by lia. cbn [demand buf].
      assert (buf s <> []) by (by destruct (buf s)). destruct (is_pulling s); [by destruct F|]. by destruct F.
Qed.

Lemma ended_inv sig s :
  live 0 0 s -> in_flight_demand_ s = 0%nat -> buf s = [] -> (sig = s_complete /\ err s = None \/ exists e, sig = s_error e) ->
  closed s = true -> gone (finish sig (set_listener false (set_disposed s))).
Proof.
  intros L P B Hsig C. pose proof (l_items _ _ _ L) as Hi. rewrite B, app_nil_r in Hi. apply (live_gone 0 0 s _ [sig] L); try done; cbn; try lia.
  - by destruct Hsig as [[-> _]|[e ->]].
  - destruct Hsig as [[-> He]|[e ->]]; [right; right|right; left; by eexists]. cbn. rewrite items_snoc. cbn. by rewrite app_nil_r.
Qed.

Lemma closing sig s s1 :
  (s1 = set_closed s \/ exists e, sig = s_error e /\ s1 = set_err (Some e) (set_closed s)) ->
  (sig = s_complete /\ err s1 = None \/ exists e, sig = s_error e) ->
  (steady s \/ idle s) ->
  inv (if negb (is_pulling s1) && is_empty (buf s1) then
         let s2 := set_listener false (set_disposed s1) in if out s2 then finish sig s2 else s2
       else s1).
Proof.
  intros H1 Hsig Hs. assert (E : is_pulling s1 = is_pulling s /\ buf s1 = buf s /\ out s1 = out s) by (by destruct H1 as [->|(e & _ & ->)]).
  destruct E as (EP & EB & EO). rewrite EP, EB. cbn [out set_listener set_disposed]. rewrite EO. destruct Hs as [[L F C]|H].
  - assert (L1 : live 0 0 s1) by (destruct L; destruct H1 as [->|(e & _ & ->)]; split; done).
    rewrite (l_out _ _ _ L). destruct (negb (is_pulling s) && is_empty (buf s)) eqn:E.
    + apply andb_true_iff in E as [P B]. left. apply ended_inv; [done| | |done|].
      * unfold is_pulling in P. apply negb_true_iff, Nat.ltb_ge in P. destruct H1 as [->|(e & _ & ->)]; cbn; lia.
      * rewrite EB. by destruct (buf s).
      * by destruct H1 as [->|(e & _ & ->)].
    + right. left. assert (Hb : buf s <> []).
      { intros B. rewrite B in *. cbn [is_empty] in E. rewrite andb_true_r in E. apply negb_false_iff in E. rewrite E in F. by destruct F. }
      split; [done|by destruct H1 as [->|(e & _ & ->)]|by rewrite EB].
  - rewrite (id_out _ H). unfold is_pulling. rewrite (id_in_flight _ H). cbn [Nat.ltb Nat.leb negb andb].
    destruct (is_empty (buf s)) eqn:E.
    + left. destruct (buf s) eqn:B; [|done]. pose proof H as []. destruct H1 as [->|(e & _ & ->)]; (split; cbn; try done);
        rewrite ?id_trace0, ?id_accepted0; try (exists []; split; [done|by left]); try apply prefix_nil; exact (Nat.le_0_l _).
    + right. right. assert (buf s <> []) by (by destruct (buf s)). pose proof H as []. destruct H1 as [->|(e & _ & ->)]; split; done.
Qed.

Lemma close_ok s : inv s -> inv (close s).
Proof.
  intros [G|H]; unfold close; [rewrite (g_disposed _ G); by left|]. assert (disposed s = false) as -> by (destruct H as [[L _ _]|H]; [apply L|apply H]).
  destruct (err s) as [e|] eqn:E.
  - (* An error is on its way already. *)
    assert (Hc : closed s = true /\ buf s <> []) by (destruct H as [[L _ C]|[]]; [pose proof (l_err _ _ _ L)|]; rewrite E in *; naive_solver).
    destruct Hc as [Hc Hb]. cbn [buf set_closed]. destruct (buf s) eqn:B; [done|]. cbn [is_empty]. rewrite andb_false_r. right.
    destruct H as [H|H]; [left|right]; destruct s; cbn in *; by subst.
  - apply (closing s_complete s); [by left|left; done|done].
Qed.

Lemma abort_ok e s : inv s -> inv (abort e s).
Proof.
  intros [G|H]; unfold abort; [rewrite (g_disposed _ G); by left|]. assert (disposed s = false) as -> by (destruct H as [[L _ _]|H]; [apply L|apply H]).
  cbn [orb]. case_bool_decide; [by right|]. apply (closing (s_error e) s); [right; by eexists|right; by eexists|done].
Qed.

Lemma ucast_dispose_ok s : inv s -> inv (dispose s) /\ inv (cancel s).
Proof.
  intros [G|[H|H]].
  - unfold dispose, cancel. rewrite (g_disposed _ G). split; by left.
  - destruct (ucast_dispose_gone 0 0 s (st_live _ H)) as [G1 G2]; [lia..|]. split; by left.
  - pose proof H as []. unfold dispose, cancel, tell. rewrite id_disposed0. cbn. destruct (listener s); cbn; rewrite ?id_out0; split; left; split; cbn;
      rewrite ?id_trace0; try done; try (exists []; split; [done|by left]); try apply prefix_nil; exact (Nat.le_0_l _).
Qed.

Lemma inv_trace s : inv s -> exists e, trace s = map s_next (items (trace s)) ++ e /\ ending s e /\ (disposed s = false -> e = []).
Proof.
  intros [G|[[L _ _]|H]].
  - destruct (g_trace _ G) as (e & H1 & H2). exists e. split; [done|]. split; [done|]. by rewrite (g_disposed _ G).
  - exists []. rewrite app_nil_r. split; [apply L|]. split; [by left|done].
  - exists []. rewrite (id_trace _ H). split; [done|]. split; [by left|done].
Qed.

Lemma inv_items s : inv s -> items (trace s) `prefix_of` accepted s /\ (length (items (trace s)) <= requested s)%nat.
Proof.
  intros [G|[[L _ _]|H]].
  - split; apply G.
  - pose proof L as [_ _ _ H4 H5 _]. split; [by eexists|lia].
  - rewrite (id_trace _ H). split; [apply prefix_nil|exact (Nat.le_0_l _)].
Qed.

(** While nothing is scheduled, the observer has got whatever it could get. *)
Lemma inv_count s :
  inv s -> disposed s = false -> out s = true -> is_pulling s = false ->
  length (items (trace s)) = (requested s `min` length (accepted s))%nat.
Proof.
  intros [G|[[L F _]|H]] D O P; [by rewrite (g_disposed _ G) in D| |by rewrite (id_out _ H) in O].
  rewrite P in F. pose proof L as [_ _ _ H4 H5 _]. rewrite <- H4, length_app. unfold is_pulling in P. apply Nat.ltb_ge in P.
  destruct F as [F|F]; [rewrite F; cbn; lia|]. lia.
Qed.

(** ** The operator *)

(** What [ucast::subscribe] does for an observer: it subscribes it, or calls
    [on_complete] or [on_error] at once. *)
Inductive subscribed := Subscribed (s : state) | Completed | Failed (e : error) | TooManyObservers.

Definition subscribe (s : state) : subscribed :=
  if closed s then match err s with Some e => Failed e | None => Completed end
  else if out s then TooManyObservers
  else Subscribed (set_out true s).

Definition make : state := St [] 0 false false false None false 0 [] [] [] 0.

Inductive event :=
  | e_push (x : T)
  | e_close
  | e_abort (e : error)
  | e_subscribe
  | e_request (n : nat)
  | e_dispose (from_external : bool)
  | e_pull.

(** The observer subscribes once, uses its subscription until it ends and requests
    at least one item; the scheduled action runs when it was scheduled. *)
Definition allowed (ev : event) (s : state) : Prop :=
  match ev with
  | e_subscribe => disposed s = false /\ closed s = false /\ out s = false
  | e_request n => out s = true /\ (0 < n)%nat
  | e_dispose _ => out s = true
  | e_pull => is_pulling s = true
  | _ => True
  end.

Definition handle (ev : event) (s : state) : option state :=
  match ev with
  | e_push x => snd <$> push x s
  | e_close => Some (close s)
  | e_abort e => Some (abort e s)
  | e_subscribe => match subscribe s with Subscribed s' => Some s' | _ => None end
  | e_request n => request n s
  | e_dispose b => Some (do_dispose b s)
  | e_pull => run_pull s
  end.

Inductive reachable : state -> Prop :=
  | reach_start : reachable make
  | reach_step s ev s' : reachable s -> allowed ev s -> handle ev s = Some s' -> reachable s'.

Lemma ucast_handle_ok ev s : inv s -> allowed ev s -> exists s', handle ev s = Some s' /\ inv s'.
Proof using Hdispose Hreact.
  intros H Ha. destruct ev as [x| |e| |n|b|]; cbn [handle allowed] in *.
  - destruct (push_ok x s H) as (b & s' & -> & H'). by exists s'.
  - eexists. split; [done|by apply close_ok].
  - eexists. split; [done|by apply abort_ok].
  - destruct Ha as (D & C & O). unfold subscribe. rewrite C, O. eexists. split; [done|]. right. left.
    destruct H as [G|[[L _ _]|I]]; [by rewrite (g_disposed _ G) in D|by rewrite (l_out _ _ _ L) in O|]. pose proof I as [].
    split; [split; cbn; rewrite ?id_trace0; try done; cbn; rewrite ?id_accepted0; try done; rewrite id_demand0, id_in_flight0, id_requested0; done| |by cbn; rewrite C].
    unfold is_pulling. cbn [in_flight_demand_ set_out]. rewrite id_in_flight0. by right.
  - destruct Ha as [O Hn]. by apply ucast_request_ok.
  - eexists. split; [done|]. destruct (ucast_dispose_ok s H) as [H1 H2]. by destruct (Hdispose b s) as [-> | ->].
  - by apply run_pull_ok.
Qed.

Lemma ucast_reachable_inv s : reachable s -> inv s.
Proof using Hdispose Hreact.
  induction 1 as [|s ev s' _ IH Ha Hs]; [by right; right; split; cbn; try done; intros []|].
  destruct (ucast_handle_ok ev s IH Ha) as (s'' & Hs' & Hi). congruence.
Qed.

End State.
Arguments state : clear implicits.
Arguments event : clear implicits.

(** However producer, observer and scheduled actions interleave, no assertion of
    [ucast] fails, and the observer gets the pushed items in order, none twice,
    never more than it has requested.  Unless a call of [do_pull] is scheduled it
    has got all it could get: as many items as it requested, or all.  It gets
    at most one final signal and nothing behind it; completion comes only
    after the operator was closed and all items were delivered. *)
Theorem ucast_delivers {T} (react : list (signal T) -> list reaction) s :
  (forall tr, Forall (fun r => match r with r_request n => (0 < n)%nat | r_cancel => True end) (react tr)) ->
  reachable ucast_do_dispose react s ->
  (forall ev, allowed ev s -> is_Some (handle ucast_do_dispose react ev s))
  /\ items (trace s) `prefix_of` accepted s /\ (length (items (trace s)) <= requested s)%nat
  /\ (disposed s = false -> out s = true -> is_pulling s = false ->
      length (items (trace s)) = (requested s `min` length (accepted s))%nat)
  /\ (exists e, trace s = map s_next (items (trace s)) ++ e /\ (length e <= 1)%nat /\ (disposed s = false -> e = []))
  /\ (s_complete ∈ trace s -> closed s = true /\ err s = None /\ items (trace s) = accepted s).
Proof.
  intros Hreact Hs. assert (Hd : forall b (s : state T), ucast_do_dispose b s = dispose s \/ ucast_do_dispose b s = cancel s) by (intros [] ?; [by left|by right]).
  apply (ucast_reachable_inv _ _ Hd Hreact) in Hs. destruct (inv_items s Hs) as [H1 H2]. destruct (inv_trace s Hs) as (e & He & Hend & Hnil). split_and!; [|done|done| | |].
  - intros ev Ha. destruct (ucast_handle_ok _ _ Hd Hreact ev s Hs Ha) as (s' & -> & _). by eexists.
  - intros D O P. by apply inv_count.
  - exists e. split; [done|]. split; [|done]. destruct Hend as [->|[(x & ->)|(-> & _)]]; cbn; lia.
  - intros Hc. rewrite He, elem_of_app in Hc. destruct Hc as [(x & ? & _)%list_elem_of_fmap|Hc]; [done|].
    destruct Hend as [->|[(x & ->)|(-> & H3)]]; [by apply elem_of_nil in Hc|by apply list_elem_of_singleton in Hc|done].
Qed.

(** ** A run *)

Definition demo_react (tr : list (signal nat)) : list reaction := [r_request 1].

Definition demo_events : list (event nat) :=
  [e_push 1; e_subscribe; e_push 2; e_request 1; e_pull; e_push 3; e_close]%nat.

Fixpoint run (evs : list (event nat)) (s : state nat) : option (state nat) :=
  match evs with
  | [] => Some s
  | ev :: evs' => match handle ucast_do_dispose demo_react ev s with Some s' => run evs' s' | None => None end
  end.

Definition demo_end : state nat := default make (run demo_events make).

Lemma run_reachable evs s s' :
  reachable ucast_do_dispose demo_react s -> run evs s = Some s' ->
  (forall pre ev post x, evs = pre ++ ev :: post -> run pre s = Some x -> allowed ev x) -> reachable ucast_do_dispose demo_react s'.
Proof.
  revert s. induction evs as [|ev evs IH]; intros s Hs Hr Ha; cbn in Hr; [by injection Hr as <-|].
  destruct (handle ucast_do_dispose demo_react ev s) as [x|] eqn:Hx; [|done]. apply (IH x); [|done|].
  - apply (reach_step _ _ s ev); [done|by apply (Ha [] ev evs)|done].
  - intros pre ev' post y -> Hy. apply (Ha (ev :: pre) ev' post); [done|]. cbn. by rewrite Hx.
Qed.

Lemma ucast_demo_reachable : reachable ucast_do_dispose demo_react demo_end.
Proof.
  apply (run_reachable demo_events make); [constructor|vm_compute; reflexivity|].
  intros pre ev post x E Hx. unfold demo_events in E.
  do 7 (destruct pre as [|? pre]; [injection E as <- _; vm_compute in Hx; injection Hx as <-; cbn; repeat split; lia|injection E as <- E]).
  by destruct pre.
Qed.

Lemma ucast_delivers_witness :
  items (trace demo_end) `prefix_of` accepted demo_end
  /\ trace demo_end = [s_next 1; s_next 2; s_next 3; s_complete]%nat.
Proof.
  split; [|vm_compute; reflexivity].
  exact (proj1 (proj2 (ucast_delivers demo_react demo_end ltac:(intros tr; repeat constructor) ucast_demo_reachable))).
Defined.

(** ** Findings *)

(** [push] keeps items until an observer subscribes, but an observer that subscribes
    after [close] gets none of them. *)
Lemma closed_before_subscribe :
  exists s, run [e_push 1; e_push 2; e_close]%nat make = Some s /\ buf s = [1; 2]%nat /\ subscribe s = Completed.
Proof. eexists. split; [vm_compute; reflexivity|]. done. Qed.

(** After the observer has cancelled, the next one is subscribed to a disposed state:
    it gets neither items nor any final signal. *)
Lemma second_observer_starves :
  exists s s', run [e_subscribe; e_dispose false]%nat make = Some s /\ subscribe s = Subscribed s' /\
    forall x e n,
      push ucast_do_dispose demo_react x s' = Some (true, s') /\ close s' = s' /\ abort e s' = s'
      /\ option_map trace (request n s') = Some [].
Proof. eexists _, _. split; [vm_compute; reflexivity|]. split; [vm_compute; reflexivity|]. intros x e n. done. Qed.

(** An observer that cancels its subscription to a multicast operator gets an error,
    which [subscription::impl_base] reserves for calls from outside and [ucast]
    does not send. *)
Lemma multicast_cancel_signals {T} (s : state T) :
  disposed s = false -> out s = true ->
  trace (mcast_do_dispose false s) = trace s ++ [s_error sec_disposed] /\ trace (ucast_do_dispose false s) = trace s.
Proof.
  intros D O. unfold mcast_do_dispose, ucast_do_dispose, dispose, cancel, tell. rewrite D. cbn. by destruct (listener s); cbn; rewrite ?O.
Qed.

End FlowUcast.
